(* ===== verification/_CoqProject ===== *)
-Q . S2P
Prelude.v
Text.v
Tokenizer.v
Format.v
HttpRange.v
Pieces.v
Settings.v
Network.v
Policy.v
Storage.v
Segments.v
Packs.v
Store.v
Materialize.v
Steps.v
Sample.v
Eviction.v
Reading.v
Objects.v
Durability.v
Segmented.v
Windows.v
Reachable.v
Caching.v
Tables.v
Integrity.v
Statements.v
Isolation.v
Coordinator.v
Batch.v
SyncRun.v
Effects.v
Writer.v
Control.v
Runs.v
Sessions.v
Fixture.v
Upkeep.v
Pruning.v
Turns.v
Favorites.v
Progress.v
Retained.v
Radio.v
Ledger.v
RadioSteps.v
Rest.v
Closure.v
RadioFacts.v
Sql.v
Filters.v
Select.v
Matching.v
Shelf.v
Agreement.v
Queries.v
Listing.v
Edits.v
EditFacts.v
Populate.v
Threads.v
Resource.v
Playback.v
Slots.v
PlaybackFacts.v
Streams.v
Delivery.v
DeliveryFacts.v
Service.v
Content.v
Answers.v
Quiet.v
Responses.v
Registry.v
Comments.v
CommentFacts.v
