(* ===== verification/Prelude.v ===== *)
(** * Qcm backend: a verification development

    Qcm is a music client: a desktop application (C++ and QML) over a Rust backend in
    [src/backend/]. Providers (plugins for music services) send their libraries to the backend,
    which keeps them in SQLite tables, serves them to the application, and streams the media
    through a cache on disk. This library models parts of that backend as Rocq definitions
    that follow the source function by function, and proves what makes them correct.

    ** Parts, files and how they interact

    Prelude (this file): [result] for Rust's [Result], the state and error monad [ST] of
    stateful code with its reasoning rules ([steps], [steps_walk], [fold_st_ind]),
    machine integers ([u64_max], [checked_add], [wadd], [sat_add]), byte slices,
    little-endian encodings, tables as finite maps ([sieve], [find_first]). [Text]: the
    operations of [&str] the code uses, on the bytes of UTF-8.

    The resource cache, [backend/main/src/resource_cache/]:
    - [Format] ([format.rs]): block geometry, file header, packed index with dirty ranges;
      [Policy] ([policy.rs]): HTTP caching rules over a header map that is an interface;
    - [Storage] ([store.rs], [sqlite.rs]): the state of the storage thread, its tables, files
      and clocks; every statement and file operation goes through [io], which may fail or be
      the one the process dies in;
    - [Segments] ([segments.rs]), [Packs] ([objects.rs]), [Store] ([store.rs]),
      [Materialize] ([materialize.rs], opening and recovery): the operations, in the order in
      which they call each other;
    - [Steps] to [Reachable]: proofs. [Steps] has the elementary steps every operation is made
      of and the invariant [Inv]; [Reachable] the calls of the handles as requests, and all
      states a process and its successors can reach;
    - [Sample]: a concrete platform for the examples.

    HTTP and settings: [HttpRange] ([http/range.rs]), [Pieces] ([http/piece.rs]), [Settings]
    ([provider/settings.rs], [db/provider_settings.rs]), [Network] ([network.rs] of core and
    of main, [db/network.rs]).

    The library and its synchronisation, [backend/core/src/]:
    - [Tables] ([model/], and the migrations that create the tables): rows, unique indices,
      foreign keys and cascades; [Integrity], [Statements], [Isolation]: the relational
      invariant [well_formed] and what each statement does to it and to other providers;
    - [Coordinator] ([db/sync_run.rs]): the state per provider, guards, generations, and the
      requests that write outside a run ([process_qcm.rs], [provider_item.rs]). A guard is an
      asynchronous mutex: what is done under one is a sequence of steps. The environment may,
      at every statement, make the database fail, cancel a run, or move a generation on;
    - [Batch] ([db/sync_batch.rs]): what a provider sends and [ProviderWriter::apply];
      [SyncRun] ([db/sync_run.rs], [db/retention.rs]): full runs and the retention of items;
    - [Effects], [Writer], [Control], [Runs]: what programs over the tables do, on every way
      out; [Sessions]: requests in any order; [Fixture]: a small library for the examples.

    Radio, [backend/main/src/radio.rs]: [Retained] (the counts of [db/retention.rs] are those of
    the retentions that are held), [Radio] (sessions and operations; requests and tasks are
    threads whose steps, up to the next point where they wait, interleave in any order over the
    library of [Sessions]), [Ledger] (the invariant: where each session is in its life and who
    may touch it), [RadioSteps] (every step keeps it), [Rest] (locks are given back, and all
    threads can be run to their ends), [Closure] (what is retained with a song, where a session's
    retention comes from, and what the end of a run leaves of a song), [RadioFacts] (the
    properties).

    The lists of the user interface, [backend/main/src/]:
    - [Sql]: the conditions of the database as data, with their meaning over [Tables] (three-valued
      comparisons, correlated [EXISTS]); [Select]: selections, their order and the pages of
      [api/pagination.rs]; a name without a table is resolved, or refused, as the database does;
    - [Filters] ([db/filter.rs], identifiers of [identity.rs]): the condition built from the
      filters of a request; [Queries] ([api/entity_query.rs], [api/helper_sort.rs], the songs of
      [api/process_qcm.rs]): the requests;
    - [Matching]: what a request asks for, said without SQL; [Shelf]: a library for the examples;
      [Agreement], [Listing]: the conditions mean it and the lists are it.

    Edits of the library: [Edits] ([core/src/model/mix.rs], the mixes and the play log of
    [api/process_qcm.rs]) over the guards of [Coordinator]; [EditFacts]: what they do to the songs
    of a mix. [Populate] ([api/entity.rs]): the rows that responses carry, and their properties.

    Asynchronous services. [Threads]: code as atomic actions on shared state and questions to the
    world, which may be dropped at both; systems of threads that interleave; and what is proved of
    one thread alone, with the tokens it owns, that it holds for the system ([system_sound]).
    [Resource] ([core/src/resource.rs]): prepared resources, their headers and cache URLs.
    - Playback, [backend/main/src/playback.rs]: [Playback] (sessions of streamed songs, their
      routes and redirects, the handlers and the tasks), [Slots] (who owns a session, a slot or
      the right to close, as tokens), [PlaybackFacts] (the handlers are safe), [Streams] (the
      properties);
    - the request service of the cache, [resource_cache/service.rs], [object_service.rs],
      [file_delivery.rs]: [Delivery] (what only computes: headers, keys, ranges, heads),
      [DeliveryFacts]; [Service] ([respond], downloads and their transfers, readers, objects,
      leases: every request and every download is a thread, and the store is what [Store] promises
      to it: blocks that were written are there, or gone); [Content] (the invariant: whose bytes a
      block has; downloads keep it), [Answers] (so does [respond], and what it hands over),
      [Quiet] (requests that must not reach the provider), [Responses] (the properties). Whether a
      weak reference is alive, which of several downloads is found, and what a [select!] ends
      with are answers of the world.

    - providers and comments: [Registry] ([core/src/global.rs]: the providers in use, the stamps
      of their logins), [Comments] ([main/src/comments.rs], [core/src/provider/comment.rs], the
      errors of [main/src/error.rs]; the registry is looked at in actions of their own, the
      database and the provider are asked), [CommentFacts] (runs of one request, whatever
      others do to the registry meanwhile; tokens and scopes).

    Full-text search, [backend/main/src/fts/]: [Tokenizer] ([tokenizer.rs], and the entry point
    of [entry.rs]); Unicode normalisation is an interface.

    ** What the theorems show

    - Cache, durability and safety: what is in memory of a version is what its row stores, in
      every state that can be reached with failures and crashes ([Reachable]); packed objects
      stay intact ([Objects]); reads return verified bytes or nothing ([Reading]); what was
      written is read ([Caching]); evictions spare what is held, the segments under a reader's
      window too ([Windows]), and free enough ([Eviction]).
    - Cache, format and policy: geometry, tiling, header, refinement of a map by the packed
      index ([Format]); freshness, validators, merging and storing of headers ([Policy]).
    - Settings and HTTP: accepted values have their types, updates are atomic and optimistic,
      a restart finds what was accepted ([Settings], [Network]); pieces and ranges ([Pieces],
      [HttpRange]).
    - Library: integrity and isolation of providers over all sequences of requests ([Upkeep]);
      a finished run deletes exactly what it should ([Pruning]); no write is lost to a prune, a
      failed batch ends its run, one run at a time ([Turns]); the user's favourites win
      ([Favorites]); an enumerated run that nothing disturbs, of a library within the limits,
      completes ([Progress]).
    - Radio ([RadioFacts]): the songs of a session that can be continued are retained with
      their albums and artists and survive full runs, items and rows; a page of a session is
      made once, at the version that was expected; sessions are closed once; a shutdown comes to rest and lets go of everything.
    - Lists ([Agreement], [Listing]): the condition of every filter holds of the rows that match
      it; a list of albums has those of the libraries that match, once, in order, by pages.
    - Edits ([EditFacts]): a mix is a list of songs under its edits, with their number; a play is
      counted once per event and changes nothing else. Responses ([Populate]): the rows of every
      response are those it refers to and what these refer to, every field as it is stored.
    - Playback ([Streams]): a session is closed exactly once; sessions, routes and redirects are
      bounded; after the shutdown no session is registered, and each that was being opened has
      at most one closing task; what a client was given as a route comes back to the address it
      stands for.
    - Request service ([Responses], [DeliveryFacts]): blocks of two representations are never
      mixed, in the store, in memory or on the way to a client; a streamed answer is the range it
      was asked for, of the entry of its key; nothing panics as long as servers send what they
      say; a request with only-if-cached stays local; ranges and the heads of answers mean what
      HTTP says.
    - Providers and comments: a stamp names one login of one provider ([Registry]); a token of a
      page continues that page, of that item in that login, and nothing else; a page or a like is
      answered only in the login that was asked for it ([CommentFacts]).
    - Search: the tokens of a text are those of its maximal runs of one kind, letters lowered and
      other scripts in pairs of neighbours, each at its place ([Tokenizer]).

    ** Bounds and fuel

    Integers are [Z] with the wrap-around, the saturation or the check of the operation that is
    used; lengths of Rust collections and offsets that stay below [2^64] by construction are
    plain. Loops that are not structural take fuel: [grow_block] 3 (a block grows at most three
    times before it is the largest, shown by [geometry_new_spec]), [reserve_loop] one more than
    the number of resident versions (each turn drops one, shown by [reserve_index_bounds]),
    [stream] and [memory_frames] the bytes that are left and [take_chunk] the bytes of the chunk
    (every round takes one at least; that the fuel is enough is part of
    [service_never_panics]), loops that wait for others as many rounds as the world says and then
    wait for ever, printing of numbers 16 hexadecimal digits or the number of decimal digits of a [u64].

    ** Third-party code

    Digests, header maps and HTTP dates, JSON values, URLs and the HTTP client, tokens and UUIDs, the range
    header's grammar, the size of a batch as JSON text, the calendar, [LIKE] and texts read as
    numbers, the order of rows that a statement leaves open: parameters (type classes), with the
    documented behaviour a proof relies on as their laws, and an instance in the examples. Of the
    servers behind a provider, [genuine] says that an answer has the bytes it says it has, and
    [OneRepresentation] what a strong validator promises (RFC 9110). That two identities have
    different digests is nowhere assumed: the theorems on comments say "or there is a collision".
    SQLite is modelled by finite maps with the constraints of the schema; surrogate keys of
    relation tables are left out of the rows, since their unique indices identify these, and are
    a parameter where responses list them. [f64] is
    [spec_float].

    ** Not modelled

    Lua plugins, the search request and [db/sync.rs] (SQL text over tables of SQLite's own), the
    websocket and HTTP front end, start-up, SQLite's C interface of the tokenizer, the pinning of
    windows of segments while the service reads them (the store's side is modelled), the home page
    (requests that a provider answers, with their conversion), cryptography and the lyrics
    parser, and the application itself; see the manifest. *)
From stdpp Require Export base gmap strings list fin_maps numbers sorting.
From stdpp Require Import options.
#[local] Set Default Proof Using "Type*".

Create HintDb qcm.

(** ** Results: Rust's [Result<T, E>] *)

Inductive result (E A : Type) : Type :=
| Ok (a : A)
| Err (e : E).
Arguments Ok {E A} a.
Arguments Err {E A} e.

#[global] Instance result_ret E : MRet (result E) := λ A a, Ok a.
#[global] Instance result_bind E : MBind (result E) :=
  λ A B f r, match r with Ok a => f a | Err e => Err e end.
#[global] Instance result_fmap E : FMap (result E) :=
  λ A B f r, match r with Ok a => Ok (f a) | Err e => Err e end.

#[global] Instance result_eq_dec E A `{EqDecision E, EqDecision A} : EqDecision (result E A).
Proof. solve_decision. Defined.

(** [ensure!(cond, e)]: an early return with [e] when the condition fails. *)
Definition ensure {E} (b : bool) (e : E) : result E unit := if b then Ok tt else Err e.

(** [Option::ok_or]. *)
Definition ok_or {E A} (o : option A) (e : E) : result E A :=
  match o with Some a => Ok a | None => Err e end.

(** [Result::ok]. *)
Definition ok {E A} (r : result E A) : option A :=
  match r with Ok a => Some a | Err _ => None end.

(** [Result::map_err]. *)
Definition map_err {E F A} (f : E → F) (r : result E A) : result F A :=
  match r with Ok a => Ok a | Err e => Err (f e) end.

Definition is_ok {E A} (r : result E A) : bool :=
  match r with Ok _ => true | Err _ => false end.

(** [Option::is_none_or] and [Option::is_some_and]. *)
Definition is_none_or {A} (o : option A) (p : A → bool) : bool :=
  match o with None => true | Some a => p a end.
Definition is_some_and {A} (o : option A) (p : A → bool) : bool :=
  match o with None => false | Some a => p a end.

Lemma ensure_Ok {E} b (e : E) u : ensure b e = Ok u ↔ b = true.
Proof. destruct b, u; cbn; split; congruence. Qed.

Lemma ensure_bind_Ok {E A} b (e : E) (k : result E A) a :
  (ensure b e ;; k) = Ok a ↔ b = true ∧ k = Ok a.
Proof. destruct b; cbn; naive_solver. Qed.

Lemma result_bind_Ok {E A B} (r : result E A) (f : A → result E B) b :
  r ≫= f = Ok b ↔ ∃ a, r = Ok a ∧ f a = Ok b.
Proof. destruct r; cbn; naive_solver. Qed.

Lemma ok_or_Ok {E A} (o : option A) (e : E) a : ok_or o e = Ok a ↔ o = Some a.
Proof. destruct o; cbn; naive_solver. Qed.

(** ** Stateful, fallible code

    A method on [&mut self] with [?] inside: the state it leaves is kept on the
    error path as well. *)

Definition ST (S E A : Type) : Type := S → result E A * S.

#[global] Instance st_ret S E : MRet (ST S E) := λ A a s, (Ok a, s).
#[global] Instance st_bind S E : MBind (ST S E) :=
  λ A B f m s, match m s with
               | (Ok a, s') => f a s'
               | (Err e, s') => (Err e, s')
               end.

Definition get_st {S E} : ST S E S := λ s, (Ok s, s).
Definition put_st {S E} (s : S) : ST S E unit := λ _, (Ok tt, s).
Definition modify {S E} (f : S → S) : ST S E unit := λ s, (Ok tt, f s).
Definition gets {S E A} (f : S → A) : ST S E A := λ s, (Ok (f s), s).
Definition lift {S E A} (r : result E A) : ST S E A := λ s, (r, s).
Definition fail {S E A} (e : E) : ST S E A := λ s, (Err e, s).
Definition guard_st {S E} (b : bool) (e : E) : ST S E unit := lift (ensure b e).
(** Run [m] and hand its result to the caller as a value: [match m() { Ok.. Err.. }]. *)
Definition attempt {S E A} (m : ST S E A) : ST S E (result E A) :=
  λ s, let '(r, s') := m s in (Ok r, s').

(** A database transaction dropped on an error path is rolled back. *)
Definition in_txn {S E A} (m : ST S E A) : ST S E A :=
  λ s, match m s with (Ok a, s') => (Ok a, s') | (Err e, _) => (Err e, s) end.

Lemma bind_run {S E A B} (m : ST S E A) (f : A → ST S E B) s a s' :
  m s = (Ok a, s') → (m ≫= f) s = f a s'.
Proof. unfold mbind, st_bind. by intros ->. Qed.
Lemma bind_run_Err {S E A B} (m : ST S E A) (f : A → ST S E B) s e s' :
  m s = (Err e, s') → (m ≫= f) s = (Err e, s').
Proof. unfold mbind, st_bind. by intros ->. Qed.
Lemma bind_Ok_inv {S E A B} (m : ST S E A) (f : A → ST S E B) s b s' :
  (m ≫= f) s = (Ok b, s') → ∃ a s1, m s = (Ok a, s1) ∧ f a s1 = (Ok b, s').
Proof. unfold mbind, st_bind. destruct (m s) as [[a|e] s1]; [eauto|done]. Qed.
Lemma attempt_run {S E A} (m : ST S E A) s r s' : m s = (r, s') → attempt m s = (Ok r, s').
Proof. unfold attempt. by intros ->. Qed.

(** Run the first command of a sequence, whose result an equation gives. *)
Ltac run_bind H := unfold mbind at 1, st_bind at 1; rewrite H; cbv beta iota.
Ltac run_bind_in H J := unfold mbind at 1, st_bind at 1 in J; rewrite H in J; cbv beta iota in J.

(** A predicate on states kept by a computation, whether it returns or fails. *)
Definition keeps {S E A} (P : S → Prop) (m : ST S E A) : Prop := ∀ s, P s → P (m s).2.

Section keeps.
Context {S E : Type} (P : S → Prop).

Lemma keeps_ret {A} (a : A) : keeps P (mret a : ST S E A).
Proof. by intros s. Qed.
Lemma keeps_bind {A B} (m : ST S E A) (f : A → ST S E B) :
  keeps P m → (∀ a, keeps P (f a)) → keeps P (m ≫= f).
Proof.
  intros Hm Hf s HP. unfold mbind, st_bind. specialize (Hm s HP).
  destruct (m s) as [[a|e] s']; cbn in *; [by apply Hf|done].
Qed.
Lemma keeps_gets {A} (f : S → A) : keeps P (gets f : ST S E A).
Proof. by intros s. Qed.
Lemma keeps_get : keeps P (get_st : ST S E S).
Proof. by intros s. Qed.
Lemma keeps_lift {A} (r : result E A) : keeps P (lift r).
Proof. by intros s. Qed.
Lemma keeps_fail {A} (e : E) : keeps P (fail e : ST S E A).
Proof. by intros s. Qed.
Lemma keeps_guard b (e : E) : keeps P (guard_st b e).
Proof. by intros s. Qed.
Lemma keeps_attempt {A} (m : ST S E A) : keeps P m → keeps P (attempt m).
Proof. intros Hm s HP. unfold attempt. specialize (Hm s HP). by destruct (m s). Qed.
Lemma keeps_in_txn {A} (m : ST S E A) : keeps P m → keeps P (in_txn m).
Proof. intros Hm s HP. unfold in_txn. specialize (Hm s HP). by destruct (m s) as [[]]. Qed.
Lemma keeps_modify (f : S → S) : (∀ s, P s → P (f s)) → keeps P (modify f : ST S E unit).
Proof. intros Hf s HP. by apply Hf. Qed.
Lemma keeps_if {A} (b : bool) (m1 m2 : ST S E A) :
  (b = true → keeps P m1) → (b = false → keeps P m2) → keeps P (if b then m1 else m2).
Proof. destruct b; auto. Qed.
End keeps.

(** A relation between the state before and after, on every way out. *)
Definition steps {S E A} (R : S → S → Prop) (m : ST S E A) : Prop := ∀ s, R s (m s).2.

Section steps.
Context {S E : Type} (R : S → S → Prop) `{!PreOrder R}.

Lemma steps_ret {A} (a : A) : steps R (mret a : ST S E A).
Proof. intros s. cbn. reflexivity. Qed.
Lemma steps_bind {A B} (m : ST S E A) (f : A → ST S E B) :
  steps R m → (∀ a, steps R (f a)) → steps R (m ≫= f).
Proof.
  intros Hm Hf s. unfold mbind, st_bind. specialize (Hm s).
  destruct (m s) as [[a|e] s']; cbn in *; [|done]. etrans; [exact Hm|apply Hf].
Qed.
(** The continuation may use what the first part returned and where it left the state. *)
Lemma steps_bind_dep {A B} (m : ST S E A) (f : A → ST S E B) s :
  R s (m s).2 → (∀ a s', m s = (Ok a, s') → R s' (f a s').2) → R s ((m ≫= f) s).2.
Proof.
  intros Hm Hf. unfold mbind, st_bind. destruct (m s) as [[a|e] s']; cbn in *; [|done].
  etrans; [exact Hm|by apply Hf].
Qed.
Lemma steps_gets {A} (f : S → A) : steps R (gets f : ST S E A).
Proof. intros s. cbn. reflexivity. Qed.
Lemma steps_get : steps R (get_st : ST S E S).
Proof. intros s. cbn. reflexivity. Qed.
Lemma steps_lift {A} (r : result E A) : steps R (lift r).
Proof. intros s. cbn. reflexivity. Qed.
Lemma steps_fail {A} (e : E) : steps R (fail e : ST S E A).
Proof. intros s. cbn. reflexivity. Qed.
Lemma steps_guard b (e : E) : steps R (guard_st b e).
Proof. intros s. cbn. reflexivity. Qed.
Lemma steps_attempt {A} (m : ST S E A) : steps R m → steps R (attempt m).
Proof. intros Hm s. unfold attempt. specialize (Hm s). by destruct (m s). Qed.
Lemma steps_modify (f : S → S) : (∀ s, R s (f s)) → steps R (modify f : ST S E unit).
Proof. intros Hf s. apply Hf. Qed.
End steps.

Lemma steps_impl {S E A} (R1 R2 : S → S → Prop) (m : ST S E A) :
  (∀ s s', R1 s s' → R2 s s') → steps R1 m → steps R2 m.
Proof. intros Hi Hm s. apply Hi, Hm. Qed.

(** Walk through a program: sequencing, case analysis, and the database for the calls. *)
Ltac steps_walk :=
  repeat match goal with
  | |- steps _ (mret _) => apply (steps_ret _)
  | |- steps _ (gets _) => apply (steps_gets _)
  | |- steps _ get_st => apply (steps_get _)
  | |- steps _ (lift _) => apply (steps_lift _)
  | |- steps _ (fail _) => apply (steps_fail _)
  | |- steps _ (guard_st _ _) => apply (steps_guard _)
  | |- steps _ (_ ≫= _) => apply (steps_bind _); [|intros ?]
  | |- steps _ (attempt _) => apply (steps_attempt _)
  | |- steps _ (match ?x with _ => _ end) => destruct x
  | |- steps _ _ => solve [eauto with qcm]
  end.

#[export] Hint Resolve keeps_ret keeps_gets keeps_get keeps_lift keeps_fail keeps_guard
  keeps_attempt keeps_modify : qcm.

(** Split a result-valued hypothesis [r = Ok a] of [do]-notation code into its
    guards and intermediate values. *)
Ltac destruct_ok :=
  repeat match goal with
  | H : (ensure _ _ ;; _) = Ok _ |- _ => apply ensure_bind_Ok in H as [? H]
  | H : _ ≫= _ = Ok _ |- _ => apply result_bind_Ok in H as (? & ? & H)
  | H : ok_or _ _ = Ok _ |- _ => apply ok_or_Ok in H
  | H : ensure _ _ = Ok _ |- _ => apply ensure_Ok in H
  | H : mret _ = Ok _ |- _ => injection H as H
  | H : Ok _ = Ok _ |- _ => injection H as H
  | H : Err _ = Ok _ |- _ => discriminate H
  end.

(** Boolean tests on integers as propositions. *)
Ltac bool_lia :=
  repeat match goal with
  | H : (_ && _)%bool = true |- _ => apply andb_true_iff in H as [? ?]
  | H : (_ || _)%bool = false |- _ => apply orb_false_iff in H as [? ?]
  | H : negb _ = true |- _ => apply negb_true_iff in H
  | H : negb _ = false |- _ => apply negb_false_iff in H
  end; lia.

(** ** Machine integers

    [u64] and [usize] (64-bit targets) are integers in [0, 2^64); a plain [+], [-] or
    [*] of the code wraps, as in the release profile. *)
Open Scope Z_scope.

Definition u64_max : Z := 18446744073709551615.
Definition u32_max : Z := 4294967295.
Definition i64_max : Z := 9223372036854775807.
Definition i64_min : Z := -9223372036854775808.

Definition is_u64 (x : Z) : Prop := 0 ≤ x ≤ u64_max.
Definition is_byte (x : Z) : Prop := 0 ≤ x < 256.

Definition wrap64 (x : Z) : Z := x mod 18446744073709551616.
Definition wadd (a b : Z) : Z := wrap64 (a + b).
Definition wsub (a b : Z) : Z := wrap64 (a - b).
Definition wmul (a b : Z) : Z := wrap64 (a * b).
Definition sat_add (a b : Z) : Z := Z.min u64_max (a + b).
Definition sat_sub (a b : Z) : Z := Z.max 0 (a - b).
Definition checked_add (a b : Z) : option Z := if a + b <=? u64_max then Some (a + b) else None.
Definition checked_mul (a b : Z) : option Z := if a * b <=? u64_max then Some (a * b) else None.
(** [u64::div_ceil] as the standard library computes it. *)
Definition div_ceil (a b : Z) : Z := if 0 <? a mod b then a / b + 1 else a / b.
Definition opt_default {A} (d : A) (o : option A) : A := match o with Some a => a | None => d end.

Lemma wrap64_small x : is_u64 x → wrap64 x = x.
Proof. unfold is_u64, u64_max, wrap64. intros. apply Z.mod_small. lia. Qed.
Lemma wrap64_range x : is_u64 (wrap64 x).
Proof.
  unfold is_u64, u64_max, wrap64.
  pose proof (Z.mod_pos_bound x 18446744073709551616). lia.
Qed.
Lemma checked_add_Some a b c : checked_add a b = Some c → c = a + b ∧ a + b ≤ u64_max.
Proof. unfold checked_add. destruct (Z.leb_spec (a + b) u64_max); naive_solver. Qed.
Lemma wadd_small a b : is_u64 (a + b) → wadd a b = a + b.
Proof. apply wrap64_small. Qed.
Lemma wsub_small a b : is_u64 (a - b) → wsub a b = a - b.
Proof. apply wrap64_small. Qed.
Lemma wmul_small a b : is_u64 (a * b) → wmul a b = a * b.
Proof. apply wrap64_small. Qed.

Lemma div_ceil_bounds a b : 0 < b → (div_ceil a b - 1) * b < a ≤ div_ceil a b * b.
Proof.
  intros Hb. unfold div_ceil.
  pose proof (Z.div_mod a b). pose proof (Z.mod_pos_bound a b).
  destruct (Z.ltb_spec 0 (a mod b)); nia.
Qed.
Lemma div_ceil_le a b n : 0 < b → div_ceil a b ≤ n ↔ a ≤ n * b.
Proof. intros Hb. pose proof (div_ceil_bounds a b Hb). split; intros; nia. Qed.
Lemma div_ceil_lt a b n : 0 < b → n < div_ceil a b ↔ n * b < a.
Proof. intros Hb. pose proof (div_ceil_le a b n Hb). lia. Qed.
Lemma div_ceil_nonneg a b : 0 < b → 0 ≤ a → 0 ≤ div_ceil a b.
Proof. intros. pose proof (div_ceil_bounds a b). nia. Qed.
Lemma div_ceil_mono a b c : 0 < c → a ≤ b → div_ceil a c ≤ div_ceil b c.
Proof. intros. apply div_ceil_le; [done|]. pose proof (div_ceil_bounds b c). lia. Qed.

(** ** Lists *)

(** An element on the right of a [Forall2] has its partner on the left. *)
Lemma Forall2_right {A B} (P : A → B → Prop) l l' y :
  Forall2 P l l' → y ∈ l' → ∃ x, x ∈ l ∧ P x y.
Proof.
  induction 1 as [|x y' l l' HP _ IH]; [by intros ?%not_elem_of_nil|].
  intros [->|Hy]%elem_of_cons; [exists x; split; [left|done]|].
  destruct (IH Hy) as (z & ? & ?). exists z. split; [by right|done].
Qed.

(** ** Vectors indexed by machine integers *)

Definition zlen {A} (l : list A) : Z := Z.of_nat (length l).

(** [v[a..b]], [None] where Rust panics. *)
Definition slice {A} (l : list A) (a b : Z) : option (list A) :=
  if (0 <=? a) && (a <=? b) && (b <=? zlen l)
  then Some (take (Z.to_nat (b - a)) (drop (Z.to_nat a) l)) else None.

(** [v[a..a + data.len()].copy_from_slice(data)]: bytes outside the range are kept. *)
Definition write_at {A} (l : list A) (a : Z) (data : list A) : list A :=
  take (Z.to_nat a) l ++ data ++ drop (Z.to_nat a + length data) l.

(** The integers [a], [a+1], ... below [b]: [a..b]. *)
Definition zrange (a b : Z) : list Z := seqZ a (b - a).

Lemma elem_of_zrange i a b : i ∈ zrange a b ↔ a ≤ i < b.
Proof. unfold zrange. rewrite elem_of_seqZ. lia. Qed.

Lemma zlen_nonneg {A} (l : list A) : 0 ≤ zlen l.
Proof. unfold zlen. lia. Qed.
Lemma zlen_app {A} (l k : list A) : zlen (l ++ k) = zlen l + zlen k.
Proof. unfold zlen. rewrite length_app. lia. Qed.
Lemma zlen_replicate {A} n (x : A) : zlen (replicate n x) = Z.of_nat n.
Proof. unfold zlen. by rewrite length_replicate. Qed.

Lemma slice_Some {A} (l : list A) a b s :
  slice l a b = Some s → 0 ≤ a ≤ b ∧ b ≤ zlen l ∧ zlen s = b - a.
Proof.
  unfold slice, zlen. destruct ((0 <=? a) && (a <=? b) && (b <=? Z.of_nat (length l))) eqn:Hc;
    [|done]. intros [= <-]. rewrite length_take, length_drop. bool_lia.
Qed.
Lemma slice_is_Some {A} (l : list A) a b :
  0 ≤ a ≤ b → b ≤ zlen l → slice l a b = Some (take (Z.to_nat (b - a)) (drop (Z.to_nat a) l)).
Proof.
  intros. unfold slice.
  destruct ((0 <=? a) && (a <=? b) && (b <=? zlen l)) eqn:Hc; [done|].
  apply andb_false_iff in Hc as [Hc|Hc]; [apply andb_false_iff in Hc as [Hc|Hc]|]; lia.
Qed.
Lemma slice_lookup {A} (l : list A) a b s i :
  slice l a b = Some s → 0 ≤ i < b - a → s !! Z.to_nat i = l !! Z.to_nat (a + i).
Proof.
  intros Hs Hi. pose proof (slice_Some _ _ _ _ Hs) as (Ha & Hb & _).
  rewrite slice_is_Some in Hs by lia. injection Hs as <-.
  rewrite lookup_take_lt by lia. rewrite lookup_drop. f_equal. lia.
Qed.
Lemma slice_ext {A} (l k : list A) a b :
  zlen l = zlen k → (∀ i, a ≤ i < b → l !! Z.to_nat i = k !! Z.to_nat i) →
  slice l a b = slice k a b.
Proof.
  intros Hlen Hl. unfold slice. rewrite Hlen.
  destruct ((0 <=? a) && (a <=? b) && (b <=? zlen k)) eqn:Hc; [|done]. f_equal.
  apply list_eq. intros i. destruct (decide (i < Z.to_nat (b - a))%nat).
  - rewrite !lookup_take_lt, !lookup_drop by lia.
    specialize (Hl (a + Z.of_nat i)).
    replace (Z.to_nat a + i)%nat with (Z.to_nat (a + Z.of_nat i)) by bool_lia.
    apply Hl. bool_lia.
  - by rewrite !lookup_take_ge by lia.
Qed.

Lemma write_at_length {A} (l : list A) a d :
  0 ≤ a → a + zlen d ≤ zlen l → zlen (write_at l a d) = zlen l.
Proof.
  unfold write_at, zlen. intros.
  rewrite !length_app, length_take, length_drop. lia.
Qed.
Lemma write_at_lookup_in {A} (l : list A) a d i :
  0 ≤ a → a + zlen d ≤ zlen l → 0 ≤ i < zlen d →
  write_at l a d !! Z.to_nat (a + i) = d !! Z.to_nat i.
Proof.
  unfold write_at, zlen. intros.
  rewrite lookup_app_r; rewrite length_take; [|lia].
  rewrite lookup_app_l by lia. f_equal. lia.
Qed.
Lemma write_at_lookup_out {A} (l : list A) a d i :
  0 ≤ a → a + zlen d ≤ zlen l → 0 ≤ i → (i < a ∨ a + zlen d ≤ i) →
  write_at l a d !! Z.to_nat i = l !! Z.to_nat i.
Proof.
  unfold write_at, zlen. intros Ha Hl Hi [Hlt|Hge].
  - rewrite lookup_app_l by (rewrite length_take; lia). by rewrite lookup_take_lt by lia.
  - rewrite lookup_app_r by (rewrite length_take; lia). rewrite length_take.
    rewrite lookup_app_r by lia. rewrite lookup_drop. f_equal. lia.
Qed.
Lemma slice_write_at {A} (l : list A) a d :
  0 ≤ a → a + zlen d ≤ zlen l → slice (write_at l a d) a (a + zlen d) = Some d.
Proof.
  intros Ha Hl. rewrite slice_is_Some; [|unfold zlen in *; lia|by rewrite write_at_length].
  f_equal. unfold write_at, zlen in *.
  rewrite drop_app_ge by (rewrite length_take; lia). rewrite length_take.
  replace (Z.to_nat a - Z.to_nat a `min` length l)%nat with 0%nat by lia. rewrite drop_0.
  rewrite take_app_le by lia. rewrite take_ge; [done|lia].
Qed.

(** ** Little-endian encodings: [to_le_bytes] and [from_le_bytes] *)

Fixpoint to_le (n : nat) (x : Z) : list Z :=
  match n with
  | O => []
  | S n => x mod 256 :: to_le n (x / 256)
  end.
Fixpoint from_le (l : list Z) : Z :=
  match l with
  | [] => 0
  | b :: l => b + 256 * from_le l
  end.

Lemma to_le_length n x : length (to_le n x) = n.
Proof. revert x. induction n; intros; cbn; auto. Qed.
Lemma to_le_bytes n x : Forall is_byte (to_le n x).
Proof.
  revert x. induction n; intros; cbn; constructor; auto.
  unfold is_byte. pose proof (Z.mod_pos_bound x 256). lia.
Qed.
Lemma from_to_le n x : 0 ≤ x < 256 ^ Z.of_nat n → from_le (to_le n x) = x.
Proof.
  revert x. induction n as [|n IH]; intros x Hx.
  { cbn in *. lia. }
  cbn [to_le from_le]. rewrite Nat2Z.inj_succ, Z.pow_succ_r in Hx by lia.
  rewrite IH; [pose proof (Z.div_mod x 256); lia|].
  pose proof (Z.div_mod x 256). pose proof (Z.mod_pos_bound x 256). nia.
Qed.
Lemma from_le_range l : Forall is_byte l → 0 ≤ from_le l < 256 ^ zlen l.
Proof.
  induction 1 as [|b l Hb _ IH]; unfold zlen in *; cbn [from_le length]; [cbn; lia|].
  unfold is_byte in Hb. rewrite Nat2Z.inj_succ, Z.pow_succ_r by lia. nia.
Qed.
Lemma to_le_inj n x y :
  0 ≤ x < 256 ^ Z.of_nat n → 0 ≤ y < 256 ^ Z.of_nat n → to_le n x = to_le n y → x = y.
Proof. intros Hx Hy Heq. rewrite <- (from_to_le n x), <- (from_to_le n y) by done. by rewrite Heq. Qed.

(** ** Finite maps *)

Section maps.
Context {K : Type} `{Countable K} {R : Type}.
Implicit Types (m : gmap K R) (k : K) (r : R).

(** The entries that satisfy [p]. *)
Definition sieve (p : K → R → bool) m : gmap K R := filter (λ kr, p kr.1 kr.2 = true) m.

Lemma lookup_sieve p m k r : sieve p m !! k = Some r ↔ m !! k = Some r ∧ p k r = true.
Proof. unfold sieve. apply map_lookup_filter_Some. Qed.
Lemma sieve_subseteq p m : sieve p m ⊆ m.
Proof. apply map_filter_subseteq. Qed.

Definition has m k : bool := bool_decide (is_Some (m !! k)).
Lemma has_true m k : has m k = true ↔ is_Some (m !! k).
Proof. unfold has. apply bool_decide_eq_true. Qed.
End maps.

#[global] Arguments sieve : simpl never.
#[global] Arguments has : simpl never.

(** Some entry whose value satisfies [p]. *)
Definition find_first {R} (p : R → bool) (m : gmap Z R) : option (Z * R) :=
  head (filter (λ kr, p kr.2 = true) (map_to_list m)).

Lemma find_first_Some {R} (p : R → bool) (m : gmap Z R) k r :
  find_first p m = Some (k, r) → m !! k = Some r ∧ p r = true.
Proof.
  unfold find_first. intros Hh. apply head_Some_elem_of in Hh.
  apply list_elem_of_filter in Hh as [Hp Hin]. by apply elem_of_map_to_list in Hin.
Qed.
Lemma find_first_None {R} (p : R → bool) (m : gmap Z R) k r :
  find_first p m = None → m !! k = Some r → p r = false.
Proof.
  unfold find_first. intros Hn Hk. apply not_true_iff_false. intros Hp.
  apply head_None in Hn. apply elem_of_map_to_list in Hk.
  by eapply (filter_nil_not_elem_of (λ kr : Z * R, p kr.2 = true) _ (k, r)).
Qed.

Lemma is_some_and_true {A} (o : option A) p :
  is_some_and o p = true ↔ ∃ a, o = Some a ∧ p a = true.
Proof. destruct o; cbn; naive_solver. Qed.
Lemma is_some_and_false {A} (o : option A) p :
  is_some_and o p = false ↔ ∀ a, o = Some a → p a = false.
Proof. destruct o; cbn; naive_solver. Qed.
Lemma is_none_or_true {A} (o : option A) p :
  is_none_or o p = true ↔ ∀ a, o = Some a → p a = true.
Proof. destruct o; cbn; naive_solver. Qed.

(** ** Loops over a list, with an accumulator *)

Fixpoint fold_st {S E A B} (f : B → A → ST S E B) (b : B) (l : list A) : ST S E B :=
  match l with
  | [] => mret b
  | a :: l => b' ← f b a ; fold_st f b' l
  end.
Definition for_each {S E A} (f : A → ST S E unit) : list A → ST S E unit :=
  fold_st (λ _, f) tt.

(** A loop that ends: an invariant over the elements done, the accumulator and the state. *)
Lemma fold_st_ind {S E A B} (f : B → A → ST S E B) (I : list A → B → S → Prop) l b s b' s' :
  I [] b s →
  (∀ d a b s b' s', a ∈ l → I d b s → f b a s = (Ok b', s') → I (d ++ [a]) b' s') →
  fold_st f b l s = (Ok b', s') → I l b' s'.
Proof.
  intros H0 Hf. change l with ([] ++ l) at 2. revert H0. generalize (@nil A) as d.
  revert b s. induction l as [|a l IH]; intros b s d Hd Hr.
  { cbn in Hr. injection Hr as -> ->. by rewrite app_nil_r. }
  cbn in Hr. apply bind_Ok_inv in Hr as (b1 & s1 & H1 & H2).
  replace (d ++ a :: l) with ((d ++ [a]) ++ l) by by rewrite <- app_assoc.
  eapply IH; [|by eapply Hf; [left| |]|exact H2].
  intros. eapply Hf; [by right|..]; eassumption.
Qed.
Lemma steps_fold_st {S E A B} (R : S → S → Prop) `{!PreOrder R} (f : B → A → ST S E B) l b :
  (∀ b a, a ∈ l → steps R (f b a)) → steps R (fold_st f b l).
Proof.
  revert b. induction l as [|a l IH]; intros b Hf; cbn; [by apply steps_ret|].
  apply steps_bind; [done|apply Hf; left|]. intros b'. apply IH. intros. apply Hf. by right.
Qed.
