(* ===== verification/Text.v ===== *)
(** * Text of the standard library

    The operations on [&str] the code uses: trimming, splitting, ASCII case, and decimal
    printing and parsing. A [&str] is the [string] of its UTF-8 bytes, so [String::len] is
    [slen]; the white space of [trim] is Unicode's, recognised in its UTF-8 form. *)
From S2P Require Import Prelude.
From stdpp Require Import options.
From Stdlib Require Import Ascii.

Open Scope Z_scope.

Definition code (c : ascii) : Z := Z.of_N (N_of_ascii c).
Definition chr (n : Z) : ascii := ascii_of_N (Z.to_N n).
Definition dquote : ascii := chr 34.
(** [str::len]: bytes. *)
Definition slen (s : string) : Z := Z.of_nat (String.length s).
Definition is_empty (s : string) : bool := match s with EmptyString => true | _ => false end.
Definition str_eqb (a b : string) : bool := String.eqb a b.

Fixpoint string_all (p : ascii → bool) (s : string) : bool :=
  match s with
  | EmptyString => true
  | String c s => p c && string_all p s
  end.

Definition is_digit (c : ascii) : bool := (48 <=? code c) && (code c <=? 57).
Definition is_upper (c : ascii) : bool := (65 <=? code c) && (code c <=? 90).
Definition is_lower (c : ascii) : bool := (97 <=? code c) && (code c <=? 122).
Definition is_alpha (c : ascii) : bool := is_upper c || is_lower c.
(** [u8::is_ascii_hexdigit]. *)
Definition is_hexdigit (c : ascii) : bool :=
  is_digit c || ((65 <=? code c) && (code c <=? 70)) || ((97 <=? code c) && (code c <=? 102)).

Definition lower (c : ascii) : ascii := if is_upper c then chr (code c + 32) else c.
Fixpoint to_ascii_lowercase (s : string) : string :=
  match s with EmptyString => EmptyString | String c s => String (lower c) (to_ascii_lowercase s) end.
Definition eq_ignore_ascii_case (a b : string) : bool :=
  str_eqb (to_ascii_lowercase a) (to_ascii_lowercase b).

(** ** [str::trim]: Unicode White_Space in UTF-8 *)

Definition ws1 (a : ascii) : bool := (code a =? 32) || ((9 <=? code a) && (code a <=? 13)).
(** U+0085 and U+00A0. *)
Definition ws2 (a b : ascii) : bool := (code a =? 194) && ((code b =? 133) || (code b =? 160)).
(** U+1680, U+2000 to U+200A, U+2028, U+2029, U+202F, U+205F and U+3000. *)
Definition ws3 (a b c : ascii) : bool :=
  ((code a =? 225) && (code b =? 154) && (code c =? 128))
  || ((code a =? 226) && (code b =? 128) &&
      (((128 <=? code c) && (code c <=? 138)) || (code c =? 168) || (code c =? 169) || (code c =? 175)))
  || ((code a =? 226) && (code b =? 129) && (code c =? 159))
  || ((code a =? 227) && (code b =? 128) && (code c =? 128)).

Fixpoint trim_start (s : string) : string :=
  match s with
  | String a s1 =>
    if ws1 a then trim_start s1
    else match s1 with
         | String b s2 =>
           if ws2 a b then trim_start s2
           else match s2 with
                | String c s3 => if ws3 a b c then trim_start s3 else s
                | EmptyString => s
                end
         | EmptyString => s
         end
  | EmptyString => EmptyString
  end.

Fixpoint srev_app (s acc : string) : string :=
  match s with EmptyString => acc | String c s => srev_app s (String c acc) end.
Definition srev (s : string) : string := srev_app s EmptyString.

(** The same on the reversed text: a multi-byte space is met last byte first. *)
Fixpoint trim_start_rev (s : string) : string :=
  match s with
  | String a s1 =>
    if ws1 a then trim_start_rev s1
    else match s1 with
         | String b s2 =>
           if ws2 b a then trim_start_rev s2
           else match s2 with
                | String c s3 => if ws3 c b a then trim_start_rev s3 else s
                | EmptyString => s
                end
         | EmptyString => s
         end
  | EmptyString => EmptyString
  end.
Definition trim_end (s : string) : string := srev (trim_start_rev (srev s)).
Definition trim (s : string) : string := trim_end (trim_start s).

(** [trim_matches(c)] for one ASCII character. *)
Fixpoint trim_start_matches1 (c : ascii) (s : string) : string :=
  match s with
  | String a s' => if Ascii.eqb a c then trim_start_matches1 c s' else s
  | EmptyString => EmptyString
  end.
Definition trim_matches1 (c : ascii) (s : string) : string :=
  srev (trim_start_matches1 c (srev (trim_start_matches1 c s))).

(** [strip_prefix], and [trim_start_matches] for a string pattern, which is removed
    repeatedly; every round shortens the text, so its length is enough fuel. *)
Fixpoint strip_prefix (p s : string) : option string :=
  match p, s with
  | EmptyString, s => Some s
  | String a p, String b s => if Ascii.eqb a b then strip_prefix p s else None
  | String _ _, EmptyString => None
  end.
Fixpoint trim_prefix_fuel (fuel : nat) (p s : string) : string :=
  match fuel with
  | O => s
  | S fuel => match strip_prefix p s with
              | Some s' => trim_prefix_fuel fuel p s'
              | None => s
              end
  end.
Definition trim_start_matches (p s : string) : string := trim_prefix_fuel (String.length s) p s.
Definition strip_suffix (p s : string) : option string :=
  option_map srev (strip_prefix (srev p) (srev s)).
Definition starts_with (p s : string) : bool :=
  match strip_prefix p s with Some _ => true | None => false end.

(** ** [str::split] by a character class, and [split_once] *)

Fixpoint split_on (p : ascii → bool) (s : string) : list string :=
  match s with
  | EmptyString => [EmptyString]
  | String c s =>
    if p c then EmptyString :: split_on p s
    else match split_on p s with
         | x :: xs => String c x :: xs
         | [] => [String c EmptyString]
         end
  end.
Definition split_char (c : ascii) : string → list string := split_on (Ascii.eqb c).

Fixpoint split_once (c : ascii) (s : string) : option (string * string) :=
  match s with
  | EmptyString => None
  | String a s =>
    if Ascii.eqb a c then Some (EmptyString, s)
    else match split_once c s with
         | Some (x, y) => Some (String a x, y)
         | None => None
         end
  end.

Fixpoint join (sep : string) (l : list string) : string :=
  match l with
  | [] => EmptyString
  | [x] => x
  | x :: l => (x +:+ sep +:+ join sep l)%string
  end.

(** ** Decimal integers: [Display] and [FromStr] *)

Definition digit_char (n : Z) : ascii := chr (n + 48).

(** Twenty digits cover every [u64] ([parse_show_u64]). *)
Fixpoint show_fuel (fuel : nat) (n : Z) (acc : string) : string :=
  match fuel with
  | O => acc
  | S fuel =>
    let acc := String (digit_char (n mod 10)) acc in
    if n <? 10 then acc else show_fuel fuel (n / 10) acc
  end.
Definition show_u64 (n : Z) : string := show_fuel 20 n EmptyString.

Fixpoint parse_digits (s : string) (acc : Z) : option Z :=
  match s with
  | EmptyString => Some acc
  | String c s => if is_digit c then parse_digits s (acc * 10 + (code c - 48)) else None
  end.

Definition parse_nonempty (s : string) : option Z :=
  match s with EmptyString => None | _ => parse_digits s 0 end.

(** [str::parse::<u64>]: an optional plus sign, at least one digit, no overflow. *)
Definition parse_u64 (s : string) : option Z :=
  let body := match s with String c r => if Ascii.eqb c (chr 43) then r else s | _ => s end in
  n ← parse_nonempty body; if n <=? u64_max then Some n else None.

(** [str::parse::<i64>]. *)
Definition parse_i64 (s : string) : option Z :=
  match s with
  | String c r =>
    if Ascii.eqb c (chr 45)
    then n ← parse_nonempty r; if n <=? - i64_min then Some (- n) else None
    else let body := if Ascii.eqb c (chr 43) then r else s in
         n ← parse_nonempty body; if n <=? i64_max then Some n else None
  | EmptyString => None
  end.

(** ** Lemmas *)

Lemma str_eqb_eq a b : str_eqb a b = true ↔ a = b.
Proof. apply String.eqb_eq. Qed.
Lemma str_eqb_refl a : str_eqb a a = true.
Proof. by apply str_eqb_eq. Qed.
Lemma str_eqb_neq a b : str_eqb a b = false ↔ a ≠ b.
Proof. apply String.eqb_neq. Qed.

Lemma is_empty_slen s : is_empty s = false ↔ 0 < slen s.
Proof. unfold slen. destruct s; cbn [is_empty String.length]; split; (done || lia). Qed.

Lemma code_chr n : 0 ≤ n < 256 → code (chr n) = n.
Proof.
  intros Hn. unfold code, chr. rewrite N_ascii_embedding by lia. lia.
Qed.

Lemma code_range c : 0 ≤ code c < 256.
Proof. unfold code. pose proof (N_ascii_bounded c). lia. Qed.

Lemma digit_char_is_digit n : 0 ≤ n < 10 → is_digit (digit_char n) = true.
Proof. intros. unfold is_digit, digit_char. rewrite code_chr by lia. lia. Qed.

Lemma string_all_app p a b : string_all p (a +:+ b) = string_all p a && string_all p b.
Proof. induction a as [|c a IH]; simpl; [done|]. rewrite IH. by rewrite andb_assoc. Qed.

(** Splitting at a separator that does not occur in the first part. *)
Lemma strip_prefix_app p s : strip_prefix p (p +:+ s)%string = Some s.
Proof.
  induction p as [|c p IH]; [done|]. change (String c p +:+ s)%string with (String c (p +:+ s)).
  cbn [strip_prefix]. by rewrite Ascii.eqb_refl.
Qed.
Lemma split_on_app p a c b :
  string_all (λ x, negb (p x)) a = true → p c = true →
  split_on p (a +:+ String c b) = a :: split_on p b.
Proof.
  intros Ha Hc. induction a as [|x a IH]; simpl in *; [by rewrite Hc|].
  apply andb_true_iff in Ha as [Hx Ha]. apply negb_true_iff in Hx. rewrite Hx, IH by done. done.
Qed.
Lemma split_on_none p a : string_all (λ x, negb (p x)) a = true → split_on p a = [a].
Proof.
  induction a as [|x a IH]; cbn; [done|]. intros [Hx Ha]%andb_true_iff.
  apply negb_true_iff in Hx. by rewrite Hx, IH.
Qed.

Lemma string_all_impl (p q : ascii → bool) s :
  (∀ c, p c = true → q c = true) → string_all p s = true → string_all q s = true.
Proof.
  intros Hpq. induction s as [|c s IH]; cbn; [done|]. intros [??]%andb_true_iff.
  apply andb_true_iff. auto.
Qed.

Lemma show_fuel_digits fuel : ∀ n acc,
  0 ≤ n → string_all is_digit acc = true → string_all is_digit (show_fuel fuel n acc) = true.
Proof.
  induction fuel as [|fuel IH]; intros n acc Hn Hacc; cbn [show_fuel]; [done|].
  assert (string_all is_digit (String (digit_char (n mod 10)) acc) = true) as Hd.
  { cbn. rewrite digit_char_is_digit by (apply Z.mod_pos_bound; lia). done. }
  case_match; [done|]. apply IH; [|done]. apply Z.div_pos; lia.
Qed.

Lemma show_u64_digits n : 0 ≤ n → string_all is_digit (show_u64 n) = true.
Proof. intros. by apply show_fuel_digits. Qed.

Lemma show_fuel_nonempty fuel : ∀ n acc, ∃ c s, show_fuel (S fuel) n acc = String c s.
Proof.
  induction fuel as [|fuel IH]; intros n acc; cbn [show_fuel].
  - case_match; by eexists _, _.
  - case_match; [by eexists _, _|]. apply IH.
Qed.

(** Printing a number below [10^fuel] and parsing it back. *)
Lemma parse_show_fuel fuel : ∀ n acc base,
  0 ≤ n < 10 ^ Z.of_nat fuel → (0 < fuel)%nat → 0 ≤ base →
  ∃ k, parse_digits (show_fuel fuel n acc) base = parse_digits acc (base * 10 ^ k + n) ∧ 0 ≤ k.
Proof.
  induction fuel as [|fuel IH]; intros n acc base Hn Hf Hb; [lia|]. cbn [show_fuel].
  pose proof (Z.mod_pos_bound n 10 ltac:(lia)) as Hm. pose proof (Z.div_mod n 10 ltac:(lia)) as Hd.
  assert (Hdig : ∀ b, parse_digits (String (digit_char (n mod 10)) acc) b
                 = parse_digits acc (b * 10 + n mod 10)).
  { intros b. cbn. rewrite digit_char_is_digit by lia. unfold digit_char.
    rewrite code_chr by lia. f_equal. lia. }
  destruct (Z.ltb_spec n 10).
  - exists 1. rewrite Hdig. split; [|lia]. f_equal. rewrite Z.mod_small by lia. lia.
  - rewrite Nat2Z.inj_succ, Z.pow_succ_r in Hn by lia.
    destruct fuel as [|fuel]; [cbn in Hn; lia|].
    destruct (IH (n / 10) (String (digit_char (n mod 10)) acc) base) as (k & Hk & Hk0);
      [lia|lia|lia|].
    exists (k + 1). rewrite Hk, Hdig. split; [|lia]. f_equal.
    rewrite Z.pow_add_r by lia. lia.
Qed.

Lemma parse_show_u64 n : is_u64 n → parse_u64 (show_u64 n) = Some n.
Proof.
  unfold is_u64, u64_max. intros Hn. unfold parse_u64, show_u64.
  destruct (show_fuel_nonempty 19 n EmptyString) as (c & s & Hs).
  pose proof (show_u64_digits n ltac:(lia)) as Hdig. unfold show_u64 in Hdig.
  destruct (parse_show_fuel 20 n EmptyString 0) as (k & Hk & _); [cbn; lia|lia|lia|].
  rewrite Hs in *. cbn in Hdig. apply andb_true_iff in Hdig as [Hc _].
  destruct (Ascii.eqb_spec c (chr 43)) as [->|_]; [by vm_compute in Hc|].
  unfold parse_nonempty. rewrite Hk. replace (0 * 10 ^ k + n) with n by lia.
  cbn [parse_digits mbind option_bind].
  destruct (Z.leb_spec n u64_max); [done|unfold u64_max in *; lia].
Qed.

Lemma parse_u64_range s n : parse_u64 s = Some n → is_u64 n.
Proof.
  assert (Hpos : ∀ s acc m, 0 ≤ acc → parse_digits s acc = Some m → 0 ≤ m).
  { clear. induction s as [|c s IH]; intros acc m Ha; cbn; [congruence|].
    unfold is_digit. destruct (_ && _) eqn:Hc; [|done]. apply IH. bool_lia. }
  unfold parse_u64. intros H. apply bind_Some in H as (m & Hm & H).
  destruct (Z.leb_spec m u64_max); [|done]. injection H as <-. split; [|done].
  unfold parse_nonempty in Hm. case_match; [done|]. eapply Hpos; [|exact Hm]. lia.
Qed.

(** ** Trimming twice is trimming once *)

Lemma srev_app_spec s acc : srev_app s acc = (srev s +:+ acc)%string.
Proof.
  unfold srev. revert acc.
  assert (H : ∀ s a b, srev_app s (a +:+ b) = (srev_app s a +:+ b)%string).
  { clear. induction s as [|c s IH]; intros a b; [done|]. simpl.
    change (String c (a +:+ b)) with (String c a +:+ b)%string. apply IH. }
  intros acc. by rewrite <- H.
Qed.

Lemma append_assoc (a b c : string) : ((a +:+ b) +:+ c)%string = (a +:+ b +:+ c)%string.
Proof.
  induction a as [|x a IH]; [done|].
  change (String x ((a +:+ b) +:+ c) = String x (a +:+ b +:+ c))%string. by rewrite IH.
Qed.
Lemma append_nil_r (a : string) : (a +:+ "")%string = a.
Proof. induction a as [|x a IH]; [done|]. change (String x (a +:+ "") = String x a)%string. by rewrite IH. Qed.

Lemma srev_cons c s : srev (String c s) = (srev s +:+ String c EmptyString)%string.
Proof. unfold srev at 1. simpl. by rewrite srev_app_spec. Qed.
Lemma srev_append a b : srev (a +:+ b) = (srev b +:+ srev a)%string.
Proof.
  induction a as [|c a IH]; [by rewrite append_nil_r|].
  change (srev (String c (a +:+ b)) = srev b +:+ srev (String c a))%string.
  rewrite !srev_cons, IH. by rewrite append_assoc.
Qed.
Lemma srev_involutive s : srev (srev s) = s.
Proof.
  induction s as [|c s IH]; [done|]. rewrite srev_cons, srev_append, IH. done.
Qed.

(** Both trimming loops drop a prefix. *)
Lemma trim_start_suffix s : ∃ p, s = (p +:+ trim_start s)%string.
Proof.
  remember (String.length s) as n eqn:Hn. assert (Hle : (String.length s ≤ n)%nat) by lia. clear Hn.
  revert s Hle. induction n as [|n IH]; intros s Hle; destruct s as [|a s]; try (by exists EmptyString).
  { cbn in Hle. lia. }
  cbn [trim_start]. cbn [String.length] in Hle. destruct (ws1 a).
  { destruct (IH s ltac:(lia)) as [p Hp]. exists (String a p). by rewrite Hp at 1. }
  destruct s as [|b s]; [by exists EmptyString|]. cbn [String.length] in Hle. destruct (ws2 a b).
  { destruct (IH s ltac:(lia)) as [p Hp]. exists (String a (String b p)). by rewrite Hp at 1. }
  destruct s as [|c s]; [by exists EmptyString|]. cbn [String.length] in Hle. destruct (ws3 a b c).
  { destruct (IH s ltac:(lia)) as [p Hp]. exists (String a (String b (String c p))). by rewrite Hp at 1. }
  by exists EmptyString.
Qed.
Lemma trim_start_rev_suffix s : ∃ p, s = (p +:+ trim_start_rev s)%string.
Proof.
  remember (String.length s) as n eqn:Hn. assert (Hle : (String.length s ≤ n)%nat) by lia. clear Hn.
  revert s Hle. induction n as [|n IH]; intros s Hle; destruct s as [|a s]; try (by exists EmptyString).
  { cbn in Hle. lia. }
  cbn [trim_start_rev]. cbn [String.length] in Hle. destruct (ws1 a).
  { destruct (IH s ltac:(lia)) as [p Hp]. exists (String a p). by rewrite Hp at 1. }
  destruct s as [|b s]; [by exists EmptyString|]. cbn [String.length] in Hle. destruct (ws2 b a).
  { destruct (IH s ltac:(lia)) as [p Hp]. exists (String a (String b p)). by rewrite Hp at 1. }
  destruct s as [|c s]; [by exists EmptyString|]. cbn [String.length] in Hle. destruct (ws3 c b a).
  { destruct (IH s ltac:(lia)) as [p Hp]. exists (String a (String b (String c p))). by rewrite Hp at 1. }
  by exists EmptyString.
Qed.

(** No white space at the front. *)
Definition front_clean (s : string) : Prop :=
  match s with
  | EmptyString => True
  | String a s1 => ws1 a = false ∧
    match s1 with
    | EmptyString => True
    | String b s2 => ws2 a b = false ∧
      match s2 with EmptyString => True | String c _ => ws3 a b c = false end
    end
  end.
Definition front_clean_rev (s : string) : Prop :=
  match s with
  | EmptyString => True
  | String a s1 => ws1 a = false ∧
    match s1 with
    | EmptyString => True
    | String b s2 => ws2 b a = false ∧
      match s2 with EmptyString => True | String c _ => ws3 c b a = false end
    end
  end.

Lemma trim_start_clean s : front_clean (trim_start s).
Proof.
  remember (String.length s) as n eqn:Hn. assert (Hle : (String.length s ≤ n)%nat) by lia. clear Hn.
  revert s Hle. induction n as [|n IH]; intros s Hle; destruct s as [|a s]; try done.
  { cbn in Hle. lia. }
  cbn [trim_start]. cbn [String.length] in Hle. destruct (ws1 a) eqn:H1; [apply IH; lia|].
  destruct s as [|b s]; [by cbn|]. cbn [String.length] in Hle.
  destruct (ws2 a b) eqn:H2; [apply IH; lia|].
  destruct s as [|c s]; [by cbn|]. cbn [String.length] in Hle.
  destruct (ws3 a b c) eqn:H3; [apply IH; lia|]. by cbn.
Qed.
Lemma trim_start_rev_clean s : front_clean_rev (trim_start_rev s).
Proof.
  remember (String.length s) as n eqn:Hn. assert (Hle : (String.length s ≤ n)%nat) by lia. clear Hn.
  revert s Hle. induction n as [|n IH]; intros s Hle; destruct s as [|a s]; try done.
  { cbn in Hle. lia. }
  cbn [trim_start_rev]. cbn [String.length] in Hle. destruct (ws1 a) eqn:H1; [apply IH; lia|].
  destruct s as [|b s]; [by cbn|]. cbn [String.length] in Hle.
  destruct (ws2 b a) eqn:H2; [apply IH; lia|].
  destruct s as [|c s]; [by cbn|]. cbn [String.length] in Hle.
  destruct (ws3 c b a) eqn:H3; [apply IH; lia|]. by cbn.
Qed.
Lemma trim_start_id s : front_clean s → trim_start s = s.
Proof.
  destruct s as [|a [|b [|c s]]]; cbn; [done|intros [-> _]; done|intros (-> & -> & _); done|].
  intros (-> & -> & ->). done.
Qed.
Lemma trim_start_rev_id s : front_clean_rev s → trim_start_rev s = s.
Proof.
  destruct s as [|a [|b [|c s]]]; cbn; [done|intros [-> _]; done|intros (-> & -> & _); done|].
  intros (-> & -> & ->). done.
Qed.
Lemma front_clean_prefix p q : front_clean (p +:+ q) → front_clean p.
Proof. destruct p as [|a [|b [|c p]]], q as [|? [|? ?]]; simpl; tauto. Qed.

Lemma trim_idem s : trim (trim s) = trim s.
Proof.
  unfold trim. set (t := trim_start s). assert (Ht : front_clean t) by apply trim_start_clean.
  assert (Hp : ∃ q, t = (trim_end t +:+ q)%string).
  { destruct (trim_start_rev_suffix (srev t)) as [p Hp]. exists (srev p).
    unfold trim_end. rewrite <- srev_append, <- Hp. by rewrite srev_involutive. }
  destruct Hp as [q Hq].
  assert (Hc : front_clean (trim_end t)) by (apply (front_clean_prefix _ q); by rewrite <- Hq).
  rewrite (trim_start_id _ Hc). unfold trim_end. rewrite srev_involutive.
  by rewrite trim_start_rev_id by apply trim_start_rev_clean.
Qed.
