(* ===== verification/Tokenizer.v ===== *)
(** * Full-text search: the tokenizer

    [backend/main/src/fts/tokenizer.rs] and the entry points of [backend/main/src/fts/entry.rs]
    that SQLite calls. A text is the list of its characters, as code points. The normal form
    NFKC is the [unicode-normalization] crate's, a parameter; [to_lowercase] is only called on
    words of ASCII letters. *)
From S2P Require Import Prelude.
From Stdlib Require Import Ascii.
From stdpp Require Import options.

Open Scope Z_scope.

Definition char : Type := Z.
Definition text (s : string) : list char :=
  (λ a, Z.of_nat (nat_of_ascii a)) <$> String.list_ascii_of_string s.

Inductive Token :=
| Alphabetic (word : list char) (start : Z)
| Numeric (digits : list char) (start : Z)
| NGram (gram : list char) (start : Z).

Module CharType.
Inductive t := Alphabetic | Numeric | Other | Separator.
#[global] Instance t_eq_dec : EqDecision t.
Proof. solve_decision. Defined.
End CharType.

Definition is_ascii_upper (c : char) : bool := (65 <=? c) && (c <=? 90).
Definition is_ascii_alphabetic (c : char) : bool :=
  is_ascii_upper c || ((97 <=? c) && (c <=? 122)).
Definition is_ascii_digit (c : char) : bool := (48 <=? c) && (c <=? 57).
Definition get_char_type (c : char) : CharType.t :=
  if is_ascii_alphabetic c then CharType.Alphabetic
  else if is_ascii_digit c then CharType.Numeric
  else if c <? 128 then CharType.Separator
  else CharType.Other.

(** [str::to_lowercase], for ASCII. *)
Definition to_lowercase (s : list char) : list char :=
  (λ c, if is_ascii_upper c then c + 32 else c) <$> s.

(** [windows(2)], numbered. *)
Fixpoint bigrams (pos : Z) (chars : list char) : list Token :=
  match chars with
  | a :: (b :: _) as rest => NGram [a; b] pos :: bigrams (pos + 1) rest
  | _ => []
  end.

Definition process_token (token : list char) (ty : CharType.t) (start_pos : Z) : list Token :=
  if bool_decide (token = []) then [] else
  match ty with
  | CharType.Numeric => [Numeric token start_pos]
  | CharType.Alphabetic => [Alphabetic (to_lowercase token) start_pos]
  | CharType.Other =>
      if zlen token <? 2 then [NGram token start_pos] else bigrams start_pos token
  | CharType.Separator => []
  end.

(** The variables of the loop. *)
Record Scan := mk_Scan {
  sc_result : list Token; sc_token : list char; sc_type : CharType.t;
  sc_start : Z; sc_pos : Z
}.
Definition flush (s : Scan) : list Token :=
  sc_result s ++ process_token (sc_token s) (sc_type s) (sc_start s).
Definition scan (s : Scan) (c : char) : Scan :=
  let ty := get_char_type c in
  let s :=
    if negb (bool_decide (ty = sc_type s)) && negb (bool_decide (sc_token s = []))
    then mk_Scan (flush s) [] (sc_type s) (sc_pos s) (sc_pos s) else s in
  let s :=
    if negb (bool_decide (ty = CharType.Separator)) then
      mk_Scan (sc_result s) (sc_token s ++ [c]) (sc_type s)
        (if bool_decide (sc_token s = []) then sc_pos s else sc_start s) (sc_pos s)
    else s in
  mk_Scan (sc_result s) (sc_token s) ty (sc_start s) (sc_pos s + 1).

(** [nfkc().collect()]. *)
Class Unicode := nfkc : list char → list char.

Section tokenizer.
Context `{Unicode}.

Definition tokenize (input : list char) : list Token :=
  let s := foldl scan (mk_Scan [] [] CharType.Separator 0 0) (nfkc input) in
  if bool_decide (sc_token s = []) then sc_result s else flush s.

Definition term (t : Token) : list char :=
  match t with
  | Alphabetic s _ | NGram s _ => s ++ text "*"
  | Numeric s _ => s
  end.
(** [join]. *)
Fixpoint join (sep : list char) (l : list (list char)) : list char :=
  match l with
  | [] => []
  | [x] => x
  | x :: l => x ++ sep ++ join sep l
  end.
Definition tokenize_query (query : list char) : list char :=
  join (text " AND ") (term <$> tokenize query).

(** ** [entry::tokenize]: what is reported to SQLite *)

(** The UTF-8 form of a character. *)
Definition utf8 (c : char) : list Z :=
  if c <? 128 then [c]
  else if c <? 2048 then [192 + c / 64; 128 + c mod 64]
  else if c <? 65536 then [224 + c / 4096; 128 + c / 64 mod 64; 128 + c mod 64]
  else [240 + c / 262144; 128 + c / 4096 mod 64; 128 + c / 64 mod 64; 128 + c mod 64].
Definition as_i32 (x : Z) : Z := (x + 2147483648) mod 4294967296 - 2147483648.
Definition token_text (t : Token) : list char :=
  match t with Alphabetic s _ | Numeric s _ | NGram s _ => s end.
Definition token_start (t : Token) : Z :=
  match t with Alphabetic _ p | Numeric _ p | NGram _ p => p end.
(** The arguments of one call of [x_token]: the token, its start and its end. *)
Definition callback (t : Token) : list Z * Z * Z :=
  let bytes := token_text t ≫= utf8 in
  let token_len := as_i32 (zlen bytes) in
  let start_pos := as_i32 (token_start t) in
  (bytes, start_pos, as_i32 (start_pos + token_len)).
Definition SQLITE_OK : Z := 0.
Definition SQLITE_ERROR : Z := 1.
Definition entry_tokenize (tokenizer : bool) (p_text : option (list char)) (x_token : bool) :
    Z * list (list Z * Z * Z) :=
  match p_text with
  | Some t =>
      if negb tokenizer then (SQLITE_ERROR, [])
      else (SQLITE_OK, if x_token then callback <$> tokenize t else [])
  | None => (SQLITE_ERROR, [])
  end.

End tokenizer.

(** ** Runs: the text cut where the type of its characters changes *)

Record Run := mk_Run { run_type : CharType.t; run_start : Z; run_chars : list char }.
Fixpoint runs (pos : Z) (l : list char) : list Run :=
  match l with
  | [] => []
  | c :: l =>
      let ty := get_char_type c in
      match runs (pos + 1) l with
      | r :: rest =>
          if decide (run_type r = ty) then mk_Run ty pos (c :: run_chars r) :: rest
          else mk_Run ty pos [c] :: r :: rest
      | [] => [mk_Run ty pos [c]]
      end
  end.
Definition run_tokens (r : Run) : list Token :=
  process_token (run_chars r) (run_type r) (run_start r).

(** The kinds of characters, said without the code: [A] to [Z] and [a] to [z], [0] to [9], what
    is beyond ASCII, and the rest of it. *)
Definition of_type (ty : CharType.t) (c : char) : Prop :=
  let letter := 65 ≤ c ≤ 90 ∨ 97 ≤ c ≤ 122 in
  let digit := 48 ≤ c ≤ 57 in
  match ty with
  | CharType.Alphabetic => letter
  | CharType.Numeric => digit
  | CharType.Other => 128 ≤ c
  | CharType.Separator => c < 128 ∧ ¬ letter ∧ ¬ digit
  end.
Lemma get_char_type_of c : of_type (get_char_type c) c.
Proof.
  unfold get_char_type, is_ascii_alphabetic, is_ascii_upper, is_ascii_digit, of_type.
  repeat match goal with |- context [?a <=? ?b] => destruct (Z.leb_spec a b); cbn end;
    try lia; destruct (Z.ltb_spec c 128); lia.
Qed.

(** The runs are the text; a run has one type, and its neighbours have others. *)
Record cut (pos : Z) (l : list char) (rs : list Run) : Prop := {
  ct_text : rs ≫= run_chars = l;
  ct_run : Forall (λ r, run_chars r ≠ [] ∧ Forall (of_type (run_type r)) (run_chars r)) rs;
  ct_maximal i r r' : rs !! i = Some r → rs !! S i = Some r' → run_type r ≠ run_type r';
  ct_start i r : rs !! i = Some r → run_start r = pos + zlen (take i rs ≫= run_chars);
}.

Lemma one_run c pos : Forall (λ r, run_chars r ≠ [] ∧ Forall (of_type (run_type r)) (run_chars r))
  [mk_Run (get_char_type c) pos [c]].
Proof. repeat (constructor; try done). apply get_char_type_of. Qed.
Lemma runs_head pos l r rs : runs pos l = r :: rs → run_start r = pos.
Proof.
  destruct l as [|c l]; [done|]. cbn. destruct (runs _ _) as [|r1 rs1]; [by intros [= <- <-]|].
  case_decide; by intros [= <- <-].
Qed.
Lemma runs_cut pos l : cut pos l (runs pos l).
Proof.
  revert pos. induction l as [|c l IH]; intros pos; [by split; cbn; try constructor|].
  cbn. destruct (IH (pos + 1)) as [Ht Hr Hm Hs]. destruct (runs (pos + 1) l) as [|r rs] eqn:Hruns.
  { cbn in Ht. subst l. split; cbn; [done|by apply one_run|by intros [|i]| ].
    intros [|i] r; [|done]. intros [= <-]. unfold zlen. cbn. lia. }
  apply Forall_cons in Hr as [[Hne Hty] Hr].
  pose proof (runs_head _ _ _ _ Hruns) as Hh.
  case_decide as Hd.
  - split; cbn in *.
    + by rewrite Ht.
    + constructor; [|done]. cbn. split; [done|]. constructor; [apply get_char_type_of|].
      by rewrite <- Hd.
    + intros [|i] a b Ha Hb; cbn in *.
      * injection Ha as <-. cbn. rewrite <- Hd. by eapply (Hm 0%nat).
      * by eapply (Hm (S i)).
    + intros [|i] a Ha; cbn in *; [injection Ha as <-; unfold zlen; cbn; lia|].
      rewrite (Hs (S i) a) by done. unfold zlen. cbn. rewrite !length_app. lia.
  - split; cbn in *.
    + by rewrite Ht.
    + apply Forall_app_2 with (l1 := [_]); [by apply one_run|]. by constructor.
    + intros [|i] a b Ha Hb; cbn in *.
      * injection Ha as <-. injection Hb as <-. cbn. congruence.
      * by eapply Hm.
    + intros [|i] a Ha; cbn in *; [injection Ha as <-; unfold zlen; cbn; lia|].
      rewrite (Hs i a) by done. unfold zlen. cbn. lia.
Qed.

(** ** The loop finds the runs *)

(** The runs of what is left, with what the loop holds of the first one. *)
Definition glue (s : Scan) (rs : list Run) : list Run :=
  if decide (sc_token s = []) then rs else
  match rs with
  | r :: rest =>
      if decide (run_type r = sc_type s)
      then mk_Run (sc_type s) (sc_start s) (sc_token s ++ run_chars r) :: rest
      else mk_Run (sc_type s) (sc_start s) (sc_token s) :: r :: rest
  | [] => [mk_Run (sc_type s) (sc_start s) (sc_token s)]
  end.
Definition idle (s : Scan) : Prop := sc_token s = [] ↔ sc_type s = CharType.Separator.

Lemma run_tokens_separator r : run_type r = CharType.Separator → run_tokens r = [].
Proof. intros Hr. unfold run_tokens, process_token. rewrite Hr. by case_bool_decide. Qed.
Lemma runs_separator pos c l :
  get_char_type c = CharType.Separator →
  runs pos (c :: l) ≫= run_tokens = runs (pos + 1) l ≫= run_tokens.
Proof.
  intros Hc. cbn [runs]. rewrite Hc. destruct (runs (pos + 1) l) as [|r rs]; [done|].
  case_decide as Hd; cbn [mbind list_bind]; [rewrite (run_tokens_separator r) by done|];
    by rewrite run_tokens_separator by done.
Qed.
Lemma glue_flush s : idle s →
  (if bool_decide (sc_token s = []) then sc_result s else flush s) =
  sc_result s ++ (glue s [] ≫= run_tokens).
Proof.
  intros Hs. unfold glue, flush. case_bool_decide; case_decide; try done; cbn; by rewrite ?app_nil_r.
Qed.
Lemma scan_pos s c : sc_pos (scan s c) = sc_pos s + 1.
Proof. unfold scan. cbn. by repeat case_match. Qed.
Lemma scan_idle s c : idle s → idle (scan s c).
Proof.
  destruct s as [res tok ty start pos]. unfold idle, scan. cbn. intros Hs.
  repeat (case_bool_decide; cbn); subst; try rewrite app_nil; naive_solver.
Qed.
Lemma runs_cons pos c l :
  ∃ r rest, runs pos (c :: l) = r :: rest ∧ run_type r = get_char_type c.
Proof. cbn. destruct (runs _ _) as [|r rs]; [by do 2 eexists|]. case_decide; by do 2 eexists. Qed.
(** A held token before a character of another type is a run of its own. *)
Lemma glue_other res tok ty start pos p c l :
  tok ≠ [] → get_char_type c ≠ ty →
  glue (mk_Scan res tok ty start pos) (runs p (c :: l)) = mk_Run ty start tok :: runs p (c :: l).
Proof.
  intros Ht Hc. unfold glue. cbn -[runs]. rewrite decide_False by done.
  destruct (runs_cons p c l) as (r & rest & -> & Hr). rewrite decide_False; [done|]. congruence.
Qed.
Lemma glue_none res ty start pos rs : glue (mk_Scan res [] ty start pos) rs = rs.
Proof. done. Qed.
Lemma glue_first res ty start pos c l :
  get_char_type c = ty → glue (mk_Scan res [c] ty pos start) (runs (pos + 1) l) = runs pos (c :: l).
Proof. intros <-. unfold glue. cbn. by destruct (runs (pos + 1) l). Qed.
Lemma glue_more res res' tok ty start pos pos' c l :
  tok ≠ [] → get_char_type c = ty →
  glue (mk_Scan res (tok ++ [c]) ty start pos) (runs (pos' + 1) l) =
  glue (mk_Scan res' tok ty start pos') (runs pos' (c :: l)).
Proof.
  intros Ht <-. unfold glue. cbn [sc_token sc_type sc_start].
  rewrite (decide_False (P := tok = [])), decide_False by (done || by intros []%app_nil).
  cbn [runs]. destruct (runs (pos' + 1) l) as [|r rs]; [by rewrite decide_True|].
  case_decide; cbn; rewrite decide_True by done; [by rewrite <- app_assoc|done].
Qed.

(** One turn of the loop. *)
Lemma scan_glue s c l : idle s →
  sc_result (scan s c) ++ (glue (scan s c) (runs (sc_pos s + 1) l) ≫= run_tokens) =
  sc_result s ++ (glue s (runs (sc_pos s) (c :: l)) ≫= run_tokens).
Proof.
  destruct s as [res tok ty start pos]. unfold idle, scan. cbn -[runs glue]. intros Hs.
  destruct (decide (get_char_type c = CharType.Separator)) as [Hc|Hc].
  - rewrite (bool_decide_eq_true_2 (get_char_type c = CharType.Separator)) by done.
    destruct (decide (tok = [])) as [->|Ht].
    + rewrite andb_false_r. cbn -[runs glue]. by rewrite !glue_none, runs_separator.
    + rewrite bool_decide_eq_false_2, (bool_decide_eq_false_2 (tok = [])) by naive_solver.
      cbn -[runs glue]. rewrite glue_other, glue_none by naive_solver.
      rewrite bind_cons, runs_separator by done. unfold flush. cbn. by rewrite <- app_assoc.
  - rewrite (bool_decide_eq_false_2 (get_char_type c = CharType.Separator)) by done.
    destruct (decide (tok = [])) as [->|Ht].
    + rewrite andb_false_r. cbn -[runs glue]. by rewrite glue_first, glue_none.
    + rewrite (bool_decide_eq_false_2 (tok = [])) by done.
      destruct (decide (get_char_type c = ty)) as [<-|Hty].
      * rewrite bool_decide_eq_true_2 by done. cbn -[runs glue].
        rewrite (bool_decide_eq_false_2 (tok = [])) by done.
        apply (f_equal (λ x, res ++ (x ≫= run_tokens))). by apply glue_more.
      * rewrite bool_decide_eq_false_2 by done. cbn -[runs glue].
        rewrite glue_other, glue_first by done. rewrite bind_cons. unfold flush. cbn.
        by rewrite <- app_assoc.
Qed.

(** ** What a run is reported as, said without the code *)

(** The same letter, in lower case. *)
Definition lower_of (c d : char) : Prop := (65 ≤ c ≤ 90 → d = c + 32) ∧ (¬ 65 ≤ c ≤ 90 → d = c).
(** Each character and the next one, at the place of the first. *)
Definition neighbours (start : Z) (chars : list char) (l : list Token) : Prop :=
  length l = pred (length chars) ∧
  ∀ i a b, chars !! i = Some a → chars !! S i = Some b → l !! i = Some (NGram [a; b] (start + Z.of_nat i)).
Definition reported (r : Run) (l : list Token) : Prop :=
  match run_type r with
  | CharType.Alphabetic =>
      ∃ word, l = [Alphabetic word (run_start r)] ∧ Forall2 lower_of (run_chars r) word
  | CharType.Numeric => l = [Numeric (run_chars r) (run_start r)]
  | CharType.Other =>
      (∃ c, run_chars r = [c] ∧ l = [NGram [c] (run_start r)]) ∨
      (2 ≤ zlen (run_chars r) ∧ neighbours (run_start r) (run_chars r) l)
  | CharType.Separator => l = []
  end.
Lemma bind_concat {A B} (f : A → list B) l : l ≫= f = concat (f <$> l).
Proof. induction l as [|x l IH]; [done|]. cbn. by rewrite <-IH. Qed.
Lemma to_lowercase_lower l : Forall2 lower_of l (to_lowercase l).
Proof.
  unfold to_lowercase. induction l as [|c l IH]; constructor; [|done].
  unfold lower_of, is_ascii_upper. destruct (Z.leb_spec 65 c), (Z.leb_spec c 90); cbn; lia.
Qed.
Lemma bigrams_neighbours l : ∀ start, neighbours start l (bigrams start l).
Proof.
  induction l as [|a [|b l] IH]; intros start; [by split|by split; [|intros [|i]]|].
  destruct (IH (start + 1)) as [Hlen Hi]. split; [cbn in *; by rewrite Hlen|].
  intros [|i] x y Hx Hy; [cbn in *; simplify_eq; do 2 f_equal; lia|].
  transitivity (bigrams (start + 1) (b :: l) !! i); [done|].
  rewrite (Hi i x y) by done. do 2 f_equal. lia.
Qed.
Lemma run_tokens_reported r : run_chars r ≠ [] → reported r (run_tokens r).
Proof.
  intros Hne. unfold reported, run_tokens, process_token. rewrite bool_decide_eq_false_2 by done.
  destruct (run_type r); try done.
  - eexists. split; [done|apply to_lowercase_lower].
  - destruct (run_chars r) as [|c [|d l]]; [done|by left; exists c|right].
    assert (2 ≤ zlen (c :: d :: l)) as H2 by (unfold zlen; cbn; lia).
    replace (zlen (c :: d :: l) <? 2) with false by lia.
    split; [done|apply bigrams_neighbours].
Qed.

Section equivalence.
Context `{Unicode}.

(** C36. The tokenizer cuts the normalised text into its maximal runs of ASCII letters, of ASCII
    digits, of characters beyond ASCII and of the rest, and reports each in turn at its place: a
    run of letters as one word in lower case, a run of digits as it is, a single character
    beyond ASCII as it is and a longer run of these as all its pairs of neighbours, each at the
    place of its first character; the rest separates and is not reported. *)
Theorem tokenize_runs input :
  ∃ rs ls, cut 0 (nfkc input) rs ∧ Forall2 reported rs ls ∧ tokenize input = concat ls.
Proof.
  exists (runs 0 (nfkc input)), (run_tokens <$> runs 0 (nfkc input)).
  pose proof (runs_cut 0 (nfkc input)) as Hcut. split_and!; [done| |].
  { apply Forall2_fmap_r, Forall_Forall2_diag. eapply Forall_impl; [apply Hcut|].
    intros r [Hne _]. by apply run_tokens_reported. }
  clear Hcut. rewrite <-bind_concat.
  unfold tokenize. generalize (nfkc input). intros l.
  assert (∀ s, idle s →
    (let e := foldl scan s l in if bool_decide (sc_token e = []) then sc_result e else flush e) =
    sc_result s ++ (glue s (runs (sc_pos s) l) ≫= run_tokens)) as Hl; [|by apply Hl].
  induction l as [|c l IH]; intros s Hs; [by apply glue_flush|].
  cbn [foldl]. rewrite IH by by apply scan_idle. by rewrite <- scan_glue, scan_pos by done.
Qed.
End equivalence.

(** The starts are counted in characters of the normalised text, the ends add bytes: of the
    text [世a], SQLite is told that [a] is at byte 1. It is at byte 3. *)
Lemma token_offsets_are_not_bytes :
  entry_tokenize (H := id) true (Some (19990 :: text "a")) true =
  (SQLITE_OK, [([228; 184; 150], 0, 3); ([97], 1, 2)]).
Proof. vm_compute. reflexivity. Qed.
Example mixed_query :
  tokenize_query (H := id) (text "Hello" ++ [19990; 30028; 20154] ++ text "-123") =
  text "hello* AND " ++ [19990; 30028] ++ text "* AND " ++ [30028; 20154] ++ text "* AND 123".
Proof. vm_compute. reflexivity. Qed.
(** Ab世界, 7: a word, a pair and a number. *)
Lemma tokenize_runs_witness :
  ∃ rs ls, cut 0 (text "Ab" ++ [19990; 30028] ++ text " 7") rs ∧ Forall2 reported rs ls ∧
    concat ls = [Alphabetic (text "ab") 0; NGram [19990; 30028] 2; Numeric (text "7") 5].
Proof.
  destruct (tokenize_runs (H := id) (text "Ab" ++ [19990; 30028] ++ text " 7")) as (rs & ls & Hc & Hf & Ht).
  exists rs, ls. split; [exact Hc|]. split; [exact Hf|]. rewrite <-Ht. vm_compute. reflexivity.
Defined.
