(* ===== verification/Format.v ===== *)
(** * Block geometry and index of the resource cache

    Models [backend/main/src/resource_cache/format.rs]: the layout of a cached resource in
    blocks ([Geometry], [Layout]), the 64-byte file header and the packed in-memory block
    index ([Index]) with the list of byte ranges that must be written back to the database.
    The hash function of the OpenSSL binding is the [Digest] interface. *)
From S2P Require Import Prelude.
From stdpp Require Import options.

Open Scope Z_scope.

(** ** The hash function behind [crypto::digest] *)

Class Digest := digest : list Z → result string (list Z).

(** What the documentation of SHA-256 promises: 32 bytes for every input. *)
Class Sha256Ok (D : Digest) : Prop :=
  sha256_ok : ∀ data, ∃ h, digest data = Ok h ∧ length h = 32%nat ∧ Forall is_byte h.

(** ** Constants *)

Definition MIN_BLOCK : Z := 256 * 1024.
Definition MAX_BLOCK : Z := 1024 * 1024.
Definition HEADER_LEN : Z := 64.
Definition ENTRY_LEN : Z := 36.
Definition SEGMENT_BYTES : Z := 16 * 1024 * 1024.
Definition WINDOW_BYTES : Z := 4 * 1024 * 1024.
(** The bytes of [QCMRSC01]. *)
Definition MAGIC : list Z := [81; 67; 77; 82; 83; 67; 48; 49].

(** ** Geometry *)

Record Geometry := mk_Geometry { g_length : Z; g_block : Z }.

Definition valid_block (b : Z) : bool := (b =? MIN_BLOCK) || (b =? 524288) || (b =? MAX_BLOCK).

Definition Geometry_count (g : Geometry) : Z := div_ceil (g_length g) (g_block g).

(** The [while] loop of [Geometry::new]; three rounds suffice since the block doubles from
    [MIN_BLOCK] to at most [MAX_BLOCK] ([grow_block_fuel]). *)
Fixpoint grow_block (fuel : nat) (length block : Z) : Z :=
  match fuel with
  | O => block
  | S fuel =>
    if (8192 <? div_ceil length block) && (block <? MAX_BLOCK)
    then grow_block fuel length (wmul block 2) else block
  end.

Definition Geometry_new (length : Z) : result string Geometry :=
  let value := mk_Geometry length (grow_block 3 length MIN_BLOCK) in
  ensure (Geometry_count value <=? 1000000) "resource index exceeds memory limit" ;;
  mret value.

Definition Geometry_range (g : Geometry) (index : Z) : result string (Z * Z) :=
  ensure (index <? Geometry_count g) "block out of bounds" ;;
  mret (wmul index (g_block g), Z.min (wmul (wadd index 1) (g_block g)) (g_length g)).

Definition Geometry_offset (g : Geometry) (slot : Z) : result string Z :=
  o ← ok_or (checked_mul slot (g_block g)) "slot overflow";
  ok_or (checked_add HEADER_LEN o) "offset overflow".

(** ** Layout *)

Inductive Layout := Blocks | Segments (bytes : Z).

#[global] Instance Layout_eq_dec : EqDecision Layout.
Proof. solve_decision. Defined.

Definition Layout_for_resource (kind length : Z) : Layout :=
  if (kind =? 1) && (SEGMENT_BYTES <? length) then Segments SEGMENT_BYTES else Blocks.

Definition segment_bytes (l : Layout) : option Z :=
  match l with Blocks => None | Segments bytes => Some bytes end.

Definition Layout_validate (l : Layout) (g : Geometry) : result string unit :=
  ensure (valid_block (g_block g)) "invalid block size" ;;
  ensure (Geometry_count g <=? 1000000) "resource index exceeds memory limit" ;;
  match segment_bytes l with
  | Some bytes =>
    ensure (((bytes =? SEGMENT_BYTES) || (bytes =? 33554432)) && (bytes mod g_block g =? 0))
      "invalid segment geometry"
  | None => mret tt
  end.

(** ** Hashing and the file header *)

Section Hashing.
Context {D : Digest}.

Definition hash (data : list Z) : result string (list Z) :=
  d ← digest data;
  ensure (zlen d =? 32) "invalid SHA-256 length" ;;
  mret d.

(** [format!("{b:02x}")] over the digest. *)
Definition hex_digit (n : Z) : Ascii.ascii :=
  Ascii.ascii_of_nat (Z.to_nat (if n <? 10 then n + 48 else n + 87)).
Definition hex_byte (b : Z) : string :=
  String (hex_digit (b / 16)) (String (hex_digit (b mod 16)) EmptyString).
Definition identity (data : list Z) : result string string :=
  d ← hash data; mret (foldr (λ b s, (hex_byte b +:+ s)%string) EmptyString d).

Definition Geometry_header (g : Geometry) (generation : list Z) : result string (list Z) :=
  h ← hash generation;
  let bytes := replicate 64 0 in
  let bytes := write_at bytes 0 MAGIC in
  let bytes := write_at bytes 8 (to_le 8 (g_length g)) in
  let bytes := write_at bytes 16 (to_le 8 (g_block g)) in
  mret (write_at bytes 24 h).

(** ** The index *)

Record Index := mk_Index { ix_bytes : list Z; ix_dirty : list (Z * Z); ix_geometry : Geometry }.

Definition Index_new (g : Geometry) : Index :=
  mk_Index (replicate (Z.to_nat (wmul (Geometry_count g) ENTRY_LEN)) 0) [] g.

(** [usize::try_from] always succeeds on a 64-bit target. *)
Definition Index_get (v : Index) (index : Z) : option (Z * list Z) :=
  start ← checked_mul index ENTRY_LEN;
  stop ← checked_add start ENTRY_LEN;
  entry ← slice (ix_bytes v) start stop;
  let slot := from_le (take 4 entry) in
  if slot =? 0 then None else Some (slot - 1, drop 4 entry).

Definition Index_set (index slot : Z) (data : list Z) : ST Index string unit :=
  v ← get_st;
  '(rs, re) ← lift (Geometry_range (ix_geometry v) index);
  guard_st (zlen data =? wsub re rs) "incomplete block" ;;
  (if slot =? u32_max then fail "physical slot limit reached" else mret tt) ;;
  let start := wmul index ENTRY_LEN in
  modify (λ v, mk_Index (write_at (ix_bytes v) start (to_le 4 (slot + 1)))
                        (ix_dirty v) (ix_geometry v)) ;;
  h ← lift (hash data);
  modify (λ v, mk_Index (write_at (ix_bytes v) (start + 4) h) (ix_dirty v) (ix_geometry v)) ;;
  modify (λ v, mk_Index (ix_bytes v) (ix_dirty v ++ [(start, start + ENTRY_LEN)]) (ix_geometry v)).

Definition Index_remove (v : Index) (index : Z) : Index :=
  let start := wmul index ENTRY_LEN in
  mk_Index (write_at (ix_bytes v) start (replicate (Z.to_nat ENTRY_LEN) 0))
           (ix_dirty v ++ [(start, start + ENTRY_LEN)]) (ix_geometry v).

Definition Index_complete (v : Index) : bool :=
  forallb (λ i, bool_decide (is_Some (Index_get v i))) (zrange 0 (Geometry_count (ix_geometry v))).

(** [slice::sort_by_key] is stable: the insertion sort by the first component. *)
Fixpoint insert_by_start (r : Z * Z) (l : list (Z * Z)) : list (Z * Z) :=
  match l with
  | [] => [r]
  | x :: l' => if r.1 <? x.1 then r :: l else x :: insert_by_start r l'
  end.
Definition sort_by_start (l : list (Z * Z)) : list (Z * Z) :=
  foldl (λ acc r, insert_by_start r acc) [] l.

(** The [for] loop of [Index::dirty]; [last] is the range [ranges.last_mut()]. *)
Fixpoint merge_ranges (last : Z * Z) (l : list (Z * Z)) : list (Z * Z) :=
  match l with
  | [] => [last]
  | r :: l =>
    if r.1 <=? last.2 then merge_ranges (last.1, Z.max last.2 r.2) l
    else last :: merge_ranges r l
  end.
Definition coalesce (l : list (Z * Z)) : list (Z * Z) :=
  match l with [] => [] | r :: l => merge_ranges r l end.

Definition Index_dirty (v : Index) : list (Z * Z) * Index :=
  let sorted := sort_by_start (ix_dirty v) in
  (coalesce sorted, mk_Index (ix_bytes v) sorted (ix_geometry v)).

Definition Index_committed (v : Index) : Index := mk_Index (ix_bytes v) [] (ix_geometry v).
Definition Index_is_committed (v : Index) : bool :=
  match ix_dirty v with [] => true | _ => false end.

(** [Index::load_layout]: the block size, the byte count and every slot bound. *)
Definition load_layout (g : Geometry) (bytes : list Z) (slots : option Z) : result string Index :=
  ensure (valid_block (g_block g)) "invalid block size" ;;
  ensure ((Geometry_count g <=? 1000000) && (zlen bytes =? wmul (Geometry_count g) ENTRY_LEN))
    "invalid index size" ;;
  let value := mk_Index bytes [] g in
  ensure (forallb (λ i, match Index_get value i, slots with
                        | Some (slot, _), Some slots => slot <? slots
                        | _, _ => true
                        end) (zrange 0 (Geometry_count g)))
    "index references absent slot" ;;
  mret value.

Definition Index_load (g : Geometry) (bytes : list Z) (slots : Z) : result string Index :=
  load_layout g bytes (Some slots).

Definition Index_load_plain (g : Geometry) (bytes : list Z) : result string Index :=
  index ← load_layout g bytes None;
  ensure (Index_complete index) "incomplete plain index" ;;
  mret index.

Definition Index_load_segments (g : Geometry) (bytes : list Z) (size : Z) : result string Index :=
  value ← load_layout g bytes None;
  ensure (forallb (λ i, match Index_get value i with
                        | Some (slot, _) => slot =? i mod (size / g_block g)
                        | None => true
                        end) (zrange 0 (Geometry_count g)))
    "invalid segment slot" ;;
  mret value.
End Hashing.

(** ** Geometry: correctness *)

Lemma valid_block_spec b :
  valid_block b = true ↔ b = 262144 ∨ b = 524288 ∨ b = 1048576.
Proof. unfold valid_block, MIN_BLOCK, MAX_BLOCK. rewrite !orb_true_iff, !Z.eqb_eq. lia. Qed.

Lemma valid_block_pos b : valid_block b = true → 262144 ≤ b ≤ 1048576.
Proof. rewrite valid_block_spec. lia. Qed.

(** A geometry the store works with: what [Layout::validate] and [Geometry::new] check. *)
Record wf_geometry (g : Geometry) : Prop := {
  wfg_length : is_u64 (g_length g);
  wfg_block : valid_block (g_block g) = true;
  wfg_count : Geometry_count g ≤ 1000000;
}.

Lemma wf_geometry_bounds g :
  wf_geometry g →
  262144 ≤ g_block g ≤ 1048576 ∧ 0 ≤ Geometry_count g ≤ 1000000 ∧
  0 ≤ g_length g ≤ 1000000 * 1048576 ∧
  (Geometry_count g - 1) * g_block g < g_length g ≤ Geometry_count g * g_block g.
Proof.
  intros [Hl Hb Hc]. apply valid_block_pos in Hb. unfold is_u64 in Hl.
  unfold Geometry_count in *.
  pose proof (div_ceil_bounds (g_length g) (g_block g) ltac:(lia)).
  pose proof (div_ceil_nonneg (g_length g) (g_block g) ltac:(lia) ltac:(lia)).
  repeat split; nia.
Qed.

Ltac geometry g :=
  match goal with
  | H : wf_geometry g |- _ => pose proof (wf_geometry_bounds g H)
  end.

Lemma layout_validate_wf l g :
  is_u64 (g_length g) → Layout_validate l g = Ok tt → wf_geometry g.
Proof.
  unfold Layout_validate. intros Hl H. destruct_ok.
  split; [done|done|lia].
Qed.

(** One unfolding of the loop at each block size it can reach. *)
Lemma grow_block_step n length block :
  grow_block (S n) length block =
    if (8192 <? div_ceil length block) && (block <? MAX_BLOCK)
    then grow_block n length (wmul block 2) else block.
Proof. done. Qed.

Lemma grow_block_max n length : grow_block n length MAX_BLOCK = MAX_BLOCK.
Proof. destruct n; [done|]. rewrite grow_block_step, Z.ltb_irrefl, andb_false_r. done. Qed.

(** What the growth loop computes, whatever fuel above two it is given. *)
Lemma grow_block_cases n length :
  grow_block (S (S n)) length MIN_BLOCK =
    if 8192 <? div_ceil length 262144
    then if 8192 <? div_ceil length 524288 then 1048576 else 524288
    else 262144.
Proof.
  rewrite grow_block_step. change (MIN_BLOCK <? MAX_BLOCK) with true. rewrite andb_true_r.
  change (wmul MIN_BLOCK 2) with 524288. change MIN_BLOCK with 262144.
  destruct (8192 <? div_ceil length 262144); [|done].
  rewrite grow_block_step. change (524288 <? MAX_BLOCK) with true. rewrite andb_true_r.
  change (wmul 524288 2) with MAX_BLOCK. by rewrite grow_block_max.
Qed.

Lemma grow_block_fuel length n :
  grow_block (S (S n)) length MIN_BLOCK = grow_block 3 length MIN_BLOCK.
Proof. by rewrite !grow_block_cases. Qed.

Lemma grow_block_valid length : valid_block (grow_block 3 length MIN_BLOCK) = true.
Proof. rewrite grow_block_cases. by repeat case_match. Qed.

Lemma Geometry_range_eq g i :
  wf_geometry g → 0 ≤ i → i < Geometry_count g →
  Geometry_range g i = Ok (i * g_block g, Z.min ((i + 1) * g_block g) (g_length g)).
Proof.
  intros Hg Hi Hlt. geometry g. unfold Geometry_range.
  destruct (Z.ltb_spec i (Geometry_count g)); [|lia]. cbn.
  rewrite wadd_small by (unfold is_u64, u64_max; lia).
  rewrite !wmul_small by (unfold is_u64, u64_max; nia). done.
Qed.

Lemma Geometry_range_inv g i r :
  Geometry_range g i = Ok r → i < Geometry_count g.
Proof. unfold Geometry_range. intros H. destruct_ok. lia. Qed.

(** The number of blocks and the length of each, for a block that exists. *)
Lemma block_bounds g i :
  wf_geometry g → 0 ≤ i < Geometry_count g →
  0 ≤ i * g_block g ∧
  i * g_block g < Z.min ((i + 1) * g_block g) (g_length g) ∧
  Z.min ((i + 1) * g_block g) (g_length g) - i * g_block g ≤ g_block g.
Proof. intros Hg Hi. geometry g. repeat split; nia. Qed.

Lemma offset_eq g slot :
  wf_geometry g → 0 ≤ slot ≤ u32_max →
  Geometry_offset g slot = Ok (HEADER_LEN + slot * g_block g).
Proof.
  intros Hg Hs. geometry g. unfold Geometry_offset, checked_mul, checked_add, u64_max, u32_max,
    HEADER_LEN in *.
  destruct (Z.leb_spec (slot * g_block g) 18446744073709551615); [|nia]. cbn.
  destruct (Z.leb_spec (64 + slot * g_block g) 18446744073709551615); [done|nia].
Qed.

(** ** The index as a map from blocks to slots *)

(** A well-formed index: the byte vector has one 36-byte entry per block. *)
Record wf_index (v : Index) : Prop := {
  wfi_geometry : wf_geometry (ix_geometry v);
  wfi_length : zlen (ix_bytes v) = Geometry_count (ix_geometry v) * ENTRY_LEN;
}.

(** The bytes of entry [i]. *)
Definition entry (bytes : list Z) (i : Z) : list Z :=
  take 36 (drop (Z.to_nat (i * 36)) bytes).

(** What an entry's bytes say: slot zero means absent. *)
Definition decode_entry (e : list Z) : option (Z * list Z) :=
  if from_le (take 4 e) =? 0 then None else Some (from_le (take 4 e) - 1, drop 4 e).

(** The byte ranges an index keeps dirty start and end at entries. *)
Definition entry_range (i : Z) : Z * Z := (i * 36, i * 36 + 36).

Lemma entry_slice bytes i n :
  0 ≤ i < n → zlen bytes = n * 36 → slice bytes (i * 36) (i * 36 + 36) = Some (entry bytes i).
Proof.
  intros Hi Hl. rewrite slice_is_Some by lia. unfold entry.
  by replace (Z.to_nat (i * 36 + 36 - i * 36)) with 36%nat by lia.
Qed.

Lemma Index_get_spec v i :
  wf_index v → 0 ≤ i < Geometry_count (ix_geometry v) →
  Index_get v i = decode_entry (entry (ix_bytes v) i).
Proof.
  intros [Hg Hl] Hi. set (g := ix_geometry v) in *. geometry g.
  unfold Index_get, checked_mul, checked_add, ENTRY_LEN, u64_max in *.
  destruct (Z.leb_spec (i * 36) 18446744073709551615); [|lia]. cbn [mbind option_bind].
  destruct (Z.leb_spec (i * 36 + 36) 18446744073709551615); [|lia]. cbn [mbind option_bind].
  erewrite entry_slice by eauto. done.
Qed.

Lemma Index_get_out v i :
  wf_index v → Geometry_count (ix_geometry v) ≤ i → Index_get v i = None.
Proof.
  intros [Hg Hl] Hi. geometry (ix_geometry v). unfold Index_get, checked_mul, checked_add.
  destruct (_ <=? _); [|done]. cbn [mbind option_bind].
  destruct (_ <=? _); [|done]. cbn [mbind option_bind].
  destruct (slice _ _ _) eqn:Hs; [|done].
  apply slice_Some in Hs. unfold ENTRY_LEN in *. lia.
Qed.

(** Two byte vectors that agree on entry [i] agree on what [get] returns there. *)
Lemma entry_ext b1 b2 i n :
  0 ≤ i < n → zlen b1 = n * 36 → zlen b2 = n * 36 →
  (∀ k, i * 36 ≤ k < i * 36 + 36 → b1 !! Z.to_nat k = b2 !! Z.to_nat k) →
  entry b1 i = entry b2 i.
Proof.
  intros Hi H1 H2 Hk.
  pose proof (entry_slice b1 i n Hi H1) as E1. pose proof (entry_slice b2 i n Hi H2) as E2.
  rewrite (slice_ext b1 b2) in E1 by (done || lia). congruence.
Qed.

Lemma entry_write_other b i j d n :
  0 ≤ i < n → 0 ≤ j < n → i ≠ j → zlen b = n * 36 → zlen d ≤ 36 →
  ∀ o, 0 ≤ o → o + zlen d ≤ 36 → entry (write_at b (i * 36 + o) d) j = entry b j.
Proof.
  intros Hi Hj Hne Hl Hd o Ho Hod.
  assert (zlen (write_at b (i * 36 + o) d) = n * 36) by (rewrite write_at_length; nia).
  apply (entry_ext _ _ j n); [done|done|done|]. intros k Hk.
  apply write_at_lookup_out; nia.
Qed.

Lemma entry_write_whole b i d n :
  0 ≤ i < n → zlen b = n * 36 → zlen d = 36 → entry (write_at b (i * 36) d) i = d.
Proof.
  intros Hi Hl Hd.
  assert (Hw : slice (write_at b (i * 36) d) (i * 36) (i * 36 + zlen d) = Some d)
    by (apply slice_write_at; nia).
  rewrite Hd in Hw. rewrite (entry_slice _ i n) in Hw; [congruence|done|].
  by rewrite write_at_length by nia.
Qed.

(** Writing the slot and then the digest is writing the entry. *)
Lemma write_at_app {A} (b : list A) a (d1 d2 : list A) :
  0 ≤ a → a + zlen d1 + zlen d2 ≤ zlen b →
  write_at (write_at b a d1) (a + zlen d1) d2 = write_at b a (d1 ++ d2).
Proof.
  intros Ha Hl. unfold zlen in *. unfold write_at at 1. unfold write_at at 3.
  rewrite length_app, <- app_assoc.
  assert (Ht : take (Z.to_nat (a + Z.of_nat (length d1))) (write_at b a d1) = take (Z.to_nat a) b ++ d1).
  { unfold write_at. rewrite app_assoc, take_app_length'; [done|].
    rewrite length_app, length_take. lia. }
  assert (Hd : drop (Z.to_nat (a + Z.of_nat (length d1)) + length d2) (write_at b a d1)
               = drop (Z.to_nat a + (length d1 + length d2)) b).
  { unfold write_at. rewrite app_assoc, drop_app_ge by (rewrite length_app, length_take; lia).
    rewrite drop_drop. f_equal. rewrite length_app, length_take. lia. }
  rewrite Ht, Hd. by rewrite <- app_assoc.
Qed.

Lemma entry_decode slot h :
  0 ≤ slot < u32_max → decode_entry (to_le 4 (slot + 1) ++ h) = Some (slot, h).
Proof.
  intros Hs. unfold decode_entry.
  rewrite take_app_length', drop_app_length' by (by rewrite to_le_length).
  rewrite from_to_le by (unfold u32_max in *; cbn; lia).
  destruct (Z.eqb_spec (slot + 1) 0); [lia|]. do 2 f_equal. lia.
Qed.

Lemma to_le_zlen n x : zlen (to_le n x) = Z.of_nat n.
Proof. unfold zlen. by rewrite to_le_length. Qed.

Section IndexOps.
Context {D : Digest}.

Lemma hash_length data h : hash data = Ok h → zlen h = 32.
Proof. unfold hash. intros H. destruct_ok. subst. lia. Qed.

Lemma hash_ok `{!Sha256Ok D} data : ∃ h, hash data = Ok h ∧ Forall is_byte h.
Proof.
  destruct (sha256_ok data) as (h & Hd & Hl & Hb). exists h. split; [|done].
  unfold hash. rewrite Hd. cbn. unfold zlen. by rewrite Hl.
Qed.

(** [Index::set] on success: one entry replaced, one dirty range appended. *)
Lemma Index_set_ok v i slot data h r :
  wf_index v → 0 ≤ i → Geometry_range (ix_geometry v) i = Ok r →
  zlen data = r.2 - r.1 → 0 ≤ slot < u32_max → hash data = Ok h →
  Index_set i slot data v =
    (Ok tt, mk_Index (write_at (ix_bytes v) (i * 36) (to_le 4 (slot + 1) ++ h))
                     (ix_dirty v ++ [entry_range i]) (ix_geometry v)).
Proof.
  intros [Hg Hl] Hi Hr Hlen Hs Hh. set (g := ix_geometry v) in *. geometry g.
  pose proof (Geometry_range_inv _ _ _ Hr) as Hlt.
  pose proof (block_bounds g i Hg ltac:(lia)) as Hb.
  rewrite Geometry_range_eq in Hr by (done || lia). injection Hr as <-. cbn in Hlen.
  unfold Index_set, mbind, st_bind, get_st, lift. fold g.
  rewrite Geometry_range_eq by (done || lia). cbn -[wsub Z.mul].
  rewrite wsub_small by (unfold is_u64, u64_max; lia).
  unfold guard_st, lift, ensure. rewrite Hlen, Z.eqb_refl.
  destruct (Z.eqb_spec slot u32_max); [lia|]. cbn -[Z.mul wmul to_le].
  rewrite Hh. cbn -[Z.mul wmul to_le].
  rewrite wmul_small by (unfold is_u64, u64_max, ENTRY_LEN; lia).
  apply hash_length in Hh. unfold entry_range, ENTRY_LEN in *. repeat f_equal.
  change 4 with (Z.of_nat 4) at 1. rewrite <- (to_le_zlen 4 (slot + 1)).
  rewrite write_at_app; [done|lia|]. rewrite to_le_zlen. lia.
Qed.

(** The bytes [set] leaves: entry [i] maps to the slot and the digest of the data,
    every other entry is as before, and the vector stays well formed. *)
Lemma set_bytes_get v i slot h dirty :
  wf_index v → 0 ≤ i < Geometry_count (ix_geometry v) → zlen h = 32 → 0 ≤ slot < u32_max →
  let v' := mk_Index (write_at (ix_bytes v) (i * 36) (to_le 4 (slot + 1) ++ h)) dirty (ix_geometry v) in
  wf_index v' ∧ Index_get v' i = Some (slot, h) ∧ ∀ j, j ≠ i → 0 ≤ j → Index_get v' j = Index_get v j.
Proof.
  intros Hwf Hi Hh Hs v'. pose proof Hwf as [Hg Hl]. unfold ENTRY_LEN in *.
  assert (Hz : zlen (to_le 4 (slot + 1) ++ h) = 36) by (rewrite zlen_app, to_le_zlen; lia).
  assert (Hwf' : wf_index v').
  { split; [done|]. cbn [v' ix_bytes ix_geometry]. rewrite write_at_length; unfold ENTRY_LEN; nia. }
  split; [done|]. split.
  - rewrite Index_get_spec by done. cbn [v' ix_bytes]. erewrite entry_write_whole by eauto.
    by apply entry_decode.
  - intros j Hne Hj. destruct (decide (j < Geometry_count (ix_geometry v))) as [Hlt|].
    + rewrite !Index_get_spec by (done || (cbn [v' ix_geometry]; lia)). cbn [v' ix_bytes]. f_equal.
      replace (i * 36) with (i * 36 + 0) by lia.
      eapply entry_write_other; eauto; lia.
    + rewrite !Index_get_out by (done || (cbn; lia)). done.
Qed.

Lemma Index_remove_eq v i :
  wf_index v → 0 ≤ i < Geometry_count (ix_geometry v) →
  Index_remove v i = mk_Index (write_at (ix_bytes v) (i * 36) (replicate 36 0))
                              (ix_dirty v ++ [entry_range i]) (ix_geometry v).
Proof.
  intros [Hg Hl] Hi. geometry (ix_geometry v). unfold Index_remove.
  rewrite wmul_small by (unfold is_u64, u64_max, ENTRY_LEN; lia). done.
Qed.

Lemma remove_bytes_get v i :
  wf_index v → 0 ≤ i < Geometry_count (ix_geometry v) →
  wf_index (Index_remove v i) ∧ Index_get (Index_remove v i) i = None ∧
  ∀ j, j ≠ i → 0 ≤ j → Index_get (Index_remove v i) j = Index_get v j.
Proof.
  intros Hwf Hi. rewrite Index_remove_eq by done. pose proof Hwf as [Hg Hl].
  unfold ENTRY_LEN in *.
  set (v' := mk_Index _ _ _).
  assert (Hwf' : wf_index v').
  { split; [done|]. cbn [v' ix_bytes ix_geometry]. rewrite write_at_length; rewrite ?zlen_replicate; unfold ENTRY_LEN; nia. }
  split; [done|]. split.
  - rewrite Index_get_spec by done. cbn [v' ix_bytes]. erewrite entry_write_whole by eauto. done.
  - intros j Hne Hj. destruct (decide (j < Geometry_count (ix_geometry v))) as [Hlt|].
    + rewrite !Index_get_spec by (done || lia). cbn [v' ix_bytes]. f_equal.
      replace (i * 36) with (i * 36 + 0) by lia.
      eapply entry_write_other; eauto; rewrite ?zlen_replicate; lia.
    + rewrite !Index_get_out by (done || (cbn; lia)). done.
Qed.
End IndexOps.

Lemma Index_new_wf g : wf_geometry g → wf_index (Index_new g).
Proof.
  intros Hg. geometry g. split; [done|]. cbn [Index_new ix_bytes ix_geometry].
  rewrite wmul_small by (unfold is_u64, u64_max, ENTRY_LEN; lia).
  rewrite zlen_replicate. unfold ENTRY_LEN. lia.
Qed.

Lemma Index_new_get g i : wf_geometry g → 0 ≤ i → Index_get (Index_new g) i = None.
Proof.
  intros Hg Hi. destruct (decide (i < Geometry_count g)) as [Hlt|].
  - geometry g. rewrite Index_get_spec by (by apply Index_new_wf || done). cbn.
    rewrite wmul_small by (unfold is_u64, u64_max, ENTRY_LEN; lia).
    unfold decode_entry, entry, ENTRY_LEN. rewrite drop_replicate, take_replicate.
    rewrite take_replicate. replace (_ `min` _)%nat with 4%nat by lia. done.
  - apply Index_get_out; [by apply Index_new_wf|cbn; lia].
Qed.

(** ** Dirty ranges and the database column

    [Database::patch] (sqlite.rs) rewrites the given ranges of the stored BLOB from the
    in-memory bytes; a length mismatch or an offset outside [i32] is an error, and the
    caller's transaction discards what had been written. *)
Definition i32_max : Z := 2147483647.

Fixpoint patch_ranges (db bytes : list Z) (ranges : list (Z * Z)) : result string (list Z) :=
  match ranges with
  | [] => Ok db
  | r :: ranges =>
    part ← ok_or (slice bytes r.1 r.2) "panic: range out of bounds";
    ensure ((zlen part <=? i32_max) && (r.1 <=? i32_max)) "integer conversion" ;;
    patch_ranges (write_at db r.1 part) bytes ranges
  end.

Definition patch_blob (db bytes : list Z) (ranges : list (Z * Z)) : result string (list Z) :=
  ensure (zlen db =? zlen bytes) "BLOB length changed" ;;
  patch_ranges db bytes ranges.

Definition covered (l : list (Z * Z)) (x : Z) : Prop := Exists (λ r, r.1 ≤ x < r.2) l.
Definition start_le (a b : Z * Z) : Prop := a.1 ≤ b.1.
(** Consecutive ranges with a gap between them. *)
Definition gap (a b : Z * Z) : Prop := a.2 < b.1.
Definition proper (r : Z * Z) : Prop := r.1 < r.2.

Lemma covered_cons r l x : covered (r :: l) x ↔ r.1 ≤ x < r.2 ∨ covered l x.
Proof. apply Exists_cons. Qed.
Lemma covered_nil x : covered [] x ↔ False.
Proof. apply Exists_nil. Qed.
Lemma covered_app l k x : covered (l ++ k) x ↔ covered l x ∨ covered k x.
Proof. apply Exists_app. Qed.
#[global] Instance covered_Permutation : Proper ((≡ₚ) ==> eq ==> iff) covered.
Proof. intros l k Hlk x ? <-. unfold covered. by rewrite Hlk. Qed.

Lemma insert_by_start_perm r l : insert_by_start r l ≡ₚ r :: l.
Proof.
  induction l as [|x l IH]; cbn; [done|]. case_match; [done|]. rewrite IH. apply Permutation_swap.
Qed.
Lemma insert_by_start_sorted r l :
  StronglySorted start_le l → StronglySorted start_le (insert_by_start r l).
Proof.
  induction 1 as [|x l Hl IH Hx]; cbn; [by repeat constructor|].
  destruct (Z.ltb_spec r.1 x.1).
  - constructor; [by constructor|]. constructor; [unfold start_le; lia|].
    eapply Forall_impl; [exact Hx|]. unfold start_le. intros; lia.
  - constructor; [done|]. rewrite insert_by_start_perm. constructor; [|done].
    unfold start_le. lia.
Qed.
Lemma sort_by_start_perm l : sort_by_start l ≡ₚ l.
Proof.
  unfold sort_by_start. enough (∀ acc, foldl (λ acc r, insert_by_start r acc) acc l ≡ₚ acc ++ l)
    as H by apply H.
  induction l as [|r l IH]; intros acc; cbn; [by rewrite app_nil_r|].
  rewrite IH, insert_by_start_perm. apply Permutation_middle.
Qed.
Lemma sort_by_start_sorted l : StronglySorted start_le (sort_by_start l).
Proof.
  unfold sort_by_start.
  enough (∀ acc, StronglySorted start_le acc →
    StronglySorted start_le (foldl (λ acc r, insert_by_start r acc) acc l)) as H by (apply H; constructor).
  induction l; cbn; auto using insert_by_start_sorted.
Qed.

Lemma merge_ranges_covered l : ∀ last x,
  StronglySorted start_le (last :: l) →
  covered (merge_ranges last l) x ↔ covered (last :: l) x.
Proof.
  induction l as [|r l IH]; intros last x Hs; cbn [merge_ranges]; [done|].
  apply StronglySorted_inv in Hs as [Hs Hlast].
  pose proof (Forall_inv Hlast) as Hr. unfold start_le in Hr.
  destruct (Z.leb_spec r.1 last.2).
  - rewrite IH, !covered_cons; cbn.
    + split; [intros [?|?]; [lia|tauto]|intros [?|[?|?]]; [left; lia|left; lia|tauto]].
    + apply StronglySorted_inv in Hs as [Hs _]. constructor; [done|].
      apply Forall_cons in Hlast as [_ Hlast]. done.
  - by rewrite covered_cons, IH, <- covered_cons.
Qed.
Lemma merge_ranges_head l : ∀ last, ∃ e k, merge_ranges last l = (last.1, e) :: k ∧ last.2 ≤ e.
Proof.
  induction l as [|r l IH]; intros [a b]; cbn; [by eexists _, _|].
  destruct (Z.leb_spec r.1 b).
  - destruct (IH (a, b `max` r.2)) as (e & k & Hk & He). cbn in *. eexists _, _. split; [done|lia].
  - by eexists _, _.
Qed.
Lemma merge_ranges_gap l : ∀ last, Sorted gap (merge_ranges last l).
Proof.
  induction l as [|r l IH]; intros last; cbn; [by repeat constructor|].
  destruct (Z.leb_spec r.1 last.2); [by apply IH|].
  constructor; [by apply IH|].
  destruct (merge_ranges_head l r) as (e & k & -> & _). constructor. unfold gap. cbn. lia.
Qed.
Lemma merge_ranges_proper l : ∀ last,
  proper last → Forall proper l → Forall proper (merge_ranges last l).
Proof.
  unfold proper. induction l as [|r l IH]; intros last Hl Hf; cbn; [by constructor|].
  apply Forall_cons in Hf as [Hr Hf]. destruct (_ <=? _).
  - apply IH; [cbn; lia|done].
  - constructor; [done|]. by apply IH.
Qed.

Lemma coalesce_sorted_covered l x : covered (coalesce (sort_by_start l)) x ↔ covered l x.
Proof.
  rewrite <- (sort_by_start_perm l) at 2. pose proof (sort_by_start_sorted l) as Hs.
  destruct (sort_by_start l) as [|r k]; [done|]. by apply merge_ranges_covered.
Qed.
Lemma coalesce_gap l : Sorted gap (coalesce l).
Proof. destruct l; [constructor|apply merge_ranges_gap]. Qed.
Lemma coalesce_proper l : Forall proper l → Forall proper (coalesce l).
Proof.
  destruct l as [|r l]; [done|]. intros [Hr Hl]%Forall_cons. by apply merge_ranges_proper.
Qed.

(** Every range lies inside a vector of [n] bytes. *)
Definition within (n : Z) (r : Z * Z) : Prop := 0 ≤ r.1 ∧ r.1 < r.2 ∧ r.2 ≤ n.

Lemma merge_ranges_within n l : ∀ last,
  within n last → Forall (within n) l → Forall (within n) (merge_ranges last l).
Proof.
  unfold within. induction l as [|r l IH]; intros last Hl Hf; cbn; [by constructor|].
  apply Forall_cons in Hf as [Hr Hf]. destruct (_ <=? _).
  - apply IH; [cbn; lia|done].
  - constructor; [done|]. by apply IH.
Qed.
Lemma coalesce_within n l : Forall (within n) l → Forall (within n) (coalesce (sort_by_start l)).
Proof.
  rewrite <- (sort_by_start_perm l) at 1. destruct (sort_by_start l) as [|r k]; [done|].
  intros [Hr Hl]%Forall_cons. by apply merge_ranges_within.
Qed.

(** Patching in-bounds ranges succeeds and copies exactly the covered bytes. *)
Lemma patch_ranges_ok ranges : ∀ db bytes,
  zlen db = zlen bytes → zlen bytes ≤ i32_max → Forall (within (zlen bytes)) ranges →
  ∃ db', patch_ranges db bytes ranges = Ok db' ∧ zlen db' = zlen bytes ∧
    ∀ k, 0 ≤ k → (covered ranges k → db' !! Z.to_nat k = bytes !! Z.to_nat k) ∧
                  (¬ covered ranges k → db' !! Z.to_nat k = db !! Z.to_nat k).
Proof.
  induction ranges as [|r ranges IH]; intros db bytes Hl Hm Hw.
  { exists db. split; [done|]. split; [done|]. intros k _. by rewrite covered_nil. }
  apply Forall_cons in Hw as [(Hr0 & Hr1 & Hr2) Hw]. cbn [patch_ranges].
  destruct (slice bytes r.1 r.2) as [part|] eqn:Hs; [|by rewrite slice_is_Some in Hs by lia].
  pose proof (slice_Some _ _ _ _ Hs) as (_ & _ & Hp). cbn [ok_or mbind result_bind].
  assert (Hc : (zlen part <=? i32_max) && (r.1 <=? i32_max) = true) by lia.
  rewrite Hc. cbn.
  destruct (IH (write_at db r.1 part) bytes) as (db' & Hdb & Hl' & Hk); [|done|done|].
  { rewrite write_at_length; lia. }
  exists db'. split; [done|]. split; [done|]. intros k Hk0. specialize (Hk k Hk0) as [Hin Hout].
  rewrite covered_cons.
  assert (Hdec : covered ranges k ∨ ¬ covered ranges k).
  { destruct (decide (Exists (λ r, r.1 ≤ k < r.2) ranges)); [by left|by right]. }
  split.
  - intros Hcov. destruct Hdec as [Hc'|Hn]; [by apply Hin|].
    destruct Hcov as [Hcov|]; [|done]. rewrite Hout by done.
    replace k with (r.1 + (k - r.1)) by lia.
    rewrite write_at_lookup_in by lia. by apply slice_lookup with (1 := Hs); lia.
  - intros Hn. rewrite Hout by tauto. apply write_at_lookup_out; lia || (left + right; lia).
Qed.

(** The stored column agrees with the index outside the dirty ranges. *)
Definition synced (db : list Z) (v : Index) : Prop :=
  zlen db = zlen (ix_bytes v) ∧ Forall (within (zlen (ix_bytes v))) (ix_dirty v) ∧
  ∀ k, 0 ≤ k → ¬ covered (ix_dirty v) k → db !! Z.to_nat k = ix_bytes v !! Z.to_nat k.

Lemma patch_synced db v :
  synced db v → zlen (ix_bytes v) ≤ i32_max →
  patch_blob db (ix_bytes v) (Index_dirty v).1 = Ok (ix_bytes v).
Proof.
  intros (Hl & Hw & Hk) Hm. unfold patch_blob. rewrite Hl, Z.eqb_refl. cbn.
  destruct (patch_ranges_ok (coalesce (sort_by_start (ix_dirty v))) db (ix_bytes v))
    as (db' & Hdb & Hl' & Hdb'); [done|done|by apply coalesce_within|].
  rewrite Hdb. f_equal. apply list_eq. intros i.
  specialize (Hdb' (Z.of_nat i) ltac:(lia)) as [Hin Hout].
  specialize (Hk (Z.of_nat i) ltac:(lia)). rewrite Nat2Z.id in *.
  destruct (decide (Exists (λ r, r.1 ≤ Z.of_nat i < r.2) (ix_dirty v))) as [Hc|Hc].
  - apply Hin. by apply coalesce_sorted_covered.
  - rewrite Hout by (by rewrite coalesce_sorted_covered). by apply Hk.
Qed.

Lemma wf_index_i32 v : wf_index v → zlen (ix_bytes v) ≤ i32_max.
Proof.
  intros [Hg Hl]. geometry (ix_geometry v). unfold ENTRY_LEN, i32_max in *. lia.
Qed.

(** Overwriting one entry and recording its range keeps the column in step. *)
Lemma synced_write db v i d :
  wf_index v → 0 ≤ i < Geometry_count (ix_geometry v) → zlen d = 36 → synced db v →
  synced db (mk_Index (write_at (ix_bytes v) (i * 36) d)
                      (ix_dirty v ++ [entry_range i]) (ix_geometry v)).
Proof.
  intros [Hg Hl] Hi Hd (Hdb & Hw & Hk). unfold ENTRY_LEN in *.
  assert (Hz : zlen (write_at (ix_bytes v) (i * 36) d) = zlen (ix_bytes v))
    by (rewrite write_at_length; nia).
  split; [cbn; congruence|]. cbn [ix_bytes ix_dirty]. rewrite Hz. split.
  - apply Forall_app. split; [done|]. constructor; [|done]. unfold within, entry_range; cbn. nia.
  - intros k Hk0 Hn. rewrite covered_app in Hn. rewrite Hk by tauto. symmetry.
    apply write_at_lookup_out; [lia|nia|lia|].
    assert (¬ (i * 36 ≤ k < i * 36 + 36)); [|lia].
    intros Hin. apply Hn. right. apply covered_cons. by left.
Qed.

(** ** Edits between two commits *)

Section Edits.
Context {D : Digest}.

(** What the store does to an index between two commits: [set] for a stored block and
    [remove] for a damaged or evicted one. *)
Inductive edit := ESet (index slot : Z) (data : list Z) | ERemove (index : Z).

Definition run_edit (e : edit) : ST Index string unit :=
  match e with
  | ESet i slot data => Index_set i slot data
  | ERemove i => modify (λ v, Index_remove v i)
  end.

Fixpoint run_edits (es : list edit) : ST Index string unit :=
  match es with
  | [] => mret tt
  | e :: es => run_edit e ;; run_edits es
  end.

(** The arguments the store passes: existing blocks, whole data, representable slots. *)
Definition edit_ok (g : Geometry) (e : edit) : Prop :=
  match e with
  | ESet i slot data =>
    0 ≤ i ∧ 0 ≤ slot < u32_max ∧ ∃ r, Geometry_range g i = Ok r ∧ zlen data = r.2 - r.1
  | ERemove i => 0 ≤ i < Geometry_count g
  end.

(** The abstract contents of an index: a finite map from blocks to slots and digests. *)
Definition edit_spec (e : edit) (m : Z → option (Z * list Z)) : Z → option (Z * list Z) :=
  λ j, match e with
       | ESet i slot data =>
         if decide (j = i) then option_map (pair slot) (ok (hash data)) else m j
       | ERemove i => if decide (j = i) then None else m j
       end.

Lemma run_edit_ok `{!Sha256Ok D} e v :
  wf_index v → edit_ok (ix_geometry v) e →
  ∃ v', run_edit e v = (Ok tt, v') ∧ wf_index v' ∧ ix_geometry v' = ix_geometry v ∧
    (∀ j, 0 ≤ j → Index_get v' j = edit_spec e (Index_get v) j) ∧
    (∀ db, synced db v → synced db v').
Proof.
  intros Hwf He. destruct e as [i slot data|i]; cbn in He.
  - destruct He as (Hi & Hs & r & Hr & Hlen). destruct (hash_ok data) as (h & Hh & _).
    pose proof (Geometry_range_inv _ _ _ Hr) as Hlt. pose proof (hash_length _ _ Hh) as Hz.
    cbn [run_edit]. erewrite Index_set_ok by eauto.
    destruct (set_bytes_get v i slot h (ix_dirty v ++ [entry_range i])) as (Hwf' & Hget & Hoth);
      [done|lia|done|done|].
    eexists. split; [done|]. split; [done|]. split; [done|]. split.
    + intros j Hj. cbn [edit_spec]. rewrite Hh. cbn. case_decide; [by subst|by apply Hoth].
    + intros db Hdb. apply synced_write; [done|lia| |done]. rewrite zlen_app, to_le_zlen. lia.
  - destruct (remove_bytes_get v i Hwf He) as (Hwf' & Hget & Hoth).
    exists (Index_remove v i). split; [done|]. split; [done|]. split; [done|]. split.
    + intros j Hj. cbn [edit_spec]. case_decide; [by subst|by apply Hoth].
    + intros db Hdb. rewrite Index_remove_eq by done. apply synced_write; [done|lia| |done].
      by rewrite zlen_replicate.
Qed.

Lemma run_edits_ok `{!Sha256Ok D} es : ∀ v,
  wf_index v → Forall (edit_ok (ix_geometry v)) es →
  ∃ v', run_edits es v = (Ok tt, v') ∧ wf_index v' ∧ ix_geometry v' = ix_geometry v ∧
    (∀ j, 0 ≤ j → Index_get v' j = foldl (λ m e, edit_spec e m) (Index_get v) es j) ∧
    (∀ db, synced db v → synced db v').
Proof.
  induction es as [|e es IH]; intros v Hwf Hes; cbn [run_edits].
  { exists v. by split_and!. }
  apply Forall_cons in Hes as [He Hes].
  destruct (run_edit_ok e v Hwf He) as (v1 & Hr1 & Hwf1 & Hg1 & Hget1 & Hs1).
  rewrite <- Hg1 in Hes. destruct (IH v1 Hwf1 Hes) as (v2 & Hr2 & Hwf2 & Hg2 & Hget2 & Hs2).
  exists v2. unfold mbind, st_bind. rewrite Hr1, Hr2.
  split; [done|]. split; [done|]. split; [congruence|]. split; [|auto].
  intros j Hj. rewrite Hget2 by done. cbn [foldl].
  assert (Hext : ∀ m1 m2, m1 j = m2 j → ∀ es, foldl (λ m e, edit_spec e m) m1 es j
                          = foldl (λ m e, edit_spec e m) m2 es j).
  { clear. intros m1 m2 Hm es. revert m1 m2 Hm. induction es as [|e es IH]; intros; cbn; [done|].
    apply IH. destruct e; cbn; by rewrite Hm. }
  apply Hext. by apply Hget1.
Qed.
End Edits.

(** ** Properties *)

Lemma div_ceil_mul_le a b n : 0 < b → a ≤ n * b → div_ceil a b ≤ n.
Proof. intros. by apply div_ceil_le. Qed.

(** [Geometry::new] succeeds exactly on the lengths that a million 1 MiB blocks can
    hold; it then keeps the length, picks one of the three block sizes, the smallest one
    that needs at most 8192 blocks (or the largest block), and the block count is within
    the index limit. *)
Theorem geometry_new_spec length :
  is_u64 length →
  match Geometry_new length with
  | Ok g => g_length g = length ∧ wf_geometry g ∧ length ≤ 1000000 * MAX_BLOCK ∧
            (Geometry_count g ≤ 8192 ∨ g_block g = MAX_BLOCK) ∧
            (g_block g = MIN_BLOCK ∨ 8192 < div_ceil length (g_block g / 2))
  | Err e => e = "resource index exceeds memory limit"%string ∧ 1000000 * MAX_BLOCK < length
  end.
Proof.
  intros Hu. unfold Geometry_new, Geometry_count. cbn [g_length g_block].
  pose proof (grow_block_valid length) as Hv. rewrite (grow_block_cases 1) in *.
  unfold MAX_BLOCK, MIN_BLOCK. change (1024 * 1024) with 1048576. change (256 * 1024) with 262144.
  set (b := if 8192 <? div_ceil length 262144 then _ else _) in *.
  pose proof (div_ceil_le length b 1000000) as Hle.
  destruct (Z.leb_spec (div_ceil length b) 1000000) as [Hc|Hc]; cbn.
  - split; [done|]. split; [by split|]. unfold Geometry_count. cbn [g_length g_block].
    pose proof (valid_block_pos _ Hv). subst b.
    pose proof (div_ceil_le length 262144 8192). pose proof (div_ceil_le length 524288 8192).
    destruct (Z.ltb_spec 8192 (div_ceil length 262144)) as [?|?];
      [destruct (Z.ltb_spec 8192 (div_ceil length 524288)) as [?|?]|].
    + split_and!; [lia|by right|]. right. by change (1048576 / 2) with 524288.
    + split_and!; [lia|by left|]. right. by change (524288 / 2) with 262144.
    + split_and!; [lia|by left|by left].
  - split; [done|]. pose proof (valid_block_pos _ Hv). subst b.
    pose proof (div_ceil_le length 262144 8192). pose proof (div_ceil_le length 524288 8192).
    destruct (Z.ltb_spec 8192 (div_ceil length 262144)) as [?|?];
      [destruct (Z.ltb_spec 8192 (div_ceil length 524288)) as [?|?]|]; lia.
Qed.

Lemma geometry_new_spec_witness :
  match Geometry_new 5368709120 with
  | Ok g => g_length g = 5368709120 ∧ wf_geometry g ∧ 5368709120 ≤ 1000000 * MAX_BLOCK ∧
            (Geometry_count g ≤ 8192 ∨ g_block g = MAX_BLOCK) ∧
            (g_block g = MIN_BLOCK ∨ 8192 < div_ceil 5368709120 (g_block g / 2))
  | Err e => e = "resource index exceeds memory limit"%string ∧ 1000000 * MAX_BLOCK < 5368709120
  end.
Proof. apply (geometry_new_spec 5368709120). unfold is_u64, u64_max. lia. Defined.

(** The block ranges tile the resource: every byte offset below the length lies in
    exactly one block that [Geometry::range] returns. *)
Theorem blocks_tile_resource g o :
  wf_geometry g → 0 ≤ o < g_length g →
  ∃ i s e, 0 ≤ i < Geometry_count g ∧ Geometry_range g i = Ok (s, e) ∧ s ≤ o < e ∧
    e - s ≤ g_block g ∧
    ∀ j s' e', 0 ≤ j → Geometry_range g j = Ok (s', e') → s' ≤ o < e' → j = i.
Proof.
  intros Hg Ho. geometry g. set (i := o / g_block g).
  pose proof (Z.div_mod o (g_block g) ltac:(lia)) as Hd.
  pose proof (Z.mod_pos_bound o (g_block g) ltac:(lia)) as Hm. fold i in Hd.
  assert (Hi : 0 ≤ i < Geometry_count g) by nia.
  exists i, (i * g_block g), (Z.min ((i + 1) * g_block g) (g_length g)).
  split; [done|]. split; [apply Geometry_range_eq; (done || lia)|].
  split; [nia|]. split; [nia|]. intros j s' e' Hj Hr Hin.
  pose proof (Geometry_range_inv _ _ _ Hr). rewrite Geometry_range_eq in Hr by (done || lia).
  injection Hr as <- <-. nia.
Qed.

Definition witness_geometry : Geometry := mk_Geometry 600000 MIN_BLOCK.
Lemma witness_geometry_wf : wf_geometry witness_geometry.
Proof. split; [unfold is_u64, u64_max; cbn; lia|done|]. vm_compute. discriminate. Qed.

Lemma blocks_tile_resource_witness :
  ∃ i s e, 0 ≤ i < Geometry_count witness_geometry ∧ Geometry_range witness_geometry i = Ok (s, e) ∧
    s ≤ 300000 < e ∧ e - s ≤ g_block witness_geometry ∧
    ∀ j s' e', 0 ≤ j → Geometry_range witness_geometry j = Ok (s', e') → s' ≤ 300000 < e' → j = i.
Proof.
  apply (blocks_tile_resource witness_geometry 300000 witness_geometry_wf). cbn. lia.
Defined.

(** Slots never overlap: in a valid geometry each slot's bytes start after the header,
    distinct slots occupy disjoint byte ranges of the data file, and the offset computation
    cannot overflow for any 32-bit slot. *)
Theorem slots_disjoint g s1 s2 :
  wf_geometry g → 0 ≤ s1 < s2 → s2 ≤ u32_max →
  ∃ o1 o2, Geometry_offset g s1 = Ok o1 ∧ Geometry_offset g s2 = Ok o2 ∧
    HEADER_LEN ≤ o1 ∧ o1 + g_block g ≤ o2 ∧ o2 + g_block g ≤ u64_max.
Proof.
  intros Hg H1 H2. geometry g. do 2 eexists.
  split; [apply offset_eq; [done|lia]|]. split; [apply offset_eq; [done|lia]|].
  unfold HEADER_LEN, u64_max, u32_max in *. repeat split; nia.
Qed.

Lemma slots_disjoint_witness :
  ∃ o1 o2, Geometry_offset witness_geometry 0 = Ok o1 ∧ Geometry_offset witness_geometry 7 = Ok o2 ∧
    HEADER_LEN ≤ o1 ∧ o1 + g_block witness_geometry ≤ o2 ∧ o2 + g_block witness_geometry ≤ u64_max.
Proof. apply (slots_disjoint witness_geometry 0 7 witness_geometry_wf); unfold u32_max; lia. Defined.

(** C37. Refinement of the packed index by a finite map, with write-back: any sequence of
    [set] and [remove] on existing blocks succeeds, the resulting [get] is the map obtained
    by applying the edits one after the other, and writing the coalesced dirty ranges to a
    column that was in step with the index before makes the column equal to the index
    bytes. The ranges written are proper and separated by gaps. *)
Theorem index_edits_refine_map {D : Digest} `{!Sha256Ok D} v db es :
  wf_index v → synced db v → Forall (edit_ok (ix_geometry v)) es →
  ∃ v', run_edits es v = (Ok tt, v') ∧ wf_index v' ∧
    (∀ j, 0 ≤ j → Index_get v' j = foldl (λ m e, edit_spec e m) (Index_get v) es j) ∧
    patch_blob db (ix_bytes v') (Index_dirty v').1 = Ok (ix_bytes v') ∧
    Sorted gap (Index_dirty v').1 ∧
    synced (ix_bytes v') (Index_committed (Index_dirty v').2).
Proof.
  intros Hwf Hs Hes. destruct (run_edits_ok es v Hwf Hes) as (v' & Hr & Hwf' & _ & Hget & Hs').
  exists v'. split; [done|]. split; [done|]. split; [done|]. specialize (Hs' db Hs).
  split; [apply patch_synced; [done|by apply wf_index_i32]|].
  split; [apply coalesce_gap|]. repeat split. constructor.
Qed.

(** A digest of the right shape, for concrete runs: the first bytes of the data, padded. *)
Definition toy_digest : Digest := λ data, Ok (map (λ b, b mod 256) (take 32 (data ++ replicate 32 0))).
#[export] Instance toy_digest_ok : Sha256Ok toy_digest.
Proof.
  intros data. eexists. split; [done|]. split.
  - rewrite length_map, length_take, length_app, length_replicate. lia.
  - apply Forall_map, Forall_forall. intros b _. unfold is_byte. apply Z.mod_pos_bound. lia.
Qed.

Definition witness_small : Geometry := mk_Geometry 3 MIN_BLOCK.
Lemma witness_small_wf : wf_geometry witness_small.
Proof. split; [unfold is_u64, u64_max; cbn; lia|done|]. vm_compute. discriminate. Qed.

Lemma synced_new g : wf_geometry g → synced (ix_bytes (Index_new g)) (Index_new g).
Proof. intros _. repeat split. constructor. Qed.

Lemma index_edits_refine_map_witness :
  let v := Index_new witness_small in
  let es := [ESet 0 5 [1; 2; 3]; ERemove 0; ESet 0 9 [4; 5; 6]] in
  ∃ v', run_edits (D := toy_digest) es v = (Ok tt, v') ∧ wf_index v' ∧
    (∀ j, 0 ≤ j → Index_get v' j = foldl (λ m e, edit_spec (D := toy_digest) e m) (Index_get v) es j) ∧
    patch_blob (ix_bytes v) (ix_bytes v') (Index_dirty v').1 = Ok (ix_bytes v') ∧
    Sorted gap (Index_dirty v').1 ∧
    synced (ix_bytes v') (Index_committed (Index_dirty v').2).
Proof.
  apply (index_edits_refine_map (D := toy_digest)).
  - apply Index_new_wf, witness_small_wf.
  - apply synced_new, witness_small_wf.
  - repeat constructor; try (cbn; unfold u32_max; lia); exists (0, 3); done.
Defined.

(** The four copies into the zeroed header are its concatenated fields. *)
Lemma header_fields a b d :
  length a = 8%nat → length b = 8%nat → length d = 32%nat →
  write_at (write_at (write_at (write_at (replicate 64 0) 0 MAGIC) 8 a) 16 b) 24 d
    = MAGIC ++ a ++ b ++ d ++ replicate 8 0.
Proof.
  intros Ha Hb Hd. do 9 (destruct a as [|? a]; try discriminate).
  do 9 (destruct b as [|? b]; try discriminate).
  unfold write_at. cbn -[Nat.add]. rewrite Hd. done.
Qed.

Lemma Geometry_header_eq {D : Digest} g gen h :
  Geometry_header g gen = Ok h →
  ∃ d, hash gen = Ok d ∧ length d = 32%nat ∧
    h = MAGIC ++ to_le 8 (g_length g) ++ to_le 8 (g_block g) ++ d ++ replicate 8 0.
Proof.
  unfold Geometry_header. intros H. apply result_bind_Ok in H as (d & Hd & H).
  pose proof (hash_length _ _ Hd) as Hz. unfold zlen in Hz.
  rewrite header_fields in H by (lia || by rewrite to_le_length).
  exists d. split; [done|]. split; [lia|]. by injection H.
Qed.

(** The 64-byte file header identifies the resource: it is the magic, the length and the
    block size in little-endian and the digest of the generation, so two equal headers come
    from equal geometries and equal generation digests. *)
Theorem header_identifies {D : Digest} g1 g2 gen1 gen2 h :
  is_u64 (g_length g1) → is_u64 (g_length g2) → is_u64 (g_block g1) → is_u64 (g_block g2) →
  Geometry_header g1 gen1 = Ok h → Geometry_header g2 gen2 = Ok h →
  g1 = g2 ∧ hash gen1 = hash gen2 ∧ length h = 64%nat ∧ take 8 h = MAGIC.
Proof.
  intros L1 L2 B1 B2 H1 H2.
  apply Geometry_header_eq in H1 as (d1 & Hd1 & Z1 & ->), H2 as (d2 & Hd2 & Z2 & H2).
  apply app_inv_head in H2.
  apply app_inj_1 in H2 as [HL H2]; [|by rewrite !to_le_length].
  apply app_inj_1 in H2 as [HB H2]; [|by rewrite !to_le_length].
  apply app_inv_tail in H2 as ->.
  unfold is_u64, u64_max in *.
  apply to_le_inj in HL, HB; try (cbn; lia).
  split; [destruct g1, g2; cbn in *; congruence|]. split; [congruence|].
  rewrite !length_app, !to_le_length, length_replicate. split; [cbn; lia|done].
Qed.

Lemma header_identifies_witness :
  let h := MAGIC ++ to_le 8 600000 ++ to_le 8 MIN_BLOCK ++ [7; 8] ++ replicate 38 0 in
  witness_geometry = witness_geometry ∧ hash (D := toy_digest) [7; 8] = hash (D := toy_digest) [7; 8] ∧
  length h = 64%nat ∧ take 8 h = MAGIC.
Proof.
  apply (header_identifies (D := toy_digest) witness_geometry witness_geometry [7; 8] [7; 8]);
    vm_compute; first [reflexivity | split; discriminate].
Defined.
