(* ===== verification/HttpRange.v ===== *)
(** * HTTP ranges

    Models [backend/main/src/http/range.rs]: the byte range of a request, the content range
    of a response, its textual form and its parser. The request header itself is parsed by
    the [http_range_header] crate, a parameter here. *)
From S2P Require Import Prelude Text.
From stdpp Require Import options.

Open Scope Z_scope.

(** ** Data *)

Inductive StartPosition := StartIndex (pos : Z) | FromLast (pos : Z).
Inductive EndPosition := EndIndex (pos : Z) | LastByte.

Record HttpRange := mk_HttpRange { r_start : StartPosition; r_end : EndPosition }.

Definition HttpRange_default : HttpRange := mk_HttpRange (StartIndex 0) LastByte.

Record HttpContentRange := mk_HttpContentRange { cr_start : Z; cr_end : Z; cr_full : Z }.

Inductive HttpError := UnsupportedRange (text : string).

(** ** Operations *)

Definition HttpRange_start (r : HttpRange) (full : Z) : Z :=
  match r_start r with
  | StartIndex pos => pos
  | FromLast pos => wsub full pos
  end.

Definition in_full (r : HttpRange) (full : Z) : bool :=
  if match r_start r with
     | StartIndex offset => full <=? offset
     | FromLast offset => full <=? offset
     end
  then false
  else if match r_end r with
          | EndIndex offset => full <=? offset
          | LastByte => full =? 0
          end
       then false else true.

Definition from_range (r : HttpRange) (full : Z) : option HttpContentRange :=
  if full =? 0 then None
  else Some (mk_HttpContentRange
               (match r_start r with StartIndex offset => offset | FromLast offset => wsub full offset end)
               (match r_end r with EndIndex offset => offset | LastByte => wsub full 1 end)
               full).

(** [Display] of a content range and of a range. *)
Definition show_content_range (c : HttpContentRange) : string :=
  ("bytes " +:+ show_u64 (cr_start c) +:+ "-" +:+ show_u64 (cr_end c) +:+ "/" +:+ show_u64 (cr_full c))%string.

Definition show_range (r : HttpRange) : string :=
  match r_start r, r_end r with
  | StartIndex start, EndIndex end_ => ("bytes=" +:+ show_u64 start +:+ "-" +:+ show_u64 end_)%string
  | StartIndex start, LastByte => ("bytes=" +:+ show_u64 start +:+ "-")%string
  | FromLast start, _ => ("bytes=-" +:+ show_u64 start)%string
  end.

Definition slash_or_space (c : Ascii.ascii) : bool := (code c =? 47) || (code c =? 32).

Definition parse_content_range (s : string) : option HttpContentRange :=
  match split_on slash_or_space s with
  | [unit; range; full] =>
    if str_eqb unit "bytes" then
      match split_char (chr 45) range with
      | [start; end_] =>
        match parse_u64 start, parse_u64 end_, parse_u64 full with
        | Some start, Some end_, Some full => Some (mk_HttpContentRange start end_ full)
        | _, _, _ => None
        end
      | _ => None
      end
    else None
  | _ => None
  end.

(** [http_range_header::parse_range_header], a parameter. *)
Definition parse_range (parse_range_header : string → option (list HttpRange)) (s : string)
  : result HttpError HttpRange :=
  match parse_range_header s with
  | Some ranges =>
    match ranges with
    | [r] => Ok r
    | _ => Err (UnsupportedRange s)
    end
  | None => Err (UnsupportedRange s)
  end.

(** ** Lemmas *)

Definition wf_content_range (c : HttpContentRange) : Prop :=
  is_u64 (cr_start c) ∧ is_u64 (cr_end c) ∧ is_u64 (cr_full c).

Lemma digits_avoid (p : Ascii.ascii → bool) n :
  0 ≤ n → (∀ c, is_digit c = true → p c = false) →
  string_all (λ x, negb (p x)) (show_u64 n) = true.
Proof.
  intros Hn Hp. eapply string_all_impl; [|by apply show_u64_digits].
  intros c Hc. by rewrite Hp.
Qed.

Lemma digit_not_slash c : is_digit c = true → slash_or_space c = false.
Proof. unfold is_digit, slash_or_space. lia. Qed.
Lemma digit_not_dash c : is_digit c = true → Ascii.eqb (chr 45) c = false.
Proof. intros Hc. apply Ascii.eqb_neq. intros <-. by vm_compute in Hc. Qed.

(** ** Properties *)

(** [parse_content_range] reads back every content range the server prints. *)
Theorem content_range_roundtrip c :
  wf_content_range c → parse_content_range (show_content_range c) = Some c.
Proof.
  intros (Hs & He & Hf). unfold is_u64 in *.
  assert (Hsplit : split_on slash_or_space (show_content_range c) =
    ["bytes"; (show_u64 (cr_start c) +:+ "-" +:+ show_u64 (cr_end c))%string; show_u64 (cr_full c)]%string).
  { unfold show_content_range.
    change ("bytes " +:+ ?x)%string with ("bytes" +:+ String (chr 32) x)%string.
    rewrite split_on_app by done. f_equal.
    change ("/" +:+ ?x)%string with (String (chr 47) x).
    rewrite <- (append_assoc "-"), <- append_assoc.
    rewrite (split_on_app _ _ (chr 47)).
    - rewrite split_on_none; [done|]. apply digits_avoid; [lia|apply digit_not_slash].
    - rewrite !string_all_app, !digits_avoid by (lia || apply digit_not_slash). done.
    - done. }
  unfold parse_content_range. rewrite Hsplit. cbn [str_eqb String.eqb].
  change (str_eqb "bytes" "bytes") with true. cbn iota.
  unfold split_char. change ("-" +:+ ?x)%string with (String (chr 45) x).
  rewrite (split_on_app _ _ (chr 45)); [|apply digits_avoid; [lia|apply digit_not_dash]|done].
  rewrite split_on_none by (apply digits_avoid; [lia|apply digit_not_dash]).
  rewrite !parse_show_u64 by done. by destruct c.
Qed.

Lemma content_range_roundtrip_witness :
  parse_content_range (show_content_range (mk_HttpContentRange 1024 4095 18446744073709551615))
    = Some (mk_HttpContentRange 1024 4095 18446744073709551615).
Proof. apply content_range_roundtrip. vm_compute. repeat split; discriminate. Defined.

(** For a range that passes [in_full], the subtraction in [start] and [from_range] never
    wraps, the content range exists, ends inside the resource and starts inside it unless
    the request asks for a suffix of zero bytes. *)
Theorem in_full_content_range r full :
  is_u64 full → (∀ p, r_start r = StartIndex p → 0 ≤ p) → (∀ p, r_start r = FromLast p → 0 ≤ p) →
  in_full r full = true →
  ∃ c, from_range r full = Some c ∧ cr_start c = HttpRange_start r full ∧ cr_full c = full ∧
    0 ≤ cr_start c ≤ full ∧ cr_end c < full ∧
    (cr_start c = full → r_start r = FromLast 0) ∧
    (∀ p, r_start r = FromLast p → cr_start c = full - p).
Proof.
  intros Hf Hi Hl H. unfold in_full in H. destruct r as [s e]. cbn in *.
  destruct s as [p|p].
  - specialize (Hi p eq_refl). destruct (Z.leb_spec full p); [done|].
    destruct e as [q|]; cbn in *.
    + destruct (Z.leb_spec full q); [done|]. unfold from_range, HttpRange_start; cbn.
      destruct (Z.eqb_spec full 0); [lia|]. eexists. split; [done|]. cbn.
      split_and!; [done|done|lia|lia|lia|lia|discriminate].
    + destruct (Z.eqb_spec full 0); [done|]. unfold from_range, HttpRange_start; cbn.
      destruct (Z.eqb_spec full 0); [lia|]. eexists. split; [done|]. cbn.
      unfold is_u64 in *. rewrite wsub_small by (unfold is_u64; lia).
      split_and!; [done|done|lia|lia|lia|lia|discriminate].
  - specialize (Hl p eq_refl). destruct (Z.leb_spec full p); [done|]. unfold is_u64 in *.
    destruct e as [q|]; cbn in *.
    + destruct (Z.leb_spec full q); [done|]. unfold from_range, HttpRange_start; cbn.
      destruct (Z.eqb_spec full 0); [lia|]. eexists. split; [done|]. cbn.
      rewrite wsub_small by (unfold is_u64; lia).
      split_and!; [done|done|lia|lia|lia| |intros ? [= ->]; lia].
      intros. f_equal. lia.
    + destruct (Z.eqb_spec full 0); [done|]. unfold from_range, HttpRange_start; cbn.
      destruct (Z.eqb_spec full 0); [lia|]. eexists. split; [done|]. cbn.
      rewrite !wsub_small by (unfold is_u64; lia).
      split_and!; [done|done|lia|lia|lia| |intros ? [= ->]; lia].
      intros. f_equal. lia.
Qed.

Lemma in_full_content_range_witness :
  ∃ c, from_range (mk_HttpRange (FromLast 100) LastByte) 1000 = Some c ∧
    cr_start c = HttpRange_start (mk_HttpRange (FromLast 100) LastByte) 1000 ∧ cr_full c = 1000 ∧
    0 ≤ cr_start c ≤ 1000 ∧ cr_end c < 1000 ∧
    (cr_start c = 1000 → FromLast 100 = FromLast 0) ∧
    (∀ p, FromLast 100 = FromLast p → cr_start c = 1000 - p).
Proof.
  apply (in_full_content_range (mk_HttpRange (FromLast 100) LastByte) 1000).
  - unfold is_u64, u64_max. lia.
  - discriminate.
  - intros p [= <-]. lia.
  - reflexivity.
Defined.
