(* ===== verification/Pieces.v ===== *)
(** * Downloaded pieces of a file

    Models [backend/main/src/http/piece.rs]: the set of byte intervals of a file that are
    present, kept in a [BTreeMap] from offset to piece. The map is the list of its entries
    in key order; [+] on offsets stays within [u64] for the pieces of a real file, so it is
    integer addition here. *)
From S2P Require Import Prelude.
From stdpp Require Import options.

Open Scope Z_scope.

Record Piece := mk_Piece { p_offset : Z; p_length : Z }.
Definition p_end (p : Piece) : Z := p_offset p + p_length p.

(** The entries of the [BTreeMap<u64, Piece>], in ascending order of the key. *)
Record FileMeta := mk_FileMeta { fm_len : Z; fm_pieces : list (Z * Piece) }.

(** [BTreeMap::insert] and [BTreeMap::remove] on the sorted entries. *)
Fixpoint btree_insert (k : Z) (p : Piece) (l : list (Z * Piece)) : list (Z * Piece) :=
  match l with
  | [] => [(k, p)]
  | e :: l' => if k <? e.1 then (k, p) :: l
               else if k =? e.1 then (k, p) :: l' else e :: btree_insert k p l'
  end.
Definition btree_remove (k : Z) (l : list (Z * Piece)) : list (Z * Piece) :=
  List.filter (λ e, negb (e.1 =? k)) l.

(** [pieces.range(..=start).next_back()], the entry with the greatest key up to [start]. *)
Fixpoint last_upto (start : Z) (l : list (Z * Piece)) : option (Z * Piece) :=
  match l with
  | [] => None
  | e :: l => if e.1 <=? start
              then match last_upto start l with Some e' => Some e' | None => Some e end
              else None
  end.

Definition longest_piece (m : FileMeta) (start : Z) : option Piece :=
  match last_upto start (fm_pieces m) with
  | Some (_, p) => if start <? p_end p then Some p else None
  | None => None
  end.

Definition piece_of (m : FileMeta) (start : Z) : option Piece :=
  match longest_piece m start with
  | Some p => Some (mk_Piece start (p_end p - start))
  | None => None
  end.

Definition contains (e p : Piece) : bool :=
  (p_offset e <=? p_offset p) && (p_end p <=? p_end e).
Definition touches (e p : Piece) : bool :=
  ((p_offset e <=? p_offset p) && (p_offset p <=? p_end e))
  || ((p_offset p <=? p_offset e) && (p_offset e <=? p_end p)).

(** One merge step of the loop: the hull of the piece so far and a touching one. *)
Definition merge (merged e : Piece) : Piece :=
  let offset := Z.min (p_offset merged) (p_offset e) in
  mk_Piece offset (Z.max (p_offset merged + p_length merged) (p_offset e + p_length e) - offset).

(** The [for] loop of [combine]: [None] is the early [return false], otherwise the merged
    piece and the keys to remove. *)
Fixpoint combine_loop (p : Piece) (l : list (Z * Piece)) (merged : Piece) (to_remove : list Z)
  : option (Piece * list Z) :=
  match l with
  | [] => Some (merged, to_remove)
  | (offset, existing) :: l =>
    if contains existing p then None
    else if touches existing p
         then combine_loop p l (merge merged existing) (to_remove ++ [offset])
         else combine_loop p l merged to_remove
  end.

Definition combine (m : FileMeta) (p : Piece) : bool * FileMeta :=
  match combine_loop p (fm_pieces m) p [] with
  | None => (false, m)
  | Some (merged, to_remove) =>
    let pieces := foldl (λ l offset, btree_remove offset l) (fm_pieces m) to_remove in
    (true, mk_FileMeta (fm_len m) (btree_insert (p_offset merged) merged pieces))
  end.

Definition is_end (m : FileMeta) : bool :=
  (length (fm_pieces m) =? 1)%nat
  && match fm_pieces m with
     | [] => false
     | (k, p) :: _ => (k =? 0) && ((p_offset p =? 0) && (p_length p =? fm_len m))
     end.

(** ** Invariant *)

(** Every entry is keyed by its offset and not empty, and consecutive pieces leave a gap. *)
Definition entry_ok (e : Z * Piece) : Prop := e.1 = p_offset e.2 ∧ 0 < p_length e.2.
Definition piece_gap (a b : Z * Piece) : Prop := p_end a.2 < p_offset b.2.
Definition wf_pieces (l : list (Z * Piece)) : Prop :=
  Forall entry_ok l ∧ StronglySorted piece_gap l.

(** The bytes present. *)
Definition present (l : list (Z * Piece)) (x : Z) : Prop :=
  Exists (λ e, p_offset e.2 ≤ x < p_end e.2) l.

Lemma present_cons e l x : present (e :: l) x ↔ p_offset e.2 ≤ x < p_end e.2 ∨ present l x.
Proof. apply Exists_cons. Qed.
Lemma present_nil x : present [] x ↔ False.
Proof. apply Exists_nil. Qed.
Lemma present_app l k x : present (l ++ k) x ↔ present l x ∨ present k x.
Proof. apply Exists_app. Qed.

Lemma wf_pieces_cons e l :
  wf_pieces (e :: l) ↔ entry_ok e ∧ Forall (piece_gap e) l ∧ wf_pieces l.
Proof.
  unfold wf_pieces. rewrite Forall_cons. split.
  - intros [[? ?] [? ?]%StronglySorted_inv]. tauto.
  - intros (? & ? & ? & ?). split; [done|]. by constructor.
Qed.

Lemma wf_pieces_after e l x : wf_pieces (e :: l) → present l x → p_end e.2 < x.
Proof.
  intros (_ & Hg & _)%wf_pieces_cons Hx. unfold present in Hx.
  apply Exists_exists in Hx as (y & Hy & Hr). rewrite Forall_forall in Hg.
  specialize (Hg y Hy). unfold piece_gap in Hg. lia.
Qed.

(** What the loop merges: a prefix before [p], a block of touching pieces, a suffix after. *)
Definition before (p : Piece) (e : Z * Piece) : Prop := p_end e.2 < p_offset p.
Definition after (p : Piece) (e : Z * Piece) : Prop := p_end p < p_offset e.2.

Lemma not_touching e p : 0 < p_length e → 0 < p_length p →
  touches e p = false ↔ p_end e < p_offset p ∨ p_end p < p_offset e.
Proof. unfold touches, p_end. intros. lia. Qed.

Lemma after_all p e l : wf_pieces (e :: l) → after p e → Forall (after p) l.
Proof.
  intros ((_ & Hl) & Hg & _)%wf_pieces_cons He. eapply Forall_impl; [exact Hg|].
  unfold after, piece_gap, p_end in *. intros; lia.
Qed.

Lemma combine_loop_after p l : ∀ merged rm,
  Forall (after p) l → 0 < p_length p → Forall entry_ok l →
  combine_loop p l merged rm = Some (merged, rm).
Proof.
  induction l as [|[k e] l IH]; intros merged rm Ha Hp Hok; cbn; [done|].
  apply Forall_cons in Ha as [Ha Hal], Hok as [[_ He] Hok]. unfold after, entry_ok, p_end in *.
  cbn in *. unfold contains, touches, p_end.
  destruct (_ && _) eqn:H1; [bool_lia|].
  destruct (_ || _) eqn:H2; [lia|]. by apply IH.
Qed.

Definition keys_of (l : list (Z * Piece)) : list Z := map fst l.

Lemma combine_loop_spec p l : ∀ merged rm,
  wf_pieces l → 0 < p_length p →
  p_offset merged ≤ p_offset p → p_end p ≤ p_end merged →
  Forall (λ e, p_end e.2 < p_offset p → p_end e.2 < p_offset merged) l →
  Forall (λ e, p_end p < p_offset e.2 → p_end merged < p_offset e.2) l →
  match combine_loop p l merged rm with
  | None => ∃ e, e ∈ l ∧ p_offset e.2 ≤ p_offset p ∧ p_end p ≤ p_end e.2
  | Some (m, rm') => ∃ l1 l2 l3, l = l1 ++ l2 ++ l3 ∧ rm' = rm ++ keys_of l2 ∧
      Forall (λ e, p_end e.2 < p_offset m) l1 ∧ Forall (λ e, p_end m < p_offset e.2) l3 ∧
      p_offset m ≤ p_offset merged ∧ p_end merged ≤ p_end m ∧
      (∀ x, p_offset m ≤ x < p_end m ↔ p_offset merged ≤ x < p_end merged ∨ present l2 x)
  end.
Proof.
  induction l as [|[k e] l IH]; intros merged rm Hwf Hp Hmo Hme Hbef Haft; cbn [combine_loop].
  { exists [], [], []. cbn. rewrite app_nil_r. split_and!; try done.
    intros x. rewrite present_nil. tauto. }
  pose proof Hwf as ([Hk He] & Hg & Hwfl)%wf_pieces_cons. cbn in Hk, He.
  apply Forall_cons in Hbef as [Hbe Hbef], Haft as [Hae Haft]. cbn in Hbe, Hae.
  destruct (contains e p) eqn:Hc.
  { exists (k, e). unfold contains in Hc. split; [by left|]. cbn. bool_lia. }
  destruct (touches e p) eqn:Ht.
  - assert (Htouch : p_offset e ≤ p_end p ∧ p_offset p ≤ p_end e)
      by (unfold touches, p_end in *; lia).
    set (m1 := merge merged e).
    assert (Ho1 : p_offset m1 = Z.min (p_offset merged) (p_offset e)) by done.
    assert (He1 : p_end m1 = Z.max (p_end merged) (p_end e))
      by (unfold m1, merge, p_end; cbn; lia).
    assert (Hgap : Forall (λ y, p_end e < p_offset y.2 ∧ 0 < p_length y.2) l).
    { apply Forall_and. split; [exact Hg|]. destruct Hwfl as [Hok _].
      eapply Forall_impl; [exact Hok|]. by intros ? [_ ?]. }
    specialize (IH m1 (rm ++ [k]) Hwfl Hp ltac:(lia) ltac:(lia)).
    destruct (combine_loop p l m1 (rm ++ [k])) as [[m rm']|] eqn:Hloop.
    + destruct IH as (l1 & l2 & l3 & Hl & Hrm & Hf1 & Hf3 & Hmo' & Hme' & Hx).
      * rewrite Forall_forall in *. intros y Hy ?. specialize (Hgap y Hy). unfold p_end in *. lia.
      * rewrite Forall_forall in *. intros y Hy Hay. specialize (Hgap y Hy).
        specialize (Haft y Hy Hay). lia.
      * assert (l1 = []) as ->.
        { destruct l1 as [|y l1]; [done|]. apply Forall_cons in Hf1 as [Hy _].
          rewrite Hl in Hgap. apply Forall_cons in Hgap as [Hgy _].
          cbn beta in Hy, Hgy. unfold p_end in *. lia. }
        exists [], ((k, e) :: l2), l3. cbn in Hl |- *. rewrite Hl. split; [done|].
        split; [rewrite Hrm, <- app_assoc; done|]. split_and!; [done|done|lia|lia|].
        intros x. rewrite Hx, present_cons. cbn [snd].
        assert (p_offset m1 ≤ x < p_end m1 ↔
          p_offset merged ≤ x < p_end merged ∨ p_offset e ≤ x < p_end e) by (unfold p_end in *; lia).
        tauto.
    + destruct IH as (y & Hy & Hin); [..|exists y; split; [by right|done]].
      * rewrite Forall_forall in *. intros y Hy ?. specialize (Hgap y Hy). unfold p_end in *. lia.
      * rewrite Forall_forall in *. intros y Hy Hay. specialize (Hgap y Hy).
        specialize (Haft y Hy Hay). lia.
  - apply not_touching in Ht as [Hb|Ha]; [| |done|done].
    + specialize (IH merged rm Hwfl Hp Hmo Hme Hbef Haft).
      destruct (combine_loop p l merged rm) as [[m rm']|].
      * destruct IH as (l1 & l2 & l3 & Hl & Hrm & Hf1 & Hf3 & Hmo' & Hme' & Hx).
        exists ((k, e) :: l1), l2, l3. rewrite Hl. split_and!; try done.
        constructor; [|done]. cbn. specialize (Hbe Hb).
        destruct (decide (p_end e < p_offset m)) as [|Hn]; [done|exfalso].
        (* the merged piece starts at a touching piece, all of which lie after [e] *)
        assert (Hin : p_offset m ≤ p_offset m < p_end m) by (unfold p_end in *; lia).
        apply Hx in Hin as [?|Hin]; [lia|].
        pose proof (wf_pieces_after (k, e) l (p_offset m) Hwf) as Hafter. cbn in Hafter.
        rewrite Hl, !present_app in Hafter. lia || (specialize (Hafter ltac:(tauto)); lia).
      * destruct IH as (y & Hy & Hin). exists y. split; [by right|done].
    + assert (Hall : Forall (after p) ((k, e) :: l)).
      { constructor; [done|]. by eapply after_all. }
      rewrite combine_loop_after by (done || (by apply Forall_cons in Hall as [_ ?]) || apply Hwfl).
      exists [], [], ((k, e) :: l). cbn. rewrite app_nil_r. split_and!; try done; try lia.
      * constructor; [by apply Hae|]. rewrite Forall_forall in *. intros y Hy. apply Haft; [done|].
        specialize (Hg y Hy). unfold piece_gap, p_end in *. cbn in *. lia.
      * intros x. rewrite present_nil. tauto.
Qed.

Lemma btree_remove_app k l1 l2 : btree_remove k (l1 ++ l2) = btree_remove k l1 ++ btree_remove k l2.
Proof. apply List.filter_app. Qed.
Lemma btree_remove_id k l : Forall (λ e, e.1 ≠ k) l → btree_remove k l = l.
Proof.
  induction 1 as [|e l He _ IH]; cbn; [done|].
  destruct (Z.eqb_spec e.1 k); [done|]. cbn. by f_equal.
Qed.

Lemma remove_block l1 l2 l3 :
  wf_pieces (l1 ++ l2 ++ l3) →
  foldl (λ l offset, btree_remove offset l) (l1 ++ l2 ++ l3) (keys_of l2) = l1 ++ l3.
Proof.
  induction l2 as [|[k e] l2 IH]; intros Hwf; [done|]. cbn [keys_of map foldl fst].
  assert (Hne : Forall (λ y, y.1 ≠ k) l1 ∧ Forall (λ y, y.1 ≠ k) (l2 ++ l3)).
  { destruct Hwf as [Hok Hs]. apply Forall_app in Hok as [Hok1 Hok].
    apply Forall_cons in Hok as [[Hk He] Hok]. cbn in Hk, He. subst k. split.
    - rewrite Forall_forall in *. intros y Hy. specialize (Hok1 y Hy) as [-> ?].
      eapply StronglySorted_app_1_elem_of in Hs; [|exact Hy|by left]. unfold piece_gap, p_end in Hs.
      cbn in Hs. lia.
    - apply StronglySorted_app in Hs as (_ & _ & Hs). apply StronglySorted_inv in Hs as [_ Hs].
      rewrite Forall_forall in *. intros y Hy. specialize (Hok y Hy) as [-> ?].
      specialize (Hs y Hy). unfold piece_gap, p_end in Hs. cbn in Hs. lia. }
  rewrite btree_remove_app. destruct Hne as [Hn1 Hn2]. rewrite (btree_remove_id k l1) by done.
  cbn. rewrite Z.eqb_refl. cbn. fold (btree_remove k (l2 ++ l3)).
  rewrite (btree_remove_id k (l2 ++ l3)) by done. apply IH.
  destruct Hwf as [Hok Hs]. split.
  - apply Forall_app in Hok as [? Hok]. apply Forall_cons in Hok as [_ ?]. by apply Forall_app.
  - apply StronglySorted_app in Hs as (Hs & ? & Hs3). apply StronglySorted_app. split_and!; [|done|].
    + intros x y Hx Hy. apply Hs; [done|by right].
    + by apply StronglySorted_inv in Hs3 as [? _].
Qed.

Lemma insert_block m l1 l3 :
  Forall (λ e, p_end e.2 < p_offset m) l1 → Forall (λ e, p_end m < p_offset e.2) l3 →
  0 < p_length m → wf_pieces (l1 ++ l3) →
  btree_insert (p_offset m) m (l1 ++ l3) = l1 ++ (p_offset m, m) :: l3 ∧
  wf_pieces (l1 ++ (p_offset m, m) :: l3).
Proof.
  intros H1 H3 Hm Hwf. split.
  - induction l1 as [|[k e] l1 IH]; cbn [app].
    + destruct l3 as [|[k e] l3]; cbn; [done|]. apply Forall_cons in H3 as [H3 _].
      destruct Hwf as [[[Hk He] _]%Forall_cons _]. cbn in *. subst k.
      unfold p_end in H3. destruct (Z.ltb_spec (p_offset m) (p_offset e)); [done|lia].
    + apply Forall_cons in H1 as [He1 H1]. pose proof Hwf as ([Hk He] & _ & Hwf')%wf_pieces_cons.
      cbn in *. subst k. unfold p_end in He1.
      destruct (Z.ltb_spec (p_offset m) (p_offset e)); [lia|].
      destruct (Z.eqb_spec (p_offset m) (p_offset e)); [lia|]. by rewrite IH.
  - destruct Hwf as [Hok Hs]. apply Forall_app in Hok as [Hok1 Hok3].
    apply StronglySorted_app in Hs as (Hx & Hs1 & Hs3). split.
    + apply Forall_app. split; [done|]. by constructor.
    + apply StronglySorted_app. rewrite !Forall_forall in *. split_and!.
      * intros x y Hxl [->|Hy]%elem_of_cons; [by apply (H1 x)|by apply Hx].
      * done.
      * constructor; [done|]. rewrite Forall_forall. intros y Hy. by apply (H3 y).
Qed.

(** The byte right after a piece is missing. *)
Lemma end_not_present l e : wf_pieces l → e ∈ l → ¬ present l (p_end e.2).
Proof.
  induction l as [|y l IH]; intros Hwf He; [by apply elem_of_nil in He|].
  rewrite present_cons. pose proof Hwf as ([_ Hy] & Hg & Hwfl)%wf_pieces_cons.
  apply elem_of_cons in He as [->|He].
  - intros [?|Hp]; [lia|]. pose proof (wf_pieces_after _ _ _ Hwf Hp). lia.
  - intros [Hin|Hp]; [|by eapply IH]. rewrite Forall_forall in Hg. specialize (Hg e He).
    destruct Hwfl as [Hok _]. rewrite Forall_forall in Hok. specialize (Hok e He) as [_ Hlen].
    unfold piece_gap, p_end in *. lia.
Qed.

Lemma combine_loop_Some p l : ∀ merged rm r,
  combine_loop p l merged rm = Some r → Forall (λ e, contains e.2 p = false) l.
Proof.
  induction l as [|[k e] l IH]; intros merged rm r H; cbn in H; [constructor|].
  destruct (contains e p) eqn:Hc; [done|]. constructor; [done|]. case_match; by eapply IH.
Qed.

Lemma combine_loop_new p l merged rm r :
  wf_pieces l → 0 < p_length p → combine_loop p l merged rm = Some r →
  ∃ x, p_offset p ≤ x < p_end p ∧ ¬ present l x.
Proof.
  intros Hwf Hp Hl. apply combine_loop_Some in Hl.
  destruct (decide (Exists (λ e, p_offset e.2 ≤ p_offset p < p_end e.2) l)) as [Hin|Hout].
  - apply Exists_exists in Hin as (e & He & Hin). rewrite Forall_forall in Hl.
    specialize (Hl e He). unfold contains in Hl. exists (p_end e.2).
    split; [lia|]. by apply end_not_present.
  - exists (p_offset p). split; [unfold p_end; lia|done].
Qed.

(** [combine] on a well-formed piece set and a non-empty piece: it answers [false] and
    changes nothing exactly when the piece was already present as a whole; otherwise the
    pieces stay non-empty, keyed by offset, disjoint and separated by gaps, and the bytes
    present afterwards are those present before together with those of the piece. *)
Theorem combine_spec m p :
  wf_pieces (fm_pieces m) → 0 < p_length p →
  match combine m p with
  | (false, m') => m' = m ∧ (∀ x, p_offset p ≤ x < p_end p → present (fm_pieces m) x)
  | (true, m') => wf_pieces (fm_pieces m') ∧ fm_len m' = fm_len m ∧
      (∀ x, present (fm_pieces m') x ↔ present (fm_pieces m) x ∨ p_offset p ≤ x < p_end p) ∧
      ∃ x, p_offset p ≤ x < p_end p ∧ ¬ present (fm_pieces m) x
  end.
Proof.
  intros Hwf Hp. unfold combine.
  pose proof (combine_loop_spec p (fm_pieces m) p [] Hwf Hp ltac:(lia) ltac:(lia)) as Hspec.
  destruct (combine_loop p (fm_pieces m) p []) as [[g rm]|] eqn:Hloop.
  - destruct Hspec as (l1 & l2 & l3 & Hl & -> & H1 & H3 & Ho & He & Hx);
      [by apply Forall_true|by apply Forall_true|]. cbn [app fm_pieces].
    assert (Hg : 0 < p_length g) by (unfold p_end in *; lia).
    assert (Hwf13 : wf_pieces (l1 ++ l3)).
    { rewrite Hl in Hwf. destruct Hwf as [Hok Hs]. rewrite !Forall_app in Hok.
      apply StronglySorted_app in Hs as (Hs & Hs1 & Hs23).
      apply StronglySorted_app in Hs23 as (_ & _ & Hs3). split; [apply Forall_app; tauto|].
      apply StronglySorted_app. split_and!; [|done|done]. intros x y Hxl Hy.
      apply Hs; [done|]. apply elem_of_app. by right. }
    pose proof (combine_loop_new _ _ _ _ _ Hwf Hp Hloop) as Hnew.
    rewrite Hl in Hwf. rewrite Hl, remove_block by done. rewrite Hl in Hnew.
    destruct (insert_block g l1 l3 H1 H3 Hg Hwf13) as [-> Hwf']. split; [done|]. split; [done|].
    split; [|done].
    intros x. rewrite !present_app, present_cons, Hx. cbn [snd]. tauto.
  - destruct Hspec as (e & He & H1 & H2); [by apply Forall_true|by apply Forall_true|].
    split; [done|]. intros x Hx. apply Exists_exists. exists e. split; [done|].
    unfold p_end in *. lia.
Qed.

Lemma combine_spec_witness :
  let m := mk_FileMeta 100 [(0, mk_Piece 0 10); (20, mk_Piece 20 10); (50, mk_Piece 50 5)] in
  combine m (mk_Piece 8 13) = (true, mk_FileMeta 100 [(0, mk_Piece 0 30); (50, mk_Piece 50 5)]) ∧
  match combine m (mk_Piece 8 13) with
  | (false, m') => m' = m ∧ (∀ x, 8 ≤ x < 21 → present (fm_pieces m) x)
  | (true, m') => wf_pieces (fm_pieces m') ∧ fm_len m' = fm_len m ∧
      (∀ x, present (fm_pieces m') x ↔ present (fm_pieces m) x ∨ 8 ≤ x < 21) ∧
      ∃ x, 8 ≤ x < 21 ∧ ¬ present (fm_pieces m) x
  end.
Proof.
  intros m. split; [reflexivity|].
  apply (combine_spec m (mk_Piece 8 13)).
  - split; [repeat constructor; cbn; lia|repeat constructor; cbn; unfold piece_gap, p_end; cbn; lia].
  - cbn. lia.
Defined.

Lemma last_upto_spec start l :
  wf_pieces l →
  match last_upto start l with
  | Some e => e ∈ l ∧ e.1 ≤ start ∧ (∀ y, y ∈ l → y.1 ≤ start → y = e ∨ p_end y.2 < p_offset e.2)
  | None => ∀ y, y ∈ l → start < y.1
  end.
Proof.
  induction l as [|e l IH]; intros Hwf; cbn; [by intros y Hy%elem_of_nil|].
  pose proof Hwf as ([Hk Hlen] & Hg & Hwfl)%wf_pieces_cons. specialize (IH Hwfl).
  rewrite Forall_forall in Hg. destruct Hwfl as [Hok _]. rewrite Forall_forall in Hok.
  destruct (Z.leb_spec e.1 start).
  - destruct (last_upto start l) as [e'|].
    + destruct IH as (He' & Hle & Hmax). split; [by right|]. split; [done|].
      intros y [->|Hy]%elem_of_cons Hys; [right; by apply Hg|by apply Hmax].
    + split; [by left|]. split; [done|]. intros y [->|Hy]%elem_of_cons Hys; [by left|].
      specialize (IH y Hy). lia.
  - intros y [->|Hy]%elem_of_cons; [done|]. specialize (Hok y Hy) as [-> _].
    specialize (Hg y Hy). unfold piece_gap, p_end in Hg. lia.
Qed.

(** [piece_of] on a well-formed piece set returns a piece exactly when the byte [start]
    is present, and then it is the maximal run of present bytes from [start] on: it begins
    at [start], all its bytes are present and the byte after it is missing. *)
Theorem piece_of_maximal_run m start :
  wf_pieces (fm_pieces m) →
  match piece_of m start with
  | Some q => p_offset q = start ∧ 0 < p_length q ∧
      (∀ x, start ≤ x < p_end q → present (fm_pieces m) x) ∧ ¬ present (fm_pieces m) (p_end q)
  | None => ¬ present (fm_pieces m) start
  end.
Proof.
  intros Hwf. unfold piece_of, longest_piece. pose proof (last_upto_spec start _ Hwf) as Hs.
  destruct (last_upto start (fm_pieces m)) as [[k p]|].
  - destruct Hs as (He & Hle & Hmax). pose proof Hwf as [Hok _]. rewrite Forall_forall in Hok.
    pose proof (Hok _ He) as [Hk Hlen]. cbn in *. subst k.
    destruct (Z.ltb_spec start (p_end p)).
    + assert (Hend : p_end (mk_Piece start (p_end p - start)) = p_end p) by (unfold p_end; cbn; lia).
      rewrite Hend. cbn [p_offset p_length]. split_and!; [done|lia| |].
      * intros x Hx. apply Exists_exists. exists (p_offset p, p). split; [done|]. cbn. lia.
      * by apply (end_not_present _ _ Hwf He).
    + intros Hp. apply Exists_exists in Hp as (y & Hy & Hin). pose proof (Hok _ Hy) as [Hky _].
      destruct (Hmax y Hy ltac:(lia)) as [->|?]; cbn in *; lia.
  - intros Hp. apply Exists_exists in Hp as (y & Hy & Hin). specialize (Hs y Hy).
    destruct Hwf as [Hok _]. rewrite Forall_forall in Hok. destruct (Hok y Hy) as [Hk _]. lia.
Qed.

Lemma piece_of_maximal_run_witness :
  let m := mk_FileMeta 100 [(0, mk_Piece 0 10); (20, mk_Piece 20 10)] in
  match piece_of m 23 with
  | Some q => p_offset q = 23 ∧ 0 < p_length q ∧
      (∀ x, 23 ≤ x < p_end q → present (fm_pieces m) x) ∧ ¬ present (fm_pieces m) (p_end q)
  | None => ¬ present (fm_pieces m) 23
  end.
Proof.
  intros m. apply (piece_of_maximal_run m 23).
  split; [repeat constructor; cbn; lia|repeat constructor; unfold piece_gap, p_end; cbn; lia].
Defined.

(** A download is finished exactly when every byte of a non-empty file, and no other, is
    present. *)
Lemma is_end_present m :
  wf_pieces (fm_pieces m) → 0 < fm_len m →
  is_end m = true ↔ ∀ x, present (fm_pieces m) x ↔ 0 ≤ x < fm_len m.
Proof.
  intros Hwf Hlen. unfold is_end. destruct m as [n l]; cbn in *. split.
  - destruct l as [|[k p] [|? ?]]; cbn; try done. intros H x. rewrite present_cons, present_nil.
    unfold p_end. cbn. lia.
  - intros H. destruct l as [|[k p] l]; [specialize (H 0); rewrite present_nil in H; lia|].
    pose proof Hwf as ([Hk Hp] & _ & _)%wf_pieces_cons. cbn in Hk, Hp.
    assert (Hends : present ((k, p) :: l) (p_offset p) ∧ ¬ present ((k, p) :: l) (p_end p)).
    { split; [rewrite present_cons; left; unfold p_end; cbn; lia|].
      apply (end_not_present _ (k, p)); [done|by left]. }
    rewrite !H in Hends. pose proof H as H0. specialize (H 0). rewrite present_cons in H.
    cbn [snd] in H. destruct (proj2 H ltac:(lia)) as [Hin|Hin].
    + assert (l = []) as ->.
      { destruct l as [|e l]; [done|exfalso].
        assert (Hpe : present (e :: l) (p_offset e.2)).
        { rewrite present_cons. left. apply wf_pieces_cons in Hwf as (_ & _ & Hwf).
          apply wf_pieces_cons in Hwf as ([_ ?] & _). unfold p_end. lia. }
        pose proof (wf_pieces_after (k, p) (e :: l) (p_offset e.2) Hwf Hpe) as Haf.
        cbn [snd] in Haf.
        assert (Hall : present ((k, p) :: e :: l) (p_offset e.2)) by (rewrite present_cons; by right).
        apply H0 in Hall. lia. }
      specialize (H0 (p_end p - 1)). rewrite present_cons in H0. cbn [snd] in H0.
      assert (0 ≤ p_end p - 1 < n) by (apply H0; left; unfold p_end in *; lia).
      cbn. unfold p_end in *. lia.
    + pose proof (wf_pieces_after _ _ _ Hwf Hin). cbn in *. unfold p_end in *. lia.
Qed.
