(* ===== verification/Settings.v ===== *)
(** * Provider settings

    Models [backend/core/src/provider/settings.rs] (the definition and the validation of a
    provider's settings) and [backend/core/src/db/provider_settings.rs] (their storage under
    an optimistic revision). JSON values are the [serde_json] crate's: the [Json] interface. *)
From S2P Require Import Prelude Text.
From stdpp Require Import options.

Open Scope Z_scope.

(** ** The JSON values of [serde_json] *)

Class Json (V : Type) := {
  js_is_boolean : V → bool;
  js_as_str : V → option string;
  js_as_i64 : V → option Z;
  js_eqb : V → V → bool;
  (** [serde_json::to_vec(map)], the length of the text or [None] on an error. *)
  js_map_len : gmap string V → option Z;
  js_from_map : gmap string V → option V;
  js_to_map : V → option (gmap string V);
  js_empty_object : V;
}.

(** What the code relies on: [==] is equality, a map survives [to_value]/[from_value], and
    the text of the literal [{}] is the empty map. *)
Class JsonLaws (V : Type) `{Json V} : Prop := {
  js_eqb_spec : ∀ a b, js_eqb a b = true ↔ a = b;
  js_map_roundtrip : ∀ m v, js_from_map m = Some v → js_to_map v = Some m;
  js_empty_map : js_to_map js_empty_object = Some ∅;
}.

Inductive SettingKind := Boolean | Choice | Integer | TextSetting.

Section Settings.
Context {V : Type} `{!Json V}.

Record SettingOption := mk_SettingOption { so_value : V; so_name : string }.
Record SettingCondition := mk_SettingCondition { sc_key : string; sc_value : V }.
Record SettingField := mk_SettingField {
  sf_key : string;
  sf_name : string;
  sf_group : string;
  sf_description : string;
  sf_kind : SettingKind;
  sf_default_value : V;
  sf_options : list SettingOption;
  sf_minimum : option Z;
  sf_maximum : option Z;
  sf_enabled_when : option SettingCondition;
}.
Record SettingsSnapshot := mk_SettingsSnapshot { ss_revision : Z; ss_values : gmap string V }.
Record SettingsError := mk_SettingsError { se_message : string; se_fields : gmap string string }.

Definition SettingsError_message (m : string) : SettingsError := mk_SettingsError m ∅.

(** ** Validation *)

Definition mismatch : string := "Value does not match the setting's type or allowed values".

Definition check (field : SettingField) (value : V) : result string unit :=
  let valid :=
    match sf_kind field with
    | Boolean => js_is_boolean value
    | TextSetting => is_some_and (js_as_str value) (λ v, slen v <=? 4096)
    | Integer => is_some_and (js_as_i64 value) (λ n,
        (Z.abs n <=? 9007199254740991)
        && is_none_or (sf_minimum field) (λ min, min <=? n)
        && is_none_or (sf_maximum field) (λ max, n <=? max))
    | Choice =>
        (bool_decide (is_Some (js_as_str value)) || js_is_boolean value
         || bool_decide (is_Some (js_as_i64 value)))
        && existsb (λ option, js_eqb (so_value option) value) (sf_options field)
    end in
  if valid then Ok tt else Err mismatch.

(** The first loop: key lengths and uniqueness, integer ranges, default values. *)
Fixpoint check_fields (fields : list SettingField) (keys : gset string)
  : result SettingsError (gset string) :=
  match fields with
  | [] => mret keys
  | field :: fields =>
    ensure (negb (is_empty (sf_key field) || (64 <? slen (sf_key field))
                  || bool_decide (sf_key field ∈ keys)))
      (SettingsError_message "Invalid provider settings definition") ;;
    ensure (negb match sf_minimum field, sf_maximum field with
                 | Some min, Some max => max <? min
                 | _, _ => false
                 end) (SettingsError_message "Invalid integer range") ;;
    map_err SettingsError_message (check field (sf_default_value field)) ;;
    check_fields fields ({[sf_key field]} ∪ keys)
  end.

Definition find_field (fields : list SettingField) (key : string) : option SettingField :=
  List.find (λ field, str_eqb (sf_key field) key) fields.

(** The second loop: the condition of a field names another field and a value it accepts. *)
Fixpoint check_conditions (all : list SettingField) (keys : gset string) (fields : list SettingField)
  : result SettingsError unit :=
  match fields with
  | [] => mret tt
  | field :: fields =>
    match sf_enabled_when field with
    | Some condition =>
      ensure (negb (str_eqb (sc_key condition) (sf_key field)
                    || negb (bool_decide (sc_key condition ∈ keys))))
        (SettingsError_message "Invalid settings condition") ;;
      dependency ← ok_or (find_field all (sc_key condition))
                     (SettingsError_message "panic: unwrap on None");
      map_err SettingsError_message (check dependency (sc_value condition)) ;;
      check_conditions all keys fields
    | None => check_conditions all keys fields
    end
  end.

(** The third and fourth loops: unknown keys, then every field's value or default. *)
Definition unknown_errors (keys : gset string) (values : gmap string V) : gmap string string :=
  (λ _, "Unknown setting"%string) <$> filter (λ kv, kv.1 ∉ keys) values.

Fixpoint collect (fields : list SettingField) (values : gmap string V)
    (result : gmap string V) (errors : gmap string string) : gmap string V * gmap string string :=
  match fields with
  | [] => (result, errors)
  | field :: fields =>
    let value := default (sf_default_value field) (values !! sf_key field) in
    match check field value with
    | Err error => collect fields values result (<[sf_key field := error]> errors)
    | Ok _ => collect fields values (<[sf_key field := value]> result) errors
    end
  end.

Definition too_large (values : gmap string V) : bool :=
  match js_map_len values with None => true | Some n => 16 * 1024 <? n end.

Definition validate (fields : list SettingField) (values : gmap string V)
  : result SettingsError (gmap string V) :=
  ensure (negb ((64 <? zlen fields) || too_large values))
    (SettingsError_message "Provider settings are too large") ;;
  keys ← check_fields fields ∅;
  check_conditions fields keys fields ;;
  let '(res, errors) := collect fields values ∅ (unknown_errors keys values) in
  ensure (negb (too_large res)) (SettingsError_message "Provider settings are too large") ;;
  if bool_decide (errors = ∅) then Ok res
  else Err (mk_SettingsError "Invalid provider settings" errors).

(** ** Storage: the table [provider_settings(provider_id, revision, config)] *)

Definition load_settings (table : gmap Z (Z * V)) (id : Z) : result string SettingsSnapshot :=
  match table !! id with
  | Some (revision, config) =>
    ensure (0 <=? revision) "Invalid settings revision" ;;
    values ← ok_or (js_to_map config) "serde_json error";
    mret (mk_SettingsSnapshot revision values)
  | None => mret (mk_SettingsSnapshot 0 ∅)
  end.

Definition save_settings (id revision : Z) (values : gmap string V)
  : ST (gmap Z (Z * V)) string SettingsSnapshot :=
  guard_st (revision <=? i64_max) "Invalid settings revision" ;;
  guard_st (revision + 1 <=? i64_max) "Settings revision exhausted" ;;
  (* INSERT ... VALUES (?,0,'{}') ON CONFLICT(provider_id) DO NOTHING *)
  modify (λ t : gmap Z (Z * V), match t !! id with Some _ => t | None => <[id := (0, js_empty_object)]> t end) ;;
  config ← lift (ok_or (js_from_map values) "serde_json error"%string);
  (* UPDATE ... SET revision, config WHERE provider_id = id AND revision = old *)
  t ← get_st;
  match (t : gmap Z (Z * V)) !! id with
  | Some (r, _) =>
    if r =? revision
    then put_st (<[id := (revision + 1, config)]> t) ;; mret (mk_SettingsSnapshot (revision + 1) values)
    else fail "Provider settings changed; reload before saving"
  | None => fail "Provider settings changed; reload before saving"
  end.

(** ** Lemmas *)

Lemma check_fields_keys fields : ∀ keys keys',
  check_fields fields keys = Ok keys' →
  keys' = list_to_set (sf_key <$> fields) ∪ keys ∧ NoDup (sf_key <$> fields) ∧
  (∀ k, k ∈ sf_key <$> fields → k ∉ keys) ∧
  Forall (λ f, check f (sf_default_value f) = Ok tt ∧ 0 < slen (sf_key f) ≤ 64) fields.
Proof.
  induction fields as [|f fields IH]; intros keys keys' H; cbn in H.
  { injection H as <-. split_and!; [set_solver|constructor|set_solver|constructor]. }
  apply ensure_bind_Ok in H as [Hk H]. apply ensure_bind_Ok in H as [Hr H].
  apply result_bind_Ok in H as ([] & Hc & H). apply IH in H as (-> & Hnd & Hfresh & Hall).
  apply negb_true_iff, orb_false_iff in Hk as [Hk Hin]. apply orb_false_iff in Hk as [He Hlen].
  apply bool_decide_eq_false in Hin. cbn. split_and!.
  - set_solver.
  - constructor; [|done]. intros Hel. apply Hfresh in Hel. set_solver.
  - intros k [->|Hkin]%elem_of_cons; [done|]. apply Hfresh in Hkin. set_solver.
  - constructor; [|done]. unfold map_err in Hc. destruct (check f _) as [[]|]; [|done].
    split; [done|]. apply is_empty_slen in He. lia.
Qed.

(** The value a field gets from the submitted map. *)
Definition field_value (values : gmap string V) (f : SettingField) : V :=
  default (sf_default_value f) (values !! sf_key f).

Lemma collect_errors fields values : ∀ res errs,
  (collect fields values res errs).2 = ∅ ↔
  errs = ∅ ∧ Forall (λ f, check f (field_value values f) = Ok tt) fields.
Proof.
  induction fields as [|f fields IH]; intros res errs; cbn.
  { split; [intros ->; split; [done|constructor]|by intros [-> _]]. }
  fold (field_value values f). rewrite Forall_cons.
  destruct (check f (field_value values f)) as [[]|e] eqn:Hc.
  - rewrite IH. naive_solver.
  - rewrite IH. split; [|naive_solver]. intros [Hi _].
    exfalso. by apply insert_non_empty in Hi.
Qed.

Lemma collect_values fields values : ∀ res errs,
  NoDup (sf_key <$> fields) →
  Forall (λ f, check f (field_value values f) = Ok tt) fields →
  (∀ k, k ∉ sf_key <$> fields → (collect fields values res errs).1 !! k = res !! k) ∧
  Forall (λ f, (collect fields values res errs).1 !! sf_key f = Some (field_value values f)) fields.
Proof.
  induction fields as [|f fields IH]; intros res errs Hnd Hall; cbn; [done|].
  apply NoDup_cons in Hnd as [Hnin Hnd]. apply Forall_cons in Hall as [Hf Hall].
  fold (field_value values f). rewrite Hf.
  destruct (IH (<[sf_key f:=field_value values f]> res) errs Hnd Hall) as [Hout Hin]. split.
  - intros k Hk. rewrite Hout by set_solver. rewrite lookup_insert_ne; [done|set_solver].
  - constructor; [|done]. rewrite Hout by done. by rewrite lookup_insert_eq.
Qed.

Lemma unknown_errors_empty keys values :
  unknown_errors keys values = ∅ ↔ ∀ k, is_Some (values !! k) → k ∈ keys.
Proof.
  unfold unknown_errors. rewrite fmap_empty_iff, map_empty. split.
  - intros H k [v Hv]. specialize (H k). rewrite map_lookup_filter_None in H.
    destruct H as [H|H]; [congruence|]. specialize (H v Hv). cbn in H.
    by destruct (decide (k ∈ keys)).
  - intros H k. apply map_lookup_filter_None. right. intros v Hv Hn. cbn in Hn. apply Hn. eauto.
Qed.

(** What a successful validation has checked and built. *)
Lemma validate_Ok fields values res :
  validate fields values = Ok res →
  NoDup (sf_key <$> fields) ∧ zlen fields ≤ 64 ∧
  (∀ k, is_Some (values !! k) → k ∈ sf_key <$> fields) ∧
  (∀ k, k ∉ sf_key <$> fields → res !! k = None) ∧
  Forall (λ f, res !! sf_key f = Some (field_value values f) ∧
               check f (field_value values f) = Ok tt) fields ∧
  too_large res = false ∧
  ∃ keys, check_fields fields ∅ = Ok keys ∧ check_conditions fields keys fields = Ok tt.
Proof.
  unfold validate. intros H. apply ensure_bind_Ok in H as [Hsz H].
  apply result_bind_Ok in H as (keys & Hk & H). apply result_bind_Ok in H as ([] & Hc & H).
  pose proof (check_fields_keys _ _ _ Hk) as (Hkeys & Hnd & _ & _).
  destruct (collect fields values ∅ (unknown_errors keys values)) as [r errs] eqn:Hcol.
  apply ensure_bind_Ok in H as [Hlarge H]. case_bool_decide as He; [|done]. injection H as <-. subst errs.
  pose proof (collect_errors fields values ∅ (unknown_errors keys values)) as Herr.
  rewrite Hcol in Herr. destruct (proj1 Herr eq_refl) as [Hunk Hall].
  pose proof (collect_values fields values ∅ (unknown_errors keys values) Hnd Hall) as [Hout Hin].
  rewrite Hcol in Hout, Hin. cbn in Hout, Hin.
  apply negb_true_iff in Hlarge. apply negb_true_iff, orb_false_iff in Hsz as [Hsz _].
  split_and!; [done|lia| | | |done|by exists keys].
  - intros k Hv. eapply unknown_errors_empty in Hunk; [|done]. subst keys.
    apply elem_of_union in Hunk as [Hu|Hu]; [by apply elem_of_list_to_set in Hu|set_solver].
  - intros k Hnk. rewrite Hout by done. by rewrite lookup_empty.
  - apply Forall_and. by split.
Qed.

(** The converse: a valid definition and acceptable values validate. *)
Lemma validate_complete fields values keys :
  zlen fields ≤ 64 → too_large values = false →
  check_fields fields ∅ = Ok keys → check_conditions fields keys fields = Ok tt →
  (∀ k, is_Some (values !! k) → k ∈ sf_key <$> fields) →
  Forall (λ f, check f (field_value values f) = Ok tt) fields →
  too_large (collect fields values ∅ ∅).1 = false →
  validate fields values = Ok (collect fields values ∅ ∅).1.
Proof.
  intros Hlen Hsz Hk Hc Hknown Hall Hlarge. unfold validate. rewrite Hsz.
  destruct (Z.ltb_spec 64 (zlen fields)); [lia|]. cbn. rewrite Hk. cbn. rewrite Hc. cbn.
  pose proof (check_fields_keys _ _ _ Hk) as (Hkeys & Hnd & _ & _).
  assert (Hunk : unknown_errors keys values = ∅).
  { apply unknown_errors_empty. intros k Hv. apply Hknown in Hv. subst keys.
    apply elem_of_union_l. by apply elem_of_list_to_set. }
  rewrite Hunk. pose proof (collect_errors fields values ∅ ∅) as Herr.
  destruct (collect fields values ∅ ∅) as [r errs]. cbn in *. rewrite Hlarge. cbn.
  rewrite bool_decide_eq_true_2; [done|]. by apply Herr.
Qed.
End Settings.
Arguments SettingOption : clear implicits.
Arguments SettingCondition : clear implicits.
Arguments SettingField : clear implicits.
Arguments SettingsSnapshot : clear implicits.

Section SettingsProperties.
Context {V : Type} `{!Json V}.

Lemma collect_filled fields (values res : gmap string V) :
  NoDup (sf_key <$> fields) →
  (∀ k, k ∉ sf_key <$> fields → res !! k = None) →
  Forall (λ f, res !! sf_key f = Some (field_value values f) ∧
               check f (field_value values f) = Ok tt) fields →
  (collect fields res ∅ ∅).1 = res ∧ Forall (λ f, check f (field_value res f) = Ok tt) fields.
Proof.
  intros Hnd Hout Hin.
  assert (Hall : Forall (λ f, check f (field_value res f) = Ok tt) fields).
  { eapply Forall_impl; [exact Hin|]. intros f [Hf Hc]. cbn. unfold field_value. by rewrite Hf. }
  split; [|done]. destruct (collect_values fields res ∅ ∅ Hnd Hall) as [Ho Hi].
  apply map_eq. intros k. destruct (decide (k ∈ sf_key <$> fields)) as [Hk|Hk].
  - apply list_elem_of_fmap in Hk as (f & -> & Hf).
    rewrite Forall_forall in Hi, Hin. rewrite (Hi f Hf). unfold field_value.
    by destruct (Hin f Hf) as [-> _].
  - rewrite Ho, Hout by done. apply lookup_empty.
Qed.

(** C40. A successful validation returns a complete and acceptable configuration: keys are
    unique, nothing unknown was submitted, every field has exactly the submitted value or
    its default, each value is one its field accepts, and there are no other keys. *)
Theorem validate_settings_sound (fields : list (SettingField V)) values res :
  validate fields values = Ok res →
  NoDup (sf_key <$> fields) ∧ zlen fields ≤ 64 ∧
  (∀ k, is_Some (values !! k) → k ∈ sf_key <$> fields) ∧
  (∀ k, k ∉ sf_key <$> fields → res !! k = None) ∧
  Forall (λ f, res !! sf_key f = Some (field_value values f) ∧
               check f (field_value values f) = Ok tt) fields ∧
  too_large res = false.
Proof. intros H. apply validate_Ok in H. tauto. Qed.

(** Validation is idempotent: what it returns validates to itself, so restoring saved
    settings never changes them. *)
Theorem validate_settings_idempotent (fields : list (SettingField V)) values res :
  validate fields values = Ok res → validate fields res = Ok res.
Proof.
  intros H. apply validate_Ok in H as (Hnd & Hlen & Hknown & Hout & Hin & Hl & keys & Hk & Hc).
  destruct (collect_filled fields values res Hnd Hout Hin) as [Hcol Hall].
  rewrite (validate_complete fields res keys); rewrite ?Hcol; try done.
  intros k [v Hv]. destruct (decide (k ∈ sf_key <$> fields)); [done|]. rewrite Hout in Hv; done.
Qed.

Lemma save_settings_inv (t t' : gmap Z (Z * V)) id revision values r :
  save_settings id revision values t = (r, t') →
  match r with
  | Ok snap => revision < i64_max ∧ snap = mk_SettingsSnapshot (revision + 1) values ∧
      (default (0, js_empty_object) (t !! id)).1 = revision ∧
      ∃ config, js_from_map values = Some config ∧ t' = <[id := (revision + 1, config)]> t
  | Err _ => True
  end.
Proof.
  unfold save_settings, guard_st, lift, ensure, mbind, st_bind. intros H.
  destruct (Z.leb_spec revision i64_max); [|by injection H as <- <-].
  destruct (Z.leb_spec (revision + 1) i64_max); [|by injection H as <- <-]. cbn in H.
  destruct (js_from_map values) as [config|] eqn:Hcfg; cbn in H; [|by injection H as <- <-].
  destruct (t !! id) as [[rv cf]|] eqn:Ht.
  - rewrite Ht in H. destruct (Z.eqb_spec rv revision) as [->|]; [|by injection H as <- <-].
    injection H as <- <-. cbn. split_and!; [lia|done|done|]. by exists config.
  - rewrite lookup_insert_eq in H. destruct (Z.eqb_spec 0 revision) as [<-|]; [|by injection H as <- <-].
    injection H as <- <-. cbn. split_and!; [lia|done|done|]. exists config.
    split; [done|]. by rewrite insert_insert_eq.
Qed.

(** Saving under a revision loses no update: it succeeds only when the stored revision
    is the one the caller read, it advances the revision by one, loading afterwards returns
    exactly what was saved, other providers keep their rows, a second save with the old
    revision fails and changes nothing, and so does every failing save. *)
Theorem save_settings_optimistic `{!JsonLaws V} (t t' : gmap Z (Z * V)) id revision values r :
  0 ≤ revision → in_txn (save_settings id revision values) t = (r, t') →
  match r with
  | Ok snap =>
    (default (0, js_empty_object) (t !! id)).1 = revision ∧
    snap = mk_SettingsSnapshot (revision + 1) values ∧
    load_settings t' id = Ok snap ∧ (∀ j, j ≠ id → t' !! j = t !! j) ∧
    (∀ values', ∃ e, in_txn (save_settings id revision values') t' = (Err e, t'))
  | Err _ => t' = t
  end.
Proof.
  intros Hrev H. unfold in_txn in H.
  destruct (save_settings id revision values t) as [[snap|e] t1] eqn:Hs; [|by injection H as <- <-].
  injection H as <- <-. apply save_settings_inv in Hs as (Hm & -> & Hold & config & Hcfg & ->).
  split_and!; [done|done| | |].
  - unfold load_settings. rewrite lookup_insert_eq.
    destruct (Z.leb_spec 0 (revision + 1)); [|lia]. cbn.
    by rewrite (js_map_roundtrip _ _ Hcfg).
  - intros j Hj. by rewrite lookup_insert_ne.
  - intros values'. destruct (save_settings id revision values' (<[id:=(revision + 1, config)]> t))
      as [[snap|e] t2] eqn:Hs; unfold in_txn; rewrite Hs; [|by eexists].
    apply save_settings_inv in Hs as (_ & _ & Hold' & _).
    rewrite lookup_insert_eq in Hold'. cbn in Hold'. lia.
Qed.
End SettingsProperties.

(** ** A concrete JSON for runs of the model *)

Inductive toy_json := TBool (b : bool) | TInt (n : Z) | TStr (s : string)
  | TMap (m : list (string * toy_json)).

Fixpoint toy_eqb (a b : toy_json) {struct a} : bool :=
  match a, b with
  | TBool x, TBool y => Bool.eqb x y
  | TInt x, TInt y => x =? y
  | TStr x, TStr y => str_eqb x y
  | TMap x, TMap y =>
    (fix go x y := match x, y with
      | [], [] => true
      | (k, v) :: x, (k', v') :: y => str_eqb k k' && toy_eqb v v' && go x y
      | _, _ => false
      end) x y
  | _, _ => false
  end.

#[export] Instance toy_Json : Json toy_json := {|
  js_is_boolean v := match v with TBool _ => true | _ => false end;
  js_as_str v := match v with TStr s => Some s | _ => None end;
  js_as_i64 v := match v with TInt n => Some n | _ => None end;
  js_eqb := toy_eqb;
  js_map_len m := Some (2 + 16 * Z.of_nat (size m));
  js_from_map m := Some (TMap (map_to_list m));
  js_to_map v := match v with TMap l => Some (list_to_map l) | _ => None end;
  js_empty_object := TMap [];
|}.

Fixpoint toy_eqb_spec (a b : toy_json) {struct a} : toy_eqb a b = true ↔ a = b.
Proof.
  destruct a as [x|x|x|x], b as [y|y|y|y]; cbn; try (split; congruence).
  - rewrite Bool.eqb_true_iff. split; congruence.
  - rewrite Z.eqb_eq. split; congruence.
  - rewrite str_eqb_eq. split; congruence.
  - revert y. induction x as [|[k v] x IH]; intros [|[k' v'] y]; try (split; congruence).
    rewrite !andb_true_iff, str_eqb_eq, toy_eqb_spec, IH. split; [intros [[-> ->] [= ->]]; done|].
    intros [= -> -> ->]. done.
Qed.

#[export] Instance toy_JsonLaws : JsonLaws toy_json.
Proof.
  split.
  - apply toy_eqb_spec.
  - intros m v [= <-]. cbn. by rewrite list_to_map_to_list.
  - done.
Qed.

Definition witness_fields : list (SettingField toy_json) :=
  [ mk_SettingField "mode" "Mode" "" "" Choice (TStr "hls")
      [mk_SettingOption (TStr "hls") "HLS"; mk_SettingOption (TStr "original") "Original"] None None None;
    mk_SettingField "bitrate" "Bitrate" "" "" Integer (TInt 320000) [] (Some 32000) (Some 512000)
      (Some (mk_SettingCondition "mode" (TStr "hls"))) ].
Definition witness_values : gmap string toy_json := {[ "bitrate"%string := TInt 128000 ]}.
Definition witness_result : gmap string toy_json :=
  <["mode"%string := TStr "hls"]> {[ "bitrate"%string := TInt 128000 ]}.

Lemma validate_settings_sound_witness :
  NoDup (sf_key <$> witness_fields) ∧ zlen witness_fields ≤ 64 ∧
  (∀ k, is_Some (witness_values !! k) → k ∈ sf_key <$> witness_fields) ∧
  (∀ k, k ∉ sf_key <$> witness_fields → witness_result !! k = None) ∧
  Forall (λ f, witness_result !! sf_key f = Some (field_value witness_values f) ∧
               check f (field_value witness_values f) = Ok tt) witness_fields ∧
  too_large witness_result = false.
Proof. apply (validate_settings_sound witness_fields). vm_compute. reflexivity. Defined.

Lemma validate_settings_idempotent_witness :
  validate witness_fields witness_result = Ok witness_result.
Proof. apply (validate_settings_idempotent witness_fields witness_values). vm_compute. reflexivity. Defined.

Lemma save_settings_optimistic_witness :
  let t : gmap Z (Z * toy_json) := {[ 7 := (3, TMap []) ]} in
  let t' := <[7 := (4, TMap (map_to_list witness_values))]> t in
  let snap := mk_SettingsSnapshot 4 witness_values in
  (default (0, js_empty_object) (t !! 7)).1 = 3 ∧ snap = mk_SettingsSnapshot (3 + 1) witness_values ∧
  load_settings t' 7 = Ok snap ∧ (∀ j, j ≠ 7 → t' !! j = t !! j) ∧
  (∀ values', ∃ e, in_txn (save_settings 7 3 values') t' = (Err e, t')).
Proof.
  intros t t' snap.
  apply (save_settings_optimistic t t' 7 3 witness_values (Ok snap)); [lia|].
  vm_compute. reflexivity.
Defined.
