(* ===== verification/Network.v ===== *)
(** * Network proxies

    Models [backend/core/src/network.rs] (compiling the proxy list into per-provider
    routes), [backend/core/src/db/network.rs] (its tables) and
    [backend/main/src/network.rs] (restoring, reading and updating the settings). URLs,
    proxies, UUIDs and the JSON of a request are third-party code: the [NetLib] interface. *)
From S2P Require Import Prelude Text.
From stdpp Require Import options.
#[local] Set Default Proof Using "Type*".

Open Scope Z_scope.

Record ProxyEntry := mk_ProxyEntry {
  pe_id : string; pe_name : string; pe_url : string; pe_provider_ids : list Z; pe_display_url : string
}.
Record NetworkSettings := mk_NetworkSettings { ns_revision : Z; ns_proxies : list ProxyEntry }.

(** ** Third-party code *)

Class NetLib (U : Type) := {
  url_parse : string → option U;
  url_scheme : U → string;
  url_host_str : U → option string;
  url_port_or_known_default : U → option Z;
  url_port : U → option Z;
  url_path : U → string;
  url_query : U → option string;
  url_fragment : U → option string;
  url_to_string : U → string;
  url_set_username : U → string → option U;
  url_set_password : U → option string → option U;
  (** [reqwest::Proxy::all] accepts the address. *)
  proxy_all : string → bool;
  (** [Uuid::parse_str] followed by [to_string]; the [n]-th [Uuid::new_v4] of a run. *)
  uuid_parse : string → option string;
  uuid_new : nat → string;
  (** [serde_json::from_str::<Vec<ProxyEntry>>] and [serde_json::to_string]. *)
  proxies_from_json : string → option (list ProxyEntry);
  proxies_to_json : list ProxyEntry → option string;
}.

(** Documented behaviour: serialising a parsed URL and parsing it again, also after
    trimming, gives the same URL; the text of a UUID is canonical and not empty. *)
Class NetLibLaws (U : Type) `{NetLib U} : Prop := {
  url_reparse : ∀ s u, url_parse s = Some u → url_parse (trim (url_to_string u)) = Some u;
  uuid_parse_canonical : ∀ s c, uuid_parse s = Some c → uuid_parse c = Some c ∧ is_empty c = false;
  uuid_new_canonical : ∀ n, uuid_parse (uuid_new n) = Some (uuid_new n);
}.

Section Network.
Context {U : Type} `{!NetLib U}.

(** A [ClientPolicy] is compared by its key, the address of its proxy; the default policy
    has none. *)
Definition ClientPolicy : Type := option string.
Record CompiledSettings := mk_CompiledSettings {
  cs_settings : NetworkSettings; cs_routes : gmap Z string
}.

(** ** [compile] *)

Definition entry_id (n : nat) (id : string) : result string string :=
  if is_empty id then Ok (uuid_new n) else ok_or (uuid_parse id) "Invalid proxy ID"%string.

Definition supported_scheme (s : string) : bool :=
  existsb (str_eqb s) ["http"; "https"; "socks5"; "socks5h"]%string.

Definition url_accepted (url : U) : bool :=
  negb (negb (supported_scheme (url_scheme url))
        || negb (bool_decide (is_Some (url_host_str url)))
        || negb (bool_decide (is_Some (url_port_or_known_default url)))
        || bool_decide (url_port url = Some 0)
        || negb (existsb (str_eqb (url_path url)) [""; "/"]%string)
        || bool_decide (is_Some (url_query url))
        || bool_decide (is_Some (url_fragment url))).

(** The loop over [provider_ids]. *)
Fixpoint add_routes (route : string) (ids : list Z) (routes : gmap Z string)
  : result string (gmap Z string) :=
  match ids with
  | [] => Ok routes
  | id :: ids =>
    ensure (negb ((id <=? 0) || bool_decide (is_Some (routes !! id))))
      "A provider may use only one proxy" ;;
    add_routes route ids (<[id := route]> routes)
  end.

(** The body of the loop over [proxies], up to the routes. *)
Definition normalise (n : nat) (entry : ProxyEntry) (ids : gset string)
  : result string ProxyEntry :=
  id ← entry_id n (pe_id entry);
  ensure (negb (bool_decide (id ∈ ids))) "Duplicate proxy ID" ;;
  let name := trim (pe_name entry) in
  ensure (negb (is_empty name || (128 <? slen name))) "Proxy name must contain 1–128 bytes" ;;
  ensure (negb (4096 <? slen (pe_url entry))) "Proxy address is too long" ;;
  url ← ok_or (url_parse (trim (pe_url entry))) "Invalid proxy address";
  ensure (url_accepted url)
    "Use an http, https, socks5 or socks5h proxy address with a valid host and port" ;;
  let address := url_to_string url in
  ensure (proxy_all address) "Invalid proxy address" ;;
  anonymous ← ok_or (url_set_username url "") "Invalid proxy address";
  anonymous ← ok_or (url_set_password anonymous None) "Invalid proxy address";
  ensure (negb (256 <? zlen (pe_provider_ids entry))) "Too many providers for a proxy" ;;
  mret (mk_ProxyEntry id name address (pe_provider_ids entry) (url_to_string anonymous)).

Fixpoint compile_entries (n : nat) (entries : list ProxyEntry) (ids : gset string)
    (routes : gmap Z string) : result string (list ProxyEntry * gmap Z string) :=
  match entries with
  | [] => Ok ([], routes)
  | entry :: entries =>
    entry' ← normalise n entry ids;
    routes ← add_routes (pe_url entry') (pe_provider_ids entry') routes;
    '(rest, routes) ← compile_entries (S n) entries ({[pe_id entry']} ∪ ids) routes;
    mret (entry' :: rest, routes)
  end.

Definition compile (settings : NetworkSettings) : result string CompiledSettings :=
  ensure (negb (64 <? zlen (ns_proxies settings))) "Too many proxies" ;;
  '(proxies, routes) ← compile_entries 0 (ns_proxies settings) ∅ ∅;
  mret (mk_CompiledSettings (mk_NetworkSettings (ns_revision settings) proxies) routes).

(** ** The process-wide routes and the database tables *)

Record ProxyRow := mk_ProxyRow { pr_id : string; pr_name : string; pr_url : string; pr_position : Z }.
(** [network_settings] (its row 1), [network_proxy], [provider_proxy] and the ids of
    [provider]. *)
Record NetDb := mk_NetDb {
  nd_revision : option Z;
  nd_proxies : list ProxyRow;
  nd_links : gmap Z string;
  nd_providers : gset Z;
}.
Record NetState := mk_NetState { nt_db : NetDb; nt_routes : gmap Z string }.

(** [policy] and [publish] on the static [ROUTES]. *)
Definition policy (routes : gmap Z string) (provider_id : option Z) : ClientPolicy :=
  id ← provider_id; routes !! id.
Definition publish (compiled : CompiledSettings) (s : NetState) : NetState :=
  mk_NetState (nt_db s) (cs_routes compiled).

(** [ORDER BY position] and [ORDER BY provider_id]: insertion sorts. *)
Fixpoint insert_row (r : ProxyRow) (l : list ProxyRow) : list ProxyRow :=
  match l with
  | [] => [r]
  | x :: l' => if pr_position r <? pr_position x then r :: l else x :: insert_row r l'
  end.
Definition rows_by_position (l : list ProxyRow) : list ProxyRow := foldr insert_row [] (rev l).
Definition linked_providers (links : gmap Z string) (proxy : string) : list Z :=
  merge_sort Z.le (map_to_list (filter (λ kv, kv.2 = proxy) links)).*1.

Definition load_network (db : NetDb) : result string NetworkSettings :=
  revision ← ok_or (nd_revision db) "Network settings are missing";
  ensure (0 <=? revision) "Invalid network settings revision" ;;
  mret (mk_NetworkSettings revision
    ((λ row, mk_ProxyEntry (pr_id row) (pr_name row) (pr_url row)
               (linked_providers (nd_links db) (pr_id row)) "") <$> rows_by_position (nd_proxies db))).

(** [INSERT INTO provider_proxy]: the primary key and the foreign key to [provider]; the
    proxy row it references has just been inserted. *)
Fixpoint insert_links (proxy : string) (ids : list Z) : ST NetDb string unit :=
  match ids with
  | [] => mret tt
  | id :: ids =>
    db ← get_st;
    guard_st (bool_decide (nd_links db !! id = None) && bool_decide (id ∈ nd_providers db))
      "constraint failed" ;;
    modify (λ db, mk_NetDb (nd_revision db) (nd_proxies db) (<[id := proxy]> (nd_links db))
                           (nd_providers db)) ;;
    insert_links proxy ids
  end.
Fixpoint insert_proxies (position : Z) (proxies : list ProxyEntry) : ST NetDb string unit :=
  match proxies with
  | [] => mret tt
  | proxy :: proxies =>
    db ← get_st;
    guard_st (negb (existsb (λ row, str_eqb (pr_id row) (pe_id proxy)) (nd_proxies db)))
      "constraint failed" ;;
    modify (λ db, mk_NetDb (nd_revision db)
      (nd_proxies db ++ [mk_ProxyRow (pe_id proxy) (pe_name proxy) (pe_url proxy) position])
      (nd_links db) (nd_providers db)) ;;
    insert_links (pe_id proxy) (pe_provider_ids proxy) ;;
    insert_proxies (position + 1) proxies
  end.

Definition save_network (settings : NetworkSettings) : ST NetDb string Z :=
  guard_st (ns_revision settings <? i64_max) "Invalid network settings revision" ;;
  db ← get_st;
  guard_st (bool_decide (nd_revision db = Some (ns_revision settings)))
    "Network settings changed; reload before saving" ;;
  (* DELETE FROM network_proxy; provider_proxy rows cascade *)
  modify (λ db, mk_NetDb (Some (ns_revision settings + 1)) [] ∅ (nd_providers db)) ;;
  insert_proxies 0 (ns_proxies settings) ;;
  mret (ns_revision settings + 1).

(** Run a database computation on the state's tables. *)
Definition on_db {A} (m : ST NetDb string A) : ST NetState string A :=
  λ s, let '(r, db) := m (nt_db s) in (r, mk_NetState db (nt_routes s)).

(** ** The service operations *)

Definition restore : ST NetState string unit :=
  compiled ← on_db (in_txn (settings ← gets load_network ≫= lift; lift (compile settings)));
  modify (publish compiled).

Definition read_network : ST NetState string (string * Z) :=
  compiled ← on_db (in_txn (settings ← gets load_network ≫= lift; lift (compile settings)));
  json ← lift (ok_or (proxies_to_json (ns_proxies (cs_settings compiled))) "serde_json error"%string);
  mret (json, ns_revision (cs_settings compiled)).

Definition providers_exist (db : NetDb) (proxies : list ProxyEntry) : bool :=
  forallb (λ proxy, forallb (λ id, bool_decide (id ∈ nd_providers db)) (pe_provider_ids proxy)) proxies.

Definition update_network (proxies_json : string) (revision : Z) : ST NetState string unit :=
  guard_st (negb (512 * 1024 <? slen proxies_json)) "Proxy settings are too large" ;;
  proxies ← lift (ok_or (proxies_from_json proxies_json) "Invalid proxy list"%string);
  compiled ← lift (compile (mk_NetworkSettings revision proxies));
  on_db (in_txn (
    db ← get_st;
    guard_st (providers_exist db (ns_proxies (cs_settings compiled)))
      "A selected provider no longer exists; reload before saving" ;;
    save_network (cs_settings compiled))) ;;
  modify (publish compiled).

(** ** What a compilation guarantees *)

(** The pairs a list of proxies assigns to its providers, [f] choosing the second half. *)
Definition provider_pairs (f : ProxyEntry → string) (entries : list ProxyEntry)
  : list (Z * string) :=
  entries ≫= λ e, (λ id, (id, f e)) <$> pe_provider_ids e.
Definition route_pairs : list ProxyEntry → list (Z * string) := provider_pairs pe_url.
Definition link_pairs : list ProxyEntry → list (Z * string) := provider_pairs pe_id.

(** An entry in the form [compile] leaves it in. *)
Definition normal (e : ProxyEntry) : Prop :=
  uuid_parse (pe_id e) = Some (pe_id e) ∧ is_empty (pe_id e) = false ∧
  trim (pe_name e) = pe_name e ∧ 0 < slen (pe_name e) ≤ 128 ∧ zlen (pe_provider_ids e) ≤ 256 ∧
  ∃ u, url_parse (trim (pe_url e)) = Some u ∧ url_accepted u = true ∧ url_to_string u = pe_url e ∧
    proxy_all (pe_url e) = true ∧
    ∃ a, (url_set_username u "" ≫= λ a, url_set_password a None) = Some a ∧
      url_to_string a = pe_display_url e.

(** A list of proxies that may follow [ids] and [routes]. *)
Definition consistent (es : list ProxyEntry) (ids : gset string) (routes : gmap Z string) : Prop :=
  Forall normal es ∧ NoDup (pe_id <$> es) ∧ Forall (λ e, pe_id e ∉ ids) es ∧
  Forall (λ id, 0 < id ∧ routes !! id = None) (route_pairs es).*1 ∧ NoDup (route_pairs es).*1.

(** The entry read back from the tables for [e]. *)
Definition stored (e r : ProxyEntry) : Prop :=
  pe_id r = pe_id e ∧ pe_name r = pe_name e ∧ pe_url r = pe_url e ∧
  pe_provider_ids r ≡ₚ pe_provider_ids e.

Definition short_url (e : ProxyEntry) : bool := slen (pe_url e) <=? 4096.

(** Only the keys that are missing from the left map show on the right of a union. *)
Lemma union_insert_fresh (m routes : gmap Z string) k v :
  m !! k = None → m ∪ <[k := v]> routes = <[k := v]> m ∪ routes.
Proof.
  intros Hm. apply map_eq. intros x. rewrite !lookup_union.
  destruct (decide (k = x)) as [->|Hne].
  - rewrite Hm, !lookup_insert_eq. by destruct (routes !! x).
  - by rewrite !lookup_insert_ne.
Qed.
Lemma routed_lookup_None (route : string) (ids : list Z) id :
  id ∉ ids → (list_to_map ((λ x, (x, route)) <$> ids) : gmap Z string) !! id = None.
Proof.
  intros Hn. apply not_elem_of_list_to_map_1. rewrite <- list_fmap_compose.
  intros Hin%list_elem_of_fmap. destruct Hin as (y & -> & Hy). done.
Qed.

Lemma add_routes_Ok route ids : ∀ routes routes',
  add_routes route ids routes = Ok routes' ↔
  Forall (λ id, 0 < id ∧ routes !! id = None) ids ∧ NoDup ids ∧
  routes' = list_to_map ((λ id, (id, route)) <$> ids) ∪ routes.
Proof.
  induction ids as [|id ids IH]; intros routes routes'; cbn [add_routes fmap list_fmap].
  { rewrite list_to_map_nil. rewrite (left_id_L ∅ (∪)).
    split; [intros [= <-]; split_and!; constructor|]. by intros (_ & _ & ->). }
  rewrite ensure_bind_Ok, IH, Forall_cons, NoDup_cons. cbn [list_to_map foldr fmap list_fmap].
  rewrite negb_true_iff, orb_false_iff, bool_decide_eq_false, <- eq_None_not_Some.
  split.
  - intros ([Hp Hn] & Hall & Hnd & ->). rewrite Forall_forall in Hall.
    assert (Hnin : id ∉ ids).
    { intros Hin. destruct (Hall id Hin) as [_ Hx]. by rewrite lookup_insert_eq in Hx. }
    split_and!; [lia|done| |done|done|].
    + apply Forall_forall. intros x Hx. destruct (Hall x Hx) as [? Hl]. split; [done|].
      apply lookup_insert_None in Hl. tauto.
    + apply union_insert_fresh. by apply routed_lookup_None.
  - intros ([[Hp Hn] Hall] & [Hnin Hnd] & ->). rewrite Forall_forall in Hall.
    split_and!; [lia|done| |done|].
    + apply Forall_forall. intros x Hx. destruct (Hall x Hx). split; [done|].
      rewrite lookup_insert_ne; [done|]. by intros ->.
    + symmetry. apply union_insert_fresh. by apply routed_lookup_None.
Qed.

Section Laws.
Context `{!NetLibLaws U}.

Lemma url_accepted_reparse url u :
  url_parse (trim url) = Some u → url_parse (trim (url_to_string u)) = Some u.
Proof. apply url_reparse. Qed.

Lemma normalise_Ok n e ids e' :
  normalise n e ids = Ok e' →
  normal e' ∧ pe_id e' ∉ ids ∧ pe_provider_ids e' = pe_provider_ids e ∧
  pe_name e' = trim (pe_name e) ∧ (is_empty (pe_id e) = false → uuid_parse (pe_id e) = Some (pe_id e')).
Proof.
  unfold normalise. intros H.
  apply result_bind_Ok in H as (id & Hid & H). apply ensure_bind_Ok in H as [Hdup H].
  apply ensure_bind_Ok in H as [Hname H]. apply ensure_bind_Ok in H as [Hlen H].
  apply result_bind_Ok in H as (u & Hu & H). apply ok_or_Ok in Hu.
  apply ensure_bind_Ok in H as [Hacc H]. apply ensure_bind_Ok in H as [Hpx H].
  apply result_bind_Ok in H as (a & Ha & H). apply result_bind_Ok in H as (b & Hb & H).
  apply ok_or_Ok in Ha. apply ok_or_Ok in Hb.
  apply ensure_bind_Ok in H as [Hp H]. injection H as <-.
  rewrite negb_true_iff, bool_decide_eq_false in Hdup.
  apply negb_true_iff, orb_false_iff in Hname as [Hn1 Hn2].
  apply is_empty_slen in Hn1.
  assert (uuid_parse id = Some id ∧ is_empty id = false) as [Hc He].
  { unfold entry_id in Hid. destruct (is_empty (pe_id e)).
    - injection Hid as <-. pose proof (uuid_new_canonical n) as Hn.
      split; [done|]. by apply uuid_parse_canonical in Hn as [_ ?].
    - apply ok_or_Ok in Hid. by apply uuid_parse_canonical in Hid. }
  split_and!; [|done|done|done|].
  - unfold normal. cbn [pe_id pe_name pe_url pe_provider_ids pe_display_url].
    split_and!; [done|done|apply trim_idem|done|lia|bool_lia|].
    exists u. split_and!; [by eapply url_reparse|done|done|done|].
    exists b. split; [by rewrite Ha|done].
  - intros Hne. unfold entry_id in Hid. rewrite Hne in Hid. by apply ok_or_Ok in Hid.
Qed.

(** A stored entry is normalised to itself, provided the raw length check still passes. *)
Lemma normalise_stored n e r ids :
  normal e → stored e r → pe_id e ∉ ids →
  normalise n r ids =
    if short_url e
    then Ok (mk_ProxyEntry (pe_id e) (pe_name e) (pe_url e) (pe_provider_ids r) (pe_display_url e))
    else Err "Proxy address is too long"%string.
Proof.
  intros (Hid & Hne & Hn & Hl & Hp & u & Hu & Hacc & Hs & Hpx & a & Ha & Hd)
    (Eid & Ename & Eurl & Eprov) Hfresh.
  unfold normalise, entry_id, short_url. rewrite Eid, Ename, Eurl, Hne, Hid. cbn [ok_or mbind result_bind].
  rewrite bool_decide_false by done. cbn [negb ensure mbind result_bind].
  rewrite Hn. replace (is_empty (pe_name e)) with false
    by (symmetry; apply is_empty_slen; lia).
  replace (128 <? slen (pe_name e)) with false by lia. cbn [negb orb ensure mbind result_bind].
  destruct (Z.leb_spec (slen (pe_url e)) 4096) as [Hle|Hgt].
  2: { by replace (4096 <? slen (pe_url e)) with true by lia. }
  replace (4096 <? slen (pe_url e)) with false by lia. cbn [negb ensure mbind result_bind].
  rewrite Hu. cbn [ok_or mbind result_bind]. rewrite Hacc, Hs, Hpx. cbn [ensure mbind result_bind].
  destruct (url_set_username u "") as [b|]; [|done]. cbn [ok_or mbind result_bind option_bind] in *.
  rewrite Ha. cbn [ok_or mbind result_bind].
  assert (zlen (pe_provider_ids r) = zlen (pe_provider_ids e)) as Hz
    by (unfold zlen; by rewrite Eprov).
  rewrite Hz. replace (256 <? zlen (pe_provider_ids e)) with false by lia.
  cbn. by rewrite Hd.
Qed.

Lemma provider_pairs_fst f es : (provider_pairs f es).*1 = es ≫= pe_provider_ids.
Proof.
  unfold provider_pairs. induction es as [|e es IH]; [done|]. cbn in *.
  rewrite fmap_app, IH. f_equal. rewrite <- list_fmap_compose. by apply list_fmap_id.
Qed.
Lemma provider_pairs_cons f e es :
  provider_pairs f (e :: es) = ((λ id, (id, f e)) <$> pe_provider_ids e) ++ provider_pairs f es.
Proof. done. Qed.

Lemma head_fst (e : ProxyEntry) (f : ProxyEntry → string) :
  ((λ id, (id, f e)) <$> pe_provider_ids e).*1 = pe_provider_ids e.
Proof. rewrite <- list_fmap_compose. by apply list_fmap_id. Qed.

(** Taking the head of a consistent list. *)
Lemma consistent_cons e es ids routes :
  consistent (e :: es) ids routes ↔
  normal e ∧ pe_id e ∉ ids ∧ Forall (λ id, 0 < id ∧ routes !! id = None) (pe_provider_ids e) ∧
  NoDup (pe_provider_ids e) ∧
  consistent es ({[pe_id e]} ∪ ids)
    (list_to_map ((λ id, (id, pe_url e)) <$> pe_provider_ids e) ∪ routes).
Proof.
  unfold consistent, route_pairs. rewrite provider_pairs_cons.
  rewrite fmap_app, head_fst, Forall_app, NoDup_app, fmap_cons, NoDup_cons, !Forall_cons.
  rewrite !Forall_forall. setoid_rewrite lookup_union_None.
  split.
  - intros ([? ?] & [Hn ?] & [? Hids] & [? Hr] & (? & Hd & ?)). split_and!; try done.
    + intros x Hx. rewrite elem_of_union, elem_of_singleton. intros [Heq|?]; [|by eapply Hids].
      apply Hn. rewrite <- Heq. by apply list_elem_of_fmap_2.
    + intros x Hx. destruct (Hr x Hx). split_and!; [done| |done].
      apply routed_lookup_None. intros ?. by eapply Hd.
  - intros (? & ? & ? & ? & ? & ? & Hids & Hr & ?). split_and!; try done.
    + intros (x & Heq & Hx)%list_elem_of_fmap. apply (Hids x Hx). rewrite Heq. set_solver.
    + intros x Hx. specialize (Hids x Hx). set_solver.
    + intros x Hx. destruct (Hr x Hx) as (? & ? & ?). done.
    + intros x Hx Hx2. destruct (Hr x Hx2) as (? & Hnone & ?).
      apply not_elem_of_list_to_map_2 in Hnone. rewrite head_fst in Hnone. done.
Qed.

Lemma list_to_map_pairs_cons e es (routes : gmap Z string) :
  list_to_map (route_pairs (e :: es)) ∪ routes =
  list_to_map (route_pairs es) ∪ (list_to_map ((λ id, (id, pe_url e)) <$> pe_provider_ids e) ∪ routes)
  ∨ ¬ NoDup (route_pairs (e :: es)).*1.
Proof.
  destruct (decide (NoDup (route_pairs (e :: es)).*1)) as [Hnd|]; [left|by right].
  unfold route_pairs in *. rewrite provider_pairs_cons in *.
  rewrite list_to_map_app, (assoc_L (∪)). f_equal. apply map_union_comm.
  rewrite fmap_app, NoDup_app in Hnd. destruct Hnd as (_ & Hd & _).
  apply map_disjoint_spec. intros i x y Hx%elem_of_list_to_map_2 Hy%elem_of_list_to_map_2.
  apply (Hd i); [by apply (list_elem_of_fmap_2 fst) in Hx|by apply (list_elem_of_fmap_2 fst) in Hy].
Qed.

Lemma compile_entries_Ok entries : ∀ n ids routes es routes',
  compile_entries n entries ids routes = Ok (es, routes') →
  consistent es ids routes ∧ routes' = list_to_map (route_pairs es) ∪ routes ∧
  Forall2 (λ e e', pe_provider_ids e' = pe_provider_ids e ∧ pe_name e' = trim (pe_name e)) entries es.
Proof.
  induction entries as [|entry entries IH]; intros n ids routes es routes' H; cbn [compile_entries] in H.
  { injection H as <- <-. split_and!; [split_and!; by constructor| |constructor].
    change (list_to_map (route_pairs [])) with (∅ : gmap Z string).
    by rewrite (left_id_L ∅ (∪)). }
  apply result_bind_Ok in H as (e & He & H). apply result_bind_Ok in H as (r1 & Hr1 & H).
  apply result_bind_Ok in H as ([rest r2] & Hrest & H). injection H as <- <-.
  apply normalise_Ok in He as (Hnorm & Hfresh & Hpids & Hname & _).
  apply add_routes_Ok in Hr1 as (Hall & Hnd & ->).
  apply IH in Hrest as (Hc & -> & H2).
  assert (Hcons : consistent (e :: rest) ids routes) by by apply consistent_cons.
  split_and!; [done| |by constructor].
  destruct (list_to_map_pairs_cons e rest routes) as [->|Hno]; [done|].
  destruct Hno. apply Hcons.
Qed.

Lemma stored_fst f es rows : Forall2 stored es rows →
  (provider_pairs f rows).*1 ≡ₚ (provider_pairs f es).*1.
Proof.
  rewrite !provider_pairs_fst. induction 1 as [|e r es rows (_ & _ & _ & Hp) _ IH]; [done|].
  cbn. by rewrite Hp, IH.
Qed.

(** Compiling what the tables hold: the same routes, or the length check fails. *)
Lemma compile_entries_stored es rows : Forall2 stored es rows → ∀ n ids routes,
  consistent es ids routes →
  if forallb short_url es
  then ∃ rows', compile_entries n rows ids routes = Ok (rows', list_to_map (route_pairs es) ∪ routes)
  else compile_entries n rows ids routes = Err "Proxy address is too long"%string.
Proof.
  induction 1 as [|e r es rows Hst _ IH]; intros n ids routes Hc.
  { exists []. change (list_to_map (route_pairs [])) with (∅ : gmap Z string).
    by rewrite (left_id_L ∅ (∪)). }
  destruct (list_to_map_pairs_cons e es routes) as [Hl|Hno]; [|destruct Hno; apply Hc].
  rewrite Hl. clear Hl.
  apply consistent_cons in Hc as (Hn & Hfresh & Hall & Hnd & Hc).
  cbn [compile_entries forallb]. rewrite (normalise_stored n e r ids) by done.
  destruct (short_url e); [|done]. cbn [andb mbind result_bind pe_url pe_provider_ids pe_id].
  destruct Hst as (_ & _ & _ & Hp).
  assert (add_routes (pe_url e) (pe_provider_ids r) routes =
    Ok (list_to_map ((λ id, (id, pe_url e)) <$> pe_provider_ids e) ∪ routes)) as ->.
  { apply add_routes_Ok. split_and!; [by rewrite Hp|by rewrite Hp|]. f_equal.
    apply list_to_map_proper; [by rewrite head_fst|by rewrite Hp]. }
  cbn [mbind result_bind]. specialize (IH (S n) _ _ Hc).
  destruct (forallb short_url es).
  - destruct IH as [rows' ->]. cbn. eauto.
  - by rewrite IH.
Qed.
End Laws.

(** ** The tables after a save *)

Fixpoint rows_from (position : Z) (es : list ProxyEntry) : list ProxyRow :=
  match es with
  | [] => []
  | e :: es => mk_ProxyRow (pe_id e) (pe_name e) (pe_url e) position :: rows_from (position + 1) es
  end.

Lemma insert_links_run proxy ids : ∀ db,
  Forall (λ id, nd_links db !! id = None ∧ id ∈ nd_providers db) ids → NoDup ids →
  insert_links proxy ids db =
    (Ok tt, mk_NetDb (nd_revision db) (nd_proxies db)
              (list_to_map ((λ id, (id, proxy)) <$> ids) ∪ nd_links db) (nd_providers db)).
Proof.
  induction ids as [|id ids IH]; intros db Hall Hnd; cbn [insert_links].
  { cbn. rewrite (left_id_L ∅ (∪)). by destruct db. }
  apply Forall_cons in Hall as [[Hn Hp] Hall]. apply NoDup_cons in Hnd as [Hnin Hnd].
  rewrite Forall_forall in Hall.
  unfold mbind, st_bind, get_st, guard_st, lift, modify. rewrite !bool_decide_true by done. cbn.
  rewrite IH; [|apply Forall_forall|done].
  - cbn. do 2 f_equal. rewrite union_insert_fresh; [by destruct db|]. by apply routed_lookup_None.
  - cbn. intros x Hx. destruct (Hall x Hx). split; [|done].
    rewrite lookup_insert_ne; [done|]. by intros ->.
Qed.

Lemma insert_proxies_run es : ∀ position db,
  NoDup (pe_id <$> es) →
  Forall (λ e, Forall (λ row, pr_id row ≠ pe_id e) (nd_proxies db)) es →
  Forall (λ id, nd_links db !! id = None ∧ id ∈ nd_providers db) (link_pairs es).*1 →
  NoDup (link_pairs es).*1 →
  insert_proxies position es db =
    (Ok tt, mk_NetDb (nd_revision db) (nd_proxies db ++ rows_from position es)
              (list_to_map (link_pairs es) ∪ nd_links db) (nd_providers db)).
Proof.
  induction es as [|e es IH]; intros position db Hid Hrows Hl Hnd; cbn [insert_proxies].
  { change (list_to_map (link_pairs [])) with (∅ : gmap Z string).
    rewrite (left_id_L ∅ (∪)), app_nil_r. by destruct db. }
  rewrite fmap_cons, NoDup_cons in Hid. destruct Hid as [Hnin Hid].
  apply Forall_cons in Hrows as [Hrow Hrows].
  unfold link_pairs in *. rewrite provider_pairs_cons, fmap_app, head_fst in *.
  apply NoDup_app in Hnd as (Hnd1 & Hdisj & Hnd2). apply Forall_app in Hl as [Hl1 Hl2].
  unfold mbind, st_bind, get_st, guard_st, lift, modify.
  assert (existsb (λ row, str_eqb (pr_id row) (pe_id e)) (nd_proxies db) = false) as ->.
  { apply not_true_iff_false. rewrite existsb_exists. intros (row & Hin & Heq).
    apply str_eqb_eq in Heq. rewrite Forall_forall in Hrow.
    by apply (Hrow row); [apply list_elem_of_In|]. }
  cbn [negb ensure]. rewrite insert_links_run by done. cbn [nd_revision nd_proxies nd_links nd_providers].
  rewrite IH; cbn [nd_revision nd_proxies nd_links nd_providers]; [|done| | |done].
  - cbn [rows_from]. rewrite <- app_assoc. do 2 f_equal.
    rewrite list_to_map_app, (assoc_L (∪)). f_equal. apply map_union_comm.
    apply map_disjoint_spec. intros i x y Hx%elem_of_list_to_map_2 Hy%elem_of_list_to_map_2.
    apply (Hdisj i); [|by apply (list_elem_of_fmap_2 fst) in Hx].
    apply (list_elem_of_fmap_2 fst) in Hy. by rewrite head_fst in Hy.
  - apply Forall_forall. intros e' He'. rewrite Forall_forall in Hrows.
    apply Forall_app. split; [by apply Hrows|]. apply Forall_singleton. cbn.
    intros Heq. apply Hnin. rewrite Heq. by apply list_elem_of_fmap_2.
  - apply Forall_forall. intros id Hin. rewrite Forall_forall in Hl2. destruct (Hl2 id Hin).
    split; [|done]. apply lookup_union_None. split; [|done].
    apply routed_lookup_None. intros ?. by eapply Hdisj.
Qed.

Lemma insert_row_last r l : Forall (λ x, pr_position x ≤ pr_position r) l → insert_row r l = l ++ [r].
Proof.
  induction 1 as [|x l Hx _ IH]; [done|]. cbn.
  replace (pr_position r <? pr_position x) with false by lia. by rewrite IH.
Qed.
Lemma rows_from_position p es : Forall (λ x, p ≤ pr_position x) (rows_from p es).
Proof.
  revert p. induction es as [|e es IH]; intros p; cbn; constructor; cbn; [lia|].
  eapply Forall_impl; [apply IH|]. cbn. lia.
Qed.
Lemma rows_by_position_from es : rows_by_position (rows_from 0 es) = rows_from 0 es.
Proof.
  unfold rows_by_position. rewrite fold_left_rev_right.
  assert (∀ p l, Forall (λ x, pr_position x ≤ p) l →
    fold_left (λ l r, insert_row r l) (rows_from p es) l = l ++ rows_from p es) as H.
  { induction es as [|e es IH]; intros p l Hl; cbn [rows_from fold_left]; [by rewrite app_nil_r|].
    rewrite insert_row_last by done. rewrite IH.
    - by rewrite <- app_assoc.
    - apply Forall_app. split; [|by repeat constructor; cbn; lia].
      eapply Forall_impl; [exact Hl|]. cbn. lia. }
  by rewrite (H 0 []).
Qed.

(** The providers read back for a stored proxy are those it was saved with. *)
Lemma elem_of_link_pairs id x es :
  (id, x) ∈ link_pairs es ↔ ∃ e, e ∈ es ∧ pe_id e = x ∧ id ∈ pe_provider_ids e.
Proof.
  unfold link_pairs, provider_pairs. rewrite list_elem_of_bind. split.
  - intros (e & (y & Heq & Hy)%list_elem_of_fmap & He). injection Heq as -> ->. eauto.
  - intros (e & He & <- & Hid). exists e. split; [|done]. apply list_elem_of_fmap. eauto.
Qed.

Lemma linked_providers_spec es e :
  NoDup (pe_id <$> es) → NoDup (link_pairs es).*1 → e ∈ es →
  linked_providers (list_to_map (link_pairs es)) (pe_id e) ≡ₚ pe_provider_ids e.
Proof.
  intros Hids Hnd He. unfold linked_providers. rewrite merge_sort_Permutation.
  apply NoDup_Permutation; [apply NoDup_fst_map_to_list| |].
  - unfold link_pairs in Hnd. rewrite provider_pairs_fst in Hnd.
    apply list_elem_of_split in He as (l1 & l2 & ->).
    rewrite bind_app, NoDup_app in Hnd. destruct Hnd as (_ & _ & Hnd). cbn in Hnd.
    by apply NoDup_app in Hnd as [? _].
  - intros id. rewrite list_elem_of_fmap. split.
    + intros ([id' v] & -> & Hin). apply elem_of_map_to_list in Hin.
      apply map_lookup_filter_Some in Hin as [Hin Hv]. cbn in Hv. subst v.
      apply elem_of_list_to_map_2, elem_of_link_pairs in Hin as (e' & He' & Heq & Hin).
      cbn. enough (e' = e) as -> by done.
      apply list_elem_of_lookup in He as [i Hi]. apply list_elem_of_lookup in He' as [j Hj].
      assert (j = i) as ->.
      { eapply NoDup_lookup; [exact Hids| |].
        - by rewrite list_lookup_fmap, Hj.
        - rewrite list_lookup_fmap, Hi. cbn. by rewrite Heq. }
      congruence.
    + intros Hin. exists (id, pe_id e). split; [done|]. apply elem_of_map_to_list.
      apply map_lookup_filter_Some. split; [|done].
      apply elem_of_list_to_map_1; [done|]. apply elem_of_link_pairs. eauto.
Qed.

Definition read_back (links : gmap Z string) (row : ProxyRow) : ProxyEntry :=
  mk_ProxyEntry (pr_id row) (pr_name row) (pr_url row) (linked_providers links (pr_id row)) "".

Lemma stored_rows links es : ∀ p,
  Forall (λ e, linked_providers links (pe_id e) ≡ₚ pe_provider_ids e) es →
  Forall2 stored es (read_back links <$> rows_from p es).
Proof.
  induction es as [|e es IH]; intros p Hall; cbn; [constructor|].
  apply Forall_cons in Hall as [He Hall]. constructor; [|by apply IH].
  split_and!; [done|done|done|exact He].
Qed.

Lemma on_db_Ok {A} (m : ST NetDb string A) s a s' :
  on_db (in_txn m) s = (Ok a, s') → ∃ db, m (nt_db s) = (Ok a, db) ∧ s' = mk_NetState db (nt_routes s).
Proof.
  unfold on_db, in_txn. destruct (m (nt_db s)) as [[b|e] db]; intros H; [|done].
  injection H as <- <-. eauto.
Qed.
Lemma on_db_Err {A} (m : ST NetDb string A) s e s' :
  on_db (in_txn m) s = (Err e, s') → s' = s.
Proof.
  unfold on_db, in_txn. destruct (m (nt_db s)) as [[b|e'] db]; intros H; [done|].
  injection H as <- <-. by destruct s.
Qed.

Lemma save_network_run settings db r db' :
  Forall (λ id, id ∈ nd_providers db) (link_pairs (ns_proxies settings)).*1 →
  NoDup (pe_id <$> ns_proxies settings) → NoDup (link_pairs (ns_proxies settings)).*1 →
  save_network settings db = (Ok r, db') →
  nd_revision db = Some (ns_revision settings) ∧ ns_revision settings < i64_max ∧
  db' = mk_NetDb (Some (ns_revision settings + 1)) (rows_from 0 (ns_proxies settings))
          (list_to_map (link_pairs (ns_proxies settings))) (nd_providers db).
Proof.
  intros Hp Hid Hnd. unfold save_network, mbind, st_bind, guard_st, lift, get_st, modify.
  destruct (Z.ltb_spec (ns_revision settings) i64_max); [|done]. cbn.
  destruct (bool_decide _) eqn:Hb; [|done]. apply bool_decide_eq_true in Hb. cbn.
  rewrite insert_proxies_run; cbn; [|done| | |done].
  - rewrite (right_id_L ∅ (∪)). intros [= _ <-]. done.
  - apply Forall_forall. intros. constructor.
  - eapply Forall_impl; [exact Hp|]. cbn. intros x Hx. by rewrite lookup_empty.
Qed.

Section Restart.
Context `{!NetLibLaws U}.

Lemma compile_Ok settings c :
  compile settings = Ok c →
  zlen (ns_proxies settings) ≤ 64 ∧ ns_revision (cs_settings c) = ns_revision settings ∧
  consistent (ns_proxies (cs_settings c)) ∅ ∅ ∧
  cs_routes c = list_to_map (route_pairs (ns_proxies (cs_settings c))) ∧
  Forall2 (λ e e', pe_provider_ids e' = pe_provider_ids e ∧ pe_name e' = trim (pe_name e))
    (ns_proxies settings) (ns_proxies (cs_settings c)).
Proof.
  unfold compile. rewrite ensure_bind_Ok. intros [Hlen H].
  apply result_bind_Ok in H as ([es routes] & H & Hc). injection Hc as <-. cbn.
  apply compile_entries_Ok in H as (Hc & -> & H2). rewrite (right_id_L ∅ (∪)).
  split_and!; [bool_lia|done|done|done|done].
Qed.

Lemma update_network_inv json revision s s' :
  update_network json revision s = (Ok tt, s') →
  ∃ proxies c, proxies_from_json json = Some proxies ∧
    compile (mk_NetworkSettings revision proxies) = Ok c ∧
    nd_revision (nt_db s) = Some revision ∧ revision < i64_max ∧
    s' = mk_NetState (mk_NetDb (Some (revision + 1)) (rows_from 0 (ns_proxies (cs_settings c)))
           (list_to_map (link_pairs (ns_proxies (cs_settings c)))) (nd_providers (nt_db s))) (cs_routes c).
Proof.
  unfold update_network. unfold mbind at 1, st_bind at 1, guard_st at 1, lift at 1.
  destruct (ensure (negb (512 * 1024 <? slen json)) "Proxy settings are too large"%string); [|done].
  unfold mbind at 1, st_bind at 1, lift at 1.
  destruct (proxies_from_json json) as [proxies|]; [|done]. cbn [ok_or].
  unfold mbind at 1, st_bind at 1, lift at 1.
  destruct (compile (mk_NetworkSettings revision proxies)) as [c|] eqn:Hc; [|done].
  unfold mbind at 1, st_bind at 1.
  destruct (on_db _ s) as [[x|e] s1] eqn:Hdb; [|done]. intros H. injection H as <-.
  exists proxies, c. apply on_db_Ok in Hdb as (db & Hdb & ->).
  pose proof (compile_Ok _ _ Hc) as (Hlen & Hrev & Hcons & Hroutes & H2). cbn in Hrev.
  unfold mbind at 1, st_bind at 1, get_st at 1 in Hdb.
  unfold mbind at 1, st_bind at 1, guard_st at 1, lift at 1 in Hdb.
  destruct (providers_exist _ _) eqn:Hex; [|done]. cbn [ensure] in Hdb.
  destruct Hcons as (Hnorm & Hid & _ & Hpos & Hnd).
  unfold link_pairs, route_pairs in *. rewrite !provider_pairs_fst in *.
  apply save_network_run in Hdb; unfold link_pairs; rewrite ?provider_pairs_fst; [| |done|done].
  - destruct Hdb as (Hr & Hlt & ->). rewrite Hrev in *. done.
  - unfold providers_exist in Hex. apply Forall_forall. intros id (e & He & Hin)%list_elem_of_bind.
    apply forallb_forall with (x := e) in Hex; [|by apply list_elem_of_In].
    apply forallb_forall with (x := id) in Hex; [|by apply list_elem_of_In].
    by apply bool_decide_eq_true in Hex.
Qed.

Lemma elem_of_route_pairs id url es :
  (id, url) ∈ route_pairs es ↔ ∃ e, e ∈ es ∧ id ∈ pe_provider_ids e ∧ pe_url e = url.
Proof.
  unfold route_pairs, provider_pairs. rewrite list_elem_of_bind. split.
  - intros (e & (y & Heq & Hy)%list_elem_of_fmap & He). injection Heq as -> ->. eauto.
  - intros (e & He & Hid & <-). exists e. split; [|done]. apply list_elem_of_fmap. eauto.
Qed.

(** A compiled configuration has at most 64 proxies with distinct canonical ids, trimmed
    names of 1 to 128 bytes and accepted addresses; its routes send a provider through the
    one proxy that lists it, and only providers with a positive id are routed. The proxies
    and their provider lists are those of the request, in its order. *)
Theorem compile_network_sound settings c :
  compile settings = Ok c →
  zlen (ns_proxies (cs_settings c)) ≤ 64 ∧
  Forall normal (ns_proxies (cs_settings c)) ∧ NoDup (pe_id <$> ns_proxies (cs_settings c)) ∧
  (∀ id url, cs_routes c !! id = Some url ↔
    ∃ e, e ∈ ns_proxies (cs_settings c) ∧ id ∈ pe_provider_ids e ∧ pe_url e = url) ∧
  (∀ id, policy (cs_routes c) (Some id) ≠ None → 0 < id) ∧
  Forall2 (λ e e', pe_provider_ids e' = pe_provider_ids e ∧ pe_name e' = trim (pe_name e))
    (ns_proxies settings) (ns_proxies (cs_settings c)).
Proof.
  intros (Hlen & _ & (Hn & Hid & _ & Hpos & Hnd) & Hr & H2)%compile_Ok.
  assert (∀ id url, cs_routes c !! id = Some url ↔
    ∃ e, e ∈ ns_proxies (cs_settings c) ∧ id ∈ pe_provider_ids e ∧ pe_url e = url) as Hiff.
  { intros id url. rewrite Hr, <- elem_of_route_pairs. by rewrite <- elem_of_list_to_map. }
  split_and!; [|done|done|exact Hiff| |done].
  - apply Forall2_length in H2. unfold zlen in *. by rewrite <- H2.
  - intros id Hne. cbn in Hne. destruct (cs_routes c !! id) as [url|] eqn:Hl; [|done].
    rewrite Hr in Hl. apply elem_of_list_to_map_2, (list_elem_of_fmap_2 fst) in Hl.
    rewrite Forall_forall in Hpos. by apply Hpos in Hl as [? _].
Qed.

(** An update that fails leaves the tables and the published routes as they were; one
    that succeeds was sent against the current revision, advances it by one, and publishes
    the routes of the compiled request. *)
Theorem update_network_atomic json revision s r s' :
  update_network json revision s = (r, s') →
  match r with
  | Err _ => s' = s
  | Ok _ => nd_revision (nt_db s) = Some revision ∧ nd_revision (nt_db s') = Some (revision + 1) ∧
      ∃ proxies c, proxies_from_json json = Some proxies ∧
        compile (mk_NetworkSettings revision proxies) = Ok c ∧ nt_routes s' = cs_routes c
  end.
Proof.
  intros H. destruct r as [[]|e].
  - apply update_network_inv in H as (proxies & c & ? & ? & ? & ? & ->). eauto 10.
  - revert H. unfold update_network. unfold mbind at 1, st_bind at 1, guard_st at 1, lift at 1.
    destruct (ensure (negb _) "Proxy settings are too large"%string); [|congruence].
    unfold mbind at 1, st_bind at 1, lift at 1.
    destruct (ok_or (proxies_from_json json) "Invalid proxy list"%string) as [proxies|]; [|congruence].
    unfold mbind at 1, st_bind at 1, lift at 1.
    destruct (compile (mk_NetworkSettings revision proxies)) as [c|]; [|congruence].
    unfold mbind at 1, st_bind at 1. destruct (on_db _ s) as [[x|e'] s1] eqn:Hdb; [done|].
    apply on_db_Err in Hdb. congruence.
Qed.

(** C39. What a restart finds after a successful update: if every stored (normalised) address
    is at most 4096 bytes long, restoring succeeds, leaves the tables alone and publishes the
    routes the update had published, whatever the process had before; otherwise restoring
    fails on the length of the address, although the update accepted it. *)
Theorem network_restart json revision s s' routes :
  is_u64 revision → update_network json revision s = (Ok tt, s') →
  let fresh := mk_NetState (nt_db s') routes in
  restore fresh =
    if forallb (λ row, slen (pr_url row) <=? 4096) (nd_proxies (nt_db s'))
    then (Ok tt, s') else (Err "Proxy address is too long"%string, fresh).
Proof.
  intros Hrev (proxies & c & _ & Hc & _ & Hlt & ->)%update_network_inv fresh.
  apply compile_Ok in Hc as (Hlen & _ & Hcons & -> & H2). cbn in fresh.
  set (es := ns_proxies (cs_settings c)) in *.
  assert (Hst : Forall2 stored es (read_back (list_to_map (link_pairs es)) <$> rows_from 0 es)).
  { apply stored_rows, Forall_forall. intros e He. destruct Hcons as (_ & Hid & _ & _ & Hnd).
    unfold route_pairs, link_pairs in *. rewrite !provider_pairs_fst in *.
    apply linked_providers_spec; [done| |done]. unfold link_pairs. by rewrite provider_pairs_fst. }
  assert (Hload : load_network (nt_db fresh) =
    Ok (mk_NetworkSettings (revision + 1) (read_back (list_to_map (link_pairs es)) <$> rows_from 0 es))).
  { unfold load_network, fresh. cbn [nt_db nd_revision nd_proxies nd_links ok_or mbind result_bind].
    unfold is_u64 in Hrev. replace (0 <=? revision + 1) with true by lia. cbn [ensure mbind result_bind].
    by rewrite rows_by_position_from. }
  assert (forallb (λ row, slen (pr_url row) <=? 4096) (nd_proxies (nt_db fresh)) = forallb short_url es)
    as Hshort.
  { cbn [fresh nt_db nd_proxies]. clear. generalize 0. induction es as [|e es IH]; intros p; cbn; [done|].
    by rewrite IH. }
  cbn [fresh nt_db nd_proxies] in Hshort. cbn [nt_db nd_proxies]. rewrite Hshort.
  pose proof (compile_entries_stored es _ Hst 0 ∅ ∅ Hcons) as Hcomp.
  unfold restore, on_db, in_txn, mbind, st_bind, gets, lift, modify. rewrite Hload.
  unfold compile. cbn [ns_proxies ns_revision].
  assert (zlen (read_back (list_to_map (link_pairs es)) <$> rows_from 0 es) = zlen (ns_proxies (
    mk_NetworkSettings revision proxies))) as Hz.
  { unfold zlen. apply Forall2_length in Hst, H2. by rewrite <- Hst, <- H2. }
  rewrite Hz. replace (64 <? _) with false by lia. cbn [negb ensure mbind result_bind].
  destruct (forallb short_url es).
  - destruct Hcomp as [rows' ->]. cbn. by rewrite (right_id_L ∅ (∪)).
  - by rewrite Hcomp.
Qed.
End Restart.
End Network.

(** ** A concrete instance *)

(** Addresses starting with [http://] are their own serialisation; the JSON of a request is
    the name of one of three fixed lists. *)
Definition toy_url (s : string) : option string :=
  _ ← strip_prefix "http://" (trim s); Some (trim s).
Definition toy_proxies (s : string) : option (list ProxyEntry) :=
  if str_eqb s "two" then Some [mk_ProxyEntry "b" " home " "http://h/" [7; 3] "";
                                mk_ProxyEntry "" "work" " http://w/ " [5] ""]
  else if str_eqb s "none" then Some []
  else None.
#[export] Instance toy_net : NetLib string := {
  url_parse := toy_url;
  url_scheme _ := "http"%string;
  url_host_str _ := Some "h"%string;
  url_port_or_known_default _ := Some 80;
  url_port _ := None;
  url_path _ := "/"%string;
  url_query _ := None;
  url_fragment _ := None;
  url_to_string u := u;
  url_set_username u _ := Some u;
  url_set_password u _ := Some u;
  proxy_all _ := true;
  uuid_parse s := if is_empty s then None else Some s;
  uuid_new n := ("u" +:+ show_u64 (Z.of_nat n))%string;
  proxies_from_json := toy_proxies;
  proxies_to_json _ := Some "two"%string;
}.
#[export] Instance toy_net_laws : NetLibLaws string.
Proof.
  split.
  - intros s u Hu. change (toy_url s = Some u) in Hu. change (toy_url (trim u) = Some u).
    unfold toy_url in *. apply bind_Some in Hu as (r & Hs & Hu). injection Hu as <-.
    by rewrite !trim_idem, Hs.
  - cbn. intros s c Hc. destruct (is_empty s) eqn:He; [done|]. injection Hc as <-. by rewrite He.
  - done.
Qed.

Definition toy_net_state : NetState := mk_NetState (mk_NetDb (Some 4) [] ∅ {[3; 5; 7]}) ∅.
Definition toy_net_after : NetState := (update_network (U:=string) "two" 4 toy_net_state).2.

Lemma compile_network_sound_witness :
  ∃ c, compile (U:=string) (mk_NetworkSettings 4 (opt_default [] (toy_proxies "two"))) = Ok c ∧
    cs_routes c !! 3 = Some "http://h/"%string ∧
    Forall (normal (U:=string)) (ns_proxies (cs_settings c)).
Proof.
  eexists. split_and!; [vm_compute; reflexivity|vm_compute; reflexivity|].
  eapply (compile_network_sound (U:=string)
    (mk_NetworkSettings 4 (opt_default [] (toy_proxies "two")))). vm_compute. reflexivity.
Defined.

Lemma update_network_atomic_witness :
  nd_revision (nt_db toy_net_after) = Some 5 ∧
  (update_network (U:=string) "two" 4 toy_net_after).2 = toy_net_after.
Proof.
  split.
  - apply (update_network_atomic (U:=string) "two" 4 toy_net_state (Ok tt) toy_net_after).
    vm_compute. reflexivity.
  - apply (update_network_atomic (U:=string) "two" 4 toy_net_after
      (Err "Network settings changed; reload before saving"%string)).
    vm_compute. reflexivity.
Defined.

Lemma network_restart_witness :
  restore (U:=string) (mk_NetState (nt_db toy_net_after) ∅) = (Ok tt, toy_net_after).
Proof.
  apply (network_restart (U:=string) "two" 4 toy_net_state toy_net_after ∅).
  - split; vm_compute; discriminate.
  - vm_compute. reflexivity.
Defined.
