(* ===== verification/Policy.v ===== *)
(** * HTTP cache policy

    Models [backend/main/src/resource_cache/policy.rs]: what a stored response may be used
    for (freshness, revalidation, range requests) and which of its headers are kept. The
    header map is the [http] crate's and the dates are [httpdate]'s: the [HttpHeaders]
    interface. The clock is an argument: one reading per call. *)
From S2P Require Import Prelude Text.
From stdpp Require Import options.
From Stdlib Require Import Ascii.
#[local] Set Default Proof Using "Type*".

Open Scope Z_scope.

(** ** Third-party code *)

Class HttpHeaders (H V : Type) := {
  hm_new : H;
  hm_get_all : H → string → list V;
  hm_remove : string → H → H;
  hm_append : string → V → H → H;
  hm_insert : string → V → H → H;
  hm_iter : H → list (string * V);
  hv_to_str : V → option string;
  hv_from_str : string → option V;
  hn_from_bytes : string → option string;
  (** Seconds since the epoch, negative before it. *)
  parse_http_date : string → option Z;
  fmt_http_date : Z → string;
}.

(** A name the code writes out: a lower-case token below the crate's length limit. *)
Definition plain_name (k : string) : bool :=
  negb (is_empty k) && (slen k <? 65536)
  && string_all (λ c, is_lower c || is_digit c || Ascii.eqb c (chr 45)) k.

(** The documented behaviour of the header map: a multimap from canonical names. *)
Class HttpHeadersLaws (H V : Type) `{HttpHeaders H V} : Prop := {
  hn_plain k : plain_name k = true → hn_from_bytes k = Some k;
  hn_canonical k c : hn_from_bytes k = Some c → c = to_ascii_lowercase k ∧ hn_from_bytes c = Some c;
  get_all_new k : hm_get_all hm_new k = [];
  get_all_append k v h j : hn_from_bytes k = Some k → hn_from_bytes j = Some j →
    hm_get_all (hm_append k v h) j = if str_eqb j k then hm_get_all h j ++ [v] else hm_get_all h j;
  get_all_insert k v h j : hn_from_bytes k = Some k → hn_from_bytes j = Some j →
    hm_get_all (hm_insert k v h) j = if str_eqb j k then [v] else hm_get_all h j;
  get_all_remove k h j : hn_from_bytes j = Some j →
    hm_get_all (hm_remove k h) j =
      if bool_decide (hn_from_bytes k = Some j) then [] else hm_get_all h j;
  iter_names h k v : (k, v) ∈ hm_iter h → hn_from_bytes k = Some k;
  iter_values h k : hn_from_bytes k = Some k →
    (filter (λ kv, str_eqb kv.1 k) (hm_iter h)).*2 = hm_get_all h k;
  hv_roundtrip v s : hv_to_str v = Some s → hv_from_str s = Some v;
  fmt_date_value t : is_Some (hv_from_str (fmt_http_date t));
}.

Definition Headers : Type := list (string * string).
Definition DATE_CLOCK_MARGIN : Z := 60.

Section Policy.
Context {H V : Type} `{!HttpHeaders H V}.

(** ** Header access *)

Definition get (headers : H) (key : string) : option V := head (hm_get_all headers key).
Definition contains_key (headers : H) (key : string) : bool :=
  bool_decide (is_Some (get headers key)).
Definition value (headers : H) (key : string) : option string := get headers key ≫= hv_to_str.

Definition restore_one (result : H) (kv : string * string) : H :=
  match hn_from_bytes kv.1, hv_from_str kv.2 with
  | Some key, Some val => hm_append key val result
  | _, _ => result
  end.
Definition restore (headers : Headers) : H := fold_left restore_one headers hm_new.

Definition hop_by_hop : list string :=
  ["connection"; "proxy-connection"; "keep-alive"; "proxy-authenticate"; "proxy-authorization";
   "te"; "trailer"; "transfer-encoding"; "upgrade"; "set-cookie"]%string.
(** The names the Connection header lists. *)
Definition connection_names (headers : H) : list string :=
  (λ s, to_ascii_lowercase (trim s)) <$> split_char (chr 44) (opt_default ""%string (value headers "connection")).
Definition remove_all (names : list string) (headers : H) : H :=
  fold_left (λ h name, hm_remove name h) names headers.
Definition forwarded (headers : H) : H :=
  let connection := connection_names headers in
  let result := remove_all hop_by_hop headers in
  remove_all connection result.

Definition kept_name (k : string) : bool :=
  negb (existsb (str_eqb k) ["content-length"; "content-range"]%string).
Definition saved (headers : H) : Headers :=
  omap (λ kv, v ← hv_to_str kv.2; Some (kv.1, v))
    (filter (λ kv, kept_name kv.1) (hm_iter (forwarded headers))).

(** ** Cache-Control *)

(** The parts of a list separated by commas outside quotes, and whether a quote is open at
    the end; the part after the last comma is dropped when one is. *)
Fixpoint parts (quoted : bool) (part : string) (text : string) : list string * bool :=
  match text with
  | EmptyString => if quoted then ([], true) else ([part], false)
  | String c text =>
    let quoted := if Ascii.eqb c dquote then negb quoted else quoted in
    if Ascii.eqb c (chr 44) && negb quoted
    then let '(rest, q) := parts quoted "" text in (part :: rest, q)
    else parts quoted (part +:+ String c "")%string text
  end.
Definition directive (part : string) : option (string * option string) :=
  let part := trim part in
  let '(name, arg) := match split_once (chr 61) part with
                      | Some (n, v) => (n, Some (trim_matches1 dquote (trim v)))
                      | None => (part, None)
                      end in
  if is_empty name then None else Some (to_ascii_lowercase (trim name), arg).
Definition text_directives (text : string) : list (string * option string) :=
  let '(ps, quoted) := parts false "" text in
  omap directive ps ++ (if quoted then [("no-store"%string, None)] else []).
Definition directives (headers : H) : list (string * option string) :=
  hm_get_all headers "cache-control" ≫= λ header,
    match hv_to_str header with
    | Some text => text_directives text
    | None => [("no-store"%string, None)]
    end.
Definition has (ds : list (string * option string)) (key : string) : bool :=
  existsb (λ d, str_eqb d.1 key) ds.

Definition date (headers : H) (name : string) : option Z :=
  v ← value headers name; d ← parse_http_date v; if 0 <=? d then Some d else None.

(** ** The policy of a response *)

Inductive RangeValidator :=
| StrongETag (v : string)
| LastModified (v : string) (date : Z).

Definition RangeValidator_value (r : RangeValidator) : string :=
  match r with StrongETag v => v | LastModified v _ => v end.
Definition RangeValidator_matches (r : RangeValidator) (headers : H) : bool :=
  match r with
  | StrongETag v => bool_decide (value headers "etag" = Some v)
  | LastModified v _ =>
    negb (contains_key headers "etag") && bool_decide (value headers "last-modified" = Some v)
  end.

Record Policy := mk_Policy {
  stored : Z; initial_age : Z; lifetime : Z; no_cache : bool; store : bool;
  etag : option string; modified : option string; range_validator : option RangeValidator
}.

(** An entity tag in quotes, of the characters RFC 9110 allows; weak tags are not. *)
Definition etagc (c : ascii) : bool :=
  (code c =? 33) || ((35 <=? code c) && (code c <=? 126)) || (128 <=? code c).
Definition strong_etag (s : string) : bool :=
  match s with
  | String c r =>
    (2 <=? slen s) && Ascii.eqb c dquote &&
    match srev r with
    | String d m => Ascii.eqb d dquote && string_all etagc m
    | EmptyString => false
    end
  | EmptyString => false
  end.

Definition max_age (ds : list (string * option string)) : list (string * option string) :=
  filter (λ d, str_eqb d.1 "max-age") ds.
Definition response_lifetime (headers : H) (ds : list (string * option string)) (received : Z) : Z :=
  match max_age ds with
  | [] => match date headers "expires" with
          | Some expires => sat_sub expires (opt_default received (date headers "date"))
          | None => 0
          end
  | [(_, arg)] => opt_default 0 (arg ≫= parse_u64)
  | _ => 0
  end.
Definition varies (headers : H) : bool :=
  existsb (λ v, match hv_to_str v with
                | Some v => existsb (λ v, str_eqb (trim v) "*") (split_char (chr 44) v)
                | None => false
                end) (hm_get_all headers "vary").
Definition response_store (headers : H) (ds : list (string * option string)) : bool :=
  forallb (λ kv, bool_decide (is_Some (hv_to_str kv.2))) (hm_iter headers)
  && negb (has ds "no-store") && negb (has ds "must-understand") && negb (varies headers)
  && is_none_or (value headers "content-encoding") (eq_ignore_ascii_case "identity").
Definition response_validator (headers : H) : option RangeValidator :=
  match value headers "etag" with
  | Some etag => if strong_etag etag then Some (StrongETag etag) else None
  | None =>
    modified ← date headers "last-modified";
    date ← date headers "date";
    if DATE_CLOCK_MARGIN <=? sat_sub date modified
    then v ← value headers "last-modified"; Some (LastModified v date)
    else None
  end.
Definition from_response (headers : H) (sent received : Z) : Policy :=
  let ds := directives headers in
  mk_Policy received
    (Z.max (sat_sub received (opt_default received (date headers "date")))
       (sat_add (opt_default 0 (value headers "age" ≫= parse_u64)) (sat_sub received sent)))
    (response_lifetime headers ds received)
    (has ds "no-cache") (response_store headers ds)
    (value headers "etag") (value headers "last-modified") (response_validator headers).

(** ** Using a stored response *)

Definition age (p : Policy) (now : Z) : Z :=
  if now <? stored p then u64_max else sat_add (initial_age p) (sat_sub now (stored p)).

(** The loop over the request's directives: [None] for its early return. *)
Fixpoint request_lifetime (age : Z) (ds : list (string * option string)) (lifetime : Z) : option Z :=
  match ds with
  | [] => Some lifetime
  | (key, arg) :: ds =>
    let lifetime := if str_eqb key "max-age"
                    then Z.min lifetime (opt_default 0 (arg ≫= parse_u64)) else lifetime in
    if str_eqb key "min-fresh" && (lifetime <=? sat_add (opt_default u64_max (arg ≫= parse_u64)) age)
    then None else request_lifetime age ds lifetime
  end.
Definition fresh (p : Policy) (request : H) (now : Z) : bool :=
  if negb (contains_key request "cache-control")
     && is_some_and (value request "pragma") (eq_ignore_ascii_case "no-cache") then false
  else
    let ds := directives request in
    if no_cache p || existsb (λ d, str_eqb d.1 "no-cache" || str_eqb d.1 "no-store") ds then false
    else match request_lifetime (age p now) ds (lifetime p) with
         | None => false
         | Some lifetime => age p now <? lifetime
         end.

Definition range_value (p : Policy) : option string :=
  match range_validator p with
  | Some r => Some (RangeValidator_value r)
  | None => v ← etag p; if strong_etag v then Some v else None
  end.
Definition matches_range (p : Policy) (headers : H) : bool :=
  match range_validator p with
  | Some r => RangeValidator_matches r headers
  | None => is_some_and (range_value p) (λ v, bool_decide (value headers "etag" = Some v))
  end.
Definition conditional (p : Policy) : H :=
  match etag p with
  | Some value =>
    match hv_from_str value with Some v => hm_insert "if-none-match" v hm_new | None => hm_new end
  | None =>
    match modified p ≫= hv_from_str with
    | Some v => hm_insert "if-modified-since" v hm_new | None => hm_new
    end
  end.

Definition request_no_store (headers : H) : bool := has (directives headers) "no-store".
Definition only_cached (headers : H) : bool := has (directives headers) "only-if-cached".

(** A 304 answer updates the stored headers; [None] where [unwrap] panics. *)
Definition replace_header (new : H) (merged : H) (kv : string * string) : H :=
  fold_left (λ m val, hm_append kv.1 val m) (hm_get_all new kv.1) (hm_remove kv.1 merged).
Definition merge_validation (old : Headers) (new : H) (now : Z) : option H :=
  let merged := fold_left (replace_header new) (saved new) (restore old) in
  let merged := hm_remove "age" merged in
  merged ← (if contains_key new "date" then Some merged
            else v ← hv_from_str (fmt_http_date now); Some (hm_insert "date" v merged));
  Some match get new "age" with Some age => hm_insert "age" age merged | None => merged end.

Definition tag_matches (p : Policy) (tag : string) : bool :=
  str_eqb (trim tag) "*"
  || is_some_and (etag p) (λ etag,
       str_eqb (trim_start_matches "W/" (trim tag)) (trim_start_matches "W/" etag)).
Definition not_modified (p : Policy) (request : H) : bool :=
  match value request "if-none-match" with
  | Some tags => existsb (tag_matches p) (split_char (chr 44) tags)
  | None =>
    match date request "if-modified-since", modified p ≫= parse_http_date with
    | Some since, Some modified => modified <=? since
    | _, _ => false
    end
  end.

(** ** The header map *)

Section Laws.
Context `{!HttpHeadersLaws H V}.

Lemma remove_all_get names k : hn_from_bytes k = Some k → ∀ h,
  hm_get_all (remove_all names h) k =
    if existsb (λ n, bool_decide (hn_from_bytes n = Some k)) names then [] else hm_get_all h k.
Proof.
  intros Hk. unfold remove_all. induction names as [|n names IH]; intros h; cbn; [done|].
  rewrite IH, get_all_remove by done. destruct (bool_decide (hn_from_bytes n = Some k)); cbn.
  - by destruct (existsb _ names).
  - done.
Qed.

(** Removing lower-case names removes exactly those names. *)
Lemma lower_names_get names k :
  Forall (λ n, to_ascii_lowercase n = n) names → hn_from_bytes k = Some k →
  existsb (λ n, bool_decide (hn_from_bytes n = Some k)) names = existsb (str_eqb k) names.
Proof.
  intros Hn Hk. induction Hn as [|n names Hl _ IH]; [done|]. cbn. rewrite IH. f_equal.
  destruct (str_eqb k n) eqn:Heq.
  - apply str_eqb_eq in Heq as <-. by rewrite bool_decide_true.
  - apply bool_decide_false. intros Hc. apply hn_canonical in Hc as [Hc _].
    rewrite Hl in Hc. subst k. by rewrite str_eqb_refl in Heq.
Qed.

Lemma lower_not_upper c : is_upper (lower c) = false.
Proof.
  unfold lower. destruct (is_upper c) eqn:Hu; [|done]. unfold is_upper in *.
  rewrite code_chr by (pose proof (code_range c); bool_lia).
  replace (code c + 32 <=? 90) with false by bool_lia. by rewrite andb_false_r.
Qed.
Lemma lower_idem c : lower (lower c) = lower c.
Proof. unfold lower at 1. by rewrite lower_not_upper. Qed.
Lemma to_ascii_lowercase_idem s : to_ascii_lowercase (to_ascii_lowercase s) = to_ascii_lowercase s.
Proof. induction s as [|c s IH]; cbn; [done|]. by rewrite lower_idem, IH. Qed.

Lemma forwarded_get h k : hn_from_bytes k = Some k →
  hm_get_all (forwarded h) k =
    if existsb (str_eqb k) (hop_by_hop ++ connection_names h) then [] else hm_get_all h k.
Proof.
  intros Hk. unfold forwarded. rewrite !remove_all_get by done.
  assert (Forall (λ n, to_ascii_lowercase n = n) hop_by_hop)
    by by unfold hop_by_hop; repeat constructor.
  assert (Forall (λ n, to_ascii_lowercase n = n) (connection_names h)).
  { apply Forall_forall. unfold connection_names. intros n (x & -> & _)%list_elem_of_fmap.
    apply to_ascii_lowercase_idem. }
  rewrite existsb_app, !lower_names_get by done.
  destruct (existsb _ hop_by_hop), (existsb _ (connection_names h)); done.
Qed.

Definition textual (v : V) : bool := bool_decide (is_Some (hv_to_str v)).

(** Headers written out from a map come back in order, the unprintable values left out. *)
Lemma restore_omap l : ∀ h k,
  Forall (λ kv, hn_from_bytes kv.1 = Some kv.1) l → hn_from_bytes k = Some k →
  hm_get_all (fold_left restore_one (omap (λ kv : string * V, v ← hv_to_str kv.2; Some (kv.1, v)) l) h) k =
  hm_get_all h k ++ filter textual (filter (λ kv, str_eqb kv.1 k) l).*2.
Proof.
  induction l as [|[n v] l IH]; intros h k Hl Hk; cbn [omap list_omap].
  { cbn. by rewrite app_nil_r. }
  apply Forall_cons in Hl as [Hn Hl]. cbn [fst snd] in *.
  rewrite filter_cons. cbn [fst].
  destruct (hv_to_str v) as [s|] eqn:Hv; cbn [mbind option_bind].
  - cbn [fold_left]. rewrite IH by done. unfold restore_one. cbn [fst snd].
    rewrite Hn, (hv_roundtrip v s) by done. rewrite get_all_append by done.
    destruct (str_eqb k n) eqn:Heq.
    + apply str_eqb_eq in Heq as ->. rewrite str_eqb_refl. rewrite decide_True by done.
      rewrite fmap_cons. cbn [snd]. rewrite filter_cons. rewrite decide_True.
      * by rewrite <- app_assoc.
      * unfold textual. by rewrite bool_decide_true by (by rewrite Hv).
    + rewrite decide_False; [done|]. rewrite str_eqb_neq in Heq.
      intros Ht. apply Heq. symmetry. apply str_eqb_eq. by destruct (str_eqb n k).
  - rewrite IH by done. destruct (decide (str_eqb n k)) as [Ht|]; [|done].
    rewrite fmap_cons. cbn [snd]. rewrite filter_cons, decide_False; [done|]. unfold textual. rewrite Hv.
    rewrite bool_decide_false; [by intros []|]. by intros [? ?].
Qed.

Lemma filter_key_kept (l : list (string * V)) k : 
  filter (λ kv, str_eqb kv.1 k) (filter (λ kv, kept_name kv.1) l) =
  if kept_name k then filter (λ kv, str_eqb kv.1 k) l else [].
Proof.
  induction l as [|[n v] l IH]; [by destruct (kept_name k)|].
  rewrite !(filter_cons _ (n, v)). cbn [fst].
  destruct (str_eqb n k) eqn:Heq.
  - apply str_eqb_eq in Heq as ->. rewrite (decide_True (P:=True)) by done.
    destruct (kept_name k) eqn:Hk.
    + rewrite (decide_True (P:=True)) by done. rewrite filter_cons. cbn [fst].
      rewrite IH, str_eqb_refl. by rewrite decide_True.
    + rewrite decide_False by tauto. exact IH.
  - rewrite (decide_False (P:=False)) by tauto.
    destruct (kept_name n) eqn:Hn.
    + rewrite (decide_True (P:=True)) by done. rewrite filter_cons. cbn [fst].
      rewrite IH, decide_False; [done|]. rewrite Heq. tauto.
    + rewrite decide_False by tauto. exact IH.
Qed.

(** Storing the headers of a response and restoring them gives, for every header name,
    the printable values the response had, in order, except that hop-by-hop headers, those
    the Connection header names, Content-Length and Content-Range are gone. *)
Theorem saved_restore h k : hn_from_bytes k = Some k →
  hm_get_all (restore (saved h)) k =
    if existsb (str_eqb k) (hop_by_hop ++ connection_names h) || negb (kept_name k) then []
    else filter textual (hm_get_all h k).
Proof.
  intros Hk. unfold restore, saved. rewrite restore_omap; [|apply Forall_forall|done].
  - rewrite get_all_new. cbn [app]. rewrite filter_key_kept.
    destruct (kept_name k); cbn [negb]; [|by rewrite orb_true_r].
    rewrite iter_values, forwarded_get, orb_false_r by done. by destruct (existsb _ _).
  - intros [n v] Hin. cbn. apply list_elem_of_filter in Hin as [_ Hin].
    by eapply iter_names.
Qed.
(** ** Freshness *)

Definition arg_u64 (default : Z) (arg : option string) : Z := opt_default default (arg ≫= parse_u64).
(** The lifetime left by the max-age directives of [ds]. *)
Definition capped (ds : list (string * option string)) (lifetime : Z) : Z :=
  foldr Z.min lifetime ((λ d, arg_u64 0 d.2) <$> max_age ds).

Lemma capped_cons d ds lifetime :
  capped (d :: ds) lifetime =
  if str_eqb d.1 "max-age" then Z.min (arg_u64 0 d.2) (capped ds lifetime) else capped ds lifetime.
Proof.
  unfold capped, max_age. rewrite filter_cons. destruct (str_eqb d.1 "max-age").
  - by rewrite decide_True.
  - by rewrite decide_False by tauto.
Qed.
Lemma capped_min ds a lifetime : capped ds (Z.min lifetime a) = Z.min a (capped ds lifetime).
Proof.
  induction ds as [|d ds IH]; [unfold capped; cbn; lia|]. rewrite !capped_cons, IH.
  destruct (str_eqb d.1 "max-age"); lia.
Qed.
Lemma capped_lt ds lifetime a :
  a < capped ds lifetime ↔
  a < lifetime ∧ ∀ arg, ("max-age"%string, arg) ∈ ds → a < arg_u64 0 arg.
Proof.
  induction ds as [|[k arg] ds IH].
  { unfold capped. cbn. split; [|tauto]. intros. split; [done|]. by intros arg ?%elem_of_nil. }
  rewrite capped_cons. cbn [fst snd]. destruct (str_eqb k "max-age") eqn:Hk.
  - apply str_eqb_eq in Hk as ->. setoid_rewrite elem_of_cons. rewrite Z.min_glb_lt_iff, IH.
    split; [intros (? & ? & ?)|intros [? Hall]].
    + split; [done|]. intros arg' [[= ->]|?]; auto.
    + split_and!; [apply Hall; by left|done|]. intros. apply Hall. by right.
  - rewrite IH. apply str_eqb_neq in Hk. setoid_rewrite elem_of_cons.
    split; intros [? Hall]; (split; [done|]); intros arg' Harg.
    + destruct Harg as [[= ? ?]|?]; [congruence|auto].
    + apply Hall. by right.
Qed.

Lemma request_lifetime_spec a ds : ∀ lifetime r,
  request_lifetime a ds lifetime = Some r ↔
  r = capped ds lifetime ∧
  ∀ l1 arg l2, ds = l1 ++ ("min-fresh"%string, arg) :: l2 →
    sat_add (arg_u64 u64_max arg) a < capped l1 lifetime.
Proof.
  induction ds as [|[k arg] ds IH]; intros lifetime r; cbn [request_lifetime].
  { split; [intros [= <-]; split; [done|]|by intros [-> _]]. by intros [] ? ?. }
  set (lt := if str_eqb k "max-age" then _ else lifetime).
  assert (∀ l, capped ((k, arg) :: l) lifetime = capped l lt) as Hcap.
  { intros l. rewrite capped_cons. cbn [fst snd]. unfold lt. destruct (str_eqb k "max-age"); [|done].
    fold (arg_u64 0 arg). by rewrite capped_min. }
  rewrite Hcap. fold (arg_u64 u64_max arg). destruct (str_eqb k "min-fresh") eqn:Hk; cbn [andb].
  - apply str_eqb_eq in Hk as ->. assert (lt = lifetime) as Hlt by done. rewrite Hlt in *.
    destruct (Z.leb_spec lifetime (sat_add (arg_u64 u64_max arg) a)) as [Hle|Hgt].
    + split; [done|]. intros [_ Hall]. specialize (Hall [] arg ds eq_refl). cbn in Hall. lia.
    + rewrite IH. split; intros [? Hall]; (split; [done|]); intros l1 arg' l2 Heq.
      * destruct l1 as [|d l1]; cbn in Heq; simplify_eq; [done|]. rewrite Hcap. eauto.
      * rewrite <- Hcap. eapply Hall. by rewrite Heq.
  - apply str_eqb_neq in Hk.
    rewrite IH. split; intros [? Hall]; (split; [done|]); intros l1 arg' l2 Heq.
    + destruct l1 as [|d l1]; cbn in Heq; simplify_eq. rewrite Hcap. eauto.
    + rewrite <- Hcap. eapply Hall. by rewrite Heq.
Qed.

Lemma request_lifetime_fresh a ds lifetime :
  match request_lifetime a ds lifetime with None => false | Some l => a <? l end = true ↔
  a < capped ds lifetime ∧
  ∀ l1 arg l2, ds = l1 ++ ("min-fresh"%string, arg) :: l2 →
    sat_add (arg_u64 u64_max arg) a < capped l1 lifetime.
Proof.
  destruct (request_lifetime a ds lifetime) as [l|] eqn:Hr.
  - apply request_lifetime_spec in Hr as [-> Hall]. rewrite Z.ltb_lt. tauto.
  - split; [done|]. intros [_ Hall].
    assert (request_lifetime a ds lifetime = Some (capped ds lifetime)) as Hs
      by by apply request_lifetime_spec.
    congruence.
Qed.

(** A request that asks for revalidation. *)
Definition demands_validation (request : H) : bool :=
  (negb (contains_key request "cache-control")
   && is_some_and (value request "pragma") (eq_ignore_ascii_case "no-cache"))
  || has (directives request) "no-cache" || has (directives request) "no-store".

Lemma has_either ds a b :
  existsb (λ d : string * option string, str_eqb d.1 a || str_eqb d.1 b) ds = has ds a || has ds b.
Proof.
  unfold has. induction ds as [|d ds IH]; [done|]. cbn. rewrite IH.
  destruct (str_eqb d.1 a), (str_eqb d.1 b); cbn; rewrite ?orb_true_r; done.
Qed.

(** C38. A stored response is fresh exactly when neither the response nor the request demands
    validation, its age is below its lifetime and below every max-age of the request, and
    every min-fresh, added to the age, stays below the lifetime as capped by the max-age
    directives before it. A directive without a readable number counts as max-age=0 or as an
    unbounded min-fresh. *)
Theorem fresh_spec p request now :
  fresh p request now = true ↔
  demands_validation request = false ∧ no_cache p = false ∧ age p now < lifetime p ∧
  (∀ arg, ("max-age"%string, arg) ∈ directives request → age p now < arg_u64 0 arg) ∧
  ∀ l1 arg l2, directives request = l1 ++ ("min-fresh"%string, arg) :: l2 →
    sat_add (arg_u64 u64_max arg) (age p now) < capped l1 (lifetime p).
Proof.
  unfold fresh, demands_validation. destruct (_ && is_some_and _ _); cbn [orb].
  { split; [done|]. by intros []. }
  rewrite has_either. destruct (no_cache p); cbn [orb].
  { split; [done|]. by intros (_ & ? & _). }
  destruct (has _ "no-cache" || has _ "no-store"); cbn.
  { split; [done|]. by intros []. }
  rewrite request_lifetime_fresh, capped_lt. tauto.
Qed.

(** Freshness is an interval of time from the moment of storing: a response is never
    fresh before it was stored, and one that is fresh was fresh at every instant since. *)
Theorem fresh_interval p request now earlier :
  is_u64 (lifetime p) → fresh p request now = true →
  stored p ≤ now ∧ (stored p ≤ earlier ≤ now → fresh p request earlier = true).
Proof.
  rewrite !fresh_spec. intros [_ Hl] (Hd & Hn & Hlt & Hmax & Hmin).
  assert (Hnow : stored p ≤ now).
  { revert Hlt. unfold age, u64_max in *. destruct (Z.ltb_spec now (stored p)); lia. }
  split; [done|]. intros He.
  assert (Hage : age p earlier ≤ age p now).
  { unfold age. replace (now <? stored p) with false by lia.
    replace (earlier <? stored p) with false by lia. unfold sat_add, sat_sub. lia. }
  split_and!; [done|done|lia| |].
  - intros arg Hin. specialize (Hmax arg Hin). lia.
  - intros l1 arg l2 Heq. specialize (Hmin l1 arg l2 Heq). unfold sat_add in *. lia.
Qed.

(** ** Range validators *)

(** The validator that a storable response gives for range requests identifies it: the
    response itself satisfies it, it is a strong entity tag when the response has any entity
    tag, and otherwise a Last-Modified value at least a minute older than the Date. Any other
    response that satisfies it carries the same tag, or no tag and the same date. *)
Theorem range_validator_sound h sent received v :
  store (from_response h sent received) = true →
  range_value (from_response h sent received) = Some v →
  matches_range (from_response h sent received) h = true ∧
  (value h "etag" = Some v ∧ strong_etag v = true ∨
   contains_key h "etag" = false ∧ value h "last-modified" = Some v ∧
   ∃ m d, date h "last-modified" = Some m ∧ date h "date" = Some d ∧ m + 60 ≤ d) ∧
  ∀ h', matches_range (from_response h sent received) h' = true →
    value h' "etag" = value h "etag" ∧
    (value h "etag" = None → contains_key h' "etag" = false ∧
       value h' "last-modified" = value h "last-modified").
Proof.
  intros Hstore Hv.
  assert (Hall : ∀ k w, hn_from_bytes k = Some k → w ∈ hm_get_all h k → is_Some (hv_to_str w)).
  { intros k w Hk Hin. cbn in Hstore. unfold response_store in Hstore.
    repeat (apply andb_true_iff in Hstore as [Hstore _]).
    rewrite <- iter_values in Hin by done. apply list_elem_of_fmap in Hin as (kv & -> & Hin).
    apply list_elem_of_filter in Hin as [_ Hin].
    rewrite forallb_forall in Hstore. apply list_elem_of_In, Hstore in Hin.
    by apply bool_decide_eq_true in Hin. }
  assert (Hetag : value h "etag" = None → contains_key h "etag" = false).
  { unfold value, contains_key, get. intros Hnone. apply bool_decide_eq_false.
    intros [w Hw]. rewrite Hw in Hnone. cbn in Hnone.
    destruct (Hall "etag"%string w) as [? ?]; [by apply hn_plain| |congruence].
    destruct (hm_get_all h "etag"); [done|]. injection Hw as ->. by left. }
  unfold range_value, matches_range in *. cbn [from_response range_validator etag] in *.
  unfold response_validator in *. destruct (value h "etag") as [e|] eqn:He.
  - destruct (strong_etag e) eqn:Hs; [|cbn in Hv; by rewrite Hs in Hv].
    injection Hv as <-. cbn [RangeValidator_matches]. split_and!.
    + by apply bool_decide_eq_true.
    + by left.
    + intros h' Hm. apply bool_decide_eq_true in Hm. by rewrite Hm.
  - specialize (Hetag eq_refl). cbn [mbind option_bind] in Hv.
    destruct (date h "last-modified") as [m|] eqn:Hm; [|done]. cbn [mbind option_bind] in *.
    destruct (date h "date") as [d|] eqn:Hd; [|done]. cbn [mbind option_bind] in *.
    destruct (DATE_CLOCK_MARGIN <=? sat_sub d m) eqn:Hmargin; [|done].
    destruct (value h "last-modified") as [l|] eqn:Hl; [|done]. cbn [mbind option_bind] in *.
    injection Hv as <-. cbn [RangeValidator_value RangeValidator_matches]. split_and!.
    + rewrite Hetag, Hl. cbn. by apply bool_decide_eq_true.
    + right. split_and!; [done|done|]. exists m, d. split_and!; [done|done|].
      unfold sat_sub, DATE_CLOCK_MARGIN in *. lia.
    + intros h' Hmm. apply andb_true_iff in Hmm as [Hc Hlm]. apply negb_true_iff in Hc.
      apply bool_decide_eq_true in Hlm. split.
      * unfold contains_key in Hc. apply bool_decide_eq_false, eq_None_not_Some in Hc.
        unfold value. by rewrite Hc.
      * done.
Qed.

(** ** Revalidation *)

Lemma append_all_get vs k j : hn_from_bytes k = Some k → hn_from_bytes j = Some j → ∀ h,
  hm_get_all (fold_left (λ m val, hm_append k val m) vs h) j =
  if str_eqb j k then hm_get_all h j ++ vs else hm_get_all h j.
Proof.
  intros Hk Hj. induction vs as [|v vs IH]; intros h; cbn [fold_left].
  { rewrite app_nil_r. by destruct (str_eqb j k). }
  rewrite IH, get_all_append by done. destruct (str_eqb j k); [|done]. by rewrite <- app_assoc.
Qed.
Lemma replace_headers_get new hs j : hn_from_bytes j = Some j →
  Forall (λ kv, hn_from_bytes kv.1 = Some kv.1) hs → ∀ m,
  hm_get_all (fold_left (replace_header new) hs m) j =
  if existsb (str_eqb j) hs.*1 then hm_get_all new j else hm_get_all m j.
Proof.
  intros Hj. induction 1 as [|[k s] hs Hk _ IH]; intros m; cbn [fold_left fmap list_fmap existsb fst] in *.
  { done. }
  rewrite IH. unfold replace_header. cbn [fst].
  rewrite append_all_get, get_all_remove by done.
  destruct (existsb _ _); [by rewrite orb_true_r|]. rewrite orb_false_r.
  destruct (str_eqb j k) eqn:Hjk.
  - apply str_eqb_eq in Hjk as ->. by rewrite bool_decide_true.
  - rewrite bool_decide_false; [done|]. rewrite Hk. apply str_eqb_neq in Hjk. congruence.
Qed.

Lemma saved_names h : Forall (λ kv, hn_from_bytes kv.1 = Some kv.1) (saved h).
Proof.
  apply Forall_forall. unfold saved. intros kv ([n v] & Hin & Hkv)%list_elem_of_omap.
  apply list_elem_of_filter in Hin as [_ Hin]. apply iter_names in Hin.
  cbn in Hkv. destruct (hv_to_str v); [|done]. by injection Hkv as <-.
Qed.

(** Merging the headers of a 304 answer always succeeds and gives, name by name: the new
    Age or none; the time of the merge as Date when the answer has none; the values of the
    answer for the other names it stores; and the stored values for the rest. *)
Theorem merge_validation_spec old new now k :
  hn_from_bytes k = Some k →
  ∃ m v, merge_validation old new now = Some m ∧ hv_from_str (fmt_http_date now) = Some v ∧
  hm_get_all m k =
    if str_eqb k "age" then take 1 (hm_get_all new "age")
    else if str_eqb k "date" && negb (contains_key new "date") then [v]
    else if existsb (str_eqb k) (saved new).*1 then hm_get_all new k
    else hm_get_all (restore old) k.
Proof.
  intros Hk. destruct (fmt_date_value now) as [v Hv]. unfold merge_validation.
  set (m0 := hm_remove "age" _).
  assert (Hage : hn_from_bytes "age" = Some "age"%string) by by apply hn_plain.
  assert (Hdate : hn_from_bytes "date" = Some "date"%string) by by apply hn_plain.
  assert (Hm0 : hm_get_all m0 k = if str_eqb k "age" then [] else
    if existsb (str_eqb k) (saved new).*1 then hm_get_all new k else hm_get_all (restore old) k).
  { unfold m0. rewrite get_all_remove, replace_headers_get; [|done|apply saved_names|done].
    rewrite Hage. destruct (str_eqb k "age") eqn:Hka.
    - apply str_eqb_eq in Hka as ->. by rewrite bool_decide_true.
    - rewrite bool_decide_false; [done|]. apply str_eqb_neq in Hka. congruence. }
  set (m1 := if contains_key new "date" then m0 else hm_insert "date" v m0).
  exists (match get new "age" with Some age => hm_insert "age" age m1 | None => m1 end), v.
  assert (Hm1 : hm_get_all m1 k =
    if str_eqb k "date" && negb (contains_key new "date") then [v] else hm_get_all m0 k).
  { unfold m1. destruct (contains_key new "date"); cbn [negb]; [by rewrite andb_false_r|].
    rewrite get_all_insert by done. by rewrite andb_true_r. }
  split_and!; [|done|].
  { rewrite Hv. unfold m1. destruct (contains_key new "date"); done. }
  unfold get. destruct (hm_get_all new "age") as [|w ws] eqn:Hw; cbn [head].
  - rewrite Hm1, Hm0. destruct (str_eqb k "age") eqn:Hka; [|done].
    apply str_eqb_eq in Hka as ->. done.
  - rewrite get_all_insert, Hm1, Hm0 by done. by destruct (str_eqb k "age").
Qed.
End Laws.
End Policy.

(** ** Cache-Control text *)

Definition name_char (c : ascii) : bool := is_lower c || is_digit c || Ascii.eqb c (chr 45).
Definition directive_name (n : string) : bool := negb (is_empty n) && string_all name_char n.
Definition unquoted (c : ascii) : bool := negb (Ascii.eqb c dquote).
Definition show_directive (d : string * option string) : string :=
  match d with
  | (n, None) => n
  | (n, Some a) => n +:+ String (chr 61) (String dquote (a +:+ String dquote ""))
  end.

Lemma eqb_code c n : 0 ≤ n < 256 → Ascii.eqb c (chr n) = (code c =? n).
Proof.
  intros Hn. destruct (Ascii.eqb_spec c (chr n)) as [->|Hne].
  - rewrite code_chr by done. by rewrite Z.eqb_refl.
  - symmetry. apply Z.eqb_neq. intros Hc. apply Hne. rewrite <- Hc. unfold chr, code.
    by rewrite N2Z.id, ascii_N_embedding.
Qed.
Lemma name_char_code c : name_char c = true → 45 ≤ code c ≤ 122 ∧ code c ≠ 61 ∧ is_upper c = false.
Proof.
  unfold name_char, is_lower, is_digit, is_upper. rewrite eqb_code by lia. intros H.
  rewrite !orb_true_iff, !andb_true_iff in H. split_and!; [lia..|].
  apply andb_false_iff. lia.
Qed.

Lemma parts_plain s : ∀ q p r,
  string_all (λ c, unquoted c && (q || negb (Ascii.eqb c (chr 44)))) s = true →
  parts q p (s +:+ r) = parts q (p +:+ s) r.
Proof.
  induction s as [|c s IH]; intros q p r Hs; [by rewrite append_nil_r|].
  cbn [string_all] in Hs. apply andb_true_iff in Hs as [Hc Hs].
  apply andb_true_iff in Hc as [Hc Hq]. unfold unquoted in Hc. apply negb_true_iff in Hc.
  change (String c s +:+ r)%string with (String c (s +:+ r)). cbn [parts]. rewrite Hc.
  assert (Ascii.eqb c (chr 44) && negb q = false) as ->
    by (destruct q, (Ascii.eqb c (chr 44)); done).
  rewrite IH by done. by rewrite append_assoc.
Qed.

Lemma ws_ascii a b c : 32 < code a < 128 →
  ws1 a = false ∧ ws2 a b = false ∧ ws2 b a = false ∧ ws3 a b c = false ∧ ws3 c b a = false.
Proof. intros. unfold ws1, ws2, ws3. split_and!; lia. Qed.

Lemma trim_edges a m m' b s :
  s = String a m → s = (m' +:+ String b "")%string → 32 < code a < 128 → 32 < code b < 128 →
  trim s = s.
Proof.
  intros Ha Hb Hca Hcb. unfold trim.
  assert (trim_start s = s) as ->.
  { apply trim_start_id. rewrite Ha. destruct m as [|c [|d m]]; cbn;
      pose proof (ws_ascii a) as Hws; split_and?; try done; by apply Hws. }
  unfold trim_end. rewrite trim_start_rev_id; [apply srev_involutive|].
  rewrite Hb, srev_append. change (srev (String b "")) with (String b ""). simpl.
  destruct (srev m') as [|c [|d r]]; simpl;
    pose proof (ws_ascii b) as Hws; split_and?; try done; by apply Hws.
Qed.

Lemma last_char s : s ≠ EmptyString → ∃ m c, s = (m +:+ String c "")%string.
Proof.
  induction s as [|c s IH]; [done|]. intros _. destruct s as [|d s]; [by exists "", c|].
  destruct IH as (m & e & ->); [done|]. by exists (String c m), e.
Qed.

Lemma directive_name_inv n :
  directive_name n = true → is_empty n = false ∧ string_all name_char n = true.
Proof. unfold directive_name. intros [Hne Hall]%andb_true_iff. by apply negb_true_iff in Hne. Qed.
Lemma directive_name_trim n : directive_name n = true → trim n = n.
Proof.
  unfold directive_name. intros [Hne Hall]%andb_true_iff.
  destruct n as [|a m] eqn:Hn; [done|]. rewrite <- Hn in *.
  destruct (last_char n) as (m' & b & Hb); [by rewrite Hn|].
  assert (Ha : name_char a = true) by (rewrite Hn in Hall; cbn in Hall; by apply andb_true_iff in Hall as []).
  assert (Hc : name_char b = true).
  { rewrite Hb, string_all_app in Hall. apply andb_true_iff in Hall as [_ Hall].
    cbn in Hall. by rewrite andb_true_r in Hall. }
  apply name_char_code in Ha, Hc. eapply trim_edges; [exact Hn|exact Hb|lia|lia].
Qed.
Lemma name_lowercase n : string_all name_char n = true → to_ascii_lowercase n = n.
Proof.
  induction n as [|c n IH]; [done|]. cbn. intros [Hc Hn]%andb_true_iff.
  apply name_char_code in Hc as (_ & _ & Hu). unfold lower. by rewrite Hu, IH.
Qed.
Lemma split_once_none n : string_all name_char n = true → split_once (chr 61) n = None.
Proof.
  induction n as [|c n IH]; [done|]. cbn [string_all split_once]. intros [Hc Hn]%andb_true_iff.
  apply name_char_code in Hc as (_ & He & _). rewrite eqb_code by lia.
  replace (code c =? 61) with false by lia. by rewrite IH.
Qed.
Lemma split_once_name n r : string_all name_char n = true →
  split_once (chr 61) (n +:+ String (chr 61) r) = Some (n, r).
Proof.
  induction n as [|c n IH]; [done|]. intros Hall.
  change (String c n +:+ String (chr 61) r)%string with (String c (n +:+ String (chr 61) r)).
  cbn [string_all split_once] in *. apply andb_true_iff in Hall as [Hc Hn].
  apply name_char_code in Hc as (_ & He & _). rewrite eqb_code by lia.
  replace (code c =? 61) with false by lia. by rewrite IH.
Qed.

Lemma trim_quote_head a : string_all unquoted a = true → trim_start_matches1 dquote a = a.
Proof.
  destruct a as [|c a]; [done|]. cbn [string_all trim_start_matches1]. intros [Hc _]%andb_true_iff.
  unfold unquoted in Hc. apply negb_true_iff in Hc. by rewrite Hc.
Qed.
Lemma string_all_srev p a : string_all p (srev a) = string_all p a.
Proof.
  induction a as [|c a IH]; [done|]. rewrite srev_cons, string_all_app, IH. cbn.
  by rewrite andb_true_r, andb_comm.
Qed.
Lemma trim_quotes a : string_all unquoted a = true →
  trim_matches1 dquote (String dquote (a +:+ String dquote "")) = a.
Proof.
  intros Ha. unfold trim_matches1. cbn [trim_start_matches1]. rewrite Ascii.eqb_refl.
  assert (trim_start_matches1 dquote (a +:+ String dquote "") =
    if is_empty a then ""%string else (a +:+ String dquote "")%string) as ->.
  { destruct a as [|c a]; [done|]. cbn in Ha. apply andb_true_iff in Ha as [Hc _].
    unfold unquoted in Hc. apply negb_true_iff in Hc.
    change (String c a +:+ ?r)%string with (String c (a +:+ r)). cbn [trim_start_matches1 is_empty].
    by rewrite Hc. }
  destruct (is_empty a) eqn:Heq; [by destruct a|].
  rewrite srev_append. change (srev (String dquote "") +:+ ?r)%string with (String dquote r).
  cbn [trim_start_matches1]. rewrite Ascii.eqb_refl.
  rewrite trim_quote_head by (by rewrite string_all_srev). apply srev_involutive.
Qed.

Definition directive_ok (d : string * option string) : Prop :=
  directive_name d.1 = true ∧ match d.2 with Some a => string_all unquoted a = true | None => True end.

Lemma quoted_trim a : trim (String dquote (a +:+ String dquote "")) = String dquote (a +:+ String dquote "").
Proof. by eapply (trim_edges dquote _ (String dquote a) dquote). Qed.

Lemma directive_show d p : directive_ok d → p = ""%string ∨ p = " "%string →
  directive (p +:+ show_directive d) = Some d.
Proof.
  intros [Hn Ha] Hp. unfold directive.
  assert (trim (p +:+ show_directive d) = trim (show_directive d)) as -> by by destruct Hp as [-> | ->].
  destruct d as [n [a|]]; cbn [show_directive fst snd] in *.
  - assert (trim (n +:+ String (chr 61) (String dquote (a +:+ String dquote ""))) =
      n +:+ String (chr 61) (String dquote (a +:+ String dquote "")))%string as ->.
    { destruct (directive_name_inv _ Hn) as [Hne Hall]. destruct n as [|c n]; [done|].
      cbn in Hall. apply andb_true_iff in Hall as [Hc _]. apply name_char_code in Hc.
      eapply (trim_edges c _ (String c (n +:+ String (chr 61) (String dquote a))) dquote);
        [done| |lia|done].
      by rewrite (append_assoc (String c n) (String (chr 61) (String dquote a))) || (simpl; by rewrite append_assoc). }
    destruct (directive_name_inv _ Hn) as [Hne Hall]. rewrite split_once_name by done.
    rewrite quoted_trim, trim_quotes by done. rewrite Hne.
    by rewrite directive_name_trim, name_lowercase by done.
  - destruct (directive_name_inv _ Hn) as [Hne Hall].
    rewrite directive_name_trim, split_once_none, Hne by done.
    by rewrite directive_name_trim, name_lowercase by done.
Qed.

Lemma parts_show d p r : directive_ok d →
  parts false p (show_directive d +:+ r) = parts false (p +:+ show_directive d) r.
Proof.
  intros [Hn Ha]. destruct (directive_name_inv _ Hn) as [Hne Hall].
  assert (Hplain : string_all (λ c, unquoted c && (false || negb (Ascii.eqb c (chr 44)))) d.1 = true).
  { revert Hall. apply string_all_impl. intros c Hc. apply name_char_code in Hc.
    unfold unquoted, dquote. rewrite !eqb_code by lia.
    replace (code c =? 34) with false by lia. by replace (code c =? 44) with false by lia. }
  destruct d as [n [a|]]; cbn [show_directive fst snd] in *; [|by apply parts_plain].
  rewrite append_assoc, parts_plain by done.
  change (String (chr 61) ?s +:+ r)%string with (String (chr 61) (s +:+ r)).
  cbn [parts]. replace (Ascii.eqb (chr 61) dquote) with false by done.
  replace (Ascii.eqb (chr 61) (chr 44)) with false by done. cbn [andb].
  change (String dquote ?s +:+ r)%string with (String dquote (s +:+ r)).
  cbn [parts]. rewrite Ascii.eqb_refl. replace (Ascii.eqb dquote (chr 44)) with false by done.
  cbn [andb negb]. rewrite (append_assoc a), (parts_plain a).
  - change (String dquote "" +:+ r)%string with (String dquote r). cbn [parts].
    rewrite Ascii.eqb_refl. replace (Ascii.eqb dquote (chr 44)) with false by done.
    cbn [andb negb]. f_equal. by rewrite !append_assoc.
  - revert Ha. apply string_all_impl. intros c Hc. by rewrite Hc.
Qed.

Lemma omap_cons_Some {A B} (f : A → option B) x y l :
  f x = Some y → omap f (x :: l) = y :: omap f l.
Proof. intros Hf. cbn. by rewrite Hf. Qed.

(** Reading back a Cache-Control list: directives written one after the other, an
    argument in quotes whatever it holds but a quote (commas included), are parsed to
    themselves. *)
Theorem directives_roundtrip ds :
  ds ≠ [] → Forall directive_ok ds →
  text_directives (join ", " (show_directive <$> ds)) = ds.
Proof.
  intros Hne Hall. unfold text_directives.
  assert (∀ p, p = ""%string ∨ p = " "%string →
    let '(ps, quoted) := parts false p (join ", " (show_directive <$> ds)) in
    omap directive ps = ds ∧ quoted = false) as Hp.
  { clear -Hne Hall. induction Hall as [|d ds Hd Hds IH]; [done|]. intros p Hp.
    destruct ds as [|d' ds].
    - cbn [fmap list_fmap join]. rewrite <- (append_nil_r (show_directive d)), parts_show by done.
      cbn [parts omap list_omap]. by rewrite directive_show.
    - change (join ", " (show_directive <$> d :: d' :: ds)) with
        (show_directive d +:+ ", " +:+ join ", " (show_directive <$> d' :: ds))%string.
      rewrite parts_show by done.
      change (", " +:+ ?s)%string with (String (chr 44) (String (chr 32) s)).
      cbn [parts]. replace (Ascii.eqb (chr 44) dquote) with false by done. rewrite Ascii.eqb_refl.
      replace (Ascii.eqb (chr 32) dquote) with false by done.
      replace (Ascii.eqb (chr 32) (chr 44)) with false by done. cbn [andb negb].
      specialize (IH ltac:(done) " "%string (or_intror eq_refl)).
      change ("" +:+ String (chr 32) "")%string with " "%string.
      destruct (parts false " " (join ", " (show_directive <$> d' :: ds))) as [ps q].
      destruct IH as [IH ->]. split; [|done]. rewrite (omap_cons_Some _ _ d), IH; [done|].
      by apply directive_show. }
  specialize (Hp ""%string (or_introl eq_refl)). destruct (parts _ _ _) as [ps q].
  destruct Hp as [-> ->]. by rewrite app_nil_r.
Qed.

(** ** A concrete header map *)

(** An association list; a name is made of letters, digits and dashes, a value of
    printable ASCII. *)
#[local] Notation toy_map := (list (string * string)).
Definition toy_name (s : string) : option string :=
  let l := to_ascii_lowercase s in if plain_name l then Some l else None.
Definition toy_get_all (h : toy_map) (k : string) : list string :=
  (filter (λ kv, str_eqb kv.1 k) h).*2.
Definition toy_other (k x : string) : bool := negb (bool_decide (toy_name k = Some x)).
Definition toy_canonical (x : string) : bool := bool_decide (toy_name x = Some x).
Definition toy_remove (k : string) (h : toy_map) : toy_map := filter (λ kv, toy_other k kv.1) h.
Definition toy_put (k v : string) (h : toy_map) : toy_map :=
  match toy_name k with Some c => h ++ [(c, v)] | None => h end.
Definition toy_valid (h : toy_map) : toy_map := filter (λ kv, toy_canonical kv.1) h.
Definition visible (c : ascii) : bool := (32 <=? code c) && (code c <? 127).
#[export] Instance toy_headers : HttpHeaders toy_map string := {
  hm_new := [];
  hm_get_all := toy_get_all;
  hm_remove := toy_remove;
  hm_append := toy_put;
  hm_insert k v h := toy_put k v (toy_remove k h);
  hm_iter := toy_valid;
  hv_to_str v := if string_all visible v then Some v else None;
  hv_from_str v := Some v;
  hn_from_bytes := toy_name;
  parse_http_date := parse_i64;
  fmt_http_date := show_u64;
}.

Lemma toy_name_canonical k c : toy_name k = Some c → c = to_ascii_lowercase k ∧ toy_name c = Some c.
Proof.
  unfold toy_name. destruct (plain_name (to_ascii_lowercase k)) eqn:Hp; [|done]. intros [= <-].
  by rewrite to_ascii_lowercase_idem, Hp.
Qed.
Lemma toy_get_all_app h1 h2 k : toy_get_all (h1 ++ h2) k = toy_get_all h1 k ++ toy_get_all h2 k.
Proof. unfold toy_get_all. by rewrite filter_app, fmap_app. Qed.
Lemma toy_get_all_one c v k : toy_get_all [(c, v)] k = if str_eqb k c then [v] else [].
Proof.
  unfold toy_get_all. destruct (str_eqb k c) eqn:Hk.
  - apply str_eqb_eq in Hk as ->. rewrite filter_cons_True; [done|]. cbn [fst]. by rewrite str_eqb_refl.
  - rewrite filter_cons_False; [done|]. cbn [fst]. apply str_eqb_neq in Hk.
    intros Ht. apply Hk. symmetry. apply str_eqb_eq. by destruct (str_eqb c k).
Qed.
Lemma toy_get_all_filter (Q : string → bool) h k :
  toy_get_all (filter (λ kv, Q kv.1) h) k = if Q k then toy_get_all h k else [].
Proof.
  unfold toy_get_all. induction h as [|[n v] h IH]; [by destruct (Q k)|].
  rewrite !(filter_cons _ (n, v)). cbn [fst]. destruct (str_eqb n k) eqn:Hn.
  - apply str_eqb_eq in Hn as ->. destruct (Q k) eqn:Hk.
    + rewrite decide_True, filter_cons_True by (cbn [fst]; by rewrite ?Hk, ?str_eqb_refl).
      rewrite (decide_True (P:=true)) by done. rewrite !fmap_cons. by rewrite IH.
    + rewrite (decide_False (P:=false)) by tauto. exact IH.
  - rewrite (decide_False (P:=false)) by tauto. destruct (Q n) eqn:Hq.
    + rewrite (decide_True (P:=true)), filter_cons_False; [exact IH| |done].
      cbn [fst]. rewrite Hn. tauto.
    + rewrite (decide_False (P:=false)) by tauto. exact IH.
Qed.

#[export] Instance toy_headers_laws : HttpHeadersLaws toy_map string.
Proof.
  assert (Hput : ∀ k v h j, toy_name k = Some k →
    toy_get_all (toy_put k v h) j = if str_eqb j k then toy_get_all h j ++ [v] else toy_get_all h j).
  { intros k v h j Hk. unfold toy_put. rewrite Hk, toy_get_all_app, toy_get_all_one.
    destruct (str_eqb j k); [done|by rewrite app_nil_r]. }
  assert (Hrem : ∀ k h j, toy_get_all (toy_remove k h) j =
    if bool_decide (toy_name k = Some j) then [] else toy_get_all h j).
  { intros k h j. unfold toy_remove.
    rewrite (toy_get_all_filter (toy_other k)). unfold toy_other.
    by destruct (bool_decide (toy_name k = Some j)). }
  split.
  - intros k Hk. change (toy_name k = Some k). unfold toy_name.
    assert (to_ascii_lowercase k = k) as ->; [|by rewrite Hk].
    unfold plain_name in Hk. apply andb_true_iff in Hk as [_ Hk]. by apply name_lowercase.
  - apply toy_name_canonical.
  - done.
  - intros k v h j Hk _. by apply Hput.
  - intros k v h j Hk _. change (toy_get_all (toy_put k v (toy_remove k h)) j =
      if str_eqb j k then [v] else toy_get_all h j).
    rewrite Hput, Hrem by done. destruct (str_eqb j k) eqn:Hj.
    + apply str_eqb_eq in Hj as ->. by rewrite bool_decide_true.
    + rewrite bool_decide_false; [done|]. apply str_eqb_neq in Hj. intros Heq. change (toy_name k = Some k) in Hk. congruence.
  - intros k h j _. apply Hrem.
  - intros h k v Hin. apply list_elem_of_filter in Hin as [Hin _]. by apply bool_decide_unpack in Hin.
  - intros h k Hk. change (toy_get_all (toy_valid h) k = toy_get_all h k). unfold toy_valid.
    rewrite (toy_get_all_filter toy_canonical). unfold toy_canonical.
    by rewrite bool_decide_true.
  - intros v s. cbn. destruct (string_all visible v); congruence.
  - intros t. eexists. reflexivity.
Qed.

Definition toy_response : toy_map :=
  [("date", "1000"); ("etag", String dquote ("v1" +:+ String dquote "")); ("age", "5");
   ("cache-control", "max-age=60"); ("connection", "x-hop"); ("x-hop", "1");
   ("x-kept", "one"); ("x-kept", "two"); ("content-length", "9")]%string.
Definition toy_policy : Policy := from_response toy_response 1001 1002.

Lemma saved_restore_witness :
  hm_get_all (restore (saved toy_response)) "x-kept" = ["one"; "two"]%string ∧
  hm_get_all (restore (saved toy_response)) "x-hop" = [].
Proof. split; rewrite (saved_restore (H:=toy_map)) by (vm_compute; reflexivity); vm_compute; reflexivity. Defined.

Lemma fresh_spec_witness :
  fresh toy_policy ([("cache-control", "max-age=50, min-fresh=3")]%string : toy_map) 1020 = true ∧
  age toy_policy 1020 < lifetime toy_policy.
Proof.
  assert (fresh toy_policy ([("cache-control", "max-age=50, min-fresh=3")]%string : toy_map) 1020 = true)
    as Hf by (vm_compute; reflexivity).
  split; [exact Hf|]. apply (fresh_spec (H:=toy_map)) in Hf as (_ & _ & Hage & _). exact Hage.
Defined.

Lemma fresh_interval_witness :
  fresh toy_policy ([] : toy_map) 1050 = true ∧ fresh toy_policy ([] : toy_map) 1010 = true ∧
  fresh toy_policy ([] : toy_map) 1056 = false.
Proof.
  split_and!; [vm_compute; reflexivity| |vm_compute; reflexivity].
  apply (fresh_interval (H:=toy_map) toy_policy [] 1050 1010).
  - split; vm_compute; discriminate.
  - vm_compute. reflexivity.
  - split; vm_compute; discriminate.
Defined.

Lemma range_validator_sound_witness :
  matches_range toy_policy toy_response = true.
Proof.
  apply (range_validator_sound (H:=toy_map) toy_response 1001 1002
    (String dquote ("v1" +:+ String dquote ""))); vm_compute; reflexivity.
Defined.

Lemma merge_validation_spec_witness :
  ∃ m v, merge_validation (saved toy_response) ([("age", "7"); ("x-kept", "three")]%string : toy_map) 2000
           = Some m ∧ hv_from_str (fmt_http_date (HttpHeaders:=toy_headers) 2000) = Some v ∧
         hm_get_all m "x-kept" = ["three"%string].
Proof.
  destruct (merge_validation_spec (H:=toy_map) (saved toy_response)
    [("age", "7"); ("x-kept", "three")]%string 2000 "x-kept") as (m & v & Hm & Hv & Hk);
    [vm_compute; reflexivity|].
  exists m, v. split_and!; [exact Hm|exact Hv|]. rewrite Hk. vm_compute. reflexivity.
Defined.

Lemma directives_roundtrip_witness :
  let ds := [("max-age", Some "60"); ("private", Some "set-cookie, x"); ("no-cache", None)]%string in
  text_directives (join ", " (show_directive <$> ds)) = ds.
Proof.
  apply directives_roundtrip; [discriminate|].
  repeat constructor; vm_compute; reflexivity.
Defined.
