(* ===== verification/Storage.v ===== *)
(** * Resource cache: the storage state

    The state of [Storage] in [backend/main/src/resource_cache/store.rs], the tables of
    [backend/main/src/resource_cache/sqlite.rs] and the operating system under them: files,
    clocks, reference counts. Every statement, transaction boundary and file operation goes
    through [io], which may fail or be the one the process dies in; after a crash nothing
    reaches the disk any more. An open handle is the name of its file. *)
From S2P Require Import Prelude Text Format Policy.
From stdpp Require Import options.

Open Scope Z_scope.

(** ** Metadata *)

Record Metadata := mk_Metadata {
  m_key : string; m_provider : Z; m_kind : Z; m_generation : string; m_geometry : Geometry;
  m_headers : Headers; m_policy : Policy; m_target : string; m_ranges : bool; m_layout : Layout
}.
Record ObjectMetadata := mk_ObjectMetadata {
  om_key : string; om_group : string; om_provider : Z; om_length : Z; om_headers : Headers;
  om_policy : Policy; om_target : string; om_effective_url : string
}.

(** ** Tables *)

Record VersionRow := mk_VersionRow {
  v_key : string; v_provider : Z; v_kind : Z; v_generation : string; v_meta : string;
  v_blocks : list Z; v_last_use : Z; v_obsolete : Z
}.
Record CompleteRow := mk_CompleteRow {
  c_ready : Z; c_length : Z; c_digest : list Z; c_retry_at : Z; c_format : Z
}.
Record LeaseRow := mk_LeaseRow { l_version : Z; l_client : string; l_expires : Z }.
Record SegmentRow := mk_SegmentRow {
  s_rowid : Z; s_token : string; s_length : Z; s_last_use : Z; s_deleting : Z
}.
Record PackRow := mk_PackRow {
  p_rowid : Z; p_group : string; p_provider : Z; p_length : Z; p_last_use : Z; p_deleting : Z
}.
Record ObjectRow := mk_ObjectRow {
  o_pack : string; o_offset : Z; o_length : Z; o_digest : list Z; o_meta : string
}.
Record Db := mk_Db {
  db_versions : gmap Z VersionRow;
  db_complete : gmap Z CompleteRow;
  db_leases : gmap string LeaseRow;
  db_clock : option Z;
  db_segments : gmap (Z * Z) SegmentRow;
  db_packs : gmap string PackRow;
  db_objects : gmap string ObjectRow;
}.

(** Third-party code: [serde_json] for the metadata, [uuid], and the file system's block
    accounting ([st_blocks * 512] for a file of a given length; the database's own files). *)
Class Platform := {
  meta_to_json : Metadata → option string;
  meta_from_json : string → option Metadata;
  object_to_json : ObjectMetadata → option string;
  object_from_json : string → option ObjectMetadata;
  new_token : nat → string;
  uuid_bytes : string → option (list Z);
  allocated : Z → Z;
  database_bytes : nat → Db → Z;
}.
(** What the code relies on: metadata survives serialisation and its [u64] fields are in
    range, a fresh [Uuid::simple] is 32
    hexadecimal digits that parse to 16 bytes, and no file occupies a negative space. *)
Class PlatformLaws `{Platform} : Prop := {
  meta_roundtrip m s : meta_to_json m = Some s → meta_from_json s = Some m;
  meta_machine s m : meta_from_json s = Some m → is_u64 (g_length (m_geometry m));
  object_roundtrip m s : object_to_json m = Some s → object_from_json s = Some m;
  new_token_simple n : slen (new_token n) = 32 ∧ string_all is_hexdigit (new_token n) = true;
  new_token_bytes n : ∃ b, uuid_bytes (new_token n) = Some b ∧ length b = 16%nat;
  allocated_nonneg n : 0 ≤ allocated n;
  database_nonneg n d : 0 ≤ database_bytes n d;
}.

Definition with_versions (f : gmap Z VersionRow → gmap Z VersionRow) (d : Db) : Db :=
  mk_Db (f (db_versions d)) (db_complete d) (db_leases d) (db_clock d) (db_segments d)
        (db_packs d) (db_objects d).
Definition with_complete (f : gmap Z CompleteRow → gmap Z CompleteRow) (d : Db) : Db :=
  mk_Db (db_versions d) (f (db_complete d)) (db_leases d) (db_clock d) (db_segments d)
        (db_packs d) (db_objects d).
Definition with_leases (f : gmap string LeaseRow → gmap string LeaseRow) (d : Db) : Db :=
  mk_Db (db_versions d) (db_complete d) (f (db_leases d)) (db_clock d) (db_segments d)
        (db_packs d) (db_objects d).
Definition with_clock (f : option Z → option Z) (d : Db) : Db :=
  mk_Db (db_versions d) (db_complete d) (db_leases d) (f (db_clock d)) (db_segments d)
        (db_packs d) (db_objects d).
Definition with_segments (f : gmap (Z * Z) SegmentRow → gmap (Z * Z) SegmentRow) (d : Db) : Db :=
  mk_Db (db_versions d) (db_complete d) (db_leases d) (db_clock d) (f (db_segments d))
        (db_packs d) (db_objects d).
Definition with_packs (f : gmap string PackRow → gmap string PackRow) (d : Db) : Db :=
  mk_Db (db_versions d) (db_complete d) (db_leases d) (db_clock d) (db_segments d)
        (f (db_packs d)) (db_objects d).
Definition with_objects (f : gmap string ObjectRow → gmap string ObjectRow) (d : Db) : Db :=
  mk_Db (db_versions d) (db_complete d) (db_leases d) (db_clock d) (db_segments d)
        (db_packs d) (f (db_objects d)).

Definition v_with_blocks (b : list Z) (r : VersionRow) : VersionRow :=
  mk_VersionRow (v_key r) (v_provider r) (v_kind r) (v_generation r) (v_meta r) b
    (v_last_use r) (v_obsolete r).
Definition v_with_meta (m : string) (r : VersionRow) : VersionRow :=
  mk_VersionRow (v_key r) (v_provider r) (v_kind r) (v_generation r) m (v_blocks r)
    (v_last_use r) (v_obsolete r).
Definition v_with_last_use (t : Z) (r : VersionRow) : VersionRow :=
  mk_VersionRow (v_key r) (v_provider r) (v_kind r) (v_generation r) (v_meta r) (v_blocks r)
    t (v_obsolete r).
Definition v_with_obsolete (o : Z) (r : VersionRow) : VersionRow :=
  mk_VersionRow (v_key r) (v_provider r) (v_kind r) (v_generation r) (v_meta r) (v_blocks r)
    (v_last_use r) o.

(** A new rowid: one more than the largest. *)
Definition next_rowid (ids : list Z) : Z := foldr Z.max 0 ids + 1.

(** ** The process *)

Record Resident := mk_Resident {
  r_meta : Metadata; r_index : Index; r_file : option string; r_lease : option nat; r_plain : bool
}.
Definition r_with_index (i : Index) (r : Resident) : Resident :=
  mk_Resident (r_meta r) i (r_file r) (r_lease r) (r_plain r).
Definition r_with_meta (m : Metadata) (r : Resident) : Resident :=
  mk_Resident m (r_index r) (r_file r) (r_lease r) (r_plain r).
Definition r_with_lease (l : option nat) (r : Resident) : Resident :=
  mk_Resident (r_meta r) (r_index r) (r_file r) l (r_plain r).
Definition r_with_plain (f : string) (r : Resident) : Resident :=
  mk_Resident (r_meta r) (r_index r) (Some f) (r_lease r) true.

(** A [Version] handle: it owns one reference of the lease it names. *)
Record Version := mk_Version { ver_id : Z; ver_meta : Metadata; ver_lease : nat }.
Record Build := mk_Build { b_id : Z; b_remaining : Z }.
Record Usage := mk_Usage { u_image : Z; u_audio : Z; u_metadata : Z }.

(** What one operation on the outside does: it works, it fails after writing some bytes, or
    the process dies in it. *)
Inductive Outcome := Fine | Fails (written : nat) | Crash (written : nat).
Inductive Entry := Regular (bytes : list Z) | Special.

(** Strong counts of the [Arc]s (leases and pins), and the leases whose [valid] is false. *)
Record Arcs := mk_Arcs { a_counts : gmap nat nat; a_invalid : gset nat; a_next : nat }.
(** The clocks: [SystemTime] in seconds and microseconds, [Instant] since [started]. *)
Record Env := mk_Env { e_now : Z; e_micros : Z; e_elapsed : Z }.
Record World := mk_World { w_outcomes : list Outcome; w_dead : bool; w_tokens : nat; w_env : Env }.
Record Clocks := mk_Clocks {
  k_segment : Z; k_clock : Z; k_uncertain : bool; k_grace : option Z
}.

Record Storage := mk_Storage {
  st_db : Db;
  st_files : gmap string Entry;
  st_versions : gmap Z Resident;
  st_pins : gmap (Z * Z) nat;
  st_sizes : gmap string (Z * Z);
  st_garbage : gset string;
  st_building : option Build;
  st_scan_cursor : Z;
  st_clocks : Clocks;
  st_arcs : Arcs;
  st_world : World;
  st_capacity : Z;
  st_files_enabled : bool;
  st_stopped : bool;
}.

Definition set_db (f : Db → Db) (s : Storage) : Storage :=
  mk_Storage (f (st_db s)) (st_files s) (st_versions s) (st_pins s) (st_sizes s) (st_garbage s)
    (st_building s) (st_scan_cursor s) (st_clocks s) (st_arcs s) (st_world s) (st_capacity s)
    (st_files_enabled s) (st_stopped s).
Definition set_files (f : gmap string Entry → gmap string Entry) (s : Storage) : Storage :=
  mk_Storage (st_db s) (f (st_files s)) (st_versions s) (st_pins s) (st_sizes s) (st_garbage s)
    (st_building s) (st_scan_cursor s) (st_clocks s) (st_arcs s) (st_world s) (st_capacity s)
    (st_files_enabled s) (st_stopped s).
Definition set_versions (f : gmap Z Resident → gmap Z Resident) (s : Storage) : Storage :=
  mk_Storage (st_db s) (st_files s) (f (st_versions s)) (st_pins s) (st_sizes s) (st_garbage s)
    (st_building s) (st_scan_cursor s) (st_clocks s) (st_arcs s) (st_world s) (st_capacity s)
    (st_files_enabled s) (st_stopped s).
Definition set_pins (f : gmap (Z * Z) nat → gmap (Z * Z) nat) (s : Storage) : Storage :=
  mk_Storage (st_db s) (st_files s) (st_versions s) (f (st_pins s)) (st_sizes s) (st_garbage s)
    (st_building s) (st_scan_cursor s) (st_clocks s) (st_arcs s) (st_world s) (st_capacity s)
    (st_files_enabled s) (st_stopped s).
Definition set_sizes (f : gmap string (Z * Z) → gmap string (Z * Z)) (s : Storage) : Storage :=
  mk_Storage (st_db s) (st_files s) (st_versions s) (st_pins s) (f (st_sizes s)) (st_garbage s)
    (st_building s) (st_scan_cursor s) (st_clocks s) (st_arcs s) (st_world s) (st_capacity s)
    (st_files_enabled s) (st_stopped s).
Definition set_garbage (f : gset string → gset string) (s : Storage) : Storage :=
  mk_Storage (st_db s) (st_files s) (st_versions s) (st_pins s) (st_sizes s) (f (st_garbage s))
    (st_building s) (st_scan_cursor s) (st_clocks s) (st_arcs s) (st_world s) (st_capacity s)
    (st_files_enabled s) (st_stopped s).
Definition set_building (b : option Build) (s : Storage) : Storage :=
  mk_Storage (st_db s) (st_files s) (st_versions s) (st_pins s) (st_sizes s) (st_garbage s)
    b (st_scan_cursor s) (st_clocks s) (st_arcs s) (st_world s) (st_capacity s)
    (st_files_enabled s) (st_stopped s).
Definition set_cursor (c : Z) (s : Storage) : Storage :=
  mk_Storage (st_db s) (st_files s) (st_versions s) (st_pins s) (st_sizes s) (st_garbage s)
    (st_building s) c (st_clocks s) (st_arcs s) (st_world s) (st_capacity s)
    (st_files_enabled s) (st_stopped s).
Definition set_clocks (f : Clocks → Clocks) (s : Storage) : Storage :=
  mk_Storage (st_db s) (st_files s) (st_versions s) (st_pins s) (st_sizes s) (st_garbage s)
    (st_building s) (st_scan_cursor s) (f (st_clocks s)) (st_arcs s) (st_world s) (st_capacity s)
    (st_files_enabled s) (st_stopped s).
Definition set_arcs (f : Arcs → Arcs) (s : Storage) : Storage :=
  mk_Storage (st_db s) (st_files s) (st_versions s) (st_pins s) (st_sizes s) (st_garbage s)
    (st_building s) (st_scan_cursor s) (st_clocks s) (f (st_arcs s)) (st_world s) (st_capacity s)
    (st_files_enabled s) (st_stopped s).
Definition set_world (f : World → World) (s : Storage) : Storage :=
  mk_Storage (st_db s) (st_files s) (st_versions s) (st_pins s) (st_sizes s) (st_garbage s)
    (st_building s) (st_scan_cursor s) (st_clocks s) (st_arcs s) (f (st_world s)) (st_capacity s)
    (st_files_enabled s) (st_stopped s).
Definition set_stopped (s : Storage) : Storage :=
  mk_Storage (st_db s) (st_files s) (st_versions s) (st_pins s) (st_sizes s) (st_garbage s)
    (st_building s) (st_scan_cursor s) (st_clocks s) (st_arcs s) (st_world s) (st_capacity s)
    (st_files_enabled s) true.

Definition M (A : Type) : Type := ST Storage string A.
Definition panicked : string := "panicked".

(** ** The outside world *)

Definition spend (w : World) : World :=
  mk_World (tail (w_outcomes w)) (w_dead w) (w_tokens w) (w_env w).
Definition die (w : World) : World := mk_World [] true (w_tokens w) (w_env w).

(** One operation on the outside; [partial] is what a failing write leaves behind. *)
Definition io_with (partial : nat → Storage → Storage) : M unit := λ s,
  if w_dead (st_world s) then (Err "crashed"%string, s)
  else match w_outcomes (st_world s) with
       | [] => (Ok tt, s)
       | Fine :: _ => (Ok tt, set_world spend s)
       | Fails n :: _ => (Err "input/output error"%string, partial n (set_world spend s))
       | Crash n :: _ => (Err "crashed"%string, set_world die (partial n s))
       end.
Definition io : M unit := io_with (λ _ s, s).

(** A statement outside a transaction, and a query. *)
Definition exec_db (f : Db → Db) : M unit := io ;; modify (set_db f).
Definition query {A} (f : Db → A) : M A := io ;; gets (f ∘ st_db).

(** [BEGIN IMMEDIATE], and the rest of a transaction: its statements and [COMMIT], or
    [ROLLBACK] to the tables it began with. The result is a value: the callers clean up. *)
Definition begin_immediate : M Db := io ;; gets st_db.
Definition finish_txn {A} (before : Db) (m : M A) : M (result string A) :=
  r ← attempt (a ← m; io ;; mret a);
  match r with
  | Ok a => mret (Ok a)
  | Err e => modify (set_db (λ _, before)) ;; mret (Err e)
  end.
Definition txn {A} (m : M A) : M A := before ← begin_immediate; finish_txn before m ≫= lift.

(** *** Files *)

Definition file_bytes (name : string) : M (list Z) :=
  io ;;
  e ← gets (λ s, st_files s !! name);
  match e with
  | Some (Regular b) => mret b
  | _ => fail "no such file"%string
  end.
(** [symlink_metadata(path)?.file_type().is_file()]. *)
Definition regular_file (name : string) : M unit :=
  io ;;
  e ← gets (λ s, st_files s !! name);
  match e with
  | Some (Regular _) => mret tt
  | Some Special => fail "invalid cache file type"%string
  | None => fail "no such file"%string
  end.
Definition file_len (name : string) : M Z := b ← file_bytes name; mret (zlen b).
Definition create_new (name : string) : M unit :=
  io ;;
  e ← gets (λ s, st_files s !! name);
  match e with
  | None => modify (set_files <[name := Regular []]>)
  | Some _ => fail "file exists"%string
  end.
(** Bytes at an offset; a hole reads as zeroes. *)
Definition overwrite (b : list Z) (offset : Z) (data : list Z) : list Z :=
  let b := b ++ replicate (Z.to_nat (offset - zlen b)) 0 in
  take (Z.to_nat offset) b ++ data ++ drop (Z.to_nat offset + length data) b.
Definition put_bytes (name : string) (offset : Z) (data : list Z) (s : Storage) : Storage :=
  match st_files s !! name with
  | Some (Regular b) => set_files <[name := Regular (overwrite b offset data)]> s
  | _ => s
  end.
(** [write_all]: a failure may leave a prefix behind. *)
Definition write_all (name : string) (offset : Z) (data : list Z) : M unit :=
  io_with (λ n, put_bytes name offset (take n data)) ;; modify (put_bytes name offset data).
Definition set_len (name : string) (n : Z) : M unit :=
  io ;;
  modify (λ s, match st_files s !! name with
               | Some (Regular b) =>
                 set_files <[name := Regular (take (Z.to_nat n) (b ++ replicate (Z.to_nat (n - zlen b)) 0))]> s
               | _ => s
               end).
Definition read_exact (name : string) (offset length : Z) : M (list Z) :=
  b ← file_bytes name; lift (ok_or (slice b offset (offset + length)) "failed to fill buffer"%string).
Definition private_file (name : string) : M unit := io.
Definition sync_all (name : string) : M unit := io.
Definition sync_directory : M unit := io.
Definition rename (from to : string) : M unit :=
  io ;;
  e ← gets (λ s, st_files s !! from);
  match e with
  | Some e => modify (set_files (λ m, <[to := e]> (delete from m)))
  | None => fail "no such file"%string
  end.

Definition fresh_token `{Platform} : M string :=
  s ← get_st;
  modify (set_world (λ w, mk_World (w_outcomes w) (w_dead w) (S (w_tokens w)) (w_env w))) ;;
  mret (new_token (w_tokens (st_world s))).

(** *** Reference counts *)

Definition arc_live (a : Arcs) (x : nat) : bool :=
  match a_counts a !! x with Some (S _) => true | _ => false end.
Definition new_arc : M nat :=
  s ← get_st;
  let x := a_next (st_arcs s) in
  modify (set_arcs (λ a, mk_Arcs (<[x := 1%nat]> (a_counts a)) (a_invalid a) (S x))) ;; mret x.
Definition clone_arc (x : nat) : M unit :=
  modify (set_arcs (λ a, mk_Arcs (alter S x (a_counts a)) (a_invalid a) (a_next a))).
Definition drop_arc (x : nat) : M unit :=
  modify (set_arcs (λ a, mk_Arcs (alter pred x (a_counts a)) (a_invalid a) (a_next a))).
(** [Weak::upgrade]: a live reference is cloned. *)
Definition upgrade_or_new (w : option nat) : M nat :=
  s ← get_st;
  match w with
  | Some x => if arc_live (st_arcs s) x then clone_arc x ;; mret x else new_arc
  | None => new_arc
  end.
Definition leased (s : Storage) (r : Resident) : bool := is_some_and (r_lease r) (arc_live (st_arcs s)).
Definition pinned (s : Storage) (key : Z * Z) : bool :=
  is_some_and (st_pins s !! key) (arc_live (st_arcs s)).
Definition is_valid (s : Storage) (v : Version) : bool := bool_decide (ver_lease v ∉ a_invalid (st_arcs s)).
Definition invalidate_lease (x : nat) : M unit :=
  modify (set_arcs (λ a, mk_Arcs (a_counts a) ({[x]} ∪ a_invalid a) (a_next a))).
Definition drop_version (v : Version) : M unit := drop_arc (ver_lease v).

(** ** Names *)

Definition valid_generation (value : string) : bool :=
  (slen value =? 32) && string_all is_hexdigit value.
Definition data_name (generation : string) : string := generation +:+ ".data".
Definition file_name (generation suffix : string) : string := generation +:+ "." +:+ suffix.

(** [materialize::managed_name], [segments::managed_name] and [objects::managed_name]. *)
Definition managed_plain_name (name : string) : bool :=
  existsb (λ suffix, is_some_and (strip_suffix suffix name) valid_generation)
    [".data"; ".ok.tmp"; ".ok"]%string.
Definition managed_segment_name (name : string) : bool :=
  match split_char (chr 46) name with
  | [a; b; c; d] =>
    valid_generation a && (slen b =? 16) && string_all is_hexdigit b && valid_generation c
    && str_eqb d "seg"
  | _ => false
  end.
Definition managed_pack_name (value : string) : bool :=
  is_some_and (strip_suffix ".pack" value)
    (λ s, (slen s =? 32) && string_all is_hexdigit s).
Definition managed_name (name : string) : bool :=
  managed_plain_name name || managed_segment_name name || managed_pack_name name.

(** [str::as_bytes]. *)
Fixpoint bytes_of (s : string) : list Z :=
  match s with EmptyString => [] | String c s => code c :: bytes_of s end.

(** ** Shared steps *)

(** [Storage::remove_managed]: a deletion that fails is remembered for a later attempt. *)
Definition remove_managed (name : string) : M unit :=
  guard_st (managed_name name) "unmanaged cache path" ;;
  r ← attempt (io ;; modify (set_files (delete name)) ;; sync_directory);
  match r with
  | Err e => modify (set_garbage (λ g, {[name]} ∪ g)) ;; fail e
  | Ok _ => modify (set_garbage (λ g, g ∖ {[name]})) ;; modify (set_sizes (delete name))
  end.
Definition cleanup_garbage : M unit :=
  s ← get_st;
  foldr (λ name k, attempt (remove_managed name) ;; k) (mret tt) (take 64 (elements (st_garbage s))).

(** [for] loops, and loops whose failures are only logged. *)
Fixpoint for_each {A} (f : A → M unit) (l : list A) : M unit :=
  match l with [] => mret tt | x :: l => f x ;; for_each f l end.

Definition load_hit (id : Z) : M Resident :=
  r ← gets (λ s, st_versions s !! id); lift (ok_or r panicked).
Definition set_index (id : Z) (i : Index) : M unit :=
  modify (set_versions (alter (r_with_index i) id)).

(** [Database::patch]: the changed byte ranges of a version's index. *)
Definition patch (id : Z) (bytes : list Z) (ranges : list (Z * Z)) : M unit :=
  row ← query (λ d, db_versions d !! id);
  row ← lift (ok_or row "no such rowid"%string);
  b ← lift (patch_blob (v_blocks row) bytes ranges);
  modify (set_db (with_versions (alter (v_with_blocks b) id))).

Definition commit (id : Z) : M unit :=
  value ← gets (λ s, st_versions s !! id);
  value ← lift (ok_or value "version not resident"%string);
  let '(ranges, index) := Index_dirty (r_index value) in
  set_index id index ;;
  match ranges with
  | [] => mret tt
  | _ => txn (patch id (ix_bytes index) ranges) ;; set_index id (Index_committed index)
  end.

(** [Storage::reserve_index]: each round drops one resident, so one more than their number
    is enough ([reserve_index_bounds]). *)
Definition INDEX_BUDGET : Z := 64 * 1024 * 1024.
Definition MAX_RESIDENT : Z := 128.
Definition index_bytes (s : Storage) : Z :=
  foldr Z.add 0 ((λ kv, zlen (ix_bytes (r_index kv.2))) <$> map_to_list (st_versions s)).
Fixpoint reserve_loop (fuel : nat) (required : Z) : M unit :=
  s ← get_st;
  if (index_bytes s + required <=? INDEX_BUDGET)
     && (Z.of_nat (size (st_versions s)) <? MAX_RESIDENT)
  then mret tt
  else match fuel with
  | O => fail "unreachable"%string
  | S fuel =>
    old ← lift (ok_or (head (filter (λ kv, negb (leased s kv.2)) (map_to_list (st_versions s))))
                  "resource index budget reached"%string);
    commit old.1 ;; modify (set_versions (delete old.1)) ;; reserve_loop fuel required
  end.
Definition reserve_index (required : Z) : M unit :=
  s ← get_st; reserve_loop (S (size (st_versions s))) required.

(** [Storage::check_active]. *)
Definition check_active (id : Z) : M unit :=
  row ← query (λ d, db_versions d !! id);
  guard_st (is_some_and row (λ r, negb (v_obsolete r =? 2))) "provider invalidated".

(** [Storage::usage]: kind 1 is audio. *)
Section Usage.
Context `{Platform}.
Definition sizes_total (audio : bool) (s : Storage) : Z :=
  foldr Z.add 0 ((λ kv : string * (Z * Z), if eqb (kv.2.2 =? 1) audio then kv.2.1 else 0)
                   <$> map_to_list (st_sizes s)).
Definition database_total (s : Storage) : Z :=
  database_bytes 0 (st_db s) + database_bytes 1 (st_db s) + database_bytes 2 (st_db s).
Definition usage : M Usage :=
  io ;; io ;; io ;;
  gets (λ s, mk_Usage (sizes_total false s) (sizes_total true s) (database_total s)).
Definition usage_bytes (u : Usage) : Z := u_image u + u_audio u + u_metadata u.
End Usage.

(** ** The lease clock: [lease_now], [persist_clock], [expire_leases] *)

Definition lease_now (s : Storage) : Z := sat_add (k_clock (st_clocks s)) (e_elapsed (w_env (st_world s))).
Definition persist_clock : M unit :=
  s ← get_st;
  exec_db (with_clock (λ old, Some (match old with
                                    | Some t => Z.max t (lease_now s) | None => lease_now s end))).
Definition set_uncertain (b : bool) : Storage → Storage :=
  set_clocks (λ k, mk_Clocks (k_segment k) (k_clock k) b (k_grace k)).
Definition expire_leases : M unit :=
  s ← get_st;
  let now := e_now (w_env (st_world s)) in
  modify (λ s, if now <? k_clock (st_clocks s) then set_uncertain true s else s) ;;
  modify (λ s, if k_uncertain (st_clocks s) && (lease_now s <=? now) then set_uncertain false s else s) ;;
  s ← get_st;
  if negb (k_uncertain (st_clocks s))
     && is_none_or (k_grace (st_clocks s)) (λ until, until <=? e_elapsed (w_env (st_world s)))
  then exec_db (with_leases (filter (λ kv, lease_now s < l_expires kv.2)))
  else mret tt.
Definition externally_pinned (id : Z) : M bool :=
  expire_leases ;;
  query (λ d, existsb (λ kv, l_version kv.2 =? id) (map_to_list (db_leases d))).

(** [Storage::segment_tick]: strictly increasing unless it saturates. *)
Definition segment_tick : M Z :=
  s ← get_st;
  let now := Z.min (e_micros (w_env (st_world s))) i64_max in
  let t := Z.max now (sat_add (k_segment (st_clocks s)) 1) in
  modify (set_clocks (λ k, mk_Clocks t (k_clock k) (k_uncertain k) (k_grace k))) ;; mret t.

(** ORDER BY: a stable sort of rows given in rowid order, by a list of integer keys. *)
Fixpoint lex_le (a b : list Z) : bool :=
  match a, b with
  | x :: a, y :: b => (x <? y) || ((x =? y) && lex_le a b)
  | [], _ => true
  | _, [] => false
  end.
Fixpoint insert_on {A} (key : A → list Z) (x : A) (l : list A) : list A :=
  match l with
  | [] => [x]
  | y :: l' => if lex_le (key x) (key y) then x :: l else y :: insert_on key x l'
  end.
Definition sort_on {A} (key : A → list Z) (l : list A) : list A := foldr (insert_on key) [] l.

Lemma insert_on_perm {A} (key : A → list Z) x l : insert_on key x l ≡ₚ x :: l.
Proof.
  induction l as [|y l IH]; cbn; [done|]. destruct (lex_le _ _); [done|]. rewrite IH. constructor.
Qed.
Lemma sort_on_perm {A} (key : A → list Z) l : sort_on key l ≡ₚ l.
Proof. induction l as [|x l IH]; cbn; [done|]. by rewrite insert_on_perm, IH. Qed.
