(* ===== verification/Segments.v ===== *)
(** * Resource cache: segmented versions

    Models [backend/main/src/resource_cache/segments.rs] up to writing, which needs eviction
    and is in [Store], and [Storage::load] of [store.rs], which repairs the segments of the
    version it loads. A version with the [Segments] layout keeps its blocks in one file per
    segment, found through the [segments] table. *)
From S2P Require Import Prelude Text Format Policy Storage.
From stdpp Require Import options.

Open Scope Z_scope.

Section Segments.
Context {D : Digest} `{!Platform}.

Record Segment := mk_Segment { sg_number : Z; sg_token : string; sg_length : Z; sg_deleting : bool }.

(** ** Names and headers *)

(** [{:016x}]. *)
Fixpoint hex_fuel (n : nat) (x : Z) (acc : string) : string :=
  match n with O => acc | S n => hex_fuel n (x / 16) (String (hex_digit (x mod 16)) acc) end.
Definition hex16 (x : Z) : string := hex_fuel 16 x "".
Definition Segment_name (sg : Segment) (meta : Metadata) : string :=
  m_generation meta +:+ "." +:+ hex16 (sg_number sg) +:+ "." +:+ sg_token sg +:+ ".seg".

(** The bytes of [QCMSEG01]. *)
Definition SEGMENT_MAGIC : list Z := [81; 67; 77; 83; 69; 71; 48; 49].
Definition Segment_header (sg : Segment) (meta : Metadata) : result string (list Z) :=
  token ← ok_or (uuid_bytes (sg_token sg)) "invalid UUID"%string;
  h ← hash (bytes_of (m_generation meta));
  let header := replicate 64 0 in
  let header := write_at header 0 SEGMENT_MAGIC in
  let header := write_at header 8 (to_le 8 (sg_length sg)) in
  let header := write_at header 16 (to_le 8 (sg_number sg)) in
  let header := write_at header 24 (to_le 8 (g_block (m_geometry meta))) in
  let header := write_at header 32 token in
  mret (write_at header 48 (take 16 h)).

(** ** The segment clock and the working window *)

Definition restore_segment_clock : M unit :=
  n ← query (λ d, Z.max (foldr Z.max 0 ((λ kv, s_last_use kv.2) <$> map_to_list (db_segments d)))
                        (foldr Z.max 0 ((λ kv, p_last_use kv.2) <$> map_to_list (db_packs d))));
  modify (set_clocks (λ k, mk_Clocks (Z.max n 0) (k_clock k) (k_uncertain k) (k_grace k))).

(** A [Window] owns one reference of each of its pins. *)
Definition Window : Type := list nat.
Fixpoint pin_loop (id : Z) (numbers : list Z) : M Window :=
  match numbers with
  | [] => mret []
  | number :: numbers =>
    pin ← gets (λ s, st_pins s !! (id, number)) ≫= upgrade_or_new;
    modify (set_pins <[(id, number) := pin]>) ;;
    rest ← pin_loop id numbers;
    mret (pin :: rest)
  end.
Definition pin_segments (id : Z) (numbers : list Z) : M Window :=
  modify (λ s, set_pins (filter (λ kv, arc_live (st_arcs s) kv.2)) s) ;;
  pin_loop id numbers.
Definition drop_window (w : Window) : M unit := for_each drop_arc w.

(** ** Descriptors and files *)

Definition segment (id number : Z) : M (option Segment) :=
  row ← query (λ d, db_segments d !! (id, number));
  match row with
  | None => mret None
  | Some row =>
    guard_st (valid_generation (s_token row) && (0 <? s_length row)) "invalid segment descriptor" ;;
    mret (Some (mk_Segment number (s_token row) (s_length row) (negb (s_deleting row =? 0))))
  end.

(** Checks the descriptor and the file; the open file is its name. *)
Definition segment_file (meta : Metadata) (sg : Segment) : M string :=
  size ← lift (ok_or (segment_bytes (m_layout meta)) "not segmented"%string);
  start ← lift (ok_or (checked_mul (sg_number sg) size) "segment overflow"%string);
  guard_st ((start <? g_length (m_geometry meta))
            && (sg_length sg =? Z.min size (g_length (m_geometry meta) - start))
            && negb (sg_deleting sg)) "invalid segment length" ;;
  let name := Segment_name sg meta in
  regular_file name ;;
  length ← file_len name;
  guard_st ((HEADER_LEN <=? length) && (length <=? HEADER_LEN + sg_length sg))
    "invalid segment file length" ;;
  header ← read_exact name 0 HEADER_LEN;
  expected ← lift (Segment_header sg meta);
  guard_st (bool_decide (header = expected)) "segment identity mismatch" ;;
  mret name.

(** [retain_segments]: the files the table names, by kind. *)
Definition retain_segment (d : Db) (key : Z * Z) (row : SegmentRow) (retained : gmap string Z)
  : gmap string Z :=
  match v ← db_versions d !! key.1; meta_from_json (v_meta v) with
  | None => retained
  | Some meta =>
    if negb (valid_generation (m_generation meta))
       || bool_decide (segment_bytes (m_layout meta) = None)
       || (key.2 <? 0) || negb (valid_generation (s_token row))
    then retained
    else <[Segment_name (mk_Segment key.2 (s_token row) (s_length row) false) meta
           := m_kind meta]> retained
  end.
Definition retain_segments (retained : gmap string Z) : M (gmap string Z) :=
  d ← query id;
  mret (foldr (λ kv acc, retain_segment d kv.1 kv.2 acc) retained (map_to_list (db_segments d))).

(** ** Publishing a changed index with its descriptors *)

Definition publish_segment_index (id : Z) (index : Index) (operation : M unit) : M unit :=
  let '(ranges, index) := Index_dirty index in
  txn (patch id (ix_bytes index) ranges ;; operation) ;;
  value ← load_hit id;
  set_index id (Index_committed index).

Definition segment_blocks (meta : Metadata) (size number : Z) : list Z :=
  zrange (number * size / g_block (m_geometry meta))
         (div_ceil (Z.min ((number + 1) * size) (g_length (m_geometry meta)))
                   (g_block (m_geometry meta))).
Definition clear_blocks (index : Index) (blocks : list Z) : Index :=
  foldl (λ index block, match Index_get index block with
                        | Some _ => Index_remove index block | None => index end) index blocks.

(** [SET deleting=1]. *)
Definition mark_row (r : SegmentRow) : SegmentRow :=
  mk_SegmentRow (s_rowid r) (s_token r) (s_length r) (s_last_use r) 1.

(** The functions that call [load] back, over the [load] they call. *)
Section WithLoad.
Variable load_ : Z → M Resident.

Definition remove_segment_with (id number : Z) : M unit :=
  value ← load_ id;
  let meta := r_meta value in
  size ← lift (ok_or (segment_bytes (m_layout meta)) "not segmented"%string);
  value ← load_hit id;
  publish_segment_index id (clear_blocks (r_index value) (segment_blocks meta size number))
    (exec_db (with_segments (alter mark_row (id, number)))) ;;
  sg ← attempt (segment id number);
  match sg with
  | Ok (Some sg) => remove_managed (Segment_name sg meta)
  | _ => mret tt
  end ;;
  exec_db (with_segments (delete (id, number))).

Definition repair_segment_with (id : Z) (meta : Metadata) (size number : Z) : M unit :=
  value ← load_hit id;
  if existsb (λ i, bool_decide (is_Some (Index_get (r_index value) i)))
       (segment_blocks meta size number)
  then
    valid ← attempt (sg ← segment id number; sg ← lift (ok_or sg "no segment"%string);
                     segment_file meta sg);
    if is_ok valid then mret tt else remove_segment_with id number
  else mret tt.
Definition repair_segments_with (id : Z) : M unit :=
  value ← load_ id;
  let meta := r_meta value in
  match segment_bytes (m_layout meta) with
  | None => mret tt
  | Some size =>
    for_each (repair_segment_with id meta size)
      (zrange 0 (div_ceil (g_length (m_geometry meta)) size))
  end.
End WithLoad.

(** ** [Storage::load] *)

Definition plain_length (id : Z) : M (option Z) :=
  row ← query (λ d, db_complete d !! id);
  match row with
  | None => mret None
  | Some row =>
    if negb (c_ready row =? 1) then mret None
    else
      guard_st ((0 <=? c_length row) && (zlen (c_digest row) =? 32) && (c_format row =? 1))
        "invalid plain descriptor" ;;
      mret (Some (c_length row))
  end.
Definition plain (id : Z) : M bool := l ← plain_length id; mret (bool_decide (is_Some l)).

Definition insert_resident (id : Z) (r : Resident) : M unit := modify (set_versions <[id := r]>).

(** The index of the block file or the published file, checked against the metadata. *)
Definition file_index (meta : Metadata) (bytes : list Z) (plain_length : option Z) (size : Z) : M Index :=
  let g := m_geometry meta in
  if bool_decide (is_Some plain_length) then
    guard_st (bool_decide (plain_length = Some (g_length g))) "plain descriptor length mismatch" ;;
    guard_st (size =? g_length g) "invalid plain length" ;;
    reserve_index (zlen bytes) ;;
    lift (Index_load_plain g bytes)
  else
    let path := data_name (m_generation meta) in
    guard_st (HEADER_LEN <=? size) "incomplete data header" ;;
    header ← read_exact path 0 HEADER_LEN;
    expected ← lift (Geometry_header g (bytes_of (m_generation meta)));
    guard_st (bool_decide (header = expected)) "data identity mismatch" ;;
    let slots := (size - HEADER_LEN) / g_block g in
    reserve_index (zlen bytes) ;;
    index ← lift (Index_load g bytes slots);
    set_len path (HEADER_LEN + slots * g_block g) ;;
    mret index.
Definition load_file (id : Z) (meta : Metadata) (bytes : list Z) : M unit :=
  plain_length ← plain_length id;
  let is_plain := bool_decide (is_Some plain_length) in
  let path := if is_plain then file_name (m_generation meta) "ok" else data_name (m_generation meta) in
  regular_file path ;;
  io ;;  (* open *)
  size ← file_len path;
  index ← file_index meta bytes plain_length size;
  size ← file_len path;
  modify (set_sizes <[path := (allocated size, m_kind meta)]>) ;;
  insert_resident id (mk_Resident meta index (Some path) None is_plain).

(** Inside [load] the calls back find the version resident: [load_hit]. *)
Definition load (id : Z) : M Resident :=
  s ← get_st;
  match st_versions s !! id with
  | Some r => mret r
  | None =>
    row ← query (λ d, db_versions d !! id);
    row ← lift (ok_or row "cache version removed"%string);
    meta ← lift (ok_or (meta_from_json (v_meta row)) "invalid metadata"%string);
    guard_st (valid_generation (m_generation meta)) "invalid generation" ;;
    guard_st (valid_block (g_block (m_geometry meta))) "invalid block size" ;;
    lift (Layout_validate (m_layout meta) (m_geometry meta)) ;;
    match segment_bytes (m_layout meta) with
    | Some size =>
      reserve_index (zlen (v_blocks row)) ;;
      index ← lift (Index_load_segments (m_geometry meta) (v_blocks row) size);
      insert_resident id (mk_Resident meta index None None false) ;;
      repair_segments_with load_hit id
    | None => load_file id meta (v_blocks row)
    end ;;
    load_hit id
  end.

Definition remove_segment : Z → Z → M unit := remove_segment_with load.
Definition repair_segments : Z → M unit := repair_segments_with load.

Definition delete_all_segments (id : Z) : M unit :=
  numbers ← query (λ d, (λ kv, kv.1.2) <$> filter (λ kv, kv.1.1 = id) (map_to_list (db_segments d)));
  for_each (remove_segment id) numbers.

(** ** Handles and windows *)

(** [Storage::version]. *)
Definition version (id : Z) : M Version :=
  value ← load id;
  lease ← upgrade_or_new (r_lease value);
  modify (set_versions (alter (r_with_lease (Some lease)) id)) ;;
  mret (mk_Version id (r_meta value) lease).

(** [Store::window]. *)
Definition window (v : Version) (first last : Z) : M Window :=
  check_active (ver_id v) ;;
  value ← load (ver_id v);
  let meta := r_meta value in
  guard_st ((first <=? last) && (last <=? g_length (m_geometry meta))
            && (last - first <=? WINDOW_BYTES)) "invalid cache window" ;;
  match segment_bytes (m_layout meta) with
  | None => mret []
  | Some size => pin_segments (ver_id v) (zrange (first / size) (div_ceil last size))
  end.

(** ** [read_segment] *)

Definition touch_segment (id number : Z) : M unit :=
  touched ← segment_tick;
  exec_db (with_segments (alter (λ r, mk_SegmentRow (s_rowid r) (s_token r) (s_length r) touched
                                        (s_deleting r)) (id, number))).

(** A read that failed, or bytes with another digest, condemn the block. *)
Definition digest_matches (bytes : result string (list Z)) (digest : list Z) : M bool :=
  match bytes with
  | Ok bytes => h ← lift (hash bytes); mret (bool_decide (h = digest))
  | Err _ => mret false
  end.

Definition read_segment (id block : Z) : M (option (list Z)) :=
  value ← load id;
  let meta := r_meta value in
  match Index_get (r_index value) block with
  | None => mret None
  | Some (slot, digest) =>
    '(first, last) ← lift (Geometry_range (m_geometry meta) block);
    size ← lift (ok_or (segment_bytes (m_layout meta)) panicked);
    let number := first / size in
    sg ← segment id number;
    match sg with
    | None => remove_segment id number ;; mret None
    | Some sg =>
      file ← attempt (segment_file meta sg);
      match file with
      | Err _ => remove_segment id number ;; mret None
      | Ok file =>
        bytes ← attempt (read_exact file (HEADER_LEN + slot * g_block (m_geometry meta)) (last - first));
        checked ← digest_matches bytes digest;
        match checked with
        | true => touch_segment id number ;; bytes ← lift bytes; mret (Some bytes)
        | false =>
          value ← load_hit id;
          publish_segment_index id (Index_remove (r_index value) block) (mret tt) ;;
          mret None
        end
      end
    end
  end.

Lemma load_resident id s r : st_versions s !! id = Some r → load id s = load_hit id s.
Proof.
  intros Hr. unfold load, load_hit, mbind, st_bind, get_st, gets, lift. by rewrite Hr.
Qed.
Lemma load_hit_Ok id s r : st_versions s !! id = Some r → load_hit id s = (Ok r, s).
Proof. intros Hr. unfold load_hit, mbind, st_bind, gets, lift. by rewrite Hr. Qed.
End Segments.
