(* ===== verification/Packs.v ===== *)
(** * Resource cache: packed objects

    Models [backend/main/src/resource_cache/objects.rs] up to [put_object], which needs
    eviction and is in [Store]: small objects are appended to shared pack files; a row of
    [objects] says where in which pack, a row of [packs] how much of the file is committed. *)
From S2P Require Import Prelude Text Format Policy Storage.
From stdpp Require Import options.

Open Scope Z_scope.

Section Packs.
Context {D : Digest} `{!Platform}.

Definition PACK_BYTES : Z := 16 * 1024 * 1024.
Definition PACK_HEADER : Z := 64.
Definition MAX_OBJECT : Z := PACK_BYTES - PACK_HEADER.

Definition pack_name (token : string) : string := token +:+ ".pack".
(** The bytes of [QCMPACK1]. *)
Definition PACK_MAGIC : list Z := [81; 67; 77; 80; 65; 67; 75; 49].
Definition pack_header (token : string) : list Z :=
  write_at (write_at (replicate 64 0) 0 PACK_MAGIC) 8 (bytes_of token).

(** ** Reading *)

Record Object := mk_Object { ob_meta : ObjectMetadata; ob_bytes : list Z }.

(** The row of a query that joins an object with its pack. *)
Definition object_row (key : string) (d : Db) : option (ObjectRow * PackRow) :=
  o ← db_objects d !! key;
  p ← db_packs d !! o_pack o;
  if p_deleting p =? 0 then Some (o, p) else None.

Definition read_object (o : ObjectRow) (committed : Z) (meta : ObjectMetadata) : M Object :=
  let token := o_pack o in
  guard_st (managed_pack_name (pack_name token) && (PACK_HEADER <=? o_offset o)
            && (o_length o <=? MAX_OBJECT) && (om_length meta =? o_length o)
            && is_some_and (checked_add (o_offset o) (o_length o)) (λ n, n <=? committed))
    "invalid packed object" ;;
  regular_file (pack_name token) ;;
  io ;;  (* open *)
  actual ← read_exact (pack_name token) 0 64;
  guard_st (bool_decide (actual = pack_header token)) "pack identity mismatch" ;;
  bytes ← read_exact (pack_name token) (o_offset o) (o_length o);
  h ← lift (hash bytes);
  guard_st (bool_decide (h = o_digest o)) "object checksum mismatch" ;;
  mret (mk_Object meta bytes).

Definition touch_pack (token : string) : M unit :=
  clock ← segment_tick;
  exec_db (with_packs (alter (λ p, mk_PackRow (p_rowid p) (p_group p) (p_provider p) (p_length p)
                                     clock (p_deleting p)) token)).
Definition object (key : string) : M (option Object) :=
  row ← query (object_row key);
  match row with
  | None => mret None
  | Some (o, p) =>
    meta ← lift (ok_or (object_from_json (o_meta o)) "invalid metadata"%string);
    guard_st ((0 <=? o_offset o) && (0 <=? o_length o) && (0 <=? p_length p)) "out of range" ;;
    result ← attempt (read_object o (p_length p) meta);
    match result with
    | Ok object => touch_pack (o_pack o) ;; mret (Some object)
    | Err _ => exec_db (with_objects (delete key)) ;; mret None
    end
  end.

(** [Store::remove_object] and [Store::update_object]. *)
Definition remove_object (key : string) : M unit := exec_db (with_objects (delete key)).
Definition update_object (meta : ObjectMetadata) : M unit :=
  text ← lift (ok_or (object_to_json meta) "unserialisable"%string);
  exec_db (with_objects (alter (λ o, mk_ObjectRow (o_pack o) (o_offset o) (o_length o) (o_digest o)
                                       text) (om_key meta))).

(** ** Deleting: first the rows, then the file, then the pack's own row *)

Definition delete_pack (token : string) : M unit :=
  guard_st (managed_pack_name (pack_name token)) "invalid pack token" ;;
  txn (exec_db (with_objects (filter (λ kv, o_pack kv.2 ≠ token))) ;;
       exec_db (with_packs (alter (λ p, mk_PackRow (p_rowid p) (p_group p) (p_provider p)
                                          (p_length p) (p_last_use p) 1) token))) ;;
  remove_managed (pack_name token) ;;
  exec_db (with_packs (delete token)).

(** The pack rows in rowid order. *)
Definition pack_rows (d : Db) : list (string * PackRow) :=
  sort_on (λ kv, [p_rowid kv.2]) (map_to_list (db_packs d)).

(** [retain_packs]: a pack whose file is whole is cut to its committed length and kept. *)
Definition check_pack (token : string) (row : PackRow) : M unit :=
  guard_st (managed_pack_name (pack_name token)
            && (PACK_HEADER <=? p_length row) && (p_length row <=? PACK_BYTES)
            && (p_deleting row =? 0)) "invalid pack descriptor" ;;
  regular_file (pack_name token) ;;
  io ;;
  actual ← read_exact (pack_name token) 0 64;
  size ← file_len (pack_name token);
  guard_st (bool_decide (actual = pack_header token) && (p_length row <=? size)) "invalid pack data" ;;
  set_len (pack_name token) (p_length row).
Fixpoint retain_loop (rows : list (string * PackRow)) (retained : gmap string Z)
  : M (gmap string Z) :=
  match rows with
  | [] => mret retained
  | (token, row) :: rows =>
    valid ← attempt (check_pack token row);
    match valid with
    | Ok _ => retain_loop rows (<[pack_name token := 1]> retained)
    | Err _ =>
      (if managed_pack_name (pack_name token)
       then attempt (delete_pack token) ;; mret tt
       else exec_db (with_objects (filter (λ kv, o_pack kv.2 ≠ token))) ;;
            exec_db (with_packs (delete token))) ;;
      retain_loop rows retained
    end
  end.
Definition retain_packs (retained : gmap string Z) : M (gmap string Z) :=
  rows ← query pack_rows; retain_loop rows retained.

(** ** Eviction *)

Definition fits (u : Usage) (required capacity : Z) : bool :=
  sat_add (sat_add (sat_add (u_audio u) (u_image u)) (u_metadata u)) required <=? capacity.
Fixpoint evict_packs_loop (required : Z) (rows : list (string * PackRow)) : M unit :=
  match rows with
  | [] => mret tt
  | (token, row) :: rows =>
    u ← usage;
    capacity ← gets st_capacity;
    if (p_deleting row =? 0) && fits u required capacity then mret tt
    else attempt (delete_pack token) ;; evict_packs_loop required rows
  end.
Definition evict_packs (required : Z) : M unit :=
  rows ← query (λ d, sort_on (λ kv, [- p_deleting kv.2; p_last_use kv.2]) (pack_rows d));
  evict_packs_loop required rows.
Definition invalidate_packs (provider : Z) : M unit :=
  rows ← query (λ d, filter (λ kv, p_provider kv.2 = provider) (pack_rows d));
  for_each (λ kv, attempt (delete_pack kv.1) ;; mret tt) rows.
End Packs.
