(* ===== verification/Store.v ===== *)
(** * Resource cache: the store

    Models [backend/main/src/resource_cache/store.rs]: deletion and eviction, creating,
    reading and writing versions, with [write_segments] of [segments.rs] and [put_object] of
    [objects.rs], which evict before they write. *)
From S2P Require Import Prelude Text Format Policy Storage Segments Packs.
From stdpp Require Import options.

Open Scope Z_scope.

Section Store.
Context {D : Digest} `{!Platform}.

(** ** Deleting a version *)

Definition pin_held (s : Storage) (id : Z) : bool :=
  existsb (λ kv, (kv.1.1 =? id) && arc_live (st_arcs s) kv.2) (map_to_list (st_pins s)).
Definition lease_held (s : Storage) (id : Z) : bool := is_some_and (st_versions s !! id) (leased s).

Definition set_obsolete (o id : Z) : M unit :=
  exec_db (with_versions (alter (v_with_obsolete o) id)).

Definition delete_rows (id : Z) : M unit :=
  txn (exec_db (with_segments (filter (λ kv, kv.1.1 ≠ id))) ;;
       exec_db (with_complete (base.delete id)) ;;
       exec_db (with_leases (filter (λ kv, l_version kv.2 ≠ id))) ;;
       exec_db (with_versions (base.delete id))).

Definition delete_version (id : Z) : M unit :=
  s ← get_st;
  if pin_held s id then mret tt
  else if lease_held s id then mret tt
  else
    external ← externally_pinned id;
    match external with
    | true => mret tt
    | false =>
      generation ← query (λ d, v_generation <$> db_versions d !! id);
      set_obsolete 2 id ;;
      delete_all_segments id ;;
      modify (set_versions (base.delete id)) ;;
      match generation with
      | Some g =>
        if valid_generation g
        then for_each (λ suffix, remove_managed (file_name g suffix)) ["data"; "ok.tmp"; "ok"]%string
        else mret tt
      | None => mret tt
      end ;;
      delete_rows id
    end.

(** ** Eviction *)

(** [evict_segments]: the segments in the order of the query, with what makes one a
    candidate whatever the space. *)
Definition segment_candidates (d : Db) : list (Z * Z * bool) :=
  let rows := omap (λ kv, v ← db_versions d !! kv.1.1; Some (kv.1, kv.2, v))
                   (map_to_list (db_segments d)) in
  (λ r : (Z * Z) * SegmentRow * VersionRow,
     (r.1.1, negb (s_deleting r.1.2 =? 0) || negb (v_obsolete r.2 =? 0)))
  <$> sort_on (λ r : (Z * Z) * SegmentRow * VersionRow,
        [- s_deleting r.1.2; - v_obsolete r.2; s_last_use r.1.2; s_rowid r.1.2]) rows.
Fixpoint evict_segments_loop (required : Z) (candidates : list (Z * Z * bool)) : M unit :=
  match candidates with
  | [] => mret tt
  | (key, obsolete) :: candidates =>
    u ← usage;
    s ← get_st;
    (if negb obsolete && (usage_bytes u + required <=? st_capacity s) then mret tt
     else if pinned s key then mret tt
     else attempt (remove_segment key.1 key.2) ;; mret tt) ;;
    evict_segments_loop required candidates
  end.
Definition evict_segments (required : Z) : M unit :=
  candidates ← query segment_candidates; evict_segments_loop required candidates.

Definition reserved (s : Storage) (required : Z) : Z :=
  sat_add required (match st_building s with Some b => b_remaining b | None => 0 end).

(** The versions of the query, in its order, with whether each is obsolete. *)
Definition version_candidates (over_capacity : bool) (d : Db) : list (Z * bool) :=
  let rows := sort_on (λ kv, [kv.1]) (map_to_list (db_versions d)) in
  let rows := if over_capacity
              then sort_on (λ kv, [- v_obsolete kv.2; v_last_use kv.2]) rows
              else filter (λ kv, v_obsolete kv.2 ≠ 0) rows in
  (λ kv : Z * VersionRow, (kv.1, negb (v_obsolete kv.2 =? 0))) <$> rows.

(** Returns [bytes] after the last deletion. *)
Fixpoint evict_loop (required bytes : Z) (ids : list (Z * bool)) : M Z :=
  match ids with
  | [] => mret bytes
  | (id, obsolete) :: ids =>
    s ← get_st;
    if (negb obsolete && (sat_add bytes required <=? st_capacity s)) || lease_held s id
    then evict_loop required bytes ids
    else
      attempt (delete_version id) ;;
      u ← usage;
      evict_loop required (usage_bytes u) ids
  end.
Definition evict (required : Z) : M unit :=
  u ← usage;
  s ← get_st;
  let required := reserved s required in
  let over_capacity := st_capacity s <? usage_bytes u + required in
  ids ← query (version_candidates over_capacity);
  evict_packs required ;;
  evict_segments required ;;
  u ← usage;
  bytes ← evict_loop required (usage_bytes u) ids;
  capacity ← gets st_capacity;
  guard_st (sat_add bytes required <=? capacity) "cache capacity reached".

(** ** Looking up and creating *)

Definition newest (key : string) (d : Db) : option Z :=
  head ((λ kv : Z * VersionRow, kv.1) <$>
    sort_on (λ kv, [- kv.1])
      (filter (λ kv, v_key kv.2 = key ∧ v_obsolete kv.2 = 0) (map_to_list (db_versions d)))).
Definition lookup (key : string) : M (option Version) :=
  id ← query (newest key);
  match id with
  | None => mret None
  | Some id =>
    found ← attempt (version id);
    match found with
    | Ok v =>
      s ← get_st;
      used ← attempt (exec_db (with_versions (alter (v_with_last_use (e_now (w_env (st_world s)))) id)));
      match used with
      | Ok _ => mret (Some v)
      | Err e => drop_version v ;; fail e
      end
    | Err _ => delete_version id ;; mret None
    end
  end.

(** The data file of a [Blocks] version: its header, durable before any row names it. *)
Definition create_file (meta : Metadata) : M (option string) :=
  match m_layout meta with
  | Segments _ => mret None
  | Blocks =>
    let path := data_name (m_generation meta) in
    evict 4096 ;;
    create_new path ;;
    private_file path ;;
    header ← lift (Geometry_header (m_geometry meta) (bytes_of (m_generation meta)));
    write_all path 0 header ;;
    sync_all path ;;
    sync_directory ;;
    size ← file_len path;
    modify (set_sizes <[path := (allocated size, m_kind meta)]>) ;;
    mret (Some path)
  end.
(** The statements of the transaction; [generation] is unique. *)
Definition insert_version (meta : Metadata) (encoded : string) (blocks : list Z) (now : Z) : M Z :=
  exec_db (with_versions (fmap (λ r : VersionRow,
    if str_eqb (v_key r) (m_key meta) && (v_obsolete r =? 0) then v_with_obsolete 1 r else r))) ;;
  d ← query (λ d, d);
  guard_st (negb (existsb (λ kv, str_eqb (v_generation kv.2) (m_generation meta))
                    (map_to_list (db_versions d)))) "UNIQUE constraint failed" ;;
  let id := next_rowid ((map_to_list (db_versions d)).*1) in
  modify (set_db (with_versions
    <[id := mk_VersionRow (m_key meta) (m_provider meta) (m_kind meta) (m_generation meta)
              encoded blocks now 0]>)) ;;
  mret id.
Definition create_layout (meta : Metadata) : M Version :=
  guard_st (valid_generation (m_generation meta)) "invalid generation" ;;
  lift (Layout_validate (m_layout meta) (m_geometry meta)) ;;
  reserve_index (Geometry_count (m_geometry meta) * ENTRY_LEN) ;;
  file ← create_file meta;
  let index := Index_new (m_geometry meta) in
  encoded ← lift (ok_or (meta_to_json meta) "unserialisable"%string);
  s ← get_st;
  before ← begin_immediate;
  result ← finish_txn before
    (insert_version meta encoded (ix_bytes index) (e_now (w_env (st_world s))));
  match result with
  | Err e =>
    attempt (io ;; modify (set_files (base.delete (data_name (m_generation meta))))) ;;
    modify (set_sizes (base.delete (data_name (m_generation meta)))) ;;
    fail e
  | Ok id =>
    insert_resident id (mk_Resident meta index file None false) ;;
    version id
  end.
Definition with_layout (l : Layout) (m : Metadata) : Metadata :=
  mk_Metadata (m_key m) (m_provider m) (m_kind m) (m_generation m) (m_geometry m) (m_headers m)
    (m_policy m) (m_target m) (m_ranges m) l.
Definition create (meta : Metadata) : M Version :=
  create_layout (with_layout (Layout_for_resource (m_kind meta) (g_length (m_geometry meta))) meta).

(** ** Reading *)

(** [retire_corrupt]. *)
Definition retire_corrupt (id : Z) : M unit :=
  s ← get_st;
  match st_versions s !! id ≫= r_lease with
  | Some a => if arc_live (st_arcs s) a then invalidate_lease a else mret tt
  | None => mret tt
  end ;;
  set_obsolete 2 id.
Definition plain_corrupt : string := "published cache file is corrupt".

Definition read_block (id block : Z) (value : Resident) : M (option (list Z)) :=
  match Index_get (r_index value) block with
  | None => mret None
  | Some (slot, digest) =>
    let g := m_geometry (r_meta value) in
    '(first, last) ← lift (Geometry_range g block);
    file ← lift (ok_or (r_file value) panicked);
    offset ← (if r_plain value then mret first else lift (Geometry_offset g slot));
    bytes ← attempt (read_exact file offset (last - first));
    checked ← digest_matches bytes digest;
    match checked with
    | true => bytes ← lift bytes; mret (Some bytes)
    | false =>
      if r_plain value then retire_corrupt id ;; fail plain_corrupt
      else set_index id (Index_remove (r_index value) block) ;; commit id ;; mret None
    end
  end.
Definition read (id block : Z) : M (option (list Z)) :=
  check_active id ;;
  value ← load id;
  match segment_bytes (m_layout (r_meta value)) with
  | Some _ => read_segment id block
  | None => value ← load id; read_block id block value
  end.

(** ** Writing blocks *)

(** The loop that appends: what it wrote, block by block. *)
Fixpoint append_blocks (id : Z) (blocks : list (Z * list Z)) : M (list (Z * Z * list Z)) :=
  match blocks with
  | [] => mret []
  | (block, data) :: blocks =>
    value ← load_hit id;
    match Index_get (r_index value) block with
    | Some _ => append_blocks id blocks
    | None =>
      let g := m_geometry (r_meta value) in
      '(first, last) ← lift (Geometry_range g block);
      guard_st (zlen data =? last - first) "incomplete block" ;;
      file ← lift (ok_or (r_file value) panicked);
      size ← file_len file;
      let slot := div_ceil (wsub size HEADER_LEN) (g_block g) in
      guard_st (slot <? u32_max) "slot limit" ;;
      offset ← lift (Geometry_offset g slot);
      write_all file offset data ;;
      (if zlen data <? g_block g
       then write_all file (offset + zlen data) (replicate (Z.to_nat (g_block g - zlen data)) 0)
       else mret tt) ;;
      rest ← append_blocks id blocks;
      mret ((block, slot, data) :: rest)
    end
  end.
(** [value.index.set(..)?]: the index as the call leaves it, also when it fails. *)
Definition index_set (id block slot : Z) (data : list Z) : M unit :=
  value ← load_hit id;
  let '(r, index) := Index_set block slot data (r_index value) in
  set_index id index ;; lift r.

Definition write_data (id : Z) (blocks : list (Z * list Z)) : M unit :=
  check_active id ;;
  value ← load id;
  if r_plain value then
    guard_st (forallb (λ b, match Index_get (r_index value) b.1, hash b.2 with
                            | Some (_, digest), Ok h => bool_decide (h = digest)
                            | _, _ => false
                            end) blocks) "attempted plain overwrite"
  else
    let absent := filter (λ b : Z * list Z, Index_get (r_index value) b.1 = None) blocks in
    evict (zlen absent * g_block (m_geometry (r_meta value))) ;;
    value ← load id;
    appended ← append_blocks id blocks;
    file ← lift (ok_or (r_file value) panicked);
    sync_all file ;;
    for_each (λ a : Z * Z * list Z, index_set id a.1.1 a.1.2 a.2) appended ;;
    commit id.

(** ** Writing segments *)

Definition group_block (size : Z) (index : Index) (g : Geometry) (b : Z * list Z)
    (grouped : gmap Z (gmap Z (list Z))) : result string (gmap Z (gmap Z (list Z))) :=
  '(first, last) ← Geometry_range g b.1;
  ensure (zlen b.2 =? last - first) "incomplete block" ;;
  mret (match Index_get index b.1 with
        | Some _ => grouped
        | None =>
          let number := first / size in
          <[number := <[b.1 := b.2]> (opt_default ∅ (grouped !! number))]> grouped
        end).
Fixpoint group_blocks (size : Z) (index : Index) (g : Geometry) (blocks : list (Z * list Z))
    (grouped : gmap Z (gmap Z (list Z))) : result string (gmap Z (gmap Z (list Z))) :=
  match blocks with
  | [] => Ok grouped
  | b :: blocks =>
    grouped ← group_block size index g b grouped; group_blocks size index g blocks grouped
  end.
(** The entries of a [BTreeMap], by key. *)
Definition entries {A} (m : gmap Z A) : list (Z * A) := sort_on (λ kv, [kv.1]) (map_to_list m).

Definition segments_required (grouped : gmap Z (gmap Z (list Z))) : Z :=
  foldr Z.add 0 ((λ kv : Z * gmap Z (list Z),
    foldr Z.add 0 ((λ b : Z * list Z, div_ceil (zlen b.2) 4096 * 4096) <$> entries kv.2) + 8192)
    <$> entries grouped).

(** The loop over the blocks of one segment: the file and the private index. *)
Fixpoint write_slots (name : string) (size : Z) (g : Geometry) (blocks : list (Z * list Z))
    (index : Index) : M Index :=
  match blocks with
  | [] => mret index
  | (block, data) :: blocks =>
    let slot := block mod (size / g_block g) in
    write_all name (HEADER_LEN + slot * g_block g) data ;;
    let '(r, index) := Index_set block slot data index in
    lift r ;;
    write_slots name size g blocks index
  end.

(** The descriptor to write to, and whether its file is still to be created. *)
Definition open_segment (id : Z) (meta : Metadata) (size number : Z) : M (Segment * bool) :=
  old ← segment id number;
  match old with
  | Some (mk_Segment _ _ _ false as sg) => mret (sg, false)
  | _ =>
    match old with Some _ => remove_segment id number | None => mret tt end ;;
    token ← fresh_token;
    mret (mk_Segment number token (Z.min size (g_length (m_geometry meta) - number * size)) false, true)
  end.
Definition create_segment (meta : Metadata) (sg : Segment) : M string :=
  let name := Segment_name sg meta in
  create_new name ;;
  private_file name ;;
  header ← lift (Segment_header sg meta);
  write_all name 0 header ;;
  mret name.
Definition write_segment (meta : Metadata) (size : Z) (sg : Segment) (is_new : bool)
    (blocks : list (Z * list Z)) (index : Index) : M Index :=
  let name := Segment_name sg meta in
  (if is_new then create_segment meta sg else segment_file meta sg) ;;
  writing ← attempt (index ← write_slots name size (m_geometry meta) blocks index;
                     sync_all name ;; mret index);
  len ← file_len name;
  modify (set_sizes <[name := (allocated len, m_kind meta)]>) ;;
  lift writing.

(** The loop over the segments: the files it created, also when it fails. *)
Fixpoint write_groups (id : Z) (meta : Metadata) (size : Z)
    (groups : list (Z * gmap Z (list Z))) (index : Index)
  : M (list string * result string (list Segment * Index)) :=
  match groups with
  | [] => mret ([], Ok ([], index))
  | (number, blocks) :: groups =>
    opened ← attempt (open_segment id meta size number);
    match opened with
    | Err e => mret ([], Err e)
    | Ok (sg, is_new) =>
      let created := if (is_new : bool) then [Segment_name sg meta] else [] in
      written ← attempt (write_segment meta size sg is_new (entries blocks) index);
      match written with
      | Err e => mret (created, Err e)
      | Ok index =>
        '(more, rest) ← write_groups id meta size groups index;
        mret (created ++ more, (λ r, (sg :: r.1, r.2)) <$> rest)
      end
    end
  end.

(** INSERT .. ON CONFLICT DO UPDATE: a row that exists keeps its rowid. *)
Definition upsert_segment (id touched : Z) (sg : Segment) (m : gmap (Z * Z) SegmentRow)
  : gmap (Z * Z) SegmentRow :=
  let rowid := match m !! (id, sg_number sg) with
               | Some r => s_rowid r
               | None => next_rowid ((λ kv : (Z * Z) * SegmentRow, s_rowid kv.2) <$> map_to_list m)
               end in
  <[(id, sg_number sg) := mk_SegmentRow rowid (sg_token sg) (sg_length sg) touched 0]> m.
Definition publish_written (id : Z) (written : list Segment) (index : Index) : M unit :=
  sync_directory ;;
  touched ← segment_tick;
  publish_segment_index id index
    (for_each (λ sg, exec_db (with_segments (upsert_segment id touched sg))) written).

Fixpoint pin_each (id : Z) (numbers : list Z) : M Window :=
  match numbers with
  | [] => mret []
  | n :: numbers => w ← pin_segments id [n]; rest ← pin_each id numbers; mret (w ++ rest)
  end.
(** Run with pins that are dropped on every way out. *)
Definition with_pins {A} (pins : Window) (m : M A) : M A :=
  r ← attempt m; drop_window pins ;; lift r.

Definition write_grouped (id : Z) (meta : Metadata) (size : Z)
    (grouped : gmap Z (gmap Z (list Z))) : M unit :=
  evict (segments_required grouped) ;;
  value ← load_hit id;
  '(created, r) ← write_groups id meta size (entries grouped) (r_index value);
  result ← attempt (r ← lift r; publish_written id r.1 r.2);
  match result with
  | Ok _ => mret tt
  | Err e => for_each (λ name, attempt (remove_managed name) ;; mret tt) created ;; fail e
  end.
Definition write_segments (id : Z) (blocks : list (Z * list Z)) : M unit :=
  repair_segments id ;;
  value ← load_hit id;
  let meta := r_meta value in
  size ← lift (ok_or (segment_bytes (m_layout meta)) panicked);
  grouped ← lift (group_blocks size (r_index value) (m_geometry meta) blocks ∅);
  if bool_decide (grouped = ∅) then mret tt
  else
    pins ← pin_each id (entries grouped).*1;
    with_pins pins (write_grouped id meta size grouped).

(** ** [Storage::write] *)

Record CommitOutcome := mk_CommitOutcome { co_complete : bool; co_newly_complete : bool }.

Definition plain_suffix (r : Resident) : string := if r_plain r then "ok" else "data".
Definition record_size (id : Z) : M unit :=
  value ← gets (λ s, st_versions s !! id);
  match value with
  | Some value =>
    file ← lift (ok_or (r_file value) panicked);
    len ← file_len file;
    modify (set_sizes <[file_name (m_generation (r_meta value)) (plain_suffix value)
                        := (allocated len, m_kind (r_meta value))]>)
  | None => mret tt
  end.
Definition finished (i : Index) : bool := Index_is_committed i && Index_complete i.
Definition write (id : Z) (blocks : list (Z * list Z)) : M CommitOutcome :=
  check_active id ;;
  value ← load id;
  let was_complete := finished (r_index value) in
  match segment_bytes (m_layout (r_meta value)) with
  | Some _ =>
    write_segments id blocks ;;
    value ← load id;
    let complete := Index_complete (r_index value) in
    mret (mk_CommitOutcome complete (complete && negb was_complete))
  | None =>
    result ← attempt (write_data id blocks);
    record_size id ;;
    lift result ;;
    value ← load id;
    let complete := finished (r_index value) in
    mret (mk_CommitOutcome complete (complete && negb was_complete))
  end.

(** ** The other calls of the handle *)

(** [Store::complete], [Store::covered] and [Store::missing_range]. *)
Definition complete (v : Version) : M bool :=
  repair_segments (ver_id v) ;;
  value ← load (ver_id v);
  mret (finished (r_index value)).
Definition block_present (i : Index) (n : Z) : bool := bool_decide (is_Some (Index_get i n)).
Definition covered (v : Version) (start stop : Z) : M bool :=
  repair_segments (ver_id v) ;;
  value ← load (ver_id v);
  let block := g_block (m_geometry (r_meta value)) in
  mret (forallb (block_present (r_index value)) (zrange (start / block) (div_ceil stop block))).
Definition missing_end (i : Index) (block start stop : Z) : Z :=
  match filter (λ n, block_present i n) (zrange (start / block + 1) (div_ceil stop block)) with
  | n :: _ => n * block
  | [] => stop
  end.
Definition missing_range (v : Version) (start stop : Z) : M (Z * Z) :=
  repair_segments (ver_id v) ;;
  value ← load (ver_id v);
  mret (start, missing_end (r_index value) (g_block (m_geometry (r_meta value))) start stop).

Definition update (id : Z) (meta : Metadata) : M unit :=
  text ← lift (ok_or (meta_to_json meta) "unserialisable"%string);
  exec_db (with_versions (alter (v_with_meta text) id)) ;;
  load id ;;
  modify (set_versions (alter (r_with_meta meta) id)).
(** [Store::retire]. *)
Definition retire (v : Version) : M unit := set_obsolete 1 (ver_id v).

Definition invalidate (provider : Z) : M unit :=
  invalidate_packs provider ;;
  s ← get_st;
  for_each (λ kv : Z * Resident,
    match r_lease kv.2 with
    | Some a => if (m_provider (r_meta kv.2) =? provider) && arc_live (st_arcs s) a
                then invalidate_lease a else mret tt
    | None => mret tt
    end) (map_to_list (st_versions s)) ;;
  exec_db (with_versions (fmap (λ r : VersionRow,
    if v_provider r =? provider then v_with_obsolete 2 r else r))) ;;
  evict 0.

(** ** [put_object] *)

(** The pack to append to: the most recently used one with room. *)
Definition pack_with_room (group : string) (length : Z) (d : Db) : option (string * Z) :=
  head ((λ kv : string * PackRow, (kv.1, p_length kv.2)) <$>
    sort_on (λ kv, [- p_last_use kv.2])
      (filter (λ kv, p_group kv.2 = group ∧ p_deleting kv.2 = 0 ∧ p_length kv.2 + length <= PACK_BYTES)
         (pack_rows d))).
Definition create_pack (meta : ObjectMetadata) : M (string * Z) :=
  token ← fresh_token;
  create_new (pack_name token) ;;
  created ← attempt (
    private_file (pack_name token) ;;
    write_all (pack_name token) 0 (pack_header token) ;;
    sync_all (pack_name token) ;;
    sync_directory ;;
    exec_db (with_packs (λ m, <[token := mk_PackRow
      (next_rowid ((λ kv : string * PackRow, p_rowid kv.2) <$> map_to_list m))
      (om_group meta) (om_provider meta) PACK_HEADER 0 0]> m)));
  len ← attempt (file_len (pack_name token));
  modify (set_sizes <[pack_name token :=
    (match len with Ok n => allocated n | Err _ => 4096 end, 1)]>) ;;
  match created with
  | Ok _ => mret (token, PACK_HEADER)
  | Err e => attempt (remove_managed (pack_name token)) ;; fail e
  end.
(** The two statements of the transaction. *)
Definition insert_object (meta : ObjectMetadata) (token : string) (offset clock : Z)
    (digest : list Z) : M unit :=
  text ← lift (ok_or (object_to_json meta) "unserialisable"%string);
  exec_db (with_objects <[om_key meta := mk_ObjectRow token offset (om_length meta) digest text]>) ;;
  exec_db (with_packs (alter (λ p, if p_deleting p =? 0
    then mk_PackRow (p_rowid p) (p_group p) (p_provider p) (offset + om_length meta) clock (p_deleting p)
    else p) token)).
Definition append_object (meta : ObjectMetadata) (bytes : list Z) (token : string) (offset : Z) : M unit :=
  actual ← read_exact (pack_name token) 0 64;
  size ← file_len (pack_name token);
  guard_st (bool_decide (actual = pack_header token) && (offset <=? size)) "invalid pack identity" ;;
  set_len (pack_name token) offset ;;
  write_all (pack_name token) offset bytes ;;
  sync_all (pack_name token) ;;
  digest ← lift (hash bytes);
  clock ← segment_tick;
  txn (insert_object meta token offset clock digest).
Definition put_object (meta : ObjectMetadata) (bytes : list Z) : M unit :=
  guard_st ((om_length meta =? zlen bytes) && (om_length meta <=? MAX_OBJECT)) "object admission limit" ;;
  evict (div_ceil (om_length meta + PACK_HEADER) 4096 * 4096) ;;
  existing ← query (pack_with_room (om_group meta) (om_length meta));
  '(token, offset) ← (match existing with
                      | Some (token, offset) =>
                        guard_st (0 <=? offset) "out of range" ;; mret (token, offset)
                      | None => create_pack meta
                      end);
  guard_st (managed_pack_name (pack_name token) && (PACK_HEADER <=? offset)
            && (offset + om_length meta <=? PACK_BYTES)) "invalid pack append" ;;
  regular_file (pack_name token) ;;
  io ;;  (* open *)
  result ← attempt (append_object meta bytes token offset);
  match result with
  | Err _ => attempt (set_len (pack_name token) offset) ;;
             attempt (sync_all (pack_name token)) ;; mret tt
  | Ok _ => mret tt
  end ;;
  len ← file_len (pack_name token);
  modify (set_sizes <[pack_name token := (allocated len, 1)]>) ;;
  lift result.
(** [Store::put_object]: [valid] is asked before and after. *)
Definition put_object_valid (meta : ObjectMetadata) (bytes : list Z) (before after : bool) : M unit :=
  guard_st before "object commit invalidated" ;;
  result ← attempt (put_object meta bytes);
  if after then lift result
  else remove_object (om_key meta) ;; fail "object commit invalidated"%string.
End Store.
