(* ===== verification/Materialize.v ===== *)
(** * Resource cache: published files and their leases

    Models [backend/main/src/resource_cache/materialize.rs] (turning a complete block file
    into a plain file, publishing it, and the leases local clients hold on it) and the
    opening and recovery of the store in [backend/main/src/resource_cache/store.rs]. *)
From S2P Require Import Prelude Text Format Policy Storage Segments Packs Store.
From stdpp Require Import options.

Open Scope Z_scope.

Section Materialize.
Context {D : Digest} `{!Platform}.

Definition LEASE_SECONDS : Z := 120.
Definition MAX_LEASES : Z := 256.
Record Ticket := mk_Ticket { t_version : Version; t_file : string }.

Definition ticket_reservation (length : Z) : Z := div_ceil length 4096 * 4096.
Definition ok_name (generation : string) : string := file_name generation "ok".
Definition tmp_name (generation : string) : string := file_name generation "ok.tmp".
Definition remove_outputs (generation : string) : M unit :=
  for_each (λ suffix, remove_managed (file_name generation suffix)) ["ok.tmp"; "ok"]%string.

(** ** Scheduling a conversion *)

Definition defer_build (id : Z) : M unit :=
  s ← get_st;
  let at_ := lease_now s + 30 in
  exec_db (with_complete (λ m, <[id := match m !! id with
    | Some r => mk_CompleteRow (c_ready r) (c_length r) (c_digest r) at_ (c_format r)
    | None => mk_CompleteRow 0 0 [] at_ 1 end]> m)).

Definition cleanup_plain_data : M unit :=
  names ← query (λ d, omap (λ kv : Z * VersionRow,
    c ← db_complete d !! kv.1;
    if c_ready c =? 1 then Some (data_name (v_generation kv.2)) else None) (map_to_list (db_versions d)));
  for_each (λ name,
    known ← gets (λ s, bool_decide (is_Some (st_sizes s !! name)));
    match known with true => remove_managed name | false => mret tt end) names.

Definition build_candidates (now cursor : Z) (d : Db) : list Z :=
  take 64 ((λ kv : Z * VersionRow, kv.1) <$>
    sort_on (λ kv, [kv.1]) (filter (λ kv : Z * VersionRow,
      (v_obsolete kv.2 =? 0) && is_none_or (db_complete d !! kv.1) (λ c, c_ready c =? 0)
      && (opt_default 0 (c_retry_at <$> db_complete d !! kv.1) <=? now) && (cursor <? kv.1))
      (map_to_list (db_versions d)))).
Definition buildable (v : Resident) : bool :=
  bool_decide (m_layout (r_meta v) = Blocks)
  && negb ((m_kind (r_meta v) =? 1) && (SEGMENT_BYTES <? g_length (m_geometry (r_meta v))))
  && Policy.store (m_policy (r_meta v)) && finished (r_index v).

(** The rest of an iteration, with the version held. *)
Definition prepare_build (v : Version) : M (option Ticket) :=
  let meta := ver_meta v in
  let generation := m_generation meta in
  let skip := defer_build (ver_id v) ;; drop_version v ;; mret None in
  cleaned ← attempt (remove_outputs generation);
  match cleaned with
  | Err _ => skip
  | Ok _ =>
    let reserved := ticket_reservation (g_length (m_geometry meta)) in
    room ← attempt (evict reserved);
    match room with
    | Err _ => skip
    | Ok _ =>
      prepared ← attempt (remove_outputs generation ;; create_new (tmp_name generation) ;;
                          private_file (tmp_name generation));
      match prepared with
      | Err _ => skip
      | Ok _ =>
        len ← file_len (tmp_name generation);
        modify (set_sizes <[tmp_name generation := (allocated len, m_kind meta)]>) ;;
        modify (set_building (Some (mk_Build (ver_id v) reserved))) ;;
        mret (Some (mk_Ticket v (tmp_name generation)))
      end
    end
  end.
Fixpoint build_loop (ids : list Z) : M (option Ticket) :=
  match ids with
  | [] => mret None
  | id :: ids =>
    modify (set_cursor id) ;;
    loaded ← attempt (load id);
    match loaded with
    | Err _ => build_loop ids
    | Ok value =>
      if negb (buildable value) then build_loop ids
      else
        v ← version id;
        prepared ← attempt (prepare_build v);
        match prepared with
        | Ok (Some t) => mret (Some t)
        | Ok None => build_loop ids
        | Err e => drop_version v ;; fail e
        end
    end
  end.
Definition next_build : M (option Ticket) :=
  s ← get_st;
  if negb (st_files_enabled s) then mret None
  else
    expire_leases ;;
    cleanup_garbage ;;
    cleanup_plain_data ;;
    attempt (evict 0) ;;
    s ← get_st;
    ids ← query (build_candidates (lease_now s) (st_scan_cursor s));
    match ids with
    | [] => modify (set_cursor 0) ;; mret None
    | _ => build_loop ids
    end.

(** ** Copying: [copy_blocks], each call a job of the storage thread *)

Definition check_build (id : Z) : M unit :=
  s ← get_st;
  guard_st (is_some_and (st_building s) (λ b, b_id b =? id)) "stale file ticket" ;;
  row ← query (λ d, db_versions d !! id);
  guard_st (is_some_and row (λ r, v_obsolete r =? 0)) "file generation retired".
Definition copied_block (id bytes : Z) : M unit :=
  check_build id ;;
  v ← load id;
  let meta := r_meta v in
  modify (set_sizes <[tmp_name (m_generation meta) := (bytes, m_kind meta)]>) ;;
  modify (set_building (Some (mk_Build id
    (sat_sub (ticket_reservation (g_length (m_geometry meta))) bytes)))).
Definition read_build (id block : Z) : M (list Z) :=
  check_build id ;;
  data ← read id block;
  lift (ok_or data "conversion block missing"%string).

(** [stop] is the cancellation flag as each round reads it. *)
Fixpoint copy_loop (t : Ticket) (stop : Z → bool) (blocks : list Z) (copied : list Z) : M (list Z) :=
  match blocks with
  | [] => mret copied
  | block :: blocks =>
    guard_st (negb (stop block)) "file conversion cancelled" ;;
    data ← read_build (ver_id (t_version t)) block;
    write_all (t_file t) (zlen copied) data ;;
    len ← file_len (t_file t);
    copied_block (ver_id (t_version t)) (allocated len) ;;
    copy_loop t stop blocks (copied ++ data)
  end.
Definition copy_blocks (t : Ticket) (stop : Z → bool) : M (list Z) :=
  let g := m_geometry (ver_meta (t_version t)) in
  copied ← copy_loop t stop (zrange 0 (Geometry_count g)) [];
  guard_st (zlen copied =? g_length g) "conversion length mismatch" ;;
  sync_all (t_file t) ;;
  digest ← lift (hash copied);
  guard_st (negb (stop (Geometry_count g))) "file verification cancelled" ;;
  written ← file_bytes (t_file t);
  guard_st (zlen written <=? zlen copied) "file grew during verification" ;;
  checked ← lift (hash written);
  guard_st ((zlen written =? zlen copied) && bool_decide (checked = digest)) "file verification failed" ;;
  mret digest.

(** ** Publishing *)

Definition insert_complete (id length : Z) (digest : list Z) (m : gmap Z CompleteRow)
  : gmap Z CompleteRow :=
  <[id := mk_CompleteRow 1 length digest 0 (match m !! id with Some r => c_format r | None => 1 end)]> m.
Definition publish_file (v : Version) (digest : list Z) : M unit :=
  let meta := ver_meta v in
  let generation := m_generation meta in
  check_build (ver_id v) ;;
  s ← get_st;
  guard_st (is_valid s v) "file provider invalidated" ;;
  r ← load (ver_id v);
  guard_st (finished (r_index r) && negb (r_plain r)) "file index not committed" ;;
  regular_file (tmp_name generation) ;;
  len ← file_len (tmp_name generation);
  guard_st (len =? g_length (m_geometry meta)) "file output size changed" ;;
  io ;;
  taken ← gets (λ s, bool_decide (is_Some (st_files s !! ok_name generation)));
  guard_st (negb taken) "file already published" ;;
  rename (tmp_name generation) (ok_name generation) ;;
  modify (set_sizes (base.delete (tmp_name generation))) ;;
  len ← file_len (ok_name generation);
  modify (set_sizes <[ok_name generation := (allocated len, m_kind meta)]>) ;;
  modify (λ s, match st_building s with
               | Some b => set_building (Some (mk_Build (b_id b) 0)) s | None => s end) ;;
  sync_directory ;;
  io ;;  (* open *)
  txn (exec_db (with_complete (insert_complete (ver_id v) (g_length (m_geometry meta)) digest))) ;;
  r ← load_hit (ver_id v);
  modify (set_versions (alter (r_with_plain (ok_name generation)) (ver_id v))) ;;
  modify (set_building None) ;;
  attempt cleanup_plain_data ;; mret tt.

Definition note_output (id : Z) (name : string) : M unit :=
  found ← attempt (io ;; e ← gets (λ s, st_files s !! name); lift (ok_or e "no such file"%string));
  match found with
  | Ok e =>
    value ← load_hit id;
    let n := match e with Regular b => zlen b | Special => 0 end in
    modify (set_sizes <[name := (allocated n, m_kind (r_meta value))]>)
  | Err _ => mret tt
  end.
Definition finish_failed (id : Z) : M unit :=
  modify (set_building None) ;;
  defer_build id ;;
  v ← load id;
  let generation := m_generation (r_meta v) in
  published ← plain id;
  match published with
  | true => mret tt
  | false =>
    for_each (λ suffix, note_output id (file_name generation suffix) ;;
                        remove_managed (file_name generation suffix)) ["ok.tmp"; "ok"]%string
  end.

(** One ticket of the worker: copy, publish, and clean up when either fails; [cancelled] is
    the flag read between the two. *)
Definition convert (t : Ticket) (stop : Z → bool) (cancelled : bool) : M unit :=
  digest ← attempt (copy_blocks t stop);
  published ← attempt (digest ← lift digest;
                       guard_st (negb cancelled) "file conversion cancelled" ;;
                       publish_file (t_version t) digest);
  match published with
  | Ok _ => mret tt
  | Err _ => attempt (finish_failed (ver_id (t_version t))) ;; mret tt
  end ;;
  drop_version (t_version t).

(** ** Leases of local clients *)

Record LocalFile := mk_LocalFile {
  lf_path : string; lf_generation : string; lf_token : string; lf_lifetime : Z
}.

(** The published file has its full length. *)
Definition file_intact (generation : string) (length : Z) : M bool :=
  regular ← attempt (regular_file (ok_name generation));
  match regular with
  | Err _ => mret false
  | Ok _ => len ← file_len (ok_name generation); mret (len =? length)
  end.
Definition protected_bytes (id : Z) (d : Db) : Z :=
  foldr Z.add 0 ((λ kv : Z * CompleteRow, c_length kv.2) <$>
    filter (λ kv : Z * CompleteRow,
      kv.1 ≠ id ∧ Exists (λ l : string * LeaseRow, l_version l.2 = kv.1) (map_to_list (db_leases d)))
      (map_to_list (db_complete d))).
Definition lease_budget (s : Storage) : Z := Z.min (st_capacity s / 2) (512 * 1024 * 1024).

Definition grant (id : Z) (client generation : string) : M (option LocalFile) :=
  token ← fresh_token;
  persist_clock ;;
  s ← get_st;
  exec_db (with_leases <[token := mk_LeaseRow id client (lease_now s + LEASE_SECONDS)]>) ;;
  mret (Some (mk_LocalFile (ok_name generation) generation token LEASE_SECONDS)).
Definition acquire_file (id : Z) (client : string) : M (option LocalFile) :=
  expire_leases ;;
  s ← get_st;
  if k_uncertain (st_clocks s) then mret None
  else
    published ← plain id;
    match published with
    | false => mret None
    | true =>
      row ← query (λ d, db_versions d !! id);
      if negb (is_some_and row (λ r, v_obsolete r =? 0)) then mret None
      else
        v ← load id;
        let generation := m_generation (r_meta v) in
        let length := g_length (m_geometry (r_meta v)) in
        if negb (m_kind (r_meta v) =? 0) then mret None
        else
          intact ← file_intact generation length;
          match intact with
          | false => retire_corrupt id ;; fail plain_corrupt
          | true =>
            count ← query (λ d, Z.of_nat (size (db_leases d)));
            if MAX_LEASES <=? count then mret None
            else
              protected ← query (protected_bytes id);
              s ← get_st;
              if lease_budget s <? sat_add protected length then mret None
              else grant id client generation
          end
    end.
Definition lease_of (token client : string) (now : Z) (d : Db) : option Z :=
  l ← db_leases d !! token;
  v ← db_versions d !! l_version l;
  if str_eqb (l_client l) client && (v_obsolete v =? 0) && (now <? l_expires l)
  then Some (l_version l) else None.
Definition renew_file (token client : string) : M bool :=
  expire_leases ;;
  s ← get_st;
  if k_uncertain (st_clocks s) then mret false
  else
    id ← query (lease_of token client (lease_now s));
    match id with
    | None => mret false
    | Some id =>
      v ← load id;
      intact ← file_intact (m_generation (r_meta v)) (g_length (m_geometry (r_meta v)));
      match intact with
      | false => retire_corrupt id ;; mret false
      | true =>
        persist_clock ;;
        s ← get_st;
        exec_db (with_leases (alter (λ l, if str_eqb (l_client l) client
          then mk_LeaseRow (l_version l) (l_client l) (lease_now s + LEASE_SECONDS) else l) token)) ;;
        mret true
      end
    end.
Definition release_file (token client : string) : M unit :=
  exec_db (with_leases (filter (λ kv : string * LeaseRow,
    ¬ (kv.1 = token ∧ l_client kv.2 = client)))) ;;
  evict 0.

(** ** Opening the store *)

Definition CAPACITY : Z := 32 * 1024 * 1024 * 1024.

Definition restore_leases : M unit :=
  old ← query (λ d, opt_default 0 (db_clock d));
  modify (set_clocks (λ k, mk_Clocks (k_segment k) (Z.max (k_clock k) old) (k_clock k <? old) (k_grace k))) ;;
  held ← query (λ d, negb (bool_decide (db_leases d = ∅)));
  modify (λ s, if (held : bool)
    then set_clocks (λ k, mk_Clocks (k_segment k) (k_clock k) (k_uncertain k)
                            (Some (e_elapsed (w_env (st_world s)) + LEASE_SECONDS))) s
    else s) ;;
  persist_clock.

(** The rows of a recovery: an unreadable one aborts it, one with an invalid generation is
    deleted, and the file of a [Blocks] version is retained. *)
Fixpoint scan_versions (d : Db) (rows : list (Z * VersionRow)) (retained : gmap string Z)
    (invalid : list Z) : result string (gmap string Z * list Z) :=
  match rows with
  | [] => Ok (retained, invalid)
  | (id, row) :: rows =>
    meta ← ok_or (meta_from_json (v_meta row)) "invalid metadata"%string;
    if valid_generation (m_generation meta) then
      let ready := is_some_and (db_complete d !! id) (λ c, c_ready c =? 1) in
      let retained := if bool_decide (m_layout meta = Blocks)
        then <[file_name (m_generation meta) (if ready then "ok" else "data") := m_kind meta]> retained
        else retained in
      scan_versions d rows retained invalid
    else scan_versions d rows retained (invalid ++ [id])
  end.
Definition retain_leased (d : Db) (retained : gmap string Z) : gmap string Z :=
  foldr (λ (l : string * LeaseRow) acc,
    match db_versions d !! l_version l.2 with
    | Some v => if valid_generation (v_generation v)
                then <[ok_name (v_generation v) := v_kind v]> acc else acc
    | None => acc
    end) retained (map_to_list (db_leases d)).
Definition entry_bytes (e : Entry) : Z := match e with Regular b => allocated (zlen b) | Special => 0 end.
Definition recover_entry (retained : gmap string Z) (kv : string * Entry) : M unit :=
  match retained !! kv.1 with
  | Some kind => io ;; modify (set_sizes <[kv.1 := (entry_bytes kv.2, kind)]>)
  | None =>
    if managed_name kv.1
    then io ;; modify (set_sizes <[kv.1 := (entry_bytes kv.2, 0)]>) ;;
         attempt (remove_managed kv.1) ;; mret tt
    else mret tt
  end.
Definition recover : M unit :=
  d ← query (λ d, d);
  '(retained, invalid) ← lift (scan_versions d (sort_on (λ kv, [kv.1]) (map_to_list (db_versions d))) ∅ []);
  d ← query (λ d, d);
  let retained := retain_leased d retained in
  for_each (λ id, set_obsolete 2 id ;; attempt (delete_version id) ;; mret tt) invalid ;;
  retained ← retain_segments retained;
  retained ← retain_packs retained;
  io ;;
  entries ← gets (λ s, map_to_list (st_files s));
  for_each (recover_entry retained) entries ;;
  attempt (evict 0) ;; mret tt.

(** The state a process starts with, over what is on the disk. *)
Definition initial (db : Db) (files : gmap string Entry) (world : World) (capacity : option string)
    (files_enabled : bool) : Storage :=
  mk_Storage db files ∅ ∅ ∅ ∅ None 0 (mk_Clocks 0 (e_now (w_env world)) false None)
    (mk_Arcs ∅ ∅ 0) world (opt_default CAPACITY (capacity ≫= parse_u64)) files_enabled false.
Definition open : M unit := restore_segment_clock ;; restore_leases ;; recover.
(** [Store::shutdown]. *)
Definition shutdown : M unit := io ;; modify set_stopped.
End Materialize.
