(* ===== verification/Steps.v ===== *)
(** * Resource cache: the elementary steps

    Every storage operation is a sequence of elementary steps, whatever fails and wherever
    the process dies. [tidy] are those of loading, repairing and removing segments; [maint]
    adds those of deletion and eviction. A property of all the states an operation can leave
    behind is then checked once per step. *)
From S2P Require Import Prelude Text Format Policy Storage Segments Packs Store.
From stdpp Require Import options.
#[local] Set Default Proof Using "Type*".

Open Scope Z_scope.

(** ** Facts about indices and names *)

Lemma Index_get_range v b x : wf_index v → Index_get v b = Some x → 0 ≤ b < Geometry_count (ix_geometry v).
Proof.
  intros Hwf Hx. assert (0 ≤ b) as Hb.
  { unfold Index_get in Hx. apply bind_Some in Hx as (start & Hs & Hx).
    apply bind_Some in Hx as (stop & Ht & Hx). apply bind_Some in Hx as (e & He & _).
    apply slice_Some in He. unfold checked_mul in Hs. case_match; [|done]. injection Hs as <-.
    unfold ENTRY_LEN in *. lia. }
  split; [done|]. destruct (Z.ltb_spec b (Geometry_count (ix_geometry v))); [done|].
  rewrite Index_get_out in Hx by done. done.
Qed.

Lemma clear_blocks_ok db bs : ∀ v, wf_index v → synced db v →
  let v' := clear_blocks v bs in
  wf_index v' ∧ synced db v' ∧ ix_geometry v' = ix_geometry v ∧
  ∀ b, Index_get v' b = if decide (b ∈ bs) then None else Index_get v b.
Proof.
  induction bs as [|x bs IH]; intros v Hwf Hsy; cbn [clear_blocks foldl].
  { by split_and!. }
  set (v1 := match Index_get v x with Some _ => _ | None => v end).
  assert (wf_index v1 ∧ synced db v1 ∧ ix_geometry v1 = ix_geometry v ∧
    ∀ b, Index_get v1 b = if decide (b = x) then None else Index_get v b) as (Hwf1 & Hsy1 & Hg1 & Hget1).
  { unfold v1. destruct (Index_get v x) as [p|] eqn:Hx.
    - pose proof (Index_get_range _ _ _ Hwf Hx) as Hr.
      destruct (remove_bytes_get v x Hwf Hr) as (Hwf' & Hnone & Hoth). split_and!; [done| |done|].
      + rewrite Index_remove_eq by done. apply synced_write; [done|done| |done]. by rewrite zlen_replicate.
      + intros b. case_decide as Hb; [by subst|]. destruct (decide (0 ≤ b)); [by apply Hoth|].
        destruct (Index_get (Index_remove v x) b) eqn:H1; [apply Index_get_range in H1; [lia|done]|].
        destruct (Index_get v b) eqn:H2; [apply Index_get_range in H2; [lia|done]|done].
    - split_and!; try done. intros b. case_decide; [by subst|done]. }
  destruct (IH v1 Hwf1 Hsy1) as (Hwf2 & Hsy2 & Hg2 & Hget2).
  split_and!; [done|done|by etrans|]. intros b.
  change (foldl _ v1 bs) with (clear_blocks v1 bs). rewrite Hget2, Hget1.
  repeat case_decide; try done; set_solver.
Qed.

Lemma seg_not_plain a : managed_plain_name (a +:+ ".seg") = false.
Proof. unfold managed_plain_name, strip_suffix. cbn [existsb]. by rewrite srev_append. Qed.
(** Whether a name is that of a pack file. *)
Definition pack_file (name : string) : bool := is_some_and (strip_suffix ".pack" name) (λ _, true).
Lemma seg_not_pack a : pack_file (a +:+ ".seg") = false.
Proof. unfold pack_file, strip_suffix. by rewrite srev_append. Qed.
Lemma pack_not_plain a : managed_plain_name (a +:+ ".pack") = false.
Proof. unfold managed_plain_name, strip_suffix. cbn [existsb]. by rewrite srev_append. Qed.

Section Steps.
Context {D : Digest} `{!Platform}.

(** ** The invariant *)

(** The blocks of a segment that is being deleted are gone from the index. *)
Definition deleting_clear (segs : gmap (Z * Z) SegmentRow) (id : Z) (meta : Metadata) (index : Index) : Prop :=
  ∀ n seg size b, segs !! (id, n) = Some seg → s_deleting seg ≠ 0 →
    segment_bytes (m_layout meta) = Some size → b ∈ segment_blocks meta size n →
    Index_get index b = None.
Definition stored_index (row : VersionRow) (meta : Metadata) : Index :=
  mk_Index (v_blocks row) [] (m_geometry meta).

Record resident_ok (row : VersionRow) (r : Resident) : Prop := {
  ro_wf : wf_index (r_index r);
  ro_synced : synced (v_blocks row) (r_index r);
  ro_meta : meta_from_json (v_meta row) = Some (r_meta r);
  ro_geometry : ix_geometry (r_index r) = m_geometry (r_meta r);
  ro_layout : Layout_validate (m_layout (r_meta r)) (m_geometry (r_meta r)) = Ok tt;
  ro_committed : segment_bytes (m_layout (r_meta r)) ≠ None → ix_dirty (r_index r) = [];
}.
(** In memory and in the tables: a resident version has its row, the stored index agrees
    with the one in memory outside the ranges still dirty, and no entry points into a segment
    whose deletion has begun. *)
Record Inv (s : Storage) : Prop := {
  inv_resident : ∀ id r, st_versions s !! id = Some r →
    ∃ row, db_versions (st_db s) !! id = Some row ∧ resident_ok row r;
  inv_deleting : ∀ id row meta, db_versions (st_db s) !! id = Some row →
    meta_from_json (v_meta row) = Some meta →
    Layout_validate (m_layout meta) (m_geometry meta) = Ok tt →
    zlen (v_blocks row) = Geometry_count (m_geometry meta) * ENTRY_LEN →
    deleting_clear (db_segments (st_db s)) id meta (stored_index row meta);
}.

(** ** Steps of loading and repairing *)

(** A transaction that stores [index] and changes the segment rows with [f], and the
    assignment of the index in memory that follows it. *)
Definition publish_state (id : Z) (index : Index)
    (f : gmap (Z * Z) SegmentRow → gmap (Z * Z) SegmentRow) (s : Storage) : Storage :=
  set_versions (alter (r_with_index (mk_Index (ix_bytes index) [] (ix_geometry index))) id)
    (set_db (λ d, with_segments f (with_versions (alter (v_with_blocks (ix_bytes index)) id) d)) s).

(** Every entry of the second index is one of the first. *)
Definition index_within (v v' : Index) : Prop :=
  ∀ b x, Index_get v' b = Some x → Index_get v b = Some x.
#[export] Instance index_within_preorder : PreOrder index_within.
Proof. split; [by intros v b x|]. intros v1 v2 v3 H12 H23 b x Hx. by apply H12, H23. Qed.

Inductive tidy : Storage → Storage → Prop :=
| T_spend s : tidy s (set_world spend s)
| T_die s : tidy s (set_world die s)
| T_sizes f s : tidy s (set_sizes f s)
| T_garbage f s : tidy s (set_garbage f s)
| T_tick t s : tidy s (set_clocks (λ k, mk_Clocks t (k_clock k) (k_uncertain k) (k_grace k)) s)
| T_unlink name s :
    managed_plain_name name = false → pack_file name = false → tidy s (set_files (delete name) s)
| T_trim g b b' s :
    st_files s !! data_name g = Some (Regular b) → tidy s (set_files <[data_name g := Regular b']> s)
| T_sort id r s :
    st_versions s !! id = Some r →
    tidy s (set_versions (alter (r_with_index (Index_dirty (r_index r)).2) id) s)
| T_publish id r row index f s :
    st_versions s !! id = Some r → db_versions (st_db s) !! id = Some row →
    wf_index index → synced (v_blocks row) index → ix_geometry index = ix_geometry (r_index r) →
    deleting_clear (f (db_segments (st_db s))) id (r_meta r) index →
    (∀ id' n, id' ≠ id → f (db_segments (st_db s)) !! (id', n) = db_segments (st_db s) !! (id', n)) →
    index_within (r_index r) index →
    tidy s (publish_state id index f s)
| T_touch f s :
    (∀ k, s_deleting <$> f (db_segments (st_db s)) !! k = s_deleting <$> db_segments (st_db s) !! k) →
    tidy s (set_db (with_segments f) s)
| T_forget_segment key s : tidy s (set_db (with_segments (delete key)) s)
| T_drop id s : lease_held s id = false → tidy s (set_versions (delete id) s)
| T_load id row r s :
    st_versions s !! id = None → db_versions (st_db s) !! id = Some row →
    meta_from_json (v_meta row) = Some (r_meta r) →
    Layout_validate (m_layout (r_meta r)) (m_geometry (r_meta r)) = Ok tt →
    zlen (v_blocks row) = Geometry_count (m_geometry (r_meta r)) * ENTRY_LEN →
    r_lease r = None → r_index r = stored_index row (r_meta r) →
    tidy s (set_versions <[id := r]> s).

Context `{!PlatformLaws}.

Lemma resident_ok_layout row r : resident_ok row r → wf_geometry (m_geometry (r_meta r)).
Proof. intros [Hwf _ _ Hg _ _]. rewrite <- Hg. by apply wfi_geometry. Qed.

Lemma synced_zlen db v : synced db v → zlen db = zlen (ix_bytes v).
Proof. by intros []. Qed.
Lemma synced_clean bytes g : synced bytes (mk_Index bytes [] g).
Proof. split; [done|]. split; [constructor|done]. Qed.
Lemma synced_clean_inv db bytes g : synced db (mk_Index bytes [] g) → db = bytes.
Proof.
  intros (Hl & _ & Hk). cbn in *. apply list_eq. intros i. specialize (Hk (Z.of_nat i)).
  rewrite Nat2Z.id in Hk. apply Hk; [lia|]. rewrite covered_nil. tauto.
Qed.
Lemma synced_sorted db v : synced db v → synced db (Index_dirty v).2.
Proof.
  intros (Hl & Hw & Hk). split; [done|]. cbn. split.
  - by rewrite sort_by_start_perm.
  - intros k Hk0. rewrite sort_by_start_perm. by apply Hk.
Qed.

(** A segment-layout index is its stored bytes. *)
Lemma resident_stored row r :
  resident_ok row r → segment_bytes (m_layout (r_meta r)) ≠ None →
  r_index r = stored_index row (r_meta r).
Proof.
  intros [Hwf Hs Hm Hg Hv Hc] Hsz. specialize (Hc Hsz). unfold stored_index.
  destruct (r_index r) as [bytes dirty g]. cbn in *. subst dirty g.
  by apply synced_clean_inv in Hs as ->.
Qed.

(** A change of anything but versions and segments. *)
Definition same_versions (s s' : Storage) : Prop :=
  db_versions (st_db s') = db_versions (st_db s) ∧ db_segments (st_db s') = db_segments (st_db s) ∧
  st_versions s' = st_versions s.
#[local] Instance same_versions_preorder : PreOrder same_versions.
Proof. split; [by intros s|]. intros s1 s2 s3 (?&?&?) (?&?&?). split_and!; congruence. Qed.
Lemma inv_same s s' : Inv s → same_versions s s' → Inv s'.
Proof. intros [H1 H2] (Hv & Hs & Hr). split; rewrite Hv, ?Hs, ?Hr; auto. Qed.
(** Rows that keep their index and metadata. *)
Definition row_data (r : VersionRow) : string * list Z := (v_meta r, v_blocks r).
Lemma rows_inv s f :
  (∀ id, row_data <$> f (db_versions (st_db s)) !! id = row_data <$> db_versions (st_db s) !! id) →
  Inv s → Inv (set_db (with_versions f) s).
Proof.
  intros Hf [H1 H2].
  assert (Hrow : ∀ id row, f (db_versions (st_db s)) !! id = Some row →
    ∃ row0, db_versions (st_db s) !! id = Some row0 ∧ v_meta row0 = v_meta row ∧ v_blocks row0 = v_blocks row).
  { intros id row Hr. specialize (Hf id). rewrite Hr in Hf. cbn in Hf. symmetry in Hf.
    apply fmap_Some in Hf as (row0 & Hr0 & [= E1 E2]). by exists row0. }
  split; cbn.
  - intros id r Hr. destruct (H1 id r Hr) as (row0 & Hr0 & [Hwf Hs Hm Hg Hv Hc]).
    specialize (Hf id). rewrite Hr0 in Hf. cbn in Hf. apply fmap_Some in Hf as (row & Hr' & [= E1 E2]).
    exists row. split; [done|]. split; [done|by rewrite <- E2|by rewrite <- E1|done..].
  - intros id row meta Hr Hm Hlay Hlen. destruct (Hrow id row Hr) as (row0 & Hr0 & E1 & E2).
    unfold stored_index. rewrite <- E2. rewrite <- E1 in Hm. rewrite <- E2 in Hlen. by eapply (H2 id row0).
Qed.
Lemma inv_frame s s' :
  Inv s → st_db s' = st_db s → st_versions s' = st_versions s → Inv s'.
Proof. intros [H1 H2] Hd Hv. split; rewrite Hd, ?Hv; auto. Qed.

Lemma publish_state_inv s id r row index f :
  Inv s → st_versions s !! id = Some r → db_versions (st_db s) !! id = Some row →
  wf_index index → synced (v_blocks row) index → ix_geometry index = ix_geometry (r_index r) →
  deleting_clear (f (db_segments (st_db s))) id (r_meta r) index →
  (∀ id' n, id' ≠ id → f (db_segments (st_db s)) !! (id', n) = db_segments (st_db s) !! (id', n)) →
  Inv (publish_state id index f s).
Proof.
  intros [Hres Hdel] Hr Hrow Hwf Hsy Hg Hdc Hoth.
  destruct (Hres id r Hr) as (row' & Hrow' & [Hwf0 Hs0 Hm0 Hg0 Hv0 Hc0]).
  assert (row' = row) as -> by congruence. split; cbn.
  + intros id' r' Hr'. destruct (decide (id' = id)) as [->|Hne].
    * rewrite lookup_alter_eq, Hr in Hr'. injection Hr' as <-.
      rewrite lookup_alter_eq, Hrow. eexists. split; [done|].
      split; [by destruct Hwf; split|apply synced_clean|done|cbn; congruence|done|done].
    * rewrite lookup_alter_ne in Hr' by done. rewrite lookup_alter_ne by done. by apply Hres.
  + intros id' row' meta Hrow'' Hmeta Hlay Hlen. destruct (decide (id' = id)) as [->|Hne].
    * rewrite lookup_alter_eq, Hrow in Hrow''. injection Hrow'' as <-. cbn in *.
      assert (meta = r_meta r) as -> by congruence.
      intros n seg size b Hseg Hd Hsz Hb. specialize (Hdc n seg size b Hseg Hd Hsz Hb).
      unfold stored_index. cbn. rewrite <- Hg0, <- Hg. unfold Index_get in *. exact Hdc.
    * rewrite lookup_alter_ne in Hrow'' by done.
      intros n seg size b Hseg. rewrite Hoth in Hseg by done. by eapply Hdel.
Qed.
Lemma tidy_inv s s' : tidy s s' → Inv s → Inv s'.
Proof.
  intros Ht HI. pose proof HI as [Hres Hdel].
  destruct Ht as [s|s|f s|f s|t s|name s Hname Hpack|g b b' s Hf|id r s Hr
    |id r row index f s Hr Hrow Hwf Hsy Hg Hdc Hoth Hsub|f s Hf|key s|id s Hl
    |id row r s Hn Hrow Hm Hlay Hlen Hle Hix]; try (by eapply inv_frame).
  - (* sort *) split; [|exact Hdel]. cbn. intros id' r' Hr'.
    destruct (decide (id' = id)) as [->|Hne].
    + rewrite lookup_alter_eq, Hr in Hr'. injection Hr' as <-.
      destruct (Hres id r Hr) as (row & Hrow & [Hwf Hs Hm Hg Hv Hc]).
      exists row. split; [done|]. split; cbn; try done.
      * by destruct Hwf; split.
      * by apply synced_sorted.
      * intros Hn. by rewrite (Hc Hn).
    + rewrite lookup_alter_ne in Hr' by done. by apply Hres.
  - (* publish *) by eapply publish_state_inv.
  - (* touch *) split; [exact Hres|]. cbn. intros id row meta Hrow Hmeta Hlay Hlen n seg size b Hseg Hd Hsz Hb.
    specialize (Hf (id, n)). rewrite Hseg in Hf. cbn in Hf. symmetry in Hf.
    apply fmap_Some in Hf as (seg' & Hseg' & Heq). eapply Hdel; eauto; congruence.
  - (* forget *) split; [exact Hres|]. cbn. intros id row meta Hrow Hmeta Hlay Hlen n seg size b Hseg.
    apply lookup_delete_Some in Hseg as [_ Hseg]. by eapply Hdel.
  - (* drop *) split; [|exact Hdel]. cbn. intros id' r' Hr'. apply lookup_delete_Some in Hr' as [_ Hr'].
    by apply Hres.
  - (* load *) split; [|exact Hdel]. cbn. intros id' r' Hr'.
    destruct (decide (id' = id)) as [->|Hne].
    + rewrite lookup_insert_eq in Hr'. injection Hr' as <-. exists row. split; [done|].
      assert (wf_geometry (m_geometry (r_meta r))) as Hg.
      { eapply layout_validate_wf; [by eapply meta_machine|done]. }
      split; rewrite ?Hix; [done|apply synced_clean|done..].
    + rewrite lookup_insert_ne in Hr' by done. by apply Hres.
Qed.
(** ** Programs that touch the tables only *)

Inductive wstep : World → World → Prop :=
| W_spend w : wstep w (spend w)
| W_die w : wstep w (die w).

Definition dbprog {A} (P : Db → A → Db → Prop) (m : M A) : Prop := ∀ s,
  ∃ w d r, m s = (r, set_world (λ _, w) (set_db (λ _, d) s)) ∧ rtc wstep (st_world s) w ∧
    ∀ a, r = Ok a → P (st_db s) a d.

Lemma set_same s : set_world (λ _, st_world s) (set_db (λ _, st_db s) s) = s.
Proof. by destruct s. Qed.

Lemma io_cases s : ∃ w, rtc wstep (st_world s) w ∧
  (io s = (Ok tt, set_world (λ _, w) s) ∨ ∃ e, io s = (Err e, set_world (λ _, w) s)).
Proof.
  unfold io, io_with. destruct (w_dead (st_world s)) eqn:Hd.
  { exists (st_world s). split; [done|]. right. exists "crashed"%string. by destruct s. }
  destruct (w_outcomes (st_world s)) as [|[|n|n] os].
  - exists (st_world s). split; [done|]. left. by destruct s.
  - exists (spend (st_world s)). split; [apply rtc_once; constructor|]. by left.
  - exists (spend (st_world s)). split; [apply rtc_once; constructor|]. right. eauto.
  - exists (die (st_world s)). split; [apply rtc_once; constructor|]. right. eauto.
Qed.

Lemma dbprog_ret {A} (a : A) : dbprog (λ d x d', x = a ∧ d' = d) (mret a).
Proof.
  intros s. exists (st_world s), (st_db s), (Ok a). rewrite set_same. split_and!; [done|done|].
  by intros x [= ->].
Qed.
Lemma dbprog_lift {A} (r : result string A) : dbprog (λ d x d', r = Ok x ∧ d' = d) (lift r : M A).
Proof. intros s. exists (st_world s), (st_db s), r. rewrite set_same. split_and!; done. Qed.
Lemma dbprog_bind {A B} P Q (m : M A) (f : A → M B) :
  dbprog P m → (∀ a, dbprog (Q a) (f a)) →
  dbprog (λ d b d', ∃ a d1, P d a d1 ∧ Q a d1 b d') (m ≫= f).
Proof.
  intros Hm Hf s. unfold mbind, st_bind.
  destruct (Hm s) as (w & d & r & Hr & Hw & HP). rewrite Hr. destruct r as [a|e].
  - destruct (Hf a (set_world (λ _, w) (set_db (λ _, d) s))) as (w' & d' & r' & Hr' & Hw' & HQ).
    exists w', d', r'. split_and!; [by rewrite Hr'|by etrans|]. intros b Hb. exists a, d.
    split; [by apply HP|by apply HQ].
  - exists w, d, (Err e). split_and!; done.
Qed.
Lemma dbprog_io : dbprog (λ d _ d', d' = d) io.
Proof.
  intros s. destruct (io_cases s) as (w & Hw & [Hio|[e Hio]]); exists w, (st_db s); rewrite Hio;
    eexists; (split_and!; [by destruct s|done|done]).
Qed.
Lemma dbprog_exec f : dbprog (λ d _ d', d' = f d) (exec_db f).
Proof.
  intros s. unfold exec_db, mbind, st_bind.
  destruct (io_cases s) as (w & Hw & [Hio|[e Hio]]); rewrite Hio.
  - exists w, (f (st_db s)), (Ok tt). by split_and!.
  - exists w, (st_db s), (Err e). split_and!; [by destruct s|done|done].
Qed.
Lemma dbprog_query {A} (f : Db → A) : dbprog (λ d a d', a = f d ∧ d' = d) (query f).
Proof.
  intros s. unfold query, mbind, st_bind.
  destruct (io_cases s) as (w & Hw & [Hio|[e Hio]]); rewrite Hio.
  - exists w, (st_db s), (Ok (f (st_db s))). split_and!; [by destruct s|done|]. by intros a [= <-].
  - exists w, (st_db s), (Err e). split_and!; [by destruct s|done|done].
Qed.
Lemma dbprog_modify f : dbprog (λ d _ d', d' = f d) (modify (set_db f) : M unit).
Proof. intros s. exists (st_world s), (f (st_db s)), (Ok tt). by destruct s. Qed.
Lemma dbprog_impl {A} (P Q : Db → A → Db → Prop) m :
  dbprog P m → (∀ d a d', P d a d' → Q d a d') → dbprog Q m.
Proof.
  intros Hm HI s. destruct (Hm s) as (w & d & r & Hr & Hw & HP). exists w, d, r. naive_solver.
Qed.
Lemma dbprog_for_each {A} (g : A → Db → Db) (f : A → M unit) l :
  (∀ x, dbprog (λ d _ d', d' = g x d) (f x)) →
  dbprog (λ d _ d', d' = foldl (λ d x, g x d) d l) (for_each f l).
Proof.
  intros Hf. induction l as [|x l IH]; cbn [for_each].
  { eapply dbprog_impl; [apply dbprog_ret|]. naive_solver. }
  eapply dbprog_impl; [eapply dbprog_bind; [apply Hf|intros ?; exact IH]|]. naive_solver.
Qed.

Lemma finish_txn_run {A} before (m : M A) s r s1 :
  (a ← m; io ;; mret a) s = (r, s1) →
  finish_txn before m s = match r with
                          | Ok a => (Ok (Ok a), s1)
                          | Err e => (Ok (Err e), set_db (λ _, before) s1)
                          end.
Proof.
  intros Hrun. unfold finish_txn. erewrite bind_run by (by apply attempt_run).
  destruct r; [done|]. by erewrite bind_run.
Qed.

(** A transaction either leaves the tables as they were or commits all of it. *)
Lemma finish_txn_cases {A} P (m : M A) s : dbprog P m →
  ∃ w, rtc wstep (st_world s) w ∧
    ((∃ e, finish_txn (st_db s) m s = (Ok (Err e), set_world (λ _, w) s)) ∨
     (∃ a d, finish_txn (st_db s) m s = (Ok (Ok a), set_world (λ _, w) (set_db (λ _, d) s)) ∧ P (st_db s) a d)).
Proof.
  intros Hm. destruct (Hm s) as (w1 & d & r & Hr & Hw1 & HP). destruct r as [a|e].
  2: { exists w1. split; [done|]. left. exists e.
       rewrite (finish_txn_run (st_db s) m s (Err e) _ (bind_run_Err _ _ _ _ _ Hr)). by destruct s. }
  destruct (io_cases (set_world (λ _, w1) (set_db (λ _, d) s))) as (w2 & Hw2 & [Hio2|[e Hio2]]);
    exists w2; (split; [by etrans|]).
  - right. exists a, d. split; [|by apply HP].
    by rewrite (finish_txn_run (st_db s) m s (Ok a) (set_world (λ _, w2) (set_db (λ _, d) s)))
      by (unfold mbind, st_bind; rewrite Hr, Hio2; by destruct s).
  - left. exists e.
    rewrite (finish_txn_run (st_db s) m s (Err e) (set_world (λ _, w2) (set_db (λ _, d) s)))
      by (unfold mbind, st_bind; rewrite Hr, Hio2; by destruct s). by destruct s.
Qed.
Lemma txn_cases {A} P (m : M A) s : dbprog P m →
  ∃ w, rtc wstep (st_world s) w ∧
    ((∃ e, txn m s = (Err e, set_world (λ _, w) s)) ∨
     (∃ a d, txn m s = (Ok a, set_world (λ _, w) (set_db (λ _, d) s)) ∧ P (st_db s) a d)).
Proof.
  intros Hm. unfold txn.
  destruct (io_cases s) as (w & Hw & [Hio|[e Hio]]).
  2: { exists w. split; [done|]. left. exists e. apply bind_run_Err.
       unfold begin_immediate. by apply bind_run_Err. }
  erewrite bind_run; [|unfold begin_immediate; by erewrite bind_run by exact Hio].
  destruct (finish_txn_cases P m (set_world (λ _, w) s) Hm) as (w2 & Hw2 & [[e He]|(a & d & Ht & HP)]);
    exists w2; (split; [by etrans|]).
  - left. exists e. by erewrite bind_run by exact He.
  - right. exists a, d. split; [|done]. by erewrite bind_run by exact Ht.
Qed.

Lemma dbprog_patch id bytes ranges :
  dbprog (λ d _ d', ∃ row b, db_versions d !! id = Some row ∧ patch_blob (v_blocks row) bytes ranges = Ok b ∧
    d' = with_versions (alter (v_with_blocks b) id) d) (patch id bytes ranges).
Proof.
  unfold patch. eapply dbprog_impl.
  { eapply dbprog_bind; [apply dbprog_query|intros a].
    eapply dbprog_bind; [apply dbprog_lift|intros row].
    eapply dbprog_bind; [apply dbprog_lift|intros b]. apply dbprog_modify. }
  cbn. intros d _ d' (a & d1 & [-> ->] & row & d2 & [Hrow ->] & b & d3 & [Hb ->] & ->).
  apply ok_or_Ok in Hrow. eauto.
Qed.

(** ** Which operations are sequences of [tidy] steps *)

Definition tidied (s s' : Storage) : Prop := Inv s → rtc tidy s s'.

Lemma rtc_tidy_inv s s' : rtc tidy s s' → Inv s → Inv s'.
Proof. induction 1 as [|s1 s2 s3 H1 _ IH]; [done|]. intros HI. by eapply IH, tidy_inv. Qed.
#[local] Instance tidied_preorder : PreOrder tidied.
Proof.
  split; [by intros s _|]. intros s1 s2 s3 H12 H23 HI. etrans; [by apply H12|].
  apply H23. eapply rtc_tidy_inv; [by apply H12|done].
Qed.

Lemma tidy_once s s' : tidy s s' → tidied s s'.
Proof. intros Ht _. by apply rtc_once. Qed.
Lemma tidy_world s w : rtc wstep (st_world s) w → rtc tidy s (set_world (λ _, w) s).
Proof.
  intros Hw. remember (st_world s) as w0 eqn:Hw0. revert s Hw0.
  induction Hw as [w|w1 w2 w3 H12 _ IH]; intros s Hw0.
  { subst w. by destruct s. }
  etrans; [apply rtc_once|by eapply (IH (set_world (λ _, w2) s))].
  destruct H12; subst w.
  - replace (set_world (λ _, spend (st_world s)) s) with (set_world spend s) by by destruct s.
    apply T_spend.
  - replace (set_world (λ _, die (st_world s)) s) with (set_world die s) by by destruct s. apply T_die.
Qed.
Lemma tidied_world s w : rtc wstep (st_world s) w → tidied s (set_world (λ _, w) s).
Proof. intros Hw _. by apply tidy_world. Qed.

Lemma io_tidies : steps tidied io.
Proof.
  intros s. destruct (io_cases s) as (w & Hw & [Hio|[e Hio]]); rewrite Hio; by apply tidied_world.
Qed.
Lemma query_tidies {A} (f : Db → A) : steps tidied (query f).
Proof. apply (steps_bind _); [apply io_tidies|intros _]. apply (steps_gets _). Qed.
#[local] Hint Resolve io_tidies query_tidies : qcm.

Lemma regular_file_tidies name : steps tidied (regular_file name).
Proof. unfold regular_file. steps_walk. Qed.
Lemma file_bytes_tidies name : steps tidied (file_bytes name).
Proof. unfold file_bytes. steps_walk. Qed.
#[local] Hint Resolve regular_file_tidies file_bytes_tidies : qcm.
Lemma file_len_tidies name : steps tidied (file_len name).
Proof. unfold file_len. steps_walk. Qed.
Lemma read_exact_tidies name offset n : steps tidied (read_exact name offset n).
Proof. unfold read_exact. steps_walk. Qed.
#[local] Hint Resolve file_len_tidies read_exact_tidies : qcm.

Lemma sizes_tidies f : steps tidied (modify (set_sizes f) : M unit).
Proof. apply (steps_modify _). intros s. apply tidy_once, T_sizes. Qed.
Lemma garbage_tidies f : steps tidied (modify (set_garbage f) : M unit).
Proof. apply (steps_modify _). intros s. apply tidy_once, T_garbage. Qed.
#[local] Hint Resolve sizes_tidies garbage_tidies : qcm.

Lemma remove_other_tidies name :
  managed_plain_name name = false → pack_file name = false → steps tidied (remove_managed name).
Proof.
  intros Hn Hp. unfold remove_managed, sync_directory. steps_walk.
  apply (steps_modify _). intros s. apply tidy_once. by apply T_unlink.
Qed.

Lemma set_len_tidies g n : steps tidied (set_len (data_name g) n).
Proof.
  unfold set_len. apply (steps_bind _); [apply io_tidies|intros _].
  apply (steps_modify _). intros s. destruct (st_files s !! data_name g) as [[b|]|] eqn:Hf; [|done..].
  apply tidy_once. by eapply T_trim.
Qed.
#[local] Hint Resolve set_len_tidies : qcm.
(** ** Publishing and committing an index *)

Lemma inv_deleting_resident s id r row :
  Inv s → st_versions s !! id = Some r → db_versions (st_db s) !! id = Some row → resident_ok row r →
  deleting_clear (db_segments (st_db s)) id (r_meta r) (r_index r).
Proof.
  intros [_ Hdel] Hr Hrow Hok n seg size b Hseg Hd Hsz Hb.
  pose proof Hok as [Hwf Hs Hm Hg Hv Hc].
  rewrite (resident_stored row r Hok) by congruence.
  eapply Hdel; eauto. rewrite (synced_zlen _ _ Hs), <- Hg. by destruct Hwf.
Qed.

Lemma publish_cases id r row index op f s :
  st_versions s !! id = Some r → db_versions (st_db s) !! id = Some row →
  wf_index index → synced (v_blocks row) index →
  dbprog (λ d _ d', d' = with_segments f d) op →
  ∃ w, rtc wstep (st_world s) w ∧
    ((∃ e, publish_segment_index id index op s = (Err e, set_world (λ _, w) s)) ∨
     publish_segment_index id index op s = (Ok tt, set_world (λ _, w) (publish_state id index f s))).
Proof.
  intros Hr Hrow Hwf Hsy Hop. unfold publish_segment_index.
  destruct (Index_dirty index) as [ranges sorted] eqn:Hdirty.
  assert (sorted = mk_Index (ix_bytes index) (sort_by_start (ix_dirty index)) (ix_geometry index)
    ∧ ranges = (Index_dirty index).1) as [-> ->].
  { injection Hdirty as <- <-. done. }
  cbn [ix_bytes ix_geometry].
  destruct (txn_cases _ _ s (dbprog_bind _ _ _ _
    (dbprog_patch id (ix_bytes index) (Index_dirty index).1) (λ _, Hop))) as (w & Hw & [[e He]|(u & d & Ht & HP)]).
  - exists w. split; [done|]. left. exists e. by apply bind_run_Err.
  - exists w. split; [done|]. right. run_bind Ht.
    destruct HP as (_ & d1 & (row' & b & Hrow' & Hb & ->) & ->).
    assert (row' = row) as -> by congruence.
    rewrite patch_synced in Hb by (done || by apply wf_index_i32). injection Hb as <-.
    match goal with |- _ ?s1 = _ => assert (load_hit id s1 = (Ok r, s1)) as Hl by by apply load_hit_Ok end.
    by run_bind Hl.
Qed.

Lemma alter_alter_index (m : gmap Z Resident) id i j :
  alter (r_with_index i) id (alter (r_with_index j) id m) = alter (r_with_index i) id m.
Proof.
  apply map_eq. intros k. destruct (decide (k = id)) as [->|Hne].
  - rewrite !lookup_alter_eq. by destruct (m !! id).
  - by rewrite !lookup_alter_ne.
Qed.

Lemma commit_tidies id : steps tidied (commit id).
Proof.
  intros s HI. unfold commit. unfold mbind at 1, st_bind at 1, gets at 1.
  destruct (st_versions s !! id) as [r|] eqn:Hr; cbn -[Index_dirty]; [|done].
  unfold mbind at 1, st_bind at 1, lift at 1.
  destruct (Index_dirty (r_index r)) as [ranges sorted] eqn:Hdirty.
  assert (Hsort : sorted = (Index_dirty (r_index r)).2) by by rewrite Hdirty.
  etrans; [apply rtc_once; by eapply (T_sort id r s)|]. rewrite Hdirty. cbn [snd].
  set (s1 := set_versions _ s).
  assert (HI1 : Inv s1). { eapply tidy_inv; [|exact HI]. unfold s1. rewrite Hsort. by apply T_sort. }
  assert (Hr1 : st_versions s1 !! id = Some (r_with_index sorted r)).
  { cbn. by rewrite lookup_alter_eq, Hr. }
  destruct (inv_resident _ HI1 id _ Hr1) as (row & Hrow & Hok).
  assert (Hset : set_index id sorted s = (Ok tt, s1)) by done. run_bind Hset.
  destruct ranges as [|rg ranges]; [done|].
  destruct (txn_cases _ _ s1 (dbprog_patch id (ix_bytes sorted) (rg :: ranges)))
    as (w & Hw & [[e He]|(u & d & Ht & (row' & b & Hrow' & Hb & ->))]).
  - run_bind He. by apply tidy_world.
  - run_bind Ht. assert (row' = row) as -> by congruence.
    pose proof Hok as [Hwf Hsy Hm Hg Hv Hc]. cbn in Hwf, Hsy, Hg, Hc.
    assert (b = ix_bytes sorted) as ->.
    { assert (ix_bytes sorted = ix_bytes (r_index r)) as Hbytes by by rewrite Hsort.
      assert (rg :: ranges = (Index_dirty (r_index r)).1) as Hrg by by rewrite Hdirty.
      destruct (inv_resident _ HI id r Hr) as (row0 & Hrow0 & [Hwf0 Hsy0 _ _ _ _]).
      assert (row0 = row) as -> by (cbn in Hrow; congruence).
      rewrite Hbytes, Hrg, patch_synced in Hb by (done || by apply wf_index_i32). congruence. }
    etrans; [apply rtc_once, (T_publish id (r_with_index sorted r) row sorted (λ m, m) s1);
      [done|done|done|done|done| |done|done]|].
    + by eapply (inv_deleting_resident s1).
    + apply (tidy_world (publish_state id sorted (λ m, m) s1) w Hw).
Qed.
#[local] Hint Resolve commit_tidies : qcm.

(** ** What [tidy] steps leave alone *)

Definition strip (row : VersionRow) : VersionRow := v_with_blocks [] row.

Record tidy_frame (s s' : Storage) : Prop := {
  tf_arcs : st_arcs s' = st_arcs s;
  tf_pins : st_pins s' = st_pins s;
  tf_capacity : st_capacity s' = st_capacity s;
  tf_building : st_building s' = st_building s;
  tf_rows : ∀ id, strip <$> db_versions (st_db s') !! id = strip <$> db_versions (st_db s) !! id;
  tf_complete : db_complete (st_db s') = db_complete (st_db s);
  tf_leases : db_leases (st_db s') = db_leases (st_db s);
  tf_clock : db_clock (st_db s') = db_clock (st_db s);
  tf_packs : db_packs (st_db s') = db_packs (st_db s);
  tf_objects : db_objects (st_db s') = db_objects (st_db s);
  tf_lease_held : ∀ id, lease_held s' id = lease_held s id;
  tf_leased : ∀ id r, st_versions s !! id = Some r → leased s r = true →
    ∃ r', st_versions s' !! id = Some r' ∧ r_lease r' = r_lease r ∧ r_file r' = r_file r ∧
      r_plain r' = r_plain r ∧ r_meta r' = r_meta r ∧ index_within (r_index r) (r_index r');
  tf_files : ∀ name, managed_plain_name name = true →
    is_Some (st_files s !! name) → is_Some (st_files s' !! name);
}.

#[local] Instance tidy_frame_preorder : PreOrder tidy_frame.
Proof.
  split.
  - intros s. split; try done. intros id r Hr Hl. by exists r.
  - intros s1 s2 s3 [a1 a2 a3 a4 a5 a6 a7 a8 a9 a10 a11 a12 a13] [b1 b2 b3 b4 b5 b6 b7 b8 b9 b10 b11 b12 b13].
    split; try congruence.
    + intros id r Hr Hl. destruct (a12 id r Hr Hl) as (r' & Hr' & E1 & E2 & E3 & E4 & E5).
      destruct (b12 id r' Hr') as (r'' & Hr'' & F1 & F2 & F3 & F4 & F5).
      { unfold leased in *. by rewrite E1, a1. }
      exists r''. split_and!; try congruence. by etrans.
    + auto.
Qed.

Lemma lease_held_alter s s' id i :
  st_arcs s' = st_arcs s → st_versions s' = alter (r_with_index i) id (st_versions s) →
  ∀ id', lease_held s' id' = lease_held s id'.
Proof.
  intros Ha Hv id'. unfold lease_held, leased. rewrite Ha, Hv. destruct (decide (id' = id)) as [->|Hne].
  - rewrite lookup_alter_eq. by destruct (st_versions s !! id).
  - by rewrite lookup_alter_ne.
Qed.
Lemma leased_alter s s' id i :
  st_versions s' = alter (r_with_index i) id (st_versions s) →
  (∀ r, st_versions s !! id = Some r → index_within (r_index r) i) →
  ∀ id' r, st_versions s !! id' = Some r → leased s r = true →
    ∃ r', st_versions s' !! id' = Some r' ∧ r_lease r' = r_lease r ∧ r_file r' = r_file r ∧
      r_plain r' = r_plain r ∧ r_meta r' = r_meta r ∧ index_within (r_index r) (r_index r').
Proof.
  intros Hv Hi id' r Hr _. rewrite Hv. destruct (decide (id' = id)) as [->|Hne].
  - rewrite lookup_alter_eq, Hr. eexists. split_and!; try done. by apply Hi.
  - rewrite lookup_alter_ne by done. by exists r.
Qed.

Lemma tidy_framed s s' : tidy s s' → tidy_frame s s'.
Proof.
  intros Ht.
  destruct Ht as [s|s|f s|f s|t s|name s Hname Hpack|g b b' s Hf|id r s Hr
    |id r row index f s Hr Hrow Hwf Hsy Hg Hdc Hoth Hsub|f s Hf|key s|id s Hl
    |id row r s Hn Hrow Hm Hlay Hlen Hle Hix];
    try (split; try done; intros ? r0 Hr0 ?; by exists r0).
  - (* unlink *) split; try done; [intros ? r0 Hr0 ?; by exists r0|].
    intros n Hn Hi. cbn. rewrite lookup_delete_ne; [done|]. intros ->. congruence.
  - (* trim *) split; try done; [intros ? r0 Hr0 ?; by exists r0|].
    intros n Hn Hi. cbn. destruct (decide (n = data_name g)) as [->|]; [by rewrite lookup_insert_eq|].
    by rewrite lookup_insert_ne.
  - (* sort *) split; try done; [by eapply lease_held_alter|eapply leased_alter; [done|]].
    intros r0 Hr0. assert (r0 = r) as -> by congruence. intros b x Hx. exact Hx.
  - (* publish *) split; try done; [|by eapply lease_held_alter|
      eapply leased_alter; [done|intros r0 Hr0; by assert (r0 = r) as -> by congruence]].
    cbn. intros id'. destruct (decide (id' = id)) as [->|Hne].
    + rewrite lookup_alter_eq. by destruct (db_versions (st_db s) !! id).
    + by rewrite lookup_alter_ne.
  - (* drop *) split; try done.
    + intros id'. unfold lease_held in *. cbn. destruct (decide (id' = id)) as [->|Hne].
      * by rewrite lookup_delete_eq, Hl.
      * by rewrite lookup_delete_ne.
    + intros id' r Hr Hl'. exists r. cbn. rewrite lookup_delete_ne; [done|].
      intros ->. unfold lease_held in Hl. rewrite Hr in Hl. cbn in Hl. congruence.
  - (* load *) split; try done.
    + intros id'. unfold lease_held, leased. cbn. destruct (decide (id' = id)) as [->|Hne].
      * by rewrite lookup_insert_eq, Hn; cbn; rewrite Hle.
      * by rewrite lookup_insert_ne.
    + intros id' r' Hr' _. exists r'. cbn. rewrite lookup_insert_ne; [done|]. congruence.
Qed.
Lemma rtc_tidy_framed s s' : rtc tidy s s' → tidy_frame s s'.
Proof.
  induction 1 as [s|s1 s2 s3 H12 _ IH]; [reflexivity|]. etrans; [by apply tidy_framed|done].
Qed.
(** ** Making room in memory *)

Lemma tidy_bind_at {A B} (m : M A) (f : A → M B) s :
  Inv s → rtc tidy s (m s).2 →
  (∀ a s', m s = (Ok a, s') → rtc tidy s s' → Inv s' → rtc tidy s' (f a s').2) →
  rtc tidy s ((m ≫= f) s).2.
Proof.
  intros HI Hm Hf. unfold mbind, st_bind. destruct (m s) as [[a|e] s']; cbn in *; [|done].
  etrans; [exact Hm|]. apply Hf; [done|done|]. by eapply rtc_tidy_inv.
Qed.
Lemma tidy_bind {A B} (m : M A) (f : A → M B) s :
  Inv s → steps tidied m →
  (∀ a s', m s = (Ok a, s') → rtc tidy s s' → Inv s' → rtc tidy s' (f a s').2) →
  rtc tidy s ((m ≫= f) s).2.
Proof. intros HI Hm. apply tidy_bind_at; [done|by apply Hm]. Qed.

(** Versions that are not in memory are not written to by the others' commits. *)
Definition absent_kept (id : Z) (s s' : Storage) : Prop :=
  st_versions s !! id = None →
  st_versions s' !! id = None ∧ db_versions (st_db s') !! id = db_versions (st_db s) !! id.
#[local] Instance absent_kept_preorder id : PreOrder (absent_kept id).
Proof.
  split; [by intros s|]. intros s1 s2 s3 H12 H23 Hn. destruct (H12 Hn) as [Hn2 E2].
  destruct (H23 Hn2) as [Hn3 E3]. split; [done|congruence].
Qed.

Lemma set_index_absent id id' i : steps (absent_kept id) (set_index id' i).
Proof.
  intros s Hn. cbn. split; [|done]. destruct (decide (id = id')) as [->|Hne].
  - rewrite lookup_alter_eq. by rewrite Hn.
  - by rewrite lookup_alter_ne.
Qed.
Lemma commit_eq id s :
  commit id s = match st_versions s !! id with
                | None => (Err "version not resident"%string, s)
                | Some r =>
                  let '(ranges, index) := Index_dirty (r_index r) in
                  (set_index id index ;;
                   match ranges with
                   | [] => mret tt
                   | _ => txn (patch id (ix_bytes index) ranges) ;; set_index id (Index_committed index)
                   end) s
                end.
Proof.
  unfold commit. unfold mbind at 1, st_bind at 1. cbn -[Index_dirty].
  by destruct (st_versions s !! id).
Qed.
Lemma commit_absent id id' : steps (absent_kept id) (commit id').
Proof.
  intros s Hn. rewrite commit_eq.
  destruct (st_versions s !! id') as [r|] eqn:Hr; [|done].
  assert (Hne : id ≠ id') by congruence.
  destruct (Index_dirty (r_index r)) as [ranges sorted].
  match goal with |- _ (?m s).2 !! _ = _ ∧ _ => enough (steps (absent_kept id) m) as Hm by by apply (Hm s) end.
  clear s Hn Hr. apply (steps_bind _); [apply set_index_absent|intros _].
  destruct ranges as [|rg ranges]; [apply (steps_ret _)|].
  apply (steps_bind _); [|intros _; apply set_index_absent].
  intros s Hn. destruct (txn_cases _ _ s (dbprog_patch id' (ix_bytes sorted) (rg :: ranges)))
    as (w & Hw & [[e He]|(u & d & Ht & (row' & b & Hrow' & Hb & ->))]).
  - by rewrite He.
  - rewrite Ht. cbn. by rewrite lookup_alter_ne.
Qed.
Lemma reserve_loop_absent id required fuel : steps (absent_kept id) (reserve_loop fuel required).
Proof.
  induction fuel as [|fuel IH]; cbn [reserve_loop]; apply (steps_bind _); [apply (steps_get _)|intros s| |intros s].
  - steps_walk.
  - apply (steps_get _).
  - destruct (_ && _); [apply (steps_ret _)|].
    apply (steps_bind _); [apply (steps_lift _)|intros old].
    apply (steps_bind _); [apply commit_absent|intros _].
    apply (steps_bind _); [|intros _; exact IH].
    apply (steps_modify _). intros s' Hn. cbn. split; [|done]. apply lookup_delete_None. by right.
Qed.

Lemma reserve_loop_tidies required fuel : steps tidied (reserve_loop fuel required).
Proof.
  induction fuel as [|fuel IH]; intros s HI; cbn [reserve_loop];
    unfold mbind at 1, st_bind at 1, get_st at 1; destruct (_ && _); [done| |done|].
  { done. }
  destruct (head _) as [[id r]|] eqn:Hh; cbn -[commit]; [|done].
  unfold mbind at 1, st_bind at 1, lift at 1. cbv beta iota.
  assert (Hl : lease_held s id = false).
  { destruct (filter _ _) as [|x l] eqn:Hf; [done|]. injection Hh as ->.
    assert (Hin : (id, r) ∈ filter (λ kv, negb (leased s kv.2)) (map_to_list (st_versions s)))
      by (rewrite Hf; by left).
    apply list_elem_of_filter in Hin as [Hn Hin]. apply elem_of_map_to_list in Hin.
    unfold lease_held. rewrite Hin. cbn in *. by destruct (leased s r). }
  apply tidy_bind; [done|apply commit_tidies|]. intros _ s1 _ H1 HI1.
  assert (Hl1 : lease_held s1 id = false) by (by rewrite (tf_lease_held _ _ (rtc_tidy_framed _ _ H1))).
  assert (Hdrop : tidy s1 (set_versions (delete id) s1)) by by apply T_drop.
  etrans; [by apply rtc_once|]. apply IH. by eapply tidy_inv.
Qed.
Lemma reserve_index_tidies required : steps tidied (reserve_index required).
Proof.
  unfold reserve_index. apply (steps_bind _); [apply (steps_get _)|intros s]. apply reserve_loop_tidies.
Qed.
Lemma reserve_index_absent id required : steps (absent_kept id) (reserve_index required).
Proof.
  unfold reserve_index. apply (steps_bind _); [apply (steps_get _)|intros s]. apply reserve_loop_absent.
Qed.
#[local] Hint Resolve reserve_index_tidies : qcm.

(** ** Removing and repairing segments *)

Lemma segment_tidies id number : steps tidied (segment id number).
Proof. unfold segment. steps_walk. Qed.
Lemma segment_file_tidies meta sg : steps tidied (segment_file meta sg).
Proof. unfold segment_file. steps_walk. Qed.
#[local] Hint Resolve segment_tidies segment_file_tidies : qcm.

Lemma forget_segment_tidies key : steps tidied (exec_db (with_segments (delete key))).
Proof.
  unfold exec_db. apply (steps_bind _); [apply io_tidies|intros _].
  apply (steps_modify _). intros s. apply tidy_once, T_forget_segment.
Qed.

Lemma for_each_tidies {A} (f : A → M unit) l : (∀ x, steps tidied (f x)) → steps tidied (for_each f l).
Proof.
  intros Hf. induction l as [|x l IH]; cbn [for_each]; [apply (steps_ret _)|].
  apply (steps_bind _); [apply Hf|intros _; exact IH].
Qed.

Section Load.
Variable load_ : Z → M Resident.
Hypothesis load_tidies : ∀ id, steps tidied (load_ id).
Hypothesis load_Ok : ∀ id s r s', load_ id s = (Ok r, s') → st_versions s' !! id = Some r.

Lemma Segment_name_plain sg meta : managed_plain_name (Segment_name sg meta) = false.
Proof. unfold Segment_name. rewrite <- !append_assoc. apply seg_not_plain. Qed.
Lemma Segment_name_pack sg meta : pack_file (Segment_name sg meta) = false.
Proof. unfold Segment_name. rewrite <- !append_assoc. apply seg_not_pack. Qed.

Lemma mark_deleting_clear s id r row size number :
  Inv s → st_versions s !! id = Some r → db_versions (st_db s) !! id = Some row → resident_ok row r →
  segment_bytes (m_layout (r_meta r)) = Some size →
  deleting_clear (alter mark_row (id, number) (db_segments (st_db s))) id (r_meta r)
    (clear_blocks (r_index r) (segment_blocks (r_meta r) size number)).
Proof.
  intros HI Hr Hrow Hok Hsz n seg size' b Hseg Hd Hsz' Hb. assert (size' = size) as -> by congruence.
  destruct (clear_blocks_ok (v_blocks row) (segment_blocks (r_meta r) size number) (r_index r))
    as (_ & _ & _ & Hget); [by destruct Hok..|]. rewrite Hget.
  case_decide as Hin; [done|]. destruct (decide (n = number)) as [->|Hne]; [done|].
  rewrite lookup_alter_ne in Hseg by congruence.
  eapply (inv_deleting_resident s); eauto.
Qed.

(** What follows the publication in [remove_segment]. *)
Lemma unlink_segment_tidies id number meta :
  steps tidied (sg ← attempt (segment id number);
    match sg with Ok (Some sg) => remove_managed (Segment_name sg meta) | _ => mret tt end ;;
    exec_db (with_segments (delete (id, number)))).
Proof.
  steps_walk; [|apply forget_segment_tidies..]. apply remove_other_tidies; [apply Segment_name_plain|apply Segment_name_pack].
Qed.

Lemma remove_segment_with_tidies id number : steps tidied (remove_segment_with load_ id number).
Proof.
  intros s HI. unfold remove_segment_with. apply tidy_bind; [done|apply load_tidies|].
  intros r s1 Hload Hs1 HI1. apply load_Ok in Hload. clear Hs1 HI s. rename s1 into s, HI1 into HI.
  destruct (segment_bytes (m_layout (r_meta r))) as [size|] eqn:Hsz; [|done].
  apply tidy_bind; [done|apply (steps_lift _)|]. intros size' s' Hx _ _. injection Hx as <- <-.
  apply tidy_bind; [done|apply (steps_bind _); [apply (steps_gets _)|intros ?; apply (steps_lift _)]|].
  intros r' s' Hx _ _. rewrite (load_hit_Ok id s r) in Hx by done. injection Hx as <- <-.
  destruct (inv_resident _ HI id r Hload) as (row & Hrow & Hok).
  destruct (clear_blocks_ok (v_blocks row) (segment_blocks (r_meta r) size number) (r_index r))
    as (Hwf & Hsy & Hg & Hget); [by destruct Hok..|].
  set (index := clear_blocks _ _) in *.
  destruct (publish_cases id r row index _ (alter mark_row (id, number)) s Hload Hrow Hwf Hsy (dbprog_exec _))
    as (w & Hw & [[e He]|He]).
  - run_bind He. by apply tidy_world.
  - run_bind He.
    assert (Hpub : tidy s (publish_state id index (alter mark_row (id, number)) s)).
    { eapply T_publish; [done|done|done|done|done|by eapply mark_deleting_clear|..].
      - intros id' n Hne. by rewrite lookup_alter_ne by congruence.
      - intros b x Hx. specialize (Hget b). rewrite Hx in Hget. by case_decide. }
    etrans; [by apply rtc_once|]. etrans; [apply (tidy_world (publish_state id index _ s)), Hw|].
    apply unlink_segment_tidies. eapply rtc_tidy_inv; [apply tidy_world, Hw|]. by eapply tidy_inv.
Qed.

Lemma repair_segment_with_tidies id meta size number :
  steps tidied (repair_segment_with load_ id meta size number).
Proof.
  unfold repair_segment_with, load_hit. steps_walk. apply remove_segment_with_tidies.
Qed.
Lemma repair_segments_with_tidies id : steps tidied (repair_segments_with load_ id).
Proof.
  unfold repair_segments_with. apply (steps_bind _); [apply load_tidies|intros r].
  destruct (segment_bytes _); [|apply (steps_ret _)].
  apply for_each_tidies. intros number. apply repair_segment_with_tidies.
Qed.
End Load.

(** ** Loading *)

Lemma load_hit_tidies id : steps tidied (load_hit id).
Proof. unfold load_hit. steps_walk. Qed.
Lemma load_hit_inv id s r s' : load_hit id s = (Ok r, s') → s' = s ∧ st_versions s !! id = Some r.
Proof.
  unfold load_hit, mbind, st_bind, gets, lift. destruct (st_versions s !! id) eqn:Hr; [|done].
  intros [= -> <-]. done.
Qed.
Lemma load_hit_resident id s r s' : load_hit id s = (Ok r, s') → st_versions s' !! id = Some r.
Proof. by intros [-> ?]%load_hit_inv. Qed.

Lemma load_layout_stored g bytes slots index :
  wf_geometry g → load_layout g bytes slots = Ok index →
  index = mk_Index bytes [] g ∧ zlen bytes = Geometry_count g * ENTRY_LEN.
Proof.
  intros Hg. unfold load_layout. rewrite !ensure_bind_Ok. intros (_ & Hc & _ & Hx).
  injection Hx as <-. split; [done|]. apply andb_true_iff in Hc as [_ Hc].
  pose proof (wf_geometry_bounds g Hg). unfold ENTRY_LEN in *.
  rewrite wmul_small in Hc by (unfold is_u64, u64_max; lia). lia.
Qed.
Lemma load_plain_stored g bytes index :
  wf_geometry g → Index_load_plain g bytes = Ok index →
  index = mk_Index bytes [] g ∧ zlen bytes = Geometry_count g * ENTRY_LEN.
Proof.
  intros Hg Hx. unfold Index_load_plain in Hx. apply result_bind_Ok in Hx as (i & Hi & Hx).
  apply ensure_bind_Ok in Hx as [_ [= <-]]. by eapply load_layout_stored.
Qed.
Lemma load_segments_stored g bytes size index :
  wf_geometry g → Index_load_segments g bytes size = Ok index →
  index = mk_Index bytes [] g ∧ zlen bytes = Geometry_count g * ENTRY_LEN.
Proof.
  intros Hg Hx. unfold Index_load_segments in Hx. apply result_bind_Ok in Hx as (i & Hi & Hx).
  apply ensure_bind_Ok in Hx as [_ [= <-]]. by eapply load_layout_stored.
Qed.

(** Nothing but the world and the sizes changes, and some memory may be given back. *)
Lemma query_inv {A} (f : Db → A) s a s' : query f s = (Ok a, s') →
  a = f (st_db s) ∧ ∃ w, rtc wstep (st_world s) w ∧ s' = set_world (λ _, w) s.
Proof.
  unfold query. intros Hq. destruct (io_cases s) as (w & Hw & [Hio|[e Hio]]).
  - revert Hq. run_bind Hio. intros [= <- <-]. eauto.
  - revert Hq. by run_bind Hio.
Qed.

Lemma lift_inv {A} (r : result string A) s a s' : (lift r : M A) s = (Ok a, s') → r = Ok a ∧ s' = s.
Proof. by intros [= -> ->]. Qed.

(** The state a version is loaded in: not yet resident, its row as it was read. *)
Definition about_to_load (id : Z) (row : VersionRow) (s : Storage) : Prop :=
  st_versions s !! id = None ∧ db_versions (st_db s) !! id = Some row.

Lemma about_to_load_steps {A} (m : M A) id row s a s' :
  steps (absent_kept id) m → m s = (Ok a, s') → about_to_load id row s → about_to_load id row s'.
Proof.
  intros Hm Hr [Hn Hrow]. specialize (Hm s Hn). rewrite Hr in Hm. cbn in Hm.
  destruct Hm as [? Heq]. split; [done|congruence].
Qed.

Lemma io_absent id : steps (absent_kept id) io.
Proof.
  intros s Hn. destruct (io_cases s) as (w & _ & [Hio|[e Hio]]); by rewrite Hio.
Qed.
Lemma query_absent id {A} (f : Db → A) : steps (absent_kept id) (query f).
Proof. apply (steps_bind _); [apply io_absent|intros _; apply (steps_gets _)]. Qed.
#[local] Hint Resolve io_absent query_absent reserve_index_absent : qcm.
Lemma file_bytes_absent id name : steps (absent_kept id) (file_bytes name).
Proof. unfold file_bytes. steps_walk. Qed.
#[local] Hint Resolve file_bytes_absent : qcm.
Lemma file_len_absent id name : steps (absent_kept id) (file_len name).
Proof. unfold file_len. steps_walk. Qed.
Lemma read_exact_absent id name a b : steps (absent_kept id) (read_exact name a b).
Proof. unfold read_exact. steps_walk. Qed.
Lemma regular_file_absent id name : steps (absent_kept id) (regular_file name).
Proof. unfold regular_file. steps_walk. Qed.
Lemma set_len_absent id name n : steps (absent_kept id) (set_len name n).
Proof.
  unfold set_len. apply (steps_bind _); [apply io_absent|intros _]. apply (steps_modify _).
  intros s Hn. by destruct (st_files s !! name) as [[]|].
Qed.
Lemma sizes_absent id f : steps (absent_kept id) (modify (set_sizes f) : M unit).
Proof. apply (steps_modify _). by intros s. Qed.
Lemma plain_length_absent id id' : steps (absent_kept id) (plain_length id').
Proof. unfold plain_length. steps_walk. Qed.
Lemma plain_length_tidies id : steps tidied (plain_length id).
Proof. unfold plain_length. steps_walk. Qed.
#[local] Hint Resolve file_len_absent read_exact_absent regular_file_absent set_len_absent
  sizes_absent plain_length_absent plain_length_tidies load_hit_tidies : qcm.

Lemma file_index_absent id meta bytes pl size : steps (absent_kept id) (file_index meta bytes pl size).
Proof. unfold file_index. steps_walk. Qed.
Lemma file_index_tidies meta bytes pl size : steps tidied (file_index meta bytes pl size).
Proof. unfold file_index. destruct (bool_decide _); steps_walk. Qed.
Lemma file_index_stored meta bytes pl size s index s' :
  wf_geometry (m_geometry meta) → file_index meta bytes pl size s = (Ok index, s') →
  index = mk_Index bytes [] (m_geometry meta) ∧
  zlen bytes = Geometry_count (m_geometry meta) * ENTRY_LEN.
Proof.
  intros Hg Hx. unfold file_index in Hx. destruct (bool_decide _).
  - do 3 (apply bind_Ok_inv in Hx as (? & ? & _ & Hx)). apply lift_inv in Hx as [Hx _].
    by eapply load_plain_stored.
  - do 5 (apply bind_Ok_inv in Hx as (? & ? & _ & Hx)).
    apply bind_Ok_inv in Hx as (i & s2 & Hi & Hx). apply lift_inv in Hi as [Hi _].
    apply bind_Ok_inv in Hx as (? & ? & _ & [= <- _]). by eapply load_layout_stored.
Qed.
#[local] Hint Resolve file_index_absent file_index_tidies : qcm.

Lemma insert_resident_tidies id row r s :
  about_to_load id row s → meta_from_json (v_meta row) = Some (r_meta r) →
  Layout_validate (m_layout (r_meta r)) (m_geometry (r_meta r)) = Ok tt →
  zlen (v_blocks row) = Geometry_count (m_geometry (r_meta r)) * ENTRY_LEN →
  r_lease r = None → r_index r = stored_index row (r_meta r) →
  rtc tidy s (set_versions <[id := r]> s).
Proof. intros [Hn Hrow] ? ? ? ? ?. apply rtc_once. by eapply T_load. Qed.

Lemma load_file_tidies id row meta s :
  Inv s → about_to_load id row s → meta_from_json (v_meta row) = Some meta →
  Layout_validate (m_layout meta) (m_geometry meta) = Ok tt → wf_geometry (m_geometry meta) →
  rtc tidy s (load_file id meta (v_blocks row) s).2.
Proof.
  intros HI Ha Hm Hlay Hg. unfold load_file.
  apply tidy_bind; [done|apply plain_length_tidies|]. intros pl s1 H1 _ HI1.
  eapply about_to_load_steps in H1; [|apply plain_length_absent|exact Ha].
  apply tidy_bind; [done|apply regular_file_tidies|]. intros u s2 H2 _ HI2.
  eapply about_to_load_steps in H2; [|apply regular_file_absent|exact H1].
  apply tidy_bind; [done|apply io_tidies|]. intros u' s3 H3 _ HI3.
  eapply about_to_load_steps in H3; [|apply io_absent|exact H2].
  apply tidy_bind; [done|apply file_len_tidies|]. intros size s4 H4 _ HI4.
  eapply about_to_load_steps in H4; [|apply file_len_absent|exact H3].
  apply tidy_bind; [done|apply file_index_tidies|]. intros index s5 H5 _ HI5.
  pose proof (file_index_stored _ _ _ _ _ _ _ Hg H5) as [-> Hlen].
  eapply about_to_load_steps in H5; [|apply file_index_absent|exact H4].
  apply tidy_bind; [done|apply file_len_tidies|]. intros size' s6 H6 _ HI6.
  eapply about_to_load_steps in H6; [|apply file_len_absent|exact H5].
  apply tidy_bind; [done|apply sizes_tidies|]. intros u'' s7 H7 _ HI7.
  eapply about_to_load_steps in H7; [|apply sizes_absent|exact H6].
  by eapply insert_resident_tidies.
Qed.

Lemma load_tidies id : steps tidied (load id).
Proof.
  intros s HI. unfold load. change ((get_st ≫= ?f) s) with (f s s). cbv beta.
  destruct (st_versions s !! id) as [r|] eqn:Hr; [done|].
  apply tidy_bind; [done|apply query_tidies|]. intros row0 s1 H1 _ HI1.
  pose proof (query_inv _ _ _ _ H1) as [Hrow0 _].
  destruct row0 as [row|]; [|done]. assert (Ha : about_to_load id row s) by done.
  eapply about_to_load_steps in H1; [|apply query_absent|exact Ha].
  apply tidy_bind; [done|apply (steps_lift _)|]. intros row' s' [[= <-] ->]%lift_inv _ _.
  apply tidy_bind; [done|apply (steps_lift _)|]. intros meta s' [Hm ->]%lift_inv _ _.
  apply ok_or_Ok in Hm.
  apply tidy_bind; [done|apply (steps_guard _)|]. intros u1 s' [_ ->]%lift_inv _ _.
  apply tidy_bind; [done|apply (steps_guard _)|]. intros u2 s' [_ ->]%lift_inv _ _.
  apply tidy_bind; [done|apply (steps_lift _)|]. intros [] s' [Hlay ->]%lift_inv _ _.
  assert (Hg : wf_geometry (m_geometry meta)) by (eapply layout_validate_wf; [by eapply meta_machine|done]).
  apply tidy_bind_at; [done| |intros; apply load_hit_tidies; done].
  destruct (segment_bytes (m_layout meta)) as [size|] eqn:Hsz; [|by eapply load_file_tidies].
  apply tidy_bind; [done|apply reserve_index_tidies|]. intros u3 s2 H2 _ HI2.
  eapply about_to_load_steps in H2; [|apply reserve_index_absent|exact H1].
  apply tidy_bind; [done|apply (steps_lift _)|]. intros index s' [Hindex ->]%lift_inv _ _.
  apply load_segments_stored in Hindex as [-> Hlen]; [|done].
  eapply tidy_bind_at; [done|by eapply insert_resident_tidies|]. intros u4 s4 _ _ HI4.
  apply (repair_segments_with_tidies load_hit); [apply load_hit_tidies|apply load_hit_resident|done].
Qed.
Lemma load_Ok id s r s' : load id s = (Ok r, s') → st_versions s' !! id = Some r.
Proof.
  unfold load. change ((get_st ≫= ?f) s) with (f s s). cbv beta.
  destruct (st_versions s !! id) as [r0|] eqn:Hr; [by intros [= -> <-]|].
  intros Hx. do 6 (apply bind_Ok_inv in Hx as (? & ? & _ & Hx)).
  apply bind_Ok_inv in Hx as (? & ? & _ & Hx). by eapply load_hit_resident.
Qed.
#[local] Hint Resolve load_tidies : qcm.

Lemma remove_segment_tidies id number : steps tidied (remove_segment id number).
Proof. apply (remove_segment_with_tidies load); [apply load_tidies|apply load_Ok]. Qed.
Lemma repair_segments_tidies id : steps tidied (repair_segments id).
Proof. apply (repair_segments_with_tidies load); [apply load_tidies|apply load_Ok]. Qed.
Lemma delete_all_segments_tidies id : steps tidied (delete_all_segments id).
Proof.
  unfold delete_all_segments. steps_walk. apply for_each_tidies. intros n. apply remove_segment_tidies.
Qed.
End Steps.

#[export] Existing Instance same_versions_preorder.
#[export] Existing Instance tidied_preorder.
#[export] Existing Instance tidy_frame_preorder.
#[export] Hint Resolve io_tidies query_tidies regular_file_tidies file_bytes_tidies file_len_tidies
  read_exact_tidies sizes_tidies garbage_tidies commit_tidies reserve_index_tidies segment_tidies
  segment_file_tidies load_hit_tidies plain_length_tidies load_tidies remove_segment_tidies
  repair_segments_tidies delete_all_segments_tidies : qcm.
