(* ===== verification/Sample.v ===== *)
(** * Resource cache: a sample platform

    A concrete instance of the third-party code of [Storage] and a small concrete storage:
    the inputs the examples of the resource cache evaluate. *)
From S2P Require Import Prelude Text Format Policy Storage Segments Packs Store Materialize Steps.
From stdpp Require Import options.

Open Scope Z_scope.

#[export] Instance Geometry_eq_dec : EqDecision Geometry.
Proof. solve_decision. Defined.
#[export] Instance Layout_eq_dec : EqDecision Layout.
Proof. solve_decision. Defined.
#[export] Instance RangeValidator_eq_dec : EqDecision RangeValidator.
Proof. solve_decision. Defined.
#[export] Instance Policy_eq_dec : EqDecision Policy.
Proof. solve_decision. Defined.
#[export] Instance Metadata_eq_dec : EqDecision Metadata.
Proof. unfold Headers. solve_decision. Defined.
#[export] Instance ObjectMetadata_eq_dec : EqDecision ObjectMetadata.
Proof. unfold Headers. solve_decision. Defined.

Definition sample_generation : string := "0123456789abcdef0123456789abcdef".
Definition sample_policy : Policy := mk_Policy 1000 0 60 false true None None None.

(** Two versions, of one block and of segments of one block, and two small objects. *)
Definition sample_blocks : Metadata :=
  mk_Metadata "page" 7 0 sample_generation (mk_Geometry 3 MIN_BLOCK) [] sample_policy "t" true Blocks.
Definition sample_segments : Metadata :=
  mk_Metadata "song" 7 1 "fedcba9876543210fedcba9876543210" (mk_Geometry 3 MIN_BLOCK) []
    sample_policy "t" true (Segments SEGMENT_BYTES).
Definition sample_object (key : string) (n : Z) : ObjectMetadata :=
  mk_ObjectMetadata key "group" 7 n [] sample_policy "t" "u".

(** Serialisation of what the sample holds: a tag for each value. *)
Definition tagged {A} `{EqDecision A} (l : list (string * A)) (a : A) : option string :=
  fst <$> head (filter (λ ta, ta.2 = a) l).
Definition of_tag {A} (l : list (string * A)) (s : string) : option A :=
  snd <$> head (filter (λ ta, ta.1 = s) l).
Definition sample_metas : list (string * Metadata) := [("b", sample_blocks); ("s", sample_segments)]%string.
Definition sample_objects : list (string * ObjectMetadata) :=
  [("x", sample_object "x" 3); ("y", sample_object "y" 2)]%string.

Lemma hex_fuel_slen n x acc : slen (hex_fuel n x acc) = Z.of_nat n + slen acc.
Proof.
  revert x acc. induction n as [|n IH]; intros x acc; cbn [hex_fuel]; [lia|].
  rewrite IH. unfold slen. cbn [String.length]. lia.
Qed.
Lemma hex_fuel_digits n x acc :
  string_all is_hexdigit acc = true → string_all is_hexdigit (hex_fuel n x acc) = true.
Proof.
  revert x acc. induction n as [|n IH]; intros x acc Ha; cbn [hex_fuel]; [done|].
  apply IH. cbn [string_all]. rewrite Ha, andb_true_r.
  pose proof (Z.mod_pos_bound x 16) as Hb. generalize dependent (x mod 16). intros y Hb.
  assert (∃ k : nat, y = Z.of_nat k ∧ (k < 16)%nat) as (k & -> & Hk) by (exists (Z.to_nat y); lia).
  do 16 (destruct k as [|k]; [reflexivity|]). lia.
Qed.

#[export] Instance sample_platform : Platform := {
  meta_to_json := tagged sample_metas;
  meta_from_json := of_tag sample_metas;
  object_to_json := tagged sample_objects;
  object_from_json := of_tag sample_objects;
  new_token n := hex_fuel 32 (Z.of_nat n) "";
  uuid_bytes s := Some (take 16 (bytes_of s ++ replicate 16 0));
  allocated n := Z.max 0 (div_ceil n 4096 * 4096);
  database_bytes n d := 4096;
}.

Lemma tagged_of_tag {A} `{EqDecision A} (l : list (string * A)) a s :
  NoDup l.*1 → tagged l a = Some s → of_tag l s = Some a.
Proof.
  unfold tagged, of_tag. intros Hnd Ht. apply fmap_Some in Ht as ([t b] & Hh & ->).
  apply head_Some_elem_of, list_elem_of_filter in Hh as [Hb Hin]. cbn in Hb. subst b.
  change (t, a).1 with t.
  induction l as [|[u c] l IH]; [by apply elem_of_nil in Hin|].
  apply NoDup_cons in Hnd as [Hu Hnd]. apply elem_of_cons in Hin as [[= -> ->]|Hin].
  - by rewrite filter_cons_True.
  - rewrite filter_cons_False; [by apply IH|]. cbn. intros ->. apply Hu.
    apply list_elem_of_fmap. by exists (t, a).
Qed.
#[export] Instance sample_platform_laws : PlatformLaws.
Proof.
  split.
  - intros m s. apply tagged_of_tag. by apply (bool_decide_unpack _).
  - intros s m Hs. change (of_tag sample_metas s = Some m) in Hs. unfold of_tag in Hs.
    apply fmap_Some in Hs as ([t b] & Hh & ->). apply head_Some_elem_of, list_elem_of_filter in Hh as [_ Hin].
    repeat (apply elem_of_cons in Hin as [[= -> ->]|Hin]; [by vm_compute|]). by apply elem_of_nil in Hin.
  - intros m s. apply tagged_of_tag. by apply (bool_decide_unpack _).
  - intros n. change (new_token n) with (hex_fuel 32 (Z.of_nat n) ""). rewrite hex_fuel_slen.
    split; [done|]. by apply hex_fuel_digits.
  - intros n. eexists. split; [reflexivity|]. rewrite length_take, length_app, length_replicate. lia.
  - intros n. change (allocated n) with (Z.max 0 (div_ceil n 4096 * 4096)). lia.
  - done.
Qed.

Definition calm (now : Z) : World := mk_World [] false 0 (mk_Env now (now * 1000000) 0).
(** An open, empty storage. *)
Definition sample_storage : Storage :=
  mk_Storage (mk_Db ∅ ∅ ∅ (Some 0) ∅ ∅ ∅) ∅ ∅ ∅ ∅ ∅ None 0 (mk_Clocks 0 1000 false None)
    (mk_Arcs ∅ ∅ 0) (calm 1000) CAPACITY true false.

(** The storage with [sample_blocks] created and its handle still alive. *)
Definition sample_row : VersionRow :=
  mk_VersionRow "page" 7 0 sample_generation "b" (ix_bytes (Index_new (mk_Geometry 3 MIN_BLOCK))) 1000 0.
Definition sample_resident : Resident :=
  mk_Resident sample_blocks (Index_new (mk_Geometry 3 MIN_BLOCK)) (Some (data_name sample_generation))
    (Some 0%nat) false.
Definition sample_held : Storage :=
  mk_Storage (mk_Db {[1 := sample_row]} ∅ ∅ (Some 0) ∅ ∅ ∅)
    {[data_name sample_generation := Regular (replicate 64 0)]} {[1 := sample_resident]} ∅
    {[data_name sample_generation := (4096, 0)]} ∅ None 0 (mk_Clocks 0 1000 false None)
    (mk_Arcs {[0%nat := 1%nat]} ∅ 1) (calm 1000) CAPACITY true false.

Lemma sample_storage_inv : Inv sample_storage.
Proof. split; intros *; cbn; by rewrite lookup_empty. Qed.
Lemma sample_held_inv : Inv sample_held.
Proof.
  split.
  - intros id r Hr. cbn in Hr. apply lookup_singleton_Some in Hr as [<- <-].
    exists sample_row. split; [done|]. split; [| |done..].
    + apply Index_new_wf, witness_small_wf.
    + apply synced_new, witness_small_wf.
  - intros id row meta _ _ _ _ n seg size b Hseg. cbn in Hseg. by rewrite lookup_empty in Hseg.
Qed.

(** The same with the block written and committed. *)
Definition sample_index : Index :=
  Index_committed (Index_set (D := toy_digest) 0 0 [7; 8; 9] (Index_new (mk_Geometry 3 MIN_BLOCK))).2.
Definition sample_filled : Storage :=
  mk_Storage (with_versions (fmap (v_with_blocks (ix_bytes sample_index))) (st_db sample_held))
    {[data_name sample_generation := Regular (replicate 64 0 ++ [7; 8; 9])]}
    {[1 := r_with_index sample_index sample_resident]} ∅
    {[data_name sample_generation := (4096, 0)]} ∅ None 0 (mk_Clocks 0 1000 false None)
    (mk_Arcs {[0%nat := 1%nat]} ∅ 1) (calm 1000) CAPACITY true false.
Lemma sample_filled_inv : Inv sample_filled.
Proof.
  split.
  - intros id r Hr. cbn in Hr. apply lookup_singleton_Some in Hr as [<- <-].
    exists (v_with_blocks (ix_bytes sample_index) sample_row). split; [done|]. split; [| |done..].
    + split; [apply witness_small_wf|]. by vm_compute.
    + apply synced_clean.
  - intros id row meta _ _ _ _ n seg size b Hseg. cbn in Hseg. by rewrite lookup_empty in Hseg.
Qed.
