(* ===== verification/Eviction.v ===== *)
(** * Resource cache: deletion and eviction

    The steps of deleting versions and packs and of the eviction of [Store]: what they leave of
    the versions somebody holds, which [Windows] states with what they leave of segments; and
    that the space fits when an eviction succeeds. *)
From S2P Require Import Prelude Text Format Policy Storage Segments Packs Store Steps.
From S2P Require Import Sample.
From stdpp Require Import options.
#[local] Set Default Proof Using "Type*".

Open Scope Z_scope.

(** ** File names *)

Lemma strip_suffix_app s p : strip_suffix p (s +:+ p) = Some s.
Proof.
  unfold strip_suffix. rewrite srev_append, strip_prefix_app. cbn. by rewrite srev_involutive.
Qed.
Lemma append_inj a b c d : slen a = slen c → (a +:+ b)%string = (c +:+ d)%string → a = c ∧ b = d.
Proof.
  unfold slen. revert c. induction a as [|x a IH]; intros [|y c] Hl Heq; cbn in Hl; try lia; [done|].
  change (String x (a +:+ b) = String y (c +:+ d))%string in Heq. injection Heq as -> Heq.
  destruct (IH c ltac:(lia) Heq) as [-> ->]. done.
Qed.
Lemma valid_generation_slen g : valid_generation g = true → slen g = 32.
Proof. unfold valid_generation. intros [Hl _]%andb_true_iff. lia. Qed.
Lemma file_name_inj g1 g2 s1 s2 :
  valid_generation g1 = true → valid_generation g2 = true →
  file_name g1 s1 = file_name g2 s2 → g1 = g2.
Proof.
  intros H1%valid_generation_slen H2%valid_generation_slen Heq. unfold file_name in Heq.
  by apply append_inj in Heq as [? _]; [|congruence].
Qed.
Lemma file_name_plain g suffix :
  valid_generation g = true → suffix ∈ ["data"; "ok"; "ok.tmp"]%string →
  managed_plain_name (file_name g suffix) = true.
Proof.
  intros Hg Hs. unfold managed_plain_name, file_name. cbn [existsb].
  apply elem_of_cons in Hs as [-> | Hs]; [|apply elem_of_cons in Hs as [-> | Hs];
    [|apply list_elem_of_singleton in Hs as ->]];
    change ("." +:+ "data")%string with ".data"%string;
    change ("." +:+ "ok.tmp")%string with ".ok.tmp"%string;
    change ("." +:+ "ok")%string with ".ok"%string.
  - rewrite (strip_suffix_app g ".data"). cbn. by rewrite Hg.
  - rewrite (strip_suffix_app g ".ok"). cbn. rewrite Hg. by rewrite !orb_true_r.
  - rewrite (strip_suffix_app g ".ok.tmp"). cbn. rewrite Hg. by rewrite !orb_true_r.
Qed.

Section Eviction.
Context {D : Digest} `{!Platform}.

(** ** Held versions *)

(** A handle of the version is alive, or a window onto its segments. *)
Definition held (s : Storage) (id : Z) : Prop := pin_held s id = true ∨ lease_held s id = true.

Definition drop_rows (id : Z) (d : Db) : Db :=
  with_versions (delete id) (with_leases (filter (λ kv, l_version kv.2 ≠ id))
    (with_complete (delete id) (with_segments (filter (λ kv, kv.1.1 ≠ id)) d))).
Definition condemn_pack (token : string) (d : Db) : Db :=
  with_packs (alter (λ p, mk_PackRow (p_rowid p) (p_group p) (p_provider p) (p_length p) (p_last_use p) 1) token)
    (with_objects (filter (λ kv, o_pack kv.2 ≠ token)) d).
Definition unreferenced (d : Db) (token : string) : Prop :=
  ∀ key o, db_objects d !! key = Some o → o_pack o ≠ token.

(** Nothing refers to the pack any more, and it is not appended to. *)
Definition condemned (d : Db) (token : string) : Prop :=
  unreferenced d token ∧ ∀ p, db_packs d !! token = Some p → p_deleting p ≠ 0.
Definition outputs : list string := ["data"; "ok.tmp"; "ok"].

Inductive maint : Storage → Storage → Prop :=
| M_tidy s s' : tidy s s' → maint s s'
| M_uncertain b s : maint s (set_uncertain b s)
| M_expire now s : maint s (set_db (with_leases (filter (λ kv, now < l_expires kv.2))) s)
| M_obsolete id s :
    ¬ held s id → maint s (set_db (with_versions (alter (v_with_obsolete 2) id)) s)
| M_unlink id row suffix s :
    ¬ held s id → db_versions (st_db s) !! id = Some row → suffix ∈ outputs →
    maint s (set_files (delete (file_name (v_generation row) suffix)) s)
| M_drop_rows id s :
    ¬ held s id → st_versions s !! id = None → maint s (set_db (drop_rows id) s)
| M_condemn token s : maint s (set_db (condemn_pack token) s)
| M_unlink_pack token s :
    condemned (st_db s) token → maint s (set_files (delete (pack_name token)) s)
| M_forget_pack token s :
    condemned (st_db s) token → maint s (set_db (with_packs (delete token)) s).

Context `{!PlatformLaws}.

Lemma maint_inv s s' : maint s s' → Inv s → Inv s'.
Proof.
  intros Hm HI. pose proof HI as [Hres Hdel].
  destruct Hm as [s s' Ht|b s|now s|id s Hh|id row suffix s Hh Hrow Hsuf|id s Hh Hn|token s|token s Hc|token s Hu];
    try (split; [exact Hres|exact Hdel]).
  - by eapply tidy_inv.
  - (* obsolete *) split; cbn.
    + intros id' r Hr. destruct (Hres id' r Hr) as (row & Hrow & [Hwf Hs Hm Hg Hv Hc]).
      destruct (decide (id' = id)) as [->|Hne].
      * rewrite lookup_alter_eq, Hrow. eexists. split; [done|]. by split.
      * rewrite lookup_alter_ne by done. exists row. split; [done|]. by split.
    + intros id' row meta Hrow. destruct (decide (id' = id)) as [->|Hne].
      * rewrite lookup_alter_eq in Hrow. destruct (db_versions (st_db s) !! id) as [row0|] eqn:Hr0; [|done].
        injection Hrow as <-. intros Hm Hlay Hlen. eapply (Hdel id row0); eauto.
      * rewrite lookup_alter_ne in Hrow by done. by eapply Hdel.
  - (* rows *) split; cbn.
    + intros id' r Hr. destruct (Hres id' r Hr) as (row & Hrow & Hok). exists row. split; [|done].
      rewrite lookup_delete_ne; [done|]. congruence.
    + intros id' row meta Hrow Hm Hlay Hlen n seg size b Hseg.
      apply lookup_delete_Some in Hrow as [_ Hrow].
      apply map_lookup_filter_Some in Hseg as [Hseg _]. by eapply Hdel.
Qed.
Lemma rtc_maint_inv s s' : rtc maint s s' → Inv s → Inv s'.
Proof. induction 1 as [|s1 s2 s3 H1 _ IH]; [done|]. intros HI. by eapply IH, maint_inv. Qed.
Lemma rtc_tidy_maint s s' : rtc tidy s s' → rtc maint s s'.
Proof. apply rtc_congruence with (f := λ x, x). by constructor. Qed.

Definition maintained (s s' : Storage) : Prop := Inv s → rtc maint s s'.
#[local] Instance maintained_preorder : PreOrder maintained.
Proof.
  split; [by intros s _|]. intros s1 s2 s3 H12 H23 HI. etrans; [by apply H12|].
  apply H23. eapply rtc_maint_inv; [by apply H12|done].
Qed.
Lemma maintained_tidied {A} (m : M A) : steps tidied m → steps maintained m.
Proof. apply steps_impl. intros s s' Ht HI. by apply rtc_tidy_maint, Ht. Qed.

Lemma maint_bind_at {A B} (m : M A) (f : A → M B) s :
  Inv s → rtc maint s (m s).2 →
  (∀ a s', m s = (Ok a, s') → rtc maint s s' → Inv s' → rtc maint s' (f a s').2) →
  rtc maint s ((m ≫= f) s).2.
Proof.
  intros HI Hm Hf. unfold mbind, st_bind. destruct (m s) as [[a|e] s']; cbn in *; [|done].
  etrans; [exact Hm|]. apply Hf; [done|done|]. by eapply rtc_maint_inv.
Qed.

(** *** What [maint] steps leave alone *)

(** A row but for its index and its state. *)
Definition row_core (row : VersionRow) : VersionRow := v_with_obsolete 0 (strip row).

(** The generations of the table: valid and, by its UNIQUE constraint, distinct. *)
Record generations_ok (d : Db) : Prop := {
  go_valid : ∀ id row, db_versions d !! id = Some row → valid_generation (v_generation row) = true;
  go_unique : ∀ id1 id2 row1 row2, db_versions d !! id1 = Some row1 → db_versions d !! id2 = Some row2 →
    v_generation row1 = v_generation row2 → id1 = id2;
}.

Record maint_frame (s s' : Storage) : Prop := {
  mf_arcs : st_arcs s' = st_arcs s;
  mf_pins : st_pins s' = st_pins s;
  mf_capacity : st_capacity s' = st_capacity s;
  mf_building : st_building s' = st_building s;
  mf_clock : db_clock (st_db s') = db_clock (st_db s);
  mf_lease_held : ∀ id, lease_held s' id = lease_held s id;
  mf_leased : ∀ id r, st_versions s !! id = Some r → leased s r = true →
    ∃ r', st_versions s' !! id = Some r' ∧ r_lease r' = r_lease r ∧ r_file r' = r_file r ∧
      r_plain r' = r_plain r ∧ r_meta r' = r_meta r ∧ index_within (r_index r) (r_index r');
  mf_rows : ∀ id row', db_versions (st_db s') !! id = Some row' →
    ∃ row, db_versions (st_db s) !! id = Some row ∧ row_core row' = row_core row;
  mf_held_rows : ∀ id, held s id →
    strip <$> db_versions (st_db s') !! id = strip <$> db_versions (st_db s) !! id ∧
    db_complete (st_db s') !! id = db_complete (st_db s) !! id;
  mf_files : generations_ok (st_db s) → ∀ id row suffix,
    held s id → db_versions (st_db s) !! id = Some row → suffix ∈ ["data"; "ok"; "ok.tmp"]%string →
    is_Some (st_files s !! file_name (v_generation row) suffix) →
    is_Some (st_files s' !! file_name (v_generation row) suffix);
}.

Lemma frame_held s s' id :
  st_arcs s' = st_arcs s → st_pins s' = st_pins s → (∀ id, lease_held s' id = lease_held s id) →
  held s' id ↔ held s id.
Proof. intros Ha Hp Hl. unfold held, pin_held. by rewrite Ha, Hp, Hl. Qed.

Lemma generations_shrink d d' :
  (∀ id row', db_versions d' !! id = Some row' →
    ∃ row, db_versions d !! id = Some row ∧ row_core row' = row_core row) →
  generations_ok d → generations_ok d'.
Proof.
  intros Hrows [Hv Hu].
  assert (Hgen : ∀ id row', db_versions d' !! id = Some row' →
    ∃ row, db_versions d !! id = Some row ∧ v_generation row' = v_generation row).
  { intros id row' Hr. destruct (Hrows id row' Hr) as (row & Hr' & Hc). exists row. split; [done|].
    by apply (f_equal v_generation) in Hc. }
  split.
  - intros id row' Hr. destruct (Hgen id row' Hr) as (row & Hr' & ->). by eapply Hv.
  - intros id1 id2 r1 r2 H1 H2 Heq. destruct (Hgen id1 r1 H1) as (q1 & Hq1 & E1).
    destruct (Hgen id2 r2 H2) as (q2 & Hq2 & E2). eapply Hu; eauto; congruence.
Qed.

#[local] Instance maint_frame_preorder : PreOrder maint_frame.
Proof.
  split.
  - intros s. split; try done; [|by intros id row' Hr; exists row'].
    intros id r Hr Hl. by exists r.
  - intros s1 s2 s3 [a1 a2 a3 a4 a5 a6 a7 a8 a9 a10] [b1 b2 b3 b4 b5 b6 b7 b8 b9 b10].
    assert (Hheld : ∀ id, held s2 id ↔ held s1 id) by by intros id; apply frame_held.
    split; try congruence.
    + intros id r Hr Hl. destruct (a7 id r Hr Hl) as (r' & Hr' & E1 & E2 & E3 & E4 & E5).
      destruct (b7 id r' Hr') as (r'' & Hr'' & F1 & F2 & F3 & F4 & F5).
      { unfold leased in *. by rewrite E1, a1. }
      exists r''. split_and!; try congruence. by etrans.
    + intros id row'' Hr. destruct (b8 id row'' Hr) as (row' & Hr' & E').
      destruct (a8 id row' Hr') as (row & Hrow & E). exists row. split; [done|congruence].
    + intros id Hh. destruct (a9 id Hh) as [E1 E2]. apply Hheld in Hh.
      destruct (b9 id Hh) as [F1 F2]. split; congruence.
    + intros Hg id row suffix Hh Hr Hs Hf. pose proof (a9 id Hh) as [E1 _].
      rewrite Hr in E1. cbn in E1. apply fmap_Some in E1 as (row2 & Hr2 & E1).
      assert (Hgen : v_generation row = v_generation row2) by by apply (f_equal v_generation) in E1.
      rewrite Hgen. eapply b10; [by eapply generations_shrink|by apply Hheld|done|done|].
      rewrite <- Hgen. by eapply a10.
Qed.

Lemma strip_core row row' : strip row = strip row' → row_core row = row_core row'.
Proof. intros Heq. unfold row_core. by rewrite Heq. Qed.

Lemma maint_framed s s' : maint s s' → maint_frame s s'.
Proof.
  intros Hm.
  destruct Hm as [s s' Ht|b s|now s|id s Hh|id row suffix s Hh Hrow Hsuf|id s Hh Hn|token s|token s Hc|token s Hu].
  - apply tidy_framed in Ht as [a1 a2 a3 a4 a5 a6 a7 a8 a9 a10 a11 a12 a13].
    split; try done.
    + intros id row' Hr. specialize (a5 id). rewrite Hr in a5. symmetry in a5. cbn in a5.
      apply fmap_Some in a5 as (row & Hr' & E). exists row. split; [done|by apply strip_core].
    + intros id _. by rewrite a5, a6.
    + intros Hg id row suffix _ Hr Hs. apply a13. apply file_name_plain; [|done]. by eapply go_valid.
  - split; try done; [by intros ? r0 ? ?; exists r0|by intros ? r0 ?; exists r0].
  - split; try done; [by intros ? r0 ? ?; exists r0|by intros ? r0 ?; exists r0].
  - split; try done; [by intros ? r0 ? ?; exists r0| |].
    + cbn. intros id' row' Hr. destruct (decide (id' = id)) as [->|Hne].
      * rewrite lookup_alter_eq in Hr. apply fmap_Some in Hr as (row & Hr & ->). by exists row.
      * rewrite lookup_alter_ne in Hr by done. by exists row'.
    + cbn. intros id' Hh'. rewrite lookup_alter_ne; [done|]. by intros ->.
  - split; try done; [by intros ? r0 ? ?; exists r0|by intros ? r0 ?; exists r0|].
    cbn. intros Hg id' row' suffix' Hh' Hr' Hs' Hf. rewrite lookup_delete_ne; [done|].
    intros Heq. apply file_name_inj in Heq; [|by eapply go_valid..].
    assert (id = id') as -> by by eapply go_unique. done.
  - split; try done; [by intros ? r0 ? ?; exists r0| |].
    + cbn. intros id' row' Hr. apply lookup_delete_Some in Hr as [_ Hr]. by exists row'.
    + cbn. intros id' Hh'. rewrite !lookup_delete_ne; [done|by intros ->..].
  - split; try done; [by intros ? r0 ? ?; exists r0|by intros ? r0 ?; exists r0].
  - split; try done; [by intros ? r0 ? ?; exists r0|by intros ? r0 ?; exists r0|].
    cbn. intros Hg id row suffix _ Hr Hs Hf. rewrite lookup_delete_ne; [done|].
    intros Heq. assert (Hp : managed_plain_name (pack_name token) = true).
    { rewrite Heq. apply file_name_plain; [by eapply go_valid|done]. }
    unfold pack_name in Hp. by rewrite pack_not_plain in Hp.
  - split; try done; [by intros ? r0 ? ?; exists r0|by intros ? r0 ?; exists r0].
Qed.
Lemma rtc_maint_framed s s' : rtc maint s s' → maint_frame s s'.
Proof.
  induction 1 as [s|s1 s2 s3 H12 _ IH]; [reflexivity|]. etrans; [by apply maint_framed|done].
Qed.

(** ** Deleting a version *)

Lemma maint_world s w : rtc wstep (st_world s) w → rtc maint s (set_world (λ _, w) s).
Proof. intros Hw. by apply rtc_tidy_maint, tidy_world. Qed.
Lemma maint_steps {A} (m : M A) s : Inv s → steps maintained m → rtc maint s (m s).2.
Proof. intros HI Hm. by apply Hm. Qed.

Lemma exec_db_maint f s :
  (∀ w, maint (set_world (λ _, w) s) (set_db f (set_world (λ _, w) s))) → rtc maint s (exec_db f s).2.
Proof.
  intros Hf. unfold exec_db. destruct (io_cases s) as (w & Hw & [Hio|[e Hio]]); run_bind Hio.
  - etrans; [by apply maint_world|]. apply rtc_once, Hf.
  - by apply maint_world.
Qed.
Lemma io_maintains : steps maintained io.
Proof. apply maintained_tidied, io_tidies. Qed.
Lemma query_maintains {A} (f : Db → A) : steps maintained (query f).
Proof. apply maintained_tidied, query_tidies. Qed.
#[local] Hint Resolve io_maintains query_maintains : qcm.

Lemma expire_leases_maintains : steps maintained expire_leases.
Proof.
  unfold expire_leases. apply (steps_bind _); [apply (steps_get _)|intros s0].
  apply (steps_bind _).
  { apply (steps_modify _). intros s _. destruct (_ <? _); [apply rtc_once, M_uncertain|done]. }
  intros _. apply (steps_bind _).
  { apply (steps_modify _). intros s _. destruct (_ && _); [apply rtc_once, M_uncertain|done]. }
  intros _. apply (steps_bind _); [apply (steps_get _)|intros s1]. destruct (_ && _); [|apply (steps_ret _)].
  intros s _. apply exec_db_maint. intros w. apply M_expire.
Qed.
Lemma externally_pinned_maintains id : steps maintained (externally_pinned id).
Proof. unfold externally_pinned. apply (steps_bind _); [apply expire_leases_maintains|intros ?; apply query_maintains]. Qed.

Lemma frame_not_held s s' id : maint_frame s s' → ¬ held s id → ¬ held s' id.
Proof. intros Hf. rewrite (frame_held s s'); [done|by destruct Hf..]. Qed.

(** The tables, the versions in memory and the references are as they were. *)
Definition only_files (s s' : Storage) : Prop :=
  st_db s' = st_db s ∧ st_versions s' = st_versions s ∧ st_arcs s' = st_arcs s ∧ st_pins s' = st_pins s.
#[local] Instance only_files_preorder : PreOrder only_files.
Proof.
  split; [by intros s|]. intros s1 s2 s3 (?&?&?&?) (?&?&?&?). split_and!; congruence.
Qed.
Lemma only_files_held s s' id : only_files s s' → held s' id ↔ held s id.
Proof. intros (_ & Hv & Ha & Hp). unfold held, pin_held, lease_held, leased. by rewrite Ha, Hp, Hv. Qed.
Lemma io_only_files : steps only_files io.
Proof. intros s. destruct (io_cases s) as (w & _ & [Hio|[e Hio]]); by rewrite Hio. Qed.
Lemma query_only_files {A} (f : Db → A) : steps only_files (query f).
Proof. apply (steps_bind _); [apply io_only_files|intros _; apply (steps_gets _)]. Qed.
Lemma remove_managed_only_files name : steps only_files (remove_managed name).
Proof.
  unfold remove_managed, sync_directory. steps_walk; try apply io_only_files; apply (steps_modify _); by intros s.
Qed.

(** A version that is being deleted: nobody holds it, and its row has this generation. *)
Record doomed (id : Z) (g : option string) (s : Storage) : Prop := {
  dm_held : ¬ held s id;
  dm_row : v_generation <$> db_versions (st_db s) !! id = g;
}.
Lemma doomed_tidy id g s s' : rtc tidy s s' → doomed id g s → doomed id g s'.
Proof.
  intros Ht [Hh Hr]. pose proof (rtc_tidy_framed _ _ Ht) as Hf. split.
  - eapply frame_not_held; [apply rtc_maint_framed; by apply rtc_tidy_maint|done].
  - rewrite <- Hr. pose proof (tf_rows _ _ Hf id) as Hrow.
    destruct (db_versions (st_db s') !! id), (db_versions (st_db s) !! id); cbn in *; try done.
    apply (inj Some), (f_equal v_generation) in Hrow. cbn in Hrow. by rewrite Hrow.
Qed.
Lemma doomed_only_files id g s s' : only_files s s' → doomed id g s → doomed id g s'.
Proof.
  intros Ho [Hh Hr]. split; [by rewrite only_files_held|]. by destruct Ho as (-> & _).
Qed.

(** Unlinking a file that may go. *)
Lemma remove_managed_maint name s :
  (∀ w, maint (set_world (λ _, w) s) (set_files (delete name) (set_world (λ _, w) s))) →
  rtc maint s (remove_managed name s).2.
Proof.
  intros Hgo. unfold remove_managed, guard_st.
  destruct (managed_name name); cbn [ensure]; [|done].
  change ((lift (Ok tt) ≫= ?f) s) with (f tt s). cbv beta.
  destruct (io_cases s) as (w & Hw & [Hio|[e Hio]]).
  - destruct (io_cases (set_files (delete name) (set_world (λ _, w) s))) as (w2 & Hw2 & Hio2).
    assert (Hsteps : rtc maint s (set_world (λ _, w2) (set_files (delete name) (set_world (λ _, w) s)))).
    { etrans; [by apply maint_world|]. etrans; [apply rtc_once, Hgo|].
      by apply (maint_world (set_files (delete name) (set_world (λ _, w) s))). }
    assert (Hatt : ∀ r, io (set_files (delete name) (set_world (λ _, w) s)) =
        (r, set_world (λ _, w2) (set_files (delete name) (set_world (λ _, w) s))) →
      attempt (io ;; modify (set_files (delete name)) ;; sync_directory) s =
        (Ok r, set_world (λ _, w2) (set_files (delete name) (set_world (λ _, w) s)))).
    { intros r Hr. apply attempt_run. run_bind Hio. unfold mbind, st_bind, modify, sync_directory. exact Hr. }
    destruct Hio2 as [Hio2|[e Hio2]]; apply Hatt in Hio2; run_bind Hio2; (etrans; [exact Hsteps|]).
    + apply rtc_tidy_maint. etrans; [apply rtc_once, (T_garbage (λ g, g ∖ {[name]}))|].
      apply rtc_once, (T_sizes (base.delete name)).
    + apply rtc_once, M_tidy, (T_garbage (λ g, {[name]} ∪ g)).
  - assert (Hatt : attempt (io ;; modify (set_files (delete name)) ;; sync_directory) s =
      (Ok (Err e), set_world (λ _, w) s)) by (apply attempt_run; by run_bind Hio).
    run_bind Hatt. etrans; [by apply maint_world|]. apply rtc_once, M_tidy, (T_garbage (λ g, {[name]} ∪ g)).
Qed.

Lemma remove_output_maint id g suffix s :
  doomed id (Some g) s → suffix ∈ outputs → rtc maint s (remove_managed (file_name g suffix) s).2.
Proof.
  intros [Hh Hr] Hs. apply fmap_Some in Hr as (row & Hrow & ->).
  apply remove_managed_maint. intros w. by apply (M_unlink id row suffix).
Qed.

Lemma remove_outputs_maint id g suffixes : ∀ s,
  suffixes ⊆ outputs → Inv s → doomed id (Some g) s →
  rtc maint s (for_each (λ suffix, remove_managed (file_name g suffix)) suffixes s).2.
Proof.
  induction suffixes as [|x l IH]; intros s Hsub HI Hd; cbn [for_each]; [done|].
  assert (Hx : x ∈ outputs) by (apply Hsub; left).
  assert (Hl : l ⊆ outputs) by (intros y Hy; apply Hsub; by right).
  apply maint_bind_at; [done|by eapply remove_output_maint|].
  intros u s' Hr _ HI'. apply IH; [done|done|]. eapply doomed_only_files; [|exact Hd].
  pose proof (remove_managed_only_files (file_name g x) s) as Ho. by rewrite Hr in Ho.
Qed.
Lemma for_each_only_files {A} (f : A → M unit) l :
  (∀ x, steps only_files (f x)) → steps only_files (for_each f l).
Proof.
  intros Hf. induction l as [|x l IH]; cbn [for_each]; [apply (steps_ret _)|].
  apply (steps_bind _); [apply Hf|intros _; exact IH].
Qed.

Lemma delete_rows_maint id s :
  ¬ held s id → st_versions s !! id = None → rtc maint s (delete_rows id s).2.
Proof.
  intros Hh Hn. unfold delete_rows.
  destruct (txn_cases (λ d _ d', d' = drop_rows id d) (exec_db (with_segments (filter (λ kv, kv.1.1 ≠ id))) ;;
       exec_db (with_complete (base.delete id)) ;;
       exec_db (with_leases (filter (λ kv, l_version kv.2 ≠ id))) ;;
       exec_db (with_versions (base.delete id))) s) as (w & Hw & [[e He]|(u & d & Ht & ->)]).
  - eapply dbprog_impl.
    + do 3 (eapply dbprog_bind; [apply dbprog_exec|intros ?]). apply dbprog_exec.
    + naive_solver.
  - rewrite He. by apply maint_world.
  - rewrite Ht. etrans; [apply rtc_once; by apply (M_drop_rows id)|].
    by apply (maint_world (set_db (drop_rows id) s)).
Qed.

Lemma delete_version_maintains id : steps maintained (delete_version id).
Proof.
  intros s HI. unfold delete_version. change ((get_st ≫= ?f) s) with (f s s). cbv beta.
  destruct (pin_held s id) eqn:Hpin; [done|]. destruct (lease_held s id) eqn:Hlease; [done|].
  assert (Hh : ¬ held s id) by (unfold held; rewrite Hpin, Hlease; naive_solver).
  apply maint_bind_at; [done|by apply externally_pinned_maintains|]. intros ext s1 _ H1 HI1.
  destruct ext; [done|].
  eapply frame_not_held in Hh; [|by apply rtc_maint_framed].
  apply maint_bind_at; [done|by apply query_maintains|]. intros g s2 Hq _ HI2.
  apply query_inv in Hq as (Hg & w & Hw & ->). set (s2 := set_world (λ _, w) s1) in *.
  assert (Hd : doomed id g s2) by by split.
  apply maint_bind_at; [done|by apply exec_db_maint; intros w'; apply M_obsolete; apply Hd|].
  intros u3 s3 Hr3 _ HI3.
  assert (Hd3 : doomed id g s3).
  { unfold set_obsolete, exec_db in Hr3. destruct (io_cases s2) as (w' & Hw' & [Hio|[e Hio]]);
      revert Hr3; run_bind Hio; [|done]. intros [= _ Hs3]. rewrite <- Hs3. split; [apply Hd|].
    destruct Hd as [_ <-]. cbn. rewrite lookup_alter_eq. by destruct (db_versions (st_db s1) !! id). }
  apply maint_bind_at; [done|by apply rtc_tidy_maint, delete_all_segments_tidies|].
  intros u4 s4 Hr4 _ HI4.
  assert (Hd4 : doomed id g s4).
  { eapply doomed_tidy; [|exact Hd3]. pose proof (delete_all_segments_tidies id s3 HI3) as Ht.
    by rewrite Hr4 in Ht. }
  set (s5 := set_versions (base.delete id) s4).
  assert (Hdrop : tidy s4 s5).
  { apply T_drop. destruct Hd4 as [Hh4 _]. unfold held in Hh4. destruct (lease_held s4 id); naive_solver. }
  assert (HI5 : Inv s5) by by eapply tidy_inv.
  assert (Hd5 : doomed id g s5) by (eapply doomed_tidy; [by apply rtc_once|done]).
  assert (Hn5 : st_versions s5 !! id = None) by apply lookup_delete_eq.
  etrans; [apply rtc_once, M_tidy, Hdrop|].
  change ((modify (set_versions (base.delete id)) ≫= ?f) s4) with (f tt s5). cbv beta.
  assert (Hend : ∀ s6, only_files s5 s6 → rtc maint s6 (delete_rows id s6).2).
  { intros s6 Ho. apply delete_rows_maint; [rewrite only_files_held by done; apply Hd5|].
    destruct Ho as (_ & -> & _). done. }
  apply maint_bind_at; [done| |].
  - destruct g as [g|]; [|done]. destruct (valid_generation g); [|done].
    by eapply (remove_outputs_maint _ _ outputs).
  - intros u6 s6 Hr6 _ _. apply Hend.
    destruct g as [g|]; [|by injection Hr6 as _ <-]. destruct (valid_generation g); [|by injection Hr6 as _ <-].
    pose proof (for_each_only_files (λ suffix, remove_managed (file_name g suffix))
      ["data"; "ok.tmp"; "ok"]%string (λ x, remove_managed_only_files _) s5) as Ho. by rewrite Hr6 in Ho.
Qed.

(** ** Deleting packs, and eviction *)

Lemma usage_maintains : steps maintained usage.
Proof. unfold usage. steps_walk. Qed.
#[local] Hint Resolve usage_maintains delete_version_maintains : qcm.

Lemma delete_pack_maintains token : steps maintained (delete_pack token).
Proof.
  intros s HI. unfold delete_pack. apply maint_bind_at; [done|done|]. intros u s' Hs' _ _.
  apply lift_inv in Hs' as [_ ->].
  destruct (txn_cases (λ d _ d', d' = condemn_pack token d)
    (exec_db (with_objects (filter (λ kv, o_pack kv.2 ≠ token))) ;;
     exec_db (with_packs (alter (λ p, mk_PackRow (p_rowid p) (p_group p) (p_provider p)
                                        (p_length p) (p_last_use p) 1) token))) s)
    as (w & Hw & [[e He]|(u' & d & Ht & ->)]).
  { eapply dbprog_impl; [eapply dbprog_bind; [apply dbprog_exec|intros ?; apply dbprog_exec]|].
    naive_solver. }
  { run_bind He. by apply maint_world. }
  run_bind Ht. set (s1 := set_world _ _).
  assert (H1 : rtc maint s s1).
  { etrans; [apply rtc_once, (M_condemn token)|]. by apply (maint_world (set_db (condemn_pack token) s)). }
  assert (HI1 : Inv s1) by by eapply rtc_maint_inv.
  assert (Hu1 : unreferenced (st_db s1) token).
  { intros key o Ho. cbn in Ho. by apply map_lookup_filter_Some in Ho as [_ Ho]. }
  etrans; [exact H1|].
  assert (Hd1 : condemned (st_db s1) token).
  { split; [done|]. intros p Hp. cbn in Hp. rewrite lookup_alter_eq in Hp.
    apply fmap_Some in Hp as (p0 & _ & ->). done. }
  apply maint_bind_at; [done|by apply remove_managed_maint; intros w2; apply M_unlink_pack|].
  intros u2 s2 Hr2 _ HI2. apply exec_db_maint. intros w2. apply M_forget_pack. cbn.
  pose proof (remove_managed_only_files (pack_name token) s1) as (Hdb & _). rewrite Hr2 in Hdb.
  cbn in Hdb. by rewrite Hdb.
Qed.
#[local] Hint Resolve delete_pack_maintains : qcm.

Lemma evict_packs_maintains required : steps maintained (evict_packs required).
Proof.
  unfold evict_packs. apply (steps_bind _); [apply query_maintains|intros rows].
  induction rows as [|[token row] rows IH]; cbn [evict_packs_loop]; [apply (steps_ret _)|].
  apply (steps_bind _); [apply usage_maintains|intros u].
  apply (steps_bind _); [apply (steps_gets _)|intros c]. destruct (_ && _); [apply (steps_ret _)|].
  apply (steps_bind _); [apply (steps_attempt _), delete_pack_maintains|intros _; exact IH].
Qed.
Lemma evict_segments_maintains required : steps maintained (evict_segments required).
Proof.
  unfold evict_segments. apply (steps_bind _); [apply query_maintains|intros l].
  induction l as [|[key obsolete] l IH]; cbn [evict_segments_loop]; [apply (steps_ret _)|].
  apply (steps_bind _); [apply usage_maintains|intros u].
  apply (steps_bind _); [apply (steps_get _)|intros s]. apply (steps_bind _); [|intros _; exact IH].
  repeat match goal with |- steps _ (if ?b then _ else _) => destruct b; [apply (steps_ret _)|] end.
  apply (steps_bind _); [apply (steps_attempt _), maintained_tidied, remove_segment_tidies|].
  intros _. apply (steps_ret _).
Qed.
Lemma evict_loop_maintains required ids : ∀ bytes, steps maintained (evict_loop required bytes ids).
Proof.
  induction ids as [|[id obsolete] ids IH]; intros bytes; cbn [evict_loop]; [apply (steps_ret _)|].
  apply (steps_bind _); [apply (steps_get _)|intros s]. destruct (_ || _); [apply IH|].
  apply (steps_bind _); [apply (steps_attempt _), delete_version_maintains|intros _].
  apply (steps_bind _); [apply usage_maintains|intros u; apply IH].
Qed.
Lemma evict_maintains required : steps maintained (evict required).
Proof.
  unfold evict. apply (steps_bind _); [apply usage_maintains|intros u].
  apply (steps_bind _); [apply (steps_get _)|intros s].
  apply (steps_bind _); [apply query_maintains|intros ids].
  apply (steps_bind _); [apply evict_packs_maintains|intros _].
  apply (steps_bind _); [apply evict_segments_maintains|intros _].
  apply (steps_bind _); [apply usage_maintains|intros u'].
  apply (steps_bind _); [apply evict_loop_maintains|intros b]. steps_walk.
Qed.

(** *** The space an eviction leaves *)

Definition used (s : Storage) : Z := sizes_total false s + sizes_total true s + database_total s.

Lemma io_inv s u s' : io s = (Ok u, s') → ∃ w, s' = set_world (λ _, w) s.
Proof. intros Hr. destruct (io_cases s) as (w & _ & [Hio|[e Hio]]); [|congruence]. exists w. congruence. Qed.
Lemma usage_inv s u s' : usage s = (Ok u, s') → usage_bytes u = used s' ∧ ∃ w, s' = set_world (λ _, w) s.
Proof.
  unfold usage. intros Hr.
  apply bind_Ok_inv in Hr as (? & s1 & [w1 ->]%io_inv & Hr).
  apply bind_Ok_inv in Hr as (? & s2 & [w2 ->]%io_inv & Hr).
  apply bind_Ok_inv in Hr as (? & s3 & [w3 ->]%io_inv & Hr). injection Hr as <- <-.
  split; [done|]. exists w3. by destruct s.
Qed.
Lemma evict_loop_bytes required ids : ∀ bytes s b s',
  bytes = used s → evict_loop required bytes ids s = (Ok b, s') → b = used s'.
Proof.
  induction ids as [|[id obsolete] ids IH]; intros bytes s b s' Hb; cbn [evict_loop].
  { intros [= <- <-]. done. }
  change ((get_st ≫= ?f) s) with (f s s). cbv beta. destruct (_ || _); [by eapply IH|].
  intros Hr. apply bind_Ok_inv in Hr as (? & s1 & _ & Hr). apply bind_Ok_inv in Hr as (u & s2 & Hu & Hr).
  eapply IH; [|exact Hr]. by apply usage_inv in Hu as [? _].
Qed.

(** Making room means making room: when an eviction succeeds, the bytes in use, plus the
    request and what an unfinished conversion still needs, are within the capacity. *)
Theorem evict_within_capacity required s u s' :
  Inv s → evict required s = (Ok u, s') →
  sat_add (used s') (reserved s' required) <= st_capacity s' ∧
  st_capacity s' = st_capacity s ∧ reserved s' required = reserved s required.
Proof.
  intros HI Hr. pose proof (evict_maintains required s HI) as Hf. rewrite Hr in Hf.
  apply rtc_maint_framed in Hf as [_ _ Hc Hb _ _ _ _ _ _]. cbn in Hc, Hb.
  assert (Hres : reserved s' required = reserved s required) by (unfold reserved; by rewrite Hb).
  split; [|done]. rewrite Hres. unfold evict in Hr.
  apply bind_Ok_inv in Hr as (u0 & s1 & Hu & Hr). apply usage_inv in Hu as [_ [w ->]].
  change ((get_st ≫= ?f) ?s) with (f s s) in Hr. cbv beta in Hr.
  change (reserved (set_world (λ _, w) s) required) with (reserved s required) in Hr.
  do 3 (apply bind_Ok_inv in Hr as (? & ? & _ & Hr)).
  apply bind_Ok_inv in Hr as (u1 & s2 & Hu & Hr). apply usage_inv in Hu as [Hb1 [w1 ->]].
  apply bind_Ok_inv in Hr as (b & s3 & Hl & Hr). apply evict_loop_bytes in Hl; [|done].
  apply bind_Ok_inv in Hr as (c & s4 & Hcap & Hr). injection Hcap as <- <-.
  apply lift_inv in Hr as [Hg ->]. apply ensure_Ok in Hg. subst b. by apply Z.leb_le.
Qed.

End Eviction.

#[export] Existing Instance maintained_preorder.
#[export] Existing Instance maint_frame_preorder.
#[export] Existing Instance only_files_preorder.
#[export] Hint Resolve io_maintains query_maintains usage_maintains delete_version_maintains
  delete_pack_maintains expire_leases_maintains externally_pinned_maintains evict_packs_maintains
  evict_segments_maintains evict_maintains : qcm.

(** ** Examples *)

#[local] Existing Instance toy_digest.

Lemma evict_within_capacity_witness :
  let s' := (evict 4096 sample_held).2 in
  sat_add (used s') (reserved s' 4096) <= st_capacity s' ∧ st_capacity s' = st_capacity sample_held.
Proof.
  destruct (evict_within_capacity 4096 sample_held tt (evict 4096 sample_held).2) as (Hu & Hc & _).
  - apply sample_held_inv.
  - vm_compute. reflexivity.
  - split; [exact Hu|exact Hc].
Defined.
