(* ===== verification/Reading.v ===== *)
(** * Resource cache: reading

    Operations that only look ([quiet]), the memory the indices may take ([reserve_index]),
    and what a read returns: bytes that were checked, or nothing. *)
From S2P Require Import Prelude Text Format Policy Storage Segments Packs Store Steps Sample.
From stdpp Require Import options.
#[local] Set Default Proof Using "Type*".

Open Scope Z_scope.

(** ** Looking *)

(** Nothing changes but what is left of the schedule of the outside world. *)
Definition quiet (s s' : Storage) : Prop := ∃ w, rtc wstep (st_world s) w ∧ s' = set_world (λ _, w) s.
#[export] Instance quiet_preorder : PreOrder quiet.
Proof.
  split.
  - intros s. exists (st_world s). split; [done|]. by destruct s.
  - intros s1 s2 s3 (w1 & H1 & ->) (w2 & H2 & ->). exists w2. split; [by etrans|done].
Qed.

Lemma io_quiet : steps quiet io.
Proof. intros s. destruct (io_cases s) as (w & Hw & [Hio|[e Hio]]); rewrite Hio; by exists w. Qed.
Lemma query_quiet {A} (f : Db → A) : steps quiet (query f).
Proof. apply (steps_bind _); [apply io_quiet|intros _; apply (steps_gets _)]. Qed.
#[export] Hint Resolve io_quiet query_quiet : qcm.
Lemma file_bytes_quiet name : steps quiet (file_bytes name).
Proof. unfold file_bytes. steps_walk. Qed.
Lemma regular_file_quiet name : steps quiet (regular_file name).
Proof. unfold regular_file. steps_walk. Qed.
#[export] Hint Resolve file_bytes_quiet regular_file_quiet : qcm.
Lemma file_len_quiet name : steps quiet (file_len name).
Proof. unfold file_len. steps_walk. Qed.
Lemma read_exact_quiet name a n : steps quiet (read_exact name a n).
Proof. unfold read_exact. steps_walk. Qed.
#[export] Hint Resolve file_len_quiet read_exact_quiet : qcm.
Lemma segment_quiet id n : steps quiet (segment id n).
Proof. unfold segment. steps_walk. Qed.
Lemma check_active_quiet id : steps quiet (check_active id).
Proof. unfold check_active. steps_walk. Qed.
Lemma plain_length_quiet id : steps quiet (plain_length id).
Proof. unfold plain_length. steps_walk. Qed.
#[export] Hint Resolve segment_quiet check_active_quiet plain_length_quiet : qcm.
Lemma plain_quiet id : steps quiet (plain id).
Proof. unfold plain. steps_walk. Qed.

Section Quiet.
Context {D : Digest} `{!Platform}.
Lemma segment_file_quiet meta sg : steps quiet (segment_file meta sg).
Proof. unfold segment_file. steps_walk. Qed.
Lemma digest_matches_quiet r h : steps quiet (digest_matches r h).
Proof. unfold digest_matches. steps_walk. Qed.
Lemma load_hit_quiet id : steps quiet (load_hit id).
Proof. unfold load_hit. steps_walk. Qed.
End Quiet.
#[export] Hint Resolve plain_quiet segment_file_quiet digest_matches_quiet load_hit_quiet : qcm.

Lemma steps_run {S E A} (R : S → S → Prop) (m : ST S E A) s r s' : m s = (r, s') → steps R m → R s s'.
Proof. intros Hr Hm. specialize (Hm s). by rewrite Hr in Hm. Qed.

(** What a quiet operation returned is a fact of the state before and after it. *)
Lemma file_bytes_inv name s b s' :
  file_bytes name s = (Ok b, s') → st_files s !! name = Some (Regular b) ∧ quiet s s'.
Proof.
  intros Hr. split; [|by eapply steps_run, file_bytes_quiet].
  unfold file_bytes in Hr. apply bind_Ok_inv in Hr as (? & s1 & H1 & Hr).
  apply (steps_run quiet) in H1 as (w & _ & ->); [|apply io_quiet].
  apply bind_Ok_inv in Hr as (e & s2 & [= <- <-] & Hr). cbn in Hr.
  destruct (st_files s !! name) as [[]|]; [|done..]. by injection Hr as <- _.
Qed.
Lemma file_len_inv name s n s' :
  file_len name s = (Ok n, s') → ∃ b, st_files s !! name = Some (Regular b) ∧ n = zlen b ∧ quiet s s'.
Proof.
  intros Hr. apply bind_Ok_inv in Hr as (b & s1 & [Hb Hq]%file_bytes_inv & [= <- <-]). by exists b.
Qed.
Lemma regular_file_inv name s u s' :
  regular_file name s = (Ok u, s') → ∃ b, st_files s !! name = Some (Regular b) ∧ quiet s s'.
Proof.
  intros Hr. assert (quiet s s') by by eapply steps_run, regular_file_quiet.
  unfold regular_file in Hr. apply bind_Ok_inv in Hr as (? & s1 & H1 & Hr).
  apply (steps_run quiet) in H1 as (w & _ & ->); [|apply io_quiet].
  apply bind_Ok_inv in Hr as (e & s2 & [= <- <-] & Hr). cbn in Hr.
  destruct (st_files s !! name) as [[]|]; [|done..]. eauto.
Qed.
Lemma read_exact_inv name a n s d s' :
  read_exact name a n s = (Ok d, s') →
  ∃ b, st_files s !! name = Some (Regular b) ∧ slice b a (a + n) = Some d ∧ quiet s s'.
Proof.
  intros Hr. apply bind_Ok_inv in Hr as (b & s1 & [Hb Hq]%file_bytes_inv & Hr).
  apply lift_inv in Hr as [Hd ->]. apply ok_or_Ok in Hd. by exists b.
Qed.
Lemma guard_inv b e s u s' : (guard_st b e : M unit) s = (Ok u, s') → b = true ∧ s' = s.
Proof. intros [Hb ->]%lift_inv. by apply ensure_Ok in Hb. Qed.
Lemma attempt_inv {A} (m : M A) s r s' : attempt m s = (Ok r, s') → m s = (r, s').
Proof. unfold attempt. destruct (m s). by intros [= -> ->]. Qed.
Lemma quiet_query {A} (f : Db → A) s a s' : query f s = (Ok a, s') → a = f (st_db s) ∧ quiet s s'.
Proof. intros [-> (w & Hw & ->)]%query_inv. split; [done|by exists w]. Qed.

(** ** The memory of the indices *)

Section Reserve.
Context {D : Digest} `{!Platform}.

(** The same versions stay in memory. *)
Definition same_resident (s s' : Storage) : Prop :=
  (dom (st_versions s') : gset Z) = dom (st_versions s).
#[local] Instance same_resident_preorder : PreOrder same_resident.
Proof. split; [by intros s|]. intros s1 s2 s3 H12 H23. unfold same_resident in *. congruence. Qed.

Lemma set_index_resident id i : steps same_resident (set_index id i).
Proof. intros s. unfold same_resident. cbn. by rewrite dom_alter_L. Qed.
Lemma commit_resident id : steps same_resident (commit id).
Proof.
  intros s. rewrite commit_eq. destruct (st_versions s !! id) as [r|]; [|done].
  destruct (Index_dirty (r_index r)) as [ranges sorted].
  match goal with |- _ s (?m s).2 => enough (steps same_resident m) as Hm by apply (Hm s) end.
  apply (steps_bind _); [apply set_index_resident|intros _].
  destruct ranges as [|rg ranges]; [apply (steps_ret _)|].
  apply (steps_bind _); [|intros _; apply set_index_resident].
  intros s0. destruct (txn_cases _ _ s0 (dbprog_patch id (ix_bytes sorted) (rg :: ranges)))
    as (w & Hw & [[e He]|(u & d & Ht & _)]); [by rewrite He|by rewrite Ht].
Qed.
Lemma same_resident_size s s' : same_resident s s' → size (st_versions s') = size (st_versions s).
Proof. unfold same_resident. intros Hd. rewrite <- !size_dom. by rewrite Hd. Qed.

Lemma unleased_resident s x :
  head (filter (λ kv, negb (leased s kv.2)) (map_to_list (st_versions s))) = Some x →
  st_versions s !! x.1 = Some x.2 ∧ leased s x.2 = false.
Proof.
  intros Hh. apply head_Some_elem_of, list_elem_of_filter in Hh as [Hl Hin].
  destruct x as [id r]. apply elem_of_map_to_list in Hin. split; [done|].
  cbn in *. by destruct (leased s r).
Qed.

(** More rounds than there are versions in memory change nothing. *)
Lemma reserve_loop_fuel required n m : ∀ s,
  (size (st_versions s) < n)%nat → (size (st_versions s) < m)%nat →
  reserve_loop n required s = reserve_loop m required s.
Proof.
  revert m. induction n as [|n IH]; intros [|m] s Hn Hm; [lia..|].
  cbn [reserve_loop]. unfold mbind at 1 5, st_bind at 1 5, get_st at 1 2. cbv beta iota.
  destruct (_ && _); [done|]. unfold mbind at 1 4, st_bind at 1 4, lift at 1 2.
  destruct (head _) as [x|] eqn:Hh; cbn [ok_or]; [|done].
  unfold mbind, st_bind. destruct (commit x.1 s) as [[u|e] s1] eqn:Hc; [|done].
  pose proof (steps_run _ _ _ _ _ Hc (commit_resident x.1)) as Hd.
  assert (Hx : is_Some (st_versions s1 !! x.1)).
  { apply elem_of_dom. rewrite Hd. apply elem_of_dom. apply unleased_resident in Hh as [-> _]. done. }
  pose proof (same_resident_size _ _ Hd) as Hs.
  destruct Hx as [r Hr].
  assert (size (st_versions s1) ≠ 0%nat).
  { intros Hz. apply map_size_empty_inv in Hz. by rewrite Hz, lookup_empty in Hr. }
  apply IH; cbn; rewrite map_size_delete, Hr; cbn; lia.
Qed.
Lemma reserve_loop_bounds required n : ∀ s u s',
  reserve_loop n required s = (Ok u, s') →
  index_bytes s' + required <= INDEX_BUDGET ∧ Z.of_nat (size (st_versions s')) < MAX_RESIDENT.
Proof.
  induction n as [|n IH]; intros s u s'; cbn [reserve_loop];
    unfold mbind at 1, st_bind at 1, get_st at 1; destruct (_ && _) eqn:Hc; try done;
    try (intros [= <- <-]; apply andb_true_iff in Hc; lia).
  intros Hr. do 3 (apply bind_Ok_inv in Hr as (? & ? & _ & Hr)). by eapply IH.
Qed.

Context `{!PlatformLaws}.

(** What a holder of the version relies on. *)
Definition same_handle (v v' : Resident) : Prop :=
  r_lease v' = r_lease v ∧ r_file v' = r_file v ∧ r_plain v' = r_plain v ∧ r_meta v' = r_meta v ∧
  index_within (r_index v) (r_index v').

(** C35. Room in memory: after a success the indices in memory and the new one are within 64
    MiB and fewer than 128 versions are resident; a version somebody holds is not dropped,
    whatever the outcome; and the loop always ends: any number of rounds above the number of
    resident versions gives the same result. *)
Theorem reserve_index_bounds required s r s' :
  Inv s → reserve_index required s = (r, s') →
  (r = Ok tt →
    index_bytes s' + required <= INDEX_BUDGET ∧ Z.of_nat (size (st_versions s')) < MAX_RESIDENT) ∧
  (∀ id v, st_versions s !! id = Some v → leased s v = true →
    ∃ v', st_versions s' !! id = Some v' ∧ same_handle v v') ∧
  (∀ n, (size (st_versions s) < n)%nat → reserve_loop n required s = (r, s')).
Proof.
  intros HI Hr. split_and!.
  - intros ->. by eapply reserve_loop_bounds, Hr.
  - pose proof (steps_run _ _ _ _ _ Hr (reserve_index_tidies required) HI) as Ht.
    apply (tf_leased _ _ (rtc_tidy_framed _ _ Ht)).
  - intros n Hn. rewrite <- Hr. apply reserve_loop_fuel; [done|lia].
Qed.
End Reserve.

(** ** What a read returns *)

Section Read.
Context {D : Digest} `{!Platform, !PlatformLaws}.

(** [bytes] is what the index of [r] says of [block], as some file holds them: at the slot,
    or at the block's own place in a plain file. *)
Definition verified (s : Storage) (r : Resident) (block : Z) (bytes : list Z) : Prop :=
  ∃ slot digest first last name file offset,
    Index_get (r_index r) block = Some (slot, digest) ∧ hash bytes = Ok digest ∧
    Geometry_range (m_geometry (r_meta r)) block = Ok (first, last) ∧ zlen bytes = last - first ∧
    (offset = HEADER_LEN + slot * g_block (m_geometry (r_meta r)) ∨ r_plain r = true ∧ offset = first) ∧
    st_files s !! name = Some (Regular file) ∧
    slice file offset (offset + (last - first)) = Some bytes.

Lemma digest_matches_inv r h s b s' :
  digest_matches r h s = (Ok b, s') → s' = s ∧ (b = true → ∃ bytes, r = Ok bytes ∧ hash bytes = Ok h).
Proof.
  unfold digest_matches. destruct r as [bytes|e]; [|by intros [= <- <-]].
  intros Hr. apply bind_Ok_inv in Hr as (h' & s1 & [Hh ->]%lift_inv & [= <- <-]). split; [done|].
  intros Hb%bool_decide_eq_true. exists bytes. by subst h'.
Qed.

(** The tail of [remove_segment] leaves the memory as it is. *)
Lemma unlink_segment_versions id number meta s :
  st_versions ((sg ← attempt (segment id number);
    match sg with Ok (Some sg) => remove_managed (Segment_name sg meta) | _ => mret tt end ;;
    exec_db (with_segments (delete (id, number)))) s).2 = st_versions s.
Proof.
  assert (PreOrder (λ s s' : Storage, st_versions s' = st_versions s)) as Hpre.
  { split; [by intros ?|]. intros s1 s2 s3 H12 H23. congruence. }
  match goal with |- st_versions (?m s).2 = _ =>
    enough (steps (λ s s' : Storage, st_versions s' = st_versions s) m) as Hm by apply (Hm s) end.
  assert (Hio : steps (λ s s' : Storage, st_versions s' = st_versions s) io).
  { intros s0. destruct (io_cases s0) as (w & _ & [Hio|[e Hio]]); by rewrite Hio. }
  unfold segment, remove_managed, exec_db, query, sync_directory. steps_walk; try exact Hio;
    apply (steps_modify _); by intros ?.
Qed.

(** After [remove_segment] no block of the segment is in the index in memory. *)
Lemma remove_segment_clears id number size s r0 s' :
  Inv s → st_versions s !! id = Some r0 → segment_bytes (m_layout (r_meta r0)) = Some size →
  remove_segment id number s = (Ok tt, s') →
  ∃ r, st_versions s' !! id = Some r ∧ r_meta r = r_meta r0 ∧
    ∀ b, b ∈ segment_blocks (r_meta r) size number → Index_get (r_index r) b = None.
Proof.
  intros HI Hres Hsz Hr. unfold remove_segment, remove_segment_with in Hr.
  apply bind_Ok_inv in Hr as (r1 & s1 & Hload & Hr). rewrite (load_resident id s r0 Hres) in Hload.
  apply load_hit_inv in Hload as [-> Hr1]. assert (r1 = r0) as -> by congruence. clear Hr1.
  apply bind_Ok_inv in Hr as (size1 & s2 & [Hsz1 ->]%lift_inv & Hr).
  apply ok_or_Ok in Hsz1. assert (size1 = size) as -> by congruence.
  apply bind_Ok_inv in Hr as (r2 & s3 & [-> Hr2]%load_hit_inv & Hr).
  assert (r2 = r0) as -> by congruence. apply bind_Ok_inv in Hr as (u & s4 & Hpub & Hr).
  destruct (inv_resident _ HI id r0 Hres) as (row & Hrow & Hok).
  destruct (clear_blocks_ok (v_blocks row) (segment_blocks (r_meta r0) size number) (r_index r0))
    as (Hwf & Hsy & Hg & Hget); [by destruct Hok..|].
  destruct (publish_cases id r0 row _ _ (alter mark_row (id, number)) s Hres Hrow Hwf Hsy (dbprog_exec _))
    as (w & Hw & [[e He]|He]); rewrite He in Hpub; [done|]. injection Hpub as _ <-.
  set (index := clear_blocks _ _) in *.
  pose proof (unlink_segment_versions id number (r_meta r0)
    (set_world (λ _, w) (publish_state id index (alter mark_row (id, number)) s))) as Hv.
  rewrite Hr in Hv. cbn in Hv. rewrite Hv, lookup_alter_eq, Hres. eexists. split_and!; [done|done|].
  intros b Hb. specialize (Hget b). rewrite decide_True in Hget by done. exact Hget.
Qed.

Lemma block_in_segment meta size block first last :
  Layout_validate (m_layout meta) (m_geometry meta) = Ok tt → wf_geometry (m_geometry meta) →
  segment_bytes (m_layout meta) = Some size → 0 ≤ block →
  Geometry_range (m_geometry meta) block = Ok (first, last) →
  block ∈ segment_blocks meta size (first / size) ∧ first < last.
Proof.
  intros Hlay Hg Hsz Hb Hrange. pose proof (Geometry_range_inv _ _ _ Hrange) as Hlt.
  rewrite Geometry_range_eq in Hrange by done. injection Hrange as Hf Hl.
  destruct (block_bounds (m_geometry meta) block Hg) as (B1 & B2 & B3); [lia|].
  pose proof (wf_geometry_bounds _ Hg) as Hgb. set (g := m_geometry meta) in *.
  assert (Hs0 : 0 < size).
  { unfold Layout_validate in Hlay. rewrite Hsz in Hlay. unfold SEGMENT_BYTES in Hlay. destruct_ok. bool_lia. }
  assert (Hblk : 0 < g_block g) by lia.
  unfold segment_blocks. fold g. rewrite elem_of_zrange.
  pose proof (Z.mul_div_le first size Hs0). pose proof (Z.mul_succ_div_gt first size Hs0).
  split; [split|].
  - apply Z.le_trans with (first / g_block g); [apply Z.div_le_mono; lia|].
    subst first. by rewrite Z.div_mul by lia.
  - apply div_ceil_lt; [done|]. lia.
  - lia.
Qed.

(** Memory, files and version rows stay. *)
Definition same_data (s s' : Storage) : Prop :=
  st_versions s' = st_versions s ∧ st_files s' = st_files s ∧
  db_versions (st_db s') = db_versions (st_db s).
#[global] Instance same_data_preorder : PreOrder same_data.
Proof. split; [by intros s|]. intros s1 s2 s3 (?&?&?) (?&?&?). split_and!; congruence. Qed.
Lemma quiet_same s s' : quiet s s' → same_data s s'.
Proof. by intros (w & _ & ->). Qed.
Lemma quiet_steps_same {A} (m : M A) : steps quiet m → steps same_data m.
Proof. apply steps_impl, quiet_same. Qed.
Lemma touch_segment_same id n : steps same_data (touch_segment id n).
Proof.
  unfold touch_segment, segment_tick, exec_db. steps_walk; try (apply quiet_steps_same, io_quiet);
    apply (steps_modify _); by intros s.
Qed.

(** Publishing an index without one block. *)
Lemma publish_remove_inv id block r s s' u :
  Inv s → st_versions s !! id = Some r → 0 ≤ block < Geometry_count (m_geometry (r_meta r)) →
  publish_segment_index id (Index_remove (r_index r) block) (mret tt) s = (Ok u, s') →
  (∃ r', st_versions s' !! id = Some r' ∧ r_meta r' = r_meta r ∧ Index_get (r_index r') block = None) ∧
  st_files s' = st_files s.
Proof.
  intros HI Hr Hb Hp. destruct (inv_resident _ HI id r Hr) as (row & Hrow & Hok).
  pose proof Hok as [Hwf Hsy Hm Hg Hv Hc]. rewrite <- Hg in Hb.
  destruct (remove_bytes_get (r_index r) block Hwf Hb) as (Hwf' & Hnone & _).
  destruct (publish_cases id r row (Index_remove (r_index r) block) (mret tt) (λ m, m) s)
    as (w & Hw & [[e He]|He]); try done.
  - rewrite Index_remove_eq by done. apply synced_write; [done|done| |done]. by rewrite zlen_replicate.
  - eapply dbprog_impl; [apply dbprog_ret|]. intros d a d' [_ ->]. by destruct d.
  - by rewrite He in Hp.
  - rewrite He in Hp. injection Hp as _ <-. split; [|done]. cbn. rewrite lookup_alter_eq, Hr.
    eexists. split_and!; [done|done|]. exact Hnone.
Qed.

Lemma read_segment_verified id block s o s' :
  Inv s → 0 ≤ block → read_segment id block s = (Ok o, s') →
  ∃ r, st_versions s' !! id = Some r ∧
    match o with Some bytes => verified s' r block bytes | None => Index_get (r_index r) block = None end.
Proof.
  intros HI Hb0 Hr. unfold read_segment in Hr. apply bind_Ok_inv in Hr as (r & s1 & Hload & Hr).
  pose proof (steps_run _ _ _ _ _ Hload (load_tidies id) HI) as HI1. apply rtc_tidy_inv in HI1; [|done].
  apply load_Ok in Hload. clear HI s. rename s1 into s, HI1 into HI, Hload into Hres.
  destruct (Index_get (r_index r) block) as [[slot digest]|] eqn:Hget; [|injection Hr as <- <-; eauto].
  apply bind_Ok_inv in Hr as ([first last] & s1 & [Hrange ->]%lift_inv & Hr).
  apply bind_Ok_inv in Hr as (size & s1 & [Hsz ->]%lift_inv & Hr). apply ok_or_Ok in Hsz.
  destruct (inv_resident _ HI id r Hres) as (row & Hrow & Hok). pose proof Hok as [Hwf Hsy Hm Hg Hv Hc].
  pose proof (block_in_segment (r_meta r) size block first last Hv (resident_ok_layout _ _ Hok) Hsz Hb0 Hrange)
    as [Hin Hlt].
  assert (Hcleared : ∀ w s2 u, remove_segment id (first / size) (set_world (λ _, w) s) = (Ok u, s2) →
    ∃ r, st_versions s2 !! id = Some r ∧ Index_get (r_index r) block = None).
  { intros w s2 [] Hrem. eapply remove_segment_clears in Hrem as (r' & Hr' & Em & Hcl);
      [|by eapply inv_frame|done|done]. exists r'. split; [done|]. apply Hcl. by rewrite Em. }
  apply bind_Ok_inv in Hr as (sg & s1 & Hsg & Hr).
  apply (steps_run quiet) in Hsg as (w & _ & ->); [|apply segment_quiet].
  destruct sg as [sg|]; [|apply bind_Ok_inv in Hr as (u & s2 & Hrem%Hcleared & [= <- <-]); exact Hrem].
  apply bind_Ok_inv in Hr as (file & s1 & Hfile%attempt_inv & Hr).
  apply (steps_run quiet) in Hfile as (w1 & _ & ->); [|apply segment_file_quiet].
  destruct file as [file|e]; [|apply bind_Ok_inv in Hr as (u & s2 & Hrem & [= <- <-]); exact (Hcleared w1 _ _ Hrem)].
  apply bind_Ok_inv in Hr as (bytes & s1 & Hread%attempt_inv & Hr).
  assert (Hq : quiet (set_world (λ _, w1) s) s1) by (eapply steps_run, read_exact_quiet; exact Hread).
  destruct Hq as (w2 & _ & ->).
  apply bind_Ok_inv in Hr as (checked & s1 & [-> Hck]%digest_matches_inv & Hr). destruct checked.
  - destruct Hck as (data & -> & Hh); [done|].
    apply bind_Ok_inv in Hr as (u & s2 & Ht & Hr). apply bind_Ok_inv in Hr as (d & s3 & [[= ->] ->]%lift_inv & [= <- <-]).
    apply (steps_run same_data) in Ht as (Hv1 & Hf1 & _); [|apply touch_segment_same].
    apply read_exact_inv in Hread as (b & Hb & Hsl & _). cbn in Hv1, Hf1, Hb. exists r. rewrite Hv1.
    split; [done|]. exists slot, digest, first, last, file, b, (HEADER_LEN + slot * g_block (m_geometry (r_meta r))).
    rewrite Hf1. pose proof (slice_Some _ _ _ _ Hsl) as (_ & _ & Hlen). split_and!; [done..|lia|by left|done|done].
  - apply bind_Ok_inv in Hr as (r2 & s2 & [-> Hr2]%load_hit_inv & Hr). assert (r2 = r) as -> by (cbn in Hr2; congruence).
    apply bind_Ok_inv in Hr as (u & s3 & Hp & [= <- <-]).
    apply publish_remove_inv in Hp as [(r' & Hr' & _ & Hn) _]; [by exists r'|by eapply inv_frame|done|].
    rewrite <- Hg. by eapply Index_get_range.
Qed.

(** A commit changes what is dirty, and nothing else in memory. *)
Definition r_core (r : Resident) : Resident :=
  r_with_index (mk_Index (ix_bytes (r_index r)) [] (ix_geometry (r_index r))) r.
Definition same_core (s s' : Storage) : Prop :=
  st_files s' = st_files s ∧ ∀ id, r_core <$> st_versions s' !! id = r_core <$> st_versions s !! id.
#[local] Instance same_core_preorder : PreOrder same_core.
Proof.
  split; [by intros s|]. intros s1 s2 s3 [? H12] [? H23]. split; [congruence|].
  intros id. by rewrite H23, H12.
Qed.
Lemma set_index_core id r i s :
  r_core <$> st_versions s !! id = r_core <$> Some r →
  ix_bytes i = ix_bytes (r_index r) → ix_geometry i = ix_geometry (r_index r) →
  same_core s (set_index id i s).2.
Proof.
  intros Hr Hb Hg. split; [done|]. intros id'. cbn. destruct (decide (id' = id)) as [->|Hne].
  - rewrite lookup_alter_eq. destruct (st_versions s !! id) as [r0|]; [|done]. cbn in *.
    apply (inj Some) in Hr. f_equal. rewrite Hr. unfold r_core, r_with_index. cbn. rewrite Hb, Hg.
    unfold r_core, r_with_index in Hr. cbn in Hr. congruence.
  - by rewrite lookup_alter_ne.
Qed.
Lemma commit_core id : steps same_core (commit id).
Proof.
  intros s. rewrite commit_eq. destruct (st_versions s !! id) as [r|] eqn:Hr; [|done].
  destruct (Index_dirty (r_index r)) as [ranges sorted] eqn:Hd.
  assert (ix_bytes sorted = ix_bytes (r_index r) ∧ ix_geometry sorted = ix_geometry (r_index r)) as [Eb Eg]
    by by injection Hd as _ <-.
  apply (steps_bind_dep _).
  { apply (set_index_core id r); [by rewrite Hr|done|done]. }
  intros u s1 Hs1. assert (H1 : same_core s s1).
  { eapply (set_index_core id r sorted) in Eb as Hc; [|by rewrite Hr|done]. by rewrite Hs1 in Hc. }
  destruct ranges as [|rg ranges]; [done|]. apply (steps_bind_dep _).
  { destruct (txn_cases _ _ s1 (dbprog_patch id (ix_bytes sorted) (rg :: ranges)))
      as (w & Hw & [[e He]|(u' & d & Ht & _)]); [by rewrite He|by rewrite Ht]. }
  intros u2 s2 Hs2. assert (H2 : same_core s1 s2).
  { destruct (txn_cases _ _ s1 (dbprog_patch id (ix_bytes sorted) (rg :: ranges)))
      as (w & Hw & [[e He]|(u' & d & Ht & _)]); [by rewrite He in Hs2|]. rewrite Ht in Hs2.
    by injection Hs2 as _ <-. }
  apply (set_index_core id r); [|done|done]. destruct H1 as [_ H1], H2 as [_ H2]. by rewrite H2, H1, Hr.
Qed.

Lemma read_block_verified id block r s o s' :
  Inv s → 0 ≤ block → st_versions s !! id = Some r → read_block id block r s = (Ok o, s') →
  ∃ r, st_versions s' !! id = Some r ∧
    match o with Some bytes => verified s' r block bytes | None => Index_get (r_index r) block = None end.
Proof.
  intros HI Hb0 Hres Hr. unfold read_block in Hr.
  destruct (Index_get (r_index r) block) as [[slot digest]|] eqn:Hget; [|injection Hr as <- <-; eauto].
  apply bind_Ok_inv in Hr as ([first last] & s1 & [Hrange ->]%lift_inv & Hr).
  apply bind_Ok_inv in Hr as (file & s1 & [_ ->]%lift_inv & Hr).
  apply bind_Ok_inv in Hr as (offset & s1 & Hoff & Hr).
  destruct (inv_resident _ HI id r Hres) as (row & Hrow & Hok). pose proof Hok as [Hwf Hsy Hm Hg Hv Hc].
  assert (s1 = s ∧ (offset = HEADER_LEN + slot * g_block (m_geometry (r_meta r))
                    ∨ r_plain r = true ∧ offset = first)) as [-> Hoffset].
  { destruct (r_plain r); [injection Hoff as <- <-; auto|]. apply lift_inv in Hoff as [Hoff ->].
    split; [done|]. left. unfold Geometry_offset, checked_mul, checked_add in Hoff. destruct_ok.
    repeat case_match; simplify_eq. lia. }
  apply bind_Ok_inv in Hr as (bytes & s1 & Hread%attempt_inv & Hr).
  assert (Hq : quiet s s1) by (eapply steps_run, read_exact_quiet; exact Hread). destruct Hq as (w & _ & ->).
  apply bind_Ok_inv in Hr as (checked & s1 & [-> Hck]%digest_matches_inv & Hr). destruct checked.
  - destruct Hck as (data & -> & Hh); [done|].
    apply bind_Ok_inv in Hr as (d & s3 & [[= ->] ->]%lift_inv & [= <- <-]).
    apply read_exact_inv in Hread as (b & Hb & Hsl & _). exists r. split; [done|].
    exists slot, digest, first, last, file, b, offset. pose proof (slice_Some _ _ _ _ Hsl) as (_ & _ & Hlen).
    split_and!; [done..|lia|done|done|done].
  - destruct (r_plain r); [by apply bind_Ok_inv in Hr as (? & ? & _ & Hr)|].
    apply bind_Ok_inv in Hr as (u & s1 & [= <- <-] & Hr).
    apply bind_Ok_inv in Hr as (u' & s2 & Hcm & [= <- <-]).
    apply (steps_run same_core) in Hcm as [_ Hcm]; [|apply commit_core]. specialize (Hcm id). cbn in Hcm.
    rewrite lookup_alter_eq, Hres in Hcm. cbn in Hcm. apply fmap_Some in Hcm as (r' & Hr' & E).
    exists r'. split; [done|]. apply (f_equal (ix_bytes ∘ r_index)) in E.
    assert (Hx : Index_get (r_index r') block = Index_get (Index_remove (r_index r) block) block).
    { unfold Index_get. cbn in E |- *. by rewrite E. }
    rewrite Hx. apply remove_bytes_get; [done|]. by eapply Index_get_range.
Qed.

(** C32. A read returns verified data or nothing: bytes that come back have the digest and the
    length the index records for the block and are what the file holds at the slot (or at the
    block's place in a published file), of a version that was not invalidated; and when nothing
    comes back, a damaged block is gone from the index, so it will be fetched again. *)
Theorem read_verified id block s o s' :
  Inv s → 0 ≤ block → read id block s = (Ok o, s') →
  (∃ row, db_versions (st_db s) !! id = Some row ∧ v_obsolete row ≠ 2) ∧
  ∃ r, st_versions s' !! id = Some r ∧
    match o with
    | Some bytes => verified s' r block bytes
    | None => Index_get (r_index r) block = None
    end.
Proof.
  intros HI Hb Hr. unfold read in Hr. apply bind_Ok_inv in Hr as (u & s1 & Ha & Hr).
  assert (Hq : quiet s s1) by (eapply steps_run, check_active_quiet; exact Ha).
  apply bind_Ok_inv in Ha as (row & s2 & [-> _]%quiet_query & [Hact _]%guard_inv).
  split. { destruct (db_versions (st_db s) !! id) as [row|]; [|done]. exists row. split; [done|].
           cbn in Hact. apply negb_true_iff in Hact. lia. }
  destruct Hq as (w & _ & ->). apply bind_Ok_inv in Hr as (r & s1 & Hload & Hr).
  assert (HI1 : Inv s1).
  { eapply rtc_tidy_inv; [|by apply (inv_frame s (set_world (λ _, w) s))].
    eapply (steps_run tidied); [exact Hload|apply load_tidies|by apply (inv_frame s)]. }
  pose proof (load_Ok _ _ _ _ Hload) as Hres.
  destruct (segment_bytes (m_layout (r_meta r))); [by eapply read_segment_verified|].
  apply bind_Ok_inv in Hr as (r2 & s3 & Hl & Hr). rewrite (load_resident id s1 r Hres) in Hl.
  apply load_hit_inv in Hl as [-> Hl]. assert (r2 = r) as -> by congruence. by eapply read_block_verified.
Qed.
End Read.

(** ** Examples *)

#[local] Existing Instance toy_digest.

Lemma reserve_index_bounds_witness :
  reserve_loop 9 36 sample_held = (Ok tt, sample_held) ∧ index_bytes sample_held + 36 <= INDEX_BUDGET.
Proof.
  destruct (reserve_index_bounds 36 sample_held (Ok tt) sample_held) as (Hb & _ & Hf).
  - apply sample_held_inv.
  - vm_compute. reflexivity.
  - split; [apply Hf; vm_compute; lia|by apply Hb].
Defined.

Lemma read_verified_witness :
  ∃ r, st_versions sample_filled !! 1 = Some r ∧ verified sample_filled r 0 [7; 8; 9].
Proof.
  destruct (read_verified 1 0 sample_filled (Some [7; 8; 9]) sample_filled) as [_ Hv].
  - apply sample_filled_inv.
  - lia.
  - vm_compute. reflexivity.
  - exact Hv.
Defined.
