(* ===== verification/Objects.v ===== *)
(** * Resource cache: the packed objects stay intact

    The invariant of the pack files and their tables: every object row names bytes of a pack
    file that have the digest of the row, in an extent no other object shares; kept by every
    operation on objects and by evictions, whatever fails and wherever the process dies. *)
From S2P Require Import Prelude Text Format Policy Storage Segments Packs Store Steps Sample.
From S2P Require Import Eviction Reading.
From stdpp Require Import options.
#[local] Set Default Proof Using "Type*".

Open Scope Z_scope.

Section Objects.
Context {D : Digest} `{!Platform}.

(** ** The invariant *)

Record pack_ok (token : string) (p : PackRow) (b : list Z) : Prop := {
  pk_length : PACK_HEADER ≤ p_length p ≤ PACK_BYTES;
  pk_header : slice b 0 64 = Some (pack_header token);
  pk_committed : p_length p ≤ zlen b;
}.
Definition object_data (o : ObjectRow) (b : list Z) : option (list Z) :=
  slice b (o_offset o) (o_offset o + o_length o).
Record object_ok (o : ObjectRow) (p : PackRow) (b : list Z) : Prop := {
  ob_offset : PACK_HEADER ≤ o_offset o;
  ob_length : 0 ≤ o_length o;
  ob_extent : o_offset o + o_length o ≤ p_length p;
  ob_data : ∃ d, object_data o b = Some d ∧ hash d = Ok (o_digest o);
}.
Record PackInv (s : Storage) : Prop := {
  pi_packs : ∀ token p, db_packs (st_db s) !! token = Some p → p_deleting p = 0 →
    managed_pack_name (pack_name token) = true ∧
    ∃ b, st_files s !! pack_name token = Some (Regular b) ∧ pack_ok token p b;
  pi_objects : ∀ key o, db_objects (st_db s) !! key = Some o →
    ∃ p b, db_packs (st_db s) !! o_pack o = Some p ∧ p_deleting p = 0 ∧
      st_files s !! pack_name (o_pack o) = Some (Regular b) ∧ object_ok o p b;
  pi_disjoint : ∀ key1 key2 o1 o2, key1 ≠ key2 →
    db_objects (st_db s) !! key1 = Some o1 → db_objects (st_db s) !! key2 = Some o2 →
    o_pack o1 = o_pack o2 →
    o_offset o1 + o_length o1 ≤ o_offset o2 ∨ o_offset o2 + o_length o2 ≤ o_offset o1;
}.

(** The parts of the state it is about. *)
Definition pack_view (s : Storage) : gmap string PackRow * gmap string ObjectRow * gmap string Entry :=
  (db_packs (st_db s), db_objects (st_db s), filter (λ kv, pack_file kv.1 = true) (st_files s)).

Lemma pack_file_name token : pack_file (pack_name token) = true.
Proof. unfold pack_file, pack_name. by rewrite strip_suffix_app. Qed.
Lemma pack_name_inj a b : pack_name a = pack_name b → a = b.
Proof.
  unfold pack_name. intros Heq. apply (f_equal (strip_suffix ".pack")) in Heq.
  rewrite !strip_suffix_app in Heq. congruence.
Qed.
Lemma view_file s s' name :
  pack_view s' = pack_view s → pack_file name = true → st_files s' !! name = st_files s !! name.
Proof.
  intros [= _ _ Hf] Hn. apply (f_equal (.!! name)) in Hf.
  destruct (st_files s !! name) as [e|] eqn:He.
  - assert (Hx : filter (λ kv, pack_file kv.1 = true) (st_files s') !! name = Some e)
      by (rewrite Hf; by apply map_lookup_filter_Some).
    by apply map_lookup_filter_Some in Hx as [Hx _].
  - destruct (st_files s' !! name) as [e|] eqn:He'; [|done].
    assert (Hx : filter (λ kv, pack_file kv.1 = true) (st_files s) !! name = Some e)
      by (rewrite <- Hf; by apply map_lookup_filter_Some).
    apply map_lookup_filter_Some in Hx as [Hx _]. congruence.
Qed.
Lemma pack_view_inv s s' : pack_view s' = pack_view s → PackInv s → PackInv s'.
Proof.
  intros Hv [H1 H2 H3]. pose proof (view_file s s') as Hf. pose proof Hv as [= Ep Eo _].
  split; rewrite ?Ep, ?Eo.
  - intros token p Hp Hd. rewrite Hf by (done || apply pack_file_name). by apply H1.
  - intros key o Ho. rewrite Hf by (done || apply pack_file_name). by apply H2 in Ho.
  - done.
Qed.

Lemma filter_delete_other (m : gmap string Entry) name :
  pack_file name = false →
  filter (λ kv, pack_file kv.1 = true) (delete name m) = filter (λ kv, pack_file kv.1 = true) m.
Proof.
  intros Hn. apply map_filter_strong_ext. intros k e. cbn. split.
  - intros [Hk He]. split; [done|]. by apply lookup_delete_Some in He as [_ He].
  - intros [Hk He]. split; [done|]. apply lookup_delete_Some. split; [congruence|done].
Qed.
Lemma filter_insert_other (m : gmap string Entry) name e :
  pack_file name = false →
  filter (λ kv, pack_file kv.1 = true) (<[name := e]> m) = filter (λ kv, pack_file kv.1 = true) m.
Proof.
  intros Hn. apply map_filter_strong_ext. intros k x. cbn. split.
  - intros [Hk He]. split; [done|]. rewrite lookup_insert_ne in He by congruence. done.
  - intros [Hk He]. split; [done|]. rewrite lookup_insert_ne by congruence. done.
Qed.
Lemma file_name_pack g suffix : suffix ∈ outputs → pack_file (file_name g suffix) = false.
Proof.
  intros Hs. unfold pack_file, file_name, strip_suffix. rewrite !srev_append.
  unfold outputs in Hs. set_unfold in Hs. by destruct Hs as [->|[->|[->|[]]]].
Qed.
Lemma data_name_pack g : pack_file (data_name g) = false.
Proof. unfold pack_file, data_name, strip_suffix. by rewrite srev_append. Qed.

(** ** Evictions *)

Lemma tidy_pack_view s s' : tidy s s' → pack_view s' = pack_view s.
Proof.
  intros Ht. destruct Ht as [s|s|f s|f s|t s|name s Hname Hpack|g b b' s Hf|id r s Hr
    |id r row index f s Hr Hrow Hwf Hsy Hg Hdc Hoth|f s Hf|key s|id s Hl
    |id row r s Hn Hrow Hm Hlay Hlen Hle Hix]; try done; unfold pack_view; cbn.
  - by rewrite filter_delete_other.
  - by rewrite filter_insert_other by apply data_name_pack.
Qed.

Lemma condemn_pack_inv token s : PackInv s → PackInv (set_db (condemn_pack token) s).
Proof.
  intros [H1 H2 H3]. split; cbn.
  - intros t p Hp Hd. destruct (decide (t = token)) as [->|Hne].
    + rewrite lookup_alter_eq in Hp. apply fmap_Some in Hp as (p0 & _ & ->). done.
    + rewrite lookup_alter_ne in Hp by done. by apply H1.
  - intros key o [Ho Hne]%map_lookup_filter_Some. cbn in Hne. rewrite lookup_alter_ne by done. by apply (H2 key).
  - intros k1 k2 o1 o2 Hk [Ho1 _]%map_lookup_filter_Some [Ho2 _]%map_lookup_filter_Some. by eapply H3.
Qed.

Lemma maint_pack_inv s s' : maint s s' → PackInv s → PackInv s'.
Proof.
  intros Hm HP.
  destruct Hm as [s s' Ht|b s|now s|id s Hh|id row suffix s Hh Hrow Hsuf|id s Hh Hn|token s|token s Hc|token s Hc];
    try (by apply (pack_view_inv s)).
  - by eapply pack_view_inv, HP; apply tidy_pack_view.
  - eapply pack_view_inv, HP. unfold pack_view. cbn. by rewrite filter_delete_other by by apply file_name_pack.
  - by apply condemn_pack_inv.
  - destruct HP as [H1 H2 H3], Hc as [Hu Hd]. split; cbn; [| |exact H3].
    + intros t p Hp Hz. rewrite lookup_delete_ne; [by apply H1|].
      intros Heq%pack_name_inj. subst t. by eapply Hd.
    + intros key o Ho. rewrite lookup_delete_ne; [by apply (H2 key)|].
      intros Heq%pack_name_inj. by eapply Hu.
  - destruct HP as [H1 H2 H3], Hc as [Hu Hd]. split; cbn; [| |exact H3].
    + intros t p [_ Hp]%lookup_delete_Some Hz. by apply H1.
    + intros key o Ho. rewrite lookup_delete_ne; [by apply (H2 key)|]. intros Heq. by eapply Hu.
Qed.

(** ** The steps of the other operations *)

Lemma after_bind {A B} (P : Storage → Prop) (m : M A) (f : A → M B) s :
  P (m s).2 → (∀ a s', m s = (Ok a, s') → P s' → P (f a s').2) → P ((m ≫= f) s).2.
Proof.
  intros Hm Hf. unfold mbind, st_bind. destruct (m s) as [[a|e] s']; cbn in *; [by apply Hf|done].
Qed.

Definition live (s : Storage) (token : string) (p : PackRow) : Prop :=
  db_packs (st_db s) !! token = Some p ∧ p_deleting p = 0.
Definition not_live (s : Storage) (token : string) : Prop :=
  ∀ p, db_packs (st_db s) !! token = Some p → p_deleting p ≠ 0.

Lemma slice_same {A} (b b' : list A) k a n :
  take (Z.to_nat k) b' = take (Z.to_nat k) b → k ≤ zlen b → k ≤ zlen b' → a + n ≤ k →
  slice b' a (a + n) = slice b a (a + n).
Proof.
  intros Ht Hb Hb' Han. unfold slice.
  destruct (Z.leb_spec 0 a); cbn; [|done]. destruct (Z.leb_spec a (a + n)); cbn; [|done].
  destruct (Z.leb_spec (a + n) (zlen b)); [|lia]. destruct (Z.leb_spec (a + n) (zlen b')); [|lia]. f_equal.
  replace (a + n - a) with n by lia.
  assert (Hcut : ∀ l : list A, take (Z.to_nat n) (drop (Z.to_nat a) l)
    = take (Z.to_nat n) (drop (Z.to_nat a) (take (Z.to_nat k) l))).
  { intros l. rewrite !take_drop_commute, take_take. do 2 f_equal. lia. }
  by rewrite (Hcut b'), (Hcut b), Ht.
Qed.

(** *** Writing to one file *)

(** Only this file changes. *)
Definition scratches (token : string) (s s' : Storage) : Prop :=
  st_db s' = st_db s ∧ st_versions s' = st_versions s ∧
  ∀ name, name ≠ pack_name token → st_files s' !! name = st_files s !! name.
(** Only this file changes, and its first [n] bytes stay. *)
Definition appends (token : string) (n : Z) (s s' : Storage) : Prop :=
  scratches token s s' ∧
  ∀ b, st_files s !! pack_name token = Some (Regular b) → n ≤ zlen b →
    ∃ b', st_files s' !! pack_name token = Some (Regular b') ∧ n ≤ zlen b' ∧
      take (Z.to_nat n) b' = take (Z.to_nat n) b.
#[local] Instance scratches_preorder token : PreOrder (scratches token).
Proof.
  split; [by intros s|]. intros s1 s2 s3 (A1 & A2 & A3) (B1 & B2 & B3). split_and!; [congruence..|].
  intros name Hn. by rewrite B3, A3.
Qed.
#[local] Instance appends_preorder token n : PreOrder (appends token n).
Proof.
  split; [intros s; split; [done|]; intros b Hb; by exists b|].
  intros s1 s2 s3 [A1 A2] [B1 B2]. split; [by etrans|]. intros b Hb Hn.
  destruct (A2 b Hb Hn) as (b' & Hb' & Hn' & Ht). destruct (B2 b' Hb' Hn') as (b'' & Hb'' & Hn'' & Ht').
  exists b''. split_and!; [done|done|congruence].
Qed.

Lemma quiet_appends token n {A} (m : M A) : steps quiet m → steps (appends token n) m.
Proof.
  apply steps_impl. intros s s' (w & _ & ->). split; [done|]. intros b Hb Hn. by exists b.
Qed.
Lemma appends_scratches token n {A} (m : M A) : steps (appends token n) m → steps (scratches token) m.
Proof. apply steps_impl. by intros s s' []. Qed.
Lemma sizes_appends token n f : steps (appends token n) (modify (set_sizes f) : M unit).
Proof. apply (steps_modify _). intros s. split; [done|]. intros b Hb Hn. by exists b. Qed.
Lemma tick_appends token n : steps (appends token n) segment_tick.
Proof.
  unfold segment_tick. steps_walk. apply (steps_modify _). intros s. split; [done|]. intros b Hb Hn. by exists b.
Qed.

Lemma set_file_appends token n b b' s :
  st_files s !! pack_name token = Some (Regular b) →
  (n ≤ zlen b → n ≤ zlen b' ∧ take (Z.to_nat n) b' = take (Z.to_nat n) b) →
  appends token n s (set_files <[pack_name token := Regular b']> s).
Proof.
  intros Hb Hn. split.
  - split_and!; [done..|]. intros name Hne. cbn. by rewrite lookup_insert_ne.
  - intros c Hc Hz. assert (c = b) as -> by congruence. exists b'. cbn. rewrite lookup_insert_eq.
    split; [done|]. by apply Hn.
Qed.
Lemma set_len_appends token n : 0 ≤ n → steps (appends token n) (set_len (pack_name token) n).
Proof.
  intros Hn0. unfold set_len. apply (steps_bind _); [apply quiet_appends, io_quiet|intros _].
  apply (steps_modify _). intros s. destruct (st_files s !! pack_name token) as [[b|]|] eqn:Hf; [|done..].
  eapply set_file_appends; [done|]. intros Hn. unfold zlen in *. rewrite length_take, length_app, length_replicate.
  split; [lia|]. rewrite take_take. rewrite take_app_le by lia. f_equal. lia.
Qed.
Lemma overwrite_prefix b off d :
  0 ≤ off → take (Z.to_nat off) (overwrite b off d) = take (Z.to_nat off) (b ++ replicate (Z.to_nat (off - zlen b)) 0) ∧
  off ≤ zlen (overwrite b off d).
Proof.
  intros Hoff. unfold overwrite. set (c := b ++ _).
  assert (Hc : (Z.to_nat off ≤ length c)%nat).
  { unfold c, zlen. rewrite length_app, length_replicate. lia. }
  split.
  - rewrite take_app_le by (rewrite length_take; lia). rewrite take_take. f_equal. lia.
  - unfold zlen. rewrite !length_app, length_take. lia.
Qed.
Lemma put_bytes_appends token off d s : 0 ≤ off → appends token off s (put_bytes (pack_name token) off d s).
Proof.
  intros Hoff. unfold put_bytes. destruct (st_files s !! pack_name token) as [[b|]|] eqn:Hf; [|done..].
  eapply set_file_appends; [done|]. intros Hn. destruct (overwrite_prefix b off d Hoff) as [-> Hl].
  split; [done|]. apply take_app_le. unfold zlen in *. lia.
Qed.
Lemma world_appends token n f s : appends token n s (set_world f s).
Proof. split; [done|]. intros b Hb Hn. by exists b. Qed.
Lemma write_all_appends token off d : 0 ≤ off → steps (appends token off) (write_all (pack_name token) off d).
Proof.
  intros Hoff. unfold write_all. apply (steps_bind _).
  - intros s. unfold io_with. destruct (w_dead _); [done|].
    destruct (w_outcomes (st_world s)) as [|[|n|n] os]; cbn; [done|apply world_appends|..].
    + etrans; [apply world_appends|]. by apply put_bytes_appends.
    + etrans; [by apply put_bytes_appends|]. apply world_appends.
  - intros _. apply (steps_modify _). intros s. by apply put_bytes_appends.
Qed.

(** The file of a pack that is not live may change in any way. *)
Lemma scratches_inv token s s' : scratches token s s' → not_live s token → PackInv s → PackInv s'.
Proof.
  intros (Hd & _ & Hf) Hn [H1 H2 H3]. split; rewrite ?Hd; [| |exact H3].
  - intros t p Hp Hz. rewrite Hf; [by apply H1|]. intros ->%pack_name_inj. by eapply Hn.
  - intros key o Ho. destruct (H2 key o Ho) as (p & b & Hp & Hz & Hfile & Hok). rewrite Hf; [by exists p, b|].
    intros Heq%pack_name_inj. subst token. by eapply Hn.
Qed.
(** The file of a live pack may change beyond what is committed; the objects keep their bytes. *)
Lemma appends_inv token p s s' :
  appends token (p_length p) s s' → live s token p → PackInv s → PackInv s' ∧ live s' token p.
Proof.
  intros [(Hdb & _ & Hf) Ha] [Hp Hd] [H1 H2 H3]. split; [|by unfold live; rewrite Hdb].
  destruct (H1 token p Hp Hd) as (_ & b & Hb & [Hl Hh Hc]).
  destruct (Ha b Hb Hc) as (b' & Hb' & Hlen & Ht). split; rewrite ?Hdb; [| |exact H3].
  - intros t q Hq Hz. destruct (H1 t q Hq Hz) as (Hman & c & Hcf & Hok). split; [done|].
    destruct (decide (t = token)) as [->|Hne].
    + assert (q = p) as -> by congruence. exists b'. split; [done|].
      split; [done| |done]. rewrite <- Hh. apply (slice_same b b' (p_length p) 0 64); [done..|].
      unfold PACK_HEADER in Hl. lia.
    + rewrite Hf by (by intros ?%pack_name_inj). by exists c.
  - intros key o Ho. destruct (H2 key o Ho) as (q & c & Hq & Hz & Hcf & Hok).
    destruct (decide (o_pack o = token)) as [Heq|Hne].
    + rewrite Heq in *. assert (q = p) as -> by congruence. assert (c = b) as -> by congruence.
      exists p, b'. split_and!; try done.
      destruct Hok as [O1 O2 O3 (d & Hd' & Hh')]. split; [done..|]. exists d. split; [|done].
      rewrite <- Hd'. by apply (slice_same b b' (p_length p)).
    + rewrite Hf by (by intros ?%pack_name_inj). by exists q, c.
Qed.

(** *** The bytes of an object *)

Definition object_bytes (s : Storage) (o : ObjectRow) : option (list Z) :=
  match st_files s !! pack_name (o_pack o) with Some (Regular b) => object_data o b | _ => None end.

(** No row but that of [key] is new, and the others name the same bytes. *)
Definition kept (key : option string) (s s' : Storage) : Prop :=
  ∀ k o, Some k ≠ key → db_objects (st_db s') !! k = Some o →
    db_objects (st_db s) !! k = Some o ∧ object_bytes s' o = object_bytes s o.
#[local] Instance kept_preorder key : PreOrder (kept key).
Proof.
  split; [by intros s k o|]. intros s1 s2 s3 H12 H23 k o Hk Ho. destruct (H23 k o Hk Ho) as [Ho2 E2].
  destruct (H12 k o Hk Ho2) as [Ho1 E1]. split; [done|congruence].
Qed.
Lemma kept_weaken key s s' : kept None s s' → kept key s s'.
Proof. intros Hk k o _. by apply Hk. Qed.

Lemma object_bytes_ok s key o :
  PackInv s → db_objects (st_db s) !! key = Some o → ∃ d, object_bytes s o = Some d ∧ hash d = Ok (o_digest o).
Proof.
  intros HP Ho. destruct (pi_objects _ HP key o Ho) as (p & b & Hp & Hd & Hf & [_ _ _ Hdata]).
  unfold object_bytes. by rewrite Hf.
Qed.
Lemma view_kept s s' : pack_view s' = pack_view s → kept None s s'.
Proof.
  intros Hv k o _ Ho. pose proof (view_file s s' (pack_name (o_pack o)) Hv (pack_file_name _)) as Hf.
  injection Hv as _ Eo _. rewrite Eo in Ho. split; [done|]. unfold object_bytes. by rewrite Hf.
Qed.
Lemma maint_kept s s' : maint s s' → kept None s s'.
Proof.
  intros Hm.
  destruct Hm as [s s' Ht|b s|now s|id s Hh|id row suffix s Hh Hrow Hsuf|id s Hh Hn|token s|token s Hc|token s Hc];
    try (by apply view_kept).
  - by apply view_kept, tidy_pack_view.
  - apply view_kept. unfold pack_view. cbn. by rewrite filter_delete_other by by apply file_name_pack.
  - intros k o _ Ho. cbn in Ho. by apply map_lookup_filter_Some in Ho as [Ho _].
  - intros k o _ Ho. split; [done|]. unfold object_bytes. cbn. rewrite lookup_delete_ne; [done|].
    intros Heq%pack_name_inj. destruct Hc as [Hu _]. by eapply Hu.
  - by intros k o _ Ho.
Qed.
Lemma appends_kept token p s s' :
  appends token (p_length p) s s' → live s token p → PackInv s → kept None s s'.
Proof.
  intros [(Hdb & _ & Hf) Ha] [Hp Hd] HP k o _ Ho. rewrite Hdb in Ho. split; [done|].
  destruct (pi_objects _ HP k o Ho) as (q & c & Hq & Hz & Hcf & Hok).
  unfold object_bytes. destruct (decide (o_pack o = token)) as [Heq|Hne].
  - rewrite Heq in *. assert (q = p) as -> by congruence.
    destruct (pi_packs _ HP token p Hp Hd) as (_ & b & Hb & [Hl Hh Hc]). assert (c = b) as -> by congruence.
    destruct (Ha b Hb Hc) as (b' & Hb' & Hlen & Ht). rewrite Hb, Hb'. destruct Hok.
    by apply (slice_same b b' (p_length p)).
  - by rewrite Hf by (by intros ?%pack_name_inj).
Qed.
Lemma scratches_kept token s s' : scratches token s s' → not_live s token → PackInv s → kept None s s'.
Proof.
  intros (Hdb & _ & Hf) Hn HP k o _ Ho. rewrite Hdb in Ho. split; [done|].
  destruct (pi_objects _ HP k o Ho) as (q & c & Hq & Hz & Hcf & Hok).
  unfold object_bytes. rewrite Hf; [done|]. intros Heq%pack_name_inj. subst token. by eapply Hn.
Qed.

(** ** Appending an object *)

(** The tables after the transaction. *)
Definition stored_db (meta : ObjectMetadata) (token : string) (offset clock : Z) (digest : list Z)
    (text : string) (d : Db) : Db :=
  with_packs (alter (λ p, if p_deleting p =? 0
    then mk_PackRow (p_rowid p) (p_group p) (p_provider p) (offset + om_length meta) clock (p_deleting p)
    else p) token)
    (with_objects <[om_key meta := mk_ObjectRow token offset (om_length meta) digest text]> d).

Lemma insert_object_txn meta token offset clock digest s :
  ∃ w, rtc wstep (st_world s) w ∧
    ((∃ e, txn (insert_object meta token offset clock digest) s = (Err e, set_world (λ _, w) s)) ∨
     (∃ text, object_to_json meta = Some text ∧
      txn (insert_object meta token offset clock digest) s =
        (Ok tt, set_world (λ _, w) (set_db (stored_db meta token offset clock digest text) s)))).
Proof.
  destruct (txn_cases (λ d _ d', ∃ text, object_to_json meta = Some text ∧
      d' = stored_db meta token offset clock digest text d)
    (insert_object meta token offset clock digest) s) as (w & Hw & Hcase).
  { unfold insert_object. eapply dbprog_impl.
    { eapply dbprog_bind; [apply dbprog_lift|intros text].
      eapply dbprog_bind; [apply dbprog_exec|intros ?; apply dbprog_exec]. }
    intros d [] d' (text & d1 & [Ht%ok_or_Ok ->] & u & d2 & -> & ->). by exists text. }
  exists w. split; [done|]. destruct Hcase as [He|([] & d & Hr & text & Ht & ->)]; [by left|]. right. by exists text.
Qed.

(** The part of [append_object] before its transaction. *)
Definition append_bytes (bytes : list Z) (token : string) (offset : Z) : M (list Z * Z) :=
  actual ← read_exact (pack_name token) 0 64;
  size ← file_len (pack_name token);
  guard_st (bool_decide (actual = pack_header token) && (offset <=? size)) "invalid pack identity" ;;
  set_len (pack_name token) offset ;;
  write_all (pack_name token) offset bytes ;;
  sync_all (pack_name token) ;;
  digest ← lift (hash bytes);
  clock ← segment_tick;
  mret (digest, clock).
Lemma append_object_eq meta bytes token offset s :
  append_object meta bytes token offset s =
  ('(digest, clock) ← append_bytes bytes token offset;
   txn (insert_object meta token offset clock digest)) s.
Proof.
  unfold append_object, append_bytes, mbind, st_bind, mret, st_ret.
  repeat match goal with |- context [match ?m ?s with _ => _ end] =>
    destruct (m s) as [[?|?] ?]; try reflexivity end.
Qed.

Lemma append_bytes_appends bytes token off : 0 ≤ off → steps (appends token off) (append_bytes bytes token off).
Proof.
  intros Hoff. unfold append_bytes, sync_all.
  apply (steps_bind _); [apply quiet_appends, read_exact_quiet|intros actual].
  apply (steps_bind _); [apply quiet_appends, file_len_quiet|intros size].
  apply (steps_bind _); [apply (steps_guard _)|intros _].
  apply (steps_bind _); [by apply set_len_appends|intros _].
  apply (steps_bind _); [by apply write_all_appends|intros _].
  apply (steps_bind _); [apply quiet_appends, io_quiet|intros _].
  apply (steps_bind _); [apply (steps_lift _)|intros digest].
  apply (steps_bind _); [apply tick_appends|intros clock]. apply (steps_ret _).
Qed.

Lemma io_with_inv partial s u s' : io_with partial s = (Ok u, s') → ∃ w, s' = set_world (λ _, w) s.
Proof.
  unfold io_with. destruct (w_dead _); [done|]. destruct (w_outcomes _) as [|[|n|n] os]; try done.
  - intros [= <- <-]. exists (st_world s). by destruct s.
  - intros [= <- <-]. by eexists.
Qed.
Lemma set_len_inv name n s u s' b :
  set_len name n s = (Ok u, s') → st_files s !! name = Some (Regular b) → n ≤ zlen b → 0 ≤ n →
  st_files s' !! name = Some (Regular (take (Z.to_nat n) b)).
Proof.
  unfold set_len. intros Hr Hb Hn Hn0. apply bind_Ok_inv in Hr as (? & s1 & [w ->]%io_with_inv & [= _ <-]).
  cbn. rewrite Hb. cbn. rewrite lookup_insert_eq. do 2 f_equal. unfold zlen in Hn. by rewrite take_app_le by lia.
Qed.
Lemma write_all_inv name off d s u s' b :
  write_all name off d s = (Ok u, s') → st_files s !! name = Some (Regular b) → zlen b = off →
  st_files s' !! name = Some (Regular (b ++ d)).
Proof.
  unfold write_all. intros Hr Hb Hoff. apply bind_Ok_inv in Hr as (? & s1 & [w ->]%io_with_inv & [= _ <-]).
  unfold put_bytes. cbn. rewrite Hb. cbn. rewrite lookup_insert_eq. do 2 f_equal. unfold overwrite, zlen in *.
  subst off. rewrite Z.sub_diag. cbn. rewrite app_nil_r, Nat2Z.id, firstn_all. f_equal.
  rewrite drop_ge by lia. by rewrite app_nil_r.
Qed.
Lemma tick_files s t s' : segment_tick s = (Ok t, s') → st_files s' = st_files s.
Proof. unfold segment_tick. cbn. intros [= <- <-]. done. Qed.

Lemma append_bytes_inv bytes token off s digest clock s' :
  0 ≤ off → append_bytes bytes token off s = (Ok (digest, clock), s') →
  hash bytes = Ok digest ∧
  ∃ b, st_files s !! pack_name token = Some (Regular b) ∧ off ≤ zlen b ∧
    st_files s' !! pack_name token = Some (Regular (take (Z.to_nat off) b ++ bytes)).
Proof.
  intros Hoff Hr. unfold append_bytes in Hr.
  apply bind_Ok_inv in Hr as (actual & s1 & (b & Hb & _ & (w1 & _ & ->))%read_exact_inv & Hr).
  apply bind_Ok_inv in Hr as (size & s1 & (b' & Hb' & -> & (w2 & _ & ->))%file_len_inv & Hr).
  cbn in Hb'. assert (b' = b) as -> by congruence. clear Hb'.
  apply bind_Ok_inv in Hr as (u & s1 & [Hg ->]%guard_inv & Hr). apply andb_true_iff in Hg as [_ Hg].
  apply bind_Ok_inv in Hr as (u1 & s1 & Hs1 & Hr). apply (set_len_inv _ _ _ _ _ b) in Hs1; [|done|lia|done].
  apply bind_Ok_inv in Hr as (u2 & s2 & Hs2 & Hr).
  eapply write_all_inv in Hs2; [|exact Hs1|unfold zlen in *; rewrite length_take; lia].
  apply bind_Ok_inv in Hr as (u3 & s3 & [w3 ->]%io_inv & Hr).
  apply bind_Ok_inv in Hr as (h & s3 & [Hh ->]%lift_inv & Hr).
  apply bind_Ok_inv in Hr as (c & s4 & Ht%tick_files & [= -> -> <-]). split; [done|].
  exists b. split_and!; [done|lia|]. rewrite Ht. exact Hs2.
Qed.

Lemma stored_inv meta token p b bytes clock digest text s :
  PackInv s → live s token p → st_files s !! pack_name token = Some (Regular b) →
  slice b (p_length p) (p_length p + om_length meta) = Some bytes → hash bytes = Ok digest →
  p_length p + om_length meta ≤ PACK_BYTES → 0 ≤ om_length meta →
  PackInv (set_db (stored_db meta token (p_length p) clock digest text) s).
Proof.
  intros [H1 H2 H3] [Hp Hd] Hb Hsl Hh Hmax Hlen.
  destruct (H1 token p Hp Hd) as (Hman & b0 & Hb0 & [Hl Hhd Hc]). assert (b0 = b) as -> by congruence. clear Hb0.
  pose proof (slice_Some _ _ _ _ Hsl) as (_ & Hend & _).
  set (p' := mk_PackRow (p_rowid p) (p_group p) (p_provider p) (p_length p + om_length meta) clock (p_deleting p)).
  assert (Hp' : alter (λ p0, if p_deleting p0 =? 0 then mk_PackRow (p_rowid p0) (p_group p0) (p_provider p0)
    (p_length p + om_length meta) clock (p_deleting p0) else p0) token (db_packs (st_db s)) !! token = Some p').
  { rewrite lookup_alter_eq, Hp. cbn. unfold p'. by rewrite Hd. }
  split; cbn.
  - intros t q Hq Hz. destruct (decide (t = token)) as [->|Hne].
    + rewrite Hp' in Hq. injection Hq as <-. split; [done|]. exists b. split; [done|].
      split; [cbn; lia|done|cbn; lia].
    + rewrite lookup_alter_ne in Hq by done. by apply H1.
  - intros key o Ho. destruct (decide (key = om_key meta)) as [->|Hk].
    + rewrite lookup_insert_eq in Ho. injection Ho as <-. cbn. exists p', b. split_and!; [done..|].
      split; cbn; [lia|done|lia|]. exists bytes. by split.
    + rewrite lookup_insert_ne in Ho by done. destruct (H2 key o Ho) as (q & c & Hq & Hz & Hcf & Hok).
      destruct (decide (o_pack o = token)) as [Heq|Hne].
      * rewrite Heq in *. assert (q = p) as -> by congruence. exists p', c. split_and!; [done..|].
        destruct Hok. split; [done..|cbn; lia|done].
      * rewrite lookup_alter_ne by done. by exists q, c.
  - assert (Hnew : ∀ k o, k ≠ om_key meta → db_objects (st_db s) !! k = Some o → o_pack o = token →
      o_offset o + o_length o ≤ p_length p).
    { intros k o Hk Ho Heq. destruct (H2 k o Ho) as (q & c & Hq & Hz & Hcf & []). rewrite Heq in *. congruence. }
    intros k1 k2 o1 o2 Hne Ho1 Ho2 Heq.
    destruct (decide (k1 = om_key meta)) as [->|Hk1]; [|destruct (decide (k2 = om_key meta)) as [->|Hk2]].
    + rewrite lookup_insert_eq in Ho1. injection Ho1 as <-. rewrite lookup_insert_ne in Ho2 by done. cbn in *.
      right. by eapply Hnew.
    + rewrite lookup_insert_eq in Ho2. injection Ho2 as <-. rewrite lookup_insert_ne in Ho1 by done. cbn in *.
      left. by eapply Hnew.
    + rewrite lookup_insert_ne in Ho1, Ho2 by done. by eapply (H3 k1 k2).
Qed.

Lemma appends_versions token n s s' : appends token n s s' → same_versions s s'.
Proof. intros [(Hd & Hv & _) _]. unfold same_versions. by rewrite Hd. Qed.

(** What a completed put leaves in the tables. *)
Definition stored_object (meta : ObjectMetadata) (bytes : list Z) (s : Storage) : Prop :=
  ∃ o, db_objects (st_db s) !! om_key meta = Some o ∧ object_bytes s o = Some bytes ∧
    hash bytes = Ok (o_digest o) ∧ o_length o = om_length meta ∧ object_to_json meta = Some (o_meta o).

Lemma stored_object_view meta bytes s s' :
  pack_view s' = pack_view s → stored_object meta bytes s → stored_object meta bytes s'.
Proof.
  intros Hv (o & Ho & Hb & Hrest). exists o.
  pose proof (view_file s s' (pack_name (o_pack o)) Hv (pack_file_name _)) as Hf.
  injection Hv as _ Eo _. rewrite Eo. split; [done|]. split; [|done]. unfold object_bytes in *. by rewrite Hf.
Qed.

Lemma append_object_safe meta bytes token p s r s' :
  PackInv s → live s token p → om_length meta = zlen bytes → p_length p + om_length meta ≤ PACK_BYTES →
  append_object meta bytes token (p_length p) s = (r, s') →
  PackInv s' ∧ kept (Some (om_key meta)) s s' ∧ same_versions s s' ∧
  match r with Ok _ => stored_object meta bytes s' | Err _ => live s' token p end.
Proof.
  intros HP Hl Hlen Hmax Hr. rewrite append_object_eq in Hr.
  assert (Hoff : 0 ≤ p_length p).
  { destruct Hl as [Hp Hd]. destruct (pi_packs _ HP token p Hp Hd) as (_ & b & _ & [? _ _]).
    unfold PACK_HEADER in *. lia. }
  destruct (append_bytes bytes token (p_length p) s) as [ra s1] eqn:Ha.
  pose proof (steps_run _ _ _ _ _ Ha (append_bytes_appends bytes token _ Hoff)) as Happ.
  destruct (appends_inv token p s s1 Happ Hl HP) as [HP1 Hl1].
  pose proof (kept_weaken (Some (om_key meta)) _ _ (appends_kept token p s s1 Happ Hl HP)) as Hk1.
  pose proof (appends_versions _ _ _ _ Happ) as Hv1.
  destruct ra as [[digest clock]|e]; [|rewrite (bind_run_Err _ _ _ _ _ Ha) in Hr; by injection Hr as <- <-].
  rewrite (bind_run _ _ _ _ _ Ha) in Hr.
  apply append_bytes_inv in Ha as (Hh & b & Hb & Hbl & Hb1); [|done].
  destruct (insert_object_txn meta token (p_length p) clock digest s1)
    as (w & _ & [[e He]|(text & Htext & He)]); rewrite He in Hr; injection Hr as <- <-; [split_and!; [by apply (pack_view_inv s1)|exact Hk1|exact Hv1|exact Hl1]|].
  assert (Hsl : slice (take (Z.to_nat (p_length p)) b ++ bytes) (p_length p) (p_length p + om_length meta) = Some bytes).
  { rewrite Hlen. unfold zlen in *. rewrite slice_is_Some.
    - rewrite drop_app_ge by (rewrite length_take; lia). rewrite length_take.
      replace (Z.to_nat (p_length p) - _)%nat with 0%nat by lia. rewrite drop_0. f_equal. apply take_ge. lia.
    - lia.
    - unfold zlen. rewrite length_app, length_take. lia. }
  pose proof (stored_inv meta token p _ bytes clock digest text s1 HP1 Hl1 Hb1 Hsl Hh Hmax) as HP2.
  split_and!.
  - eapply (pack_view_inv (set_db (stored_db meta token (p_length p) clock digest text) s1)); [done|].
    apply HP2. unfold zlen in *. lia.
  - etrans; [exact Hk1|]. intros k o Hk Ho. cbn in Ho. rewrite lookup_insert_ne in Ho by congruence. done.
  - etrans; [exact Hv1|]. done.
  - exists (mk_ObjectRow token (p_length p) (om_length meta) digest text). split_and!; try done.
    + cbn. by rewrite lookup_insert_eq.
    + unfold object_bytes. cbn. rewrite Hb1. exact Hsl.
Qed.

(** ** A new pack *)

Context `{!PlatformLaws}.

Lemma scratches_versions token s s' : scratches token s s' → same_versions s s'.
Proof. intros (Hd & Hv & _). unfold same_versions. by rewrite Hd. Qed.
Lemma quiet_scratches token {A} (m : M A) : steps quiet m → steps (scratches token) m.
Proof. intros Hm. by apply (appends_scratches token 0), quiet_appends. Qed.
Lemma remove_pack_scratches token : steps (scratches token) (remove_managed (pack_name token)).
Proof.
  unfold remove_managed, sync_directory. steps_walk; try (apply quiet_scratches, io_quiet);
    apply (steps_modify _); intros s; split_and!; try done.
  intros name Hn. cbn. by rewrite lookup_delete_ne.
Qed.

Lemma create_new_cases name s :
  ∃ w, rtc wstep (st_world s) w ∧
    ((∃ e, create_new name s = (Err e, set_world (λ _, w) s)) ∨
     (st_files s !! name = None ∧
      create_new name s = (Ok tt, set_files <[name := Regular []]> (set_world (λ _, w) s)))).
Proof.
  unfold create_new. destruct (io_cases s) as (w & Hw & [Hio|[e Hio]]); exists w; (split; [done|]).
  - unfold mbind, st_bind, gets. rewrite Hio. cbn.
    destruct (st_files s !! name); [left; eexists; reflexivity|right; split; reflexivity].
  - left. exists e. by run_bind Hio.
Qed.

Definition write_header (token : string) : M unit :=
  private_file (pack_name token) ;;
  write_all (pack_name token) 0 (pack_header token) ;;
  sync_all (pack_name token) ;;
  sync_directory.
Lemma write_header_scratches token : steps (scratches token) (write_header token).
Proof.
  unfold write_header, private_file, sync_all, sync_directory.
  apply (steps_bind _); [apply quiet_scratches, io_quiet|intros _].
  apply (steps_bind _); [by apply (appends_scratches token 0), write_all_appends|intros _].
  apply (steps_bind _); [apply quiet_scratches, io_quiet|intros _]. apply quiet_scratches, io_quiet.
Qed.
Lemma write_header_inv token s u s' :
  write_header token s = (Ok u, s') → st_files s !! pack_name token = Some (Regular []) →
  st_files s' !! pack_name token = Some (Regular (pack_header token)).
Proof.
  intros Hr Hb. apply bind_Ok_inv in Hr as (? & s1 & [w1 ->]%io_inv & Hr).
  apply bind_Ok_inv in Hr as (? & s1 & Hw & Hr). eapply write_all_inv in Hw; [|exact Hb|done].
  apply bind_Ok_inv in Hr as (? & s2 & [w2 ->]%io_inv & [w3 ->]%io_inv). exact Hw.
Qed.

(** The row of a new pack. *)
Definition new_pack (meta : ObjectMetadata) (token : string) (m : gmap string PackRow) : gmap string PackRow :=
  <[token := mk_PackRow (next_rowid ((λ kv : string * PackRow, p_rowid kv.2) <$> map_to_list m))
      (om_group meta) (om_provider meta) PACK_HEADER 0 0]> m.
Lemma pack_header_slice token : slen token = 32 → slice (pack_header token) 0 64 = Some (pack_header token).
Proof.
  intros Hl. assert (Hb : ∀ t, length (bytes_of t) = String.length t).
  { induction t as [|c t IH]; [done|]. cbn. by rewrite IH. }
  assert (zlen (pack_header token) = 64).
  { assert (H8 : zlen (write_at (replicate 64 0) 0 PACK_MAGIC) = 64) by reflexivity.
    unfold pack_header. rewrite write_at_length; [done|lia|]. rewrite H8. unfold zlen. rewrite Hb.
    unfold slen in Hl. lia. }
  rewrite slice_is_Some by lia. cbn. rewrite drop_0. f_equal. apply take_ge. unfold zlen in *. lia.
Qed.
Lemma new_pack_inv meta n s :
  let token := new_token n in
  not_live s token → st_files s !! pack_name token = Some (Regular (pack_header token)) →
  PackInv s → PackInv (set_db (with_packs (new_pack meta token)) s).
Proof.
  intros token Hn Hf [H1 H2 H3]. destruct (new_token_simple n) as [Hlen Hhex].
  pose proof (pack_header_slice token Hlen) as Hhd.
  assert (Hnone : ∀ key o, db_objects (st_db s) !! key = Some o → o_pack o ≠ token).
  { intros key o Ho Heq. destruct (H2 key o Ho) as (p & b & Hp & Hd & _). rewrite Heq in Hp. by eapply Hn. }
  split; cbn; [| |exact H3].
  - intros t p Hp Hd. unfold new_pack in Hp. destruct (decide (t = token)) as [->|Hne].
    + rewrite lookup_insert_eq in Hp. injection Hp as <-. split.
      { unfold managed_pack_name, pack_name. rewrite strip_suffix_app.
        change ((slen (new_token n) =? 32) && string_all is_hexdigit (new_token n) = true).
        by rewrite Hlen, Hhex. }
      exists (pack_header token). split; [done|]. split; cbn.
      * unfold PACK_HEADER, PACK_BYTES. lia.
      * done.
      * apply slice_Some in Hhd as (_ & ? & _). unfold PACK_HEADER. lia.
    + rewrite lookup_insert_ne in Hp by done. by apply H1.
  - intros key o Ho. unfold new_pack. rewrite lookup_insert_ne; [by apply (H2 key)|].
    intros Heq. by eapply Hnone.
Qed.

(** What an operation that may add the object of [key] guarantees of the others. *)
Record safe (key : option string) (s s' : Storage) : Prop := {
  sf_inv : PackInv s → PackInv s';
  sf_kept : PackInv s → kept key s s';
  sf_versions : same_versions s s';
}.
#[local] Instance safe_preorder key : PreOrder (safe key).
Proof.
  split; [by intros s; split|]. intros s1 s2 s3 [A1 A2 A3] [B1 B2 B3].
  split; [auto| |by etrans]. intros HP. etrans; [by apply A2|auto].
Qed.
Lemma view_safe key s s' : pack_view s' = pack_view s → same_versions s s' → safe key s s'.
Proof.
  intros Hv Hs. split; [by apply pack_view_inv|intros _; by apply kept_weaken, view_kept|done].
Qed.
Lemma quiet_safe key s s' : quiet s s' → safe key s s'.
Proof. intros (w & _ & ->). by apply view_safe. Qed.
Lemma scratches_safe key token s s' : scratches token s s' → not_live s token → safe key s s'.
Proof.
  intros Hs Hn. split; [by eapply scratches_inv| |by eapply scratches_versions].
  intros HP. by eapply kept_weaken, scratches_kept.
Qed.
Lemma appends_safe key token p s s' :
  appends token (p_length p) s s' → live s token p → safe key s s'.
Proof.
  intros Hs Hn. split; [intros HP; by eapply appends_inv| |by eapply appends_versions].
  intros HP. by eapply kept_weaken, appends_kept.
Qed.

(** The file of a new pack with its row, up to the accounting. *)
Definition begin_pack (meta : ObjectMetadata) (token : string) : M unit :=
  write_header token ;; exec_db (with_packs (new_pack meta token)).
Lemma begin_pack_safe meta n s r s' :
  let token := new_token n in
  not_live s token → st_files s !! pack_name token = Some (Regular []) →
  begin_pack meta token s = (r, s') →
  safe None s s' ∧
  match r with
  | Ok _ => ∃ p, live s' token p ∧ p_length p = PACK_HEADER
  | Err _ => scratches token s s'
  end.
Proof.
  intros token Hn Hf Hr. unfold begin_pack in Hr. destruct (write_header token s) as [[u|e] s1] eqn:Hw.
  - pose proof (steps_run _ _ _ _ _ Hw (write_header_scratches token)) as Hs1.
    rewrite (bind_run _ _ _ _ _ Hw) in Hr. eapply write_header_inv in Hw; [|done].
    unfold exec_db in Hr. destruct (io_cases s1) as (w & Hww & [Hio|[e Hio]]);
      (rewrite (bind_run _ _ _ _ _ Hio) in Hr || rewrite (bind_run_Err _ _ _ _ _ Hio) in Hr); injection Hr as <- <-.
    + assert (Hn1 : not_live s1 token) by (destruct Hs1 as (Hd & _); unfold not_live; by rewrite Hd).
      split.
      * etrans; [by apply (scratches_safe _ token)|]. split; [| |done].
        -- intros HP. apply (pack_view_inv (set_db (with_packs (new_pack meta token)) s1)); [done|].
           by apply new_pack_inv.
        -- intros _ k o _ Ho. done.
      * eexists. unfold live. cbn. unfold new_pack. rewrite lookup_insert_eq. by split_and!.
    + assert (Hs2 : scratches token s (set_world (λ _, w) s1)) by (etrans; [exact Hs1|done]).
      split; [by apply (scratches_safe _ token)|done].
  - pose proof (steps_run _ _ _ _ _ Hw (write_header_scratches token)) as Hs1.
    rewrite (bind_run_Err _ _ _ _ _ Hw) in Hr. injection Hr as <- <-.
    split; [by apply (scratches_safe _ token)|done].
Qed.

Lemma create_pack_eq meta s :
  create_pack meta s =
  (token ← fresh_token;
   create_new (pack_name token) ;;
   created ← attempt (begin_pack meta token);
   len ← attempt (file_len (pack_name token));
   modify (set_sizes <[pack_name token :=
     (match len with Ok n => allocated n | Err _ => 4096 end, 1)]>) ;;
   match created with
   | Ok _ => mret (token, PACK_HEADER)
   | Err e => attempt (remove_managed (pack_name token)) ;; fail e
   end) s.
Proof.
  unfold create_pack, begin_pack, write_header, attempt, mbind, st_bind.
  destruct (fresh_token s) as [[token|e] s0]; [|done].
  destruct (create_new _ s0) as [[u|e] s1]; [|done].
  destruct (private_file _ s1) as [[?|?] s2]; [|done]. destruct (write_all _ _ _ s2) as [[?|?] s3]; [|done].
  destruct (sync_all _ s3) as [[?|?] s4]; [|done]. by destruct (sync_directory s4) as [[?|?] s5].
Qed.

Lemma create_pack_safe meta s r s' :
  PackInv s → create_pack meta s = (r, s') →
  safe None s s' ∧ ∀ t off, r = Ok (t, off) → ∃ p, live s' t p ∧ p_length p = off.
Proof.
  intros HP Hr. rewrite create_pack_eq in Hr.
  set (n := w_tokens (st_world s)) in *. set (token := new_token n) in *.
  set (s0 := set_world (λ w, mk_World (w_outcomes w) (w_dead w) (S (w_tokens w)) (w_env w)) s).
  rewrite (bind_run _ _ s token s0) in Hr by done.
  assert (H0s : safe None s s0) by by apply view_safe.
  destruct (create_new_cases (pack_name token) s0) as (w & Hw & [[e He]|[Hnone He]]).
  { rewrite (bind_run_Err _ _ _ _ _ He) in Hr. injection Hr as <- <-. split; [|done].
    etrans; [exact H0s|]. by apply view_safe. }
  rewrite (bind_run _ _ _ _ _ He) in Hr. set (s1 := set_files _ _) in Hr.
  assert (Hn : not_live s0 token).
  { intros p Hp Hd. destruct (pi_packs _ HP token p Hp Hd) as (_ & b & Hb & _). cbn in Hnone. congruence. }
  assert (Hs1 : scratches token s0 s1).
  { split_and!; [done|done|]. intros name Hne. cbn. by rewrite lookup_insert_ne. }
  destruct (begin_pack meta token s1) as [rb s2] eqn:Hb.
  rewrite (bind_run _ _ _ _ _ (attempt_run _ _ _ _ Hb)) in Hr.
  apply begin_pack_safe in Hb as [Hsafe Hb]; [|done|cbn; by rewrite lookup_insert_eq].
  assert (H2s : safe None s s2).
  { etrans; [exact H0s|]. etrans; [|exact Hsafe]. by apply (scratches_safe _ token). }
  destruct (file_len (pack_name token) s2) as [rl s3] eqn:Hlen.
  rewrite (bind_run _ _ _ _ _ (attempt_run _ _ _ _ Hlen)) in Hr.
  apply (steps_run quiet) in Hlen as (w3 & _ & ->); [|apply file_len_quiet].
  set (s5 := set_sizes <[pack_name token :=
    (match rl with Ok n => allocated n | Err _ => 4096 end, 1)]> (set_world (λ _, w3) s2)).
  rewrite (bind_run _ _ _ tt s5) in Hr by done.
  destruct rb as [u|e].
  - injection Hr as <- <-. split; [etrans; [exact H2s|]; by apply view_safe|]. intros t off [= <- <-].
    destruct Hb as (p & Hl & Hp). by exists p.
  - destruct (remove_managed (pack_name token) s5) as [rr s4] eqn:Hrem.
    rewrite (bind_run _ _ _ _ _ (attempt_run _ _ _ _ Hrem)) in Hr. injection Hr as <- <-. split; [|done].
    apply (steps_run (scratches token)) in Hrem; [|apply remove_pack_scratches].
    apply (scratches_safe _ token); [|done]. etrans; [exact Hs1|]. etrans; [exact Hb|]. etrans; [|exact Hrem]. done.
Qed.

(** ** [put_object] *)

Lemma pack_with_room_inv group n d token off :
  pack_with_room group n d = Some (token, off) →
  ∃ p, db_packs d !! token = Some p ∧ p_deleting p = 0 ∧ p_length p = off ∧ off + n ≤ PACK_BYTES.
Proof.
  unfold pack_with_room. intros Hh. apply head_Some_elem_of, list_elem_of_fmap in Hh as ([t p] & [= -> ->] & Hin).
  rewrite sort_on_perm in Hin. apply list_elem_of_filter in Hin as [(_ & Hd & Hle) Hin]. unfold pack_rows in Hin.
  rewrite sort_on_perm in Hin. apply elem_of_map_to_list in Hin. by exists p.
Qed.

Definition choose_pack (meta : ObjectMetadata) : M (string * Z) :=
  existing ← query (pack_with_room (om_group meta) (om_length meta));
  match existing with
  | Some (token, offset) => guard_st (0 <=? offset) "out of range" ;; mret (token, offset)
  | None => create_pack meta
  end.
Definition place_object (meta : ObjectMetadata) (bytes : list Z) (token : string) (offset : Z) : M unit :=
  guard_st (managed_pack_name (pack_name token) && (PACK_HEADER <=? offset)
            && (offset + om_length meta <=? PACK_BYTES)) "invalid pack append" ;;
  regular_file (pack_name token) ;;
  io ;;
  result ← attempt (append_object meta bytes token offset);
  match result with
  | Err _ => attempt (set_len (pack_name token) offset) ;;
             attempt (sync_all (pack_name token)) ;; mret tt
  | Ok _ => mret tt
  end ;;
  len ← file_len (pack_name token);
  modify (set_sizes <[pack_name token := (allocated len, 1)]>) ;;
  lift result.
Lemma put_object_eq meta bytes s :
  put_object meta bytes s =
  (guard_st ((om_length meta =? zlen bytes) && (om_length meta <=? MAX_OBJECT)) "object admission limit" ;;
   evict (div_ceil (om_length meta + PACK_HEADER) 4096 * 4096) ;;
   '(token, offset) ← choose_pack meta; place_object meta bytes token offset) s.
Proof.
  unfold put_object, choose_pack, mbind, st_bind.
  destruct (guard_st _ _ s) as [[?|?] s1]; [|done]. destruct (evict _ s1) as [[?|?] s2]; [|done].
  by destruct (query _ s2) as [[?|?] s3].
Qed.

Lemma choose_pack_safe meta s r s' :
  PackInv s → choose_pack meta s = (r, s') →
  safe None s s' ∧ ∀ t off, r = Ok (t, off) → ∃ p, live s' t p ∧ p_length p = off.
Proof.
  intros HP Hr. unfold choose_pack in Hr.
  destruct (query (pack_with_room (om_group meta) (om_length meta)) s) as [[found|e] s1] eqn:Hq.
  2: { rewrite (bind_run_Err _ _ _ _ _ Hq) in Hr. injection Hr as <- <-. split; [|done].
       apply (steps_run quiet) in Hq; [by apply quiet_safe|apply query_quiet]. }
  rewrite (bind_run _ _ _ _ _ Hq) in Hr. apply quiet_query in Hq as [-> Hq].
  pose proof (quiet_safe None _ _ Hq) as Hs1. destruct Hq as (w & _ & ->).
  destruct (pack_with_room _ _ _) as [[token off]|] eqn:Hroom.
  - apply pack_with_room_inv in Hroom as (p & Hp & Hd & Hlen & _).
    destruct (0 <=? off); injection Hr as <- <-; (split; [done|]); [|done].
    intros t o [= <- <-]. by exists p.
  - apply create_pack_safe in Hr as [Hs2 Hlive]; [|by apply (sf_inv _ _ _ Hs1)]. split; [by etrans|done].
Qed.

(** Cutting a failed append, and the accounting. *)
Lemma finish_append meta bytes token p s1 rb r s' :
  match rb with Ok _ => stored_object meta bytes s1 | Err _ => live s1 token p end →
  0 ≤ p_length p →
  (match rb with
   | Err _ => attempt (set_len (pack_name token) (p_length p)) ;;
              attempt (sync_all (pack_name token)) ;; mret tt
   | Ok _ => mret tt
   end ;;
   len ← file_len (pack_name token);
   modify (set_sizes <[pack_name token := (allocated len, 1)]>) ;;
   lift (rb : result string unit)) s1 = (r, s') →
  safe (Some (om_key meta)) s1 s' ∧ (r = Ok tt → stored_object meta bytes s').
Proof.
  intros Hb Hp0 Hr. destruct rb as [u|e].
  - rewrite (bind_run _ _ _ tt s1) in Hr by done.
    destruct (file_len (pack_name token) s1) as [[n|e] s2] eqn:Hl.
    + rewrite (bind_run _ _ _ _ _ Hl) in Hr. apply (steps_run quiet) in Hl as (w & _ & ->); [|apply file_len_quiet].
      injection Hr as <- <-. split; [by apply view_safe|]. intros _. by apply (stored_object_view _ _ s1).
    + rewrite (bind_run_Err _ _ _ _ _ Hl) in Hr. apply (steps_run quiet) in Hl as (w & _ & ->); [|apply file_len_quiet].
      injection Hr as <- <-. split; [by apply view_safe|done].
  - split.
    + apply (appends_safe _ token p); [|done]. eapply (steps_run (appends token (p_length p))); [exact Hr|].
      unfold sync_all. apply (steps_bind _); [|intros _; apply (steps_bind _)].
      * apply (steps_bind _); [by apply (steps_attempt _), set_len_appends|intros _].
        apply (steps_bind _); [apply (steps_attempt _), quiet_appends, io_quiet|intros _; apply (steps_ret _)].
      * apply quiet_appends, file_len_quiet.
      * intros len. apply (steps_bind _); [apply sizes_appends|intros _; apply (steps_lift _)].
    + intros ->. apply bind_Ok_inv in Hr as (? & s2 & _ & Hr). apply bind_Ok_inv in Hr as (? & s3 & _ & Hr).
      by apply bind_Ok_inv in Hr as (? & s4 & _ & Hr).
Qed.

Lemma quiet_bind_cases {A B} (m : M A) (k : A → M B) s r s' :
  steps quiet m → (m ≫= k) s = (r, s') →
  (∃ e, r = Err e ∧ quiet s s') ∨ ∃ a s1, m s = (Ok a, s1) ∧ quiet s s1 ∧ k a s1 = (r, s').
Proof.
  intros Hm Hr. destruct (m s) as [[a|e] s1] eqn:Hms; pose proof (steps_run _ _ _ _ _ Hms Hm) as Hq.
  - rewrite (bind_run _ _ _ _ _ Hms) in Hr. right. by exists a, s1.
  - rewrite (bind_run_Err _ _ _ _ _ Hms) in Hr. injection Hr as <- <-. left. by exists e.
Qed.

Lemma place_object_safe meta bytes token p s r s' :
  PackInv s → live s token p → om_length meta = zlen bytes →
  place_object meta bytes token (p_length p) s = (r, s') →
  safe (Some (om_key meta)) s s' ∧ (r = Ok tt → stored_object meta bytes s').
Proof.
  intros HP Hl Hlen Hr. unfold place_object in Hr.
  assert (Hend : ∀ e s1, r = Err e → quiet s s1 →
    safe (Some (om_key meta)) s s1 ∧ (r = Ok tt → stored_object meta bytes s1)).
  { intros e s1 -> Hq. split; [by apply quiet_safe|done]. }
  apply quiet_bind_cases in Hr as [(e & -> & Hq)|(u & s1 & Hg & Hq1 & Hr)]; [by eapply Hend| |apply (steps_guard _)].
  apply guard_inv in Hg as [Hg _]. apply andb_true_iff in Hg as [Hg Hmax%Z.leb_le].
  apply quiet_bind_cases in Hr as [(e & -> & Hq)|(u1 & s2 & _ & Hq2 & Hr)];
    [eapply Hend; [done|by etrans]| |apply regular_file_quiet].
  apply quiet_bind_cases in Hr as [(e & -> & Hq)|(u2 & s3 & _ & Hq3 & Hr)];
    [eapply Hend; [done|by etrans; [|etrans]]| |apply io_quiet].
  assert (Hq : quiet s s3) by (by etrans; [|etrans]). clear Hq1 Hq2 Hq3 s1 s2.
  pose proof (quiet_safe (Some (om_key meta)) _ _ Hq) as Hs3. destruct Hq as (w & _ & ->).
  destruct (append_object meta bytes token (p_length p) (set_world (λ _, w) s)) as [rb s4] eqn:Happ.
  rewrite (bind_run _ _ _ _ _ (attempt_run _ _ _ _ Happ)) in Hr.
  apply (append_object_safe _ _ _ p) in Happ as (HP4 & Hk4 & Hv4 & Hb); [|by apply (sf_inv _ _ _ Hs3)|done..].
  assert (Hp0 : 0 ≤ p_length p).
  { destruct Hl as [Hp Hd]. destruct (pi_packs _ HP token p Hp Hd) as (_ & b & _ & [? _ _]).
    unfold PACK_HEADER in *. lia. }
  eapply finish_append in Hr as [Hs5 Hok]; [|exact Hb|done]. split; [|done].
  etrans; [exact Hs3|]. etrans; [|exact Hs5]. by split.
Qed.

(** ** Every operation on objects *)

Lemma evict_pack_inv n s : Inv s → PackInv s →
  let s' := (evict n s).2 in Inv s' ∧ PackInv s' ∧ kept None s s'.
Proof.
  intros HI HP s'. pose proof (evict_maintains n s HI) as Hm.
  split; [by eapply rtc_maint_inv|]. clear HI.
  assert (Hgen : ∀ s s', rtc maint s s' → PackInv s → PackInv s' ∧ kept None s s'); [|by apply Hgen].
  clear. induction 1 as [s|s1 s2 s3 H12 _ IH]; [done|]. intros HP.
  destruct IH as [HP3 Hk]; [by eapply maint_pack_inv|]. split; [done|].
  etrans; [by apply maint_kept|done].
Qed.

Lemma put_object_safe meta bytes s r s' :
  Inv s → PackInv s → put_object meta bytes s = (r, s') →
  Inv s' ∧ PackInv s' ∧ kept (Some (om_key meta)) s s' ∧ (r = Ok tt → stored_object meta bytes s').
Proof.
  intros HI HP Hr. rewrite put_object_eq in Hr.
  destruct (om_length meta =? zlen bytes) eqn:Hlen; [|by injection Hr as <- <-].
  destruct (om_length meta <=? MAX_OBJECT) eqn:Hmax; [|by injection Hr as <- <-]. apply Z.eqb_eq in Hlen.
  unfold guard_st in Hr. cbn [andb ensure] in Hr.
  change ((lift (Ok tt) ≫= ?f) s) with (f tt s) in Hr. cbv beta in Hr.
  set (n := div_ceil _ _ * _) in Hr. destruct (evict n s) as [re s1] eqn:He.
  pose proof (evict_pack_inv n s HI HP) as (HI1 & HP1 & Hk1).
  rewrite He in HI1, HP1, Hk1. cbn in HI1, HP1, Hk1. apply (kept_weaken (Some (om_key meta))) in Hk1.
  destruct re as [u|e]; [|run_bind_in He Hr; by injection Hr as <- <-].
  run_bind_in He Hr.
  destruct (choose_pack meta s1) as [rc s2] eqn:Hc.
  pose proof (choose_pack_safe _ _ _ _ HP1 Hc) as [Hs2 Hlive].
  assert (Hmid : Inv s2 ∧ PackInv s2 ∧ kept (Some (om_key meta)) s s2).
  { split_and!; [by eapply inv_same, sf_versions|by eapply sf_inv|].
    etrans; [exact Hk1|]. eapply kept_weaken, sf_kept; [exact Hs2|done]. }
  destruct Hmid as (HI2 & HP2 & Hk2).
  destruct rc as [[token off]|e]; [|run_bind_in Hc Hr; by injection Hr as <- <-].
  run_bind_in Hc Hr. destruct (Hlive token off eq_refl) as (p & Hl & <-).
  apply (place_object_safe _ _ _ p) in Hr as [[A1 A2 A3] Hok]; [|done..].
  split_and!; [by eapply inv_same|by apply A1|etrans; [exact Hk2|by apply A2]|done].
Qed.

Lemma remove_inv key s : PackInv s → PackInv (set_db (with_objects (delete key)) s).
Proof.
  intros [H1 H2 H3]. split; cbn; [done| |].
  - intros k o [_ Ho]%lookup_delete_Some. by apply (H2 k).
  - intros k1 k2 o1 o2 Hk [_ Ho1]%lookup_delete_Some [_ Ho2]%lookup_delete_Some. by apply (H3 k1 k2).
Qed.
Lemma update_inv key text s :
  PackInv s →
  PackInv (set_db (with_objects (alter (λ o, mk_ObjectRow (o_pack o) (o_offset o) (o_length o) (o_digest o) text) key)) s).
Proof.
  intros [H1 H2 H3].
  assert (Hold : ∀ k o, alter (λ o, mk_ObjectRow (o_pack o) (o_offset o) (o_length o) (o_digest o) text) key
      (db_objects (st_db s)) !! k = Some o → ∃ o0, db_objects (st_db s) !! k = Some o0 ∧
      o_pack o0 = o_pack o ∧ o_offset o0 = o_offset o ∧ o_length o0 = o_length o ∧ o_digest o0 = o_digest o).
  { intros k o Ho. destruct (decide (k = key)) as [->|Hne].
    - rewrite lookup_alter_eq in Ho. apply fmap_Some in Ho as (o0 & Ho0 & ->). by exists o0.
    - rewrite lookup_alter_ne in Ho by done. by exists o. }
  split; cbn; [done| |].
  - intros k o Ho. destruct (Hold k o Ho) as (o0 & Ho0 & E1 & E2 & E3 & E4).
    destruct (H2 k o0 Ho0) as (p & b & Hp & Hd & Hf & [O1 O2 O3 (d & Hd1 & Hd2)]).
    exists p, b. rewrite <- E1. split_and!; [done..|]. split; rewrite <- ?E2, <- ?E3; [done..|].
    exists d. unfold object_data in *. by rewrite <- E2, <- E3, <- E4.
  - intros k1 k2 o1 o2 Hk Ho1 Ho2 Heq. destruct (Hold k1 o1 Ho1) as (p1 & Hp1 & A1 & A2 & A3 & _).
    destruct (Hold k2 o2 Ho2) as (p2 & Hp2 & B1 & B2 & B3 & _). rewrite <- A2, <- A3, <- B2, <- B3.
    apply (H3 k1 k2); [done..|congruence].
Qed.
Lemma touch_inv clock token s :
  PackInv s →
  PackInv (set_db (with_packs (alter (λ p, mk_PackRow (p_rowid p) (p_group p) (p_provider p) (p_length p)
    clock (p_deleting p)) token)) s).
Proof.
  intros [H1 H2 H3].
  set (f := λ p, mk_PackRow _ _ _ _ _ _).
  split; cbn; [| |done].
  - intros t p Hp Hd. destruct (decide (t = token)) as [->|Hne].
    + rewrite lookup_alter_eq in Hp. apply fmap_Some in Hp as (p0 & Hp0 & ->).
      destruct (H1 token p0 Hp0 Hd) as (Hm & b & Hb & [A1 A2 A3]). split; [done|]. exists b. by split.
    + rewrite lookup_alter_ne in Hp by done. by apply H1.
  - intros k o Ho. destruct (H2 k o Ho) as (p & b & Hp & Hd & Hf & Hok).
    destruct (decide (o_pack o = token)) as [Heq|Hne].
    + exists (f p), b. rewrite Heq in *. rewrite lookup_alter_eq, Hp. split_and!; [done..|].
      destruct Hok. by split.
    + exists p, b. by rewrite lookup_alter_ne.
Qed.

Definition pack_safe (s s' : Storage) : Prop := (PackInv s → PackInv s') ∧ same_versions s s'.
#[local] Instance pack_safe_preorder : PreOrder pack_safe.
Proof. split; [by intros s|]. intros s1 s2 s3 [A1 A2] [B1 B2]. split; [auto|by etrans]. Qed.
Lemma quiet_pack_safe {A} (m : M A) : steps quiet m → steps pack_safe m.
Proof. apply steps_impl. intros s s' (w & _ & ->). split; [by apply pack_view_inv|done]. Qed.
Lemma exec_pack_safe f :
  (∀ s, PackInv s → PackInv (set_db f s)) →
  (∀ d, db_versions (f d) = db_versions d ∧ db_segments (f d) = db_segments d) →
  steps pack_safe (exec_db f).
Proof.
  intros Hf Hd. unfold exec_db. apply (steps_bind _); [apply quiet_pack_safe, io_quiet|intros _].
  apply (steps_modify _). intros s. split; [apply Hf|]. destruct (Hd (st_db s)). by split.
Qed.
Lemma remove_object_safe key : steps pack_safe (remove_object key).
Proof. apply exec_pack_safe; [intros s; apply remove_inv|done]. Qed.
Lemma update_object_safe meta : steps pack_safe (update_object meta).
Proof.
  unfold update_object. apply (steps_bind _); [apply (steps_lift _)|intros text].
  apply exec_pack_safe; [intros s; apply update_inv|done].
Qed.
Lemma read_object_quiet o n meta : steps quiet (read_object o n meta).
Proof. unfold read_object. steps_walk. Qed.
Lemma object_safe key : steps pack_safe (object key).
Proof.
  unfold object, touch_pack, segment_tick.
  apply (steps_bind _); [apply quiet_pack_safe, query_quiet|intros [[o p]|]]; [|apply (steps_ret _)].
  apply (steps_bind _); [apply (steps_lift _)|intros meta].
  apply (steps_bind _); [apply (steps_guard _)|intros _].
  apply (steps_bind _); [apply (steps_attempt _), quiet_pack_safe, read_object_quiet|intros [ob|e]].
  - steps_walk; [apply (steps_modify _); intros s; split; [by apply pack_view_inv|done]|].
    apply exec_pack_safe; [intros s; apply touch_inv|done].
  - steps_walk. apply remove_object_safe.
Qed.

(** Requests of the object interface; an eviction may come from any other request. *)
Inductive object_request :=
| RPut (meta : ObjectMetadata) (bytes : list Z) (before after : bool)
| RGet (key : string)
| RRemove (key : string)
| RUpdate (meta : ObjectMetadata)
| REvict (required : Z)
| RInvalidate (provider : Z).
Definition serve_object (r : object_request) : M unit :=
  match r with
  | RPut meta bytes before after => put_object_valid meta bytes before after
  | RGet key => object key ;; mret tt
  | RRemove key => remove_object key
  | RUpdate meta => update_object meta
  | REvict required => evict required
  | RInvalidate provider => invalidate provider
  end.

Definition Safe (s : Storage) : Prop := Inv s ∧ PackInv s.
Lemma pack_safe_keeps {A} (m : M A) : steps pack_safe m → keeps Safe m.
Proof. intros Hm s [HI HP]. destruct (Hm s) as [H1 H2]. split; [by eapply inv_same|auto]. Qed.
Lemma maint_keeps {A} (m : M A) : steps maintained m → keeps Safe m.
Proof.
  intros Hm s [HI HP]. specialize (Hm s HI). split; [by eapply rtc_maint_inv|].
  clear HI. induction Hm as [s0|s1 s2 s3 H12 _ IH]; [done|]. by eapply IH, maint_pack_inv.
Qed.
Lemma for_each_keeps {A} P (f : A → M unit) l : (∀ x, keeps P (f x)) → keeps P (for_each f l).
Proof.
  intros Hf. induction l as [|x l IH]; cbn [for_each]; [apply keeps_ret|].
  apply keeps_bind; [apply Hf|intros _; exact IH].
Qed.
Lemma put_object_valid_keeps meta bytes before after : keeps Safe (put_object_valid meta bytes before after).
Proof.
  unfold put_object_valid. apply keeps_bind; [apply keeps_guard|intros _].
  apply keeps_bind.
  - apply keeps_attempt. intros s [HI HP]. destruct (put_object meta bytes s) as [r s'] eqn:Hr.
    by apply put_object_safe in Hr as (? & ? & _ & _).
  - intros r. destruct after; [apply keeps_lift|].
    apply keeps_bind; [apply pack_safe_keeps, remove_object_safe|intros _; apply keeps_fail].
Qed.

Lemma invalidate_keeps provider : keeps Safe (invalidate provider).
Proof.
  unfold invalidate, invalidate_packs. apply keeps_bind.
  { apply keeps_bind; [apply maint_keeps, query_maintains|intros rows].
    apply for_each_keeps. intros [token row]. apply keeps_bind; [|intros _; apply keeps_ret].
    apply keeps_attempt, maint_keeps, delete_pack_maintains. }
  intros _. apply keeps_bind; [apply keeps_get|intros s0]. apply keeps_bind.
  { apply for_each_keeps. intros [id r]. cbn [snd]. destruct (r_lease r); [|apply keeps_ret].
    destruct (_ && _); [|apply keeps_ret]. apply pack_safe_keeps, (steps_modify _).
    intros s. split; [by apply pack_view_inv|done]. }
  intros _. apply keeps_bind; [|intros _; apply maint_keeps, evict_maintains].
  unfold exec_db. apply keeps_bind; [apply maint_keeps, io_maintains|intros _].
  apply keeps_modify. intros s [HI HP]. split; [|by apply (pack_view_inv s)].
  apply rows_inv; [|done]. intros id. rewrite lookup_fmap.
  destruct (db_versions (st_db s) !! id) as [row|]; [|done]. cbn. by destruct (v_provider row =? provider).
Qed.
Lemma serve_object_keeps r : keeps Safe (serve_object r).
Proof.
  destruct r; cbn [serve_object].
  - apply put_object_valid_keeps.
  - apply keeps_bind; [apply pack_safe_keeps, object_safe|intros _; apply keeps_ret].
  - apply pack_safe_keeps, remove_object_safe.
  - apply pack_safe_keeps, update_object_safe.
  - apply maint_keeps, evict_maintains.
  - apply invalidate_keeps.
Qed.

(** ** Getting what was put *)

(** Nothing fails from here on. *)
Definition calm_state (s : Storage) : Prop := w_dead (st_world s) = false ∧ w_outcomes (st_world s) = [].
Lemma io_calm s : calm_state s → io s = (Ok tt, s).
Proof. intros [Hd Ho]. unfold io, io_with. by rewrite Hd, Ho. Qed.
Lemma file_bytes_calm name b s :
  calm_state s → st_files s !! name = Some (Regular b) → file_bytes name s = (Ok b, s).
Proof.
  intros Hc Hb. unfold file_bytes. run_bind (io_calm s Hc). unfold mbind, st_bind, gets. by rewrite Hb.
Qed.
Lemma read_exact_calm name b a n d s :
  calm_state s → st_files s !! name = Some (Regular b) → slice b a (a + n) = Some d →
  read_exact name a n s = (Ok d, s).
Proof. intros Hc Hb Hd. unfold read_exact. run_bind (file_bytes_calm name b s Hc Hb). unfold lift. by rewrite Hd. Qed.
Lemma regular_file_calm name b s :
  calm_state s → st_files s !! name = Some (Regular b) → regular_file name s = (Ok tt, s).
Proof.
  intros Hc Hb. unfold regular_file. run_bind (io_calm s Hc). unfold mbind, st_bind, gets. by rewrite Hb.
Qed.

Lemma read_object_calm key o p meta d s :
  PackInv s → calm_state s → db_objects (st_db s) !! key = Some o → live s (o_pack o) p →
  object_bytes s o = Some d → om_length meta = o_length o →
  read_object o (p_length p) meta s = (Ok (mk_Object meta d), s).
Proof.
  intros HP Hc Ho [Hp Hd] Hb Hlen.
  destruct (pi_objects _ HP key o Ho) as (p0 & b & Hp0 & _ & Hf & [O1 O2 O3 (d0 & Hd0 & Hh)]).
  assert (p0 = p) as -> by congruence.
  destruct (pi_packs _ HP (o_pack o) p Hp Hd) as (Hman & b1 & Hb1 & [[L1 L2] L3 L4]).
  assert (b1 = b) as -> by congruence. unfold object_bytes in Hb. rewrite Hf in Hb.
  assert (d0 = d) as -> by congruence. unfold PACK_HEADER, PACK_BYTES in *.
  assert (Hg : managed_pack_name (pack_name (o_pack o)) && (PACK_HEADER <=? o_offset o)
    && (o_length o <=? MAX_OBJECT) && (om_length meta =? o_length o)
    && is_some_and (checked_add (o_offset o) (o_length o)) (λ n, n <=? p_length p) = true).
  { rewrite Hman. unfold checked_add, MAX_OBJECT, PACK_BYTES, PACK_HEADER, u64_max.
    destruct (Z.leb_spec (o_offset o + o_length o) 18446744073709551615); [|lia]. cbn.
    rewrite !andb_true_iff. lia. }
  unfold read_object, guard_st. rewrite Hg. cbn [ensure].
  change ((lift (Ok tt) ≫= ?f) s) with (f tt s). cbv beta.
  run_bind (regular_file_calm _ _ _ Hc Hf). run_bind (io_calm s Hc).
  run_bind (read_exact_calm (pack_name (o_pack o)) b 0 64 _ s Hc Hf L3).
  rewrite bool_decide_eq_true_2 by done. cbn [ensure].
  change ((lift (Ok tt) ≫= ?f) s) with (f tt s). cbv beta.
  run_bind (read_exact_calm (pack_name (o_pack o)) b (o_offset o) (o_length o) _ s Hc Hf Hd0).
  rewrite Hh. change ((lift (Ok ?x) ≫= ?f) s) with (f x s). cbv beta.
  rewrite bool_decide_eq_true_2 by done. done.
Qed.

Lemma object_calm key o meta d s :
  PackInv s → calm_state s → db_objects (st_db s) !! key = Some o → object_bytes s o = Some d →
  object_from_json (o_meta o) = Some meta → om_length meta = o_length o →
  ∃ s', object key s = (Ok (Some (mk_Object meta d)), s').
Proof.
  intros HP Hc Ho Hb Hm Hlen. destruct (pi_objects _ HP key o Ho) as (p & b & Hp & Hd & Hf & [O1 O2 O3 _]).
  unfold object. assert (Hq : query (object_row key) s = (Ok (Some (o, p)), s)).
  { unfold query. run_bind (io_calm s Hc). unfold gets, object_row. cbn. rewrite Ho. cbn. rewrite Hp. cbn.
    by rewrite Hd. }
  run_bind Hq. rewrite Hm. cbn [ok_or].
  change ((lift (Ok ?x) ≫= ?f) s) with (f x s). cbv beta.
  destruct (pi_packs _ HP (o_pack o) p Hp Hd) as (_ & b1 & _ & [[L1 L2] _ _]). unfold PACK_HEADER in *.
  assert (Hg : (0 <=? o_offset o) && (0 <=? o_length o) && (0 <=? p_length p) = true)
    by (rewrite !andb_true_iff; lia).
  unfold guard_st at 1. rewrite Hg. cbn [ensure]. change ((lift (Ok tt) ≫= ?f) s) with (f tt s). cbv beta.
  run_bind (attempt_run _ _ _ _ (read_object_calm key o p meta d s HP Hc Ho (conj Hp Hd) Hb Hlen)).
  set (t := Z.max (Z.min (e_micros (w_env (st_world s))) i64_max) (sat_add (k_segment (st_clocks s)) 1)).
  set (s1 := set_clocks (λ k, mk_Clocks t (k_clock k) (k_uncertain k) (k_grace k)) s).
  set (s2 := set_db (with_packs (alter (λ p, mk_PackRow (p_rowid p) (p_group p) (p_provider p) (p_length p)
    t (p_deleting p)) (o_pack o))) s1).
  assert (Ht : segment_tick s = (Ok t, s1)) by reflexivity.
  assert (Hio : io s1 = (Ok tt, s1)) by by apply io_calm.
  assert (Htp : touch_pack (o_pack o) s = (Ok tt, s2)).
  { unfold touch_pack. run_bind Ht. unfold exec_db. run_bind Hio. reflexivity. }
  exists s2. by run_bind Htp.
Qed.

(** C1. The packed objects stay intact. Whatever requests are made of the object interface, in
    whatever order, whichever of their steps fail and wherever the process dies: every row of
    the table of objects names an extent of an existing pack file whose bytes have the digest
    of the row, no two objects share bytes, and what is beyond the committed length of a pack
    belongs to nobody. *)
Theorem objects_stay_intact rs s :
  Inv s → PackInv s →
  let s' := (for_each (λ r, attempt (serve_object r) ;; mret tt) rs s).2 in
  PackInv s' ∧ Inv s'.
Proof.
  intros HI HP s'. enough (Safe s') as [] by done. unfold s'. apply for_each_keeps; [|by split].
  intros r. apply keeps_bind; [apply keeps_attempt, serve_object_keeps|intros _; apply keeps_ret].
Qed.

(** C33. Getting returns what was put: after a put that succeeded, and with an outside world that
    works, the key yields the metadata and the bytes that were put; and every other object
    that is still there has its row and its bytes of before (some may have been evicted). *)
Theorem put_then_get meta bytes s s1 :
  Inv s → PackInv s → put_object meta bytes s = (Ok tt, s1) →
  (calm_state s1 → ∃ s2, object (om_key meta) s1 = (Ok (Some (mk_Object meta bytes)), s2)) ∧
  (∀ key o, key ≠ om_key meta → db_objects (st_db s1) !! key = Some o →
    db_objects (st_db s) !! key = Some o ∧ object_bytes s1 o = object_bytes s o).
Proof.
  intros HI HP Hr. apply put_object_safe in Hr as (_ & HP1 & Hk & Hst); [|done..]. split.
  - intros Hc. destruct Hst as (o & Ho & Hb & _ & Hlen & Hj); [done|].
    apply (object_calm _ o); [done..| |done]. by apply object_roundtrip.
  - intros key o Hne. apply Hk. congruence.
Qed.
End Objects.

(** ** Examples *)

#[local] Existing Instance toy_digest.

Lemma sample_storage_packs : PackInv sample_storage.
Proof. split; intros *; cbn; by rewrite lookup_empty. Qed.

(** A put that dies in the middle of its write, another one, a get and an eviction. *)
Definition sample_requests : list object_request :=
  [RPut (sample_object "x" 3) [7; 8; 9] true true; RPut (sample_object "y" 2) [1; 2] true true;
   RGet "x"; REvict 0]%string.
Definition failing (outcomes : list Outcome) (s : Storage) : Storage :=
  set_world (λ w, mk_World outcomes (w_dead w) (w_tokens w) (w_env w)) s.
Lemma objects_stay_intact_witness :
  let s := failing (replicate 30 Fine ++ [Fails 2]) sample_storage in
  let s' := (for_each (λ r, attempt (serve_object r) ;; mret tt) sample_requests s).2 in
  PackInv s' ∧ Inv s' ∧ size (db_objects (st_db s')) = 1%nat.
Proof.
  intros s s'. destruct (objects_stay_intact sample_requests s) as [HP HI].
  - by apply (inv_frame sample_storage); [apply sample_storage_inv|..].
  - by apply (pack_view_inv sample_storage); [|apply sample_storage_packs].
  - split; [exact HP|]. split; [exact HI|]. vm_compute. reflexivity.
Defined.
Lemma put_then_get_witness :
  let s1 := (put_object (sample_object "x" 3) [7; 8; 9] sample_storage).2 in
  ∃ s2, object "x" s1 = (Ok (Some (mk_Object (sample_object "x" 3) [7; 8; 9])), s2).
Proof.
  intros s1. apply (put_then_get (sample_object "x" 3) [7; 8; 9] sample_storage s1).
  - apply sample_storage_inv.
  - apply sample_storage_packs.
  - vm_compute. reflexivity.
  - split; vm_compute; reflexivity.
Defined.
