(* ===== verification/Durability.v ===== *)
(** * Resource cache: the index on disk and the index in memory

    Every operation of the storage but the writing of segments keeps the invariant [Inv] of
    [Steps]: what is in memory of a version is what its row stores, but for the ranges that
    are still dirty. *)
From S2P Require Import Prelude Text Format Policy Storage Segments Packs Store Materialize.
From S2P Require Import Steps Sample Eviction Reading Objects.
From stdpp Require Import options.
#[local] Set Default Proof Using "Type*".

Open Scope Z_scope.

(** Any call of [Index::set], whatever becomes of it. *)
Lemma Index_set_any {D : Digest} `{!Sha256Ok D} i slot data v :
  wf_index v → 0 ≤ i → 0 ≤ slot ≤ u32_max →
  let '(r, v') := Index_set i slot data v in
  wf_index v' ∧ ix_geometry v' = ix_geometry v ∧ (∀ db, synced db v → synced db v') ∧
  (∀ j, 0 ≤ j → j ≠ i → Index_get v' j = Index_get v j) ∧
  match r with
  | Err _ => v' = v
  | Ok _ => i < Geometry_count (ix_geometry v) ∧ ∃ h, hash data = Ok h ∧ Index_get v' i = Some (slot, h)
  end.
Proof.
  intros Hwf Hi Hs. destruct (Index_set i slot data v) as [r v'] eqn:Hr.
  assert (Hsame : (∃ e, r = Err e ∧ v' = v) → wf_index v' ∧ ix_geometry v' = ix_geometry v ∧
    (∀ db, synced db v → synced db v') ∧ (∀ j, 0 ≤ j → j ≠ i → Index_get v' j = Index_get v j) ∧
    match r with
    | Err _ => v' = v
    | Ok _ => i < Geometry_count (ix_geometry v) ∧ ∃ h, hash data = Ok h ∧ Index_get v' i = Some (slot, h)
    end) by (by intros (e & -> & ->)).
  destruct (Geometry_range (ix_geometry v) i) as [rg|e] eqn:Hrg.
  2: { apply Hsame. exists e. unfold Index_set, mbind, st_bind, get_st, lift in Hr. rewrite Hrg in Hr.
       by injection Hr as <- <-. }
  pose proof (Geometry_range_inv _ _ _ Hrg) as Hlt. destruct rg as [a b].
  destruct (decide (zlen data = b - a ∧ slot < u32_max)) as [[Hlen Hsl]|Hno].
  - destruct (run_edit_ok (ESet i slot data) v Hwf) as (v2 & Hr2 & Hwf2 & Hg2 & Hget2 & Hs2).
    { cbn. split_and!; [lia|lia|done|]. by exists (a, b). }
    cbn in Hr2. rewrite Hr2 in Hr. injection Hr as <- <-. split_and!; [done|done|done| |done|].
    + intros j Hj Hne. rewrite Hget2 by done. cbn. by rewrite decide_False.
    + destruct (hash_ok data) as (h & Hh & _). exists h. split; [done|].
      rewrite Hget2 by done. cbn. rewrite decide_True by done. by rewrite Hh.
  - apply Hsame. pose proof Hwf as [Hg Hl].
    pose proof (block_bounds (ix_geometry v) i Hg ltac:(lia)) as Hb.
    pose proof (wf_geometry_bounds _ Hg) as Hgb.
    pose proof Hrg as Hrg'. rewrite Geometry_range_eq in Hrg' by (done || lia). injection Hrg' as Ea Eb.
    unfold Index_set, mbind, st_bind, get_st, lift in Hr. rewrite Hrg in Hr. cbn -[wsub] in Hr.
    rewrite wsub_small in Hr by (unfold is_u64, u64_max; lia).
    unfold guard_st, lift in Hr. destruct (Z.eqb_spec (zlen data) (b - a)) as [Hlen|]; cbn -[wsub] in Hr.
    + destruct (Z.eqb_spec slot u32_max); [|lia]. cbn in Hr. injection Hr as <- <-. by eexists.
    + injection Hr as <- <-. by eexists.
Qed.

(** ** Operations that keep the invariant by their kind *)

Section Kinds.
Context {D : Digest} `{!Platform, !PlatformLaws}.

Lemma maintained_keeps {A} (m : M A) : steps maintained m → keeps Inv m.
Proof. intros Hm s HI. eapply rtc_maint_inv; [by apply Hm|done]. Qed.
Lemma tidied_keeps {A} (m : M A) : steps tidied m → keeps Inv m.
Proof. intros Hm. by apply maintained_keeps, maintained_tidied. Qed.
Lemma same_keeps {A} (m : M A) : steps same_versions m → keeps Inv m.
Proof. intros Hm s HI. by eapply inv_same. Qed.

Lemma quiet_same_versions s s' : quiet s s' → same_versions s s'.
Proof. by intros (w & _ & ->). Qed.
Lemma quiet_keeps {A} (m : M A) : steps quiet m → keeps Inv m.
Proof. intros Hm. apply same_keeps. eapply steps_impl, Hm. apply quiet_same_versions. Qed.
End Kinds.

(** ** Automation *)

Create HintDb same.
Create HintDb keepsdb.

(** Sequences of steps that leave the versions alone. *)
Ltac same_walk :=
  repeat match goal with
  | |- steps same_versions (mret _) => apply (steps_ret _)
  | |- steps same_versions (gets _) => apply (steps_gets _)
  | |- steps same_versions get_st => apply (steps_get _)
  | |- steps same_versions (lift _) => apply (steps_lift _)
  | |- steps same_versions (fail _) => apply (steps_fail _)
  | |- steps same_versions (guard_st _ _) => apply (steps_guard _)
  | |- steps same_versions (_ ≫= _) => apply (steps_bind _); [|intros ?]
  | |- steps same_versions (attempt _) => apply (steps_attempt _)
  | |- steps same_versions (match ?x with _ => _ end) => destruct x
  | |- steps same_versions (modify _) => apply (steps_modify _); intros ?; by split_and!
  | |- steps same_versions _ => solve [eauto with same]
  end.
(** Sequences of operations that keep the invariant, each by its kind. *)
Ltac keeps_walk :=
  repeat match goal with
  | |- keeps _ (mret _) => apply keeps_ret
  | |- keeps _ (gets _) => apply keeps_gets
  | |- keeps _ get_st => apply keeps_get
  | |- keeps _ (lift _) => apply keeps_lift
  | |- keeps _ (fail _) => apply keeps_fail
  | |- keeps _ (guard_st _ _) => apply keeps_guard
  | |- keeps _ (_ ≫= _) => apply keeps_bind; [|intros ?]
  | |- keeps _ (attempt _) => apply keeps_attempt
  | |- keeps _ (match ?x with _ => _ end) => destruct x
  | |- keeps Inv (modify _) => apply keeps_modify; intros ? ?; eapply inv_same; [eassumption|by split_and!]
  | |- keeps Inv _ => solve [eauto with keepsdb]
  | |- keeps Inv _ => solve [apply same_keeps; eauto with same]
  | |- keeps Inv _ => solve [apply quiet_keeps; eauto with qcm]
  | |- keeps Inv _ => solve [apply tidied_keeps; eauto with qcm]
  | |- keeps Inv _ => solve [apply maintained_keeps; eauto with qcm]
  end.

Section Durability.
Context {D : Digest} `{!Platform, !PlatformLaws}.

#[local] Hint Extern 1 (steps quiet _) => solve [eauto with qcm] : same.
Lemma quiet_steps_versions {A} (m : M A) : steps quiet m → steps same_versions m.
Proof. apply steps_impl, quiet_same_versions. Qed.
#[local] Hint Resolve quiet_steps_versions : same.

Lemma exec_same f :
  (∀ d, db_versions (f d) = db_versions d ∧ db_segments (f d) = db_segments d) → steps same_versions (exec_db f).
Proof.
  intros Hf. unfold exec_db. same_walk. apply (steps_modify _). intros s. destruct (Hf (st_db s)). by split.
Qed.
Lemma for_each_same {A} (f : A → M unit) l :
  (∀ x, steps same_versions (f x)) → steps same_versions (for_each f l).
Proof.
  intros Hf. induction l as [|x l IH]; cbn [for_each]; [apply (steps_ret _)|].
  apply (steps_bind _); [apply Hf|intros _; exact IH].
Qed.
Lemma exec_complete_same f : steps same_versions (exec_db (with_complete f)).
Proof. by apply exec_same. Qed.
Lemma exec_leases_same f : steps same_versions (exec_db (with_leases f)).
Proof. by apply exec_same. Qed.
Lemma exec_clock_same f : steps same_versions (exec_db (with_clock f)).
Proof. by apply exec_same. Qed.
Lemma remove_managed_same name : steps same_versions (remove_managed name).
Proof. unfold remove_managed, sync_directory. same_walk. Qed.
Lemma set_len_same name n : steps same_versions (set_len name n).
Proof.
  unfold set_len. same_walk. apply (steps_modify _). intros s. by destruct (st_files s !! name) as [[]|].
Qed.
Lemma write_all_same name off d : steps same_versions (write_all name off d).
Proof.
  assert (Hput : ∀ d s, same_versions s (put_bytes name off d s)).
  { intros d' s. unfold put_bytes. by destruct (st_files s !! name) as [[]|]. }
  unfold write_all. apply (steps_bind _); [|intros _; apply (steps_modify _); intros s; apply Hput].
  intros s. unfold io_with. destruct (w_dead _); [done|].
  destruct (w_outcomes (st_world s)) as [|[|n|n] os]; cbn; [done|done|..].
  - etrans; [|apply Hput]. done.
  - etrans; [apply Hput|]. done.
Qed.
Lemma create_new_same name : steps same_versions (create_new name).
Proof. unfold create_new. same_walk. Qed.
Lemma drop_arc_same x : steps same_versions (drop_arc x).
Proof. unfold drop_arc. same_walk. Qed.
Lemma upgrade_same w : steps same_versions (upgrade_or_new w).
Proof. unfold upgrade_or_new, clone_arc, new_arc. same_walk. Qed.
Lemma io_same : steps same_versions io.
Proof. eauto with same qcm. Qed.
#[local] Hint Resolve exec_complete_same exec_leases_same exec_clock_same remove_managed_same set_len_same
  write_all_same create_new_same drop_arc_same upgrade_same io_same : same.
Lemma persist_clock_same : steps same_versions persist_clock.
Proof. unfold persist_clock. same_walk. Qed.
Lemma rename_same a b : steps same_versions (rename a b).
Proof. unfold rename. same_walk. Qed.
Lemma fresh_token_same : steps same_versions fresh_token.
Proof. unfold fresh_token. same_walk. Qed.
Lemma segment_tick_same : steps same_versions segment_tick.
Proof. unfold segment_tick. same_walk. Qed.
Lemma drop_version_same v : steps same_versions (drop_version v).
Proof. apply drop_arc_same. Qed.
Lemma drop_window_same w : steps same_versions (drop_window w).
Proof. apply for_each_same, drop_arc_same. Qed.
Lemma pin_segments_same id numbers : steps same_versions (pin_segments id numbers).
Proof.
  unfold pin_segments. same_walk. induction numbers as [|n l IH]; cbn [pin_loop]; same_walk.
Qed.
#[local] Hint Resolve persist_clock_same rename_same fresh_token_same segment_tick_same drop_version_same
  drop_window_same pin_segments_same : same.

(** ** Handles *)

(** Memory that changes in what the invariant does not look at. *)
Lemma resident_alter_inv f id s :
  (∀ r, r_meta (f r) = r_meta r ∧ r_index (f r) = r_index r) → Inv s → Inv (set_versions (alter f id) s).
Proof.
  intros Hf [H1 H2]. split; cbn; [|done]. intros id' r Hr. destruct (decide (id' = id)) as [->|Hne].
  - rewrite lookup_alter_eq in Hr. apply fmap_Some in Hr as (r0 & Hr0 & ->).
    destruct (H1 id r0 Hr0) as (row & Hrow & [Hwf Hs Hm Hg Hv Hc]). destruct (Hf r0) as [Em Ei].
    exists row. split; [done|]. by split; rewrite ?Em, ?Ei.
  - rewrite lookup_alter_ne in Hr by done. by apply H1.
Qed.
Lemma alter_keeps f id :
  (∀ r, r_meta (f r) = r_meta r ∧ r_index (f r) = r_index r) → keeps Inv (modify (set_versions (alter f id)) : M unit).
Proof. intros Hf. apply keeps_modify. intros s. by apply resident_alter_inv. Qed.
Lemma exec_rows_keeps f :
  (∀ m id, row_data <$> f m !! id = row_data <$> m !! id) → keeps Inv (exec_db (with_versions f)).
Proof.
  intros Hf. unfold exec_db. apply keeps_bind; [apply quiet_keeps, io_quiet|intros _].
  apply keeps_modify. intros s. by apply rows_inv.
Qed.
Lemma alter_row_keeps f id :
  (∀ r, row_data (f r) = row_data r) → keeps Inv (exec_db (with_versions (alter f id))).
Proof.
  intros Hf. apply exec_rows_keeps. intros m id'. destruct (decide (id' = id)) as [->|Hne].
  - rewrite lookup_alter_eq. destruct (m !! id); [|done]. cbn. by rewrite Hf.
  - by rewrite lookup_alter_ne.
Qed.
Lemma set_obsolete_keeps o id : keeps Inv (set_obsolete o id).
Proof. by apply alter_row_keeps. Qed.
Lemma last_use_keeps t id : keeps Inv (exec_db (with_versions (alter (v_with_last_use t) id))).
Proof. by apply alter_row_keeps. Qed.
Lemma for_each_inv {A} (f : A → M unit) l : (∀ x, keeps Inv (f x)) → keeps Inv (for_each f l).
Proof. apply for_each_keeps. Qed.
#[local] Hint Resolve set_obsolete_keeps last_use_keeps : keepsdb.

Lemma version_keeps id : keeps Inv (version id).
Proof. unfold version. keeps_walk. by apply alter_keeps. Qed.
#[local] Hint Resolve version_keeps : keepsdb.
Lemma lookup_keeps key : keeps Inv (lookup key).
Proof. unfold lookup. keeps_walk. Qed.
Lemma window_keeps v a b : keeps Inv (window v a b).
Proof. unfold window. keeps_walk. Qed.
Lemma retire_keeps v : keeps Inv (retire v).
Proof. apply set_obsolete_keeps. Qed.
Lemma complete_keeps v : keeps Inv (complete v).
Proof. unfold complete. keeps_walk. Qed.
Lemma covered_keeps v a b : keeps Inv (covered v a b).
Proof. unfold covered. keeps_walk. Qed.
Lemma missing_range_keeps v a b : keeps Inv (missing_range v a b).
Proof. unfold missing_range. keeps_walk. Qed.
Lemma invalidate_inv provider : keeps Inv (invalidate provider).
Proof.
  unfold invalidate, invalidate_packs. keeps_walk.
  - apply for_each_inv. intros [token row]. keeps_walk.
  - apply for_each_inv. intros [id r]. unfold invalidate_lease. keeps_walk.
  - apply exec_rows_keeps. intros m id. rewrite lookup_fmap. destruct (m !! id) as [row|]; [|done].
    cbn. by destruct (v_provider row =? provider).
Qed.

(** ** Reading *)

Lemma publish_inv id index op f s r row :
  Inv s → st_versions s !! id = Some r → db_versions (st_db s) !! id = Some row →
  wf_index index → synced (v_blocks row) index → ix_geometry index = ix_geometry (r_index r) →
  deleting_clear (f (db_segments (st_db s))) id (r_meta r) index →
  (∀ id' n, id' ≠ id → f (db_segments (st_db s)) !! (id', n) = db_segments (st_db s) !! (id', n)) →
  dbprog (λ d _ d', d' = with_segments f d) op →
  Inv (publish_segment_index id index op s).2.
Proof.
  intros HI Hr Hrow Hwf Hsy Hg Hdc Hoth Hop.
  destruct (publish_cases id r row index op f s Hr Hrow Hwf Hsy Hop) as (w & Hw & [[e He]|He]); rewrite He.
  - by eapply inv_frame.
  - eapply (inv_frame (publish_state id index f s)); [|done..]. by eapply publish_state_inv.
Qed.

(** An index without one more block. *)
Lemma removed_index id s r row block :
  Inv s → st_versions s !! id = Some r → db_versions (st_db s) !! id = Some row →
  0 ≤ block < Geometry_count (ix_geometry (r_index r)) →
  let index := Index_remove (r_index r) block in
  wf_index index ∧ synced (v_blocks row) index ∧ ix_geometry index = ix_geometry (r_index r) ∧
  ∀ b, Index_get (r_index r) b = None → Index_get index b = None.
Proof.
  intros HI Hr Hrow Hb index. destruct (inv_resident _ HI id r Hr) as (row' & Hrow' & [Hwf Hsy Hm Hg Hv Hc]).
  assert (row' = row) as -> by congruence.
  destruct (remove_bytes_get (r_index r) block Hwf Hb) as (Hwf' & Hnone & Hoth). split_and!; [done| |done|].
  - unfold index. rewrite Index_remove_eq by done. apply synced_write; [done|done| |done]. by rewrite zlen_replicate.
  - intros b Hn. destruct (Index_get index b) eqn:Hx; [|done]. unfold index in Hx.
    change (wf_index (Index_remove (r_index r) block)) in Hwf'.
    assert (0 ≤ b) by (pose proof (Index_get_range _ _ _ Hwf' Hx); lia).
    destruct (decide (b = block)) as [->|Hne]; [congruence|]. rewrite Hoth in Hx by done. congruence.
Qed.
Lemma publish_remove_keeps id block s r :
  Inv s → st_versions s !! id = Some r → is_Some (Index_get (r_index r) block) →
  Inv (publish_segment_index id (Index_remove (r_index r) block) (mret tt) s).2.
Proof.
  intros HI Hr [x Hx]. destruct (inv_resident _ HI id r Hr) as (row & Hrow & Hok).
  apply Index_get_range in Hx; [|by destruct Hok].
  destruct (removed_index id s r row block HI Hr Hrow Hx) as (Hwf & Hsy & Hg & Hnone).
  apply (publish_inv _ _ _ (λ m, m) _ r row); try done.
  - intros n seg size b Hseg Hd Hsz Hb. apply Hnone. by eapply (inv_deleting_resident s).
  - eapply dbprog_impl; [apply dbprog_ret|]. intros d a d' [_ ->]. by destruct d.
Qed.
Lemma touch_segment_keeps id n : keeps Inv (touch_segment id n).
Proof.
  unfold touch_segment, exec_db. keeps_walk. apply keeps_modify. intros s HI.
  eapply tidy_inv, HI. apply T_touch. intros k. destruct (decide (k = (id, n))) as [->|Hne].
  - rewrite lookup_alter_eq. by destruct (db_segments (st_db s) !! (id, n)).
  - by rewrite lookup_alter_ne.
Qed.
#[local] Hint Resolve touch_segment_keeps : keepsdb.

Lemma read_segment_keeps id block : keeps Inv (read_segment id block).
Proof.
  intros s HI. unfold read_segment. apply after_bind; [by apply tidied_keeps; [apply load_tidies|]|].
  intros r s1 Hr%load_Ok HI1. clear s HI. rename s1 into s, HI1 into HI.
  destruct (Index_get (r_index r) block) as [[slot digest]|] eqn:Hget; [|done].
  apply after_bind; [done|]. intros [first last] s' [_ ->]%lift_inv _.
  apply after_bind; [done|]. intros size s' [_ ->]%lift_inv _.
  assert (Hrem : ∀ s0 n, Inv s0 → Inv ((remove_segment id n ;; mret (None : option (list Z))) s0).2).
  { intros s0 n. apply (keeps_bind Inv); [apply tidied_keeps, remove_segment_tidies|intros ?; apply keeps_ret]. }
  apply after_bind; [by apply quiet_keeps; [apply segment_quiet|]|]. intros sg s1 Hsg HI1.
  apply (steps_run quiet) in Hsg as (w1 & _ & ->); [|apply segment_quiet].
  destruct sg as [sg|]; [|by apply Hrem].
  apply after_bind; [by apply quiet_keeps; [apply (steps_attempt _), segment_file_quiet|]|]. intros fl s1 Hf%attempt_inv HI2.
  apply (steps_run quiet) in Hf as (w2 & _ & ->); [|apply segment_file_quiet].
  destruct fl as [file|e]; [|by apply Hrem].
  apply after_bind; [by apply quiet_keeps; [apply (steps_attempt _), read_exact_quiet|]|]. intros bytes s1 Hb%attempt_inv HI3.
  apply (steps_run quiet) in Hb as (w3 & _ & ->); [|apply read_exact_quiet].
  apply after_bind; [by apply quiet_keeps; [apply digest_matches_quiet|]|].
  intros checked s1 [-> _]%digest_matches_inv HI4. destruct checked.
  - apply (keeps_bind Inv); [apply touch_segment_keeps|intros _; keeps_walk|done].
  - apply after_bind; [by apply quiet_keeps; [apply load_hit_quiet|]|]. intros r' s1 [-> Hr']%load_hit_inv _.
    assert (r' = r) as -> by (cbn in Hr'; congruence).
    apply after_bind; [|done]. apply publish_remove_keeps; [done|done|by eexists].
Qed.
Lemma retire_corrupt_keeps id : keeps Inv (retire_corrupt id).
Proof. unfold retire_corrupt, invalidate_lease. keeps_walk. Qed.
#[local] Hint Resolve retire_corrupt_keeps : keepsdb.

(** A change of the index of a [Blocks] version that keeps it in step with the column. *)
Lemma set_index_inv id index s r row :
  Inv s → st_versions s !! id = Some r → db_versions (st_db s) !! id = Some row →
  m_layout (r_meta r) = Blocks → wf_index index → synced (v_blocks row) index →
  ix_geometry index = ix_geometry (r_index r) → Inv (set_index id index s).2.
Proof.
  intros HI Hr Hrow Hlay Hwf Hsy Hg. pose proof HI as [H1 H2]. split; cbn; [|exact H2].
  intros id' r' Hr'. destruct (decide (id' = id)) as [->|Hne].
  - rewrite lookup_alter_eq, Hr in Hr'. injection Hr' as <-.
    destruct (H1 id r Hr) as (row' & Hrow' & [Hwf0 Hs0 Hm0 Hg0 Hv0 Hc0]). assert (row' = row) as -> by congruence.
    exists row. split; [done|]. split; cbn; [done|done|done|congruence|done|]. by rewrite Hlay.
  - rewrite lookup_alter_ne in Hr' by done. by apply H1.
Qed.

Lemma read_block_keeps id block r s :
  Inv s → st_versions s !! id = Some r → m_layout (r_meta r) = Blocks → Inv (read_block id block r s).2.
Proof.
  intros HI Hr Hlay. unfold read_block. destruct (Index_get (r_index r) block) as [[slot digest]|] eqn:Hget; [|done].
  apply after_bind; [done|]. intros [first last] s' [_ ->]%lift_inv _.
  apply after_bind; [done|]. intros file s' [_ ->]%lift_inv _.
  apply after_bind; [by destruct (r_plain r)|]. intros off s' Hoff _.
  assert (s' = s) as -> by (destruct (r_plain r); [by injection Hoff|by apply lift_inv in Hoff as [_ ->]]).
  apply after_bind; [by apply quiet_keeps; [apply (steps_attempt _), read_exact_quiet|]|]. intros bytes s1 Hb%attempt_inv HI3.
  apply (steps_run quiet) in Hb as (w3 & _ & ->); [|apply read_exact_quiet].
  apply after_bind; [by apply quiet_keeps; [apply digest_matches_quiet|]|].
  intros checked s1 [-> _]%digest_matches_inv HI4. destruct checked; [by destruct bytes|].
  destruct (r_plain r); [apply (keeps_bind Inv); [apply retire_corrupt_keeps|intros _; keeps_walk|done]|].
  destruct (inv_resident _ HI id r Hr) as (row & Hrow & Hok). apply Index_get_range in Hget; [|by destruct Hok].
  destruct (removed_index id s r row block HI Hr Hrow Hget) as (Hwf & Hsy & Hg & _).
  apply after_bind; [by eapply set_index_inv|]. intros u s1 Hs1 HI5.
  apply (keeps_bind Inv); [apply tidied_keeps, commit_tidies|intros _; keeps_walk|done].
Qed.
Lemma blocks_layout l : segment_bytes l = None → l = Blocks.
Proof. by destruct l. Qed.
Lemma read_keeps id block : keeps Inv (read id block).
Proof.
  unfold read. apply keeps_bind; [keeps_walk|intros _]. intros s HI.
  apply after_bind; [by apply tidied_keeps; [apply load_tidies|]|]. intros r s1 Hr%load_Ok HI1.
  destruct (segment_bytes (m_layout (r_meta r))) eqn:Hsz; [by apply read_segment_keeps|].
  apply after_bind; [by apply tidied_keeps; [apply load_tidies|]|]. intros r2 s2 Hl HI2.
  rewrite (load_resident id s1 r Hr) in Hl. apply load_hit_inv in Hl as [-> Hr2].
  apply read_block_keeps; [done|done|]. apply blocks_layout. congruence.
Qed.
#[local] Hint Resolve read_keeps : keepsdb.

(** ** Publishing, leases and recovery *)

Lemma cleanup_garbage_keeps : keeps Inv cleanup_garbage.
Proof.
  unfold cleanup_garbage. apply keeps_bind; [apply keeps_get|intros s].
  generalize (take 64 (elements (st_garbage s))). intros l. induction l as [|x l IH]; cbn [foldr]; keeps_walk.
Qed.
Lemma cleanup_plain_data_keeps : keeps Inv cleanup_plain_data.
Proof. unfold cleanup_plain_data. keeps_walk. apply for_each_inv. intros name. keeps_walk. Qed.
Lemma defer_build_keeps id : keeps Inv (defer_build id).
Proof. unfold defer_build. keeps_walk. Qed.
Lemma remove_outputs_keeps g : keeps Inv (remove_outputs g).
Proof. apply same_keeps, for_each_same. intros x. apply remove_managed_same. Qed.
#[local] Hint Resolve cleanup_garbage_keeps cleanup_plain_data_keeps defer_build_keeps remove_outputs_keeps : keepsdb.

Lemma prepare_build_keeps v : keeps Inv (prepare_build v).
Proof. unfold prepare_build, private_file. keeps_walk. Qed.
#[local] Hint Resolve prepare_build_keeps : keepsdb.
Lemma next_build_keeps : keeps Inv next_build.
Proof.
  assert (Hloop : ∀ ids, keeps Inv (build_loop ids)).
  { induction ids as [|id ids IH]; cbn [build_loop]; keeps_walk. }
  unfold next_build. keeps_walk.
Qed.
Lemma check_build_keeps id : keeps Inv (check_build id).
Proof. unfold check_build. keeps_walk. Qed.
#[local] Hint Resolve check_build_keeps : keepsdb.
Lemma copied_block_keeps id n : keeps Inv (copied_block id n).
Proof. unfold copied_block. keeps_walk. Qed.
Lemma read_build_keeps id b : keeps Inv (read_build id b).
Proof. unfold read_build. keeps_walk. Qed.
#[local] Hint Resolve copied_block_keeps read_build_keeps : keepsdb.
Lemma copy_loop_keeps t stop blocks : ∀ copied, keeps Inv (copy_loop t stop blocks copied).
Proof. induction blocks as [|b blocks IH]; intros copied; cbn [copy_loop]; keeps_walk. Qed.
#[local] Hint Resolve copy_loop_keeps : keepsdb.
Lemma copy_blocks_keeps t stop : keeps Inv (copy_blocks t stop).
Proof. unfold copy_blocks, sync_all. keeps_walk. Qed.
#[local] Hint Resolve copy_blocks_keeps : keepsdb.
Lemma txn_same {A} P (m : M A) :
  dbprog P m → (∀ d a d', P d a d' → db_versions d' = db_versions d ∧ db_segments d' = db_segments d) →
  steps same_versions (txn m).
Proof.
  intros Hm HP s. destruct (txn_cases P m s Hm) as (w & Hw & [[e He]|(a & d & Ht & Hd)]); [by rewrite He|].
  rewrite Ht. apply HP in Hd as [E1 E2]. by split_and!.
Qed.
Lemma publish_file_keeps v digest : keeps Inv (publish_file v digest).
Proof.
  unfold publish_file, sync_directory. keeps_walk.
  - apply same_keeps, (steps_modify _). intros s. by destruct (st_building s).
  - apply same_keeps. eapply txn_same; [apply dbprog_exec|]. by intros ? ? ? ->.
  - by apply alter_keeps.
Qed.
Lemma note_output_keeps id name : keeps Inv (note_output id name).
Proof. unfold note_output. keeps_walk. Qed.
#[local] Hint Resolve publish_file_keeps note_output_keeps : keepsdb.
Lemma plain_keeps id : keeps Inv (plain id).
Proof. apply quiet_keeps, plain_quiet. Qed.
#[local] Hint Resolve plain_keeps : keepsdb.
Lemma finish_failed_keeps id : keeps Inv (finish_failed id).
Proof. unfold finish_failed. keeps_walk. apply for_each_inv. intros x. keeps_walk. Qed.
#[local] Hint Resolve finish_failed_keeps : keepsdb.
Lemma convert_keeps t stop c : keeps Inv (convert t stop c).
Proof. unfold convert. keeps_walk. Qed.

Lemma file_intact_keeps g n : keeps Inv (file_intact g n).
Proof. unfold file_intact. keeps_walk. Qed.
Lemma grant_keeps id c g : keeps Inv (grant id c g).
Proof. unfold grant. keeps_walk. Qed.
Lemma expire_leases_keeps : keeps Inv expire_leases.
Proof. apply maintained_keeps, expire_leases_maintains. Qed.
#[local] Hint Resolve file_intact_keeps grant_keeps expire_leases_keeps : keepsdb.
Lemma acquire_file_keeps id c : keeps Inv (acquire_file id c).
Proof. unfold acquire_file. keeps_walk. Qed.
Lemma renew_file_keeps t c : keeps Inv (renew_file t c).
Proof. unfold renew_file. keeps_walk. Qed.
Lemma release_file_keeps t c : keeps Inv (release_file t c).
Proof. unfold release_file. keeps_walk. Qed.

Lemma delete_pack_keeps token : keeps Inv (delete_pack token).
Proof. apply maintained_keeps, delete_pack_maintains. Qed.
Lemma check_pack_keeps token row : keeps Inv (check_pack token row).
Proof. unfold check_pack. keeps_walk. Qed.
Lemma exec_packs_same f : steps same_versions (exec_db (with_packs f)).
Proof. by apply exec_same. Qed.
Lemma exec_objects_same f : steps same_versions (exec_db (with_objects f)).
Proof. by apply exec_same. Qed.
#[local] Hint Resolve delete_pack_keeps check_pack_keeps : keepsdb.
#[local] Hint Resolve exec_packs_same exec_objects_same : same.
Lemma retain_packs_keeps retained : keeps Inv (retain_packs retained).
Proof.
  unfold retain_packs. apply keeps_bind; [keeps_walk|intros rows]. revert retained.
  induction rows as [|[token row] rows IH]; intros retained; cbn [retain_loop]; keeps_walk; apply IH.
Qed.
Lemma recover_keeps : keeps Inv recover.
Proof.
  unfold recover, retain_segments. keeps_walk.
  - apply for_each_inv. intros id. keeps_walk.
  - apply retain_packs_keeps.
  - apply for_each_inv. intros [name e]. unfold recover_entry. keeps_walk.
Qed.
Lemma open_keeps : keeps Inv open.
Proof.
  unfold open, restore_segment_clock, restore_leases. keeps_walk; [|apply recover_keeps].
  apply keeps_modify. intros s HI. case_match; [by eapply inv_same|done].
Qed.
Lemma shutdown_keeps : keeps Inv shutdown.
Proof. unfold shutdown. keeps_walk. Qed.

(** A process starts with nothing in memory. *)
Lemma initial_inv s files world capacity enabled :
  Inv s → Inv (initial (st_db s) files world capacity enabled).
Proof. intros [_ H2]. split; [|exact H2]. intros id r Hr. cbn in Hr. by rewrite lookup_empty in Hr. Qed.

(** ** Creating a version *)

Lemma next_rowid_fresh ids : next_rowid ids ∉ ids.
Proof.
  assert (Hle : ∀ x, x ∈ ids → x ≤ foldr Z.max 0 ids).
  { induction ids as [|y ids IH]; intros x Hx; [by apply elem_of_nil in Hx|]. cbn.
    apply elem_of_cons in Hx as [->|Hx]; [lia|]. specialize (IH x Hx). lia. }
  unfold next_rowid. intros Hin%Hle. lia.
Qed.

(** The rows after the transaction of a creation. *)
Definition age_rows (key : string) (m : gmap Z VersionRow) : gmap Z VersionRow :=
  fmap (λ r : VersionRow,
    if str_eqb (v_key r) key && (v_obsolete r =? 0) then v_with_obsolete 1 r else r) m.
Definition created_row (meta : Metadata) (encoded : string) (blocks : list Z) (now : Z) : VersionRow :=
  mk_VersionRow (m_key meta) (m_provider meta) (m_kind meta) (m_generation meta) encoded blocks now 0.
Lemma insert_version_db meta encoded blocks now :
  dbprog (λ d id d', db_versions d !! id = None ∧
      d' = with_versions (λ m, <[id := created_row meta encoded blocks now]> (age_rows (m_key meta) m)) d)
    (insert_version meta encoded blocks now).
Proof.
  unfold insert_version. eapply dbprog_impl.
  { eapply dbprog_bind; [apply dbprog_exec|intros u]. eapply dbprog_bind; [apply dbprog_query|intros d].
    eapply dbprog_bind; [apply dbprog_lift|intros u']. eapply dbprog_bind; [apply dbprog_modify|intros u''].
    apply dbprog_ret. }
  cbn. intros d id d' (u & d1 & -> & d2 & d3 & [-> ->] & u' & d4 & [_ ->] & u'' & d5 & -> & -> & ->).
  set (m := age_rows (m_key meta) (db_versions d)).
  assert (Hfresh : m !! next_rowid ((map_to_list m).*1) = None).
  { destruct (m !! next_rowid ((map_to_list m).*1)) as [row|] eqn:Hrow; [|done]. exfalso.
    apply (next_rowid_fresh (map_to_list m).*1). apply list_elem_of_fmap. eexists (_, row).
    split; [done|]. by apply elem_of_map_to_list. }
  split; [|done]. change (m !! next_rowid ((map_to_list m).*1) = None) in Hfresh.
  unfold m, age_rows in Hfresh. rewrite lookup_fmap in Hfresh.
  match type of Hfresh with _ <$> ?o = None => destruct o eqn:Ho; [done|exact Ho] end.
Qed.

Lemma created_inv s id meta encoded now file :
  Inv s → db_versions (st_db s) !! id = None → meta_from_json encoded = Some meta →
  Layout_validate (m_layout meta) (m_geometry meta) = Ok tt → wf_geometry (m_geometry meta) →
  let index := Index_new (m_geometry meta) in
  Inv (set_versions <[id := mk_Resident meta index file None false]>
    (set_db (with_versions (λ m, <[id := created_row meta encoded (ix_bytes index) now]> (age_rows (m_key meta) m))) s)).
Proof.
  intros HI Hnone Hm Hlay Hg index. pose proof HI as [H1 H2].
  assert (Hage : Inv (set_db (with_versions (age_rows (m_key meta))) s)).
  { apply rows_inv; [|done]. intros id'. unfold age_rows. rewrite lookup_fmap.
    destruct (db_versions (st_db s) !! id') as [r|]; [|done]. cbn. by destruct (_ && _). }
  destruct Hage as [A1 A2]. cbn in A1, A2. split; cbn.
  - intros id' r Hr. destruct (decide (id' = id)) as [->|Hne].
    + rewrite lookup_insert_eq in Hr. injection Hr as <-. rewrite lookup_insert_eq. eexists. split; [done|].
      split; cbn; [by apply Index_new_wf|by apply synced_new|done..].
    + rewrite lookup_insert_ne in Hr by done. rewrite lookup_insert_ne by done. by apply A1.
  - intros id' row meta' Hrow Hm' Hlay' Hlen. destruct (decide (id' = id)) as [->|Hne].
    + rewrite lookup_insert_eq in Hrow. injection Hrow as <-. cbn in Hm'. assert (meta' = meta) as -> by congruence.
      intros n seg size b _ _ _ Hb. destruct (decide (0 ≤ b)) as [Hb0|Hb0].
      * by apply (Index_new_get (m_geometry meta) b).
      * destruct (Index_get _ b) eqn:Hx; [|done]. exfalso.
        apply (Index_get_range index b) in Hx; [lia|]. by apply Index_new_wf.
    + rewrite lookup_insert_ne in Hrow by done. by eapply A2.
Qed.

Lemma create_file_keeps meta : keeps Inv (create_file meta).
Proof. unfold create_file, private_file, sync_all, sync_directory. keeps_walk. Qed.

Lemma create_layout_keeps meta :
  is_u64 (g_length (m_geometry meta)) → keeps Inv (create_layout meta).
Proof.
  intros Hu s HI. unfold create_layout.
  apply after_bind; [done|]. intros u s' [_ ->]%guard_inv _.
  apply after_bind; [done|]. intros [] s' [Hlay ->]%lift_inv _.
  pose proof (layout_validate_wf _ _ Hu Hlay) as Hg.
  apply after_bind; [by apply tidied_keeps; [apply reserve_index_tidies|]|]. intros u1 s1 _ HI1.
  apply after_bind; [by apply create_file_keeps|]. intros file s2 _ HI2.
  apply after_bind; [done|]. intros encoded s' [Henc%ok_or_Ok ->]%lift_inv _.
  apply after_bind; [done|]. intros s0 s' [= <- <-] _.
  apply after_bind; [by apply same_keeps; [unfold begin_immediate; same_walk|]|]. intros before s3 Hb HI3.
  apply bind_Ok_inv in Hb as (u3 & s4 & [w ->]%io_inv & [= <- <-]).
  set (s3 := set_world (λ _, w) s2) in *. change (st_db s2) with (st_db s3).
  destruct (finish_txn_cases _ _ s3 (insert_version_db meta encoded (ix_bytes (Index_new (m_geometry meta)))
    (e_now (w_env (st_world s2))))) as (w2 & Hw2 & [[e He]|(id & d & Ht & Hnone & ->)]).
  - apply after_bind; [rewrite He; by apply (inv_frame s3)|]. intros r s5 Hr HI5. rewrite He in Hr.
    injection Hr as <- <-.
    apply (keeps_bind Inv); [|intros _|done].
    + apply same_keeps. same_walk.
    + keeps_walk.
  - set (s4 := set_db _ s3) in Ht.
    assert (Hrun : ∀ (k : result string Z → M Version),
      ((finish_txn (st_db s3) (insert_version meta encoded (ix_bytes (Index_new (m_geometry meta)))
        (e_now (w_env (st_world s2)))) ≫= k) s3) = k (Ok id) (set_world (λ _, w2) s4)).
    { intros k. by run_bind Ht. }
    rewrite Hrun.
    pose proof (created_inv s3 id meta encoded (e_now (w_env (st_world s2))) file HI3 Hnone
      (meta_roundtrip _ _ Henc) Hlay Hg) as HI4.
    set (s5 := set_versions <[id := mk_Resident meta (Index_new (m_geometry meta)) file None false]>
      (set_world (λ _, w2) s4)).
    change (Inv ((version id) s5).2). apply version_keeps. by eapply inv_frame; [exact HI4|..].
Qed.
Lemma create_keeps meta : is_u64 (g_length (m_geometry meta)) → keeps Inv (create meta).
Proof. intros Hu. by apply create_layout_keeps. Qed.

(** ** Updating the metadata *)

(** What the callers respect: an update keeps the shape of the resource. *)
Definition update_ok (s : Storage) (id : Z) (meta : Metadata) : Prop :=
  ∀ row, db_versions (st_db s) !! id = Some row →
    ∃ old, meta_from_json (v_meta row) = Some old ∧
      m_geometry meta = m_geometry old ∧ m_layout meta = m_layout old.

(** The row, and the version in memory if it is there. *)
Lemma updated_inv s id meta text :
  Inv s → update_ok s id meta → meta_from_json text = Some meta →
  Inv (set_versions (alter (r_with_meta meta) id) (set_db (with_versions (alter (v_with_meta text) id)) s)).
Proof.
  intros [H1 H2] Hok Ht. split; cbn.
  - intros id' r Hr. destruct (decide (id' = id)) as [->|Hne].
    + rewrite lookup_alter_eq in Hr. apply fmap_Some in Hr as (r0 & Hr0 & ->).
      destruct (H1 id r0 Hr0) as (row & Hrow & [Hwf Hs Hm Hg Hv Hc]).
      destruct (Hok row Hrow) as (old & Hold & Eg & El). assert (old = r_meta r0) as -> by congruence.
      rewrite lookup_alter_eq, Hrow. eexists. split; [done|].
      split; cbn; [done|done|done|congruence|congruence|by rewrite El].
    + rewrite lookup_alter_ne in Hr by done. rewrite lookup_alter_ne by done. by apply H1.
  - intros id' row meta' Hrow Hm' Hlay Hlen. destruct (decide (id' = id)) as [->|Hne].
    + rewrite lookup_alter_eq in Hrow. apply fmap_Some in Hrow as (row0 & Hrow0 & ->). cbn in *.
      assert (meta' = meta) as -> by congruence. destruct (Hok row0 Hrow0) as (old & Hold & Eg & El).
      rewrite Eg in Hlay, Hlen. rewrite El in Hlay. pose proof (H2 id row0 old Hrow0 Hold Hlay Hlen) as Hdc.
      intros n seg size b Hseg Hd Hsz Hb. unfold stored_index in *. cbn. rewrite Eg.
      eapply Hdc; [done|done|by rewrite <- El|]. unfold segment_blocks in *. by rewrite <- Eg.
    + rewrite lookup_alter_ne in Hrow by done. by eapply H2.
Qed.
Lemma update_keeps id meta s : Inv s → update_ok s id meta → Inv (update id meta s).2.
Proof.
  intros HI Hok. unfold update. apply after_bind; [done|]. intros text s' [Htext%ok_or_Ok ->]%lift_inv _.
  apply meta_roundtrip in Htext.
  destruct (io_cases s) as (w & Hw & [Hio|[e Hio]]).
  2: { assert (He : exec_db (with_versions (alter (v_with_meta text) id)) s = (Err e, set_world (λ _, w) s))
         by (unfold exec_db; by run_bind Hio).
       run_bind He. by eapply inv_frame. }
  set (s0 := set_world (λ _, w) s). set (s1 := set_db (with_versions (alter (v_with_meta text) id)) s0).
  assert (Hexec : exec_db (with_versions (alter (v_with_meta text) id)) s = (Ok tt, s1)).
  { unfold exec_db. by run_bind Hio. }
  run_bind Hexec.
  assert (Hup : Inv (set_versions (alter (r_with_meta meta) id) s1)).
  { apply updated_inv; [by eapply inv_frame|exact Hok|done]. }
  destruct (st_versions s !! id) as [r|] eqn:Hr.
  - assert (Hl : load id s1 = (Ok r, s1)) by (rewrite (load_resident id s1 r) by done; by apply load_hit_Ok).
    run_bind Hl. exact Hup.
  - assert (HI1 : Inv s1).
    { eapply inv_frame; [exact Hup|done|]. cbn. apply map_eq. intros id'.
      destruct (decide (id' = id)) as [->|Hne]; [by rewrite lookup_alter_eq, Hr|by rewrite lookup_alter_ne]. }
    apply after_bind; [by apply tidied_keeps; [apply load_tidies|]|]. intros r s2 Hl HI2.
    pose proof (steps_run _ _ _ _ _ Hl (load_tidies id) HI1) as Ht. pose proof (load_Ok _ _ _ _ Hl) as Hr2.
    destruct (inv_resident _ HI2 id r Hr2) as (row2 & Hrow2 & Hok2).
    pose proof (tf_rows _ _ (rtc_tidy_framed _ _ Ht) id) as Hrows. rewrite Hrow2 in Hrows. cbn in Hrows.
    rewrite lookup_alter_eq in Hrows. destruct (db_versions (st_db s) !! id) as [row|]; [|done].
    apply (inj Some), (f_equal v_meta) in Hrows. cbn in Hrows.
    assert (r_meta r = meta) as Em by (destruct Hok2; congruence).
    cbn. eapply inv_frame; [exact HI2|done|]. cbn. apply map_eq. intros id'.
    destruct (decide (id' = id)) as [->|Hne]; [|by rewrite lookup_alter_ne].
    rewrite lookup_alter_eq, Hr2. cbn. f_equal. subst meta. by destruct r.
Qed.

(** ** Writing blocks *)

Context `{!Sha256Ok D}.

(** Blocks are named by unsigned integers. *)
Definition blocks_ok (blocks : list (Z * list Z)) : Prop := Forall (λ b, 0 ≤ b.1) blocks.

Lemma meta_stable s s' id r r' :
  Inv s → Inv s' → maint_frame s s' → st_versions s !! id = Some r → st_versions s' !! id = Some r' →
  r_meta r' = r_meta r.
Proof.
  intros HI HI' Hf Hr Hr'. destruct (inv_resident _ HI id r Hr) as (row & Hrow & [_ _ Hm _ _ _]).
  destruct (inv_resident _ HI' id r' Hr') as (row' & Hrow' & [_ _ Hm' _ _ _]).
  destruct (mf_rows _ _ Hf id row' Hrow') as (row0 & Hrow0 & Hc). apply (f_equal v_meta) in Hc. cbn in Hc.
  congruence.
Qed.

Definition blocks_resident (id : Z) (s : Storage) : Prop :=
  Inv s ∧ ∀ r, st_versions s !! id = Some r → m_layout (r_meta r) = Blocks.
Lemma blocks_resident_same id s s' : same_versions s s' → blocks_resident id s → blocks_resident id s'.
Proof. intros Hs [HI Hb]. split; [by eapply inv_same|]. destruct Hs as (_ & _ & ->). done. Qed.

Lemma index_set_keeps id block slot data :
  0 ≤ block → 0 ≤ slot ≤ u32_max → keeps (blocks_resident id) (index_set id block slot data).
Proof.
  intros Hb Hs s [HI Hlay]. unfold index_set. apply after_bind; [by split|].
  intros r s' [-> Hr]%load_hit_inv _. destruct (inv_resident _ HI id r Hr) as (row & Hrow & Hok).
  pose proof (Index_set_any block slot data (r_index r)) as Hany.
  destruct (Index_set block slot data (r_index r)) as [res index] eqn:Hset.
  destruct Hany as (Hwf & Hg & Hsy & _); [by destruct Hok|done..|].
  assert (Hset' : blocks_resident id (set_index id index s).2).
  { split.
    { apply (set_index_inv id index s r row); try done; [by apply Hlay|]. apply Hsy. by destruct Hok. }
    cbn. intros r' Hr'. rewrite lookup_alter_eq, Hr in Hr'. injection Hr' as <-. exact (Hlay r Hr). }
  apply after_bind; [exact Hset'|]. by intros u s' _ H'.
Qed.

Lemma append_blocks_same id blocks : steps same_versions (append_blocks id blocks).
Proof.
  assert (Hload : steps same_versions (load_hit id)) by apply quiet_steps_versions, load_hit_quiet.
  induction blocks as [|[block data] blocks IH]; cbn [append_blocks]; same_walk.
Qed.
(** What was appended can be entered in the index. *)
Definition appended_ok (a : Z * Z * list Z) : Prop := 0 ≤ a.1.1 ∧ 0 ≤ a.1.2 ≤ u32_max.
Lemma append_blocks_ok id blocks : ∀ s l s',
  blocks_ok blocks → Inv s → append_blocks id blocks s = (Ok l, s') → Forall appended_ok l.
Proof.
  induction blocks as [|[block data] blocks IH]; intros s l s' Hb HI Hr; cbn [append_blocks] in Hr.
  { by injection Hr as <- _. }
  apply Forall_cons in Hb as [Hb0 Hb]. apply bind_Ok_inv in Hr as (r & s1 & [-> Hres]%load_hit_inv & Hr).
  destruct (Index_get (r_index r) block); [by eapply IH|].
  apply bind_Ok_inv in Hr as ([first last] & s1 & [_ ->]%lift_inv & Hr).
  apply bind_Ok_inv in Hr as (u & s1 & [_ ->]%guard_inv & Hr).
  apply bind_Ok_inv in Hr as (file & s1 & [_ ->]%lift_inv & Hr).
  apply bind_Ok_inv in Hr as (size & s1 & (b & _ & _ & (w & _ & ->))%file_len_inv & Hr).
  destruct (inv_resident _ HI id r Hres) as (row & Hrow & Hok).
  pose proof (wf_geometry_bounds _ (resident_ok_layout _ _ Hok)) as Hg.
  apply bind_Ok_inv in Hr as (u1 & s1 & [Hslot%Z.ltb_lt ->]%guard_inv & Hr).
  apply bind_Ok_inv in Hr as (off & s1 & [_ ->]%lift_inv & Hr).
  apply bind_Ok_inv in Hr as (u2 & s1 & Hw1 & Hr). apply bind_Ok_inv in Hr as (u3 & s2 & Hw2 & Hr).
  apply bind_Ok_inv in Hr as (rest & s3 & Hrest & [= <- _]). constructor.
  - split; cbn; [done|]. split; [|lia]. apply div_ceil_nonneg; [lia|]. unfold wsub. apply wrap64_range.
  - eapply IH; [done| |exact Hrest].
    assert (steps same_versions (if zlen data <? g_block (m_geometry (r_meta r))
       then write_all file (off + zlen data) (replicate (Z.to_nat (g_block (m_geometry (r_meta r)) - zlen data)) 0)
       else mret tt)) as Hpad by same_walk.
    eapply inv_same; [eapply inv_same; [|eapply (steps_run same_versions); [exact Hw1|same_walk]]|
      eapply (steps_run same_versions); [exact Hw2|exact Hpad]]. by eapply inv_frame.
Qed.

Lemma index_sets_keep id l :
  Forall appended_ok l → keeps (blocks_resident id) (for_each (λ a : Z * Z * list Z, index_set id a.1.1 a.1.2 a.2) l).
Proof.
  induction 1 as [|a l [Ha1 Ha2] _ IH]; cbn [for_each]; [apply keeps_ret|].
  apply keeps_bind; [by apply index_set_keeps|intros _; exact IH].
Qed.

(** An eviction and a load in a row find the same metadata. *)
Lemma reload_blocks id n s r u s1 r' s2 :
  Inv s → st_versions s !! id = Some r → m_layout (r_meta r) = Blocks →
  evict n s = (Ok u, s1) → load id s1 = (Ok r', s2) → blocks_resident id s2.
Proof.
  intros HI Hr Hlay He Hl.
  pose proof (steps_run _ _ _ _ _ He (evict_maintains n) HI) as Hm1.
  pose proof (rtc_maint_inv _ _ Hm1 HI) as HI1.
  pose proof (rtc_tidy_maint _ _ (steps_run _ _ _ _ _ Hl (load_tidies id) HI1)) as Hm2.
  pose proof (rtc_maint_inv _ _ Hm2 HI1) as HI2. split; [done|]. intros r0 Hr0.
  rewrite (meta_stable s s2 id r r0); [done|done|done| |done|done].
  etrans; by apply rtc_maint_framed.
Qed.

Lemma write_data_keeps id blocks s r :
  Inv s → st_versions s !! id = Some r → m_layout (r_meta r) = Blocks → blocks_ok blocks →
  Inv (write_data id blocks s).2.
Proof.
  intros HI Hr Hlay Hbl. unfold write_data.
  apply after_bind; [by apply quiet_keeps; [apply check_active_quiet|]|]. intros u s1 Ha HI1.
  apply (steps_run quiet) in Ha as (w & _ & ->); [|apply check_active_quiet].
  apply after_bind; [by apply tidied_keeps; [apply load_tidies|]|]. intros r1 s1 Hl _.
  rewrite (load_resident id _ r) in Hl by done. apply load_hit_inv in Hl as [-> Hr1]. cbn in Hr1.
  assert (r1 = r) as -> by congruence. destruct (r_plain r); [done|].
  apply after_bind; [by apply maintained_keeps; [apply evict_maintains|]|]. intros u1 s2 He HI2.
  apply after_bind; [by apply tidied_keeps; [apply load_tidies|]|]. intros r2 s3 Hl HI3.
  pose proof (reload_blocks id _ _ r _ _ _ _ HI1 Hr Hlay He Hl) as HB.
  apply after_bind; [by apply same_keeps; [apply append_blocks_same|]|]. intros l s4 Happ HI4.
  pose proof (append_blocks_ok _ _ _ _ _ Hbl HI3 Happ) as Hall.
  apply (steps_run same_versions) in Happ; [|apply append_blocks_same].
  apply (blocks_resident_same id) in Happ as HB4; [|done].
  apply after_bind; [done|]. intros file s' [_ ->]%lift_inv _.
  apply after_bind; [by apply same_keeps; [apply io_same|]|]. intros u2 s5 [w5 ->]%io_inv HI5.
  assert (HB5 : blocks_resident id (set_world (λ _, w5) s4)) by by eapply blocks_resident_same, HB4.
  apply (index_sets_keep id l Hall) in HB5 as HB6.
  apply after_bind; [by destruct HB6|]. intros u3 s6 Hs6 HI6.
  by apply tidied_keeps; [apply commit_tidies|].
Qed.
End Durability.

#[export] Hint Extern 1 (steps quiet _) => solve [eauto with qcm] : same.
#[export] Hint Resolve quiet_steps_versions exec_complete_same exec_leases_same exec_clock_same
  remove_managed_same set_len_same write_all_same create_new_same drop_arc_same upgrade_same io_same
  persist_clock_same rename_same fresh_token_same segment_tick_same drop_version_same drop_window_same
  pin_segments_same : same.
