(* ===== verification/Segmented.v ===== *)
(** * Resource cache: writing segments

    [write_segments] works on a copy of the index while it writes files and removes the
    segments whose deletion had begun, and publishes copy and descriptors in one transaction.
    The copy stays in step with the column throughout ([working]), so the invariant holds
    after every way out. *)
From S2P Require Import Prelude Text Format Policy Storage Segments Packs Store Materialize.
From S2P Require Import Steps Sample Eviction Reading Objects Durability.
From stdpp Require Import options.
#[local] Set Default Proof Using "Type*".

Open Scope Z_scope.

(** The blocks of distinct segments are distinct. *)
Lemma segment_blocks_disjoint meta size n1 n2 b :
  Layout_validate (m_layout meta) (m_geometry meta) = Ok tt →
  segment_bytes (m_layout meta) = Some size →
  b ∈ segment_blocks meta size n1 → b ∈ segment_blocks meta size n2 → n1 = n2.
Proof.
  intros Hlay Hsz. unfold Layout_validate in Hlay. rewrite Hsz in Hlay. unfold SEGMENT_BYTES in Hlay.
  destruct_ok. set (g := m_geometry meta) in *.
  assert (Hblk : 262144 ≤ g_block g ≤ 1048576) by (apply valid_block_pos; by destruct (valid_block (g_block g))).
  assert (0 < size ∧ size mod g_block g = 0) as [Hs0 Hmod] by bool_lia.
  apply Z.mod_divide in Hmod as [k Hk]; [|lia].
  unfold segment_blocks. fold g. rewrite !elem_of_zrange. intros [A1 A2] [B1 B2].
  assert (Hlow : ∀ n, n * size / g_block g = n * k).
  { intros n. rewrite Hk. replace (n * (k * g_block g)) with (n * k * g_block g) by lia. apply Z.div_mul. lia. }
  assert (Hup : ∀ n, b < div_ceil (Z.min ((n + 1) * size) (g_length g)) (g_block g) → b < (n + 1) * k).
  { intros n Hn. apply div_ceil_lt in Hn; [|lia]. assert (Hm : b * g_block g < (n + 1) * size) by lia.
    rewrite Hk in Hm. apply (Z.mul_lt_mono_pos_r (g_block g)); lia. }
  rewrite Hlow in A1, B1. apply Hup in A2, B2.
  assert (Hk0 : 0 < k) by (apply (Z.mul_lt_mono_pos_r (g_block g)); lia).
  assert (n1 < n2 + 1) by (apply (Z.mul_lt_mono_pos_r k); lia).
  assert (n2 < n1 + 1) by (apply (Z.mul_lt_mono_pos_r k); lia). lia.
Qed.

Section Segmented.
Context {D : Digest} `{!Platform, !PlatformLaws, !Sha256Ok D}.

(** Memory and version rows stay. *)
Definition same_rows (s s' : Storage) : Prop :=
  st_versions s' = st_versions s ∧ db_versions (st_db s') = db_versions (st_db s).
#[local] Instance same_rows_preorder : PreOrder same_rows.
Proof. split; [by intros s|]. intros s1 s2 s3 [? ?] [? ?]. split; congruence. Qed.
Lemma same_versions_rows s s' : same_versions s s' → same_rows s s'.
Proof. by intros (? & _ & ?). Qed.
Lemma versions_rows_steps {A} (m : M A) : steps same_versions m → steps same_rows m.
Proof. apply steps_impl, same_versions_rows. Qed.

(** ** Removing a segment whose deletion had begun *)

Lemma clear_blocks_nop bs v : (∀ b, b ∈ bs → Index_get v b = None) → clear_blocks v bs = v.
Proof.
  intros Hn. unfold clear_blocks. induction bs as [|b bs IH]; cbn [foldl]; [done|].
  rewrite (Hn b) by left. apply IH. intros b' Hb'. apply Hn. by right.
Qed.

Lemma forget_rows id number meta :
  steps same_rows (sg ← attempt (segment id number);
    match sg with Ok (Some sg) => remove_managed (Segment_name sg meta) | _ => mret tt end ;;
    exec_db (with_segments (delete (id, number)))).
Proof.
  apply (steps_bind _); [apply versions_rows_steps, (steps_attempt _), quiet_steps_versions, segment_quiet|intros sg].
  apply (steps_bind _).
  { apply versions_rows_steps. destruct sg as [[sg|]|]; [apply remove_managed_same|apply (steps_ret _)..]. }
  intros _. unfold exec_db. apply (steps_bind _); [apply versions_rows_steps, io_same|intros _].
  apply (steps_modify _). by intros s.
Qed.

Lemma remove_deleting_segment id number s r seg size :
  Inv s → st_versions s !! id = Some r → segment_bytes (m_layout (r_meta r)) = Some size →
  db_segments (st_db s) !! (id, number) = Some seg → s_deleting seg ≠ 0 →
  same_rows s (remove_segment id number s).2.
Proof.
  intros HI Hr Hsz Hseg Hd. destruct (inv_resident _ HI id r Hr) as (row & Hrow & Hok).
  pose proof (resident_stored row r Hok ltac:(congruence)) as Hst.
  unfold remove_segment, remove_segment_with.
  assert (Hload : load id s = (Ok r, s)) by (rewrite (load_resident id s r) by done; by apply load_hit_Ok).
  run_bind Hload. rewrite Hsz. cbn [ok_or]. change ((lift (Ok ?x) ≫= ?f) s) with (f x s). cbv beta.
  run_bind (load_hit_Ok id s r Hr).
  assert (Hclear : clear_blocks (r_index r) (segment_blocks (r_meta r) size number) = r_index r).
  { apply clear_blocks_nop. intros b Hb. by eapply (inv_deleting_resident s). }
  rewrite Hclear.
  destruct (publish_cases id r row (r_index r) (exec_db (with_segments (alter mark_row (id, number))))
    (alter mark_row (id, number)) s Hr Hrow) as (w & Hw & [[e He]|He]);
    [by destruct Hok|by destruct Hok|apply dbprog_exec|..].
  { by run_bind He. }
  run_bind He. etrans; [|apply forget_rows]. unfold same_rows. cbn. split.
  - apply map_eq. intros id'. destruct (decide (id' = id)) as [->|Hne]; [|by rewrite lookup_alter_ne].
    rewrite lookup_alter_eq, Hr. cbn. f_equal. rewrite Hst. unfold stored_index, r_with_index. cbn.
    change (mk_Index (v_blocks row) [] (m_geometry (r_meta r))) with (stored_index row (r_meta r)).
    rewrite <- Hst. by destruct r.
  - apply map_eq. intros id'. destruct (decide (id' = id)) as [->|Hne]; [|by rewrite lookup_alter_ne].
    rewrite lookup_alter_eq, Hrow. cbn. f_equal. rewrite Hst. by destruct row.
Qed.

(** ** The working copy of the index *)

Record working (id : Z) (meta : Metadata) (size : Z) (touched : list Z) (index : Index) (s : Storage) : Prop := {
  wk_inv : Inv s;
  wk_index : wf_index index;
  wk_geometry : ix_geometry index = m_geometry meta;
  wk_resident : ∃ r row, st_versions s !! id = Some r ∧ db_versions (st_db s) !! id = Some row ∧
    r_meta r = meta ∧ synced (v_blocks row) index ∧
    ∀ b, 0 ≤ b → (∀ n, n ∈ touched → b ∉ segment_blocks meta size n) → Index_get index b = Index_get (r_index r) b;
}.
Lemma working_rows id meta size touched index s s' :
  working id meta size touched index s → Inv s' → same_rows s s' → working id meta size touched index s'.
Proof.
  intros [A1 A2 A3 (r & row & Hr & Hrow & Hrest)] HI' [E1 E2]. split; [done..|].
  exists r, row. by rewrite E1, E2.
Qed.
Lemma working_same id meta size touched index s s' :
  working id meta size touched index s → same_versions s s' → working id meta size touched index s'.
Proof.
  intros Hw Hs. eapply working_rows; [done| |by apply same_versions_rows]. eapply inv_same; [apply Hw|done].
Qed.

(** The blocks of a group belong to its segment. *)
Definition group_ok (meta : Metadata) (size number : Z) (blocks : list (Z * list Z)) : Prop :=
  Forall (λ b : Z * list Z, 0 ≤ b.1 ∧ b.1 ∈ segment_blocks meta size number) blocks.

Context (id : Z) (meta : Metadata) (size : Z).
Hypothesis Hlayout : Layout_validate (m_layout meta) (m_geometry meta) = Ok tt.
Hypothesis Hsize : segment_bytes (m_layout meta) = Some size.

Lemma slot_range b : 0 ≤ b mod (size / g_block (m_geometry meta)) ≤ u32_max.
Proof.
  pose proof Hlayout as Hlay. unfold Layout_validate in Hlay. rewrite Hsize in Hlay. unfold SEGMENT_BYTES in Hlay.
  destruct_ok. assert (Hblk : 262144 ≤ g_block (m_geometry meta) ≤ 1048576)
    by (apply valid_block_pos; by destruct (valid_block (g_block (m_geometry meta)))).
  assert (Hs : size = 16777216 ∨ size = 33554432) by bool_lia.
  assert (Hq : 16 ≤ size / g_block (m_geometry meta) ≤ 128).
  { split; [apply Z.div_le_lower_bound; lia|]. apply Z.lt_succ_r. apply Z.div_lt_upper_bound; lia. }
  pose proof (Z.mod_pos_bound b (size / g_block (m_geometry meta))). unfold u32_max. lia.
Qed.

Lemma write_slots_same name g blocks : ∀ index, steps same_versions (write_slots name size g blocks index).
Proof.
  induction blocks as [|[b data] blocks IH]; intros index; cbn [write_slots]; [apply (steps_ret _)|].
  apply (steps_bind _); [apply write_all_same|intros _]. destruct (Index_set _ _ _ _) as [r index'].
  apply (steps_bind _); [apply (steps_lift _)|intros _]. apply IH.
Qed.
Lemma write_slots_working name number touched blocks : ∀ index s index' s',
  group_ok meta size number blocks → number ∈ touched → working id meta size touched index s →
  write_slots name size (m_geometry meta) blocks index s = (Ok index', s') →
  working id meta size touched index' s'.
Proof.
  induction blocks as [|[b data] blocks IH]; intros index s index' s' Hg Hn Hw Hr; cbn [write_slots] in Hr.
  { by injection Hr as <- <-. }
  apply Forall_cons in Hg as [[Hb0 Hb] Hg]. cbn in Hb0, Hb.
  apply bind_Ok_inv in Hr as (u & s1 & Hwr & Hr).
  apply (steps_run same_versions) in Hwr; [|apply write_all_same].
  assert (Hw1 : working id meta size touched index s1) by by eapply working_same.
  pose proof (Index_set_any b (b mod (size / g_block (m_geometry meta))) data index) as Hany.
  destruct (Index_set _ _ _ index) as [res index1]. destruct Hany as (Hwf & Hgeo & Hsy & Hoth & _);
    [apply Hw1|done|apply slot_range|].
  apply bind_Ok_inv in Hr as (u1 & s2 & [_ ->]%lift_inv & Hr).
  eapply IH; [done|done| |exact Hr]. destruct Hw1 as [A1 A2 A3 (r & row & Hres & Hrow & Hm & Hsyn & Hget)].
  split; [done|done|congruence|]. exists r, row. split_and!; [done..|by apply Hsy|].
  intros b' Hb' Hout. rewrite Hoth; [by apply Hget|done|]. intros ->. by eapply Hout.
Qed.

Lemma segment_inv number s sg s' :
  segment id number s = (Ok (Some sg), s') →
  sg_number sg = number ∧ ∃ row, db_segments (st_db s) !! (id, number) = Some row ∧
    sg_deleting sg = negb (s_deleting row =? 0).
Proof.
  unfold segment. intros Hr. apply bind_Ok_inv in Hr as (row & s1 & [-> _]%quiet_query & Hr).
  destruct (db_segments (st_db s) !! (id, number)) as [row|]; [|done].
  apply bind_Ok_inv in Hr as (u & s2 & _ & [= <- _]). split; [done|]. by exists row.
Qed.

(** Taking a fresh token for the segment. *)
Lemma fresh_segment_working number touched index s r s' :
  working id meta size touched index s →
  (token ← fresh_token;
   mret (mk_Segment number token (Z.min size (g_length (m_geometry meta) - number * size)) false, true)) s = (r, s') →
  working id meta size touched index s' ∧ ∀ sg new, r = Ok (sg, new) → sg_number sg = number.
Proof.
  intros Hw Hrun. split.
  - eapply working_same; [exact Hw|]. eapply (steps_run same_versions); [exact Hrun|].
    apply (steps_bind _); [apply fresh_token_same|intros t; apply (steps_ret _)].
  - intros sg new ->. by apply bind_Ok_inv in Hrun as (t & s3 & _ & [= <- _ _]).
Qed.
Lemma open_segment_working number touched index s r s' :
  working id meta size touched index s → open_segment id meta size number s = (r, s') →
  working id meta size touched index s' ∧ ∀ sg new, r = Ok (sg, new) → sg_number sg = number.
Proof.
  intros Hw Hr. unfold open_segment in Hr. destruct (segment id number s) as [rs s1] eqn:Hs.
  pose proof (steps_run _ _ _ _ _ Hs (segment_quiet id number)) as Hq.
  assert (Hw1 : working id meta size touched index s1)
    by (eapply working_same; [done|by apply quiet_same_versions]).
  destruct rs as [old|e]; [|run_bind_in Hs Hr; by injection Hr as <- <-].
  run_bind_in Hs Hr. destruct old as [[n t len [|]]|].
  - apply segment_inv in Hs as (Hn & row & Hrow & Hdel). cbn in Hn, Hdel. subst n. destruct Hq as (w & _ & ->).
    destruct (remove_segment id number (set_world (λ _, w) s)) as [rr s2] eqn:Hrem.
    assert (Hw2 : working id meta size touched index s2).
    { pose proof Hw1 as [A1 _ _ (r0 & row0 & Hr0 & _ & Hm & _)].
      pose proof (steps_run _ _ _ _ _ Hrem (remove_segment_tidies id number) A1) as Ht.
      eapply working_rows; [exact Hw1|by eapply rtc_tidy_inv|].
      pose proof (remove_deleting_segment id number (set_world (λ _, w) s) r0 row size) as Hsame.
      rewrite Hrem in Hsame. apply Hsame; [done|done|by rewrite Hm|done|].
      destruct (Z.eqb_spec (s_deleting row) 0); [done|done]. }
    destruct rr as [u|e]; [|run_bind_in Hrem Hr; by injection Hr as <- <-].
    run_bind_in Hrem Hr. by eapply fresh_segment_working.
  - apply segment_inv in Hs as (Hn & _). injection Hr as <- <-. split; [done|]. by intros sg new [= <- _].
  - unfold mbind at 1, st_bind at 1, mret at 1, st_ret at 1 in Hr. cbv beta iota in Hr. by eapply fresh_segment_working.
Qed.

Lemma create_segment_same sg : steps same_versions (create_segment meta sg).
Proof. unfold create_segment, private_file. same_walk. Qed.
Lemma segment_file_same sg : steps same_versions (segment_file meta sg).
Proof. apply quiet_steps_versions, segment_file_quiet. Qed.
Lemma write_segment_working number touched sg new blocks index s r s' :
  group_ok meta size number blocks → working id meta size touched index s →
  write_segment meta size sg new blocks index s = (r, s') →
  working id meta size touched index s' ∧
  ∀ index', r = Ok index' → working id meta size (number :: touched) index' s'.
Proof.
  intros Hg Hw Hr. unfold write_segment in Hr.
  assert (Hsame : same_versions s s').
  { eapply (steps_run same_versions); [exact Hr|].
    apply (steps_bind _); [destruct new; [apply create_segment_same|apply segment_file_same]|intros name].
    apply (steps_bind _).
    { apply (steps_attempt _), (steps_bind _); [apply write_slots_same|intros i].
      unfold sync_all. same_walk. }
    intros writing. same_walk. }
  split; [by eapply working_same|]. intros index' ->.
  apply bind_Ok_inv in Hr as (name & s1 & H1 & Hr).
  assert (Hs1 : same_versions s s1).
  { eapply (steps_run same_versions); [exact H1|]. destruct new; [apply create_segment_same|apply segment_file_same]. }
  apply bind_Ok_inv in Hr as (wr & s2 & Hwr%attempt_inv & Hr).
  apply bind_Ok_inv in Hr as (len & s3 & (b & _ & _ & (w & _ & ->))%file_len_inv & Hr).
  apply bind_Ok_inv in Hr as (u & s4 & [= _ <-] & [-> ->]%lift_inv).
  apply bind_Ok_inv in Hwr as (i & s5 & Hslots & Hwr).
  apply bind_Ok_inv in Hwr as (u1 & s6 & [w6 ->]%io_inv & [= <- <-]).
  assert (Hw1 : working id meta size (number :: touched) index s1).
  { eapply working_same in Hs1; [|exact Hw]. destruct Hs1 as [A1 A2 A3 (r0 & row & Hr0 & Hrow & Hm & Hsy & Hget)].
    split; [done..|]. exists r0, row. split_and!; [done..|]. intros b0 Hb0 Hout. apply Hget; [done|].
    intros n Hn. apply Hout. by right. }
  eapply write_slots_working in Hslots; [|exact Hg|left|exact Hw1].
  by eapply working_same.
Qed.

(** ** The loop over the segments *)

Definition groups_ok (groups : list (Z * gmap Z (list Z))) : Prop :=
  Forall (λ g : Z * gmap Z (list Z), group_ok meta size g.1 (entries g.2)) groups.

Lemma write_groups_working groups : ∀ touched index s r s',
  groups_ok groups → working id meta size touched index s →
  write_groups id meta size groups index s = (r, s') →
  Inv s' ∧ ∃ created rest, r = Ok (created, rest) ∧
    ∀ written index', rest = Ok (written, index') →
      ∃ touched', working id meta size touched' index' s' ∧
        ∀ n, n ∈ touched' → n ∈ touched ∨ n ∈ sg_number <$> written.
Proof.
  induction groups as [|[number blocks] groups IH]; intros touched index s r s' Hg Hw Hr; cbn [write_groups] in Hr.
  { injection Hr as <- <-. split; [apply Hw|]. eexists _, _. split; [done|]. intros written index' [= <- <-].
    exists touched. split; [done|]. auto. }
  apply Forall_cons in Hg as [Hg1 Hg]. cbn [fst snd] in Hg1.
  destruct (open_segment id meta size number s) as [ro s1] eqn:Ho.
  run_bind_in (attempt_run _ _ _ _ Ho) Hr. apply (open_segment_working _ touched index) in Ho as [Hw1 Hn]; [|done].
  destruct ro as [[sg new]|e].
  2: { injection Hr as <- <-. split; [apply Hw1|]. eexists _, _. split; [done|]. done. }
  specialize (Hn sg new eq_refl).
  destruct (write_segment meta size sg new (entries blocks) index s1) as [rw s2] eqn:Hwr.
  run_bind_in (attempt_run _ _ _ _ Hwr) Hr.
  apply (write_segment_working number touched) in Hwr as [Hw2 Hw2']; [|done..]. destruct rw as [index2|e].
  2: { injection Hr as <- <-. split; [apply Hw2|]. eexists _, _. split; [done|]. done. }
  specialize (Hw2' index2 eq_refl).
  destruct (write_groups id meta size groups index2 s2) as [rg s3] eqn:Hgs.
  pose proof (IH _ _ _ _ _ Hg Hw2' Hgs) as (HI3 & created & rest & -> & Hrest).
  run_bind_in Hgs Hr. injection Hr as <- <-. split; [done|]. eexists _, _. split; [done|].
  intros written index' Heq. destruct rest as [[wr ix]|e]; [|done]. injection Heq as <- <-.
  destruct (Hrest wr ix eq_refl) as (touched' & Hwk & Hcov). exists touched'. split; [done|].
  intros n Hin. cbn. destruct (Hcov n Hin) as [Ht|Ht]; [|right; by right].
  apply elem_of_cons in Ht as [->|Ht]; [right; rewrite <- Hn; left|by left].
Qed.

(** ** Publishing what was written *)

Lemma upsert_rows touched n' id' written : ∀ m,
  foldl (λ m sg, upsert_segment id touched sg m) m written !! (id', n') =
    m !! (id', n') ∨
  id' = id ∧ n' ∈ sg_number <$> written ∧
    ∃ row, foldl (λ m sg, upsert_segment id touched sg m) m written !! (id', n') = Some row ∧ s_deleting row = 0.
Proof.
  induction written as [|sg written IH]; intros m; cbn [foldl]; [by left|].
  destruct (IH (upsert_segment id touched sg m)) as [Heq|(-> & Hin & Hrow)].
  - rewrite Heq. unfold upsert_segment. destruct (decide ((id', n') = (id, sg_number sg))) as [[= -> ->]|Hne].
    + right. rewrite lookup_insert_eq. split_and!; [done|by left|]. by eexists.
    + left. by rewrite lookup_insert_ne by congruence.
  - right. split_and!; [done|by right|done].
Qed.
Lemma upsert_clears touched n written m :
  n ∈ sg_number <$> written →
  ∃ row, foldl (λ m sg, upsert_segment id touched sg m) m written !! (id, n) = Some row ∧ s_deleting row = 0.
Proof.
  revert m. induction written as [|sg written IH]; intros m Hn; [by apply elem_of_nil in Hn|]. cbn [foldl].
  cbn in Hn. apply elem_of_cons in Hn as [->|Hn]; [|by apply IH].
  destruct (upsert_rows touched (sg_number sg) id written (upsert_segment id touched sg m)) as [Heq|(_ & _ & Hrow)];
    [|done]. rewrite Heq. unfold upsert_segment. rewrite lookup_insert_eq. by eexists.
Qed.
Lemma fold_upsert_db touched written : ∀ d,
  foldl (λ d sg, with_segments (upsert_segment id touched sg) d) d written =
  with_segments (λ m, foldl (λ m sg, upsert_segment id touched sg m) m written) d.
Proof.
  induction written as [|sg written IH]; intros d; cbn [foldl]; [by destruct d|]. by rewrite IH.
Qed.

Lemma publish_written_keeps touched written index s :
  working id meta size touched index s → (∀ n, n ∈ touched → n ∈ sg_number <$> written) →
  Inv (publish_written id written index s).2.
Proof.
  intros Hw Hcov. unfold publish_written.
  apply after_bind; [by apply same_keeps; [apply io_same|apply Hw]|]. intros u s1 [w ->]%io_inv HI1.
  apply after_bind; [by apply same_keeps; [apply segment_tick_same|]|]. intros t s2 Ht HI2.
  apply (steps_run same_versions) in Ht; [|apply segment_tick_same].
  assert (Hw2 : working id meta size touched index s2).
  { eapply working_same; [|exact Ht]. by eapply working_same. }
  clear Hw s Ht HI1. destruct Hw2 as [_ Hwf Hg (r & row & Hr & Hrow & Hm & Hsy & Hget)].
  destruct (inv_resident _ HI2 id r Hr) as (row' & Hrow' & Hok). assert (row' = row) as -> by congruence.
  eapply (publish_inv id index _ (λ m, foldl (λ m sg, upsert_segment id t sg m) m written) s2 r row); try done.
  - destruct Hok. congruence.
  - intros n seg size' b Hseg Hd Hsz Hb. rewrite Hm in Hsz, Hb. assert (size' = size) as -> by congruence.
    destruct (upsert_rows t n id written (db_segments (st_db s2))) as [Heq|(_ & _ & row2 & Hrow2 & Hz)]; [|congruence].
    assert (Hnot : n ∉ sg_number <$> written).
    { intros Hin. apply (upsert_clears t n written (db_segments (st_db s2))) in Hin as (row2 & Hrow2 & Hz). congruence. }
    rewrite Heq in Hseg.
    assert (Hnone : Index_get (r_index r) b = None).
    { eapply (inv_deleting_resident s2 id r row); try done; rewrite Hm; done. }
    destruct (decide (0 ≤ b)) as [Hb0|Hb0].
    + rewrite Hget; [done|done|]. intros n' Hn' Hb'.
      assert (n' = n) as -> by (by eapply segment_blocks_disjoint). by apply Hnot, Hcov.
    + destruct (Index_get index b) eqn:Hx; [|done]. apply Index_get_range in Hx; [lia|done].
  - intros id' n Hne. by destruct (upsert_rows t n id' written (db_segments (st_db s2))) as [Heq|(-> & _)].
  - eapply dbprog_impl; [apply (dbprog_for_each (λ sg d, with_segments (upsert_segment id t sg) d)); intros sg; apply dbprog_exec|].
    cbn. intros d a d' ->. apply fold_upsert_db.
Qed.

(** ** Grouping the blocks *)

Definition grouped_ok (m : gmap Z (gmap Z (list Z))) : Prop :=
  ∀ number blocks b data, m !! number = Some blocks → blocks !! b = Some data →
    0 ≤ b ∧ b ∈ segment_blocks meta size number.
Lemma elem_of_entries {A} (m : gmap Z A) k a : (k, a) ∈ entries m ↔ m !! k = Some a.
Proof. unfold entries. rewrite sort_on_perm. apply elem_of_map_to_list. Qed.
Lemma grouped_groups m : grouped_ok m → groups_ok (entries m).
Proof.
  intros Hm. apply Forall_forall. intros [number blocks] Hin%elem_of_entries.
  apply Forall_forall. intros [b data] Hb%elem_of_entries. by eapply Hm.
Qed.
Lemma group_blocks_ok index blocks : ∀ m m',
  wf_geometry (m_geometry meta) → blocks_ok blocks → grouped_ok m →
  group_blocks size index (m_geometry meta) blocks m = Ok m' → grouped_ok m'.
Proof.
  intros m m' Hwf. revert m. induction blocks as [|[b data] blocks IH]; intros m Hb Hm Hr; cbn [group_blocks] in Hr.
  { by injection Hr as <-. }
  apply Forall_cons in Hb as [Hb0 Hb]. cbn in Hb0. apply result_bind_Ok in Hr as (m1 & H1 & Hr).
  eapply IH; [done| |exact Hr]. unfold group_block in H1. cbn [fst snd] in H1.
  apply result_bind_Ok in H1 as ([first last] & Hrange & H1). apply ensure_bind_Ok in H1 as [_ H1].
  injection H1 as <-. destruct (Index_get index b); [done|].
  destruct (block_in_segment meta size b first last Hlayout Hwf Hsize Hb0 Hrange) as [Hin _].
  intros number bm b' data' Hn Hbm. destruct (decide (number = first / size)) as [->|Hne].
  - rewrite lookup_insert_eq in Hn. injection Hn as <-. destruct (decide (b' = b)) as [->|Hne]; [done|].
    rewrite lookup_insert_ne in Hbm by done. destruct (m !! (first / size)) as [bm|] eqn:Hmn; cbn in Hbm.
    + by eapply Hm.
    + by rewrite lookup_empty in Hbm.
  - rewrite lookup_insert_ne in Hn by done. by eapply Hm.
Qed.

Lemma discard_keeps created e s :
  Inv s → Inv ((for_each (λ name, attempt (remove_managed name) ;; mret tt) created ;; (fail e : M unit)) s).2.
Proof.
  apply (keeps_bind Inv); [|intros ?; apply keeps_fail]. apply same_keeps, for_each_same. intros name.
  same_walk.
Qed.
Lemma write_grouped_keeps grouped s r :
  Inv s → st_versions s !! id = Some r → r_meta r = meta → grouped_ok grouped →
  Inv (write_grouped id meta size grouped s).2.
Proof.
  intros HI Hr Hm Hg. unfold write_grouped.
  apply after_bind; [by apply maintained_keeps; [apply evict_maintains|]|]. intros u s1 He HI1.
  pose proof (steps_run _ _ _ _ _ He (evict_maintains _) HI) as Hmt.
  apply after_bind; [by apply quiet_keeps; [apply load_hit_quiet|]|]. intros r1 s' [-> Hr1]%load_hit_inv _.
  assert (Hm1 : r_meta r1 = meta).
  { rewrite <- Hm. eapply (meta_stable s s1); [done..|by apply rtc_maint_framed|done|done]. }
  assert (Hw1 : working id meta size [] (r_index r1) s1).
  { destruct (inv_resident _ HI1 id r1 Hr1) as (row & Hrow & Hok). pose proof Hok as [Hwf Hsy Hmj Hgeo _ _].
    split; [done|done|congruence|]. exists r1, row. by split_and!. }
  destruct (write_groups id meta size (entries grouped) (r_index r1) s1) as [rg s2] eqn:Hgs.
  pose proof (write_groups_working _ _ _ _ _ _ (grouped_groups _ Hg) Hw1 Hgs) as (HI2 & created & rest & -> & Hrest).
  run_bind Hgs. cbn beta iota. destruct rest as [[written index']|e].
  - destruct (Hrest written index' eq_refl) as (touched' & Hwk & Hcov).
    assert (Inv (publish_written id written index' s2).2) as HIp.
    { apply (publish_written_keeps touched'); [done|]. intros n Hn. by destruct (Hcov n Hn) as [?%elem_of_nil|?]. }
    apply after_bind.
    + destruct (publish_written id written index' s2) as [rp s3] eqn:Hp. cbn [snd] in HIp.
      assert (Hl : (r ← lift (Ok (written, index')); publish_written id r.1 r.2) s2 = (rp, s3)) by exact Hp.
      by rewrite (attempt_run _ _ _ _ Hl).
    + intros [u'|e] s3 _ HI3; [done|]. by apply (discard_keeps created e).
  - apply after_bind; [done|]. intros [u'|e'] s3 Ha HI3; [done|]. by apply (discard_keeps created e').
Qed.
End Segmented.

(** ** [write_segments] and [write] *)

Section Write.
Context {D : Digest} `{!Platform, !PlatformLaws, !Sha256Ok D}.

Lemma pin_each_same id numbers : steps same_versions (pin_each id numbers).
Proof. induction numbers as [|n numbers IH]; cbn [pin_each]; same_walk. Qed.
Lemma with_pins_keeps {A} pins (m : M A) s : Inv (m s).2 → Inv (with_pins pins m s).2.
Proof.
  intros Hm. unfold with_pins. destruct (m s) as [r s1] eqn:Hr. run_bind (attempt_run _ _ _ _ Hr).
  apply (keeps_bind Inv); [by apply same_keeps, drop_window_same|intros ?; apply keeps_lift|done].
Qed.
Lemma write_segments_keeps id blocks s :
  Inv s → blocks_ok blocks → Inv (write_segments id blocks s).2.
Proof.
  intros HI Hb. unfold write_segments.
  apply after_bind; [by apply tidied_keeps; [apply repair_segments_tidies|]|]. intros u s1 _ HI1.
  apply after_bind; [by apply quiet_keeps; [apply load_hit_quiet|]|]. intros r s' [-> Hr]%load_hit_inv _.
  apply after_bind; [done|]. intros size s' [Hsz%ok_or_Ok ->]%lift_inv _.
  apply after_bind; [done|]. intros grouped s' [Hg ->]%lift_inv _. case_bool_decide; [done|].
  destruct (inv_resident _ HI1 id r Hr) as (row & _ & Hok).
  apply group_blocks_ok in Hg; [|by destruct Hok|done|by eapply resident_ok_layout|done|].
  2: { intros number bs b data Hn. by rewrite lookup_empty in Hn. }
  apply after_bind; [by apply same_keeps; [apply pin_each_same|]|]. intros pins s2 Hp HI2.
  apply (steps_run same_versions) in Hp as (_ & _ & Hv); [|apply pin_each_same].
  apply with_pins_keeps. destruct Hok. eapply write_grouped_keeps; try done. by rewrite Hv.
Qed.

Lemma record_size_same id : steps same_versions (record_size id).
Proof. unfold record_size. same_walk. Qed.
Lemma write_keeps id blocks s : Inv s → blocks_ok blocks → Inv (write id blocks s).2.
Proof.
  intros HI Hb. unfold write.
  apply after_bind; [by apply quiet_keeps; [apply check_active_quiet|]|]. intros u s1 _ HI1.
  apply after_bind; [by apply tidied_keeps; [apply load_tidies|]|]. intros r s2 Hr%load_Ok HI2.
  destruct (segment_bytes (m_layout (r_meta r))) eqn:Hsz.
  - apply after_bind; [by apply write_segments_keeps|]. intros u1 s3 _ HI3.
    apply after_bind; [by apply tidied_keeps; [apply load_tidies|]|]. done.
  - assert (HI3 : Inv (write_data id blocks s2).2).
    { eapply write_data_keeps; try done. by apply blocks_layout. }
    apply after_bind.
    { by destruct (write_data id blocks s2) as [rw s3] eqn:Hw; rewrite (attempt_run _ _ _ _ Hw). }
    intros ru s3 _ HI4. apply after_bind; [by apply same_keeps; [apply record_size_same|]|]. intros u2 s4 _ HI5.
    apply after_bind; [done|]. intros u3 s' [_ ->]%lift_inv _.
    apply after_bind; [by apply tidied_keeps; [apply load_tidies|]|]. done.
Qed.
End Write.
