(* ===== verification/Windows.v ===== *)
(** * Resource cache: eviction spares windows

    What [Eviction] leaves open: the segments a reader has a window onto. The deletion of a
    segment unlinks its file and clears its blocks from the index; here: that no step of an
    eviction does this to a segment that is pinned, of a version that is leased, and with it
    what an eviction spares. *)
From S2P Require Import Prelude Text Format Policy Storage Segments Packs Store Materialize.
From S2P Require Import Steps Sample Eviction Reading Objects Durability Segmented.
From stdpp Require Import options.
#[local] Set Default Proof Using "Type*".

Open Scope Z_scope.

(** The names of segments with different tokens are different. *)
Lemma slen_append a b : slen (a +:+ b) = slen a + slen b.
Proof.
  unfold slen. induction a as [|x a IH]; [done|]. change (String x a +:+ b)%string with (String x (a +:+ b)).
  cbn [String.length]. lia.
Qed.
Lemma Segment_name_token sg1 sg2 m1 m2 :
  valid_generation (sg_token sg1) = true → valid_generation (sg_token sg2) = true →
  Segment_name sg1 m1 = Segment_name sg2 m2 → sg_token sg1 = sg_token sg2.
Proof.
  intros H1%valid_generation_slen H2%valid_generation_slen Heq. unfold Segment_name in Heq.
  assert (∀ a b c d e f, (a +:+ b +:+ c +:+ d +:+ e +:+ f = (a +:+ b +:+ c +:+ d) +:+ e +:+ f)%string) as Hassoc
    by (intros; by rewrite !append_assoc).
  rewrite !Hassoc in Heq. pose proof (f_equal slen Heq) as Hlen. rewrite !(slen_append (_ +:+ _ +:+ _ +:+ _)) in Hlen.
  rewrite !(slen_append (sg_token _)), H1, H2 in Hlen.
  apply append_inj in Heq as [_ Heq]; [|lia]. by apply append_inj in Heq as [Heq _]; [|congruence].
Qed.

Section windows.
Context {D : Digest} `{!Platform, !PlatformLaws}.
Variables id n : Z.

(** ** A window *)

(** The file of a segment. *)
Definition window_name (row : SegmentRow) (meta : Metadata) : string :=
  Segment_name (mk_Segment n (s_token row) (s_length row) false) meta.
(** Segment [n] of version [id] is pinned, and the version is leased; the token of the segment
    is valid, and no other row has it. *)
Record window_open (s : Storage) (r : Resident) (row : SegmentRow) : Prop := {
  wo_resident : st_versions s !! id = Some r;
  wo_leased : leased s r = true;
  wo_pinned : pinned s (id, n) = true;
  wo_row : db_segments (st_db s) !! (id, n) = Some row;
  wo_token : valid_generation (s_token row) = true;
  wo_own key' row' : db_segments (st_db s) !! key' = Some row' → s_token row' = s_token row → key' = (id, n)
}.
(** It stays open, with its row, its file and the entries of its blocks. *)
Definition stays_open (s s' : Storage) : Prop := ∀ r row, window_open s r row →
  ∃ r', window_open s' r' row ∧ r_meta r' = r_meta r ∧
    st_files s' !! window_name row (r_meta r) = st_files s !! window_name row (r_meta r) ∧
    ∀ size b, segment_bytes (m_layout (r_meta r)) = Some size → b ∈ segment_blocks (r_meta r) size n →
      Index_get (r_index r') b = Index_get (r_index r) b.
#[local] Instance stays_open_preorder : PreOrder stays_open.
Proof.
  split; [by intros s r row Hw; exists r|].
  intros s1 s2 s3 H12 H23 r row Hw. destruct (H12 _ _ Hw) as (r2 & Hw2 & Hm2 & Hf2 & Hi2).
  destruct (H23 _ _ Hw2) as (r3 & Hw3 & Hm3 & Hf3 & Hi3). rewrite Hm2 in Hf3, Hi3.
  exists r3. split_and!; [done|congruence|congruence|]. intros size b Hs Hb.
  by rewrite (Hi3 size b Hs Hb), (Hi2 size b Hs Hb).
Qed.

(** A step beside the window. *)
Record beside (s s' : Storage) : Prop := {
  bs_version : st_versions s' !! id = st_versions s !! id;
  bs_arcs : st_arcs s' = st_arcs s;
  bs_pins : st_pins s' = st_pins s;
  bs_row : db_segments (st_db s') !! (id, n) = db_segments (st_db s) !! (id, n);
  bs_tokens key row' : db_segments (st_db s') !! key = Some row' →
    ∃ row, db_segments (st_db s) !! key = Some row ∧ s_token row = s_token row';
  bs_files row meta : st_files s' !! window_name row meta = st_files s !! window_name row meta
}.
#[local] Instance beside_preorder : PreOrder beside.
Proof.
  split; [by intros s; split; [done..|intros key row' Hr; exists row'|]|].
  intros s1 s2 s3 [A1 A2 A3 A4 A5 A6] [B1 B2 B3 B4 B5 B6]. split; try congruence.
  intros key row3 (row2 & Hr2 & E2)%B5. apply A5 in Hr2 as (row1 & Hr1 & E1). exists row1. split; congruence.
Qed.
Lemma window_open_beside s s' r row :
  window_open s r row → st_versions s' !! id = Some r → st_arcs s' = st_arcs s → st_pins s' = st_pins s →
  db_segments (st_db s') !! (id, n) = Some row →
  (∀ key row', db_segments (st_db s') !! key = Some row' →
    ∃ row, db_segments (st_db s) !! key = Some row ∧ s_token row = s_token row') →
  window_open s' r row.
Proof.
  intros [W1 W2 W3 W4 W5 W6] Hv Ha Hp Hr Ht. split; [done| | |done|done|].
  - unfold leased. by rewrite Ha.
  - unfold pinned. by rewrite Ha, Hp.
  - intros key' row' (row0 & Hr0 & E)%Ht E'. eapply W6; [exact Hr0|congruence].
Qed.
Lemma beside_open s s' : beside s s' → stays_open s s'.
Proof.
  intros [B1 B2 B3 B4 B5 B6] r row Hw. exists r. split_and!; [|done|done|done].
  pose proof Hw as [W1 W2 W3 W4 W5 W6]. eapply window_open_beside; [done|congruence|done|done|congruence|done].
Qed.
Lemma steps_beside {A} (m : M A) : steps beside m → steps stays_open m.
Proof. apply steps_impl, beside_open. Qed.

(** *** Names *)

Lemma window_name_plain row meta : managed_plain_name (window_name row meta) = false.
Proof. apply Segment_name_plain. Qed.
Lemma window_name_pack row meta : pack_file (window_name row meta) = false.
Proof. apply Segment_name_pack. Qed.
(** *** Steps beside the window *)

Lemma quiet_beside s s' :
  st_versions s' = st_versions s → st_arcs s' = st_arcs s → st_pins s' = st_pins s →
  db_segments (st_db s') = db_segments (st_db s) → st_files s' = st_files s → beside s s'.
Proof. intros Hv Ha Hp Hr Hf. split; rewrite ?Hv, ?Hr, ?Hf; try done. by intros key row'; exists row'. Qed.
Lemma io_beside : steps beside io.
Proof. intros s. destruct (io_cases s) as (w & _ & [Hio|[e Hio]]); rewrite Hio; by apply quiet_beside. Qed.
Lemma query_beside {A} (f : Db → A) : steps beside (query f).
Proof. apply (steps_bind _); [apply io_beside|intros _; apply (steps_gets _)]. Qed.
#[local] Hint Resolve io_beside query_beside : qcm.
Lemma file_bytes_beside name : steps beside (file_bytes name).
Proof. unfold file_bytes. steps_walk. Qed.
#[local] Hint Resolve file_bytes_beside : qcm.
Lemma file_len_beside name : steps beside (file_len name).
Proof. unfold file_len. steps_walk. Qed.
Lemma read_exact_beside name a b : steps beside (read_exact name a b).
Proof. unfold read_exact. steps_walk. Qed.
Lemma regular_file_beside name : steps beside (regular_file name).
Proof. unfold regular_file. steps_walk. Qed.
#[local] Hint Resolve file_len_beside read_exact_beside regular_file_beside : qcm.
Lemma load_hit_beside id' : steps beside (load_hit id').
Proof. unfold load_hit. steps_walk. Qed.
Lemma segment_beside id' n' : steps beside (segment id' n').
Proof. unfold segment. steps_walk. Qed.
Lemma segment_file_beside meta sg : steps beside (segment_file meta sg).
Proof. unfold segment_file. steps_walk. Qed.
Lemma plain_length_beside id' : steps beside (plain_length id').
Proof. unfold plain_length. steps_walk. Qed.
Lemma usage_beside : steps beside usage.
Proof. unfold usage. steps_walk. Qed.
#[local] Hint Resolve load_hit_beside segment_beside segment_file_beside plain_length_beside usage_beside : qcm.

(** Changes of the tables that keep segments and of the files that keep those of segments. *)
Lemma files_beside f s :
  (∀ row meta, f (st_files s) !! window_name row meta = st_files s !! window_name row meta) →
  beside s (set_files f s).
Proof. intros Hf. split; [done..|by intros key row' Hr; exists row'|done]. Qed.
Lemma segments_beside f s :
  f (db_segments (st_db s)) !! (id, n) = db_segments (st_db s) !! (id, n) →
  (∀ key row', f (db_segments (st_db s)) !! key = Some row' →
    ∃ row, db_segments (st_db s) !! key = Some row ∧ s_token row = s_token row') →
  beside s (set_db (with_segments f) s).
Proof. intros. by split. Qed.
Lemma db_beside f s :
  db_segments (f (st_db s)) = db_segments (st_db s) → beside s (set_db f s).
Proof. intros Hf. split; try done; cbn; rewrite Hf; [done|]. by intros key row' Hr; exists row'. Qed.
Lemma versions_beside f s : f (st_versions s) !! id = st_versions s !! id → beside s (set_versions f s).
Proof. intros Hf. split; [done..|by intros key row' Hr; exists row'|done]. Qed.
Lemma exec_beside f : (∀ s, beside s (set_db f s)) → steps beside (exec_db f).
Proof.
  intros Hf. unfold exec_db. apply (steps_bind _); [apply io_beside|intros _]. by apply (steps_modify _).
Qed.
Lemma txn_beside {A} (P : Db → A → Db → Prop) (m : M A) :
  dbprog P m → (∀ s a d, P (st_db s) a d → beside s (set_db (λ _, d) s)) → steps beside (txn m).
Proof.
  intros Hm HP s. destruct (txn_cases _ m s Hm) as (w & _ & [[e He]|(a & d & Ht & Hd)]); rewrite ?He, ?Ht.
  - by apply quiet_beside.
  - etrans; [by eapply HP|by apply quiet_beside].
Qed.
Lemma remove_managed_cases name s : ∃ w g z b,
  (remove_managed name s).2 =
    set_world (λ _, w) (set_garbage (λ _, g) (set_sizes (λ _, z) (if (b : bool) then set_files (delete name) s else s))).
Proof.
  unfold remove_managed, guard_st. destruct (managed_name name); cbn [ensure].
  2:{ exists (st_world s), (st_garbage s), (st_sizes s), false. by destruct s. }
  change ((lift (Ok tt) ≫= ?f) s) with (f tt s). cbv beta.
  destruct (io_cases s) as (w & _ & [Hio|[e Hio]]).
  - destruct (io_cases (set_files (delete name) (set_world (λ _, w) s))) as (w2 & _ & Hio2).
    assert (Hatt : ∀ r, io (set_files (delete name) (set_world (λ _, w) s)) =
        (r, set_world (λ _, w2) (set_files (delete name) (set_world (λ _, w) s))) →
      attempt (io ;; modify (set_files (delete name)) ;; sync_directory) s =
        (Ok r, set_world (λ _, w2) (set_files (delete name) (set_world (λ _, w) s)))).
    { intros r Hr. apply attempt_run. run_bind Hio. unfold mbind, st_bind, modify, sync_directory. exact Hr. }
    destruct Hio2 as [Hio2|[e Hio2]]; apply Hatt in Hio2; run_bind Hio2; cbn;
      [exists w2, (st_garbage s ∖ {[name]}), (delete name (st_sizes s)), true
      |exists w2, ({[name]} ∪ st_garbage s), (st_sizes s), true]; by destruct s.
  - assert (Hatt : attempt (io ;; modify (set_files (delete name)) ;; sync_directory) s =
      (Ok (Err e), set_world (λ _, w) s)) by (apply attempt_run; by run_bind Hio).
    run_bind Hatt. exists w, ({[name]} ∪ st_garbage s), (st_sizes s), false. by destruct s.
Qed.
Lemma remove_managed_beside name :
  managed_plain_name name = true ∨ pack_file name = true → steps beside (remove_managed name).
Proof.
  intros Hn s. destruct (remove_managed_cases name s) as (w & g & z & b & ->).
  transitivity (if b then set_files (delete name) s else s); [|by apply quiet_beside].
  destruct b; [|done]. apply files_beside. intros row meta. apply lookup_delete_ne. intros ->.
  rewrite window_name_plain, window_name_pack in Hn. by destruct Hn.
Qed.
Lemma set_len_beside g k : steps beside (set_len (data_name g) k).
Proof.
  unfold set_len. apply (steps_bind _); [apply io_beside|intros _]. apply (steps_modify _). intros s.
  destruct (st_files s !! data_name g) as [[b|]|]; [|done..]. apply files_beside. intros row meta.
  apply lookup_insert_ne. intros Hn.
  assert (strip_suffix ".seg" (data_name g) = None) as Hd.
  { unfold strip_suffix, data_name. by rewrite srev_append. }
  rewrite Hn in Hd. unfold window_name, Segment_name in Hd. by rewrite <-!append_assoc, strip_suffix_app in Hd.
Qed.
#[local] Hint Resolve set_len_beside : qcm.

(** ** Loading and repairing another version *)

Lemma index_beside id' i : id' ≠ id → steps beside (set_index id' i).
Proof. intros Hne. apply (steps_modify _). intros s. apply versions_beside. by apply lookup_alter_ne. Qed.
Lemma patch_beside (id' : Z) (bytes : list Z) (ranges : list (Z * Z)) (op : M unit) (f : gmap (Z * Z) SegmentRow → gmap (Z * Z) SegmentRow) :
  dbprog (λ d _ d', d' = with_segments f d) op →
  (∀ s : Storage, beside s (set_db (with_segments f) s)) → steps beside (txn (patch id' bytes ranges ;; op)).
Proof.
  intros Hop Hf. eapply txn_beside; [eapply dbprog_bind; [apply dbprog_patch|intros ?; exact Hop]|].
  cbn. intros s a d (_ & d1 & (row & b & _ & _ & ->) & ->).
  destruct (Hf s) as [_ _ _ H4 H5 _]. split; try done.
Qed.
Lemma commit_beside id' : id' ≠ id → steps beside (commit id').
Proof.
  intros Hne s. rewrite commit_eq. destruct (st_versions s !! id') as [r|]; [|reflexivity].
  destruct (Index_dirty (r_index r)) as [ranges sorted]. revert s.
  match goal with |- ∀ s, beside s (?m s).2 => change (steps beside m) end.
  apply (steps_bind _); [by apply index_beside|intros _].
  destruct ranges as [|rg ranges]; [apply (steps_ret _)|].
  apply (steps_bind _); [|intros _; by apply index_beside].
  eapply txn_beside; [apply dbprog_patch|]. intros s a d (row & b & _ & _ & ->). by apply db_beside.
Qed.
Lemma reserve_loop_open required fuel : steps stays_open (reserve_loop fuel required).
Proof.
  induction fuel as [|fuel IH]; cbn [reserve_loop]; intros s;
    unfold mbind at 1, st_bind at 1, get_st at 1; destruct (_ && _); [done|done|done|].
  destruct (head _) as [[id' r']|] eqn:Hh; cbn -[commit]; [|done].
  unfold mbind at 1, st_bind at 1, lift at 1. cbv beta iota. intros r row Hw.
  assert (id' ≠ id) as Hne.
  { intros ->. destruct (filter _ _) as [|x l] eqn:Hf; [done|]. injection Hh as ->.
    assert (Hin : (id, r') ∈ filter (λ kv, negb (leased s kv.2)) (map_to_list (st_versions s)))
      by (rewrite Hf; by left).
    apply list_elem_of_filter in Hin as [Hn Hin]. apply elem_of_map_to_list in Hin.
    destruct Hw as [W1 W2 _ _ _ _]. cbn in Hn. assert (r' = r) as -> by congruence. by rewrite W2 in Hn. }
  revert r row Hw.
  match goal with |- ∀ r row, _ → ∃ r', window_open (?m s).2 _ _ ∧ _ =>
    change (stays_open s (m s).2); enough (steps stays_open m) as Hm by apply Hm end.
  apply (steps_bind _); [by apply steps_beside, commit_beside|intros _].
  apply (steps_bind _); [|intros _; exact IH].
  apply (steps_modify _). intros s'. apply beside_open, versions_beside. by apply lookup_delete_ne.
Qed.
Lemma reserve_index_open required : steps stays_open (reserve_index required).
Proof. unfold reserve_index. apply (steps_bind _); [apply (steps_get _)|intros s; apply reserve_loop_open]. Qed.
#[local] Hint Resolve reserve_index_open : qcm.

Lemma files_open name s :
  (∀ r row, window_open s r row → name ≠ window_name row (r_meta r)) → stays_open s (set_files (delete name) s).
Proof.
  intros Hn r row Hw. exists r. split_and!; [|done| |done].
  - pose proof Hw as [W1 W2 W3 W4 W5 W6].
    eapply window_open_beside; [done..|]. by intros key row' Hr; exists row'.
  - cbn. rewrite lookup_delete_ne; [done|]. by apply Hn.
Qed.
Lemma remove_managed_open name s :
  (∀ r row, window_open s r row → name ≠ window_name row (r_meta r)) → stays_open s (remove_managed name s).2.
Proof.
  intros Hn. destruct (remove_managed_cases name s) as (w & g & z & b & ->).
  transitivity (if b then set_files (delete name) s else s); [|by apply beside_open, quiet_beside].
  destruct b; [by apply files_open|done].
Qed.
Lemma segment_found id' n' s sg s' :
  segment id' n' s = (Ok (Some sg), s') → ∃ row, db_segments (st_db s') !! (id', n') = Some row ∧
    sg_token sg = s_token row ∧ valid_generation (sg_token sg) = true.
Proof.
  unfold segment. intros Hr. apply bind_Ok_inv in Hr as (row & s1 & Hq & Hr).
  apply query_inv in Hq as (Hrow & w & _ & ->). destruct row as [row|]; [|done].
  apply bind_Ok_inv in Hr as (u & s2 & Hg & Hr). apply lift_inv in Hg as [Hg%ensure_Ok ->].
  injection Hr as <- <-. exists row. apply andb_true_iff in Hg as [Hg _]. by split_and!.
Qed.
(** What follows the publication in [remove_segment]. *)
Lemma unlink_segment_open id' n' meta : (id', n') ≠ (id, n) →
  steps stays_open (sg ← attempt (segment id' n');
    match sg with Ok (Some sg) => remove_managed (Segment_name sg meta) | _ => mret tt end ;;
    exec_db (with_segments (delete (id', n')))).
Proof.
  intros Hne s. apply (steps_bind_dep stays_open); [apply steps_beside, (steps_attempt _), segment_beside|].
  intros sg s1 Hsg. apply (steps_bind_dep stays_open).
  - destruct sg as [[sg|]|]; [|reflexivity..]. apply remove_managed_open. intros r row [W1 W2 W3 W4 W5 W6] Heq.
    assert (segment id' n' s = (Ok (Some sg), s1)) as Hs.
    { unfold attempt in Hsg. by destruct (segment id' n' s) as [a s2]; simplify_eq. }
    apply segment_found in Hs as (row' & Hr' & Htok & Hv).
    apply Segment_name_token in Heq; [|done|done]. cbn in Heq.
    apply Hne. eapply W6; [exact Hr'|congruence].
  - intros u s2 _. apply steps_beside, exec_beside. intros s3. apply segments_beside.
    + by apply lookup_delete_ne.
    + intros key row' [_ Hr]%lookup_delete_Some. by exists row'.
Qed.
Lemma mark_beside key s : key ≠ (id, n) → beside s (set_db (with_segments (alter mark_row key)) s).
Proof.
  intros Hne. apply segments_beside; [by apply lookup_alter_ne|]. intros key' row'.
  destruct (decide (key' = key)) as [->|Hk]; [|rewrite lookup_alter_ne by done; by exists row'].
  rewrite lookup_alter_eq. intros (row & Hr & ->)%fmap_Some. by exists row.
Qed.
Lemma publish_beside id' n' index : id' ≠ id →
  steps beside (publish_segment_index id' index (exec_db (with_segments (alter mark_row (id', n'))))).
Proof.
  intros Hne. unfold publish_segment_index. destruct (Index_dirty index) as [ranges sorted].
  apply (steps_bind _).
  - eapply patch_beside; [apply dbprog_exec|]. intros s. apply mark_beside. congruence.
  - intros _. apply (steps_bind _); [apply load_hit_beside|intros _; by apply index_beside].
Qed.

Lemma for_each_open {A} (f : A → M unit) l : (∀ x, steps stays_open (f x)) → steps stays_open (for_each f l).
Proof.
  intros Hf. induction l as [|x l IH]; cbn [for_each]; [apply (steps_ret _)|].
  apply (steps_bind _); [apply Hf|intros _; exact IH].
Qed.

Section other.
Variable load_ : Z → M Resident.
Variable id' : Z.
Hypothesis other : id' ≠ id.
Hypothesis load_open : steps stays_open (load_ id').
Lemma remove_segment_with_open n' : steps stays_open (remove_segment_with load_ id' n').
Proof.
  unfold remove_segment_with. apply (steps_bind _); [done|intros r].
  apply (steps_bind _); [apply (steps_lift _)|intros size].
  apply (steps_bind _); [apply steps_beside, load_hit_beside|intros r2].
  apply (steps_bind _); [by apply steps_beside, publish_beside|intros _].
  apply unlink_segment_open. congruence.
Qed.
Lemma repair_segments_with_open : steps stays_open (repair_segments_with load_ id').
Proof.
  unfold repair_segments_with. apply (steps_bind _); [done|intros r].
  destruct (segment_bytes _); [|apply (steps_ret _)]. apply for_each_open. intros k.
  unfold repair_segment_with. apply (steps_bind _); [apply steps_beside, load_hit_beside|intros r2].
  destruct (existsb _ _); [|apply (steps_ret _)].
  apply (steps_bind _); [apply steps_beside; steps_walk|intros v].
  destruct (is_ok v); [apply (steps_ret _)|]. apply remove_segment_with_open.
Qed.
End other.

Lemma load_open id' : steps stays_open (load id').
Proof.
  intros s r row Hw. pose proof Hw as [W1 _ _ _ _ _].
  destruct (decide (id' = id)) as [->|Hne]; [rewrite (load_resident _ _ _ W1), (load_hit_Ok _ _ _ W1); by exists r|].
  revert r row Hw W1.
  cut (steps stays_open (load id')); [intros Hm r row Hw _; by apply Hm|].
  clear s. intros s. unfold load. change ((get_st ≫= ?f) s) with (f s s). cbv beta.
  destruct (st_versions s !! id') as [r|]; [reflexivity|]. revert s.
  match goal with |- ∀ s, stays_open s (?m s).2 => change (steps stays_open m) end.
  apply (steps_bind _); [by apply steps_beside, query_beside|intros row].
  apply (steps_bind _); [apply (steps_lift _)|intros row'].
  apply (steps_bind _); [apply (steps_lift _)|intros meta].
  apply (steps_bind _); [apply (steps_guard _)|intros _].
  apply (steps_bind _); [apply (steps_guard _)|intros _].
  apply (steps_bind _); [apply (steps_lift _)|intros _].
  assert (∀ r, steps stays_open (insert_resident id' r)) as Hins.
  { intros r. apply (steps_modify _). intros s. apply beside_open, versions_beside. by apply lookup_insert_ne. }
  apply (steps_bind _); [|intros _; apply steps_beside, load_hit_beside].
  destruct (segment_bytes (m_layout meta)) as [size|].
  - apply (steps_bind _); [apply reserve_index_open|intros _].
    apply (steps_bind _); [apply (steps_lift _)|intros index].
    apply (steps_bind _); [apply Hins|intros _].
    apply repair_segments_with_open; [done|]. apply steps_beside, load_hit_beside.
  - unfold load_file. apply (steps_bind _); [apply steps_beside, plain_length_beside|intros pl].
    apply (steps_bind _); [apply steps_beside, regular_file_beside|intros _].
    apply (steps_bind _); [apply steps_beside, io_beside|intros _].
    apply (steps_bind _); [apply steps_beside, file_len_beside|intros size].
    apply (steps_bind _).
    { unfold file_index. destruct (bool_decide _).
      - apply (steps_bind _); [apply (steps_guard _)|intros _].
        apply (steps_bind _); [apply (steps_guard _)|intros _].
        apply (steps_bind _); [apply reserve_index_open|intros _]. apply (steps_lift _).
      - apply (steps_bind _); [apply (steps_guard _)|intros _].
        apply (steps_bind _); [apply steps_beside, read_exact_beside|intros h].
        apply (steps_bind _); [apply (steps_lift _)|intros h'].
        apply (steps_bind _); [apply (steps_guard _)|intros _].
        apply (steps_bind _); [apply reserve_index_open|intros _].
        apply (steps_bind _); [apply (steps_lift _)|intros index].
        apply (steps_bind _); [apply steps_beside, set_len_beside|intros _]. apply (steps_ret _). }
    intros index. apply (steps_bind _); [apply steps_beside, file_len_beside|intros size'].
    apply (steps_bind _); [|intros _; apply Hins].
    apply (steps_modify _). intros s. by apply beside_open, quiet_beside.
Qed.

(** ** Removing another segment *)

Definition spared (s s' : Storage) : Prop := Inv s → Inv s' ∧ stays_open s s'.
#[local] Instance spared_preorder : PreOrder spared.
Proof.
  split; [by intros s HI|]. intros s1 s2 s3 H12 H23 HI. destruct (H12 HI) as [HI2 R12].
  destruct (H23 HI2) as [HI3 R23]. split; [done|by etrans].
Qed.
Lemma steps_spared {A} (m : M A) : steps stays_open m → steps maintained m → steps spared m.
Proof. intros Ho Hm s HI. split; [|apply Ho]. eapply rtc_maint_inv; [by apply Hm|done]. Qed.

(** The blocks of another segment go from the index; those of the window stay. *)
Lemma clear_other_open s r row vrow size n' f :
  Inv s → window_open s r row → db_versions (st_db s) !! id = Some vrow → resident_ok vrow r →
  segment_bytes (m_layout (r_meta r)) = Some size → n' ≠ n → beside s (set_db (with_segments f) s) →
  stays_open s (publish_state id (clear_blocks (r_index r) (segment_blocks (r_meta r) size n')) f s).
Proof.
  intros HI Hw Hv Hok Hsz Hne [B1 B2 B3 B4 B5 B6] r0 row0 Hw0.
  pose proof Hw as [W1 W2 W3 W4 W5 W6]. pose proof (wo_resident _ _ _ Hw0) as W1'.
  assert (r0 = r) as -> by congruence. clear W1'.
  destruct (clear_blocks_ok (v_blocks vrow) (segment_blocks (r_meta r) size n') (r_index r))
    as (Hwf & Hsy & Hg & Hget); [by destruct Hok..|].
  pose proof Hw0 as [V1 V2 V3 V4 V5 V6]. set (index := clear_blocks _ _) in *.
  exists (r_with_index (mk_Index (ix_bytes index) [] (ix_geometry index)) r). split_and!; [|done|done|].
  - split; cbn; [by rewrite lookup_alter_eq, W1|done|done|cbn in B4; congruence|done|].
    intros key' row' (row1 & Hr1 & E)%B5 E'. eapply V6; [exact Hr1|congruence].
  - intros size' b Hs' Hb. assert (size' = size) as -> by congruence. specialize (Hget b).
    rewrite decide_False in Hget.
    + exact Hget.
    + intros Hb'. apply Hne. symmetry. eapply segment_blocks_disjoint; [|done|exact Hb|exact Hb'].
      by destruct Hok.
Qed.
Lemma remove_segment_spared id' n' : (id', n') ≠ (id, n) → steps spared (remove_segment id' n').
Proof.
  intros Hne s HI. pose proof (remove_segment_tidies id' n' s HI) as Ht.
  split; [by eapply rtc_tidy_inv|]. destruct (decide (id' = id)) as [->|Hid].
  2:{ apply (remove_segment_with_open load); [done|apply load_open]. }
  cut (∀ r row, window_open s r row → stays_open s (remove_segment id n' s).2).
  { intros Hr r row Hw. by eapply Hr. }
  intros r row Hw. pose proof (wo_resident _ _ _ Hw) as Hr.
  assert (Hload : load id s = (Ok r, s)) by (rewrite (load_resident _ _ _ Hr); by apply load_hit_Ok).
  unfold remove_segment, remove_segment_with. run_bind Hload.
  destruct (segment_bytes (m_layout (r_meta r))) as [size|] eqn:Hsz; [|done].
  change ((lift (ok_or (Some size) ?e) ≫= ?f) s) with (f size s). cbv beta.
  assert (Hhit : load_hit id s = (Ok r, s)) by by apply load_hit_Ok. run_bind Hhit.
  destruct (inv_resident _ HI id r Hr) as (vrow & Hrow & Hok).
  destruct (clear_blocks_ok (v_blocks vrow) (segment_blocks (r_meta r) size n') (r_index r))
    as (Hwf & Hsy & Hg & Hget); [by destruct Hok..|].
  destruct (publish_cases id r vrow (clear_blocks (r_index r) (segment_blocks (r_meta r) size n'))
    _ (alter mark_row (id, n')) s Hr Hrow Hwf Hsy (dbprog_exec _)) as (w & _ & [[e He]|He]); run_bind He.
  - by apply beside_open, quiet_beside.
  - etrans; [|by apply unlink_segment_open].
    etrans; [eapply (clear_other_open s r row vrow size n'); [done..|congruence|by apply mark_beside]|].
    by apply beside_open, quiet_beside.
Qed.
Lemma for_each_spared {A} (f : A → M unit) l : (∀ x, steps spared (f x)) → steps spared (for_each f l).
Proof.
  intros Hf. induction l as [|x l IH]; cbn [for_each]; [apply (steps_ret _)|].
  apply (steps_bind _); [apply Hf|intros _; exact IH].
Qed.

(** ** Eviction *)

Lemma expire_leases_beside : steps beside expire_leases.
Proof.
  unfold expire_leases. apply (steps_bind _); [apply (steps_get _)|intros s0].
  apply (steps_bind _); [apply (steps_modify _); intros s; destruct (_ <? _); by apply quiet_beside|intros _].
  apply (steps_bind _); [apply (steps_modify _); intros s; destruct (_ && _); by apply quiet_beside|intros _].
  apply (steps_bind _); [apply (steps_get _)|intros s1]. destruct (_ && _); [|apply (steps_ret _)].
  apply exec_beside. intros s. by apply db_beside.
Qed.
Lemma delete_rows_beside id' : id' ≠ id → steps beside (delete_rows id').
Proof.
  intros Hne. unfold delete_rows. eapply (txn_beside (λ d _ d', d' = drop_rows id' d)).
  { eapply dbprog_impl; [do 3 (eapply dbprog_bind; [apply dbprog_exec|intros ?]); apply dbprog_exec|naive_solver]. }
  intros s _ d ->. split; try done; cbn.
  - destruct (db_segments (st_db s) !! (id, n)) as [row|] eqn:Hr.
    + by apply map_lookup_filter_Some.
    + apply map_lookup_filter_None. by left.
  - intros key row' [Hr _]%map_lookup_filter_Some. by exists row'.
Qed.
Lemma outputs_beside g l : valid_generation g = true → l ⊆ outputs →
  steps beside (for_each (λ suffix, remove_managed (file_name g suffix)) l).
Proof.
  intros Hg. induction l as [|x l IH]; intros Hl; cbn [for_each]; [apply (steps_ret _)|].
  apply (steps_bind _); [|intros _; apply IH; intros y Hy; apply Hl; by right].
  apply remove_managed_beside. left. apply file_name_plain; [done|].
  assert (x ∈ outputs) as Hx by (apply Hl; left). unfold outputs in Hx.
  rewrite !elem_of_cons in Hx |- *. tauto.
Qed.
Lemma delete_version_open id' : steps stays_open (delete_version id').
Proof.
  intros s. unfold delete_version. change ((get_st ≫= ?f) s) with (f s s). cbv beta.
  destruct (pin_held s id'); [reflexivity|]. destruct (lease_held s id') eqn:Hl; [reflexivity|].
  intros r row Hw. assert (id' ≠ id) as Hne.
  { intros ->. destruct Hw as [W1 W2 _ _ _ _]. unfold lease_held in Hl. rewrite W1 in Hl. cbn in Hl. congruence. }
  revert r row Hw. clear Hl. revert s.
  match goal with |- ∀ s r row, _ → ∃ r', window_open (?m s).2 _ _ ∧ _ => change (steps stays_open m) end.
  apply (steps_bind _).
  { apply steps_beside. unfold externally_pinned. apply (steps_bind _); [apply expire_leases_beside|].
    intros _. apply query_beside. }
  intros []; [apply (steps_ret _)|].
  apply (steps_bind _); [apply steps_beside, query_beside|intros g].
  apply (steps_bind _); [apply steps_beside, exec_beside; intros s; by apply db_beside|intros _].
  apply (steps_bind _).
  { unfold delete_all_segments. apply (steps_bind _); [apply steps_beside, query_beside|intros l].
    apply for_each_open. intros n'. apply (remove_segment_with_open load); [done|apply load_open]. }
  intros _. apply (steps_bind _).
  { apply (steps_modify _). intros s. apply beside_open, versions_beside. by apply lookup_delete_ne. }
  intros _. apply (steps_bind _); [|intros _; by apply steps_beside, delete_rows_beside].
  destruct g as [g|]; [|apply (steps_ret _)]. destruct (valid_generation g) eqn:Hg; [|apply (steps_ret _)].
  by apply steps_beside, outputs_beside.
Qed.
Lemma delete_pack_beside token : steps beside (delete_pack token).
Proof.
  unfold delete_pack. apply (steps_bind _); [apply (steps_guard _)|intros _].
  apply (steps_bind _).
  { eapply (txn_beside (λ d _ d', d' = condemn_pack token d)).
    - eapply dbprog_impl; [eapply dbprog_bind; [apply dbprog_exec|intros ?; apply dbprog_exec]|naive_solver].
    - intros s _ d ->. by apply quiet_beside. }
  intros _. apply (steps_bind _); [|intros _; apply exec_beside; intros s; by apply db_beside].
  apply remove_managed_beside. right. unfold pack_file, pack_name. by rewrite strip_suffix_app.
Qed.
Lemma evict_packs_beside required : steps beside (evict_packs required).
Proof.
  unfold evict_packs. apply (steps_bind _); [apply query_beside|intros rows].
  induction rows as [|[token row] rows IH]; cbn [evict_packs_loop]; [apply (steps_ret _)|].
  apply (steps_bind _); [apply usage_beside|intros u].
  apply (steps_bind _); [apply (steps_gets _)|intros c]. destruct (_ && _); [apply (steps_ret _)|].
  apply (steps_bind _); [apply (steps_attempt _), delete_pack_beside|intros _; exact IH].
Qed.

(** The check of [evict_segments] is what the window relies on. *)
Lemma evict_segments_loop_spared required l : steps spared (evict_segments_loop required l).
Proof.
  induction l as [|[[id' n'] obsolete] l IH]; cbn [evict_segments_loop]; [apply (steps_ret _)|].
  apply (steps_bind _); [apply steps_spared; [apply steps_beside, usage_beside|apply usage_maintains]|intros u].
  intros s. change ((get_st ≫= ?f) s) with (f s s). cbv beta.
  apply (steps_bind_dep spared); [|intros _ s' _; apply IH].
  destruct (_ && _); [reflexivity|]. destruct (pinned s (id', n')) eqn:Hp; [reflexivity|].
  cut (spared s (attempt (remove_segment id' n') s).2).
  { unfold mbind, st_bind. cbn [fst snd]. by destruct (attempt (remove_segment id' n') s) as [[] ?]. }
  destruct (decide ((id', n') = (id, n))) as [[= -> ->]|Hne].
  2:{ apply (steps_attempt _). by apply remove_segment_spared. }
  intros HI. split.
  - pose proof (steps_attempt _ (remove_segment id n) (remove_segment_tidies id n) s HI) as Ht.
    by eapply rtc_tidy_inv.
  - intros r row [_ _ W3 _ _ _]. congruence.
Qed.
Lemma evict_loop_open required l : ∀ bytes, steps stays_open (evict_loop required bytes l).
Proof.
  induction l as [|[id' obsolete] l IH]; intros bytes; cbn [evict_loop]; [apply (steps_ret _)|].
  apply (steps_bind _); [apply (steps_get _)|intros s]. destruct (_ || _); [apply IH|].
  apply (steps_bind _); [apply (steps_attempt _), delete_version_open|intros _].
  apply (steps_bind _); [apply steps_beside, usage_beside|intros u; apply IH].
Qed.
Lemma evict_spared required : steps spared (evict required).
Proof.
  unfold evict. apply (steps_bind _); [apply steps_spared; [apply steps_beside, usage_beside|apply usage_maintains]|intros u].
  apply (steps_bind _); [apply (steps_get _)|intros s].
  apply (steps_bind _); [apply steps_spared; [apply steps_beside, query_beside|apply query_maintains]|intros ids].
  apply (steps_bind _); [apply steps_spared; [apply steps_beside, evict_packs_beside|apply evict_packs_maintains]|intros _].
  apply (steps_bind _).
  { unfold evict_segments. apply (steps_bind _); [|intros l; apply evict_segments_loop_spared].
    apply steps_spared; [apply steps_beside, query_beside|apply query_maintains]. }
  intros _. apply (steps_bind _); [apply steps_spared; [apply steps_beside, usage_beside|apply usage_maintains]|intros u'].
  apply (steps_bind _); [apply steps_spared; [apply evict_loop_open|apply evict_loop_maintains]|intros b].
  apply (steps_bind _); [apply (steps_gets _)|intros c; apply (steps_guard _)].
Qed.
End windows.

Section eviction.
Context {D : Digest} `{!Platform, !PlatformLaws}.

(** C34. Eviction leaves alone what somebody holds, whatever fails and wherever the process
    dies. A version with a live handle or window keeps its row (but for its index), its
    published descriptor and, in a table whose generations are valid and distinct, its block
    file, its published file and the one being built. One with a live handle stays in memory
    with the same file, metadata and lease. And of such a version a segment that is pinned
    keeps its row, its file, and its blocks in the index, if its token is valid and no other
    segment's; the segments of the version that are not pinned may go. *)
Theorem evict_spares_held required s r s' id :
  Inv s → evict required s = (r, s') → held s id →
  held s' id ∧
  strip <$> db_versions (st_db s') !! id = strip <$> db_versions (st_db s) !! id ∧
  db_complete (st_db s') !! id = db_complete (st_db s) !! id ∧
  (∀ v, st_versions s !! id = Some v → leased s v = true →
    ∃ v', st_versions s' !! id = Some v' ∧ r_lease v' = r_lease v ∧ r_file v' = r_file v ∧
      r_plain v' = r_plain v ∧ r_meta v' = r_meta v ∧ index_within (r_index v) (r_index v')) ∧
  (generations_ok (st_db s) → ∀ row suffix, db_versions (st_db s) !! id = Some row →
    suffix ∈ ["data"; "ok"; "ok.tmp"]%string →
    is_Some (st_files s !! file_name (v_generation row) suffix) →
    is_Some (st_files s' !! file_name (v_generation row) suffix)) ∧
  (∀ n v row, window_open id n s v row →
    ∃ v', window_open id n s' v' row ∧ r_meta v' = r_meta v ∧
      st_files s' !! window_name n row (r_meta v) = st_files s !! window_name n row (r_meta v) ∧
      ∀ size b, segment_bytes (m_layout (r_meta v)) = Some size → b ∈ segment_blocks (r_meta v) size n →
        Index_get (r_index v') b = Index_get (r_index v) b).
Proof.
  intros HI Hr Hh. pose proof (evict_maintains required s HI) as Hf. rewrite Hr in Hf.
  apply rtc_maint_framed in Hf. cbn in Hf. split_and!.
  - by apply (frame_held s s'); [destruct Hf..|].
  - by apply (mf_held_rows _ _ Hf).
  - by apply (mf_held_rows _ _ Hf).
  - intros v. by apply (mf_leased _ _ Hf).
  - intros Hg row suffix Hrow. by apply (mf_files _ _ Hf Hg id row suffix).
  - intros n. destruct (evict_spared id n required s HI) as [_ Ho]. by rewrite Hr in Ho.
Qed.
End eviction.

(** ** Examples *)

#[local] Existing Instance toy_digest.

(** A version of segments, with the one block of its one segment written, a handle and a
    window; and no room at all. *)
Definition window_row : SegmentRow := mk_SegmentRow 1 sample_generation 3 1000 0.
Definition window_version : VersionRow :=
  mk_VersionRow "song" 7 0 (m_generation sample_segments) "s" (ix_bytes sample_index) 1000 0.
Definition window_resident : Resident := mk_Resident sample_segments sample_index None (Some 0%nat) false.
Definition window_file : string := window_name 0 window_row sample_segments.
Definition no_room (pins : gmap (Z * Z) nat) : Storage :=
  mk_Storage (mk_Db {[1 := window_version]} ∅ ∅ (Some 0) {[(1, 0) := window_row]} ∅ ∅)
    {[window_file := Regular [7; 8; 9]; data_name (m_generation sample_segments) := Regular []]}
    {[1 := window_resident]} pins ∅ ∅ None 0 (mk_Clocks 0 1000 false None)
    (mk_Arcs {[0%nat := 1%nat; 1%nat := 1%nat]} ∅ 2) (calm 1000) 0 true false.
Lemma no_room_inv pins : Inv (no_room pins).
Proof.
  split.
  - intros id r Hr. cbn in Hr. apply lookup_singleton_Some in Hr as [<- <-].
    exists window_version. split; [done|]. split; [| |done..].
    + split; [apply witness_small_wf|]. by vm_compute.
    + apply synced_clean.
  - intros id row meta _ _ _ _ n seg size b Hseg. cbn in Hseg.
    apply lookup_singleton_Some in Hseg as [_ <-]. by intros [].
Qed.
Lemma no_room_window : window_open 1 0 (no_room {[(1, 0) := 1%nat]}) window_resident window_row.
Proof.
  split; [reflexivity..|]. intros key' row' Hr _. cbn in Hr. by apply lookup_singleton_Some in Hr as [<- _].
Qed.

(** The version that is held stays with its file, and its segment; without the window the
    segment goes. *)
Lemma evict_spares_held_witness :
  let s := no_room {[(1, 0) := 1%nat]} in
  let s' := (evict 0 s).2 in
  held s' 1 ∧ is_Some (st_files s' !! data_name (m_generation sample_segments)) ∧
  st_files s' !! window_file = Some (Regular [7; 8; 9]) ∧
  st_files (evict 0 (no_room ∅)).2 !! window_file = None.
Proof.
  intros s s'.
  destruct (evict_spares_held 0 s (evict 0 s).1 s' 1) as (Hh & _ & _ & _ & Hf & Hw).
  - apply no_room_inv.
  - unfold s'. by destruct (evict 0 s).
  - right. reflexivity.
  - split; [exact Hh|]. split; [|split].
    + refine (Hf _ window_version "data"%string _ _ _).
      * split; [intros id row Hrow|intros id1 id2 r1 r2 H1 H2 _].
        2: cbn in H1, H2; apply lookup_singleton_Some in H1 as [<- _]; by apply lookup_singleton_Some in H2 as [<- _].
        cbn in Hrow. by apply lookup_singleton_Some in Hrow as [_ <-].
      * reflexivity.
      * left.
      * eexists. reflexivity.
    + destruct (Hw 0 window_resident window_row no_room_window) as (v' & _ & _ & Hfile & _).
      exact Hfile.
    + vm_compute. reflexivity.
Defined.
