(* ===== verification/Reachable.v ===== *)
(** * Resource cache: every state a process can reach

    The calls of the [Store] handle, the jobs of the file worker and the jobs of the object
    cache all run on the storage thread, one after the other. A [request] is one of them; a
    [step] serves one, lets the outside world change (clocks, failures to come, files that
    anything writes), drops a handle, or kills the process and opens the store again over what
    is on the disk. *)
From S2P Require Import Prelude Text Format Policy Storage Segments Packs Store Materialize.
From S2P Require Import Steps Sample Eviction Reading Objects Durability Segmented.
From stdpp Require Import options.
#[local] Set Default Proof Using "Type*".

Open Scope Z_scope.

Section Reachable.
Context {D : Digest} `{!Platform}.

(** ** Requests *)

Inductive request :=
| Lookup (key : string)
| Create (meta : Metadata)
| Read (v : Version) (block : Z)
| Write (v : Version) (blocks : list (Z * list Z))
| Complete (v : Version)
| Covered (v : Version) (start stop : Z)
| Update (v : Version) (meta : Metadata)
| MissingRange (v : Version) (start stop : Z)
| ReadUsage
| Retire (v : Version)
| AskWindow (v : Version) (start stop : Z)
| AcquireFile (v : Version) (client : string)
| RenewFile (token client : string)
| ReleaseFile (token client : string)
| Objects (r : object_request)
| Shutdown
| NextBuild
| ReadBuild (id block : Z)
| CopiedBlock (id bytes : Z)
| PublishFile (v : Version) (digest : list Z)
| BuildFailed (id : Z)
| Rescan
| DropHandle (v : Version)
| DropWindow (w : Window).

Definition run (r : request) : M unit :=
  match r with
  | Lookup key => lookup key ;; mret tt
  | Create meta => create meta ;; mret tt
  | Read v block => read (ver_id v) block ;; mret tt
  | Write v blocks => write (ver_id v) blocks ;; mret tt
  | Complete v => complete v ;; mret tt
  | Covered v start stop => covered v start stop ;; mret tt
  | Update v meta => update (ver_id v) meta
  | MissingRange v start stop => missing_range v start stop ;; mret tt
  | ReadUsage => usage ;; mret tt
  | Retire v => retire v
  | AskWindow v start stop => window v start stop ;; mret tt
  | AcquireFile v client => acquire_file (ver_id v) client ;; mret tt
  | RenewFile token client => renew_file token client ;; mret tt
  | ReleaseFile token client => release_file token client
  | Objects r => serve_object r
  | Shutdown => shutdown
  | NextBuild => next_build ;; mret tt
  | ReadBuild id block => read_build id block ;; mret tt
  | CopiedBlock id bytes => copied_block id bytes
  | PublishFile v digest => publish_file v digest
  | BuildFailed id => finish_failed id
  | Rescan => modify (set_cursor 0)
  | DropHandle v => drop_version v
  | DropWindow w => drop_window w
  end.
(** The loop of the storage thread ends with the shutdown. *)
Definition serve (r : request) (s : Storage) : Storage :=
  if st_stopped s then s else (run r s).2.

(** What the types of the arguments say, and that an update keeps the shape of the resource. *)
Definition request_ok (s : Storage) (r : request) : Prop :=
  match r with
  | Create meta => is_u64 (g_length (m_geometry meta))
  | Write _ blocks => blocks_ok blocks
  | Update v meta => update_ok s (ver_id v) meta
  | _ => True
  end.

(** ** Steps *)

Inductive step : Storage → Storage → Prop :=
| Serve r s : request_ok s r → step s (serve r s)
| Outside files world s : step s (set_files (λ _, files) (set_world (λ _, world) s))
| Restart world capacity enabled s :
    step s (open (initial (st_db s) (st_files s) world capacity enabled)).2.

Definition empty_db : Db := mk_Db ∅ ∅ ∅ None ∅ ∅ ∅.
Inductive reachable : Storage → Prop :=
| First files world capacity enabled :
    reachable (open (initial empty_db files world capacity enabled)).2
| Next s s' : reachable s → step s s' → reachable s'.

Context `{!PlatformLaws, !Sha256Ok D}.

(** ** The requests keep the invariant *)

#[local] Hint Resolve exec_packs_same exec_objects_same : same.
Lemma insert_object_txn_same meta token offset clock digest :
  steps same_versions (txn (insert_object meta token offset clock digest)).
Proof.
  eapply txn_same; [unfold insert_object; eapply dbprog_bind; [apply dbprog_lift|intros text]|].
  { eapply dbprog_bind; [apply dbprog_exec|intros u]. apply dbprog_exec. }
  by intros d u d' (text & d1 & [_ ->] & u1 & d2 & -> & ->).
Qed.
#[local] Hint Resolve insert_object_txn_same : same.
Lemma put_object_keeps meta bytes : keeps Inv (put_object meta bytes).
Proof.
  unfold put_object, create_pack, append_object, private_file, sync_all, sync_directory. keeps_walk.
Qed.
Lemma object_call_keeps r : keeps Inv (serve_object r).
Proof.
  destruct r; cbn [serve_object]; unfold put_object_valid, remove_object, update_object.
  - pose proof put_object_keeps. keeps_walk.
  - apply keeps_bind; [apply same_keeps; eapply steps_impl, object_safe; by intros ? ? []|intros _; apply keeps_ret].
  - keeps_walk.
  - keeps_walk.
  - apply maintained_keeps, evict_maintains.
  - apply invalidate_inv.
Qed.
Lemma usage_quiet : steps quiet usage.
Proof. unfold usage. steps_walk. Qed.
Lemma then_unit_keeps {A} (m : M A) s : Inv (m s).2 → Inv ((m ;; mret tt) s).2.
Proof. intros Hm. by apply after_bind. Qed.
Lemma run_keeps r s : Inv s → request_ok s r → Inv (run r s).2.
Proof.
  intros HI Hok. destruct r; cbn [run request_ok] in *; try apply then_unit_keeps; revert HI.
  - apply lookup_keeps.
  - by apply create_keeps.
  - apply read_keeps.
  - intros HI. by apply write_keeps.
  - apply complete_keeps.
  - apply covered_keeps.
  - intros HI. by apply update_keeps.
  - apply missing_range_keeps.
  - apply quiet_keeps, usage_quiet.
  - apply retire_keeps.
  - apply window_keeps.
  - apply acquire_file_keeps.
  - apply renew_file_keeps.
  - apply release_file_keeps.
  - apply object_call_keeps.
  - apply shutdown_keeps.
  - apply next_build_keeps.
  - apply read_build_keeps.
  - apply copied_block_keeps.
  - apply publish_file_keeps.
  - apply finish_failed_keeps.
  - intros HI. by eapply inv_same.
  - apply same_keeps, drop_version_same.
  - apply same_keeps, drop_window_same.
Qed.

Lemma initial_keeps s files world capacity enabled :
  Inv s → Inv (open (initial (st_db s) files world capacity enabled)).2.
Proof. intros HI. by apply open_keeps, initial_inv. Qed.
Lemma step_inv s s' : step s s' → Inv s → Inv s'.
Proof.
  intros [r s0 Hok|files world s0|world capacity enabled s0] HI.
  - unfold serve. destruct (st_stopped s0); [done|by apply run_keeps].
  - by eapply inv_same.
  - by apply initial_keeps.
Qed.
Lemma reachable_inv s : reachable s → Inv s.
Proof.
  induction 1 as [files world capacity enabled|s s' _ IH Hs]; [|by eapply step_inv].
  apply open_keeps. split; intros *; cbn; by rewrite lookup_empty.
Qed.

(** C2. Whatever the requests and their order, the failures and the restarts: in every reachable
    state each version in memory has its row, with the same metadata; the index column holds the
    same bytes as the index in memory outside the ranges not yet committed, so a committed index
    is exactly what a restart finds; and no entry points into a segment whose deletion has
    begun, neither in memory nor on the disk. *)
Theorem index_durable s id r :
  reachable s → st_versions s !! id = Some r →
  ∃ row, db_versions (st_db s) !! id = Some row ∧
    meta_from_json (v_meta row) = Some (r_meta r) ∧
    ix_geometry (r_index r) = m_geometry (r_meta r) ∧ wf_index (r_index r) ∧
    synced (v_blocks row) (r_index r) ∧
    (Index_is_committed (r_index r) = true → v_blocks row = ix_bytes (r_index r)) ∧
    (∀ n seg size b, db_segments (st_db s) !! (id, n) = Some seg → s_deleting seg ≠ 0 →
      segment_bytes (m_layout (r_meta r)) = Some size → b ∈ segment_blocks (r_meta r) size n →
      Index_get (stored_index row (r_meta r)) b = None ∧ Index_get (r_index r) b = None).
Proof.
  intros Hs Hr. pose proof (reachable_inv s Hs) as HI.
  destruct (inv_resident _ HI id r Hr) as (row & Hrow & Hok). exists row. pose proof Hok as [Hwf Hsy Hm Hg Hlay _].
  split_and!; [done..| |].
  - intros Hc. destruct (r_index r) as [bytes dirty g]. unfold Index_is_committed in Hc. cbn in Hc.
    destruct dirty; [|done]. by apply synced_clean_inv in Hsy.
  - intros n seg size b Hseg Hd Hsz Hb. split.
    + eapply (inv_deleting _ HI id row (r_meta r)); try done. by rewrite (synced_zlen _ _ Hsy), (wfi_length _ Hwf), Hg.
    + by eapply inv_deleting_resident.
Qed.
End Reachable.

(** ** A process that creates, writes, dies and finds its block again *)

Section Examples.
#[local] Existing Instance toy_digest.

Definition sample_handle : Version := mk_Version 1 sample_blocks 0.
Definition sample_written : Storage :=
  serve (Write sample_handle [(0, [7; 8; 9])])
    (serve (Create sample_blocks) (open (initial empty_db ∅ (calm 1000) None true)).2).
Definition sample_restarted : Storage :=
  serve (Read sample_handle 0)
    (open (initial (st_db sample_written) (st_files sample_written) (calm 2000) None true)).2.
Lemma sample_reachable : reachable sample_restarted.
Proof.
  apply Next with (s := (open (initial (st_db sample_written) (st_files sample_written) (calm 2000) None true)).2);
    [|by apply Serve].
  apply Next with (s := sample_written); [|apply Restart].
  apply Next with (s := serve (Create sample_blocks) (open (initial empty_db ∅ (calm 1000) None true)).2);
    [|apply Serve; by repeat constructor].
  apply Next with (s := (open (initial empty_db ∅ (calm 1000) None true)).2); [apply First|].
  by apply Serve.
Qed.
Lemma index_durable_witness :
  ∃ r, st_versions sample_restarted !! 1 = Some r ∧ Index_get (r_index r) 0 = Some (0, [7; 8; 9] ++ replicate 29 0) ∧
    ∃ row, db_versions (st_db sample_restarted) !! 1 = Some row ∧ v_blocks row = ix_bytes (r_index r).
Proof.
  assert (∃ r, st_versions sample_restarted !! 1 = Some r ∧ Index_is_committed (r_index r) = true ∧
    Index_get (r_index r) 0 = Some (0, [7; 8; 9] ++ replicate 29 0)) as (r & Hr & Hc & Hg).
  { eexists. split; [vm_compute; reflexivity|]. split; vm_compute; reflexivity. }
  exists r. split; [exact Hr|]. split; [exact Hg|].
  destruct (index_durable sample_restarted 1 r sample_reachable Hr) as (row & Hrow & _ & _ & _ & _ & Hb & _).
  exists row. split; [exact Hrow|by apply Hb].
Defined.
End Examples.
