(* ===== verification/Caching.v ===== *)
(** * Resource cache: what was written is read

    The way of a block through [write] and [read]: it is appended to the data file beyond
    everything there, entered in the index with its digest, and committed; a read finds the
    entry, takes the bytes of the slot and accepts them. *)
From S2P Require Import Prelude Text Format Policy Storage Segments Packs Store Materialize.
From S2P Require Import Steps Sample Eviction Reading Objects Durability Segmented.
From stdpp Require Import options.
#[local] Set Default Proof Using "Type*".

Open Scope Z_scope.

Lemma slice_app_l {A} (l k : list A) a b d : slice l a b = Some d → slice (l ++ k) a b = Some d.
Proof.
  intros Hs. pose proof (slice_Some _ _ _ _ Hs) as (Ha & Hb & Hd). rewrite slice_is_Some in Hs by done.
  injection Hs as <-. rewrite slice_is_Some; [|done|unfold zlen in *; rewrite length_app; lia].
  f_equal. unfold zlen in *. rewrite drop_app_le by lia. rewrite take_app_le; [done|rewrite length_drop; lia].
Qed.
Lemma slice_app_mid {A} (l d k : list A) : slice (l ++ d ++ k) (zlen l) (zlen l + zlen d) = Some d.
Proof.
  unfold zlen. rewrite slice_is_Some; [|lia|unfold zlen; rewrite !length_app; lia]. f_equal.
  replace (Z.to_nat (Z.of_nat (length l) + Z.of_nat (length d) - Z.of_nat (length l))) with (length d) by lia.
  rewrite Nat2Z.id, drop_app_length, take_app_length. done.
Qed.

Section Caching.
Context {D : Digest} `{!Platform, !PlatformLaws, !Sha256Ok D}.

(** ** Appending *)

Lemma write_all_beyond name off d s u s' b :
  write_all name off d s = (Ok u, s') → st_files s !! name = Some (Regular b) → zlen b ≤ off →
  ∃ z, st_files s' !! name = Some (Regular (b ++ z ++ d)) ∧ zlen (b ++ z) = off.
Proof.
  unfold write_all. intros Hr Hb Hoff. apply bind_Ok_inv in Hr as (? & s1 & [w ->]%io_with_inv & [= _ <-]).
  exists (replicate (Z.to_nat (off - zlen b)) 0). split; [|unfold zlen in *; rewrite length_app, length_replicate; lia].
  unfold put_bytes. cbn. rewrite Hb. cbn. rewrite lookup_insert_eq. do 2 f_equal. unfold overwrite.
  set (z := replicate _ 0). assert (Hz : length (b ++ z) = Z.to_nat off).
  { unfold z, zlen in *. rewrite length_app, length_replicate. lia. }
  rewrite firstn_all2 by lia. rewrite (drop_ge (b ++ z)) by lia. by rewrite app_nil_r, <- app_assoc.
Qed.

(** A block in its slot of the data file. *)
Definition in_slot (g : Geometry) (bytes : list Z) (a : Z * Z * list Z) : Prop :=
  let '(block, slot, data) := a in
  0 ≤ block ∧ 0 ≤ slot < u32_max ∧
  slice bytes (HEADER_LEN + slot * g_block g) (HEADER_LEN + slot * g_block g + zlen data) = Some data ∧
  ∃ first last, Geometry_range g block = Ok (first, last) ∧ zlen data = last - first.
Lemma in_slot_app g bytes z a : in_slot g bytes a → in_slot g (bytes ++ z) a.
Proof. destruct a as [[block slot] data]. intros (? & ? & Hd & ?). split_and!; [lia..|by apply slice_app_l|done]. Qed.

(** The zeroes after a short last block. *)
Definition pad_slot (f : string) (g : Geometry) (off : Z) (data : list Z) : M unit :=
  if zlen data <? g_block g
  then write_all f (off + zlen data) (replicate (Z.to_nat (g_block g - zlen data)) 0) else mret tt.

(** A step of the loop: the file gets longer, and the block is in its slot. *)
Lemma append_step g block data slot f s s1 s2 u1 u2 b first last :
  wf_geometry g → 0 ≤ block → is_u64 (zlen b) → Geometry_range g block = Ok (first, last) → zlen data = last - first →
  slot = div_ceil (wsub (zlen b) HEADER_LEN) (g_block g) → slot < u32_max →
  st_files s !! f = Some (Regular b) →
  write_all f (HEADER_LEN + slot * g_block g) data s = (Ok u1, s1) →
  pad_slot f g (HEADER_LEN + slot * g_block g) data s1 = (Ok u2, s2) →
  ∃ z, st_files s2 !! f = Some (Regular (b ++ z)) ∧ in_slot g (b ++ z) (block, slot, data).
Proof.
  intros Hg Hb0 Hlb Hrange Hlen Hslot Hlim Hf Hw1 Hw2. pose proof (wf_geometry_bounds _ Hg) as Hgb.
  assert (Hs0 : 0 ≤ slot) by (subst slot; apply div_ceil_nonneg; [lia|]; unfold wsub; apply wrap64_range).
  assert (Hoff : zlen b ≤ HEADER_LEN + slot * g_block g).
  { pose proof (div_ceil_bounds (wsub (zlen b) HEADER_LEN) (g_block g) ltac:(lia)) as Hd. rewrite <- Hslot in Hd.
    unfold is_u64, u64_max, u32_max, wsub, wrap64, HEADER_LEN in *. destruct (Z.leb_spec 64 (zlen b)).
    - rewrite Z.mod_small in Hd by lia. lia.
    - rewrite <- (Z.mod_unique_pos (zlen b - 64) 18446744073709551616 (-1) (zlen b - 64 + 18446744073709551616)) in Hd by lia.
      assert (slot * g_block g ≤ 4294967295 * 1048576) by (apply Z.mul_le_mono_nonneg; lia). lia. }
  destruct (write_all_beyond _ _ _ _ _ _ _ Hw1 Hf Hoff) as (z & Hf1 & Hz).
  assert (Hin : ∀ k, in_slot g (b ++ z ++ data ++ k) (block, slot, data)).
  { intros k. split_and!; [done|lia|done| |by exists first, last].
    rewrite <- Hz. rewrite (app_assoc b z). apply slice_app_mid. }
  unfold pad_slot in Hw2. destruct (zlen data <? g_block g).
  - destruct (write_all_beyond _ _ _ _ _ _ _ Hw2 Hf1) as (z2 & Hf2 & _).
    { rewrite <- Hz. unfold zlen. rewrite !length_app. lia. }
    eexists. split; [rewrite Hf2, <- !app_assoc; reflexivity|]. apply Hin.
  - injection Hw2 as _ <-. exists (z ++ data). split; [done|]. specialize (Hin []). by rewrite app_nil_r in Hin.
Qed.

(** Whatever happens the file does not get shorter. *)
Definition grows (f : string) (s s' : Storage) : Prop :=
  ∀ b, st_files s !! f = Some (Regular b) → ∃ b', st_files s' !! f = Some (Regular b') ∧ zlen b ≤ zlen b'.
#[local] Instance grows_preorder f : PreOrder (grows f).
Proof.
  split; [intros s b Hb; exists b; split; [done|lia]|].
  intros s1 s2 s3 H12 H23 b Hb. destruct (H12 b Hb) as (b2 & Hb2 & ?). destruct (H23 b2 Hb2) as (b3 & Hb3 & ?).
  exists b3. split; [done|lia].
Qed.
Lemma quiet_grows f {A} (m : M A) : steps quiet m → steps (grows f) m.
Proof. apply steps_impl. intros s s' (w & _ & ->) b Hb. exists b. split; [done|lia]. Qed.
Lemma put_bytes_grows f off d s : grows f s (put_bytes f off d s).
Proof.
  intros b Hb. unfold put_bytes. rewrite Hb. cbn. rewrite lookup_insert_eq. eexists. split; [done|].
  unfold overwrite, zlen. rewrite !length_app, length_take, length_drop, length_app. lia.
Qed.
Lemma world_grows f g s : grows f s (set_world g s).
Proof. intros b Hb. exists b. split; [done|lia]. Qed.
Lemma write_all_grows f off d : steps (grows f) (write_all f off d).
Proof.
  unfold write_all. apply (steps_bind _); [|intros _; apply (steps_modify _), put_bytes_grows].
  intros s. unfold io_with. destruct (w_dead _); [done|].
  destruct (w_outcomes (st_world s)) as [|[|n|n] os]; cbn; [done|apply world_grows|..].
  - etrans; [apply world_grows|apply put_bytes_grows].
  - etrans; [apply put_bytes_grows|apply world_grows].
Qed.
Lemma pad_slot_grows f g off data : steps (grows f) (pad_slot f g off data).
Proof. unfold pad_slot. destruct (_ <? _); [apply write_all_grows|apply (steps_ret _)]. Qed.
Lemma pad_slot_same f g off data : steps same_versions (pad_slot f g off data).
Proof. unfold pad_slot. destruct (_ <? _); [apply write_all_same|apply (steps_ret _)]. Qed.

Lemma append_blocks_cons id block data blocks s l s' r :
  Inv s → st_versions s !! id = Some r → append_blocks id ((block, data) :: blocks) s = (Ok l, s') →
  match Index_get (r_index r) block with
  | Some _ => append_blocks id blocks s = (Ok l, s')
  | None => ∃ first last f b slot w s1 s2 u1 u2 rest,
      let g := m_geometry (r_meta r) in let off := HEADER_LEN + slot * g_block g in
      Geometry_range g block = Ok (first, last) ∧ zlen data = last - first ∧ r_file r = Some f ∧
      st_files s !! f = Some (Regular b) ∧ slot = div_ceil (wsub (zlen b) HEADER_LEN) (g_block g) ∧
      slot < u32_max ∧ write_all f off data (set_world (λ _, w) s) = (Ok u1, s1) ∧
      pad_slot f g off data s1 = (Ok u2, s2) ∧ same_versions s s2 ∧
      append_blocks id blocks s2 = (Ok rest, s') ∧ l = (block, slot, data) :: rest
  end.
Proof.
  intros HI Hr Ha. cbn [append_blocks] in Ha.
  apply bind_Ok_inv in Ha as (r1 & s1 & [-> Hr1]%load_hit_inv & Ha).
  assert (r1 = r) as -> by congruence. destruct (Index_get (r_index r) block); [done|].
  destruct (inv_resident _ HI id r Hr) as (row & _ & Hok).
  pose proof (resident_ok_layout _ _ Hok) as Hg. pose proof (wf_geometry_bounds _ Hg) as Hgb.
  apply bind_Ok_inv in Ha as ([first last] & s1 & [Hrange ->]%lift_inv & Ha).
  apply bind_Ok_inv in Ha as (u & s1 & [Hlen%Z.eqb_eq ->]%guard_inv & Ha).
  apply bind_Ok_inv in Ha as (f & s1 & [Hf%ok_or_Ok ->]%lift_inv & Ha).
  apply bind_Ok_inv in Ha as (size & s1 & (b & Hb & -> & (w & _ & ->))%file_len_inv & Ha).
  apply bind_Ok_inv in Ha as (u1 & s1 & [Hslot%Z.ltb_lt ->]%guard_inv & Ha).
  set (slot := div_ceil _ _) in *.
  assert (0 ≤ slot) by (apply div_ceil_nonneg; [lia|]; unfold wsub; apply wrap64_range).
  rewrite (offset_eq (m_geometry (r_meta r)) slot Hg) in Ha by lia.
  apply bind_Ok_inv in Ha as (off & s1 & [[= <-] ->]%lift_inv & Ha).
  apply bind_Ok_inv in Ha as (u2 & s1 & Hw1 & Ha). apply bind_Ok_inv in Ha as (u3 & s2 & Hw2 & Ha).
  apply bind_Ok_inv in Ha as (rest & s3 & Hrest & [= <- <-]).
  exists first, last, f, b, slot, w, s1, s2, u2, u3, rest. split_and!; try done.
  apply (steps_run same_versions) in Hw1; [|apply write_all_same].
  etrans; [|eapply (steps_run same_versions), pad_slot_same; exact Hw2]. etrans; [|exact Hw1]. done.
Qed.

Lemma append_blocks_grows id blocks : ∀ s l s' r f,
  Inv s → st_versions s !! id = Some r → r_file r = Some f → append_blocks id blocks s = (Ok l, s') → grows f s s'.
Proof.
  induction blocks as [|[block data] blocks IH]; intros s l s' r f HI Hr Hf Ha; [by injection Ha as _ <-|].
  apply (append_blocks_cons _ _ _ _ _ _ _ r) in Ha; [|done..].
  destruct (Index_get (r_index r) block); [by eapply IH|].
  destruct Ha as (first & last & f' & b & slot & w & s1 & s2 & u1 & u2 & rest & _ & _ & Hf' & _ & _ & _ & Hw1 & Hw2 & Hsv & Hrest & _).
  assert (f' = f) as -> by congruence.
  etrans; [apply (world_grows f (λ _, w))|]. etrans; [eapply (steps_run (grows f)), write_all_grows; exact Hw1|].
  etrans; [eapply (steps_run (grows f)), pad_slot_grows; exact Hw2|].
  eapply (IH s2); [by eapply inv_same| |done|done]. by destruct Hsv as (_ & _ & ->).
Qed.

(** Which blocks are appended, and where they are. *)
Lemma append_blocks_names id blocks : ∀ s l s' r,
  Inv s → st_versions s !! id = Some r → append_blocks id blocks s = (Ok l, s') →
  (λ a : Z * Z * list Z, (a.1.1, a.2)) <$> l = filter (λ b, Index_get (r_index r) b.1 = None) blocks.
Proof.
  induction blocks as [|[block data] blocks IH]; intros s l s' r HI Hr Ha; [by injection Ha as <- _|].
  apply (append_blocks_cons _ _ _ _ _ _ _ r) in Ha; [|done..].
  destruct (Index_get (r_index r) block) eqn:Hget.
  { rewrite filter_cons_False by (cbn; congruence). by eapply IH. }
  rewrite filter_cons_True by done.
  destruct Ha as (? & ? & ? & ? & ? & ? & ? & s2 & ? & ? & rest & _ & _ & _ & _ & _ & _ & _ & _ & Hsv & Hrest & ->).
  cbn. f_equal. eapply (IH s2); [by eapply inv_same| |done]. by destruct Hsv as (_ & _ & ->).
Qed.
Lemma append_blocks_slots id blocks : ∀ s l s' r,
  Inv s → blocks_ok blocks → st_versions s !! id = Some r → append_blocks id blocks s = (Ok l, s') →
  (∀ name b, st_files s' !! name = Some (Regular b) → is_u64 (zlen b)) →
  l = [] ∧ st_files s' = st_files s ∨ ∃ f b z, r_file r = Some f ∧ st_files s !! f = Some (Regular b) ∧
    st_files s' !! f = Some (Regular (b ++ z)) ∧ Forall (in_slot (m_geometry (r_meta r)) (b ++ z)) l.
Proof.
  induction blocks as [|[block data] blocks IH]; intros s l s' r HI Hbl Hr Ha Hlen.
  { injection Ha as <- <-. left. by split. }
  apply Forall_cons in Hbl as [Hb0 Hbl]. cbn in Hb0.
  apply (append_blocks_cons _ _ _ _ _ _ _ r) in Ha; [|done..].
  destruct (Index_get (r_index r) block) eqn:Hget.
  { by apply IH. }
  destruct Ha as (first & last & f & b & slot & w & s1 & s2 & u1 & u2 & rest & Hrange & Hdata & Hf & Hb & Hslot & Hlim & Hw1 & Hw2 & Hsv & Hrest & ->).
  assert (Hr2 : st_versions s2 !! id = Some r) by (by destruct Hsv as (_ & _ & ->)).
  apply (inv_same s s2) in HI as HI2; [|done].
  destruct (inv_resident _ HI id r Hr) as (row & _ & Hok).
  assert (Hub : is_u64 (zlen b)).
  { assert (grows f s s') as Hgr.
    { etrans; [apply (world_grows f (λ _, w))|]. etrans; [eapply (steps_run (grows f)), write_all_grows; exact Hw1|].
      etrans; [eapply (steps_run (grows f)), pad_slot_grows; exact Hw2|]. by eapply append_blocks_grows. }
    destruct (Hgr b Hb) as (b' & Hb' & Hle). apply Hlen in Hb'. unfold is_u64, zlen in *. lia. }
  destruct (append_step (m_geometry (r_meta r)) block data slot f (set_world (λ _, w) s) s1 s2 u1 u2 b first last
    (resident_ok_layout _ _ Hok) Hb0 Hub Hrange Hdata Hslot Hlim Hb Hw1 Hw2) as (z & Hz & Hin).
  pose proof (IH s2 rest s' r HI2 Hbl Hr2 Hrest Hlen) as Hst. right.
  destruct Hst as [[-> Hst]|(f' & b' & z' & Hf' & Hb' & Hz' & Hall)].
  - exists f, b, z. rewrite Hst. split_and!; [done..|]. by constructor.
  - assert (f' = f) as -> by congruence. assert (b' = b ++ z) as -> by congruence.
    exists f, b, (z ++ z'). rewrite app_assoc. split_and!; [done..|]. constructor; [by apply in_slot_app|done].
Qed.

(** ** Entering in the index *)

(** Only the index in memory of one version differs. *)
Definition reindexed (id : Z) (r : Resident) (i : Index) (s s' : Storage) : Prop :=
  st_versions s' !! id = Some (r_with_index i r) ∧ st_db s' = st_db s ∧ st_files s' = st_files s ∧
  st_world s' = st_world s.

Lemma index_set_get id block slot data s u s' r :
  st_versions s !! id = Some r → wf_index (r_index r) → 0 ≤ block → 0 ≤ slot ≤ u32_max →
  index_set id block slot data s = (Ok u, s') →
  ∃ i, reindexed id r i s s' ∧ wf_index i ∧ ix_geometry i = ix_geometry (r_index r) ∧
    (∀ b, 0 ≤ b → b ≠ block → Index_get i b = Index_get (r_index r) b) ∧
    ∃ h, hash data = Ok h ∧ Index_get i block = Some (slot, h).
Proof.
  intros Hr Hwf Hb Hs Hrun. unfold index_set in Hrun.
  apply bind_Ok_inv in Hrun as (r1 & s1 & [-> Hr1]%load_hit_inv & Hrun). assert (r1 = r) as -> by congruence.
  pose proof (Index_set_any block slot data (r_index r) Hwf Hb Hs) as Hany.
  destruct (Index_set block slot data (r_index r)) as [res i]. destruct Hany as (Hwf' & Hg & _ & Hoth & Hres).
  apply bind_Ok_inv in Hrun as (u1 & s1 & [= _ <-] & Hrun). apply lift_inv in Hrun as [-> ->].
  destruct Hres as (_ & h & Hh & Hget). exists i. split_and!; try done; [|by exists h].
  split_and!; [|done..]. cbn. by rewrite lookup_alter_eq, Hr.
Qed.
Lemma index_sets_get id l : ∀ s u s' r,
  st_versions s !! id = Some r → wf_index (r_index r) → Forall appended_ok l → NoDup l.*1.*1 →
  for_each (λ a : Z * Z * list Z, index_set id a.1.1 a.1.2 a.2) l s = (Ok u, s') →
  ∃ i, reindexed id r i s s' ∧ wf_index i ∧
    (∀ b, 0 ≤ b → b ∉ l.*1.*1 → Index_get i b = Index_get (r_index r) b) ∧
    ∀ a, a ∈ l → ∃ h, hash a.2 = Ok h ∧ Index_get i a.1.1 = Some (a.1.2, h).
Proof.
  induction l as [|[[block slot] data] l IH]; intros s u s' r Hr Hwf Hok Hnd Hrun; cbn [for_each] in Hrun.
  { injection Hrun as _ <-. exists (r_index r). split; [unfold reindexed; rewrite Hr; by destruct r|].
    split_and!; try done.
    intros a Ha. by apply elem_of_nil in Ha. }
  apply Forall_cons in Hok as [[Hb Hs] Hok]. cbn in Hb, Hs, Hnd. apply NoDup_cons in Hnd as [Hn Hnd].
  apply bind_Ok_inv in Hrun as (u1 & s1 & Hset & Hrun). cbn [fst snd] in Hset.
  apply (index_set_get _ _ _ _ _ _ _ r) in Hset as (i1 & (Hr1 & E1 & E2 & E3) & Hwf1 & _ & Hoth1 & h & Hh & Hget1); [|done..].
  destruct (IH s1 u s' (r_with_index i1 r) Hr1 Hwf1 Hok Hnd Hrun) as (i & (Hr2 & F1 & F2 & F3) & Hwf2 & Hoth2 & Hall).
  exists i. split; [split_and!; [by rewrite Hr2|congruence..]|]. split; [done|]. split.
  - intros b Hb0 Hnot. cbn in Hnot. apply not_elem_of_cons in Hnot as [Hne Hnot]. rewrite Hoth2 by done. by apply Hoth1.
  - intros a Ha. apply elem_of_cons in Ha as [->|Ha]; [|by apply Hall]. exists h. split; [done|]. cbn.
    by rewrite Hoth2.
Qed.

Lemma index_sets_files id l s u s' :
  for_each (λ a : Z * Z * list Z, index_set id a.1.1 a.1.2 a.2) l s = (Ok u, s') → st_files s' = st_files s.
Proof.
  revert s. induction l as [|a l IH]; intros s Hr; cbn [for_each] in Hr; [by injection Hr as _ <-|].
  apply bind_Ok_inv in Hr as (u1 & s1 & Hset & Hr). apply IH in Hr. rewrite Hr. unfold index_set in Hset.
  apply bind_Ok_inv in Hset as (r & s2 & [-> _]%load_hit_inv & Hset).
  destruct (Index_set _ _ _ _) as [res i]. by apply bind_Ok_inv in Hset as (u2 & s3 & [= _ <-] & [_ ->]%lift_inv).
Qed.
Lemma commit_get id s u s' r :
  commit id s = (Ok u, s') → st_versions s !! id = Some r → Inv s →
  ∃ i, st_versions s' !! id = Some (r_with_index i r) ∧ (∀ b, Index_get i b = Index_get (r_index r) b) ∧
    st_files s' = st_files s ∧
    ∀ k, strip <$> db_versions (st_db s') !! k = strip <$> db_versions (st_db s) !! k.
Proof.
  intros Hc Hr HI.
  pose proof (rtc_tidy_framed _ _ (steps_run _ _ _ _ _ Hc (commit_tidies id) HI)) as Hf.
  assert (Hrows := tf_rows _ _ Hf). clear Hf. rewrite commit_eq, Hr in Hc.
  destruct (Index_dirty (r_index r)) as [ranges sorted] eqn:Hd.
  assert (Hg : ∀ b, Index_get sorted b = Index_get (r_index r) b) by (injection Hd as _ <-; done).
  apply bind_Ok_inv in Hc as (u1 & s1 & [= _ <-] & Hc). destruct ranges as [|rg ranges].
  - injection Hc as _ <-. exists sorted. split_and!; try done. cbn. by rewrite lookup_alter_eq, Hr.
  - apply bind_Ok_inv in Hc as (u2 & s2 & Ht & [= _ <-]).
    match type of Ht with txn _ ?st = _ => destruct (txn_cases _ _ st (dbprog_patch id (ix_bytes sorted) (rg :: ranges)))
      as (w & Hw & [[e He]|(u' & d & Ht' & HP)]) end.
    { congruence. }
    rewrite Ht in Ht'. injection Ht' as _ ->. exists (Index_committed sorted). split_and!; try done.
    cbn. rewrite !lookup_alter_eq, Hr. done.
Qed.

(** ** A block that can be read *)

Definition readable (s : Storage) (id block : Z) (data : list Z) : Prop :=
  ∃ r f bytes slot h, st_versions s !! id = Some r ∧ m_layout (r_meta r) = Blocks ∧ r_plain r = false ∧
    r_file r = Some f ∧ st_files s !! f = Some (Regular bytes) ∧
    Index_get (r_index r) block = Some (slot, h) ∧ hash data = Ok h ∧
    in_slot (m_geometry (r_meta r)) bytes (block, slot, data).
Definition active (s : Storage) (id : Z) : Prop :=
  is_some_and (db_versions (st_db s) !! id) (λ row, negb (v_obsolete row =? 2)) = true.

Lemma query_calm {A} (g : Db → A) s : calm_state s → query g s = (Ok (g (st_db s)), s).
Proof. intros Hc. unfold query. by run_bind (io_calm s Hc). Qed.
Lemma check_active_calm id s : calm_state s → active s id → check_active id s = (Ok tt, s).
Proof.
  intros Hc Ha. unfold check_active. run_bind (query_calm (λ d, db_versions d !! id) s Hc).
  unfold active in Ha. unfold guard_st. by rewrite Ha.
Qed.
Lemma readable_read s id block data :
  Inv s → calm_state s → active s id → readable s id block data → read id block s = (Ok (Some data), s).
Proof.
  intros HI Hc Ha (r & f & bytes & slot & h & Hr & Hlay & Hpl & Hf & Hb & Hget & Hh & Hin).
  destruct Hin as (Hb0 & Hs & Hsl & first & last & Hrange & Hlen).
  destruct (inv_resident _ HI id r Hr) as (row & _ & Hok).
  assert (Hl : load id s = (Ok r, s)) by (rewrite (load_resident id s r) by done; by apply load_hit_Ok).
  unfold read. run_bind (check_active_calm id s Hc Ha). run_bind Hl. rewrite Hlay. cbn [segment_bytes].
  run_bind Hl. unfold read_block. rewrite Hget, Hrange, Hf, Hpl. cbn [ok_or].
  change ((lift (Ok ?x) ≫= ?g) s) with (g x s). cbv beta iota.
  change ((lift (Ok ?x) ≫= ?g) s) with (g x s). cbv beta iota.
  rewrite offset_eq by (eauto using resident_ok_layout || lia).
  change ((lift (Ok ?x) ≫= ?g) s) with (g x s). cbv beta iota. rewrite <- Hlen.
  run_bind (attempt_run _ _ _ _ (read_exact_calm f bytes _ _ _ s Hc Hb Hsl)).
  assert (Hd : digest_matches (Ok data) h s = (Ok true, s)).
  { unfold digest_matches. rewrite Hh. change ((lift (Ok ?x) ≫= ?g) s) with (g x s). cbv beta.
    by rewrite bool_decide_eq_true_2. }
  by run_bind Hd.
Qed.

(** ** Writing *)

(** The files hold no more bytes than a length can say. *)
Definition lengths_ok (s : Storage) : Prop :=
  ∀ name b, st_files s !! name = Some (Regular b) → is_u64 (zlen b).

Lemma appended_slots g bytes l : Forall (in_slot g bytes) l → Forall appended_ok l.
Proof.
  intros Hl. eapply Forall_impl; [exact Hl|]. intros [[b slot] data] (H1 & H2 & _). split; cbn; [done|].
  unfold u32_max in *. lia.
Qed.
Lemma appended_names l blocks (i : Index) :
  (λ a : Z * Z * list Z, (a.1.1, a.2)) <$> l = filter (λ b : Z * list Z, Index_get i b.1 = None) blocks →
  NoDup blocks.*1 → NoDup l.*1.*1.
Proof.
  intros Heq Hnd. assert (l.*1.*1 = (filter (λ b : Z * list Z, Index_get i b.1 = None) blocks).*1) as ->.
  { rewrite <- Heq, <- !list_fmap_compose. by apply list_fmap_ext. }
  clear Heq. induction blocks as [|[b data] blocks IH]; [done|]. cbn in Hnd. apply NoDup_cons in Hnd as [Hn Hnd].
  rewrite filter_cons. case_decide; [|by apply IH]. cbn. constructor; [|by apply IH].
  intros Hin. apply Hn. apply list_elem_of_fmap in Hin as (x & -> & [_ Hx]%list_elem_of_filter).
  apply list_elem_of_fmap. by exists x.
Qed.

(** What follows the eviction, on a version that is in memory. *)
Lemma appended_readable id blocks s l s1 w u1 s2 u2 s3 r :
  Inv s → st_versions s !! id = Some r → m_layout (r_meta r) = Blocks → r_plain r = false →
  blocks_ok blocks → NoDup blocks.*1 →
  append_blocks id blocks s = (Ok l, s1) →
  for_each (λ a : Z * Z * list Z, index_set id a.1.1 a.1.2 a.2) l (set_world (λ _, w) s1) = (Ok u1, s2) →
  commit id s2 = (Ok u2, s3) →
  (∀ k, strip <$> db_versions (st_db s3) !! k = strip <$> db_versions (st_db s) !! k) ∧
  is_Some (st_versions s3 !! id) ∧ (lengths_ok s3 →
  ∀ b data, (b, data) ∈ blocks → Index_get (r_index r) b = None → readable s3 id b data).
Proof.
  intros HI Hr Hlay Hpl Hbl Hnd Happ Hsets Hc.
  pose proof (steps_run _ _ _ _ _ Happ (append_blocks_same id blocks)) as Hsame.
  assert (HI1 : Inv s1) by by eapply inv_same.
  destruct Hsame as (Er & _ & Ev).
  pose proof (append_blocks_ok _ _ _ _ _ Hbl HI Happ) as Hall.
  assert (Hr1 : st_versions (set_world (λ _, w) s1) !! id = Some r) by (cbn; congruence).
  destruct (inv_resident _ HI id r Hr) as (row & _ & Hok).
  assert (HI2 : Inv s2).
  { pose proof (index_sets_keep id l Hall (set_world (λ _, w) s1)) as Hk. rewrite Hsets in Hk. apply Hk.
    split; [by eapply inv_same|]. intros r' Hr'. congruence. }
  pose proof (append_blocks_names _ _ _ _ _ _ HI Hr Happ) as Hnm.
  destruct (index_sets_get id l _ _ _ r Hr1 (ro_wf _ _ Hok) Hall (appended_names _ _ _ Hnm Hnd) Hsets)
    as (i & (Hr2 & Ed & Ef & _) & _ & _ & Hget).
  destruct (commit_get _ _ _ _ _ Hc Hr2 HI2) as (i3 & Hr3 & Hget3 & Ef3 & Hrows). cbn in Ef, Ed.
  split; [intros k; rewrite Hrows, Ed; cbn; by rewrite Er|]. split; [by eexists|].
  intros Hlen b data Hin Hnone.
  pose proof (append_blocks_slots id blocks s l s1 r HI Hbl Hr Happ) as Hsl.
  destruct Hsl as [[-> _]|(f & bytes & z & Hf & _ & Hf1 & Hslots)].
  { intros name bytes Hb. apply (Hlen name). by rewrite Ef3, Ef. }
  { symmetry in Hnm. by apply (filter_nil_not_elem_of _ _ (b, data)) in Hnm. }
  assert (∃ slot, (b, slot, data) ∈ l) as [slot Hl].
  { assert ((b, data) ∈ (λ a : Z * Z * list Z, (a.1.1, a.2)) <$> l) as Hb.
    { rewrite Hnm. by apply list_elem_of_filter. }
    apply list_elem_of_fmap in Hb as ([[b' slot] data'] & [= -> ->] & Hl). by exists slot. }
  destruct (Hget _ Hl) as (h & Hh & Hg). cbn in Hh, Hg.
  eexists _, f, (bytes ++ z), slot, h. split_and!; try done.
  - congruence.
  - cbn. by rewrite Hget3.
  - exact (proj1 (Forall_forall _ _) Hslots _ Hl).
Qed.

Lemma readable_frame s s' id b data :
  st_versions s' = st_versions s → st_files s' = st_files s → readable s id b data → readable s' id b data.
Proof.
  intros Ev Ef (r & f & bytes & slot & h & H1 & H2 & H3 & H4 & H5 & H6).
  exists r, f, bytes, slot, h. rewrite Ev, Ef. split_and!; [exact H1|exact H2|exact H3|exact H4|exact H5|apply H6..].
Qed.
Lemma active_rows s s' id :
  strip <$> db_versions (st_db s') !! id = strip <$> db_versions (st_db s) !! id → active s id → active s' id.
Proof.
  unfold active. intros Hs. destruct (db_versions (st_db s') !! id), (db_versions (st_db s) !! id); cbn in *; try done.
  apply (inj Some), (f_equal v_obsolete) in Hs. cbn in Hs. by rewrite Hs.
Qed.
Lemma check_active_inv id s u s' : check_active id s = (Ok u, s') → active s id ∧ quiet s s'.
Proof.
  unfold check_active. intros Hr. apply bind_Ok_inv in Hr as (row & s1 & [-> Hq]%quiet_query & [Hg ->]%guard_inv).
  by split.
Qed.
Lemma write_data_readable id blocks s u s' r :
  Inv s → st_versions s !! id = Some r → leased s r = true → m_layout (r_meta r) = Blocks → r_plain r = false →
  blocks_ok blocks → NoDup blocks.*1 → write_data id blocks s = (Ok u, s') →
  Inv s' ∧ (active s id → active s' id) ∧ is_Some (st_versions s' !! id) ∧ (lengths_ok s' →
  ∀ b data, (b, data) ∈ blocks → Index_get (r_index r) b = None → readable s' id b data).
Proof.
  intros HI Hr Hle Hlay Hpl Hbl Hnd Hrun.
  assert (HI' : Inv s') by (pose proof (write_data_keeps id blocks s r HI Hr Hlay Hbl) as Hk; by rewrite Hrun in Hk).
  unfold write_data in Hrun.
  apply bind_Ok_inv in Hrun as (u1 & s1 & [_ (w1 & _ & ->)]%check_active_inv & Hrun).
  apply bind_Ok_inv in Hrun as (r1 & s2 & Hl & Hrun).
  rewrite (load_resident id _ r) in Hl by done. apply load_hit_inv in Hl as [-> Hr1]. cbn in Hr1.
  assert (r1 = r) as -> by congruence. clear Hr1. rewrite Hpl in Hrun.
  apply bind_Ok_inv in Hrun as (u2 & s2 & He & Hrun).
  set (s1 := set_world (λ _, w1) s) in *. assert (HI1 : Inv s1) by by apply (inv_frame s).
  pose proof (steps_run _ _ _ _ _ He (evict_maintains _) HI1) as Hmt.
  pose proof (rtc_maint_inv _ _ Hmt HI1) as HI2. pose proof (rtc_maint_framed _ _ Hmt) as Hf.
  destruct (mf_leased _ _ Hf id r Hr) as (r2 & Hr2 & _ & E2 & E3 & E4 & Hwith); [exact Hle|].
  apply bind_Ok_inv in Hrun as (r3 & s3 & Hl & Hrun).
  rewrite (load_resident id _ r2) in Hl by done. apply load_hit_inv in Hl as [-> Hr3].
  assert (r3 = r2) as -> by congruence. clear Hr3.
  apply bind_Ok_inv in Hrun as (l & s3 & Happ & Hrun).
  apply bind_Ok_inv in Hrun as (f & s4 & [Hfile ->]%lift_inv & Hrun).
  apply bind_Ok_inv in Hrun as (u3 & s4 & [w ->]%io_inv & Hrun).
  apply bind_Ok_inv in Hrun as (u4 & s4 & Hsets & Hc).
  destruct (appended_readable id blocks s2 l s3 w u4 s4 u s' r2) as (Hrows & Hres & Hall); try done; [congruence..|].
  split; [done|]. split; [|split; [done|]].
  - intros Ha. eapply active_rows; [apply Hrows|]. eapply (active_rows s1); [|exact Ha].
    apply (mf_held_rows _ _ Hf). right. unfold lease_held. cbn. rewrite Hr. exact Hle.
  - intros Hlen b data Hin Hnone. apply Hall; [done..|]. destruct (Index_get (r_index r2) b) eqn:Hg; [|done].
    apply Hwith in Hg. congruence.
Qed.

Lemma record_size_data id : steps same_data (record_size id).
Proof.
  unfold record_size. steps_walk; [apply quiet_steps_same, file_len_quiet|]. apply (steps_modify _). by intros s.
Qed.

(** C31. What was written is read. When a write of distinct blocks of a held version with a block
    file succeeds, each of them that was not there before can be read back: as long as the
    outside world works, the read returns the very bytes that were written. *)
Theorem write_then_read id blocks s out s' r :
  Inv s → st_versions s !! id = Some r → leased s r = true → m_layout (r_meta r) = Blocks → r_plain r = false →
  blocks_ok blocks → NoDup blocks.*1 → write id blocks s = (Ok out, s') → lengths_ok s' → calm_state s' →
  ∀ b data, (b, data) ∈ blocks → Index_get (r_index r) b = None → read id b s' = (Ok (Some data), s').
Proof.
  intros HI Hr Hle Hlay Hpl Hbl Hnd Hrun Hlen Hcalm b data Hin Hnone. unfold write in Hrun.
  apply bind_Ok_inv in Hrun as (u1 & s1 & [Ha (w1 & _ & ->)]%check_active_inv & Hrun).
  apply bind_Ok_inv in Hrun as (r1 & s2 & Hl & Hrun).
  rewrite (load_resident id _ r) in Hl by done. apply load_hit_inv in Hl as [-> Hr1]. cbn in Hr1.
  assert (r1 = r) as -> by congruence. clear Hr1. rewrite Hlay in Hrun. cbn [segment_bytes] in Hrun.
  apply bind_Ok_inv in Hrun as (res & s2 & Hw%attempt_inv & Hrun).
  apply bind_Ok_inv in Hrun as (u2 & s3 & Hrec & Hrun).
  apply bind_Ok_inv in Hrun as (u3 & s4 & [-> ->]%lift_inv & Hrun).
  apply bind_Ok_inv in Hrun as (r4 & s4 & Hl & [= _ ->]).
  set (s1 := set_world (λ _, w1) s) in *.
  pose proof (steps_run same_versions _ _ _ _ Hrec (record_size_same id)) as Hsv.
  apply (steps_run same_data) in Hrec as (Ev & Ef & Er); [|apply record_size_data].
  destruct (write_data_readable id blocks s1 u3 s2 r) as (HI2 & Hact & [r2 Hr2] & Hall); try done; [by apply (inv_frame s)|].
  rewrite (load_resident id _ r2) in Hl by congruence. apply load_hit_inv in Hl as [-> _].
  apply readable_read; [|done| |].
  - by eapply inv_same; [exact HI2|].
  - unfold active. rewrite Er. by apply Hact.
  - eapply readable_frame; [exact Ev|exact Ef|]. apply Hall; [|done..].
    intros name bytes Hb. apply (Hlen name). by rewrite Ef.
Qed.
End Caching.

(** ** Example *)

Definition lengths_checked (s : Storage) : bool :=
  forallb (λ kv : string * Entry, match kv.2 with Regular b => zlen b <=? u64_max | Special => true end)
    (map_to_list (st_files s)).
Lemma lengths_checked_ok s : lengths_checked s = true → lengths_ok s.
Proof.
  intros Hc name b Hb. apply (proj1 (forallb_forall _ _)) with (x := (name, Regular b)) in Hc.
  - cbn in Hc. unfold is_u64, zlen in *. lia.
  - apply list_elem_of_In. by apply elem_of_map_to_list.
Qed.

Section Examples.
#[local] Existing Instance toy_digest.
Lemma write_then_read_witness :
  let s' := (write 1 [(0, [7; 8; 9])] sample_held).2 in
  read 1 0 s' = (Ok (Some [7; 8; 9]), s').
Proof.
  apply (write_then_read 1 [(0, [7; 8; 9])] sample_held (mk_CommitOutcome true true)
    (write 1 [(0, [7; 8; 9])] sample_held).2 sample_resident).
  - apply sample_held_inv.
  - vm_compute. reflexivity.
  - vm_compute. reflexivity.
  - reflexivity.
  - reflexivity.
  - by repeat constructor.
  - by apply NoDup_singleton.
  - rewrite (surjective_pairing (write 1 _ sample_held)) at 1. by f_equal.
  - apply lengths_checked_ok. vm_compute. reflexivity.
  - split; vm_compute; reflexivity.
  - left.
  - vm_compute. reflexivity.
Defined.
End Examples.
