(* ===== verification/Tables.v ===== *)
(** * Library: the tables

    The tables of [backend/core/src/model/] and of the migrations that create them in
    [backend/main/migration/src/], as finite maps from their primary keys, with the statements
    the synchronisation executes on them: what a unique index or a foreign key refuses, and
    what a deletion cascades to ([PRAGMA foreign_keys = ON] in [main.rs]). The surrogate keys
    of the relation tables are left out: their unique indices are the keys here. *)
From S2P Require Import Prelude.
From Stdlib Require Import SpecFloat.
From stdpp Require Import options.

(** [DbErr]: the code's own messages, what the database refuses, and any other failure. *)
Inductive DbErr :=
| Custom (message : string)
| RecordNotUpdated
| UniqueViolation
| ForeignKey
| DatabaseFull
| Failed.

(** ** Values *)

Module ItemType.
Inductive t :=
| UnSpecified | Provider | Library | Album | AlbumArtist | Artist | Mix | Radio | Song | Program.
#[global] Instance t_eq_dec : EqDecision t.
Proof. solve_decision. Defined.
Definition to_i32 (x : t) : Z :=
  match x with
  | UnSpecified => 0 | Provider => 1 | Library => 2 | Album => 51 | AlbumArtist => 52
  | Artist => 53 | Mix => 54 | Radio => 55 | Song => 101 | Program => 102
  end.
Definition try_from (n : Z) : option t :=
  find (λ x, to_i32 x =? n)
    [UnSpecified; Provider; Library; Album; AlbumArtist; Artist; Mix; Radio; Song; Program].
End ItemType.

Module AlbumType.
Inductive t := Unknown | Album | EP | Single | Soundtrack | Compilation | Live.
End AlbumType.

Module ImageType.
Inductive t := Primary | Backdrop | Banner | Thumb | Logo.
Definition to_i32 (x : t) : Z :=
  match x with Primary => 0 | Backdrop => 1 | Banner => 2 | Thumb => 3 | Logo => 4 end.
End ImageType.

Module MixType.
Inductive t := Normal | Link | Cache.
End MixType.

(** A JSON column: strings and arrays, and the text of any other value. *)
Inductive Json := JString (s : string) | JArray (l : list Json) | JOther (text : string).

Definition is_string (j : Json) : bool := match j with JString _ => true | _ => false end.
Definition as_array (j : Json) : option (list Json) :=
  match j with JArray l => Some l | _ => None end.

(** An [f64]; [is_finite] excludes infinities and NaN. *)
Definition is_finite (x : spec_float) : bool :=
  match x with S754_zero _ | S754_finite _ _ _ => true | _ => false end.

(** ** Rows; times are in milliseconds *)

Record LibraryRow := mk_LibraryRow {
  lb_name : string; lb_provider : Z; lb_native : string; lb_edit : Z
}.
Record Item := mk_Item {
  i_native : string; i_library : option Z; i_provider : Z; i_type : ItemType.t;
  i_create : Z; i_update : Z; i_last_sync : Z
}.
Record Album := mk_Album {
  al_name : string; al_sort_name : option string; al_track_count : Z; al_disc_count : Z;
  al_type : AlbumType.t; al_duration : Z; al_language : option string;
  al_description : option string; al_company : option string;
  al_publish_time : option Z; al_added_at : option Z
}.
Record Artist := mk_Artist {
  ar_name : string; ar_sort_name : option string; ar_description : string;
  ar_album_count : Z; ar_music_count : Z; ar_added_at : option Z
}.
Record Song := mk_Song {
  so_name : string; so_sort_name : option string; so_album : option Z; so_track_number : Z;
  so_disc_number : Z; so_duration : Z; so_can_play : bool; so_popularity : spec_float;
  so_tags : Json; so_publish_time : option Z; so_added_at : option Z
}.
Record RemoteMix := mk_RemoteMix {
  rm_name : string; rm_description : option string; rm_track_count : Z; rm_mix_type : string
}.
Record Mix := mk_Mix {
  mx_name : string; mx_track_count : Z; mx_mix_type : MixType.t; mx_sort_name : option string;
  mx_description : string; mx_remote : option Z;
  mx_create : Z; mx_update : Z; mx_content_update : Z
}.
Record MixSong := mk_MixSong { ms_order : Z; ms_update : Z }.
Record Dynamic := mk_Dynamic {
  dy_external : bool; dy_play_count : Z; dy_remote_play_count : Z; dy_last_position : option Z;
  dy_last_played : option Z; dy_remote_last_played : option Z; dy_favorite : option Z;
  dy_update : Z
}.
Record Image := mk_Image {
  im_native : option string; im_db : option string; im_fresh : string; im_timestamp : Z
}.

(** ** The database

    The relation tables are keyed by the two rows they relate; [AUTOINCREMENT] keeps the
    largest key ever given. *)
Record Tables := mk_Tables {
  t_providers : gset Z;
  t_library : gmap Z LibraryRow;
  t_item : gmap Z Item;
  t_album : gmap Z Album;
  t_artist : gmap Z Artist;
  t_song : gmap Z Song;
  t_remote_mix : gmap Z RemoteMix;
  t_mix : gmap Z Mix;
  t_rel_mix_song : gmap (Z * Z) MixSong;
  t_rel_album_artist : gmap (Z * Z) Z;
  t_rel_song_artist : gmap (Z * Z) Z;
  t_dynamic : gmap Z Dynamic;
  t_image : gmap (Z * Z) Image;
  t_seq_library : Z;
  t_seq_item : Z;
  t_seq_mix : Z
}.

Definition with_providers (f : gset Z → gset Z) (t : Tables) : Tables :=
  mk_Tables (f (t_providers t)) (t_library t) (t_item t) (t_album t) (t_artist t) (t_song t)
    (t_remote_mix t) (t_mix t) (t_rel_mix_song t) (t_rel_album_artist t)
    (t_rel_song_artist t) (t_dynamic t) (t_image t) (t_seq_library t) (t_seq_item t)
    (t_seq_mix t).
Definition with_library (f : gmap Z LibraryRow → gmap Z LibraryRow) (t : Tables) : Tables :=
  mk_Tables (t_providers t) (f (t_library t)) (t_item t) (t_album t) (t_artist t) (t_song t)
    (t_remote_mix t) (t_mix t) (t_rel_mix_song t) (t_rel_album_artist t)
    (t_rel_song_artist t) (t_dynamic t) (t_image t) (t_seq_library t) (t_seq_item t)
    (t_seq_mix t).
Definition with_item (f : gmap Z Item → gmap Z Item) (t : Tables) : Tables :=
  mk_Tables (t_providers t) (t_library t) (f (t_item t)) (t_album t) (t_artist t) (t_song t)
    (t_remote_mix t) (t_mix t) (t_rel_mix_song t) (t_rel_album_artist t)
    (t_rel_song_artist t) (t_dynamic t) (t_image t) (t_seq_library t) (t_seq_item t)
    (t_seq_mix t).
Definition with_album (f : gmap Z Album → gmap Z Album) (t : Tables) : Tables :=
  mk_Tables (t_providers t) (t_library t) (t_item t) (f (t_album t)) (t_artist t) (t_song t)
    (t_remote_mix t) (t_mix t) (t_rel_mix_song t) (t_rel_album_artist t)
    (t_rel_song_artist t) (t_dynamic t) (t_image t) (t_seq_library t) (t_seq_item t)
    (t_seq_mix t).
Definition with_artist (f : gmap Z Artist → gmap Z Artist) (t : Tables) : Tables :=
  mk_Tables (t_providers t) (t_library t) (t_item t) (t_album t) (f (t_artist t)) (t_song t)
    (t_remote_mix t) (t_mix t) (t_rel_mix_song t) (t_rel_album_artist t)
    (t_rel_song_artist t) (t_dynamic t) (t_image t) (t_seq_library t) (t_seq_item t)
    (t_seq_mix t).
Definition with_song (f : gmap Z Song → gmap Z Song) (t : Tables) : Tables :=
  mk_Tables (t_providers t) (t_library t) (t_item t) (t_album t) (t_artist t) (f (t_song t))
    (t_remote_mix t) (t_mix t) (t_rel_mix_song t) (t_rel_album_artist t)
    (t_rel_song_artist t) (t_dynamic t) (t_image t) (t_seq_library t) (t_seq_item t)
    (t_seq_mix t).
Definition with_remote_mix (f : gmap Z RemoteMix → gmap Z RemoteMix) (t : Tables) : Tables :=
  mk_Tables (t_providers t) (t_library t) (t_item t) (t_album t) (t_artist t) (t_song t)
    (f (t_remote_mix t)) (t_mix t) (t_rel_mix_song t) (t_rel_album_artist t)
    (t_rel_song_artist t) (t_dynamic t) (t_image t) (t_seq_library t) (t_seq_item t)
    (t_seq_mix t).
Definition with_mix (f : gmap Z Mix → gmap Z Mix) (t : Tables) : Tables :=
  mk_Tables (t_providers t) (t_library t) (t_item t) (t_album t) (t_artist t) (t_song t)
    (t_remote_mix t) (f (t_mix t)) (t_rel_mix_song t) (t_rel_album_artist t)
    (t_rel_song_artist t) (t_dynamic t) (t_image t) (t_seq_library t) (t_seq_item t)
    (t_seq_mix t).
Definition with_rel_mix_song (f : gmap (Z * Z) MixSong → gmap (Z * Z) MixSong) (t : Tables) : Tables :=
  mk_Tables (t_providers t) (t_library t) (t_item t) (t_album t) (t_artist t) (t_song t)
    (t_remote_mix t) (t_mix t) (f (t_rel_mix_song t)) (t_rel_album_artist t)
    (t_rel_song_artist t) (t_dynamic t) (t_image t) (t_seq_library t) (t_seq_item t)
    (t_seq_mix t).
Definition with_rel_album_artist (f : gmap (Z * Z) Z → gmap (Z * Z) Z) (t : Tables) : Tables :=
  mk_Tables (t_providers t) (t_library t) (t_item t) (t_album t) (t_artist t) (t_song t)
    (t_remote_mix t) (t_mix t) (t_rel_mix_song t) (f (t_rel_album_artist t))
    (t_rel_song_artist t) (t_dynamic t) (t_image t) (t_seq_library t) (t_seq_item t)
    (t_seq_mix t).
Definition with_rel_song_artist (f : gmap (Z * Z) Z → gmap (Z * Z) Z) (t : Tables) : Tables :=
  mk_Tables (t_providers t) (t_library t) (t_item t) (t_album t) (t_artist t) (t_song t)
    (t_remote_mix t) (t_mix t) (t_rel_mix_song t) (t_rel_album_artist t)
    (f (t_rel_song_artist t)) (t_dynamic t) (t_image t) (t_seq_library t) (t_seq_item t)
    (t_seq_mix t).
Definition with_dynamic (f : gmap Z Dynamic → gmap Z Dynamic) (t : Tables) : Tables :=
  mk_Tables (t_providers t) (t_library t) (t_item t) (t_album t) (t_artist t) (t_song t)
    (t_remote_mix t) (t_mix t) (t_rel_mix_song t) (t_rel_album_artist t)
    (t_rel_song_artist t) (f (t_dynamic t)) (t_image t) (t_seq_library t) (t_seq_item t)
    (t_seq_mix t).
Definition with_image (f : gmap (Z * Z) Image → gmap (Z * Z) Image) (t : Tables) : Tables :=
  mk_Tables (t_providers t) (t_library t) (t_item t) (t_album t) (t_artist t) (t_song t)
    (t_remote_mix t) (t_mix t) (t_rel_mix_song t) (t_rel_album_artist t)
    (t_rel_song_artist t) (t_dynamic t) (f (t_image t)) (t_seq_library t) (t_seq_item t)
    (t_seq_mix t).
Definition with_seq_library (f : Z → Z) (t : Tables) : Tables :=
  mk_Tables (t_providers t) (t_library t) (t_item t) (t_album t) (t_artist t) (t_song t)
    (t_remote_mix t) (t_mix t) (t_rel_mix_song t) (t_rel_album_artist t)
    (t_rel_song_artist t) (t_dynamic t) (t_image t) (f (t_seq_library t)) (t_seq_item t)
    (t_seq_mix t).
Definition with_seq_item (f : Z → Z) (t : Tables) : Tables :=
  mk_Tables (t_providers t) (t_library t) (t_item t) (t_album t) (t_artist t) (t_song t)
    (t_remote_mix t) (t_mix t) (t_rel_mix_song t) (t_rel_album_artist t)
    (t_rel_song_artist t) (t_dynamic t) (t_image t) (t_seq_library t) (f (t_seq_item t))
    (t_seq_mix t).
Definition with_seq_mix (f : Z → Z) (t : Tables) : Tables :=
  mk_Tables (t_providers t) (t_library t) (t_item t) (t_album t) (t_artist t) (t_song t)
    (t_remote_mix t) (t_mix t) (t_rel_mix_song t) (t_rel_album_artist t)
    (t_rel_song_artist t) (t_dynamic t) (t_image t) (t_seq_library t) (t_seq_item t)
    (f (t_seq_mix t)).


(** ** Statements *)

(** The next key of an [AUTOINCREMENT] table. *)
Definition next_key (seq : Z) : result DbErr Z :=
  if seq <? i64_max then Ok (seq + 1) else Err DatabaseFull.

Definition insert_library (row : LibraryRow) (t : Tables) : result DbErr (Z * Tables) :=
  ensure (bool_decide (lb_provider row ∈ t_providers t)) ForeignKey ;;
  ensure (negb (is_some_and (find_first (λ r, (lb_provider r =? lb_provider row) &&
                                              (lb_native r =? lb_native row)%string)
                               (t_library t)) (λ _, true))) UniqueViolation ;;
  id ← next_key (t_seq_library t) ;
  mret (id, with_seq_library (λ _, id) (with_library (<[id := row]>) t)).

(** The indices on [(native_id, type, provider_id, COALESCE(library_id, -1))] and, for rows
    with a library, on [(native_id, type, library_id)]. *)
Definition same_item (a b : Item) : bool :=
  (i_native a =? i_native b)%string && bool_decide (i_type a = i_type b) &&
  (((i_provider a =? i_provider b) && (default (-1) (i_library a) =? default (-1) (i_library b))) ||
   is_some_and (i_library a) (λ l, bool_decide (i_library b = Some l))).

Definition insert_item (row : Item) (t : Tables) : result DbErr (Z * Tables) :=
  ensure (is_none_or (i_library row) (has (t_library t))) ForeignKey ;;
  ensure (negb (is_some_and (find_first (same_item row) (t_item t)) (λ _, true)))
    UniqueViolation ;;
  id ← next_key (t_seq_item t) ;
  mret (id, with_seq_item (λ _, id) (with_item (<[id := row]>) t)).

(** [UPDATE] of one row by its key. *)
Definition update_row {K R} `{Countable K} (k : K) (f : R → R) (m : gmap K R) :
    result DbErr (gmap K R) :=
  match m !! k with
  | Some r => Ok (<[k := f r]> m)
  | None => Err RecordNotUpdated
  end.
(** [INSERT] of a row that brings its own key. *)
Definition insert_row {K R} `{Countable K} (k : K) (r : R) (m : gmap K R) :
    result DbErr (gmap K R) :=
  match m !! k with
  | Some _ => Err UniqueViolation
  | None => Ok (<[k := r]> m)
  end.

(** Updates of the columns that are not part of an identity. *)
Definition update_library (id : Z) (f : LibraryRow → LibraryRow) (t : Tables) :
    result DbErr Tables :=
  m ← update_row id f (t_library t) ; mret (with_library (λ _, m) t).
Definition update_item (id : Z) (f : Item → Item) (t : Tables) : result DbErr Tables :=
  m ← update_row id f (t_item t) ; mret (with_item (λ _, m) t).

Definition insert_album (id : Z) (r : Album) (t : Tables) : result DbErr Tables :=
  ensure (has (t_item t) id) ForeignKey ;;
  m ← insert_row id r (t_album t) ; mret (with_album (λ _, m) t).
Definition update_album (id : Z) (r : Album) (t : Tables) : result DbErr Tables :=
  m ← update_row id (λ _, r) (t_album t) ; mret (with_album (λ _, m) t).
Definition insert_artist (id : Z) (r : Artist) (t : Tables) : result DbErr Tables :=
  ensure (has (t_item t) id) ForeignKey ;;
  m ← insert_row id r (t_artist t) ; mret (with_artist (λ _, m) t).
Definition update_artist (id : Z) (r : Artist) (t : Tables) : result DbErr Tables :=
  m ← update_row id (λ _, r) (t_artist t) ; mret (with_artist (λ _, m) t).
Definition insert_song (id : Z) (r : Song) (t : Tables) : result DbErr Tables :=
  ensure (has (t_item t) id) ForeignKey ;;
  ensure (is_none_or (so_album r) (has (t_album t))) ForeignKey ;;
  m ← insert_row id r (t_song t) ; mret (with_song (λ _, m) t).
Definition update_song (id : Z) (f : Song → Song) (t : Tables) : result DbErr Tables :=
  m ← update_row id f (t_song t) ;
  ensure (is_none_or (m !! id) (λ r, is_none_or (so_album r) (has (t_album t)))) ForeignKey ;;
  mret (with_song (λ _, m) t).
Definition insert_remote_mix (id : Z) (r : RemoteMix) (t : Tables) : result DbErr Tables :=
  ensure (has (t_item t) id) ForeignKey ;;
  m ← insert_row id r (t_remote_mix t) ; mret (with_remote_mix (λ _, m) t).
Definition update_remote_mix (id : Z) (f : RemoteMix → RemoteMix) (t : Tables) :
    result DbErr Tables :=
  m ← update_row id f (t_remote_mix t) ; mret (with_remote_mix (λ _, m) t).

Definition mix_of (remote : Z) (t : Tables) : option (Z * Mix) :=
  find_first (λ r, bool_decide (mx_remote r = Some remote)) (t_mix t).
Definition insert_mix (r : Mix) (t : Tables) : result DbErr (Z * Tables) :=
  ensure (is_none_or (mx_remote r) (has (t_remote_mix t))) ForeignKey ;;
  ensure (is_none_or (mx_remote r) (λ i, negb (is_some_and (mix_of i t) (λ _, true))))
    UniqueViolation ;;
  id ← next_key (t_seq_mix t) ;
  mret (id, with_seq_mix (λ _, id) (with_mix (<[id := r]>) t)).
(** The columns an update of a mix sets never include [remote_id]. *)
Definition update_mix (id : Z) (f : Mix → Mix) (t : Tables) : result DbErr Tables :=
  m ← update_row id f (t_mix t) ; mret (with_mix (λ _, m) t).
Definition insert_mix_song (mix song : Z) (r : MixSong) (t : Tables) : result DbErr Tables :=
  ensure (has (t_mix t) mix && has (t_song t) song) ForeignKey ;;
  m ← insert_row (mix, song) r (t_rel_mix_song t) ; mret (with_rel_mix_song (λ _, m) t).
Definition delete_mix_songs (mix : Z) : Tables → Tables :=
  with_rel_mix_song (sieve (λ k _, negb (k.1 =? mix))).

(** [INSERT ... ON CONFLICT (owner, artist) DO UPDATE SET update_at]. *)
Definition upsert_album_artist (album artist now : Z) (t : Tables) : result DbErr Tables :=
  ensure (has (t_album t) album && has (t_artist t) artist) ForeignKey ;;
  mret (with_rel_album_artist (<[(album, artist) := now]>) t).
Definition upsert_song_artist (song artist now : Z) (t : Tables) : result DbErr Tables :=
  ensure (has (t_song t) song && has (t_artist t) artist) ForeignKey ;;
  mret (with_rel_song_artist (<[(song, artist) := now]>) t).
Definition delete_album_artists (album : Z) : Tables → Tables :=
  with_rel_album_artist (sieve (λ k _, negb (k.1 =? album))).
Definition delete_song_artists (song : Z) : Tables → Tables :=
  with_rel_song_artist (sieve (λ k _, negb (k.1 =? song))).

Definition insert_dynamic (id : Z) (r : Dynamic) (t : Tables) : result DbErr Tables :=
  ensure (has (t_item t) id) ForeignKey ;;
  m ← insert_row id r (t_dynamic t) ; mret (with_dynamic (λ _, m) t).
Definition update_dynamic (id : Z) (f : Dynamic → Dynamic) (t : Tables) : result DbErr Tables :=
  m ← update_row id f (t_dynamic t) ; mret (with_dynamic (λ _, m) t).
Definition insert_image (k : Z * Z) (r : Image) (t : Tables) : result DbErr Tables :=
  ensure (has (t_item t) k.1) ForeignKey ;;
  m ← insert_row k r (t_image t) ; mret (with_image (λ _, m) t).
Definition update_image (k : Z * Z) (f : Image → Image) (t : Tables) : result DbErr Tables :=
  m ← update_row k f (t_image t) ; mret (with_image (λ _, m) t).

(** *** Deletions and what they cascade to *)

Definition delete_songs (dead : Z → Song → bool) (t : Tables) : Tables :=
  let gone s := is_some_and (t_song t !! s) (dead s) in
  with_rel_mix_song (sieve (λ k _, negb (gone k.2)))
    (with_rel_song_artist (sieve (λ k _, negb (gone k.1)))
       (with_song (sieve (λ s r, negb (dead s r))) t)).
Definition delete_albums (dead : Z → bool) (t : Tables) : Tables :=
  delete_songs (λ _ r, is_some_and (so_album r) dead)
    (with_rel_album_artist (sieve (λ k _, negb (dead k.1)))
       (with_album (sieve (λ a _, negb (dead a))) t)).
Definition delete_artists (dead : Z → bool) (t : Tables) : Tables :=
  with_rel_song_artist (sieve (λ k _, negb (dead k.2)))
    (with_rel_album_artist (sieve (λ k _, negb (dead k.2)))
       (with_artist (sieve (λ a _, negb (dead a))) t)).
Definition delete_mixes (dead : Z → Mix → bool) (t : Tables) : Tables :=
  let gone m := is_some_and (t_mix t !! m) (dead m) in
  with_rel_mix_song (sieve (λ k _, negb (gone k.1)))
    (with_mix (sieve (λ m r, negb (dead m r))) t).
Definition delete_remote_mixes (dead : Z → bool) (t : Tables) : Tables :=
  delete_mixes (λ _ r, is_some_and (mx_remote r) dead)
    (with_remote_mix (sieve (λ i _, negb (dead i))) t).
Definition delete_items (dead : Z → Item → bool) (t : Tables) : Tables :=
  let gone i := is_some_and (t_item t !! i) (dead i) in
  with_image (sieve (λ k _, negb (gone k.1)))
    (with_dynamic (sieve (λ i _, negb (gone i)))
       (delete_remote_mixes gone
          (delete_songs (λ i _, gone i)
             (delete_artists gone
                (delete_albums gone
                   (with_item (sieve (λ i r, negb (dead i r))) t)))))).
Definition delete_libraries (dead : Z → LibraryRow → bool) (t : Tables) : Tables :=
  let gone l := is_some_and (t_library t !! l) (dead l) in
  delete_items (λ _ r, is_some_and (i_library r) gone)
    (with_library (sieve (λ l r, negb (dead l r))) t).
(** [provider::Entity::delete_by_id]. *)
Definition delete_provider (id : Z) (t : Tables) : Tables :=
  delete_libraries (λ _ r, lb_provider r =? id)
    (with_providers (λ p, p ∖ {[id]}) t).
