(* ===== verification/Integrity.v ===== *)
(** * Library: integrity of the tables

    The relational invariant of the library: what the foreign keys and unique indices of the
    schema enforce, and what only the code does: every row hangs off an item of its own type,
    an item and its library belong to one provider, songs, albums and artists are related
    within one library, and only mixes and radios may be outside a library. Every statement
    of [Tables.v] keeps it, the cascading deletions included. *)
From S2P Require Import Prelude Tables.
From stdpp Require Import options.

Definition mix_type (ty : ItemType.t) : Prop := ty = ItemType.Mix ∨ ty = ItemType.Radio.

(** ** References *)

(** References between the tables below [item]. *)
Record linked (t : Tables) : Prop := {
  ln_song_album s r a : t_song t !! s = Some r → so_album r = Some a → is_Some (t_album t !! a);
  ln_album_artist a b u : t_rel_album_artist t !! (a, b) = Some u →
    is_Some (t_album t !! a) ∧ is_Some (t_artist t !! b);
  ln_song_artist s b u : t_rel_song_artist t !! (s, b) = Some u →
    is_Some (t_song t !! s) ∧ is_Some (t_artist t !! b);
  ln_mix_remote m r i : t_mix t !! m = Some r → mx_remote r = Some i →
    is_Some (t_remote_mix t !! i);
  ln_mix_song m s u : t_rel_mix_song t !! (m, s) = Some u →
    is_Some (t_mix t !! m) ∧ is_Some (t_song t !! s);
}.

(** References of libraries and of items. *)
Record shelved (t : Tables) : Prop := {
  sv_library l r : t_library t !! l = Some r → lb_provider r ∈ t_providers t;
  sv_item i r l : t_item t !! i = Some r → i_library r = Some l → is_Some (t_library t !! l);
}.

(** References to items. *)
Record rooted (t : Tables) : Prop := {
  rt_album i r : t_album t !! i = Some r → is_Some (t_item t !! i);
  rt_artist i r : t_artist t !! i = Some r → is_Some (t_item t !! i);
  rt_song i r : t_song t !! i = Some r → is_Some (t_item t !! i);
  rt_remote_mix i r : t_remote_mix t !! i = Some r → is_Some (t_item t !! i);
  rt_dynamic i r : t_dynamic t !! i = Some r → is_Some (t_item t !! i);
  rt_image i k r : t_image t !! (i, k) = Some r → is_Some (t_item t !! i);
}.

(** ** Types and identities: what holds of the rows that are there *)

Definition same_library (t : Tables) (i j : Z) : Prop :=
  ∀ a b, t_item t !! i = Some a → t_item t !! j = Some b → i_library a = i_library b.

Record typed (t : Tables) : Prop := {
  ty_provider i r l lr : t_item t !! i = Some r → i_library r = Some l →
    t_library t !! l = Some lr → lb_provider lr = i_provider r;
  ty_global i r : t_item t !! i = Some r → i_library r = None → mix_type (i_type r);
  ty_album i r a : t_album t !! i = Some r → t_item t !! i = Some a →
    i_type a = ItemType.Album;
  ty_artist i r a : t_artist t !! i = Some r → t_item t !! i = Some a →
    i_type a = ItemType.Artist;
  ty_song i r a : t_song t !! i = Some r → t_item t !! i = Some a → i_type a = ItemType.Song;
  ty_remote_mix i r a : t_remote_mix t !! i = Some r → t_item t !! i = Some a →
    mix_type (i_type a);
  ty_song_album s r a : t_song t !! s = Some r → so_album r = Some a → same_library t s a;
  ty_album_artist a b u : t_rel_album_artist t !! (a, b) = Some u → same_library t a b;
  ty_song_artist s b u : t_rel_song_artist t !! (s, b) = Some u → same_library t s b;
  un_library i j r r' : t_library t !! i = Some r → t_library t !! j = Some r' →
    lb_provider r = lb_provider r' → lb_native r = lb_native r' → i = j;
  un_item i j r r' : t_item t !! i = Some r → t_item t !! j = Some r' →
    same_item r r' = true → i = j;
  un_mix i j r r' k : t_mix t !! i = Some r → t_mix t !! j = Some r' →
    mx_remote r = Some k → mx_remote r' = Some k → i = j;
  sq_library i r : t_library t !! i = Some r → 0 < i ≤ t_seq_library t;
  sq_item i r : t_item t !! i = Some r → 0 < i ≤ t_seq_item t;
  sq_mix i r : t_mix t !! i = Some r → 0 < i ≤ t_seq_mix t;
  sq_range : 0 ≤ t_seq_library t ∧ 0 ≤ t_seq_item t ∧ 0 ≤ t_seq_mix t;
}.

Record well_formed (t : Tables) : Prop := {
  wf_linked : linked t;
  wf_rooted : rooted t;
  wf_shelved : shelved t;
  wf_typed : typed t;
}.

(** ** Deletions *)

(** Rows are only removed. *)
Record shrinks (t t' : Tables) : Prop := {
  sh_library : t_library t' ⊆ t_library t;
  sh_item : t_item t' ⊆ t_item t;
  sh_album : t_album t' ⊆ t_album t;
  sh_artist : t_artist t' ⊆ t_artist t;
  sh_song : t_song t' ⊆ t_song t;
  sh_remote_mix : t_remote_mix t' ⊆ t_remote_mix t;
  sh_mix : t_mix t' ⊆ t_mix t;
  sh_album_artist : t_rel_album_artist t' ⊆ t_rel_album_artist t;
  sh_song_artist : t_rel_song_artist t' ⊆ t_rel_song_artist t;
  sh_mix_song : t_rel_mix_song t' ⊆ t_rel_mix_song t;
  sh_dynamic : t_dynamic t' ⊆ t_dynamic t;
  sh_image : t_image t' ⊆ t_image t;
  sh_seq_library : t_seq_library t' = t_seq_library t;
  sh_seq_item : t_seq_item t' = t_seq_item t;
  sh_seq_mix : t_seq_mix t' = t_seq_mix t;
}.

#[global] Instance shrinks_preorder : PreOrder shrinks.
Proof.
  split; [intros t; split; reflexivity|].
  intros t1 t2 t3 [] []. split; etrans; eassumption.
Qed.

(** Every step of a deletion. *)
Ltac shrink := split; cbn; solve [reflexivity | apply sieve_subseteq].

Lemma delete_songs_shrinks dead t : shrinks t (delete_songs dead t).
Proof. shrink. Qed.
Lemma delete_albums_shrinks dead t : shrinks t (delete_albums dead t).
Proof. etrans; [|apply delete_songs_shrinks]. shrink. Qed.
Lemma delete_artists_shrinks dead t : shrinks t (delete_artists dead t).
Proof. shrink. Qed.
Lemma delete_remote_mixes_shrinks dead t : shrinks t (delete_remote_mixes dead t).
Proof. shrink. Qed.
Lemma delete_mixes_shrinks dead t : shrinks t (delete_mixes dead t).
Proof. shrink. Qed.
Lemma delete_items_shrinks dead t : shrinks t (delete_items dead t).
Proof.
  unfold delete_items. cbv zeta.
  assert (∀ t1 p q, shrinks t1 (with_image (sieve p) (with_dynamic (sieve q) t1))) as Htop
    by (intros; shrink).
  etrans; [|apply Htop]. etrans; [|apply delete_remote_mixes_shrinks]. etrans; [|apply delete_songs_shrinks].
  etrans; [|apply delete_artists_shrinks]. etrans; [|apply delete_albums_shrinks]. shrink.
Qed.
Lemma delete_libraries_shrinks dead t : shrinks t (delete_libraries dead t).
Proof. etrans; [|apply delete_items_shrinks]. shrink. Qed.

Lemma shrinks_typed t t' : shrinks t t' → typed t → typed t'.
Proof.
  intros [] Ht.
  assert (∀ i j, same_library t i j → same_library t' i j) as Hsame.
  { intros i j Hs a b Ha Hb. apply Hs; eapply lookup_weaken; eassumption. }
  destruct Ht. split; intros;
    repeat match goal with
    | H : ?m' !! _ = Some _, S : ?m' ⊆ ?m |- _ => apply (lookup_weaken _ m) in H; [|exact S]
    end; try apply Hsame; repeat match goal with E : t_seq_library t' = _ |- _ => rewrite E
      | E : t_seq_item t' = _ |- _ => rewrite E | E : t_seq_mix t' = _ |- _ => rewrite E end;
    eauto.
Qed.

(** Deletions keep every reference between the tables they leave. *)
Lemma delete_songs_linked dead t : linked t → linked (delete_songs dead t).
Proof.
  intros []. split; cbn; intros *; rewrite ?lookup_sieve; cbn.
  - intros [Hs _]. eauto.
  - eauto.
  - intros [Hr Hd]. destruct (ln_song_artist0 _ _ _ Hr) as [[rs Hs] ?].
    rewrite Hs in Hd. cbn in Hd. split; [|done]. exists rs. by apply lookup_sieve.
  - eauto.
  - intros [Hr Hd]. destruct (ln_mix_song0 _ _ _ Hr) as [? [rs Hs]].
    rewrite Hs in Hd. cbn in Hd. split; [done|]. exists rs. by apply lookup_sieve.
Qed.
Lemma delete_albums_linked dead t : linked t → linked (delete_albums dead t).
Proof.
  intros []. split; cbn; intros *; rewrite ?lookup_sieve; cbn.
  - intros [Hs Hd] Ha. apply negb_true_iff in Hd. rewrite Ha in Hd. cbn in Hd.
    destruct (ln_song_album0 _ _ _ Hs Ha) as [ra Hra]. exists ra.
    rewrite lookup_sieve, Hd. done.
  - intros [Hr Hd]. destruct (ln_album_artist0 _ _ _ Hr) as [[ra Ha] ?].
    split; [|done]. exists ra. by apply lookup_sieve.
  - intros [Hr Hd]. destruct (ln_song_artist0 _ _ _ Hr) as [[rs Hs] ?].
    rewrite Hs in Hd. cbn in Hd. split; [|done]. exists rs. by apply lookup_sieve.
  - eauto.
  - intros [Hr Hd]. destruct (ln_mix_song0 _ _ _ Hr) as [? [rs Hs]].
    rewrite Hs in Hd. cbn in Hd. split; [done|]. exists rs. by apply lookup_sieve.
Qed.
Lemma delete_artists_linked dead t : linked t → linked (delete_artists dead t).
Proof.
  intros []. split; cbn; intros *; rewrite ?lookup_sieve; cbn; try by eauto.
  - intros [Hr Hd]. destruct (ln_album_artist0 _ _ _ Hr) as [? [rb Hb]].
    split; [done|]. exists rb. by apply lookup_sieve.
  - intros [Hr Hd]. destruct (ln_song_artist0 _ _ _ Hr) as [? [rb Hb]].
    split; [done|]. exists rb. by apply lookup_sieve.
Qed.
Lemma delete_mixes_linked dead t : linked t → linked (delete_mixes dead t).
Proof.
  intros []. split; cbn; intros *; rewrite ?lookup_sieve; cbn; try by eauto.
  - intros [Hm _]. eauto.
  - intros [Hr Hd]. destruct (ln_mix_song0 _ _ _ Hr) as [[rm Hm] ?].
    rewrite Hm in Hd. cbn in Hd. split; [|done]. exists rm. by apply lookup_sieve.
Qed.
Lemma delete_remote_mixes_linked dead t : linked t → linked (delete_remote_mixes dead t).
Proof.
  intros []. split; cbn; intros *; rewrite ?lookup_sieve; cbn; try by eauto.
  - intros [Hm Hd] Hi. apply negb_true_iff in Hd. rewrite Hi in Hd. cbn in Hd.
    destruct (ln_mix_remote0 _ _ _ Hm Hi) as [ri Hri]. exists ri. by rewrite lookup_sieve, Hd.
  - intros [Hr Hd]. destruct (ln_mix_song0 _ _ _ Hr) as [[rm Hm] ?].
    rewrite Hm in Hd. cbn in Hd. split; [|done]. exists rm. by apply lookup_sieve.
Qed.

(** Only the tables of [linked] matter to it. *)
Lemma linked_frame t t' :
  t_song t' = t_song t → t_album t' = t_album t → t_artist t' = t_artist t →
  t_remote_mix t' = t_remote_mix t → t_mix t' = t_mix t →
  t_rel_album_artist t' = t_rel_album_artist t →
  t_rel_song_artist t' = t_rel_song_artist t → t_rel_mix_song t' = t_rel_mix_song t →
  linked t → linked t'.
Proof.
  intros Hs Ha Hb Hr Hm Ha' Hs' Hm' [L1 L2 L3 L4 L5].
  rewrite <- Hs, <- Ha in L1. rewrite <- Ha', <- Ha, <- Hb in L2. rewrite <- Hs', <- Hs, <- Hb in L3.
  rewrite <- Hm, <- Hr in L4. rewrite <- Hm', <- Hm, <- Hs in L5. by split.
Qed.

Lemma linked_image f g t : linked t → linked (with_image f (with_dynamic g t)).
Proof. apply linked_frame; reflexivity. Qed.
Lemma linked_item f t : linked t → linked (with_item f t).
Proof. apply linked_frame; reflexivity. Qed.
Lemma linked_library f t : linked t → linked (with_library f t).
Proof. apply linked_frame; reflexivity. Qed.

Lemma delete_items_linked dead t : linked t → linked (delete_items dead t).
Proof.
  intros Hl. apply linked_image, delete_remote_mixes_linked, delete_songs_linked,
    delete_artists_linked, delete_albums_linked, linked_item, Hl.
Qed.
Lemma delete_libraries_linked dead t : linked t → linked (delete_libraries dead t).
Proof.
  intros Hl. by apply delete_items_linked, linked_library.
Qed.

(** *** What a deletion of items leaves *)

Definition gone (dead : Z → Item → bool) (t : Tables) (i : Z) : bool :=
  is_some_and (t_item t !! i) (dead i).

Lemma delete_items_item dead t i r :
  t_item (delete_items dead t) !! i = Some r ↔ t_item t !! i = Some r ∧ dead i r = false.
Proof. cbn. by rewrite lookup_sieve, negb_true_iff. Qed.
Lemma delete_items_library dead t : t_library (delete_items dead t) = t_library t.
Proof. done. Qed.
Lemma delete_items_album dead t i r :
  t_album (delete_items dead t) !! i = Some r ↔ t_album t !! i = Some r ∧ gone dead t i = false.
Proof. cbn. by rewrite lookup_sieve, negb_true_iff. Qed.
Lemma delete_items_artist dead t i r :
  t_artist (delete_items dead t) !! i = Some r ↔
  t_artist t !! i = Some r ∧ gone dead t i = false.
Proof. cbn. by rewrite lookup_sieve, negb_true_iff. Qed.
(** A song row goes with its item, and with the item of its album. *)
Lemma delete_items_song dead t i r :
  t_song (delete_items dead t) !! i = Some r ↔
  t_song t !! i = Some r ∧ gone dead t i = false ∧
  is_some_and (so_album r) (gone dead t) = false.
Proof. cbn. rewrite !lookup_sieve, !negb_true_iff. unfold gone. tauto. Qed.
Lemma delete_items_remote_mix dead t i r :
  t_remote_mix (delete_items dead t) !! i = Some r ↔
  t_remote_mix t !! i = Some r ∧ gone dead t i = false.
Proof. cbn. by rewrite lookup_sieve, negb_true_iff. Qed.
Lemma delete_items_dynamic dead t i r :
  t_dynamic (delete_items dead t) !! i = Some r ↔
  t_dynamic t !! i = Some r ∧ gone dead t i = false.
Proof. cbn. by rewrite lookup_sieve, negb_true_iff. Qed.
Lemma delete_items_image dead t k r :
  t_image (delete_items dead t) !! k = Some r ↔
  t_image t !! k = Some r ∧ gone dead t k.1 = false.
Proof. cbn. by rewrite lookup_sieve, negb_true_iff. Qed.

Lemma gone_false_item dead t i :
  is_Some (t_item t !! i) → gone dead t i = false →
  is_Some (t_item (delete_items dead t) !! i).
Proof.
  intros [r Hr]. unfold gone. rewrite Hr. cbn. intros Hd. exists r. by apply delete_items_item.
Qed.
#[export] Hint Resolve gone_false_item : qcm.

Lemma delete_items_rooted dead t : rooted t → rooted (delete_items dead t).
Proof.
  intros []. split; intros *.
  - rewrite delete_items_album. intros []. eauto with qcm.
  - rewrite delete_items_artist. intros []. eauto with qcm.
  - rewrite delete_items_song. intros (?&?&_). eauto with qcm.
  - rewrite delete_items_remote_mix. intros []. eauto with qcm.
  - rewrite delete_items_dynamic. intros []. eauto with qcm.
  - rewrite delete_items_image. intros []. eauto with qcm.
Qed.

Lemma delete_items_shelved dead t : shelved t → shelved (delete_items dead t).
Proof.
  intros []. split; intros *; [apply sv_library0|].
  rewrite delete_items_item. intros [Hr _]. eauto.
Qed.

Lemma delete_items_well_formed dead t : well_formed t → well_formed (delete_items dead t).
Proof.
  intros []. split; [by apply delete_items_linked|by apply delete_items_rooted| |].
  - by apply delete_items_shelved.
  - by eapply shrinks_typed; [apply delete_items_shrinks|].
Qed.
Lemma delete_mixes_well_formed dead t : well_formed t → well_formed (delete_mixes dead t).
Proof.
  intros [? [] [] ?]. split; [by apply delete_mixes_linked|by split..|].
  by eapply shrinks_typed; [apply delete_mixes_shrinks|].
Qed.

Lemma delete_libraries_rooted dead t : rooted t → rooted (delete_libraries dead t).
Proof. intros []. apply delete_items_rooted. by split. Qed.
(** The library of an item that is left is left. *)
Lemma delete_libraries_item dead t i r :
  t_item (delete_libraries dead t) !! i = Some r ↔
  t_item t !! i = Some r ∧
  is_some_and (i_library r) (λ l, is_some_and (t_library t !! l) (dead l)) = false.
Proof. cbn. by rewrite lookup_sieve, negb_true_iff. Qed.
Lemma delete_libraries_library dead t l r :
  t_library (delete_libraries dead t) !! l = Some r ↔ t_library t !! l = Some r ∧ dead l r = false.
Proof. cbn. by rewrite lookup_sieve, negb_true_iff. Qed.

Lemma delete_libraries_shelved dead t p :
  (∀ l r, t_library t !! l = Some r → dead l r = false → lb_provider r ∈ p) →
  shelved t → shelved (delete_libraries dead (with_providers (λ _, p) t)).
Proof.
  intros Hp []. split; intros *.
  - rewrite delete_libraries_library. cbn. intros []. eauto.
  - rewrite delete_libraries_item. cbn. intros [Hr Hg] Hl.
    rewrite Hl in Hg. cbn in Hg. destruct (sv_item0 _ _ _ Hr Hl) as [lr Hlr].
    rewrite Hlr in Hg. exists lr. apply delete_libraries_library. by split.
Qed.

Lemma with_providers_well_formed_but_shelved p t :
  well_formed t → linked (with_providers (λ _, p) t) ∧ rooted (with_providers (λ _, p) t) ∧
  typed (with_providers (λ _, p) t).
Proof. intros [[] [] _ []]. split_and!; by split. Qed.

Lemma delete_provider_libraries_well_formed dead t p :
  (∀ l r, t_library t !! l = Some r → dead l r = false → lb_provider r ∈ p) →
  well_formed t → well_formed (delete_libraries dead (with_providers (λ _, p) t)).
Proof.
  intros Hp Hwf. destruct (with_providers_well_formed_but_shelved p t Hwf) as (Hl&Hr&Ht).
  split; [by apply delete_libraries_linked|by apply delete_libraries_rooted| |].
  - apply delete_libraries_shelved; [done|apply Hwf].
  - by eapply shrinks_typed; [apply delete_libraries_shrinks|].
Qed.
Lemma delete_libraries_well_formed dead t : well_formed t → well_formed (delete_libraries dead t).
Proof.
  intros Hwf. replace t with (with_providers (λ _, t_providers t) t) by by destruct t.
  apply delete_provider_libraries_well_formed; [|done]. intros. by eapply sv_library; [apply Hwf|].
Qed.
Lemma delete_provider_well_formed id t : well_formed t → well_formed (delete_provider id t).
Proof.
  intros Hwf. apply (delete_provider_libraries_well_formed _ _ (t_providers t ∖ {[id]})); [|done].
  intros l r Hl Hne. apply elem_of_difference. split; [by eapply sv_library; [apply Hwf|]|].
  rewrite elem_of_singleton. lia.
Qed.
