(* ===== verification/Statements.v ===== *)
(** * Library: statements keep the integrity of the tables

    Insertions and updates of [Tables.v] keep the invariant of [Integrity.v], given what the
    code has checked before it executes them. *)
From S2P Require Import Prelude Tables Integrity.
From stdpp Require Import options.

(** ** Insertions and updates *)

Lemma insert_row_Ok {K R} `{Countable K} (k : K) (r : R) (m m' : gmap K R) :
  insert_row k r m = Ok m' → m !! k = None ∧ m' = <[k := r]> m.
Proof. unfold insert_row. destruct (m !! k); naive_solver. Qed.
Lemma update_row_Ok {K R} `{Countable K} (k : K) f (m m' : gmap K R) :
  update_row k f m = Ok m' → ∃ r, m !! k = Some r ∧ m' = <[k := f r]> m.
Proof. unfold update_row. destruct (m !! k); naive_solver. Qed.
Lemma next_key_Ok seq id : next_key seq = Ok id → id = seq + 1 ∧ seq < i64_max.
Proof. unfold next_key. destruct (Z.ltb_spec seq i64_max); [|done]. intros [= <-]. lia. Qed.

(** Open a statement that succeeded. *)
Ltac statement_in H :=
  cbv beta delta [insert_library update_library insert_item update_item insert_album update_album insert_artist update_artist
    insert_song update_song insert_remote_mix update_remote_mix insert_mix update_mix
    insert_mix_song upsert_album_artist upsert_song_artist insert_dynamic update_dynamic
    insert_image update_image] in H;
  destruct_ok;
  repeat match goal with
  | J : insert_row _ _ _ = Ok _ |- _ => apply insert_row_Ok in J as [? ->]
  | J : update_row _ _ _ = Ok _ |- _ => apply update_row_Ok in J as (? & ? & ->)
  | J : next_key _ = Ok _ |- _ => apply next_key_Ok in J as [-> ?]
  end; simplify_eq.

(** Look a row up in a table with one row inserted: the new row or an old one. *)
Ltac insert_cases :=
  repeat match goal with
  | H : <[_:=_]> _ !! _ = Some _ |- _ => apply lookup_insert_Some in H as [[? ?]|[? H]]
  end; simplify_eq.

Lemma is_Some_insert {K R} `{Countable K} (k j : K) (r : R) (m : gmap K R) :
  is_Some (m !! j) → is_Some (<[k := r]> m !! j).
Proof. intros. by apply lookup_insert_is_Some'; right. Qed.
#[export] Hint Resolve is_Some_insert : qcm.


(** Discharge the fields of the invariant after one row has changed. *)
Ltac wf_fields_with tac :=
  split; split; cbn; intros; insert_cases; tac;
  first [ solve [eauto with qcm]
        | match goal with
          | H : ∀ _ _ _, _ = Some _ → _ ∧ _, J : _ !! (_, _) = Some _ |- _ ∧ _ =>
            destruct (H _ _ _ J); solve [eauto with qcm]
          end
        | idtac ].
Ltac wf_fields := wf_fields_with idtac.

Lemma insert_album_well_formed id r t t' :
  (∀ a, t_item t !! id = Some a → i_type a = ItemType.Album) →
  insert_album id r t = Ok t' → well_formed t → well_formed t'.
Proof. intros Hty Hs [[] [] [] []]. statement_in Hs. apply has_true in H. wf_fields. Qed.
Lemma update_album_well_formed id r t t' :
  update_album id r t = Ok t' → well_formed t → well_formed t'.
Proof. intros Hs [[] [] [] []]. statement_in Hs. wf_fields. Qed.
Lemma insert_artist_well_formed id r t t' :
  (∀ a, t_item t !! id = Some a → i_type a = ItemType.Artist) →
  insert_artist id r t = Ok t' → well_formed t → well_formed t'.
Proof. intros Hty Hs [[] [] [] []]. statement_in Hs. apply has_true in H. wf_fields. Qed.
Lemma update_artist_well_formed id r t t' :
  update_artist id r t = Ok t' → well_formed t → well_formed t'.
Proof. intros Hs [[] [] [] []]. statement_in Hs. wf_fields. Qed.
Lemma insert_song_well_formed id r t t' :
  (∀ a, t_item t !! id = Some a → i_type a = ItemType.Song) →
  so_album r = None →
  insert_song id r t = Ok t' → well_formed t → well_formed t'.
Proof. intros Hty Ha Hs [[] [] [] []]. statement_in Hs. apply has_true in H. wf_fields. Qed.
Lemma update_song_well_formed id f t t' :
  (∀ r a, t_song t !! id = Some r → so_album (f r) = Some a →
     so_album r = Some a ∨ same_library t id a) →
  update_song id f t = Ok t' → well_formed t → well_formed t'.
Proof.
  intros Hf Hs [[] [] [] []]. statement_in Hs. rewrite lookup_insert_eq in *. cbn in *.
  rewrite is_none_or_true in *. setoid_rewrite has_true in H0. wf_fields.
  match goal with J : so_album (f _) = Some _ |- _ => destruct (Hf _ _ H J); eauto end.
Qed.
Lemma insert_remote_mix_well_formed id r t t' :
  (∀ a, t_item t !! id = Some a → mix_type (i_type a)) →
  insert_remote_mix id r t = Ok t' → well_formed t → well_formed t'.
Proof. intros Hty Hs [[] [] [] []]. statement_in Hs. apply has_true in H. wf_fields. Qed.
Lemma update_remote_mix_well_formed id f t t' :
  update_remote_mix id f t = Ok t' → well_formed t → well_formed t'.
Proof. intros Hs [[] [] [] []]. statement_in Hs. wf_fields. Qed.
Lemma update_mix_well_formed id f t t' :
  (∀ r, mx_remote (f r) = mx_remote r) →
  update_mix id f t = Ok t' → well_formed t → well_formed t'.
Proof.
  intros Hf Hs [[] [] [] []]. statement_in Hs. wf_fields_with ltac:(rewrite ?Hf in *).
Qed.
Lemma insert_mix_song_well_formed mix song r t t' :
  insert_mix_song mix song r t = Ok t' → well_formed t → well_formed t'.
Proof.
  intros Hs [[] [] [] []]. statement_in Hs. apply andb_true_iff in H as [?%has_true ?%has_true].
  wf_fields.
Qed.
Lemma upsert_album_artist_well_formed a b now t t' :
  same_library t a b →
  upsert_album_artist a b now t = Ok t' → well_formed t → well_formed t'.
Proof.
  intros Hl Hs [[] [] [] []]. statement_in Hs. apply andb_true_iff in H as [?%has_true ?%has_true].
  wf_fields.
Qed.
Lemma upsert_song_artist_well_formed a b now t t' :
  same_library t a b →
  upsert_song_artist a b now t = Ok t' → well_formed t → well_formed t'.
Proof.
  intros Hl Hs [[] [] [] []]. statement_in Hs. apply andb_true_iff in H as [?%has_true ?%has_true].
  wf_fields.
Qed.
Lemma insert_dynamic_well_formed id r t t' :
  insert_dynamic id r t = Ok t' → well_formed t → well_formed t'.
Proof. intros Hs [[] [] [] []]. statement_in Hs. apply has_true in H. wf_fields. Qed.
Lemma update_dynamic_well_formed id f t t' :
  update_dynamic id f t = Ok t' → well_formed t → well_formed t'.
Proof. intros Hs [[] [] [] []]. statement_in Hs. wf_fields. Qed.
Lemma insert_image_well_formed k r t t' :
  insert_image k r t = Ok t' → well_formed t → well_formed t'.
Proof. intros Hs [[] [] [] []]. destruct k. statement_in Hs. apply has_true in H. wf_fields. Qed.
Lemma update_image_well_formed k f t t' :
  update_image k f t = Ok t' → well_formed t → well_formed t'.
Proof. intros Hs [[] [] [] []]. destruct k. statement_in Hs. wf_fields. Qed.

(** A row whose key is new refers to nothing that refers to it. *)
Lemma find_first_absent {R} (p : R → bool) (m : gmap Z R) k r :
  negb (is_some_and (find_first p m) (λ _, true)) = true → m !! k = Some r → p r = false.
Proof. destruct (find_first p m) eqn:Hf; [done|]. intros _. by apply find_first_None. Qed.

(** Keys are below the sequence. *)
Ltac seq_lia f :=
  first [ lia
        | match goal with J : _ !! _ = Some _ |- _ => specialize (f _ _ J); lia end ].

Lemma insert_mix_well_formed r id t t' :
  insert_mix r t = Ok (id, t') → well_formed t → well_formed t'.
Proof.
  intros Hs [[] [] [] []]. statement_in Hs. rewrite !is_none_or_true in *.
  setoid_rewrite has_true in H.
  assert (∀ k j r', mx_remote r = Some k → t_mix t !! j = Some r' → mx_remote r' = Some k → False)
    as Hun.
  { intros k j r' Hk Hj Hr. specialize (H0 _ Hk).
    pose proof (find_first_absent _ _ _ _ H0 Hj) as Hf.
    by apply bool_decide_eq_false in Hf. }
  wf_fields; try (exfalso; eauto; fail); seq_lia sq_mix.
Qed.

Lemma insert_library_well_formed r id t t' :
  insert_library r t = Ok (id, t') → well_formed t → well_formed t'.
Proof.
  intros Hs [[] [] [] []]. statement_in Hs. apply bool_decide_eq_true in H.
  assert (∀ j r', t_library t !! j = Some r' → lb_provider r = lb_provider r' →
    lb_native r = lb_native r' → False) as Hun.
  { intros j r' Hj Hp Hn. pose proof (find_first_absent _ _ _ _ H0 Hj) as Hf. cbn in Hf.
    apply andb_false_iff in Hf as [Hf|Hf]; [lia|]. apply String.eqb_neq in Hf. congruence. }
  assert (∀ l r', t_library t !! l = Some r' → l ≤ t_seq_library t) as Hseq
    by (intros l r' Hl; specialize (sq_library _ _ Hl); lia).
  wf_fields; try (exfalso; eauto; fail); try seq_lia sq_library.
  destruct (sv_item _ _ _ H2 H3) as [r1 Hr1]. specialize (Hseq _ _ Hr1). lia.
Qed.

Lemma same_item_sym a b : same_item a b = same_item b a.
Proof.
  unfold same_item.
  rewrite (String.eqb_sym (i_native a)), (Z.eqb_sym (i_provider a)),
    (Z.eqb_sym (default (-1) (i_library a))).
  f_equal; [f_equal; apply bool_decide_ext; naive_solver|]. f_equal.
  destruct (i_library a), (i_library b); cbn; try done. apply bool_decide_ext; naive_solver.
Qed.

Lemma insert_item_well_formed r id t t' :
  (∀ l lr, i_library r = Some l → t_library t !! l = Some lr → lb_provider lr = i_provider r) →
  (i_library r = None → mix_type (i_type r)) →
  insert_item r t = Ok (id, t') → well_formed t → well_formed t'.
Proof.
  intros Hp Hg Hs [[] [] [] []]. statement_in Hs. rewrite is_none_or_true in *.
  setoid_rewrite has_true in H.
  assert (∀ j r', t_item t !! j = Some r' → same_item r r' = true → False) as Hun.
  { intros j r' Hj Hr. pose proof (find_first_absent _ _ _ _ H0 Hj) as Hf. congruence. }
  assert (∀ j, is_Some (t_item t !! j) → j ≠ t_seq_item t + 1) as Hnew
    by (intros j [r' Hj]; specialize (sq_item _ _ Hj); lia).
  assert (∀ i j, is_Some (t_item t !! i) → is_Some (t_item t !! j) → same_library t i j →
    same_library (with_seq_item (λ _, t_seq_item t + 1)
      (with_item (<[t_seq_item t + 1 := r]>) t)) i j) as Hsame.
  { intros i j Hi Hj Hs a b. cbn. rewrite !lookup_insert_ne by (symmetry; auto). apply Hs. }
  wf_fields; try (exfalso; eauto; fail); try seq_lia sq_item.
  all: try (exfalso; eapply Hnew; eauto; done).
  - apply Hsame; [| |eauto]; [by eapply rt_song|].
    destruct (ln_song_album _ _ _ H2 H3). by eapply rt_album.
  - destruct (ln_album_artist _ _ _ H2) as [[] []]. apply Hsame; eauto.
  - destruct (ln_song_artist _ _ _ H2) as [[] []]. apply Hsame; eauto.
  - rewrite same_item_sym in *. exfalso. eauto.
Qed.

Lemma update_library_well_formed id f t t' :
  (∀ r, lb_provider (f r) = lb_provider r ∧ lb_native (f r) = lb_native r) →
  update_library id f t = Ok t' → well_formed t → well_formed t'.
Proof.
  intros Hf Hs [[] [] [] []]. statement_in Hs.
  assert (∀ r, lb_provider (f r) = lb_provider r) as Hp by (intros; apply Hf).
  assert (∀ r, lb_native (f r) = lb_native r) as Hn by (intros; apply Hf).
  wf_fields_with ltac:(rewrite ?Hp, ?Hn in *).
Qed.

Lemma update_item_well_formed id f t t' :
  (∀ r, i_native (f r) = i_native r ∧ i_library (f r) = i_library r ∧
        i_provider (f r) = i_provider r ∧ i_type (f r) = i_type r) →
  update_item id f t = Ok t' → well_formed t → well_formed t'.
Proof.
  intros Hf Hs [[] [] [] []]. statement_in Hs.
  assert (∀ r, i_library (f r) = i_library r) as Hl by (intros; apply Hf).
  assert (∀ r, i_provider (f r) = i_provider r) as Hp by (intros; apply Hf).
  assert (∀ r, i_type (f r) = i_type r) as Hty by (intros; apply Hf).
  assert (∀ a b, same_item (f a) b = same_item a b) as Hsame.
  { intros a b. unfold same_item. destruct (Hf a) as (->&->&->&->). done. }
  assert (∀ a b, same_item a (f b) = same_item a b) as Hsame'.
  { intros a b. by rewrite !(same_item_sym a), Hsame. }
  match goal with J : t_item t !! _ = Some ?x |- _ => set (y := x) in * end.
  assert (∀ i j, same_library t i j → same_library (with_item (<[id := f y]>) t) i j) as Hlib.
  { subst y. intros i j Hs a b. cbn. intros Ha Hb. insert_cases; rewrite ?Hl; eauto. }
  wf_fields_with ltac:(rewrite ?Hl, ?Hp, ?Hty, ?Hsame, ?Hsame' in *).
Qed.

(** Relations may be removed. *)
Ltac sieve_well_formed :=
  intros [[] [] [] ?]; split; [split; cbn; intros *; rewrite ?lookup_sieve|by split..|];
  [first [by eauto | by intros []; eauto]..|];
  eapply shrinks_typed; [|eassumption]; shrink.

Lemma sieve_mix_songs_well_formed q t :
  well_formed t → well_formed (with_rel_mix_song (sieve q) t).
Proof. sieve_well_formed. Qed.
Lemma sieve_album_artists_well_formed q t :
  well_formed t → well_formed (with_rel_album_artist (sieve q) t).
Proof. sieve_well_formed. Qed.
Lemma sieve_song_artists_well_formed q t :
  well_formed t → well_formed (with_rel_song_artist (sieve q) t).
Proof. sieve_well_formed. Qed.
Lemma delete_image_well_formed k t :
  well_formed t → well_formed (with_image (delete k) t).
Proof.
  intros [[] [] [] ?]. split; [by split..| |by split|].
  - split; cbn; intros *; rewrite ?lookup_delete_Some; naive_solver.
  - eapply shrinks_typed; [|eassumption]. split; cbn; first [done|apply delete_subseteq].
Qed.

(** What the statements on items have written. *)
Lemma insert_item_lookup r id t t' : insert_item r t = Ok (id, t') → t_item t' !! id = Some r.
Proof. intros Hs. statement_in Hs. apply lookup_insert_eq. Qed.
Lemma update_item_lookup id f r t t' :
  t_item t !! id = Some r → update_item id f t = Ok t' → t_item t' !! id = Some (f r).
Proof. intros Hr Hs. statement_in Hs. apply lookup_insert_eq. Qed.
Lemma insert_mix_song_frame m i r t t' :
  insert_mix_song m i r t = Ok t' → t_item t' = t_item t ∧ t_mix t' = t_mix t.
Proof. intros Hs. by statement_in Hs. Qed.
Lemma update_remote_mix_frame i f t t' :
  update_remote_mix i f t = Ok t' → t_item t' = t_item t ∧ t_mix t' = t_mix t.
Proof. intros Hs. by statement_in Hs. Qed.
