(* ===== verification/Isolation.v ===== *)
(** * Library synchronisation: the rows of other providers

    A statement on the rows of one provider keeps the tables well formed and leaves the rows
    of every other provider, and the local mixes, as they are. *)
From S2P Require Import Prelude Tables Integrity Statements.
From stdpp Require Import options.

(** Item [i] belongs to a provider other than [p]. *)
Definition foreign (p : Z) (t : Tables) (i : Z) : Prop :=
  ∃ r, t_item t !! i = Some r ∧ i_provider r ≠ p.

Record untouched (p : Z) (t t' : Tables) : Prop := {
  ut_library l r : lb_provider r ≠ p →
    t_library t' !! l = Some r ↔ t_library t !! l = Some r;
  ut_item i r : i_provider r ≠ p → t_item t' !! i = Some r ↔ t_item t !! i = Some r;
  ut_album i : foreign p t i → t_album t' !! i = t_album t !! i;
  ut_artist i : foreign p t i → t_artist t' !! i = t_artist t !! i;
  ut_song i : foreign p t i → t_song t' !! i = t_song t !! i;
  ut_remote_mix i : foreign p t i → t_remote_mix t' !! i = t_remote_mix t !! i;
  ut_dynamic i : foreign p t i → t_dynamic t' !! i = t_dynamic t !! i;
  ut_image i k : foreign p t i → t_image t' !! (i, k) = t_image t !! (i, k);
  ut_album_artist i b : foreign p t i →
    t_rel_album_artist t' !! (i, b) = t_rel_album_artist t !! (i, b);
  ut_song_artist i b : foreign p t i →
    t_rel_song_artist t' !! (i, b) = t_rel_song_artist t !! (i, b);
  ut_mix m r : t_mix t !! m = Some r → (∀ i, mx_remote r = Some i → foreign p t i) →
    t_mix t' !! m = Some r;
  ut_mix_song m r i : t_mix t !! m = Some r → (∀ i, mx_remote r = Some i → foreign p t i) →
    foreign p t i → t_rel_mix_song t' !! (m, i) = t_rel_mix_song t !! (m, i);
}.

Lemma untouched_foreign p t t' i : untouched p t t' → foreign p t i → foreign p t' i.
Proof. intros Hu (r & Hr & Hp). exists r. split; [|done]. by apply Hu. Qed.

#[global] Instance untouched_preorder p : PreOrder (untouched p).
Proof.
  split; [intros t; by split|]. intros t1 t2 t3 H12 H23.
  assert (∀ i, foreign p t1 i → foreign p t2 i) as Hf
    by (intros; by eapply untouched_foreign).
  destruct H12, H23.
  split; intros.
  1: by rewrite ut_library1, ut_library0. 1: by rewrite ut_item1, ut_item0.
  9: apply ut_mix1; by eauto.
  9: erewrite ut_mix_song1 by eauto; by eapply ut_mix_song0.
  - rewrite ut_album1 by auto. auto.
  - rewrite ut_artist1 by auto. auto.
  - rewrite ut_song1 by auto. auto.
  - rewrite ut_remote_mix1 by auto. auto.
  - rewrite ut_dynamic1 by auto. auto.
  - rewrite ut_image1 by auto. auto.
  - rewrite ut_album_artist1 by auto. auto.
  - rewrite ut_song_artist1 by auto. auto.
Qed.

(** Well-formed tables stay well formed, and other providers see no change. *)
Definition good (p : Z) (t t' : Tables) : Prop :=
  well_formed t → well_formed t' ∧ untouched p t t'.

#[global] Instance good_preorder p : PreOrder (good p).
Proof.
  split; [intros t ?; by split|]. intros t1 t2 t3 H12 H23 Hwf.
  destruct (H12 Hwf) as [Hwf2 ?]. destruct (H23 Hwf2). split; [done|]. by etrans.
Qed.

(** The item is one of [p]. *)
Definition own (p : Z) (t : Tables) (i : Z) : Prop :=
  ∀ r, t_item t !! i = Some r → i_provider r = p.

Lemma foreign_ne p t i j : own p t j → foreign p t i → j ≠ i.
Proof. intros Ho (r & Hr & Hp) ->. by apply Hp, Ho. Qed.
#[export] Hint Resolve foreign_ne : qcm.

Ltac ut_fields :=
  split; cbn; intros;
  first [ done
        | rewrite lookup_insert_ne; [done|first [by eauto with qcm|intros [= ? ?]; subst; by eapply foreign_ne]]
        | idtac ].

Section statements.
Variable p : Z.
Implicit Types t : Tables.

Lemma insert_album_good id r t t' :
  (∀ a, t_item t !! id = Some a → i_provider a = p ∧ i_type a = ItemType.Album) →
  insert_album id r t = Ok t' → good p t t'.
Proof.
  intros Ho Hs Hwf. assert (own p t id) by (intros ??; by apply Ho).
  split; [eapply insert_album_well_formed; [|done..]; apply Ho|].
  statement_in Hs. ut_fields.
Qed.
Lemma update_album_good id r t t' :
  own p t id → update_album id r t = Ok t' → good p t t'.
Proof.
  intros Ho Hs Hwf. split; [by eapply update_album_well_formed|]. statement_in Hs. ut_fields.
Qed.
Lemma insert_artist_good id r t t' :
  (∀ a, t_item t !! id = Some a → i_provider a = p ∧ i_type a = ItemType.Artist) →
  insert_artist id r t = Ok t' → good p t t'.
Proof.
  intros Ho Hs Hwf. assert (own p t id) by (intros ??; by apply Ho).
  split; [eapply insert_artist_well_formed; [|done..]; apply Ho|].
  statement_in Hs. ut_fields.
Qed.
Lemma update_artist_good id r t t' :
  own p t id → update_artist id r t = Ok t' → good p t t'.
Proof.
  intros Ho Hs Hwf. split; [by eapply update_artist_well_formed|]. statement_in Hs. ut_fields.
Qed.
Lemma insert_song_good id r t t' :
  (∀ a, t_item t !! id = Some a → i_provider a = p ∧ i_type a = ItemType.Song) →
  so_album r = None → insert_song id r t = Ok t' → good p t t'.
Proof.
  intros Ho Ha Hs Hwf. assert (own p t id) by (intros ??; by apply Ho).
  split; [eapply insert_song_well_formed; [|done..]; apply Ho|].
  statement_in Hs. ut_fields.
Qed.
Lemma update_song_good id f t t' :
  own p t id →
  (∀ r a, t_song t !! id = Some r → so_album (f r) = Some a →
     so_album r = Some a ∨ same_library t id a) →
  update_song id f t = Ok t' → good p t t'.
Proof.
  intros Ho Hf Hs Hwf. split; [by eapply update_song_well_formed|]. statement_in Hs. ut_fields.
Qed.
Lemma insert_remote_mix_good id r t t' :
  (∀ a, t_item t !! id = Some a → i_provider a = p ∧ mix_type (i_type a)) →
  insert_remote_mix id r t = Ok t' → good p t t'.
Proof.
  intros Ho Hs Hwf. assert (own p t id) by (intros ??; by apply Ho).
  split; [eapply insert_remote_mix_well_formed; [|done..]; apply Ho|].
  statement_in Hs. ut_fields.
Qed.
Lemma update_remote_mix_good id f t t' :
  own p t id → update_remote_mix id f t = Ok t' → good p t t'.
Proof.
  intros Ho Hs Hwf. split; [by eapply update_remote_mix_well_formed|].
  statement_in Hs. ut_fields.
Qed.
Lemma insert_dynamic_good id r t t' :
  own p t id → insert_dynamic id r t = Ok t' → good p t t'.
Proof.
  intros Ho Hs Hwf. split; [by eapply insert_dynamic_well_formed|]. statement_in Hs. ut_fields.
Qed.
Lemma update_dynamic_good id f t t' :
  own p t id → update_dynamic id f t = Ok t' → good p t t'.
Proof.
  intros Ho Hs Hwf. split; [by eapply update_dynamic_well_formed|]. statement_in Hs. ut_fields.
Qed.
Lemma insert_image_good k r t t' :
  own p t k.1 → insert_image k r t = Ok t' → good p t t'.
Proof.
  intros Ho Hs Hwf. split; [by eapply insert_image_well_formed|]. destruct k.
  statement_in Hs. ut_fields.
Qed.
Lemma update_image_good k f t t' :
  own p t k.1 → update_image k f t = Ok t' → good p t t'.
Proof.
  intros Ho Hs Hwf. split; [by eapply update_image_well_formed|]. destruct k.
  statement_in Hs. ut_fields.
Qed.
Lemma upsert_album_artist_good a b now t t' :
  own p t a → same_library t a b → upsert_album_artist a b now t = Ok t' → good p t t'.
Proof.
  intros Ho Hl Hs Hwf. split; [by eapply upsert_album_artist_well_formed|].
  statement_in Hs. ut_fields.
Qed.
Lemma upsert_song_artist_good a b now t t' :
  own p t a → same_library t a b → upsert_song_artist a b now t = Ok t' → good p t t'.
Proof.
  intros Ho Hl Hs Hwf. split; [by eapply upsert_song_artist_well_formed|].
  statement_in Hs. ut_fields.
Qed.

(** A key above the sequence is no row's. *)
Lemma new_item_absent t : well_formed t → t_item t !! (t_seq_item t + 1) = None.
Proof.
  intros Hwf. destruct (t_item t !! _) eqn:Hi; [|done].
  apply (sq_item _ (wf_typed _ Hwf)) in Hi. lia.
Qed.
Lemma new_library_absent t : well_formed t → t_library t !! (t_seq_library t + 1) = None.
Proof.
  intros Hwf. destruct (t_library t !! _) eqn:Hi; [|done].
  apply (sq_library _ (wf_typed _ Hwf)) in Hi. lia.
Qed.
Lemma new_mix_absent t : well_formed t → t_mix t !! (t_seq_mix t + 1) = None.
Proof.
  intros Hwf. destruct (t_mix t !! _) eqn:Hi; [|done].
  apply (sq_mix _ (wf_typed _ Hwf)) in Hi. lia.
Qed.

Lemma insert_item_good r id t t' :
  i_provider r = p →
  (∀ l lr, i_library r = Some l → t_library t !! l = Some lr → lb_provider lr = p) →
  (i_library r = None → mix_type (i_type r)) →
  insert_item r t = Ok (id, t') → good p t t'.
Proof.
  intros Hp Hl Hg Hs Hwf. split.
  { eapply insert_item_well_formed; [|done..]. rewrite Hp. done. }
  pose proof (new_item_absent _ Hwf) as Hn. statement_in Hs. ut_fields.
  rewrite lookup_insert_Some. naive_solver.
Qed.
Lemma update_item_good id f t t' :
  own p t id →
  (∀ r, i_native (f r) = i_native r ∧ i_library (f r) = i_library r ∧
        i_provider (f r) = i_provider r ∧ i_type (f r) = i_type r) →
  update_item id f t = Ok t' → good p t t'.
Proof.
  intros Ho Hf Hs Hwf. split; [by eapply update_item_well_formed|].
  statement_in Hs. ut_fields.
  match goal with J : t_item t !! _ = Some ?y |- _ =>
    specialize (Ho _ J); destruct (Hf y) as (_&_&Hp&_) end.
  rewrite lookup_insert_Some. naive_solver.
Qed.
Lemma insert_library_good r id t t' :
  lb_provider r = p → insert_library r t = Ok (id, t') → good p t t'.
Proof.
  intros Hp Hs Hwf. split; [by eapply insert_library_well_formed|].
  pose proof (new_library_absent _ Hwf) as Hn. statement_in Hs. ut_fields.
  rewrite lookup_insert_Some. naive_solver.
Qed.
Lemma update_library_good id f t t' :
  (∀ r, t_library t !! id = Some r → lb_provider r = p) →
  (∀ r, lb_provider (f r) = lb_provider r ∧ lb_native (f r) = lb_native r) →
  update_library id f t = Ok t' → good p t t'.
Proof.
  intros Ho Hf Hs Hwf. split; [by eapply update_library_well_formed|].
  statement_in Hs. ut_fields.
  match goal with J : t_library t !! _ = Some ?y |- _ =>
    specialize (Ho _ J); destruct (Hf y) as (Hp&_) end.
  rewrite lookup_insert_Some. naive_solver.
Qed.

(** The mix [m] mirrors an item of [p]. *)
Definition own_mix (t : Tables) (m : Z) : Prop :=
  ∃ r i, t_mix t !! m = Some r ∧ mx_remote r = Some i ∧ own p t i.

Lemma own_mix_ne t m m' r :
  own_mix t m → t_mix t !! m' = Some r → (∀ i, mx_remote r = Some i → foreign p t i) → m ≠ m'.
Proof.
  intros (r' & i & Hm & Hi & Ho) Hm' Hf ->. simplify_eq.
  by eapply (foreign_ne p t i i Ho (Hf _ Hi)).
Qed.

Lemma insert_mix_good r id t t' : insert_mix r t = Ok (id, t') → good p t t'.
Proof.
  intros Hs Hwf. split; [by eapply insert_mix_well_formed|].
  pose proof (new_mix_absent _ Hwf) as Hn. statement_in Hs. ut_fields.
  rewrite lookup_insert_Some. naive_solver.
Qed.
Lemma update_mix_good id f t t' :
  own_mix t id → (∀ r, mx_remote (f r) = mx_remote r) →
  update_mix id f t = Ok t' → good p t t'.
Proof.
  intros Ho Hf Hs Hwf. split; [by eapply update_mix_well_formed|].
  statement_in Hs. ut_fields. rewrite lookup_insert_ne; [done|]. by eapply own_mix_ne.
Qed.
Lemma insert_mix_song_good m s r t t' :
  own_mix t m → insert_mix_song m s r t = Ok t' → good p t t'.
Proof.
  intros Ho Hs Hwf. split; [by eapply insert_mix_song_well_formed|].
  statement_in Hs. ut_fields. rewrite lookup_insert_ne; [done|].
  intros [= ? ?]. by eapply own_mix_ne.
Qed.

(** A relation whose key the sieve keeps is kept. *)
Lemma sieve_keeps {R} (q : Z * Z → R → bool) (m : gmap (Z * Z) R) k :
  (∀ r, q k r = true) → sieve q m !! k = m !! k.
Proof.
  intros Hq. apply option_eq. intros r. rewrite lookup_sieve. naive_solver.
Qed.
Lemma delete_mix_songs_good m t : own_mix t m → good p t (delete_mix_songs m t).
Proof.
  intros Ho Hwf. split; [by apply sieve_mix_songs_well_formed|].
  ut_fields. apply sieve_keeps. intros _. apply negb_true_iff, Z.eqb_neq. cbn.
  intros ->. by eapply own_mix_ne.
Qed.
Lemma delete_album_artists_good a t : own p t a → good p t (delete_album_artists a t).
Proof.
  intros Ho Hwf. split; [by apply sieve_album_artists_well_formed|].
  ut_fields. apply sieve_keeps. intros _. apply negb_true_iff, Z.eqb_neq. cbn.
  intros ->. by eapply foreign_ne.
Qed.
Lemma delete_song_artists_good a t : own p t a → good p t (delete_song_artists a t).
Proof.
  intros Ho Hwf. split; [by apply sieve_song_artists_well_formed|].
  ut_fields. apply sieve_keeps. intros _. apply negb_true_iff, Z.eqb_neq. cbn.
  intros ->. by eapply foreign_ne.
Qed.
Lemma delete_image_good k t : own p t k.1 → good p t (with_image (delete k) t).
Proof.
  intros Ho Hwf. split; [by apply delete_image_well_formed|].
  ut_fields. apply lookup_delete_ne. intros ->. by eapply foreign_ne.
Qed.

(** *** Deletions *)

(** What hangs together within a library belongs to one provider. *)
Lemma same_library_provider t i j a b :
  well_formed t → same_library t i j → t_item t !! i = Some a → t_item t !! j = Some b →
  ¬ mix_type (i_type a) → i_provider a = i_provider b.
Proof.
  intros [_ _ [_ Hsv] Hty] Hs Ha Hb Hm. specialize (Hs _ _ Ha Hb).
  destruct (i_library a) as [l|] eqn:Hl; [|by destruct Hm; eapply ty_global].
  destruct (Hsv _ _ _ Ha Hl) as [lr Hlr].
  rewrite <- (ty_provider _ Hty _ _ _ _ Ha Hl Hlr). by eapply ty_provider.
Qed.

Section delete_items.
#[local] Set Default Proof Using "Type*".
Variables (dead : Z → Item → bool) (t : Tables).
Hypothesis Hdead : ∀ i r, t_item t !! i = Some r → dead i r = true → i_provider r = p.
Hypothesis Hwf : well_formed t.

Lemma foreign_stays i : foreign p t i → gone dead t i = false.
Proof.
  intros (r & Hr & Hp). unfold gone. rewrite Hr. cbn. apply not_true_iff_false.
  intros Hd. by apply Hp, (Hdead i).
Qed.
(** What is in the library of an item that stays stays. *)
Lemma library_stays i j :
  foreign p t i → same_library t i j → (∀ r, t_item t !! i = Some r → ¬ mix_type (i_type r)) →
  gone dead t j = false.
Proof.
  intros (a & Ha & Hp) Hs Hm. destruct (t_item t !! j) as [b|] eqn:Hb.
  - apply foreign_stays. exists b. split; [done|].
    by rewrite <- (same_library_provider _ _ _ _ _ Hwf Hs Ha Hb (Hm _ Ha)).
  - unfold gone. by rewrite Hb.
Qed.
Lemma song_stays i r :
  foreign p t i → t_song t !! i = Some r → is_some_and (so_album r) (gone dead t) = false.
Proof.
  intros Hi Hr. apply is_some_and_false. intros a Ha. eapply library_stays; [done| |].
  - by eapply ty_song_album; [apply Hwf|..].
  - intros m Hm. rewrite (ty_song _ (wf_typed _ Hwf) _ _ _ Hr Hm). by intros [|].
Qed.
(** The first cascade deletes no song of another provider. *)
Lemma album_cascade_spares i (m : gmap Z Song) :
  foreign p t i → m ⊆ t_song t →
  is_some_and (m !! i) (λ r, is_some_and (so_album r) (gone dead t)) = false.
Proof.
  intros Hi Hm. apply is_some_and_false. intros r Hr. eapply song_stays; [done|].
  by eapply lookup_weaken.
Qed.

Lemma delete_items_untouched : untouched p t (delete_items dead t).
Proof.
  split.
  - done.
  - intros i r Hp. rewrite delete_items_item. split; [naive_solver|]. intros Hr. split; [done|].
    apply not_true_iff_false. intros Hd. by apply Hp, (Hdead i).
  - intros i Hi. apply option_eq. intros r. rewrite delete_items_album.
    rewrite foreign_stays by done. naive_solver.
  - intros i Hi. apply option_eq. intros r. rewrite delete_items_artist.
    rewrite foreign_stays by done. naive_solver.
  - intros i Hi. apply option_eq. intros r. rewrite delete_items_song.
    rewrite foreign_stays by done. split; [naive_solver|]. intros Hr.
    split_and!; [done..|by eapply song_stays].
  - intros i Hi. apply option_eq. intros r. rewrite delete_items_remote_mix.
    rewrite foreign_stays by done. naive_solver.
  - intros i Hi. apply option_eq. intros r. rewrite delete_items_dynamic.
    rewrite foreign_stays by done. naive_solver.
  - intros i k Hi. apply option_eq. intros r. rewrite delete_items_image.
    rewrite foreign_stays by done. naive_solver.
  - intros i b Hi. cbn. apply option_eq. intros u. rewrite !lookup_sieve, !negb_true_iff. cbn.
    fold (gone dead t). split; [naive_solver|]. intros Hu.
    split_and!; [done|by apply foreign_stays|]. eapply library_stays; [done| |].
    + by eapply ty_album_artist; [apply Hwf|].
    + destruct (ln_album_artist _ (wf_linked _ Hwf) _ _ _ Hu) as [[ra Ha] _].
      intros m Hm. rewrite (ty_album _ (wf_typed _ Hwf) _ _ _ Ha Hm). by intros [|].
  - intros i b Hi. cbn. apply option_eq. intros u. rewrite !lookup_sieve, !negb_true_iff. cbn.
    fold (gone dead t). split; [naive_solver|]. intros Hu.
    split_and!; [done|by apply album_cascade_spares| |].
    + eapply library_stays; [done| |].
      * by eapply ty_song_artist; [apply Hwf|].
      * destruct (ln_song_artist _ (wf_linked _ Hwf) _ _ _ Hu) as [[rs Hs] _].
        intros m Hm. rewrite (ty_song _ (wf_typed _ Hwf) _ _ _ Hs Hm). by intros [|].
    + apply is_some_and_false. intros. by apply foreign_stays.
  - intros m r Hm Hr. cbn. rewrite lookup_sieve, negb_true_iff. split; [done|].
    apply is_some_and_false. intros i Hi. apply foreign_stays. auto.
  - intros m r i Hm Hr Hi. cbn. apply option_eq. intros u.
    rewrite !lookup_sieve, !negb_true_iff. cbn. fold (gone dead t).
    split; [naive_solver|]. intros Hu. split_and!; [done|by apply album_cascade_spares| |].
    + apply is_some_and_false. intros. by apply foreign_stays.
    + rewrite Hm. cbn. apply is_some_and_false. intros j Hj. apply foreign_stays. auto.
Qed.
End delete_items.
Lemma delete_items_good dead t :
  (∀ i r, t_item t !! i = Some r → dead i r = true → i_provider r = p) →
  good p t (delete_items dead t).
Proof.
  intros Hd Hwf. split; [by apply delete_items_well_formed|by apply delete_items_untouched].
Qed.

Lemma delete_libraries_split dead t :
  delete_libraries dead t =
  with_library (sieve (λ l r, negb (dead l r)))
    (delete_items (λ _ r, is_some_and (i_library r)
       (λ l, is_some_and (t_library t !! l) (dead l))) t).
Proof. reflexivity. Qed.

Lemma delete_libraries_good dead t :
  (∀ l r, t_library t !! l = Some r → dead l r = true → lb_provider r = p) →
  good p t (delete_libraries dead t).
Proof.
  intros Hdead Hwf. split; [by apply delete_libraries_well_formed|].
  rewrite delete_libraries_split.
  match goal with |- untouched p t (with_library _ (delete_items ?d t)) =>
    assert (untouched p t (delete_items d t)) as Hu end.
  { apply delete_items_untouched; [|done]. intros i r Hi Hd.
    apply is_some_and_true in Hd as (l & Hl & Hd). apply is_some_and_true in Hd as (lr & Hlr & Hd).
    rewrite <- (ty_provider _ (wf_typed _ Hwf) _ _ _ _ Hi Hl Hlr). by eapply Hdead. }
  revert Hu. generalize (delete_items (λ _ r, is_some_and (i_library r)
       (λ l, is_some_and (t_library t !! l) (dead l))) t). intros t1 [].
  split; cbn; try assumption.
  intros l r Hp. rewrite lookup_sieve, negb_true_iff. rewrite ut_library0 by done.
  split; [naive_solver|]. intros Hl. split; [done|]. apply not_true_iff_false. intros Hd.
  by apply Hp, (Hdead l).
Qed.

Lemma delete_mixes_good id t :
  own p t id → good p t (delete_mixes (λ _ x, bool_decide (mx_remote x = Some id)) t).
Proof.
  intros Ho Hwf. split; [by apply delete_mixes_well_formed|].
  assert (∀ r, (∀ i, mx_remote r = Some i → foreign p t i) → mx_remote r ≠ Some id) as Hne.
  { intros r Hr Hi. by apply (foreign_ne p t id id Ho (Hr _ Hi)). }
  split; cbn; intros; try done.
  - rewrite lookup_sieve. split; [done|]. apply negb_true_iff, bool_decide_eq_false. by apply Hne.
  - apply sieve_keeps. intros _. apply negb_true_iff, is_some_and_false. cbn. intros x Hx.
    apply bool_decide_eq_false. simplify_eq. by apply Hne.
Qed.

Lemma untouched_providers dead f t :
  untouched p t (delete_libraries dead t) → untouched p t (delete_libraries dead (with_providers f t)).
Proof.
  assert (delete_libraries dead (with_providers f t) = with_providers f (delete_libraries dead t))
    as -> by reflexivity.
  generalize (delete_libraries dead t). intros t' []. by split.
Qed.
End statements.
