(* ===== verification/Coordinator.v ===== *)
(** * Library synchronisation: the coordinator

    [SyncCoordinator], [WriteGuard] and [WriteGeneration] of
    [backend/core/src/db/sync_run.rs] over the tables of [Tables.v].

    A guard holds the lock of its provider until it is dropped, so what is done under one is a
    sequence of steps of the model; a guard is named by its provider. At every statement the
    environment may make the database fail, cancel a run or move a provider's generation on,
    as other threads may between two statements. *)
From S2P Require Import Prelude Tables.
From stdpp Require Import options.

Definition MAX_SEEN : Z := 200000.

Record WriteState := mk_WriteState {
  ws_revision : Z; ws_changes : Z; ws_favorites : gmap Z Z; ws_favorite_overflow : Z
}.
Record ProviderState := mk_ProviderState {
  ps_writes : WriteState; ps_retained : gmap Z Z; ps_active : Z; ps_sequence : Z
}.
(** The coordinator with the database, the generation counters that are shared by reference
    ([sy_current], by the name of the counter), and the number of steps so far. *)
Record Sync := mk_Sync {
  sy_tables : Tables; sy_providers : gmap Z ProviderState; sy_projection : Z;
  sy_epochs : gmap Z Z; sy_current : gmap Z Z; sy_tick : nat
}.

Definition WriteState_default : WriteState := mk_WriteState 0 0 ∅ 0.
Definition ProviderState_default : ProviderState := mk_ProviderState WriteState_default ∅ 0 0.

Definition with_tables (t : Tables) (s : Sync) : Sync :=
  mk_Sync t (sy_providers s) (sy_projection s) (sy_epochs s) (sy_current s) (sy_tick s).
Definition with_provider (p : Z) (st : ProviderState) (s : Sync) : Sync :=
  mk_Sync (sy_tables s) (<[p := st]> (sy_providers s)) (sy_projection s) (sy_epochs s)
    (sy_current s) (sy_tick s).
Definition with_projection (n : Z) (s : Sync) : Sync :=
  mk_Sync (sy_tables s) (sy_providers s) n (sy_epochs s) (sy_current s) (sy_tick s).
Definition with_epochs (m : gmap Z Z) (s : Sync) : Sync :=
  mk_Sync (sy_tables s) (sy_providers s) (sy_projection s) m (sy_current s) (sy_tick s).
Definition with_current (m : gmap Z Z) (s : Sync) : Sync :=
  mk_Sync (sy_tables s) (sy_providers s) (sy_projection s) (sy_epochs s) m (sy_tick s).
Definition with_tick (n : nat) (s : Sync) : Sync :=
  mk_Sync (sy_tables s) (sy_providers s) (sy_projection s) (sy_epochs s) (sy_current s) n.

Definition with_active (a : Z) (st : ProviderState) : ProviderState :=
  mk_ProviderState (ps_writes st) (ps_retained st) a (ps_sequence st).
Definition with_writes (w : WriteState) (st : ProviderState) : ProviderState :=
  mk_ProviderState w (ps_retained st) (ps_active st) (ps_sequence st).
Definition with_retained (m : gmap Z Z) (st : ProviderState) : ProviderState :=
  mk_ProviderState (ps_writes st) m (ps_active st) (ps_sequence st).
Definition with_sequence (n : Z) (st : ProviderState) : ProviderState :=
  mk_ProviderState (ps_writes st) (ps_retained st) (ps_active st) n.

(** [state(provider)]: the entry, created on first use. *)
Definition state (p : Z) (s : Sync) : ProviderState :=
  default ProviderState_default (sy_providers s !! p).
Definition active (p : Z) (s : Sync) : Z := ps_active (state p s).

(** ** The environment *)

Inductive Event :=
| Cancel (provider token : Z)
| SetGeneration (cell value : Z).

(** [registered]: the providers of the process-wide registry. *)
Class Environment := {
  fault : nat → bool;
  events : nat → list Event;
  clock : nat → Z;
  registered : Z → bool;
}.

(** [SyncCancellation::cancel] and [SyncRun::drop]: [compare_exchange(token, 0)]. *)
Definition cancel (p token : Z) (s : Sync) : Sync :=
  if active p s =? token then with_provider p (with_active 0 (state p s)) s else s.
Definition happen (s : Sync) (e : Event) : Sync :=
  match e with
  | Cancel p token => cancel p token s
  | SetGeneration cell value => with_current (<[cell := value]> (sy_current s)) s
  end.

Definition SyncM (A : Type) : Type := ST Sync DbErr A.

Definition error {A} (message : string) : SyncM A := fail (Custom message).
Definition require (b : bool) (message : string) : SyncM unit := guard_st b (Custom message).

Section coordinator.
Context `{Environment}.

Definition external (s : Sync) : Sync :=
  with_tick (S (sy_tick s)) (foldl happen s (events (sy_tick s))).

(** One statement on the database. *)
Definition run_statement {A} (f : Tables → result DbErr (A * Tables)) : SyncM A := λ s,
  let s' := external s in
  if fault (sy_tick s) then (Err Failed, s') else
  match f (sy_tables s') with
  | Ok (a, t) => (Ok a, with_tables t s')
  | Err e => (Err e, s')
  end.
Definition query {A} (f : Tables → A) : SyncM A := run_statement (λ t, Ok (f t, t)).
Definition exec (f : Tables → result DbErr Tables) : SyncM unit :=
  run_statement (λ t, t' ← f t ; mret (tt, t')).
Definition exec_all (f : Tables → Tables) : SyncM unit := run_statement (λ t, Ok (tt, f t)).
Definition exec_key (f : Tables → result DbErr (Z * Tables)) : SyncM Z := run_statement f.

Definition Timestamp_now : SyncM Z := λ s, (Ok (clock (sy_tick s)), external s).

(** [begin], [body], [commit]; a transaction dropped on an error is rolled back, and the
    tables it wrote are the only thing that comes back. *)
Definition transaction {A} (body : SyncM A) : SyncM A := λ s,
  match (query (λ _, tt) ;; a ← body ; query (λ _, tt) ;; mret a) s with
  | (Ok a, s') => (Ok a, s')
  | (Err e, s') => (Err e, with_tables (sy_tables s) s')
  end.

(** ** [SyncCoordinator] *)

Definition read_snapshot : SyncM (Z * gmap Z Z) := gets (λ s, (sy_projection s, sy_epochs s)).
Definition read_revision (p : Z) : SyncM Z := gets (λ s, ws_changes (ps_writes (state p s))).

Definition update_writes (p : Z) (f : WriteState → result DbErr WriteState) : SyncM unit := λ s,
  match f (ps_writes (state p s)) with
  | Ok w => (Ok tt, with_provider p (with_writes w (state p s)) s)
  | Err e => (Err e, s)
  end.

(** [write] and [write_guard]: a guard on the provider's tables, for the run that has the
    token or, without one, for any other writer, which moves the revision on. *)
Definition write (p : Z) (origin : option Z) : SyncM unit :=
  match origin with
  | Some token =>
      now ← gets (active p) ;
      require (now =? token) "sync session is no longer active"
  | None =>
      update_writes p (λ w,
        r ← ok_or (checked_add (ws_revision w) 1) (Custom "write revision exhausted") ;
        mret (mk_WriteState r (ws_changes w) (ws_favorites w) (ws_favorite_overflow w)))
  end ;;
  update_writes p (λ w,
    c ← ok_or (checked_add (ws_changes w) 1) (Custom "read revision exhausted") ;
    mret (mk_WriteState (ws_revision w) c (ws_favorites w) (ws_favorite_overflow w))) ;;
  n ← gets sy_projection ;
  n' ← lift (ok_or (checked_add n 1) (Custom "projection revision exhausted")) ;
  modify (with_projection n').

(** [sort_unstable], [insert(0, 0)] and [dedup]. *)
Fixpoint dedup (l : list Z) : list Z :=
  match l with
  | x :: (y :: _) as k => if x =? y then dedup k else x :: dedup k
  | l => l
  end.
Definition lock_order (providers : list Z) : list Z := dedup (0 :: merge_sort Z.le providers).

Definition write_items (ids : list Z) : SyncM (list Z) :=
  providers ← query (λ t, remove_dups (omap (λ i, i_provider <$> t_item t !! i) ids)) ;
  (fix guards l :=
     match l with
     | [] => mret []
     | p :: l => write p None ;; rest ← guards l ; mret (p :: rest)
     end) (lock_order providers).
Definition write_mixes (ids items : list Z) : SyncM (list Z) :=
  remotes ← query (λ t, omap (λ m, t_mix t !! m ≫= mx_remote) ids) ;
  write_items (items ++ remotes).

(** The fields of a new [SyncRun]: its token and the revision it starts from. *)
Definition start (p : Z) : SyncM (Z * Z) :=
  st ← gets (state p) ;
  require (ps_active st =? 0) "full sync is already running" ;;
  modify (with_provider p (with_sequence (wadd (ps_sequence st) 1) st)) ;;
  token ← lift (ok_or (checked_add (ps_sequence st) 1) (Custom "sync generation exhausted")) ;
  modify (λ s, with_provider p (with_active token (state p s)) s) ;;
  modify (λ s, with_provider p (with_writes
    (mk_WriteState (ws_revision (ps_writes (state p s))) (ws_changes (ps_writes (state p s))) ∅ 0)
    (state p s)) s) ;;
  mret (token, ws_revision (ps_writes st)).

(** ** [WriteGuard] *)

Definition bump_epoch (p : Z) (message : string) : SyncM unit :=
  m ← gets sy_epochs ;
  e ← lift (ok_or (checked_add (default 0 (m !! p)) 1) (Custom message)) ;
  modify (with_epochs (<[p := e]> m)).
Definition invalidate_scope (p : Z) : SyncM unit :=
  bump_epoch p "scope epoch exhausted" ;;
  if p =? 0 then mret tt else bump_epoch 0 "local scope epoch exhausted".
Definition retained_items (p : Z) (s : Sync) : gset Z := dom (ps_retained (state p s)).
Definition invalidate_sync (p : Z) : SyncM unit :=
  modify (λ s, with_provider p (with_active 0 (state p s)) s).
Definition check_origin (p : Z) (token : option Z) : SyncM unit :=
  now ← gets (active p) ;
  require (is_none_or token (λ tk, now =? tk)) "sync session is no longer active".
Definition favorite (p id : Z) : SyncM unit :=
  st ← gets (state p) ;
  if ps_active st =? 0 then mret tt else
  let w := ps_writes st in
  modify (with_provider p (with_writes
    (if Z.of_nat (size (ws_favorites w)) <? MAX_SEEN
     then mk_WriteState (ws_revision w) (ws_changes w) (<[id := ws_revision w]> (ws_favorites w))
            (ws_favorite_overflow w)
     else mk_WriteState (ws_revision w) (ws_changes w) (ws_favorites w) (ws_revision w)) st)).
Definition favorite_changed_after (p id revision : Z) (s : Sync) : bool :=
  let w := ps_writes (state p s) in
  (revision <? ws_favorite_overflow w) ||
  is_some_and (ws_favorites w !! id) (λ r, revision <? r).

(** ** [WriteGeneration] *)

Record WriteGeneration := mk_WriteGeneration { wg_current : Z; wg_expected : Z }.
Definition check_generation (g : option WriteGeneration) : SyncM unit :=
  match g with
  | None => mret tt
  | Some g =>
      now ← gets (λ s, default 0 (sy_current s !! wg_current g)) ;
      require (now =? wg_expected g) "provider generation changed"
  end.

(** ** Requests that write to the library outside a run *)

(** [resolve_provider_item] of [provider_item.rs]: the item behind an identifier of the user
    interface; a mix stands for the remote mix it mirrors. *)
Definition resolve_provider_item (id kind : Z) : SyncM (option (Z * Item)) :=
  require (0 <? id) "wrong id" ;;
  kind ← lift (ok_or (ItemType.try_from kind) (Custom "no such item type")) ;
  let kind := match kind with ItemType.AlbumArtist => ItemType.Artist | k => k end in
  remote ← match kind with
           | ItemType.Mix =>
               mix ← query (λ t, t_mix t !! id) ;
               mix ← lift (ok_or mix (Custom "no such mix")) ;
               mret (mx_remote mix)
           | ItemType.Song | ItemType.Album | ItemType.Artist => mret (Some id)
           | _ => mret None
           end ;
  match remote with
  | None => mret None
  | Some id =>
      item ← query (λ t, t_item t !! id) ;
      item ← lift (ok_or item (Custom "not found")) ;
      require (bool_decide (i_type item = kind)) "wrong id" ;;
      require (registered (i_provider item)) "no such provider" ;;
      mret (Some (id, item))
  end.

(** [SetFavoriteReq] of [process_qcm.rs]; the provider's own answer is a step of the
    environment, which may fail. *)
Definition favorite_row (id : Z) (value : option Z) (now : Z) (t : Tables) : result DbErr Tables :=
  match t_dynamic t !! id with
  | Some _ => update_dynamic id (λ r, mk_Dynamic (dy_external r) (dy_play_count r)
      (dy_remote_play_count r) (dy_last_position r) (dy_last_played r)
      (dy_remote_last_played r) value (dy_update r)) t
  | None => insert_dynamic id (mk_Dynamic false 0 0 None None None value now) t
  end.
Definition set_favorite (id kind : Z) (value : bool) : SyncM unit :=
  target ← resolve_provider_item id kind ;
  '(i, item) ← lift (ok_or target (Custom "unsupported item type")) ;
  query (λ _, tt) ;;
  write (i_provider item) None ;;
  favorite (i_provider item) i ;;
  match i_type item with
  | ItemType.Album | ItemType.Song | ItemType.Artist =>
      now ← Timestamp_now ;
      exec (favorite_row i (if value then Some now else None) now)
  | _ => mret tt
  end.
(** [DeleteProviderReq] of [process_qcm.rs], up to the release of the guard. *)
Definition delete_provider_req (p : Z) : SyncM unit :=
  write p None ;;
  invalidate_sync p ;;
  exec_all (delete_provider p) ;;
  invalidate_scope p.

End coordinator.
