(* ===== verification/Batch.v ===== *)
(** * Library synchronisation: batches

    [backend/core/src/db/sync_batch.rs]: the batches of rows a provider sends, and
    [ProviderWriter], which writes one in a transaction under the guard of its provider. The
    structures of [entity_input!] keep the fields the macro repeats in one record; the size
    of a batch as JSON is [serde_json]'s, a parameter. The text of the message for a missing
    reference leaves out the reference. *)
From S2P Require Import Prelude Tables Coordinator.
From Stdlib Require Import SpecFloat.
From stdpp Require Import options.

Open Scope string_scope.
Open Scope Z_scope.
Open Scope list_scope.

(** ** Input *)

Inductive Patch (T : Type) := Missing | Set_ (value : T).
Arguments Missing {T}.
Arguments Set_ {T} value.

Record ItemKey := mk_ItemKey {
  k_native : string; k_library : Patch (option Z); k_type : ItemType.t; k_id : option Z
}.
Inductive ItemRef := Id (id : Z) | Key (key : ItemKey).

Record Mask := mk_Mask { mk_include : option (list string); mk_exclude : option (list string) }.

Definition invalid {A} (message : string) : result DbErr A := Err (Custom message).

Definition contains (l : list string) (name : string) : bool :=
  existsb (λ n, (n =? name)%string) l.

Definition validate_mask (m : Mask) (fields : list string) : result DbErr unit :=
  match mk_include m, mk_exclude m with
  | Some _, Some _ => invalid "include and exclude are mutually exclusive"
  | i, e =>
      match find (λ name, negb (contains fields name)) (default [] i ++ default [] e) with
      | Some name => invalid ("unknown mask field: " +:+ name)
      | None => Ok tt
      end
  end.
Definition allows (m : Mask) (name : string) : bool :=
  is_none_or (mk_include m) (λ v, contains v name) &&
  is_none_or (mk_exclude m) (λ v, negb (contains v name)).

(** [entity_input!]: what the macro generates for every structure. *)
Record EntityInput (F : Type) := mk_EntityInput {
  en_item : ItemRef; en_on_insert : option F; en_fields : F
}.
Arguments mk_EntityInput {F} en_item en_on_insert en_fields.
Arguments en_item {F}.
Arguments en_on_insert {F}.
Arguments en_fields {F}.

(** One field of [apply]. *)
Definition set_field {T} (inserted : bool) (mask : Mask) (name : string)
    (fallback : option (Patch T)) (value : Patch T) (old : T) : T :=
  let old := match inserted, fallback with true, Some (Set_ v) => v | _, _ => old end in
  if inserted || allows mask name
  then match value with Set_ v => v | Missing => old end
  else old.
Definition apply_field {F T} (i : EntityInput F) (inserted : bool) (mask : Mask)
    (name : string) (get : F → Patch T) (old : T) : T :=
  set_field inserted mask name (get <$> en_on_insert i) (get (en_fields i)) old.

Record AlbumFields := mk_AlbumFields {
  af_name : Patch string; af_sort_name : Patch (option string); af_track_count : Patch Z;
  af_disc_count : Patch Z; af_type : Patch AlbumType.t; af_duration : Patch Z;
  af_language : Patch (option string); af_description : Patch (option string);
  af_company : Patch (option string); af_publish_time : Patch (option Z);
  af_added_at : Patch (option Z)
}.
Definition album_field_names : list string :=
  ["name"; "sort_name"; "track_count"; "disc_count"; "type"; "duration"; "language";
   "description"; "company"; "publish_time"; "added_at"].
Definition apply_album (i : EntityInput AlbumFields) (m : Album) (inserted : bool)
    (mask : Mask) : result DbErr Album :=
  validate_mask mask album_field_names ;;
  let set {T} := apply_field (T := T) i inserted mask in
  mret (mk_Album (set "name" af_name (al_name m)) (set "sort_name" af_sort_name (al_sort_name m))
    (set "track_count" af_track_count (al_track_count m))
    (set "disc_count" af_disc_count (al_disc_count m)) (set "type" af_type (al_type m))
    (set "duration" af_duration (al_duration m)) (set "language" af_language (al_language m))
    (set "description" af_description (al_description m))
    (set "company" af_company (al_company m))
    (set "publish_time" af_publish_time (al_publish_time m))
    (set "added_at" af_added_at (al_added_at m))).

Record ArtistFields := mk_ArtistFields {
  tf_name : Patch string; tf_sort_name : Patch (option string); tf_description : Patch string;
  tf_album_count : Patch Z; tf_music_count : Patch Z; tf_added_at : Patch (option Z)
}.
Definition artist_field_names : list string :=
  ["name"; "sort_name"; "description"; "album_count"; "music_count"; "added_at"].
Definition apply_artist (i : EntityInput ArtistFields) (m : Artist) (inserted : bool)
    (mask : Mask) : result DbErr Artist :=
  validate_mask mask artist_field_names ;;
  let set {T} := apply_field (T := T) i inserted mask in
  mret (mk_Artist (set "name" tf_name (ar_name m))
    (set "sort_name" tf_sort_name (ar_sort_name m))
    (set "description" tf_description (ar_description m))
    (set "album_count" tf_album_count (ar_album_count m))
    (set "music_count" tf_music_count (ar_music_count m))
    (set "added_at" tf_added_at (ar_added_at m))).

Record SongFields := mk_SongFields {
  sf_name : Patch string; sf_sort_name : Patch (option string); sf_track_number : Patch Z;
  sf_disc_number : Patch Z; sf_duration : Patch Z; sf_can_play : Patch bool;
  sf_popularity : Patch spec_float; sf_tags : Patch (list string);
  sf_publish_time : Patch (option Z); sf_added_at : Patch (option Z)
}.
Record SongInput := mk_SongInput {
  si_entity : EntityInput SongFields; si_album : Patch (option ItemRef)
}.
Definition song_field_names : list string :=
  ["name"; "sort_name"; "track_number"; "disc_number"; "duration"; "can_play"; "popularity";
   "tags"; "publish_time"; "added_at"; "album_id"].
Definition map_patch {A B} (f : A → B) (p : Patch A) : Patch B :=
  match p with Missing => Missing | Set_ a => Set_ (f a) end.
(** [Vec<String>::into] a JSON value. *)
Definition json_strings (l : list string) : Json := JArray (JString <$> l).
Definition apply_song (i : SongInput) (m : Song) (inserted : bool) (mask : Mask) :
    result DbErr Song :=
  validate_mask mask song_field_names ;;
  let set {T} := apply_field (T := T) (si_entity i) inserted mask in
  mret (mk_Song (set "name" sf_name (so_name m)) (set "sort_name" sf_sort_name (so_sort_name m))
    (so_album m) (set "track_number" sf_track_number (so_track_number m))
    (set "disc_number" sf_disc_number (so_disc_number m))
    (set "duration" sf_duration (so_duration m)) (set "can_play" sf_can_play (so_can_play m))
    (set "popularity" sf_popularity (so_popularity m))
    (set "tags" (λ f, map_patch json_strings (sf_tags f)) (so_tags m))
    (set "publish_time" sf_publish_time (so_publish_time m))
    (set "added_at" sf_added_at (so_added_at m))).

Record RemoteMixFields := mk_RemoteMixFields {
  rf_name : Patch string; rf_description : Patch (option string); rf_track_count : Patch Z;
  rf_mix_type : Patch string
}.
Definition remote_mix_field_names : list string :=
  ["name"; "description"; "track_count"; "mix_type"].
Definition apply_remote_mix (i : EntityInput RemoteMixFields) (m : RemoteMix)
    (inserted : bool) (mask : Mask) : result DbErr RemoteMix :=
  validate_mask mask remote_mix_field_names ;;
  let set {T} := apply_field (T := T) i inserted mask in
  mret (mk_RemoteMix (set "name" rf_name (rm_name m))
    (set "description" rf_description (rm_description m))
    (set "track_count" rf_track_count (rm_track_count m))
    (set "mix_type" rf_mix_type (rm_mix_type m))).

Record DynamicFields := mk_DynamicFields {
  df_external : Patch bool; df_remote_play_count : Patch Z;
  df_remote_last_played : Patch (option Z); df_favorite_at : Patch (option Z)
}.
Record DynamicInput := mk_DynamicInput {
  di_entity : EntityInput DynamicFields; di_favorite : Patch bool
}.
Definition dynamic_field_names : list string :=
  ["is_external"; "remote_play_count"; "remote_last_played_at"; "favorite_at"; "favorite"].
Definition apply_dynamic (i : DynamicInput) (m : Dynamic) (inserted : bool) (mask : Mask) :
    result DbErr Dynamic :=
  validate_mask mask dynamic_field_names ;;
  let set {T} := apply_field (T := T) (di_entity i) inserted mask in
  mret (mk_Dynamic (set "is_external" df_external (dy_external m)) (dy_play_count m)
    (set "remote_play_count" df_remote_play_count (dy_remote_play_count m))
    (dy_last_position m) (dy_last_played m)
    (set "remote_last_played_at" df_remote_last_played (dy_remote_last_played m))
    (set "favorite_at" df_favorite_at (dy_favorite m)) (dy_update m)).

Record LibraryInput := mk_LibraryInput { li_native : string; li_name : string }.
Record ImageInput := mk_ImageInput {
  ii_item : ItemRef; ii_type : ImageType.t; ii_native : Patch (option string);
  ii_fresh : Patch string; ii_remove : bool
}.
Inductive RelationMode := Merge | Replace.
Record RelationInput := mk_RelationInput {
  ri_owner : ItemRef; ri_mode : RelationMode; ri_targets : list ItemRef
}.
Record SongAlbumInput := mk_SongAlbumInput { sa_song : ItemRef; sa_album : option ItemRef }.
Record MixContents := mk_MixContents {
  mc_mix : ItemRef; mc_mode : RelationMode; mc_songs : list ItemRef
}.
Record BatchOptions := mk_BatchOptions {
  bo_albums : Mask; bo_artists : Mask; bo_songs : Mask; bo_remote_mixes : Mask;
  bo_dynamics : Mask
}.
Record SyncBatch := mk_SyncBatch {
  sb_libraries : list LibraryInput;
  sb_albums : list (EntityInput AlbumFields);
  sb_artists : list (EntityInput ArtistFields);
  sb_songs : list SongInput;
  sb_remote_mixes : list (EntityInput RemoteMixFields);
  sb_dynamics : list DynamicInput;
  sb_images : list ImageInput;
  sb_song_albums : list SongAlbumInput;
  sb_album_artists : list RelationInput;
  sb_song_artists : list RelationInput;
  sb_remote_mix_contents : list MixContents;
  sb_options : BatchOptions
}.
(** Rows with their keys. *)
Record SyncResult := mk_SyncResult {
  sr_libraries : list (Z * LibraryRow); sr_items : list (Z * Item);
  sr_albums : list (Z * Album); sr_artists : list (Z * Artist); sr_songs : list (Z * Song);
  sr_remote_mixes : list (Z * RemoteMix)
}.

(** [serde_json::to_writer]: the length of the text of a batch. *)
Class BatchCodec := json_length : SyncBatch → Z.

(** The limits checked before anything is written. *)
Definition zsum (l : list Z) : Z := foldr Z.add 0 l.
Definition check_batch `{BatchCodec} (b : SyncBatch) : result DbErr unit :=
  validate_mask (bo_albums (sb_options b)) album_field_names ;;
  validate_mask (bo_artists (sb_options b)) artist_field_names ;;
  validate_mask (bo_songs (sb_options b)) song_field_names ;;
  validate_mask (bo_remote_mixes (sb_options b)) remote_mix_field_names ;;
  validate_mask (bo_dynamics (sb_options b)) dynamic_field_names ;;
  let count := zlen (sb_libraries b) + zlen (sb_albums b) + zlen (sb_artists b) +
               zlen (sb_songs b) + zlen (sb_remote_mixes b) + zlen (sb_dynamics b) +
               zlen (sb_images b) + zlen (sb_remote_mix_contents b) in
  ensure (count <=? 500) (Custom "batch entity limit exceeded") ;;
  let refs := zlen (sb_song_albums b) * 2 +
              zsum ((λ r, zlen (ri_targets r) + 1) <$> (sb_album_artists b ++ sb_song_artists b)%list) in
  ensure ((refs <=? 5000) &&
          (zsum ((λ m, zlen (mc_songs m)) <$> sb_remote_mix_contents b) <=? 10000))
    (Custom "batch reference limit exceeded") ;;
  ensure (json_length b <=? 4 * 1024 * 1024) (Custom "batch byte limit exceeded").

(** ** [ProviderWriter]: references *)

Record ProviderWriter := mk_ProviderWriter {
  w_provider : Z; w_run : option (Z * Z); w_generation : option WriteGeneration
}.

Definition item_query (p : Z) (key : ItemKey) (library : option Z) (r : Item) : bool :=
  (i_provider r =? p) && (i_native r =? k_native key)%string &&
  bool_decide (i_type r = k_type key) && bool_decide (i_library r = library).

Definition type_in (l : list ItemType.t) (ty : ItemType.t) : bool := bool_decide (ty ∈ l).

Section writer.
Context `{Environment} (w : ProviderWriter).

Definition owns_library (id : Z) : SyncM bool :=
  library ← query (λ t, t_library t !! id) ;
  match library with
  | None => mret false
  | Some l =>
      require (lb_provider l =? w_provider w) "library belongs to another provider" ;;
      mret true
  end.

Definition library_optional (key : ItemKey) : SyncM (option (option Z)) :=
  require (negb ((k_native key =? "")%string || (4096 <? Z.of_nat (String.length (k_native key)))))
    "invalid native_id" ;;
  match k_library key with
  | Missing => error "library_id is required; use null for global items"
  | Set_ (Some id) =>
      own ← owns_library id ;
      mret (if own : bool then Some (Some id) else None)
  | Set_ None =>
      require (type_in [ItemType.Mix; ItemType.Radio] (k_type key))
        "only mixes and radio queues may be global" ;;
      mret (Some None)
  end.
Definition library (key : ItemKey) : SyncM (option Z) :=
  l ← library_optional key ;
  lift (ok_or l (Custom "missing library")).

Definition resolve_key (key : ItemKey) : SyncM (option (Z * Item)) :=
  l ← library_optional key ;
  match l with
  | None => mret None
  | Some l =>
      found ← query (λ t, find_first (item_query (w_provider w) key l) (t_item t)) ;
      require (negb (is_some_and (k_id key) (λ id, is_some_and found (λ m, negb (id =? m.1)))))
        "item id does not match key" ;;
      mret found
  end.

Definition resolve_optional (item : ItemRef) (expected : list ItemType.t) :
    SyncM (option (Z * Item)) :=
  model ← match item with
          | Id id => query (λ t, pair id <$> t_item t !! id)
          | Key key =>
              require (bool_decide (expected = []) || type_in expected (k_type key))
                "item reference has wrong type" ;;
              resolve_key key
          end ;
  match model with
  | None => mret None
  | Some (id, m) =>
      require ((i_provider m =? w_provider w) &&
               (bool_decide (expected = []) || type_in expected (i_type m)))
        "item reference has wrong provider or type" ;;
      mret (Some (id, m))
  end.
Definition resolve (item : ItemRef) (expected : list ItemType.t) : SyncM (Z * Item) :=
  m ← resolve_optional item expected ;
  lift (ok_or m (Custom "missing item reference")).

Definition resolve_unique (native : string) (kind : ItemType.t) : SyncM (Z * Item) :=
  matches ← query (λ t, take 2 (filter (λ kr : Z * Item,
      ((i_provider kr.2 =? w_provider w) && (i_native kr.2 =? native)%string &&
       bool_decide (i_type kr.2 = kind)) = true) (map_to_list (t_item t)))) ;
  match matches with
  | [m] => mret m
  | [] => error "missing item reference"
  | _ => error "ambiguous item reference; supply a library"
  end.

(** [allocate]: the item of an entity, created or touched. *)
Definition touch_item (now : Z) (r : Item) : Item :=
  mk_Item (i_native r) (i_library r) (i_provider r) (i_type r) (i_create r) now now.
Definition new_item (key : ItemKey) (library : option Z) (now : Z) : Item :=
  mk_Item (k_native key) library (w_provider w) (k_type key) now now now.
Definition allocate (item : ItemRef) (expected : list ItemType.t) : SyncM (Z * Item) :=
  match item with
  | Id _ => resolve item expected
  | Key key =>
      l ← library key ;
      require (type_in expected (k_type key)) "wrong entity type" ;;
      now ← Timestamp_now ;
      found ← query (λ t, find_first (item_query (w_provider w) key l) (t_item t)) ;
      match found with
      | Some (id, m) =>
          require (is_none_or (k_id key) (λ i, i =? id)) "item id does not match key" ;;
          exec (update_item id (touch_item now)) ;;
          mret (id, touch_item now m)
      | None =>
          require (bool_decide (k_id key = None)) "supplied item id does not exist" ;;
          id ← exec_key (insert_item (new_item key l now)) ;
          mret (id, new_item key l now)
      end
  end.

(** ** [apply], part by part *)

Definition apply_library (acc : gset string * list (Z * LibraryRow)) (l : LibraryInput) :
    SyncM (gset string * list (Z * LibraryRow)) :=
  let '(seen, out) := acc in
  require (negb ((li_native l =? "")%string || bool_decide (li_native l ∈ seen)))
    "duplicate or empty library identity" ;;
  old ← query (λ t, find_first (λ r, (lb_provider r =? w_provider w) &&
                                     (lb_native r =? li_native l)%string) (t_library t)) ;
  now ← Timestamp_now ;
  row ← match old with
        | Some (id, r) =>
            let set r := mk_LibraryRow (li_name l) (lb_provider r) (lb_native r) now in
            exec (update_library id set) ;; mret (id, set r)
        | None =>
            let r := mk_LibraryRow (li_name l) (w_provider w) (li_native l) now in
            id ← exec_key (insert_library r) ; mret (id, r)
        end ;
  mret ({[li_native l]} ∪ seen, out ++ [row]).

Definition allocate_one (types : list ItemType.t) (acc : gset Z * list (Z * Item))
    (item : ItemRef) : SyncM (gset Z * list (Z * Item)) :=
  let '(ids, out) := acc in
  m ← allocate item types ;
  require (negb (bool_decide (m.1 ∈ ids))) "duplicate entity identity" ;;
  mret ({[m.1]} ∪ ids, out ++ [m]).
Definition allocate_group (types : list ItemType.t) (items : list ItemRef)
    (acc : gset Z * list (Z * Item)) : SyncM (gset Z * list (Z * Item)) :=
  fold_st (allocate_one types) acc items.

End writer.

(** What [write_entities!] uses of an input and its table. *)
Class Entity (I R : Type) := {
  e_item : I → ItemRef;
  e_types : list ItemType.t;
  e_table : Tables → gmap Z R;
  e_default : R;
  e_apply : I → R → bool → Mask → result DbErr R;
  e_name : R → string;
  e_insert : Z → R → Tables → result DbErr Tables;
  e_update : Z → R → Tables → result DbErr Tables;
}.

#[global] Instance album_entity : Entity (EntityInput AlbumFields) Album := {
  e_item := en_item; e_types := [ItemType.Album]; e_table := t_album;
  e_default := mk_Album "" None 0 0 AlbumType.Album 0 None None None None None;
  e_apply := apply_album; e_name := al_name; e_insert := insert_album; e_update := update_album
}.
#[global] Instance artist_entity : Entity (EntityInput ArtistFields) Artist := {
  e_item := en_item; e_types := [ItemType.Artist]; e_table := t_artist;
  e_default := mk_Artist "" None "" 0 0 None;
  e_apply := apply_artist; e_name := ar_name; e_insert := insert_artist;
  e_update := update_artist
}.
#[global] Instance song_entity : Entity SongInput Song := {
  e_item := λ i, en_item (si_entity i); e_types := [ItemType.Song]; e_table := t_song;
  e_default := mk_Song "" None None 0 0 0 true (S754_zero false) (JArray []) None None;
  e_apply := apply_song; e_name := so_name; e_insert := insert_song;
  e_update := λ id r, update_song id (λ _, r)
}.
#[global] Instance remote_mix_entity : Entity (EntityInput RemoteMixFields) RemoteMix := {
  e_item := en_item; e_types := [ItemType.Mix; ItemType.Radio]; e_table := t_remote_mix;
  e_default := mk_RemoteMix "" None 0 "normal";
  e_apply := apply_remote_mix; e_name := rm_name; e_insert := insert_remote_mix;
  e_update := λ id r, update_remote_mix id (λ _, r)
}.

Section apply.
Context `{Environment} (w : ProviderWriter).

(** [write_entities!]: the keys inserted and the rows written. *)
Definition write_entity {I R} `{Entity I R} (mask : Mask) (acc : gset Z * list (Z * R))
    (i : I) : SyncM (gset Z * list (Z * R)) :=
  let '(fresh, out) := acc in
  '(id, _) ← resolve w (e_item i) e_types ;
  old ← query (λ t, e_table t !! id) ;
  let inserted := bool_decide (old = None) in
  model ← lift (e_apply i (default e_default old) inserted mask) ;
  require (negb (e_name model =? "")%string) "entity name is required" ;;
  exec (if inserted then e_insert id model else e_update id model) ;;
  mret ((if inserted then {[id]} ∪ fresh else fresh), out ++ [(id, model)]).
Definition write_entities {I R} `{Entity I R} (mask : Mask) (l : list I) :
    SyncM (gset Z * list (Z * R)) :=
  fold_st (write_entity mask) (∅, []) l.

Definition check_albums (l : list (Z * Album)) : result DbErr unit :=
  ensure (forallb (λ kr, let a := kr.2 in
    negb ((al_duration a <? 0) || (al_track_count a <? 0) || (al_disc_count a <? 0))) l)
    (Custom "negative album quantity").
Definition check_artists (l : list (Z * Artist)) : result DbErr unit :=
  ensure (forallb (λ kr, let a := kr.2 in
    negb ((ar_album_count a <? 0) || (ar_music_count a <? 0))) l)
    (Custom "negative artist quantity").
Fixpoint check_songs (l : list (Z * Song)) : result DbErr unit :=
  match l with
  | [] => Ok tt
  | (_, s) :: l =>
      ensure (negb ((so_duration s <? 0) || (so_track_number s <? 0) || (so_disc_number s <? 0) ||
                    negb (is_finite (so_popularity s)))) (Custom "invalid song quantity") ;;
      ensure (is_some_and (as_array (so_tags s)) (forallb is_string))
        (Custom "song tags must be an array of strings") ;;
      check_songs l
  end.

(** The local mix that mirrors a remote one. *)
Definition mirror_mix (row : Z * RemoteMix) : SyncM unit :=
  let '(id, r) := row in
  require (negb (rm_track_count r <? 0)) "negative mix quantity" ;;
  old ← query (mix_of id) ;
  now ← Timestamp_now ;
  match old with
  | Some (m, _) =>
      exec (update_mix m (λ x, mk_Mix (rm_name r) (rm_track_count r) (mx_mix_type x)
        (mx_sort_name x) (default "" (rm_description r)) (mx_remote x) (mx_create x) now
        (mx_content_update x)))
  | None =>
      now' ← Timestamp_now ;
      _ ← exec_key (insert_mix (mk_Mix (rm_name r) (rm_track_count r) MixType.Cache None
        (default "" (rm_description r)) (Some id) now now' 0)) ;
      mret tt
  end.

Definition Dynamic_default : Dynamic := mk_Dynamic false 0 0 None None None None 0.
Definition with_favorite (f : option Z) (r : Dynamic) : Dynamic :=
  mk_Dynamic (dy_external r) (dy_play_count r) (dy_remote_play_count r) (dy_last_position r)
    (dy_last_played r) (dy_remote_last_played r) f (dy_update r).
Definition with_update (now : Z) (r : Dynamic) : Dynamic :=
  mk_Dynamic (dy_external r) (dy_play_count r) (dy_remote_play_count r) (dy_last_position r)
    (dy_last_played r) (dy_remote_last_played r) (dy_favorite r) now.
(** The columns an update of an existing row sets. *)
Definition merge_dynamic (new old : Dynamic) : Dynamic :=
  mk_Dynamic (dy_external new) (dy_play_count old) (dy_remote_play_count new)
    (dy_last_position old) (dy_last_played old) (dy_remote_last_played new) (dy_favorite new)
    (dy_update new).

(** The favourite a batch asks for. *)
Definition set_favorite_patch (i : DynamicInput) (inserted : bool) (mask : Mask)
    (model : Dynamic) : SyncM Dynamic :=
  match di_favorite i with
  | Missing => mret model
  | Set_ value =>
      require (match df_favorite_at (en_fields (di_entity i)) with
               | Missing => true | Set_ _ => false end)
        "favorite and favorite_at conflict" ;;
      if inserted || allows mask "favorite" then
        now ← Timestamp_now ;
        mret (with_favorite
                (if value then Some (default now (dy_favorite model)) else None) model)
      else mret model
  end.
Definition apply_dynamic_input (mask : Mask) (seen : gset Z) (i : DynamicInput) :
    SyncM (gset Z) :=
  '(id, _) ← resolve w (en_item (di_entity i)) [] ;
  require (negb (bool_decide (id ∈ seen))) "duplicate dynamic identity" ;;
  old ← query (λ t, t_dynamic t !! id) ;
  let inserted := bool_decide (old = None) in
  let model := default Dynamic_default old in
  let kept := dy_favorite model in
  model ← set_favorite_patch i inserted mask model ;
  model ← lift (apply_dynamic i model inserted mask) ;
  changed ← gets (λ s, is_some_and (w_run w) (λ run,
                         favorite_changed_after (w_provider w) id run.2 s)) ;
  let model := if changed : bool then with_favorite kept model else model in
  require (negb (dy_remote_play_count model <? 0)) "negative remote play count" ;;
  now ← Timestamp_now ;
  let model := with_update now model in
  exec (if inserted then insert_dynamic id model
        else update_dynamic id (merge_dynamic model)) ;;
  mret ({[id]} ∪ seen).

(** [on_conflict ... do_nothing]. *)
Definition default_dynamic (item : Z * Item) : SyncM unit :=
  now ← Timestamp_now ;
  exec (λ t, if has (t_dynamic t) item.1 then Ok t
             else insert_dynamic item.1 (with_update now Dynamic_default) t).

Definition patched {T} (p : Patch T) (old : T) : T :=
  match p with Set_ v => v | Missing => old end.
Definition apply_image (seen : gset (Z * Z)) (i : ImageInput) : SyncM (gset (Z * Z)) :=
  '(id, _) ← resolve w (ii_item i) [] ;
  let k := (id, ImageType.to_i32 (ii_type i)) in
  require (negb (bool_decide (k ∈ seen))) "duplicate image identity" ;;
  old ← query (λ t, t_image t !! k) ;
  (if ii_remove i then
     match old with
     | Some _ => exec_all (with_image (delete k))
     | None => mret tt
     end
   else
     now ← Timestamp_now ;
     let set r := mk_Image (patched (ii_native i) (im_native r)) (im_db r)
                    (patched (ii_fresh i) (im_fresh r)) now in
     exec (match old with
           | Some _ => update_image k set
           | None => insert_image k (set (mk_Image None None "" now))
           end)) ;;
  mret ({[k]} ∪ seen).

(** *** Relations *)

Definition with_song_album (a : option Z) (r : Song) : Song :=
  mk_Song (so_name r) (so_sort_name r) a (so_track_number r) (so_disc_number r)
    (so_duration r) (so_can_play r) (so_popularity r) (so_tags r) (so_publish_time r)
    (so_added_at r).
(** The album of a song, which must be in the library of the song. *)
Definition resolve_album (song : Item) (album : option ItemRef) : SyncM (option Z) :=
  match album with
  | Some key =>
      '(id, a) ← resolve w key [ItemType.Album] ;
      require (bool_decide (i_library song = i_library a)) "song and album must share a library" ;;
      mret (Some id)
  | None => mret None
  end.
Definition put_song_album (id : Z) (song : Item) (album : option ItemRef) : SyncM unit :=
  a ← resolve_album song album ;
  exec (update_song id (with_song_album a)).

Definition apply_song_album (mask : Mask) (fresh : gset Z) (seen : gset Z) (i : SongInput) :
    SyncM (gset Z) :=
  match si_album i with
  | Missing => mret seen
  | Set_ album =>
      '(id, song) ← resolve w (en_item (si_entity i)) [ItemType.Song] ;
      if negb (bool_decide (id ∈ fresh)) && negb (allows mask "album_id") then mret seen else
      put_song_album id song album ;;
      mret ({[id]} ∪ seen)
  end.
Definition apply_song_albums (seen : gset Z) (i : SongAlbumInput) : SyncM (gset Z) :=
  '(id, song) ← resolve w (sa_song i) [ItemType.Song] ;
  require (negb (bool_decide (id ∈ seen))) "duplicate song album relation" ;;
  put_song_album id song (sa_album i) ;;
  mret ({[id]} ∪ seen).

(** [relations!], for the table it is instantiated with. *)
Record Relation := mk_Relation {
  re_owner : list ItemType.t;
  re_delete : Z → Tables → Tables;
  re_upsert : Z → Z → Z → Tables → result DbErr Tables
}.
Definition album_artists : Relation :=
  mk_Relation [ItemType.Album] delete_album_artists upsert_album_artist.
Definition song_artists : Relation :=
  mk_Relation [ItemType.Song] delete_song_artists upsert_song_artist.

Definition relation_target (owner : Item) (targets : gset Z) (target : ItemRef) :
    SyncM (gset Z) :=
  '(id, artist) ← resolve w target [ItemType.Artist] ;
  require (bool_decide (i_library artist = i_library owner)) "artist relation crosses libraries" ;;
  require (negb (bool_decide (id ∈ targets))) "duplicate relation target" ;;
  mret ({[id]} ∪ targets).
Definition apply_relation (rel : Relation) (owners : gset Z) (i : RelationInput) :
    SyncM (gset Z) :=
  '(id, owner) ← resolve w (ri_owner i) (re_owner rel) ;
  require (negb (bool_decide (id ∈ owners))) "duplicate relation owner" ;;
  targets ← fold_st (relation_target owner) ∅ (ri_targets i) ;
  (match ri_mode i with
   | Replace => exec_all (re_delete rel id)
   | Merge => mret tt
   end) ;;
  for_each (λ artist, now ← Timestamp_now ; exec (re_upsert rel id artist now))
    (elements targets) ;;
  mret ({[id]} ∪ owners).

(** *** Contents of mixes *)

Definition mix_member (acc : gset Z * list Z) (key : ItemRef) : SyncM (gset Z * list Z) :=
  let '(unique, songs) := acc in
  '(id, _) ← resolve w key [ItemType.Song] ;
  require (negb (bool_decide (id ∈ unique))) "duplicate_member" ;;
  mret ({[id]} ∪ unique, songs ++ [id]).
Definition insert_member (mix : Z) (order : Z) (song : Z) : SyncM Z :=
  now ← Timestamp_now ;
  exec (insert_mix_song mix song (mk_MixSong order now)) ;;
  mret (order + 1).
Definition wrap32 (x : Z) : Z := (x + 2147483648) mod 4294967296 - 2147483648.
Definition apply_contents (seen : gset Z) (i : MixContents) : SyncM (gset Z) :=
  require (match mc_mode i with Replace => true | Merge => false end)
    "ordered mix contents require replace" ;;
  '(id, _) ← resolve w (mc_mix i) [ItemType.Mix; ItemType.Radio] ;
  require (negb (bool_decide (id ∈ seen))) "duplicate mix contents" ;;
  found ← query (mix_of id) ;
  '(mix, _) ← lift (ok_or found (Custom "missing cache mix")) ;
  '(_, songs) ← fold_st mix_member (∅, []) (mc_songs i) ;
  exec_all (delete_mix_songs mix) ;;
  _ ← fold_st (insert_member mix) 0 songs ;
  let n := wrap32 (zlen songs) in
  exec (update_remote_mix id (λ r, mk_RemoteMix (rm_name r) (rm_description r) n (rm_mix_type r))) ;;
  now ← Timestamp_now ;
  exec (update_mix mix (λ x, mk_Mix (mx_name x) n (mx_mix_type x) (mx_sort_name x)
    (mx_description x) (mx_remote x) (mx_create x) now now)) ;;
  mret ({[id]} ∪ seen).

(** Rows read again after the relations are written. *)
Definition reread {R} (table : Tables → gmap Z R) (message : string) (acc : list (Z * R))
    (row : Z * R) : SyncM (list (Z * R)) :=
  r ← query (λ t, table t !! row.1) ;
  r ← lift (ok_or r (Custom message)) ;
  mret (acc ++ [(row.1, r)]).

(** ** [apply] *)

Definition apply (b : SyncBatch) : SyncM SyncResult :=
  let opt := sb_options b in
  '(_, libraries) ← fold_st (apply_library w) (∅, []) (sb_libraries b) ;
  acc ← allocate_group w [ItemType.Album] (e_item <$> sb_albums b) (∅, []) ;
  acc ← allocate_group w [ItemType.Artist] (e_item <$> sb_artists b) acc ;
  acc ← allocate_group w [ItemType.Song] (e_item <$> sb_songs b) acc ;
  '(_, items) ← allocate_group w [ItemType.Mix; ItemType.Radio]
                  (e_item <$> sb_remote_mixes b) acc ;
  '(_, albums) ← write_entities (bo_albums opt) (sb_albums b) ;
  '(_, artists) ← write_entities (bo_artists opt) (sb_artists b) ;
  '(fresh, songs) ← write_entities (bo_songs opt) (sb_songs b) ;
  '(_, remote_mixes) ← write_entities (bo_remote_mixes opt) (sb_remote_mixes b) ;
  lift (check_albums albums) ;;
  lift (check_artists artists) ;;
  lift (check_songs songs) ;;
  for_each mirror_mix remote_mixes ;;
  _ ← fold_st (apply_dynamic_input (bo_dynamics opt)) ∅ (sb_dynamics b) ;
  for_each default_dynamic items ;;
  _ ← fold_st apply_image ∅ (sb_images b) ;
  seen ← fold_st (apply_song_album (bo_songs opt) fresh) ∅ (sb_songs b) ;
  _ ← fold_st apply_song_albums seen (sb_song_albums b) ;
  _ ← fold_st (apply_relation album_artists) ∅ (sb_album_artists b) ;
  _ ← fold_st (apply_relation song_artists) ∅ (sb_song_artists b) ;
  _ ← fold_st apply_contents ∅ (sb_remote_mix_contents b) ;
  remote_mixes ← fold_st (reread t_remote_mix "missing remote mix") [] remote_mixes ;
  songs ← fold_st (reread t_song "missing song") [] songs ;
  mret (mk_SyncResult libraries items albums artists songs remote_mixes).

(** [sync_batch]: nothing is written unless all of it is. *)
Definition sync_batch `{BatchCodec} (b : SyncBatch) : SyncM SyncResult :=
  lift (check_batch b) ;;
  check_generation (w_generation w) ;;
  write (w_provider w) (fst <$> w_run w) ;;
  transaction
    (result ← apply b ;
     check_generation (w_generation w) ;;
     check_origin (w_provider w) (fst <$> w_run w) ;;
     mret result).

End apply.
