(* ===== verification/SyncRun.v ===== *)
(** * Library synchronisation: full runs and retention

    [SyncRun] of [backend/core/src/db/sync_run.rs]: a provider enumerates its libraries and
    then every declared scope, and at the end what it did not name is deleted; and
    [ItemRetention] of [backend/core/src/db/retention.rs], which keeps items from that. A
    method of a run works on the run and on the coordinator. *)
From S2P Require Import Prelude Tables Coordinator Batch.
From stdpp Require Import options.

Open Scope string_scope.
Open Scope Z_scope.
Open Scope list_scope.

(** [SyncScope]: a library, or [None] for what is outside libraries, and an item type. *)
Definition SyncScope : Type := option Z * Z.
Definition scope_of (r : Item) : SyncScope := (i_library r, ItemType.to_i32 (i_type r)).

Record SyncRun := mk_SyncRun {
  r_provider : Z; r_token : Z; r_revision : Z;
  r_scopes : gset SyncScope; r_complete : gset SyncScope; r_seen : gset Z;
  r_libraries : gset Z; r_libraries_complete : bool;
  r_declared : bool; r_sealed : bool; r_failed : bool;
  r_generation : option WriteGeneration
}.

Definition new_run (p token revision : Z) : SyncRun :=
  mk_SyncRun p token revision ∅ ∅ ∅ ∅ false false false false None.
Definition bind_generation (g : WriteGeneration) (r : SyncRun) : SyncRun :=
  mk_SyncRun (r_provider r) (r_token r) (r_revision r) (r_scopes r) (r_complete r) (r_seen r)
    (r_libraries r) (r_libraries_complete r) (r_declared r) (r_sealed r) (r_failed r) (Some g).
Definition set_failed (r : SyncRun) : SyncRun :=
  mk_SyncRun (r_provider r) (r_token r) (r_revision r) (r_scopes r) (r_complete r) (r_seen r)
    (r_libraries r) (r_libraries_complete r) (r_declared r) (r_sealed r) true (r_generation r).
Definition set_sealed (r : SyncRun) : SyncRun :=
  mk_SyncRun (r_provider r) (r_token r) (r_revision r) (r_scopes r) (r_complete r) (r_seen r)
    (r_libraries r) (r_libraries_complete r) (r_declared r) true (r_failed r) (r_generation r).
Definition set_libraries_complete (r : SyncRun) : SyncRun :=
  mk_SyncRun (r_provider r) (r_token r) (r_revision r) (r_scopes r) (r_complete r) (r_seen r)
    (r_libraries r) true (r_declared r) (r_sealed r) (r_failed r) (r_generation r).
Definition add_library (id : Z) (r : SyncRun) : SyncRun :=
  mk_SyncRun (r_provider r) (r_token r) (r_revision r) (r_scopes r) (r_complete r) (r_seen r)
    ({[id]} ∪ r_libraries r) (r_libraries_complete r) (r_declared r) (r_sealed r) (r_failed r)
    (r_generation r).
Definition add_seen (ids : list Z) (r : SyncRun) : SyncRun :=
  mk_SyncRun (r_provider r) (r_token r) (r_revision r) (r_scopes r) (r_complete r)
    (list_to_set ids ∪ r_seen r) (r_libraries r) (r_libraries_complete r) (r_declared r)
    (r_sealed r) (r_failed r) (r_generation r).
Definition set_scopes (scopes : gset SyncScope) (r : SyncRun) : SyncRun :=
  mk_SyncRun (r_provider r) (r_token r) (r_revision r) scopes (r_complete r) (r_seen r)
    (r_libraries r) (r_libraries_complete r) true (r_sealed r) (r_failed r) (r_generation r).
Definition add_complete (scope : SyncScope) (r : SyncRun) : SyncRun :=
  mk_SyncRun (r_provider r) (r_token r) (r_revision r) (r_scopes r)
    ({[scope]} ∪ r_complete r) (r_seen r) (r_libraries r) (r_libraries_complete r)
    (r_declared r) (r_sealed r) (r_failed r) (r_generation r).

Definition RunM (A : Type) : Type := ST (SyncRun * Sync) DbErr A.

(** What only touches the coordinator; what only touches the run. *)
Definition on_sync {A} (m : SyncM A) : RunM A := λ rs,
  let '(a, s) := m rs.2 in (a, (rs.1, s)).
Definition self : RunM SyncRun := gets fst.
Definition update_self (f : SyncRun → SyncRun) : RunM unit := modify (λ rs, (f rs.1, rs.2)).
Definition throw {A} (message : string) : RunM A := fail (Custom message).
Definition assert_run (b : bool) (message : string) : RunM unit := guard_st b (Custom message).
(** [self.failed = true; return Err(..)]. *)
Definition fatal {A} (message : string) : RunM A := update_self set_failed ;; throw message.

Section run.
Context `{Environment}.

(** [SyncRun::drop]. *)
Definition drop_run (r : SyncRun) : Sync → Sync := cancel (r_provider r) (r_token r).

Definition running : RunM unit :=
  r ← self ;
  on_sync (check_generation (r_generation r)) ;;
  now ← on_sync (gets (active (r_provider r))) ;
  assert_run (negb (r_failed r || r_sealed r || negb (now =? r_token r)))
    "sync session is not writable".

Definition observe_library (id : Z) : RunM unit :=
  found ← on_sync (query (λ t, t_library t !! id)) ;
  l ← lift (ok_or found (Custom "missing observed library")) ;
  r ← self ;
  if lb_provider l =? r_provider r then update_self (add_library id)
  else fatal "observed library belongs to another provider".
Definition observe_libraries (ids : list Z) : RunM unit :=
  running ;;
  r ← self ;
  assert_run (negb (r_declared r)) "libraries must be observed before scopes are declared" ;;
  if MAX_SEEN <? zlen ids + Z.of_nat (size (r_libraries r))
  then fatal "observation limit exceeded"
  else for_each observe_library ids.

(** A scope that may be declared. *)
Definition check_scope (libraries : gset Z) (required : list ItemType.t) (scope : SyncScope) :
    result DbErr unit :=
  kind ← ok_or (ItemType.try_from scope.2) (Custom "invalid scope type") ;
  match scope.1 with
  | Some id =>
      ensure (bool_decide (id ∈ libraries) && type_in required kind)
        (Custom "scope is outside discovered libraries or required types")
  | None =>
      ensure (type_in [ItemType.Mix; ItemType.Radio] kind)
        (Custom "only remote mixes and radios have a global full-sync scope")
  end.
Fixpoint check_all {A} (f : A → result DbErr unit) (l : list A) : result DbErr unit :=
  match l with [] => Ok tt | a :: l => f a ;; check_all f l end.
Definition declare (scopes : list SyncScope) (required : list ItemType.t) : RunM unit :=
  running ;;
  r ← self ;
  assert_run (negb (r_declared r)) "scopes have already been declared" ;;
  let selected : gset SyncScope := list_to_set scopes in
  assert_run ((Z.of_nat (size selected) =? zlen scopes) && (zlen scopes <=? MAX_SEEN))
    "duplicate or excessive scopes" ;;
  lift (check_all (check_scope (r_libraries r) required) (elements selected)) ;;
  assert_run (forallb (λ id, forallb (λ kind,
      bool_decide ((Some id, ItemType.to_i32 kind) ∈ selected)) required)
      (elements (r_libraries r))) "required library scope is missing" ;;
  assert_run (bool_decide ((None, ItemType.to_i32 ItemType.Mix) ∈ selected))
    "global mix scope is missing" ;;
  update_self (set_scopes selected).

Definition complete_libraries : RunM unit := running ;; update_self set_libraries_complete.
Definition complete (scope : SyncScope) : RunM unit :=
  running ;;
  r ← self ;
  assert_run (bool_decide (scope ∈ r_scopes r)) "unknown sync scope" ;;
  update_self (add_complete scope).

(** [observe_items]: the error of an item outside the scope marks the run as failed, any
    other error does not. *)
Definition observe_item (w : ProviderWriter) (scope : SyncScope) (ids : list Z)
    (key : ItemRef) : SyncM (list Z) :=
  '(id, m) ← resolve w key [] ;
  require (bool_decide (scope_of m = scope)) "observed item is outside scope" ;;
  mret (ids ++ [id]).
Definition outside_scope {A} (r : result DbErr A) : bool :=
  match r with Err (Custom m) => (m =? "observed item is outside scope")%string | _ => false end.
Definition observe_items (scope : SyncScope) (items : list ItemRef) : RunM unit :=
  running ;;
  r ← self ;
  assert_run (bool_decide (scope ∈ r_scopes r) && negb (bool_decide (scope ∈ r_complete r)))
    "scope is not writable" ;;
  if MAX_SEEN <? zlen items + Z.of_nat (size (r_seen r))
  then fatal "observation limit exceeded" else
  on_sync (write (r_provider r) (Some (r_token r))) ;;
  let w := mk_ProviderWriter (r_provider r) None None in
  res ← attempt (on_sync (transaction (fold_st (observe_item w scope) [] items))) ;
  (if outside_scope res then update_self set_failed else mret tt) ;;
  ids ← lift res ;
  update_self (add_seen ids).

Definition run_sync_batch `{BatchCodec} (b : SyncBatch) : RunM SyncResult :=
  running ;;
  r ← self ;
  let w := mk_ProviderWriter (r_provider r) (Some (r_token r, r_revision r)) (r_generation r) in
  res ← attempt (on_sync (sync_batch w b)) ;
  (if is_ok res then mret tt else update_self set_failed) ;;
  lift res.

Definition seal : RunM unit :=
  running ;;
  r ← self ;
  assert_run (r_declared r && r_libraries_complete r &&
              bool_decide (r_complete r = r_scopes r)) "sync enumeration is incomplete" ;;
  update_self set_sealed.

(** ** [finalize] *)

Definition prunable (r : SyncRun) (retained : gset Z) (id : Z) (m : Item) : bool :=
  bool_decide (scope_of m ∈ r_scopes r) && negb (bool_decide (id ∈ r_seen r)) &&
  negb (bool_decide (id ∈ retained)).
Definition prune (r : SyncRun) (retained : gset Z) (item : Z * Item) : SyncM unit :=
  if prunable r retained item.1 item.2 then
    (if type_in [ItemType.Mix; ItemType.Radio] (i_type item.2)
     then exec_all (delete_mixes (λ _ x, bool_decide (mx_remote x = Some item.1)))
     else mret tt) ;;
    exec_all (delete_items (λ i _, i =? item.1))
  else mret tt.
Definition prune_library (r : SyncRun) (l : Z * LibraryRow) : SyncM unit :=
  if bool_decide (l.1 ∈ r_libraries r) then mret tt
  else exec_all (delete_libraries (λ i _, i =? l.1)).
Definition too_many : string := "prune candidate limit exceeded".
Definition prune_all (r : SyncRun) : SyncM unit :=
  let p := r_provider r in
  candidates ← query (λ t, take (Z.to_nat (MAX_SEEN + 1))
                 (filter (λ kr : Z * Item, i_provider kr.2 = p) (map_to_list (t_item t)))) ;
  require (zlen candidates <=? MAX_SEEN) too_many ;;
  retained ← gets (retained_items p) ;
  for_each (prune r retained) candidates ;;
  libraries ← query (λ t, take (Z.to_nat (MAX_SEEN + 1))
                 (filter (λ kr : Z * LibraryRow, lb_provider kr.2 = p) (map_to_list (t_library t)))) ;
  require (zlen libraries <=? MAX_SEEN) "library limit exceeded" ;;
  for_each (prune_library r) libraries ;;
  check_generation (r_generation r) ;;
  check_origin p (Some (r_token r)).
Definition is_custom {A} (message : string) (r : result DbErr A) : bool :=
  match r with Err (Custom m) => (m =? message)%string | _ => false end.
Definition finalize : RunM unit :=
  r ← self ;
  assert_run (negb (r_failed r || negb (r_sealed r))) "sync was not sealed successfully" ;;
  let p := r_provider r in
  on_sync (write p (Some (r_token r))) ;;
  now ← on_sync (gets (λ s, ws_revision (ps_writes (state p s)))) ;
  if negb (now =? r_revision r)
  then fatal "sync prune conflicted with another write; retry required" else
  res ← attempt (on_sync (transaction (prune_all r))) ;
  (if is_custom too_many res then update_self set_failed else mret tt) ;;
  lift res ;;
  on_sync (invalidate_sync p).

(** ** [ItemRetention] *)

Definition MAX_ROOT_ITEMS : Z := 4096.
Definition has_all {R} (m : gmap Z R) (p : R → bool) (ids : gset Z) : bool :=
  bool_decide (set_Forall (λ i, is_some_and (m !! i) p = true) ids).
(** The second column of a relation, for owners in a set. *)
Definition targets_of (m : gmap (Z * Z) Z) (owners : gset Z) : gset Z :=
  list_to_set (omap (λ kr : (Z * Z) * Z, if bool_decide (kr.1.1 ∈ owners) then Some kr.1.2 else None)
                 (map_to_list m)).
Definition albums_of (t : Tables) (songs : gset Z) : gset Z :=
  list_to_set (omap (λ s, t_song t !! s ≫= so_album) (elements songs)).
Definition retain (ids : gset Z) (m : gmap Z Z) : gmap Z Z :=
  set_fold (λ i m, <[i := default 0 (m !! i) + 1]> m) m ids.
(** [ItemRetention::drop]. *)
Definition release (ids : gset Z) (m : gmap Z Z) : gmap Z Z :=
  set_fold (λ i m, match m !! i with
                   | Some n => if n - 1 =? 0 then delete i m else <[i := n - 1]> m
                   | None => m
                   end) m ids.
Definition retain_items (p : Z) (roots : gset Z) : SyncM (gset Z) :=
  require (negb ((MAX_ROOT_ITEMS <? Z.of_nat (size roots)) ||
                 bool_decide (¬ set_Forall (λ i, 0 < i) roots))) "invalid retained item set" ;;
  found ← query (λ t, has_all (t_item t) (λ r, i_provider r =? p) roots) ;
  require found "retained item is missing or belongs to another provider" ;;
  albums ← query (λ t, albums_of t roots) ;
  let ids := roots ∪ albums in
  song_artists ← query (λ t, targets_of (t_rel_song_artist t) ids) ;
  album_artists ← query (λ t, targets_of (t_rel_album_artist t) ids) ;
  let ids := ids ∪ song_artists ∪ album_artists in
  found ← query (λ t, has_all (t_item t) (λ r, i_provider r =? p) ids) ;
  require found "retained item dependency is missing or belongs to another provider" ;;
  modify (λ s, with_provider p (with_retained (retain ids (ps_retained (state p s))) (state p s)) s) ;;
  mret ids.
Definition release_items (p : Z) (ids : gset Z) : SyncM unit :=
  modify (λ s, with_provider p (with_retained (release ids (ps_retained (state p s))) (state p s)) s).

End run.
