(* ===== verification/Effects.v ===== *)
(** * Library synchronisation: reading programs over the tables

    What a computation of [Coordinator.v] that returned says about the tables, and tactics
    that open it step by step. *)
From S2P Require Import Prelude Tables Coordinator.
From stdpp Require Import options.

Section effects.
Context `{Environment}.

Lemma cancel_tables p token s : sy_tables (cancel p token s) = sy_tables s.
Proof. unfold cancel. by case_match. Qed.
Lemma external_tables s : sy_tables (external s) = sy_tables s.
Proof.
  unfold external. cbn. generalize (events (sy_tick s)). intros l. revert s.
  induction l as [|[] l IH]; intros s; cbn; [done| |]; rewrite IH; [apply cancel_tables|done].
Qed.

Lemma run_statement_Ok {A} (f : Tables → result DbErr (A * Tables)) s a s' :
  run_statement f s = (Ok a, s') → f (sy_tables s) = Ok (a, sy_tables s').
Proof.
  unfold run_statement. rewrite external_tables. destruct (fault _); [done|].
  destruct (f (sy_tables s)) as [[a' t]|]; [|done]. by intros [= -> <-].
Qed.
Lemma query_Ok {A} (f : Tables → A) s a s' :
  query f s = (Ok a, s') → a = f (sy_tables s) ∧ sy_tables s' = sy_tables s.
Proof. intros Hr%run_statement_Ok. by injection Hr as [= <- <-]. Qed.
Lemma exec_Ok f s u s' : exec f s = (Ok u, s') → f (sy_tables s) = Ok (sy_tables s').
Proof. intros Hr%run_statement_Ok. destruct (f (sy_tables s)); [|done]. by injection Hr as [= _ ->]. Qed.
Lemma exec_all_Ok f s u s' : exec_all f s = (Ok u, s') → sy_tables s' = f (sy_tables s).
Proof. intros Hr%run_statement_Ok. by injection Hr as [= _ ->]. Qed.
Lemma exec_key_Ok f s k s' : exec_key f s = (Ok k, s') → f (sy_tables s) = Ok (k, sy_tables s').
Proof. apply run_statement_Ok. Qed.
Lemma Timestamp_now_Ok s n s' : Timestamp_now s = (Ok n, s') → sy_tables s' = sy_tables s.
Proof. intros [= _ <-]. apply external_tables. Qed.
Lemma lift_Ok {A} (r : result DbErr A) s a s' : (lift r : SyncM A) s = (Ok a, s') → r = Ok a ∧ s' = s.
Proof. by intros [= -> ->]. Qed.
Lemma gets_Ok {A} (f : Sync → A) s a s' :
  (gets f : SyncM A) s = (Ok a, s') → a = f s ∧ s' = s.
Proof. by intros [= <- <-]. Qed.
Lemma mret_Ok {A} (x : A) (s : Sync) a s' : (mret x : SyncM A) s = (Ok a, s') → a = x ∧ s' = s.
Proof. by intros [= <- <-]. Qed.
Lemma modify_Ok (f : Sync → Sync) s u s' : (modify f : SyncM unit) s = (Ok u, s') → s' = f s.
Proof. by intros [= _ <-]. Qed.
Lemma require_Ok b m s u s' : require b m s = (Ok u, s') → b = true ∧ s' = s.
Proof. intros [= Hb <-]. split; [|done]. by apply ensure_Ok in Hb. Qed.
Lemma error_Ok {A} m s (a : A) s' : error m s ≠ (Ok a, s').
Proof. done. Qed.

(** The tables a transaction that returned has written. *)
Lemma transaction_Ok {A} (body : SyncM A) s a s' :
  transaction body s = (Ok a, s') →
  ∃ s1 s2, query (λ _, tt) s = (Ok tt, s1) ∧ sy_tables s1 = sy_tables s ∧ body s1 = (Ok a, s2) ∧ sy_tables s' = sy_tables s2.
Proof.
  unfold transaction. intros Ht.
  match type of Ht with match ?m s with _ => _ end = _ => destruct (m s) as [[a'|e] s1] eqn:Hm end;
    [|done].
  injection Ht as -> ->.
  apply bind_Ok_inv in Hm as (u & s1 & H1 & Hm). apply bind_Ok_inv in Hm as (? & s2 & H2 & Hm).
  apply bind_Ok_inv in Hm as (? & s3 & H3 & Hm). injection Hm as -> ->.
  apply query_Ok in H1 as Ht1. apply query_Ok in H3 as [_ H3]. exists s1, s2.
  destruct u. by destruct Ht1.
Qed.
(** A transaction that failed leaves the tables as they were. *)
Lemma transaction_Err {A} (body : SyncM A) s e s' :
  transaction body s = (Err e, s') → sy_tables s' = sy_tables s.
Proof.
  unfold transaction. intros Ht.
  match type of Ht with match ?m s with _ => _ end = _ => destruct (m s) as [[a'|e'] s1] end;
    [done|]. by injection Ht as _ <-.
Qed.
End effects.

(** Open one step of a run that returned; the tables of the states passed on the way are
    written in terms of the first one. *)
Ltac same_tables H := rewrite ?H in *.
Ltac run_step :=
  match goal with
  | H : (_ ≫= _) _ = (Ok _, _) |- _ =>
      let H1 := fresh "Hr" in apply bind_Ok_inv in H as (? & ? & H1 & H); cbv beta in H
  | H : query _ _ = (Ok _, _) |- _ => apply query_Ok in H as [-> H]
  | H : exec _ _ = (Ok _, _) |- _ => apply exec_Ok in H; cbv beta in H
  | H : exec_all _ _ = (Ok _, _) |- _ => apply exec_all_Ok in H; cbv beta in H
  | H : exec_key _ _ = (Ok _, _) |- _ => apply exec_key_Ok in H
  | H : Timestamp_now _ = (Ok _, _) |- _ => apply Timestamp_now_Ok in H
  | H : lift _ _ = (Ok _, _) |- _ => apply lift_Ok in H as [H ->]
  | H : gets _ _ = (Ok _, _) |- _ => apply gets_Ok in H as [-> ->]
  | H : mret _ _ = (Ok _, _) |- _ => apply mret_Ok in H as [-> ->]
  | H : modify _ _ = (Ok _, _) |- _ => apply modify_Ok in H as ->
  | H : require _ _ _ = (Ok _, _) |- _ => apply require_Ok in H as [H ->]
  | H : error _ _ = (Ok _, _) |- _ => by apply error_Ok in H
  | H : ok_or _ _ = Ok _ |- _ => apply ok_or_Ok in H
  | H : (match ?x with _ => _ end) _ = (Ok _, _) |- _ => destruct x eqn:?
  end.
Ltac run_inv := repeat run_step.
(** Name the parts of one sequencing. *)
Tactic Notation "bind_in" hyp(H) ident(x) ident(s) ident(J) :=
  apply bind_Ok_inv in H as (x & s & J & H); cbv beta in H.
Ltac tables_eq :=
  repeat match goal with
  | H : sy_tables ?s' = sy_tables ?s |- _ =>
      is_var s'; rewrite H in *; clear H
  end.
