(* ===== verification/Writer.v ===== *)
(** * Library synchronisation: what a writer does to the tables

    Every part of a batch keeps the tables well formed and stays within its provider. *)
From S2P Require Import Prelude Tables Integrity Statements Isolation Coordinator Batch Effects.
From stdpp Require Import options.

(** A relation between the tables before and after a computation that returns. *)
Definition moves `{Environment} {A} (R : Tables → Tables → Prop) (m : SyncM A) : Prop :=
  ∀ s a s', m s = (Ok a, s') → R (sy_tables s) (sy_tables s').

Section moves.
#[local] Set Default Proof Using "Type*".
Context `{Environment} (R : Tables → Tables → Prop) `{!PreOrder R}.

Lemma moves_bind {A B} (m : SyncM A) (f : A → SyncM B) :
  moves R m → (∀ a, moves R (f a)) → moves R (m ≫= f).
Proof.
  intros Hm Hf s b s' (a & s1 & H1 & H2)%bind_Ok_inv. etrans; [by eapply Hm|by eapply Hf].
Qed.
Lemma moves_same {A} (m : SyncM A) :
  (∀ s a s', m s = (Ok a, s') → sy_tables s' = sy_tables s) → moves R m.
Proof. intros Hm s a s' ->%Hm. reflexivity. Qed.
Lemma moves_fold {A B} (f : B → A → SyncM B) b l :
  (∀ b a, moves R (f b a)) → moves R (fold_st f b l).
Proof.
  intros Hf s b' s' Hl. revert Hl.
  apply (fold_st_ind f (λ _ _ s1, R (sy_tables s) (sy_tables s1))); [reflexivity|].
  intros d a b1 s1 b2 s2 _ H1 H2. etrans; [exact H1|by eapply Hf].
Qed.
Lemma moves_for_each {A} (f : A → SyncM unit) l :
  (∀ a, moves R (f a)) → moves R (for_each f l).
Proof. intros Hf. by apply moves_fold. Qed.
End moves.

Lemma type_in_true l ty : type_in l ty = true ↔ ty ∈ l.
Proof. apply bool_decide_eq_true. Qed.
Lemma mix_type_in ty : ty ∈ [ItemType.Mix; ItemType.Radio] ↔ mix_type ty.
Proof. rewrite !elem_of_cons, elem_of_nil. unfold mix_type. tauto. Qed.

Section writer.
Context `{Environment} (w : ProviderWriter).
Notation p := (w_provider w).

Lemma item_query_true key l r :
  item_query p key l r = true ↔
  i_provider r = p ∧ i_native r = k_native key ∧ i_type r = k_type key ∧ i_library r = l.
Proof.
  unfold item_query. rewrite !andb_true_iff, !bool_decide_eq_true, Z.eqb_eq, String.eqb_eq. tauto.
Qed.

(** ** References *)

Lemma library_optional_Ok key s l s' :
  library_optional w key s = (Ok l, s') →
  sy_tables s' = sy_tables s ∧
  ∀ l', l = Some l' →
    match l' with
    | Some id => ∃ r, t_library (sy_tables s) !! id = Some r ∧ lb_provider r = p
    | None => mix_type (k_type key)
    end.
Proof.
  unfold library_optional, owns_library. intros Hr.
  run_inv; tables_eq; simplify_eq; (split; [done|]); intros l' ?; simplify_eq.
  - exists l. split; [done|]. by apply Z.eqb_eq.
  - by apply mix_type_in, type_in_true.
Qed.

Lemma library_Ok key s l s' :
  library w key s = (Ok l, s') →
  sy_tables s' = sy_tables s ∧
  match l with
  | Some id => ∃ r, t_library (sy_tables s) !! id = Some r ∧ lb_provider r = p
  | None => mix_type (k_type key)
  end.
Proof.
  unfold library. intros Hr. run_inv. apply library_optional_Ok in Hr0 as [-> Hl].
  split; [done|]. by apply Hl.
Qed.

Lemma resolve_key_Ok key s m s' :
  resolve_key w key s = (Ok m, s') →
  sy_tables s' = sy_tables s ∧
  ∀ id r, m = Some (id, r) → t_item (sy_tables s) !! id = Some r.
Proof.
  unfold resolve_key. intros Hr. run_step. apply library_optional_Ok in Hr0 as [Ht _].
  run_inv; tables_eq; (split; [done|]); intros id r Hm; [|done].
  by apply find_first_Some in Hm as [? _].
Qed.

(** A resolved reference is a row of the writer's provider, of an expected type. *)
Lemma resolve_optional_Ok item types s m s' :
  resolve_optional w item types s = (Ok m, s') →
  sy_tables s' = sy_tables s ∧
  ∀ id r, m = Some (id, r) →
    t_item (sy_tables s) !! id = Some r ∧ i_provider r = p ∧ (types = [] ∨ i_type r ∈ types).
Proof.
  unfold resolve_optional. intros Hr. apply bind_Ok_inv in Hr as (x & s1 & Hx & Hr).
  assert (sy_tables s1 = sy_tables s ∧
          ∀ id r, x = Some (id, r) → t_item (sy_tables s) !! id = Some r) as [Ht Hrow].
  { clear Hr. destruct item as [i|key].
    - run_inv; tables_eq. split; [done|]. intros id r Hx.
      destruct (t_item (sy_tables s) !! i) eqn:Hi; cbn in Hx; naive_solver.
    - run_step. run_step. by apply resolve_key_Ok in Hx. }
  clear Hx. run_inv; tables_eq; (split; [done|]); intros id' r' Hm; simplify_eq.
  apply andb_true_iff in Hr0 as [Hp Hty]. split_and!; [by apply Hrow|by apply Z.eqb_eq|].
  apply orb_true_iff in Hty as [Hty|Hty]; [left; by apply bool_decide_eq_true in Hty|right].
  by apply type_in_true.
Qed.
Lemma resolve_Ok item types s m s' :
  resolve w item types s = (Ok m, s') →
  sy_tables s' = sy_tables s ∧
  t_item (sy_tables s) !! m.1 = Some m.2 ∧ i_provider m.2 = p ∧
  (types = [] ∨ i_type m.2 ∈ types).
Proof.
  unfold resolve. intros Hr. run_step. run_inv.
  apply resolve_optional_Ok in Hr0 as [-> Hm]. destruct m as [id r]. split; [done|by apply Hm].
Qed.

Lemma own_row t i r : t_item t !! i = Some r → i_provider r = p → own p t i.
Proof. intros Hi Hp r' Hi'. naive_solver. Qed.

(** ** Allocation *)

Lemma allocate_Ok item types s m s' :
  allocate w item types s = (Ok m, s') →
  good p (sy_tables s) (sy_tables s') ∧
  t_item (sy_tables s') !! m.1 = Some m.2 ∧ i_provider m.2 = p.
Proof.
  destruct item as [i|key]; cbn [allocate].
  { intros (-> & Hr & Hp & _)%resolve_Ok. split; [reflexivity|done]. }
  intros Hr. run_step. apply library_Ok in Hr0 as [Ht Hl]. run_inv; tables_eq.
  - apply find_first_Some in Heqo as [Hi (Hp&_)%item_query_true]. cbn.
    split; [|split; [|done]].
    + eapply (update_item_good _ _ _ _ _ (own_row _ _ _ Hi Hp)); [|eassumption].
      intros r. by split_and!.
    + by eapply update_item_lookup.
  - cbn. split; [|split; [|done]].
    + eapply insert_item_good; [| | |eassumption]; cbn.
      * done.
      * intros l lr -> Hlr. destruct Hl as (r & Hr & Hp). naive_solver.
      * intros ->. done.
    + by eapply insert_item_lookup.
Qed.
Lemma allocate_group_good types l acc : moves (good p) (allocate_group w types l acc).
Proof.
  apply moves_fold; [apply _|]. intros [ids out] item s a s' Hr. unfold allocate_one in Hr.
  run_step. apply allocate_Ok in Hr0 as [Hg _]. run_inv. exact Hg.
Qed.

Lemma apply_libraries_good acc l : moves (good p) (fold_st (apply_library w) acc l).
Proof.
  apply moves_fold; [apply _|]. intros [seen out] i s a s' Hr. unfold apply_library in Hr.
  run_inv; tables_eq.
  - apply find_first_Some in Heqo as [Hi [Hp _]%andb_true_iff].
    eapply update_library_good; [| |eassumption]; cbn; [|done].
    intros r' Hr'. simplify_eq. by apply Z.eqb_eq.
  - by eapply insert_library_good; [|eassumption].
Qed.
End writer.

(** ** Entities *)

(** What the writer relies on in an instance of [Entity]. *)
Class EntityLaws (I R : Type) `{Entity I R} : Prop := {
  el_types : e_types (I := I) (R := R) ≠ [];
  el_insert p id (i : I) mask r t t' :
    e_apply i e_default true mask = Ok r →
    (∀ a, t_item t !! id = Some a → i_provider a = p ∧ i_type a ∈ (e_types (I := I) (R := R))) →
    e_insert (I := I) id r t = Ok t' → good p t t';
  el_update p id (i : I) old mask r t t' :
    e_apply i old false mask = Ok r → e_table (I := I) t !! id = Some old → own p t id →
    e_update (I := I) id r t = Ok t' → good p t t';
}.

#[global] Instance album_laws : EntityLaws (EntityInput AlbumFields) Album.
Proof.
  split; [done|intros *..].
  - intros _ Ho Hi. eapply insert_album_good; [|exact Hi].
    intros a Ha. specialize (Ho a Ha). cbn in Ho. set_solver.
  - intros _ _ Ho Hu. by eapply update_album_good.
Qed.
#[global] Instance artist_laws : EntityLaws (EntityInput ArtistFields) Artist.
Proof.
  split; [done|intros *..].
  - intros _ Ho Hi. eapply insert_artist_good; [|exact Hi].
    intros a Ha. specialize (Ho a Ha). cbn in Ho. set_solver.
  - intros _ _ Ho Hu. by eapply update_artist_good.
Qed.
(** [album_id] is not a field [apply] writes. *)
Lemma apply_song_album_id i m ins mask r :
  apply_song i m ins mask = Ok r → so_album r = so_album m.
Proof. unfold apply_song. intros Ha. destruct_ok. by subst. Qed.
#[global] Instance song_laws : EntityLaws SongInput Song.
Proof.
  split; [done|intros *..].
  - intros Ha%apply_song_album_id Ho Hi. eapply insert_song_good; [|exact Ha|exact Hi].
    intros a Ha'. specialize (Ho a Ha'). cbn in Ho. set_solver.
  - intros Ha%apply_song_album_id Ho Hown Hu. eapply update_song_good; [done| |exact Hu].
    intros r' a Hr' Hal. left. cbn in *. congruence.
Qed.
#[global] Instance remote_mix_laws : EntityLaws (EntityInput RemoteMixFields) RemoteMix.
Proof.
  split; [done|intros *..].
  - intros _ Ho Hi. eapply insert_remote_mix_good; [|exact Hi].
    intros a Ha. destruct (Ho a Ha) as [? Hty]. split; [done|by apply mix_type_in].
  - intros _ _ Ho Hu. eapply update_remote_mix_good; [exact Ho|exact Hu].
Qed.

Section apply.
Context `{Environment} (w : ProviderWriter).
Notation p := (w_provider w).

Lemma write_entity_good {I R} `{EntityLaws I R} mask acc (i : I) :
  moves (good p) (write_entity w mask acc i).
Proof.
  intros s a s' Hr. unfold write_entity in Hr. destruct acc as [fresh out]. run_step.
  apply resolve_Ok in Hr0 as (Ht & Hi & Hp & Hty).
  destruct x as [id m]. cbn in Hi, Hp, Hty. destruct Hty as [Hty|Hty]; [by apply el_types in Hty|].
  run_inv. tables_eq. case_bool_decide as Hold.
  - rewrite Hold in *. eapply el_insert; [eassumption| |eassumption].
    intros a Ha. naive_solver.
  - destruct (e_table _ !! id) as [old|] eqn:Ho; [|done]. cbn in *.
    by eapply el_update; [eassumption|eassumption|by eapply own_row|eassumption].
Qed.
Lemma write_entities_good {I R} `{EntityLaws I R} mask (l : list I) :
  moves (good p) (write_entities w mask l).
Proof. apply moves_fold; [apply _|]. intros. apply write_entity_good. Qed.

Lemma mix_of_Some i t m r : mix_of i t = Some (m, r) → t_mix t !! m = Some r ∧ mx_remote r = Some i.
Proof. intros [Hm Hr]%find_first_Some. split; [done|]. by apply bool_decide_eq_true in Hr. Qed.

(** A mirror belongs to the provider of the mix it mirrors. *)
Lemma mirror_mix_good row :
  ∀ s u s', mirror_mix row s = (Ok u, s') → own p (sy_tables s) row.1 →
  good p (sy_tables s) (sy_tables s').
Proof.
  intros s u s' Hr Ho. destruct row as [id r]. unfold mirror_mix in Hr. run_inv; tables_eq.
  - apply mix_of_Some in Heqo as [Hm Hi]. eapply update_mix_good; [by eexists _, _| |eassumption].
    done.
  - by eapply insert_mix_good.
Qed.

Lemma set_favorite_patch_Ok i ins mask m s m' s' :
  set_favorite_patch i ins mask m s = (Ok m', s') → sy_tables s' = sy_tables s.
Proof. unfold set_favorite_patch. intros Hr. by run_inv; tables_eq. Qed.

Lemma apply_dynamic_input_good mask seen i : moves (good p) (apply_dynamic_input w mask seen i).
Proof.
  intros s a s' Hr. unfold apply_dynamic_input in Hr. run_step.
  apply resolve_Ok in Hr0 as (Ht & Hi & Hp & _). destruct x as [id m]. cbn in Hi, Hp.
  repeat first [ match goal with J : set_favorite_patch _ _ _ _ _ = _ |- _ =>
                   apply set_favorite_patch_Ok in J end | run_step ].
  tables_eq. case_bool_decide.
  - eapply insert_dynamic_good; [by eapply own_row|eassumption].
  - eapply update_dynamic_good; [by eapply own_row|eassumption].
Qed.
Lemma default_dynamic_good item :
  ∀ s u s', default_dynamic item s = (Ok u, s') → own p (sy_tables s) item.1 →
  good p (sy_tables s) (sy_tables s').
Proof.
  intros s u s' Hr Ho. unfold default_dynamic in Hr. run_inv. tables_eq.
  destruct (has _ _); [|by eapply insert_dynamic_good].
  match goal with J : Ok _ = Ok _ |- _ => injection J as <- end. reflexivity.
Qed.

Lemma apply_image_good seen i : moves (good p) (apply_image w seen i).
Proof.
  intros s a s' Hr. unfold apply_image in Hr. run_step.
  apply resolve_Ok in Hr0 as (Ht & Hi & Hp & _). destruct x as [id m]. cbn in Hi, Hp.
  run_inv; tables_eq.
  - rewrite Hr2. apply delete_image_good. by eapply own_row.
  - reflexivity.
  - destruct (t_image _ !! _);
      [eapply update_image_good; [|eassumption]|eapply insert_image_good; [|eassumption]];
      by eapply own_row.
Qed.

(** ** Relations *)

Lemma resolve_album_Ok song album s a s' :
  resolve_album w song album s = (Ok a, s') →
  sy_tables s' = sy_tables s ∧
  ∀ i, a = Some i → ∃ r, t_item (sy_tables s) !! i = Some r ∧ i_library song = i_library r.
Proof.
  unfold resolve_album. intros Hr. destruct album as [key|]; [|run_inv; by split].
  run_step. apply resolve_Ok in Hr0 as (Ht & Hi & _). destruct x as [id r].
  run_inv. apply bool_decide_eq_true in Hr0. split; [done|]. intros i [= <-]. by exists r.
Qed.
Lemma same_library_rows t i j a b :
  t_item t !! i = Some a → t_item t !! j = Some b → i_library a = i_library b →
  same_library t i j.
Proof. intros ??????. naive_solver. Qed.
Lemma put_song_album_good id song album :
  ∀ s u s', put_song_album w id song album s = (Ok u, s') →
  t_item (sy_tables s) !! id = Some song → i_provider song = p →
  good p (sy_tables s) (sy_tables s').
Proof.
  intros s u s' Hr Hi Hp. unfold put_song_album in Hr. run_step.
  apply resolve_album_Ok in Hr0 as [Ht Ha]. run_inv. tables_eq.
  eapply update_song_good; [by eapply own_row| |eassumption].
  cbn. intros r a _ ->. right. destruct (Ha _ eq_refl) as (ra & Hra & Hl).
  by eapply same_library_rows.
Qed.
Lemma apply_song_album_good mask fresh seen i :
  moves (good p) (apply_song_album w mask fresh seen i).
Proof.
  intros s a s' Hr. unfold apply_song_album in Hr. destruct (si_album i) as [|album];
    [run_inv; reflexivity|].
  run_step. apply resolve_Ok in Hr0 as (Ht & Hi & Hp & _). destruct x as [id m]. cbn in Hi, Hp.
  destruct (_ && _); [run_inv; by tables_eq|]. rewrite <- Ht in Hi. rewrite <- Ht.
  repeat first [ match goal with J : put_song_album _ _ _ _ _ = _ |- _ =>
                   eapply put_song_album_good in J; [|eassumption..] end | run_step ].
  done.
Qed.
Lemma apply_song_albums_good seen i : moves (good p) (apply_song_albums w seen i).
Proof.
  intros s a s' Hr. unfold apply_song_albums in Hr.
  run_step. apply resolve_Ok in Hr0 as (Ht & Hi & Hp & _). destruct x as [id m]. cbn in Hi, Hp.
  rewrite <- Ht in Hi. rewrite <- Ht.
  repeat first [ match goal with J : put_song_album _ _ _ _ _ = _ |- _ =>
                   eapply put_song_album_good in J; [|eassumption..] end | run_step ].
  done.
Qed.

Lemma relation_targets_Ok owner l s targets s' :
  fold_st (relation_target w owner) ∅ l s = (Ok targets, s') →
  sy_tables s' = sy_tables s ∧
  ∀ i, i ∈ targets → ∃ r, t_item (sy_tables s) !! i = Some r ∧ i_library r = i_library owner.
Proof.
  intros Hl. revert Hl.
  apply (fold_st_ind (relation_target w owner) (λ _ targets s1, sy_tables s1 = sy_tables s ∧
    ∀ i, i ∈ targets → ∃ r, t_item (sy_tables s) !! i = Some r ∧ i_library r = i_library owner)).
  { split; [done|]. set_solver. }
  intros d key targets1 s1 targets2 s2 _ [Ht1 Hin] Hr. unfold relation_target in Hr. run_step.
  apply resolve_Ok in Hr0 as (Ht & Hi & _). destruct x as [id r]. run_inv. tables_eq.
  split; [done|]. intros i [->%elem_of_singleton|Hi']%elem_of_union; [|by apply Hin].
  exists r. split; [done|]. by apply bool_decide_eq_true in Hr0.
Qed.

(** What [relations!] relies on in the table it writes. *)
Definition relation_laws (rel : Relation) : Prop :=
  re_owner rel ≠ [] ∧
  (∀ id t, own p t id → good p t (re_delete rel id t) ∧
     t_item (re_delete rel id t) = t_item t) ∧
  (∀ id a now t t', own p t id → same_library t id a → re_upsert rel id a now t = Ok t' →
     good p t t' ∧ t_item t' = t_item t).
Lemma album_artists_laws : relation_laws album_artists.
Proof.
  split; [done|]. split; intros; (split; [|]).
  - by apply delete_album_artists_good.
  - done.
  - by eapply upsert_album_artist_good.
  - cbn in *. by match goal with J : _ = Ok _ |- _ => statement_in J end.
Qed.
Lemma song_artists_laws : relation_laws song_artists.
Proof.
  split; [done|]. split; intros; (split; [|]).
  - by apply delete_song_artists_good.
  - done.
  - by eapply upsert_song_artist_good.
  - cbn in *. by match goal with J : _ = Ok _ |- _ => statement_in J end.
Qed.

Lemma apply_relation_good rel owners i :
  relation_laws rel → moves (good p) (apply_relation w rel owners i).
Proof.
  intros (_ & Hdel & Hup) s a s' Hr. unfold apply_relation in Hr. run_step.
  apply resolve_Ok in Hr0 as (Ht & Hi & Hp & _). destruct x as [id owner]. cbn in Hi, Hp.
  bind_in Hr u1 s1 H1. bind_in Hr targets s2 H2. bind_in Hr u3 s3 H3. bind_in Hr u4 s4 H4.
  apply require_Ok in H1 as [_ ->]. apply relation_targets_Ok in H2 as [Ht2 Htargets].
  assert (own p (sy_tables s) id) as Hown by by eapply own_row.
  assert (good p (sy_tables s) (sy_tables s3) ∧
          t_item (sy_tables s3) = t_item (sy_tables s)) as [Hg Hitem].
  { clear Hr. destruct (ri_mode i); run_inv; tables_eq; [by split|]. rewrite H3. by apply Hdel. }
  clear H3. run_inv. etrans; [exact Hg|].
  assert (good p (sy_tables s3) (sy_tables s4) ∧ t_item (sy_tables s4) = t_item (sy_tables s))
    as [? _]; [|done].
  revert H4. apply (fold_st_ind _ (λ _ _ s5, good p (sy_tables s3) (sy_tables s5) ∧
    t_item (sy_tables s5) = t_item (sy_tables s))); [by split|].
  intros d artist _ s5 u s6 Hin [Hg1 Ht5] Hr.
  apply elem_of_elements, Htargets in Hin as (ra & Hra & Hl). rewrite Ht in Hra.
  run_inv. tables_eq. edestruct (Hup id artist) as [Hg2 Ht3]; [| |eassumption|].
  - intros r. rewrite Ht5. apply Hown.
  - eapply same_library_rows; [by rewrite Ht5|by rewrite Ht5|done].
  - split; [by etrans|congruence].
Qed.

(** ** Contents of mixes *)

Lemma mix_members_Ok l s acc s' :
  fold_st (mix_member w) (∅, []) l s = (Ok acc, s') → sy_tables s' = sy_tables s.
Proof.
  apply (fold_st_ind (mix_member w) (λ _ _ s1, sy_tables s1 = sy_tables s)); [done|].
  intros d key [unique songs] s1 acc2 s2 _ Ht Hr. unfold mix_member in Hr. run_step.
  apply resolve_Ok in Hr0 as (Ht1 & _). destruct x. run_inv. by tables_eq.
Qed.

Lemma own_mix_frame t t' m :
  t_item t' = t_item t → t_mix t' = t_mix t → own_mix p t m → own_mix p t' m.
Proof. intros Hi Hm (r & i & Hr & Hri & Ho). exists r, i. rewrite Hm. unfold own. by rewrite Hi. Qed.

Lemma insert_members_good mix n l s n' s' :
  fold_st (insert_member mix) n l s = (Ok n', s') → own_mix p (sy_tables s) mix →
  good p (sy_tables s) (sy_tables s') ∧ t_item (sy_tables s') = t_item (sy_tables s) ∧
  t_mix (sy_tables s') = t_mix (sy_tables s).
Proof.
  intros Hl Ho. revert Hl.
  apply (fold_st_ind (insert_member mix) (λ _ _ s1, good p (sy_tables s) (sy_tables s1) ∧
    t_item (sy_tables s1) = t_item (sy_tables s) ∧ t_mix (sy_tables s1) = t_mix (sy_tables s)));
    [by split|].
  intros d song k s1 k' s2 _ (Hg & Hi & Hm) Hr. unfold insert_member in Hr. run_inv. tables_eq.
  match goal with J : insert_mix_song _ _ _ _ = _ |- _ =>
    pose proof J as [Hi' Hm']%insert_mix_song_frame end.
  split; [|split; congruence]. etrans; [exact Hg|].
  eapply insert_mix_song_good; [|eassumption]. by eapply own_mix_frame.
Qed.

Lemma apply_contents_good seen i : moves (good p) (apply_contents w seen i).
Proof.
  intros s a s' Hr. unfold apply_contents in Hr. bind_in Hr u1 s1 H1. bind_in Hr x s2 H2.
  apply require_Ok in H1 as [_ ->]. apply resolve_Ok in H2 as (Ht & Hi & Hp & _).
  destruct x as [id remote]. cbn in Hi, Hp. bind_in Hr u3 s3 H3. bind_in Hr found s4 H4.
  bind_in Hr mix s5 H5. destruct mix as [mix row]. bind_in Hr acc s6 H6.
  destruct acc as [unique songs]. bind_in Hr u7 s7 H7. bind_in Hr n s8 H8.
  apply require_Ok in H3 as [_ ->]. apply query_Ok in H4 as [-> Ht4].
  apply lift_Ok in H5 as [H5%ok_or_Ok ->]. apply mix_members_Ok in H6 as Ht6.
  apply mix_of_Some in H5 as [Hm Hri].
  assert (own_mix p (sy_tables s6) mix) as Hown.
  { exists row, id. rewrite Ht6, Ht4. split_and!; [done..|]. rewrite Ht. by eapply own_row. }
  assert (good p (sy_tables s) (sy_tables s7)) as Hg7.
  { apply exec_all_Ok in H7. rewrite H7, Ht6, Ht4, Ht. apply delete_mix_songs_good.
    by rewrite Ht6, Ht4, Ht in Hown. }
  etrans; [exact Hg7|]. apply exec_all_Ok in H7.
  assert (own_mix p (sy_tables s7) mix) as Hown7
    by (rewrite H7; by eapply own_mix_frame; [..|exact Hown]).
  apply insert_members_good in H8 as (Hg8 & Hi8 & Hm8); [|done]. etrans; [exact Hg8|].
  assert (own p (sy_tables s8) id) as Ho8.
  { intros r. rewrite Hi8, H7. cbn. rewrite Ht6, Ht4, Ht. congruence. }
  assert (own_mix p (sy_tables s8) mix) as Hown8 by by eapply own_mix_frame; [..|exact Hown7].
  run_inv. tables_eq. etrans.
  - eapply update_remote_mix_good; [exact Ho8|eassumption].
  - eapply update_mix_good; [| |eassumption]; [|done].
    match goal with J : update_remote_mix _ _ _ = Ok _ |- _ =>
      apply update_remote_mix_frame in J as [? ?] end.
    by eapply own_mix_frame; [..|exact Hown8].
Qed.

Lemma reread_same {R} (table : Tables → gmap Z R) m acc row s a s' :
  reread table m acc row s = (Ok a, s') → sy_tables s' = sy_tables s.
Proof. unfold reread. intros Hr. run_inv. by tables_eq. Qed.
Lemma rereads_good {R} (table : Tables → gmap Z R) m l :
  moves (good p) (fold_st (reread table m) [] l).
Proof. apply moves_fold; [apply _|]. intros. apply moves_same; [apply _|]. apply reread_same. Qed.

(** ** The whole batch *)

(** A provider's items stay its own. *)
Lemma good_own t t' i : well_formed t → good p t t' → own p t i → own p t' i.
Proof.
  intros Hwf Hg Ho r Hr. destruct (Hg Hwf) as [_ Hu].
  destruct (decide (i_provider r = p)) as [|Hne]; [done|].
  apply (ut_item _ _ _ Hu _ _ Hne) in Hr. by apply Ho.
Qed.

Definition all_own {R} (t : Tables) (rows : list (Z * R)) : Prop := ∀ row, row ∈ rows → own p t row.1.
Lemma all_own_app {R} t (rows : list (Z * R)) row :
  all_own t rows → own p t row.1 → all_own t (rows ++ [row]).
Proof. intros Hr Ho x [Hx| ->%list_elem_of_singleton]%elem_of_app; auto. Qed.
Lemma good_all_own {R} t t' (rows : list (Z * R)) :
  well_formed t → good p t t' → all_own t rows → all_own t' rows.
Proof. intros Hwf Hg Ho row Hrow. eapply good_own; eauto. Qed.

Lemma write_entities_own {I R} `{EntityLaws I R} mask (l : list I) s acc s' :
  write_entities w mask l s = (Ok acc, s') → well_formed (sy_tables s) →
  all_own (sy_tables s') acc.2.
Proof.
  intros Hr Hwf. revert Hr.
  match goal with |- _ → ?G =>
    cut (write_entities w mask l s = (Ok acc, s') → well_formed (sy_tables s') ∧ G); [tauto|] end.
  apply (fold_st_ind (write_entity w mask) (λ _ acc s1, well_formed (sy_tables s1) ∧
    all_own (sy_tables s1) acc.2)); [split; [done|by intros ? ?%elem_of_nil]|].
  intros d i [fresh out] s1 acc2 s2 _ [Hwf1 Ho] Hr.
  pose proof (write_entity_good _ _ _ _ _ _ Hr) as Hg. split; [by apply Hg|].
  pose proof (good_all_own _ _ _ Hwf1 Hg Ho) as Ho2. unfold write_entity in Hr.
  bind_in Hr x s3 H3. apply resolve_Ok in H3 as (Ht & Hi & Hp & _). destruct x as [id m].
  run_inv. apply all_own_app; [done|]. cbn in *. eapply good_own; [exact Hwf1|exact Hg|].
  by eapply own_row.
Qed.
Lemma allocate_group_own types l acc s acc' s' :
  allocate_group w types l acc s = (Ok acc', s') → well_formed (sy_tables s) →
  all_own (sy_tables s) acc.2 → all_own (sy_tables s') acc'.2.
Proof.
  intros Hr Hwf Ho. revert Hr.
  match goal with |- _ → ?G =>
    cut (allocate_group w types l acc s = (Ok acc', s') → well_formed (sy_tables s') ∧ G);
    [tauto|] end.
  apply (fold_st_ind (allocate_one w types) (λ _ acc s1, well_formed (sy_tables s1) ∧
    all_own (sy_tables s1) acc.2)); [done|].
  intros d i [ids out] s1 acc2 s2 _ [Hwf1 Ho1] Hr. unfold allocate_one in Hr.
  bind_in Hr m s3 H3. apply allocate_Ok in H3 as (Hg & Hm & Hp). run_inv.
  split; [by apply Hg|]. apply all_own_app; [by eapply good_all_own|]. by eapply own_row.
Qed.
Lemma for_each_own {R} (f : Z * R → SyncM unit) l s u s' :
  (∀ row s u s', f row s = (Ok u, s') → own p (sy_tables s) row.1 →
     good p (sy_tables s) (sy_tables s')) →
  for_each f l s = (Ok u, s') → well_formed (sy_tables s) → all_own (sy_tables s) l →
  good p (sy_tables s) (sy_tables s').
Proof.
  intros Hf Hr Hwf Ho. revert Hr.
  apply (fold_st_ind (λ _, f) (λ _ _ s1, good p (sy_tables s) (sy_tables s1))); [reflexivity|].
  intros d row _ s1 [] s2 Hin Hg Hr. etrans; [exact Hg|]. eapply Hf; [exact Hr|].
  eapply good_own; eauto.
Qed.

(** One more part of a program whose prefix was good. *)
Ltac chain Hg L :=
  let Hg' := fresh in pose proof (transitivity Hg L) as Hg'; clear Hg; rename Hg' into Hg.

Lemma apply_good b : moves (good p) (apply w b).
Proof.
  intros s a s' Hr Hwf. unfold apply in Hr.
  bind_in Hr x1 s1 H1. destruct x1 as [seen libraries].
  pose proof (apply_libraries_good w _ _ _ _ _ H1) as Hg.
  bind_in Hr x2 s2 H2. bind_in Hr x3 s3 H3. bind_in Hr x4 s4 H4. bind_in Hr x5 s5 H5.
  apply allocate_group_own in H2 as Ho2; [|by apply Hg|by intros ? ?%elem_of_nil].
  chain Hg (allocate_group_good w _ _ _ _ _ _ H2).
  apply allocate_group_own in H3 as Ho3; [|by apply Hg|done].
  chain Hg (allocate_group_good w _ _ _ _ _ _ H3).
  apply allocate_group_own in H4 as Ho4; [|by apply Hg|done].
  chain Hg (allocate_group_good w _ _ _ _ _ _ H4).
  apply allocate_group_own in H5 as Ho5; [|by apply Hg|done].
  chain Hg (allocate_group_good w _ _ _ _ _ _ H5). destruct x5 as [ids items].
  assert (well_formed (sy_tables s5)) as Hwf5 by by apply Hg.
  bind_in Hr x6 s6 H6. destruct x6 as [f6 albums]. bind_in Hr x7 s7 H7. destruct x7 as [f7 artists].
  bind_in Hr x8 s8 H8. destruct x8 as [fresh songs].
  bind_in Hr x9 s9 H9. destruct x9 as [f9 remote_mixes].
  pose proof (write_entities_good _ _ _ _ _ H6) as Hi. chain Hg (write_entities_good _ _ _ _ _ H6).
  chain Hi (write_entities_good _ _ _ _ _ H7). chain Hg (write_entities_good _ _ _ _ _ H7).
  chain Hi (write_entities_good _ _ _ _ _ H8). chain Hg (write_entities_good _ _ _ _ _ H8).
  apply write_entities_own in H9 as Ho9; [|by apply Hg].
  chain Hi (write_entities_good _ _ _ _ _ H9). chain Hg (write_entities_good _ _ _ _ _ H9).
  bind_in Hr y1 s10 H10. bind_in Hr y2 s11 H11. bind_in Hr y3 s12 H12.
  apply lift_Ok in H10 as [_ ->], H11 as [_ ->], H12 as [_ ->].
  bind_in Hr y4 s13 H13. pose proof (for_each_own _ _ _ _ _ mirror_mix_good H13
    (proj1 (Hg Hwf)) Ho9) as Hg13. chain Hi Hg13. chain Hg Hg13.
  bind_in Hr y5 s14 H14.
  pose proof (moves_fold (good p) _ _ _ (apply_dynamic_input_good _) _ _ _ H14) as Hg14.
  chain Hi Hg14. chain Hg Hg14.
  bind_in Hr y6 s15 H15. chain Hg (for_each_own _ _ _ _ _ default_dynamic_good H15
    (proj1 (Hg Hwf)) (good_all_own _ _ _ Hwf5 Hi Ho5)).
  bind_in Hr y7 s16 H16. chain Hg (moves_fold (good p) _ _ _ apply_image_good _ _ _ H16).
  bind_in Hr y8 s17 H17.
  chain Hg (moves_fold (good p) _ _ _ (apply_song_album_good _ _) _ _ _ H17).
  bind_in Hr y9 s18 H18. chain Hg (moves_fold (good p) _ _ _ apply_song_albums_good _ _ _ H18).
  bind_in Hr y10 s19 H19. chain Hg (moves_fold (good p) _ _ _
    (λ o i, apply_relation_good _ o i album_artists_laws) _ _ _ H19).
  bind_in Hr y11 s20 H20. chain Hg (moves_fold (good p) _ _ _
    (λ o i, apply_relation_good _ o i song_artists_laws) _ _ _ H20).
  bind_in Hr y12 s21 H21. chain Hg (moves_fold (good p) _ _ _ apply_contents_good _ _ _ H21).
  bind_in Hr y13 s22 H22. chain Hg (rereads_good _ _ _ _ _ _ H22).
  bind_in Hr y14 s23 H23. chain Hg (rereads_good _ _ _ _ _ _ H23).
  apply mret_Ok in Hr as [_ ->]. by apply Hg.
Qed.
End apply.
