(* ===== verification/Control.v ===== *)
(** * Library synchronisation: what the coordinator keeps

    Statements, and everything a run does, leave the revision of other writes, the
    favourites, the retained items and the epochs alone; meanwhile the environment, or the
    run itself, may at most end a run. *)
From S2P Require Import Prelude Tables Coordinator Batch SyncRun Effects.
From stdpp Require Import options.

Definition revision (p : Z) (s : Sync) : Z := ws_revision (ps_writes (state p s)).

Record calm (s s' : Sync) : Prop := {
  cl_revision p : revision p s' = revision p s;
  cl_favorites p : ws_favorites (ps_writes (state p s')) = ws_favorites (ps_writes (state p s));
  cl_overflow p : ws_favorite_overflow (ps_writes (state p s')) =
                  ws_favorite_overflow (ps_writes (state p s));
  cl_retained p : ps_retained (state p s') = ps_retained (state p s);
  cl_sequence p : ps_sequence (state p s') = ps_sequence (state p s);
  cl_active p : active p s' = active p s ∨ active p s' = 0;
  cl_epochs : sy_epochs s' = sy_epochs s;
}.

#[global] Instance calm_preorder : PreOrder calm.
Proof.
  split; [intros s; split; auto|]. intros s1 s2 s3 [] [].
  split; intros; try congruence. destruct (cl_active0 p), (cl_active1 p); naive_solver congruence.
Qed.

Lemma state_with_provider p q st s :
  state q (with_provider p st s) = if decide (p = q) then st else state q s.
Proof.
  unfold state, with_provider. cbn. case_decide as Hpq; [subst; by rewrite lookup_insert_eq|].
  by rewrite lookup_insert_ne.
Qed.
Lemma calm_frame s s' :
  sy_providers s' = sy_providers s → sy_epochs s' = sy_epochs s → calm s s'.
Proof. intros Hp He. split; intros; try done; unfold active, revision, state; rewrite Hp; auto. Qed.
Lemma calm_with_active p s : calm s (with_provider p (with_active 0 (state p s)) s).
Proof.
  split; intros; unfold active, revision; rewrite ?state_with_provider; try done; case_decide;
    subst; auto.
Qed.
Lemma cancel_calm p token s : calm s (cancel p token s).
Proof. unfold cancel. case_match; [apply calm_with_active|reflexivity]. Qed.

Section control.
Context `{Environment}.

Lemma external_calm s : calm s (external s).
Proof.
  unfold external. trans (foldl happen s (events (sy_tick s))); [|by apply calm_frame].
  generalize (events (sy_tick s)). intros l. revert s.
  induction l as [|[] l IH]; intros s; cbn; [reflexivity| |]; (etrans; [|apply IH]).
  - apply cancel_calm.
  - by apply calm_frame.
Qed.

Lemma calm_statement {A} (f : Tables → result DbErr (A * Tables)) : steps calm (run_statement f).
Proof.
  intros s. unfold run_statement. destruct (fault _); [apply external_calm|].
  destruct (f _) as [[a t]|]; cbn; [|apply external_calm].
  trans (external s); [apply external_calm|by apply calm_frame].
Qed.
Lemma calm_query {A} (f : Tables → A) : steps calm (query f).
Proof. apply calm_statement. Qed.
Lemma calm_exec f : steps calm (exec f).
Proof. apply calm_statement. Qed.
Lemma calm_exec_all f : steps calm (exec_all f).
Proof. apply calm_statement. Qed.
Lemma calm_exec_key f : steps calm (exec_key f).
Proof. apply calm_statement. Qed.
Lemma calm_now : steps calm Timestamp_now.
Proof. intros s. apply external_calm. Qed.
Lemma calm_require b m : steps calm (require b m).
Proof. apply (steps_guard _). Qed.
Lemma calm_error {A} m : steps calm (error m : SyncM A).
Proof. apply (steps_fail _). Qed.
Lemma calm_fold {A B} (f : B → A → SyncM B) b l :
  (∀ b a, steps calm (f b a)) → steps calm (fold_st f b l).
Proof. intros Hf. apply (steps_fold_st _). auto. Qed.
Lemma calm_for_each {A} (f : A → SyncM unit) l :
  (∀ a, steps calm (f a)) → steps calm (for_each f l).
Proof. intros Hf. by apply calm_fold. Qed.
Lemma calm_check_generation g : steps calm (check_generation g).
Proof. unfold check_generation. steps_walk. apply calm_require. Qed.
Lemma calm_check_origin p token : steps calm (check_origin p token).
Proof. unfold check_origin. steps_walk. apply calm_require. Qed.
Lemma calm_transaction {A} (body : SyncM A) : steps calm body → steps calm (transaction body).
Proof.
  intros Hb s. unfold transaction.
  assert (steps calm (query (λ _, tt) ;; a ← body ; query (λ _, tt) ;; mret a)) as Hm.
  { steps_walk; apply calm_query. }
  specialize (Hm s). match goal with |- calm s (match ?m s with _ => _ end).2 =>
    destruct (m s) as [[a|e] s'] end; cbn in *; [done|].
  trans s'; [exact Hm|by apply calm_frame].
Qed.
End control.
#[export] Hint Resolve calm_query calm_exec calm_exec_all calm_exec_key calm_now calm_require
  calm_error calm_check_generation calm_check_origin : qcm.

(** Programs made of statements. *)
Ltac calm_walk :=
  repeat match goal with
  | |- steps calm (fold_st _ _ _) => apply calm_fold; intros ? ?
  | |- steps calm (for_each _ _) => apply calm_for_each; intros ?
  | |- steps calm (transaction _) => apply calm_transaction
  | |- steps calm (let '(_, _) := ?x in _) => destruct x
  | |- steps calm (_ ≫= _) => apply (steps_bind _); [|intros ?]
  | |- steps calm (mret _) => apply (steps_ret _)
  | |- steps calm (gets _) => apply (steps_gets _)
  | |- steps calm (lift _) => apply (steps_lift _)
  | |- steps calm (fail _) => apply (steps_fail _)
  | |- steps calm (guard_st _ _) => apply (steps_guard _)
  | |- steps calm (match ?x with _ => _ end) => destruct x
  | |- steps calm _ => solve [eauto with qcm]
  end.

Section batch.
Context `{Environment} (w : ProviderWriter).

Lemma calm_owns_library id : steps calm (owns_library w id).
Proof. unfold owns_library. calm_walk. Qed.
Hint Resolve calm_owns_library : qcm.
Lemma calm_library_optional key : steps calm (library_optional w key).
Proof. unfold library_optional. calm_walk. Qed.
Hint Resolve calm_library_optional : qcm.
Lemma calm_resolve item types : steps calm (resolve w item types).
Proof. unfold resolve, resolve_optional, resolve_key. calm_walk. Qed.
Hint Resolve calm_resolve : qcm.
Lemma calm_allocate item types : steps calm (allocate w item types).
Proof. unfold allocate, library. calm_walk. Qed.
Hint Resolve calm_allocate : qcm.
Lemma calm_write_entities {I R} `{Entity I R} mask (l : list I) :
  steps calm (write_entities w mask l).
Proof. unfold write_entities, write_entity. calm_walk. Qed.
Hint Resolve calm_write_entities : qcm.
Lemma calm_put_song_album id song album : steps calm (put_song_album w id song album).
Proof. unfold put_song_album, resolve_album. calm_walk. Qed.
Hint Resolve calm_put_song_album : qcm.
Lemma calm_apply b : steps calm (apply w b).
Proof.
  unfold apply, apply_library, allocate_group, allocate_one, mirror_mix, apply_dynamic_input,
    set_favorite_patch, default_dynamic, apply_image, apply_song_album, apply_song_albums,
    apply_relation, relation_target, apply_contents, mix_member, insert_member, reread.
  calm_walk.
Qed.
End batch.
#[export] Hint Resolve calm_resolve calm_allocate calm_write_entities calm_put_song_album
  calm_apply : qcm.

(** ** Guards *)

Section guards.
Context `{Environment}.

(** Only the counters of [p] move, its revision by [d]. *)
Record moved (p d : Z) (s s' : Sync) : Prop := {
  mv_tables : sy_tables s' = sy_tables s;
  mv_active q : active q s' = active q s;
  mv_retained q : ps_retained (state q s') = ps_retained (state q s);
  mv_sequence q : ps_sequence (state q s') = ps_sequence (state q s);
  mv_favorites q : ws_favorites (ps_writes (state q s')) = ws_favorites (ps_writes (state q s));
  mv_overflow q : ws_favorite_overflow (ps_writes (state q s')) =
                  ws_favorite_overflow (ps_writes (state q s));
  mv_epochs : sy_epochs s' = sy_epochs s;
  mv_revision q : revision q s' = revision q s + if decide (p = q) then d else 0;
}.

Lemma update_writes_moved p f d s r s' :
  update_writes p f s = (r, s') →
  (∀ x, f (ps_writes (state p s)) = Ok x →
     ws_favorites x = ws_favorites (ps_writes (state p s)) ∧
     ws_favorite_overflow x = ws_favorite_overflow (ps_writes (state p s)) ∧
     ws_revision x = revision p s + d) →
  moved p (if is_ok r then d else 0) s s'.
Proof.
  unfold update_writes. intros Hr Hf. destruct (f _) as [x|] eqn:Hx; injection Hr as <- <-; cbn.
  - destruct (Hf _ eq_refl) as (H1&H2&H3). unfold revision, active in *.
    split; intros; unfold revision, active; rewrite ?state_with_provider; try done;
      case_decide; subst; cbn; lia || done.
  - split; intros; try done. case_decide; lia.
Qed.
Lemma moved_trans p d1 d2 s1 s2 s3 : moved p d1 s1 s2 → moved p d2 s2 s3 → moved p (d1 + d2) s1 s3.
Proof. intros [] []. split; intros; try congruence. rewrite mv_revision1, mv_revision0. repeat case_decide; lia. Qed.
Lemma moved_refl p s : moved p 0 s s.
Proof. split; intros; try done. case_decide; lia. Qed.

(** [write], whether it gives the guard out or not. *)
Lemma write_moved p origin s r s' :
  write p origin s = (r, s') →
  ∃ d, moved p d s s' ∧ 0 ≤ d ∧ (is_some_and origin (λ _, true) = true → d = 0) ∧
  (is_ok r = true → d = (if bool_decide (origin = None) then 1 else 0) ∧
                    is_none_or origin (λ tk, active p s =? tk) = true).
Proof.
  unfold write. intros Hr.
  match type of Hr with (?m ≫= ?k) s = _ => set (m1 := m) in Hr; set (k1 := k) in Hr end.
  assert (∀ s1 r s', k1 tt s1 = (r, s') → moved p 0 s1 s') as Hk.
  { clear. intros s1 r s' Hk. subst k1. cbn beta in Hk. unfold mbind at 1, st_bind at 1 in Hk.
    destruct (update_writes _ _ s1) as [r2 s2] eqn:Hu.
    apply (update_writes_moved _ _ 0) in Hu.
    2:{ intros x Hx. cbv beta in Hx. destruct_ok. subst. cbn. unfold revision. split_and!; [done..|lia]. }
    replace (if is_ok r2 then 0 else 0) with 0 in Hu by by destruct r2.
    destruct r2 as [[]|e]; [|by injection Hk as _ <-].
    unfold mbind, st_bind, gets, lift, modify in Hk. cbn in Hk.
    destruct (ok_or _ _); injection Hk as _ <-; [|done].
    replace 0 with (0 + 0) by done. eapply moved_trans; [exact Hu|].
    split; intros; try done. case_decide; by rewrite Z.add_0_r. }
  unfold mbind, st_bind in Hr. destruct (m1 s) as [r1 s1] eqn:H1.
  assert (moved p (if is_ok r1 then if bool_decide (origin = None) then 1 else 0 else 0) s s1 ∧
          (is_ok r1 = true → is_none_or origin (λ tk, active p s =? tk) = true)) as [Hm Ho].
  { subst m1. destruct origin as [tk|].
    - unfold mbind, st_bind, gets, require, guard_st, lift in H1. injection H1 as H1 <-.
      unfold ensure in H1. cbn [is_none_or]. rewrite bool_decide_eq_false_2 by done.
      destruct (active p s =? tk); subst r1; cbn; split; try done; apply moved_refl.
    - rewrite bool_decide_eq_true_2 by done. split; [|done].
      eapply update_writes_moved; [exact H1|]. intros x Hx. cbv beta in Hx. destruct_ok. subst. cbn.
      match goal with J : checked_add _ _ = Some _ |- _ => apply checked_add_Some in J as [-> _] end. by split_and!. }
  destruct r1 as [[]|e]; cbn in Hm, Ho.
  - apply Hk in Hr as Hm2. eexists. split; [by eapply moved_trans|].
    rewrite Z.add_0_r. split_and!; [case_bool_decide; lia| |auto].
    intros Hs. destruct origin; [done|done].
  - injection Hr as <- <-. eexists. split; [exact Hm|]. by split_and!.
Qed.
End guards.
