(* ===== verification/Runs.v ===== *)
(** * Library synchronisation: what a run does to the tables *)
From S2P Require Import Prelude Tables Integrity Statements Isolation Coordinator Batch SyncRun Effects Writer Control.
From stdpp Require Import options.

Create HintDb frame.

Section runs.
Context `{Environment}.

(** A transaction relates the tables as its body does, if it commits at all. *)
Lemma transaction_tables {A} (R : Tables → Tables → Prop) `{!PreOrder R} (body : SyncM A) s :
  moves R body → R (sy_tables s) (sy_tables (transaction body s).2).
Proof.
  intros Hb. destruct (transaction body s) as [[a|e] s'] eqn:Ht; cbn.
  - apply transaction_Ok in Ht as (s1 & s2 & _ & Ht1 & Hr & Ht2). rewrite Ht2, <- Ht1. by eapply Hb.
  - by rewrite (transaction_Err _ _ _ _ Ht).
Qed.

Lemma check_generation_same g s r s' : check_generation g s = (r, s') → s' = s.
Proof. destruct g; cbn; [|by intros [= _ <-]]. by intros [= _ <-]. Qed.
Lemma check_origin_same p o s r s' : check_origin p o s = (r, s') → s' = s.
Proof. by intros [= _ <-]. Qed.

(** ** Batches *)

Section batch.
Context `{BatchCodec} (w : ProviderWriter).

(** [sync_batch] unfolded: either nothing happened to the tables, or its transaction did. *)
Lemma sync_batch_cases b s r s' :
  sync_batch w b s = (r, s') →
  (sy_tables s' = sy_tables s ∧ is_ok r = false) ∨
  ∃ s1 s2, sy_tables s1 = sy_tables s ∧
    write (w_provider w) (fst <$> w_run w) s = (Ok tt, s1) ∧
    transaction (result ← apply w b ; check_generation (w_generation w) ;;
                 check_origin (w_provider w) (fst <$> w_run w) ;; mret result) s1 = (r, s2) ∧
    s' = s2.
Proof.
  unfold sync_batch. intros Hr. unfold mbind at 1, st_bind at 1, lift in Hr.
  destruct (check_batch b) as [[]|e]; [|injection Hr as <- <-; by left].
  unfold mbind at 1, st_bind at 1 in Hr.
  destruct (check_generation _ s) as [[[]|e] s0] eqn:Hg;
    apply check_generation_same in Hg as ->; [|injection Hr as <- <-; by left].
  unfold mbind at 1, st_bind at 1 in Hr.
  destruct (write _ _ s) as [[[]|e] s1] eqn:Hw;
    destruct (write_moved _ _ _ _ _ Hw) as (d & Hm & _).
  - right. exists s1, s'. split_and!; try done. apply Hm.
  - injection Hr as <- <-. left. split; [|done]. apply Hm.
Qed.

Lemma sync_batch_good b s :
  good (w_provider w) (sy_tables s) (sy_tables (sync_batch w b s).2).
Proof.
  destruct (sync_batch w b s) as [r s'] eqn:Hr. cbn.
  apply sync_batch_cases in Hr as [[-> _]|(s1 & s2 & Ht & _ & Hr & ->)]; [reflexivity|].
  rewrite <- Ht. change s2 with ((r, s2).2). rewrite <- Hr.
  apply (transaction_tables (good _)). intros s3 a s4 Ha. bind_in Ha x s5 H1. run_inv.
  apply check_generation_same in Hr0 as ->. apply check_origin_same in Hr1 as ->.
  by eapply apply_good.
Qed.
Lemma sync_batch_Err b s e s' : sync_batch w b s = (Err e, s') → sy_tables s' = sy_tables s.
Proof.
  intros [[-> _]|(s1 & s2 & Ht & _ & Hr & ->)]%sync_batch_cases; [done|].
  by rewrite (transaction_Err _ _ _ _ Hr).
Qed.
End batch.

(** ** Pruning *)

Lemma prune_good r retained row s u s' :
  prune r retained row s = (Ok u, s') → own (r_provider r) (sy_tables s) row.1 →
  good (r_provider r) (sy_tables s) (sy_tables s').
Proof.
  intros Hr Ho. unfold prune in Hr. destruct (prunable _ _ _ _); [|run_inv; reflexivity].
  bind_in Hr u1 s1 H1.
  assert (good (r_provider r) (sy_tables s) (sy_tables s1) ∧
          t_item (sy_tables s1) = t_item (sy_tables s)) as [Hg Hi].
  { clear Hr. destruct (type_in _ _); run_inv; [|by split].
    rewrite H1. split; [by apply delete_mixes_good|done]. }
  etrans; [exact Hg|]. apply exec_all_Ok in Hr. rewrite Hr. apply delete_items_good.
  intros i m Hi' ->%Z.eqb_eq. apply Ho. by rewrite <- Hi.
Qed.

Lemma good_own_library p t t' l :
  well_formed t → good p t t' →
  (∀ r, t_library t !! l = Some r → lb_provider r = p) →
  ∀ r, t_library t' !! l = Some r → lb_provider r = p.
Proof.
  intros Hwf Hg Ho r Hr. destruct (Hg Hwf) as [_ Hu].
  destruct (decide (lb_provider r = p)) as [|Hne]; [done|].
  apply (ut_library _ _ _ Hu _ _ Hne) in Hr. by apply Ho.
Qed.

(** The rows a query of one provider returns. *)
Lemma elem_of_provider_rows {R} (pr : R → Z) p n (m : gmap Z R) k r :
  (k, r) ∈ take n (filter (λ kr : Z * R, pr kr.2 = p) (map_to_list m)) →
  m !! k = Some r ∧ pr r = p.
Proof.
  intros [i Hi]%list_elem_of_lookup. apply lookup_take_Some in Hi as [Hi _].
  apply list_elem_of_lookup_2, list_elem_of_filter in Hi as [Hp Hi].
  by apply elem_of_map_to_list in Hi.
Qed.

Lemma prune_libraries_good r l s u s' :
  for_each (prune_library r) l s = (Ok u, s') → well_formed (sy_tables s) →
  (∀ row x, row ∈ l → t_library (sy_tables s) !! row.1 = Some x → lb_provider x = r_provider r) →
  good (r_provider r) (sy_tables s) (sy_tables s').
Proof.
  intros Hr Hwf Ho. revert Hr.
  apply (fold_st_ind (λ _, prune_library r)
    (λ _ _ s1, good (r_provider r) (sy_tables s) (sy_tables s1))); [reflexivity|].
  intros d row _ s1 [] s2 Hin Hg Hr. etrans; [exact Hg|]. unfold prune_library in Hr.
  case_bool_decide; [by injection Hr as ->|]. apply exec_all_Ok in Hr. rewrite Hr.
  apply delete_libraries_good. intros l' x Hx ->%Z.eqb_eq.
  by eapply (good_own_library _ _ _ _ Hwf Hg (λ x, Ho row x Hin)).
Qed.

Lemma prune_all_good r : moves (good (r_provider r)) (prune_all r).
Proof.
  intros s u s' Hr Hwf. unfold prune_all in Hr.
  bind_in Hr candidates s1 H1. bind_in Hr u2 s2 H2. bind_in Hr retained s3 H3.
  bind_in Hr u4 s4 H4. bind_in Hr libraries s5 H5. bind_in Hr u6 s6 H6. bind_in Hr u7 s7 H7.
  bind_in Hr u8 s8 H8. apply check_generation_same in H8 as ->.
  apply check_origin_same in Hr as ->.
  apply query_Ok in H1 as [-> Ht1], H5 as [-> Ht5].
  apply require_Ok in H2 as [_ ->], H6 as [_ ->]. apply gets_Ok in H3 as [-> ->].
  eapply (for_each_own (mk_ProviderWriter (r_provider r) None None)) in H4 as Hg4;
    [|apply prune_good|by rewrite Ht1|].
  2:{ intros [i m] Hin. apply elem_of_provider_rows in Hin as [Hi Hp]. rewrite Ht1.
      by eapply own_row. }
  rewrite Ht1 in Hg4. destruct (Hg4 Hwf) as [Hwf4 Hu4].
  assert (good (r_provider r) (sy_tables s4) (sy_tables s7)) as Hg7.
  { rewrite <- Ht5. eapply prune_libraries_good; [exact H7|by rewrite Ht5|].
    intros [l x] y Hin Hy. apply elem_of_provider_rows in Hin as [Hl Hp].
    rewrite Ht5 in Hy. cbn in Hy. congruence. }
  exact (transitivity Hg4 Hg7 Hwf).
Qed.
End runs.

(** ** Relations on every way out *)

(** A relation on the tables, as one on states. *)
Definition related (R : Tables → Tables → Prop) (s s' : Sync) : Prop :=
  R (sy_tables s) (sy_tables s').
#[global] Instance related_preorder R `{!PreOrder R} : PreOrder (related R).
Proof. split; [intros s; unfold related; reflexivity|]. intros s1 s2 s3 ??. unfold related. by etrans. Qed.

Section related.
Context `{Environment} (R : Tables → Tables → Prop) `{!PreOrder R}.
#[local] Set Default Proof Using "Type*".

Lemma related_statement {A} (f : Tables → result DbErr (A * Tables)) :
  (∀ t a t', f t = Ok (a, t') → R t t') → steps (related R) (run_statement f).
Proof.
  intros Hf s. unfold related, run_statement.
  destruct (fault _); [cbn [snd]; by rewrite external_tables|].
  destruct (f _) as [[a t]|e] eqn:Hr; cbn [snd]; rewrite external_tables in *; [|done].
  by eapply Hf.
Qed.
Lemma related_exec f : (∀ t t', f t = Ok t' → R t t') → steps (related R) (exec f).
Proof.
  intros Hf. apply related_statement. intros t u t' Hr. destruct (f t) eqn:Hft; [|done].
  injection Hr as _ <-. by apply Hf.
Qed.
Lemma related_exec_all f : (∀ t, R t (f t)) → steps (related R) (exec_all f).
Proof. intros Hf. apply related_statement. intros t u t' [= _ <-]. apply Hf. Qed.
Lemma related_query {A} (f : Tables → A) : steps (related R) (query f).
Proof. apply related_statement. intros t a t' [= _ ->]. reflexivity. Qed.
Lemma related_write p origin : steps (related R) (write p origin).
Proof.
  intros s. unfold related. destruct (write p origin s) as [x s'] eqn:Hw.
  destruct (write_moved _ _ _ _ _ Hw) as (d & Hm & _). cbn. by rewrite (mv_tables _ _ _ _ Hm).
Qed.
Lemma related_modify f : (∀ s, sy_tables (f s) = sy_tables s) → steps (related R) (modify f : SyncM unit).
Proof. intros Hf s. unfold related. cbn. by rewrite Hf. Qed.
Lemma related_now : steps (related R) Timestamp_now.
Proof. intros s. unfold related, Timestamp_now. cbn [snd]. by rewrite external_tables. Qed.
End related.

(** Programs made of statements, up to the ones that write. *)
Ltac related_walk :=
  repeat match goal with
  | |- steps (related _) (fold_st _ _ _) => apply (steps_fold_st _); intros ? ? _
  | |- steps (related _) (for_each _ _) => apply (steps_fold_st _); intros ? ? _
  | |- steps (related _) (let '(_, _) := ?x in _) => destruct x
  | |- steps (related _) (_ ≫= _) => apply (steps_bind _); [|intros ?]
  | |- steps (related _) (mret _) => apply (steps_ret _)
  | |- steps (related _) (gets _) => apply (steps_gets _)
  | |- steps (related _) (lift _) => apply (steps_lift _)
  | |- steps (related _) (require _ _) => apply (steps_guard _)
  | |- steps (related _) (fail _) => apply (steps_fail _)
  | |- steps (related _) (error _) => apply (steps_fail _)
  | |- steps (related _) (query _) => apply (related_query _)
  | |- steps (related _) (write _ _) => apply (related_write _)
  | |- steps (related _) Timestamp_now => apply (related_now _)
  | |- steps (related _) (modify _) => by apply (related_modify _)
  | |- steps (related _) (match ?x with _ => _ end) => destruct x
  | |- steps (related _) _ => solve [eauto with frame]
  end.


