(* ===== verification/Sessions.v ===== *)
(** * Library synchronisation: requests in sequence

    A configuration is the coordinator with the runs that were started and the retentions
    that are held; a request is one call of a provider or of the user interface, run to its
    end. What is shown of one request here is shown of every sequence of them in [Upkeep.v]. *)
From S2P Require Import Prelude Tables Integrity Statements Isolation Coordinator Batch SyncRun Effects Writer Control Runs.
From stdpp Require Import options.

Open Scope Z_scope.

(** A method called on a run. *)
Inductive Method :=
| ObserveLibraries (ids : list Z)
| Declare_ (scopes : list SyncScope) (required : list ItemType.t)
| CompleteLibraries
| Complete (scope : SyncScope)
| ObserveItems (scope : SyncScope) (items : list ItemRef)
| SendBatch (b : SyncBatch)
| Seal
| Finalize
| MarkFailed
| BindGeneration (g : WriteGeneration).

Inductive Request :=
| Start (p : Z)
| Call (run : nat) (m : Method)
| Drop_ (run : nat)
| WriteBatch (p : Z) (g : option WriteGeneration) (b : SyncBatch)
| SetFavorite (id kind : Z) (value : bool)
| DeleteProvider (p : Z)
| Retain (p : Z) (roots : gset Z)
| Release (handle : nat).

Record Config := mk_Config {
  c_sync : Sync; c_runs : list SyncRun; c_handles : list (Z * gset Z)
}.

Section sessions.
Context `{Environment} `{BatchCodec}.

Definition call (m : Method) : RunM unit :=
  match m with
  | ObserveLibraries ids => observe_libraries ids
  | Declare_ scopes required => declare scopes required
  | CompleteLibraries => complete_libraries
  | Complete scope => complete scope
  | ObserveItems scope items => observe_items scope items
  | SendBatch b => run_sync_batch b ;; mret tt
  | Seal => seal
  | Finalize => finalize
  | MarkFailed => update_self set_failed
  | BindGeneration g => update_self (bind_generation g)
  end.

Definition serve (c : Config) (q : Request) : Config :=
  match q with
  | Start p =>
      match start p (c_sync c) with
      | (Ok (token, rev), s) =>
          mk_Config s (c_runs c ++ [new_run p token rev]) (c_handles c)
      | (Err _, s) => mk_Config s (c_runs c) (c_handles c)
      end
  | Call k m =>
      match c_runs c !! k with
      | Some r => let rs := (call m (r, c_sync c)).2 in
                  mk_Config rs.2 (<[k := rs.1]> (c_runs c)) (c_handles c)
      | None => c
      end
  | Drop_ k =>
      match c_runs c !! k with
      | Some r => mk_Config (drop_run r (c_sync c)) (c_runs c) (c_handles c)
      | None => c
      end
  | WriteBatch p g b =>
      mk_Config (sync_batch (mk_ProviderWriter p None g) b (c_sync c)).2 (c_runs c) (c_handles c)
  | SetFavorite id kind v =>
      mk_Config (set_favorite id kind v (c_sync c)).2 (c_runs c) (c_handles c)
  | DeleteProvider p => mk_Config (delete_provider_req p (c_sync c)).2 (c_runs c) (c_handles c)
  | Retain p roots =>
      match retain_items p roots (c_sync c) with
      | (Ok ids, s) => mk_Config s (c_runs c) (c_handles c ++ [(p, ids)])
      | (Err _, s) => mk_Config s (c_runs c) (c_handles c)
      end
  | Release k =>
      match c_handles c !! k with
      | Some (p, ids) =>
          mk_Config (release_items p ids (c_sync c)).2 (c_runs c)
            (<[k := (p, ∅)]> (c_handles c))
      | None => c
      end
  end.
Definition serve_all (c : Config) (l : list Request) : Config := foldl serve c l.

(** ** A method and its run *)

(** What never changes in a run, and that a failure is for good. *)
Record kept (r r' : SyncRun) : Prop := {
  kp_provider : r_provider r' = r_provider r;
  kp_token : r_token r' = r_token r;
  kp_revision : r_revision r' = r_revision r;
  kp_failed : r_failed r = true → r_failed r' = true;
}.
#[global] Instance kept_preorder : PreOrder kept.
Proof. split; [by split|]. intros ??? [] []. split; [congruence..|auto]. Qed.

(** Nothing but the run itself and the coordinator's clock. *)
Definition run_same (rs rs' : SyncRun * Sync) : Prop :=
  kept rs.1 rs'.1 ∧ calm rs.2 rs'.2 ∧ sy_tables rs'.2 = sy_tables rs.2.
#[global] Instance run_same_preorder : PreOrder run_same.
Proof.
  split; [intros rs; split_and!; reflexivity|].
  intros rs1 rs2 rs3 (K1&C1&T1) (K2&C2&T2). split_and!; [by etrans|by etrans|congruence].
Qed.

Definition writable (r : SyncRun) (s : Sync) : bool :=
  is_none_or (r_generation r) (λ g, default 0 (sy_current s !! wg_current g) =? wg_expected g) &&
  negb (r_failed r || r_sealed r || negb (active (r_provider r) s =? r_token r)).

(** [running] only looks. *)
Lemma running_spec r s :
  ∃ e, running (r, s) = (if writable r s then Ok tt else Err e, (r, s)).
Proof.
  unfold running, writable, check_generation, mbind, st_bind, self, gets, on_sync, assert_run,
    guard_st, require, lift, ensure. cbn.
  destruct (r_generation r) as [g|]; cbn.
  - destruct (_ =? _); cbn; [|by eexists].
    destruct (r_failed r || _ || _); first [by exists Failed|by eexists].
  - destruct (r_failed r || _ || _); first [by exists Failed|by eexists].
Qed.
(** A method that starts with [running]: it runs on a writable run, or does nothing. *)
Lemma running_bind {A} (k : unit → RunM A) r s :
  (writable r s = true ∧ (running ≫= k) (r, s) = k tt (r, s)) ∨
  (writable r s = false ∧ ∃ e, (running ≫= k) (r, s) = (Err e, (r, s))).
Proof.
  destruct (running_spec r s) as [e He]. unfold mbind, st_bind. rewrite He.
  destruct (writable r s); [by left|right; eauto].
Qed.

Lemma steps_on_sync {A} (m : SyncM A) :
  steps calm m → (∀ s, sy_tables (m s).2 = sy_tables s) → steps run_same (on_sync m).
Proof.
  intros Hm Ht [r s]. unfold on_sync. cbn. specialize (Hm s). specialize (Ht s).
  destruct (m s) as [a s']. split_and!; [reflexivity|exact Hm|exact Ht].
Qed.
Lemma steps_update_self f : (∀ r, kept r (f r)) → steps run_same (update_self f).
Proof. intros Hf [r s]. split_and!; [apply Hf|reflexivity|reflexivity]. Qed.
Lemma steps_self : steps run_same self.
Proof. apply (steps_gets _). Qed.
Lemma steps_assert b m : steps run_same (assert_run b m).
Proof. apply (steps_guard _). Qed.
Lemma steps_fatal {A} m : steps run_same (fatal m : RunM A).
Proof.
  apply (steps_bind _); [|intros []; apply (steps_fail _)]. by apply steps_update_self.
Qed.
Lemma steps_running : steps run_same running.
Proof. intros [r s]. destruct (running_spec r s) as [e ->]. reflexivity. Qed.
Lemma steps_query {A} (f : Tables → A) : steps run_same (on_sync (query f)).
Proof.
  apply steps_on_sync; [apply calm_query|]. intros s.
  destruct (query f s) as [[a|e] s'] eqn:Hq; cbn; [by apply query_Ok in Hq as [_ ->]|].
  unfold query, run_statement in Hq. case_match; [|done]. injection Hq as _ <-.
  apply external_tables.
Qed.
Lemma write_some_same p tk s : run_same (@pair SyncRun _ (new_run p 0 0) s) (new_run p 0 0, (write p (Some tk) s).2).
Proof.
  destruct (write p (Some tk) s) as [x s'] eqn:Hw.
  destruct (write_moved _ _ _ _ _ Hw) as (d & [] & _ & Hd & _). rewrite Hd in mv_revision by done.
  split_and!; cbn; [reflexivity| |done]. split; intros; try done; [|by left].
  rewrite mv_revision. case_decide; lia.
Qed.
Lemma steps_write p tk : steps run_same (on_sync (write p (Some tk))).
Proof.
  apply steps_on_sync; intros s; by apply (write_some_same p tk s).
Qed.
Hint Resolve steps_self steps_assert steps_fatal steps_running steps_query steps_write : qcm.
Lemma observe_item_same w scope ids key s a s' :
  observe_item w scope ids key s = (Ok a, s') → sy_tables s' = sy_tables s.
Proof.
  unfold observe_item. intros Hr. bind_in Hr x s1 H1. apply resolve_Ok in H1 as [Ht _].
  destruct x. run_inv. by tables_eq.
Qed.
Lemma steps_observe w scope items :
  steps run_same (on_sync (transaction (fold_st (observe_item w scope) [] items))).
Proof.
  apply steps_on_sync.
  - apply calm_transaction, calm_fold. intros. unfold observe_item. calm_walk.
  - intros s. symmetry. apply (transaction_tables eq). apply (moves_fold eq). intros ids key.
    intros s1 a s2 Hr. by apply observe_item_same in Hr.
Qed.

Ltac same_walk :=
  repeat match goal with
  | |- steps run_same (update_self _) => apply steps_update_self; intros ?; by split
  | |- steps run_same (attempt _) => apply (steps_attempt _)
  | |- steps run_same (for_each _ _) => apply (steps_fold_st _); intros ? ? _
  | |- steps run_same (_ ≫= _) => apply (steps_bind _); [|intros ?]
  | |- steps run_same (mret _) => apply (steps_ret _)
  | |- steps run_same (lift _) => apply (steps_lift _)
  | |- steps run_same (if ?x then _ else _) => destruct x
  | |- steps run_same _ => solve [eauto with qcm]
  end.

(** Every method but the two that write rows. *)
Lemma call_same m :
  match m with SendBatch _ | Finalize => False | _ => True end → steps run_same (call m).
Proof.
  destruct m; cbn; intros Hm; try contradiction.
  - unfold observe_libraries, observe_library. same_walk.
  - unfold declare. same_walk.
  - unfold complete_libraries. same_walk.
  - unfold complete. same_walk.
  - unfold observe_items. same_walk; apply steps_observe.
  - unfold seal. same_walk.
  - apply steps_update_self. intros r. by split.
  - apply steps_update_self. intros r. by split.
Qed.

Definition run_writer (r : SyncRun) : ProviderWriter :=
  mk_ProviderWriter (r_provider r) (Some (r_token r, r_revision r)) (r_generation r).

Lemma bind_ret_state {A} (m : RunM A) rs : ((m ;; mret tt) rs).2 = (m rs).2.
Proof. unfold mbind, st_bind. by destruct (m rs) as [[]]. Qed.

Lemma send_batch_run b r s :
  (call (SendBatch b) (r, s)).2 =
  if writable r s
  then ((if is_ok (sync_batch (run_writer r) b s).1 then r else set_failed r),
        (sync_batch (run_writer r) b s).2)
  else (r, s).
Proof.
  cbn [call]. unfold run_sync_batch.
  rewrite bind_ret_state.
  match goal with |- ((running ≫= ?k) (r, s)).2 = _ =>
    destruct (running_bind k r s) as [[-> Hr]|[-> [e Hr]]] end;
    (etrans; [exact (f_equal snd Hr)|]); [|done].
  unfold mbind, st_bind, self, gets, attempt, on_sync, update_self, modify, lift, mret, st_ret.
  cbn. fold (run_writer r). by destruct (sync_batch (run_writer r) b s) as [[x|e] s'].
Qed.

Lemma finalize_run r s :
  finalize (r, s) =
  if r_failed r || negb (r_sealed r)
  then (Err (Custom "sync was not sealed successfully"), (r, s)) else
  match write (r_provider r) (Some (r_token r)) s with
  | (Err e, s1) => (Err e, (r, s1))
  | (Ok _, s1) =>
      if negb (revision (r_provider r) s1 =? r_revision r)
      then (Err (Custom "sync prune conflicted with another write; retry required"),
            (set_failed r, s1))
      else
        match transaction (prune_all r) s1 with
        | (Err e, s2) => (Err e, ((if is_custom too_many (Err (A := unit) e) then set_failed r else r), s2))
        | (Ok _, s2) =>
            (Ok tt, (r, with_provider (r_provider r) (with_active 0 (state (r_provider r) s2)) s2))
        end
  end.
Proof.
  unfold finalize, revision.
  unfold mbind, st_bind, self, gets, attempt, on_sync, update_self, modify, lift, mret, st_ret,
    assert_run, guard_st, ensure, fatal, throw, fail, invalidate_sync, modify. cbn -[write transaction prune_all].
  destruct (r_failed r || _); [done|]. cbn -[write transaction prune_all].
  unfold mbind, st_bind. destruct (write (r_provider r) (Some (r_token r)) s) as [[[]|e] s1]; [|done]. cbn.
  destruct (_ =? _); [|done]. cbn.
  destruct (transaction (prune_all r) s1) as [[[]|e] s2]; [done|].
  destruct e; cbn; try done. by destruct (String.eqb _ _).
Qed.

(** ** Every request keeps the library well formed *)

(** A method keeps to its provider and to what [calm] allows, whether it returns or fails. *)
Lemma call_calm m r s : calm s (call m (r, s)).2.2 ∧ kept r (call m (r, s)).2.1.
Proof.
  assert (∀ s1 w b, is_some_and (w_run w) (λ _, true) = true → calm s1 (sync_batch w b s1).2)
    as Hbatch.
  { intros s1 w b Hw. unfold sync_batch.
    apply (steps_bind_dep calm); [apply (steps_lift _)|intros ? s2 _].
    apply (steps_bind_dep calm); [apply calm_check_generation|intros ? s3 _].
    apply (steps_bind_dep calm); [ |intros ? s4 _].
    - destruct (w_run w) as [[tk rev]|]; [|done]. apply (write_some_same (w_provider w) tk s3).
    - apply calm_transaction. calm_walk. }
  destruct m;
    try match goal with |- context [call ?m] =>
          destruct (call_same m I (r, s)) as (Hk & Hc & _); exact (conj Hc Hk) end.
  - rewrite send_batch_run. destruct (writable r s); cbn; [|by split].
    split; [by apply Hbatch|]. destruct (is_ok _); [done|by split].
  - cbn [call]. rewrite finalize_run. destruct (_ || _); [by split|].
    pose proof (write_some_same (r_provider r) (r_token r) s) as (_ & Hc & _).
    destruct (write _ _ s) as [[[]|e] s1]; cbn in Hc |- *; [|by split].
    destruct (negb _); cbn; [by split|].
    assert (calm s1 (transaction (prune_all r) s1).2) as Hp.
    { apply calm_transaction. unfold prune_all, prune, prune_library. calm_walk. }
    destruct (transaction (prune_all r) s1) as [[[]|e] s2]; cbn in *.
    + split; [|done]. etrans; [exact Hc|]. etrans; [exact Hp|]. apply calm_with_active.
    + split; [by etrans|]. by destruct (match e with Custom _ => _ | _ => _ end).
Qed.
Lemma call_good m r s : good (r_provider r) (sy_tables s) (sy_tables (call m (r, s)).2.2).
Proof.
  destruct m;
    try match goal with |- context [call ?m] =>
          destruct (call_same m I (r, s)) as (_ & _ & Ht); rewrite Ht; reflexivity end.
  - rewrite send_batch_run. destruct (writable r s); [|reflexivity].
    apply (sync_batch_good (run_writer r)).
  - cbn [call]. rewrite finalize_run. destruct (_ || _); [reflexivity|].
    pose proof (write_some_same (r_provider r) (r_token r) s) as (_ & _ & Ht).
    destruct (write _ _ s) as [[[]|e] s1]; cbn in Ht |- *; [|by rewrite Ht].
    destruct (negb _); cbn; [by rewrite Ht|].
    pose proof (transaction_tables (good (r_provider r)) _ s1 (prune_all_good r)) as Hg.
    rewrite Ht in Hg. by destruct (transaction (prune_all r) s1) as [[[]|e] s2].
Qed.

Lemma start_related R `{!PreOrder R} p : steps (related R) (start p).
Proof. unfold start. related_walk. Qed.
Lemma retain_related R `{!PreOrder R} p roots : steps (related R) (retain_items p roots).
Proof. unfold retain_items. related_walk. Qed.

(** Well-formed tables stay well formed. *)
Definition upkeep (t t' : Tables) : Prop := well_formed t → well_formed t'.
#[global] Instance upkeep_preorder : PreOrder upkeep.
Proof. split; [by intros ??|]. intros ??? H1 H2 ?. by apply H2, H1. Qed.

Lemma favorite_row_upkeep id v now t t' : favorite_row id v now t = Ok t' → upkeep t t'.
Proof.
  unfold favorite_row. destruct (t_dynamic t !! id); intros ??;
    [by eapply update_dynamic_well_formed|by eapply insert_dynamic_well_formed].
Qed.

Lemma set_favorite_upkeep id kind v : steps (related upkeep) (set_favorite id kind v).
Proof.
  unfold set_favorite, resolve_provider_item, favorite. related_walk.
  all: apply (related_statement _); intros t ? t' Hr; destruct_ok; subst;
    by eapply favorite_row_upkeep.
Qed.

Lemma delete_provider_good p t : good p t (delete_provider p t).
Proof.
  intros Hwf. split; [by apply delete_provider_well_formed|].
  destruct (delete_libraries_good p (λ _ r, lb_provider r =? p) t) as [_ Hu]; [|done|].
  { intros l r _. apply Z.eqb_eq. }
  by apply untouched_providers.
Qed.
Lemma delete_provider_req_good p : steps (related (good p)) (delete_provider_req p).
Proof.
  unfold delete_provider_req, invalidate_sync, invalidate_scope, bump_epoch. related_walk.
  apply (related_statement _). intros t ? t' [= _ <-]. apply delete_provider_good.
Qed.

Lemma serve_upkeep c q :
  well_formed (sy_tables (c_sync c)) → well_formed (sy_tables (c_sync (serve c q))).
Proof.
  intros Hwf. destruct q; cbn.
  - pose proof (start_related upkeep p _ Hwf) as Hs. by destruct (start p _) as [[[]|] s].
  - destruct (c_runs c !! run) as [r|]; [|done]. by apply call_good.
  - destruct (c_runs c !! run) as [r|]; [|done]. cbn. unfold drop_run. by rewrite cancel_tables.
  - by apply (sync_batch_good (mk_ProviderWriter p None g)).
  - by apply set_favorite_upkeep.
  - by apply delete_provider_req_good.
  - pose proof (retain_related upkeep p roots _ Hwf) as Hs. by destruct (retain_items p _ _) as [[] s].
  - destruct (c_handles c !! handle) as [[p ids]|]; [|done]. done.
Qed.
Lemma serve_all_upkeep c l :
  well_formed (sy_tables (c_sync c)) → well_formed (sy_tables (c_sync (serve_all c l))).
Proof.
  revert c. induction l as [|q l IH]; intros c Hwf; cbn; [done|]. by apply IH, serve_upkeep.
Qed.
End sessions.
#[export] Hint Resolve steps_self steps_assert steps_fatal steps_running steps_query steps_write : qcm.
