(* ===== verification/Fixture.v ===== *)
(** * Library synchronisation: a small library for the examples

    An environment in which nothing fails, and a provider that sends one library with an
    album, an artist, two songs and a mix in a full run. *)
From S2P Require Import Prelude Tables Integrity Coordinator Batch SyncRun Sessions.
From Stdlib Require Import SpecFloat.
From stdpp Require Import options.

Open Scope string_scope.
Open Scope Z_scope.
Open Scope list_scope.

#[export] Instance calm_world : Environment := {|
  fault _ := false; events _ := []; clock n := 1000 + Z.of_nat n; registered _ := true
|}.
#[export] Instance small_batches : BatchCodec := λ _, 100.

Definition empty_tables (providers : gset Z) : Tables :=
  mk_Tables providers ∅ ∅ ∅ ∅ ∅ ∅ ∅ ∅ ∅ ∅ ∅ ∅ 0 0 0.
Definition fresh_config (providers : gset Z) : Config :=
  mk_Config (mk_Sync (empty_tables providers) ∅ 1 ∅ ∅ 0) [] [].

Lemma empty_tables_well_formed providers : well_formed (empty_tables providers).
Proof. split; split; cbn; intros; try (by rewrite lookup_empty in *); lia. Qed.

Definition key (native : string) (library : option Z) (ty : ItemType.t) : ItemRef :=
  Key (mk_ItemKey native (Set_ library) ty None).
Definition all_fields : Mask := mk_Mask None None.
Definition all_options : BatchOptions :=
  mk_BatchOptions all_fields all_fields all_fields all_fields all_fields.
Definition empty_batch : SyncBatch :=
  mk_SyncBatch [] [] [] [] [] [] [] [] [] [] [] all_options.
Definition album_input (native name : string) : EntityInput AlbumFields :=
  mk_EntityInput (key native (Some 1) ItemType.Album) None
    (mk_AlbumFields (Set_ name) Missing Missing Missing Missing Missing Missing Missing Missing
       Missing Missing).
Definition artist_input (native name : string) : EntityInput ArtistFields :=
  mk_EntityInput (key native (Some 1) ItemType.Artist) None
    (mk_ArtistFields (Set_ name) Missing Missing Missing Missing Missing).
Definition song_input (native name album : string) : SongInput :=
  mk_SongInput
    (mk_EntityInput (key native (Some 1) ItemType.Song) None
       (mk_SongFields (Set_ name) Missing Missing Missing (Set_ 60000) Missing Missing Missing
          Missing Missing))
    (Set_ (Some (key album (Some 1) ItemType.Album))).
Definition mix_input (native name : string) : EntityInput RemoteMixFields :=
  mk_EntityInput (key native None ItemType.Mix) None
    (mk_RemoteMixFields (Set_ name) Missing Missing Missing).

Definition library_batch : SyncBatch :=
  mk_SyncBatch [mk_LibraryInput "home" "Home"] [] [] [] [] [] [] [] [] [] [] all_options.
Definition music_batch : SyncBatch :=
  mk_SyncBatch [] [album_input "a1" "Album"] [artist_input "t1" "Artist"]
    [song_input "s1" "One" "a1"; song_input "s2" "Two" "a1"] [mix_input "m1" "Mix"] [] [] []
    [mk_RelationInput (key "a1" (Some 1) ItemType.Album) Replace
       [key "t1" (Some 1) ItemType.Artist]] []
    [mk_MixContents (key "m1" None ItemType.Mix) Replace
       [key "s2" (Some 1) ItemType.Song; key "s1" (Some 1) ItemType.Song]] all_options.

Definition album_scope : SyncScope := (Some 1, ItemType.to_i32 ItemType.Album).
Definition artist_scope : SyncScope := (Some 1, ItemType.to_i32 ItemType.Artist).
Definition song_scope : SyncScope := (Some 1, ItemType.to_i32 ItemType.Song).
Definition mix_scope : SyncScope := (None, ItemType.to_i32 ItemType.Mix).
Definition scopes : list SyncScope := [album_scope; artist_scope; song_scope; mix_scope].
Definition required : list ItemType.t := [ItemType.Album; ItemType.Artist; ItemType.Song].

(** A full run, as run number [k], in which the provider names these songs. *)
Definition run_up_to_seal (k : nat) (songs : list string) : list Request :=
  [Start 1; Call k (SendBatch library_batch); Call k (ObserveLibraries [1]);
   Call k (Declare_ scopes required); Call k (SendBatch music_batch);
   Call k (ObserveItems album_scope [key "a1" (Some 1) ItemType.Album]);
   Call k (ObserveItems artist_scope [key "t1" (Some 1) ItemType.Artist]);
   Call k (ObserveItems song_scope ((λ s, key s (Some 1) ItemType.Song) <$> songs));
   Call k (ObserveItems mix_scope [key "m1" None ItemType.Mix])] ++
  ((λ s, Call k (Complete s)) <$> scopes) ++ [Call k CompleteLibraries; Call k Seal].
Definition full_run (k : nat) (songs : list string) : list Request :=
  run_up_to_seal k songs ++ [Call k Finalize].

Definition synced : Config := serve_all (fresh_config {[1; 2]}) (full_run 0 ["s1"; "s2"]).
Lemma synced_well_formed : well_formed (sy_tables (c_sync synced)).
Proof. apply serve_all_upkeep, empty_tables_well_formed. Qed.

(** The second run names one song of two; the other one is to go. *)
Definition before_prune : Config := serve_all synced (run_up_to_seal 1 ["s1"]).
Definition second_run : SyncRun :=
  mk_SyncRun 1 2 0 (list_to_set scopes) (list_to_set scopes) {[1; 2; 3; 5]} {[1]}
    true true true false None.
Lemma before_prune_run : c_runs before_prune !! 1%nat = Some second_run.
Proof. vm_compute. reflexivity. Qed.
Lemma before_prune_well_formed : well_formed (sy_tables (c_sync before_prune)).
Proof. apply serve_all_upkeep, synced_well_formed. Qed.

(** A library with an empty identity is refused. *)
Definition bad_batch : SyncBatch :=
  mk_SyncBatch [mk_LibraryInput "more" "More"; mk_LibraryInput "" "Home"] [] [] [] [] [] [] [] []
    [] [] all_options.
(** A run that has just been started. *)
Definition started : Config := serve synced (Start 1).
