(* ===== verification/Upkeep.v ===== *)
(** * Library synchronisation: integrity and isolation over any sequence of requests *)
From S2P Require Import Prelude Tables Integrity Statements Isolation Coordinator Batch SyncRun Effects Writer Control Runs Sessions Fixture.
From stdpp Require Import options.

Section upkeep.
Context `{Environment} `{BatchCodec}.

(** C5. Integrity of the library: whatever runs, batches, favourites, provider deletions and
    retentions are requested, in whatever order, and whatever the environment does meanwhile
    (failing statements, cancellations, new generations), the tables stay well formed: every
    foreign key resolves, identities are unique, every row hangs off an item of its own type,
    items and their library have one provider, and songs, albums and artists are related
    within one library only. *)
Theorem library_integrity c l :
  well_formed (sy_tables (c_sync c)) → well_formed (sy_tables (c_sync (serve_all c l))).
Proof. apply serve_all_upkeep. Qed.

(** The provider whose rows a request writes. *)
Definition request_provider (c : Config) (q : Request) : option Z :=
  match q with
  | Call k _ => r_provider <$> c_runs c !! k
  | WriteBatch p _ _ | DeleteProvider p => Some p
  | _ => None
  end.

(** C6. Providers do not reach into each other: a method of a run, a batch or the deletion of
    a provider leaves the libraries and items of every other provider, with their album,
    artist, song, mix, favourite, image and relation rows, and the user's local mixes, exactly
    as they are. *)
Theorem provider_isolation c q p :
  well_formed (sy_tables (c_sync c)) → request_provider c q = Some p →
  untouched p (sy_tables (c_sync c)) (sy_tables (c_sync (serve c q))).
Proof.
  intros Hwf Hq. destruct q; cbn in *; simplify_eq.
  - destruct (c_runs c !! run) as [r|]; [|done]. cbn in *. simplify_eq. by apply call_good.
  - by apply (sync_batch_good (mk_ProviderWriter p None g)).
  - by apply delete_provider_req_good.
Qed.
End upkeep.

Lemma library_integrity_witness :
  well_formed (sy_tables (c_sync synced)) ∧
  size (t_song (sy_tables (c_sync synced))) = 2%nat.
Proof.
  split; [|vm_compute; reflexivity].
  apply (library_integrity (fresh_config {[1; 2]}) (full_run 0 ["s1"; "s2"]%string)).
  apply empty_tables_well_formed.
Defined.
Lemma provider_isolation_witness :
  untouched 2 (sy_tables (c_sync synced))
    (sy_tables (c_sync (serve synced (WriteBatch 2 None library_batch)))) ∧
  size (t_library (sy_tables (c_sync (serve synced (WriteBatch 2 None library_batch))))) = 2%nat.
Proof.
  split; [|vm_compute; reflexivity].
  apply (provider_isolation synced (WriteBatch 2 None library_batch) 2);
    [apply synced_well_formed|reflexivity].
Defined.

(** Deleting a provider leaves its items outside libraries behind: no foreign key leads from
    them to it. *)
Lemma global_items_outlive_provider p t i m :
  t_item t !! i = Some m → i_library m = None → t_item (delete_provider p t) !! i = Some m.
Proof. intros Hi Hl. unfold delete_provider. apply delete_libraries_item. split; [done|]. by rewrite Hl. Qed.
