(* ===== verification/Pruning.v ===== *)
(** * Library synchronisation: what the end of a full run deletes *)
From S2P Require Import Prelude Tables Integrity Statements Isolation Coordinator Batch SyncRun Effects Writer Control Runs Sessions Fixture.
From stdpp Require Import options.

Section pruning.
Context `{Environment} (r : SyncRun).
Notation p := (r_provider r).

Lemma prune_Ok retained row s u s' :
  prune r retained row s = (Ok u, s') →
  t_library (sy_tables s') = t_library (sy_tables s) ∧
  ∀ i m, t_item (sy_tables s') !! i = Some m ↔
    t_item (sy_tables s) !! i = Some m ∧ ¬ (row.1 = i ∧ prunable r retained row.1 row.2 = true).
Proof.
  intros Hr. unfold prune in Hr. destruct (prunable _ _ _ _) eqn:Hp.
  2:{ injection Hr as _ ->. split; [done|]. naive_solver. }
  bind_in Hr u1 s1 H1. apply exec_all_Ok in Hr.
  assert (t_item (sy_tables s1) = t_item (sy_tables s) ∧
          t_library (sy_tables s1) = t_library (sy_tables s)) as [Hi Hl].
  { clear Hr. destruct (type_in _ _).
    - apply exec_all_Ok in H1. by rewrite H1.
    - by injection H1 as _ ->. }
  rewrite Hr. split; [done|]. intros i m. rewrite delete_items_item, Hi, Z.eqb_neq. naive_solver.
Qed.

Lemma prune_loop_Ok retained l s u s' :
  for_each (prune r retained) l s = (Ok u, s') →
  t_library (sy_tables s') = t_library (sy_tables s) ∧
  ∀ i m, t_item (sy_tables s') !! i = Some m ↔
    t_item (sy_tables s) !! i = Some m ∧
    ¬ (∃ row, row ∈ l ∧ row.1 = i ∧ prunable r retained row.1 row.2 = true).
Proof.
  apply (fold_st_ind (λ _, prune r retained) (λ l _ s', t_library (sy_tables s') = t_library (sy_tables s) ∧
  ∀ i m, t_item (sy_tables s') !! i = Some m ↔
    t_item (sy_tables s) !! i = Some m ∧
    ¬ (∃ row, row ∈ l ∧ row.1 = i ∧ prunable r retained row.1 row.2 = true))).
  { split; [done|]. intros i m. split; [|naive_solver]. intros Hi. split; [done|].
    by intros (row & []%elem_of_nil & _). }
  intros d row _ s1 [] s2 _ [Hl1 Hi1] Hr. apply prune_Ok in Hr as [Hl2 Hi2].
  split; [congruence|]. intros i m. rewrite Hi2, Hi1.
  setoid_rewrite elem_of_app. setoid_rewrite list_elem_of_singleton. naive_solver.
Qed.

Lemma prune_library_loop_Ok l s u s' :
  for_each (prune_library r) l s = (Ok u, s') → well_formed (sy_tables s) →
  (∀ i m, t_item (sy_tables s') !! i = Some m ↔
    t_item (sy_tables s) !! i = Some m ∧
    ¬ (∃ row, row ∈ l ∧ row.1 ∉ r_libraries r ∧ i_library m = Some row.1)) ∧
  (∀ i x, t_library (sy_tables s') !! i = Some x ↔
    t_library (sy_tables s) !! i = Some x ∧
    ¬ (∃ row, row ∈ l ∧ row.1 ∉ r_libraries r ∧ i = row.1)).
Proof.
  intros Hr Hwf. revert Hr.
  match goal with |- _ → ?G =>
    cut (for_each (prune_library r) l s = (Ok u, s') → well_formed (sy_tables s') ∧ G);
    [tauto|] end.
  apply (fold_st_ind (λ _, prune_library r) (λ l _ s', well_formed (sy_tables s') ∧
  (∀ i m, t_item (sy_tables s') !! i = Some m ↔
    t_item (sy_tables s) !! i = Some m ∧
    ¬ (∃ row, row ∈ l ∧ row.1 ∉ r_libraries r ∧ i_library m = Some row.1)) ∧
  (∀ i x, t_library (sy_tables s') !! i = Some x ↔
    t_library (sy_tables s) !! i = Some x ∧
    ¬ (∃ row, row ∈ l ∧ row.1 ∉ r_libraries r ∧ i = row.1)))).
  { split; [done|]. setoid_rewrite elem_of_nil. naive_solver. }
  intros d row _ s1 [] s2 _ (Hwf1 & Hi1 & Hl1) Hr. unfold prune_library in Hr.
  setoid_rewrite elem_of_app. setoid_rewrite list_elem_of_singleton.
  case_bool_decide as Hin; [injection Hr as <-; naive_solver|].
  apply exec_all_Ok in Hr. split; [rewrite Hr; by apply delete_libraries_well_formed|].
  split.
  - intros i m. rewrite Hr, delete_libraries_item, is_some_and_false. rewrite Hi1.
    split.
    + intros [[Hm Hd] Hne]. split; [done|]. intros (row' & [Hr'| ->] & Hnot & Hlib).
      { apply Hd. by exists row'. }
      specialize (Hne _ Hlib). apply (sv_item _ (wf_shelved _ Hwf1) i m) in Hlib as Hx;
        [|by apply Hi1].
      destruct Hx as [x Hx]. rewrite Hx in Hne. cbn in Hne. lia.
    + intros [Hm Hd]. split; [naive_solver|]. intros l' Hl'. apply is_some_and_false.
      intros x _. apply Z.eqb_neq. intros ->. apply Hd. exists row. auto.
  - intros i x. rewrite Hr, delete_libraries_library, Hl1, Z.eqb_neq. naive_solver.
Qed.

(** All rows of a provider, when there are no more than the limit. *)
Lemma elem_of_all_rows {R} (pr : R → Z) n (m : gmap Z R) k x :
  zlen (take (Z.to_nat (n + 1)) (filter (λ kr : Z * R, pr kr.2 = p) (map_to_list m))) ≤ n →
  (k, x) ∈ take (Z.to_nat (n + 1)) (filter (λ kr : Z * R, pr kr.2 = p) (map_to_list m)) ↔
  m !! k = Some x ∧ pr x = p.
Proof.
  intros Hn. rewrite take_ge by (unfold zlen in Hn; rewrite length_take in Hn; lia).
  rewrite list_elem_of_filter, elem_of_map_to_list. naive_solver.
Qed.

(** Everything of the provider that was not named, and is not retained, is gone; everything
    else is as it was. *)
Lemma prune_all_Ok s u s' :
  prune_all r s = (Ok u, s') → well_formed (sy_tables s) →
  (∀ i m, t_item (sy_tables s') !! i = Some m ↔
    t_item (sy_tables s) !! i = Some m ∧
    (i_provider m = p → prunable r (retained_items p s) i m = false ∧
       ∀ l, i_library m = Some l → l ∈ r_libraries r)) ∧
  (∀ i x, t_library (sy_tables s') !! i = Some x ↔
    t_library (sy_tables s) !! i = Some x ∧ (lb_provider x = p → i ∈ r_libraries r)).
Proof.
  intros Hr Hwf. unfold prune_all in Hr.
  bind_in Hr candidates s1 H1. bind_in Hr u2 s2 H2. bind_in Hr retained s3 H3.
  bind_in Hr u4 s4 H4. bind_in Hr libraries s5 H5. bind_in Hr u6 s6 H6. bind_in Hr u7 s7 H7.
  bind_in Hr u8 s8 H8. apply check_generation_same in H8 as ->.
  apply check_origin_same in Hr as ->.
  pose proof (calm_query (λ t, take (Z.to_nat (MAX_SEEN + 1))
    (filter (λ kr : Z * Item, i_provider kr.2 = p) (map_to_list (t_item t)))) s) as Hc.
  rewrite H1 in Hc. cbn in Hc. apply query_Ok in H1 as [-> Ht1]. apply query_Ok in H5 as [-> Ht5].
  apply require_Ok in H2 as [H2%Z.leb_le ->], H6 as [H6%Z.leb_le ->].
  apply gets_Ok in H3 as [-> ->].
  assert (retained_items p s1 = retained_items p s) as Hret
    by (unfold retained_items; by rewrite (cl_retained _ _ Hc)).
  rewrite Hret in H4. apply prune_loop_Ok in H4 as Hloop. destruct Hloop as [Hl4 Hi4].
  rewrite Ht1 in Hl4, Hi4.
  assert (well_formed (sy_tables s4)) as Hwf4.
  { eapply (for_each_own (mk_ProviderWriter p None None)) in H4 as Hg; [|apply prune_good|by rewrite Ht1|].
    - apply Hg. by rewrite Ht1.
    - intros [i m] Hin. rewrite Ht1. apply elem_of_provider_rows in Hin as [Hi Hp].
      by eapply own_row. }
  apply prune_library_loop_Ok in H7 as [Hi7 Hl7]; [|by rewrite Ht5].
  rewrite Ht5 in Hi7, Hl7. clear H4.
  assert (∀ l x, t_library (sy_tables s) !! l = Some x →
    (∃ row, row ∈ take (Z.to_nat (MAX_SEEN + 1)) (filter (λ kr : Z * LibraryRow,
        lb_provider kr.2 = p) (map_to_list (t_library (sy_tables s4)))) ∧
      row.1 ∉ r_libraries r ∧ l = row.1) ↔ lb_provider x = p ∧ l ∉ r_libraries r) as Hlib.
  { intros l x Hl. split.
    - intros ([l' x'] & Hin & Hnot & ->). apply elem_of_all_rows in Hin as [Hx Hp]; [|done].
      rewrite Hl4 in Hx. naive_solver.
    - intros [Hp Hnot]. exists (l, x). split; [|done]. apply elem_of_all_rows; [done|].
      by rewrite Hl4. }
  rewrite Hl4 in Hlib, Hi7, Hl7. split.
  - intros i m. rewrite Hi7, Hi4. split.
    + intros [[Hm Hnp] Hnl]. split; [done|]. intros Hp. split.
      * apply not_true_iff_false. intros Hpr. apply Hnp. exists (i, m). split; [|done].
        by apply elem_of_all_rows.
      * intros l Hl. apply dec_stable. intros Hnot.
        destruct (sv_item _ (wf_shelved _ Hwf) _ _ _ Hm Hl) as [x Hx].
        pose proof (ty_provider _ (wf_typed _ Hwf) _ _ _ _ Hm Hl Hx).
        destruct (proj2 (Hlib _ _ Hx)) as (row & ? & ? & ->); [by split; [congruence|]|].
        apply Hnl. by exists row.
    + intros [Hm Hk]. split; [split; [done|]|].
      * intros ([i' m'] & Hin & <- & Hpr). apply elem_of_all_rows in Hin as [Hm' Hp]; [|done].
        cbn in *. simplify_eq. destruct (Hk Hp). congruence.
      * intros (row & Hin & Hn & Hl).
        destruct (sv_item _ (wf_shelved _ Hwf) _ _ _ Hm Hl) as [x Hx].
        destruct (proj1 (Hlib _ _ Hx)) as [Hp _]; [by exists row|].
        pose proof (ty_provider _ (wf_typed _ Hwf) _ _ _ _ Hm Hl Hx) as Hp'.
        rewrite Hp in Hp'. destruct (Hk (eq_sym Hp')) as [_ Hk2]. by apply Hn, Hk2.
  - intros l x. rewrite Hl7. split.
    + intros [Hl Hn]. split; [done|]. intros Hp. apply dec_stable. intros Hnot.
      apply Hn, (proj2 (Hlib _ _ Hl)). done.
    + intros [Hl Hin]. split; [done|]. intros He. destruct (proj1 (Hlib _ _ Hl) He) as [Hp Hnot]. auto.
Qed.
End pruning.

Section finalize.
Context `{Environment} `{BatchCodec}.

(** What is left after a run that ended well. *)
Lemma finalize_mirrors c k r :
  well_formed (sy_tables (c_sync c)) → c_runs c !! k = Some r →
  (call Finalize (r, c_sync c)).1 = Ok tt →
  let s := c_sync c in let t' := sy_tables (c_sync (serve c (Call k Finalize))) in
  let p := r_provider r in
  (revision p s = r_revision r ∧ active p s = r_token r) ∧
  (∀ i m, t_item t' !! i = Some m ↔
    t_item (sy_tables s) !! i = Some m ∧
    (i_provider m = p →
       (scope_of m ∈ r_scopes r → i ∈ r_seen r ∨ i ∈ retained_items p s) ∧
       ∀ l, i_library m = Some l → l ∈ r_libraries r)) ∧
  (∀ l x, t_library t' !! l = Some x ↔
    t_library (sy_tables s) !! l = Some x ∧ (lb_provider x = p → l ∈ r_libraries r)).
Proof.
  intros Hwf Hk Hok s t' p. subst t'. unfold serve. rewrite Hk. cbn [c_sync]. cbn [call] in *.
  fold s in Hok, Hwf |- *. revert Hok. rewrite finalize_run. fold p.
  destruct (_ || _); [done|]. destruct (write p _ s) as [[[]|e] s1] eqn:Hw; [|done].
  destruct (write_moved _ _ _ _ _ Hw) as (d & [] & _ & Hd & Hokw).
  specialize (Hd eq_refl). subst d. destruct (Hokw eq_refl) as [_ Htok]. cbn in Htok.
  destruct (revision p s1 =? r_revision r) eqn:Hrev; [|done]. cbn [negb].
  destruct (transaction (prune_all r) s1) as [[[]|e] s2] eqn:Ht; [|done]. intros _. cbn.
  apply transaction_Ok in Ht as (s3 & s4 & Hq & Ht3 & Hr & Ht4).
  pose proof (calm_query (λ _, tt) s1) as Hc. rewrite Hq in Hc. cbn in Hc.
  assert (retained_items p s3 = retained_items p s) as Hret.
  { unfold retained_items. by rewrite (cl_retained _ _ Hc), mv_retained. }
  apply prune_all_Ok in Hr as [Hi Hl]; [|by rewrite Ht3, mv_tables].
  fold p in Hi, Hl. rewrite Hret, Ht3, mv_tables in Hi. rewrite Ht3, mv_tables in Hl.
  rewrite Ht4. split; [|split; [|exact Hl]].
  - split; [|by apply Z.eqb_eq]. apply Z.eqb_eq in Hrev. rewrite <- Hrev, mv_revision.
    case_decide; lia.
  - intros i m. rewrite Hi. unfold prunable. rewrite !andb_false_iff, !negb_false_iff,
      bool_decide_eq_false, !bool_decide_eq_true.
    destruct (decide (scope_of m ∈ r_scopes r)); naive_solver.
Qed.
(** C28. A full run that ends well mirrors the provider: no other writer got in since it began,
    and of its provider exactly the items are left that were named, are retained or are
    outside the declared scopes, in the libraries that were named; every other item and
    library is left as it is. *)
Theorem finalize_exact c k r :
  well_formed (sy_tables (c_sync c)) → c_runs c !! k = Some r →
  (call Finalize (r, c_sync c)).1 = Ok tt →
  let s := c_sync c in let t' := sy_tables (c_sync (serve c (Call k Finalize))) in
  let p := r_provider r in
  (revision p s = r_revision r ∧ active p s = r_token r) ∧
  (∀ i m, t_item t' !! i = Some m ↔
    t_item (sy_tables s) !! i = Some m ∧
    (i_provider m = p →
       (scope_of m ∈ r_scopes r → i ∈ r_seen r ∨ i ∈ retained_items p s) ∧
       ∀ l, i_library m = Some l → l ∈ r_libraries r)) ∧
  (∀ l x, t_library t' !! l = Some x ↔
    t_library (sy_tables s) !! l = Some x ∧ (lb_provider x = p → l ∈ r_libraries r)).
Proof. intros Hwf Hk Hok. by apply finalize_mirrors. Qed.
End finalize.

Lemma finalize_exact_witness :
  (call Finalize (second_run, c_sync before_prune)).1 = Ok tt ∧
  revision 1 (c_sync before_prune) = 0 ∧
  t_item (sy_tables (c_sync before_prune)) !! 4 ≠ None ∧
  t_item (sy_tables (c_sync (serve before_prune (Call 1 Finalize)))) !! 4 = None.
Proof.
  pose proof before_prune_run as Hk.
  assert ((call Finalize (second_run, c_sync before_prune)).1 = Ok tt) as Hok
    by (vm_compute; reflexivity).
  split; [exact Hok|]. split.
  - apply (finalize_exact before_prune 1 second_run); [|exact Hk|exact Hok].
    apply before_prune_well_formed.
  - split; [vm_compute; discriminate|vm_compute; reflexivity].
Defined.

(** A run that names both songs and not their album: the album goes, its songs lose their
    rows, and their items stay. *)
Definition without_album : list Request :=
  filter (λ q, match q with
    | Call _ (ObserveItems scope _) => negb (bool_decide (scope = album_scope))
    | _ => true
    end = true) (run_up_to_seal 1 ["s1"; "s2"]%string).
Lemma seen_songs_lose_rows :
  let t := sy_tables (c_sync (serve_all synced (without_album ++ [Call 1 Finalize]))) in
  is_Some (t_item t !! 3) ∧ t_song t !! 3 = None ∧ t_item t !! 1 = None.
Proof. vm_compute. split_and!; [by eexists|done|done]. Qed.
