(* ===== verification/Turns.v ===== *)
(** * Library synchronisation: runs and other writers take turns *)
From S2P Require Import Prelude Tables Integrity Isolation Coordinator Batch SyncRun Effects Control Runs Sessions Fixture.
From stdpp Require Import options.

(** The revisions of other writes only grow, a token is never given out twice, and a run that
    is active was started. *)
Record onward (s s' : Sync) : Prop := {
  on_revision p : revision p s ≤ revision p s';
  on_sequence p : ps_sequence (state p s') = ps_sequence (state p s);
  on_active p : active p s' = active p s ∨ active p s' = 0;
}.
#[global] Instance onward_preorder : PreOrder onward.
Proof.
  split; [intros s; split; auto; lia|]. intros s1 s2 s3 [R1 S1 A1] [R2 S2 A2].
  split; intros p.
  - etrans; [apply R1|apply R2].
  - by rewrite S2, S1.
  - destruct (A1 p), (A2 p); naive_solver congruence.
Qed.
Lemma calm_onward s s' : calm s s' → onward s s'.
Proof. intros []. split; intros p; auto. by rewrite cl_revision. Qed.
Lemma moved_onward p d s s' : 0 ≤ d → moved p d s s' → onward s s'.
Proof.
  intros Hd []. split; intros q; auto. rewrite mv_revision. case_decide; lia.
Qed.

Section turns.
Context `{Environment} `{BatchCodec}.

Lemma steps_calm_onward {A} (m : SyncM A) : steps calm m → steps onward m.
Proof. apply steps_impl. intros ??. apply calm_onward. Qed.
Lemma onward_write p origin : steps onward (write p origin).
Proof.
  intros s. destruct (write p origin s) as [x s'] eqn:Hw.
  destruct (write_moved _ _ _ _ _ Hw) as (d & Hm & Hd & _). by eapply moved_onward.
Qed.
Lemma onward_favorite p id : steps onward (favorite p id).
Proof.
  intros s. unfold favorite, mbind, st_bind, gets. destruct (_ =? 0); [reflexivity|].
  cbn [snd modify]. destruct (_ <? MAX_SEEN);
    split; intros q; unfold revision, active; rewrite state_with_provider; case_decide; subst;
    auto; reflexivity.
Qed.
Lemma onward_invalidate p : steps onward (invalidate_sync p).
Proof. intros s. apply calm_onward, calm_with_active. Qed.
Lemma onward_epochs p : steps onward (invalidate_scope p).
Proof.
  assert (∀ q m, steps onward (bump_epoch q m)) as Hb.
  { intros q m s. unfold bump_epoch, mbind, st_bind, gets, lift. cbn.
    destruct (ok_or _ _); cbn; [|reflexivity]. split; intros; auto; reflexivity. }
  unfold invalidate_scope. apply (steps_bind _); [apply Hb|intros _].
  destruct (p =? 0); [apply (steps_ret _)|apply Hb].
Qed.

Lemma onward_sync_batch w b : steps onward (sync_batch w b).
Proof.
  unfold sync_batch. apply (steps_bind _); [apply (steps_lift _)|intros _].
  apply (steps_bind _); [apply steps_calm_onward, calm_check_generation|intros _].
  apply (steps_bind _); [apply onward_write|intros _].
  apply steps_calm_onward, calm_transaction. calm_walk.
Qed.
Lemma onward_set_favorite id kind v : steps onward (set_favorite id kind v).
Proof.
  unfold set_favorite. apply (steps_bind _);
    [apply steps_calm_onward; unfold resolve_provider_item; calm_walk|intros target].
  apply (steps_bind _); [apply (steps_lift _)|intros [i item]].
  apply (steps_bind _); [apply steps_calm_onward, calm_query|intros _].
  apply (steps_bind _); [apply onward_write|intros _].
  apply (steps_bind _); [apply onward_favorite|intros _].
  apply steps_calm_onward. calm_walk.
Qed.
Lemma onward_delete_provider p : steps onward (delete_provider_req p).
Proof.
  unfold delete_provider_req. apply (steps_bind _); [apply onward_write|intros _].
  apply (steps_bind _); [apply onward_invalidate|intros _].
  apply (steps_bind _); [apply steps_calm_onward, calm_exec_all|intros _]. apply onward_epochs.
Qed.
Lemma onward_retained p f s :
  onward s (with_provider p (with_retained f (state p s)) s).
Proof.
  split; intros q; unfold revision, active; rewrite state_with_provider; case_decide; subst; auto;
    cbn; lia.
Qed.
Lemma onward_retain p roots : steps onward (retain_items p roots).
Proof.
  unfold retain_items. repeat (apply (steps_bind _); [solve [apply (steps_guard _)
    | apply steps_calm_onward, calm_query | intros s; apply onward_retained]|intros ?]).
  apply (steps_ret _).
Qed.

(** What [start] does when it gives a token out. *)
Lemma start_Ok p s token rev s' :
  start p s = (Ok (token, rev), s') →
  active p s = 0 ∧ rev = revision p s ∧ token = ps_sequence (state p s) + 1 ∧
  ps_sequence (state p s) + 1 ≤ u64_max ∧
  (∀ q, revision q s' = revision q s) ∧
  (∀ q, ps_sequence (state q s') =
        if decide (p = q) then wadd (ps_sequence (state q s)) 1 else ps_sequence (state q s)) ∧
  (∀ q, active q s' = if decide (p = q) then token else active q s).
Proof.
  unfold start. intros Hr. bind_in Hr st s1 H1. apply gets_Ok in H1 as [-> ->].
  bind_in Hr u2 s2 H2. apply require_Ok in H2 as [Ha%Z.eqb_eq ->].
  bind_in Hr u3 s3 H3. apply modify_Ok in H3 as ->.
  bind_in Hr tk s4 H4. apply lift_Ok in H4 as [H4%ok_or_Ok ->].
  apply checked_add_Some in H4 as [-> Hmax].
  bind_in Hr u5 s5 H5. apply modify_Ok in H5 as ->. bind_in Hr u6 s6 H6. apply modify_Ok in H6 as ->.
  apply mret_Ok in Hr as [[= -> ->] ->]. unfold revision, active.
  split_and!; try done; intros q; repeat (rewrite state_with_provider; case_decide; subst; cbn);
    naive_solver.
Qed.
Lemma start_Err p s e s' :
  start p s = (Err e, s') →
  (∀ q, revision q s' = revision q s) ∧ (∀ q, active q s' = active q s) ∧
  (∀ q, ps_sequence (state q s') = ps_sequence (state q s) ∨
        u64_max ≤ ps_sequence (state q s)).
Proof.
  unfold start, mbind, st_bind, gets, require, guard_st, lift, modify, ensure. cbn.
  destruct (_ =? 0); cbn; [|intros [= _ <-]; auto].
  destruct (checked_add _ 1) eqn:Hc; cbn; [done|]. intros [= _ <-].
  unfold checked_add in Hc. destruct (Z.leb_spec (ps_sequence (state p s) + 1) u64_max); [done|].
  unfold revision, active.
  split_and!; intros q; rewrite state_with_provider; case_decide; subst; cbn; auto. right. lia.
Qed.

(** ** Over requests *)

Lemma release_onward p ids s : onward s (release_items p ids s).2.
Proof. apply onward_retained. Qed.

(** Every request but a [Start] moves the coordinator onward. *)
Lemma serve_onward c q :
  match q with Start _ => False | _ => True end → onward (c_sync c) (c_sync (serve c q)).
Proof.
  intros Hq. destruct q; cbn; try contradiction.
  - destruct (c_runs c !! run) as [r|]; [|reflexivity]. apply calm_onward, call_calm.
  - destruct (c_runs c !! run) as [r|]; [|reflexivity]. apply calm_onward, cancel_calm.
  - apply onward_sync_batch.
  - apply onward_set_favorite.
  - apply onward_delete_provider.
  - pose proof (onward_retain p roots (c_sync c)) as Ho.
    by destruct (retain_items p roots (c_sync c)) as [[] s].
  - destruct (c_handles c !! handle) as [[p ids]|]; [|reflexivity]. apply release_onward.
Qed.
Lemma serve_revision c q p : revision p (c_sync c) ≤ revision p (c_sync (serve c q)).
Proof.
  destruct q; try match goal with |- context [serve c ?q] =>
    exact (on_revision _ _ (serve_onward c q I) p) end. cbn.
  destruct (start p0 (c_sync c)) as [[[tk rev]|e] s] eqn:Hs; cbn.
  - apply start_Ok in Hs as (_&_&_&_&Hr&_). by rewrite Hr.
  - apply start_Err in Hs as (Hr&_). by rewrite Hr.
Qed.
Lemma serve_runs c q k r :
  c_runs c !! k = Some r → ∃ r', c_runs (serve c q) !! k = Some r' ∧ kept r r'.
Proof.
  intros Hk. destruct q; cbn; try (exists r; by split).
  - destruct (start p (c_sync c)) as [[[tk rev]|e] s]; cbn; exists r; split; try done.
    by apply lookup_app_l_Some.
  - destruct (c_runs c !! run) as [r1|] eqn:Hr1; [|by exists r]. cbn.
    destruct (decide (run = k)) as [->|Hne].
    + simplify_eq. eexists. split; [by apply list_lookup_insert_eq, lookup_lt_Some with r|].
      apply call_calm.
    + exists r. by rewrite list_lookup_insert_ne.
  - destruct (c_runs c !! run) as [r1|] eqn:Hr1; by exists r.
  - destruct (retain_items p roots (c_sync c)) as [[] s]; by exists r.
  - destruct (c_handles c !! handle) as [[p ids]|]; by exists r.
Qed.
Lemma serve_all_runs c l k r :
  c_runs c !! k = Some r → ∃ r', c_runs (serve_all c l) !! k = Some r' ∧ kept r r'.
Proof.
  revert c r. induction l as [|q l IH]; intros c r Hk; [by exists r|].
  destruct (serve_runs c q k r Hk) as (r1 & Hk1 & Hr1).
  destruct (IH _ _ Hk1) as (r2 & Hk2 & Hr2). exists r2. split; [done|by etrans].
Qed.
Lemma serve_all_revision c l p : revision p (c_sync c) ≤ revision p (c_sync (serve_all c l)).
Proof.
  revert c. induction l as [|q l IH]; intros c; cbn; [done|].
  etrans; [apply serve_revision|apply IH].
Qed.

(** A run that another writer has overtaken cannot prune. *)
Lemma finalize_overtaken r s :
  r_revision r < revision (r_provider r) s →
  is_ok (finalize (r, s)).1 = false ∧ sy_tables (finalize (r, s)).2.2 = sy_tables s.
Proof.
  intros Hlt. rewrite finalize_run. destruct (_ || _); [done|].
  destruct (write _ _ s) as [x s1] eqn:Hw.
  destruct (write_moved _ _ _ _ _ Hw) as (d & [] & Hd & _).
  destruct x as [[]|e]; [|done].
  destruct (revision (r_provider r) s1 =? r_revision r) eqn:Hr; [|done].
  apply Z.eqb_eq in Hr. rewrite mv_revision in Hr. case_decide; lia.
Qed.

(** C7. A prune never undoes another write: once a writer outside the run has been given the
    guard of the provider after the run began, the run can no longer be finalized with
    success, whatever comes before the attempt, and the attempt changes no table. *)
Theorem no_lost_write c k r q l :
  c_runs c !! k = Some r → r_revision r ≤ revision (r_provider r) (c_sync c) →
  revision (r_provider r) (c_sync c) < revision (r_provider r) (c_sync (serve c q)) →
  let c' := serve_all (serve c q) l in
  ∃ r', c_runs c' !! k = Some r' ∧
    is_ok (call Finalize (r', c_sync c')).1 = false ∧
    sy_tables (c_sync (serve c' (Call k Finalize))) = sy_tables (c_sync c').
Proof.
  intros Hk Hle Hlt c'. destruct (serve_runs c q k r Hk) as (r1 & Hk1 & Hr1).
  destruct (serve_all_runs _ l _ _ Hk1) as (r2 & Hk2 & Hr2). exists r2.
  pose proof (serve_all_revision (serve c q) l (r_provider r)) as Hrev. fold c' in Hrev, Hk2.
  assert (kept r r2) as [] by by etrans.
  destruct (finalize_overtaken r2 (c_sync c')) as [Hno Ht].
  { rewrite kp_provider, kp_revision. lia. }
  split_and!; [done..|]. cbn [serve]. rewrite Hk2. exact Ht.
Qed.
(** A run that has failed writes nothing. *)
Lemma call_failed m r s :
  r_failed r = true → sy_tables (call m (r, s)).2.2 = sy_tables s.
Proof.
  intros Hf. destruct m; try (match goal with |- context [call ?m] =>
    destruct (call_same m I (r, s)) as (_ & _ & Ht); rewrite Ht; reflexivity end).
  - rewrite send_batch_run. unfold writable. by rewrite Hf, andb_false_r.
  - cbn [call]. rewrite finalize_run. by rewrite Hf.
Qed.
Lemma calls_failed c k r ms :
  c_runs c !! k = Some r → r_failed r = true →
  sy_tables (c_sync (serve_all c (Call k <$> ms))) = sy_tables (c_sync c).
Proof.
  revert c r. induction ms as [|m ms IH]; intros c r Hk Hf; [done|].
  destruct (serve_runs c (Call k m) k r Hk) as (r1 & Hk1 & Hr1).
  etrans; [exact (IH _ _ Hk1 (kp_failed _ _ Hr1 Hf))|]. cbn [serve]. rewrite Hk.
  by apply call_failed.
Qed.

(** C29. A batch is all or nothing, and a run does not survive the loss of one: when a batch
    of a writable run fails, at whatever statement, no table has changed, and nothing called
    on that run afterwards, another batch or the prune included, changes one. *)
Theorem failed_batch_ends_run c k r b ms :
  c_runs c !! k = Some r → writable r (c_sync c) = true →
  is_ok (sync_batch (run_writer r) b (c_sync c)).1 = false →
  sy_tables (c_sync (serve_all c (Call k (SendBatch b) :: (Call k <$> ms)))) =
  sy_tables (c_sync c).
Proof.
  intros Hk Hw Hb. cbn [serve_all foldl]. cbn [serve]. rewrite Hk, send_batch_run, Hw, Hb. cbn.
  match goal with |- context [foldl serve ?c1 _] => fold (serve_all c1 (Call k <$> ms)) end.
  rewrite (calls_failed _ k (set_failed r)); cbn.
  - destruct (sync_batch (run_writer r) b (c_sync c)) as [[x|e] s'] eqn:Hs; [done|].
    by apply sync_batch_Err in Hs.
  - by apply list_lookup_insert_eq, lookup_lt_Some with r.
  - done.
Qed.

(** ** Tokens *)

(** Tokens are given out in order, each once; [n] requests have been served. *)
Record tokens_ok (n : Z) (c : Config) : Prop := {
  tk_sequence p : 0 ≤ ps_sequence (state p (c_sync c)) ≤ n;
  tk_issued k r : c_runs c !! k = Some r →
    1 ≤ r_token r ≤ ps_sequence (state (r_provider r) (c_sync c));
  tk_distinct i j r r' : c_runs c !! i = Some r → c_runs c !! j = Some r' →
    r_provider r = r_provider r' → r_token r = r_token r' → i = j;
}.

(** A step that keeps the sequences and the identity of the runs. *)
Lemma tokens_keep n c c' :
  (∀ p, ps_sequence (state p (c_sync c')) = ps_sequence (state p (c_sync c))) →
  (∀ k r', c_runs c' !! k = Some r' → ∃ r, c_runs c !! k = Some r ∧ kept r r') →
  tokens_ok n c → tokens_ok (n + 1) c'.
Proof.
  intros Hs Hr []. split.
  - intros p. rewrite Hs. specialize (tk_sequence0 p). lia.
  - intros k r' Hk. destruct (Hr _ _ Hk) as (r & Hk' & []). rewrite kp_token, kp_provider, Hs.
    by eapply tk_issued0.
  - intros i j r1 r2 Hi Hj Hp Ht. destruct (Hr _ _ Hi) as (x & Hx & []), (Hr _ _ Hj) as (y & Hy & []).
    eapply tk_distinct0; eauto; congruence.
Qed.
Lemma serve_runs_inv c q k r' :
  match q with Start _ => False | _ => True end →
  c_runs (serve c q) !! k = Some r' → ∃ r, c_runs c !! k = Some r ∧ kept r r'.
Proof.
  intros Hq. destruct q; cbn; try contradiction; try by exists r'.
  - destruct (c_runs c !! run) as [r1|] eqn:Hr1; [|by exists r']. cbn.
    intros [(-> & <- & _)|[Hne Hk]]%list_lookup_insert_Some; [|by exists r'].
    exists r1. split; [done|apply call_calm].
  - destruct (c_runs c !! run); by exists r'.
  - destruct (retain_items p roots (c_sync c)) as [[] s]; by exists r'.
  - destruct (c_handles c !! handle) as [[p ids]|]; by exists r'.
Qed.

Lemma serve_tokens n c q : n < u64_max → tokens_ok n c → tokens_ok (n + 1) (serve c q).
Proof.
  intros Hn Hok. destruct q; try match goal with |- tokens_ok _ (serve c ?q) =>
    exact (tokens_keep n c _ (on_sequence _ _ (serve_onward c q I))
             (λ k r', serve_runs_inv c q k r' I) Hok) end.
  cbn. destruct (start p (c_sync c)) as [[[tk rev]|e] s] eqn:Hs.
  - apply start_Ok in Hs as (_ & _ & -> & Hmax & _ & Hseq & _). destruct Hok.
    assert (∀ q, ps_sequence (state q s) =
      ps_sequence (state q (c_sync c)) + if decide (p = q) then 1 else 0) as Hseq'.
    { intros q. rewrite Hseq. specialize (tk_sequence0 q). case_decide; [subst|lia].
      apply wadd_small. unfold is_u64. lia. }
    split; cbn [c_sync c_runs].
    + intros q. rewrite Hseq'. specialize (tk_sequence0 q). case_decide; lia.
    + intros k r Hk. rewrite Hseq'. specialize (tk_sequence0 p).
      apply lookup_app_Some in Hk as [Hk|[_ Hk]].
      * apply tk_issued0 in Hk. case_decide; lia.
      * apply list_lookup_singleton_Some in Hk as [_ <-]. cbn. rewrite decide_True by done. lia.
    + intros i j r r' Hi Hj. apply lookup_app_Some in Hi, Hj.
      destruct Hi as [Hi|[Hi1 Hi]], Hj as [Hj|[Hj1 Hj]].
      * by eapply tk_distinct0.
      * apply list_lookup_singleton_Some in Hj as [_ <-]. cbn. intros <- ?.
        apply tk_issued0 in Hi. lia.
      * apply list_lookup_singleton_Some in Hi as [_ <-]. cbn. intros -> ?.
        apply tk_issued0 in Hj. lia.
      * apply list_lookup_singleton_Some in Hi as [? _], Hj as [? _]. lia.
  - apply start_Err in Hs as (_ & _ & Hseq).
    assert (∀ q, ps_sequence (state q s) = ps_sequence (state q (c_sync c))) as Hseq'.
    { intros q. destruct (Hseq q) as [|Hmax]; [done|]. pose proof (tk_sequence _ _ Hok q). lia. }
    eapply tokens_keep; [exact Hseq'| |exact Hok]. intros k r' Hk. by exists r'.
Qed.

(** At most one full run of a provider is ever under way: however runs were started,
    dropped, cancelled and called, two runs of one provider that both may still write are the
    same run. *)
Theorem one_active_run t current l i j r r' :
  zlen l < u64_max →
  let c := serve_all (mk_Config (mk_Sync t ∅ 1 ∅ current 0) [] []) l in
  c_runs c !! i = Some r → c_runs c !! j = Some r' → r_provider r = r_provider r' →
  writable r (c_sync c) = true → writable r' (c_sync c) = true → i = j.
Proof.
  intros Hn c Hi Hj Hp Hw Hw'.
  assert (∀ l n c, tokens_ok n c → n + zlen l < u64_max → tokens_ok (n + zlen l) (serve_all c l))
    as Hall.
  { clear. intros l. induction l as [|q l IH]; intros n c Hok Hn; unfold zlen in *; cbn in *.
    - by rewrite Z.add_0_r.
    - replace (n + Z.of_nat (S (length l))) with ((n + 1) + Z.of_nat (length l)) by lia.
      apply IH; [|lia]. apply serve_tokens; [lia|done]. }
  assert (tokens_ok (0 + zlen l) c) as Hok.
  { apply Hall; [|lia]. split; cbn; intros; unfold state; rewrite ?lookup_empty; cbn; done || lia. }
  eapply tk_distinct; [exact Hok|exact Hi|exact Hj|exact Hp|].
  unfold writable in Hw, Hw'. rewrite Hp in Hw. apply andb_true_iff in Hw as [_ Hw], Hw' as [_ Hw'].
  bool_lia.
Qed.
End turns.

Lemma no_lost_write_witness :
  let c' := serve before_prune (WriteBatch 1 None library_batch) in
  ∃ r', c_runs c' !! 1%nat = Some r' ∧ is_ok (call Finalize (r', c_sync c')).1 = false ∧
    sy_tables (c_sync (serve c' (Call 1 Finalize))) = sy_tables (c_sync c').
Proof.
  apply (no_lost_write before_prune 1 second_run (WriteBatch 1 None library_batch) []);
    [apply before_prune_run|vm_compute; discriminate|vm_compute; reflexivity].
Defined.
Lemma failed_batch_ends_run_witness :
  sy_tables (c_sync (serve_all started [Call 1 (SendBatch bad_batch); Call 1 (SendBatch music_batch);
                                        Call 1 Finalize])) =
  sy_tables (c_sync started).
Proof.
  apply (failed_batch_ends_run started 1 (new_run 1 2 0) bad_batch
           [SendBatch music_batch; Finalize]); vm_compute; reflexivity.
Defined.
Lemma one_active_run_witness :
  writable (new_run 1 1 0) (c_sync (serve (fresh_config {[1]}) (Start 1))) = true ∧ 0%nat = 0%nat.
Proof.
  split; [vm_compute; reflexivity|].
  apply (one_active_run (empty_tables {[1]}) ∅ [Start 1] 0 0 (new_run 1 1 0) (new_run 1 1 0));
    vm_compute; reflexivity.
Defined.
