(* ===== verification/Favorites.v ===== *)
(** * Library synchronisation: the user's favourites and a running sync *)
From S2P Require Import Prelude Tables Integrity Statements Isolation Coordinator Batch SyncRun Effects Writer Control Runs Sessions Turns Fixture.
From stdpp Require Import options.

(** The parts of a batch that leave the [dynamic] table alone. *)
Definition same_dynamic (t t' : Tables) : Prop := t_dynamic t' = t_dynamic t.
#[global] Instance same_dynamic_preorder : PreOrder same_dynamic.
Proof. split; [done|]. unfold same_dynamic. intros ??? ??. congruence. Qed.

(** One statement on another table. *)
Ltac other_table :=
  intros; cbn in *; repeat case_match;
  first [ reflexivity
        | match goal with H : _ = Ok _ |- _ => statement_in H end; reflexivity ].
Ltac frame_walk :=
  repeat match goal with
  | |- steps _ (exec _) => apply (related_exec _); other_table
  | |- steps _ (exec_key _) => apply (related_statement _); other_table
  | |- steps _ (exec_all _) => apply (related_exec_all _); other_table
  | |- steps _ _ => progress related_walk
  end.

Section frames.
Context `{Environment} (w : ProviderWriter).

Lemma resolve_frame item types : steps (related same_dynamic) (resolve w item types).
Proof.
  unfold resolve, resolve_optional, resolve_key, library_optional, owns_library. frame_walk.
Qed.
Hint Resolve resolve_frame : frame.
Lemma apply_library_frame acc l : steps (related same_dynamic) (apply_library w acc l).
Proof. unfold apply_library. frame_walk. Qed.
Lemma allocate_group_frame types l acc :
  steps (related same_dynamic) (allocate_group w types l acc).
Proof.
  unfold allocate_group, allocate_one, allocate, library, library_optional, owns_library. frame_walk.
Qed.
Lemma write_albums_frame mask (l : list (EntityInput AlbumFields)) :
  steps (related same_dynamic) (write_entities w mask l).
Proof. unfold write_entities, write_entity. frame_walk. Qed.
Lemma write_artists_frame mask (l : list (EntityInput ArtistFields)) :
  steps (related same_dynamic) (write_entities w mask l).
Proof. unfold write_entities, write_entity. frame_walk. Qed.
Lemma write_songs_frame mask (l : list SongInput) :
  steps (related same_dynamic) (write_entities w mask l).
Proof. unfold write_entities, write_entity. frame_walk. Qed.
Lemma write_remote_mixes_frame mask (l : list (EntityInput RemoteMixFields)) :
  steps (related same_dynamic) (write_entities w mask l).
Proof. unfold write_entities, write_entity. frame_walk. Qed.
Lemma mirror_mix_frame row : steps (related same_dynamic) (mirror_mix row).
Proof. unfold mirror_mix. frame_walk. Qed.
Lemma apply_image_frame seen i : steps (related same_dynamic) (apply_image w seen i).
Proof. unfold apply_image. frame_walk. Qed.
Lemma put_song_album_frame id song album :
  steps (related same_dynamic) (put_song_album w id song album).
Proof. unfold put_song_album, resolve_album. frame_walk. Qed.
Hint Resolve put_song_album_frame : frame.
Lemma apply_song_album_frame mask fresh seen i :
  steps (related same_dynamic) (apply_song_album w mask fresh seen i).
Proof. unfold apply_song_album. frame_walk. Qed.
Lemma apply_song_albums_frame seen i : steps (related same_dynamic) (apply_song_albums w seen i).
Proof. unfold apply_song_albums. frame_walk. Qed.
Lemma album_artists_frame owners i :
  steps (related same_dynamic) (apply_relation w album_artists owners i).
Proof. unfold apply_relation, relation_target. frame_walk. Qed.
Lemma song_artists_frame owners i :
  steps (related same_dynamic) (apply_relation w song_artists owners i).
Proof. unfold apply_relation, relation_target. frame_walk. Qed.
Lemma apply_contents_frame seen i : steps (related same_dynamic) (apply_contents w seen i).
Proof. unfold apply_contents, mix_member, insert_member. frame_walk. Qed.
End frames.
#[export] Hint Resolve apply_library_frame allocate_group_frame write_albums_frame
  write_artists_frame write_songs_frame write_remote_mixes_frame mirror_mix_frame
  apply_image_frame apply_song_album_frame apply_song_albums_frame album_artists_frame
  song_artists_frame apply_contents_frame : frame.

(** ** A batch does not move a favourite the user has changed *)

Lemma exec_tables `{Environment} (P : Tables → Prop) f s :
  P (sy_tables s) → (∀ t', f (sy_tables s) = Ok t' → P t') → P (sy_tables (exec f s).2).
Proof.
  intros H0 H1. unfold exec, run_statement.
  destruct (fault _); cbn [snd]; [by rewrite external_tables|].
  rewrite external_tables. destruct (f (sy_tables s)) as [t|e] eqn:Hf; cbn -[external]; [auto|].
  by rewrite external_tables.
Qed.

Lemma calm_changed p i rev s s' :
  calm s s' → favorite_changed_after p i rev s' = favorite_changed_after p i rev s.
Proof. intros []. unfold favorite_changed_after. by rewrite cl_favorites, cl_overflow. Qed.

Section favorites.
Context `{Environment} (w : ProviderWriter) (i rev : Z).
Notation p := (w_provider w).

Definition fav_row (t : Tables) : option (option Z) := dy_favorite <$> t_dynamic t !! i.
Definition keeps_fav (t t' : Tables) : Prop := ∀ f, fav_row t = Some f → fav_row t' = Some f.

(** The coordinator is left alone, and a favourite it has noted as newer than the run stays. *)
Definition spares_fav (s s' : Sync) : Prop :=
  calm s s' ∧ (favorite_changed_after p i rev s = true → keeps_fav (sy_tables s) (sy_tables s')).

#[export] Instance spares_fav_preorder : PreOrder spares_fav.
Proof.
  split; [intros s; split; [reflexivity|by intros _ f]|].
  intros s1 s2 s3 [C1 F1] [C2 F2]. split; [by etrans|]. intros Hc f Hf.
  apply F2; [by rewrite (calm_changed _ _ _ _ _ C1)|]. by apply F1.
Qed.

Lemma spares_part {A} (m : SyncM A) :
  steps calm m → steps (related same_dynamic) m → steps spares_fav m.
Proof.
  intros Hc Hd s. split; [apply Hc|]. intros _ f. unfold fav_row.
  specialize (Hd s). unfold related, same_dynamic in Hd. by rewrite Hd.
Qed.
Lemma fav_row_other id f t t' :
  id ≠ i → t_dynamic t' = <[id := f]> (t_dynamic t) → fav_row t' = fav_row t.
Proof. intros Hne Ht. unfold fav_row. by rewrite Ht, lookup_insert_ne. Qed.

(** The write of a [dynamic] row that, for [i], has the favourite of the row it replaces. *)
Lemma dynamic_write_keeps id model t t' :
  let old := t_dynamic t !! id in
  (id = i → dy_favorite model = dy_favorite (default Dynamic_default old)) →
  (if bool_decide (old = None) then insert_dynamic id model
   else update_dynamic id (merge_dynamic model)) t = Ok t' →
  keeps_fav t t'.
Proof.
  intros old Hm Hs f Hf. destruct (decide (id = i)) as [->|Hne].
  - unfold fav_row in *. subst old. destruct (t_dynamic t !! i) as [d|] eqn:Hd; [|done].
    rewrite bool_decide_eq_false_2 in Hs by done. injection Hf as <-. statement_in Hs.
    cbn. rewrite lookup_insert_eq. cbn. by rewrite Hm.
  - rewrite <- Hf. case_bool_decide; statement_in Hs; (eapply fav_row_other; [done|cbn; reflexivity]).
Qed.

Hypothesis Hrun : snd <$> w_run w = Some rev.

Lemma apply_dynamic_input_spares mask seen x : steps spares_fav (apply_dynamic_input w mask seen x).
Proof using Type*.
  intros s. unfold apply_dynamic_input.
  apply (steps_bind_dep spares_fav); [apply spares_part; [apply calm_resolve|apply resolve_frame]|].
  intros [id m] s1 _. cbv beta iota.
  apply (steps_bind_dep spares_fav); [apply (steps_guard _)|]. intros _ s2 _.
  apply (steps_bind_dep spares_fav);
    [apply spares_part; [apply calm_query|apply (related_query _)]|].
  intros old s3 [-> Ht3]%query_Ok. rewrite <- Ht3. clear Ht3 s2. cbv zeta.
  apply (steps_bind_dep spares_fav).
  { apply spares_part; unfold set_favorite_patch; [calm_walk|frame_walk]. }
  intros model s4 Ht4%set_favorite_patch_Ok. rewrite <- Ht4. clear Ht4 s3.
  apply (steps_bind_dep spares_fav); [apply (steps_lift _)|]. intros model2 s5 [_ ->]%lift_Ok.
  apply (steps_bind_dep spares_fav); [apply (steps_gets _)|]. intros changed s6 [-> ->]%gets_Ok.
  apply (steps_bind_dep spares_fav); [apply (steps_guard _)|]. intros _ s7 [_ ->]%require_Ok.
  apply (steps_bind_dep spares_fav); [apply spares_part; [apply calm_now|apply (related_now _)]|].
  intros now s8 H8. pose proof (calm_now s4) as Hc. rewrite H8 in Hc. cbn in Hc.
  apply Timestamp_now_Ok in H8. rewrite <- H8.
  apply (steps_bind_dep spares_fav); [|intros _ s9 _; apply (steps_ret _)].
  split; [apply calm_exec|]. intros Hch. rewrite (calm_changed _ _ _ _ _ Hc) in Hch.
  apply exec_tables; [by intros f|]. intros t' Ht'. eapply dynamic_write_keeps; [|exact Ht'].
  intros ->. destruct (w_run w) as [[tk rev']|]; [|done]. injection Hrun as <-.
  cbn [is_some_and snd]. by rewrite Hch.
Qed.
Lemma default_dynamic_spares item : steps spares_fav (default_dynamic item).
Proof using Type*.
  intros s. unfold default_dynamic.
  apply (steps_bind_dep spares_fav); [apply spares_part; [apply calm_now|apply (related_now _)]|].
  intros now s1 _. split; [apply calm_exec|]. intros _.
  apply exec_tables; [by intros f|]. intros t Ht f Hf.
  destruct (has _ _) eqn:Hhas; [by injection Ht as <-|]. statement_in Ht.
  unfold fav_row in *. cbn. rewrite lookup_insert_ne; [done|]. intros Hid.
  rewrite <- Hid in Hf. by match goal with J : _ = None |- _ => rewrite J in Hf end.
Qed.

(** A batch written for the run. *)
Lemma apply_spares b : steps spares_fav (apply w b).
Proof using Type*.
  unfold apply.
  repeat first
    [ apply (steps_bind _); [|intros ?]
    | match goal with |- steps _ (let '(_, _) := ?x in _) => destruct x end
    | apply (steps_lift _) | apply (steps_ret _)
    | apply (steps_fold_st _); intros ? ? _; apply apply_dynamic_input_spares
    | apply (steps_fold_st _); intros ? ? _; apply default_dynamic_spares
    | apply spares_part; [solve
        [unfold apply_library, allocate_group, allocate_one, mirror_mix, apply_image,
           apply_song_album, apply_song_albums, apply_relation, relation_target, apply_contents,
           mix_member, insert_member, reread; calm_walk]|solve [unfold reread; related_walk]]].
Qed.
End favorites.

(** ** The property *)

Section runs.
Context `{Environment} `{BatchCodec} (r : SyncRun) (i : Z).
Notation p := (r_provider r).

(** The user's change is newer than the run, and the coordinator remembers it for as long as
    the run is active. *)
Record noted (r' : SyncRun) (s : Sync) : Prop := {
  nt_kept : kept r r';
  nt_revision : r_revision r < revision p s;
  nt_changed : active p s = r_token r → favorite_changed_after p i (r_revision r) s = true;
}.

Lemma noted_calm r1 r2 s1 s2 :
  r_token r ≠ 0 → kept r1 r2 → calm s1 s2 → noted r1 s1 → noted r2 s2.
Proof.
  intros Hne Hk Hc []. split; [by etrans|by rewrite (cl_revision _ _ Hc)|].
  intros Ha. rewrite (calm_changed _ _ _ _ _ Hc).
  apply nt_changed0. destruct (cl_active _ _ Hc p); congruence.
Qed.

Lemma call_spares m r1 s :
  noted r1 s → keeps_fav i (sy_tables s) (sy_tables (call m (r1, s)).2.2).
Proof.
  intros [[Kp Kt Kr _] Nr Nc]. destruct m; try (match goal with |- context [call ?m] =>
    destruct (call_same m I (r1, s)) as (_ & _ & Ht); rewrite Ht; by intros f end).
  - rewrite send_batch_run. destruct (writable r1 s); [|by intros f]. cbn [snd].
    destruct (sync_batch (run_writer r1) b s) as [x s'] eqn:Hs. cbn [snd].
    apply sync_batch_cases in Hs as [[-> _]|(s1 & s2 & Ht & Hw & Hr & ->)]; [by intros f|].
    destruct (write_moved _ _ _ _ _ Hw) as (d & [] & _ & _ & Hact).
    destruct (Hact eq_refl) as [_ Ha]. cbn in Ha. apply Z.eqb_eq in Ha.
    rewrite Kp, Kt in Ha. specialize (Nc Ha).
    rewrite <- Ht. destruct x as [x|e]; [|by rewrite (transaction_Err _ _ _ _ Hr); intros f].
    apply transaction_Ok in Hr as (s3 & s4 & Hq & Ht3 & Hb & ->). rewrite <- Ht3.
    bind_in Hb y s5 H5. run_inv. apply check_generation_same in Hr as ->.
    apply check_origin_same in Hr0 as ->.
    destruct (apply_spares (run_writer r1) i (r_revision r1) eq_refl b s3) as [_ Hsp].
    rewrite H5 in Hsp. apply Hsp.
    pose proof (calm_query (λ _, tt) s1) as Hc. rewrite Hq in Hc.
    rewrite (calm_changed _ _ _ _ _ Hc). unfold favorite_changed_after in *. cbn [w_provider run_writer].
    by rewrite mv_favorites, mv_overflow, Kp, Kr.
  - cbn [call]. destruct (finalize_overtaken r1 s) as [_ Ht]; [|rewrite Ht; by intros f].
    by rewrite Kp, Kr.
Qed.

Lemma calls_spare c k r1 ms :
  r_token r ≠ 0 → c_runs c !! k = Some r1 → noted r1 (c_sync c) →
  keeps_fav i (sy_tables (c_sync c)) (sy_tables (c_sync (serve_all c (Call k <$> ms)))).
Proof.
  intros Hne. revert c r1. induction ms as [|m ms IH]; intros c r1 Hk Hn; [by intros f|].
  intros f Hf. apply (call_spares m _ _ Hn) in Hf. destruct (call_calm m r1 (c_sync c)) as [Hc Hk1].
  assert (serve c (Call k m) = mk_Config (call m (r1, c_sync c)).2.2
    (<[k := (call m (r1, c_sync c)).2.1]> (c_runs c)) (c_handles c)) as Hs.
  { cbn [serve]. by rewrite Hk. }
  change (serve_all c (Call k <$> m :: ms)) with (serve_all (serve c (Call k m)) (Call k <$> ms)).
  rewrite Hs. eapply IH; [|by eapply noted_calm|exact Hf]. cbn.
  by apply list_lookup_insert_eq, lookup_lt_Some with r1.
Qed.

Lemma favorite_noted s s' id :
  favorite p id s = (Ok tt, s') → r_revision r < revision p s → 0 ≤ r_token r →
  r_token r ≠ 0 → active p s' = r_token r →
  favorite_changed_after p id (r_revision r) s' = true.
Proof.
  unfold favorite, mbind, st_bind, gets. fold (active p s). intros Hf Hr Ht Hne Ha.
  destruct (Z.eqb_spec (active p s) 0) as [Hz|Hz].
  { injection Hf as <-. congruence. }
  unfold modify in Hf. injection Hf as <-.
  unfold favorite_changed_after. rewrite state_with_provider, decide_True by done. cbn [ps_writes with_writes].
  apply orb_true_iff. destruct (_ <? MAX_SEEN); cbn [ws_favorites ws_favorite_overflow].
  - right. rewrite lookup_insert_eq. cbn. by apply Z.ltb_lt.
  - left. by apply Z.ltb_lt.
Qed.
End runs.

Section win.
Context `{Environment} `{BatchCodec}.

Definition favorable (ty : ItemType.t) : bool :=
  type_in [ItemType.Album; ItemType.Song; ItemType.Artist] ty.

Lemma calm_resolve_provider_item id kind : steps calm (resolve_provider_item id kind).
Proof. unfold resolve_provider_item. calm_walk. Qed.
(** What [set_favorite] leaves when it succeeds. *)
Lemma set_favorite_Ok id kind v s i item s' :
  (resolve_provider_item id kind s).1 = Ok (Some (i, item)) → favorable (i_type item) = true →
  set_favorite id kind v s = (Ok tt, s') →
  ∃ s1 s2 now,
    favorite (i_provider item) i s1 = (Ok tt, s2) ∧
    revision (i_provider item) s1 = revision (i_provider item) s + 1 ∧
    calm s2 s' ∧ fav_row i (sy_tables s') = Some (if v then Some now else None).
Proof.
  intros Hi Hty. unfold set_favorite. intros Hr. bind_in Hr target s1 H1.
  rewrite H1 in Hi. cbn in Hi. injection Hi as ->.
  pose proof (calm_resolve_provider_item id kind s) as Hc1. rewrite H1 in Hc1.
  bind_in Hr x s2 H2. apply lift_Ok in H2 as [[= <-] ->].
  bind_in Hr u3 s3 H3. pose proof (calm_query (λ _, tt) s1) as Hc3. rewrite H3 in Hc3.
  bind_in Hr u4 s4 H4. destruct (write_moved _ _ _ _ _ H4) as (d & Hm & _ & _ & Hd).
  destruct (Hd eq_refl) as [-> _]. rewrite bool_decide_eq_true_2 in Hm by done.
  bind_in Hr u5 s5 H5. destruct u5.
  assert ((now ← Timestamp_now ; exec (favorite_row i (if v then Some now else None) now)) s5 = (Ok tt, s')) as Hw.
  { by destruct (i_type item). }
  clear Hr. bind_in Hw now s6 H6. exists s4, s5, now. split; [exact H5|]. split; [|split].
  - rewrite (mv_revision _ _ _ _ Hm), decide_True by done. rewrite (cl_revision _ _ Hc3). cbn.
    by rewrite (cl_revision _ _ Hc1).
  - pose proof (calm_now s5) as C6. rewrite H6 in C6.
    pose proof (calm_exec (favorite_row i (if v then Some now else None) now) s6) as C7.
    rewrite Hw in C7. by etrans.
  - apply exec_Ok in Hw. unfold favorite_row, fav_row in *. revert Hw.
    generalize (sy_tables s'). intros t Hw.
    destruct (t_dynamic (sy_tables s6) !! i) eqn:He; statement_in Hw; cbn; by rewrite lookup_insert_eq.
Qed.

(** C8. The user wins over a running sync: once the user has set or cleared the favourite of
    a song, album or artist, with success, no method called on a run that was started before,
    whether it sends batches that say otherwise or prunes, changes that favourite. *)
Theorem favorites_win c k r id kind v i item s' ms :
  c_runs c !! k = Some r → 0 < r_token r →
  (resolve_provider_item id kind (c_sync c)).1 = Ok (Some (i, item)) →
  favorable (i_type item) = true → i_provider item = r_provider r →
  r_revision r ≤ revision (r_provider r) (c_sync c) →
  set_favorite id kind v (c_sync c) = (Ok tt, s') →
  ∃ f, (is_some_and f (λ _, true) = v) ∧
    fav_row i (sy_tables (c_sync (serve c (SetFavorite id kind v)))) = Some f ∧
    fav_row i (sy_tables (c_sync (serve_all c (SetFavorite id kind v :: (Call k <$> ms))))) = Some f.
Proof.
  intros Hk Ht Hi Hty Hp Hrev Hs.
  destruct (set_favorite_Ok _ _ _ _ _ _ _ Hi Hty Hs) as (s1 & s2 & now & Hf & H1 & Hc & Hrow).
  rewrite Hp in Hf, H1.
  pose proof (on_revision _ _ (onward_favorite (r_provider r) i s1) (r_provider r)) as H2.
  rewrite Hf in H2. cbn in H2.
  assert (noted r i r s') as Hn.
  { split; [done|rewrite (cl_revision _ _ Hc); lia|]. intros Ha.
    rewrite (calm_changed _ _ _ _ _ Hc). eapply favorite_noted; [exact Hf|lia..|].
    destruct (cl_active _ _ Hc (r_provider r)); [congruence|lia]. }
  exists (if v then Some now else None). split; [by destruct v|].
  cbn [serve_all foldl serve]. rewrite Hs. cbn [snd c_sync].
  split; [exact Hrow|].
  match goal with |- context [foldl serve ?c1 ?l] => fold (serve_all c1 l) end.
  eapply calls_spare; [|exact Hk|exact Hn|exact Hrow]. lia.
Qed.
End win.

(** A run that is about to send its songs as no favourites, after the user has made one. *)
Definition unfavorite : SyncBatch :=
  mk_SyncBatch [] [] [] [] []
    [mk_DynamicInput (mk_EntityInput (key "s1" (Some 1) ItemType.Song) None
       (mk_DynamicFields Missing Missing Missing (Set_ None))) Missing]
    [] [] [] [] [] all_options.
Definition song_one : Item := default (mk_Item "" None 0 ItemType.Song 0 0 0)
  (t_item (sy_tables (c_sync started)) !! 3).
Lemma favorites_win_witness :
  ∃ f, is_some_and f (λ _, true) = true ∧
    fav_row 3 (sy_tables (c_sync (serve started (SetFavorite 3 (ItemType.to_i32 ItemType.Song) true)))) = Some f ∧
    fav_row 3 (sy_tables (c_sync (serve_all started
      [SetFavorite 3 (ItemType.to_i32 ItemType.Song) true; Call 1 (SendBatch unfavorite)]))) = Some f.
Proof.
  apply (favorites_win started 1 (new_run 1 2 0) 3 (ItemType.to_i32 ItemType.Song) true 3 song_one
           (set_favorite 3 (ItemType.to_i32 ItemType.Song) true (c_sync started)).2
           [SendBatch unfavorite]); vm_compute; try reflexivity; discriminate.
Defined.
