(* ===== verification/Progress.v ===== *)
(** * Library synchronisation: an undisturbed run comes to its end

    When from some point on no statement fails, nobody cancels and no generation moves, what
    is left to do goes through: a total-correctness reading of the programs of [SyncRun.v]. *)
From S2P Require Import Prelude Tables Integrity Coordinator Batch SyncRun Effects Control Runs Sessions Pruning Fixture.
From stdpp Require Import options.

Section progress.
Context `{Environment}.

(** From this state on the environment does nothing. *)
Definition undisturbed (s : Sync) : Prop :=
  ∀ n, (sy_tick s ≤ n)%nat → fault n = false ∧ events n = [].

(** Only the tables and the clock move. *)
Record later (s s' : Sync) : Prop := {
  lt_providers : sy_providers s' = sy_providers s;
  lt_current : sy_current s' = sy_current s;
  lt_tick : (sy_tick s ≤ sy_tick s')%nat;
}.
#[export] Instance later_preorder : PreOrder later.
Proof. split; [by split|]. intros ??? [] []. split; [congruence..|lia]. Qed.
Lemma undisturbed_later s s' : undisturbed s → later s s' → undisturbed s'.
Proof. intros Hu [_ _ Ht] n Hn. apply Hu. lia. Qed.

(** [m] returns, and what it returns satisfies [Q]. *)
Definition ends {A} (m : SyncM A) (s : Sync) (Q : A → Sync → Prop) : Prop :=
  ∃ a s', m s = (Ok a, s') ∧ later s s' ∧ Q a s'.

Lemma ends_bind {A B} (m : SyncM A) (k : A → SyncM B) s P Q :
  undisturbed s → ends m s P →
  (∀ a s', undisturbed s' → later s s' → P a s' → ends (k a) s' Q) →
  ends (m ≫= k) s Q.
Proof.
  intros Hu (a & s1 & Hm & Hl1 & HP) Hk.
  destruct (Hk a s1 (undisturbed_later _ _ Hu Hl1) Hl1 HP) as (b & s2 & Hb & Hl2 & HQ).
  exists b, s2. split; [|split; [by etrans|done]]. unfold mbind, st_bind. by rewrite Hm.
Qed.
Lemma ends_mono {A} (m : SyncM A) s (P Q : A → Sync → Prop) :
  ends m s P → (∀ a s', P a s' → Q a s') → ends m s Q.
Proof. intros (a & s' & ? & ? & ?) Hpq. exists a, s'. auto. Qed.
Lemma ends_ret {A} (a : A) s (Q : A → Sync → Prop) : Q a s → ends (mret a) s Q.
Proof. intros HQ. exists a, s. by split. Qed.
Lemma ends_gets {A} (f : Sync → A) s (Q : A → Sync → Prop) : Q (f s) s → ends (gets f) s Q.
Proof. intros HQ. exists (f s), s. by split. Qed.
Lemma ends_require b message s (Q : unit → Sync → Prop) :
  b = true → Q tt s → ends (require b message) s Q.
Proof. intros -> HQ. exists tt, s. by split. Qed.

Lemma external_undisturbed s :
  undisturbed s → external s = with_tick (S (sy_tick s)) s.
Proof. intros Hu. unfold external. by destruct (Hu (sy_tick s)) as [_ ->]. Qed.
Lemma ends_statement {A} (f : Tables → result DbErr (A * Tables)) s a t (Q : A → Sync → Prop) :
  undisturbed s → f (sy_tables s) = Ok (a, t) →
  (∀ s', later s s' → sy_tables s' = t → Q a s') →
  ends (run_statement f) s Q.
Proof.
  intros Hu Hf HQ. unfold ends, run_statement. rewrite external_undisturbed by done.
  destruct (Hu (sy_tick s)) as [-> _]; [done|]. cbn -[with_tables with_tick]. cbn in Hf.
  change (sy_tables (with_tick (S (sy_tick s)) s)) with (sy_tables s). rewrite Hf.
  do 2 eexists. split; [done|].
  assert (later s (with_tables t (with_tick (S (sy_tick s)) s))) as Hl.
  { split; cbn; [done..|lia]. }
  split; [done|]. by apply HQ.
Qed.
Lemma ends_query {A} (f : Tables → A) s (Q : A → Sync → Prop) :
  undisturbed s → (∀ s', later s s' → sy_tables s' = sy_tables s → Q (f (sy_tables s)) s') →
  ends (query f) s Q.
Proof. intros Hu HQ. by eapply ends_statement. Qed.
Lemma ends_exec_all f s (Q : unit → Sync → Prop) :
  undisturbed s → (∀ s', later s s' → sy_tables s' = f (sy_tables s) → Q tt s') →
  ends (exec_all f) s Q.
Proof. intros Hu HQ. by eapply ends_statement. Qed.

Lemma ends_for_each {A} (f : A → SyncM unit) l s (I : Sync → Prop) :
  undisturbed s → I s →
  (∀ a s', undisturbed s' → I s' → ends (f a) s' (λ _, I)) →
  ends (for_each f l) s (λ _, I).
Proof.
  intros Hu Hi Hf. revert s Hu Hi. induction l as [|a l IH]; intros s Hu Hi.
  { by apply ends_ret. }
  eapply ends_bind; [done|by apply Hf|]. intros [] s' Hu' _ Hi'. by apply IH.
Qed.

(** What stays of the database: its libraries. *)
Lemma prune_ends r retained row s L :
  undisturbed s → t_library (sy_tables s) = L →
  ends (prune r retained row) s (λ _ s', t_library (sy_tables s') = L).
Proof.
  intros Hu HL. unfold prune. destruct (prunable _ _ _ _); [|by apply ends_ret].
  eapply (ends_bind _ _ _ (λ _ s', t_library (sy_tables s') = L)); [done| |].
  - destruct (type_in _ _); [|by apply ends_ret].
    apply ends_exec_all; [done|]. intros s' _ ->. by rewrite <- HL.
  - intros _ s1 Hu1 _ HL1. apply ends_exec_all; [done|]. intros s' _ ->. by rewrite <- HL1.
Qed.
Lemma prune_library_ends r l s :
  undisturbed s → ends (prune_library r l) s (λ _ _, True).
Proof.
  intros Hu. unfold prune_library. case_bool_decide; [by apply ends_ret|]. by apply ends_exec_all.
Qed.

(** The rows of a provider are few enough to be enumerated. *)
Definition few {R} (pr : R → Z) (p : Z) (m : gmap Z R) : Prop :=
  zlen (filter (λ kr : Z * R, pr kr.2 = p) (map_to_list m)) ≤ MAX_SEEN.
Lemma few_take {R} (pr : R → Z) p (m : gmap Z R) :
  few pr p m →
  (zlen (take (Z.to_nat (MAX_SEEN + 1)) (filter (λ kr : Z * R, pr kr.2 = p) (map_to_list m)))
     <=? MAX_SEEN) = true.
Proof. unfold few, zlen. intros Hf. apply Z.leb_le. rewrite length_take. lia. Qed.

Lemma prune_all_ends r s :
  undisturbed s →
  few i_provider (r_provider r) (t_item (sy_tables s)) →
  few lb_provider (r_provider r) (t_library (sy_tables s)) →
  is_none_or (r_generation r)
    (λ g, default 0 (sy_current s !! wg_current g) =? wg_expected g) = true →
  active (r_provider r) s = r_token r →
  ends (prune_all r) s (λ _ _, True).
Proof.
  intros Hu Hi Hl Hg Ha. unfold prune_all.
  eapply (ends_bind _ _ _ (λ c s', sy_tables s' = sy_tables s ∧ later s s' ∧
    (zlen c <=? MAX_SEEN) = true)); [done| |].
  { apply ends_query; [done|]. intros s' Hs' Ht. by rewrite few_take. }
  intros candidates s1 Hu1 _ (Ht1 & Hl1 & Hc).
  eapply (ends_bind _ _ _ (λ _ s', s' = s1)); [done|by apply ends_require|]. intros _ ? _ _ ->.
  eapply (ends_bind _ _ _ (λ _ s', s' = s1)); [done|by apply ends_gets|]. intros retained ? _ _ ->.
  eapply (ends_bind _ _ _ (λ _ s', t_library (sy_tables s') = t_library (sy_tables s))); [done| |].
  { apply ends_for_each; [done|by rewrite Ht1|]. intros. by apply prune_ends. }
  intros _ s2 Hu2 Hl2 HL.
  eapply (ends_bind _ _ _ (λ c s', later s2 s' ∧ (zlen c <=? MAX_SEEN) = true)); [done| |].
  { apply ends_query; [done|]. intros s' Hs' Ht. split; [done|]. apply few_take. by rewrite HL. }
  intros libraries s3 Hu3 _ (Hl3 & Hc3).
  eapply (ends_bind _ _ _ (λ _ s', s' = s3)); [done|by apply ends_require|]. intros _ ? _ _ ->.
  eapply (ends_bind _ _ _ (λ _ s', later s3 s')); [done| |].
  { apply (ends_for_each _ _ _ (later s3)); [done|done|]. intros l s' Hu' Hs'.
    destruct (prune_library_ends r l s' Hu') as (u & s'' & ? & ? & _). exists u, s''.
    split; [done|]. split; [done|]. by etrans. }
  intros _ s4 Hu4 _ Hl4.
  assert (later s s4) as [Hp Hcu _] by (repeat (etrans; [eassumption|]); done).
  eapply (ends_bind _ _ _ (λ _ s', s' = s4)); [done| |].
  - unfold check_generation. destruct (r_generation r) as [g|]; [|by apply ends_ret].
    eexists tt, s4. split; [|done]. unfold mbind, st_bind, gets, require, guard_st, lift.
    rewrite Hcu. cbn in Hg. by rewrite Hg.
  - intros _ ? _ _ ->. exists tt, s4. split; [|done].
    unfold check_origin, mbind, st_bind, gets, require, guard_st, lift. cbn.
    unfold active, state in *. by rewrite Hp, Ha, Z.eqb_refl.
Qed.

Lemma transaction_ends {A} (body : SyncM A) s (P : A → Sync → Prop) :
  undisturbed s → (∀ s', undisturbed s' → later s s' → sy_tables s' = sy_tables s → ends body s' P) →
  ends (transaction body) s (λ _ _, True).
Proof.
  intros Hu Hb.
  assert (ends (query (λ _, tt) ;; a ← body ; query (λ _, tt) ;; mret a) s (λ _ _, True))
    as (a & s' & Hm & Hl & _).
  { eapply (ends_bind _ _ _ (λ _ s', sy_tables s' = sy_tables s)); [done|by apply ends_query|].
    intros _ s1 Hu1 Hl1 Ht1. eapply ends_bind; [done|by apply Hb|]. intros a s2 Hu2 _ _.
    eapply (ends_bind _ _ _ (λ _ _, True)); [done|by apply ends_query|]. intros _ s3 _ _ _.
    by apply ends_ret. }
  exists a, s'. split; [|done]. unfold transaction. by rewrite Hm.
Qed.

(** A run that has its token is given the guard. *)
Lemma write_run_ends p token s :
  active p s = token → ws_changes (ps_writes (state p s)) < u64_max → sy_projection s < u64_max →
  ∃ s', write p (Some token) s = (Ok tt, s') ∧ sy_tables s' = sy_tables s ∧
    sy_current s' = sy_current s ∧ sy_tick s' = sy_tick s.
Proof.
  intros <- Hc Hp. eexists. split.
  - unfold write, mbind, st_bind, gets, require, guard_st, lift, update_writes, modify. cbn.
    rewrite Z.eqb_refl. cbn. unfold checked_add.
    rewrite (proj2 (Z.leb_le (ws_changes _ + 1) _)) by lia. cbn.
    rewrite (proj2 (Z.leb_le (sy_projection s + 1) _)) by lia. cbn. reflexivity.
  - done.
Qed.
End progress.

(** What a run needs before its last two calls: it may write, and has enumerated everything it
    declared; and what the end of a run needs of the state: no other writer came in between,
    the rows can be enumerated, the counters are not exhausted. *)
Definition enumerated (r : SyncRun) : Prop :=
  r_declared r = true ∧ r_libraries_complete r = true ∧ r_complete r = r_scopes r.
Record ready (r : SyncRun) (s : Sync) : Prop := {
  rd_revision : revision (r_provider r) s = r_revision r;
  rd_items : few i_provider (r_provider r) (t_item (sy_tables s));
  rd_libraries : few lb_provider (r_provider r) (t_library (sy_tables s));
  rd_changes : ws_changes (ps_writes (state (r_provider r) s)) < u64_max;
  rd_projection : sy_projection s < u64_max;
  rd_sequence : ps_sequence (state (r_provider r) s) < u64_max;
}.

Section completes.
Context `{Environment} `{BatchCodec}.

Lemma finalize_ends r s :
  undisturbed s → ready r s → r_failed r = false → r_sealed r = true →
  active (r_provider r) s = r_token r →
  is_none_or (r_generation r)
    (λ g, default 0 (sy_current s !! wg_current g) =? wg_expected g) = true →
  (finalize (r, s)).1 = Ok tt.
Proof.
  intros Hu [] Hf Hs Ha Hg. rewrite finalize_run, Hf, Hs. cbn [orb negb].
  destruct (write_run_ends (r_provider r) (r_token r) s) as (s1 & Hw & Ht & Hc & Hk); [done..|].
  rewrite Hw. destruct (write_moved _ _ _ _ _ Hw) as (d & [] & _ & Hd & _).
  rewrite (Hd eq_refl) in mv_revision. rewrite mv_revision, rd_revision0.
  replace (if decide _ then 0 else 0) with 0 by by case_decide. rewrite Z.add_0_r, Z.eqb_refl.
  cbn [negb].
  assert (undisturbed s1) as Hu1 by (intros n; rewrite Hk; apply Hu).
  destruct (transaction_ends (prune_all r) s1 (λ _ _, True)) as ([] & s2 & -> & _); [done| |done].
  intros s' Hu' [Hp' Hc' _] Ht'. apply prune_all_ends; [done|..].
  - by rewrite Ht', Ht.
  - by rewrite Ht', Ht.
  - by rewrite Hc', Hc.
  - unfold active, state in *. by rewrite Hp', mv_active.
Qed.

Lemma seal_ends r s :
  writable r s = true → enumerated r → call Seal (r, s) = (Ok tt, (set_sealed r, s)).
Proof.
  intros Hw (Hd & Hl & Hc). cbn [call]. unfold seal.
  match goal with |- (running ≫= ?k) (r, s) = _ =>
    destruct (running_bind k r s) as [[_ ->]|[? _]] end; [|congruence].
  unfold mbind, st_bind, self, gets, assert_run, guard_st, lift, ensure, update_self, modify. cbn.
  by rewrite Hd, Hl, bool_decide_eq_true_2.
Qed.
(** The state after a successful [finalize]: the run is over. *)
Lemma finalize_inactive r s :
  (finalize (r, s)).1 = Ok tt → active (r_provider r) (finalize (r, s)).2.2 = 0.
Proof.
  rewrite finalize_run. destruct (_ || _); [done|]. destruct (write _ _ s) as [[[]|e] s1]; [|done].
  destruct (negb _); [done|]. destruct (transaction _ s1) as [[[]|e] s2]; [|done]. intros _. cbn.
  unfold active. by rewrite state_with_provider, decide_True.
Qed.
Lemma start_ends p s :
  active p s = 0 → ps_sequence (state p s) < u64_max → is_ok (start p s).1 = true.
Proof.
  intros Ha Hs. unfold start, mbind, st_bind, gets, require, guard_st, lift, modify. cbn.
  unfold active in Ha. rewrite Ha. cbn. unfold checked_add.
  by rewrite (proj2 (Z.leb_le (ps_sequence _ + 1) _)) by lia.
Qed.

(** C30. A run that is not disturbed ends: when a run has enumerated all it declared, its
    provider has at most 200000 items and at most 200000 libraries, the counters of its writes
    and runs are below their maximum, no other writer has come in between, and from then on the
    database does not fail and nobody cancels, [seal] and [finalize] succeed one after the other,
    the run is over, and the provider can start the next one. *)
Theorem run_completes c k r :
  c_runs c !! k = Some r → writable r (c_sync c) = true → enumerated r →
  undisturbed (c_sync c) → ready r (c_sync c) →
  let c1 := serve c (Call k Seal) in let c2 := serve c1 (Call k Finalize) in
  (call Seal (r, c_sync c)).1 = Ok tt ∧
  c_runs c1 !! k = Some (set_sealed r) ∧
  (call Finalize (set_sealed r, c_sync c1)).1 = Ok tt ∧
  active (r_provider r) (c_sync c2) = 0 ∧
  is_ok (start (r_provider r) (c_sync c2)).1 = true.
Proof.
  intros Hk Hw He Hu Hr c1 c2. pose proof (seal_ends _ _ Hw He) as Hseal.
  assert (c1 = mk_Config (c_sync c) (<[k := set_sealed r]> (c_runs c)) (c_handles c)) as Hc1.
  { unfold c1. cbn [serve]. by rewrite Hk, Hseal. }
  assert (c_runs c1 !! k = Some (set_sealed r)) as Hk1.
  { rewrite Hc1. cbn. by apply list_lookup_insert_eq, lookup_lt_Some with r. }
  unfold writable in Hw. apply andb_true_iff in Hw as [Hg Hw].
  apply negb_true_iff, orb_false_iff in Hw as [[Hf _]%orb_false_iff Ha%negb_false_iff%Z.eqb_eq].
  assert ((finalize (set_sealed r, c_sync c)).1 = Ok tt) as Hfin.
  { apply finalize_ends; try done. by destruct Hr. }
  assert (c_sync c2 = (finalize (set_sealed r, c_sync c)).2.2) as Hc2.
  { unfold c2. cbn [serve]. rewrite Hk1, Hc1. done. }
  split_and!; [by rewrite Hseal|done|by rewrite Hc1| |].
  - rewrite Hc2. by apply (finalize_inactive (set_sealed r)).
  - rewrite Hc2. apply start_ends; [by apply (finalize_inactive (set_sealed r))|].
    destruct (call_calm Finalize (set_sealed r) (c_sync c)) as [Hcalm _]. cbn [call] in Hcalm.
    rewrite (cl_sequence _ _ Hcalm). apply Hr.
Qed.
End completes.

(** The second run of the example, before it is sealed. *)
Definition before_seal : Config :=
  serve_all synced (take 14 (run_up_to_seal 1 ["s1"]%string)).
Definition enumerating : SyncRun :=
  mk_SyncRun 1 2 0 (list_to_set scopes) (list_to_set scopes) {[1; 2; 3; 5]} {[1]}
    true true false false None.
Lemma run_completes_witness :
  (call Seal (enumerating, c_sync before_seal)).1 = Ok tt ∧
  active 1 (c_sync (serve (serve before_seal (Call 1 Seal)) (Call 1 Finalize))) = 0.
Proof.
  destruct (run_completes before_seal 1 enumerating) as (Hs & _ & _ & Ha & _).
  - vm_compute. reflexivity.
  - vm_compute. reflexivity.
  - split_and!; reflexivity.
  - intros n _. by split.
  - split; vm_compute; first [reflexivity|discriminate].
  - split; [exact Hs|exact Ha].
Defined.
