(* ===== verification/Retained.v ===== *)
(** * Library synchronisation: retained items are counted exactly

    The map of retained items of a provider counts, for every item, the retentions that hold
    it, whatever else is requested of the library. *)
From S2P Require Import Prelude Tables Coordinator Batch SyncRun Effects Control Runs Sessions Turns.
From stdpp Require Import options.

Definition less (n : Z) : option Z := if n - 1 =? 0 then None else Some (n - 1).
Lemma lookup_retain ids m i :
  retain ids m !! i = if decide (i ∈ ids) then Some (default 0 (m !! i) + 1) else m !! i.
Proof.
  unfold retain. revert i.
  pose (P (r : gmap Z Z) (X : gset Z) := ∀ i : Z, r !! i =
    if decide (i ∈ X) then Some (default 0 (m !! i) + 1) else m !! i).
  match goal with |- ∀ i, set_fold ?f m ids !! i = _ =>
    apply (set_fold_ind_L P f m); unfold P; clear P end.
  - intros i. by rewrite decide_False by set_solver.
  - intros x X r Hx IH i. destruct (decide (x = i)) as [<-|Hne].
    + rewrite lookup_insert_eq, IH. by rewrite decide_False, decide_True by set_solver.
    + rewrite lookup_insert_ne, IH by done. by apply decide_ext; set_solver.
Qed.
Lemma lookup_release ids m i :
  release ids m !! i = if decide (i ∈ ids) then m !! i ≫= less else m !! i.
Proof.
  unfold release. revert i.
  pose (P (r : gmap Z Z) (X : gset Z) := ∀ i : Z, r !! i =
    if decide (i ∈ X) then m !! i ≫= less else m !! i).
  match goal with |- ∀ i, set_fold ?f m ids !! i = _ =>
    apply (set_fold_ind_L P f m); unfold P; clear P end.
  - intros i. by rewrite decide_False by set_solver.
  - intros x X r Hx IH i. pose proof (IH x) as IHx. rewrite decide_False in IHx by done.
    destruct (decide (x = i)) as [<-|Hne].
    + rewrite decide_True by set_solver. rewrite IHx. destruct (m !! x) as [n|] eqn:Hm; cbn.
      * unfold less. destruct (_ =? 0); by simplify_map_eq.
      * by rewrite IHx.
    + transitivity (r !! i).
      { destruct (r !! x); [|done]. by case_match; simplify_map_eq. }
      rewrite IH. by apply decide_ext; set_solver.
Qed.

(** How many of the retentions hold item [i] of provider [p]. *)
Definition count (holds : list (Z * gset Z)) (p i : Z) : Z :=
  zlen (filter (λ h : Z * gset Z, h.1 = p ∧ i ∈ h.2) holds).
Definition positive (n : Z) : option Z := if n =? 0 then None else Some n.
Definition retained_by (holds : list (Z * gset Z)) (s : Sync) : Prop :=
  ∀ p i, ps_retained (state p s) !! i = positive (count holds p i).

Lemma count_cons h holds p i :
  count (h :: holds) p i = (if decide (h.1 = p ∧ i ∈ h.2) then 1 else 0) + count holds p i.
Proof.
  unfold count, zlen. rewrite filter_cons. case_decide; cbn; lia.
Qed.
Lemma count_nonneg holds p i : 0 ≤ count holds p i.
Proof. apply zlen_nonneg. Qed.
#[global] Instance count_proper : Proper ((≡ₚ) ==> eq ==> eq ==> eq) count.
Proof.
  intros l k Hlk p ? <- i ? <-. unfold count, zlen. by rewrite Hlk.
Qed.
#[global] Instance retained_by_proper : Proper ((≡ₚ) ==> eq ==> iff) retained_by.
Proof. intros l k Hlk s ? <-. unfold retained_by. by setoid_rewrite Hlk. Qed.

Lemma retained_by_same holds s s' :
  (∀ p, ps_retained (state p s') = ps_retained (state p s)) →
  retained_by holds s → retained_by holds s'.
Proof. intros Hs Hr p i. by rewrite Hs. Qed.
Lemma retained_by_items holds s p i :
  retained_by holds s → (∃ h, h ∈ holds ∧ h.1 = p ∧ i ∈ h.2) → i ∈ retained_items p s.
Proof.
  intros Hr (h & Hin & Hp & Hi). unfold retained_items. apply elem_of_dom.
  rewrite Hr. unfold positive, count, zlen.
  destruct (filter _ holds) eqn:Hf; [|by eexists].
  exfalso. eapply (filter_nil_not_elem_of (λ h : Z * gset Z, h.1 = p ∧ i ∈ h.2)); [done| |done].
  by split.
Qed.
Lemma retained_by_iff holds s p i :
  retained_by holds s → i ∈ retained_items p s ↔ ∃ h, h ∈ holds ∧ h.1 = p ∧ i ∈ h.2.
Proof.
  intros Hr. split; [|by apply retained_by_items]. unfold retained_items.
  rewrite elem_of_dom, Hr. unfold positive, count. intros [n Hn].
  destruct (filter _ holds) as [|h l] eqn:Hf; [done|].
  assert (h ∈ filter (λ h : Z * gset Z, h.1 = p ∧ i ∈ h.2) holds) as Hin.
  { rewrite Hf. by left. }
  apply list_elem_of_filter in Hin as [[? ?] ?]. eauto.
Qed.
(** An empty retention holds nothing. *)
Lemma retained_by_empty p holds s : retained_by ((p, ∅) :: holds) s ↔ retained_by holds s.
Proof.
  unfold retained_by. setoid_rewrite count_cons. cbn.
  split; intros Hr q i; rewrite Hr; f_equal; rewrite decide_False; lia || set_solver.
Qed.

Section retained.
Context `{Environment}.

(** Nothing but [retain_items] and [release_items] touches the counts. *)
Definition same_retained (s s' : Sync) : Prop :=
  ∀ p, ps_retained (state p s') = ps_retained (state p s).
#[export] Instance same_retained_preorder : PreOrder same_retained.
Proof. split; [done|]. intros ??? H1 H2 p. by rewrite H2, H1. Qed.
Lemma calm_same_retained s s' : calm s s' → same_retained s s'.
Proof. intros [] p. done. Qed.
Lemma steps_calm_same {A} (m : SyncM A) : steps calm m → steps same_retained m.
Proof. apply steps_impl. intros ??. apply calm_same_retained. Qed.
Lemma write_same_retained p origin : steps same_retained (write p origin).
Proof.
  intros s. destruct (write p origin s) as [x s'] eqn:Hw.
  destruct (write_moved _ _ _ _ _ Hw) as (d & [] & _). done.
Qed.
Lemma provider_same_retained p st s :
  ps_retained st = ps_retained (state p s) → same_retained s (with_provider p st s).
Proof. intros Hst q. rewrite state_with_provider. by case_decide; subst. Qed.
Lemma favorite_same_retained p id : steps same_retained (favorite p id).
Proof.
  intros s. unfold favorite, mbind, st_bind, gets. destruct (_ =? 0); [done|].
  cbn [snd modify]. by destruct (_ <? MAX_SEEN); apply provider_same_retained.
Qed.
Lemma start_same_retained p : steps same_retained (start p).
Proof.
  intros s. destruct (start p s) as [x s'] eqn:Hs. revert Hs.
  unfold start, mbind, st_bind, gets, require, guard_st, lift, modify, ensure. cbn.
  destruct (_ =? 0); cbn; [|by intros [= _ <-]].
  destruct (checked_add _ 1); cbn; intros [= _ <-] q;
    by repeat (rewrite state_with_provider; case_decide; subst; cbn).
Qed.
Lemma epochs_same_retained p : steps same_retained (invalidate_scope p).
Proof.
  assert (∀ q m, steps same_retained (bump_epoch q m)) as Hb.
  { intros q m s. unfold bump_epoch, mbind, st_bind, gets, lift. cbn.
    by destruct (ok_or _ _). }
  unfold invalidate_scope. apply (steps_bind _); [apply Hb|intros _].
  destruct (p =? 0); [apply (steps_ret _)|apply Hb].
Qed.
Lemma sync_batch_same_retained `{!BatchCodec} w b : steps same_retained (sync_batch w b).
Proof.
  unfold sync_batch. apply (steps_bind _); [apply (steps_lift _)|intros _].
  apply (steps_bind _); [apply steps_calm_same, calm_check_generation|intros _].
  apply (steps_bind _); [apply write_same_retained|intros _].
  apply steps_calm_same, calm_transaction. calm_walk.
Qed.
Lemma set_favorite_same_retained id kind v : steps same_retained (set_favorite id kind v).
Proof.
  unfold set_favorite. apply (steps_bind _);
    [apply steps_calm_same; unfold resolve_provider_item; calm_walk|intros target].
  apply (steps_bind _); [apply (steps_lift _)|intros [i item]].
  apply (steps_bind _); [apply steps_calm_same, calm_query|intros _].
  apply (steps_bind _); [apply write_same_retained|intros _].
  apply (steps_bind _); [apply favorite_same_retained|intros _].
  apply steps_calm_same. calm_walk.
Qed.
Lemma delete_provider_same_retained p : steps same_retained (delete_provider_req p).
Proof.
  unfold delete_provider_req. apply (steps_bind _); [apply write_same_retained|intros _].
  apply (steps_bind _); [intros s; apply calm_same_retained, calm_with_active|intros _].
  apply (steps_bind _); [apply steps_calm_same, calm_exec_all|intros _].
  apply epochs_same_retained.
Qed.

(** ** Retaining and releasing *)

Lemma retain_items_Ok p roots s ids s' :
  retain_items p roots s = (Ok ids, s') →
  roots ⊆ ids ∧ ∀ q, ps_retained (state q s') =
    if decide (p = q) then retain ids (ps_retained (state q s)) else ps_retained (state q s).
Proof.
  unfold retain_items. intros Hr.
  assert (∀ {A} (m : SyncM A) s x s', steps calm m → m s = (x, s') → same_retained s s') as Hc.
  { intros A m s1 x s1' Hm He. specialize (Hm s1). rewrite He in Hm. by apply calm_same_retained. }
  bind_in Hr u1 s1 H1. apply Hc in H1; [|apply calm_require].
  bind_in Hr f2 s2 H2. apply Hc in H2; [|apply calm_query].
  bind_in Hr u3 s3 H3. apply Hc in H3; [|apply calm_require].
  bind_in Hr al s4 H4. apply Hc in H4; [|apply calm_query].
  bind_in Hr sa s5 H5. apply Hc in H5; [|apply calm_query].
  bind_in Hr aa s6 H6. apply Hc in H6; [|apply calm_query].
  bind_in Hr f7 s7 H7. apply Hc in H7; [|apply calm_query].
  bind_in Hr u8 s8 H8. apply Hc in H8; [|apply calm_require].
  bind_in Hr u9 s9 H9. apply modify_Ok in H9 as ->. apply mret_Ok in Hr as [-> ->].
  assert (same_retained s s8) as Hs by (repeat (etrans; [eassumption|]); done).
  split; [set_solver|]. intros q. rewrite state_with_provider. case_decide; subst; cbn; by rewrite Hs.
Qed.
Lemma bind_Err_inv {A B} (m : SyncM A) (k : A → SyncM B) s e s' :
  (m ≫= k) s = (Err e, s') →
  (∃ e', m s = (Err e', s')) ∨ ∃ a s1, m s = (Ok a, s1) ∧ k a s1 = (Err e, s').
Proof.
  unfold mbind, st_bind. destruct (m s) as [[a|e'] s1]; [intros Hk|intros [= <- <-]]; eauto.
Qed.
Lemma retain_items_Err p roots s e s' :
  retain_items p roots s = (Err e, s') → same_retained s s'.
Proof.
  assert (∀ {A} (m : SyncM A) s x s', steps calm m → m s = (x, s') → same_retained s s') as Hc.
  { intros A m s1 x s1' Hm He. specialize (Hm s1). rewrite He in Hm. by apply calm_same_retained. }
  unfold retain_items. intros Hr.
  repeat (let H := fresh "Hm" in apply bind_Err_inv in Hr as [[? Hr]|(? & ? & H & Hr)];
    [first [apply Hc in Hr; [|solve [apply calm_require|apply calm_query]]; solve
       [repeat (etrans; [eassumption|]); done]|by cbv in Hr]
    |try (apply Hc in H; [|solve [apply calm_require|apply calm_query]])]).
  by cbv in Hr.
Qed.

Lemma retained_by_retain p roots s ids s' holds :
  retain_items p roots s = (Ok ids, s') → retained_by holds s → retained_by ((p, ids) :: holds) s'.
Proof.
  intros [_ Hq]%retain_items_Ok Hr q i. rewrite Hq, count_cons. cbn.
  pose proof (count_nonneg holds q i). unfold positive. specialize (Hr q i). unfold positive in Hr.
  destruct (decide (p = q)) as [<-|Hp]; [rewrite lookup_retain; destruct (decide (i ∈ ids))|].
  - rewrite decide_True by done. rewrite Hr.
    destruct (Z.eqb_spec (count holds p i) 0) as [->|]; cbn; [done|].
    destruct (Z.eqb_spec (1 + count holds p i) 0); [lia|]. f_equal. lia.
  - by rewrite decide_False by naive_solver.
  - by rewrite decide_False by naive_solver.
Qed.
Lemma retained_by_release p ids s holds :
  retained_by ((p, ids) :: holds) s → retained_by holds (release_items p ids s).2.
Proof.
  intros Hr q i. specialize (Hr q i). rewrite count_cons in Hr. cbn in *.
  pose proof (count_nonneg holds q i). unfold positive in *. rewrite state_with_provider.
  destruct (decide (p = q)) as [<-|Hp];
    [cbn; rewrite lookup_release; destruct (decide (i ∈ ids))|].
  - rewrite decide_True in Hr by done. rewrite Hr.
    destruct (Z.eqb_spec (1 + count holds p i) 0); [lia|]. cbn. unfold less.
    replace (1 + count holds p i - 1) with (count holds p i) by lia. done.
  - by rewrite decide_False in Hr by naive_solver.
  - by rewrite decide_False in Hr by naive_solver.
Qed.

(** ** Over requests *)

Lemma serve_retained `{!BatchCodec} c q x :
  retained_by (c_handles c ++ x) (c_sync c) →
  retained_by (c_handles (serve c q) ++ x) (c_sync (serve c q)).
Proof.
  intros Hr. destruct q; cbn.
  - destruct (start p (c_sync c)) as [[[tk rev]|e] s] eqn:Hs; cbn;
      (eapply retained_by_same; [|exact Hr]; pose proof (start_same_retained p (c_sync c)) as Hss;
       rewrite Hs in Hss; exact Hss).
  - destruct (c_runs c !! run) as [r|]; [|done]. eapply retained_by_same; [|exact Hr].
    apply calm_same_retained, call_calm.
  - destruct (c_runs c !! run) as [r|]; [|done]. eapply retained_by_same; [|exact Hr].
    apply calm_same_retained, cancel_calm.
  - eapply retained_by_same; [apply sync_batch_same_retained|exact Hr].
  - eapply retained_by_same; [apply set_favorite_same_retained|exact Hr].
  - eapply retained_by_same; [apply delete_provider_same_retained|exact Hr].
  - destruct (retain_items p roots (c_sync c)) as [[ids|e] s] eqn:Hs; cbn.
    + rewrite <-app_assoc. cbn. rewrite <-Permutation_middle. by eapply retained_by_retain.
    + eapply retained_by_same; [|exact Hr]. by eapply retain_items_Err.
  - destruct (c_handles c !! handle) as [[p ids]|] eqn:Hh; [|done]. cbn.
    apply retained_by_release.
    assert (<[handle := (p, ∅)]> (c_handles c) ++ [(p, ids)] ≡ₚ c_handles c ++ [(p, ∅)]) as Hp.
    { clear Hr. revert handle Hh. induction (c_handles c) as [|h l IH]; intros [|k] Hk; [done..| |].
      - cbn in *. simplify_eq. rewrite <-!Permutation_cons_append. by constructor.
      - cbn in *. by rewrite IH. }
    assert ((p, ids) :: <[handle := (p, ∅)]> (c_handles c) ++ x ≡ₚ (p, ∅) :: c_handles c ++ x)
      as ->; [|by apply retained_by_empty].
    rewrite (Permutation_middle _ x), (Permutation_middle _ x (p, ∅)).
    rewrite <-Permutation_cons_append in Hp. rewrite <-!Permutation_middle, !app_comm_cons.
    by rewrite Hp, <-Permutation_cons_append.
Qed.
End retained.
