(* ===== verification/Radio.v ===== *)
(** * Radio sessions

    [RadioSessions] of [backend/main/src/radio.rs]: queues that providers feed. Opening and
    continuing a session are operations with identifiers the client chooses: a repeated
    request joins the operation that runs, or takes the answer it left. Each operation is a
    task of its own; what the tasks and requests do between two points where they wait is a
    step of the model, and the steps of different threads interleave in any order. An [Arc] is
    a position in a heap of sessions or operations; a provider is the name of its object. The
    library under the sessions is the configuration of [Sessions.v]. *)
From S2P Require Import Prelude Text Tables Coordinator Batch SyncRun Sessions.
From stdpp Require Import options.

Open Scope string_scope.
Open Scope Z_scope.
Open Scope list_scope.

Definition MAX_SESSIONS : Z := 128.
Definition MAX_OPERATIONS : Z := 512.
Definition SESSION_TTL : Z := 30 * 60 * 1000.
Definition OPERATION_TTL : Z := 5 * 60 * 1000.
Definition MAX_STATE_BYTES : Z := 64 * 1024.

(** What a provider or the library under it reports. *)
Inductive ProviderError := Db (e : DbErr) | Other (message : string).
Inductive RadioError :=
| Expired
| Conflict
| Invalid (message : string)
| Provider (e : ProviderError).

(** ** Data of [core/src/provider/queue.rs] *)

Inductive QueueOpenReason := Initial | Reconfigure | Restart.
Record QueueInput := mk_QueueInput { qi_native : string; qi_type : ItemType.t }.
Record QueueOpenRequest := mk_QueueOpenRequest {
  qo_configuration : gmap string string; qo_input : option QueueInput;
  qo_reason : QueueOpenReason; qo_previous : option string
}.
Record QueuePresentation := mk_QueuePresentation {
  qp_description : string; qp_source : option Z
}.
Record QueueBatch := mk_QueueBatch {
  qb_songs : list (Z * Song); qb_state : string; qb_configuration : gmap string string;
  qb_presentation : QueuePresentation; qb_exhausted : bool
}.

Record Page := mk_Page { pg_session : string; pg_version : Z; pg_batch : QueueBatch }.
Definition RadioResult : Type := result RadioError Page.
Record Target := mk_Target { tg_queue : Z; tg_native : string; tg_provider : Z }.
(** [ItemRetention]: its owner, the items asked for and all that is retained. *)
Record Retention := mk_Retention {
  rt_provider : Z; rt_roots : list (Z * Item); rt_ids : gset Z
}.

Record Session := mk_Session {
  se_target : Target; se_epoch : Z; se_closed : bool; se_touched : Z;
  se_page : Page; se_lock : option nat; se_items : option Retention
}.
Record Operation := mk_Operation {
  op_provider : Z; op_epoch : Z; op_fingerprint : string; op_created : Z;
  op_result : option RadioResult
}.

(** [serde_json] for the fingerprints, the [uuid] crate, and [Provider::id]. *)
Class RadioLibrary := {
  provider_id : Z → option Z;
  fingerprint_open : Z → option Z → string → QueueOpenReason → option QueueInput →
                     gmap string string → string;
  fingerprint_next : Z → list string → string;
  uuid_ok : string → bool;
  new_uuid : nat → string;
}.

(** ** Threads *)

Inductive ReleasePc := Swap | Lock | Closing.
Inductive OpenPc :=
| ORun
| OPrevious (sid : nat)
| ODefinition
| OOpen
| ORetain (sid : nat)
| OInsert (sid : nat) (validation : result RadioError unit)
| ORelease (sid : nat) (validation : result RadioError unit) (valid : bool) (pc : ReleasePc).
Inductive NextPc :=
| NLock
| NNext (retained : list Z)
| NRetain (retained : list Z) (batch : QueueBatch).
Inductive Thread :=
| Opening (op : nat) (target : Target) (previous : string) (request : QueueOpenRequest)
    (epoch : Z) (pc : OpenPc)
| Continuing (op : nat) (target : Target) (sid : nat) (expected : Z) (current : list string)
    (pc : NextPc)
| WaitOpen (op : nat)
| WaitNext (op : nat) (session : string) (target : Target)
| Collecting
| Releasing (sids : list nat) (pc : ReleasePc) (prune : bool)
| Finished (answer : option RadioResult).

(** The sessions and operations by name, the heaps, the providers ([w_registry] is the
    process-wide registry), the calls of [close_queue], and the two clocks. *)
Record World := mk_World {
  w_sessions : gmap string nat;
  w_session : list Session;
  w_operations : gmap string nat;
  w_operation : list Operation;
  w_threads : list Thread;
  w_stopped : bool;
  w_epochs : Z → Z;
  w_registry : gmap Z Z;
  w_uuids : nat;
  w_closes : list (nat * string);
  w_instant : Z;
  w_system : Z;
  w_library : Config
}.

Definition set_sessions (m : gmap string nat) (w : World) : World :=
  mk_World m (w_session w) (w_operations w) (w_operation w) (w_threads w) (w_stopped w)
    (w_epochs w) (w_registry w) (w_uuids w) (w_closes w) (w_instant w) (w_system w) (w_library w).
Definition set_session (l : list Session) (w : World) : World :=
  mk_World (w_sessions w) l (w_operations w) (w_operation w) (w_threads w) (w_stopped w)
    (w_epochs w) (w_registry w) (w_uuids w) (w_closes w) (w_instant w) (w_system w) (w_library w).
Definition set_operations (m : gmap string nat) (w : World) : World :=
  mk_World (w_sessions w) (w_session w) m (w_operation w) (w_threads w) (w_stopped w)
    (w_epochs w) (w_registry w) (w_uuids w) (w_closes w) (w_instant w) (w_system w) (w_library w).
Definition set_operation (l : list Operation) (w : World) : World :=
  mk_World (w_sessions w) (w_session w) (w_operations w) l (w_threads w) (w_stopped w)
    (w_epochs w) (w_registry w) (w_uuids w) (w_closes w) (w_instant w) (w_system w) (w_library w).
Definition set_threads (l : list Thread) (w : World) : World :=
  mk_World (w_sessions w) (w_session w) (w_operations w) (w_operation w) l (w_stopped w)
    (w_epochs w) (w_registry w) (w_uuids w) (w_closes w) (w_instant w) (w_system w) (w_library w).
Definition set_stopped (b : bool) (w : World) : World :=
  mk_World (w_sessions w) (w_session w) (w_operations w) (w_operation w) (w_threads w) b
    (w_epochs w) (w_registry w) (w_uuids w) (w_closes w) (w_instant w) (w_system w) (w_library w).
Definition set_epochs (f : Z → Z) (w : World) : World :=
  mk_World (w_sessions w) (w_session w) (w_operations w) (w_operation w) (w_threads w)
    (w_stopped w) f (w_registry w) (w_uuids w) (w_closes w) (w_instant w) (w_system w)
    (w_library w).
Definition set_registry (m : gmap Z Z) (w : World) : World :=
  mk_World (w_sessions w) (w_session w) (w_operations w) (w_operation w) (w_threads w)
    (w_stopped w) (w_epochs w) m (w_uuids w) (w_closes w) (w_instant w) (w_system w)
    (w_library w).
Definition set_uuids (n : nat) (w : World) : World :=
  mk_World (w_sessions w) (w_session w) (w_operations w) (w_operation w) (w_threads w)
    (w_stopped w) (w_epochs w) (w_registry w) n (w_closes w) (w_instant w) (w_system w)
    (w_library w).
Definition set_closes (l : list (nat * string)) (w : World) : World :=
  mk_World (w_sessions w) (w_session w) (w_operations w) (w_operation w) (w_threads w)
    (w_stopped w) (w_epochs w) (w_registry w) (w_uuids w) l (w_instant w) (w_system w)
    (w_library w).
Definition set_clocks (instant system : Z) (w : World) : World :=
  mk_World (w_sessions w) (w_session w) (w_operations w) (w_operation w) (w_threads w)
    (w_stopped w) (w_epochs w) (w_registry w) (w_uuids w) (w_closes w) instant system
    (w_library w).
Definition set_library (c : Config) (w : World) : World :=
  mk_World (w_sessions w) (w_session w) (w_operations w) (w_operation w) (w_threads w)
    (w_stopped w) (w_epochs w) (w_registry w) (w_uuids w) (w_closes w) (w_instant w)
    (w_system w) c.

Definition on_session (sid : nat) (f : Session → Session) (w : World) : World :=
  set_session (alter f sid (w_session w)) w.
Definition close_session (s : Session) : Session :=
  mk_Session (se_target s) (se_epoch s) true (se_touched s) (se_page s) (se_lock s) (se_items s).
Definition touch (now : Z) (s : Session) : Session :=
  mk_Session (se_target s) (se_epoch s) (se_closed s) now (se_page s) (se_lock s) (se_items s).
Definition with_page (p : Page) (s : Session) : Session :=
  mk_Session (se_target s) (se_epoch s) (se_closed s) (se_touched s) p (se_lock s) (se_items s).
Definition with_lock (l : option nat) (s : Session) : Session :=
  mk_Session (se_target s) (se_epoch s) (se_closed s) (se_touched s) (se_page s) l (se_items s).
Definition with_items (i : option Retention) (s : Session) : Session :=
  mk_Session (se_target s) (se_epoch s) (se_closed s) (se_touched s) (se_page s) (se_lock s) i.
(** [page.batch.state = state]. *)
Definition with_state (state : string) (p : Page) : Page :=
  let b := pg_batch p in
  mk_Page (pg_session p) (pg_version p)
    (mk_QueueBatch (qb_songs b) state (qb_configuration b) (qb_presentation b) (qb_exhausted b)).
Definition set_result (r : RadioResult) (o : Operation) : Operation :=
  mk_Operation (op_provider o) (op_epoch o) (op_fingerprint o) (op_created o) (Some r).

Definition goto (t : nat) (th : Thread) (w : World) : World :=
  set_threads (<[t := th]> (w_threads w)) w.
Definition spawn (th : Thread) (w : World) : World := set_threads (w_threads w ++ [th]) w.

(** ** Checks *)

Definition validate_batch (b : QueueBatch) (opening : bool) : result RadioError unit :=
  ensure (slen (qb_state b) <=? MAX_STATE_BYTES) (Invalid "Radio state exceeds 64 KiB") ;;
  ensure (forallb (λ s : Z * Song, 0 <? s.1) (qb_songs b))
    (Invalid "Radio returned unsynchronized songs") ;;
  ensure (negb opening || existsb (λ s : Z * Song, so_can_play s.2) (qb_songs b))
    (Invalid "Radio returned no playable songs").

(** [str::parse::<u128>]. *)
Definition parse_u128 (s : string) : option Z :=
  let body := match s with String c r => if Ascii.eqb c (chr 43) then r else s | _ => s end in
  n ← parse_nonempty body ; if n <? 2 ^ 128 then Some n else None.
Definition check_operation_id `{RadioLibrary} (id : string) (now : Z) : result RadioError unit :=
  parts ← ok_or (split_once (chr 58) id) (Invalid "Invalid radio operation ID") ;
  ensure (uuid_ok parts.2) (Invalid "Invalid radio operation ID") ;;
  timestamp ← ok_or (parse_u128 parts.1) (Invalid "Invalid radio operation timestamp") ;
  ensure (negb ((now + 30000 <? timestamp) || (OPERATION_TTL <=? Z.max 0 (now - timestamp))))
    Expired.

Section radio.
Context `{Environment} `{BatchCodec} `{RadioLibrary}.

(** [validate_provider], as [Default] makes it. *)
Definition validate_provider (w : World) (p : Z) : bool :=
  is_some_and (provider_id p) (λ id, bool_decide (w_registry w !! id = Some p)).
Definition valid (w : World) (s : Session) : bool :=
  negb (w_stopped w) && negb (se_closed s) &&
  (se_epoch s =? w_epochs w (tg_provider (se_target s))) &&
  validate_provider w (tg_provider (se_target s)).
Definition valid_at (w : World) (sid : nat) : bool := is_some_and (w_session w !! sid) (valid w).

(** [RadioSessions::session]. *)
Definition find_session (w : World) (id : string) (target : Target) : result RadioError nat :=
  sid ← ok_or (w_sessions w !! id) Expired ;
  s ← ok_or (w_session w !! sid) Expired ;
  ensure (valid w s && (tg_queue (se_target s) =? tg_queue target) &&
          (tg_provider (se_target s) =? tg_provider target)) Expired ;;
  mret sid.
Definition touch_session (sid : nat) (w : World) : World :=
  on_session sid (touch (w_instant w)) w.

(** ** The library *)

Definition on_library {A} (m : SyncM A) (w : World) : result DbErr A * World :=
  let c := w_library w in
  let '(r, s) := m (c_sync c) in (r, set_library (mk_Config s (c_runs c) (c_handles c)) w).

(** The items behind the identifiers, as the first query of [retain_items] finds them. *)
Definition root_items (t : Tables) (p : Z) (ids : gset Z) : list (Z * Item) :=
  filter (λ kr : Z * Item, kr.1 ∈ ids ∧ i_provider kr.2 = p) (map_to_list (t_item t)).
Definition retain_batch (target : Target) (b : QueueBatch) (ids : list Z) (w : World) :
    result RadioError Retention * World :=
  let ids : gset Z := list_to_set (ids ++ (qb_songs b).*1 ++
                                   option_list (qp_source (qb_presentation b))) in
  match provider_id (tg_provider target) with
  | None => (Err Expired, w)
  | Some p =>
      let roots := root_items (sy_tables (c_sync (w_library w))) p ids in
      match on_library (retain_items p ids) w with
      | (Ok all, w) => (Ok (mk_Retention p roots all), w)
      | (Err e, w) => (Err (Provider (Db e)), w)
      end
  end.
(** [ItemRetention::drop]. *)
Definition drop_retention (r : option Retention) (w : World) : World :=
  match r with
  | Some r => (on_library (release_items (rt_provider r) (rt_ids r)) w).2
  | None => w
  end.
Definition take_items (sid : nat) (w : World) : World :=
  match w_session w !! sid with
  | Some s => on_session sid (with_items None) (drop_retention (se_items s) w)
  | None => w
  end.
(** [*session.items.lock() = Some(items)]. *)
Definition put_items (sid : nat) (r : Retention) (w : World) : World :=
  match w_session w !! sid with
  | Some s => on_session sid (with_items (Some r)) (drop_retention (se_items s) w)
  | None => w
  end.

(** ** Operations *)

Definition retain_operations (w : World) : World :=
  set_operations (sieve (λ _ o, is_some_and (w_operation w !! o) (λ op,
    (w_instant w - op_created op <? OPERATION_TTL) || bool_decide (op_result op = None)))
    (w_operations w)) w.

(** The start of [operation]: the operation of the key, and whether it is a new one. *)
Definition operation (key fingerprint : string) (p : Z) (w : World) :
    result RadioError (nat * bool) * World :=
  if w_stopped w || negb (validate_provider w p) then (Err Expired, w) else
  let w := retain_operations w in
  match w_operations w !! key with
  | Some o =>
      match w_operation w !! o with
      | Some op =>
          if negb (op_provider op =? p) || negb (op_epoch op =? w_epochs w p)
          then (Err Expired, w)
          else if negb (op_fingerprint op =? fingerprint)%string then (Err Conflict, w)
          else (Ok (o, false), w)
      | None => (Err Expired, w)
      end
  | None =>
      if MAX_OPERATIONS <=? Z.of_nat (size (w_operations w))
      then (Err (Invalid "Too many pending radio operations"), w)
      else
        let o := length (w_operation w) in
        (Ok (o, true),
         set_operations (<[key := o]> (w_operations w))
           (set_operation (w_operation w ++
              [mk_Operation p (w_epochs w p) fingerprint (w_instant w) None]) w))
  end.

(** [send_replace(Some(result))], at the end of the task. *)
Definition finish (t op : nat) (r : RadioResult) (w : World) : World :=
  goto t (Finished None) (set_operation (alter (set_result r) op (w_operation w)) w).
Definition unlock (sid : nat) (w : World) : World := on_session sid (with_lock None) w.

(** ** [release] *)

(** One step of it; [None] when it is done. *)
Definition release_step (t sid : nat) (pc : ReleasePc) (w : World) : option ReleasePc * World :=
  match w_session w !! sid with
  | None => (None, w)
  | Some s =>
      match pc with
      | Swap => if se_closed s then (None, w) else (Some Lock, on_session sid close_session w)
      | Lock =>
          match se_lock s with
          | None => (Some Closing,
                     set_closes (w_closes w ++ [(sid, qb_state (pg_batch (se_page s)))])
                       (on_session sid (with_lock (Some t)) w))
          | Some _ => (Some Lock, w)
          end
      | Closing => (None, unlock sid (take_items sid w))
      end
  end.

(** ** Answers of what a task waits for *)

Inductive Answer :=
| Go
| Definition_ (r : result ProviderError (list (string * string)))
| Batch_ (r : result ProviderError QueueBatch).

(** [entry(key).or_insert(value)]. *)
Definition or_insert (m : gmap string string) (kv : string * string) : gmap string string :=
  if has m kv.1 then m else <[kv.1 := kv.2]> m.
Definition with_defaults (fields : list (string * string)) (r : QueueOpenRequest) :
    QueueOpenRequest :=
  mk_QueueOpenRequest (foldl or_insert (qo_configuration r) fields) (qo_input r) (qo_reason r)
    (qo_previous r).
Definition with_previous (state : option string) (r : QueueOpenRequest) : QueueOpenRequest :=
  mk_QueueOpenRequest (qo_configuration r) (qo_input r) (qo_reason r) state.

(** ** The task of [open] *)

Definition opening_step (t op : nat) (target : Target) (previous : string)
    (request : QueueOpenRequest) (epoch : Z) (pc : OpenPc) (a : Answer) (w : World) : World :=
  let at_ pc := Opening op target previous request epoch pc in
  match pc, a with
  | ORun, Go =>
      if w_stopped w || negb (validate_provider w (tg_provider target))
      then finish t op (Err Expired) w else
      let epoch := w_epochs w (tg_provider target) in
      if (previous =? "")%string
      then goto t (Opening op target previous request epoch ODefinition) w
      else match find_session w previous target with
           | Ok sid => goto t (Opening op target previous request epoch (OPrevious sid))
                         (touch_session sid w)
           | Err e => finish t op (Err e) w
           end
  | OPrevious sid, Go =>
      match w_session w !! sid with
      | Some s =>
          match se_lock s with
          | None =>
              if valid w s
              then goto t (Opening op target previous
                     (with_previous (Some (qb_state (pg_batch (se_page s)))) request) epoch
                     ODefinition) w
              else finish t op (Err Expired) w
          | Some _ => w
          end
      | None => w
      end
  | ODefinition, Definition_ (Ok fields) =>
      goto t (Opening op target previous (with_defaults fields request) epoch OOpen) w
  | ODefinition, Definition_ (Err e) => finish t op (Err (Provider e)) w
  | OOpen, Batch_ (Err e) => finish t op (Err (Provider e)) w
  | OOpen, Batch_ (Ok batch) =>
      let page := mk_Page (new_uuid (w_uuids w)) 1 batch in
      let sid := length (w_session w) in
      let w := set_uuids (S (w_uuids w)) (set_session (w_session w ++
                 [mk_Session target epoch false (w_instant w) page None None]) w) in
      match validate_batch batch true with
      | Ok _ => goto t (at_ (ORetain sid)) w
      | Err e => goto t (at_ (OInsert sid (Err e))) w
      end
  | ORetain sid, Go =>
      match w_session w !! sid with
      | Some s =>
          match retain_batch target (pg_batch (se_page s)) [] w with
          | (Ok items, w) => goto t (at_ (OInsert sid (Ok tt))) (put_items sid items w)
          | (Err e, w) => goto t (at_ (OInsert sid (Err e))) w
          end
      | None => w
      end
  | OInsert sid validation, Go =>
      match w_session w !! sid with
      | Some s =>
          if is_ok validation && valid w s && (Z.of_nat (size (w_sessions w)) <? MAX_SESSIONS)
          then finish t op (Ok (se_page s))
                 (set_sessions (<[pg_session (se_page s) := sid]> (w_sessions w)) w)
          else goto t (at_ (ORelease sid validation (valid w s) Swap)) w
      | None => w
      end
  | ORelease sid validation valid pc, _ =>
      match release_step t sid pc w with
      | (Some pc, w) => goto t (at_ (ORelease sid validation valid pc)) w
      | (None, w) =>
          finish t op (match validation with
                       | Err e => Err e
                       | Ok _ => if valid then Err (Invalid "Too many radio sessions")
                                 else Err Expired
                       end) w
      end
  | _, _ => w
  end.

(** ** The task of [next] *)

Definition continuing_step (t op : nat) (target : Target) (sid : nat) (expected : Z)
    (current : list string) (pc : NextPc) (a : Answer) (w : World) : World :=
  let at_ pc := Continuing op target sid expected current pc in
  let leave (r : RadioResult) w := finish t op r (unlock sid w) in
  match w_session w !! sid with
  | None => w
  | Some s =>
      let page := se_page s in
      match pc, a with
      | NLock, Go =>
          match se_lock s with
          | Some _ => w
          | None =>
              if negb (valid w s) then finish t op (Err Expired) w
              else if negb (pg_version page =? expected) then finish t op (Err Conflict) w
              else if qb_exhausted (pg_batch page)
              then finish t op (Err (Invalid "Radio has ended")) w
              else
                let retained := match se_items s with
                  | Some items =>
                      (filter (λ kr : Z * Item, i_type kr.2 = ItemType.Song ∧
                                                i_native kr.2 ∈ current) (rt_roots items)).*1
                  | None => []
                  end in
                goto t (at_ (NNext retained)) (on_session sid (with_lock (Some t)) w)
          end
      | NNext _, Batch_ (Err e) => leave (Err (Provider e)) w
      | NNext retained, Batch_ (Ok batch) =>
          if negb (valid w s)
          then leave (Err Expired) (on_session sid (with_page (with_state (qb_state batch) page)) w)
          else match validate_batch batch false with
               | Err e => leave (Err e) w
               | Ok _ =>
                   if negb (bool_decide (qb_configuration batch = qb_configuration (pg_batch page)))
                   then leave (Err (Invalid "Radio configuration changed during continuation")) w
                   else goto t (at_ (NRetain retained batch)) w
               end
      | NRetain retained batch, Go =>
          match retain_batch target batch retained w with
          | (Err e, w) => leave (Err e) w
          | (Ok items, w) =>
              if negb (valid w s)
              then leave (Err Expired) (drop_retention (Some items)
                     (on_session sid (with_page (with_state (qb_state batch) page)) w))
              else
                let page := mk_Page (pg_session page) (pg_version page + 1) batch in
                leave (Ok page) (on_session sid (with_page page) (put_items sid items w))
          end
      | _, _ => w
      end
  end.

(** A task dropped at a point where it waits: after 180 seconds, or by a panic. The guard of
    the session's data goes with it, and a session only it knows goes with its retention. *)
Definition abandon (t op : nat) (w : World) : World :=
  finish t op (Err (Invalid "Radio operation did not complete")) w.
Definition opening_timeout (t op : nat) (pc : OpenPc) (w : World) : World :=
  match pc with
  | OPrevious _ | ODefinition | OOpen | ORetain _ => abandon t op w
  | ORelease sid _ _ Lock => abandon t op (take_items sid w)
  | ORelease sid _ _ Closing => abandon t op (unlock sid (take_items sid w))
  | _ => w
  end.
Definition continuing_timeout (t op sid : nat) (pc : NextPc) (w : World) : World :=
  match pc with
  | NLock => abandon t op w
  | NNext _ | NRetain _ _ => abandon t op (unlock sid w)
  end.

(** ** The requests that wait for an operation *)

Definition answer (t : nat) (r : RadioResult) (w : World) : World :=
  goto t (Finished (Some r)) w.
(** What [operation] hands on: its result, if the provider is still the same. *)
Definition handed_on (o : Operation) (r : RadioResult) (w : World) : RadioResult :=
  if negb (op_epoch o =? w_epochs w (op_provider o)) || negb (validate_provider w (op_provider o))
  then Err Expired else r.
Definition wait_open_step (t op : nat) (w : World) : World :=
  match w_operation w !! op with
  | None => w
  | Some o =>
      match op_result o with
      | None => w
      | Some r =>
          match handed_on o r w with
          | Err e => answer t (Err e) w
          | Ok page =>
              if is_some_and (w_sessions w !! pg_session page) (valid_at w)
              then answer t (Ok page) w else answer t (Err Expired) w
          end
      end
  end.
Definition wait_next_step (t op : nat) (session : string) (target : Target) (w : World) : World :=
  match w_operation w !! op with
  | None => w
  | Some o =>
      match op_result o with
      | None => w
      | Some r =>
          match handed_on o r w with
          | Err e => answer t (Err e) w
          | Ok page =>
              match find_session w session target with
              | Ok sid => answer t (Ok page) (touch_session sid w)
              | Err e => answer t (Err e) w
              end
          end
      end
  end.

(** ** Removal *)

(** The sessions that satisfy [p] leave the table, to be released one after the other. *)
Definition remove_sessions (p : Session → bool) (w : World) : list nat * World :=
  let gone := sieve (λ _ sid, is_some_and (w_session w !! sid) p) (w_sessions w) in
  ((map_to_list gone).*2,
   set_sessions (sieve (λ _ sid, negb (is_some_and (w_session w !! sid) p)) (w_sessions w)) w).
Definition collecting_step (t : nat) (w : World) : World :=
  let '(sids, w) := remove_sessions (λ s, negb (valid w s) ||
                      (SESSION_TTL <=? w_instant w - se_touched s)) w in
  goto t (Releasing sids Swap true) w.
Definition releasing_step (t : nat) (sids : list nat) (pc : ReleasePc) (prune : bool) (w : World) :
    World :=
  match sids with
  | [] => goto t (Finished None) (if prune then retain_operations w else w)
  | sid :: rest =>
      match release_step t sid pc w with
      | (Some pc, w) => goto t (Releasing sids pc prune) w
      | (None, w) => goto t (Releasing rest Swap prune) w
      end
  end.

(** ** Steps of the world *)

Definition run (t : nat) (a : Answer) (w : World) : World :=
  match w_threads w !! t with
  | Some (Opening op target previous request epoch pc) =>
      opening_step t op target previous request epoch pc a w
  | Some (Continuing op target sid expected current pc) =>
      continuing_step t op target sid expected current pc a w
  | Some (WaitOpen op) => wait_open_step t op w
  | Some (WaitNext op session target) => wait_next_step t op session target w
  | Some Collecting => collecting_step t w
  | Some (Releasing sids pc prune) => releasing_step t sids pc prune w
  | Some (Finished _) | None => w
  end.
Definition timeout (t : nat) (w : World) : World :=
  match w_threads w !! t with
  | Some (Opening op _ _ _ _ pc) => opening_timeout t op pc w
  | Some (Continuing op _ sid _ _ pc) => continuing_timeout t op sid pc w
  | _ => w
  end.

(** [open] and [next] up to the point where they wait for their operation. *)
Definition open (target : Target) (operation_id previous : string) (request : QueueOpenRequest)
    (w : World) : World :=
  match check_operation_id operation_id (w_system w) with
  | Err e => spawn (Finished (Some (Err e))) w
  | Ok _ =>
      let request := with_previous None request in
      let fingerprint := fingerprint_open (tg_queue target) (provider_id (tg_provider target))
        previous (qo_reason request) (qo_input request) (qo_configuration request) in
      match operation ("open/" +:+ operation_id) fingerprint (tg_provider target) w with
      | (Err e, w) => spawn (Finished (Some (Err e))) w
      | (Ok (op, fresh), w) =>
          spawn (WaitOpen op)
            (if fresh then spawn (Opening op target previous request 0 ORun) w else w)
      end
  end.
Definition next (target : Target) (session_id operation_id : string) (expected : Z)
    (current : list string) (w : World) : World :=
  match check_operation_id operation_id (w_system w) ;; find_session w session_id target with
  | Err e => spawn (Finished (Some (Err e))) w
  | Ok sid =>
      let w := touch_session sid w in
      match operation ("next/" +:+ session_id +:+ "/" +:+ operation_id)
              (fingerprint_next expected current) (tg_provider target) w with
      | (Err e, w) => spawn (Finished (Some (Err e))) w
      | (Ok (op, fresh), w) =>
          spawn (WaitNext op session_id target)
            (if fresh then spawn (Continuing op target sid expected current NLock) w else w)
      end
  end.
Definition close (id : string) (w : World) : World :=
  match w_sessions w !! id with
  | Some sid => spawn (Releasing [sid] Swap false) (set_sessions (delete id (w_sessions w)) w)
  | None => w
  end.
Definition collect (w : World) : World := spawn Collecting w.
Definition invalidate (p : Z) (w : World) : World :=
  let '(sids, w) := remove_sessions
    (λ s, bool_decide (provider_id (tg_provider (se_target s)) = Some p)) w in
  spawn (Releasing sids Swap false) w.
Definition shutdown (w : World) : World := collect (set_stopped true w).

Inductive Label :=
| Open (target : Target) (operation_id previous : string) (request : QueueOpenRequest)
| Next (target : Target) (session_id operation_id : string) (expected : Z) (current : list string)
| Close (id : string)
| Collect
| Invalidate (p : Z)
| Shutdown
| Run (t : nat) (a : Answer)
| Timeout (t : nat)
| Library_ (q : Request)
| Epoch (p e : Z)
| Registry (m : gmap Z Z)
| Clocks (instant system : Z).

Definition step (w : World) (l : Label) : World :=
  match l with
  | Open target operation_id previous request => open target operation_id previous request w
  | Next target session_id operation_id expected current =>
      next target session_id operation_id expected current w
  | Close id => close id w
  | Collect => collect w
  | Invalidate p => invalidate p w
  | Shutdown => shutdown w
  | Run t a => run t a w
  | Timeout t => timeout t w
  | Library_ q => set_library (serve (w_library w) q) w
  | Epoch p e => set_epochs (λ q, if q =? p then e else w_epochs w q) w
  | Registry m => set_registry m w
  | Clocks instant system => set_clocks instant system w
  end.
Definition steps_all (w : World) (l : list Label) : World := foldl step w l.

(** [RadioSessions::default], over a library. *)
Definition initial (epochs : Z → Z) (registry : gmap Z Z) (c : Config) : World :=
  mk_World ∅ [] ∅ [] [] false epochs registry 0 [] 0 0 c.
Definition reachable (w : World) : Prop :=
  ∃ epochs registry c l, c_handles c = [] ∧ (∀ p, ps_retained (state p (c_sync c)) = ∅) ∧
    w = steps_all (initial epochs registry c) l.
End radio.
