(* ===== verification/Ledger.v ===== *)
(** * Radio sessions: the ledger

    Where each session is in its life, and who may touch it: the invariant of every world the
    requests and tasks of [Radio.v] can reach. A session is private to the task that opens it,
    then listed, then leaving in the hands of one thread, then gone; an operation belongs to
    the one task that runs it; the lock of a session to the thread between two steps. *)
From S2P Require Import Prelude Text Tables Coordinator Batch SyncRun Effects Sessions Retained Radio.
From stdpp Require Import options.

Open Scope Z_scope.
Open Scope list_scope.

(** ** Phases *)

Inductive Stage := Fresh | Vetted (accepted : bool) | Leaving (known : bool) (pc : ReleasePc).
Inductive Phase := Owned (t : nat) (st : Stage) | Listed | Gone (known : bool).
Definition stage_known (st : Stage) : bool := match st with Leaving k _ => k | _ => false end.
(** Whether the session was ever handed out. *)
Definition known (p : Phase) : bool :=
  match p with Owned _ st => stage_known st | Listed => true | Gone k => k end.

(** ** What a thread has *)

Definition waiting (sid : nat) : nat * Stage := (sid, Leaving true Swap).
Definition owns (th : Thread) : list (nat * Stage) :=
  match th with
  | Opening _ _ _ _ _ (ORetain sid) => [(sid, Fresh)]
  | Opening _ _ _ _ _ (OInsert sid v) => [(sid, Vetted (is_ok v))]
  | Opening _ _ _ _ _ (ORelease sid _ _ pc) => [(sid, Leaving false pc)]
  | Releasing (sid :: rest) pc _ => (sid, Leaving true pc) :: (waiting <$> rest)
  | _ => []
  end.
(** The operation it answers. *)
Definition task (th : Thread) : option nat :=
  match th with
  | Opening op _ _ _ _ _ | Continuing op _ _ _ _ _ => Some op
  | _ => None
  end.
(** The session it continues. *)
Definition follows (th : Thread) : option nat :=
  match th with Continuing _ _ sid _ _ _ => Some sid | _ => None end.
(** The session it has locked, at the version it expects. *)
Definition holding (th : Thread) : option (nat * Z) :=
  match th with
  | Continuing _ _ sid e _ (NNext _) | Continuing _ _ sid e _ (NRetain _ _) => Some (sid, e)
  | _ => None
  end.
(** The sessions it works on, with the provider. *)
Definition about (th : Thread) : list (nat * Z) :=
  match th with
  | Opening _ target _ _ _ (ORetain sid) | Continuing _ target sid _ _ _ =>
      [(sid, tg_provider target)]
  | _ => []
  end.

(** ** Sessions *)

Definition batch_items (b : QueueBatch) : gset Z :=
  list_to_set ((qb_songs b).*1 ++ option_list (qp_source (qb_presentation b))).
Definition hold (r : Retention) : Z * gset Z := (rt_provider r, rt_ids r).
Definition holds (s : Session) : list (Z * gset Z) := hold <$> option_list (se_items s).
Definition held (l : list Session) : list (Z * gset Z) := l ≫= holds.

Section ledger.
Context `{Environment} `{BatchCodec} `{RadioLibrary}.

Definition covered (p : Z) (b : QueueBatch) (r : Retention) : Prop :=
  provider_id p = Some (rt_provider r) ∧ batch_items b ⊆ rt_ids r.
Definition covers (s : Session) : Prop :=
  ∃ r, se_items s = Some r ∧ covered (tg_provider (se_target s)) (pg_batch (se_page s)) r.

(** What a phase says of its session. *)
Definition session_ok (closes : list nat) (sid : nat) (s : Session) (p : Phase) : Prop :=
  pg_session (se_page s) = new_uuid sid ∧
  match p with
  | Owned _ Fresh => se_closed s = false ∧ se_items s = None ∧ sid ∉ closes
  | Owned _ (Vetted ok) => se_closed s = false ∧ (ok = true → covers s) ∧ sid ∉ closes
  | Owned _ (Leaving _ Swap) => se_closed s = false ∧ sid ∉ closes
  | Owned _ (Leaving _ Lock) => se_closed s = true ∧ sid ∉ closes
  | Owned t (Leaving _ Closing) => se_closed s = true ∧ se_lock s = Some t ∧ sid ∈ closes
  | Listed => se_closed s = false ∧ covers s ∧ sid ∉ closes
  | Gone k => se_items s = None ∧ (k = true → se_closed s = true ∧ sid ∈ closes)
  end.

Definition answered (w : World) (o : nat) (page : Page) : Prop :=
  ∃ a, w_operation w !! o = Some a ∧ op_result a = Some (Ok page).

Record Inv (ph : list Phase) (ru : list nat) (x : list (Z * gset Z)) (w : World) : Prop := {
  iv_phases : length ph = length (w_session w);
  iv_uuids : w_uuids w = length (w_session w);
  iv_session sid s p : w_session w !! sid = Some s → ph !! sid = Some p →
    session_ok (w_closes w).*1 sid s p;
  iv_owns t th sid st : w_threads w !! t = Some th → (sid, st) ∈ owns th →
    ph !! sid = Some (Owned t st);
  iv_owned sid t st : ph !! sid = Some (Owned t st) →
    ∃ th, w_threads w !! t = Some th ∧ (sid, st) ∈ owns th;
  iv_distinct t th : w_threads w !! t = Some th → NoDup (owns th).*1;
  iv_table n sid : w_sessions w !! n = Some sid ↔ ph !! sid = Some Listed ∧ n = new_uuid sid;
  iv_about t th sid p : w_threads w !! t = Some th → (sid, p) ∈ about th →
    ∃ s, w_session w !! sid = Some s ∧ tg_provider (se_target s) = p;
  iv_follows t th sid : w_threads w !! t = Some th → follows th = Some sid →
    ∃ p, ph !! sid = Some p ∧ known p = true;
  iv_holding t th sid e : w_threads w !! t = Some th → holding th = Some (sid, e) →
    ∃ s, w_session w !! sid = Some s ∧ se_lock s = Some t ∧ pg_version (se_page s) = e;
  iv_runners : length ru = length (w_operation w);
  iv_task t th o : w_threads w !! t = Some th → task th = Some o →
    ru !! o = Some t ∧ ∃ a, w_operation w !! o = Some a ∧ op_result a = None;
  iv_pending o a : w_operation w !! o = Some a → op_result a = None →
    ∃ t th, w_threads w !! t = Some th ∧ task th = Some o;
  iv_result o page : answered w o page →
    ∃ sid s p, w_session w !! sid = Some s ∧ ph !! sid = Some p ∧ known p = true ∧
      pg_session page = new_uuid sid ∧ pg_version page ≤ pg_version (se_page s);
  iv_once o1 o2 p1 p2 : answered w o1 p1 → answered w o2 p2 →
    pg_session p1 = pg_session p2 → pg_version p1 = pg_version p2 → o1 = o2;
  iv_retained : retained_by (c_handles (w_library w) ++ x ++ held (w_session w))
                  (c_sync (w_library w));
  iv_closes : NoDup (w_closes w).*1;
  iv_closed sid : sid ∈ (w_closes w).*1 → (sid < length (w_session w))%nat;
  iv_stopped : w_stopped w = true → w_sessions w = ∅ ∨ ∃ t, w_threads w !! t = Some Collecting;
  iv_bound : Z.of_nat (size (w_sessions w)) ≤ MAX_SESSIONS
}.


(** ** Threads *)

Lemma goto_lookup t th w t' th' :
  w_threads (goto t th w) !! t' = Some th' →
  (t' = t ∧ th' = th) ∨ (t' ≠ t ∧ w_threads w !! t' = Some th').
Proof. cbn. rewrite list_lookup_insert_Some. naive_solver. Qed.
Lemma goto_same t th0 th w : w_threads w !! t = Some th0 → w_threads (goto t th w) !! t = Some th.
Proof. intros Ht. cbn. eapply list_lookup_insert_eq, lookup_lt_Some, Ht. Qed.
Lemma goto_other t th w t' : t' ≠ t → w_threads (goto t th w) !! t' = w_threads w !! t'.
Proof. intros Ht. cbn. by apply list_lookup_insert_ne. Qed.
Lemma goto_goto t th th' w : goto t th (goto t th' w) = goto t th w.
Proof. unfold goto, set_threads. cbn. by rewrite list_insert_insert_eq. Qed.

(** A thread goes on with no more than it had. *)
Definition lesser (th th' : Thread) : Prop :=
  owns th' = owns th ∧ about th' ⊆ about th ∧ task th' = task th ∧
  (follows th' = None ∨ follows th' = follows th).
(** It has no session locked, or one whose lock it holds at the version it expects. *)
Definition holds_lock (w : World) (t : nat) (th : Thread) : Prop :=
  ∀ sid e, holding th = Some (sid, e) →
  ∃ s, w_session w !! sid = Some s ∧ se_lock s = Some t ∧ pg_version (se_page s) = e.

Lemma inv_goto ph ru x w t th th' :
  Inv ph ru x w → w_threads w !! t = Some th → lesser th th' → holds_lock w t th' →
  th ≠ Collecting →
  Inv ph ru x (goto t th' w).
Proof.
  intros HI Ht (Ho & Ha & Hk & Hf) Hh Hc. destruct HI. split; try done.
  - intros t' th'' sid st Ht'%goto_lookup Hin. destruct Ht' as [[-> ->]|[? ?]]; [|by eauto].
    rewrite Ho in Hin. by eauto.
  - intros sid t' st Hp. destruct (iv_owned0 _ _ _ Hp) as (th1 & Ht1 & Hin).
    destruct (decide (t' = t)) as [->|Hne].
    + exists th'. split; [by eapply goto_same|]. rewrite Ho. congruence.
    + exists th1. by rewrite goto_other.
  - intros t' th'' Ht'%goto_lookup. destruct Ht' as [[-> ->]|[? ?]]; [rewrite Ho|]; by eauto.
  - intros t' th'' sid p Ht'%goto_lookup Hin. destruct Ht' as [[-> ->]|[? ?]]; by eauto.
  - intros t' th'' sid Ht'%goto_lookup Hin. destruct Ht' as [[-> ->]|[? ?]]; [|by eauto].
    destruct Hf as [Hf|Hf]; rewrite Hf in Hin; [done|by eauto].
  - intros t' th'' sid e Ht'%goto_lookup Hin. destruct Ht' as [[-> ->]|[? ?]]; [|by eauto].
    by apply Hh.
  - intros t' th'' o Ht'%goto_lookup Hin. destruct Ht' as [[-> ->]|[? ?]]; [|by eauto].
    rewrite Hk in Hin. by eauto.
  - intros o a Ho1 Hr. destruct (iv_pending0 _ _ Ho1 Hr) as (t1 & th1 & Ht1 & Hk1).
    destruct (decide (t1 = t)) as [->|Hne].
    + exists t, th'. split; [by eapply goto_same|]. rewrite Hk. congruence.
    + exists t1, th1. by rewrite goto_other.
  - intros Hs. destruct (iv_stopped0 Hs) as [|[t1 Ht1]]; [by left|right].
    exists t1. rewrite goto_other; [done|]. intros ->. congruence.
Qed.
Definition idle (th : Thread) : Prop :=
  owns th = [] ∧ about th = [] ∧ task th = None ∧ follows th = None ∧ holding th = None.

Lemma inv_spawn ph ru x w th :
  Inv ph ru x w → idle th → Inv ph ru x (spawn th w).
Proof.
  intros HI (Ho & Ha & Hk & Hf & Hh). destruct HI.
  assert (∀ t th', w_threads (spawn th w) !! t = Some th' → w_threads w !! t = Some th' ∨ th' = th)
    as Hl.
  { intros t th' [Ht|[_ Ht]]%lookup_app_Some; [by left|right].
    apply list_lookup_singleton_Some in Ht as [_ ->]. done. }
  assert (∀ t th', w_threads w !! t = Some th' → w_threads (spawn th w) !! t = Some th') as Hk'.
  { intros t th' Ht. cbn. by apply lookup_app_l_Some. }
  split; try done.
  - intros t th' sid st [Ht| ->]%Hl Hin; [by eauto|]. rewrite Ho in Hin. by apply not_elem_of_nil in Hin.
  - intros sid t st Hp. destruct (iv_owned0 _ _ _ Hp) as (th1 & Ht1 & Hin). eauto.
  - intros t th' [Ht| ->]%Hl; [by eauto|]. rewrite Ho. constructor.
  - intros t th' sid p [Ht| ->]%Hl Hin; [by eauto|]. rewrite Ha in Hin. by apply not_elem_of_nil in Hin.
  - intros t th' sid [Ht| ->]%Hl Hin; [by eauto|congruence].
  - intros t th' sid e [Ht| ->]%Hl Hin; [by eauto|congruence].
  - intros t th' o [Ht| ->]%Hl Hin; [by eauto|congruence].
  - intros o a Ho1 Hr. destruct (iv_pending0 _ _ Ho1 Hr) as (t1 & th1 & Ht1 & Hk1). eauto.
  - intros Hs. destruct (iv_stopped0 Hs) as [|[t1 Ht1]]; [by left|right]. eauto.
Qed.

(** ** Operations *)

Lemma finish_lookup t o r w o' a' :
  w_operation (finish t o r w) !! o' = Some a' →
  (o' = o ∧ ∃ a, w_operation w !! o = Some a ∧ a' = set_result r a) ∨
  (o' ≠ o ∧ w_operation w !! o' = Some a').
Proof.
  cbn. destruct (decide (o' = o)) as [->|Hne].
  - rewrite list_lookup_alter_eq. intros (a & ? & ->)%fmap_Some. left. eauto.
  - rewrite list_lookup_alter_ne by done. auto.
Qed.
Lemma finish_answered t o r w o' page :
  answered (finish t o r w) o' page → (o' = o ∧ r = Ok page) ∨ (o' ≠ o ∧ answered w o' page).
Proof.
  intros (a & [[-> (a0 & _ & ->)]|[? ?]]%finish_lookup & Hr).
  - left. cbn in Hr. naive_solver.
  - right. split; [done|]. by exists a.
Qed.

(** The answer of a task: an error, or a page that no operation answered before. *)
Definition fresh_page (ph : list Phase) (w : World) (page : Page) : Prop :=
  (∃ sid s p, w_session w !! sid = Some s ∧ ph !! sid = Some p ∧ known p = true ∧
     pg_session page = new_uuid sid ∧ pg_version page ≤ pg_version (se_page s)) ∧
  (∀ o page', answered w o page' → pg_session page' = pg_session page →
     pg_version page' < pg_version page).
Lemma inv_finish ph ru x w t th o r :
  Inv ph ru x w → w_threads w !! t = Some th → task th = Some o → owns th = [] →
  (∀ page, r = Ok page → fresh_page ph w page) →
  Inv ph ru x (finish t o r w).
Proof.
  intros HI Ht Hk Ho Hr. pose proof (iv_task _ _ _ _ HI _ _ _ Ht Hk) as (Hro & a & Ha & Hna).
  destruct HI.
  assert (∀ t' th', w_threads (finish t o r w) !! t' = Some th' →
            (t' = t ∧ th' = Finished None) ∨ (t' ≠ t ∧ w_threads w !! t' = Some th')) as Hl.
  { intros t' th' Hl. by apply goto_lookup in Hl. }
  split; try done.
  - intros t' th'' sid st Ht' Hin. apply Hl in Ht' as [[-> ->]|[? ?]]; [|by eauto].
    by apply not_elem_of_nil in Hin.
  - intros sid t' st Hp. destruct (iv_owned0 _ _ _ Hp) as (th1 & Ht1 & Hin).
    exists th1. split; [|done]. destruct (decide (t' = t)) as [->|Hne].
    + simplify_eq. rewrite Ho in Hin. by apply not_elem_of_nil in Hin.
    + unfold finish. by rewrite goto_other.
  - intros t' th'' Ht'. apply Hl in Ht' as [[-> ->]|[? ?]]; [constructor|]; by eauto.
  - intros t' th'' sid p Ht' Hin. apply Hl in Ht' as [[-> ->]|[? ?]]; [|by eauto].
    by apply not_elem_of_nil in Hin.
  - intros t' th'' sid Ht' Hin. apply Hl in Ht' as [[-> ->]|[? ?]]; [done|by eauto].
  - intros t' th'' sid e Ht' Hin. apply Hl in Ht' as [[-> ->]|[? ?]]; [done|by eauto].
  - cbn. by rewrite length_alter.
  - intros t' th'' o' Ht' Hin. apply Hl in Ht' as [[-> ->]|[Hne Ht']]; [done|].
    destruct (iv_task0 _ _ _ Ht' Hin) as (Hro' & a' & Ha' & Hna'). split; [done|].
    exists a'. split; [|done]. cbn. rewrite list_lookup_alter_ne; [done|]. intros <-. congruence.
  - intros o' a' Ho' Hr'. apply finish_lookup in Ho' as [[-> (a0 & _ & ->)]|[Hne Ho']]; [done|].
    destruct (iv_pending0 _ _ Ho' Hr') as (t1 & th1 & Ht1 & Hk1).
    exists t1, th1. split; [|done]. unfold finish. rewrite goto_other; [done|]. intros ->. congruence.
  - intros o' page [[-> ->]|[Hne Ha']]%finish_answered; [|by eauto].
    by destruct (Hr page eq_refl) as [? _].
  - intros o1 o2 p1 p2 [[-> ->]|[Hn1 Ha1]]%finish_answered [[-> Hr2]|[Hn2 Ha2]]%finish_answered Hs Hv;
      [done| | |by eauto].
    + destruct (Hr p1 eq_refl) as [_ Hlt]. specialize (Hlt _ _ Ha2 (eq_sym Hs)). lia.
    + destruct (Hr p2 Hr2) as [_ Hlt]. specialize (Hlt _ _ Ha1 Hs). lia.
  - intros Hs. destruct (iv_stopped0 Hs) as [|[t1 Ht1]]; [by left|right].
    exists t1. unfold finish. rewrite goto_other; [done|]. intros ->. naive_solver.
Qed.

(** ** Sessions *)

Lemma held_insert l i s s' : l !! i = Some s → held (<[i := s']> l) ++ holds s ≡ₚ held l ++ holds s'.
Proof.
  revert i. induction l as [|s0 l IH]; intros [|i] Hi; [done..| |]; cbn in *; simplify_eq.
  - solve_Permutation.
  - rewrite <-!app_assoc. f_equiv. by apply IH.
Qed.
(** A retention that passes into a session, and the one it replaces. *)
Lemma retained_moves (h x x' : list (Z * gset Z)) l i s s' sync :
  l !! i = Some s → x' ++ holds s' ≡ₚ x ++ holds s →
  retained_by (h ++ x ++ held l) sync → retained_by (h ++ x' ++ held (<[i := s']> l)) sync.
Proof.
  intros Hi Hx Hr.
  assert (x' ++ held (<[i := s']> l) ≡ₚ x ++ held l) as ->; [|done].
  apply (inj (.++ holds s ++ holds s')).
  rewrite (app_assoc _ (holds s)), <-(app_assoc x'), (held_insert _ _ _ _ Hi).
  transitivity ((x' ++ holds s') ++ held l ++ holds s'); [solve_Permutation|].
  rewrite Hx. solve_Permutation.
Qed.

(** A session changes within its phase, under no foreign lock. *)
Lemma inv_session ph ru x x' w sid s s' p :
  Inv ph ru x w → w_session w !! sid = Some s → ph !! sid = Some p →
  session_ok (w_closes w).*1 sid s' p →
  tg_provider (se_target s') = tg_provider (se_target s) →
  pg_version (se_page s) ≤ pg_version (se_page s') →
  (∀ t th e, w_threads w !! t = Some th → holding th = Some (sid, e) →
     se_lock s' = Some t ∧ pg_version (se_page s') = e) →
  x' ++ holds s' ≡ₚ x ++ holds s →
  Inv ph ru x' (set_session (<[sid := s']> (w_session w)) w).
Proof.
  intros HI Hs Hp Hok Htg Hv Hl Hx.
  assert (∀ i s1, w_session w !! i = Some s1 → ∃ s2, <[sid := s']> (w_session w) !! i = Some s2 ∧
    tg_provider (se_target s2) = tg_provider (se_target s1) ∧
    pg_version (se_page s1) ≤ pg_version (se_page s2)) as Hsess.
  { intros i s1 Hi. destruct (decide (i = sid)) as [->|Hne].
    - exists s'. simplify_eq. split; [|done]. by eapply list_lookup_insert_eq, lookup_lt_Some.
    - exists s1. by rewrite list_lookup_insert_ne. }
  pose proof (iv_retained _ _ _ _ HI) as Hret.
  destruct HI. split; try done; cbn.
  - by rewrite length_insert.
  - by rewrite length_insert.
  - intros i s1 p1 [(<-&<-&_)|[Hne Hi]]%list_lookup_insert_Some Hp1; [by simplify_eq|by eauto].
  - intros t th i q Ht Hin. destruct (iv_about0 _ _ _ _ Ht Hin) as (s1 & Hs1 & <-).
    destruct (Hsess _ _ Hs1) as (s2 & ? & ? & ?). eauto.
  - intros t th i e Ht Hh. destruct (decide (i = sid)) as [->|Hne].
    + exists s'. split; [by eapply list_lookup_insert_eq, lookup_lt_Some|by eauto].
    + rewrite list_lookup_insert_ne by done. by eauto.
  - intros o page Ha. destruct (iv_result0 _ _ Ha) as (i & s1 & p1 & Hs1 & ? & ? & ? & ?).
    destruct (Hsess _ _ Hs1) as (s2 & ? & ? & ?). exists i, s2, p1. split_and!; try done. lia.
  - by eapply retained_moves.
  - intros i Hi. rewrite length_insert. by apply iv_closed0.
Qed.

(** ** From phase to phase *)

Lemma on_session_eq sid f w s :
  w_session w !! sid = Some s → on_session sid f w = set_session (<[sid := f s]> (w_session w)) w.
Proof.
  intros Hs. unfold on_session. f_equal. apply list_eq. intros i.
  destruct (decide (i = sid)) as [->|Hne].
  - rewrite list_lookup_alter_eq, Hs. cbn. symmetry. by eapply list_lookup_insert_eq, lookup_lt_Some.
  - by rewrite list_lookup_alter_ne, list_lookup_insert_ne.
Qed.

Definition owns_at (t sid : nat) (p : Phase) : list (nat * Stage) :=
  match p with Owned _ st => [(sid, st)] | _ => [] end.
Definition passes (t : nat) (p : Phase) : Prop :=
  match p with Owned t' _ => t' = t | _ => True end.
Definition set_stage (t sid : nat) (s : Session) (cl : list (nat * string))
    (table : gmap string nat) (th : Thread) (w : World) : World :=
  goto t th (set_closes (w_closes w ++ cl)
    (set_session (<[sid := s]> (w_session w)) (set_sessions table w))).

Lemma session_ok_closes cl i l s p :
  (∀ j, j ∈ cl → j ≠ i) → session_ok l i s p → session_ok (l ++ cl) i s p.
Proof.
  intros Hne [Hn Hp]. split; [done|].
  assert (i ∉ l → i ∉ l ++ cl) by (intros ?; rewrite elem_of_app; naive_solver).
  assert (i ∈ l → i ∈ l ++ cl) by (rewrite elem_of_app; naive_solver).
  destruct p as [t [|ok|k []]| |k]; naive_solver.
Qed.
Lemma inv_stage_table ph ru x x' w t th th' sid st rest p' s s' cl table :
  Inv ph ru x w → w_threads w !! t = Some th → owns th = (sid, st) :: rest →
  w_session w !! sid = Some s →
  owns th' = owns_at t sid p' ++ rest → passes t p' →
  about th' = [] → task th' = task th → follows th' = None → holding th' = None →
  se_page s' = se_page s → tg_provider (se_target s') = tg_provider (se_target s) →
  (∀ t', se_lock s = Some t' → t' ≠ t → se_lock s' = Some t') → holding th = None →
  (cl = [] ∨ (∃ state, cl = [(sid, state)] ∧ sid ∉ (w_closes w).*1)) →
  session_ok (w_closes w ++ cl).*1 sid s' p' →
  (stage_known st = true → known p' = true) →
  x' ++ holds s' ≡ₚ x ++ holds s →
  (∀ n i, table !! n = Some i ↔ <[sid := p']> ph !! i = Some Listed ∧ n = new_uuid i) →
  Z.of_nat (size table) ≤ MAX_SESSIONS →
  (w_stopped w = true → w_sessions w = ∅ → table = ∅) →
  Inv (<[sid := p']> ph) ru x' (set_stage t sid s' cl table th' w).
Proof.
  intros HI Ht Ho Hs Ho' Hpass Ha' Hk' Hf' Hh' Hpage Htg Hlock Hhold Hcl Hok Hknown Hx Htb Hsize Hstop.
  pose proof (iv_retained _ _ _ _ HI) as Hret.
  assert (ph !! sid = Some (Owned t st)) as Hp.
  { eapply iv_owns; [done..|]. rewrite Ho. left. }
  assert (NoDup (owns th).*1) as Hnd by by eapply iv_distinct.
  rewrite Ho in Hnd. cbn in Hnd. apply NoDup_cons in Hnd as [Hsid Hnd].
  destruct HI.
  assert (sid < length ph)%nat as Hlt by by eapply lookup_lt_Some.
  assert (∀ i, i ≠ sid → <[sid := p']> ph !! i = ph !! i) as Hph.
  { intros i Hi. by apply list_lookup_insert_ne. }
  assert (<[sid := p']> ph !! sid = Some p') as Hphs by by apply list_lookup_insert_eq.
  assert (∀ i p, ph !! i = Some p → ∃ p1, <[sid := p']> ph !! i = Some p1 ∧
            (known p = true → known p1 = true)) as Hkn.
  { intros i p Hi. destruct (decide (i = sid)) as [->|Hne].
    - exists p'. split; [done|]. simplify_eq. done.
    - exists p. by rewrite Hph. }
  assert (<[sid := s']> (w_session w) !! sid = Some s') as Hss
    by by eapply list_lookup_insert_eq, lookup_lt_Some.
  assert (∀ i, i ≠ sid → <[sid := s']> (w_session w) !! i = w_session w !! i) as Hsn.
  { intros i Hi. by apply list_lookup_insert_ne. }
  assert (∀ t' th'', w_threads (set_stage t sid s' cl table th' w) !! t' = Some th'' →
            (t' = t ∧ th'' = th') ∨ (t' ≠ t ∧ w_threads w !! t' = Some th'')) as Hl.
  { intros t' th'' Hl. by apply goto_lookup in Hl. }
  assert (w_threads (set_stage t sid s' cl table th' w) !! t = Some th') as Hlt'.
  { by eapply (goto_same t th). }
  assert (∀ t', t' ≠ t → w_threads (set_stage t sid s' cl table th' w) !! t' = w_threads w !! t') as Hlo.
  { intros t' Hne. unfold set_stage. by rewrite goto_other. }
  split; try done; cbn -[w_threads].
  - by rewrite !length_insert.
  - by rewrite length_insert.
  - intros i s1 p1 Hi Hp1. destruct (decide (i = sid)) as [->|Hne].
    + rewrite Hss in Hi. rewrite Hphs in Hp1. by simplify_eq.
    + rewrite Hsn in Hi by done. rewrite Hph in Hp1 by done. rewrite fmap_app.
      apply session_ok_closes; [|by eauto].
      intros j Hj. destruct Hcl as [->|(state & -> & _)]; cbn in Hj;
        [by apply not_elem_of_nil in Hj|]. apply list_elem_of_singleton in Hj as ->. done.
  - intros t' th'' i st' Ht' Hin. apply Hl in Ht' as [[-> ->]|[Hne Ht']].
    + rewrite Ho' in Hin. apply elem_of_app in Hin as [Hin|Hin].
      * destruct p' as [t1 st1| |k]; cbn in Hin, Hpass; [|by apply not_elem_of_nil in Hin..].
        subst t1. apply list_elem_of_singleton in Hin. by simplify_eq.
      * rewrite Hph; [eapply iv_owns0; [done|]; rewrite Ho; by right|].
        intros ->. apply Hsid. apply (list_elem_of_fmap_2 fst _ _ Hin).
    + rewrite Hph; [by eauto|]. intros ->. specialize (iv_owns0 _ _ _ _ Ht' Hin). congruence.
  - intros i t' st' Hi. destruct (decide (i = sid)) as [->|Hne].
    + rewrite Hphs in Hi. simplify_eq. cbn in Hpass. subst t'. exists th'. split; [done|].
      rewrite Ho'. cbn. left.
    + rewrite Hph in Hi by done. destruct (iv_owned0 _ _ _ Hi) as (th1 & Ht1 & Hin).
      destruct (decide (t' = t)) as [->|Hnt].
      * exists th'. split; [done|]. simplify_eq. rewrite Ho in Hin. rewrite Ho'.
        apply elem_of_app. right. apply elem_of_cons in Hin as [Hin|Hin]; [|done]. by simplify_eq.
      * exists th1. by rewrite Hlo.
  - intros t' th'' Ht'. apply Hl in Ht' as [[-> ->]|[Hne Ht']]; [|by eauto].
    rewrite Ho', fmap_app. destruct p'; cbn; [by constructor|done..].
  - intros t' th'' i q Ht' Hin. apply Hl in Ht' as [[-> ->]|[Hne Ht']].
    { rewrite Ha' in Hin. by apply not_elem_of_nil in Hin. }
    destruct (iv_about0 _ _ _ _ Ht' Hin) as (s1 & Hs1 & <-).
    destruct (decide (i = sid)) as [->|Hni]; [exists s'|exists s1; by rewrite Hsn].
    by simplify_eq.
  - intros t' th'' i Ht' Hin. apply Hl in Ht' as [[-> ->]|[Hne Ht']]; [congruence|].
    destruct (iv_follows0 _ _ _ Ht' Hin) as (p & Hi & Hkp). destruct (Hkn _ _ Hi) as (p1 & ? & ?).
    eauto.
  - intros t' th'' i e Ht' Hin. apply Hl in Ht' as [[-> ->]|[Hne Ht']]; [congruence|].
    destruct (iv_holding0 _ _ _ _ Ht' Hin) as (s1 & Hs1 & Hl1 & He).
    destruct (decide (i = sid)) as [->|Hni]; [exists s'|exists s1; by rewrite Hsn].
    simplify_eq. split_and!; [done|by eauto|congruence].
  - intros t' th'' o Ht' Hin. apply Hl in Ht' as [[-> ->]|[Hne Ht']]; [rewrite Hk' in Hin|]; by eauto.
  - intros o a Ho1 Hr. destruct (iv_pending0 _ _ Ho1 Hr) as (t1 & th1 & Ht1 & Hk1).
    destruct (decide (t1 = t)) as [->|Hne].
    + exists t, th'. split; [done|]. rewrite Hk'. congruence.
    + exists t1, th1. by rewrite Hlo.
  - intros o page Hans. destruct (iv_result0 _ _ Hans) as (i & s1 & p1 & Hs1 & Hp1 & ? & ? & ?).
    destruct (Hkn _ _ Hp1) as (p2 & Hp2 & Hk2). exists i.
    destruct (decide (i = sid)) as [->|Hni].
    + exists s', p2. simplify_eq. rewrite Hpage. split_and!; auto.
    + exists s1, p2. rewrite Hsn by done. split_and!; auto.
  - by eapply retained_moves.
  - rewrite fmap_app. destruct Hcl as [->|(state & -> & Hn)]; cbn; [by rewrite app_nil_r|].
    apply NoDup_app. split_and!; [done| |repeat constructor; apply not_elem_of_nil].
    intros j Hj. rewrite list_elem_of_singleton. congruence.
  - intros i Hi. rewrite length_insert. rewrite fmap_app in Hi. apply elem_of_app in Hi as [Hi|Hi]; [by eauto|].
    destruct Hcl as [->|(state & -> & _)]; cbn in Hi; [by apply not_elem_of_nil in Hi|].
    apply list_elem_of_singleton in Hi as ->. by eapply lookup_lt_Some.
  - intros Hst. destruct (iv_stopped0 Hst) as [|[t1 Ht1]]; [by left; auto|right].
    exists t1. rewrite Hlo; [done|]. intros ->. simplify_eq. 
Qed.
Lemma inv_stage ph ru x x' w t th th' sid st rest p' s s' cl :
  Inv ph ru x w → w_threads w !! t = Some th → owns th = (sid, st) :: rest →
  w_session w !! sid = Some s →
  owns th' = owns_at t sid p' ++ rest → passes t p' → p' ≠ Listed →
  about th' = [] → task th' = task th → follows th' = None → holding th' = None →
  se_page s' = se_page s → tg_provider (se_target s') = tg_provider (se_target s) →
  (∀ t', se_lock s = Some t' → t' ≠ t → se_lock s' = Some t') → holding th = None →
  (cl = [] ∨ (∃ state, cl = [(sid, state)] ∧ sid ∉ (w_closes w).*1)) →
  session_ok (w_closes w ++ cl).*1 sid s' p' →
  (stage_known st = true → known p' = true) →
  x' ++ holds s' ≡ₚ x ++ holds s →
  Inv (<[sid := p']> ph) ru x' (set_stage t sid s' cl (w_sessions w) th' w).
Proof.
  intros HI Ht Ho Hs ? ? Hn. intros. eapply inv_stage_table; try done; [|apply HI].
  assert (ph !! sid = Some (Owned t st)) as Hp.
  { eapply iv_owns; [done..|]. rewrite Ho. left. }
  intros n i. rewrite (iv_table _ _ _ _ HI). destruct (decide (i = sid)) as [->|Hne].
  - rewrite Hp, list_lookup_insert_eq by (by eapply lookup_lt_Some).
    split; intros [? _]; [done|congruence].
  - by rewrite list_lookup_insert_ne.
Qed.
Lemma inv_list `{!Inj (=) (=) new_uuid} ph ru x w t th th' sid s :
  Inv ph ru x w → w_threads w !! t = Some th → owns th = [(sid, Vetted true)] →
  w_session w !! sid = Some s → w_stopped w = false →
  Z.of_nat (size (w_sessions w)) < MAX_SESSIONS →
  owns th' = [] → about th' = [] → task th' = task th → follows th' = None →
  holding th' = None → holding th = None →
  Inv (<[sid := Listed]> ph) ru x
    (goto t th' (set_sessions (<[new_uuid sid := sid]> (w_sessions w)) w)).
Proof.
  intros HI Ht Ho Hs Hst Hsize Ho' Ha' Hk' Hf' Hh' Hh.
  assert (ph !! sid = Some (Owned t (Vetted true))) as Hp.
  { eapply iv_owns; [done..|]. rewrite Ho. left. }
  pose proof (iv_session _ _ _ _ HI _ _ _ Hs Hp) as (Hname & Hc & Hcov & Hcl).
  replace (goto t th' _) with
    (set_stage t sid s [] (<[new_uuid sid := sid]> (w_sessions w)) th' w).
  2:{ unfold set_stage. rewrite app_nil_r, list_insert_id by done. by destruct w. }
  assert (<[sid := Listed]> ph !! sid = Some Listed) as Hl.
  { by eapply list_lookup_insert_eq, lookup_lt_Some. }
  eapply inv_stage_table with (s := s) (rest := []); try done.
  - by left.
  - rewrite app_nil_r. split_and!; auto.
  - intros n i. rewrite lookup_insert_Some. rewrite (iv_table _ _ _ _ HI).
    destruct (decide (i = sid)) as [->|Hne].
    + rewrite Hl, Hp. naive_solver.
    + rewrite list_lookup_insert_ne by done. split; [naive_solver|].
      intros [? ->]. right. split; [|done]. intros ?%(inj _). congruence.
  - rewrite map_size_insert. destruct (w_sessions w !! new_uuid sid); cbn; lia.
  - congruence.
Qed.

(** A new session, private to the task that opened it. *)
Definition add_session (t : nat) (th : Thread) (s : Session) (w : World) : World :=
  goto t th (set_uuids (S (w_uuids w)) (set_session (w_session w ++ [s]) w)).
Lemma inv_new ph ru x w t th th' s st :
  Inv ph ru x w → w_threads w !! t = Some th → owns th = [] →
  owns th' = [(length (w_session w), st)] →
  (∀ q, q ∈ about th' → q = (length (w_session w), tg_provider (se_target s))) →
  task th' = task th → follows th' = None → holding th' = None → th ≠ Collecting →
  pg_session (se_page s) = new_uuid (w_uuids w) → se_closed s = false → se_items s = None →
  (st = Fresh ∨ st = Vetted false) →
  Inv (ph ++ [Owned t st]) ru x (add_session t th' s w).
Proof.
  intros HI Ht Ho Ho' Ha' Hk' Hf' Hh' Hc Hname Hcl Hit Hst.
  pose proof (iv_retained _ _ _ _ HI) as Hret. destruct HI.
  remember (length (w_session w)) as n eqn:Hn in *.
  assert (∀ i p, (ph ++ [Owned t st]) !! i = Some p →
            ph !! i = Some p ∨ (i = n ∧ p = Owned t st)) as Hph.
  { intros i p [Hi|[Hlen Hi]]%lookup_app_Some; [by left|right].
    apply list_lookup_singleton_Some in Hi as [? <-]. split; [lia|done]. }
  assert (∀ i p, ph !! i = Some p → (ph ++ [Owned t st]) !! i = Some p) as Hph'.
  { intros. by apply lookup_app_l_Some. }
  assert ((ph ++ [Owned t st]) !! n = Some (Owned t st)) as Hphn.
  { by rewrite lookup_app_r, iv_phases0, Nat.sub_diag by lia. }
  assert (∀ i s', (w_session w ++ [s]) !! i = Some s' →
            w_session w !! i = Some s' ∨ (i = n ∧ s' = s)) as Hse.
  { intros i s' [Hi|[Hlen Hi]]%lookup_app_Some; [by left|right].
    apply list_lookup_singleton_Some in Hi as [? <-]. split; [lia|done]. }
  assert (∀ i s', w_session w !! i = Some s' → (w_session w ++ [s]) !! i = Some s') as Hse'.
  { intros. by apply lookup_app_l_Some. }
  assert ((w_session w ++ [s]) !! n = Some s) as Hsen.
  { rewrite lookup_app_r by lia. by rewrite <-Hn, Nat.sub_diag. }
  assert (∀ p, ph !! n ≠ Some p) as Hno.
  { intros p Hp. apply lookup_lt_Some in Hp. lia. }
  assert (∀ t' th'', w_threads (add_session t th' s w) !! t' = Some th'' →
            (t' = t ∧ th'' = th') ∨ (t' ≠ t ∧ w_threads w !! t' = Some th'')) as Hl.
  { intros t' th'' Hl. by apply goto_lookup in Hl. }
  assert (w_threads (add_session t th' s w) !! t = Some th') as Hlt' by by eapply (goto_same t th).
  assert (∀ t', t' ≠ t → w_threads (add_session t th' s w) !! t' = w_threads w !! t') as Hlo.
  { intros t' Hne. unfold add_session. by rewrite goto_other. }
  split; try done; cbn -[w_threads].
  - rewrite !length_app. cbn. lia.
  - rewrite length_app. cbn. lia.
  - intros i s1 p1 Hi Hp. apply Hse in Hi as [Hi|[-> ->]].
    + apply Hph in Hp as [Hp|[-> _]]; [by eauto|]. apply lookup_lt_Some in Hi. lia.
    + rewrite Hphn in Hp. injection Hp as <-. assert (n ∉ (w_closes w).*1) as Hnc.
      { intros Hin%iv_closed0. lia. }
      split; [by rewrite Hname, iv_uuids0|].
      destruct Hst as [-> | ->]; cbn; naive_solver.
  - intros t' th'' i st' Ht' Hin. apply Hl in Ht' as [[-> ->]|[Hne Ht']]; [|by eauto].
    rewrite Ho' in Hin. apply list_elem_of_singleton in Hin. by simplify_eq.
  - intros i t' st' Hi. apply Hph in Hi as [Hi|[-> ?]].
    + destruct (iv_owned0 _ _ _ Hi) as (th1 & Ht1 & Hin). exists th1. rewrite Hlo; [done|].
      intros ->. simplify_eq. rewrite Ho in Hin. by apply not_elem_of_nil in Hin.
    + simplify_eq. exists th'. split; [done|]. rewrite Ho'. by left.
  - intros t' th'' Ht'. apply Hl in Ht' as [[-> ->]|[Hne Ht']]; [|by eauto].
    rewrite Ho'. repeat constructor. apply not_elem_of_nil.
  - intros k i. rewrite iv_table0. split; intros [Hi ->]; (split; [|done]); [by auto|].
    by apply Hph in Hi as [Hi|[_ ?]].
  - intros t' th'' i q Ht' Hin. apply Hl in Ht' as [[-> ->]|[Hne Ht']].
    { apply Ha' in Hin. simplify_eq. by exists s. }
    destruct (iv_about0 _ _ _ _ Ht' Hin) as (s1 & Hs1 & <-). eauto.
  - intros t' th'' i Ht' Hin. apply Hl in Ht' as [[-> ->]|[Hne Ht']]; [congruence|].
    destruct (iv_follows0 _ _ _ Ht' Hin) as (p & Hi & Hkp). eauto.
  - intros t' th'' i e Ht' Hin. apply Hl in Ht' as [[-> ->]|[Hne Ht']]; [congruence|].
    destruct (iv_holding0 _ _ _ _ Ht' Hin) as (s1 & Hs1 & Hl1 & He). eauto.
  - intros t' th'' o Ht' Hin. apply Hl in Ht' as [[-> ->]|[Hne Ht']]; [rewrite Hk' in Hin|]; by eauto.
  - intros o a Ho1 Hr. destruct (iv_pending0 _ _ Ho1 Hr) as (t1 & th1 & Ht1 & Hk1).
    destruct (decide (t1 = t)) as [->|Hne].
    + exists t, th'. split; [done|]. rewrite Hk'. congruence.
    + exists t1, th1. by rewrite Hlo.
  - intros o page Hans. destruct (iv_result0 _ _ Hans) as (i & s1 & p1 & Hs1 & Hp1 & ? & ? & ?).
    exists i, s1, p1. split_and!; auto.
  - unfold held. rewrite bind_app. cbn. unfold holds at 2. rewrite Hit. cbn.
    by rewrite !app_nil_r.
  - intros i Hi%iv_closed0. rewrite length_app. lia.
  - intros Hs. destruct (iv_stopped0 Hs) as [|[t1 Ht1]]; [by left|right].
    exists t1. rewrite Hlo; [done|]. intros ->. congruence.
Qed.

(** Sessions that leave the table, for the thread that will release them. *)
Definition take_over (t : nat) (sids : list nat) (ph : list Phase) : list Phase :=
  imap (λ i p, if decide (i ∈ sids) then Owned t (Leaving true Swap) else p) ph.
Definition hand_over (t : nat) (th : Thread) (table : gmap string nat) (w : World) : World :=
  goto t th (set_sessions table w).
Lemma inv_remove ph ru x w t th sids table prune :
  Inv ph ru x w → w_threads w !! t = Some th → owns th = [] → task th = None →
  NoDup sids →
  (∀ sid, sid ∈ sids → ph !! sid = Some Listed) →
  (∀ n i, table !! n = Some i ↔ w_sessions w !! n = Some i ∧ i ∉ sids) →
  (w_stopped w = true → th = Collecting → table = ∅) →
  Inv (take_over t sids ph) ru x (hand_over t (Releasing sids Swap prune) table w).
Proof.
  intros HI Ht Ho Hk Hnd Hl Htb Hst. destruct HI.
  set (th' := Releasing sids Swap prune).
  assert (owns th' = waiting <$> sids) as Ho'.
  { unfold th'. by destruct sids. }
  assert (∀ i st, (i, st) ∈ owns th' ↔ i ∈ sids ∧ st = Leaving true Swap) as Hin'.
  { intros i st. rewrite Ho', list_elem_of_fmap. unfold waiting. naive_solver. }
  assert (∀ i, take_over t sids ph !! i =
    (λ p, if decide (i ∈ sids) then Owned t (Leaving true Swap) else p) <$> ph !! i) as Hph.
  { intros i. apply list_lookup_imap. }
  assert (∀ i p, ph !! i = Some p → ∃ p1, take_over t sids ph !! i = Some p1 ∧
            (known p = true → known p1 = true)) as Hkn.
  { intros i p Hi. rewrite Hph, Hi. cbn. case_decide; eauto. }
  assert (∀ t' th'', w_threads (hand_over t th' table w) !! t' = Some th'' →
            (t' = t ∧ th'' = th') ∨ (t' ≠ t ∧ w_threads w !! t' = Some th'')) as Hlk.
  { intros t' th'' Hl'. by apply goto_lookup in Hl'. }
  assert (w_threads (hand_over t th' table w) !! t = Some th') as Hlt' by by eapply (goto_same t th).
  assert (∀ t', t' ≠ t → w_threads (hand_over t th' table w) !! t' = w_threads w !! t') as Hlo.
  { intros t' Hne. unfold hand_over. by rewrite goto_other. }
  assert (table ⊆ w_sessions w) as Hsub.
  { apply map_subseteq_spec. intros n i Hn. by apply Htb in Hn as [? _]. }
  split; try done; cbn -[w_threads].
  - unfold take_over. by rewrite length_imap.
  - intros i s p Hs. rewrite Hph. intros (p0 & Hp0 & ->)%fmap_Some.
    pose proof (iv_session0 _ _ _ Hs Hp0) as [Hname Hok]. case_decide as Hi; [|by split].
    rewrite (Hl _ Hi) in Hp0. simplify_eq. split; [done|]. naive_solver.
  - intros t' th'' i st Ht' Hin. rewrite Hph. apply Hlk in Ht' as [[-> ->]|[Hne Ht']].
    + apply Hin' in Hin as [Hi ->]. rewrite (Hl _ Hi). cbn. by rewrite decide_True.
    + specialize (iv_owns0 _ _ _ _ Ht' Hin). rewrite iv_owns0. cbn.
      rewrite decide_False; [done|]. intros Hi%Hl. congruence.
  - intros i t' st. rewrite Hph. intros (p0 & Hp0 & Heq)%fmap_Some. case_decide as Hi.
    + simplify_eq. exists th'. split; [done|]. by apply Hin'.
    + subst p0. destruct (iv_owned0 _ _ _ Hp0) as (th1 & Ht1 & Hin). exists th1.
      rewrite Hlo; [done|]. intros ->. simplify_eq. rewrite Ho in Hin. by apply not_elem_of_nil in Hin.
  - intros t' th'' Ht'. apply Hlk in Ht' as [[-> ->]|[Hne Ht']]; [|by eauto].
    rewrite Ho', <-list_fmap_compose. cbn. by rewrite list_fmap_id.
  - intros n i. rewrite Htb, iv_table0, Hph. split.
    + intros [[Hi ->] Hni]. rewrite Hi. cbn. by rewrite decide_False.
    + intros [(p0 & Hp0 & Heq)%fmap_Some ->]. case_decide; [done|]. by subst p0.
  - intros t' th'' i q Ht' Hin. apply Hlk in Ht' as [[-> ->]|[Hne Ht']]; [|by eauto].
    by apply not_elem_of_nil in Hin.
  - intros t' th'' i Ht' Hin. apply Hlk in Ht' as [[-> ->]|[Hne Ht']]; [done|].
    destruct (iv_follows0 _ _ _ Ht' Hin) as (p & Hi & Hkp). destruct (Hkn _ _ Hi) as (p1 & ? & ?).
    eauto.
  - intros t' th'' i e Ht' Hin. apply Hlk in Ht' as [[-> ->]|[Hne Ht']]; [done|by eauto].
  - intros t' th'' o Ht' Hin. apply Hlk in Ht' as [[-> ->]|[Hne Ht']]; [done|]; by eauto.
  - intros o a Ho1 Hr. destruct (iv_pending0 _ _ Ho1 Hr) as (t1 & th1 & Ht1 & Hk1).
    exists t1, th1. rewrite Hlo; [done|]. intros ->. congruence.
  - intros o page Hans. destruct (iv_result0 _ _ Hans) as (i & s1 & p1 & Hs1 & Hp1 & ? & ? & ?).
    destruct (Hkn _ _ Hp1) as (p2 & Hp2 & Hk2). exists i, s1, p2. split_and!; auto.
  - intros Hs. destruct (iv_stopped0 Hs) as [He|[t1 Ht1]].
    + left. apply map_empty. intros n. destruct (table !! n) as [i|] eqn:Hn; [|done].
      apply Htb in Hn as [Hn _]. rewrite He in Hn. by apply lookup_empty_Some in Hn.
    + destruct (decide (t1 = t)) as [->|Hne]; [left; apply Hst; congruence|right].
      exists t1. by rewrite Hlo.
  - pose proof (map_subseteq_size _ _ Hsub). lia.
Qed.

(** A new operation, with its task. *)
Definition add_task (th : Thread) (a : Operation) (w : World) : World :=
  spawn th (set_operation (w_operation w ++ [a]) w).
Lemma inv_task ph ru x w th a :
  Inv ph ru x w → owns th = [] → task th = Some (length (w_operation w)) → holding th = None →
  (∀ sid p, (sid, p) ∈ about th → ∃ s, w_session w !! sid = Some s ∧ tg_provider (se_target s) = p) →
  (∀ sid, follows th = Some sid → ∃ p, ph !! sid = Some p ∧ known p = true) →
  op_result a = None →
  Inv ph (ru ++ [length (w_threads w)]) x (add_task th a w).
Proof.
  intros HI Ho Hk Hh Ha Hf Hr. destruct HI.
  assert (∀ t th', w_threads (add_task th a w) !! t = Some th' →
            w_threads w !! t = Some th' ∨ (t = length (w_threads w) ∧ th' = th)) as Hl.
  { intros t th' [Ht|[Hlen Ht]]%lookup_app_Some; [by left|right].
    apply list_lookup_singleton_Some in Ht as [? <-]. cbn in *. split; [lia|done]. }
  assert (∀ t th', w_threads w !! t = Some th' → w_threads (add_task th a w) !! t = Some th') as Hk'.
  { intros t th' Ht. cbn. by apply lookup_app_l_Some. }
  assert (w_threads (add_task th a w) !! length (w_threads w) = Some th) as Hkt.
  { cbn. by rewrite lookup_app_r, Nat.sub_diag by lia. }
  assert (∀ o a', w_operation (add_task th a w) !! o = Some a' →
            w_operation w !! o = Some a' ∨ (o = length (w_operation w) ∧ a' = a)) as Hop.
  { intros o a' [Ht|[Hlen Ht]]%lookup_app_Some; [by left|right].
    apply list_lookup_singleton_Some in Ht as [? <-]. cbn in *. split; [lia|done]. }
  assert (∀ o a', w_operation w !! o = Some a' → w_operation (add_task th a w) !! o = Some a') as Hop'.
  { intros. cbn. by apply lookup_app_l_Some. }
  assert (∀ o page, answered (add_task th a w) o page → answered w o page) as Hans.
  { intros o page (a' & [Ho'|[-> ->]]%Hop & Hp); [by exists a'|congruence]. }
  split; try done; cbn -[w_threads w_operation].
  - intros t th' sid st [Ht|[-> ->]]%Hl Hin; [by eauto|]. rewrite Ho in Hin. by apply not_elem_of_nil in Hin.
  - intros sid t st Hp. destruct (iv_owned0 _ _ _ Hp) as (th1 & Ht1 & Hin). eauto.
  - intros t th' [Ht|[-> ->]]%Hl; [by eauto|]. rewrite Ho. constructor.
  - intros t th' sid p [Ht|[-> ->]]%Hl Hin; by eauto.
  - intros t th' sid [Ht|[-> ->]]%Hl Hin; by eauto.
  - intros t th' sid e [Ht|[-> ->]]%Hl Hin; [by eauto|congruence].
  - cbn. rewrite !length_app. cbn. lia.
  - intros t th' o [Ht|[-> ->]]%Hl Hin.
    + destruct (iv_task0 _ _ _ Ht Hin) as (Hro & a' & Ho' & Hn).
      split; [by apply lookup_app_l_Some|]. exists a'. auto.
    + simplify_eq. split; [by rewrite lookup_app_r, <-iv_runners0, Nat.sub_diag by lia|].
      exists a. split; [|done]. cbn. by rewrite lookup_app_r, Nat.sub_diag by lia.
  - intros o a' [Ho'|[-> ->]]%Hop Hr'; [|by eauto].
    destruct (iv_pending0 _ _ Ho' Hr') as (t1 & th1 & Ht1 & Hk1). eauto.
  - intros o page Hp%Hans. by eauto.
  - intros o1 o2 p1 p2 Hp1%Hans Hp2%Hans. by eauto.
  - intros Hs. destruct (iv_stopped0 Hs) as [|[t1 Ht1]]; [by left|right]. eauto.
Qed.

(** ** What the ledger does not mention *)

Lemma inv_operations ph ru x w m : Inv ph ru x w → Inv ph ru x (set_operations m w).
Proof. intros []. by split. Qed.
Lemma inv_clocks ph ru x w i s : Inv ph ru x w → Inv ph ru x (set_clocks i s w).
Proof. intros []. by split. Qed.
Lemma inv_epochs ph ru x w f : Inv ph ru x w → Inv ph ru x (set_epochs f w).
Proof. intros []. by split. Qed.
Lemma inv_registry ph ru x w m : Inv ph ru x w → Inv ph ru x (set_registry m w).
Proof. intros []. by split. Qed.
Lemma inv_stop ph ru x w t :
  Inv ph ru x w → w_threads w !! t = Some Collecting → Inv ph ru x (set_stopped true w).
Proof. intros [] ?. split; try done. right. by exists t. Qed.

(** ** The library *)

Lemma inv_library ph ru x x' w c :
  Inv ph ru x w →
  retained_by (c_handles c ++ x' ++ held (w_session w)) (c_sync c) →
  Inv ph ru x' (set_library c w).
Proof. intros [] ?. by split. Qed.
Lemma inv_serve ph ru x w q :
  Inv ph ru x w → Inv ph ru x (set_library (serve (w_library w) q) w).
Proof. intros HI. eapply inv_library; [done|]. apply serve_retained, HI. Qed.

Lemma inv_retain_batch ph ru w target b ids r w' :
  Inv ph ru [] w → retain_batch target b ids w = (Ok r, w') →
  ∃ c, w' = set_library c w ∧ Inv ph ru [hold r] w' ∧ covered (tg_provider target) b r.
Proof.
  intros HI. unfold retain_batch, on_library.
  destruct (provider_id (tg_provider target)) as [p|] eqn:Hp; [|done].
  destruct (retain_items p _ (c_sync (w_library w))) as [[all|e] s] eqn:Hr; [|done].
  intros [= <- <-]. eexists. split; [done|]. split.
  - eapply inv_library; [done|]. cbn. rewrite <-Permutation_middle.
    eapply retained_by_retain; [done|]. apply (iv_retained _ _ _ _ HI).
  - split; [done|]. cbn. apply retain_items_Ok in Hr as [Hsub _]. unfold batch_items.
    rewrite !list_to_set_app_L in Hsub. rewrite list_to_set_app_L. set_solver.
Qed.
Lemma inv_retain_batch_Err ph ru w target b ids e w' :
  Inv ph ru [] w → retain_batch target b ids w = (Err e, w') →
  ∃ c, w' = set_library c w ∧ Inv ph ru [] w'.
Proof.
  intros HI. unfold retain_batch, on_library.
  destruct (provider_id (tg_provider target)) as [p|] eqn:Hp.
  - destruct (retain_items p _ (c_sync (w_library w))) as [[all|e'] s] eqn:Hr; [done|].
    intros [= <- <-]. eexists. split; [done|].
    eapply inv_library; [done|]. cbn. eapply retained_by_same; [|apply (iv_retained _ _ _ _ HI)].
    by eapply retain_items_Err.
  - intros [= <- <-]. exists (w_library w). by destruct w.
Qed.
Lemma inv_drop ph ru w r :
  Inv ph ru (hold <$> option_list r) w →
  ∃ c, drop_retention r w = set_library c w ∧ Inv ph ru [] (drop_retention r w).
Proof.
  intros HI. destruct r as [r|]; cbn.
  - eexists. split; [done|]. eapply inv_library; [done|]. cbn.
    apply retained_by_release. pose proof (iv_retained _ _ _ _ HI) as Hr. cbn in Hr.
    by rewrite Permutation_middle.
  - exists (w_library w). by destruct w.
Qed.
End ledger.
