(* ===== verification/RadioSteps.v ===== *)
(** * Radio sessions: every step keeps the ledger

    The steps of [Radio.v], each as a few moves of [Ledger.v]. *)
From S2P Require Import Prelude Text Tables Coordinator Batch SyncRun Effects Sessions Retained Radio Ledger.
From stdpp Require Import options.
#[local] Set Default Proof Using "Type*".

Open Scope Z_scope.
Open Scope list_scope.

Section deeds.
Context `{Environment} `{BatchCodec} `{RadioLibrary} `{!Inj (=) (=) new_uuid}.

Definition good (w : World) : Prop := ∃ ph ru, Inv ph ru [] w.

(** ** Sessions *)

Lemma inv_on_session ph ru x w sid f :
  Inv ph ru x w →
  (∀ s, se_page (f s) = se_page s ∧ se_target (f s) = se_target s ∧
        se_closed (f s) = se_closed s ∧ se_lock (f s) = se_lock s ∧ se_items (f s) = se_items s) →
  Inv ph ru x (on_session sid f w).
Proof.
  intros HI Hf. destruct (w_session w !! sid) as [s|] eqn:Hs.
  2:{ assert (alter f sid (w_session w) = w_session w) as Heq.
      { apply list_eq. intros i. destruct (decide (i = sid)) as [->|Hne].
        - by rewrite list_lookup_alter_eq, Hs.
        - by rewrite list_lookup_alter_ne. }
      unfold on_session. rewrite Heq. by destruct w. }
  rewrite (on_session_eq _ _ _ s) by done. destruct (Hf s) as (Hp & Ht & Hc & Hl & Hi).
  destruct (lookup_lt_is_Some_2 ph sid) as [p Hph].
  { rewrite (iv_phases _ _ _ _ HI). by eapply lookup_lt_Some. }
  eapply inv_session; try done.
  - pose proof (iv_session _ _ _ _ HI _ _ _ Hs Hph) as Hok. unfold session_ok, covers in *.
    by rewrite Hp, Hc, Hl, Hi, Ht.
  - by rewrite Ht.
  - by rewrite Hp.
  - intros t th e Hth Hh. destruct (iv_holding _ _ _ _ HI _ _ _ _ Hth Hh) as (s1 & ? & ? & ?).
    simplify_eq. by rewrite Hl, Hp.
  - unfold holds. by rewrite Hi.
Qed.
Lemma inv_touch ph ru x w sid : Inv ph ru x w → Inv ph ru x (touch_session sid w).
Proof. intros HI. by apply inv_on_session. Qed.

Lemma drop_on_session r sid f w :
  drop_retention r (on_session sid f w) = on_session sid f (drop_retention r w).
Proof. by destruct r. Qed.
Lemma inv_items ph ru x w sid s p items :
  Inv ph ru x w → x = hold <$> option_list items →
  w_session w !! sid = Some s → ph !! sid = Some p →
  session_ok (w_closes w).*1 sid (with_items items s) p →
  ∃ c, on_session sid (with_items items) (drop_retention (se_items s) w) =
       set_library c (set_session (<[sid := with_items items s]> (w_session w)) w) ∧
     Inv ph ru [] (on_session sid (with_items items) (drop_retention (se_items s) w)).
Proof.
  intros HI Hx Hs Hp Hok. rewrite <-drop_on_session. rewrite (on_session_eq _ _ _ s) by done.
  apply inv_drop. eapply inv_session; try done.
  - intros t th e Hth Hh. destruct (iv_holding _ _ _ _ HI _ _ _ _ Hth Hh) as (s1 & ? & ? & ?).
    by simplify_eq.
  - subst x. apply Permutation_app_comm.
Qed.

(** ** Releasing *)

Lemma finish_goto t op r th w : finish t op r (goto t th w) = finish t op r w.
Proof. unfold finish, goto, set_threads, set_operation. cbn. by rewrite list_insert_insert_eq. Qed.

(** A thread between two steps of its work on owned sessions. *)
Definition plain (th : Thread) : Prop := about th = [] ∧ follows th = None ∧ holding th = None.
Lemma set_stage_plain t sid s table th w :
  table = w_sessions w →
  set_stage t sid s [] table th w = goto t th (set_session (<[sid := s]> (w_session w)) w).
Proof. intros ->. unfold set_stage. rewrite app_nil_r. by destruct w. Qed.

Lemma inv_release ph ru w t th sid k pc rest w1 o th' :
  Inv ph ru [] w → w_threads w !! t = Some th → owns th = (sid, Leaving k pc) :: rest →
  plain th → plain th' → task th' = task th →
  release_step t sid pc w = (o, w1) →
  owns th' = (match o with Some pc' => [(sid, Leaving k pc')] | None => [] end) ++ rest →
  ∃ ph', Inv ph' ru [] (goto t th' w1) ∧ (∀ i, i ≠ sid → ph' !! i = ph !! i).
Proof.
  intros HI Ht Ho (Ha & Hf & Hh) (Ha' & Hf' & Hh') Hk Hr Ho'.
  assert (ph !! sid = Some (Owned t (Leaving k pc))) as Hp.
  { eapply iv_owns; [done..|]. rewrite Ho. left. }
  destruct (lookup_lt_is_Some_2 (w_session w) sid) as [s Hs].
  { rewrite <-(iv_phases _ _ _ _ HI). by eapply lookup_lt_Some. }
  pose proof (iv_session _ _ _ _ HI _ _ _ Hs Hp) as [Hn Hok].
  unfold release_step in Hr. rewrite Hs in Hr.
  assert (∀ p' i, i ≠ sid → <[sid := p']> ph !! i = ph !! i) as Hne.
  { intros. by apply list_lookup_insert_ne. }
  destruct pc; cbn in Hok.
  - destruct Hok as [Hc Hcl]. rewrite Hc in Hr. simplify_eq. eexists. split; [|apply Hne].
    rewrite (on_session_eq _ _ _ s) by done.
    rewrite <-(set_stage_plain t sid _ (w_sessions w)) by done.
    eapply inv_stage with (p' := Owned t (Leaving k Lock)); try done; [by left|].
    rewrite app_nil_r. by split.
  - destruct Hok as [Hc Hcl]. destruct (se_lock s) as [t1|] eqn:Hl; simplify_eq.
    + exists ph. split; [|done]. eapply inv_goto; [done..| | |].
      * split_and!; [by rewrite Ho, Ho'|rewrite Ha'; apply list_subseteq_nil|done|by left].
      * intros i e. congruence.
      * intros ->. discriminate.
    + eexists. split; [|apply Hne]. rewrite (on_session_eq _ _ _ s) by done.
      match goal with |- Inv _ _ _ (goto t th' ?w1) => replace (goto t th' w1) with
        (set_stage t sid (with_lock (Some t) s) [(sid, qb_state (pg_batch (se_page s)))]
           (w_sessions w) th' w) by (by destruct w) end.
      eapply inv_stage with (p' := Owned t (Leaving k Closing)); try done.
      * congruence.
      * right. by eexists.
      * rewrite fmap_app. split; [done|]. cbn. split_and!; [done..|]. apply elem_of_app. right. by left.
  - destruct Hok as (Hc & Hl & Hcl). simplify_eq. unfold take_items. rewrite Hs.
    destruct (inv_items ph ru [] w sid s _ None HI eq_refl Hs Hp) as (c & Heq & HI2).
    { split; [done|]. by split_and!. }
    eexists. split; [|apply (Hne (Gone k))].
    set (w2 := on_session sid (with_items None) (drop_retention (se_items s) w)) in *.
    assert (w_session w2 !! sid = Some (with_items None s)) as Hs2.
    { rewrite Heq. cbn. by eapply list_lookup_insert_eq, lookup_lt_Some. }
    assert (w_threads w2 !! t = Some th) as Ht2 by by rewrite Heq.
    assert (w_closes w2 = w_closes w) as Hcl2 by by rewrite Heq.
    unfold unlock. rewrite (on_session_eq _ _ _ (with_items None s)) by done.
    rewrite <-(set_stage_plain t sid _ (w_sessions w2)) by done.
    eapply inv_stage with (p' := Gone k); try done.
    + cbn. congruence.
    + by left.
    + rewrite app_nil_r, Hcl2. split; [done|]. by split.
Qed.

(** ** Going on, and ending with an error *)

Ltac goes_on HI Ht :=
  eapply inv_goto; [exact HI | exact Ht
    | split_and!; [reflexivity | first [reflexivity | apply list_subseteq_nil] | reflexivity
                  | first [by left | by right]]
    | by intros ?? | discriminate].
Lemma good_fail ph ru w t th o e :
  Inv ph ru [] w → w_threads w !! t = Some th → task th = Some o → owns th = [] →
  good (finish t o (Err e) w).
Proof. intros HI Ht Hk Ho. exists ph, ru. by eapply inv_finish. Qed.
(** ... for a thread that has just given up what it owned. *)
Lemma good_fail_goto ph ru w t th o e :
  Inv ph ru [] (goto t th w) → (t < length (w_threads w))%nat → task th = Some o → owns th = [] →
  good (finish t o (Err e) w).
Proof.
  intros HI Ht Hk Ho. rewrite <-(finish_goto t o (Err e) th).
  eapply good_fail; [done|by apply list_lookup_insert_eq|done..].
Qed.

Lemma drop_threads r w : w_threads (drop_retention r w) = w_threads w.
Proof. by destruct r. Qed.
Lemma take_threads sid w : w_threads (take_items sid w) = w_threads w.
Proof. unfold take_items. destruct (_ !! _); [|done]. cbn. apply drop_threads. Qed.
Lemma release_threads t sid pc w o w1 :
  release_step t sid pc w = (o, w1) → w_threads w1 = w_threads w.
Proof.
  unfold release_step. destruct (w_session w !! sid) as [s|]; [|by intros [= <- <-]].
  destruct pc; [destruct (se_closed s)|destruct (se_lock s)|]; intros [= <- <-]; try done.
  cbn. apply take_threads.
Qed.

(** Nothing was answered with a session that was never handed out. *)
Lemma unknown_unanswered ph ru x w sid p o page :
  Inv ph ru x w → ph !! sid = Some p → known p = false →
  answered w o page → pg_session page ≠ new_uuid sid.
Proof.
  intros HI Hp Hk Ha Heq. destruct (iv_result _ _ _ _ HI _ _ Ha) as (i & s & p' & _ & Hi & Hk' & He & _).
  rewrite He in Heq. apply (inj new_uuid) in Heq as ->. congruence.
Qed.
Lemma owned_session ph ru x w t th sid st :
  Inv ph ru x w → w_threads w !! t = Some th → (sid, st) ∈ owns th →
  ph !! sid = Some (Owned t st) ∧ ∃ s, w_session w !! sid = Some s ∧
    session_ok (w_closes w).*1 sid s (Owned t st).
Proof.
  intros HI Ht Hin. pose proof (iv_owns _ _ _ _ HI _ _ _ _ Ht Hin) as Hp. split; [done|].
  destruct (lookup_lt_is_Some_2 (w_session w) sid) as [s Hs].
  { rewrite <-(iv_phases _ _ _ _ HI). by eapply lookup_lt_Some. }
  exists s. split; [done|]. by eapply iv_session.
Qed.

(** ** [open] *)

Lemma find_session_Ok w id target sid :
  find_session w id target = Ok sid →
  ∃ s, w_sessions w !! id = Some sid ∧ w_session w !! sid = Some s ∧ valid w s = true ∧
    tg_provider (se_target s) = tg_provider target.
Proof.
  unfold find_session. intros Hf.
  destruct (w_sessions w !! id) as [i|] eqn:Hi; cbn in Hf; [|done].
  destruct (w_session w !! i) as [s|] eqn:Hs; cbn in Hf; [|done].
  apply ensure_bind_Ok in Hf as [[[Hv _]%andb_true_iff Hp]%andb_true_iff [= <-]].
  apply Z.eqb_eq in Hp. eauto.
Qed.
Lemma opening_good w t op target previous request epoch pc a :
  good w → w_threads w !! t = Some (Opening op target previous request epoch pc) →
  good (opening_step t op target previous request epoch pc a w).
Proof.
  intros (ph & ru & HI) Ht. assert (t < length (w_threads w))%nat as Hlt by by eapply lookup_lt_Some.
  assert (good w) as Hg by by exists ph, ru.
  destruct pc as [|sid| | |sid|sid v|sid v b pc]; cbn [opening_step].
  - destruct a; [|done..]. case_match; [by eapply good_fail|]. case_match.
    + exists ph, ru. goes_on HI Ht.
    + destruct (find_session w previous target) as [sid|e]; [|by eapply good_fail].
      exists ph, ru. assert (w_threads (touch_session sid w) !! t =
        Some (Opening op target previous request epoch ORun)) as Ht' by done.
      pose proof (inv_touch ph ru [] w sid HI) as HI'. goes_on HI' Ht'.
  - destruct a; [|done..]. destruct (w_session w !! sid) as [s|]; [|done].
    destruct (se_lock s); [done|]. destruct (valid w s); [|by eapply good_fail].
    exists ph, ru. goes_on HI Ht.
  - destruct a as [|[fields|e]|]; [done| | |done].
    + exists ph, ru. goes_on HI Ht.
    + by eapply good_fail.
  - destruct a as [| |[batch|e]]; [done..| |by eapply good_fail].
    cbn zeta. destruct (validate_batch batch true) as [u|e]; eexists _, ru;
      (eapply (inv_new _ _ _ _ _ _ _ (mk_Session target epoch false (w_instant w)
         (mk_Page (new_uuid (w_uuids w)) 1 batch) None None)); try done).
    + intros q. cbn. by rewrite list_elem_of_singleton.
    + by left.
    + intros q. cbn. by intros ?%not_elem_of_nil.
    + by right.
  - destruct a; [|done..].
    destruct (owned_session _ _ _ _ _ _ sid Fresh HI Ht) as (Hp & s & Hs & Hn & Hc & Hit & Hcl); [by left|].
    rewrite Hs. destruct (retain_batch target _ _ w) as [[items|e] w1] eqn:Hr.
    + destruct (inv_retain_batch _ _ _ _ _ _ _ _ HI Hr) as (c & -> & HI1 & Hcov).
      destruct (iv_about _ _ _ _ HI _ _ sid _ Ht ltac:(by left)) as (s1 & Hs1 & Htg). simplify_eq.
      eexists _, ru. unfold put_items. cbn [w_session set_library]. rewrite Hs. rewrite Hit. cbn [drop_retention].
      rewrite (on_session_eq _ _ _ s) by done.
      rewrite <-(set_stage_plain t sid _ (w_sessions (set_library c w))) by done.
      eapply inv_stage with (p' := Owned t (Vetted true)) (rest := []) (x := [hold items]);
        try done; [by left| |by unfold holds; rewrite Hit].
      rewrite app_nil_r. split; [done|]. split_and!; [done| |done].
      intros _. exists items. split; [done|]. cbn. by rewrite Htg.
    + destruct (inv_retain_batch_Err _ _ _ _ _ _ _ _ HI Hr) as (c & -> & HI1).
      eexists _, ru. match goal with |- Inv _ _ _ ?w2 => replace w2 with
        (set_stage t sid s [] (w_sessions (set_library c w)) (Opening op target previous request epoch
           (OInsert sid (Err e))) (set_library c w)) end.
      2:{ rewrite set_stage_plain by done. cbn. by rewrite list_insert_id. }
      eapply inv_stage with (p' := Owned t (Vetted false)) (rest := []) (x := []); try done; [by left|].
      rewrite app_nil_r. by split.
  - destruct a; [|done..].
    destruct (owned_session _ _ _ _ _ _ sid (Vetted (is_ok v)) HI Ht) as (Hp & s & Hs & Hn & Hc & Hcov & Hcl);
      [by left|].
    rewrite Hs. case_match eqn:Hb.
    + apply andb_true_iff in Hb as [[Hv Hva]%andb_true_iff Hsz%Z.ltb_lt].
      rewrite Hv in Hcov, Hp. rewrite Hn.
      rewrite <-(finish_goto t op _ (Opening op target previous request epoch ODefinition)).
      eexists (<[sid := Listed]> ph), ru. eapply inv_finish with
        (th := Opening op target previous request epoch ODefinition).
      * eapply inv_list; try done; [cbn; by rewrite Hv|]. unfold valid in Hva. by destruct (w_stopped w).
      * by apply list_lookup_insert_eq.
      * done.
      * done.
      * intros page [= <-]. split.
        -- exists sid, s, Listed. split_and!; [done|by eapply list_lookup_insert_eq, lookup_lt_Some|done..].
        -- intros o page' Ha Heq. exfalso. rewrite Hn in Heq.
           by eapply (unknown_unanswered ph ru [] w sid _ o page').
    + eexists _, ru. match goal with |- Inv _ _ _ (goto t ?th _) => replace (goto t th w) with
        (set_stage t sid s [] (w_sessions w) th w) end.
      2:{ rewrite set_stage_plain by done. rewrite list_insert_id by done. by destruct w. }
      eapply inv_stage with (p' := Owned t (Leaving false Swap)) (rest := []); try done; [by left|].
      rewrite app_nil_r. by split.
  - destruct (release_step t sid pc w) as [[pc'|] w1] eqn:Hr.
    + edestruct inv_release as (ph' & HI' & _); [exact HI|exact Ht|reflexivity| | | |exact Hr| |];
        cycle -1; [by exists ph', ru|done..].
    + edestruct inv_release with (th' := Opening op target previous request epoch ODefinition)
        as (ph' & HI' & _); [exact HI|exact Ht|reflexivity| | | |exact Hr| |]; [done..|].
      assert (t < length (w_threads w1))%nat.
      { by rewrite (release_threads _ _ _ _ _ _ Hr). }
      destruct v as [u|e]; [destruct b|]; eapply good_fail_goto; done.
Qed.

(** ** [next] *)

Lemma on_session_goto sid f t th w : on_session sid f (goto t th w) = goto t th (on_session sid f w).
Proof. done. Qed.
Lemma on_session_twice sid f g w :
  on_session sid f (on_session sid g w) = on_session sid (f ∘ g) w.
Proof.
  unfold on_session, set_session. cbn. f_equal. apply list_eq. intros i.
  destruct (decide (i = sid)) as [->|Hne].
  - rewrite !list_lookup_alter_eq. by destruct (w_session w !! sid).
  - by rewrite !list_lookup_alter_ne.
Qed.

(** A session open to its continuation: what it was handed out as still stands. *)
Lemma followed_session ph ru x w t op target sid e current pc :
  Inv ph ru x w → w_threads w !! t = Some (Continuing op target sid e current pc) →
  ∃ s p, w_session w !! sid = Some s ∧ ph !! sid = Some p ∧ known p = true ∧
    session_ok (w_closes w).*1 sid s p ∧ tg_provider (se_target s) = tg_provider target ∧
    (pc ≠ NLock → se_lock s = Some t ∧ pg_version (se_page s) = e).
Proof.
  intros HI Ht. destruct (iv_follows _ _ _ _ HI _ _ sid Ht eq_refl) as (p & Hp & Hk).
  destruct (iv_about _ _ _ _ HI _ _ sid (tg_provider target) Ht) as (s & Hs & Htg); [by left|].
  exists s, p. split_and!; try done; [by eapply iv_session|].
  intros Hpc. destruct (iv_holding _ _ _ _ HI _ _ sid e Ht) as (s1 & ? & ? & ?);
    [by destruct pc|by simplify_eq].
Qed.

(** The end of a continuation that holds the lock. *)
Lemma inv_leave ph ru x x' w t op target sid e current pc s s' p :
  Inv ph ru x w → w_threads w !! t = Some (Continuing op target sid e current pc) → pc ≠ NLock →
  w_session w !! sid = Some s → ph !! sid = Some p →
  session_ok (w_closes w).*1 sid s' p → tg_provider (se_target s') = tg_provider (se_target s) →
  pg_version (se_page s) ≤ pg_version (se_page s') →
  x' ++ holds s' ≡ₚ x ++ holds s →
  Inv ph ru x' (goto t (Continuing op target sid e current NLock)
    (set_session (<[sid := s']> (w_session w)) w)).
Proof.
  intros HI Ht Hpc Hs Hp Hok Htg Hv Hx.
  destruct (followed_session _ _ _ _ _ _ _ _ _ _ _ HI Ht) as (s0 & p0 & ? & ? & _ & _ & _ & Hl).
  simplify_eq. destruct (Hl Hpc) as [Hlock He].
  assert (Inv ph ru x (goto t (Continuing op target sid e current NLock) w)) as HI1.
  { goes_on HI Ht. }
  pose proof (inv_session ph ru x x' _ sid s s' p HI1) as HI2. cbn in HI2.
  apply HI2; clear HI2; try done.
  intros t' th' e' Ht' Hh.
  apply (goto_lookup t (Continuing op target sid e current NLock)) in Ht' as [[-> ->]|[Hne Ht']].
  - done.
  - destruct (iv_holding _ _ _ _ HI _ _ _ _ Ht' Hh) as (s1 & ? & ? & ?). congruence.
Qed.
Lemma leave_error ph ru w t op target sid e current pc s f p err :
  Inv ph ru [] w → w_threads w !! t = Some (Continuing op target sid e current pc) → pc ≠ NLock →
  w_session w !! sid = Some s → ph !! sid = Some p →
  (f = with_lock None ∨ ∃ state, f = with_lock None ∘ with_page (with_state state (se_page s))) →
  good (finish t op (Err err) (on_session sid f w)).
Proof.
  intros HI Ht Hpc Hs Hp Hf. rewrite (on_session_eq _ _ _ s) by done.
  eapply (good_fail_goto ph ru _ _ (Continuing op target sid e current NLock)); [|cbn; by eapply lookup_lt_Some|done..].
  pose proof (iv_session _ _ _ _ HI _ _ _ Hs Hp) as Hok.
  eapply inv_leave; try done; [| | |].
  - destruct Hf as [->|[state ->]]; (destruct Hok as [Hn Hok]; split; [done|]).
    all: destruct p as [? [| |? []]| |]; try done.
    all: exfalso; destruct Hok as (_ & Hl & _).
    all: destruct (followed_session _ _ _ _ _ _ _ _ _ _ _ HI Ht) as (s0 & p0 & ? & ? & _ & _ & _ & Hlk).
    all: simplify_eq; destruct (Hlk Hpc) as [Hlock _].
    all: assert (t0 = t) as -> by congruence.
    all: destruct (iv_owned _ _ _ _ HI _ _ _ Hp) as (th & Hth & Hin); simplify_eq.
    all: by apply not_elem_of_nil in Hin.
  - by destruct Hf as [->|[state ->]].
  - by destruct Hf as [->|[state ->]].
  - by destruct Hf as [->|[state ->]].
Qed.
Lemma continuing_good w t op target sid expected current pc a :
  good w → w_threads w !! t = Some (Continuing op target sid expected current pc) →
  good (continuing_step t op target sid expected current pc a w).
Proof.
  intros (ph & ru & HI) Ht. assert (t < length (w_threads w))%nat as Hlt by by eapply lookup_lt_Some.
  assert (good w) as Hg by by exists ph, ru.
  destruct (followed_session _ _ _ _ _ _ _ _ _ _ _ HI Ht) as (s & p & Hs & Hp & Hk & Hok & Htg & Hl).
  unfold continuing_step. rewrite Hs. destruct pc as [|retained|retained batch].
  - destruct a; [|done..]. destruct (se_lock s) eqn:Hlock; [done|].
    destruct (valid w s); [|by eapply good_fail]. cbn [negb].
    destruct (pg_version (se_page s) =? expected) eqn:He; [|by eapply good_fail].
    apply Z.eqb_eq in He. cbn [negb].
    destruct (qb_exhausted _); [by eapply good_fail|].
    exists ph, ru. rewrite (on_session_eq _ _ _ s) by done.
    assert (Inv ph ru [] (set_session (<[sid := with_lock (Some t) s]> (w_session w)) w)) as HI1.
    { eapply inv_session; try done.
      - destruct Hok as [Hn Hok]. split; [done|].
        destruct p as [? [| |? []]| |]; try done. cbn in Hok. naive_solver congruence.
      - intros t' th' e' Ht' Hh. destruct (iv_holding _ _ _ _ HI _ _ _ _ Ht' Hh) as (s1 & ? & ? & ?).
        congruence. }
    eapply inv_goto; [exact HI1|exact Ht| |intros i e [= <- <-]|done].
    + split_and!; [done|reflexivity|done|by right].
    + exists (with_lock (Some t) s). split; [|done]. cbn. by eapply list_lookup_insert_eq, lookup_lt_Some.
  - destruct a as [| |[batch|e]]; [done..| |].
    + destruct (valid w s) eqn:Hv; cbn [negb].
      * destruct (validate_batch batch false) as [u|e]; [|by eapply leave_error; eauto].
        case_match; [by eapply leave_error; eauto|]. exists ph, ru. eapply inv_goto; [exact HI|exact Ht| | |done].
        -- split_and!; [done|reflexivity|done|by right].
        -- intros i e [= <- <-]. destruct Hl; [done|]. eauto.
      * unfold unlock. rewrite on_session_twice. eapply leave_error; eauto. 
    + by eapply leave_error; eauto.
  - destruct a; [|done..]. destruct (retain_batch target batch retained w) as [[items|e] w1] eqn:Hr.
    2:{ destruct (inv_retain_batch_Err _ _ _ _ _ _ _ _ HI Hr) as (c & -> & HI1).
        by eapply leave_error; eauto. }
    destruct (inv_retain_batch _ _ _ _ _ _ _ _ HI Hr) as (c & -> & HI1 & Hcov).
    destruct (valid (set_library c w) s) eqn:Hv; cbn [negb].
    2:{ destruct (inv_drop ph ru _ (Some items) HI1) as (c2 & Heq & HI2).
        unfold unlock. rewrite drop_on_session, on_session_twice, Heq. rewrite Heq in HI2.
        eapply leave_error; eauto. }
    unfold put_items. cbn [w_session set_library]. rewrite Hs.
    set (page := mk_Page _ _ _). set (s' := with_lock None (with_page page (with_items (Some items) s))).
    set (vth := Continuing op target sid expected current NLock).
    assert (session_ok (w_closes w).*1 sid s' p) as Hok'.
    { unfold valid in Hv. destruct (se_closed s) eqn:Hc; [by rewrite andb_false_r in Hv|].
      destruct Hok as [Hn Hok]. split; [done|].
      destruct p as [t' [|b|k []]| |k]; cbn in *; try naive_solver congruence.
      destruct Hok as (_ & _ & Hcl). split_and!; [done| |done]. exists items. split; [done|].
      cbn. by rewrite Htg. }
    assert (Inv ph ru (holds s) (goto t vth (set_session (<[sid := s']> (w_session w)) (set_library c w)))) as HI2.
    { eapply (inv_leave ph ru [hold items] (holds s) (set_library c w)); try done.
      - cbn. lia.
      - cbn. apply Permutation_app_comm. }
    destruct (inv_drop ph ru _ (se_items s) HI2) as (c3 & Heq & HI3).
    assert (unlock sid (on_session sid (with_page page) (on_session sid (with_items (Some items))
              (drop_retention (se_items s) (set_library c w)))) =
            drop_retention (se_items s) (set_session (<[sid := s']> (w_session w)) (set_library c w))) as ->.
    { unfold unlock. rewrite !on_session_twice, <-drop_on_session. f_equal. exact (on_session_eq sid _ (set_library c w) s Hs). }
    rewrite <-(finish_goto t op _ vth).
    replace (goto t vth (drop_retention _ _)) with
      (drop_retention (se_items s) (goto t vth (set_session (<[sid := s']> (w_session w)) (set_library c w)))).
    2:{ by destruct (se_items s). }
    exists ph, ru. rewrite Heq in HI3 |- *. eapply (inv_finish _ _ _ _ _ vth); [done| |done..|].
    { cbn. by apply list_lookup_insert_eq. }
    intros page' [= <-]. split.
    + exists sid, s', p. split_and!; [|done..|by destruct Hok|by cbn].
      cbn. by eapply list_lookup_insert_eq, lookup_lt_Some.
    + intros o page' Ha Heqs. cbn in Heqs.
      destruct (iv_result _ _ _ _ HI o page' Ha) as (i & s1 & p1 & Hs1 & _ & _ & Hn1 & Hv1).
      destruct Hok as [Hn _]. rewrite Hn1, Hn in Heqs. apply (inj new_uuid) in Heqs as ->.
      simplify_eq. cbn. lia.
Qed.

(** ** Tasks that are dropped *)

Lemma opening_timeout_good w t op target previous request epoch pc :
  good w → w_threads w !! t = Some (Opening op target previous request epoch pc) →
  good (opening_timeout t op pc w).
Proof.
  intros (ph & ru & HI) Ht. assert (t < length (w_threads w))%nat as Hlt by by eapply lookup_lt_Some.
  assert (good w) as Hg by by exists ph, ru. set (vth := Opening op target previous request epoch ODefinition).
  destruct pc as [|sid| | |sid|sid v|sid v b pc]; cbn [opening_timeout]; unfold abandon;
    [done|by eapply good_fail..| |done|].
  - destruct (owned_session _ _ _ _ _ _ sid Fresh HI Ht) as (Hp & s & Hs & Hn & Hc & Hit & Hcl); [by left|].
    eapply (good_fail_goto (<[sid := Gone false]> ph) ru w t vth); [|done..].
    replace (goto t vth w) with (set_stage t sid s [] (w_sessions w) vth w).
    2:{ rewrite set_stage_plain by done. rewrite list_insert_id by done. by destruct w. }
    eapply inv_stage with (p' := Gone false) (rest := []); try done; by left.
  - destruct pc; [done| |].
    + destruct (owned_session _ _ _ _ _ _ sid (Leaving false Lock) HI Ht) as (Hp & s & Hs & Hn & Hok); [by left|].
      destruct (inv_items ph ru [] w sid s _ None HI eq_refl Hs Hp) as (c & Heq & HI2); [by split|].
      eapply (good_fail_goto (<[sid := Gone false]> ph) ru _ t vth); [|by rewrite take_threads|done..].
      unfold take_items. rewrite Hs. 
      set (w2 := on_session sid (with_items None) (drop_retention (se_items s) w)) in *.
      assert (w_session w2 !! sid = Some (with_items None s)) as Hs2.
      { rewrite Heq. cbn. by eapply list_lookup_insert_eq, lookup_lt_Some. }
      assert (w_threads w2 !! t = w_threads w !! t) as Ht2 by by rewrite Heq.
      rewrite Ht in Ht2.
      replace (goto t vth w2) with (set_stage t sid (with_items None s) [] (w_sessions w2) vth w2).
      2:{ rewrite set_stage_plain by done. rewrite list_insert_id by done. by destruct w2. }
      eapply inv_stage with (p' := Gone false) (rest := []); try done; by left.
    + assert (release_step t sid Closing w = (None, unlock sid (take_items sid w))) as Hr.
      { unfold release_step. destruct (owned_session _ _ _ _ _ _ sid (Leaving false Closing) HI Ht)
          as (Hp & s & Hs & _); [by left|]. by rewrite Hs. }
      edestruct (inv_release ph ru w t) with (th' := vth) as (ph' & HI' & _);
        [done|exact Ht|reflexivity|done|done|done|exact Hr|done|].
      eapply (good_fail_goto ph' ru _ t vth); [done|cbn; by rewrite take_threads|done..].
Qed.
Lemma continuing_timeout_good w t op target sid expected current pc :
  good w → w_threads w !! t = Some (Continuing op target sid expected current pc) →
  good (continuing_timeout t op sid pc w).
Proof.
  intros (ph & ru & HI) Ht.
  destruct (followed_session _ _ _ _ _ _ _ _ _ _ _ HI Ht) as (s & p & Hs & Hp & _).
  destruct pc; cbn [continuing_timeout]; unfold abandon, unlock;
    [by eapply good_fail|by eapply leave_error; eauto..].
Qed.

(** ** Requests that wait *)

Lemma good_goto w t th th' :
  good w → w_threads w !! t = Some th → idle th → idle th' → th ≠ Collecting → good (goto t th' w).
Proof.
  intros (ph & ru & HI) Ht (Ho & Ha & Hk & Hf & Hh) (Ho' & Ha' & Hk' & Hf' & Hh') Hc.
  exists ph, ru. eapply inv_goto; [done..| |intros ??; congruence|done].
  split_and!; [congruence|rewrite Ha'; apply list_subseteq_nil|congruence|by left].
Qed.
Lemma good_touch w sid : good w → good (touch_session sid w).
Proof. intros (ph & ru & HI). exists ph, ru. by apply inv_touch. Qed.
Lemma wait_open_good w t op :
  good w → w_threads w !! t = Some (WaitOpen op) → good (wait_open_step t op w).
Proof.
  intros Hg Ht. unfold wait_open_step, answer.
  repeat case_match; try done; by eapply good_goto.
Qed.
Lemma wait_next_good w t op session target :
  good w → w_threads w !! t = Some (WaitNext op session target) →
  good (wait_next_step t op session target w).
Proof.
  intros Hg Ht. unfold wait_next_step, answer.
  repeat case_match; try done; eapply good_goto; try done; by apply good_touch.
Qed.

(** ** Removal *)

Lemma good_spawn w th : good w → idle th → good (spawn th w).
Proof. intros (ph & ru & HI) Hi. exists ph, ru. by apply inv_spawn. Qed.
Lemma spawn_hand_over th table w :
  spawn th (set_sessions table w) =
  hand_over (length (w_threads w)) th table (spawn (Finished None) w).
Proof.
  unfold spawn, hand_over, goto, set_threads. cbn. f_equal.
  by rewrite insert_app_r_alt, Nat.sub_diag by lia.
Qed.
Lemma remove_spec ph ru x p w sids w' :
  Inv ph ru x w → remove_sessions p w = (sids, w') →
  NoDup sids ∧ (∀ sid, sid ∈ sids → ph !! sid = Some Listed) ∧
  ∃ table, w' = set_sessions table w ∧
    (∀ n i, table !! n = Some i ↔ w_sessions w !! n = Some i ∧ i ∉ sids) ∧
    ((∀ s, p s = true) → table = ∅).
Proof.
  intros HI. unfold remove_sessions. intros [= <- <-].
  assert (∀ i, i ∈ (map_to_list (sieve (λ _ sid, is_some_and (w_session w !! sid) p)
                    (w_sessions w))).*2 ↔
            ∃ n, w_sessions w !! n = Some i ∧ is_some_and (w_session w !! i) p = true) as Hin.
  { intros i. rewrite list_elem_of_fmap. split.
    - intros ([n j] & -> & Hnj). apply elem_of_map_to_list, lookup_sieve in Hnj. eauto.
    - intros (n & Hn & Hp). exists (n, i). split; [done|]. apply elem_of_map_to_list, lookup_sieve. auto. }
  split_and!.
  - apply NoDup_fmap_2_strong; [|apply NoDup_map_to_list].
    intros [n1 i1] [n2 i2] Hn1%elem_of_map_to_list%lookup_sieve
      Hn2%elem_of_map_to_list%lookup_sieve. cbn. intros <-. destruct Hn1 as [Hn1 _], Hn2 as [Hn2 _].
    apply (iv_table _ _ _ _ HI) in Hn1 as [_ ->], Hn2 as [_ ->]. done.
  - intros i (n & Hn & _)%Hin. by apply (iv_table _ _ _ _ HI) in Hn as [? _].
  - eexists. split_and!; [done| |].
    + intros n i. rewrite lookup_sieve, Hin. split; intros [Hn Hp]; (split; [done|]).
      * intros (n' & _ & Hp'). by rewrite Hp' in Hp.
      * destruct (is_some_and (w_session w !! i) p) eqn:Hp'; [|done]. exfalso. eauto.
    + intros Hp. apply map_empty. intros n.
      destruct (sieve _ _ !! n) as [i|] eqn:Hn; [|done]. exfalso.
      apply lookup_sieve in Hn as [Hn Hnp].
      apply (iv_table _ _ _ _ HI) in Hn as [Hl _]. apply lookup_lt_Some in Hl.
      rewrite (iv_phases _ _ _ _ HI) in Hl. apply lookup_lt_is_Some_2 in Hl as [s Hs].
      rewrite Hs in Hnp. cbn in Hnp. by rewrite Hp in Hnp.
Qed.
Lemma collecting_good w t :
  good w → w_threads w !! t = Some Collecting → good (collecting_step t w).
Proof.
  intros (ph & ru & HI) Ht. unfold collecting_step.
  destruct (remove_sessions _ w) as [sids w'] eqn:Hr.
  destruct (remove_spec _ _ _ _ _ _ _ HI Hr) as (Hnd & Hl & table & -> & Htb & Hall).
  exists (take_over t sids ph), ru. eapply inv_remove; try done.
  intros Hs _. apply Hall. intros s. unfold valid. by rewrite Hs.
Qed.
Lemma releasing_good w t sids pc prune :
  good w → w_threads w !! t = Some (Releasing sids pc prune) →
  good (releasing_step t sids pc prune w).
Proof.
  intros Hg Ht. destruct sids as [|sid rest]; cbn [releasing_step].
  - destruct prune; [|by eapply good_goto].
    eapply (good_goto (retain_operations w)); [|done..].
    destruct Hg as (ph & ru & HI). exists ph, ru. by apply inv_operations.
  - destruct Hg as (ph & ru & HI). destruct (release_step t sid pc w) as [[pc'|] w1] eqn:Hr.
    + edestruct inv_release as (ph' & HI' & _); [exact HI|exact Ht|reflexivity| | | |exact Hr| |];
        cycle -1; [by exists ph', ru|done..].
    + edestruct inv_release with (th' := Releasing rest Swap prune)
        as (ph' & HI' & _); [exact HI|exact Ht|reflexivity| | | |exact Hr| |];
        [done..|by destruct rest|by exists ph', ru].
Qed.

(** ** Requests *)

Lemma operation_spec key fp p w r w' :
  operation key fp p w = (r, w') →
  match r with
  | Ok (o, true) => o = length (w_operation w) ∧
      ∃ m a, w' = set_operations m (set_operation (w_operation w ++ [a]) w) ∧ op_result a = None
  | _ => ∃ m, w' = set_operations m w
  end.
Proof.
  unfold operation. destruct (w_stopped w || _).
  { intros [= <- <-]. exists (w_operations w). by destruct w. }
  destruct (w_operations (retain_operations w) !! key) as [o|].
  - destruct (w_operation (retain_operations w) !! o) as [op|].
    + destruct (negb _ || _); [intros [= <- <-]; by eexists|].
      destruct (negb _); intros [= <- <-]; by eexists.
    + intros [= <- <-]. by eexists.
  - destruct (_ <=? _); intros [= <- <-]; [by eexists|].
    split; [done|]. by eexists _, (mk_Operation _ _ _ _ _).
Qed.
Lemma open_good w target id previous request :
  good w → good (open target id previous request w).
Proof.
  intros Hg. unfold open. destruct (check_operation_id id (w_system w)); [|by apply good_spawn].
  cbn zeta. destruct (operation _ _ _ w) as [[[o []]|e] w'] eqn:Ho;
    apply operation_spec in Ho; destruct Hg as (ph & ru & HI).
  - destruct Ho as (-> & m & op & -> & Hr). apply good_spawn; [|done].
    exists ph, (ru ++ [length (w_threads w)]).
    apply (inv_operations _ _ _ (add_task _ op w)). apply inv_task; try done.
    intros ??. by intros ?%not_elem_of_nil.
  - destruct Ho as (m & ->). apply good_spawn; [|done]. exists ph, ru. by apply inv_operations.
  - destruct Ho as (m & ->). apply good_spawn; [|done]. exists ph, ru. by apply inv_operations.
Qed.
Lemma next_good w target session id expected current :
  good w → good (next target session id expected current w).
Proof.
  intros Hg. unfold next. destruct (check_operation_id id (w_system w)); [|by apply good_spawn].
  cbn [mbind result_bind]. destruct (find_session w session target) as [sid|e] eqn:Hf;
    [|by apply good_spawn].
  cbn zeta. apply find_session_Ok in Hf as (s & Hn & Hs & _ & Htg).
  destruct Hg as (ph & ru & HI). apply (inv_touch _ _ _ _ sid) in HI.
  destruct (operation _ _ _ (touch_session sid w)) as [[[o []]|e] w'] eqn:Ho;
    apply operation_spec in Ho.
  - destruct Ho as (-> & m & op & -> & Hr). apply good_spawn; [|done].
    exists ph, (ru ++ [length (w_threads (touch_session sid w))]).
    apply (inv_operations _ _ _ (add_task _ op (touch_session sid w))). apply inv_task; try done.
    + intros i p. cbn. rewrite list_elem_of_singleton. intros [= -> ->].
      exists (touch (w_instant w) s). split; [|done]. by rewrite list_lookup_alter_eq, Hs.
    + intros i [= <-]. exists Listed. split; [|done]. by apply (iv_table _ _ _ _ HI) in Hn as [? _].
  - destruct Ho as (m & ->). apply good_spawn; [|done]. exists ph, ru. by apply inv_operations.
  - destruct Ho as (m & ->). apply good_spawn; [|done]. exists ph, ru. by apply inv_operations.
Qed.
Lemma hand_over_good w ph ru sids table prune :
  Inv ph ru [] w → NoDup sids → (∀ sid, sid ∈ sids → ph !! sid = Some Listed) →
  (∀ n i, table !! n = Some i ↔ w_sessions w !! n = Some i ∧ i ∉ sids) →
  good (spawn (Releasing sids Swap prune) (set_sessions table w)).
Proof.
  intros HI Hnd Hl Htb. rewrite spawn_hand_over. eexists _, ru.
  eapply inv_remove with (th := Finished None); try done.
  - by apply inv_spawn.
  - cbn. by rewrite lookup_app_r, Nat.sub_diag by lia.
Qed.
Lemma close_good w id : good w → good (close id w).
Proof.
  intros (ph & ru & HI). unfold close. destruct (w_sessions w !! id) as [sid|] eqn:Hid; [|by exists ph, ru].
  pose proof (proj1 (iv_table _ _ _ _ HI _ _) Hid) as [Hl ->].
  apply (hand_over_good w ph ru); [done| | |].
  - apply NoDup_singleton.
  - intros i ->%list_elem_of_singleton. done.
  - intros n i. rewrite lookup_delete_Some, list_elem_of_singleton. split.
    + intros [Hne Hn]. split; [done|]. intros ->. apply Hne.
      by apply (iv_table _ _ _ _ HI) in Hn as [_ ->].
    + intros [Hn Hne]. split; [|done]. intros <-. congruence.
Qed.
Lemma invalidate_good w p : good w → good (invalidate p w).
Proof.
  intros (ph & ru & HI). unfold invalidate. destruct (remove_sessions _ w) as [sids w'] eqn:Hr.
  destruct (remove_spec _ _ _ _ _ _ _ HI Hr) as (Hnd & Hl & table & -> & Htb & _).
  by eapply hand_over_good.
Qed.
Lemma shutdown_good w : good w → good (shutdown w).
Proof.
  intros (ph & ru & HI). exists ph, ru. unfold shutdown, collect.
  apply (inv_stop _ _ _ (spawn Collecting w) (length (w_threads w))); [by apply inv_spawn|].
  cbn. by rewrite lookup_app_r, Nat.sub_diag by lia.
Qed.

Lemma step_good w l : good w → good (step w l).
Proof.
  intros Hg. destruct l; cbn [step].
  - by apply open_good.
  - by apply next_good.
  - by apply close_good.
  - by apply good_spawn.
  - by apply invalidate_good.
  - by apply shutdown_good.
  - unfold run. destruct (w_threads w !! t) as [[]|] eqn:Ht; try done.
    + by apply opening_good.
    + by apply continuing_good.
    + by apply wait_open_good.
    + by apply wait_next_good.
    + by apply collecting_good.
    + by apply releasing_good.
  - unfold timeout. destruct (w_threads w !! t) as [[]|] eqn:Ht; try done.
    + by eapply opening_timeout_good.
    + by eapply continuing_timeout_good.
  - destruct Hg as (ph & ru & HI). exists ph, ru. by apply inv_serve.
  - destruct Hg as (ph & ru & HI). exists ph, ru. by apply inv_epochs.
  - destruct Hg as (ph & ru & HI). exists ph, ru. by apply inv_registry.
  - destruct Hg as (ph & ru & HI). exists ph, ru. by apply inv_clocks.
Qed.
Lemma initial_good epochs registry c :
  c_handles c = [] → (∀ p, ps_retained (state p (c_sync c)) = ∅) → good (initial epochs registry c).
Proof.
  intros Hh Hr. exists [], []. split; try done.
  - intros n sid. cbn. rewrite lookup_empty. split; [done|by intros [? _]].
  - by intros o page (a & ? & _).
  - by intros o1 o2 p1 p2 (a & ? & _).
  - cbn. rewrite Hh. intros p i. by rewrite Hr.
  - constructor.
  - by intros sid ?%not_elem_of_nil.
Qed.
Lemma reachable_good w : reachable w → good w.
Proof.
  intros (epochs & registry & c & l & Hh & Hr & ->). unfold steps_all.
  pose proof (initial_good epochs registry c Hh Hr) as Hg. revert Hg.
  generalize (initial epochs registry c). induction l as [|q l IH]; intros w Hg; [done|].
  apply IH. by apply step_good.
Qed.
End deeds.
