(* ===== verification/Rest.v ===== *)
(** * Radio sessions: the threads come to rest

    No request and no task waits for ever: whatever has been going on, the threads that are
    there can be run to their ends, one step at a time. *)
From S2P Require Import Prelude Text Tables Coordinator Batch SyncRun Effects Sessions Retained Radio Ledger RadioSteps.
From stdpp Require Import options.
#[local] Set Default Proof Using "Type*".

Open Scope Z_scope.
Open Scope list_scope.

#[export] Instance ReleasePc_eq_dec : EqDecision ReleasePc.
Proof. solve_decision. Defined.

(** A thread that has the session's lock. *)
Definition locks (th : Thread) (sid : nat) : Prop :=
  (∃ e, holding th = Some (sid, e)) ∨ ∃ k, (sid, Leaving k Closing) ∈ owns th.
Definition awaits (th : Thread) : option nat :=
  match th with WaitOpen o | WaitNext o _ _ => Some o | _ => None end.

(** Every lock is held by a thread that will give it back, and whoever waits, waits for an
    operation that exists. *)
Record Tidy (w : World) : Prop := {
  ty_locked sid s t : w_session w !! sid = Some s → se_lock s = Some t →
    ∃ th, w_threads w !! t = Some th ∧ locks th sid;
  ty_awaits t th o : w_threads w !! t = Some th → awaits th = Some o →
    (o < length (w_operation w))%nat
}.

Definition free (th : Thread) : Prop := ∀ sid, ¬ locks th sid.
Lemma free_spec th :
  holding th = None → (∀ sid k, (sid, Leaving k Closing) ∉ owns th) → free th.
Proof. intros Hh Ho sid [[e He]|[k Hk]]; [congruence|by eapply Ho]. Qed.

Section rest.
Context `{Environment} `{BatchCodec} `{RadioLibrary} `{!Inj (=) (=) new_uuid}.

(** ** What keeps it tidy *)

Lemma tidy_goto w t th th' :
  Tidy w → w_threads w !! t = Some th → (∀ sid, locks th sid → locks th' sid) →
  (∀ o, awaits th' = Some o → awaits th = Some o) → Tidy (goto t th' w).
Proof.
  intros [Hl Ha] Ht Hlk Haw. split.
  - intros sid s t' Hs Ht'. destruct (Hl sid s t' Hs Ht') as (th1 & Hth1 & Hlk1).
    destruct (decide (t' = t)) as [->|Hne].
    + exists th'. split; [by eapply goto_same|]. apply Hlk. congruence.
    + exists th1. by rewrite goto_other.
  - intros t' th1 o Ht'%goto_lookup Ho. destruct Ht' as [[-> ->]|[? ?]]; eauto.
Qed.
Lemma tidy_goto_free w t th th' :
  Tidy w → w_threads w !! t = Some th → free th → awaits th' = None → Tidy (goto t th' w).
Proof.
  intros HT Ht Hf Ha. eapply tidy_goto; [done..| |intros o; congruence].
  intros sid Hl. by apply Hf in Hl.
Qed.
Lemma tidy_spawn w th :
  Tidy w → (∀ o, awaits th = Some o → (o < length (w_operation w))%nat) → Tidy (spawn th w).
Proof.
  intros [Hl Ha] Haw. split.
  - intros sid s t' Hs Ht'. destruct (Hl sid s t' Hs Ht') as (th1 & Hth1 & Hlk1).
    exists th1. split; [|done]. cbn. by apply lookup_app_l_Some.
  - intros t' th1 o [Ht'|[_ Ht']]%lookup_app_Some Ho; [by eauto|].
    apply list_lookup_singleton_Some in Ht' as [_ <-]. by apply Haw.
Qed.
(** What it does not mention, and sessions that lose their lock or keep it. *)
Lemma tidy_same w w' :
  Tidy w → w_threads w' = w_threads w →
  (length (w_operation w) ≤ length (w_operation w'))%nat →
  (∀ sid s', w_session w' !! sid = Some s' → se_lock s' ≠ None →
     ∃ s, w_session w !! sid = Some s ∧ se_lock s' = se_lock s) → Tidy w'.
Proof.
  intros [Hl Ha] Hth Ho Hs. split; rewrite Hth.
  - intros sid s' t Hs' Ht. destruct (Hs _ _ Hs') as (s & Hs0 & He); [congruence|].
    eapply Hl; [done|congruence].
  - intros t th o Ht Haw. specialize (Ha _ _ _ Ht Haw). lia.
Qed.
Lemma tidy_on_session w sid f :
  Tidy w → (∀ s, se_lock (f s) = None ∨ se_lock (f s) = se_lock s) → Tidy (on_session sid f w).
Proof.
  intros HT Hf. apply (tidy_same w); [done..|]. intros i s' Hi Hn. cbn in Hi.
  destruct (decide (i = sid)) as [->|Hne].
  - rewrite list_lookup_alter_eq in Hi. apply fmap_Some in Hi as (s & Hs & ->).
    exists s. split; [done|]. by destruct (Hf s).
  - rewrite list_lookup_alter_ne in Hi by done. eauto.
Qed.
Lemma tidy_drop w r : Tidy w → Tidy (drop_retention r w).
Proof. intros HT. apply (tidy_same w); destruct r; eauto. Qed.
Lemma tidy_take w sid : Tidy w → Tidy (take_items sid w).
Proof.
  intros HT. unfold take_items. destruct (w_session w !! sid); [|done].
  apply tidy_on_session; [by apply tidy_drop|by right].
Qed.
Lemma tidy_put w sid r : Tidy w → Tidy (put_items sid r w).
Proof.
  intros HT. unfold put_items. destruct (w_session w !! sid); [|done].
  apply tidy_on_session; [by apply tidy_drop|by right].
Qed.
(** A thread takes a free lock, or gives back the only one it has. *)
Lemma tidy_lock w t th th' sid s :
  Tidy w → w_threads w !! t = Some th → w_session w !! sid = Some s →
  free th → locks th' sid → awaits th' = None →
  Tidy (goto t th' (on_session sid (with_lock (Some t)) w)).
Proof.
  intros [Hl Ha] Ht Hs Hf Hlk Haw. split.
  - intros i s' t' Hi Ht'. cbn in Hi. destruct (decide (i = sid)) as [->|Hne].
    + rewrite list_lookup_alter_eq, Hs in Hi. cbn in Hi. simplify_eq. cbn in Ht'. simplify_eq.
      exists th'. split; [|done]. by eapply goto_same.
    + rewrite list_lookup_alter_ne in Hi by done. destruct (Hl i s' t' Hi Ht') as (th1 & Hth1 & Hlk1).
      exists th1. rewrite goto_other; [done|]. intros ->. simplify_eq. by apply Hf in Hlk1.
  - intros t' th1 o Ht1%goto_lookup Ho. destruct Ht1 as [[-> ->]|[? ?]]; [congruence|by eauto].
Qed.
Lemma tidy_unlock w t th th' sid :
  Tidy w → w_threads w !! t = Some th → (∀ i, locks th i → i = sid) → awaits th' = None →
  Tidy (goto t th' (unlock sid w)).
Proof.
  intros HT Ht Hf Haw. assert (Tidy (unlock sid w)) as [Hl Ha].
  { apply tidy_on_session; [done|by left]. }
  split.
  - intros i s' t' Hi Ht'. destruct (Hl i s' t' Hi Ht') as (th1 & Hth1 & Hlk1).
    exists th1. rewrite goto_other; [done|]. intros ->. cbn in Hth1. simplify_eq.
    apply Hf in Hlk1 as ->. cbn in Hi. rewrite list_lookup_alter_eq in Hi.
    apply fmap_Some in Hi as (s & _ & ->). done.
  - intros t' th1 o Ht1%goto_lookup Ho. destruct Ht1 as [[-> ->]|[? ?]]; [congruence|by eauto].
Qed.
Lemma tidy_operation w l : Tidy w → length l = length (w_operation w) → Tidy (set_operation l w).
Proof. intros HT Hl. apply (tidy_same w); [done..|cbn; lia|eauto]. Qed.
Lemma tidy_finish w t th o r :
  Tidy w → w_threads w !! t = Some th → free th → Tidy (finish t o r w).
Proof.
  intros HT Ht Hf. unfold finish. eapply tidy_goto_free; [|exact Ht|done..].
  apply tidy_operation; [done|]. by rewrite length_alter.
Qed.
Lemma tidy_leave w t th o r sid :
  Tidy w → w_threads w !! t = Some th → (∀ i, locks th i → i = sid) →
  Tidy (finish t o r (unlock sid w)).
Proof.
  intros HT Ht Hf. rewrite <-(finish_goto t o r (Finished None)).
  eapply tidy_finish; [by eapply tidy_unlock| |].
  - eapply goto_same. done.
  - intros i [[e He]|[k Hk]]; [done|]. by apply not_elem_of_nil in Hk.
Qed.

(** ** Every step *)

Lemma tidy_release w t th sid k pc rest w1 o th' s :
  Tidy w → w_threads w !! t = Some th → owns th = (sid, Leaving k pc) :: rest →
  (∀ i k', (i, Leaving k' Closing) ∉ rest) → holding th = None →
  w_session w !! sid = Some s → release_step t sid pc w = (o, w1) →
  owns th' = (match o with Some pc' => [(sid, Leaving k pc')] | None => [] end) ++ rest →
  awaits th' = None → Tidy (goto t th' w1).
Proof.
  intros HT Ht Ho Hrest Hh Hs Hr Ho' Haw.
  assert (∀ i, locks th i → i = sid ∧ pc = Closing) as Hl.
  { intros i [[e He]|[k' Hk]]; [congruence|]. rewrite Ho in Hk.
    apply elem_of_cons in Hk as [[= -> -> ->]|Hk]; [done|by apply Hrest in Hk]. }
  unfold release_step in Hr. rewrite Hs in Hr. destruct pc.
  - assert (free th) as Hf by (intros i Hi; by apply Hl in Hi as [_ ?]).
    destruct (se_closed s); simplify_eq; [by eapply tidy_goto_free|].
    eapply tidy_goto_free; [|exact Ht|done..]. apply tidy_on_session; [done|by right].
  - assert (free th) as Hf by (intros i Hi; by apply Hl in Hi as [_ ?]).
    destruct (se_lock s); simplify_eq; [by eapply tidy_goto_free|].
    apply (tidy_same (goto t th' (on_session sid (with_lock (Some t)) w))); [|done..|by eauto].
    eapply tidy_lock; [done..| |done]. right. exists k. rewrite Ho'. by left.
  - simplify_eq. eapply tidy_unlock; [by apply tidy_take|by rewrite take_threads| |done].
    intros i Hi. by apply Hl in Hi as [-> _].
Qed.

Lemma opening_free op target previous request epoch pc :
  match pc with ORelease _ _ _ Closing => False | _ => True end →
  free (Opening op target previous request epoch pc).
Proof.
  intros Hpc. apply free_spec; [done|]. intros sid k Hin.
  destruct pc as [| | | | | |? ? ? []]; cbn in Hin; try done;
    try (by apply not_elem_of_nil in Hin); apply list_elem_of_singleton in Hin; by simplify_eq.
Qed.
Lemma tidy_library w c : Tidy w → Tidy (set_library c w).
Proof. intros HT. apply (tidy_same w); eauto. Qed.
Lemma retain_batch_library target b ids w r w' :
  retain_batch target b ids w = (r, w') → ∃ c, w' = set_library c w.
Proof.
  unfold retain_batch, on_library. destruct (provider_id _).
  - destruct (retain_items _ _ _) as [[] ?]; intros [= _ <-]; by eexists.
  - intros [= _ <-]. exists (w_library w). by destruct w.
Qed.
Lemma opening_tidy w t op target previous request epoch pc a :
  good w → Tidy w → w_threads w !! t = Some (Opening op target previous request epoch pc) →
  Tidy (opening_step t op target previous request epoch pc a w).
Proof.
  intros (ph & ru & HI) HT Ht. destruct pc as [|sid| | |sid|sid v|sid v b pc]; cbn [opening_step].
  - pose proof (opening_free op target previous request epoch ORun I) as Hf. destruct a; [|done..].
    repeat case_match; try first [by eapply tidy_finish|by eapply tidy_goto_free].
    eapply (tidy_goto_free (touch_session _ w)); [|exact Ht|done..].
    apply tidy_on_session; [done|by right].
  - pose proof (opening_free op target previous request epoch (OPrevious sid) I) as Hf.
    destruct a; [|done..]. repeat case_match; first [done|by eapply tidy_finish|by eapply tidy_goto_free].
  - pose proof (opening_free op target previous request epoch ODefinition I) as Hf.
    repeat case_match; first [done|by eapply tidy_finish|by eapply tidy_goto_free].
  - pose proof (opening_free op target previous request epoch OOpen I) as Hf.
    destruct a as [| |[batch|e]]; [done..| |by eapply tidy_finish]. cbn zeta.
    set (s := mk_Session _ _ _ _ _ _ _).
    assert (Tidy (set_uuids (S (w_uuids w)) (set_session (w_session w ++ [s]) w))) as HT'.
    { apply (tidy_same w); [done..|]. intros i s' [Hi|[_ Hi]]%lookup_app_Some Hn; [by eauto|].
      apply list_lookup_singleton_Some in Hi as [_ <-]. done. }
    case_match; by eapply (tidy_goto_free _ _ _ _ HT').
  - pose proof (opening_free op target previous request epoch (ORetain sid) I) as Hf.
    destruct a; [|done..]. destruct (w_session w !! sid) as [s|]; [|done].
    destruct (retain_batch _ _ _ w) as [[items|e] w1] eqn:Hr;
      destruct (retain_batch_library _ _ _ _ _ _ Hr) as [c ->].
    + eapply tidy_goto_free; [by apply tidy_put, tidy_library| |exact Hf|done].
      unfold put_items. case_match; [|done]. cbn. by rewrite drop_threads.
    + eapply tidy_goto_free; [by apply tidy_library|exact Ht|done..].
  - pose proof (opening_free op target previous request epoch (OInsert sid v) I) as Hf.
    destruct a; [|done..]. destruct (w_session w !! sid) as [s|]; [|done].
    case_match; [|by eapply tidy_goto_free].
    eapply tidy_finish; [|exact Ht|done]. by apply (tidy_same w); eauto.
  - destruct (owned_session _ _ _ _ _ _ sid (Leaving false pc) HI Ht) as (_ & s & Hs & _); [by left|].
    assert (∀ i k', (i, Leaving k' Closing) ∉ @nil (nat * Stage)) as Hnil.
    { intros ??. apply not_elem_of_nil. }
    destruct (release_step t sid pc w) as [[pc'|] w1] eqn:Hr.
    + by eapply (tidy_release w t _ sid false pc []).
    + rewrite <-(finish_goto t op _ (Finished None)).
      assert (Tidy (goto t (Finished None) w1)) as HT'.
      { by eapply (tidy_release w t _ sid false pc []). }
      eapply tidy_finish; [exact HT'| |].
      * eapply goto_same. by rewrite (release_threads _ _ _ _ _ _ Hr).
      * apply free_spec; [done|]. intros ??. apply not_elem_of_nil.
Qed.
Lemma continuing_locks op target sid e current pc i :
  locks (Continuing op target sid e current pc) i → i = sid.
Proof.
  intros [[e' He]|[k Hk]]; [|by apply not_elem_of_nil in Hk].
  destruct pc; cbn in He; congruence.
Qed.
Lemma continuing_tidy w t op target sid expected current pc a :
  Tidy w → w_threads w !! t = Some (Continuing op target sid expected current pc) →
  Tidy (continuing_step t op target sid expected current pc a w).
Proof.
  intros HT Ht. pose proof (continuing_locks op target sid expected current pc) as Hl.
  unfold continuing_step. destruct (w_session w !! sid) as [s|] eqn:Hs; [|done].
  assert (∀ r f w', w_threads w' = w_threads w → Tidy w' → (∀ s, se_lock (f s) = se_lock s) →
    Tidy (finish t op r (unlock sid (on_session sid f w')))) as Hleave.
  { intros r f w' Hth HT' Hf. eapply tidy_leave; [|by cbn; rewrite Hth|done].
    apply tidy_on_session; [done|]. right. apply Hf. }
  destruct pc as [|retained|retained batch].
  - assert (free (Continuing op target sid expected current NLock)) as Hf.
    { apply free_spec; [done|]. intros ??. apply not_elem_of_nil. }
    destruct a; [|done..]. destruct (se_lock s); [done|].
    do 3 (case_match; [by eapply tidy_finish|]). eapply tidy_lock; try done. left. by eexists.
  - destruct a as [| |[batch|e]]; [done..| |by eapply tidy_leave].
    case_match; [by apply Hleave|]. case_match; [|by eapply tidy_leave].
    case_match; [by eapply tidy_leave|]. eapply tidy_goto; [done..| |done].
    intros i [[e He]|[k Hk]]; [left; by exists e|by apply not_elem_of_nil in Hk].
  - destruct a; [|done..]. destruct (retain_batch _ _ _ w) as [[items|e] w1] eqn:Hr;
      destruct (retain_batch_library _ _ _ _ _ _ Hr) as [c ->].
    2:{ eapply tidy_leave; [by apply tidy_library|exact Ht|done]. }
    case_match.
    + eapply tidy_leave; [apply tidy_drop, tidy_on_session; [by apply tidy_library|by right]| |done].
      by rewrite drop_threads.
    + apply Hleave; [|by apply tidy_put, tidy_library|done].
      unfold put_items. case_match; [|done]. cbn. by rewrite drop_threads.
Qed.
Lemma plain_free th : holding th = None → owns th = [] → free th.
Proof. intros Hh Ho. apply free_spec; [done|]. intros ??. rewrite Ho. apply not_elem_of_nil. Qed.
Lemma releasing_tidy w t sids pc prune :
  good w → Tidy w → w_threads w !! t = Some (Releasing sids pc prune) →
  Tidy (releasing_step t sids pc prune w).
Proof.
  intros (ph & ru & HI) HT Ht. destruct sids as [|sid rest]; cbn [releasing_step].
  - eapply tidy_goto_free; [|by destruct prune|by apply plain_free|done].
    destruct prune; [|done]. by apply (tidy_same w); eauto.
  - destruct (owned_session _ _ _ _ _ _ sid (Leaving true pc) HI Ht) as (_ & s & Hs & _); [by left|].
    assert (∀ i k', (i, Leaving k' Closing) ∉ waiting <$> rest) as Hnil.
    { intros i k' (j & ? & _)%list_elem_of_fmap. done. }
    destruct (release_step t sid pc w) as [[pc'|] w1] eqn:Hr.
    + by eapply (tidy_release w t _ sid true pc (waiting <$> rest)).
    + eapply (tidy_release w t _ sid true pc (waiting <$> rest)); try done. by destruct rest.
Qed.
Lemma opening_timeout_tidy w t op target previous request epoch pc :
  good w → Tidy w → w_threads w !! t = Some (Opening op target previous request epoch pc) →
  Tidy (opening_timeout t op pc w).
Proof.
  intros Hg HT Ht. destruct pc as [|sid| | |sid|sid v|sid v b pc]; cbn [opening_timeout];
    unfold abandon; try done; try by (eapply tidy_finish; [done..|by apply opening_free]).
  destruct pc; [done| |].
  - eapply tidy_finish; [by apply tidy_take|by rewrite take_threads|by apply opening_free].
  - eapply tidy_leave; [by apply tidy_take|by rewrite take_threads|].
    intros i [[e He]|[k Hk]]; [done|]. apply list_elem_of_singleton in Hk. congruence.
Qed.
Lemma operation_lt key fp p w o b w' :
  operation key fp p w = (Ok (o, b), w') → (o < length (w_operation w'))%nat.
Proof.
  unfold operation. destruct (w_stopped w || _); [done|].
  destruct (w_operations (retain_operations w) !! key) as [o'|].
  - destruct (w_operation (retain_operations w) !! o') as [op|] eqn:Ho; [|done].
    destruct (negb _ || _); [done|]. destruct (negb _); [done|]. intros [= <- <- <-].
    by eapply lookup_lt_Some.
  - destruct (_ <=? _); [done|]. intros [= <- <- <-]. cbn. rewrite length_app. cbn. lia.
Qed.
Lemma operation_tidy key fp p w r w' : operation key fp p w = (r, w') → Tidy w → Tidy w'.
Proof.
  intros Ho%operation_spec HT.
  assert (∀ m a, Tidy (set_operations m (set_operation (w_operation w ++ [a]) w))) as Ha.
  { intros m a. apply (tidy_same w); [done..|cbn; rewrite length_app; lia|eauto]. }
  assert (∀ m, Tidy (set_operations m w)) as Hm by (intros m; apply (tidy_same w); eauto).
  destruct r as [[o []]|e]; [destruct Ho as (_ & m & a & -> & _)|destruct Ho as [m ->]..]; auto.
Qed.
Lemma waits_tidy w th o b key fp p w' :
  operation key fp p w = (Ok (o, b), w') → Tidy w → ∀ th1, awaits th1 = None →
  (∀ o', awaits th = Some o' → o' = o) →
  Tidy (spawn th (if b then spawn th1 w' else w')).
Proof.
  intros Ho HT th1 Hnone Hth. pose proof (operation_lt _ _ _ _ _ _ _ Ho).
  pose proof (operation_tidy _ _ _ _ _ _ Ho HT).
  apply tidy_spawn; [|intros o' ->%Hth; by destruct b].
  destruct b; [|done]. apply tidy_spawn; [done|]. intros o'. congruence.
Qed.
Lemma step_tidy w l : good w → Tidy w → Tidy (step w l).
Proof.
  intros Hg HT. assert (∀ th, awaits th = None → Tidy (spawn th w)) as Hsp.
  { intros th Hth. apply tidy_spawn; [done|]. congruence. }
  assert (∀ th table, awaits th = None → Tidy (spawn th (set_sessions table w))) as Hsp'.
  { intros th table Hth. apply tidy_spawn; [by apply (tidy_same w); eauto|]. congruence. }
  destruct l; cbn [step]; try (by apply (tidy_same w); eauto).
  - unfold open. destruct (check_operation_id _ _); [|by apply Hsp]. cbn zeta.
    destruct (operation _ _ _ w) as [[[o b]|e] w'] eqn:Ho.
    + eapply waits_tidy; [exact Ho|done..|]. by intros o' [= ->].
    + apply tidy_spawn; [by eapply operation_tidy|done].
  - unfold next. destruct (mbind _ _) as [sid|e]; [|by apply Hsp]. cbn zeta.
    assert (Tidy (touch_session sid w)) as HT' by (apply tidy_on_session; [done|by right]).
    destruct (operation _ _ _ (touch_session sid w)) as [[[o b]|e] w'] eqn:Ho.
    + eapply waits_tidy; [exact Ho|done..|]. by intros o' [= ->].
    + apply tidy_spawn; [by eapply operation_tidy|done].
  - unfold close. case_match; [|done]. by apply Hsp'.
  - by apply Hsp.
  - unfold invalidate. destruct (remove_sessions _ w) as [sids w'] eqn:Hr.
    unfold remove_sessions in Hr. simplify_eq. by apply Hsp'.
  - unfold shutdown, collect. apply tidy_spawn; [by apply (tidy_same w); eauto|done].
  - unfold run. destruct (w_threads w !! t) as [[]|] eqn:Ht; try done.
    + by apply opening_tidy.
    + by apply continuing_tidy.
    + unfold wait_open_step, answer. repeat case_match; try done;
        (eapply tidy_goto_free; [done..|by apply plain_free|done]).
    + unfold wait_next_step, answer. repeat case_match; try done;
        (eapply tidy_goto_free; [|done|by apply plain_free|done]); try done;
        apply tidy_on_session; (done || by right).
    + unfold collecting_step. destruct (remove_sessions _ w) as [sids w'] eqn:Hr.
      unfold remove_sessions in Hr. simplify_eq.
      eapply tidy_goto_free; [by apply (tidy_same w); eauto|done|by apply plain_free|done].
    + by apply releasing_tidy.
  - unfold timeout. destruct (w_threads w !! t) as [[]|] eqn:Ht; try done.
    + by eapply opening_timeout_tidy.
    + pose proof (continuing_locks op target sid expected current pc) as Hl.
      destruct pc; cbn [continuing_timeout]; unfold abandon; [|by eapply tidy_leave..].
      eapply tidy_finish; [done..|by apply plain_free].
Qed.
Lemma reachable_tidy w : reachable w → Tidy w.
Proof.
  intros (epochs & registry & c & l & Hh & Hr & ->). unfold steps_all.
  pose proof (initial_good epochs registry c Hh Hr) as Hg.
  assert (Tidy (initial epochs registry c)) as HT by (split; intros; simplify_list_eq).
  revert Hg HT. generalize (initial epochs registry c).
  induction l as [|q l IH]; intros w Hg HT; [done|]. apply IH; [by apply step_good|by apply step_tidy].
Qed.

(** ** Rest *)

Definition at_rest (w : World) : Prop := ∀ t th, w_threads w !! t = Some th → ∃ r, th = Finished r.
(** The steps of the threads that are there. *)
Definition internal (l : Label) : bool := match l with Run _ _ | Timeout _ => true | _ => false end.

(** How many steps a thread can still take. *)
Definition release_weight (pc : ReleasePc) : nat :=
  match pc with Swap => 3 | Lock => 2 | Closing => 1 end.
Definition weight (th : Thread) : nat :=
  match th with
  | Opening _ _ _ _ _ ORun => 2
  | Opening _ _ _ _ _ (OInsert _ _) => 4
  | Opening _ _ _ _ _ (ORelease _ _ _ pc) => release_weight pc
  | Opening _ _ _ _ _ _ | Continuing _ _ _ _ _ _ | WaitOpen _ | WaitNext _ _ _ => 1
  | Collecting => 2 + 3 * Z.to_nat MAX_SESSIONS
  | Releasing [] _ _ => 1
  | Releasing (_ :: rest) pc _ => 1 + release_weight pc + 3 * length rest
  | Finished _ => 0
  end.
Definition work (w : World) : nat := sum_list (weight <$> w_threads w).

Lemma work_goto w1 w t th th' :
  w_threads w1 = w_threads w → w_threads w !! t = Some th → (weight th' < weight th)%nat →
  (work (goto t th' w1) < work w)%nat.
Proof.
  intros Hw Ht Hlt. unfold work. cbn. rewrite Hw, list_fmap_insert.
  assert ((weight <$> w_threads w) !! t = Some (weight th)) as Hf by by rewrite list_lookup_fmap, Ht.
  revert Hf Hlt. generalize (weight <$> w_threads w), (weight th), (weight th').
  clear Hw Ht. intros l m n Hl Hlt. revert t Hl.
  induction l as [|k l IH]; intros [|t] Hl; [done..| |]; cbn in *; unfold id in *; simplify_eq; [lia|].
  by apply Nat.add_lt_mono_l, IH.
Qed.
Lemma work_finish w1 w t o r th :
  w_threads w1 = w_threads w → w_threads w !! t = Some th → (0 < weight th)%nat →
  (work (finish t o r w1) < work w)%nat.
Proof. intros Hw Ht Hlt. by eapply (work_goto (set_operation _ w1)). Qed.

Lemma release_progress t sid pc w w1 s o :
  w_session w !! sid = Some s → (pc = Lock → se_lock s = None) →
  release_step t sid pc w = (o, w1) →
  match o with Some pc' => (release_weight pc' < release_weight pc)%nat | None => True end.
Proof.
  intros Hs Hl. unfold release_step. rewrite Hs. destruct pc.
  - destruct (se_closed s); intros [= <- _]; cbn; [done|lia].
  - rewrite (Hl eq_refl). intros [= <- _]. cbn. lia.
  - by intros [= <- _].
Qed.

Ltac works Ht := eapply work_goto; [done|exact Ht|cbn; lia].
(** A task can always be taken a step further, if only by its timeout. *)
Lemma opening_progress w t op target previous request epoch pc :
  good w → w_threads w !! t = Some (Opening op target previous request epoch pc) →
  ∃ l, internal l = true ∧ (work (step w l) < work w)%nat.
Proof.
  intros (ph & ru & HI) Ht. assert (∀ l, step w (Run t l) = opening_step t op target previous request epoch pc l w)
    as Hrun by (intros l; cbn; unfold run; by rewrite Ht).
  assert (step w (Timeout t) = opening_timeout t op pc w) as Htime by (cbn; unfold timeout; by rewrite Ht).
  destruct pc as [|sid| | |sid|sid v|sid v b pc].
  - exists (Run t Go). split; [done|]. rewrite Hrun. cbn [opening_step].
    repeat case_match; works Ht.
  - exists (Timeout t). split; [done|]. rewrite Htime. works Ht.
  - exists (Timeout t). split; [done|]. rewrite Htime. works Ht.
  - exists (Timeout t). split; [done|]. rewrite Htime. works Ht.
  - exists (Timeout t). split; [done|]. rewrite Htime. works Ht.
  - exists (Run t Go). split; [done|]. rewrite Hrun. cbn [opening_step].
    destruct (owned_session _ _ _ _ _ _ sid (Vetted (is_ok v)) HI Ht) as (_ & s & Hs & _); [by left|].
    rewrite Hs. case_match; works Ht.
  - destruct (owned_session _ _ _ _ _ _ sid (Leaving false pc) HI Ht) as (_ & s & Hs & _); [by left|].
    destruct (decide (pc = Lock)) as [->|Hpc].
    + exists (Timeout t). split; [done|]. rewrite Htime.
      eapply work_finish; [apply take_threads|exact Ht|cbn; lia].
    + exists (Run t Go). split; [done|]. rewrite Hrun. cbn [opening_step].
      destruct (release_step t sid pc w) as [o w1] eqn:Hr.
      pose proof (release_threads _ _ _ _ _ _ Hr) as Hth.
      apply (release_progress _ _ _ _ _ s) in Hr; [|done..].
      destruct o as [pc'|]; [eapply work_goto; [done|exact Ht|cbn; lia]|].
      eapply work_finish; [done|exact Ht|]. by destruct pc; cbn; lia.
Qed.
Lemma continuing_progress w t op target sid e current pc :
  w_threads w !! t = Some (Continuing op target sid e current pc) →
  ∃ l, internal l = true ∧ (work (step w l) < work w)%nat.
Proof.
  intros Ht. exists (Timeout t). split; [done|]. cbn. unfold timeout. rewrite Ht.
  destruct pc; works Ht.
Qed.

Lemma weight_releasing sids prune : (weight (Releasing sids Swap prune) ≤ 1 + 3 * length sids)%nat.
Proof. destruct sids; cbn; lia. Qed.
Lemma remove_length p w sids w' :
  remove_sessions p w = (sids, w') → (length sids ≤ size (w_sessions w))%nat.
Proof.
  unfold remove_sessions. intros [= <- _]. rewrite length_fmap, length_map_to_list.
  apply map_subseteq_size, sieve_subseteq.
Qed.
(** Once no task is left, the requests have their answers and the locks are free. *)
Lemma idle_progress w t th :
  good w → Tidy w → (∀ t th, w_threads w !! t = Some th → task th = None) →
  w_threads w !! t = Some th → (∀ r, th ≠ Finished r) →
  ∃ l, internal l = true ∧ (work (step w l) < work w)%nat.
Proof.
  intros (ph & ru & HI) HT Hno Ht Hth. exists (Run t Go). split; [done|]. cbn. unfold run. rewrite Ht.
  assert (∀ o, awaits th = Some o → ∃ a r, w_operation w !! o = Some a ∧ op_result a = Some r) as Haw.
  { intros o Ho. pose proof (ty_awaits _ HT _ _ _ Ht Ho) as [a Ha]%lookup_lt_is_Some_2.
    destruct (op_result a) as [r|] eqn:Hr; [by eauto|].
    destruct (iv_pending _ _ _ _ HI _ _ Ha Hr) as (t' & th' & Ht' & Hk). by rewrite (Hno _ _ Ht') in Hk. }
  destruct th as [| |o|o session target| |[|sid rest] pc prune|r].
  - by specialize (Hno _ _ Ht).
  - by specialize (Hno _ _ Ht).
  - destruct (Haw o eq_refl) as (a & r & Ha & Hr). unfold wait_open_step, answer. rewrite Ha, Hr.
    repeat case_match; works Ht.
  - destruct (Haw o eq_refl) as (a & r & Ha & Hr). unfold wait_next_step, answer. rewrite Ha, Hr.
    repeat case_match; works Ht.
  - unfold collecting_step. destruct (remove_sessions _ w) as [sids w'] eqn:Hrm.
    pose proof (remove_length _ _ _ _ Hrm). pose proof (iv_bound _ _ _ _ HI).
    unfold remove_sessions in Hrm. simplify_eq. eapply work_goto; [done|exact Ht|].
    eapply Nat.le_lt_trans; [apply weight_releasing|].
    change (weight Collecting) with (2 + 3 * Z.to_nat MAX_SESSIONS)%nat. lia.
  - cbn. destruct prune; works Ht.
  - cbn [releasing_step].
    destruct (owned_session _ _ _ _ _ _ sid (Leaving true pc) HI Ht) as (Hp & s & Hs & _); [by left|].
    destruct (release_step t sid pc w) as [o w1] eqn:Hr.
    pose proof (release_threads _ _ _ _ _ _ Hr) as Hths.
    apply (release_progress _ _ _ _ _ s) in Hr; [|done|].
    + destruct o as [pc'|]; (eapply work_goto; [done|exact Ht|cbn]); [lia|].
      destruct rest, pc; cbn; lia.
    + intros ->. destruct (se_lock s) as [t'|] eqn:Hl; [|done]. exfalso.
      destruct (ty_locked _ HT _ _ _ Hs Hl) as (th' & Ht' & [[e He]|[k Hk]]).
      * specialize (Hno _ _ Ht'). by destruct th'.
      * pose proof (iv_owns _ _ _ _ HI _ _ _ _ Ht' Hk). congruence.
  - by destruct (Hth r).
Qed.
Lemma progress w :
  good w → Tidy w → at_rest w ∨ ∃ l, internal l = true ∧ (work (step w l) < work w)%nat.
Proof.
  intros Hg HT.
  destruct (decide (Exists (λ th, is_Some (task th)) (w_threads w))) as [He|Hno].
  - right. apply Exists_exists in He as (th & [t Ht]%list_elem_of_lookup_1 & [o Ho]).
    destruct th; try done; [by eapply opening_progress|by eapply continuing_progress].
  - destruct (decide (Forall (λ th, weight th = 0%nat) (w_threads w))) as [Hf|Hf].
    + left. intros t th Ht. eapply Forall_lookup_1 in Hf; [|done].
      destruct th as [? ? ? ? ? []| | | | |[]|]; cbn in *; try done; [by destruct pc|by eauto].
    + right. apply not_Forall_Exists in Hf; [|apply _].
      apply Exists_exists in Hf as (th & [t Ht]%list_elem_of_lookup_1 & Hw).
      eapply idle_progress; [done..| |exact Ht|].
      * intros t' th' Ht'. apply eq_None_not_Some. intros Hs. apply Hno, Exists_exists.
        exists th'. split; [by eapply list_elem_of_lookup_2|done].
      * intros r ->. by apply Hw.
Qed.
(** Whatever has been going on, the threads can be run to their ends. *)
Lemma comes_to_rest w :
  good w → Tidy w → ∃ l, Forall (λ q, internal q = true) l ∧ at_rest (steps_all w l).
Proof.
  remember (work w) as n eqn:Hn. revert w Hn. induction n as [n IH] using lt_wf_ind.
  intros w -> Hg HT. destruct (progress w Hg HT) as [Hr|(q & Hq & Hlt)]; [by exists []|].
  destruct (IH _ Hlt (step w q) eq_refl) as (l & Hl & Hr); [by apply step_good|by apply step_tidy|].
  exists (q :: l). split; [by constructor|done].
Qed.

(** The threads do not start the sessions again, once they were stopped. *)
Lemma drop_stopped r w : w_stopped (drop_retention r w) = w_stopped w.
Proof. by destruct r. Qed.
Lemma take_stopped sid w : w_stopped (take_items sid w) = w_stopped w.
Proof. unfold take_items. case_match; [|done]. apply drop_stopped. Qed.
Lemma put_stopped sid r w : w_stopped (put_items sid r w) = w_stopped w.
Proof. unfold put_items. case_match; [|done]. apply drop_stopped. Qed.
Lemma release_stopped t sid pc w o w1 :
  release_step t sid pc w = (o, w1) → w_stopped w1 = w_stopped w.
Proof.
  unfold release_step. repeat case_match; intros [= _ <-]; try done. apply take_stopped.
Qed.
Lemma internal_stopped w q : internal q = true → w_stopped (step w q) = w_stopped w.
Proof.
  destruct q; try done; intros _; cbn.
  - unfold run. destruct (w_threads w !! t) as [[]|]; try done.
    + unfold opening_step, answer. destruct pc; destruct a; try done;
        repeat case_match; try done; cbn;
        repeat match goal with
        | Hr : release_step _ _ _ _ = _ |- _ => apply release_stopped in Hr
        | Hr : retain_batch _ _ _ _ = _ |- _ => apply retain_batch_library in Hr as [? ->]
        end; try done; by rewrite put_stopped.
    + unfold continuing_step. case_match; [|done]. destruct pc; destruct a; try done;
        repeat case_match; try done; cbn;
        repeat match goal with
        | Hr : retain_batch _ _ _ _ = _ |- _ => apply retain_batch_library in Hr as [? ->]
        end; rewrite ?put_stopped, ?drop_stopped; done.
    + unfold wait_open_step. by repeat case_match.
    + unfold wait_next_step. by repeat case_match.
    + unfold releasing_step. repeat case_match; try done;
        match goal with Hr : release_step _ _ _ _ = _ |- _ => by apply release_stopped in Hr end.
  - unfold timeout. destruct (w_threads w !! t) as [[]|]; try done.
    + unfold opening_timeout. repeat case_match; try done; apply take_stopped.
    + by destruct pc.
Qed.
Lemma steps_reachable w l : reachable w → reachable (steps_all w l).
Proof.
  intros (ep & rg & c & l0 & Hh & Hr & ->). exists ep, rg, c, (l0 ++ l). split_and!; [done..|].
  unfold steps_all. by rewrite foldl_app.
Qed.
Lemma steps_stopped w l :
  Forall (λ q, internal q = true) l → w_stopped (steps_all w l) = w_stopped w.
Proof.
  revert w. induction l as [|q l IH]; intros w Hl; [done|].
  apply Forall_cons in Hl as [Hq Hl]. change (steps_all w (q :: l)) with (steps_all (step w q) l).
  rewrite IH by done. by apply internal_stopped.
Qed.

(** ** What rest means *)

Lemma rest_unowned ph ru x w sid t st :
  Inv ph ru x w → at_rest w → ph !! sid ≠ Some (Owned t st).
Proof.
  intros HI Hr (th & Ht & Hin)%(iv_owned _ _ _ _ HI). destruct (Hr _ _ Ht) as [r ->].
  by apply not_elem_of_nil in Hin.
Qed.
End rest.
