(* ===== verification/Closure.v ===== *)
(** * Radio sessions: what is retained with a song

    A song row goes with the item of its album, so a session retains more than its songs:
    their albums, and the artists of both, as the library had them when the retention was
    made. Here: what that closure contains, that every session has one for the songs it
    offers, and that the end of a full run leaves a song whose item and album's item it
    leaves. *)
From S2P Require Import Prelude Text Tables Integrity Coordinator Batch SyncRun Effects Writer Control Runs Sessions Pruning Retained Radio Ledger RadioSteps Rest.
From stdpp Require Import options.
#[local] Set Default Proof Using "Type*".

Open Scope Z_scope.
Open Scope list_scope.

(** ** The closure *)

Record closed_over (t : Tables) (roots ids : gset Z) : Prop := {
  co_roots : roots ⊆ ids;
  co_album i so a : i ∈ roots → t_song t !! i = Some so → so_album so = Some a → a ∈ ids;
  co_artist i b u : i ∈ roots → t_rel_song_artist t !! (i, b) = Some u → b ∈ ids;
  co_album_artist i so a b u : i ∈ roots → t_song t !! i = Some so → so_album so = Some a →
    t_rel_album_artist t !! (a, b) = Some u → b ∈ ids
}.
Lemma elem_of_targets_of m owners b :
  b ∈ targets_of m owners ↔ ∃ a u, a ∈ owners ∧ m !! (a, b) = Some u.
Proof.
  unfold targets_of. rewrite elem_of_list_to_set, list_elem_of_omap. split.
  - intros ([[a b'] u] & Hin%elem_of_map_to_list & Hd). cbn in Hd. case_bool_decide; [|done].
    simplify_eq. eauto.
  - intros (a & u & Ha & Hu). exists ((a, b), u). rewrite elem_of_map_to_list. cbn.
    by rewrite bool_decide_true.
Qed.
Lemma elem_of_albums_of t songs a :
  a ∈ albums_of t songs ↔ ∃ s so, s ∈ songs ∧ t_song t !! s = Some so ∧ so_album so = Some a.
Proof.
  unfold albums_of. rewrite elem_of_list_to_set, list_elem_of_omap.
  setoid_rewrite elem_of_elements. setoid_rewrite bind_Some. naive_solver.
Qed.

Section closure.
Context `{Environment}.

Lemma retain_items_closed p roots s ids s' :
  retain_items p roots s = (Ok ids, s') → closed_over (sy_tables s) roots ids.
Proof.
  unfold retain_items. intros Hr.
  bind_in Hr u1 s1 H1. apply require_Ok in H1 as [_ ->]. bind_in Hr f2 s2 H2. apply query_Ok in H2 as [-> Ht2].
  bind_in Hr u3 s3 H3. apply require_Ok in H3 as [_ ->].
  bind_in Hr al s4 H4. apply query_Ok in H4 as [-> Ht4].
  bind_in Hr sa s5 H5. apply query_Ok in H5 as [-> Ht5].
  bind_in Hr aa s6 H6. apply query_Ok in H6 as [-> Ht6].
  bind_in Hr f7 s7 H7. bind_in Hr u8 s8 H8. bind_in Hr u9 s9 H9. apply mret_Ok in Hr as [-> ->].
  rewrite Ht5, Ht4, Ht2 in *. split.
  - set_solver.
  - intros i so a Hi Hs Ha. assert (a ∈ albums_of (sy_tables s) roots); [|set_solver].
    apply elem_of_albums_of. eauto.
  - intros i b u Hi Hu.
    assert (b ∈ targets_of (t_rel_song_artist (sy_tables s)) (roots ∪ albums_of (sy_tables s) roots));
      [|set_solver].
    apply elem_of_targets_of. exists i, u. set_solver.
  - intros i so a b u Hi Hs Ha Hu.
    assert (b ∈ targets_of (t_rel_album_artist (sy_tables s)) (roots ∪ albums_of (sy_tables s) roots));
      [|set_solver].
    apply elem_of_targets_of. exists a, u. split; [|done]. apply elem_of_union_r, elem_of_albums_of. eauto.
Qed.

(** ** What the end of a full run leaves *)

(** Rows are only removed; and a song, an album or an artist of which the items are left, is
    left with what relates it to others that are. *)
Definition song_left (t t' : Tables) (i : Z) : Prop :=
  is_Some (t_item t' !! i) ∧
  ∀ so a, t_song t !! i = Some so → so_album so = Some a → is_Some (t_item t' !! a).
Record prunes (t t' : Tables) : Prop := {
  pr_shrinks : shrinks t t';
  pr_song i so : t_song t !! i = Some so → song_left t t' i → t_song t' !! i = Some so;
  pr_album a r : t_album t !! a = Some r → is_Some (t_item t' !! a) → t_album t' !! a = Some r;
  pr_artist b r : t_artist t !! b = Some r → is_Some (t_item t' !! b) → t_artist t' !! b = Some r;
  pr_song_artist i b u : t_rel_song_artist t !! (i, b) = Some u → song_left t t' i →
    is_Some (t_item t' !! b) → t_rel_song_artist t' !! (i, b) = Some u;
  pr_album_artist a b u : t_rel_album_artist t !! (a, b) = Some u → is_Some (t_item t' !! a) →
    is_Some (t_item t' !! b) → t_rel_album_artist t' !! (a, b) = Some u
}.
Lemma shrinks_item t t' i : shrinks t t' → is_Some (t_item t' !! i) → is_Some (t_item t !! i).
Proof. intros Hs [r Hr]. exists r. eapply lookup_weaken; [done|apply Hs]. Qed.
Lemma song_left_before t t' t'' i :
  shrinks t' t'' → song_left t t'' i → song_left t t' i.
Proof. intros Hs [Hi Ha]. split; intros; eapply shrinks_item; eauto. Qed.
Lemma song_left_after t t' t'' i : shrinks t t' → song_left t t'' i → song_left t' t'' i.
Proof.
  intros Hs [Hi Ha]. split; [done|]. intros so a Hso. apply (Ha so). eapply lookup_weaken; [done|apply Hs].
Qed.
#[export] Instance prunes_preorder : PreOrder prunes.
Proof.
  split; [by split|]. intros t t' t'' [S1] [S2].
  split; [by etrans|intros; eauto 8 using shrinks_item, song_left_before, song_left_after..].
Qed.

Lemma delete_items_prunes dead t : prunes t (delete_items dead t).
Proof.
  assert (∀ i, is_Some (t_item (delete_items dead t) !! i) → gone dead t i = false) as Hgone.
  { intros i [r [Hr Hd]%delete_items_item]. unfold gone. by rewrite Hr. }
  assert (∀ i so, t_song t !! i = Some so → song_left t (delete_items dead t) i →
    gone dead t i = false ∧ is_some_and (so_album so) (gone dead t) = false) as Hsong.
  { intros i so Hso [Hi Ha]. split; [by apply Hgone|]. destruct (so_album so) as [a|] eqn:E; [|done].
    by eapply Hgone, Ha. }
  split; [apply delete_items_shrinks|..].
  - intros i so Hso Hl. apply delete_items_song. by split; [|apply Hsong].
  - intros a r Ha Hi. apply delete_items_album. by split; [|apply Hgone].
  - intros b r Hb Hi. apply delete_items_artist. by split; [|apply Hgone].
  - intros i b u Hu Hl Hb%Hgone. pose proof (Hgone _ (proj1 Hl)) as Hi.
    cbn. rewrite !lookup_sieve, !negb_true_iff. unfold gone in *. split_and!; [done| |done|].
    + apply is_some_and_false. intros so Hso. by apply (Hsong _ _ Hso).
    + apply is_some_and_false. by intros.
  - intros a b u Hu Ha%Hgone Hb%Hgone. unfold gone in *. cbn. rewrite !lookup_sieve, !negb_true_iff. done.
Qed.
Lemma delete_mixes_prunes dead t : prunes t (delete_mixes dead t).
Proof. split; [apply delete_mixes_shrinks|done..]. Qed.
Lemma delete_libraries_prunes dead t : prunes t (delete_libraries dead t).
Proof.
  etrans; [|apply delete_items_prunes]. split; [|done..]. split; cbn; solve [reflexivity|apply sieve_subseteq].
Qed.
Lemma prune_all_prunes r : steps (related prunes) (prune_all r).
Proof.
  unfold prune_all, prune, prune_library. related_walk.
  all: match goal with
       | |- steps _ (exec_all (delete_mixes _)) => apply (related_exec_all _); intros t; apply delete_mixes_prunes
       | |- steps _ (exec_all (delete_items _)) => apply (related_exec_all _); intros t; apply delete_items_prunes
       | |- steps _ (exec_all (delete_libraries _)) =>
           apply (related_exec_all _); intros t; apply delete_libraries_prunes
       | |- steps _ (check_generation _) => intros s; unfold related;
           by rewrite (check_generation_same _ _ _ _ (surjective_pairing _))
       | |- steps _ (check_origin _ _) => intros s; unfold related;
           by rewrite (check_origin_same _ _ _ _ _ (surjective_pairing _))
       end.
Qed.
Lemma finalize_prunes `{BatchCodec} r s :
  prunes (sy_tables s) (sy_tables (call Finalize (r, s)).2.2).
Proof.
  cbn [call]. rewrite finalize_run. destruct (_ || _); [reflexivity|].
  pose proof (write_some_same (r_provider r) (r_token r) s) as (_ & _ & Ht).
  destruct (write _ _ s) as [[[]|e] s1]; cbn in Ht |- *; [|by rewrite Ht].
  destruct (negb _); cbn; [by rewrite Ht|].
  assert (moves prunes (prune_all r)) as Hm.
  { intros s2 a s3 Hp. pose proof (prune_all_prunes r s2) as Hr. unfold related in Hr. by rewrite Hp in Hr. }
  pose proof (transaction_tables prunes _ s1 Hm) as Hg.
  rewrite Ht in Hg. by destruct (transaction (prune_all r) s1) as [[[]|e] s2].
Qed.
End closure.

(** *** A song through the end of a full run *)

Section song.
Context `{Environment} `{BatchCodec} (c : Config) (k : nat) (run : SyncRun) (i : Z) (m : Item).
Notation t := (sy_tables (c_sync c)).
Notation t' := (sy_tables (c_sync (serve c (Call k Finalize)))).
Hypotheses (Hwf : well_formed t) (Hk : c_runs c !! k = Some run)
  (Hok : (call Finalize (run, c_sync c)).1 = Ok tt)
  (Hm : t_item t !! i = Some m) (Hl : ∀ l, i_library m = Some l → l ∈ r_libraries run).

(** Named by the run, or retained. *)
Definition wanted (j : Z) : Prop := j ∈ r_seen run ∨ j ∈ retained_items (r_provider run) (c_sync c).

Lemma finalized_prunes : prunes t t'.
Proof. unfold serve. rewrite Hk. apply finalize_prunes. Qed.
Lemma item_left j mj :
  t_item t !! j = Some mj → i_library mj = i_library m → wanted j → t_item t' !! j = Some mj.
Proof.
  intros Hj He Hw. destruct (finalize_mirrors _ _ _ Hwf Hk Hok) as (_ & Hi & _). apply Hi. split; [done|].
  intros _. split; [by intros _|]. intros l. rewrite He. apply Hl.
Qed.
Lemma same_library_left j :
  same_library t i j → is_Some (t_item t !! j) → wanted j → is_Some (t_item t' !! j).
Proof.
  intros Hs [mj Hj] Hw. exists mj. apply item_left; [done| |done]. symmetry. by apply Hs.
Qed.
Lemma artist_left b u :
  t_rel_song_artist t !! (i, b) = Some u → wanted b → is_Some (t_item t' !! b).
Proof.
  intros Hu. apply same_library_left; [by eapply (ty_song_artist _ (wf_typed _ Hwf))|].
  destruct (ln_song_artist _ (wf_linked _ Hwf) _ _ _ Hu) as [_ [r Hr]].
  by eapply (rt_artist _ (wf_rooted _ Hwf)).
Qed.
Lemma album_left so a :
  t_song t !! i = Some so → so_album so = Some a → wanted a → is_Some (t_item t' !! a).
Proof.
  intros Hs Ha. apply same_library_left; [by eapply (ty_song_album _ (wf_typed _ Hwf))|].
  destruct (ln_song_album _ (wf_linked _ Hwf) _ _ _ Hs Ha) as [r Hr].
  by eapply (rt_album _ (wf_rooted _ Hwf)).
Qed.
Lemma album_artist_left so a b u :
  t_song t !! i = Some so → so_album so = Some a → t_rel_album_artist t !! (a, b) = Some u → wanted b →
  is_Some (t_item t' !! b).
Proof.
  intros Hs Ha Hu. destruct (ln_album_artist _ (wf_linked _ Hwf) _ _ _ Hu) as [[ra Hra] [r Hr]].
  destruct (rt_album _ (wf_rooted _ Hwf) _ _ Hra) as [z Hz].
  apply same_library_left; [|by eapply (rt_artist _ (wf_rooted _ Hwf))].
  intros x y Hx Hy. rewrite (ty_song_album _ (wf_typed _ Hwf) _ _ _ Hs Ha _ _ Hx Hz).
  by apply (ty_album_artist _ (wf_typed _ Hwf) _ _ _ Hu).
Qed.

(** The song, with its album and its artists as far as they are wanted. *)
Lemma song_survives so :
  wanted i → t_song t !! i = Some so → (∀ a, so_album so = Some a → wanted a) →
  t_song t' !! i = Some so ∧
  (∀ b u, t_rel_song_artist t !! (i, b) = Some u → wanted b →
     t_rel_song_artist t' !! (i, b) = Some u ∧ t_artist t' !! b = t_artist t !! b) ∧
  (∀ a, so_album so = Some a → t_album t' !! a = t_album t !! a ∧
     ∀ b u, t_rel_album_artist t !! (a, b) = Some u → wanted b →
       t_rel_album_artist t' !! (a, b) = Some u ∧ t_artist t' !! b = t_artist t !! b).
Proof.
  intros Hi Hs Ha. pose proof finalized_prunes as Hp. pose proof (wf_linked _ Hwf) as Hln.
  assert (song_left t t' i) as Hleft.
  { split; [eexists; by apply (item_left i m)|]. intros so' a Hs' Ha'. simplify_eq. by eapply album_left, Ha. }
  assert (∀ b, is_Some (t_artist t !! b) → is_Some (t_item t' !! b) → t_artist t' !! b = t_artist t !! b) as Hart.
  { intros b [r Hr] Hb. rewrite Hr. by apply (pr_artist _ _ Hp). }
  split_and!; [by apply (pr_song _ _ Hp)|..].
  - intros b u Hu Hb%(artist_left _ _ Hu). split; [by apply (pr_song_artist _ _ Hp)|].
    by apply Hart; [apply (ln_song_artist _ Hln _ _ _ Hu)|].
  - intros a Hsa. pose proof (album_left _ _ Hs Hsa (Ha _ Hsa)) as Hia.
    destruct (ln_song_album _ Hln _ _ _ Hs Hsa) as [ra Hra].
    split; [rewrite Hra; by apply (pr_album _ _ Hp)|].
    intros b u Hu Hb%(album_artist_left _ _ _ _ Hs Hsa Hu). split; [by apply (pr_album_artist _ _ Hp)|].
    by apply Hart; [apply (ln_album_artist _ Hln _ _ _ Hu)|].
Qed.
End song.

(** ** Where a session's retention comes from *)

Section origin.
Context `{Environment} `{BatchCodec} `{RadioLibrary} `{!Inj (=) (=) new_uuid}.

Definition offered (s : Session) : gset Z := batch_items (pg_batch (se_page s)).
(** The retention of [s] was made for the songs it offers, from the library of [w0]. *)
Record retained_from (w0 : World) (s : Session) (r : Retention) : Prop := {
  rf_items : se_items s = Some r;
  rf_made : ∃ target batch ids w1, provider_id (tg_provider target) = Some (rt_provider r) ∧
    batch_items batch = offered s ∧ retain_batch target batch ids w0 = (Ok r, w1)
}.
Lemma retained_from_closed w0 s r :
  retained_from w0 s r → closed_over (sy_tables (c_sync (w_library w0))) (offered s) (rt_ids r).
Proof.
  intros [_ (target & batch & ids & w1 & Hp & <- & Hr)]. unfold retain_batch, on_library in Hr. rewrite Hp in Hr.
  destruct (retain_items _ _ _) as [[all|e] s1] eqn:Hi; [|done]. injection Hr as <- _. cbn.
  apply retain_items_closed in Hi as [Hr Ha Hb Hc]. unfold batch_items.
  split; [set_solver|intros; eapply Ha|intros; eapply Hb|intros; eapply Hc]; eauto; set_solver.
Qed.

(** Sessions keep their songs and their retention, or let the retention go. *)
Definition persists (w w' : World) : Prop := ∀ sid s', w_session w' !! sid = Some s' → se_items s' ≠ None →
  ∃ s, w_session w !! sid = Some s ∧ se_items s' = se_items s ∧ offered s' = offered s.
#[export] Instance persists_preorder : PreOrder persists.
Proof.
  split; [by intros w sid s' Hs _; exists s'|].
  intros w1 w2 w3 H12 H23 sid s3 Hs3 Hi. destruct (H23 _ _ Hs3 Hi) as (s2 & Hs2 & He2 & Ho2).
  destruct (H12 _ _ Hs2) as (s1 & Hs1 & He1 & Ho1); [congruence|]. exists s1. split_and!; congruence.
Qed.
Lemma persists_same w w' : w_session w' = w_session w → persists w w'.
Proof. intros Hw sid s' Hs _. rewrite Hw in Hs. by exists s'. Qed.
Lemma persists_eq w0 w w' : w_session w' = w_session w → persists w0 w → persists w0 w'.
Proof. intros Hw Hp. etrans; [exact Hp|by apply persists_same]. Qed.
(** A change of a session that keeps both, or forgets the retention. *)
Definition mild (f : Session → Session) (s : Session) : Prop :=
  se_items (f s) = None ∨ se_items (f s) = se_items s ∧ offered (f s) = offered s.
Lemma persists_on w sid f :
  (∀ s, w_session w !! sid = Some s → mild f s) → persists w (on_session sid f w).
Proof.
  intros Hf n s'. cbn. destruct (decide (n = sid)) as [->|Hne].
  - rewrite list_lookup_alter_eq. intros (s & Hs & ->)%fmap_Some Hi. exists s. split; [done|].
    by destruct (Hf s Hs).
  - rewrite list_lookup_alter_ne by done. eauto.
Qed.
Lemma mild_keeps f s : se_items (f s) = se_items s → offered (f s) = offered s → mild f s.
Proof. by right. Qed.
Lemma persists_drop w r : persists w (drop_retention r w).
Proof. by apply persists_same; destruct r. Qed.
Lemma persists_take w sid : persists w (take_items sid w).
Proof.
  unfold take_items. destruct (w_session w !! sid) eqn:Hs; [|done].
  etrans; [apply persists_drop|]. apply persists_on. by left.
Qed.
Lemma persists_release t sid pc w : persists w (release_step t sid pc w).2.
Proof.
  unfold release_step. destruct (w_session w !! sid) as [s|]; [|done]. destruct pc.
  - destruct (se_closed s); [done|]. apply persists_on. by right.
  - destruct (se_lock s); [done|]. cbn. eapply persists_eq; [|apply (persists_on w sid (with_lock (Some t)))].
    { done. } by right.
  - cbn. etrans; [apply persists_take|]. apply persists_on. by right.
Qed.
Lemma persists_touch sid w : persists w (touch_session sid w).
Proof. apply persists_on. by right. Qed.
Lemma persists_retain target b ids w : persists w (retain_batch target b ids w).2.
Proof.
  apply persists_same. unfold retain_batch, on_library. destruct (provider_id _); [|done].
  by destruct (retain_items _ _ _) as [[] ?].
Qed.

(** ... or get a new one, made from the library as it was. *)
Definition advances (w w' : World) : Prop := ∀ sid s', w_session w' !! sid = Some s' → se_items s' ≠ None →
  (∃ s, w_session w !! sid = Some s ∧ se_items s' = se_items s ∧ offered s' = offered s) ∨
  ∃ r, retained_from w s' r.
Lemma persists_advances w w' : persists w w' → advances w w'.
Proof. intros Hp sid s' Hs Hi. left. by eapply Hp. Qed.
Lemma advances_persists w w1 w2 : advances w w1 → persists w1 w2 → advances w w2.
Proof.
  intros Ha Hp sid s2 Hs2 Hi. destruct (Hp _ _ Hs2 Hi) as (s1 & Hs1 & He & Ho).
  destruct (Ha _ _ Hs1) as [(s & Hs & He' & Ho')|[r [Hr (t & b & ids & w3 & Hb)]]]; [congruence|left|right].
  - exists s. split_and!; congruence.
  - exists r. split; [congruence|]. exists t, b, ids, w3. by rewrite Ho.
Qed.
Lemma retain_batch_Ok target b ids w r w1 :
  retain_batch target b ids w = (Ok r, w1) →
  provider_id (tg_provider target) = Some (rt_provider r) ∧ ∃ c, w1 = set_library c w.
Proof.
  unfold retain_batch, on_library. destruct (provider_id _); [|done].
  destruct (retain_items _ _ _) as [[] ?]; intros [= <- <-]. split; [done|]. by eexists.
Qed.
(** A session takes a retention, and shows its batch. *)
Lemma advances_alter target b ids w r w1 sid g w' :
  retain_batch target b ids w = (Ok r, w1) → w_session w' = alter g sid (w_session w) →
  (∀ s, w_session w !! sid = Some s → se_items (g s) = Some r ∧ offered (g s) = batch_items b) →
  advances w w'.
Proof.
  intros Hr Hw Hg n s' Hs'. rewrite Hw in Hs'. destruct (decide (n = sid)) as [->|Hne].
  - rewrite list_lookup_alter_eq in Hs'. apply fmap_Some in Hs' as (s & Hs & ->). intros _. right.
    destruct (Hg _ Hs) as [Hi Ho]. pose proof Hr as [Hp _]%retain_batch_Ok.
    exists r. split; [done|]. by exists target, b, ids, w1.
  - rewrite list_lookup_alter_ne in Hs' by done. left. eauto.
Qed.
Lemma put_session sid r w s :
  w_session w !! sid = Some s → w_session (put_items sid r w) = alter (with_items (Some r)) sid (w_session w).
Proof. intros Hs. unfold put_items. rewrite Hs. cbn. by destruct (se_items s). Qed.

Lemma opening_advances t op target previous request epoch pc a w :
  advances w (opening_step t op target previous request epoch pc a w).
Proof.
  assert (∀ w', w_session w' = w_session w → advances w w') as Hsame
    by (intros; by apply persists_advances, persists_same).
  assert (∀ sid pc o w1 w', release_step t sid pc w = (o, w1) → w_session w' = w_session w1 → advances w w')
    as Hrel.
  { intros sid pc' o w1 w' Hr Hw. pose proof (persists_release t sid pc' w) as Hp. rewrite Hr in Hp.
    apply persists_advances. by eapply persists_eq. }
  unfold opening_step. destruct pc, a as [|r|r]; try (by apply Hsame).
  - repeat case_match; try (by apply Hsame). apply persists_advances.
    eapply persists_eq; [|apply persists_touch]; done.
  - repeat case_match; by apply Hsame.
  - destruct r; by apply Hsame.
  - destruct r as [batch|]; [|by apply Hsame].
    assert (∀ w', w_session w' = w_session w ++ [mk_Session target epoch false (w_instant w)
              (mk_Page (new_uuid (w_uuids w)) 1 batch) None None] → advances w w') as Hnew.
    { intros w' Hw' n s'. rewrite Hw'. intros [Hs|[_ Hs]]%lookup_app_Some Hi; [by left; exists s'|].
      by apply list_lookup_singleton_Some in Hs as [_ <-]. }
    destruct (validate_batch batch true); by apply Hnew.
  - destruct (w_session w !! sid) as [s|] eqn:Hs; [|by apply Hsame].
    destruct (retain_batch _ _ _ _) as [[r|e] w1] eqn:Hr.
    + eapply (advances_alter _ _ _ _ _ _ sid (with_items (Some r))); [exact Hr| |].
      * pose proof Hr as [_ [c ->]]%retain_batch_Ok. exact (put_session sid r (set_library c w) s Hs).
      * intros s1 Hs1. by simplify_eq.
    + apply persists_advances. eapply persists_eq; [|apply (persists_retain target (pg_batch (se_page s)) [] w)].
      by rewrite Hr.
  - repeat case_match; by apply Hsame.
  - by destruct (release_step _ _ _ _) as [[] w1] eqn:Hr; eapply Hrel.
  - by destruct (release_step _ _ _ _) as [[] w1] eqn:Hr; eapply Hrel.
  - by destruct (release_step _ _ _ _) as [[] w1] eqn:Hr; eapply Hrel.
Qed.
Lemma finish_advances t op r sid f w w1 :
  (∀ s, w_session w !! sid = Some s → mild f s) → w_session w1 = alter f sid (w_session w) →
  advances w (finish t op r (unlock sid w1)).
Proof.
  intros Hf Hw. apply persists_advances. etrans; [apply persists_on, Hf|].
  etrans; [|apply persists_on; by right]. by apply persists_same.
Qed.
Lemma continuing_advances t op target sid expected current pc a w :
  advances w (continuing_step t op target sid expected current pc a w).
Proof.
  assert (∀ w', w_session w' = w_session w → advances w w') as Hsame
    by (intros; by apply persists_advances, persists_same).
  assert (∀ w' r, w_session w' = w_session w → advances w (finish t op r (unlock sid w'))) as Hleave.
  { intros w' r Hw'. apply persists_advances. etrans; [by apply persists_same, Hw'|].
    eapply persists_eq; [done|apply (persists_on w' sid (with_lock None))]. by right. }
  unfold continuing_step. destruct (w_session w !! sid) as [s|] eqn:Hs; [|by apply Hsame].
  destruct pc as [|retained|retained batch], a as [|r|[batch'|e]]; try (by apply Hsame).
  - assert (persists w (on_session sid (with_lock (Some t)) w)) as Hlock by by apply persists_on; right.
    repeat case_match; first [by apply Hsame|by apply persists_advances; eapply persists_eq; [|exact Hlock]].
  - destruct (valid w s); cbn [negb].
    + repeat case_match; first [by apply Hleave|by apply Hsame].
    + apply (finish_advances _ _ _ _ (with_page (with_state (qb_state batch') (se_page s)))); [|done].
      intros s1 Hs1. by right; simplify_eq.
  - by apply Hleave.
  - destruct (retain_batch _ _ _ _) as [[r|e] w1] eqn:Hr.
    2:{ apply Hleave. by destruct (retain_batch_library _ _ _ _ _ _ Hr) as [c ->]. }
    pose proof Hr as [_ [c ->]]%retain_batch_Ok. destruct (valid _ s); cbn [negb].
    + eapply (advances_alter _ _ _ _ _ _ sid); [exact Hr| |].
      * unfold unlock. cbn. rewrite (put_session sid r (set_library c w) s Hs). cbn.
        exact (f_equal w_session (eq_trans (f_equal (on_session sid (with_lock None))
          (on_session_twice sid _ _ w)) (on_session_twice sid _ _ w))).
      * intros s1 Hs1. by simplify_eq.
    + apply (finish_advances _ _ _ _ (with_page (with_state (qb_state batch) (se_page s)))); [|done].
      intros s1 Hs1. by right; simplify_eq.
Qed.

Lemma remove_sessions_session p w : w_session (remove_sessions p w).2 = w_session w.
Proof. done. Qed.
Lemma operation_session key fp p w : w_session (operation key fp p w).2 = w_session w.
Proof. unfold operation. by repeat case_match. Qed.
Lemma step_advances w q : advances w (step w q).
Proof.
  assert (∀ w', w_session w' = w_session w → advances w w') as Hsame
    by (intros; by apply persists_advances, persists_same).
  destruct q; cbn [step]; try by apply Hsame.
  - apply Hsame. unfold open. destruct (check_operation_id _ _); [|done].
    pose proof (operation_session ("open/" +:+ operation_id)) as Ho.
    match goal with |- context [operation ?a ?b ?c ?d] =>
      specialize (Ho b c d); destruct (operation a b c d) as [[[? []]|] ?] end; done.
  - unfold next. destruct (_ ;; _) as [sid|e]; [|by apply Hsame]. apply persists_advances.
    match goal with |- context [operation ?a ?b ?c ?d] =>
      pose proof (operation_session a b c d) as Ho; destruct (operation a b c d) as [[[? []]|] ?] end;
      by eapply persists_eq; [|apply (persists_touch sid)].
  - apply Hsame. unfold close. by destruct (w_sessions w !! id).
  - unfold run. destruct (w_threads w !! t) as [[]|]; try by apply Hsame.
    + apply opening_advances.
    + apply continuing_advances.
    + apply Hsame. unfold wait_open_step. by repeat case_match.
    + unfold wait_next_step. repeat case_match; try (by apply Hsame).
      apply persists_advances. by eapply persists_eq; [|apply persists_touch].
    + unfold releasing_step. destruct sids as [|sid rest]; [by destruct prune; apply Hsame|].
      pose proof (persists_release t sid pc w) as Hp. destruct (release_step t sid pc w) as [[] w1];
        apply persists_advances; by eapply persists_eq; [|exact Hp].
  - unfold timeout. destruct (w_threads w !! t) as [[]|]; try by apply Hsame.
    + assert (∀ sid, persists w (unlock sid (take_items sid w))) as Hboth.
      { intros sid. etrans; [apply persists_take|]. apply persists_on. by right. }
      apply persists_advances. unfold opening_timeout. destruct pc as [| | | | | |sid v b []]; try by apply persists_same.
      * by eapply persists_eq; [|apply (persists_take w sid)].
      * by eapply persists_eq; [|apply (Hboth sid)].
    + apply persists_advances. destruct pc; [by apply persists_same|..];
        (eapply persists_eq; [|apply (persists_on _ sid (with_lock None)); by right]); done.
Qed.
(** Every retention of a session was made in a world the sessions have been through. *)
Lemma retained_earlier w sid s r :
  reachable w → w_session w !! sid = Some s → se_items s = Some r →
  ∃ w0 l, reachable w0 ∧ w = steps_all w0 l ∧ retained_from w0 s r.
Proof.
  intros (ep & rg & c & l & Hh & Hr & ->). revert sid s r.
  assert (∀ l, reachable (steps_all (initial ep rg c) l)) as Hreach by (intros k; by exists ep, rg, c, k).
  induction l as [|q l IH] using rev_ind; intros sid s r Hs Hi; [done|].
  assert (∀ k, steps_all (steps_all (initial ep rg c) l) k = steps_all (initial ep rg c) (l ++ k)) as Happ
    by (intros k; unfold steps_all; by rewrite foldl_app).
  rewrite <-Happ in Hs |- *. cbn in Hs.
  destruct (step_advances _ q _ _ Hs) as [(s0 & Hs0 & He & Ho)|[r' [Hr' Hm]]]; [congruence| |].
  - destruct (IH sid s0 r) as (w0 & k & Hw0 & Hk & [_ (tg & b & ids & w1 & Hb)]); [done|congruence|].
    exists w0, (k ++ [q]). split_and!; [done|rewrite Hk; unfold steps_all; by rewrite foldl_app|].
    split; [done|]. exists tg, b, ids, w1. by rewrite Ho.
  - assert (r' = r) as -> by congruence. exists (steps_all (initial ep rg c) l), [q]. by split_and!.
Qed.
End origin.
