(* ===== verification/RadioFacts.v ===== *)
(** * Radio sessions: what listeners and providers can rely on *)
From S2P Require Import Prelude Text Tables Integrity Coordinator Batch SyncRun Effects Sessions Pruning Fixture Retained Radio Ledger RadioSteps Rest Closure.
From stdpp Require Import options.
#[local] Set Default Proof Using "Type*".

Open Scope string_scope.
Open Scope Z_scope.
Open Scope list_scope.

Section facts.
Context `{Environment} `{BatchCodec} `{RadioLibrary} `{!Inj (=) (=) new_uuid}.

Lemma listed_covered ph ru x w n sid s :
  Inv ph ru x w → w_sessions w !! n = Some sid → w_session w !! sid = Some s →
  se_closed s = false ∧ sid ∉ (w_closes w).*1 ∧
  ∃ r, se_items s = Some r ∧ provider_id (tg_provider (se_target s)) = Some (rt_provider r) ∧
    ∀ i, i ∈ rt_ids r → i ∈ retained_items (rt_provider r) (c_sync (w_library w)).
Proof.
  intros HI [Hl ->]%(iv_table _ _ _ _ HI) Hs.
  pose proof (iv_session _ _ _ _ HI _ _ _ Hs Hl) as (_ & Hc & (r & Hr & Hp & Hsub) & Hcl).
  split_and!; [done..|]. exists r. split_and!; [done..|]. intros i Hi.
  eapply retained_by_items; [apply (iv_retained _ _ _ _ HI)|]. exists (hold r).
  split; [|by split]. rewrite !elem_of_app. right. right.
  unfold held. apply list_elem_of_bind. exists s. split; [|by eapply list_elem_of_lookup_2].
  unfold holds. rewrite Hr. by left.
Qed.

(** C9. The songs of a session the listener can continue are safe from the synchronisation.
    When the session took them from the provider, in the world [w0], it retained them with
    their albums and the artists of both, as the library related them then, and all of that is
    still retained. A full run of the provider that ends well and keeps the library a song is
    in leaves the song's item, named or not; and if the song's album is retained too, or was
    named, it leaves the song's row and its album, and of their artists, and what relates
    them, all that are retained or were named. *)
Theorem radio_songs_survive w n sid s i :
  reachable w → well_formed (sy_tables (c_sync (w_library w))) →
  w_sessions w !! n = Some sid → w_session w !! sid = Some s → i ∈ offered s →
  ∃ p r w0 l, provider_id (tg_provider (se_target s)) = Some p ∧
    (reachable w0 ∧ w = steps_all w0 l ∧ retained_from w0 s r) ∧
    let t0 := sy_tables (c_sync (w_library w0)) in
    let t := sy_tables (c_sync (w_library w)) in
    let kept := retained_items p (c_sync (w_library w)) in
    i ∈ kept ∧
    (∀ b u, t_rel_song_artist t0 !! (i, b) = Some u → b ∈ kept) ∧
    (∀ so a, t_song t0 !! i = Some so → so_album so = Some a →
       a ∈ kept ∧ ∀ b u, t_rel_album_artist t0 !! (a, b) = Some u → b ∈ kept) ∧
    ∀ k run m, c_runs (w_library w) !! k = Some run → r_provider run = p →
      (call Finalize (run, c_sync (w_library w))).1 = Ok tt →
      t_item t !! i = Some m → (∀ l, i_library m = Some l → l ∈ r_libraries run) →
      let t' := sy_tables (c_sync (w_library (step w (Library_ (Call k Finalize))))) in
      let spared j := j ∈ r_seen run ∨ j ∈ kept in
      t_item t' !! i = Some m ∧
      ∀ so, t_song t !! i = Some so → (∀ a, so_album so = Some a → spared a) →
        t_song t' !! i = Some so ∧
        (∀ b u, t_rel_song_artist t !! (i, b) = Some u → spared b →
           t_rel_song_artist t' !! (i, b) = Some u ∧ t_artist t' !! b = t_artist t !! b) ∧
        (∀ a, so_album so = Some a → t_album t' !! a = t_album t !! a ∧
           ∀ b u, t_rel_album_artist t !! (a, b) = Some u → spared b →
             t_rel_album_artist t' !! (a, b) = Some u ∧ t_artist t' !! b = t_artist t !! b).
Proof.
  intros Hreach Hwf Hn Hs Hi. pose proof (reachable_good _ Hreach) as (ph & ru & HI).
  destruct (listed_covered _ _ _ _ _ _ _ HI Hn Hs) as (_ & _ & r & Hr & Hp & Hret).
  destruct (retained_earlier _ _ _ _ Hreach Hs Hr) as (w0 & l & Hw0 & Hw & Hfrom).
  pose proof (retained_from_closed _ _ _ Hfrom) as [Hroots Halb Hart Haa].
  exists (rt_provider r), r, w0, l. split_and!; [done..|].
  intros t0 t kept. split_and!; [by apply Hret, Hroots|intros; eapply Hret, Hart; eauto| |].
  { intros so a Hso Ha. split; [by eapply Hret, Halb|]. intros b u Hu. by eapply Hret, Haa. }
  intros k run m Hk Hrun Hok Hm Hl t' spared.
  assert (∀ j, spared j → wanted (w_library w) run j) as Hwanted.
  { intros j. unfold wanted, spared, kept. by rewrite Hrun. }
  assert (wanted (w_library w) run i) as Hwi by (apply Hwanted; right; by apply Hret, Hroots).
  split; [by eapply item_left|]. intros so Hso Ha.
  destruct (song_survives _ k run i m Hwf Hk Hok Hm Hl so Hwi Hso) as (Hso' & Hsa & Hal); [eauto|].
  split_and!; [done|eauto|]. intros a Hsoa. destruct (Hal a Hsoa) as [? ?]. split; [done|eauto].
Qed.

(** What a step of a continuation answers with. *)
Lemma drop_operations r w : w_operation (drop_retention r w) = w_operation w.
Proof. by destruct r. Qed.
Lemma unlock_operations sid w : w_operation (unlock sid w) = w_operation w.
Proof. done. Qed.
Lemma retain_operations_same target b ids w r w' :
  retain_batch target b ids w = (r, w') → w_operation w' = w_operation w.
Proof.
  unfold retain_batch, on_library. destruct (provider_id _); [|by intros [= _ <-]].
  destruct (retain_items _ _ _) as [[] ?]; by intros [= _ <-].
Qed.
Lemma continuing_answer w t op target sid e current pc a page :
  (∀ p, ¬ answered w op p) →
  answered (continuing_step t op target sid e current pc a w) op page →
  ∃ s items batch retained c, w_session w !! sid = Some s ∧ pc = NRetain retained batch ∧
    retain_batch target batch retained w = (Ok items, set_library c w) ∧
    page = mk_Page (pg_session (se_page s)) (pg_version (se_page s) + 1) batch ∧
    ∃ s', w_session (continuing_step t op target sid e current pc a w) !! sid = Some s' ∧
      se_page s' = page.
Proof.
  intros Hno Ha. unfold continuing_step in *.
  assert (∀ e w', w_operation w' = w_operation w → ¬ answered (finish t op (Err e) w') op page) as Herr.
  { intros err w' Hw' [[_ ?]|[? _]]%finish_answered; done. }
  assert (∀ w', w_operation w' = w_operation w → ¬ answered w' op page) as Hsame.
  { intros w' Hw' (b & Hb & Hr). apply (Hno page). exists b. by rewrite <-Hw'. }
  destruct (w_session w !! sid) as [s|] eqn:Hs; [|by apply Hno in Ha].
  destruct pc as [|retained|retained batch].
  - exfalso. revert Ha. destruct a; [|by apply Hno..].
    repeat case_match; first [by apply Herr|by apply Hsame].
  - exfalso. revert Ha. destruct a as [| |[batch|err]]; [by apply Hno..| |by apply Herr].
    repeat case_match; first [by apply Herr|by apply Hsame].
  - destruct a; [|by apply Hno in Ha..].
    destruct (retain_batch target batch retained w) as [[items|err] w1] eqn:Hr.
    2:{ exfalso. revert Ha. apply Herr. by rewrite unlock_operations, (retain_operations_same _ _ _ _ _ _ Hr). }
    pose proof (retain_operations_same _ _ _ _ _ _ Hr) as Hop.
    destruct (valid w1 s); cbn [negb] in *.
    2:{ exfalso. revert Ha. apply Herr. by rewrite unlock_operations, drop_operations. }
    apply finish_answered in Ha as [[_ [= <-]]|[? _]]; [|done].
    assert (∃ c, w1 = set_library c w) as [c ->].
    { revert Hr. unfold retain_batch, on_library. destruct (provider_id _); [|done].
      destruct (retain_items _ _ _) as [[] ?]; [|done]. intros [= _ <-]. by eexists. }
    exists s, items, batch, retained, c. split_and!; [done..|].
    unfold put_items. cbn [w_session set_library]. rewrite Hs.
    unfold unlock. rewrite !on_session_twice, <-drop_on_session.
    exists (with_lock None (with_page (mk_Page (pg_session (se_page s)) (pg_version (se_page s) + 1)
      batch) (with_items (Some items) s))). split; [|done].
    by destruct (se_items s) eqn:Hi; cbn; rewrite list_lookup_alter_eq, Hs.
Qed.

(** Continuations are optimistic and each page is made once: an operation that expects
    version [e] of a session and answers with a page leaves the session at exactly that page,
    version [e + 1], and every page of the session any other operation ever answered with has
    a smaller version. *)
Theorem continuation_advances w t op target sid e current pc a page :
  reachable w → w_threads w !! t = Some (Continuing op target sid e current pc) →
  let w' := step w (Run t a) in
  answered w' op page →
  (∃ s', w_session w' !! sid = Some s' ∧ se_page s' = page) ∧ pg_version page = e + 1 ∧
  ∀ o page', o ≠ op → answered w' o page' → pg_session page' = pg_session page →
    pg_version page' ≤ e.
Proof.
  intros Hreach Ht w' Ha. pose proof (reachable_good _ Hreach) as (ph & ru & HI).
  assert (∀ p, ¬ answered w op p) as Hno.
  { intros p (b & Hb & Hr). destruct (iv_task _ _ _ _ HI _ _ op Ht eq_refl) as (_ & b' & Hb' & Hn).
    congruence. }
  subst w'. cbn [step] in *. unfold run in *. rewrite Ht in *.
  destruct (continuing_answer _ _ _ _ _ _ _ _ _ _ Hno Ha) as
    (s & items & batch & retained & c & Hs & Hpc & Hr & Hpage & Hs').
  destruct (iv_holding _ _ _ _ HI _ _ sid e Ht) as (s1 & Hs1 & _ & Hv); [by rewrite Hpc|].
  simplify_eq. split_and!; [done|by cbn|].
  intros o page' Hne Ho Heq. cbn in Heq.
  assert (answered w o page') as Hw.
  { revert Ho. unfold continuing_step. rewrite Hs, Hr.
    destruct a; [|done..]. destruct (negb _).
    - intros [[? _]|[_ (b & Hb & Hp)]]%finish_answered; [done|]. exists b.
      by rewrite unlock_operations, drop_operations in Hb.
    - intros [[? _]|[_ (b & Hb & Hp)]]%finish_answered; [done|]. exists b. split; [|done].
      rewrite <-Hb. unfold put_items. cbn. rewrite Hs. cbn. by rewrite drop_operations. }
  destruct (iv_result _ _ _ _ HI _ _ Hw) as (i & s2 & p & Hs2 & Hp & _ & Hn & Hle).
  destruct (lookup_lt_is_Some_2 ph sid) as [p0 Hp0].
  { rewrite (iv_phases _ _ _ _ HI). by eapply lookup_lt_Some. }
  pose proof (iv_session _ _ _ _ HI _ _ _ Hs Hp0) as [Hname _].
  rewrite Hn, Hname in Heq. apply (inj new_uuid) in Heq as ->. by simplify_eq.
Qed.

(** C17. Sessions are given back once: the listed ones, at most [MAX_SESSIONS], are open and
    were never closed; [close_queue] is called at most once for a session; and once the
    threads are at rest, a session some operation answered with is listed or was closed. *)
Theorem sessions_close_once w :
  reachable w →
  Z.of_nat (size (w_sessions w)) ≤ MAX_SESSIONS ∧ NoDup (w_closes w).*1 ∧
  (∀ n sid, w_sessions w !! n = Some sid → ∃ s, w_session w !! sid = Some s ∧
     pg_session (se_page s) = n ∧ se_closed s = false ∧ sid ∉ (w_closes w).*1) ∧
  (at_rest w → ∀ o page, answered w o page → ∃ sid s,
     w_session w !! sid = Some s ∧ pg_session (se_page s) = pg_session page ∧
     (w_sessions w !! pg_session page = Some sid ∨ se_closed s = true ∧ sid ∈ (w_closes w).*1)).
Proof.
  intros (ph & ru & HI)%reachable_good. split_and!; [apply HI|apply HI| |].
  - intros n sid Hn. pose proof (proj1 (iv_table _ _ _ _ HI _ _) Hn) as [Hl ->].
    destruct (lookup_lt_is_Some_2 (w_session w) sid) as [s Hs].
    { rewrite <-(iv_phases _ _ _ _ HI). by eapply lookup_lt_Some. }
    exists s. pose proof (iv_session _ _ _ _ HI _ _ _ Hs Hl) as (Hname & _).
    destruct (listed_covered _ _ _ _ _ _ _ HI Hn Hs) as (? & ? & _). done.
  - intros Hrest o page Ha.
    destruct (iv_result _ _ _ _ HI _ _ Ha) as (sid & s & p & Hs & Hp & Hk & Hname & _).
    pose proof (iv_session _ _ _ _ HI _ _ _ Hs Hp) as [Hn Hok].
    exists sid, s. split_and!; [done|congruence|].
    destruct p as [t st| |k]; cbn in *.
    + by apply (rest_unowned _ _ _ _ _ _ _ HI Hrest) in Hp.
    + left. by apply (iv_table _ _ _ _ HI).
    + right. by apply Hok.
Qed.

Lemma held_nil l : (∀ s, s ∈ l → holds s = []) → held l = [].
Proof.
  unfold held. induction l as [|s l IH]; intros Hl; [done|]. cbn.
  rewrite Hl by left. apply IH. intros s' Hs'. apply Hl. by right.
Qed.
(** C18. Shutting down ends everything: whatever the sessions were doing, their threads can be
    run to their ends with no more requests, and once they are at rest no session is listed,
    every operation has its answer, and of the items of the library just those are retained
    that are retained from elsewhere. *)
Theorem shutdown_releases w :
  reachable w → w_stopped w = true →
  (∃ l, Forall (λ q, internal q = true) l ∧ at_rest (steps_all w l)) ∧
  ∀ l, Forall (λ q, internal q = true) l → let w' := steps_all w l in at_rest w' →
    w_sessions w' = ∅ ∧
    (∀ o a, w_operation w' !! o = Some a → op_result a ≠ None) ∧
    (∀ p i, i ∈ retained_items p (c_sync (w_library w')) ↔
       ∃ h, h ∈ c_handles (w_library w') ∧ h.1 = p ∧ i ∈ h.2).
Proof.
  intros Hreach Hs. split.
  { apply comes_to_rest; [by apply reachable_good|by apply reachable_tidy]. }
  intros l Hl w' Hrest.
  assert (w_stopped w' = true) as Hs' by by unfold w'; rewrite steps_stopped.
  pose proof (reachable_good _ (steps_reachable w l Hreach)) as (ph & ru & HI). fold w' in HI.
  assert (w_sessions w' = ∅) as Hempty.
  { destruct (iv_stopped _ _ _ _ HI Hs') as [He|[t Ht]]; [done|]. by destruct (Hrest _ _ Ht). }
  split_and!; [done| |].
  - intros o a Ha Hn. destruct (iv_pending _ _ _ _ HI _ _ Ha Hn) as (t & th & Ht & Hk).
    by destruct (Hrest _ _ Ht) as [r ->].
  - intros p i. assert (held (w_session w') = []) as Hheld.
    { apply held_nil. intros s [sid Hsid]%list_elem_of_lookup_1.
      destruct (lookup_lt_is_Some_2 ph sid) as [q Hq].
      { rewrite (iv_phases _ _ _ _ HI). by eapply lookup_lt_Some. }
      pose proof (iv_session _ _ _ _ HI _ _ _ Hsid Hq) as [_ Hok]. destruct q as [t st| |k].
      - by apply (rest_unowned _ _ _ _ _ _ _ HI Hrest) in Hq.
      - assert (w_sessions w' !! new_uuid sid = Some sid) as Hn by by apply (iv_table _ _ _ _ HI).
        by rewrite Hempty, lookup_empty in Hn.
      - unfold holds. by rewrite (proj1 Hok). }
    pose proof (iv_retained _ _ _ _ HI) as Hret. rewrite Hheld in Hret. cbn in Hret.
    rewrite app_nil_r in Hret. by apply retained_by_iff.
Qed.
End facts.

(** ** A station over the small library *)

#[export] Instance station : RadioLibrary := {|
  provider_id p := if p =? 7 then Some 1 else None;
  fingerprint_open _ _ previous _ _ _ := previous;
  fingerprint_next _ current := String.concat "," current;
  uuid_ok _ := true;
  new_uuid n := Nat.iter (S n) (String (chr 97)) ""
|}.
#[export] Instance station_uuids : Inj (=) (=) (new_uuid (RadioLibrary := station)).
Proof.
  assert (∀ k, String.length (new_uuid k) = S k) as Hl.
  { induction k as [|k IH]; [done|].
    change (S (String.length (new_uuid k)) = S (S k)). by rewrite IH. }
  intros n m Heq. assert (S n = S m) as [=->]; [by rewrite <-(Hl n), <-(Hl m), Heq|done].
Qed.

(** The second run names one song of two, and not their album. *)
Definition unnamed_album : Config :=
  serve_all synced (filter (λ q, match q with
    | Call _ (ObserveItems scope _) => negb (bool_decide (scope = album_scope))
    | _ => true
    end = true) (run_up_to_seal 1 ["s1"]%string)).
Definition bare_run : SyncRun :=
  mk_SyncRun 1 2 0 (list_to_set scopes) (list_to_set scopes) {[2; 3; 5]} {[1]}
    true true true false None.
Definition song_of (i : Z) : list (Z * Song) :=
  match t_song (sy_tables (c_sync unnamed_album)) !! i with Some s => [(i, s)] | None => [] end.
Definition page_of (songs : list Z) (state : string) : QueueBatch :=
  mk_QueueBatch (songs ≫= song_of) state ∅ (mk_QueuePresentation "" None) false.
Definition the_target : Target := mk_Target 1 "radio" 7.
Definition the_request : QueueOpenRequest := mk_QueueOpenRequest ∅ None Initial None.
Definition before_opening : World := initial (λ _, 0) {[1 := 7]} unnamed_album.
Definition opening : list Label :=
  [Open the_target "0:a" "" the_request; Run 0 Go; Run 0 (Definition_ (Ok []));
   Run 0 (Batch_ (Ok (page_of [4] "one"))); Run 0 Go; Run 0 Go; Run 1 Go].
Definition playing : World := steps_all before_opening opening.
Definition continuing : list Label :=
  [Next the_target "a" "0:b" 1 []; Run 2 Go; Run 2 (Batch_ (Ok (page_of [3; 4] "two")))].
Definition nearly : World := steps_all playing continuing.
Definition stopping : World := step nearly Shutdown.

Lemma before_opening_reachable l : reachable (steps_all before_opening l).
Proof.
  exists (λ _, 0), {[1 := 7]}, unnamed_album, l. split_and!; [done| |done].
  intros p. unfold state.
  assert (map_Forall (λ _ st, ps_retained st = ∅) (sy_providers (c_sync unnamed_album))) as Hall.
  { apply (bool_decide_unpack _). vm_compute. exact I. }
  destruct (sy_providers _ !! p) as [st|] eqn:Hp; [|done]. by apply (Hall p st).
Qed.
Lemma playing_reachable l : reachable (steps_all playing l).
Proof.
  unfold playing, steps_all. rewrite <-foldl_app. apply before_opening_reachable.
Qed.
Lemma stopping_reachable : reachable stopping.
Proof.
  change stopping with (steps_all nearly [Shutdown]). unfold nearly, steps_all. rewrite <-foldl_app.
  apply playing_reachable.
Qed.
Lemma playing_well_formed : well_formed (sy_tables (c_sync (w_library playing))).
Proof.
  assert (sy_tables (c_sync (w_library playing)) = sy_tables (c_sync unnamed_album)) as ->.
  { vm_compute. reflexivity. }
  apply serve_all_upkeep, synced_well_formed.
Qed.

(** The run that would have pruned the second song, and the row of every song with their
    album, leaves the song to the listener. *)
Lemma radio_songs_survive_witness :
  let t := sy_tables (c_sync (w_library playing)) in
  let t' := sy_tables (c_sync (w_library (step playing (Library_ (Call 1 Finalize))))) in
  4 ∈ retained_items 1 (c_sync (w_library playing)) ∧ is_Some (t_song t !! 4) ∧
  t_song t' !! 4 = t_song t !! 4 ∧ t_album t' !! 1 = t_album t !! 1 ∧
  t_song (sy_tables (c_sync (serve unnamed_album (Call 1 Finalize)))) !! 4 = None.
Proof.
  intros t t'. destruct (w_session playing !! 0%nat) as [s|] eqn:Hs; [|vm_compute in Hs; discriminate].
  destruct (radio_songs_survive playing "a" 0 s 4) as (p & r & w0 & l & Hp & _ & Hret & _ & _ & Hfin).
  - exact (before_opening_reachable opening).
  - apply playing_well_formed.
  - vm_compute. reflexivity.
  - exact Hs.
  - vm_compute in Hs. injection Hs as <-. apply (bool_decide_unpack _). vm_compute. exact I.
  - assert (p = 1) as ->.
    { vm_compute in Hs. injection Hs as <-. cbv in Hp. congruence. }
    split; [exact Hret|].
    assert (∃ m, t_item t !! 4 = Some m ∧ i_library m = Some 1) as (m & Hm & Hml)
      by (eexists; split; vm_compute; reflexivity).
    assert (∃ so, t_song t !! 4 = Some so ∧ so_album so = Some 1) as (so & Hso & Hal)
      by (eexists; split; vm_compute; reflexivity).
    destruct (Hfin 1%nat bare_run m) as (_ & Hsong).
    + vm_compute. reflexivity.
    + reflexivity.
    + vm_compute. reflexivity.
    + exact Hm.
    + intros l' Hl'. assert (l' = 1) as -> by congruence.
      apply (bool_decide_unpack _). vm_compute. exact I.
    + destruct (Hsong so Hso) as (Hleft & _ & Halbum).
      { intros a Ha. assert (a = 1) as -> by congruence. right.
        apply (bool_decide_unpack _). vm_compute. exact I. }
      split; [exists so; exact Hso|]. split; [exact (eq_trans Hleft (eq_sym Hso))|].
      split; [apply (Halbum 1 Hal)|vm_compute; reflexivity].
Defined.
Lemma continuation_advances_witness :
  ∃ page, answered (step nearly (Run 2 Go)) 1 page ∧ pg_version page = 2.
Proof.
  assert (∃ a page, w_operation (step nearly (Run 2 Go)) !! 1%nat = Some a ∧
            op_result a = Some (Ok page)) as (a & page & Ha & Hr).
  { do 2 eexists. split; vm_compute; reflexivity. }
  assert (∃ pc, w_threads nearly !! 2%nat = Some (Continuing 1 the_target 0 1 [] pc)) as [pc Ht].
  { eexists. vm_compute. reflexivity. }
  assert (answered (step nearly (Run 2 Go)) 1 page) as Hans by (exists a; split; [exact Ha|exact Hr]).
  exists page. split; [exact Hans|].
  destruct (continuation_advances nearly 2 1 the_target 0 1 [] pc Go page) as (_ & Hv & _).
  - apply playing_reachable.
  - exact Ht.
  - exact Hans.
  - exact Hv.
Defined.
Lemma sessions_close_once_witness :
  NoDup (w_closes stopping).*1 ∧ Z.of_nat (size (w_sessions stopping)) ≤ MAX_SESSIONS.
Proof.
  destruct (sessions_close_once stopping) as (Hs & Hn & _).
  - exact stopping_reachable.
  - split; [exact Hn|exact Hs].
Defined.
Lemma shutdown_releases_witness :
  (∃ l, Forall (λ q, internal q = true) l ∧ at_rest (steps_all stopping l)).
Proof.
  apply (shutdown_releases stopping).
  - exact stopping_reachable.
  - vm_compute. reflexivity.
Defined.
