(* ===== verification/Sql.v ===== *)
(** * Queries: conditions of the database

    The part of SQL the queries of the user interface are made of, with its meaning over the
    tables of [Tables.v]: columns of the rows in scope, three-valued comparisons, and [EXISTS]
    of a correlated selection with inner joins. The code builds these conditions with a
    library; here they are data, and [eval] is what the database makes of them. *)
From Stdlib Require Import SpecFloat.
From S2P Require Import Prelude Text Tables.
From stdpp Require Import options.

Open Scope string_scope.
Open Scope Z_scope.
Open Scope list_scope.

(** ** Values *)

Inductive Value := Null | Int (n : Z) | Real (x : spec_float) | Str (s : string).
#[export] Instance spec_float_eq_dec : EqDecision spec_float.
Proof. solve_decision. Defined.
#[export] Instance Value_eq_dec : EqDecision Value.
Proof. solve_decision. Defined.
Definition opt_int (o : option Z) : Value := match o with Some n => Int n | None => Null end.
Definition opt_str (o : option string) : Value := match o with Some s => Str s | None => Null end.
Definition bool_int (b : bool) : Z := if b then 1 else 0.

Inductive Cmp := Eq | Ne | Lt | Le | Gt | Ge.

(** What the database does with texts: [LIKE], and the number a text reads as when it is
    compared with a column of numbers; and comparisons with reals, which no condition makes. *)
Class Sqlite := {
  like : string → string → bool;
  numeric : string → option Z;
  real_compare : Cmp → Value → Value → option bool;
}.

Definition cmp_Z (op : Cmp) (a b : Z) : bool :=
  match op with
  | Eq => a =? b | Ne => negb (a =? b) | Lt => a <? b | Le => a <=? b | Gt => b <? a
  | Ge => b <=? a
  end.
(** Texts compare by their bytes. *)
Definition cmp_str (op : Cmp) (a b : string) : bool :=
  match op with
  | Eq => bool_decide (a = b)
  | Ne => negb (bool_decide (a = b))
  | Lt => String.ltb a b
  | Le => negb (String.ltb b a)
  | Gt => String.ltb b a
  | Ge => negb (String.ltb a b)
  end.
(** A number is less than any text. *)
Definition cmp_class (op : Cmp) : bool :=
  match op with Ne | Lt | Le => true | _ => false end.

Section values.
Context `{Sqlite}.
(** [column op value]; [None] is unknown. A text that is compared with a number is read as a
    number, if it is one. *)
Definition compare (op : Cmp) (a b : Value) : option bool :=
  match a, b with
  | Null, _ | _, Null => None
  | Int x, Int y => Some (cmp_Z op x y)
  | Str x, Str y => Some (cmp_str op x y)
  | Int x, Str y =>
      Some (match numeric y with Some y => cmp_Z op x y | None => cmp_class op end)
  | Str x, Int y =>
      Some (match numeric x with
            | Some x => cmp_Z op x y
            | None => match op with Ne | Gt | Ge => true | _ => false end
            end)
  | Real _, _ | _, Real _ => real_compare op a b
  end.
Definition like_value (v : Value) (pattern : string) : option bool :=
  match v with Str s => Some (like pattern s) | _ => None end.
End values.

(** ** Rows and columns *)

Inductive Table :=
| TAlbum | TArtist | TSong | TMix | TRemoteMix | TDynamic | TItem
| TRelSongArtist | TRelAlbumArtist | TRelMixSong.
#[export] Instance Table_eq_dec : EqDecision Table.
Proof. solve_decision. Defined.

Inductive Column :=
| AlbumId | AlbumName | AlbumTrackCount | AlbumDuration | AlbumPublishTime | AlbumAddedAt
| AlbumType_ | AlbumDiscCount | AlbumSortName
| ArtistId | ArtistName | ArtistAddedAt | ArtistSortName | ArtistAlbumCount | ArtistMusicCount
| SongId | SongAlbumId | SongName | SongSortName | SongTrackNumber | SongDiscNumber
| SongDuration | SongPopularity | SongPublishTime
| MixId | MixName | MixTrackCount | MixMixType | MixRemoteId
| RemoteMixId | RemoteMixName | RemoteMixMixType | RemoteMixTrackCount
| DynamicId | DynamicLastPlayedAt | DynamicIsExternal
| ItemId | ItemLibraryId
| RelSongArtistSong | RelSongArtistArtist
| RelAlbumArtistAlbum | RelAlbumArtistArtist
| RelMixSongMix | RelMixSongSong | RelMixSongOrderIdx.
#[export] Instance Column_eq_dec : EqDecision Column.
Proof. solve_decision. Defined.

(** A column in a statement: with its table, or by its name alone. *)
Inductive ColRef := Of (c : Column) | Named (c : Column).
Coercion Of : Column >-> ColRef.
Definition col (r : ColRef) : Column := match r with Of c | Named c => c end.

(** A row of a table, with its key. *)
Inductive Row :=
| RAlbum (id : Z) (r : Album)
| RArtist (id : Z) (r : Artist)
| RSong (id : Z) (r : Song)
| RMix (id : Z) (r : Mix)
| RRemoteMix (id : Z) (r : RemoteMix)
| RDynamic (id : Z) (r : Dynamic)
| RItem (id : Z) (r : Item)
| RRelSongArtist (song artist : Z)
| RRelAlbumArtist (album artist : Z)
| RRelMixSong (mix song : Z) (r : MixSong).

Definition album_type_value (x : AlbumType.t) : Z :=
  match x with
  | AlbumType.Unknown => 0 | AlbumType.Album => 1 | AlbumType.EP => 2 | AlbumType.Single => 3
  | AlbumType.Soundtrack => 4 | AlbumType.Compilation => 5 | AlbumType.Live => 6
  end.
Definition mix_type_value (x : MixType.t) : Z :=
  match x with MixType.Normal => 0 | MixType.Link => 1 | MixType.Cache => 2 end.

(** The value of a column, if the row is of its table. *)
Definition field (c : Column) (r : Row) : option Value :=
  match c, r with
  | AlbumId, RAlbum i _ => Some (Int i)
  | AlbumName, RAlbum _ r => Some (Str (al_name r))
  | AlbumTrackCount, RAlbum _ r => Some (Int (al_track_count r))
  | AlbumDuration, RAlbum _ r => Some (Int (al_duration r))
  | AlbumPublishTime, RAlbum _ r => Some (opt_int (al_publish_time r))
  | AlbumAddedAt, RAlbum _ r => Some (opt_int (al_added_at r))
  | AlbumType_, RAlbum _ r => Some (Int (album_type_value (al_type r)))
  | AlbumDiscCount, RAlbum _ r => Some (Int (al_disc_count r))
  | ArtistId, RArtist i _ => Some (Int i)
  | ArtistName, RArtist _ r => Some (Str (ar_name r))
  | ArtistAddedAt, RArtist _ r => Some (opt_int (ar_added_at r))
  | SongId, RSong i _ => Some (Int i)
  | SongAlbumId, RSong _ r => Some (opt_int (so_album r))
  | MixName, RMix _ r => Some (Str (mx_name r))
  | MixTrackCount, RMix _ r => Some (Int (mx_track_count r))
  | MixMixType, RMix _ r => Some (Int (mix_type_value (mx_mix_type r)))
  | MixRemoteId, RMix _ r => Some (opt_int (mx_remote r))
  | RemoteMixId, RRemoteMix i _ => Some (Int i)
  | RemoteMixName, RRemoteMix _ r => Some (Str (rm_name r))
  | RemoteMixMixType, RRemoteMix _ r => Some (Str (rm_mix_type r))
  | RemoteMixTrackCount, RRemoteMix _ r => Some (Int (rm_track_count r))
  | DynamicId, RDynamic i _ => Some (Int i)
  | DynamicLastPlayedAt, RDynamic _ r => Some (opt_int (dy_last_played r))
  | DynamicIsExternal, RDynamic _ r => Some (Int (bool_int (dy_external r)))
  | ItemId, RItem i _ => Some (Int i)
  | ItemLibraryId, RItem _ r => Some (opt_int (i_library r))
  | RelSongArtistSong, RRelSongArtist s _ => Some (Int s)
  | RelSongArtistArtist, RRelSongArtist _ a => Some (Int a)
  | RelAlbumArtistAlbum, RRelAlbumArtist l _ => Some (Int l)
  | RelAlbumArtistArtist, RRelAlbumArtist _ a => Some (Int a)
  | RelMixSongMix, RRelMixSong m _ _ => Some (Int m)
  | RelMixSongSong, RRelMixSong _ s _ => Some (Int s)
  | RelMixSongOrderIdx, RRelMixSong _ _ r => Some (Int (ms_order r))
  | AlbumSortName, RAlbum _ r => Some (opt_str (al_sort_name r))
  | ArtistSortName, RArtist _ r => Some (opt_str (ar_sort_name r))
  | ArtistAlbumCount, RArtist _ r => Some (Int (ar_album_count r))
  | ArtistMusicCount, RArtist _ r => Some (Int (ar_music_count r))
  | SongName, RSong _ r => Some (Str (so_name r))
  | SongSortName, RSong _ r => Some (opt_str (so_sort_name r))
  | SongTrackNumber, RSong _ r => Some (Int (so_track_number r))
  | SongDiscNumber, RSong _ r => Some (Int (so_disc_number r))
  | SongDuration, RSong _ r => Some (Int (so_duration r))
  | SongPopularity, RSong _ r => Some (Real (so_popularity r))
  | SongPublishTime, RSong _ r => Some (opt_int (so_publish_time r))
  | MixId, RMix i _ => Some (Int i)
  | _, _ => None
  end.
(** The rows in scope, the innermost first: the nearest row of the column's table counts. A
    table joined from the left without a match has no row, and its columns are [NULL]. *)
Fixpoint column (scope : list Row) (c : ColRef) : Value :=
  match scope with
  | [] => Null
  | r :: scope => match field (col c) r with Some v => v | None => column scope c end
  end.

Definition rows (t : Tables) (tb : Table) : list Row :=
  match tb with
  | TAlbum => (λ kr, RAlbum kr.1 kr.2) <$> map_to_list (t_album t)
  | TArtist => (λ kr, RArtist kr.1 kr.2) <$> map_to_list (t_artist t)
  | TSong => (λ kr, RSong kr.1 kr.2) <$> map_to_list (t_song t)
  | TMix => (λ kr, RMix kr.1 kr.2) <$> map_to_list (t_mix t)
  | TRemoteMix => (λ kr, RRemoteMix kr.1 kr.2) <$> map_to_list (t_remote_mix t)
  | TDynamic => (λ kr, RDynamic kr.1 kr.2) <$> map_to_list (t_dynamic t)
  | TItem => (λ kr, RItem kr.1 kr.2) <$> map_to_list (t_item t)
  | TRelSongArtist => (λ kr : Z * Z * Z, RRelSongArtist kr.1.1 kr.1.2) <$> map_to_list (t_rel_song_artist t)
  | TRelAlbumArtist => (λ kr : Z * Z * Z, RRelAlbumArtist kr.1.1 kr.1.2) <$> map_to_list (t_rel_album_artist t)
  | TRelMixSong => (λ kr : Z * Z * MixSong, RRelMixSong kr.1.1 kr.1.2 kr.2) <$> map_to_list (t_rel_mix_song t)
  end.

(** ** Conditions *)

(** [INNER JOIN tb ON left = right]. *)
Record Join := mk_Join { j_table : Table; j_left : Column; j_right : Column }.
Inductive Cond :=
| Const (b : bool)
| Compare (c : ColRef) (op : Cmp) (v : Value)
| Equals (c d : ColRef)
| Like (c : ColRef) (pattern : string)
| NotLike (c : ColRef) (pattern : string)
| IsNull (c : ColRef)
| IsNotNull (c : ColRef)
| IsIn (c : ColRef) (l : list Z)
| All (l : list Cond)
| AnyOf (l : list Cond)
| Exists (from : Table) (joins : list Join) (conds : list Cond).

(** Three-valued conjunction and disjunction. *)
Definition and3 (a b : option bool) : option bool :=
  match a, b with
  | Some false, _ | _, Some false => Some false
  | Some true, Some true => Some true
  | _, _ => None
  end.
Definition or3 (a b : option bool) : option bool :=
  match a, b with
  | Some true, _ | _, Some true => Some true
  | Some false, Some false => Some false
  | _, _ => None
  end.
Definition is_true (a : option bool) : bool := match a with Some true => true | _ => false end.

Section eval.
Context `{Sqlite} (t : Tables).

(** The rows of a selection: every row of [from] in turn, with every row of the joined tables
    that matches. *)
Definition joined (j : Join) (scope : list Row) : list (list Row) :=
  filter (λ sc, is_true (compare Eq (column sc (j_left j)) (column sc (j_right j))) = true)
    ((λ r, r :: scope) <$> rows t (j_table j)).
Definition selection (from : Table) (joins : list Join) (scope : list Row) : list (list Row) :=
  foldl (λ l j, l ≫= joined j) ((λ r, r :: scope) <$> rows t from) joins.

Fixpoint eval (scope : list Row) (c : Cond) {struct c} : option bool :=
  match c with
  | Const b => Some b
  | Compare c op v => compare op (column scope c) v
  | Equals c d => compare Eq (column scope c) (column scope d)
  | Like c p => like_value (column scope c) p
  | NotLike c p => negb <$> like_value (column scope c) p
  | IsNull c => Some (bool_decide (column scope c = Null))
  | IsNotNull c => Some (negb (bool_decide (column scope c = Null)))
  | IsIn c l => match column scope c with
                | Null => if bool_decide (l = []) then Some false else None
                | Int n => Some (bool_decide (n ∈ l))
                | Str _ | Real _ => Some false
                end
  | All l => foldr (λ c r, and3 (eval scope c) r) (Some true) l
  | AnyOf l => foldr (λ c r, or3 (eval scope c) r) (Some false) l
  | Exists from joins conds =>
      Some (existsb (λ sc, forallb (λ c, is_true (eval sc c)) conds) (selection from joins scope))
  end.
Definition holds (scope : list Row) (c : Cond) : bool := is_true (eval scope c).

(** ** Reasoning *)

Lemma is_true_and3 a b : is_true (and3 a b) = is_true a && is_true b.
Proof. by destruct a as [[]|], b as [[]|]. Qed.
Lemma is_true_or3 a b : is_true (or3 a b) = is_true a || is_true b.
Proof. by destruct a as [[]|], b as [[]|]. Qed.
Lemma holds_All sc l : holds sc (All l) = true ↔ ∀ c, c ∈ l → holds sc c = true.
Proof.
  unfold holds. cbn. induction l as [|c l IH]; cbn.
  - split; [|done]. by intros _ ? ?%not_elem_of_nil.
  - rewrite is_true_and3, andb_true_iff, IH. setoid_rewrite elem_of_cons. naive_solver.
Qed.
Lemma holds_AnyOf sc l : holds sc (AnyOf l) = true ↔ ∃ c, c ∈ l ∧ holds sc c = true.
Proof.
  unfold holds. cbn. induction l as [|c l IH]; cbn.
  - split; [done|]. by intros (? & ?%not_elem_of_nil & _).
  - rewrite is_true_or3, orb_true_iff, IH. setoid_rewrite elem_of_cons. naive_solver.
Qed.
Lemma holds_Exists sc from joins conds :
  holds sc (Exists from joins conds) = true ↔
  ∃ sc', sc' ∈ selection from joins sc ∧ ∀ c, c ∈ conds → holds sc' c = true.
Proof.
  unfold holds. cbn [eval is_true].
  assert (∀ b, (match Some b with Some true => true | _ => false end) = b) as Hb by by intros [].
  rewrite Hb, existsb_exists. setoid_rewrite forallb_forall. setoid_rewrite <-list_elem_of_In.
  split; intros (sc' & Hin & Hall); exists sc'; (split; [done|]); intros c Hc; by apply Hall.
Qed.
Lemma compare_Int op a b : is_true (compare op (Int a) (Int b)) = cmp_Z op a b.
Proof. cbn. by destruct (cmp_Z op a b). Qed.

Lemma elem_of_joined sc j sc' :
  sc' ∈ joined j sc ↔ ∃ r, r ∈ rows t (j_table j) ∧ sc' = r :: sc ∧
    is_true (compare Eq (column sc' (j_left j)) (column sc' (j_right j))) = true.
Proof.
  unfold joined. rewrite list_elem_of_filter, list_elem_of_fmap. naive_solver.
Qed.
Lemma elem_of_selection_0 from sc sc' :
  sc' ∈ selection from [] sc ↔ ∃ r, r ∈ rows t from ∧ sc' = r :: sc.
Proof. unfold selection. cbn. rewrite list_elem_of_fmap. naive_solver. Qed.
Lemma elem_of_selection_snoc from joins j sc sc' :
  sc' ∈ selection from (joins ++ [j]) sc ↔
  ∃ sc1, sc1 ∈ selection from joins sc ∧ sc' ∈ joined j sc1.
Proof.
  unfold selection. rewrite foldl_app. cbn. rewrite list_elem_of_bind. naive_solver.
Qed.
Lemma elem_of_selection_1 from j sc sc' :
  sc' ∈ selection from [j] sc ↔
  ∃ r r1, r ∈ rows t from ∧ r1 ∈ rows t (j_table j) ∧ sc' = r1 :: r :: sc ∧
    is_true (compare Eq (column sc' (j_left j)) (column sc' (j_right j))) = true.
Proof.
  rewrite (elem_of_selection_snoc from [] j). setoid_rewrite elem_of_selection_0.
  setoid_rewrite elem_of_joined. naive_solver.
Qed.
Lemma elem_of_selection_2 from j1 j2 sc sc' :
  sc' ∈ selection from [j1; j2] sc ↔
  ∃ sc1 r2, sc1 ∈ selection from [j1] sc ∧ r2 ∈ rows t (j_table j2) ∧ sc' = r2 :: sc1 ∧
    is_true (compare Eq (column sc' (j_left j2)) (column sc' (j_right j2))) = true.
Proof.
  rewrite (elem_of_selection_snoc from [j1] j2). setoid_rewrite elem_of_joined. naive_solver.
Qed.
Lemma rows_spec r tb :
  r ∈ rows t tb ↔
  match r with
  | RAlbum i x => tb = TAlbum ∧ t_album t !! i = Some x
  | RArtist i x => tb = TArtist ∧ t_artist t !! i = Some x
  | RSong i x => tb = TSong ∧ t_song t !! i = Some x
  | RMix i x => tb = TMix ∧ t_mix t !! i = Some x
  | RRemoteMix i x => tb = TRemoteMix ∧ t_remote_mix t !! i = Some x
  | RDynamic i x => tb = TDynamic ∧ t_dynamic t !! i = Some x
  | RItem i x => tb = TItem ∧ t_item t !! i = Some x
  | RRelSongArtist s a => tb = TRelSongArtist ∧ is_Some (t_rel_song_artist t !! (s, a))
  | RRelAlbumArtist l a => tb = TRelAlbumArtist ∧ is_Some (t_rel_album_artist t !! (l, a))
  | RRelMixSong m s x => tb = TRelMixSong ∧ t_rel_mix_song t !! (m, s) = Some x
  end.
Proof.
  unfold rows. destruct tb; rewrite list_elem_of_fmap; split.
  all: try (by intros ([[? ?] ?] & -> & ?%elem_of_map_to_list); split; [|eexists]).
  all: try (by intros ([? ?] & -> & ?%elem_of_map_to_list)).
  all: try (by intros ([[? ?] ?] & -> & ?%elem_of_map_to_list)).
  all: destruct r; intros [? Hx]; try done.
  all: first [ destruct Hx as [y Hx]; eexists (_, _, y); split; [|by apply elem_of_map_to_list]; done
             | eexists (_, _, _); split; [|by apply elem_of_map_to_list]; done
             | eexists (_, _); split; [|by apply elem_of_map_to_list]; done ].
Qed.
End eval.
