(* ===== verification/Filters.v ===== *)
(** * Queries: filters

    [backend/main/src/db/filter.rs]: how the filters of a request become one condition, with
    [IdField] of [backend/main/src/identity.rs]; and what they mean, on the rows themselves. *)
From S2P Require Import Prelude Text Tables Sql.
From stdpp Require Import options.

Open Scope string_scope.
Open Scope Z_scope.
Open Scope list_scope.

(** ** Messages; an enumeration has its default for a number it does not know *)

Module StringCondition.
Inductive t := Unspecified | Is | IsNot | Contains | ContainsNot.
End StringCondition.
Module IntCondition.
Inductive t := Unspecified | Equal | EqualNot | Less | LessEqual | Greater | GreaterEqual.
End IntCondition.
Module DateCondition.
Inductive t := Unspecified | Before | After | Null | NotNull.
End DateCondition.
Module TypeCondition.
Inductive t := Unspecified | Is | IsNot.
End TypeCondition.
Module LogicOp.
Inductive t := Unspecified | And | Or.
End LogicOp.

Record StringFilter := mk_StringFilter { sf_value : string; sf_condition : StringCondition.t }.
Record IntFilter := mk_IntFilter { nf_value : Z; nf_condition : IntCondition.t }.
Record DateFilter := mk_DateFilter { df_value : Z; df_condition : DateCondition.t }.
Record TypeFilter := mk_TypeFilter { tf_value : Z; tf_condition : TypeCondition.t }.
Record TypeStringFilter := mk_TypeStringFilter {
  ts_value : string; ts_condition : TypeCondition.t
}.
(** [Option<id>]. *)
Definition IdFilter : Type := option Z.

Inductive AlbumPayload :=
| ATitle (f : StringFilter) | ATrack (f : IntFilter) | AArtistName (f : StringFilter)
| AArtistId (f : IdFilter) | AAlbumArtistId (f : IdFilter) | AYear (f : IntFilter)
| AAddedDate (f : DateFilter) | ADuration (f : IntFilter) | AType (f : TypeFilter)
| ADiscCount (f : IntFilter) | ALastPlayedAt (f : DateFilter).
Inductive ArtistPayload :=
| RName (f : StringFilter) | RAlbumTitle (f : StringFilter) | RYear (f : IntFilter)
| RAddedDate (f : DateFilter).
Inductive SongPayload := SAlbumId (f : IdFilter) | SMixId (f : IdFilter).
Inductive MixPayload :=
| MName (f : StringFilter) | MTrack (f : IntFilter) | MYear (f : IntFilter)
| MAddedDate (f : DateFilter) | MLastPlayedAt (f : DateFilter) | MType (f : TypeFilter).
Inductive RemoteMixPayload :=
| QName (f : StringFilter) | QTrack (f : IntFilter) | QType (f : TypeStringFilter)
| QLocalType (f : TypeFilter).

(** The messages [AlbumFilter], [ArtistFilter] and so on. *)
Record Filter (P : Type) := mk_Filter { fl_group : Z; fl_payload : option P }.
Arguments mk_Filter {P}.
Arguments fl_group {P}.
Arguments fl_payload {P}.
Record FilterLogic := mk_FilterLogic { lo_op : LogicOp.t; lo_a : Z; lo_b : Z }.

(** ** Identifiers *)

Inductive IdError := MissingFields (name : string) | WrongId (name : string).
Definition required (id : option Z) (name : string) : result IdError Z :=
  id ← ok_or id (MissingFields name) ;
  ensure (0 <? id) (WrongId name) ;;
  mret id.
Definition optional (id : option Z) (name : string) : result IdError (option Z) :=
  match id with
  | Some _ => Some <$> required id name
  | None => mret None
  end.
Definition checked (ids : list Z) (name : string) : result IdError (list Z) :=
  ensure (negb (existsb (λ id, id <=? 0) ids)) (WrongId name) ;; mret ids.

(** ** Single conditions *)

Definition int_condition_to_expr (col : ColRef) (c : IntCondition.t) (v : Z) : option Cond :=
  match c with
  | IntCondition.Equal => Some (Compare col Eq (Int v))
  | IntCondition.EqualNot => Some (Compare col Ne (Int v))
  | IntCondition.Greater => Some (Compare col Gt (Int v))
  | IntCondition.GreaterEqual => Some (Compare col Ge (Int v))
  | IntCondition.Less => Some (Compare col Lt (Int v))
  | IntCondition.LessEqual => Some (Compare col Le (Int v))
  | IntCondition.Unspecified => None
  end.
Definition contains (s : string) : string := "%" +:+ s +:+ "%".
Definition string_condition_to_expr (col : ColRef) (c : StringCondition.t) (s : string) :
    option Cond :=
  match c with
  | StringCondition.Contains => Some (Like col (contains s))
  | StringCondition.ContainsNot => Some (NotLike col (contains s))
  | StringCondition.Is => Some (Compare col Eq (Str s))
  | StringCondition.IsNot => Some (Compare col Ne (Str s))
  | StringCondition.Unspecified => None
  end.
Definition date_condition_to_expr (col : ColRef) (c : DateCondition.t) (v : Z) : option Cond :=
  match c with
  | DateCondition.After => Some (Compare col Ge (Int v))
  | DateCondition.Before => Some (Compare col Le (Int v))
  | DateCondition.Null => Some (IsNull col)
  | DateCondition.NotNull => Some (IsNotNull col)
  | DateCondition.Unspecified => None
  end.
Definition type_condition_to_expr (col : ColRef) (c : TypeCondition.t) (v : Z) : option Cond :=
  match c with
  | TypeCondition.Is => Some (Compare col Eq (Int v))
  | TypeCondition.IsNot => Some (Compare col Ne (Int v))
  | TypeCondition.Unspecified => None
  end.
Definition type_string_condition_to_expr (col : ColRef) (c : TypeCondition.t) (v : string) :
    option Cond :=
  match c with
  | TypeCondition.Is => Some (Compare col Eq (Str v))
  | TypeCondition.IsNot => Some (Compare col Ne (Str v))
  | TypeCondition.Unspecified => None
  end.

(** [get_expr] of the filter traits. *)
Definition string_expr (col : ColRef) (f : StringFilter) : option Cond :=
  string_condition_to_expr col (sf_condition f) (sf_value f).
Definition int_expr (col : ColRef) (f : IntFilter) : option Cond :=
  int_condition_to_expr col (nf_condition f) (nf_value f).
Definition date_expr (col : ColRef) (f : DateFilter) : option Cond :=
  date_condition_to_expr col (df_condition f) (df_value f).
Definition type_expr (col : ColRef) (f : TypeFilter) : option Cond :=
  type_condition_to_expr col (tf_condition f) (tf_value f).
Definition type_string_expr (col : ColRef) (f : TypeStringFilter) : option Cond :=
  type_string_condition_to_expr col (ts_condition f) (ts_value f).
Definition id_value (f : IdFilter) : option Z := ok (required f "filter_id").
Definition id_expr (col : ColRef) (f : IdFilter) : option Cond :=
  Some (match id_value f with Some id => Compare col Eq (Int id) | None => Const false end).

(** The calendar: the first moment of a year in milliseconds, for the years there are, and the
    text of a moment. *)
Class Calendar := {
  year_start : Z → option Z;
  datetime_text : Z → string;
}.

(** The text of a moment ([2024-01-01 00:00:00 UTC]) is no number. *)
Class DateTexts `{Sqlite} `{Calendar} : Prop :=
  date_text_no_number ms : numeric (datetime_text ms) = None.

Inductive Panic := Panicked.

(** The conditions of the filters with their groups, in the order of the filters. *)
Notation Buckets := (list (Z * Cond)).

Section filters.
Context `{Calendar}.

Definition year_of (y : Z) : result Panic Z := ok_or (year_start y) Panicked.
Definition year_expr (col : ColRef) (f : IntFilter) : result Panic (option Cond) :=
  dt ← year_of (nf_value f) ;
  match nf_condition f with
  | IntCondition.Equal =>
      dt_next ← year_of (nf_value f + 1) ;
      mret (Some (All [Compare col Ge (Int dt); Compare col Lt (Int dt_next)]))
  | IntCondition.EqualNot =>
      dt_next ← year_of (nf_value f + 1) ;
      mret (Some (All [Compare col Lt (Int dt); Compare col Gt (Str (datetime_text dt_next))]))
  | IntCondition.Greater => mret (Some (Compare col Gt (Int dt)))
  | IntCondition.GreaterEqual => mret (Some (Compare col Ge (Int dt)))
  | IntCondition.Less => mret (Some (Compare col Lt (Int dt)))
  | IntCondition.LessEqual => mret (Some (Compare col Le (Int dt)))
  | IntCondition.Unspecified => mret None
  end.

(** ** Filters *)

Definition album_filter_to_expr (p : AlbumPayload) : result Panic (option Cond) :=
  match p with
  | AArtistName f =>
      mret ((λ e, Exists TSong
        [mk_Join TRelSongArtist RelSongArtistSong SongId;
         mk_Join TArtist ArtistId RelSongArtistArtist]
        [Equals (Named SongAlbumId) AlbumId; e]) <$> string_expr ArtistName f)
  | AAlbumArtistId f =>
      mret ((λ e, Exists TArtist [mk_Join TRelAlbumArtist RelAlbumArtistArtist ArtistId]
        [Equals RelAlbumArtistAlbum AlbumId; e]) <$> id_expr ArtistId f)
  | AArtistId f =>
      mret ((λ e, Exists TSong [mk_Join TRelSongArtist RelSongArtistSong SongId]
        [Equals SongAlbumId AlbumId; e]) <$> id_expr RelSongArtistArtist f)
  | ATitle f => mret (string_expr (Named AlbumName) f)
  | ATrack f => mret (int_expr (Named AlbumTrackCount) f)
  | ADuration f => mret (int_expr (Named AlbumDuration) f)
  | AYear f => year_expr (Named AlbumPublishTime) f
  | AAddedDate f => mret (date_expr (Named AlbumAddedAt) f)
  | AType f => mret (type_expr AlbumType_ f)
  | ADiscCount f => mret (int_expr (Named AlbumDiscCount) f)
  | ALastPlayedAt f => mret (date_expr DynamicLastPlayedAt f)
  end.
Definition artist_filter_to_expr (p : ArtistPayload) : result Panic (option Cond) :=
  match p with
  | RName f => mret (string_expr (Named ArtistName) f)
  | RAddedDate f => mret (date_expr (Named ArtistAddedAt) f)
  | RAlbumTitle f =>
      mret ((λ e, Exists TAlbum [mk_Join TRelAlbumArtist RelAlbumArtistAlbum AlbumId]
        [Equals ArtistId RelAlbumArtistArtist; e]) <$> string_expr AlbumName f)
  | RYear _ => mret None
  end.
Definition mix_filter_to_expr (p : MixPayload) : result Panic (option Cond) :=
  match p with
  | MName f => mret (string_expr (Named MixName) f)
  | MTrack f => mret (int_expr (Named MixTrackCount) f)
  | MType f => mret (type_expr (Named MixMixType) f)
  | MYear _ | MAddedDate _ | MLastPlayedAt _ => mret None
  end.
Definition remote_mix_filter_to_expr (p : RemoteMixPayload) : result Panic (option Cond) :=
  match p with
  | QName f => mret (string_expr (Named RemoteMixName) f)
  | QType f => mret (type_string_expr RemoteMixMixType f)
  | QTrack f => mret (int_expr (Named RemoteMixTrackCount) f)
  | QLocalType f =>
      mret ((λ e, Exists TMix [] [Equals MixRemoteId RemoteMixId; e]) <$> type_expr MixMixType f)
  end.
Definition song_filter_to_expr (p : SongPayload) : result Panic (option Cond) :=
  match p with
  | SAlbumId f => mret (id_expr (Named SongAlbumId) f)
  | SMixId f =>
      mret ((λ e, Exists TRelMixSong [] [Equals RelMixSongSong SongId; e]) <$>
        id_expr RelMixSongMix f)
  end.

(** ** Groups *)

Definition bucket (g : Z) (b : Buckets) : list Cond :=
  (filter (λ gc : Z * Cond, gc.1 = g) b).*2.
Definition group_cond (b : Buckets) (g : Z) : option Cond :=
  match bucket g b with [] => None | l => Some (All l) end.
(** The keys of the [BTreeMap], in order. *)
Definition groups (b : Buckets) : list Z := remove_dups (merge_sort Z.le b.*1).

Definition combine (op : LogicOp.t) (a b : Cond) : Cond :=
  match op with
  | LogicOp.Or => AnyOf [a; b]
  | LogicOp.And | LogicOp.Unspecified => All [a; b]
  end.
Fixpoint pair_conds (b : Buckets) (logics : list FilterLogic) : list Cond * gset Z :=
  match logics with
  | [] => ([], ∅)
  | l :: logics =>
      let '(conds, referenced) := pair_conds b logics in
      match group_cond b (lo_a l), group_cond b (lo_b l) with
      | Some x, Some y => (combine (lo_op l) x y :: conds, {[lo_a l; lo_b l]} ∪ referenced)
      | _, _ => (conds, referenced)
      end
  end.

Section group.
Context {P : Type} (to_expr : P → result Panic (option Cond)).

(** The payload of a filter, if it has one. *)
Definition filter_expr (f : Filter P) : result Panic (option Cond) :=
  match fl_payload f with Some p => to_expr p | None => mret None end.
Fixpoint buckets (filters : list (Filter P)) : result Panic Buckets :=
  match filters with
  | [] => mret []
  | f :: filters =>
      e ← filter_expr f ;
      rest ← buckets filters ;
      mret (match e with Some c => (fl_group f, c) :: rest | None => rest end)
  end.
Definition build_grouped_condition (filters : list (Filter P)) (logics : list FilterLogic) :
    result Panic (option Cond) :=
  b ← buckets filters ;
  if bool_decide (b = []) then mret None else
  let '(conds, referenced) := pair_conds b logics in
  mret (Some (All (conds ++
    omap (λ g, if bool_decide (g ∈ referenced) then None else group_cond b g) (groups b)))).
(** [filter(cond)] of a selection that has [conds] so far. *)
Definition qcm_filters (filters : list (Filter P)) (logics : list FilterLogic) (conds : list Cond) :
    result Panic (list Cond) :=
  c ← build_grouped_condition filters logics ;
  mret (conds ++ option_list c).
End group.
Definition album_filters_to_condition := build_grouped_condition album_filter_to_expr.
End filters.
