(* ===== verification/Select.v ===== *)
(** * Queries: selections and pages

    Selections as the code builds them, what the database returns for them, and the pages of
    [backend/main/src/api/pagination.rs]. *)
From Stdlib Require Import SpecFloat.
From S2P Require Import Prelude Text Tables Sql.
From stdpp Require Import options.
#[local] Set Default Proof Using "Type*".

Open Scope string_scope.
Open Scope Z_scope.
Open Scope list_scope.

(** ** Orders *)

Inductive Order := Asc | Desc.
(** [RANDOM()], or a column. *)
Inductive SortKey := ByColumn (c : ColRef) | Random.

Definition class_of (v : Value) : Z :=
  match v with Null => 0 | Int _ => 1 | Real _ => 1 | Str _ => 2 end.
(** [NULL] sorts before numbers, numbers before texts. *)
Definition value_compare (a b : Value) : comparison :=
  match a, b with
  | Int x, Int y => Z.compare x y
  | Real x, Real y => match SFcompare x y with Some c => c | None => Datatypes.Eq end
  | Str x, Str y => String.compare x y
  | _, _ => Z.compare (class_of a) (class_of b)
  end.
Definition ordered (o : Order) (c : comparison) : comparison :=
  match o with Asc => c | Desc => CompOpp c end.
Definition key_compare (k : SortKey * Order) (a b : list Row) : comparison :=
  match k.1 with
  | ByColumn c => ordered k.2 (value_compare (column a c) (column b c))
  | Random => Datatypes.Eq
  end.
Fixpoint keys_compare (keys : list (SortKey * Order)) (a b : list Row) : comparison :=
  match keys with
  | [] => Datatypes.Eq
  | k :: keys =>
      match key_compare k a b with Datatypes.Eq => keys_compare keys a b | c => c end
  end.
(** [a] may come before [b]. *)
Definition before (keys : list (SortKey * Order)) (a b : list Row) : Prop :=
  keys_compare keys a b ≠ Datatypes.Gt.
#[export] Instance before_dec keys a b : Decision (before keys a b).
Proof. unfold before. solve_decision. Defined.

(** The database puts rows in some order that respects the keys. *)
Class Sorter := arrange : list (SortKey * Order) → list (list Row) → list (list Row).
Class SorterLaws `{Sorter} : Prop := {
  arrange_perm keys l : arrange keys l ≡ₚ l;
  arrange_sorted keys l : Sorted (before keys) (arrange keys l);
}.

(** ** Selections *)

Inductive JoinKind := Inner | LeftOuter.
Record Select := mk_Select {
  q_from : Table; q_joins : list (JoinKind * Join); q_conds : list Cond;
  q_order : list (SortKey * Order); q_distinct : bool
}.
Definition select_from (tb : Table) : Select := mk_Select tb [] [] [] false.
Definition inner_join (j : Join) (q : Select) : Select :=
  mk_Select (q_from q) (q_joins q ++ [(Inner, j)]) (q_conds q) (q_order q) (q_distinct q).
Definition left_join (j : Join) (q : Select) : Select :=
  mk_Select (q_from q) (q_joins q ++ [(LeftOuter, j)]) (q_conds q) (q_order q) (q_distinct q).
Definition q_filter (l : list Cond) (q : Select) : Select :=
  mk_Select (q_from q) (q_joins q) (q_conds q ++ l) (q_order q) (q_distinct q).
Definition order_by (k : SortKey) (o : Order) (q : Select) : Select :=
  mk_Select (q_from q) (q_joins q) (q_conds q) (q_order q ++ [(k, o)]) (q_distinct q).
Definition distinct (q : Select) : Select :=
  mk_Select (q_from q) (q_joins q) (q_conds q) (q_order q) true.

(** The columns of a statement must be those of its tables, or the database refuses it. *)
Definition table_of (c : Column) : Table :=
  match c with
  | AlbumId | AlbumName | AlbumTrackCount | AlbumDuration | AlbumPublishTime | AlbumAddedAt
  | AlbumType_ | AlbumDiscCount | AlbumSortName => TAlbum
  | ArtistId | ArtistName | ArtistAddedAt | ArtistSortName | ArtistAlbumCount
  | ArtistMusicCount => TArtist
  | SongId | SongAlbumId | SongName | SongSortName | SongTrackNumber | SongDiscNumber
  | SongDuration | SongPopularity | SongPublishTime => TSong
  | MixId | MixName | MixTrackCount | MixMixType | MixRemoteId => TMix
  | RemoteMixId | RemoteMixName | RemoteMixMixType | RemoteMixTrackCount => TRemoteMix
  | DynamicId | DynamicLastPlayedAt | DynamicIsExternal => TDynamic
  | ItemId | ItemLibraryId => TItem
  | RelSongArtistSong | RelSongArtistArtist => TRelSongArtist
  | RelAlbumArtistAlbum | RelAlbumArtistArtist => TRelAlbumArtist
  | RelMixSongMix | RelMixSongSong | RelMixSongOrderIdx => TRelMixSong
  end.
(** The columns of the tables, by their names ([core/src/model/]). *)
Definition columns_of (tb : Table) : list string :=
  match tb with
  | TAlbum => ["id"; "name"; "sort_name"; "track_count"; "disc_count"; "type"; "duration"; "language";
               "description"; "company"; "publish_time"; "added_at"]
  | TArtist => ["id"; "name"; "sort_name"; "description"; "album_count"; "music_count"; "added_at"]
  | TSong => ["id"; "name"; "sort_name"; "album_id"; "track_number"; "disc_number"; "duration";
              "can_play"; "popularity"; "tags"; "publish_time"; "added_at"]
  | TMix => ["id"; "name"; "track_count"; "mix_type"; "sort_name"; "description"; "remote_id";
             "create_at"; "update_at"; "content_update_at"]
  | TRemoteMix => ["id"; "name"; "description"; "track_count"; "mix_type"]
  | TDynamic => ["id"; "is_external"; "play_count"; "remote_play_count"; "last_position";
                 "last_played_at"; "remote_last_played_at"; "favorite_at"; "update_at"]
  | TItem => ["id"; "native_id"; "library_id"; "provider_id"; "type"; "create_at"; "update_at";
              "last_sync_at"]
  | TRelSongArtist => ["id"; "song_id"; "artist_id"; "update_at"]
  | TRelAlbumArtist => ["id"; "album_id"; "artist_id"; "update_at"]
  | TRelMixSong => ["id"; "song_id"; "mix_id"; "order_idx"; "update_at"]
  end.
Definition name_of (c : Column) : string :=
  match c with
  | AlbumId | ArtistId | SongId | MixId | RemoteMixId | DynamicId | ItemId => "id"
  | AlbumName | ArtistName | SongName | MixName | RemoteMixName => "name"
  | AlbumSortName | ArtistSortName | SongSortName => "sort_name"
  | AlbumTrackCount | MixTrackCount | RemoteMixTrackCount => "track_count"
  | AlbumDuration | SongDuration => "duration"
  | AlbumPublishTime | SongPublishTime => "publish_time"
  | AlbumAddedAt | ArtistAddedAt => "added_at"
  | AlbumType_ => "type"
  | AlbumDiscCount => "disc_count"
  | ArtistAlbumCount => "album_count"
  | ArtistMusicCount => "music_count"
  | SongAlbumId | RelAlbumArtistAlbum => "album_id"
  | SongTrackNumber => "track_number"
  | SongDiscNumber => "disc_number"
  | SongPopularity => "popularity"
  | MixMixType | RemoteMixMixType => "mix_type"
  | MixRemoteId => "remote_id"
  | DynamicLastPlayedAt => "last_played_at"
  | DynamicIsExternal => "is_external"
  | ItemLibraryId => "library_id"
  | RelSongArtistSong | RelMixSongSong => "song_id"
  | RelSongArtistArtist | RelAlbumArtistArtist => "artist_id"
  | RelMixSongMix => "mix_id"
  | RelMixSongOrderIdx => "order_idx"
  end.
(** A name alone means the column of the innermost tables that have one of that name, and must
    not be ambiguous there. *)
Fixpoint resolves (levels : list (list Table)) (c : Column) : bool :=
  match levels with
  | [] => false
  | tabs :: levels =>
      match filter (λ tb, name_of c ∈ columns_of tb) tabs with
      | [] => resolves levels c
      | [tb] => bool_decide (tb = table_of c)
      | _ => false
      end
  end.
(** The database understands the reference, with the tables of the statement and of those
    around it. *)
Definition known (levels : list (list Table)) (r : ColRef) : bool :=
  match r with
  | Of c => bool_decide (table_of c ∈ concat levels)
  | Named c => resolves levels c
  end.
Fixpoint cond_known (levels : list (list Table)) (c : Cond) : bool :=
  match c with
  | Const _ => true
  | Compare c _ _ | Like c _ | NotLike c _ | IsNull c | IsNotNull c | IsIn c _ => known levels c
  | Equals c d => known levels c && known levels d
  | All l | AnyOf l => forallb (cond_known levels) l
  | Exists from joins conds =>
      let levels := (from :: (j_table <$> joins)) :: levels in
      forallb (λ j, known levels (j_left j) && known levels (j_right j)) joins &&
      forallb (cond_known levels) conds
  end.
Definition q_tables (q : Select) : list Table := q_from q :: ((λ kj, j_table kj.2) <$> q_joins q).
Definition q_known (q : Select) : bool :=
  let levels := [q_tables q] in
  forallb (λ kj : JoinKind * Join, known levels (j_left kj.2) && known levels (j_right kj.2))
    (q_joins q) &&
  forallb (cond_known levels) (q_conds q) &&
  forallb (λ ko : SortKey * Order, match ko.1 with ByColumn c => known levels c | Random => true end)
    (q_order q).

(** No such column, or an ambiguous one. *)
Inductive SqlError := BadColumn.

Section run.
Context `{Sqlite} `{Sorter} (t : Tables).

Definition outer_joined (j : Join) (sc : list Row) : list (list Row) :=
  match joined t j sc with [] => [sc] | l => l end.
Definition join_rows (kj : JoinKind * Join) (sc : list Row) : list (list Row) :=
  match kj.1 with Inner => joined t kj.2 sc | LeftOuter => outer_joined kj.2 sc end.
Definition q_rows (q : Select) : list (list Row) :=
  filter (λ sc, forallb (holds t sc) (q_conds q) = true)
    (foldl (λ l kj, l ≫= join_rows kj) ((λ r, [r]) <$> rows t (q_from q)) (q_joins q)).
Definition ids_of (c : Column) (l : list (list Row)) : list Z :=
  omap (λ sc, match column sc c with Int n => Some n | _ => None end) l.
(** The values of the selected column, an identifier. *)
Definition q_ids (id : Column) (q : Select) : result SqlError (list Z) :=
  ensure (q_known q) BadColumn ;;
  let l := ids_of id (arrange (q_order q) (q_rows q)) in
  mret (if q_distinct q then remove_dups l else l).
End run.

(** ** Pages *)

Record PageParams := mk_PageParams { page : Z; page_size : Z }.
Definition PageParams_new (p size : Z) : PageParams := mk_PageParams (Z.max p 0) (Z.max size 1).
Definition has_more (p : PageParams) (total : Z) : bool := wmul (page p) (page_size p) <? total.
(** [paginate(size)], [fetch_page(page)]: [LIMIT size OFFSET page * size]. *)
Definition fetch_page {A} (p : PageParams) (l : list A) : list A :=
  take (Z.to_nat (page_size p)) (drop (Z.to_nat (page p * page_size p)) l).
(** [total as i32]. *)
Definition as_i32 (n : Z) : Z := (n + 2147483648) mod 4294967296 - 2147483648.
