(* ===== verification/Matching.v ===== *)
(** * Queries: what filters mean

    The meaning of every filter on the rows it is about, and that the conditions built for
    them say just that, however filters are grouped. *)
From S2P Require Import Prelude Text Tables Sql Filters.
From stdpp Require Import options.
#[local] Set Default Proof Using "Type*".

Open Scope string_scope.
Open Scope Z_scope.
Open Scope list_scope.

(** ** Tests on values; [None] when a filter tests nothing *)

Definition int_test (f : IntFilter) : option (Z → bool) :=
  match nf_condition f with
  | IntCondition.Unspecified => None
  | IntCondition.Equal => Some (λ x, x =? nf_value f)
  | IntCondition.EqualNot => Some (λ x, negb (x =? nf_value f))
  | IntCondition.Less => Some (λ x, x <? nf_value f)
  | IntCondition.LessEqual => Some (λ x, x <=? nf_value f)
  | IntCondition.Greater => Some (λ x, nf_value f <? x)
  | IntCondition.GreaterEqual => Some (λ x, nf_value f <=? x)
  end.
Definition type_test (f : TypeFilter) : option (Z → bool) :=
  match tf_condition f with
  | TypeCondition.Unspecified => None
  | TypeCondition.Is => Some (λ x, x =? tf_value f)
  | TypeCondition.IsNot => Some (λ x, negb (x =? tf_value f))
  end.
Definition same (x y : string) : bool := bool_decide (x = y).
Definition type_string_test (f : TypeStringFilter) : option (string → bool) :=
  match ts_condition f with
  | TypeCondition.Unspecified => None
  | TypeCondition.Is => Some (λ x, same x (ts_value f))
  | TypeCondition.IsNot => Some (λ x, negb (same x (ts_value f)))
  end.
(** A date that is not set is neither before nor after any other. *)
Definition date_test (f : DateFilter) : option (option Z → bool) :=
  match df_condition f with
  | DateCondition.Unspecified => None
  | DateCondition.Before => Some (λ x, is_some_and x (λ x, x <=? df_value f))
  | DateCondition.After => Some (λ x, is_some_and x (λ x, df_value f <=? x))
  | DateCondition.Null => Some (λ x, bool_decide (x = None))
  | DateCondition.NotNull => Some (λ x, negb (bool_decide (x = None)))
  end.
Definition id_test (f : IdFilter) (x : option Z) : bool :=
  match f with Some id => (0 <? id) && bool_decide (x = Some id) | None => false end.

Section tests.
Context `{Sqlite} `{Calendar}.

Definition string_test (f : StringFilter) : option (string → bool) :=
  match sf_condition f with
  | StringCondition.Unspecified => None
  | StringCondition.Is => Some (λ x, same x (sf_value f))
  | StringCondition.IsNot => Some (λ x, negb (same x (sf_value f)))
  | StringCondition.Contains => Some (λ x, like (contains (sf_value f)) x)
  | StringCondition.ContainsNot => Some (λ x, negb (like (contains (sf_value f)) x))
  end.
(** Years are compared by their first moment: only "equal" takes the whole year. *)
Definition year_test (f : IntFilter) : result Panic (option (option Z → bool)) :=
  dt ← year_of (nf_value f) ;
  match nf_condition f with
  | IntCondition.Unspecified => mret None
  | IntCondition.Equal =>
      dt' ← year_of (nf_value f + 1) ;
      mret (Some (λ x, is_some_and x (λ x, (dt <=? x) && (x <? dt'))))
  | IntCondition.EqualNot =>
      dt' ← year_of (nf_value f + 1) ; mret (Some (λ _, false))
  | IntCondition.Less => mret (Some (λ x, is_some_and x (λ x, x <? dt)))
  | IntCondition.LessEqual => mret (Some (λ x, is_some_and x (λ x, x <=? dt)))
  | IntCondition.Greater => mret (Some (λ x, is_some_and x (λ x, dt <? x)))
  | IntCondition.GreaterEqual => mret (Some (λ x, is_some_and x (λ x, dt <=? x)))
  end.

(** ** Filters on rows *)

Definition passes {A} (x : A) (test : A → bool) : Prop := test x = true.
Definition tested {A} (test : option (A → bool)) (say : (A → bool) → Prop) : option Prop :=
  match test with Some f => Some (say f) | None => None end.

(** An album with the last time it was played. *)
Record AlbumRow := mk_AlbumRow { ab_id : Z; ab_row : Album; ab_last_played : option Z }.
Definition song_artist (t : Tables) (song artist : Z) : Prop :=
  is_Some (t_rel_song_artist t !! (song, artist)).
Definition album_artist (t : Tables) (album artist : Z) : Prop :=
  is_Some (t_rel_album_artist t !! (album, artist)).
(** A song of the album that is by the artist. *)
Definition song_by (t : Tables) (album artist : Z) : Prop :=
  ∃ s so, t_song t !! s = Some so ∧ so_album so = Some album ∧ song_artist t s artist.
Definition album_meaning (t : Tables) (a : AlbumRow) (p : AlbumPayload) : result Panic (option Prop) :=
  let row := ab_row a in
  match p with
  | ATitle f => mret (tested (string_test f) (passes (al_name row)))
  | ATrack f => mret (tested (int_test f) (passes (al_track_count row)))
  | ADuration f => mret (tested (int_test f) (passes (al_duration row)))
  | ADiscCount f => mret (tested (int_test f) (passes (al_disc_count row)))
  | AType f => mret (tested (type_test f) (passes (album_type_value (al_type row))))
  | AAddedDate f => mret (tested (date_test f) (passes (al_added_at row)))
  | ALastPlayedAt f => mret (tested (date_test f) (passes (ab_last_played a)))
  | AYear f => test ← year_test f ; mret (tested (test) (passes (al_publish_time row)))
  | AArtistName f =>
      mret (tested (string_test f) (λ test, ∃ i ar, t_artist t !! i = Some ar ∧ song_by t (ab_id a) i ∧
               passes (ar_name ar) test))
  | AArtistId f => mret (Some (∃ i, song_by t (ab_id a) i ∧ passes (Some i) (id_test f)))
  | AAlbumArtistId f =>
      mret (Some (∃ i ar, t_artist t !! i = Some ar ∧ album_artist t (ab_id a) i ∧
                    passes (Some i) (id_test f)))
  end.
Definition artist_meaning (t : Tables) (a : Z * Artist) (p : ArtistPayload) :
    result Panic (option Prop) :=
  match p with
  | RName f => mret (tested (string_test f) (passes (ar_name a.2)))
  | RAddedDate f => mret (tested (date_test f) (passes (ar_added_at a.2)))
  | RAlbumTitle f =>
      mret (tested (string_test f) (λ test, ∃ i al, t_album t !! i = Some al ∧ album_artist t i a.1 ∧
               passes (al_name al) test))
  | RYear _ => mret None
  end.
Definition song_meaning (t : Tables) (s : Z * Song) (p : SongPayload) : result Panic (option Prop) :=
  match p with
  | SAlbumId f => mret (Some (passes (so_album s.2) (id_test f)))
  | SMixId f =>
      mret (Some (∃ m, is_Some (t_rel_mix_song t !! (m, s.1)) ∧ passes (Some m) (id_test f)))
  end.
Definition mix_meaning (t : Tables) (m : Z * Mix) (p : MixPayload) : result Panic (option Prop) :=
  match p with
  | MName f => mret (tested (string_test f) (passes (mx_name m.2)))
  | MTrack f => mret (tested (int_test f) (passes (mx_track_count m.2)))
  | MType f => mret (tested (type_test f) (passes (mix_type_value (mx_mix_type m.2))))
  | MYear _ | MAddedDate _ | MLastPlayedAt _ => mret None
  end.
Definition remote_mix_meaning (t : Tables) (m : Z * RemoteMix) (p : RemoteMixPayload) :
    result Panic (option Prop) :=
  match p with
  | QName f => mret (tested (string_test f) (passes (rm_name m.2)))
  | QTrack f => mret (tested (int_test f) (passes (rm_track_count m.2)))
  | QType f => mret (tested (type_string_test f) (passes (rm_mix_type m.2)))
  | QLocalType f =>
      mret (tested (type_test f) (λ test, ∃ i mx, t_mix t !! i = Some mx ∧ mx_remote mx = Some m.1 ∧
               passes (mix_type_value (mx_mix_type mx)) test))
  end.

(** ** Filters in groups *)

Definition as_pair (op : LogicOp.t) (A B : Prop) : Prop :=
  match op with LogicOp.Or => A ∨ B | _ => A ∧ B end.

Section groups.
Context {P : Type} (meaning : P → result Panic (option Prop)).

(** Filter [f] is of group [g] and says [Q]. *)
Definition says (f : Filter P) (g : Z) (Q : Prop) : Prop :=
  fl_group f = g ∧ ∃ p, fl_payload f = Some p ∧ meaning p = Ok (Some Q).
Definition present (filters : list (Filter P)) (g : Z) : Prop := ∃ f Q, f ∈ filters ∧ says f g Q.
Definition group_holds (filters : list (Filter P)) (g : Z) : Prop :=
  ∀ f Q, f ∈ filters → says f g Q → Q.
Definition paired (filters : list (Filter P)) (l : FilterLogic) : Prop :=
  present filters (lo_a l) ∧ present filters (lo_b l).
(** Within a group every filter holds; the groups a pair combines hold as the pair says, every
    other group holds. *)
Definition request_matches (filters : list (Filter P)) (logics : list FilterLogic) : Prop :=
  (∀ l, l ∈ logics → paired filters l →
     as_pair (lo_op l) (group_holds filters (lo_a l)) (group_holds filters (lo_b l))) ∧
  (∀ g, present filters g →
     (∀ l, l ∈ logics → paired filters l → g ≠ lo_a l ∧ g ≠ lo_b l) → group_holds filters g).
End groups.
End tests.
