(* ===== verification/Shelf.v ===== *)
(** * Queries: a small database for the examples *)
From Stdlib Require Import SpecFloat.
From S2P Require Import Prelude Text Tables Sql Filters Select.
From stdpp Require Import options.

Open Scope string_scope.
Open Scope Z_scope.
Open Scope list_scope.

Fixpoint occurs (p s : string) : bool :=
  String.prefix p s || match s with EmptyString => false | String _ s => occurs p s end.
(** [%x%] for an [x] without wildcards. *)
Definition like_sample (pattern s : string) : bool :=
  occurs (String.substring 1 (String.length pattern - 2) pattern) s.
#[export] Instance sqlite : Sqlite :=
  {| like := like_sample; numeric := λ _, None; real_compare := λ _ _ _, None |}.
#[export] Instance calendar : Calendar :=
  {| year_start := λ y, if (0 <=? y) && (y <=? 9999) then Some ((y - 1970) * 31556952000) else None;
     datetime_text := λ _, "2024-01-01 00:00:00 UTC" |}.
#[export] Instance date_texts : DateTexts.
Proof. done. Qed.

#[export] Instance sorter : Sorter := λ keys l, merge_sort (before keys) l.
Lemma SFcompare_opp x y c : SFcompare x y = Some c → SFcompare y x = Some (CompOpp c).
Proof.
  destruct x as [s|s| |s m e], y as [s'|s'| |s' m' e']; cbn; try done.
  all: try (by destruct s, s'; intros [= <-]). all: try (by destruct s; intros [= <-]).
  all: try (by destruct s'; intros [= <-]).
  destruct s, s'; intros [= <-]; try done; rewrite (Z.compare_antisym e e'); destruct (Z.compare e e');
    cbn; try done; change (Pos.compare_cont Datatypes.Eq m' m) with (m' ?= m)%positive;
    change (Pos.compare_cont Datatypes.Eq m m') with (m ?= m')%positive; by rewrite (Pos.compare_antisym m m').
Qed.
Lemma value_compare_opp a b : value_compare b a = CompOpp (value_compare a b).
Proof.
  destruct a as [|x|x|x], b as [|y|y|y]; cbn; try done.
  - apply Z.compare_antisym.
  - destruct (SFcompare x y) as [c|] eqn:Hc; [by rewrite (SFcompare_opp _ _ _ Hc)|].
    destruct (SFcompare y x) as [c|] eqn:Hc'; [|done].
    apply SFcompare_opp in Hc'. congruence.
  - apply String.compare_antisym.
Qed.
Lemma keys_compare_opp keys a b : keys_compare keys b a = CompOpp (keys_compare keys a b).
Proof.
  induction keys as [|[k o] keys IH]; [done|]. cbn. unfold key_compare. cbn.
  destruct k as [c|]; [|done]. rewrite (value_compare_opp (column a c) (column b c)), IH.
  by destruct o, (value_compare _ _).
Qed.
#[export] Instance before_total keys : Total (before keys).
Proof.
  intros a b. unfold before. rewrite (keys_compare_opp keys a b).
  destruct (keys_compare keys a b); auto.
Qed.
#[export] Instance sorter_laws : SorterLaws.
Proof.
  split; intros keys l; unfold arrange, sorter.
  - apply merge_sort_Permutation.
  - apply (Sorted_merge_sort (before keys)).
Qed.

Definition album (name : string) (tracks : Z) : Album :=
  mk_Album name None tracks 1 AlbumType.Album 0 None None None (Some 0) None.
Definition item (library : Z) : Item := mk_Item "" (Some library) 1 ItemType.Album 0 0 0.
Definition seen (external : bool) : Dynamic := mk_Dynamic external 0 0 None None None None 0.
(** Three albums of two libraries, one of them only referred to. *)
Definition library : Tables :=
  with_dynamic (λ _, list_to_map [(1, seen false); (2, seen false); (3, seen true)])
    (with_item (λ _, list_to_map [(1, item 1); (2, item 1); (3, item 1)])
      (with_album (λ _, list_to_map [(1, album "Blue" 9); (2, album "Abbey" 17); (3, album "Air" 2)])
        (mk_Tables ∅ ∅ ∅ ∅ ∅ ∅ ∅ ∅ ∅ ∅ ∅ ∅ ∅ 0 0 0))).
