(* ===== verification/Agreement.v ===== *)
(** * Queries: conditions say what filters mean

    The condition built for a filter holds of a row exactly when the filter's meaning does,
    and the condition built for a request exactly when the row matches the request. *)
From S2P Require Import Prelude Text Tables Sql Filters Matching Select Shelf.
From stdpp Require Import options.
#[local] Set Default Proof Using "Type*".

Open Scope string_scope.
Open Scope Z_scope.
Open Scope list_scope.

(** ** Conditions say what filters mean *)

(** A row of the scope that is the nearest of its table. *)
Definition nearest (sc : list Row) (r : Row) : Prop :=
  ∀ c v, field (col c) r = Some v → column sc c = v.
Lemma nearest_here sc r : nearest (r :: sc) r.
Proof. intros c v Hc. cbn. by rewrite Hc. Qed.

Section sound.
Context `{Sqlite} `{Calendar}.

Definition agrees (t : Tables) (sc : list Row) (c : option Cond) (q : option Prop) : Prop :=
  match c, q with
  | Some c, Some Q => holds t sc c = true ↔ Q
  | None, None => True
  | _, _ => False
  end.
Definition agrees_result (t : Tables) (sc : list Row) (c : result Panic (option Cond))
    (q : result Panic (option Prop)) : Prop :=
  match c, q with
  | Ok c, Ok q => agrees t sc c q
  | Err _, Err _ => True
  | _, _ => False
  end.

Lemma is_true_Some b : is_true (Some b) = b.
Proof. by destruct b. Qed.
Ltac test_cases := intros Hc; unfold agrees, tested, passes, holds; cbn [eval]; rewrite ?Hc;
  cbn [compare like_value fmap option_fmap option_map]; rewrite ?is_true_Some; try done.
Lemma int_agrees t sc col f x :
  column sc col = Int x → agrees t sc (int_expr col f) (tested (int_test f) (passes x)).
Proof. unfold int_expr, int_test. destruct f as [v []]; cbn; test_cases. Qed.
Lemma type_agrees t sc col f x :
  column sc col = Int x → agrees t sc (type_expr col f) (tested (type_test f) (passes x)).
Proof. unfold type_expr, type_test. destruct f as [v []]; cbn; test_cases. Qed.
Lemma string_agrees t sc col f x :
  column sc col = Str x → agrees t sc (string_expr col f) (tested (string_test f) (passes x)).
Proof.
  unfold string_expr, string_test. destruct f as [v []]; cbn; test_cases.
Qed.
Lemma type_string_agrees t sc col f x :
  column sc col = Str x →
  agrees t sc (type_string_expr col f) (tested (type_string_test f) (passes x)).
Proof.
  unfold type_string_expr, type_string_test. destruct f as [v []]; cbn; test_cases.
Qed.
Lemma date_agrees t sc col f x :
  column sc col = opt_int x → agrees t sc (date_expr col f) (tested (date_test f) (passes x)).
Proof.
  unfold date_expr, date_test. destruct f as [v []], x as [x|]; cbn; test_cases.
Qed.
Lemma year_agrees (Htext : ∀ ms, numeric (datetime_text ms) = None) t sc col f x :
  column sc col = opt_int x →
  agrees_result t sc (year_expr col f)
    (test ← year_test f ; mret (tested test (passes x))).
Proof.
  intros Hc. unfold year_expr, year_test. destruct f as [v c]. cbn.
  destruct (year_of v) as [dt|]; [|done].
  destruct c; cbn; try (destruct (year_of (v + 1)) as [dt'|]; [|done]); cbn; try done.
  all: revert Hc; destruct x as [x|]; cbn; test_cases; cbn.
  all: rewrite ?is_true_and3, ?Hc; cbn [compare cmp_class cmp_Z]; rewrite ?Htext, ?is_true_Some; cbn [cmp_class is_true]; by rewrite ?andb_true_r, ?andb_false_r.
Qed.
Lemma id_agrees t sc col f x :
  column sc col = opt_int x → agrees t sc (id_expr col f) (Some (passes x (id_test f))).
Proof.
  unfold id_expr, id_value, required, id_test. destruct f as [id|]; cbn.
  - destruct (0 <? id); cbn; [|by test_cases]. destruct x as [x|]; cbn; test_cases.
    cbn. by rewrite bool_decide_eq_true, Z.eqb_eq, (inj_iff Some).
  - by test_cases.
Qed.


(** ** The subqueries *)

Lemma holds_Equals_Int t sc c d x y :
  column sc c = Int x → column sc d = Int y → holds t sc (Equals c d) = true ↔ x = y.
Proof. intros Hc Hd. unfold holds. cbn [eval]. rewrite Hc, Hd, compare_Int. apply Z.eqb_eq. Qed.
Lemma holds_Equals_opt t sc c d x y :
  column sc c = opt_int x → column sc d = Int y → holds t sc (Equals c d) = true ↔ x = Some y.
Proof.
  intros Hc Hd. destruct x as [x|].
  - rewrite (holds_Equals_Int t sc c d x y) by done. by rewrite (inj_iff Some).
  - unfold holds. cbn [eval]. by rewrite Hc, Hd.
Qed.
Lemma forall_two {A} (P : A → Prop) a b : (∀ c, c ∈ [a; b] → P c) ↔ P a ∧ P b.
Proof. setoid_rewrite elem_of_cons. setoid_rewrite list_elem_of_singleton. naive_solver. Qed.
Lemma agrees_iff {A} t sc c (test : option (A → bool)) say say' :
  (∀ f, say f ↔ say' f) → agrees t sc c (tested test say) → agrees t sc c (tested test say').
Proof. intros Hs. destruct c, test; cbn; try done. by rewrite Hs. Qed.

(** A filter on some row [w] that stands in the relation [R] to the row in scope: the subquery
    finds those rows, and its last condition tests the column [col] of theirs. *)
Lemma agrees_exists {W A} (val : W → A) (inj : A → Value) (R : W → Prop) t sc col from joins cond
    (e : option Cond) (test : option (A → bool)) :
  (e = None ↔ test = None) →
  (∀ sc x, column sc col = inj x → agrees t sc e (tested test (passes x))) →
  (∀ sc', sc' ∈ selection t from joins sc → holds t sc' cond = true →
     ∃ w, R w ∧ column sc' col = inj (val w)) →
  (∀ w, R w → ∃ sc', sc' ∈ selection t from joins sc ∧ holds t sc' cond = true ∧
     column sc' col = inj (val w)) →
  agrees t sc ((λ e, Exists from joins [cond; e]) <$> e)
    (tested test (λ f, ∃ w, R w ∧ passes (val w) f)).
Proof.
  intros Hshape Htest Hfound Hfind. destruct e as [e|], test as [test|]; cbn [fmap option_fmap option_map agrees tested] in *;
    [|by naive_solver|by naive_solver|done].
  rewrite holds_Exists. split.
  - intros (sc' & Hsel & Hall). apply forall_two in Hall as [Hc He].
    destruct (Hfound sc' Hsel Hc) as (w & Hw & Hcol). exists w. split; [done|].
    by apply (Htest sc').
  - intros (w & Hw & Hpass). destruct (Hfind w Hw) as (sc' & Hsel & Hc & Hcol).
    exists sc'. split; [done|]. apply forall_two. split; [done|]. by apply (Htest sc' (val w)).
Qed.
Lemma string_shape col f : string_expr col f = None ↔ string_test f = None.
Proof. unfold string_expr, string_test. by destruct f as [v []]. Qed.
Lemma type_shape col f : type_expr col f = None ↔ type_test f = None.
Proof. unfold type_expr, type_test. by destruct f as [v []]. Qed.
Lemma id_shape col f : id_expr col f = None ↔ Some (id_test f) = None.
Proof. done. Qed.
End sound.

(** ** The rows the subqueries find *)

Section found.
Context `{Sqlite} (t : Tables).

Lemma is_true_eqb x y : is_true (compare Eq (Int x) (Int y)) = true ↔ x = y.
Proof. rewrite compare_Int. apply Z.eqb_eq. Qed.
Ltac found := repeat match goal with
  | H : _ ∈ rows _ ?tb |- _ => apply rows_spec in H
  | r : Row |- _ => destruct r
  | H : _ ∧ _ |- _ => destruct H
  | H : ?a = ?b |- _ => discriminate H
  | H : is_true _ = true |- _ => cbn [column field j_left j_right] in H; apply is_true_eqb in H
  end; subst.

(** Songs with their artists. *)
Lemma selection_song_artist sc sc' :
  sc' ∈ selection t TSong [mk_Join TRelSongArtist RelSongArtistSong SongId] sc ↔
  ∃ s so i, t_song t !! s = Some so ∧ song_artist t s i ∧
    sc' = RRelSongArtist s i :: RSong s so :: sc.
Proof.
  rewrite elem_of_selection_1. split.
  - intros (r & r1 & Hr & Hr1 & -> & Hj). cbn [j_table] in *. found. eauto 10.
  - intros (s & so & i & Hs & Hi & ->). exists (RSong s so), (RRelSongArtist s i).
    split_and!; [by apply rows_spec|by apply rows_spec|done|]. by apply is_true_eqb.
Qed.
Lemma selection_song_by sc sc' :
  sc' ∈ selection t TSong
    [mk_Join TRelSongArtist RelSongArtistSong SongId; mk_Join TArtist ArtistId RelSongArtistArtist] sc ↔
  ∃ s so i ar, t_song t !! s = Some so ∧ song_artist t s i ∧ t_artist t !! i = Some ar ∧
    sc' = RArtist i ar :: RRelSongArtist s i :: RSong s so :: sc.
Proof.
  rewrite elem_of_selection_2. setoid_rewrite selection_song_artist. split.
  - intros (sc1 & r2 & (s & so & i & Hs & Hi & ->) & Hr & -> & Hj). cbn [j_table] in *. found. eauto 10.
  - intros (s & so & i & ar & Hs & Hi & Har & ->).
    eexists _, (RArtist i ar). split_and!; [eauto 10|by apply rows_spec|done|]. by apply is_true_eqb.
Qed.
Lemma selection_album_artist sc sc' :
  sc' ∈ selection t TArtist [mk_Join TRelAlbumArtist RelAlbumArtistArtist ArtistId] sc ↔
  ∃ l i ar, t_artist t !! i = Some ar ∧ album_artist t l i ∧
    sc' = RRelAlbumArtist l i :: RArtist i ar :: sc.
Proof.
  rewrite elem_of_selection_1. split.
  - intros (r & r1 & Hr & Hr1 & -> & Hj). cbn [j_table] in *. found. eauto 10.
  - intros (l & i & ar & Har & Hi & ->). exists (RArtist i ar), (RRelAlbumArtist l i).
    split_and!; [by apply rows_spec|by apply rows_spec|done|]. by apply is_true_eqb.
Qed.
Lemma selection_artist_album sc sc' :
  sc' ∈ selection t TAlbum [mk_Join TRelAlbumArtist RelAlbumArtistAlbum AlbumId] sc ↔
  ∃ l al i, t_album t !! l = Some al ∧ album_artist t l i ∧
    sc' = RRelAlbumArtist l i :: RAlbum l al :: sc.
Proof.
  rewrite elem_of_selection_1. split.
  - intros (r & r1 & Hr & Hr1 & -> & Hj). cbn [j_table] in *. found. eauto 10.
  - intros (l & al & i & Hal & Hi & ->). exists (RAlbum l al), (RRelAlbumArtist l i).
    split_and!; [by apply rows_spec|by apply rows_spec|done|]. by apply is_true_eqb.
Qed.
Lemma selection_mix sc sc' :
  sc' ∈ selection t TMix [] sc ↔ ∃ i m, t_mix t !! i = Some m ∧ sc' = RMix i m :: sc.
Proof.
  rewrite elem_of_selection_0. split.
  - intros (r & Hr & ->). found. eauto.
  - intros (i & m & Hm & ->). exists (RMix i m). split; [by apply rows_spec|done].
Qed.
Lemma selection_mix_song sc sc' :
  sc' ∈ selection t TRelMixSong [] sc ↔
  ∃ m s x, t_rel_mix_song t !! (m, s) = Some x ∧ sc' = RRelMixSong m s x :: sc.
Proof.
  rewrite elem_of_selection_0. split.
  - intros (r & Hr & ->). found. eauto.
  - intros (m & s & x & Hm & ->). exists (RRelMixSong m s x). split; [by apply rows_spec|done].
Qed.
End found.

(** ** The filters of every list *)

Section lists.
Context `{Sqlite} `{Calendar}.

(** The rows in scope show an album, an artist and so on. *)
Definition shows_album (sc : list Row) (a : AlbumRow) : Prop :=
  nearest sc (RAlbum (ab_id a) (ab_row a)) ∧
  column sc DynamicLastPlayedAt = opt_int (ab_last_played a).
Definition shows_artist (sc : list Row) (a : Z * Artist) : Prop := nearest sc (RArtist a.1 a.2).
Definition shows_song (sc : list Row) (s : Z * Song) : Prop := nearest sc (RSong s.1 s.2).
Definition shows_mix (sc : list Row) (m : Z * Mix) : Prop := nearest sc (RMix m.1 m.2).
Definition shows_remote_mix (sc : list Row) (m : Z * RemoteMix) : Prop :=
  nearest sc (RRemoteMix m.1 m.2).

Lemma agrees_Ok t sc c q : agrees t sc c q → agrees_result t sc (Ok c) (Ok q).
Proof. done. Qed.
Ltac plain Hn := apply agrees_Ok; first [apply string_agrees | apply int_agrees | apply date_agrees
  | apply type_agrees | apply type_string_agrees]; by apply Hn.

Lemma album_by_artist_name t sc a f :
  column sc AlbumId = Int a →
  agrees t sc ((λ e, Exists TSong
      [mk_Join TRelSongArtist RelSongArtistSong SongId; mk_Join TArtist ArtistId RelSongArtistArtist]
      [Equals (Named SongAlbumId) AlbumId; e]) <$> string_expr ArtistName f)
    (tested (string_test f) (λ test, ∃ i ar, t_artist t !! i = Some ar ∧ song_by t a i ∧
       passes (ar_name ar) test)).
Proof.
  intros Ha. eapply agrees_iff, (agrees_exists (λ w : Z * Artist, ar_name w.2) Str
    (λ w : Z * Artist, t_artist t !! w.1 = Some w.2 ∧ song_by t a w.1)).
  - intros test. split; [intros ([i ar] & [??] & ?); eauto|intros (i & ar & ? & ? & ?); by exists (i, ar)].
  - apply string_shape.
  - intros. by apply string_agrees.
  - intros ? (s & so & i & ar & Hs & Hi & Har & ->)%selection_song_by Heq.
    apply (holds_Equals_opt _ _ _ _ (so_album so) a) in Heq; [|done|done].
    exists (i, ar). split; [split; [done|by exists s, so]|done].
  - intros [i ar] [Har (s & so & Hs & Hal & Hi)]. eexists. split_and!.
    + apply selection_song_by. eauto 10.
    + by apply (holds_Equals_opt _ _ _ _ (so_album so) a).
    + done.
Qed.
Lemma album_by_artist_id t sc a f :
  column sc AlbumId = Int a →
  agrees t sc ((λ e, Exists TSong [mk_Join TRelSongArtist RelSongArtistSong SongId]
      [Equals SongAlbumId AlbumId; e]) <$> id_expr RelSongArtistArtist f)
    (tested (Some (id_test f)) (λ test, ∃ i, song_by t a i ∧ passes (Some i) test)).
Proof.
  intros Ha. eapply (agrees_exists Some opt_int (song_by t a)).
  - done.
  - intros. by apply id_agrees.
  - intros ? (s & so & i & Hs & Hi & ->)%selection_song_artist Heq.
    apply (holds_Equals_opt _ _ _ _ (so_album so) a) in Heq; [|done|done].
    exists i. split; [by exists s, so|done].
  - intros i (s & so & Hs & Hal & Hi). eexists. split_and!.
    + apply selection_song_artist. eauto 10.
    + by apply (holds_Equals_opt _ _ _ _ (so_album so) a).
    + done.
Qed.
Lemma album_by_album_artist t sc a f :
  column sc AlbumId = Int a →
  agrees t sc ((λ e, Exists TArtist [mk_Join TRelAlbumArtist RelAlbumArtistArtist ArtistId]
      [Equals RelAlbumArtistAlbum AlbumId; e]) <$> id_expr ArtistId f)
    (tested (Some (id_test f)) (λ test, ∃ i ar, t_artist t !! i = Some ar ∧ album_artist t a i ∧
       passes (Some i) test)).
Proof.
  intros Ha. eapply agrees_iff, (agrees_exists (λ w : Z * Artist, Some w.1) opt_int
    (λ w : Z * Artist, t_artist t !! w.1 = Some w.2 ∧ album_artist t a w.1)).
  - intros test. split; [intros ([i ar] & [??] & ?); eauto|intros (i & ar & ? & ? & ?); by exists (i, ar)].
  - done.
  - intros. by apply id_agrees.
  - intros ? (l & i & ar & Har & Hl & ->)%selection_album_artist Heq.
    apply (holds_Equals_Int _ _ _ _ l a) in Heq as ->; [|done|done]. by exists (i, ar).
  - intros [i ar] [Har Hl]. eexists. split_and!.
    + apply selection_album_artist. eauto 10.
    + by apply (holds_Equals_Int _ _ _ _ a a).
    + done.
Qed.
Lemma album_agrees (Htext : ∀ ms, numeric (datetime_text ms) = None) t sc a p :
  shows_album sc a →
  agrees_result t sc (album_filter_to_expr p) (album_meaning t a p).
Proof.
  intros [Hn Hd]. destruct p as [f|f|f|f|f|f|f|f|f|f|f]; unfold album_filter_to_expr, album_meaning; try plain Hn.
  - apply agrees_Ok, album_by_artist_name. by apply Hn.
  - apply (agrees_Ok t sc _ _), (album_by_artist_id t sc (ab_id a) f). by apply Hn.
  - apply (agrees_Ok t sc _ _), (album_by_album_artist t sc (ab_id a) f). by apply Hn.
  - apply year_agrees; [done|]. by apply Hn.
  - by apply agrees_Ok, date_agrees.
Qed.
Lemma artist_agrees t sc a p :
  shows_artist sc a →
  agrees_result t sc (artist_filter_to_expr p) (artist_meaning t a p).
Proof.
  intros Hn. destruct p as [f|f|f|f]; unfold artist_filter_to_expr, artist_meaning; try plain Hn; [|done].
  apply agrees_Ok. eapply agrees_iff, (agrees_exists (λ w : Z * Album, al_name w.2) Str
    (λ w : Z * Album, t_album t !! w.1 = Some w.2 ∧ album_artist t w.1 a.1)).
  - intros test. split; [intros ([i ar] & [??] & ?); eauto|intros (i & ar & ? & ? & ?); by exists (i, ar)].
  - apply string_shape.
  - intros. by apply string_agrees.
  - intros ? (l & al & i & Hal & Hl & ->)%selection_artist_album Heq.
    apply (holds_Equals_Int _ _ _ _ a.1 i) in Heq as ->; [by exists (l, al)| |done].
    by apply (Hn ArtistId).
  - intros [l al] [Hal Hl]. eexists. split_and!.
    + apply selection_artist_album. eauto 10.
    + apply (holds_Equals_Int _ _ _ _ a.1 a.1); [|done|done]. by apply (Hn ArtistId).
    + done.
Qed.
Lemma song_agrees t sc s p :
  shows_song sc s → agrees_result t sc (song_filter_to_expr p) (song_meaning t s p).
Proof.
  intros Hn. destruct p as [f|f]; unfold song_filter_to_expr, song_meaning.
  - apply agrees_Ok, id_agrees. by apply Hn.
  - apply (agrees_Ok t sc _ _), (agrees_exists Some opt_int (λ m, is_Some (t_rel_mix_song t !! (m, s.1))) t sc
      RelMixSongMix _ _ _ _ (Some (id_test f))).
    + done.
    + intros. by apply id_agrees.
    + intros ? (m & s' & x & Hm & ->)%selection_mix_song Heq.
      apply (holds_Equals_Int _ _ _ _ s' s.1) in Heq as ->; [|done|by apply (Hn SongId)].
      exists m. split; [by exists x|done].
    + intros m [x Hm]. eexists. split_and!; [apply selection_mix_song; eauto| |done].
      apply (holds_Equals_Int _ _ _ _ s.1 s.1); [done| |done]. by apply (Hn SongId).
Qed.
Lemma mix_agrees t sc m p :
  shows_mix sc m → agrees_result t sc (mix_filter_to_expr p) (mix_meaning t m p).
Proof.
  intros Hn. by destruct p as [f|f|f|f|f|f]; unfold mix_filter_to_expr, mix_meaning; try plain Hn.
Qed.
Lemma remote_mix_agrees t sc m p :
  shows_remote_mix sc m →
  agrees_result t sc (remote_mix_filter_to_expr p) (remote_mix_meaning t m p).
Proof.
  intros Hn. destruct p as [f|f|f|f]; unfold remote_mix_filter_to_expr, remote_mix_meaning; try plain Hn.
  apply agrees_Ok. eapply agrees_iff, (agrees_exists (λ w : Z * Mix, mix_type_value (mx_mix_type w.2)) Int
    (λ w : Z * Mix, t_mix t !! w.1 = Some w.2 ∧ mx_remote w.2 = Some m.1)).
  - intros test. split; [intros ([i ar] & [??] & ?); eauto 10|intros (i & ar & ? & ? & ?); by exists (i, ar)].
  - apply type_shape.
  - intros. by apply type_agrees.
  - intros ? (i & mx & Hm & ->)%selection_mix Heq.
    apply (holds_Equals_opt _ _ _ _ (mx_remote mx) m.1) in Heq; [by exists (i, mx)|done|].
    by apply (Hn RemoteMixId).
  - intros [i mx] [Hm Hr]. eexists. split_and!; [apply selection_mix; eauto| |done].
    apply (holds_Equals_opt _ _ _ _ (mx_remote mx) m.1); [done| |done]. by apply (Hn RemoteMixId).
Qed.
End lists.

(** ** Grouping *)

#[export] Instance as_pair_proper op : Proper (iff ==> iff ==> iff) (as_pair op).
Proof. intros A A' HA B B' HB. destruct op; cbn; by rewrite HA, HB. Qed.

Section grouping.
Context `{Sqlite} {P : Type} (to_expr : P → result Panic (option Cond))
  (meaning : P → result Panic (option Prop)) (t : Tables) (sc : list Row).
Hypothesis Hmean : ∀ p, agrees_result t sc (to_expr p) (meaning p).

Lemma bucket_cons g g' c b :
  bucket g ((g', c) :: b) = if bool_decide (g' = g) then c :: bucket g b else bucket g b.
Proof. unfold bucket. rewrite filter_cons. cbn. by repeat case_decide || case_bool_decide. Qed.
Lemma elem_of_bucket g c b : c ∈ bucket g b ↔ (g, c) ∈ b.
Proof.
  unfold bucket. rewrite list_elem_of_fmap. setoid_rewrite list_elem_of_filter.
  split; [intros ([g' c'] & -> & [Hg Hin]); cbn in Hg; by subst|intros Hin; by exists (g, c)].
Qed.
Lemma says_present_cons f filters g :
  present meaning (f :: filters) g ↔ (∃ Q, says meaning f g Q) ∨ present meaning filters g.
Proof. unfold present. setoid_rewrite elem_of_cons. naive_solver. Qed.
Lemma group_holds_cons f filters g :
  group_holds meaning (f :: filters) g ↔
  (∀ Q, says meaning f g Q → Q) ∧ group_holds meaning filters g.
Proof. unfold group_holds. setoid_rewrite elem_of_cons. naive_solver. Qed.

(** One filter: what it adds to the buckets is what it says. *)
Lemma filter_means f e :
  filter_expr to_expr f = Ok e →
  match e with
  | Some c => ∃ Q, (holds t sc c = true ↔ Q) ∧ ∀ g Q', says meaning f g Q' ↔ fl_group f = g ∧ Q' = Q
  | None => ∀ g Q', ¬ says meaning f g Q'
  end.
Proof using Hmean.
  unfold filter_expr, says. destruct (fl_payload f) as [p|].
  - intros Hp. specialize (Hmean p). rewrite Hp in Hmean.
    destruct (meaning p) as [q|] eqn:Hq; [|done].
    destruct e as [c|], q as [Q|]; cbn in Hmean; try done.
    + exists Q. split; [done|]. intros g Q'. split; [intros (? & ? & [= <-] & Hm); rewrite Hq in Hm; by injection Hm as ->|].
      intros [Hg ->]. split; [done|]. by exists p.
    + intros g Q' (? & ? & [= <-] & Hm). by rewrite Hq in Hm.
  - intros [= <-] g Q' (? & ? & ? & ?). done.
Qed.
Lemma buckets_mean filters b :
  buckets to_expr filters = Ok b →
  ∀ g, (present meaning filters g ↔ bucket g b ≠ []) ∧
       (group_holds meaning filters g ↔ ∀ c, c ∈ bucket g b → holds t sc c = true).
Proof using Hmean.
  revert b. induction filters as [|f filters IH]; cbn; intros b Hb g.
  - injection Hb as <-. cbn. unfold present, group_holds. set_solver.
  - destruct (filter_expr to_expr f) as [e|] eqn:He; [|done]. apply filter_means in He. cbn in Hb.
    destruct (buckets to_expr filters) as [rest|]; [|done]. injection Hb as <-.
    destruct (IH rest eq_refl g) as [IH1 IH2]. clear IH.
    rewrite says_present_cons, group_holds_cons. destruct e as [c|].
    + destruct He as (Q & HQ & Hsays). rewrite bucket_cons. setoid_rewrite Hsays.
      case_bool_decide as Hg.
      * setoid_rewrite elem_of_cons. split; [split; [done|naive_solver]|naive_solver].
      * split; naive_solver.
    + naive_solver.
Qed.

Lemma group_cond_Some b g c :
  group_cond b g = Some c ↔ bucket g b ≠ [] ∧ c = All (bucket g b).
Proof. unfold group_cond. destruct (bucket g b); naive_solver. Qed.
Lemma elem_of_groups b g : g ∈ groups b ↔ bucket g b ≠ [].
Proof.
  unfold groups. rewrite elem_of_remove_dups, merge_sort_Permutation, list_elem_of_fmap. split.
  - intros ([g' c] & Hg & Hin) Hnil. cbn in Hg. subst g'. apply elem_of_bucket in Hin. rewrite Hnil in Hin. by apply elem_of_nil in Hin.
  - intros Hne. destruct (bucket g b) as [|c l] eqn:Hb; [done|].
    exists (g, c). split; [done|]. apply elem_of_bucket. rewrite Hb. left.
Qed.
Lemma holds_combine op a b :
  holds t sc (combine op a b) = true ↔
  as_pair op (holds t sc a = true) (holds t sc b = true).
Proof. destruct op; cbn [combine]; rewrite ?holds_All, ?holds_AnyOf; set_solver. Qed.

(** The two groups of a pair, when both are there. *)
Definition both (b : Buckets) (l : FilterLogic) : Prop :=
  bucket (lo_a l) b ≠ [] ∧ bucket (lo_b l) b ≠ [].
Definition bucket_holds (b : Buckets) (g : Z) : Prop := holds t sc (All (bucket g b)) = true.
Lemma pair_conds_mean b logics conds referenced :
  pair_conds b logics = (conds, referenced) →
  ((∀ c, c ∈ conds → holds t sc c = true) ↔
     ∀ l, l ∈ logics → both b l →
       as_pair (lo_op l) (bucket_holds b (lo_a l)) (bucket_holds b (lo_b l))) ∧
  ∀ g, g ∈ referenced ↔ ∃ l, l ∈ logics ∧ both b l ∧ (g = lo_a l ∨ g = lo_b l).
Proof.
  revert conds referenced. induction logics as [|l logics IH]; cbn; intros conds referenced Hp.
  - injection Hp as <- <-. set_solver.
  - destruct (pair_conds b logics) as [conds' ref'] eqn:Hrest.
    destruct (IH _ _ eq_refl) as [IH1 IH2]. clear IH.
    assert (both b l ↔ ∃ x y, group_cond b (lo_a l) = Some x ∧ group_cond b (lo_b l) = Some y) as Hboth.
    { setoid_rewrite group_cond_Some. unfold both. naive_solver. }
    destruct (group_cond b (lo_a l)) as [x|] eqn:Hx.
    1: destruct (group_cond b (lo_b l)) as [y|] eqn:Hy.
    + injection Hp as <- <-. apply group_cond_Some in Hx as [Hx ->], Hy as [Hy ->].
      assert (both b l) as Hl by done. setoid_rewrite elem_of_cons. split.
      * transitivity (holds t sc (combine (lo_op l) (All (bucket (lo_a l) b)) (All (bucket (lo_b l) b))) = true ∧
          (∀ c, c ∈ conds' → holds t sc c = true)); [naive_solver|].
        rewrite holds_combine, IH1. unfold bucket_holds. split; [|naive_solver].
        intros [H1 H2] l' [->|Hin] Hb; [done|by apply H2].
      * intros g. rewrite elem_of_union, IH2. set_solver.
    + injection Hp as <- <-. setoid_rewrite elem_of_cons. rewrite IH1. setoid_rewrite IH2.
      split; naive_solver.
    + injection Hp as <- <-. setoid_rewrite elem_of_cons. rewrite IH1. setoid_rewrite IH2.
      split; naive_solver.
Qed.

Lemma pair_conds_nil logics conds referenced :
  pair_conds [] logics = (conds, referenced) → conds = [].
Proof.
  revert conds referenced. induction logics as [|l logics IH]; cbn; intros conds referenced.
  - by intros [= <- _].
  - destruct (pair_conds [] logics) as [conds' ref']. intros [= <- <-]. by eapply IH.
Qed.
Lemma grouped_mean filters logics c :
  build_grouped_condition to_expr filters logics = Ok c →
  (∀ c', c' ∈ option_list c → holds t sc c' = true) ↔ request_matches meaning filters logics.
Proof using Hmean.
  unfold build_grouped_condition. destruct (buckets to_expr filters) as [b|] eqn:Hb; [|done].
  assert (Hg := buckets_mean filters b Hb). cbn.
  assert (∀ g, present meaning filters g ↔ bucket g b ≠ []) as Hpres by (intros; apply Hg).
  assert (∀ g, group_holds meaning filters g ↔ bucket_holds b g) as Hhold.
  { intros g. unfold bucket_holds. rewrite holds_All. apply Hg. }
  unfold request_matches, paired.
  destruct (pair_conds b logics) as [conds referenced] eqn:Hp.
  destruct (pair_conds_mean _ _ _ _ Hp) as [Hc Hr]. unfold both in Hc, Hr.
  assert ((∀ g, present meaning filters g →
      (∀ l, l ∈ logics → present meaning filters (lo_a l) ∧ present meaning filters (lo_b l) →
        g ≠ lo_a l ∧ g ≠ lo_b l) → group_holds meaning filters g) ↔
    ∀ g, g ∈ groups b → g ∉ referenced → bucket_holds b g) as Hrest.
  { setoid_rewrite Hr. setoid_rewrite elem_of_groups. setoid_rewrite Hpres. setoid_rewrite Hhold.
    split; intros HH g Hin Hn; (apply HH; [done|]).
    - intros l Hl Hb'. split; intros ->; apply Hn; eauto.
    - intros (l & Hl & Hb' & Hor). destruct (Hn l Hl Hb'). by destruct Hor. }
  rewrite Hrest. setoid_rewrite Hpres. setoid_rewrite Hhold. rewrite <-Hc. clear Hrest Hc Hr Hg.
  case_bool_decide as Hnil; intros [= <-]; cbn.
  - assert (∀ g, ¬ g ∈ groups b) as Hno by (intros g; rewrite elem_of_groups, Hnil; by intros []).
    assert (conds = []) as -> by (eapply pair_conds_nil; by rewrite <-Hnil).
    set_solver.
  - transitivity (∀ c', c' ∈ conds ++ omap (λ g, if bool_decide (g ∈ referenced) then None
      else group_cond b g) (groups b) → holds t sc c' = true).
    { rewrite <-(holds_All t sc (conds ++ _)). setoid_rewrite list_elem_of_singleton. naive_solver. }
    setoid_rewrite elem_of_app. setoid_rewrite list_elem_of_omap.
    assert ((∀ g, g ∈ groups b → g ∉ referenced → bucket_holds b g) ↔
      ∀ c', (∃ g, g ∈ groups b ∧ (if bool_decide (g ∈ referenced) then None else group_cond b g) =
        Some c') → holds t sc c' = true) as ->; [|naive_solver].
    split.
    + intros HH c' (g & Hg & Hc'). case_bool_decide; [done|].
      apply group_cond_Some in Hc' as [_ ->]. by apply HH.
    + intros HH g Hg Hr. apply HH. exists g. split; [done|]. rewrite bool_decide_eq_false_2 by done.
      apply group_cond_Some. split; [by apply elem_of_groups|done].
Qed.

(** No condition can be built exactly when a filter cannot be read. *)
Lemma grouped_panics filters logics :
  build_grouped_condition to_expr filters logics = Err Panicked ↔
  ∃ f p, f ∈ filters ∧ fl_payload f = Some p ∧ meaning p = Err Panicked.
Proof using Hmean.
  assert (build_grouped_condition to_expr filters logics = Err Panicked ↔
    buckets to_expr filters = Err Panicked) as ->.
  { unfold build_grouped_condition. destruct (buckets to_expr filters) as [b|[]]; cbn; [|done].
    case_bool_decide; [done|]. by destruct (pair_conds b logics). }
  induction filters as [|f filters IH]; cbn; [set_solver|].
  setoid_rewrite elem_of_cons.
  assert (filter_expr to_expr f = Err Panicked ↔
    ∃ p, fl_payload f = Some p ∧ meaning p = Err Panicked) as Hf.
  { unfold filter_expr. destruct (fl_payload f) as [p|]; [|naive_solver].
    specialize (Hmean p). split.
    - intros He. exists p. rewrite He in Hmean. destruct (meaning p) as [|[]]; done.
    - intros (p' & [= <-] & Hm). rewrite Hm in Hmean. by destruct (to_expr p) as [|[]]. }
  destruct (filter_expr to_expr f) as [e|[]]; cbn.
  - destruct (buckets to_expr filters) as [b|[]]; cbn; [|naive_solver].
    split; [done|]. intros (f' & p & [->|Hin] & Hp & Hm); [|naive_solver].
    destruct Hf as [_ Hf]. by discriminate Hf; eauto.
  - naive_solver.
Qed.
End grouping.

(** *** The columns of the conditions *)

Section known.
Context {P : Type} (to_expr : P → result Panic (option Cond)) (levels : list (list Table)).
Hypothesis Hknown : ∀ p c, to_expr p = Ok (Some c) → cond_known levels c = true.

Lemma buckets_known filters b :
  buckets to_expr filters = Ok b → ∀ g c, (g, c) ∈ b → cond_known levels c = true.
Proof using Hknown.
  revert b. induction filters as [|f filters IH]; cbn; intros b Hb g c.
  - injection Hb as <-. by intros ?%not_elem_of_nil.
  - unfold filter_expr in Hb.
    destruct (fl_payload f) as [p|]; [destruct (to_expr p) as [[c'|]|] eqn:Hp|]; cbn in Hb; try done.
    all: destruct (buckets to_expr filters) as [rest|]; [|done]; injection Hb as <-; try by eapply IH.
    intros [[= -> ->]|Hin]%elem_of_cons; [by eapply Hknown|by eapply IH].
Qed.
Lemma forallb_known l : (∀ c, c ∈ l → cond_known levels c = true) → forallb (cond_known levels) l = true.
Proof. intros Hl. apply forallb_forall. intros c Hc. by apply Hl, list_elem_of_In. Qed.
Lemma group_cond_known b g c :
  (∀ g c, (g, c) ∈ b → cond_known levels c = true) → group_cond b g = Some c →
  cond_known levels c = true.
Proof.
  intros Hb [_ ->]%group_cond_Some. apply forallb_known. intros c Hc. by eapply Hb, elem_of_bucket.
Qed.
Lemma pair_conds_known b logics :
  (∀ g c, (g, c) ∈ b → cond_known levels c = true) →
  ∀ c, c ∈ (pair_conds b logics).1 → cond_known levels c = true.
Proof.
  intros Hb. induction logics as [|l logics IH]; cbn; [by intros c ?%not_elem_of_nil|].
  destruct (pair_conds b logics) as [conds referenced]. cbn in IH.
  destruct (group_cond b (lo_a l)) as [x|] eqn:Hx; [|done].
  destruct (group_cond b (lo_b l)) as [y|] eqn:Hy; [|done]. cbn.
  intros c [->|Hin]%elem_of_cons; [|by apply IH].
  apply group_cond_known in Hx, Hy; try done. destruct (lo_op l); cbn; by rewrite Hx, Hy.
Qed.
Lemma grouped_known filters logics c :
  build_grouped_condition to_expr filters logics = Ok (Some c) → cond_known levels c = true.
Proof using Hknown.
  unfold build_grouped_condition. destruct (buckets to_expr filters) as [b|] eqn:Hb; [|done].
  cbn. pose proof (buckets_known _ _ Hb) as Hbk. case_bool_decide; [done|].
  pose proof (pair_conds_known b logics Hbk) as Hp. destruct (pair_conds b logics) as [conds referenced].
  intros [= <-]. apply forallb_known. intros c [Hin|Hin]%elem_of_app; [by apply Hp|].
  apply list_elem_of_omap in Hin as (g & _ & Hg). case_bool_decide; [done|]. by eapply group_cond_known.
Qed.
End known.

(** ** What lists are made of *)

(** Filters of type [P] on rows of type [R]. *)
Class Subject `{Sqlite} `{Calendar} (P R : Type) := {
  to_expr : P → result Panic (option Cond);
  meaning : Tables → R → P → result Panic (option Prop);
  shows : list Row → R → Prop;
  needs : list ColRef;
  to_expr_agrees t sc r p : shows sc r → agrees_result t sc (to_expr p) (meaning t r p);
  (** The tables of a statement that has these columns are enough. *)
  to_expr_known tabs p c :
    (∀ r, r ∈ needs → known [tabs] r = true) → to_expr p = Ok (Some c) →
    cond_known [tabs] c = true;
}.

Section instances.
Context `{Sqlite} `{Calendar}.

Lemma inner_known l tabs c : known [tabs] (Of c) = true → known [l; tabs] (Of c) = true.
Proof. cbn. rewrite !bool_decide_eq_true, !elem_of_app. tauto. Qed.
Lemma string_known levels col f c :
  string_expr col f = Some c → known levels col = true → cond_known levels c = true.
Proof. by destruct f as [v []]; intros [= <-] Hin. Qed.
Lemma int_known levels col f c :
  int_expr col f = Some c → known levels col = true → cond_known levels c = true.
Proof. by destruct f as [v []]; intros [= <-] Hin. Qed.
Lemma date_known levels col f c :
  date_expr col f = Some c → known levels col = true → cond_known levels c = true.
Proof. by destruct f as [v []]; intros [= <-] Hin. Qed.
Lemma type_known levels col f c :
  type_expr col f = Some c → known levels col = true → cond_known levels c = true.
Proof. by destruct f as [v []]; intros [= <-] Hin. Qed.
Lemma type_string_known levels col f c :
  type_string_expr col f = Some c → known levels col = true → cond_known levels c = true.
Proof. by destruct f as [v []]; intros [= <-] Hin. Qed.
Lemma id_known levels col f c :
  id_expr col f = Some c → known levels col = true → cond_known levels c = true.
Proof. unfold id_expr. intros [= <-] Hin. by destruct (id_value f). Qed.
Lemma year_known levels col f c :
  year_expr col f = Ok (Some c) → known levels col = true → cond_known levels c = true.
Proof.
  unfold year_expr. destruct f as [v op]. cbn. destruct (year_of v) as [dt|]; [|done].
  destruct op; cbn; try (destruct (year_of (v + 1)) as [dt'|]; [|done]); intros [= <-] Hin; cbn;
    by rewrite ?Hin.
Qed.
(** A subquery over tables of its own. *)
Lemma exists_known levels from joins cond e c :
  (Exists from joins ∘ (λ e, [cond; e])) <$> e = Some c →
  (let levels := (from :: (j_table <$> joins)) :: levels in
   forallb (λ j, known levels (j_left j) && known levels (j_right j)) joins && cond_known levels cond = true ∧
   ∀ e', e = Some e' → cond_known levels e' = true) →
  cond_known levels c = true.
Proof.
  intros Hc [Hj He]. destruct e as [e|]; [|done]. injection Hc as <-. cbn in *.
  specialize (He e eq_refl). apply andb_true_iff in Hj as [-> ->]. by rewrite He.
Qed.
(** The filter is a condition on a column, or a subquery whose last condition is one. *)
Ltac col_known Hin :=
  first [ eapply string_known; [eassumption|] | eapply int_known; [eassumption|]
        | eapply date_known; [eassumption|] | eapply type_known; [eassumption|]
        | eapply type_string_known; [eassumption|] | eapply id_known; [eassumption|]
        | eapply year_known; [eassumption|] ];
  first [reflexivity | apply Hin; set_solver | apply inner_known, Hin; set_solver].
Ltac outer_known Hin :=
  repeat match goal with
  | |- _ ∧ _ => split
  | |- _ && _ = true => apply andb_true_iff
  | |- forallb _ _ = true => cbn [forallb j_left j_right cond_known]
  | |- cond_known _ _ = true => progress cbn [cond_known]; cbv zeta
  | |- known _ _ = true => first [reflexivity | apply Hin; set_solver | apply inner_known, Hin; set_solver]
  | |- true = true => reflexivity
  end.
Ltac payload_known Hin Hc :=
  first [ by injection Hc as Hc
        | by col_known Hin
        | injection Hc as Hc; col_known Hin
        | injection Hc as Hc; eapply exists_known; [exact Hc|]; split;
          [outer_known Hin | intros ? ?; col_known Hin]
        | injection Hc as <-; destruct (id_value _); outer_known Hin ].

#[global] Instance album_subject `{!DateTexts} : Subject AlbumPayload AlbumRow.
Proof.
  refine {| to_expr := album_filter_to_expr; meaning := album_meaning; shows := shows_album;
            needs := [Of AlbumId; Named AlbumName; Named AlbumTrackCount; Named AlbumDuration;
                      Named AlbumPublishTime; Named AlbumAddedAt; Of AlbumType_;
                      Named AlbumDiscCount; Of DynamicLastPlayedAt] |}.
  - intros. by apply album_agrees.
  - abstract (intros tabs p c Hin Hc; destruct p; cbn in Hc; payload_known Hin Hc).
Defined.
#[global] Instance artist_subject : Subject ArtistPayload (Z * Artist).
Proof.
  refine {| to_expr := artist_filter_to_expr; meaning := artist_meaning; shows := shows_artist;
            needs := [Of ArtistId; Named ArtistName; Named ArtistAddedAt] |}.
  - intros. by apply artist_agrees.
  - abstract (intros tabs p c Hin Hc; destruct p; cbn in Hc; payload_known Hin Hc).
Defined.
#[global] Instance song_subject : Subject SongPayload (Z * Song).
Proof.
  refine {| to_expr := song_filter_to_expr; meaning := song_meaning; shows := shows_song;
            needs := [Of SongId; Named SongAlbumId] |}.
  - intros. by apply song_agrees.
  - abstract (intros tabs p c Hin Hc; destruct p; cbn in Hc; payload_known Hin Hc).
Defined.
#[global] Instance mix_subject : Subject MixPayload (Z * Mix).
Proof.
  refine {| to_expr := mix_filter_to_expr; meaning := mix_meaning; shows := shows_mix;
            needs := [Named MixName; Named MixTrackCount; Named MixMixType] |}.
  - intros. by apply mix_agrees.
  - abstract (intros tabs p c Hin Hc; destruct p; cbn in Hc; payload_known Hin Hc).
Defined.
#[global] Instance remote_mix_subject : Subject RemoteMixPayload (Z * RemoteMix).
Proof.
  refine {| to_expr := remote_mix_filter_to_expr; meaning := remote_mix_meaning;
            shows := shows_remote_mix;
            needs := [Of RemoteMixId; Named RemoteMixName; Of RemoteMixMixType;
                      Named RemoteMixTrackCount] |}.
  - intros. by apply remote_mix_agrees.
  - abstract (intros tabs p c Hin Hc; destruct p; cbn in Hc; payload_known Hin Hc).
Defined.
End instances.

(** C24. The condition the code builds for the filters of a request, evaluated by the database
    on the rows that show an entry, is true exactly when the entry matches the request: every
    filter of a group holds, the groups that a pair combines hold as the pair says, every other
    group holds; filters and pairs that say nothing are ignored. A request for which no
    condition can be built has a filter by a year that does not exist. *)
Theorem conditions_mean_request `{Subject P R} t sc (r : R) filters logics :
  shows sc r →
  match build_grouped_condition to_expr filters logics with
  | Ok c => forallb (holds t sc) (option_list c) = true ↔
      request_matches (meaning t r) filters logics
  | Err Panicked => ∃ f p, f ∈ filters ∧ fl_payload f = Some p ∧ meaning t r p = Err Panicked
  end.
Proof.
  intros Hr. assert (∀ p, agrees_result t sc (to_expr p) (meaning t r p)) as Hag.
  { intros p. by apply to_expr_agrees. }
  destruct (build_grouped_condition to_expr filters logics) as [c|[]] eqn:Hc.
  - rewrite <-(grouped_mean _ _ t sc Hag _ _ _ Hc), forallb_forall.
    by setoid_rewrite <-list_elem_of_In.
  - by apply (grouped_panics _ _ t sc Hag filters logics).
Qed.

Lemma conditions_mean_request_witness :
  let blue := mk_AlbumRow 1 (album "Blue" 9) None in
  let filters := [mk_Filter 1 (Some (ATitle (mk_StringFilter "lu" StringCondition.Contains)))] in
  match build_grouped_condition album_filter_to_expr filters [] with
  | Ok c => forallb (holds library [RDynamic 1 (seen false); RAlbum 1 (album "Blue" 9)]) (option_list c) = true ↔
      request_matches (album_meaning library blue) filters []
  | Err Panicked => ∃ f p, f ∈ filters ∧ fl_payload f = Some p ∧ album_meaning library blue p = Err Panicked
  end.
Proof.
  assert (shows_album [RDynamic 1 (seen false); RAlbum 1 (album "Blue" 9)]
    (mk_AlbumRow 1 (album "Blue" 9) None)) as Hs.
  { split; [|reflexivity]. intros c v Hc. cbn. destruct (col c); cbn in *; congruence. }
  exact (conditions_mean_request library _ _
    [mk_Filter 1 (Some (ATitle (mk_StringFilter "lu" StringCondition.Contains)))] [] Hs).
Defined.
