(* ===== verification/Queries.v ===== *)
(** * Queries: the lists of the user interface

    [backend/main/src/api/entity_query.rs] with [helper_sort.rs]: the requests for albums,
    artists, mixes and songs, and [validate_request] of [identity.rs]. *)
From S2P Require Import Prelude Text Tables Sql Filters Select.
From stdpp Require Import options.
#[local] Set Default Proof Using "Type*".

Open Scope string_scope.
Open Scope Z_scope.
Open Scope list_scope.

(** ** Sorting ([helper_sort.rs], and the numbers of the messages) *)

Module AlbumSort.
Inductive t :=
| Title | SortTitle | Year | PublishTime | TrackCount | AddedTime | DiscCount | LastPlayedAt
| Random.
Definition try_from (n : Z) : option t :=
  match n with
  | 0 => Some Title | 1 => Some SortTitle | 2 => Some Year | 3 => Some PublishTime
  | 4 => Some TrackCount | 5 => Some AddedTime | 6 => Some DiscCount | 7 => Some LastPlayedAt
  | 99 => Some Random | _ => None
  end.
End AlbumSort.
Module ArtistSort.
Inductive t := Name | SortName | AlbumCount | MusicCount.
Definition try_from (n : Z) : option t :=
  match n with
  | 0 => Some Name | 1 => Some SortName | 2 => Some AlbumCount | 3 => Some MusicCount
  | _ => None
  end.
End ArtistSort.
Module SongSort.
Inductive t := TrackNumber | Title | SortTitle | PublishTime | Duration | Popularity | Random.
#[global] Instance t_eq_dec : EqDecision t.
Proof. solve_decision. Defined.
Definition try_from (n : Z) : option t :=
  match n with
  | 0 => Some TrackNumber | 1 => Some Title | 2 => Some SortTitle | 3 => Some PublishTime
  | 4 => Some Duration | 5 => Some Popularity | 99 => Some Random | _ => None
  end.
End SongSort.

Definition album_sort_col (s : AlbumSort.t) : SortKey :=
  match s with
  | AlbumSort.LastPlayedAt => ByColumn DynamicLastPlayedAt
  | AlbumSort.Year | AlbumSort.PublishTime => ByColumn (Named AlbumPublishTime)
  | AlbumSort.Title => ByColumn (Named AlbumName)
  | AlbumSort.SortTitle => ByColumn (Named AlbumSortName)
  | AlbumSort.TrackCount => ByColumn (Named AlbumTrackCount)
  | AlbumSort.AddedTime => ByColumn (Named AlbumAddedAt)
  | AlbumSort.DiscCount => ByColumn (Named AlbumDiscCount)
  | AlbumSort.Random => Random
  end.
Definition artist_sort_col (s : ArtistSort.t) : SortKey :=
  ByColumn $ Of match s with
    | ArtistSort.Name => ArtistName
    | ArtistSort.SortName => ArtistSortName
    | ArtistSort.MusicCount => ArtistMusicCount
    | ArtistSort.AlbumCount => ArtistAlbumCount
    end.
Definition song_sort_col (s : SongSort.t) : SortKey :=
  match s with
  | SongSort.PublishTime => ByColumn SongPublishTime
  | SongSort.Title => ByColumn SongName
  | SongSort.SortTitle => ByColumn SongSortName
  | SongSort.TrackNumber => ByColumn SongTrackNumber
  | SongSort.Duration => ByColumn SongDuration
  | SongSort.Popularity => ByColumn SongPopularity
  | SongSort.Random => Random
  end.
Definition order_songs (q : Select) (s : SongSort.t) (o : Order) : Select :=
  order_by (ByColumn SongId) o (order_by (song_sort_col s) o
    (if bool_decide (s = SongSort.TrackNumber) then order_by (ByColumn SongDiscNumber) o q else q)).
(** [sort_asc.qcm_into()]. *)
Definition order_of (asc : bool) : Order := if asc then Asc else Desc.

(** ** Requests and errors *)

Inductive QueryError :=
| BadId (e : IdError)
| NoSuchAlbum (id : Z) | NoSuchArtist (id : Z) | NoSuchMix (id : Z)
| NotImplemented
| Database (e : SqlError)
| Crashed (p : Panic).

Record GetAlbumsReq := mk_GetAlbumsReq {
  gl_library : list Z; gl_page : Z; gl_page_size : Z; gl_sort : Z; gl_asc : bool;
  gl_filters : list (Filter AlbumPayload); gl_logics : list FilterLogic
}.
Record GetArtistsReq := mk_GetArtistsReq {
  gr_library : list Z; gr_page : Z; gr_page_size : Z; gr_sort : Z; gr_asc : bool;
  gr_filters : list (Filter ArtistPayload); gr_logics : list FilterLogic
}.
Record GetMixsReq (P : Type) := mk_GetMixsReq {
  gm_page : Z; gm_page_size : Z; gm_filters : list (Filter P); gm_logics : list FilterLogic
}.
Arguments gm_page {P}.
Arguments gm_page_size {P}.
Arguments gm_filters {P}.
Arguments gm_logics {P}.
(** [GetMixSongsReq], [GetArtistAlbumReq]. *)
Record GetPartsReq := mk_GetPartsReq {
  gp_id : option Z; gp_page : Z; gp_page_size : Z; gp_sort : Z; gp_asc : bool
}.
Record GetSongIdsReq := mk_GetSongIdsReq {
  gs_library : list Z; gs_sort : Z; gs_asc : bool; gs_album_sort : Z; gs_album_asc : bool;
  gs_filters : list (Filter SongPayload); gs_logics : list FilterLogic;
  gs_album_filters : list (Filter AlbumPayload); gs_album_logics : list FilterLogic
}.
(** [GetAlbumsRsp] and the others: a page of a list. *)
Record IdsRsp := mk_IdsRsp { rp_ids : list Z; rp_total : Z; rp_has_more : bool }.

(** ** Joins along the relations of the models *)

Definition item_of (id : Column) : Join := mk_Join TItem ItemId id.
Definition dynamic_of (id : Column) : Join := mk_Join TDynamic DynamicId id.

Section queries.
Context `{Sqlite} `{Sorter} `{Calendar} (t : Tables).

Definition checked_ids (ids : list Z) (name : string) : result QueryError (list Z) :=
  map_err BadId (checked ids name).
Definition required_id (id : option Z) (name : string) : result QueryError Z :=
  map_err BadId (required id name).
Definition run_ids (id : Column) (q : Select) : result QueryError (list Z) :=
  map_err Database (q_ids t id q).
Definition run_page (id : Column) (p : PageParams) (q : Select) : result QueryError IdsRsp :=
  l ← run_ids id q ;
  mret (mk_IdsRsp (fetch_page p l) (as_i32 (zlen l)) (has_more p (zlen l))).
Definition with_filters {P} (to_expr : P → result Panic (option Cond)) (l : list (Filter P))
    (logics : list FilterLogic) (q : Select) : result QueryError Select :=
  c ← map_err Crashed (build_grouped_condition to_expr l logics) ;
  mret (q_filter (option_list c) q).

Definition get_album (id : option Z) : result QueryError (list Z) :=
  id ← required_id id "album_id" ;
  ensure (bool_decide (is_Some (t_album t !! id))) (NoSuchAlbum id) ;;
  run_ids SongId (order_songs (q_filter [Compare SongAlbumId Eq (Int id)] (select_from TSong))
    SongSort.TrackNumber Asc).
Definition get_albums (r : GetAlbumsReq) : result QueryError IdsRsp :=
  let p := PageParams_new (gl_page r) (gl_page_size r) in
  let sort := opt_default AlbumSort.Title (AlbumSort.try_from (gl_sort r)) in
  let q := left_join (dynamic_of AlbumId) (inner_join (item_of AlbumId) (select_from TAlbum)) in
  libraries ← checked_ids (gl_library r) "library_ids" ;
  let q := q_filter [Compare DynamicIsExternal Eq (Int 0)]
    (q_filter [IsIn ItemLibraryId libraries] q) in
  q ← with_filters album_filter_to_expr (gl_filters r) (gl_logics r) q ;
  run_page AlbumId p (order_by (album_sort_col sort) (order_of (gl_asc r)) q).

(** [GetAlbumArtistsReq] and [GetArtistsReq] differ in the table of relations. *)
Definition artists (rel : Join) (r : GetArtistsReq) : result QueryError IdsRsp :=
  let p := PageParams_new (gr_page r) (gr_page_size r) in
  let sort := opt_default ArtistSort.Name (ArtistSort.try_from (gr_sort r)) in
  libraries ← checked_ids (gr_library r) "library_ids" ;
  let q := inner_join rel
    (q_filter [IsIn ItemLibraryId libraries] (inner_join (item_of ArtistId) (select_from TArtist))) in
  q ← with_filters artist_filter_to_expr (gr_filters r) (gr_logics r) q ;
  run_page ArtistId p (distinct (order_by (artist_sort_col sort) (order_of (gr_asc r)) q)).
Definition get_album_artists : GetArtistsReq → result QueryError IdsRsp :=
  artists (mk_Join TRelAlbumArtist RelAlbumArtistArtist ArtistId).
Definition get_artists : GetArtistsReq → result QueryError IdsRsp :=
  artists (mk_Join TRelSongArtist RelSongArtistArtist ArtistId).
Definition get_artist (id : option Z) : result QueryError Z :=
  id ← required_id id "artist_id" ;
  ensure (bool_decide (is_Some (t_artist t !! id))) (NoSuchArtist id) ;;
  mret id.

Definition get_mixs (r : GetMixsReq MixPayload) : result QueryError IdsRsp :=
  q ← with_filters mix_filter_to_expr (gm_filters r) (gm_logics r)
    (q_filter [Compare MixMixType Ne (Int (mix_type_value MixType.Cache))] (select_from TMix)) ;
  run_page MixId (PageParams_new (gm_page r) (gm_page_size r)) q.
(** The page is taken of the remote mixes, then those without a mix of the library are left
    out. *)
Definition get_remote_mixs (r : GetMixsReq RemoteMixPayload) : result QueryError IdsRsp :=
  let p := PageParams_new (gm_page r) (gm_page_size r) in
  q ← with_filters remote_mix_filter_to_expr (gm_filters r) (gm_logics r) (select_from TRemoteMix) ;
  let q := left_join (mk_Join TMix MixRemoteId RemoteMixId) q in
  ensure (q_known q) (Database BadColumn) ;;
  let l := arrange [] (q_rows t q) in
  mret (mk_IdsRsp (ids_of MixId (fetch_page p l)) (as_i32 (zlen l)) (has_more p (zlen l))).
Definition get_mix (id : option Z) : result QueryError Z :=
  id ← required_id id "mix_id" ;
  ensure (bool_decide (is_Some (t_mix t !! id))) (NoSuchMix id) ;;
  mret id.
Definition get_mix_songs (r : GetPartsReq) : result QueryError (Z * IdsRsp) :=
  id ← required_id (gp_id r) "mix_id" ;
  let sort := opt_default SongSort.Title (SongSort.try_from (gp_sort r)) in
  let q := order_by (ByColumn RelMixSongOrderIdx) Desc
    (order_by (song_sort_col sort) (order_of (gp_asc r))
      (q_filter [Compare RelMixSongMix Eq (Int id)]
        (inner_join (mk_Join TRelMixSong RelMixSongSong SongId)
          (inner_join (item_of SongId) (select_from TSong))))) in
  rsp ← run_page SongId (PageParams_new (gp_page r) (gp_page_size r)) q ;
  ensure (bool_decide (is_Some (t_mix t !! id))) (NoSuchMix id) ;;
  mret (id, rsp).
Definition get_songs_by_id (ids : list Z) : result QueryError (list Z * Z) :=
  ids ← checked_ids ids "song_ids" ;
  ensure (negb (20000 <? zlen ids)) (BadId (WrongId "song IDs")) ;;
  mret (ids, as_i32 (zlen ids)).
Definition get_artist_album (r : GetPartsReq) : result QueryError IdsRsp :=
  id ← required_id (gp_id r) "artist_id" ;
  let sort := opt_default AlbumSort.PublishTime (AlbumSort.try_from (gp_sort r)) in
  ensure (bool_decide (is_Some (t_artist t !! id))) (NoSuchArtist id) ;;
  run_page AlbumId (PageParams_new (gp_page r) (gp_page_size r))
    (order_by (album_sort_col sort) (order_of (gp_asc r))
      (q_filter [Compare ArtistId Eq (Int id)]
        (inner_join (mk_Join TArtist ArtistId RelAlbumArtistArtist)
          (inner_join (mk_Join TRelAlbumArtist RelAlbumArtistAlbum AlbumId) (select_from TAlbum))))).

(** *** [GetSongIdsReq] of [process_qcm.rs], after the mixes it filters by are refreshed *)

(** The albums in their order, numbered by it. *)
Definition sorted_albums (r : GetSongIdsReq) (libraries : list Z) (sort : AlbumSort.t) :
    result QueryError (list Z) :=
  q ← with_filters album_filter_to_expr (gs_album_filters r) (gs_album_logics r)
    (inner_join (item_of AlbumId) (inner_join (dynamic_of AlbumId) (select_from TAlbum))) ;
  run_ids AlbumId (order_by (album_sort_col sort) Asc
    (q_filter [Compare DynamicIsExternal Eq (Int 0); IsIn ItemLibraryId libraries] q)).
(** Songs in the order of the numbers of their albums; [row_number] gives every album its own. *)
Definition get_song_ids (r : GetSongIdsReq) : result QueryError (list Z) :=
  libraries ← checked_ids (gs_library r) "library_ids" ;
  sort ← ok_or (SongSort.try_from (gs_sort r)) NotImplemented ;
  if bool_decide (gs_filters r = []) then
    album_sort ← ok_or (AlbumSort.try_from (gs_album_sort r)) NotImplemented ;
    albums ← sorted_albums r libraries album_sort ;
    l ← mapM (λ album, run_ids SongId
          (order_by (song_sort_col sort) (order_of (gs_asc r))
            (q_filter [Compare SongAlbumId Eq (Int album)] (select_from TSong))))
        (if gs_album_asc r then albums else reverse albums) ;
    mret (concat l)
  else
    q ← with_filters song_filter_to_expr (gs_filters r) (gs_logics r)
      (inner_join (item_of SongId) (select_from TSong)) ;
    run_ids SongId (order_songs q sort (order_of (gs_asc r))).
End queries.

(** ** [validate_request] *)

Inductive Request :=
| GetArtist (id : option Z) | GetArtistAlbum (id : option Z)
| GetAlbums (filters : list (Filter AlbumPayload))
| GetSongIds (filters : list (Filter SongPayload)) (album_filters : list (Filter AlbumPayload))
| Other.
Definition each {A} (f : A → result IdError unit) (l : list A) : result IdError unit :=
  foldr (λ a k, f a ;; k) (mret tt) l.
Definition check_id (id : option Z) (name : string) : result IdError unit :=
  required id name ;; mret tt.
Definition valid_song_filter (f : Filter SongPayload) : result IdError unit :=
  match fl_payload f with
  | Some (SAlbumId id) => check_id id "album_filter"
  | Some (SMixId id) => check_id id "mix_filter"
  | None => mret tt
  end.
Definition valid_album_filter (f : Filter AlbumPayload) : result IdError unit :=
  match fl_payload f with
  | Some (AArtistId id) => check_id id "artist_filter"
  | Some (AAlbumArtistId id) => check_id id "album_artist_filter"
  | _ => mret tt
  end.
Definition validate_request (r : Request) : result IdError unit :=
  match r with
  | GetArtist id | GetArtistAlbum id => check_id id "artist_id"
  | GetAlbums filters => each valid_album_filter filters
  | GetSongIds filters album_filters =>
      each valid_song_filter filters ;; each valid_album_filter album_filters
  | Other => mret tt
  end.
