(* ===== verification/Listing.v ===== *)
(** * Queries: the lists are what was asked for *)
From Stdlib Require Import SpecFloat.
From S2P Require Import Prelude Text Tables Sql Filters Matching Select Queries Shelf Agreement.
From stdpp Require Import options.
#[local] Set Default Proof Using "Type*".

Open Scope string_scope.
Open Scope Z_scope.
Open Scope list_scope.

(** ** Rows of a selection *)

#[local] Arguments rows : simpl never.
#[local] Arguments joined : simpl never.
#[local] Arguments holds : simpl never.

Section rows.
Context `{Sqlite} (t : Tables).

Ltac one_table Hr := apply rows_spec in Hr;
  match goal with r : Row |- _ => destruct r end; destruct Hr as [Htb Hr]; try discriminate Htb; eauto.
Lemma album_row r : r ∈ rows t TAlbum → ∃ i al, r = RAlbum i al ∧ t_album t !! i = Some al.
Proof. intros Hr. one_table Hr. Qed.
Lemma artist_row r : r ∈ rows t TArtist → ∃ i ar, r = RArtist i ar ∧ t_artist t !! i = Some ar.
Proof. intros Hr. one_table Hr. Qed.
Lemma song_row r : r ∈ rows t TSong → ∃ i so, r = RSong i so ∧ t_song t !! i = Some so.
Proof. intros Hr. one_table Hr. Qed.
Lemma item_row r : r ∈ rows t TItem → ∃ i it, r = RItem i it ∧ t_item t !! i = Some it.
Proof. intros Hr. one_table Hr. Qed.
Lemma dynamic_row r : r ∈ rows t TDynamic → ∃ i d, r = RDynamic i d ∧ t_dynamic t !! i = Some d.
Proof. intros Hr. one_table Hr. Qed.
(** The row of another table with the same key. *)
Lemma item_of_spec (id : Column) i sc sc' :
  column sc id = Int i → (∀ i it, field id (RItem i it) = None) →
  sc' ∈ joined t (item_of id) sc ↔ ∃ it, sc' = RItem i it :: sc ∧ t_item t !! i = Some it.
Proof.
  intros Hid Hnone. rewrite elem_of_joined. cbn [j_table j_left j_right item_of]. split.
  - intros (r & Hr & -> & Hj). apply item_row in Hr as (i' & it & -> & Hit).
    cbn in Hj. rewrite Hnone, Hid in Hj. apply is_true_eqb in Hj as ->. eauto.
  - intros (it & -> & Hit). exists (RItem i it). split_and!; [by apply rows_spec|done|].
    cbn. rewrite Hnone, Hid. by apply is_true_eqb.
Qed.
Lemma dynamic_of_spec (id : Column) i sc sc' :
  column sc id = Int i → (∀ i d, field id (RDynamic i d) = None) →
  sc' ∈ joined t (dynamic_of id) sc ↔ ∃ d, sc' = RDynamic i d :: sc ∧ t_dynamic t !! i = Some d.
Proof.
  intros Hid Hnone. rewrite elem_of_joined. cbn [j_table j_left j_right dynamic_of]. split.
  - intros (r & Hr & -> & Hj). apply dynamic_row in Hr as (i' & d & -> & Hd).
    cbn in Hj. rewrite Hnone, Hid in Hj. apply is_true_eqb in Hj as ->. eauto.
  - intros (d & -> & Hd). exists (RDynamic i d). split_and!; [by apply rows_spec|done|].
    cbn. rewrite Hnone, Hid. by apply is_true_eqb.
Qed.
Lemma elem_of_first tb sc :
  sc ∈ ((λ r, [r]) <$> rows t tb) ↔ ∃ r, r ∈ rows t tb ∧ sc = [r].
Proof. rewrite list_elem_of_fmap. naive_solver. Qed.
Lemma elem_of_outer j sc sc' :
  sc' ∈ outer_joined t j sc ↔ sc' ∈ joined t j sc ∨ sc' = sc ∧ joined t j sc = [].
Proof.
  unfold outer_joined. destruct (joined t j sc) eqn:Hj.
  - rewrite list_elem_of_singleton. split; [by right|]. by intros [?%not_elem_of_nil|[??]].
  - split; [by left|]. by intros [?|[??]].
Qed.
Lemma rows_NoDup tb : NoDup (rows t tb).
Proof.
  destruct tb; apply NoDup_fmap_2_strong, NoDup_map_to_list.
  all: intros [k x] [k' x'] Hin Hin' [=]; subst; try done.
  all: destruct k, k'; cbn in *; subst; try done.
  all: apply elem_of_map_to_list in Hin, Hin'; by simplify_eq.
Qed.
Lemma joined_NoDup j sc : NoDup (joined t j sc).
Proof. apply NoDup_filter, NoDup_fmap_2, rows_NoDup. by intros ?? [=]. Qed.
Lemma join_tail kj sc sc' :
  sc' ∈ join_rows t kj sc → sc' = sc ∨ ∃ r, sc' = r :: sc.
Proof.
  unfold join_rows, outer_joined. destruct kj as [[] j]; cbn.
  - intros (r & _ & -> & _)%elem_of_joined. eauto.
  - destruct (joined t j sc) as [|x l] eqn:Hj; [by intros ->%list_elem_of_singleton; left|].
    rewrite <-Hj. intros (r & _ & -> & _)%elem_of_joined. eauto.
Qed.
Lemma inner_tail kj sc sc' : kj.1 = Inner → sc' ∈ join_rows t kj sc → tail sc' = sc.
Proof.
  unfold join_rows. destruct kj as [[] j]; [|done]. intros _ (r & _ & -> & _)%elem_of_joined. done.
Qed.
Lemma join_rows_NoDup kj sc : NoDup (join_rows t kj sc).
Proof.
  unfold join_rows, outer_joined. destruct kj as [[] j]; cbn; [apply joined_NoDup|].
  destruct (joined t j sc) eqn:Hj; [apply NoDup_singleton|rewrite <-Hj; apply joined_NoDup].
Qed.
(** Joins keep the rows apart when the selection so far has rows of one length. *)
Lemma join_NoDup kj l n :
  (∀ sc, sc ∈ l → length sc = n) → NoDup l → NoDup (l ≫= join_rows t kj).
Proof.
  intros Hlen Hl. apply NoDup_bind; [|intros; apply join_rows_NoDup|done].
  intros sc1 sc2 sc H1 H2 Hi1 Hi2.
  apply join_tail in Hi1 as [->|[r1 ->]], Hi2 as [Heq|[r2 Heq]]; try done.
  - apply (f_equal length) in Heq. cbn in Heq. rewrite (Hlen _ H1), (Hlen _ H2) in Heq. lia.
  - apply (f_equal length) in Heq. cbn in Heq. rewrite (Hlen _ H1), (Hlen _ H2) in Heq. lia.
  - by injection Heq.
Qed.
End rows.

(** ** Results of a selection *)

Section results.
Context `{Sqlite} `{SorterLaws} (t : Tables).

Lemma q_ids_Ok id q : q_known q = true →
  q_ids t id q = Ok (let l := ids_of id (arrange (q_order q) (q_rows t q)) in
                     if q_distinct q then remove_dups l else l).
Proof. unfold q_ids. intros ->. done. Qed.
Lemma elem_of_q_rows q sc :
  sc ∈ q_rows t q ↔
  sc ∈ foldl (λ l kj, l ≫= join_rows t kj) ((λ r, [r]) <$> rows t (q_from q)) (q_joins q) ∧
  forallb (holds t sc) (q_conds q) = true.
Proof. unfold q_rows. rewrite list_elem_of_filter. naive_solver. Qed.
(** The rows of a list, each shown by its scope. *)
Lemma ids_of_shown {R} (key : R → Z) (id : Column) l (rs : list R) :
  Forall2 (λ sc r, column sc id = Int (key r)) l rs → ids_of id l = key <$> rs.
Proof. induction 1 as [|sc r l rs Hc _ IH]; [done|]. unfold ids_of in *. cbn. by rewrite Hc, IH. Qed.
End results.

(** ** Albums *)

Lemma pick {A B} (P : A → B → Prop) l :
  (∀ x, x ∈ l → ∃ y, P x y) → ∃ l', Forall2 P l l'.
Proof.
  induction l as [|x l IH]; intros Hex; [by exists []|].
  destruct (Hex x) as [y Hy]; [left|]. destruct IH as [l' Hl']; [by intros z Hz; apply Hex; right|].
  by exists (y :: l'); constructor.
Qed.
Lemma Sorted_along {A B} (P : A → B → Prop) (R : relation A) (R' : relation B) l l' :
  (∀ x y x' y', P x x' → P y y' → R x y → R' x' y') → Forall2 P l l' → Sorted R l → Sorted R' l'.
Proof.
  intros HR. induction 1 as [|x x' l l' Hx Hl IH]; [constructor|].
  inversion 1 as [|?? Hs Hd]; subst. constructor; [by apply IH|].
  destruct Hl as [|y y' l l' Hy Hl]; constructor. inversion Hd; subst. by eapply HR.
Qed.
Lemma NoDup_along {A B} (P : A → B → Prop) (f : B → Z) l l' :
  (∀ x y a b, P x a → P y b → f a = f b → x = y) → Forall2 P l l' → NoDup l → NoDup (f <$> l').
Proof.
  intros Hinj. induction 1 as [|x a l l' Ha Hl IH]; [constructor|].
  intros [Hx Hnd]%NoDup_cons. constructor; [|by apply IH].
  intros (b & Hb & Hin)%list_elem_of_fmap.
  destruct (Forall2_right _ _ _ _ Hl Hin) as (y & Hy & HP). by rewrite (Hinj x y a b) in Hx.
Qed.
Lemma Forall2_left {A B} (P : A → B → Prop) l l' x :
  Forall2 P l l' → x ∈ l → ∃ y, y ∈ l' ∧ P x y.
Proof. intros Hl%Forall2_flip Hx. by eapply Forall2_right in Hl. Qed.

(** An album of one of the libraries that the user has, with the last time it was played. *)
Definition album_entry (t : Tables) (libraries : list Z) (a : AlbumRow) : Prop :=
  t_album t !! ab_id a = Some (ab_row a) ∧
  (∃ it l, t_item t !! ab_id a = Some it ∧ i_library it = Some l ∧ l ∈ libraries) ∧
  ∃ d, t_dynamic t !! ab_id a = Some d ∧ dy_external d = false ∧
    ab_last_played a = dy_last_played d.
(** What albums are sorted by. *)
Definition album_value (s : AlbumSort.t) (a : AlbumRow) : option Value :=
  let r := ab_row a in
  match s with
  | AlbumSort.Title => Some (Str (al_name r))
  | AlbumSort.SortTitle => Some (opt_str (al_sort_name r))
  | AlbumSort.Year | AlbumSort.PublishTime => Some (opt_int (al_publish_time r))
  | AlbumSort.TrackCount => Some (Int (al_track_count r))
  | AlbumSort.AddedTime => Some (opt_int (al_added_at r))
  | AlbumSort.DiscCount => Some (Int (al_disc_count r))
  | AlbumSort.LastPlayedAt => Some (opt_int (ab_last_played a))
  | AlbumSort.Random => None
  end.
Definition album_before (s : AlbumSort.t) (asc : bool) (a b : AlbumRow) : Prop :=
  match album_value s a, album_value s b with
  | Some x, Some y => ordered (order_of asc) (value_compare x y) ≠ Datatypes.Gt
  | _, _ => True
  end.

Section albums.
Context `{Sqlite} `{Calendar} `{!DateTexts} (t : Tables).

Definition album_scope (a : AlbumRow) (it : Item) (d : Dynamic) : list Row :=
  [RDynamic (ab_id a) d; RItem (ab_id a) it; RAlbum (ab_id a) (ab_row a)].
(** The scope shows the album [a] of the user's libraries. *)
Definition album_shown (libraries : list Z) (sc : list Row) (a : AlbumRow) : Prop :=
  album_entry t libraries a ∧ ∃ it d, sc = album_scope a it d ∧
    t_item t !! ab_id a = Some it ∧ t_dynamic t !! ab_id a = Some d.
Lemma album_shown_shows libraries sc a : album_shown libraries sc a → shows_album sc a.
Proof.
  intros ((_ & _ & d' & Hd' & _ & Hp) & it & d & -> & _ & Hd). split.
  - intros c v Hc. cbn. destruct (col c); cbn in *; congruence.
  - cbn. congruence.
Qed.

Lemma album_shown_inj libraries sc a a' :
  album_shown libraries sc a → album_shown libraries sc a' → a = a'.
Proof.
  intros ((_ & _ & d1 & Hd1 & _ & Hp1) & it & d & -> & _ & Hd)
    ((_ & _ & d1' & Hd1' & _ & Hp1') & it' & d' & [= Hi Hd' Hi' Hit' Hia Hal] & _ & Hd2).
  destruct a as [i al p], a' as [i' al' p']; cbn in *. simplify_eq. congruence.
Qed.
Lemma album_shown_same libraries sc sc' a a' :
  album_shown libraries sc a → album_shown libraries sc' a' → ab_id a = ab_id a' → sc = sc'.
Proof.
  intros ((Hal & _) & it & d & -> & Hit & Hd) ((Hal' & _) & it' & d' & -> & Hit' & Hd') Heq.
  unfold album_scope. rewrite Heq in *. congruence.
Qed.
Lemma album_entry_shown libraries a :
  album_entry t libraries a → ∃ sc, album_shown libraries sc a.
Proof.
  intros He. pose proof He as (Hal & (it & l & Hit & _) & d & Hd & _).
  exists (album_scope a it d). split; [done|]. by exists it, d.
Qed.
Definition albums_select (libraries : list Z) (c : option Cond) : Select :=
  q_filter (option_list c) (q_filter [Compare DynamicIsExternal Eq (Int 0)]
    (q_filter [IsIn ItemLibraryId libraries]
      (left_join (dynamic_of AlbumId) (inner_join (item_of AlbumId) (select_from TAlbum))))).
Lemma albums_rows libraries c sc :
  sc ∈ q_rows t (albums_select libraries c) ↔
  ∃ a, album_shown libraries sc a ∧ forallb (holds t sc) (option_list c) = true.
Proof.
  rewrite elem_of_q_rows. cbn [foldl q_joins q_conds q_from albums_select q_filter left_join inner_join
    select_from app]. setoid_rewrite list_elem_of_bind. setoid_rewrite list_elem_of_bind.
  setoid_rewrite elem_of_first. cbn [join_rows fst snd]. split.
  - intros [(sc2 & Hsc & sc1 & Hsc1 & r & Hr & ->) Hc].
    apply album_row in Hr as (i & al & -> & Hal).
    apply (item_of_spec _ _ i) in Hsc1 as (it & -> & Hit); [|done..].
    cbn [forallb] in Hc. apply andb_true_iff in Hc as [Hlib Hc]. apply andb_true_iff in Hc as [Hext Hc].
    apply elem_of_outer in Hsc as [Hsc|[-> _]]; [|done].
    apply (dynamic_of_spec _ _ i) in Hsc as (d & -> & Hd); [|done..].
    exists (mk_AlbumRow i al (dy_last_played d)). split; [|done]. split; [|by exists it, d].
    split_and!; [done| |].
    + unfold holds in Hlib. cbn in Hlib. exists it.
      destruct (i_library it) as [l|]; cbn in Hlib; [|by case_bool_decide].
      exists l. by case_bool_decide.
    + exists d. unfold holds in Hext. cbn in Hext. by destruct (dy_external d).
  - intros (a & ((Hal & (it' & l & Hit' & Hl & Hin) & d' & Hd' & Hext & Hp) & it & d & -> & Hit & Hd) & Hc).
    assert (it' = it) as -> by congruence. assert (d' = d) as -> by congruence. split.
    + exists [RItem (ab_id a) it; RAlbum (ab_id a) (ab_row a)]. split.
      * apply elem_of_outer. left. apply (dynamic_of_spec _ _ (ab_id a)); [done..|]. by exists d.
      * exists [RAlbum (ab_id a) (ab_row a)]. split; [apply (item_of_spec _ _ (ab_id a)); [done..|]; by exists it|].
        exists (RAlbum (ab_id a) (ab_row a)). split; [by apply rows_spec|done].
    + cbn [forallb]. rewrite Hc. unfold holds. cbn. rewrite Hl, Hext. cbn.
      by rewrite bool_decide_eq_true_2.
Qed.
Lemma albums_NoDup libraries c : NoDup (q_rows t (albums_select libraries c)).
Proof.
  unfold q_rows. apply NoDup_filter. cbn [foldl q_joins q_from albums_select q_filter left_join
    inner_join select_from app].
  apply (join_NoDup _ _ _ 2%nat).
  - setoid_rewrite list_elem_of_bind. setoid_rewrite elem_of_first.
    intros sc (sc1 & Hsc & r & _ & ->). cbn [join_rows fst snd] in Hsc.
    by apply elem_of_joined in Hsc as (r' & _ & -> & _).
  - apply (join_NoDup _ _ _ 1%nat); [|apply NoDup_fmap_2, rows_NoDup; by intros ?? [=]].
    intros sc (r & _ & ->)%elem_of_first. done.
Qed.
Lemma albums_known libraries l logics c s asc :
  build_grouped_condition album_filter_to_expr l logics = Ok c →
  q_known (order_by (album_sort_col s) (order_of asc) (albums_select libraries c)) = true.
Proof.
  intros Hc. unfold q_known, q_tables. cbn [q_joins q_conds q_order q_from albums_select q_filter
    order_by left_join inner_join select_from app fmap list_fmap].
  rewrite !andb_true_iff. split_and!; [done| |by destruct s].
  destruct c as [c|]; [|done]. change (option_list (Some c)) with [c]. cbn [forallb]. rewrite !andb_true_iff.
  split_and!; try done. eapply (grouped_known album_filter_to_expr); [|exact Hc].
  intros p c'. apply (@to_expr_known _ _ _ _ album_subject).
  apply Forall_forall. by repeat constructor.
Qed.

End albums.

(** Filters of a list of albums that cannot be read. *)
Definition bad_year `{Calendar} (l : list (Filter AlbumPayload)) : Prop :=
  ∃ f y, f ∈ l ∧ fl_payload f = Some (AYear y) ∧ year_test y = Err Panicked.
Lemma album_panics `{DateTexts} (t : Tables) l logics :
  build_grouped_condition album_filter_to_expr l logics = Err Panicked → bad_year l.
Proof.
  intros Hb.
  set (a := mk_AlbumRow 0 (mk_Album "" None 0 0 AlbumType.Unknown 0 None None None None None) None).
  set (d := mk_Dynamic false 0 0 None None None None 0).
  assert (shows_album [RDynamic 0 d; RAlbum 0 (ab_row a)] a) as Hs.
  { split; [|done]. intros c v Hc. cbn. destruct (col c); cbn in *; congruence. }
  pose proof (conditions_mean_request t _ a l logics Hs) as Hm. cbn in Hm. rewrite Hb in Hm.
  destruct Hm as (f & p & Hf & Hp & Hm).
  destruct p as [y|y|y|y|y|y|y|y|y|y|y]; cbn in Hm; try discriminate Hm.
  exists f, y. split_and!; [done..|]. by destruct (year_test y) as [|[]].
Qed.
Section listed.
Context `{Sqlite} `{SorterLaws} `{Calendar} `{!DateTexts} (t : Tables).

Lemma q_rows_order k o q : q_rows t (order_by k o q) = q_rows t q.
Proof. done. Qed.
Lemma get_albums_run r :
  get_albums t r =
  (libraries ← checked_ids (gl_library r) "library_ids" ;
   c ← map_err Crashed (build_grouped_condition album_filter_to_expr (gl_filters r) (gl_logics r)) ;
   run_page t AlbumId (PageParams_new (gl_page r) (gl_page_size r))
     (order_by (album_sort_col (opt_default AlbumSort.Title (AlbumSort.try_from (gl_sort r))))
       (order_of (gl_asc r)) (albums_select libraries c))).
Proof.
  unfold get_albums, with_filters. destruct (checked_ids _ _); [|done]. cbn.
  by destruct (build_grouped_condition _ _ _).
Qed.
Lemma albums_list libraries filters logics c s asc :
  build_grouped_condition album_filter_to_expr filters logics = Ok c →
  ∃ l : list AlbumRow,
    ids_of AlbumId (arrange [(album_sort_col s, order_of asc)] (q_rows t (albums_select libraries c))) =
      ab_id <$> l ∧
    NoDup (ab_id <$> l) ∧
    (∀ a, a ∈ l ↔ album_entry t libraries a ∧ request_matches (album_meaning t a) filters logics) ∧
    Sorted (album_before s asc) l.
Proof.
  intros Hc. set (rws := q_rows t (albums_select libraries c)).
  set (keys := [(album_sort_col s, order_of asc)]).
  assert (∀ sc, sc ∈ rws ↔ ∃ a, album_shown t libraries sc a ∧
    request_matches (album_meaning t a) filters logics) as Hrws.
  { intros sc. unfold rws. rewrite albums_rows.
    enough (∀ a, album_shown t libraries sc a → forallb (holds t sc) (option_list c) = true ↔
      request_matches (album_meaning t a) filters logics) as Hen
      by (split; intros (a & Hs & Hm); exists a; (split; [done|]); by apply (Hen a Hs)).
    intros a Hs%album_shown_shows.
    pose proof (conditions_mean_request t sc a filters logics Hs) as Hm. cbn in Hm. by rewrite Hc in Hm. }
  destruct (pick (album_shown t libraries) (arrange keys rws)) as [l Hl].
  { intros sc. rewrite arrange_perm, Hrws. intros (a & Ha & _). eauto. }
  assert (∀ a sc, album_shown t libraries sc a → column sc AlbumId = Int (ab_id a)) as Hcol.
  { by intros a sc (_ & it & d & -> & _). }
  exists l. split_and!.
  - apply ids_of_shown. eapply Forall2_impl; [exact Hl|]. intros sc a Hs. by apply Hcol.
  - eapply NoDup_along; [|exact Hl|rewrite arrange_perm; apply albums_NoDup].
    intros sc sc' a a' Ha Ha' Heq. by apply (album_shown_same t libraries sc sc' a a').
  - intros a. split.
    + intros Ha. destruct (Forall2_right _ _ _ _ Hl Ha) as (sc & Hsc & Hs).
      rewrite arrange_perm, Hrws in Hsc. destruct Hsc as (a' & Hs' & Hm).
      rewrite (album_shown_inj _ _ _ _ _ Hs Hs'). by destruct Hs' as [He _].
    + intros [He Hm]. destruct (album_entry_shown _ _ _ He) as [sc Hs].
      assert (sc ∈ arrange keys rws) as Hin by (rewrite arrange_perm, Hrws; eauto).
      destruct (Forall2_left _ _ _ _ Hl Hin) as (a' & Ha' & Hs').
      by rewrite (album_shown_inj _ _ _ _ _ Hs Hs').
  - eapply Sorted_along; [|exact Hl|apply arrange_sorted].
    intros sc sc' a a' Ha Ha'. unfold before, album_before, keys. cbn.
    unfold key_compare. cbn. destruct s; cbn; try done.
    all: destruct Ha as ((_ & _ & d1 & Hd1 & _ & Hp1) & it & d & -> & _ & Hd),
      Ha' as ((_ & _ & d1' & Hd1' & _ & Hp1') & it' & d' & -> & _ & Hd').
    all: simplify_eq; cbn; rewrite ?Hp1, ?Hp1'; by destruct (ordered _ _).
Qed.

(** C23. [GetAlbumsReq] answers with one page of the albums of the user's libraries that match the
    request, each once, sorted as asked, with their number; it fails only when a library's
    identifier is not one or a year does not exist. *)
Theorem albums_listed r :
  let p := PageParams_new (gl_page r) (gl_page_size r) in
  let sort := opt_default AlbumSort.Title (AlbumSort.try_from (gl_sort r)) in
  match get_albums t r with
  | Ok rsp => ∃ l : list AlbumRow,
      NoDup (ab_id <$> l) ∧
      (∀ a, a ∈ l ↔ album_entry t (gl_library r) a ∧
         request_matches (album_meaning t a) (gl_filters r) (gl_logics r)) ∧
      Sorted (album_before sort (gl_asc r)) l ∧
      rsp = mk_IdsRsp (fetch_page p (ab_id <$> l)) (as_i32 (zlen l)) (has_more p (zlen l))
  | Err e => (e = BadId (WrongId "library_ids") ∧ ∃ id, id ∈ gl_library r ∧ id ≤ 0) ∨
      (e = Crashed Panicked ∧ bad_year (gl_filters r))
  end.
Proof.
  cbn zeta. rewrite get_albums_run. unfold checked_ids, checked.
  destruct (existsb (λ id, id <=? 0) (gl_library r)) eqn:Hbad; cbn.
  { left. split; [done|]. apply existsb_exists in Hbad as (id & Hin & Hle).
    exists id. split; [by apply list_elem_of_In|lia]. }
  destruct (build_grouped_condition album_filter_to_expr (gl_filters r) (gl_logics r)) as [c|[]] eqn:Hc; cbn.
  2: { right. split; [done|]. by eapply (album_panics t). }
  unfold run_page, run_ids. rewrite q_ids_Ok by (by eapply albums_known). cbn.
  destruct (albums_list (gl_library r) (gl_filters r) (gl_logics r) c
    (opt_default AlbumSort.Title (AlbumSort.try_from (gl_sort r))) (gl_asc r) Hc) as (l & Hids & ? & ? & ?).
  exists l. split_and!; [done..|]. change (q_rows t (order_by ?k ?o ?q)) with (q_rows t q).
  unfold albums_select in Hids. cbn in Hids. rewrite Hids. unfold zlen. by rewrite length_fmap.
Qed.
End listed.

(** ** The albums of an artist *)

Section artist_albums.
Context `{Sqlite} `{Sorter} (t : Tables).

(** The orders that the statement for the albums of an artist has no column for: names that
    both its tables have, and a column of neither. *)
Definition unsortable (s : AlbumSort.t) : bool :=
  match s with
  | AlbumSort.Title | AlbumSort.SortTitle | AlbumSort.AddedTime | AlbumSort.LastPlayedAt => true
  | _ => false
  end.
(** The albums of an artist cannot be listed by title, by sort title or by the time they
    were added, since the statement names these columns alone and the tables of albums and of
    artists both have them, nor by the time they were last played, since it does not select from
    that table: the database refuses these requests, and no other. *)
Theorem artist_albums_refused r :
  get_artist_album t r = Err (Database BadColumn) ↔
  (∃ id, gp_id r = Some id ∧ 0 < id ∧ is_Some (t_artist t !! id)) ∧
  unsortable (opt_default AlbumSort.PublishTime (AlbumSort.try_from (gp_sort r))) = true.
Proof.
  unfold get_artist_album, required_id, required.
  destruct (gp_id r) as [id|]; cbn; [|split; [done|by intros [(? & ? & _) _]]].
  destruct (Z.ltb_spec 0 id); cbn; [|split; [done|intros [(? & [= <-] & ? & _) _]; lia]].
  case_bool_decide as Ha; cbn; [|split; [done|by intros [(? & [= <-] & _ & ?) _]]].
  unfold run_page, run_ids, q_ids.
  destruct (opt_default _ _); cbn.
  all: split; [intros Hx; first [discriminate Hx | split; [by exists id|done]]
              |intros [_ Hs]; first [discriminate Hs | done]].
Qed.
End artist_albums.

(** ** Pages *)

Section pages.
Context {A : Type}.
Implicit Types l : list A.

Definition is_i32 (n : Z) : Prop := -2147483648 ≤ n ≤ 2147483647.
(** [has_more] of a page says whether that page has entries, not whether there are entries
    after it: it is true of the last page. *)
Theorem has_more_is_not_empty n size l :
  is_i32 n → is_i32 size →
  has_more (PageParams_new n size) (zlen l) = true ↔ fetch_page (PageParams_new n size) l ≠ [].
Proof.
  unfold is_i32. intros Hn Hs. unfold has_more, fetch_page, PageParams_new. cbn.
  rewrite wmul_small by (unfold is_u64, u64_max; nia).
  rewrite Z.ltb_lt. unfold zlen. rewrite <-length_zero_iff_nil, length_take, length_drop. nia.
Qed.

(** The pages of a list from the first on, put together, are the list. *)
Theorem pages_are_the_list size n l :
  zlen l ≤ n * Z.max size 1 →
  concat ((λ i, fetch_page (PageParams_new i size) l) <$> zrange 0 n) = l.
Proof.
  intros Hn. unfold fetch_page, PageParams_new. cbn.
  set (s := Z.max size 1) in *. assert (1 ≤ s) as Hs by lia. clearbody s.
  assert (∀ k : nat, concat ((λ i, take (Z.to_nat s) (drop (Z.to_nat (Z.max i 0 * s)) l)) <$>
    zrange 0 (Z.of_nat k)) = take (k * Z.to_nat s) l) as Hk.
  { induction k as [|k IH]; [done|].
    unfold zrange in *. rewrite Z.sub_0_r in *. rewrite seqZ_S.
    rewrite fmap_app, concat_app, IH. cbn. rewrite app_nil_r.
    replace (Z.to_nat (Z.max (0 + Z.of_nat k) 0 * s)) with (k * Z.to_nat s)%nat by nia.
    rewrite take_take_drop. f_equal. lia. }
  assert (0 ≤ n ∨ n < 0) as [Hp|Hp] by lia.
  - rewrite <-(Z2Nat.id n) by done. rewrite Hk, take_ge; [done|]. unfold zlen in Hn. nia.
  - assert (l = []) as -> by (destruct l; [done|unfold zlen in Hn; cbn in Hn; nia]).
    unfold zrange. by rewrite seqZ_nil by lia.
Qed.
End pages.

(** ** Examples *)

Definition title (g : Z) (c : StringCondition.t) (s : string) : Filter AlbumPayload :=
  mk_Filter g (Some (ATitle (mk_StringFilter s c))).
Definition tracks (g : Z) (n : Z) : Filter AlbumPayload :=
  mk_Filter g (Some (ATrack (mk_IntFilter n IntCondition.Greater))).
(** Albums named "Blue" or with more than ten songs. *)
Definition request (asc : bool) : GetAlbumsReq :=
  mk_GetAlbumsReq [1] 0 10 0 asc [title 1 StringCondition.Is "Blue"; tracks 2 10]
    [mk_FilterLogic LogicOp.Or 1 2].
Example albums_up : get_albums library (request true) = Ok (mk_IdsRsp [2; 1] 2 true).
Proof. vm_compute. reflexivity. Qed.
Example albums_down : get_albums library (request false) = Ok (mk_IdsRsp [1; 2] 2 true).
Proof. vm_compute. reflexivity. Qed.

(** Remote mixes cannot be filtered by name: the name is one of mixes as well. *)
Example remote_mixes_by_name :
  get_remote_mixs library (mk_GetMixsReq _ 0 10
    [mk_Filter 0 (Some (QName (mk_StringFilter "Mix" StringCondition.Contains)))] []) =
  Err (Database BadColumn).
Proof. vm_compute. reflexivity. Qed.

Lemma albums_listed_witness :
  match get_albums library (request true) with
  | Ok rsp => ∃ l : list AlbumRow,
      NoDup (ab_id <$> l) ∧
      (∀ a, a ∈ l ↔ album_entry library [1] a ∧
         request_matches (album_meaning library a) (gl_filters (request true)) (gl_logics (request true))) ∧
      Sorted (album_before AlbumSort.Title true) l ∧
      rsp = mk_IdsRsp (fetch_page (mk_PageParams 0 10) (ab_id <$> l)) (as_i32 (zlen l))
        (has_more (mk_PageParams 0 10) (zlen l))
  | Err e => (e = BadId (WrongId "library_ids") ∧ ∃ id, id ∈ [1] ∧ id ≤ 0) ∨
      (e = Crashed Panicked ∧ bad_year (gl_filters (request true)))
  end.
Proof. exact (albums_listed library (request true)). Defined.
Lemma has_more_is_not_empty_witness :
  has_more (PageParams_new 1 2) (zlen [1; 2; 3]) = true ↔
  fetch_page (PageParams_new 1 2) [1; 2; 3] ≠ [].
Proof. apply (has_more_is_not_empty 1 2); split; lia. Defined.
Lemma pages_are_the_list_witness :
  concat ((λ i, fetch_page (PageParams_new i 2) [1; 2; 3]) <$> zrange 0 2) = [1; 2; 3].
Proof. apply (pages_are_the_list 2 2). vm_compute. discriminate. Defined.
