(* ===== verification/Edits.v ===== *)
(** * Edits of the library by the user

    The requests of [backend/main/src/api/process_qcm.rs] that change the user's own mixes and
    the play counts, with [append_songs], [remove_songs] and [reorder_append] of
    [backend/core/src/model/mix.rs]. What they do under the guards of [Coordinator.v]. *)
From S2P Require Import Prelude Tables Filters.
From stdpp Require Import options.

Open Scope string_scope.
Open Scope Z_scope.
Open Scope list_scope.

#[global] Instance mix_type_eq_dec : EqDecision MixType.t.
Proof. solve_decision. Defined.

(** ** Songs of mixes ([model/mix.rs]) *)

(** The surrogate keys of the rows of a mix are not part of the tables: the order of its rows
    by their keys, given those inserted last, in the order of their insertion. *)
Class RowIds := by_id : list Z → list Z → list Z.

(** [DbOper::insert] of a song at position 0: a row that is there keeps its position. *)
Definition upsert_mix_song (mix song now : Z) (t : Tables) : result DbErr Tables :=
  ensure (has (t_mix t) mix && has (t_song t) song) ForeignKey ;;
  let order := match t_rel_mix_song t !! (mix, song) with Some r => ms_order r | None => 0 end in
  mret (with_rel_mix_song (<[(mix, song) := mk_MixSong order now]>) t).
Fixpoint upsert_mix_songs (mix : Z) (songs : list Z) (now : Z) (t : Tables) : result DbErr Tables :=
  match songs with
  | [] => mret t
  | s :: songs => t ← upsert_mix_song mix s now t ; upsert_mix_songs mix songs now t
  end.

Definition mix_rows (t : Tables) (mix : Z) : list (Z * MixSong) :=
  omap (λ kr : Z * Z * MixSong, if kr.1.1 =? mix then Some (kr.1.2, kr.2) else None)
    (map_to_list (t_rel_mix_song t)).
(** [COALESCE(MAX(order_idx), -1)]. *)
Definition max_order (rows : list (Z * MixSong)) : Z :=
  match rows with
  | [] => -1
  | (_, r) :: rows => foldr (λ sr m, Z.max (ms_order sr.2) m) (ms_order r) rows
  end.
(** The songs at position 0. *)
Definition unplaced (t : Tables) (mix : Z) : list Z :=
  (filter (λ sr : Z * MixSong, ms_order sr.2 = 0) (mix_rows t mix)).*1.
(** Songs not in the mix yet, as they are inserted. *)
Fixpoint fresh (t : Tables) (mix : Z) (seen songs : list Z) : list Z :=
  match songs with
  | [] => []
  | s :: songs =>
      if has (t_rel_mix_song t) (mix, s) || bool_decide (s ∈ seen) then fresh t mix seen songs
      else s :: fresh t mix (s :: seen) songs
  end.

Definition set_order (mix song order : Z) (t : Tables) : Tables :=
  with_rel_mix_song (alter (λ r, mk_MixSong order (ms_update r)) (mix, song)) t.
(** The songs at position 0 move behind all others, in the order of their keys. *)
Fixpoint place (mix : Z) (songs : list Z) (order : Z) (t : Tables) : Tables :=
  match songs with
  | [] => t
  | s :: songs => place mix songs (order + 1) (set_order mix s order t)
  end.
Definition update_track_count (mix delta now : Z) (t : Tables) : Tables :=
  if delta =? 0 then t else
  with_mix (alter (λ r, mk_Mix (mx_name r) (mx_track_count r + delta) (mx_mix_type r)
    (mx_sort_name r) (mx_description r) (mx_remote r) (mx_create r) now (mx_content_update r)) mix) t.

Module MixOper.
Inductive t := AddSongs | RemoveSongs | AddAlbums | Unspecified.
End MixOper.
Module PlaylogAction.
Inductive t := Unspecified | Play | Pause | Stop | Next | Prev.
End PlaylogAction.

Section mixes.
Context `{RowIds}.

Definition reorder_append (mix : Z) (inserted : list Z) (t : Tables) : Tables :=
  place mix (by_id inserted (unplaced t mix)) (max_order (mix_rows t mix) + 1) t.
Definition append_songs (mix : Z) (songs : list Z) (now : Z) (t : Tables) : result DbErr (Z * Tables) :=
  let inserted := fresh t mix [] songs in
  t ← upsert_mix_songs mix songs now t ;
  let count := zlen (unplaced t mix) in
  mret (count, update_track_count mix count now (reorder_append mix inserted t)).
Definition remove_songs (mix : Z) (songs : list Z) (now : Z) (t : Tables) : Z * Tables :=
  let t' := with_rel_mix_song (sieve (λ k _, negb ((k.1 =? mix) && bool_decide (k.2 ∈ songs)))) t in
  let n := zlen (mix_rows t mix) - zlen (mix_rows t' mix) in
  (n, update_track_count mix (- n) now t').

(** ** Requests *)

Inductive EditError :=
| BadField (e : IdError)
| Db (e : DbErr)
| NotImplementedOper
| NoSuchSong (id : Z)
| UnexpectedPayload.
Record MixManipulateReq := mk_MixManipulateReq {
  mm_id : option Z; mm_oper : MixOper.t; mm_songs : list Z; mm_albums : list Z
}.

(** What the handlers work on: the tables, and what each provider is playing. *)
Record Desk := mk_Desk { dk_tables : Tables; dk_playing : gmap Z (Z * string) }.
Definition EditM (A : Type) : Type := ST Desk EditError A.
Definition field {A} (r : result IdError A) : EditM A := lift (map_err BadField r).
Definition edit (f : Tables → Tables) : EditM unit :=
  modify (λ d, mk_Desk (f (dk_tables d)) (dk_playing d)).
Definition try_edit {A} (f : Tables → result DbErr (A * Tables)) : EditM A := λ d,
  match f (dk_tables d) with
  | Ok (a, t) => (Ok a, mk_Desk t (dk_playing d))
  | Err e => (Err (Db e), d)
  end.

(** Songs of albums. The query has no [ORDER BY]: their order is the database's choice, here that
    of [map_to_list]. *)
Definition songs_of (albums : list Z) (t : Tables) : list Z :=
  (filter (λ sr : Z * Song, is_some_and (so_album sr.2) (λ a, bool_decide (a ∈ albums)) = true)
    (map_to_list (t_song t))).*1.
Definition mix_manipulate (r : MixManipulateReq) (now : Z) : EditM Z :=
  mix ← field (required (mm_id r) "mix_id") ;
  songs ← field (checked (mm_songs r) "song_ids") ;
  albums ← field (checked (mm_albums r) "album_ids") ;
  in_txn match mm_oper r with
    | MixOper.AddSongs => try_edit (append_songs mix songs now)
    | MixOper.RemoveSongs => try_edit (λ t, Ok (remove_songs mix songs now t))
    | MixOper.AddAlbums =>
        ids ← gets (λ d, songs_of albums (dk_tables d)) ; try_edit (append_songs mix ids now)
    | MixOper.Unspecified => fail NotImplementedOper
    end.
(** The songs of the request are checked and then left alone. *)
Definition create_mix (name : string) (songs : list Z) (now : Z) : EditM Z :=
  field (checked songs "song_ids") ;;
  try_edit (insert_mix (mk_Mix name 0 MixType.Normal None "" None now now 0)).
Definition set_mix_type (ty : MixType.t) (now : Z) (r : Mix) : Mix :=
  mk_Mix (mx_name r) (mx_track_count r) ty (mx_sort_name r) (mx_description r) (mx_remote r)
    (mx_create r) now (mx_content_update r).
(** The user's own mixes go; links to remote mixes become cached ones. *)
Definition delete_mix (ids : list Z) (now : Z) : EditM unit :=
  ids ← field (checked ids "mix_ids") ;
  edit (delete_mixes (λ i r, bool_decide (i ∈ ids) && bool_decide (mx_mix_type r = MixType.Normal))) ;;
  edit (with_mix (map_imap (λ i r, Some
    (if bool_decide (i ∈ ids) && bool_decide (mx_mix_type r = MixType.Link)
     then set_mix_type MixType.Cache now r else r)))).
Definition link_mix (ids : list Z) (now : Z) : EditM unit :=
  ids ← field (checked ids "mix_ids") ;
  edit (with_mix (map_imap (λ i r, Some
    (if bool_decide (i ∈ ids) then set_mix_type MixType.Link now r else r)))).

(** ** Play log *)

Definition log_play (timestamp now id : Z) (t : Tables) : result DbErr (unit * Tables) :=
  match t_dynamic t !! id with
  | None => t ← insert_dynamic id (mk_Dynamic false 1 0 None (Some timestamp) None None now) t ; mret (tt, t)
  | Some d => mret (tt, with_dynamic (<[id :=
      mk_Dynamic (dy_external d) (dy_play_count d + 1) (dy_remote_play_count d) (dy_last_position d)
        (Some timestamp) (dy_remote_last_played d) (dy_favorite d) (dy_update d)]>) t)
  end.
(** What was done is answered with an error: the handler ends without returning a response. *)
Definition playlog (song : option Z) (action : PlaylogAction.t) (timestamp now : Z) : EditM unit :=
  id ← field (required song "song_id") ;
  so ← gets (λ d, t_song (dk_tables d) !! id) ;
  so ← lift (ok_or so (NoSuchSong id)) ;
  it ← gets (λ d, t_item (dk_tables d) !! id) ;
  match it with
  | Some it =>
      match action with
      | PlaylogAction.Play =>
          modify (λ d, mk_Desk (dk_tables d) (<[i_provider it := (id, i_native it)]> (dk_playing d)))
      | PlaylogAction.Stop =>
          modify (λ d, mk_Desk (dk_tables d) (delete (i_provider it) (dk_playing d)))
      | _ => mret tt
      end
  | None => mret tt
  end ;;
  in_txn (try_edit (log_play timestamp now id) ;;
          match so_album so with
          | Some album => try_edit (log_play timestamp now album)
          | None => mret tt
          end) ;;
  fail UnexpectedPayload.
End mixes.
