(* ===== verification/EditFacts.v ===== *)
(** * Edits of the library: mixes are lists of songs *)
From S2P Require Import Prelude Tables Filters Edits Integrity Coordinator Sessions Fixture.
From stdpp Require Import options.
#[local] Set Default Proof Using "Type*".

Open Scope string_scope.
Open Scope Z_scope.
Open Scope list_scope.

(** Keys order rows; the rows inserted last have the greatest keys, in the order of their
    insertion. *)
Class RowIdLaws `{RowIds} : Prop := {
  by_id_perm inserted l : by_id inserted l ≡ₚ l;
  by_id_inserted inserted l : l ≡ₚ inserted → by_id inserted l = inserted;
}.

(** ** A mix as a list *)

Definition mix_row (t : Tables) (mix song : Z) : option MixSong := t_rel_mix_song t !! (mix, song).
Definition position (t : Tables) (mix song : Z) : Z := from_option ms_order 0 (mix_row t mix song).
(** [l] is the songs of the mix by their positions, which are positive. *)
Record in_order (t : Tables) (mix : Z) (l : list Z) : Prop := {
  io_nodup : NoDup l;
  io_rows s : s ∈ l ↔ is_Some (mix_row t mix s);
  io_sorted : StronglySorted (λ a b, position t mix a < position t mix b) l;
  io_positive s r : mix_row t mix s = Some r → 0 < ms_order r;
}.
(** And the mix knows their number. *)
Definition mix_ok (t : Tables) (mix : Z) (l : list Z) : Prop :=
  in_order t mix l ∧ ∃ r, t_mix t !! mix = Some r ∧ mx_track_count r = zlen l.
(** Songs that are not in [l], each once. *)
Fixpoint new_songs (l songs : list Z) : list Z :=
  match songs with
  | [] => []
  | s :: songs => if bool_decide (s ∈ l) then new_songs l songs else s :: new_songs (s :: l) songs
  end.

Lemma elem_of_mix_rows t mix s r : (s, r) ∈ mix_rows t mix ↔ mix_row t mix s = Some r.
Proof.
  unfold mix_rows, mix_row. rewrite list_elem_of_omap. split.
  - intros ([[m s'] r'] & Hin & Hf). cbn in Hf. destruct (Z.eqb_spec m mix) as [->|]; [|done].
    injection Hf as -> ->. by apply elem_of_map_to_list in Hin.
  - intros Hs. exists (mix, s, r). split; [by apply elem_of_map_to_list|]. cbn. by rewrite Z.eqb_refl.
Qed.
Lemma mix_rows_NoDup t mix : NoDup (mix_rows t mix).*1.
Proof.
  unfold mix_rows. pose proof (NoDup_fst_map_to_list (t_rel_mix_song t)) as Hnd.
  induction (map_to_list (t_rel_mix_song t)) as [|[[m s] r] l IH]; [constructor|].
  cbn in *. apply NoDup_cons in Hnd as [Hn Hnd]. destruct (Z.eqb_spec m mix) as [->|]; [|by apply IH].
  cbn. constructor; [|by apply IH]. intros ([s' r'] & -> & Hin)%list_elem_of_fmap.
  apply list_elem_of_omap in Hin as ([[m' s''] r''] & Hin & Hf). cbn in *.
  destruct (Z.eqb_spec m' mix) as [->|]; [|done]. injection Hf as -> ->.
  apply Hn, list_elem_of_fmap. by exists (mix, s', r').
Qed.
Lemma max_order_ge t mix s r : mix_row t mix s = Some r → ms_order r ≤ max_order (mix_rows t mix).
Proof.
  intros Hin%elem_of_mix_rows. destruct (mix_rows t mix) as [|[s0 r0] rows]; [by apply not_elem_of_nil in Hin|].
  cbn. apply elem_of_cons in Hin as [[= -> ->]|Hin].
  - clear. induction rows as [|[s r] rows IH]; cbn; lia.
  - induction rows as [|[s1 r1] rows IH]; [by apply not_elem_of_nil in Hin|].
    cbn. apply elem_of_cons in Hin as [[= -> ->]|Hin]; [lia|]. specialize (IH Hin). lia.
Qed.
Lemma elem_of_unplaced t mix s :
  s ∈ unplaced t mix ↔ ∃ r, mix_row t mix s = Some r ∧ ms_order r = 0.
Proof.
  unfold unplaced. rewrite list_elem_of_fmap. setoid_rewrite list_elem_of_filter. split.
  - intros ([s' r] & -> & Hr & Hin%elem_of_mix_rows). eauto.
  - intros (r & Hs & Hr). exists (s, r). split; [done|]. split; [done|]. by apply elem_of_mix_rows.
Qed.
Lemma unplaced_NoDup t mix : NoDup (unplaced t mix).
Proof.
  unfold unplaced. eapply sublist_NoDup; [apply (mix_rows_NoDup t mix)|]. apply fmap_sublist, sublist_filter.
Qed.
Lemma elem_of_new_songs l songs s : s ∈ new_songs l songs ↔ s ∈ songs ∧ s ∉ l.
Proof.
  revert l. induction songs as [|x songs IH]; intros l; cbn; [set_solver|].
  destruct (decide (s = x)) as [->|]; case_bool_decide; rewrite ?elem_of_cons, IH; set_solver.
Qed.
Lemma new_songs_NoDup l songs : NoDup (new_songs l songs).
Proof.
  revert l. induction songs as [|x songs IH]; intros l; cbn; [constructor|].
  case_bool_decide; [done|]. constructor; [|done]. rewrite elem_of_new_songs. set_solver.
Qed.
Lemma fresh_new_songs t mix seen l songs :
  (∀ s, s ∈ l ↔ is_Some (mix_row t mix s) ∨ s ∈ seen) → fresh t mix seen songs = new_songs l songs.
Proof.
  revert seen l. induction songs as [|x songs IH]; intros seen l Hl; cbn; [done|].
  assert (has (t_rel_mix_song t) (mix, x) || bool_decide (x ∈ seen) = bool_decide (x ∈ l)) as ->.
  { apply eq_bool_prop_intro. unfold has. rewrite orb_True, !bool_decide_spec. symmetry. apply Hl. }
  case_bool_decide; [by apply IH|]. f_equal. apply IH. intros s. rewrite !elem_of_cons, Hl. naive_solver.
Qed.

(** ** Adding songs *)

Lemma StronglySorted_weaken {A} (R R' : relation A) l :
  (∀ a b, a ∈ l → b ∈ l → R a b → R' a b) → StronglySorted R l → StronglySorted R' l.
Proof.
  intros HR. induction 1 as [|x l Hs IH Hx]; constructor.
  - apply IH. intros a b Ha Hb. apply HR; by right.
  - apply Forall_forall. intros y Hy. apply HR; [left|by right|].
    rewrite Forall_forall in Hx. by apply Hx.
Qed.

(** Rows of one mix, everything else alone. *)
Record only_mix (mix : Z) (t t' : Tables) : Prop := {
  om_rows m s : m ≠ mix → mix_row t' m s = mix_row t m s;
  om_mix m : m ≠ mix → t_mix t' !! m = t_mix t !! m;
  om_song : t_song t' = t_song t;
}.
Lemma only_mix_ok mix t t' m l : only_mix mix t t' → m ≠ mix → mix_ok t m l → mix_ok t' m l.
Proof.
  intros [Hr Hm _] Hne [[Hnd Hio Hs Hp] Hc]. split; [split|].
  - done.
  - intros s. by rewrite Hr.
  - eapply StronglySorted_weaken; [|exact Hs]. intros a b _ _. unfold position. by rewrite !Hr.
  - intros s r. rewrite Hr by done. apply Hp.
  - by rewrite Hm.
Qed.
Lemma upsert_row mix songs now t t' s :
  upsert_mix_songs mix songs now t = Ok t' →
  t' = with_rel_mix_song (λ _, t_rel_mix_song t') t ∧
  (∀ m, m ≠ mix → mix_row t' m s = mix_row t m s) ∧
  mix_row t' mix s =
    if bool_decide (s ∈ songs) then Some (mk_MixSong (position t mix s) now) else mix_row t mix s.
Proof.
  revert t. induction songs as [|x songs IH]; intros t; cbn.
  - intros [= <-]. by destruct t.
  - unfold upsert_mix_song at 1. destruct (has _ _ && has _ _); [|done]. cbn. intros Ht'.
    destruct (IH _ Ht') as (Heq & Hother & Hrow). clear IH. split_and!.
    + rewrite Heq at 1. by destruct t.
    + intros m Hm. rewrite (Hother m Hm). unfold mix_row. cbn. by rewrite lookup_insert_ne by congruence.
    + rewrite Hrow. unfold position, mix_row. cbn.
      destruct (decide (s = x)) as [->|Hne].
      * rewrite lookup_insert_eq, (bool_decide_eq_true_2 (x ∈ x :: songs)) by set_solver. cbn.
        case_bool_decide; by destruct (t_rel_mix_song t !! (mix, x)).
      * rewrite lookup_insert_ne by congruence.
        rewrite (bool_decide_ext (s ∈ x :: songs) (s ∈ songs)) by set_solver. done.
Qed.
Lemma place_rows mix l o t s :
  NoDup l →
  place mix l o t = with_rel_mix_song (λ _, t_rel_mix_song (place mix l o t)) t ∧
  (∀ m, m ≠ mix → mix_row (place mix l o t) m s = mix_row t m s) ∧
  (s ∉ l → mix_row (place mix l o t) mix s = mix_row t mix s) ∧
  (∀ i, l !! i = Some s → mix_row (place mix l o t) mix s =
     (λ r, mk_MixSong (o + Z.of_nat i) (ms_update r)) <$> mix_row t mix s).
Proof.
  revert o t. induction l as [|x l IH]; intros o t; cbn.
  - intros _. split_and!; try done. by destruct t.
  - intros [Hx Hnd]%NoDup_cons. destruct (IH (o + 1) (set_order mix x o t) Hnd) as (Heq & Ho & Hn & Hi).
    clear IH. assert (∀ m s', (m, s') ≠ (mix, x) → mix_row (set_order mix x o t) m s' = mix_row t m s') as Hset.
    { intros m s' Hne. unfold mix_row, set_order. cbn. by rewrite lookup_alter_ne. }
    split_and!.
    + rewrite Heq at 1. by destruct t.
    + intros m Hm. rewrite Ho by done. apply Hset. congruence.
    + intros [Hsx Hsl]%not_elem_of_cons. rewrite Hn by done. apply Hset. congruence.
    + intros [|i] Hs; cbn in Hs.
      * injection Hs as ->. rewrite Hn by done. unfold mix_row, set_order. cbn.
        rewrite lookup_alter_eq. by rewrite Z.add_0_r.
      * assert (s ≠ x) by (intros ->; by eapply Hx, list_elem_of_lookup_2).
        rewrite (Hi i Hs), Hset by congruence. destruct (mix_row t mix s); [|done]. cbn.
        do 2 f_equal. lia.
Qed.

Lemma numbered_sorted (f : Z → Z) c l :
  (∀ i s, l !! i = Some s → f s = c + Z.of_nat i) → StronglySorted (λ a b, f a < f b) l.
Proof.
  revert c. induction l as [|x l IH]; intros c Hf; constructor.
  - apply (IH (c + 1)). intros i s Hi. rewrite (Hf (S i) s Hi). lia.
  - apply Forall_forall. intros y Hy. apply list_elem_of_lookup_1 in Hy as [i Hi].
    rewrite (Hf 0%nat x eq_refl), (Hf (S i) y Hi). lia.
Qed.

(** The number of songs of a mix. *)
Lemma update_track_rel mix delta now t :
  t_rel_mix_song (update_track_count mix delta now t) = t_rel_mix_song t.
Proof. unfold update_track_count. by destruct (delta =? 0). Qed.
Lemma in_order_rel t t' mix l :
  t_rel_mix_song t' = t_rel_mix_song t → in_order t mix l → in_order t' mix l.
Proof.
  intros Heq [Hnd Hl Hs Hp]. unfold position, mix_row in *.
  split; unfold position, mix_row; rewrite ?Heq; done.
Qed.
Lemma update_track_ok mix delta now t l r :
  in_order t mix l → t_mix t !! mix = Some r → mx_track_count r + delta = zlen l →
  mix_ok (update_track_count mix delta now t) mix l.
Proof.
  intros Hio Hr Hc. split; [by eapply in_order_rel, Hio; apply update_track_rel|].
  unfold update_track_count. destruct (Z.eqb_spec delta 0) as [->|].
  - exists r. split; [done|lia].
  - cbn. rewrite lookup_alter_eq, Hr. eexists. split; [done|]. cbn. lia.
Qed.
Lemma update_track_only mix delta now t t' :
  only_mix mix t t' → only_mix mix t (update_track_count mix delta now t').
Proof.
  intros [Hr Hm Hs]. split.
  - intros m s Hne. unfold mix_row in *. rewrite update_track_rel. by apply Hr.
  - intros m Hne. unfold update_track_count. destruct (delta =? 0); cbn; [by apply Hm|].
    rewrite lookup_alter_ne by done. by apply Hm.
  - unfold update_track_count. by destruct (delta =? 0).
Qed.

Section append.
Context `{RowIdLaws}.

Lemma unplaced_inserted t t1 mix l songs now :
  in_order t mix l → upsert_mix_songs mix songs now t = Ok t1 →
  unplaced t1 mix ≡ₚ new_songs l songs.
Proof.
  intros [_ Hl _ Hpos] Ht1. apply NoDup_Permutation; [apply unplaced_NoDup|apply new_songs_NoDup|].
  intros s. destruct (upsert_row _ _ _ _ _ s Ht1) as (_ & _ & Hrow).
  rewrite elem_of_unplaced, elem_of_new_songs, Hl, Hrow. unfold position.
  specialize (Hpos s). case_bool_decide as Hs; destruct (mix_row t mix s) as [r|]; cbn.
  - specialize (Hpos r eq_refl). split; [intros (? & [= <-] & ?); cbn in *; lia|].
    intros [_ []]. eauto.
  - split; [intros _; split; [done|by intros []]|eauto].
  - specialize (Hpos r eq_refl). split; [intros (? & [= <-] & ?); lia|]. by intros [].
  - split; [by intros (? & ? & _)|by intros []].
Qed.
(** Where the songs are afterwards. *)
Lemma append_rows t t1 mix l songs now :
  in_order t mix l → upsert_mix_songs mix songs now t = Ok t1 →
  let fr := new_songs l songs in
  let t2 := reorder_append mix (fresh t mix [] songs) t1 in
  (∀ s, is_Some (mix_row t2 mix s) ↔ s ∈ l ++ fr) ∧
  (∀ s, s ∈ l → position t2 mix s = position t mix s) ∧
  (∀ s, s ∈ l → position t mix s ≤ max_order (mix_rows t1 mix)) ∧
  (∀ s, s ∈ fr → 0 ≤ max_order (mix_rows t1 mix)) ∧
  (∀ i s, fr !! i = Some s → position t2 mix s = max_order (mix_rows t1 mix) + 1 + Z.of_nat i).
Proof.
  intros Hio Ht1. cbn. unfold reorder_append.
  rewrite (fresh_new_songs t mix [] l) by (intros s; rewrite (io_rows _ _ _ Hio); set_solver).
  rewrite by_id_inserted by (by eapply unplaced_inserted).
  pose proof (new_songs_NoDup l songs) as Hnd.
  assert (∀ s, mix_row t1 mix s =
    if bool_decide (s ∈ songs) then Some (mk_MixSong (position t mix s) now) else mix_row t mix s) as Hrow.
  { intros s. by apply (upsert_row _ _ _ _ _ s Ht1). }
  set (fr := new_songs l songs) in *. set (o := max_order _ + 1).
  assert (∀ s, s ∉ fr → mix_row (place mix fr o t1) mix s = mix_row t1 mix s) as Hout.
  { intros s Hs. by apply (place_rows mix fr o t1 s Hnd). }
  assert (∀ i s, fr !! i = Some s → mix_row (place mix fr o t1) mix s =
    Some (mk_MixSong (o + Z.of_nat i) now)) as Hin.
  { intros i s Hi. destruct (place_rows mix fr o t1 s Hnd) as (_ & _ & _ & Hp).
    rewrite (Hp i Hi), Hrow. apply list_elem_of_lookup_2, elem_of_new_songs in Hi as [Hs _].
    by rewrite bool_decide_eq_true_2. }
  assert (∀ s, s ∈ l → s ∉ fr) as Hdis by (intros s Hs; unfold fr; rewrite elem_of_new_songs; naive_solver).
  assert (∀ s, s ∈ l → is_Some (mix_row t1 mix s) ∧ position t1 mix s = position t mix s) as Hold.
  { intros s Hs. unfold position at 1. rewrite Hrow. case_bool_decide; [by eauto|].
    split; [by apply (io_rows _ _ _ Hio)|done]. }
  split_and!.
  - intros s. rewrite elem_of_app. destruct (decide (s ∈ fr)) as [Hs|Hs].
    + apply list_elem_of_lookup_1 in Hs as [i Hi]. rewrite (Hin i s Hi).
      split; [intros _; right; by eapply list_elem_of_lookup_2|eauto].
    + rewrite Hout, Hrow by done. case_bool_decide as Hss.
      * split; [intros _; left|eauto]. destruct (decide (s ∈ l)) as [|Hn]; [done|].
        destruct Hs. by apply elem_of_new_songs.
      * rewrite <-(io_rows _ _ _ Hio). naive_solver.
  - intros s Hs. unfold position at 1. rewrite Hout by auto. by apply Hold.
  - intros s Hs. destruct (Hold s Hs) as [[r Hr] <-]. unfold position. rewrite Hr. cbn.
    by eapply max_order_ge.
  - intros s [Hs Hn]%elem_of_new_songs. transitivity (ms_order (mk_MixSong (position t mix s) now)).
    + unfold position. destruct (mix_row t mix s) as [r|] eqn:Hr; [|done].
      cbn. pose proof (io_positive _ _ _ Hio s r Hr). lia.
    + eapply max_order_ge. by rewrite Hrow, bool_decide_eq_true_2.
  - intros i s Hi. unfold position. by rewrite (Hin i s Hi).
Qed.
Lemma new_in_order t t1 mix l songs now :
  in_order t mix l → upsert_mix_songs mix songs now t = Ok t1 →
  in_order (reorder_append mix (fresh t mix [] songs) t1) mix (l ++ new_songs l songs).
Proof.
  intros Hio Ht1. destruct (append_rows t t1 mix l songs now Hio Ht1) as (Hrows & Hold & Hmax & Hzero & Hnew).
  set (t2 := reorder_append _ _ _) in *. set (fr := new_songs l songs) in *.
  pose proof (new_songs_NoDup l songs) as Hnd. fold fr in Hnd.
  assert (∀ s, s ∈ l → 0 < position t mix s) as Hpos.
  { intros s Hs. apply (io_rows _ _ _ Hio) in Hs as [r Hr]. unfold position. rewrite Hr.
    by apply (io_positive _ _ _ Hio s). }
  assert (∀ s, s ∈ fr → max_order (mix_rows t1 mix) < position t2 mix s) as Hlast.
  { intros s Hs. apply list_elem_of_lookup_1 in Hs as [i Hi]. rewrite (Hnew i s Hi). lia. }
  split.
  - apply NoDup_app. split_and!; [apply Hio| |done].
    intros s Hs. unfold fr. rewrite elem_of_new_songs. naive_solver.
  - intros s. by rewrite Hrows.
  - apply StronglySorted_app_2.
    + intros a b Ha Hb. rewrite (Hold a Ha). specialize (Hmax a Ha). specialize (Hlast b Hb). lia.
    + eapply StronglySorted_weaken; [|apply (io_sorted _ _ _ Hio)]. intros a b Ha Hb.
      by rewrite (Hold a Ha), (Hold b Hb).
    + by eapply numbered_sorted.
  - intros s r Hr. assert (position t2 mix s = ms_order r) as <- by (unfold position; by rewrite Hr).
    assert (s ∈ l ++ fr) as [Hs|Hs]%elem_of_app by (apply Hrows; by rewrite Hr).
    + rewrite Hold by done. by apply Hpos.
    + specialize (Hzero s Hs). specialize (Hlast s Hs). lia.
Qed.

Lemma reorder_append_frame t t1 mix l songs now :
  upsert_mix_songs mix songs now t = Ok t1 →
  ∃ m, reorder_append mix l t1 = with_rel_mix_song (λ _, m) t ∧
    ∀ m' s, m' ≠ mix → mix_row (reorder_append mix l t1) m' s = mix_row t m' s.
Proof.
  intros Ht1. unfold reorder_append. set (o := max_order _ + 1).
  assert (NoDup (by_id l (unplaced t1 mix))) as Hnd by (rewrite by_id_perm; apply unplaced_NoDup).
  destruct (place_rows mix _ o t1 0 Hnd) as (Heq & _).
  destruct (upsert_row _ _ _ _ _ 0 Ht1) as (Heq1 & _).
  exists (t_rel_mix_song (place mix (by_id l (unplaced t1 mix)) o t1)). split.
  - etransitivity; [exact Heq|]. generalize (t_rel_mix_song (place mix (by_id l (unplaced t1 mix)) o t1)).
    intros m. rewrite Heq1. by destruct t.
  - intros m' s Hne. destruct (place_rows mix _ o t1 s Hnd) as (_ & Ho & _).
    destruct (upsert_row _ _ _ _ _ s Ht1) as (_ & Ho1 & _). by rewrite Ho, Ho1.
Qed.
Lemma append_ok t t' mix l songs now n :
  mix_ok t mix l → append_songs mix songs now t = Ok (n, t') →
  mix_ok t' mix (l ++ new_songs l songs) ∧ n = zlen (new_songs l songs).
Proof.
  intros [Hio (r & Hr & Hc)]. unfold append_songs.
  destruct (upsert_mix_songs mix songs now t) as [t1|] eqn:Ht1; [|done]. cbn.
  pose proof (unplaced_inserted _ _ _ _ _ _ Hio Ht1) as Hun.
  assert (zlen (unplaced t1 mix) = zlen (new_songs l songs)) as -> by (unfold zlen; by rewrite Hun).
  intros [= <- <-].
  pose proof (new_in_order t t1 mix l songs now Hio Ht1) as Hio'.
  destruct (reorder_append_frame t t1 mix (fresh t mix [] songs) songs now Ht1) as (m & Hm & Hother).
  split; [|done].
  apply (update_track_ok _ _ _ _ _ r Hio'); [by rewrite Hm|]. rewrite Hc. by rewrite zlen_app.
Qed.
Lemma append_only t t' mix songs now n :
  append_songs mix songs now t = Ok (n, t') → only_mix mix t t'.
Proof.
  unfold append_songs. destruct (upsert_mix_songs mix songs now t) as [t1|] eqn:Ht1; [|done]. cbn.
  destruct (reorder_append_frame t t1 mix (fresh t mix [] songs) songs now Ht1) as (m & Hm & Hother).
  intros [= _ <-]. apply update_track_only. split; [done|by intros; rewrite Hm|by rewrite Hm].
Qed.
Lemma append_total t mix songs now :
  is_Some (t_mix t !! mix) →
  match append_songs mix songs now t with
  | Ok _ => forallb (has (t_song t)) songs = true
  | Err e => forallb (has (t_song t)) songs = false ∧ e = ForeignKey
  end.
Proof.
  intros Hm. unfold append_songs.
  assert (match upsert_mix_songs mix songs now t with
    | Ok _ => forallb (has (t_song t)) songs = true
    | Err e => forallb (has (t_song t)) songs = false ∧ e = ForeignKey
    end) as Hu.
  { clear H0. revert t Hm. induction songs as [|s songs IH]; intros t Hm; cbn; [done|].
    unfold upsert_mix_song at 1. assert (has (t_mix t) mix = true) as -> by by apply has_true.
    destruct (has (t_song t) s) eqn:Hs; cbn; [|done]. exact (IH (with_rel_mix_song _ t) Hm). }
  destruct (upsert_mix_songs mix songs now t); done.
Qed.
End append.

(** ** Removing songs *)

Lemma in_order_rows t mix l : in_order t mix l → zlen (mix_rows t mix) = zlen l.
Proof.
  intros Hio. assert ((mix_rows t mix).*1 ≡ₚ l) as Hp.
  { apply NoDup_Permutation; [apply mix_rows_NoDup|apply Hio|]. intros s.
    rewrite (io_rows _ _ _ Hio), list_elem_of_fmap. split.
    - intros ([s' r] & -> & Hr%elem_of_mix_rows). eauto.
    - intros [r Hr]. exists (s, r). split; [done|]. by apply elem_of_mix_rows. }
  unfold zlen. rewrite <-(length_fmap fst). by rewrite Hp.
Qed.
Lemma sorted_filter {A} (R : relation A) (P : A → Prop) `{∀ x, Decision (P x)} l :
  StronglySorted R l → StronglySorted R (filter P l).
Proof.
  induction 1 as [|x l Hs IH Hx]; [constructor|]. rewrite filter_cons. case_decide; [|done].
  constructor; [done|]. apply Forall_forall. intros y [_ Hy]%list_elem_of_filter.
  rewrite Forall_forall in Hx. by apply Hx.
Qed.
Lemma remove_ok t t' mix l songs now n :
  remove_songs mix songs now t = (n, t') → mix_ok t mix l →
  mix_ok t' mix (filter (.∉ songs) l) ∧ n = zlen l - zlen (filter (.∉ songs) l).
Proof.
  unfold remove_songs. intros [= <- <-] [Hio (r & Hr & Hc)].
  set (t1 := with_rel_mix_song _ t). set (l' := filter (.∉ songs) l).
  assert (∀ m s, mix_row t1 m s =
    if (m =? mix) && bool_decide (s ∈ songs) then None else mix_row t m s) as Hrow.
  { intros m s. unfold mix_row, t1. cbn. apply option_eq. intros x. rewrite lookup_sieve. cbn.
    destruct ((m =? mix) && bool_decide (s ∈ songs)); naive_solver. }
  assert (in_order t1 mix l') as Hio'.
  { split.
    - apply NoDup_filter, Hio.
    - intros s. unfold l'. rewrite list_elem_of_filter, (io_rows _ _ _ Hio), Hrow, Z.eqb_refl. cbn.
      case_bool_decide; [split; [by intros []|by intros []]|naive_solver].
    - eapply StronglySorted_weaken; [|apply sorted_filter, Hio].
      intros a b [Ha _]%list_elem_of_filter [Hb _]%list_elem_of_filter. unfold position.
      rewrite !Hrow, Z.eqb_refl. cbn. by rewrite !bool_decide_eq_false_2.
    - intros s x. rewrite Hrow. destruct (_ && _); [done|]. apply Hio. }
  rewrite (in_order_rows _ _ _ Hio), (in_order_rows _ _ _ Hio').
  split; [|done]. eapply update_track_ok; [done..|]. lia.
Qed.
Lemma remove_only t mix songs now : only_mix mix t (remove_songs mix songs now t).2.
Proof.
  apply update_track_only. split; [|done..]. intros m s Hne. unfold mix_row. cbn.
  apply option_eq. intros x. rewrite lookup_sieve. cbn. destruct (Z.eqb_spec m mix); naive_solver.
Qed.

(** ** Requests *)

#[local] Arguments remove_songs : simpl never.
#[local] Arguments append_songs : simpl never.

Section requests.
Context `{RowIdLaws}.

(** The request names rows that can exist, and songs that do. *)
Definition accepted (t : Tables) (r : MixManipulateReq) : bool :=
  is_some_and (mm_id r) (λ id, 0 <? id) && forallb (λ id, 0 <? id) (mm_songs r) &&
  forallb (λ id, 0 <? id) (mm_albums r) &&
  match mm_oper r with
  | MixOper.AddSongs => forallb (has (t_song t)) (mm_songs r)
  | MixOper.RemoveSongs | MixOper.AddAlbums => true
  | MixOper.Unspecified => false
  end.
(** What it does to the list of the songs of its mix. *)
Definition edit_list (t : Tables) (r : MixManipulateReq) (l : list Z) : list Z :=
  match mm_oper r with
  | MixOper.AddSongs => l ++ new_songs l (mm_songs r)
  | MixOper.RemoveSongs => filter (.∉ mm_songs r) l
  | MixOper.AddAlbums => l ++ new_songs l (songs_of (mm_albums r) t)
  | MixOper.Unspecified => l
  end.

Lemma songs_of_there albums t : forallb (has (t_song t)) (songs_of albums t) = true.
Proof.
  apply forallb_forall. intros s Hs%list_elem_of_In. apply has_true. unfold songs_of in Hs.
  apply list_elem_of_fmap in Hs as ([s' so] & -> & [_ Hin]%list_elem_of_filter).
  apply elem_of_map_to_list in Hin. eauto.
Qed.
Lemma checked_all ids name :
  checked ids name = if forallb (λ id, 0 <? id) ids then Ok ids else Err (WrongId name).
Proof.
  unfold checked. assert (negb (existsb (λ id, id <=? 0) ids) = forallb (λ id, 0 <? id) ids) as ->.
  { induction ids as [|x ids IH]; [done|]. cbn. rewrite negb_orb, IH. f_equal.
    destruct (Z.leb_spec x 0), (Z.ltb_spec 0 x); cbn; lia. }
  by destruct (forallb _ ids).
Qed.
Lemma append_request id songs now d :
  let '(res, d') := in_txn (try_edit (append_songs id songs now)) d in
  (∀ id', Some id ≠ Some id' → ∀ l, mix_ok (dk_tables d) id' l → mix_ok (dk_tables d') id' l) ∧
  t_song (dk_tables d') = t_song (dk_tables d) ∧
  (∀ id' l, Some id = Some id' → mix_ok (dk_tables d) id' l →
     if forallb (has (t_song (dk_tables d))) songs
     then res = Ok (Z.abs (zlen (l ++ new_songs l songs) - zlen l)) ∧
       mix_ok (dk_tables d') id' (l ++ new_songs l songs)
     else is_ok res = false ∧ d' = d).
Proof.
  unfold in_txn, try_edit. pose proof (append_total (dk_tables d) id songs now) as Ht.
  destruct (append_songs id songs now (dk_tables d)) as [[n t']|e] eqn:Ha; cbn.
  - pose proof (append_only _ _ _ _ _ _ Ha) as Ho. split_and!; [|apply Ho|].
    + intros id' Hne l. eapply only_mix_ok; [exact Ho|congruence].
    + intros id' l [= <-] Hl. pose proof Hl as [_ (r & Hr & _)]. rewrite Ht by eauto.
      destruct (append_ok _ _ _ _ _ _ _ Hl Ha) as [Hl' ->]. split; [|done].
      rewrite zlen_app. pose proof (zlen_nonneg (new_songs l songs)). f_equal. lia.
  - split_and!; [done..|]. intros id' l [= <-] [_ (r & Hr & _)].
    by destruct Ht as [-> _]; [eauto|].
Qed.
(** A request is refused and changes nothing, or edits one list. *)
Lemma mix_manipulate_step r now d :
  let '(res, d') := mix_manipulate r now d in
  (∀ id, mm_id r ≠ Some id → ∀ l, mix_ok (dk_tables d) id l → mix_ok (dk_tables d') id l) ∧
  t_song (dk_tables d') = t_song (dk_tables d) ∧
  (∀ id l, mm_id r = Some id → mix_ok (dk_tables d) id l →
     if accepted (dk_tables d) r
     then let l' := edit_list (dk_tables d) r l in
       res = Ok (Z.abs (zlen l' - zlen l)) ∧ mix_ok (dk_tables d') id l'
     else is_ok res = false ∧ d' = d).
Proof.
  unfold mix_manipulate, accepted, edit_list, field, required.
  destruct (mm_id r) as [id|]; cbn; [|naive_solver].
  destruct (0 <? id) eqn:Hid; cbn; [|naive_solver].
  rewrite !checked_all. unfold mbind, st_bind. cbn.
  destruct (forallb (λ id, 0 <? id) (mm_songs r)); cbn; [|naive_solver].
  destruct (forallb (λ id, 0 <? id) (mm_albums r)); cbn; [|naive_solver].
  unfold in_txn. destruct (mm_oper r) eqn:Hop; cbn.
  - apply append_request.
  - unfold try_edit. cbn. pose proof (remove_only (dk_tables d) id (mm_songs r) now) as Ho.
    destruct (remove_songs id (mm_songs r) now (dk_tables d)) as [n t'] eqn:Hrem. cbn in *.
    split_and!; [|apply Ho|].
    + intros id' Hne l. eapply only_mix_ok; [exact Ho|congruence].
    + intros id' l [= <-] Hl. destruct (remove_ok _ _ _ _ _ _ _ Hrem Hl) as [Hl' ->]. split; [|done].
      pose proof (length_filter (.∉ mm_songs r) l). unfold zlen. f_equal. lia.
  - pose proof (append_request id (songs_of (mm_albums r) (dk_tables d)) now d) as Ha.
    rewrite songs_of_there in Ha. apply Ha.
  - naive_solver.
Qed.
End requests.

(** ** Sequences of requests *)

Section sequences.
Context `{RowIdLaws}.

Definition run_edits (reqs : list (MixManipulateReq * Z)) (d : Desk) : Desk :=
  foldl (λ d rn, (mix_manipulate rn.1 rn.2 d).2) d reqs.
(** The list of one mix along the requests. *)
Definition list_step (t : Tables) (id : Z) (l : list Z) (rn : MixManipulateReq * Z) : list Z :=
  if bool_decide (mm_id rn.1 = Some id) && accepted t rn.1 then edit_list t rn.1 l else l.
Lemma list_step_song t t' id l rn :
  t_song t' = t_song t → list_step t' id l rn = list_step t id l rn.
Proof. intros Hs. unfold list_step, accepted, edit_list, songs_of. by rewrite Hs. Qed.

(** C26. A mix of the user's is a list of songs: adding puts the songs it does not have yet at
    its end, each once and in the order of the request, removing takes songs out and leaves
    the order of the others, a refused request and requests on other mixes change nothing; and
    the track count of the mix is the length of the list. *)
Theorem mixes_are_lists reqs d id l :
  mix_ok (dk_tables d) id l →
  mix_ok (dk_tables (run_edits reqs d)) id (foldl (list_step (dk_tables d) id) l reqs).
Proof.
  revert d l. induction reqs as [|[r now] reqs IH]; intros d l Hl; cbn; [done|].
  pose proof (mix_manipulate_step r now d) as Hstep.
  destruct (mix_manipulate r now d) as [res d'] eqn:Hrun. cbn.
  destruct Hstep as (Hother & Hsong & Hedit).
  assert (mix_ok (dk_tables d') id (list_step (dk_tables d) id l (r, now))) as Hl'.
  { unfold list_step. cbn. case_bool_decide as Hid; cbn; [|by apply Hother].
    specialize (Hedit id l Hid Hl). destruct (accepted (dk_tables d) r); [by apply Hedit|].
    destruct Hedit as [_ ->]. done. }
  specialize (IH d' _ Hl').
  assert (∀ l0, foldl (list_step (dk_tables d') id) l0 reqs = foldl (list_step (dk_tables d) id) l0 reqs) as <-; [|done].
  clear IH. induction reqs as [|rn reqs IH]; intros l0; cbn; [done|].
  by rewrite (list_step_song (dk_tables d) (dk_tables d')), IH.
Qed.
End sequences.

(** ** Play log *)

(** The row of an item that was played once more, at [ts]: one play more, played last then,
    and all else as it was; an item without a row gets one, at [now]. *)
Record played_once (ts now : Z) (before : option Dynamic) (after : Dynamic) : Prop := {
  po_count : dy_play_count after = from_option dy_play_count 0 before + 1;
  po_last : dy_last_played after = Some ts;
  po_external : dy_external after = from_option dy_external false before;
  po_remote_count : dy_remote_play_count after = from_option dy_remote_play_count 0 before;
  po_position : dy_last_position after = before ≫= dy_last_position;
  po_remote_last : dy_remote_last_played after = before ≫= dy_remote_last_played;
  po_favorite : dy_favorite after = before ≫= dy_favorite;
  po_update : dy_update after = from_option dy_update now before;
}.
Lemma log_play_spec ts now id t :
  is_Some (t_item t !! id) → ∃ r, log_play ts now id t = Ok (tt, with_dynamic (<[id := r]>) t) ∧
    played_once ts now (t_dynamic t !! id) r.
Proof.
  intros Hit. unfold log_play. destruct (t_dynamic t !! id) as [r|] eqn:Hd.
  - eexists. split; [done|]. by split.
  - unfold insert_dynamic, insert_row. rewrite (proj2 (has_true _ _)) by done. cbn. rewrite Hd. cbn.
    eexists. split; [done|]. by split.
Qed.
(** What the player of each provider is known to play. *)
Definition now_playing (action : PlaylogAction.t) (id : Z) (it : Item) (m : gmap Z (Z * string)) :
    gmap Z (Z * string) :=
  match action with
  | PlaylogAction.Play => <[i_provider it := (id, i_native it)]> m
  | PlaylogAction.Stop => delete (i_provider it) m
  | _ => m
  end.

Section playlog.
(** C27. Logging a play counts one play of the song and one of its album, whatever the action,
    and keeps the time as the last one; every other column of these two rows (the favourite, the
    plays elsewhere, the position), every other row and every other table is left as it is, and
    what the provider plays changes with the actions play and stop only; a song that is not
    there changes nothing; and the request is answered with an error, whether or not the play
    was counted. *)
Theorem playlog_counts song action ts now d :
  well_formed (dk_tables d) →
  let '(res, d') := playlog song action ts now d in
  let t := dk_tables d in
  is_ok res = false ∧
  ((∀ id, song = Some id → id ≤ 0 ∨ t_song t !! id = None) → d' = d) ∧
  ∀ id so, song = Some id → 0 < id → t_song t !! id = Some so →
    res = Err UnexpectedPayload ∧
    dk_tables d' = with_dynamic (λ _, t_dynamic (dk_tables d')) t ∧
    (∀ i, if (i =? id) || bool_decide (so_album so = Some i)
          then ∃ r, t_dynamic (dk_tables d') !! i = Some r ∧ played_once ts now (t_dynamic t !! i) r
          else t_dynamic (dk_tables d') !! i = t_dynamic t !! i) ∧
    ∃ it, t_item t !! id = Some it ∧ dk_playing d' = now_playing action id it (dk_playing d).
Proof.
  intros Hwf. unfold playlog, field, required.
  destruct song as [id|]; cbn; [|by split_and!].
  destruct (Z.ltb_spec 0 id); cbn; [|split_and!; [done..|intros ? ? [= <-]; lia]].
  unfold mbind, st_bind. cbn.
  destruct (t_song (dk_tables d) !! id) as [so|] eqn:Hso; cbn;
    [|split_and!; [done..|intros ? ? [= <-] ? ?; congruence]].
  destruct (rt_song _ (wf_rooted _ Hwf) _ _ Hso) as [it Hit]. rewrite Hit.
  set (played := match action with PlaylogAction.Play => _ | _ => _ end).
  assert (played d = (Ok tt, mk_Desk (dk_tables d) (now_playing action id it (dk_playing d)))) as ->.
  { unfold played. by destruct d, action. }
  unfold in_txn, try_edit. cbn.
  destruct (log_play_spec ts now id (dk_tables d)) as (r1 & -> & Hr1); [eauto|]. cbn.
  destruct (so_album so) as [al|] eqn:Hal; cbn.
  - destruct (ln_song_album _ (wf_linked _ Hwf) _ _ _ Hso Hal) as [ral Hral].
    destruct (rt_album _ (wf_rooted _ Hwf) _ _ Hral) as [ait Hait].
    assert (al ≠ id) as Hne.
    { intros ->. pose proof (ty_song _ (wf_typed _ Hwf) _ _ _ Hso Hit).
      pose proof (ty_album _ (wf_typed _ Hwf) _ _ _ Hral Hait). congruence. }
    destruct (log_play_spec ts now al (with_dynamic (<[id := r1]>) (dk_tables d))) as (r2 & -> & Hr2); [by eexists|]. cbn in *.
    rewrite lookup_insert_ne in Hr2 by done.
    split_and!; [done|intros Hno; destruct (Hno id eq_refl); [lia|congruence]|].
    intros ? so' [= <-] _ Hso'. assert (so' = so) as -> by congruence.
    split_and!; [done|by destruct (dk_tables d)| |by exists it]. intros i. rewrite Hal.
    destruct (Z.eqb_spec i id) as [->|]; cbn.
    + exists r1. by rewrite lookup_insert_ne, lookup_insert_eq.
    + case_bool_decide as Hi; [injection Hi as <-; exists r2; by rewrite lookup_insert_eq|].
      by rewrite !lookup_insert_ne by congruence.
  - split_and!; [done|intros Hno; destruct (Hno id eq_refl); [lia|congruence]|].
    intros ? so' [= <-] _ Hso'. assert (so' = so) as -> by congruence.
    split_and!; [done|by destruct (dk_tables d)| |by exists it]. intros i. rewrite Hal.
    rewrite (bool_decide_eq_false_2 (None = Some i)) by done. rewrite orb_false_r.
    destruct (Z.eqb_spec i id) as [->|]; [exists r1; by rewrite lookup_insert_eq|by rewrite lookup_insert_ne].
Qed.
End playlog.

(** ** Examples *)

Module MixExample.
#[export] Instance row_ids : RowIds := λ inserted l, if decide (l ≡ₚ inserted) then inserted else l.
#[export] Instance row_id_laws : RowIdLaws.
Proof.
  split; intros inserted l; unfold by_id, row_ids; case_decide as Hp; try done.
Qed.

(** A synchronised library, and a mix of the user's. *)
Definition synced_tables : Tables := sy_tables (c_sync synced).
Definition own : Tables :=
  with_mix (<[2 := mk_Mix "Mine" 0 MixType.Normal None "" None 0 0 0]>) synced_tables.
Definition desk : Desk := mk_Desk own ∅.
Lemma own_empty : mix_ok own 2 [].
Proof.
  assert (mix_rows own 2 = []) as Hno by (vm_compute; reflexivity).
  assert (∀ s, mix_row own 2 s = None) as Hnone.
  { intros s. destruct (mix_row own 2 s) as [r|] eqn:Hr; [|reflexivity].
    apply elem_of_mix_rows in Hr. rewrite Hno in Hr. destruct (not_elem_of_nil _ Hr). }
  split; [split|].
  - constructor.
  - intros s. rewrite Hnone. split; [intros Hs; destruct (not_elem_of_nil _ Hs)|intros Hs; destruct (is_Some_None Hs)].
  - constructor.
  - intros s r Hr. rewrite Hnone in Hr. discriminate Hr.
  - exists (mk_Mix "Mine" 0 MixType.Normal None "" None 0 0 0). split; [exact (lookup_insert_eq (t_mix synced_tables) 2 _)|reflexivity].
Qed.
Definition add (songs : list Z) : MixManipulateReq := mk_MixManipulateReq (Some 2) MixOper.AddSongs songs [].
Definition remove (songs : list Z) : MixManipulateReq :=
  mk_MixManipulateReq (Some 2) MixOper.RemoveSongs songs [].
Definition edits : list (MixManipulateReq * Z) := [(add [4; 3; 4], 1); (remove [4], 2); (add [9], 3)].
Lemma mixes_are_lists_witness : mix_ok (dk_tables (run_edits edits desk)) 2 [3].
Proof.
  pose proof (mixes_are_lists edits desk 2 [] own_empty) as Hm.
  assert (foldl (list_step (dk_tables desk) 2) [] edits = [3]) as Hl by (vm_compute; reflexivity).
  rewrite Hl in Hm. exact Hm.
Defined.
(** A song at position 0 is taken for one that was just added: adding a song to the synchronised
    mix that has it already counts another song of the mix. *)
Example synced_mix_miscounts :
  match append_songs 1 [3] 0 synced_tables with
  | Ok (n, t) => n = 1 ∧ mx_track_count <$> t_mix t !! 1 = Some 3 ∧ zlen (mix_rows t 1) = 2
  | Err _ => False
  end.
Proof. vm_compute. split_and!; reflexivity. Qed.

Definition synced_desk : Desk := mk_Desk synced_tables ∅.
(** One more play of song 3; no favourite is lost. *)
Lemma playlog_counts_witness :
  let d' := (playlog (Some 3) PlaylogAction.Stop 7 8 synced_desk).2 in
  ∃ r, t_dynamic (dk_tables d') !! 3 = Some r ∧
    played_once 7 8 (t_dynamic (dk_tables synced_desk) !! 3) r.
Proof.
  destruct (t_song (dk_tables synced_desk) !! 3) as [so|] eqn:Hso; [|vm_compute in Hso; discriminate Hso].
  pose proof (playlog_counts (Some 3) PlaylogAction.Stop 7 8 synced_desk synced_well_formed) as Hp.
  cbv zeta. destruct (playlog (Some 3) PlaylogAction.Stop 7 8 synced_desk) as [res d'].
  destruct Hp as (_ & _ & Hp). destruct (Hp 3 so eq_refl ltac:(lia) Hso) as (_ & _ & Hrows & _).
  exact (Hrows 3).
Defined.
End MixExample.
