(* ===== verification/Populate.v ===== *)
(** * Entities of a response

    [backend/main/src/api/entity.rs]: every response carries the rows it refers to, with what
    they refer to in turn, or says that they are gone. *)
From Stdlib Require Import SpecFloat.
From S2P Require Import Prelude Tables Integrity Coordinator Sessions Fixture.
From stdpp Require Import options.
#[local] Set Default Proof Using "Type*".

Open Scope string_scope.
Open Scope Z_scope.
Open Scope list_scope.

(** ** What requests and responses refer to *)

Record References := mk_References {
  rf_songs : gset Z; rf_albums : gset Z; rf_artists : gset Z; rf_mixes : gset Z
}.
Definition no_refs : References := mk_References ∅ ∅ ∅ ∅.
Definition ref_songs (l : list Z) (r : References) : References :=
  mk_References (rf_songs r ∪ list_to_set l) (rf_albums r) (rf_artists r) (rf_mixes r).
Definition ref_albums (l : list Z) (r : References) : References :=
  mk_References (rf_songs r) (rf_albums r ∪ list_to_set l) (rf_artists r) (rf_mixes r).
Definition ref_artists (l : list Z) (r : References) : References :=
  mk_References (rf_songs r) (rf_albums r) (rf_artists r ∪ list_to_set l) (rf_mixes r).
Definition ref_mixes (l : list Z) (r : References) : References :=
  mk_References (rf_songs r) (rf_albums r) (rf_artists r) (rf_mixes r ∪ list_to_set l).

Inductive Content :=
| CSongs (ids : list Z) | CAlbums (ids : list Z) | CArtists (ids : list Z) | CMixes (ids : list Z).
Inductive Target :=
| TSong (id : option Z) | TAlbum (id : option Z) | TArtist (id : option Z) | TMix (id : option Z)
| TOther.
(** The responses that refer to rows; identifiers of messages are optional. *)
Inductive Payload :=
| GetSongsByIdRsp (ids : list Z)
| GetAlbumsRsp (ids : list Z)
| GetArtistAlbumRsp (ids : list Z)
| GetAlbumRsp (id : option Z) (songs : list Z)
| GetArtistsRsp (ids : list Z)
| GetAlbumArtistsRsp (ids : list Z)
| GetArtistRsp (id : option Z)
| GetMixsRsp (ids : list Z)
| GetRemoteMixsRsp (ids : list Z)
| GetMixRsp (id : option Z)
| GetMixSongsRsp (id : option Z) (songs : list Z)
| CreateMixRsp (id : option Z)
| OpenQueueRsp (songs : list Z)
| GetQueueNextRsp (songs : list Z)
| SearchRsp (songs albums artists : option (list Z))
| GetHomeBlockItemsRsp (content : option Content)
| GetHomeRecommendationsRsp (cards : list (option Target))
| OtherRsp.
Inductive RequestPayload :=
| SetFavoriteReq (id : Z) (ty : option ItemType.t)
| MixManipulateReq_ (id : option Z)
| DeleteMixReq (ids : list Z)
| LinkMixReq (ids : list Z)
| OtherReq.

Definition ref_target (t : option Target) : References → References :=
  match t with
  | Some (TSong id) => ref_songs (option_list id)
  | Some (TAlbum id) => ref_albums (option_list id)
  | Some (TArtist id) => ref_artists (option_list id)
  | Some (TMix id) => ref_mixes (option_list id)
  | Some TOther | None => id
  end.
Definition payload_refs (p : Payload) (r : References) : References :=
  match p with
  | GetSongsByIdRsp l | OpenQueueRsp l | GetQueueNextRsp l => ref_songs l r
  | GetAlbumsRsp l | GetArtistAlbumRsp l => ref_albums l r
  | GetAlbumRsp id l => ref_songs l (ref_albums (option_list id) r)
  | GetArtistsRsp l | GetAlbumArtistsRsp l => ref_artists l r
  | GetArtistRsp id => ref_artists (option_list id) r
  | GetMixsRsp l | GetRemoteMixsRsp l => ref_mixes l r
  | GetMixRsp id | CreateMixRsp id => ref_mixes (option_list id) r
  | GetMixSongsRsp id l => ref_songs l (ref_mixes (option_list id) r)
  | SearchRsp songs albums artists =>
      ref_artists (default [] artists) (ref_albums (default [] albums) (ref_songs (default [] songs) r))
  | GetHomeBlockItemsRsp (Some (CSongs l)) => ref_songs l r
  | GetHomeBlockItemsRsp (Some (CAlbums l)) => ref_albums l r
  | GetHomeBlockItemsRsp (Some (CArtists l)) => ref_artists l r
  | GetHomeBlockItemsRsp (Some (CMixes l)) => ref_mixes l r
  | GetHomeBlockItemsRsp None | OtherRsp => r
  | GetHomeRecommendationsRsp cards => foldl (λ r t, ref_target t r) r cards
  end.
(** [request], and the deleted and linked mixes of [populate_at]. *)
Definition request_refs (p : RequestPayload) (r : References) : References :=
  match p with
  | SetFavoriteReq id (Some ItemType.Song) => ref_songs [id] r
  | SetFavoriteReq id (Some ItemType.Album) => ref_albums [id] r
  | SetFavoriteReq id (Some (ItemType.Artist | ItemType.AlbumArtist)) => ref_artists [id] r
  | SetFavoriteReq _ _ | OtherReq => r
  | MixManipulateReq_ id => ref_mixes (option_list id) r
  | DeleteMixReq ids | LinkMixReq ids => ref_mixes ids r
  end.

(** ** The batch *)

(** Moments the calendar library can represent. *)
Class Chrono := representable : Z → bool.
(** The keys of relations are not part of the tables: rows in the order of their keys. *)
Class RelationOrder := by_key : list (Z * Z) → list (Z * Z).

Record ReadStamp := mk_ReadStamp { rs_owner : Z; rs_epoch : Z; rs_revision : Z }.
Record SongFields := mk_SongFields {
  sf_name : string; sf_sort_name : option string; sf_track : Z; sf_disc : Z;
  sf_duration : spec_float; sf_can_play : bool; sf_publish : option (Z * Z);
  sf_popularity : spec_float; sf_tags : list string
}.
Record SongUpdate := mk_SongUpdate {
  su_id : Z; su_stamp : ReadStamp; su_fields : SongFields; su_album : option Z;
  su_artists : list Z; su_favorite : bool
}.
Record AlbumFields := mk_AlbumFields {
  af_name : string; af_sort_name : option string; af_type : AlbumType.t; af_duration : Z;
  af_track_count : Z; af_disc_count : Z; af_description : option string;
  af_company : option string; af_language : option string; af_publish : option (Z * Z);
  af_added : option (Z * Z)
}.
Record AlbumUpdate := mk_AlbumUpdate {
  au_id : Z; au_stamp : ReadStamp; au_fields : AlbumFields; au_artists : list Z;
  au_favorite : bool
}.
Record ArtistFields := mk_ArtistFields {
  rf_name : string; rf_sort_name : option string; rf_description : string;
  rf_album_count : Z; rf_music_count : Z; rf_added : option (Z * Z)
}.
Record ArtistUpdate := mk_ArtistUpdate {
  ru_id : Z; ru_stamp : ReadStamp; ru_fields : ArtistFields; ru_favorite : bool
}.
Record MixFields := mk_MixFields {
  mf_name : string; mf_sort_name : option string; mf_track_count : Z; mf_description : string;
  mf_type : MixType.t; mf_update : option (Z * Z)
}.
Record MixUpdate := mk_MixUpdate { mu_id : Z; mu_stamp : ReadStamp; mu_fields : MixFields }.
Record Removal := mk_Removal { rv_id : Z; rv_type : ItemType.t; rv_stamp : ReadStamp }.
Record EntityBatch := mk_EntityBatch {
  eb_songs : list SongUpdate; eb_albums : list AlbumUpdate; eb_artists : list ArtistUpdate;
  eb_mixes : list MixUpdate; eb_removals : list Removal; eb_invalidations : list ReadStamp
}.

Section populate.
Context `{Chrono} `{RelationOrder} (revision : Z) (epochs : gmap Z Z) (t : Tables).

Definition stamp (owner : Z) : ReadStamp :=
  mk_ReadStamp owner (default 0 (epochs !! owner)) revision.
(** Seconds and nanoseconds; a moment that cannot be represented is the first of 1970. *)
Definition proto_time (ms : Z) : Z * Z :=
  if representable ms then (ms / 1000, ms mod 1000 * 1000000) else (0, 0).
(** [duration as f64]. *)
Definition as_f64 (n : Z) : spec_float := binary_normalize 53 1024 n 0 false.
Definition json_strings (j : Json) : list string :=
  omap (λ j, match j with JString s => Some s | _ => None end) (default [] (as_array j)).

(** [find().filter(is_in(ids)).all(db)]. *)
Definition rows_in {R} (m : gmap Z R) (ids : gset Z) : list (Z * R) :=
  map_to_list (filter (λ kr, kr.1 ∈ ids) m).
Definition relations_in (m : gmap (Z * Z) Z) (ids : gset Z) : list (Z * Z) :=
  by_key (filter (λ k, k.1 ∈ ids) (map_to_list m).*1).
Definition related (rels : list (Z * Z)) (id : Z) : list Z :=
  (filter (λ k : Z * Z, k.1 = id) rels).*2.

Inductive PopulateError := NotFound.
Definition owner (id : Z) : result PopulateError Z :=
  ok_or (i_provider <$> t_item t !! id) NotFound.
Definition favorite_of (id : Z) : bool :=
  match t_dynamic t !! id with Some d => bool_decide (is_Some (dy_favorite d)) | None => false end.

Definition song_update (rels : list (Z * Z)) (ir : Z * Song) : result PopulateError SongUpdate :=
  let '(id, r) := ir in
  p ← owner id ;
  mret (mk_SongUpdate id (stamp p)
    (mk_SongFields (so_name r) (so_sort_name r) (so_track_number r) (so_disc_number r)
       (as_f64 (so_duration r)) (so_can_play r) (proto_time <$> so_publish_time r)
       (so_popularity r) (json_strings (so_tags r)))
    (so_album r) (related rels id) (favorite_of id)).
Definition album_update (rels : list (Z * Z)) (ir : Z * Album) : result PopulateError AlbumUpdate :=
  let '(id, r) := ir in
  p ← owner id ;
  mret (mk_AlbumUpdate id (stamp p)
    (mk_AlbumFields (al_name r) (al_sort_name r) (al_type r) (al_duration r) (al_track_count r)
       (al_disc_count r) (al_description r) (al_company r) (al_language r)
       (proto_time <$> al_publish_time r) (proto_time <$> al_added_at r))
    (related rels id) (favorite_of id)).
Definition artist_update (ir : Z * Artist) : result PopulateError ArtistUpdate :=
  let '(id, r) := ir in
  p ← owner id ;
  mret (mk_ArtistUpdate id (stamp p)
    (mk_ArtistFields (ar_name r) (ar_sort_name r) (ar_description r) (ar_album_count r)
       (ar_music_count r) (proto_time <$> ar_added_at r))
    (favorite_of id)).
Definition mix_update (ir : Z * Mix) : MixUpdate :=
  let '(id, r) := ir in
  mk_MixUpdate id (stamp 0)
    (mk_MixFields (mx_name r) (mx_sort_name r) (mx_track_count r) (mx_description r)
       (mx_mix_type r) (Some (proto_time (mx_update r)))).
(** What is left of the references when the rows that were found are taken out. *)
Definition removals {R} (ty : ItemType.t) (ids : gset Z) (found : list (Z * R)) : list Removal :=
  (λ id, mk_Removal id ty (stamp 0)) <$> elements (ids ∖ list_to_set found.*1).
Definition invalidations : list ReadStamp :=
  (λ oe : Z * Z, mk_ReadStamp oe.1 oe.2 revision) <$> map_to_list epochs.

Definition populate_at (request : RequestPayload) (response : Payload) :
    result PopulateError EntityBatch :=
  let refs := request_refs request (payload_refs response no_refs) in
  if bool_decide (rf_songs refs = ∅ ∧ rf_albums refs = ∅ ∧ rf_artists refs = ∅ ∧ rf_mixes refs = ∅)
  then mret (mk_EntityBatch [] [] [] [] [] invalidations) else
  let songs := rows_in (t_song t) (rf_songs refs) in
  let refs := ref_albums (omap (λ sr : Z * Song, so_album sr.2) songs) refs in
  let song_artists := relations_in (t_rel_song_artist t) (rf_songs refs) in
  let album_artists := relations_in (t_rel_album_artist t) (rf_albums refs) in
  let refs := ref_artists album_artists.*2 (ref_artists song_artists.*2 refs) in
  let albums := rows_in (t_album t) (rf_albums refs) in
  let artists := rows_in (t_artist t) (rf_artists refs) in
  let mixes := rows_in (t_mix t) (rf_mixes refs) in
  us ← mapM (song_update song_artists) songs ;
  ua ← mapM (album_update album_artists) albums ;
  ur ← mapM artist_update artists ;
  mret (mk_EntityBatch us ua ur (mix_update <$> mixes)
    (removals ItemType.Song (rf_songs refs) songs ++
     removals ItemType.Album (rf_albums refs) albums ++
     removals ItemType.Artist (rf_artists refs) artists ++
     removals ItemType.Mix (rf_mixes refs) mixes)
    invalidations).
End populate.

(** ** A response is complete *)

Lemma mapM_all {E A B} (f : A → result E B) (P : A → B → Prop) l :
  (∀ x, x ∈ l → ∃ y, f x = Ok y ∧ P x y) → ∃ l', mapM f l = Ok l' ∧ Forall2 P l l'.
Proof.
  induction l as [|x l IH]; intros Hl; [by exists []|].
  destruct (Hl x) as (y & Hy & HP); [left|].
  destruct IH as (l' & Hl' & HF); [by intros z Hz; apply Hl; right|].
  exists (y :: l'). cbn. rewrite Hy. cbn. rewrite Hl'. cbn. by split; [|constructor].
Qed.

Section complete.
Context `{Chrono} `{RelationOrder} (revision : Z) (epochs : gmap Z Z) (t : Tables).
Hypothesis by_key_perm : ∀ l, by_key l ≡ₚ l.

Lemma elem_of_rows_in {R} (m : gmap Z R) ids id r :
  (id, r) ∈ rows_in m ids ↔ id ∈ ids ∧ m !! id = Some r.
Proof. unfold rows_in. rewrite elem_of_map_to_list, map_lookup_filter_Some. naive_solver. Qed.
Lemma rows_in_keys {R} (m : gmap Z R) ids id :
  id ∈ (rows_in m ids).*1 ↔ id ∈ ids ∧ is_Some (m !! id).
Proof.
  rewrite list_elem_of_fmap. split.
  - intros ([i r] & -> & [? ?]%elem_of_rows_in). eauto.
  - intros [Hin [r Hr]]. exists (id, r). split; [done|]. by apply elem_of_rows_in.
Qed.
Lemma elem_of_by_key (m : gmap (Z * Z) Z) ids k :
  k ∈ relations_in m ids ↔ k.1 ∈ ids ∧ is_Some (m !! k).
Proof using by_key_perm.
  unfold relations_in. rewrite by_key_perm, list_elem_of_filter, list_elem_of_fmap.
  apply and_iff_compat_l. split.
  - intros ([k' r] & -> & Hin%elem_of_map_to_list). by exists r.
  - intros [r Hr]. exists (k, r). split; [done|]. by apply elem_of_map_to_list.
Qed.
Lemma elem_of_related m ids id a :
  id ∈ ids → a ∈ related (relations_in m ids) id ↔ is_Some (m !! (id, a)).
Proof using by_key_perm.
  intros Hid. unfold related. rewrite list_elem_of_fmap.
  setoid_rewrite list_elem_of_filter. setoid_rewrite elem_of_by_key. split.
  - intros ([i b] & -> & Hi & _ & Hk). cbn in *. by subst.
  - intros Hk. by exists (id, a).
Qed.
Lemma elem_of_relations_snd m ids a :
  a ∈ (relations_in m ids).*2 ↔ ∃ id, id ∈ ids ∧ is_Some (m !! (id, a)).
Proof using by_key_perm.
  rewrite list_elem_of_fmap. setoid_rewrite elem_of_by_key. split.
  - intros ([i b] & -> & Hi & Hk). eauto.
  - intros (id & Hid & Hk). by exists (id, a).
Qed.
Lemma elem_of_removals {R} ty ids (m : gmap Z R) rv :
  rv ∈ removals revision epochs ty ids (rows_in m ids) ↔
  rv_type rv = ty ∧ rv_stamp rv = stamp revision epochs 0 ∧ rv_id rv ∈ ids ∧ m !! rv_id rv = None.
Proof.
  unfold removals. rewrite list_elem_of_fmap.
  assert (∀ id, id ∈ elements (ids ∖ list_to_set (rows_in m ids).*1) ↔ id ∈ ids ∧ m !! id = None) as Hel.
  { intros id. rewrite elem_of_elements, elem_of_difference, elem_of_list_to_set, rows_in_keys.
    rewrite eq_None_not_Some. naive_solver. }
  setoid_rewrite Hel. split.
  - intros (id & -> & ? & ?). done.
  - intros (<- & Hs & ? & ?). exists (rv_id rv). split; [|done]. destruct rv; cbn in *. by subst.
Qed.

(** A moment as seconds and nanoseconds; one that cannot be represented is told as the first. *)
Definition tells_time (ms : Z) (p : Z * Z) : Prop :=
  if representable ms then p.1 * 1000000000 + p.2 = ms * 1000000 ∧ 0 ≤ p.2 < 1000000000 else p = (0, 0).
Definition tells_when (ms : option Z) (p : option (Z * Z)) : Prop := option_Forall2 tells_time ms p.
(** The strings of a JSON array, in order; nothing of any other value. *)
Definition tells_strings (j : Json) (l : list string) : Prop :=
  match j with JArray js => JString <$> l = filter (λ x, is_string x = true) js | _ => l = [] end.
(** The item behind an entry: its provider, the provider's epoch, the revision, the favourite. *)
Definition tells_item (id : Z) (s : ReadStamp) (favorite : bool) : Prop :=
  (∃ it, t_item t !! id = Some it ∧ rs_owner s = i_provider it) ∧
  rs_epoch s = default 0 (epochs !! rs_owner s) ∧ rs_revision s = revision ∧
  (favorite = true ↔ ∃ d at_, t_dynamic t !! id = Some d ∧ dy_favorite d = Some at_).
Record tells_song (u : SongUpdate) (r : Song) : Prop := {
  ts_item : tells_item (su_id u) (su_stamp u) (su_favorite u);
  ts_name : sf_name (su_fields u) = so_name r;
  ts_sort_name : sf_sort_name (su_fields u) = so_sort_name r;
  ts_track : sf_track (su_fields u) = so_track_number r;
  ts_disc : sf_disc (su_fields u) = so_disc_number r;
  ts_duration : sf_duration (su_fields u) = as_f64 (so_duration r);
  ts_can_play : sf_can_play (su_fields u) = so_can_play r;
  ts_publish : tells_when (so_publish_time r) (sf_publish (su_fields u));
  ts_popularity : sf_popularity (su_fields u) = so_popularity r;
  ts_tags : tells_strings (so_tags r) (sf_tags (su_fields u));
  ts_album : su_album u = so_album r;
  ts_artists a : a ∈ su_artists u ↔ is_Some (t_rel_song_artist t !! (su_id u, a));
}.
Record tells_album (u : AlbumUpdate) (r : Album) : Prop := {
  ta_item : tells_item (au_id u) (au_stamp u) (au_favorite u);
  ta_name : af_name (au_fields u) = al_name r;
  ta_sort_name : af_sort_name (au_fields u) = al_sort_name r;
  ta_type : af_type (au_fields u) = al_type r;
  ta_duration : af_duration (au_fields u) = al_duration r;
  ta_tracks : af_track_count (au_fields u) = al_track_count r;
  ta_discs : af_disc_count (au_fields u) = al_disc_count r;
  ta_description : af_description (au_fields u) = al_description r;
  ta_company : af_company (au_fields u) = al_company r;
  ta_language : af_language (au_fields u) = al_language r;
  ta_publish : tells_when (al_publish_time r) (af_publish (au_fields u));
  ta_added : tells_when (al_added_at r) (af_added (au_fields u));
  ta_artists a : a ∈ au_artists u ↔ is_Some (t_rel_album_artist t !! (au_id u, a));
}.
Record tells_artist (u : ArtistUpdate) (r : Artist) : Prop := {
  tt_item : tells_item (ru_id u) (ru_stamp u) (ru_favorite u);
  tt_name : rf_name (ru_fields u) = ar_name r;
  tt_sort_name : rf_sort_name (ru_fields u) = ar_sort_name r;
  tt_description : rf_description (ru_fields u) = ar_description r;
  tt_albums : rf_album_count (ru_fields u) = ar_album_count r;
  tt_songs : rf_music_count (ru_fields u) = ar_music_count r;
  tt_added : tells_when (ar_added_at r) (rf_added (ru_fields u));
}.
(** Mixes belong to the application, which is owner 0. *)
Record tells_mix (u : MixUpdate) (r : Mix) : Prop := {
  tm_owner : rs_owner (mu_stamp u) = 0;
  tm_epoch : rs_epoch (mu_stamp u) = default 0 (epochs !! 0);
  tm_revision : rs_revision (mu_stamp u) = revision;
  tm_name : mf_name (mu_fields u) = mx_name r;
  tm_sort_name : mf_sort_name (mu_fields u) = mx_sort_name r;
  tm_tracks : mf_track_count (mu_fields u) = mx_track_count r;
  tm_description : mf_description (mu_fields u) = mx_description r;
  tm_type : mf_type (mu_fields u) = mx_mix_type r;
  tm_update : tells_when (Some (mx_update r)) (mf_update (mu_fields u));
}.
(** No row of that type. *)
Definition tells_gone (rv : Removal) : Prop :=
  match rv_type rv with
  | ItemType.Song => t_song t !! rv_id rv = None
  | ItemType.Album => t_album t !! rv_id rv = None
  | ItemType.Artist => t_artist t !! rv_id rv = None
  | ItemType.Mix => t_mix t !! rv_id rv = None
  | _ => False
  end.
(** All that a batch says is so. *)
Record truthful (b : EntityBatch) : Prop := {
  tr_song u : u ∈ eb_songs b → ∃ r, t_song t !! su_id u = Some r ∧ tells_song u r;
  tr_album u : u ∈ eb_albums b → ∃ r, t_album t !! au_id u = Some r ∧ tells_album u r;
  tr_artist u : u ∈ eb_artists b → ∃ r, t_artist t !! ru_id u = Some r ∧ tells_artist u r;
  tr_mix u : u ∈ eb_mixes b → ∃ r, t_mix t !! mu_id u = Some r ∧ tells_mix u r;
  tr_removal rv : rv ∈ eb_removals b → tells_gone rv;
  tr_epoch owner e : mk_ReadStamp owner e revision ∈ eb_invalidations b ↔ epochs !! owner = Some e;
}.
(** What an entry refers to is in the batch as well. *)
Record closed (b : EntityBatch) : Prop := {
  cl_song_album u a : u ∈ eb_songs b → su_album u = Some a → a ∈ au_id <$> eb_albums b;
  cl_song_artist u a : u ∈ eb_songs b → a ∈ su_artists u → a ∈ ru_id <$> eb_artists b;
  cl_album_artist u a : u ∈ eb_albums b → a ∈ au_artists u → a ∈ ru_id <$> eb_artists b;
}.
Definition removed (b : EntityBatch) (ty : ItemType.t) (id : Z) : Prop :=
  ∃ rv, rv ∈ eb_removals b ∧ rv_type rv = ty ∧ rv_id rv = id.
(** Every reference is answered with its row, or with its removal if there is none. *)
Record answers (refs : References) (b : EntityBatch) : Prop := {
  an_song id : id ∈ rf_songs refs →
    if has (t_song t) id then id ∈ su_id <$> eb_songs b else removed b ItemType.Song id;
  an_album id : id ∈ rf_albums refs →
    if has (t_album t) id then id ∈ au_id <$> eb_albums b else removed b ItemType.Album id;
  an_artist id : id ∈ rf_artists refs →
    if has (t_artist t) id then id ∈ ru_id <$> eb_artists b else removed b ItemType.Artist id;
  an_mix id : id ∈ rf_mixes refs →
    if has (t_mix t) id then id ∈ mu_id <$> eb_mixes b else removed b ItemType.Mix id;
}.

Lemma owner_Ok id : is_Some (t_item t !! id) → ∃ p, owner t id = Ok p.
Proof. intros [it Hit]. unfold owner. rewrite Hit. by exists (i_provider it). Qed.
Lemma keys_of {R U} (P : Z * R → U → Prop) (key : U → Z) l us id :
  Forall2 P l us → (∀ ir u, P ir u → key u = ir.1) → id ∈ key <$> us ↔ id ∈ l.*1.
Proof.
  intros Hl Hkey. enough (key <$> us = l.*1) as -> by done.
  induction Hl as [|ir u l us Hu _ IH]; [done|]. cbn. by rewrite IH, (Hkey ir u).
Qed.
(** Each row has its entry. *)
Definition song_of (rels : list (Z * Z)) (ir : Z * Song) (u : SongUpdate) : Prop :=
  song_update revision epochs t rels ir = Ok u.
Definition album_of (rels : list (Z * Z)) (ir : Z * Album) (u : AlbumUpdate) : Prop :=
  album_update revision epochs t rels ir = Ok u.
Definition artist_of (ir : Z * Artist) (u : ArtistUpdate) : Prop :=
  artist_update revision epochs t ir = Ok u.
Lemma song_updates rels ids : well_formed t → ∃ us,
  mapM (song_update revision epochs t rels) (rows_in (t_song t) ids) = Ok us ∧
  Forall2 (song_of rels) (rows_in (t_song t) ids) us.
Proof.
  intros Hwf. apply mapM_all. intros [id r] [_ Hr]%elem_of_rows_in.
  destruct (owner_Ok id) as [p Hp]; [by eapply rt_song; [apply Hwf|]|].
  unfold song_of, song_update. rewrite Hp. by eexists.
Qed.
Lemma album_updates rels ids : well_formed t → ∃ us,
  mapM (album_update revision epochs t rels) (rows_in (t_album t) ids) = Ok us ∧
  Forall2 (album_of rels) (rows_in (t_album t) ids) us.
Proof.
  intros Hwf. apply mapM_all. intros [id r] [_ Hr]%elem_of_rows_in.
  destruct (owner_Ok id) as [p Hp]; [by eapply rt_album; [apply Hwf|]|].
  unfold album_of, album_update. rewrite Hp. by eexists.
Qed.
Lemma artist_updates ids : well_formed t → ∃ us,
  mapM (artist_update revision epochs t) (rows_in (t_artist t) ids) = Ok us ∧
  Forall2 artist_of (rows_in (t_artist t) ids) us.
Proof.
  intros Hwf. apply mapM_all. intros [id r] [_ Hr]%elem_of_rows_in.
  destruct (owner_Ok id) as [p Hp]; [by eapply rt_artist; [apply Hwf|]|].
  unfold artist_of, artist_update. rewrite Hp. by eexists.
Qed.

(** The pieces of an entry. *)
Lemma proto_time_tells ms : tells_time ms (proto_time ms).
Proof. unfold tells_time, proto_time. destruct (representable ms); [|done]. cbn.
  pose proof (Z.div_mod ms 1000 ltac:(lia)). pose proof (Z.mod_pos_bound ms 1000 ltac:(lia)). lia. Qed.
Lemma proto_times_tell ms : tells_when ms (proto_time <$> ms).
Proof. destruct ms; constructor. apply proto_time_tells. Qed.
Lemma json_strings_tell j : tells_strings j (json_strings j).
Proof.
  destruct j as [s|l|s]; [done| |done]. unfold tells_strings, json_strings. cbn.
  induction l as [|[s|l'|s] l IH]; cbn; [done|by rewrite IH|done..].
Qed.
Lemma stamp_tells id p : owner t id = Ok p → tells_item id (stamp revision epochs p) (favorite_of t id).
Proof.
  intros Hp. apply ok_or_Ok, fmap_Some in Hp as (it & Hit & ->).
  split_and!; [by exists it|done..|]. unfold favorite_of.
  destruct (t_dynamic t !! id) as [d|]; [|naive_solver]. rewrite bool_decide_eq_true. split.
  - intros [x Hx]. by exists d, x.
  - intros (d' & x & [= <-] & Hx). by exists x.
Qed.
Lemma song_of_tells ids ir u : ir.1 ∈ ids → song_of (relations_in (t_rel_song_artist t) ids) ir u →
  su_id u = ir.1 ∧ tells_song u ir.2.
Proof using by_key_perm.
  destruct ir as [id r]. unfold song_of, song_update. intros Hid Hu.
  apply result_bind_Ok in Hu as (p & Hp & [= <-]). split; [done|].
  split; cbn; try done; [by apply stamp_tells|apply proto_times_tell|apply json_strings_tell|].
  intros a. by apply elem_of_related.
Qed.
Lemma album_of_tells ids ir u : ir.1 ∈ ids → album_of (relations_in (t_rel_album_artist t) ids) ir u →
  au_id u = ir.1 ∧ tells_album u ir.2.
Proof using by_key_perm.
  destruct ir as [id r]. unfold album_of, album_update. intros Hid Hu.
  apply result_bind_Ok in Hu as (p & Hp & [= <-]). split; [done|].
  split; cbn; try done; [by apply stamp_tells|apply proto_times_tell..|].
  intros a. by apply elem_of_related.
Qed.
Lemma artist_of_tells ir u : artist_of ir u → ru_id u = ir.1 ∧ tells_artist u ir.2.
Proof.
  destruct ir as [id r]. unfold artist_of, artist_update. intros Hu.
  apply result_bind_Ok in Hu as (p & Hp & [= <-]). split; [done|].
  split; cbn; try done; [by apply stamp_tells|apply proto_times_tell].
Qed.
Lemma mix_update_tells ir : tells_mix (mix_update revision epochs ir) ir.2.
Proof. destruct ir as [id r]. split; cbn; try done. constructor. apply proto_time_tells. Qed.
Lemma elem_of_invalidations owner e :
  mk_ReadStamp owner e revision ∈ invalidations revision epochs ↔ epochs !! owner = Some e.
Proof.
  unfold invalidations. rewrite list_elem_of_fmap. split.
  - intros ([o e'] & [= -> ->] & Hin%elem_of_map_to_list). done.
  - intros Hin%elem_of_map_to_list. by exists (owner, e).
Qed.

(** The batch that is put together from the references once they are complete. *)
Definition complete_refs (refs refs' : References) : Prop :=
  rf_songs refs' = rf_songs refs ∧ rf_mixes refs' = rf_mixes refs ∧
  rf_albums refs ⊆ rf_albums refs' ∧ rf_artists refs ⊆ rf_artists refs' ∧
  (∀ s r a, s ∈ rf_songs refs → t_song t !! s = Some r → so_album r = Some a → a ∈ rf_albums refs') ∧
  (∀ s a, s ∈ rf_songs refs → is_Some (t_rel_song_artist t !! (s, a)) → a ∈ rf_artists refs') ∧
  (∀ l a, l ∈ rf_albums refs' → is_Some (t_rel_album_artist t !! (l, a)) → a ∈ rf_artists refs').
Section batch.
Context (refs r : References) (us : list SongUpdate) (ua : list AlbumUpdate) (ur : list ArtistUpdate).
Let sa := relations_in (t_rel_song_artist t) (rf_songs r).
Let aa := relations_in (t_rel_album_artist t) (rf_albums r).
Hypotheses (Hrefs : complete_refs refs r) (Hwf : well_formed t).
Hypothesis Hus : Forall2 (song_of sa) (rows_in (t_song t) (rf_songs r)) us.
Hypothesis Hua : Forall2 (album_of aa) (rows_in (t_album t) (rf_albums r)) ua.
Hypothesis Hur : Forall2 artist_of (rows_in (t_artist t) (rf_artists r)) ur.
Definition batch_of : EntityBatch :=
  mk_EntityBatch us ua ur (mix_update revision epochs <$> rows_in (t_mix t) (rf_mixes r))
    (removals revision epochs ItemType.Song (rf_songs r) (rows_in (t_song t) (rf_songs r)) ++
     removals revision epochs ItemType.Album (rf_albums r) (rows_in (t_album t) (rf_albums r)) ++
     removals revision epochs ItemType.Artist (rf_artists r) (rows_in (t_artist t) (rf_artists r)) ++
     removals revision epochs ItemType.Mix (rf_mixes r) (rows_in (t_mix t) (rf_mixes r)))
    (invalidations revision epochs).

Lemma song_keys id : id ∈ su_id <$> us ↔ id ∈ rf_songs r ∧ is_Some (t_song t !! id).
Proof using Hus.
  rewrite <-rows_in_keys. eapply keys_of; [exact Hus|]. intros [i x] u Hu.
  by apply result_bind_Ok in Hu as (p & _ & [= <-]).
Qed.
Lemma album_keys id : id ∈ au_id <$> ua ↔ id ∈ rf_albums r ∧ is_Some (t_album t !! id).
Proof using Hua.
  rewrite <-rows_in_keys. eapply keys_of; [exact Hua|]. intros [i x] u Hu.
  by apply result_bind_Ok in Hu as (p & _ & [= <-]).
Qed.
Lemma artist_keys id : id ∈ ru_id <$> ur ↔ id ∈ rf_artists r ∧ is_Some (t_artist t !! id).
Proof using Hur.
  rewrite <-rows_in_keys. eapply keys_of; [exact Hur|]. intros [i x] u Hu.
  by apply result_bind_Ok in Hu as (p & _ & [= <-]).
Qed.
Lemma mix_keys id :
  id ∈ mu_id <$> eb_mixes batch_of ↔ id ∈ rf_mixes r ∧ is_Some (t_mix t !! id).
Proof.
  rewrite <-rows_in_keys. cbn. rewrite !list_elem_of_fmap. setoid_rewrite list_elem_of_fmap. split.
  - intros (u & -> & ([i m] & -> & Hin)). by exists (i, m).
  - intros ([i m] & -> & Hin). eexists. split; [|by exists (i, m)]. done.
Qed.
Lemma removed_rows ty id :
  (ty = ItemType.Song ∧ id ∈ rf_songs r ∧ t_song t !! id = None ∨
   ty = ItemType.Album ∧ id ∈ rf_albums r ∧ t_album t !! id = None ∨
   ty = ItemType.Artist ∧ id ∈ rf_artists r ∧ t_artist t !! id = None ∨
   ty = ItemType.Mix ∧ id ∈ rf_mixes r ∧ t_mix t !! id = None) → removed batch_of ty id.
Proof.
  intros Hor. exists (mk_Removal id ty (stamp revision epochs 0)). split; [|done]. cbn.
  rewrite !elem_of_app, !elem_of_removals. cbn. naive_solver.
Qed.
Lemma has_false {R} (m : gmap Z R) id : has m id = false → m !! id = None.
Proof. unfold has. rewrite bool_decide_eq_false. apply eq_None_not_Some. Qed.
Lemma batch_answers : answers refs batch_of.
Proof using All.
  destruct Hrefs as (Hs & Hm & Ha & Hr & _).
  split; intros id Hid; match goal with |- context [has ?m id] => destruct (has m id) eqn:Hh end.
  all: try apply has_true in Hh; try apply has_false in Hh.
  - apply song_keys. by rewrite Hs.
  - apply removed_rows. rewrite Hs. auto.
  - apply album_keys. auto.
  - apply removed_rows. auto 6.
  - apply artist_keys. auto.
  - apply removed_rows. auto 7.
  - apply mix_keys. by rewrite Hm.
  - apply removed_rows. rewrite Hm. auto 8.
Qed.
Lemma batch_truthful : truthful batch_of.
Proof using All.
  split; [intros u Hu..|intros rv Hrv|intros o e; apply elem_of_invalidations].
  - destruct (Forall2_right _ _ _ _ Hus Hu) as ([i x] & [Hi Hx]%elem_of_rows_in & Hof).
    destruct (song_of_tells _ (i, x) _ Hi Hof) as [Hid ?]. rewrite Hid. by exists x.
  - destruct (Forall2_right _ _ _ _ Hua Hu) as ([i x] & [Hi Hx]%elem_of_rows_in & Hof).
    destruct (album_of_tells _ (i, x) _ Hi Hof) as [Hid ?]. rewrite Hid. by exists x.
  - destruct (Forall2_right _ _ _ _ Hur Hu) as ([i x] & [Hi Hx]%elem_of_rows_in & Hof).
    destruct (artist_of_tells _ _ Hof) as [Hid ?]. rewrite Hid. by exists x.
  - cbn in Hu. apply list_elem_of_fmap in Hu as ([i x] & -> & [Hi Hx]%elem_of_rows_in). exists x.
    split; [done|]. apply (mix_update_tells (i, x)).
  - cbn in Hrv. rewrite !elem_of_app, !elem_of_removals in Hrv. unfold tells_gone.
    destruct Hrv as [(-> & _ & _ & ?)|[(-> & _ & _ & ?)|[(-> & _ & _ & ?)|(-> & _ & _ & ?)]]]; done.
Qed.
Lemma batch_closed : closed batch_of.
Proof using All.
  destruct Hrefs as (Hs & Hm & Ha & Hr & Hsal & Hsar & Haar).
  pose proof batch_truthful as Htr.
  assert (∀ u, u ∈ us → su_id u ∈ rf_songs refs) as Hin.
  { intros u Hu. rewrite <-Hs. apply song_keys, list_elem_of_fmap. eauto. }
  assert (∀ u, u ∈ ua → au_id u ∈ rf_albums r) as Hina.
  { intros u Hu. apply album_keys, list_elem_of_fmap. eauto. }
  split; intros u a Hu Hrel.
  - destruct (tr_song _ Htr u Hu) as (x & Hx & [_ _ _ _ _ _ _ _ _ _ Heq _]). apply album_keys.
    rewrite Heq in Hrel. split; [by eapply Hsal; [apply Hin|..]|].
    by eapply ln_song_album; [apply Hwf|..].
  - destruct (tr_song _ Htr u Hu) as (x & Hx & Hx'). apply (ts_artists _ _ Hx') in Hrel. apply artist_keys.
    split; [by eapply Hsar; [apply Hin|]|]. destruct Hrel as [k Hk].
    by eapply ln_song_artist; [apply Hwf|].
  - destruct (tr_album _ Htr u Hu) as (x & Hx & Hx'). apply (ta_artists _ _ Hx') in Hrel. apply artist_keys.
    split; [by eapply Haar; [apply Hina|]|]. destruct Hrel as [k Hk].
    by eapply ln_album_artist; [apply Hwf|].
Qed.
End batch.

(** C25. Every response carries what it refers to: for each song, album, artist and mix that the
    request or the response names, its row if there is one and a removal otherwise; every field
    of an entry (texts, numbers, times, tags, album, artists, favourite, owner and stamp) is what
    the tables say; a removal is of a row that is not there; and the album and the artists an
    entry refers to are in the batch as well. With a library in order this never fails. *)
Theorem responses_are_complete request response :
  well_formed t →
  ∃ b, populate_at revision epochs t request response = Ok b ∧
    answers (request_refs request (payload_refs response no_refs)) b ∧ truthful b ∧ closed b.
Proof.
  intros Hwf. unfold populate_at. set (refs := request_refs _ _). case_bool_decide as Hempty.
  { eexists. split; [done|]. destruct Hempty as (Hs & Ha & Hr & Hm).
    split_and!; split; try (intros ? ?; apply elem_of_invalidations);
      intros *; rewrite ?Hs, ?Ha, ?Hr, ?Hm; cbn; intros Hin; exfalso;
      first [exact (not_elem_of_nil _ Hin) | exact (not_elem_of_empty (C := gset Z) _ Hin)]. }
  clear Hempty.
  set (r1 := ref_albums _ refs). set (aa := relations_in (t_rel_album_artist t) _).
  set (sa := relations_in (t_rel_song_artist t) _). set (r := ref_artists _ (ref_artists _ r1)).
  assert (complete_refs refs r) as Hr.
  { split_and!; cbn; try done; try set_solver.
    - intros s x a Hs Hx Hal. apply elem_of_union_r, elem_of_list_to_set, list_elem_of_omap.
      exists (s, x). split; [by apply elem_of_rows_in|done].
    - intros s a Hs Hrel. apply elem_of_union_l, elem_of_union_r, elem_of_list_to_set.
      apply elem_of_relations_snd. by exists s.
    - intros l a Hl Hrel. apply elem_of_union_r, elem_of_list_to_set.
      apply elem_of_relations_snd. by exists l. }
  destruct (song_updates sa (rf_songs r) Hwf) as (us & Hus & Fs).
  destruct (album_updates aa (rf_albums r) Hwf) as (ua & Hua & Fa).
  destruct (artist_updates (rf_artists r) Hwf) as (ur & Hur & Fr).
  exists (batch_of r us ua ur). split.
  - change (rf_songs refs) with (rf_songs r). rewrite Hus. cbn [mbind result_bind].
    rewrite Hua. cbn [mbind result_bind]. rewrite Hur. done.
  - split_and!; [by apply batch_answers|by apply (batch_truthful refs)|by apply (batch_closed refs)].
Qed.
End complete.

(** ** An example *)

Module PopulateExample.
#[export] Instance chrono : Chrono := λ ms, (-8334601228800000 <=? ms) && (ms <=? 8210266876799999).
#[export] Instance relation_order : RelationOrder := λ l, l.
Definition library : Tables := sy_tables (c_sync synced).
Lemma responses_are_complete_witness :
  ∃ b, populate_at 1 ∅ library OtherReq (GetSongsByIdRsp [3; 99]) = Ok b ∧
    answers library (request_refs OtherReq (payload_refs (GetSongsByIdRsp [3; 99]) no_refs)) b ∧
    truthful 1 ∅ library b ∧ closed b.
Proof.
  apply (responses_are_complete 1 ∅ library (λ l, Permutation_refl l) OtherReq
    (GetSongsByIdRsp [3; 99]) synced_well_formed).
Defined.
End PopulateExample.
