(* ===== verification/Threads.v ===== *)
(** * Threads: asynchronous code as interleaved actions

    An [async fn] runs without interruption between two points where it waits. A [Code] is
    what is left of one: an atomic action on the shared state, which may have to wait until it
    is possible, or a question to the world outside, whose answer is anything. At both points
    the future may be dropped instead, and its destructors run.

    [safe] proves things of code as if it ran alone: the code owns tokens, an invariant says
    what the tokens of all threads together mean for the shared state, and every action must
    keep the invariant whatever the others own. [system_sound] is the soundness of that for
    any interleaving of any number of threads. *)
From stdpp Require Import gmultiset.
From S2P Require Import Prelude.
From stdpp Require Import options.
#[local] Set Default Proof Using "Type*".

Open Scope list_scope.

(** ** Code *)

Section code.
Context {S : Type} {Q : Type → Type}.

(** [d] is what dropping the future does there. *)
Inductive Code (A : Type) : Type :=
| Ret (a : A)
| Act {B : Type} (d : S → S) (m : S → option (B * S)) (k : B → Code A)
| Ask {X : Type} (q : Q X) (d : S → S) (k : X → Code A).
#[global] Arguments Ret {A} a.
#[global] Arguments Act {A B} d m k.
#[global] Arguments Ask {A X} q d k.

Fixpoint code_bind {A B} (c : Code A) (f : A → Code B) : Code B :=
  match c with
  | Ret a => f a
  | Act d m k => Act d m (λ b, code_bind (k b) f)
  | Ask q d k => Ask q d (λ x, code_bind (k x) f)
  end.
#[global] Instance Code_ret : MRet Code := λ A a, Ret a.
#[global] Instance Code_bind : MBind Code := λ A B f c, code_bind c f.

(** One action; a question. *)
Definition atomically {B} (m : S → B * S) : Code B := Act id (λ s, Some (m s)) Ret.
Definition when {B} (m : S → option (B * S)) : Code B := Act id m Ret.
Definition update (f : S → S) : Code unit := atomically (λ s, (tt, f s)).
Definition observe {B} (f : S → B) : Code B := atomically (λ s, (f s, s)).
Definition ask {X} (q : Q X) : Code X := Ask q id Ret.
(** A value that lives as long as [c], or until [c] is dropped: [release] is its destructor;
    [c] may give it away, at the end only. *)
Fixpoint holding (release : S → S) {A} (c : Code A) : Code A :=
  match c with
  | Ret a => Ret a
  | Act d m k => Act (release ∘ d) m (λ b, holding release (k b))
  | Ask q d k => Ask q (release ∘ d) (λ x, holding release (k x))
  end.
(** ... and is destroyed at its end. *)
Definition scoped (release : S → S) {A} (c : Code A) : Code A :=
  a ← holding release c ; Act release (λ s, Some (tt, release s)) (λ _, Ret a).
Fixpoint each_code {X} (f : X → Code unit) (l : list X) : Code unit :=
  match l with [] => mret tt | x :: l => _ ← f x ; each_code f l end.
End code.
Arguments Code : clear implicits.

(** Code with an early return of errors. *)
Definition Fallible (S : Type) (Q : Type → Type) (E A : Type) : Type := Code S Q (result E A).
#[global] Instance Fallible_ret S Q E : MRet (Fallible S Q E) := λ A a, Ret (Ok a).
#[global] Instance Fallible_bind S Q E : MBind (Fallible S Q E) :=
  λ A B f c, code_bind c (λ r, match r with Ok a => f a | Err e => Ret (Err e) end).
Definition throw {S Q E A} (e : E) : Fallible S Q E A := Ret (Err e).
Definition try_ {S Q E A} (r : result E A) : Fallible S Q E A := Ret r.
Definition calmly {S Q E A} (c : Code S Q A) : Fallible S Q E A := code_bind c (λ a, Ret (Ok a)).
Definition require {S Q E} (b : bool) (e : E) : Fallible S Q E unit := Ret (ensure b e).

(** ** Tokens *)

Section tokens.
Context `{Countable T}.
Implicit Types x y z : gmultiset T.
Lemma swap_tokens x y z : x ⊎ (y ⊎ z) = y ⊎ (x ⊎ z).
Proof. by rewrite !(assoc_L (⊎)), (comm_L (⊎) x). Qed.
Lemma no_tokens x : ∅ ⊎ x = x.
Proof. by rewrite (left_id_L ∅ (⊎)). Qed.
End tokens.

(** ** Safe code *)

Section safe.
Context {S : Type} {Q : Type → Type} `{Countable T}.
(** What the tokens mean; what every step does to the state; the answers to expect. *)
Context (Inv : S → gmultiset T → Prop) (G : relation S) (honest : ∀ X, Q X → X → Prop).

Definition releases (d : S → S) (o : gmultiset T) : Prop :=
  ∀ s F, Inv s (o ⊎ F) → G s (d s) ∧ Inv (d s) F.
Fixpoint safe {A} (c : Code S Q A) (o : gmultiset T) (Post : A → gmultiset T → Prop) : Prop :=
  match c with
  | Ret a => Post a o
  | Act d m k =>
      releases d o ∧
      ∀ s F b s', Inv s (o ⊎ F) → m s = Some (b, s') →
        G s s' ∧ ∃ o', Inv s' (o' ⊎ F) ∧ safe (k b) o' Post
  | Ask q d k => releases d o ∧ ∀ x, honest _ q x → safe (k x) o Post
  end.

Lemma safe_mono {A} (c : Code S Q A) : ∀ o (P P' : A → gmultiset T → Prop),
  safe c o P → (∀ a o, P a o → P' a o) → safe c o P'.
Proof.
  induction c as [a|B d m k IH|X q d k IH]; cbn; intros o P P' Hc HP.
  - by apply HP.
  - destruct Hc as [Hd Hc]. split; [done|]. intros s F b s' HI Hm.
    destruct (Hc s F b s' HI Hm) as (? & o' & ? & ?). eauto.
  - destruct Hc as [Hd Hc]. split; [done|]. eauto.
Qed.
Lemma safe_bind {A B} (c : Code S Q A) (f : A → Code S Q B) : ∀ o P,
  safe c o (λ a o, safe (f a) o P) → safe (code_bind c f) o P.
Proof.
  induction c as [a|B' d m k IH|X q d k IH]; cbn; intros o P Hc.
  - done.
  - destruct Hc as [Hd Hc]. split; [done|]. intros s F b s' HI Hm.
    destruct (Hc s F b s' HI Hm) as (? & o' & ? & ?). eauto.
  - destruct Hc as [Hd Hc]. split; [done|]. eauto.
Qed.

(** Code that knows its past: [s0] is a state it has seen, and all that every step of the
    system keeps is true of it still. *)
Fixpoint safe_from {A} (c : Code S Q A) (s0 : S) (o : gmultiset T)
    (Post : S → A → gmultiset T → Prop) : Prop :=
  match c with
  | Ret a => Post s0 a o
  | Act d m k =>
      releases d o ∧
      ∀ s F b s', G s0 s → Inv s (o ⊎ F) → m s = Some (b, s') →
        G s s' ∧ ∃ o', Inv s' (o' ⊎ F) ∧ safe_from (k b) s' o' Post
  | Ask q d k => releases d o ∧ ∀ x, honest _ q x → safe_from (k x) s0 o Post
  end.
Lemma safe_is_safe_from {A} (c : Code S Q A) : ∀ s0 o P, safe c o P → safe_from c s0 o (λ _, P).
Proof.
  induction c as [a|B d m k IH|X q d k IH]; cbn; intros s0 o P Hc; [done|..].
  - destruct Hc as [Hd Hc]. split; [done|]. intros s F b s' _ HI Hm.
    destruct (Hc s F b s' HI Hm) as (? & o' & ? & ?). eauto.
  - destruct Hc as [Hd Hc]. split; [done|]. eauto.
Qed.
Lemma safe_from_mono {A} (c : Code S Q A) : ∀ s0 o (P P' : S → A → gmultiset T → Prop),
  safe_from c s0 o P → (∀ s a o, P s a o → P' s a o) → safe_from c s0 o P'.
Proof.
  induction c as [a|B d m k IH|X q d k IH]; cbn; intros s0 o P P' Hc HP.
  - by apply HP.
  - destruct Hc as [Hd Hc]. split; [done|]. intros s F b s' HG HI Hm.
    destruct (Hc s F b s' HG HI Hm) as (? & o' & ? & ?). eauto 6.
  - destruct Hc as [Hd Hc]. split; [done|]. eauto.
Qed.
Lemma safe_from_bind {A B} (c : Code S Q A) (f : A → Code S Q B) : ∀ s0 o P,
  safe_from c s0 o (λ s a o, safe_from (f a) s o P) → safe_from (code_bind c f) s0 o P.
Proof.
  induction c as [a|B' d m k IH|X q d k IH]; cbn; intros s0 o P Hc; [done|..].
  - destruct Hc as [Hd Hc]. split; [done|]. intros s F b s' HG HI Hm.
    destruct (Hc s F b s' HG HI Hm) as (? & o' & ? & ?). eauto 6.
  - destruct Hc as [Hd Hc]. split; [done|]. eauto.
Qed.
(** What was known is known later. *)
Lemma safe_from_later {A} `{!Transitive G} (c : Code S Q A) P :
  (∀ s s' a o, G s s' → P s a o → P s' a o) →
  ∀ s0 s1 o, G s0 s1 → safe_from c s0 o P → safe_from c s1 o P.
Proof.
  intros HP. induction c as [a|B d m k IH|X q d k IH]; cbn; intros s0 s1 o Hs Hc; [by eapply HP|..].
  - destruct Hc as [Hd Hc]. split; [done|]. intros s F b s' HG HI Hm.
    eapply Hc; [by etrans|done..].
  - destruct Hc as [Hd Hc]. split; [done|]. eauto.
Qed.
End safe.
Lemma safe_holding_bind {S Q A B} `{Countable T} (Inv : S → gmultiset T → Prop) (G : relation S) honest
    (r : S → S) (c : Code S Q A) (f : A → Code S Q B) : ∀ o P,
  safe Inv G honest (holding r c) o (λ a o, safe Inv G honest (holding r (f a)) o P) →
  safe Inv G honest (holding r (code_bind c f)) o P.
Proof.
  induction c as [a|B' d m k IH|X q d k IH]; cbn; intros o P Hc; [done|..].
  - destruct Hc as [Hd Hc]. split; [done|]. intros s F b s' HI Hm.
    destruct (Hc s F b s' HI Hm) as (? & o' & ? & ?). eauto.
  - destruct Hc as [Hd Hc]. split; [done|]. eauto.
Qed.
(** While [c] runs, what is held is there too. *)
Lemma safe_holding {S Q A} `{Countable T} (Inv : S → gmultiset T → Prop) (G : relation S) honest
    (r : S → S) h (c : Code S Q A) : ∀ o P,
  (∀ s F, Inv s (h ⊎ F) → G s (r s) ∧ Inv (r s) F) → Transitive G →
  safe (λ s O, Inv s (h ⊎ O)) G honest c o P →
  safe Inv G honest (holding r c) (h ⊎ o) (λ a o', ∃ o, o' = h ⊎ o ∧ P a o).
Proof.
  intros o P Hr HG.
  assert (∀ d o, releases (λ s O, Inv s (h ⊎ O)) G d o → releases Inv G (r ∘ d) (h ⊎ o)) as Hd.
  { intros d o1 Hd s F HI. rewrite <-(assoc_L (⊎)) in HI. destruct (Hd s F HI) as [HG1 HI1].
    destruct (Hr _ _ HI1). split; [by etrans|done]. }
  revert o P. induction c as [a|B d m k IH|X q d k IH]; cbn; intros o P Hc.
  - eauto.
  - destruct Hc as [Hrel Hc]. split; [by apply Hd|]. intros s F b s' HI Hm.
    rewrite <-(assoc_L (⊎)) in HI. destruct (Hc s F b s' HI Hm) as (? & o' & HI' & Hs).
    split; [done|]. exists (h ⊎ o'). split; [by rewrite <-(assoc_L (⊎))|by apply IH].
  - destruct Hc as [Hrel Hc]. split; [by apply Hd|]. eauto.
Qed.
(** Tokens that may be forgotten. *)
Lemma safe_frame {S Q A} `{Countable T} (Inv : S → gmultiset T → Prop) (G : relation S) honest
    h (c : Code S Q A) : ∀ o P,
  (∀ s F, Inv s (h ⊎ F) → Inv s F) →
  safe (λ s O, Inv s (h ⊎ O)) G honest c o P →
  safe Inv G honest c (h ⊎ o) (λ a o', ∃ o, o' = h ⊎ o ∧ P a o).
Proof.
  intros o P Hh.
  assert (∀ d o, releases (λ s O, Inv s (h ⊎ O)) G d o → releases Inv G d (h ⊎ o)) as Hd.
  { intros d o1 Hd s F HI. rewrite <-(assoc_L (⊎)) in HI. destruct (Hd s F HI). auto. }
  revert o P. induction c as [a|B d m k IH|X q d k IH]; cbn; intros o P Hc; [eauto|..].
  - destruct Hc as [Hrel Hc]. split; [by apply Hd|]. intros s F b s' HI Hm.
    rewrite <-(assoc_L (⊎)) in HI. destruct (Hc s F b s' HI Hm) as (? & o' & HI' & Hs).
    split; [done|]. exists (h ⊎ o'). split; [by rewrite <-(assoc_L (⊎))|by apply IH].
  - destruct Hc as [Hrel Hc]. split; [by apply Hd|]. eauto.
Qed.

(** ** Systems of threads *)

Section system.
Context {S A : Type} {Q : Type → Type} `{Countable T}.
(** [Post] says with which tokens a thread may end. *)
Context (Inv : S → gmultiset T → Prop) (G : relation S) (honest : ∀ X, Q X → X → Prop)
  (Post : S → A → gmultiset T → Prop).

(** A thread that was dropped has no code; only futures that somebody owns can be. *)
Record Thread := mk_Thread { th_code : option (Code S Q A); th_droppable : bool }.
(** Requests that may come, tasks that were spawned and have not started, and what the world
    does to the state meanwhile. *)
Context (arrives : Thread → Prop) (spawned : S → option (S * Thread)) (env : relation S).

Definition go (t : nat) (c : option (Code S Q A)) (l : list Thread) : list Thread :=
  alter (λ th, mk_Thread c (th_droppable th)) t l.
Definition dropped (c : Code S Q A) : option (S → S) :=
  match c with Ret _ => None | Act d _ _ | Ask _ d _ => Some d end.

Inductive step : S * list Thread → S * list Thread → Prop :=
| Acts s l t {B} d (m : S → option (B * S)) k w b s' :
    l !! t = Some (mk_Thread (Some (Act d m k)) w) → m s = Some (b, s') →
    step (s, l) (s', go t (Some (k b)) l)
| Answered s l t {X} (q : Q X) d k w x :
    l !! t = Some (mk_Thread (Some (Ask q d k)) w) → honest _ q x →
    step (s, l) (s, go t (Some (k x)) l)
| Drops s l t c d :
    l !! t = Some (mk_Thread (Some c) true) → dropped c = Some d →
    step (s, l) (d s, go t None l)
| Arrives s l th : arrives th → step (s, l) (s, l ++ [th])
| Starts s l s' th : spawned s = Some (s', th) → step (s, l) (s', l ++ [th])
| Outside s l s' : env s s' → step (s, l) (s', l).

Inductive reachable (s0 : S) : S * list Thread → Prop :=
| First : reachable s0 (s0, [])
| Next w w' : reachable s0 w → step w w' → reachable s0 w'.

Definition thread_safe (s : S) (th : Thread) (o : gmultiset T) : Prop :=
  match th_code th with
  | Some c => ∃ s0, G s0 s ∧ safe_from Inv G honest c s0 o Post
  | None => o = ∅
  end.
Definition total (os : list (gmultiset T)) : gmultiset T := foldr (⊎) ∅ os.
Definition sound (w : S * list Thread) : Prop :=
  ∃ os, Forall2 (thread_safe w.1) w.2 os ∧ Inv w.1 (total os).

Lemma total_insert os t o :
  os !! t = Some o → ∃ F, total os = o ⊎ F ∧ ∀ o', total (<[t := o']> os) = o' ⊎ F.
Proof.
  revert t. induction os as [|o1 os IH]; intros [|t] Ht; try done.
  - injection Ht as ->. by exists (total os).
  - destruct (IH t Ht) as (F & HF & Hins). exists (o1 ⊎ F). cbn.
    unfold total in *.
    split; [|intros o'; rewrite Hins]; rewrite ?HF; apply swap_tokens.
Qed.
Lemma total_app os o : total (os ++ [o]) = o ⊎ total os.
Proof. unfold total. induction os as [|o1 os IH]; cbn; [done|]. by rewrite IH, swap_tokens. Qed.
Lemma go_safe s l os t c o :
  Forall2 (thread_safe s) l os → (∀ w, thread_safe s (mk_Thread c w) o) →
  Forall2 (thread_safe s) (go t c l) (<[t := o]> os).
Proof.
  intros Hl Hc. revert t. induction Hl as [|th o1 l os Hth Hl IH]; intros [|t]; cbn; [constructor..| |].
  - constructor; [apply Hc|done].
  - constructor; [done|apply IH].
Qed.

(** What is asked of the parts of a system. *)
Class System : Prop := {
  sys_arrives s th : arrives th → thread_safe s th ∅;
  sys_spawned s s' th O : spawned s = Some (s', th) → Inv s O →
    G s s' ∧ ∃ o, Inv s' (o ⊎ O) ∧ thread_safe s' th o;
  sys_env s s' O : env s s' → Inv s O → G s s' ∧ Inv s' O;
  sys_preorder :: PreOrder G;
  sys_post s s' a o : G s s' → Post s a o → Post s' a o;
}.

Context `{!System}.

Lemma threads_later s s' l os :
  G s s' → Forall2 (thread_safe s) l os → Forall2 (thread_safe s') l os.
Proof.
  intros HG Hl. eapply Forall2_impl; [exact Hl|]. intros th o. unfold thread_safe.
  destruct (th_code th) as [c|]; [|done]. intros (s0 & Hs0 & Hc). exists s0. split; [by etrans|done].
Qed.
Lemma step_sound w w' : step w w' → sound w → G w.1 w'.1 ∧ sound w'.
Proof.
  intros Hs (os & Hl & HI).
  assert (∀ t th, w.2 !! t = Some th → ∃ o F, os !! t = Some o ∧ thread_safe w.1 th o ∧
    total os = o ⊎ F ∧ ∀ o', total (<[t := o']> os) = o' ⊎ F) as Hat.
  { intros t th Ht. destruct (Forall2_lookup_l _ _ _ _ _ Hl Ht) as (o & Ho & Hth).
    destruct (total_insert _ _ _ Ho) as (F & ? & ?). eauto 10. }
  destruct Hs as [s l t B d m k v b s' Ht Hm|s l t X q d k v x Ht Hx|s l t c d Ht Hd
    |s l th Ha|s l s' th Hsp|s l s' He]; cbn in *.
  - destruct (Hat _ _ Ht) as (o & F & Ho & (s0 & Hs0 & _ & Hth) & HF & Hins). rewrite HF in HI.
    destruct (Hth s F b s' Hs0 HI Hm) as (HG & o' & HI' & Hs'). split; [done|].
    exists (<[t := o']> os). split; [|by rewrite Hins].
    apply go_safe; [by eapply threads_later|]. intros ?. by exists s'.
  - destruct (Hat _ _ Ht) as (o & F & Ho & (s0 & Hs0 & _ & Hth) & HF & Hins). split; [done|].
    exists (<[t := o]> os). split; [|by rewrite Hins, <-HF].
    apply go_safe; [done|]. intros ?. exists s0. split; [done|by apply Hth].
  - destruct (Hat _ _ Ht) as (o & F & Ho & (s0 & Hs0 & Hth) & HF & Hins). rewrite HF in HI.
    assert (releases Inv G d o) as Hr.
    { destruct c; cbn in *; [done| |]; simplify_eq; by destruct Hth. }
    destruct (Hr s F HI) as [HG HI']. split; [done|].
    exists (<[t := ∅]> os). split; [|by rewrite Hins, no_tokens].
    apply go_safe; [by eapply threads_later|done].
  - split; [done|]. exists (os ++ [∅]). split.
    + apply Forall2_app; [done|]. constructor; [by apply sys_arrives|constructor].
    + rewrite total_app. by rewrite no_tokens.
  - destruct (sys_spawned _ _ _ _ Hsp HI) as (HG & o & HI' & Hth). split; [done|].
    exists (os ++ [o]). split; [|by rewrite total_app].
    apply Forall2_app; [by eapply threads_later|]. by repeat constructor.
  - destruct (sys_env _ _ _ He HI) as [HG HI']. split; [done|]. exists os.
    split; [by eapply threads_later|done].
Qed.
Theorem system_sound s0 w : Inv s0 ∅ → reachable s0 w → sound w.
Proof.
  intros Hinit. induction 1 as [|w w' _ IH Hs]; [exists []; by split; [constructor|]|].
  by eapply step_sound.
Qed.
(** In every state the invariant holds of the tokens of all threads. *)
Lemma system_inv s0 w : Inv s0 ∅ → reachable s0 w → ∃ O, Inv w.1 O.
Proof. intros Hinit Hr. destruct (system_sound s0 w Hinit Hr) as (os & _ & HI). eauto. Qed.
Lemma steps_guarantee w w' :
  sound w → rtc step w w' → G w.1 w'.1 ∧ sound w'.
Proof.
  intros Hw Hs. induction Hs as [w|w w1 w' Hs _ IH]; [done|].
  destruct (step_sound _ _ Hs Hw) as [HG Hw1]. destruct (IH Hw1). split; [by etrans|done].
Qed.

(** A thread that has returned keeps its result, and what it ended with. *)
Lemma returned_stays w w' t a d :
  step w w' → w.2 !! t = Some (mk_Thread (Some (Ret a)) d) → w'.2 !! t = Some (mk_Thread (Some (Ret a)) d).
Proof using.
  assert (∀ i th c l, l !! i = Some th → th_code th ≠ Some (Ret a) →
    l !! t = Some (mk_Thread (Some (Ret a)) d) → go i c l !! t = Some (mk_Thread (Some (Ret a)) d)) as Hgo.
  { intros i th c l Hi Hne Ht. unfold go. rewrite list_lookup_alter_ne; [done|]. intros ->. by simplify_eq. }
  intros Hs Ht. destruct Hs as [s l i B e m k v b s' Hi Hm|s l i X q e k v x Hi Hx|s l i c e Hi Hd
    |s l th Ha|s l s' th Hsp|s l s' He]; cbn in *; try done.
  - by eapply Hgo.
  - by eapply Hgo.
  - eapply Hgo; [done| |done]. intros [= ->]. done.
  - by apply lookup_app_l_Some.
  - by apply lookup_app_l_Some.
Qed.
Lemma returned_remains w w' t a d :
  rtc step w w' → w.2 !! t = Some (mk_Thread (Some (Ret a)) d) → w'.2 !! t = Some (mk_Thread (Some (Ret a)) d).
Proof using. induction 1 as [|w w1 w' Hs _ IH]; [done|]. intros Ht. by eapply IH, returned_stays. Qed.
Lemma returned_tokens w t a d :
  sound w → w.2 !! t = Some (mk_Thread (Some (Ret a)) d) → ∃ o F, Inv w.1 (o ⊎ F) ∧ Post w.1 a o.
Proof.
  intros (os & Hl & HI) Ht. destruct (Forall2_lookup_l _ _ _ _ _ Hl Ht) as (o & Ho & Hth).
  destruct (total_insert _ _ _ Ho) as (F & HF & _). rewrite HF in HI.
  destruct Hth as (s0 & Hs0 & HP). exists o, F. split; [done|by eapply sys_post].
Qed.
Lemma reachable_more s0 w w' : reachable s0 w → rtc step w w' → reachable s0 w'.
Proof using. intros Hr Hs. induction Hs as [|w w1 w' Hs _ IH]; [done|]. by eapply IH, Next. Qed.
End system.
Arguments Thread : clear implicits.
Arguments System {S A Q T _ _} Inv G honest Post arrives spawned env.

(** ** Running *)

(** A world that answers with a function, for examples. *)
Section running.
Context {S A : Type} {Q : Type → Type}.
Context (oracle : ∀ X, Q X → X).

(** The state and what is left after at most [n] steps. *)
Fixpoint run_code (n : nat) (c : Code S Q A) (s : S) : Code S Q A * S :=
  match n with
  | O => (c, s)
  | Datatypes.S n =>
      match c with
      | Ret a => (Ret a, s)
      | Act d m k => match m s with Some (b, s) => run_code n (k b) s | None => (c, s) end
      | Ask q d k => run_code n (k (oracle _ q)) s
      end
  end.
Context `{Countable T} (honest : ∀ X, Q X → X → Prop)
  (arrives : Thread S A Q → Prop) (spawned : S → option (S * Thread S A Q)) (env : relation S).
(** It is what the system does when only that thread runs. *)
Lemma run_code_steps n (c : Code S Q A) : ∀ s l t w c' s',
  (∀ X (q : Q X), honest X q (oracle X q)) →
  l !! t = Some (mk_Thread (Some c) w) → run_code n c s = (c', s') →
  rtc (step honest arrives spawned env) (s, l) (s', go t (Some c') l).
Proof.
  assert (∀ c s l t w, l !! t = Some (mk_Thread (Some c) w) →
    rtc (step honest arrives spawned env) (s, l) (s, go t (Some c) l)) as Hstay.
  { intros c0 s l t w Hl. replace (go t (Some c0) l) with l; [done|].
    unfold go. symmetry. apply list_eq. intros i.
    destruct (decide (i = t)) as [->|Hne]; [by rewrite list_lookup_alter_eq, Hl|by rewrite list_lookup_alter_ne]. }
  assert (∀ (c1 c2 : Code S Q A) t l, go t (Some c2) (go t (Some c1) l) = go t (Some c2) l) as Hgo.
  { intros c1 c2 t l. unfold go. apply list_eq. intros i. destruct (decide (i = t)) as [->|Hne].
    - rewrite !list_lookup_alter_eq. by destruct (l !! t).
    - by rewrite !list_lookup_alter_ne. }
  revert c. induction n as [|n IH]; intros c s l t w c' s' Ho Hl Hr; cbn in Hr.
  { simplify_eq. by eapply Hstay. }
  destruct c as [a|B d m k|X q d k].
  - simplify_eq. by eapply Hstay.
  - destruct (m s) as [[b s1]|] eqn:Hm; [|simplify_eq; by eapply Hstay].
    eapply rtc_l; [by eapply Acts|]. rewrite <-(Hgo (k b) c').
    eapply IH; [done| |done]. unfold go. by rewrite list_lookup_alter_eq, Hl.
  - eapply rtc_l; [by eapply Answered|]. rewrite <-(Hgo (k (oracle X q)) c').
    eapply IH; [done| |done]. unfold go. by rewrite list_lookup_alter_eq, Hl.
Qed.
End running.
