(* ===== verification/Resource.v ===== *)
(** * Resources of providers

    [core/src/resource.rs]: a request a provider has prepared, and the URL under which its
    answer is cached. URLs are [reqwest::Url]'s, an interface here; whether a resource is
    still valid, and what its client answers, is asked of the world ([Service.v]). *)
From S2P Require Import Prelude Text Policy.
From stdpp Require Import options.
#[local] Set Default Proof Using "Type*".

Open Scope Z_scope.

Inductive CacheMode := ByteRange | WholeObject | Document.
#[export] Instance CacheMode_eq_dec : EqDecision CacheMode.
Proof. solve_decision. Defined.

Class Urls (U : Type) := {
  url_parse : string → option U;
  url_str : U → string;
  url_scheme : U → string;
  url_username : U → string;
  url_password : U → option string;
  url_fragment : U → option string;
  url_path : U → string;
  url_query : U → option string;
  url_same_origin : U → U → bool;
  url_set_path : string → U → U;
  url_set_query : option string → U → U;
  url_eqb : U → U → bool;
  (** The fields of a query, decoded, and the query with further fields. *)
  url_query_pairs : U → list (string * string);
  url_extend_pairs : list (string * string) → U → U;
}.

(** Headers a prepared request never carries: the cache sets them itself. *)
Definition cache_headers : list string := ["range"; "if-range"; "if-none-match"; "if-modified-since"]%string.

Section resource.
Context {H V U : Type} `{!HttpHeaders H V, !Urls U}.

Record PreparedResource := mk_PreparedResource {
  pr_mode : CacheMode; pr_url : U; pr_headers : H; pr_transient_query : list string
}.

(** A request: its method, whether it has a body, its URL and headers. *)
Definition PreparedResource_new (is_get has_body : bool) (url : U) (headers : H)
    : result string PreparedResource :=
  ensure (is_get && negb has_body) "resource request must be a bodyless GET"%string ;;
  identity ← ok_or (hv_from_str "identity") "invalid header value"%string ;
  mret (mk_PreparedResource ByteRange url
    (remove_all cache_headers (hm_insert "accept-encoding" identity headers)) []).
Definition with_cache_mode (mode : CacheMode) (p : PreparedResource) : PreparedResource :=
  mk_PreparedResource mode (pr_url p) (pr_headers p) (pr_transient_query p).
Definition with_transient_query (names : list string) (p : PreparedResource)
    : result string PreparedResource :=
  ensure ((zlen names <=? 32) && forallb (λ name, negb (is_empty name) && (slen name <=? 128)) names)
    "invalid transient query fields"%string ;;
  mret (mk_PreparedResource (pr_mode p) (pr_url p) (pr_headers p) names).

(** The URL without the fields that change from request to request. *)
Definition lasting (p : PreparedResource) (pairs : list (string * string)) : list (string * string) :=
  filter (λ kv, existsb (str_eqb kv.1) (pr_transient_query p) = false) pairs.
Definition cache_url (p : PreparedResource) (url : U) : U :=
  if bool_decide (pr_transient_query p = []) || negb (url_same_origin url (pr_url p))
     || negb (str_eqb (url_path url) (url_path (pr_url p)))
  then url
  else match lasting p (url_query_pairs url) with
       | [] => url_set_query None url
       | pairs => url_extend_pairs pairs (url_set_query None url)
       end.
End resource.
Arguments PreparedResource H U : clear implicits.
