(* ===== verification/Playback.v ===== *)
(** * Playback sessions

    [backend/main/src/playback.rs] with the data of [core/src/provider/playback.rs]: a song a
    provider streams by itself is opened as a session, whose resources the application then
    fetches under [/playback/<session>/r/]. Requests, the periodic [collect], closings and
    heartbeats are threads of [Threads.v]; an [Arc<Session>] is a position in a heap, with the
    number of its references; providers are the names of their objects. *)
From Stdlib Require Import SpecFloat.
From S2P Require Import Prelude Text Threads Resource.
From stdpp Require Import options.
#[local] Set Default Proof Using "Type*".

Open Scope string_scope.
Open Scope Z_scope.
Open Scope list_scope.

Definition MAX_SESSIONS : Z := 16.
(** Milliseconds. *)
Definition IDLE : Z := 120 * 1000.
Definition REDIRECT_TTL : Z := 15 * 1000.

(** ** Data *)

Inductive PlaybackKind := ByteResource | HlsVod.
#[export] Instance PlaybackKind_eq_dec : EqDecision PlaybackKind.
Proof. solve_decision. Defined.
Record PlaybackRequest := mk_PlaybackRequest { pq_item_id : string; pq_max_bitrate : option Z }.
Record PreparedPlayback := mk_PreparedPlayback {
  pp_kind : PlaybackKind; pp_uri : string; pp_representation : string; pp_state : string;
  pp_duration_seconds : option spec_float
}.
(** The resource cache's answers, names of fresh sessions, the debug form of a header, and
    [serde_json] for scopes and bodies are not of this file. *)
Record Params := mk_Params { pm_max_bitrate : option Z; pm_uri : option string }.
Class PlaybackLib (R : Type) := {
  provider_id : Z → option Z;
  fresh_token : nat → string;
  show_header : option string → string;
  scope_json : string → string → Z → option string;
  body_params : list Z → option Params;
  is_success : R → bool;
  without_body : R → R;
}.

(** What a provider reports; [ProcessError]. *)
Inductive Error :=
| NotFound | NotAuth | Resource (message : string) | Internal
| Provider (e : string) | Db (e : string).

(** A resource of the provider, with the lifetime of a session. *)
Record Prepared := mk_Prepared { pr_resource : Z; pr_mode : CacheMode; pr_session : nat }.

Section playback.
Context {U R : Type} `{!Urls U, !PlaybackLib R}.

(** A session. A position of the heap always has one: [Internal] is never reported for it. *)
Record Session := mk_Session {
  se_token : string; se_provider : Z; se_epoch : Z; se_source : PreparedPlayback;
  se_cancelled : bool; se_touched : Z; se_origins : list U;
  se_prepared : gmap string Prepared; se_redirects : gmap string (Z * R);
  se_refs : nat
}.
(** Spawned tasks: the end of a session, and one sign of life. *)
Inductive Job := Closing | Beat.
Inductive Status := Waiting | Running | Ended.
Record Task := mk_Task { tk_job : Job; tk_session : nat; tk_status : Status }.

Definition is_waiting (k : Task) : bool := match tk_status k with Waiting => true | _ => false end.
Definition is_ended (k : Task) : bool := match tk_status k with Ended => true | _ => false end.

(** [PlaybackSessions] with the heap, the tasks of the runtime, the providers and the clock;
    [slots] is the semaphore. *)
Record State := mk_State {
  pb_sessions : gmap string nat;
  pb_heap : list Session;
  pb_closing : list (option Z * nat);
  pb_tasks : list Task;
  pb_stopping : bool;
  pb_slots : Z;
  pb_slots_closed : bool;
  pb_epochs : Z → Z;
  pb_registry : gmap Z Z;
  pb_now : Z
}.
Definition set_sessions (m : gmap string nat) (s : State) : State :=
  mk_State m (pb_heap s) (pb_closing s) (pb_tasks s) (pb_stopping s) (pb_slots s)
    (pb_slots_closed s) (pb_epochs s) (pb_registry s) (pb_now s).
Definition set_heap (l : list Session) (s : State) : State :=
  mk_State (pb_sessions s) l (pb_closing s) (pb_tasks s) (pb_stopping s) (pb_slots s)
    (pb_slots_closed s) (pb_epochs s) (pb_registry s) (pb_now s).
Definition set_closing (l : list (option Z * nat)) (s : State) : State :=
  mk_State (pb_sessions s) (pb_heap s) l (pb_tasks s) (pb_stopping s) (pb_slots s)
    (pb_slots_closed s) (pb_epochs s) (pb_registry s) (pb_now s).
Definition set_tasks (l : list Task) (s : State) : State :=
  mk_State (pb_sessions s) (pb_heap s) (pb_closing s) l (pb_stopping s) (pb_slots s)
    (pb_slots_closed s) (pb_epochs s) (pb_registry s) (pb_now s).
Definition stop (s : State) : State :=
  mk_State (pb_sessions s) (pb_heap s) (pb_closing s) (pb_tasks s) true (pb_slots s)
    true (pb_epochs s) (pb_registry s) (pb_now s).
Definition set_slots (n : Z) (s : State) : State :=
  mk_State (pb_sessions s) (pb_heap s) (pb_closing s) (pb_tasks s) (pb_stopping s) n
    (pb_slots_closed s) (pb_epochs s) (pb_registry s) (pb_now s).

Definition on_session (sid : nat) (f : Session → Session) (s : State) : State :=
  set_heap (alter f sid (pb_heap s)) s.
Definition with_refs (f : nat → nat) (x : Session) : Session :=
  mk_Session (se_token x) (se_provider x) (se_epoch x) (se_source x) (se_cancelled x)
    (se_touched x) (se_origins x) (se_prepared x) (se_redirects x) (f (se_refs x)).
Definition cancel (x : Session) : Session :=
  mk_Session (se_token x) (se_provider x) (se_epoch x) (se_source x) true
    (se_touched x) (se_origins x) (se_prepared x) (se_redirects x) (se_refs x).
Definition touch (now : Z) (x : Session) : Session :=
  mk_Session (se_token x) (se_provider x) (se_epoch x) (se_source x) (se_cancelled x)
    now (se_origins x) (se_prepared x) (se_redirects x) (se_refs x).
Definition with_origins (l : list U) (x : Session) : Session :=
  mk_Session (se_token x) (se_provider x) (se_epoch x) (se_source x) (se_cancelled x)
    (se_touched x) l (se_prepared x) (se_redirects x) (se_refs x).
Definition with_prepared (m : gmap string Prepared) (x : Session) : Session :=
  mk_Session (se_token x) (se_provider x) (se_epoch x) (se_source x) (se_cancelled x)
    (se_touched x) (se_origins x) m (se_redirects x) (se_refs x).
Definition with_redirects (m : gmap string (Z * R)) (x : Session) : Session :=
  mk_Session (se_token x) (se_provider x) (se_epoch x) (se_source x) (se_cancelled x)
    (se_touched x) (se_origins x) (se_prepared x) m (se_refs x).

(** [Arc::clone] and its end: the last reference gives the slot back. *)
Definition clone_ref (sid : nat) (s : State) : State := on_session sid (with_refs S) s.
Definition drop_ref (sid : nat) (s : State) : State :=
  let s := match pb_heap s !! sid with
           | Some x => if bool_decide (se_refs x = 1%nat) then set_slots (pb_slots s + 1) s else s
           | None => s
           end in
  on_session sid (with_refs pred) s.
Definition drop_refs (l : list nat) (s : State) : State := foldr drop_ref s l.
Definition release_slot (s : State) : State := set_slots (pb_slots s + 1) s.

(** ** What is asked of the world *)

Inductive Question : Type → Type :=
| ReadBody : Question (option (list Z))
| FindSong (id : Z) : Question (result Error (option (string * Z)))
| OpenPlayback (provider : Z) (r : PlaybackRequest) : Question (result string PreparedPlayback)
| PrepareResource (provider : Z) (state uri : string) : Question (result string (Z * CacheMode))
| KeepPlayback (provider : Z) (state : string) : Question unit
| ClosePlayback (provider : Z) (state : string) : Question bool
| Fetch (provider : Z) (scope : string) (p : Prepared) : Question (result Error R)
| FetchObject (provider : Z) (scope : string) (p : Prepared) : Question (result Error (R * U)).
Notation Code := (Code State Question).
Notation Fallible := (Fallible State Question Error).

Inductive Reply :=
| Opened (url : string) (session : option string) (time_seekable : bool)
    (duration_seconds : option spec_float)
| Empty
| Resolved (url : string)
| Redirect (location : string)
| Answer (r : R).

(** ** Sessions *)

Definition valid (s : State) (x : Session) : bool :=
  negb (se_cancelled x) && (se_epoch x =? pb_epochs s (se_provider x)).
Definition valid_at (sid : nat) (s : State) : bool := is_some_and (pb_heap s !! sid) (valid s).

(** A field of the session, read under its lock. *)
Definition look {A} (sid : nat) (f : Session → A) : Fallible A :=
  observe (λ s, match pb_heap s !! sid with Some x => Ok (f x) | None => Err Internal end).
Definition assure_valid (sid : nat) : Fallible unit :=
  observe (λ s, ensure (valid_at sid s) NotAuth).
Definition change (sid : nat) (f : Session → Session) : Fallible unit :=
  calmly (update (on_session sid f)).

Definition prepare (sid : nat) (uri : string) : Fallible Prepared :=
  assure_valid sid ;;
  known ← atomically (λ s,
    match pb_heap s !! sid with
    | Some x => (Ok (se_prepared x !! uri), on_session sid (with_prepared (delete uri (se_prepared x))) s)
    | None => (Err Internal, s)
    end) : Fallible _ ;
  match known with
  | Some resource => mret resource
  | None =>
      p ← look sid (λ x, (se_provider x, pp_state (se_source x))) ;
      resource ← code_bind (ask (PrepareResource p.1 p.2 uri)) (λ r, Ret (map_err Provider r)) ;
      mret (mk_Prepared resource.1 resource.2 sid)
  end.

Definition routable (uri : U) : bool :=
  (str_eqb (url_scheme uri) "http" || str_eqb (url_scheme uri) "https") &&
  is_empty (url_username uri) && bool_decide (url_password uri = None) &&
  bool_decide (url_fragment uri = None).
Definition position {A} (p : A → bool) (l : list A) : option nat := fst <$> list_find (λ x, p x = true) l.
Definition query_suffix (q : option string) : string :=
  match q with Some q => "?" +:+ q | None => "" end.
Definition route_prefix (token : string) (index : Z) : string :=
  "/playback/" +:+ token +:+ "/r/" +:+ show_u64 index.
Definition route (sid : nat) (uri : U) : Fallible string :=
  require (routable uri) NotFound ;;
  x ← atomically (λ s,
    match pb_heap s !! sid with
    | None => (Err Internal, s)
    | Some x =>
        match position (λ o, url_same_origin o uri) (se_origins x) with
        | Some i => (Ok (se_token x, i), s)
        | None =>
            if 8 <=? zlen (se_origins x) then (Err (Resource "playback origin limit"), s)
            else (Ok (se_token x, length (se_origins x)),
                  on_session sid (with_origins (se_origins x ++ [uri])) s)
        end
    end) : Fallible _ ;
  mret (route_prefix x.1 (Z.of_nat x.2) +:+ url_path uri +:+ query_suffix (url_query uri)).

(** Three attempts; the time limit of one is an answer [false]. *)
Fixpoint try_close (n : nat) (p : Z) (state : string) : Code unit :=
  match n with
  | O => mret tt
  | Datatypes.S n => b ← ask (ClosePlayback p state) ; if (b : bool) then mret tt else try_close n p state
  end.
Definition cleanup (sid : nat) : Code unit :=
  _ ← update (on_session sid (with_prepared ∅)) ;
  _ ← update (on_session sid (with_redirects ∅)) ;
  x ← observe (λ s, pb_heap s !! sid) ;
  match x with
  | Some x => try_close 3 (se_provider x) (pp_state (se_source x))
  | None => mret tt
  end.

(** ** [PlaybackSessions] *)

Definition ended (s : State) (t : nat) : bool :=
  is_some_and (pb_tasks s !! t) is_ended.
Definition spawn (j : Job) (sid : nat) (s : State) : State :=
  set_tasks (pb_tasks s ++ [mk_Task j sid Waiting]) s.
Definition schedule_close (sid : nat) (s : State) : State :=
  match pb_heap s !! sid with
  | None => s
  | Some x =>
      if se_cancelled x then drop_ref sid s
      else
        let t := length (pb_tasks s) in
        let live := filter (λ c : option Z * nat, ended s c.2 = false) (pb_closing s) in
        spawn Closing sid (set_closing (live ++ [(provider_id (se_provider x), t)])
          (on_session sid cancel s))
  end.
(** [sessions.remove(token)], and the session is closed. *)
Definition remove_session (token : string) (s : State) : State :=
  match pb_sessions s !! token with
  | Some sid => schedule_close sid (set_sessions (delete token (pb_sessions s)) s)
  | None => s
  end.

Definition get (token : string) : Fallible nat :=
  sid ← atomically (λ s,
    match pb_sessions s !! token with
    | None => (Err NotFound, s)
    | Some sid => if valid_at sid s then (Ok sid, clone_ref sid s) else (Err NotAuth, s)
    end) : Fallible _ ;
  Act (drop_ref sid) (λ s, Some (tt, on_session sid (touch (pb_now s)) s)) (λ _, Ret (Ok sid)).

Definition join (t : nat) : Code unit := when (λ s, if ended s t then Some (tt, s) else None).
Definition finish_closing (provider : option Z) : Code unit :=
  tasks ← atomically (λ s,
    let mine (c : option Z * nat) := bool_decide (provider = None) || bool_decide (c.1 = provider) in
    ((filter (λ c, mine c = true) (pb_closing s)).*2,
     set_closing (filter (λ c, mine c = false) (pb_closing s)) s)) ;
  each_code join tasks.

(** The heartbeats so far are dropped, and so aborted, with [collect]. *)
Definition collect_one (sid : nat) : Code (option nat) :=
  let remove := b ← Act (drop_ref sid) (λ s, Some (tt,
    drop_ref sid (match pb_heap s !! sid with
                  | Some x => remove_session (se_token x) s
                  | None => s end))) Ret ; mret None in
  ok ← Act (drop_ref sid) (λ s, Some (valid_at sid s, s)) Ret ;
  if negb ok then remove else
  idle ← Act (drop_ref sid) (λ s, Some (is_some_and (pb_heap s !! sid)
    (λ x, IDLE <? pb_now s - se_touched x), s)) Ret ;
  if (idle : bool) then remove else
  t ← Act (drop_ref sid) (λ s, Some (length (pb_tasks s), spawn Beat sid (on_session sid (λ x,
    with_redirects (filter (λ kr, pb_now s - kr.2.1 < REDIRECT_TTL) (se_redirects x)) x) s))) Ret ;
  mret (Some t).
Fixpoint collect_all (l : list nat) : Code (list nat) :=
  match l with
  | [] => mret []
  | sid :: l =>
      beat ← holding (drop_refs l) (collect_one sid) ;
      beats ← collect_all l ;
      mret (option_list beat ++ beats)
  end.
Definition collect : Code unit :=
  l ← atomically (λ s, let l := (map_to_list (pb_sessions s)).*2 in (l, foldr clone_ref s l)) ;
  beats ← collect_all l ;
  each_code join beats.

Definition remove_sessions (tokens : list string) (s : State) : State :=
  foldl (λ s token, remove_session token s) s tokens.
Definition tokens_of (provider : Z) (s : State) : list string :=
  (filter (λ kv : string * nat, is_some_and (pb_heap s !! kv.2)
     (λ x, bool_decide (provider_id (se_provider x) = Some provider)) = true)
     (map_to_list (pb_sessions s))).*1.
Definition invalidate (provider : Z) : Code unit :=
  _ ← update (λ s, remove_sessions (tokens_of provider s) s) ;
  finish_closing (Some provider).
Definition shutdown : Code unit :=
  _ ← update stop ;
  _ ← update (λ s, remove_sessions (map_to_list (pb_sessions s)).*1 s) ;
  finish_closing None.

(** ** [handle] *)

Inductive Method := Get | Head | Post | OtherMethod.
#[export] Instance Method_eq_dec : EqDecision Method.
Proof. solve_decision. Defined.
Record Request := mk_Request {
  rq_method : Method; rq_path : string; rq_query : option string; rq_range : option string
}.
Definition rq_uri (r : Request) : string := rq_path r +:+ query_suffix (rq_query r).

Definition body_json : Fallible Params :=
  bytes ← code_bind (ask ReadBody) (λ b, Ret (ok_or b (Resource "playback request limit"))) ;
  if bool_decide (bytes = []) then mret (mk_Params None None)
  else try_ (ok_or (body_params bytes) (Resource "invalid playback request")).

(** [value.map(u32::try_from).transpose()]. *)
Definition bitrate (v : option Z) : result Error (option Z) :=
  match v with
  | Some n => ensure (n <=? u32_max) NotFound ;; mret (Some n)
  | None => mret None
  end.

Definition show_i64 (n : Z) : string := if n <? 0 then "-" +:+ show_u64 (- n) else show_u64 n.
(** The new session, with the slot. *)
Definition new_session (provider epoch : Z) (source : PreparedPlayback) (s : State) : nat * State :=
  let sid := length (pb_heap s) in
  (sid, set_heap (pb_heap s ++ [mk_Session (fresh_token sid) provider epoch source false
                                  (pb_now s) [] ∅ ∅ 1]) s).
Definition register (sid : nat) : Fallible Reply :=
  assure_valid sid ;;
  source ← look sid se_source ;
  uri ← try_ (ok_or (url_parse (pp_uri source)) NotFound) ;
  prepared ← prepare sid (url_str uri) ;
  route ← route sid uri ;
  change sid (λ x, with_prepared (<[url_str uri := prepared]> (se_prepared x)) x) ;;
  atomically (λ s,
    match pb_heap s !! sid with
    | None => (Err Internal, s)
    | Some x =>
        if pb_stopping s then (Err NotFound, s)
        else if MAX_SESSIONS <=? Z.of_nat (size (pb_sessions s))
        then (Err (Resource "playback session limit"), s)
        else (Ok (Opened route (Some (se_token x)) (bool_decide (pp_kind source = HlsVod))
                    (pp_duration_seconds source)),
              clone_ref sid (set_sessions (<[se_token x := sid]> (pb_sessions s)) s))
    end).
Definition register_or_close (sid : nat) : Fallible Reply :=
  registered ← calmly (holding (drop_ref sid) (register sid)) ;
  Act (drop_ref sid) (λ s, Some (tt,
    if is_ok registered then drop_ref sid s else schedule_close sid s)) (λ _, Ret registered).
Definition open (method : Method) (id : string) : Fallible Reply :=
  require (bool_decide (method = Post)) NotFound ;;
  n ← try_ (ok_or (parse_i64 id) NotFound) ;
  params ← body_json ;
  max_bitrate ← try_ (bitrate (pm_max_bitrate params)) ;
  row ← ask (FindSong n) : Fallible _ ;
  item ← try_ (ok_or row NotFound) ;
  acquired ← atomically (λ s,
    match pb_registry s !! item.2 with
    | None => (Err NotFound, s)
    | Some p =>
        if pb_slots_closed s || (pb_slots s <=? 0)
        then (Err (Resource "playback session limit"), s)
        else (Ok (p, pb_epochs s p), set_slots (pb_slots s - 1) s)
    end) : Fallible _ ;
  opened ← calmly (holding release_slot
    (ask (OpenPlayback acquired.1 (mk_PlaybackRequest item.1 max_bitrate)))) ;
  match opened with
  | Err e => Act release_slot (λ s, Some (tt, release_slot s)) (λ _, Ret (Err (Provider e)))
  | Ok source =>
      match pp_kind source with
      | ByteResource => Act release_slot (λ s, Some (tt, release_slot s))
          (λ _, Ret (Ok (Opened ("/audio/Song/" +:+ show_i64 n) None false None)))
      | HlsVod =>
          sid ← calmly (Act release_slot (λ s, Some (new_session acquired.1 acquired.2 source s)) Ret) ;
          register_or_close sid
      end
  end.

Definition close (token : string) : Code unit := update (remove_session token).

Definition resolve (sid : nat) : Fallible Reply :=
  params ← body_json ;
  text ← try_ (ok_or (pm_uri params) NotFound) ;
  uri ← try_ (ok_or (url_parse text) NotFound) ;
  prepared ← prepare sid (url_str uri) ;
  route ← route sid uri ;
  change sid (λ x,
    let pending := if 16 <=? Z.of_nat (size (se_prepared x)) then ∅ else se_prepared x in
    with_prepared (<[url_str uri := prepared]> pending) x) ;;
  mret (Resolved route).

(** [HEAD] requests are answered without the body. *)
Definition answer (r : Request) (response : R) : Reply :=
  Answer (if bool_decide (rq_method r = Head) then without_body response else response).
Definition redirect_key (uri : string) (range : option string) : string :=
  uri +:+ ":" +:+ show_header range.

(** [parts.get(3)], and the URI it stands for. *)
Definition requested_uri (r : Request) (token index : string) (origins : list U) : result Error U :=
  index ← ok_or (parse_u64 index) NotFound ;
  uri ← ok_or (origins !! Z.to_nat index) NotFound ;
  path ← ok_or (strip_prefix (route_prefix token index) (rq_path r)) NotFound ;
  mret (url_set_query (rq_query r) (url_set_path path uri)).
Definition keep_redirect (sid : nat) (key : string) (response : R) : Fallible unit :=
  atomically (λ s,
    match pb_heap s !! sid with
    | None => (Err Internal, s)
    | Some x =>
        let pending := filter (λ kr, pb_now s - kr.2.1 < REDIRECT_TTL) (se_redirects x) in
        if 4 <=? Z.of_nat (size pending)
        then (Err (Resource "playback redirect limit"), on_session sid (with_redirects pending) s)
        else (Ok tt, on_session sid (with_redirects (<[key := (pb_now s, response)]> pending)) s)
    end).
Definition fetch (sid : nat) (uri : U) (prepared : Prepared) : Fallible (R * U) :=
  x ← look sid (λ x, x) ;
  scope ← try_ (ok_or (scope_json (se_token x) (pp_representation (se_source x)) (se_epoch x)) Internal) ;
  id ← try_ (ok_or (provider_id (se_provider x)) NotFound) ;
  if bool_decide (pr_mode prepared = ByteRange)
  then response ← ask (Fetch id scope prepared) : Fallible _ ; mret (response, uri)
  else ask (FetchObject id scope prepared).
Definition serve (sid : nat) (r : Request) (token index : string) : Fallible Reply :=
  origins ← look sid se_origins ;
  uri ← try_ (requested_uri r token index origins) ;
  pending ← atomically (λ s,
    match pb_heap s !! sid with
    | None => (Err Internal, s)
    | Some x =>
        let key := redirect_key (rq_uri r) (rq_range r) in
        (Ok (option_map snd (se_redirects x !! key)), on_session sid (with_redirects (delete key (se_redirects x))) s)
    end) : Fallible (option R) ;
  match pending with
  | Some response => mret (answer r response)
  | None =>
      prepared ← prepare sid (url_str uri) ;
      fetched ← fetch sid uri prepared ;
      assure_valid sid ;;
      if negb (url_eqb fetched.2 uri) && is_success fetched.1
      then
        prepare sid (url_str fetched.2) ;;
        route ← route sid fetched.2 ;
        keep_redirect sid (redirect_key route (rq_range r)) fetched.1 ;;
        mret (Redirect route)
      else mret (answer r fetched.1)
  end.

Definition is_post (r : Request) : bool := bool_decide (rq_method r = Post).
Definition in_session (sid : nat) (r : Request) (token : string) (parts : list string) : Fallible Reply :=
  if bool_decide (parts !! 2%nat = Some "touch") && is_post r then mret Empty
  else if bool_decide (parts !! 2%nat = Some "resolve") && is_post r then resolve sid
  else if negb (bool_decide (parts !! 2%nat = Some "r")) || (zlen parts <? 5)
          || negb (bool_decide (rq_method r = Get) || bool_decide (rq_method r = Head))
  then throw NotFound
  else
    index ← try_ (ok_or (parts !! 3%nat) NotFound) ;
    serve sid r token index.
(** [["playback", "source", "Song", id]]. *)
Definition song_source (parts : list string) : option string :=
  match parts with
  | [a; b; c; id] =>
      if str_eqb a "playback" && str_eqb b "source" && str_eqb c "Song" then Some id else None
  | _ => None
  end.
Definition path_parts (path : string) : list string := drop 1 (split_char (chr 47) path).
Definition handle (r : Request) : Fallible Reply :=
  let parts := path_parts (rq_path r) in
  match song_source parts with
  | Some id => open (rq_method r) id
  | None =>
      token ← try_ (ok_or (parts !! 1%nat) NotFound) ;
      if bool_decide (parts !! 2%nat = Some "close") && is_post r
      then calmly (close token) ;; mret Empty
      else
        sid ← get token ;
        scoped (drop_ref sid) (in_session sid r token parts)
  end.

(** ** The threads of the program *)

Definition set_status (st : Status) (k : Task) : Task := mk_Task (tk_job k) (tk_session k) st.
Definition end_task (t sid : nat) (s : State) : State :=
  set_tasks (alter (set_status Ended) t (pb_tasks s)) (drop_ref sid s).
(** The session that a task holds goes with it. Dropping the set of heartbeats aborts them. *)
Definition keep_alive (sid : nat) : Code unit :=
  x ← observe (λ s, pb_heap s !! sid) ;
  match x with
  | Some x => ask (KeepPlayback (se_provider x) (pp_state (se_source x)))
  | None => mret tt
  end.
Definition task_code (t : nat) (k : Task) : Code unit :=
  scoped (end_task t (tk_session k))
    (match tk_job k with
     | Closing => cleanup (tk_session k)
     | Beat => keep_alive (tk_session k)
     end).
Inductive Outcome :=
| Replied (r : result Error Reply)
| Collected | Invalidated (provider : Z) | ShutDown | TaskDone.
Definition ending (c : Code unit) (o : Outcome) : Code Outcome := _ ← c ; mret o.
Definition start (s : State) : option (State * Thread State Outcome Question) :=
  tk ← list_find (λ k, is_waiting k = true) (pb_tasks s) ;
  Some (set_tasks (alter (set_status Running) tk.1 (pb_tasks s)) s,
        mk_Thread (Some (ending (task_code tk.1 tk.2) TaskDone))
          (match tk_job tk.2 with Beat => true | Closing => false end)).
(** A request ends early when its connection does, [collect] is aborted when the client goes;
    the shutdown is run to its end. *)
Inductive arrives : Thread State Outcome Question → Prop :=
| A_handle r : arrives (mk_Thread (Some (o ← handle r ; mret (Replied o))) true)
| A_collect : arrives (mk_Thread (Some (ending collect Collected)) true)
| A_invalidate p : arrives (mk_Thread (Some (ending (invalidate p) (Invalidated p))) true)
| A_shutdown : arrives (mk_Thread (Some (ending shutdown ShutDown)) false).
(** The providers and the clock. *)
Inductive env : State → State → Prop :=
| E_world s epochs registry now :
    pb_now s ≤ now →
    env s (mk_State (pb_sessions s) (pb_heap s) (pb_closing s) (pb_tasks s) (pb_stopping s)
             (pb_slots s) (pb_slots_closed s) epochs registry now).
Definition initial (epochs : Z → Z) (registry : gmap Z Z) (now : Z) : State :=
  mk_State ∅ [] [] [] false MAX_SESSIONS false epochs registry now.
End playback.
Arguments Session U R : clear implicits.
Arguments State U R : clear implicits.
Arguments Question U R : clear implicits.
Arguments Reply R : clear implicits.
Arguments Outcome R : clear implicits.
