(* ===== verification/Slots.v ===== *)
(** * Playback sessions: the invariant

    What the threads of [Playback.v] own, as tokens: slots, references, a session that nobody
    else knows yet (with or without a resource stored), and the tasks they run. The invariant says what the
    tokens of all threads mean for the state; each lemma is one change of the state with the
    tokens it takes and gives. *)
From stdpp Require Import gmultiset.
From S2P Require Import Prelude Text Threads Resource Playback.
From stdpp Require Import options.
#[local] Set Default Proof Using "Type*".

Open Scope Z_scope.
Open Scope list_scope.

(** ** Counting *)

Definition count {A} (p : A → bool) (l : list A) : nat := length (filter (λ x, p x = true) l).
#[global] Arguments count : simpl never.
Section count.
Context {A : Type}.
Implicit Types (p : A → bool) (l : list A).
Lemma count_item p x l : count p (x :: l) = (Nat.b2n (p x) + count p l)%nat.
Proof. unfold count. rewrite filter_cons. by destruct (p x). Qed.
Lemma count_app p l l' : count p (l ++ l') = (count p l + count p l')%nat.
Proof. unfold count. by rewrite filter_app, length_app. Qed.
Lemma count_snoc p l x : count p (l ++ [x]) = (count p l + Nat.b2n (p x))%nat.
Proof. rewrite count_app, count_item. change (count p []) with 0%nat. lia. Qed.
Lemma count_insert p l i x y :
  l !! i = Some x → (count p (<[i := y]> l) + Nat.b2n (p x) = count p l + Nat.b2n (p y))%nat.
Proof.
  revert i. induction l as [|z l IH]; intros [|i] Hi; try done.
  - injection Hi as ->. change (<[0%nat:=y]> (x :: l)) with (y :: l). rewrite !count_item. lia.
  - change (<[S i:=y]> (z :: l)) with (z :: <[i:=y]> l); rewrite !count_item.
    specialize (IH i Hi). lia.
Qed.
Lemma count_ext p q l : (∀ x, x ∈ l → p x = q x) → count p l = count q l.
Proof.
  induction l as [|x l IH]; intros Hpq; [done|]. rewrite !count_item, IH, (Hpq x); [done|left|].
  intros y Hy. apply Hpq. by right.
Qed.
Lemma count_zero p l : count p l = 0%nat ↔ ∀ x, x ∈ l → p x = false.
Proof.
  induction l as [|x l IH]; [split; [by intros _ x ?%not_elem_of_nil|done]|].
  rewrite count_item. setoid_rewrite elem_of_cons. destruct (p x) eqn:Hx; cbn.
  - split; [done|]. intros Hn. rewrite Hn in Hx; [done|by left].
  - rewrite IH. naive_solver.
Qed.
End count.
Lemma alter_insert {A} (f : A → A) i (l : list A) x :
  l !! i = Some x → alter f i l = <[i := f x]> l.
Proof.
  intros Hi. apply list_eq. intros j. destruct (decide (j = i)) as [->|Hne].
  - rewrite list_lookup_alter_eq, list_lookup_insert_eq, Hi; [done|by eapply lookup_lt_Some].
  - by rewrite list_lookup_alter_ne, list_lookup_insert_ne.
Qed.

(** ** Tokens *)

Inductive Token :=
| Slot
| Ref (sid : nat)
| Own (sid : nat) (stored : bool)
| Runs (t : nat)
| Stopped (emptied : bool).
#[export] Instance Token_eq_dec : EqDecision Token.
Proof. solve_decision. Defined.
#[export] Instance Token_countable : Countable Token.
Proof.
  refine (inj_countable'
    (λ k, match k with
          | Slot => (0%nat, 0%nat, false) | Ref i => (1%nat, i, false) | Own i b => (2%nat, i, b)
          | Runs t => (4%nat, t, false) | Stopped b => (5%nat, 0%nat, b)
          end)
    (λ k, match k with
          | (0, _, _) => Slot | (1, i, _) => Ref i | (2, i, b) => Own i b
          | (4, t, _) => Runs t | (_, _, b) => Stopped b
          end)%nat _).
  by intros [].
Defined.
Notation tokens := (gmultiset Token).

#[global] Arguments multiplicity : simpl never.
#[global] Arguments disj_union : simpl never.
#[global] Arguments singletonMS : simpl never.

Section invariant.
Context {U R : Type} `{!Urls U, !PlaybackLib R}.
Notation State := (State U R).
Notation Session := (Session U R).
Implicit Types (s : State) (x : Session) (O F : tokens).

Notation mult := multiplicity.
Definition listed (s : State) (x : Session) (sid : nat) : bool :=
  bool_decide (pb_sessions s !! se_token x = Some sid).
Definition waiting_for (sid : nat) (k : Task) : bool := is_waiting k && (tk_session k =? sid)%nat.
Definition closes (sid : nat) (k : Task) : bool :=
  match tk_job k with Closing => (tk_session k =? sid)%nat | Beat => false end.
Definition in_use (x : Session) : bool := (0 <? se_refs x)%nat.

Lemma in_use_pos x : (0 < se_refs x)%nat → in_use x = true.
Proof. intros. by apply Nat.ltb_lt. Qed.
Lemma in_use_zero x : se_refs x = 0%nat → in_use x = false.
Proof. unfold in_use. by intros ->. Qed.

Definition origins_ok (x : Session) : Prop :=
  (length (se_origins x) ≤ 8)%nat ∧ Forall (λ o, routable o = true) (se_origins x).
(** What is true of the session at a position of the heap. *)
Record session_ok (s : State) (O : tokens) (sid : nat) (x : Session) : Prop := {
  so_refs : se_refs x = (mult (Ref sid) O + (mult (Own sid false) O + mult (Own sid true) O) +
    Nat.b2n (listed s x sid) + count (waiting_for sid) (pb_tasks s))%nat;
  so_token : se_token x = fresh_token sid;
  so_closes : count (closes sid) (pb_tasks s) = Nat.b2n (se_cancelled x);
  so_owned : se_cancelled x = false →
    listed s x sid = true ∨ (∃ b, Own sid b ∈ O) ∨ se_refs x = 0%nat;
  so_own b : Own sid b ∈ O → se_refs x = 1%nat ∧ se_cancelled x = false ∧
    (size (se_prepared x) ≤ Nat.b2n b)%nat;
  so_bounds : origins_ok x ∧ (size (se_prepared x) ≤ 16)%nat ∧
    (size (se_redirects x) ≤ 4)%nat;
}.
Definition live (s : State) : nat := count in_use (pb_heap s).
Record Inv (s : State) (O : tokens) : Prop := {
  i_slots : 0 ≤ pb_slots s ∧ pb_slots s + Z.of_nat (mult Slot O) + Z.of_nat (live s) = MAX_SESSIONS;
  i_session sid x : pb_heap s !! sid = Some x → session_ok s O sid x;
  i_dangling sid b : pb_heap s !! sid = None → Ref sid ∉ O ∧ Own sid b ∉ O;
  i_listed token sid : pb_sessions s !! token = Some sid →
    ∃ x, pb_heap s !! sid = Some x ∧ se_token x = token ∧ se_cancelled x = false;
  i_task t k : pb_tasks s !! t = Some k → (tk_session k < length (pb_heap s))%nat;
  i_runs t : Runs t ∈ O → ∃ k, pb_tasks s !! t = Some k ∧ tk_status k = Running;
  i_alone t : (mult (Runs t) O ≤ 1)%nat;
  i_stopped e : Stopped e ∈ O → pb_stopping s = true ∧ (e = true → pb_sessions s = ∅);
}.

(** What every step does. *)
Record advances (s s' : State) : Prop := {
  ad_heap sid x : pb_heap s !! sid = Some x → ∃ x', pb_heap s' !! sid = Some x' ∧
    se_token x' = se_token x ∧ se_provider x' = se_provider x ∧
    se_origins x `prefix_of` se_origins x' ∧
    (se_cancelled x = true → se_cancelled x' = true);
  ad_stopping : pb_stopping s = true → pb_stopping s' = true ∧ pb_sessions s' ⊆ pb_sessions s;
  ad_task t k : pb_tasks s !! t = Some k → ∃ k', pb_tasks s' !! t = Some k' ∧
    tk_job k' = tk_job k ∧ tk_session k' = tk_session k ∧
    (tk_status k = Ended → tk_status k' = Ended);
}.
#[export] Instance advances_preorder : PreOrder advances.
Proof.
  split.
  - intros s. split; [intros; by eexists|done|eauto].
  - intros s1 s2 s3 [H1 S1 T1] [H2 S2 T2]. split.
    + intros sid x Hx. destruct (H1 _ _ Hx) as (x2 & Hx2 & ? & ? & ? & ?).
      destruct (H2 _ _ Hx2) as (x3 & ? & ? & ? & ? & ?).
      exists x3. split_and!; [done|congruence|congruence|by etrans|auto].
    + intros Hs. destruct (S1 Hs) as [Hs2 ?]. destruct (S2 Hs2). split; [done|by etrans].
    + intros t k Hk. destruct (T1 _ _ Hk) as (k2 & Hk2 & ? & ? & ?).
      destruct (T2 _ _ Hk2) as (k3 & ? & ? & ? & ?). exists k3. split_and!; eauto; congruence.
Qed.

(** ** Tokens of one session *)

Lemma mult_union k O F : mult k (O ⊎ F) = (mult k O + mult k F)%nat.
Proof. apply multiplicity_disj_union. Qed.
Lemma mult_one k k' : mult k ({[+ k' +]} : tokens) = if decide (k = k') then 1%nat else 0%nat.
Proof. apply multiplicity_singleton. Qed.
Lemma mult_in k O : k ∈ O ↔ (0 < mult k O)%nat.
Proof. apply elem_of_multiplicity. Qed.

Definition about (k : Token) : option nat :=
  match k with Ref i | Own i _ => Some i | Slot | Runs _ | Stopped _ => None end.
Definition same_about (i : nat) (O O' : tokens) : Prop :=
  ∀ k, about k = Some i → mult k O' = mult k O.
Lemma same_about_elem i O O' k : same_about i O O' → about k = Some i → k ∈ O' ↔ k ∈ O.
Proof. intros Hs Hk. by rewrite !elem_of_multiplicity, Hs. Qed.
Lemma session_ok_frame s s' O O' i x :
  session_ok s O i x → same_about i O O' → listed s' x i = listed s x i →
  count (waiting_for i) (pb_tasks s') = count (waiting_for i) (pb_tasks s) →
  count (closes i) (pb_tasks s') = count (closes i) (pb_tasks s) →
  session_ok s' O' i x.
Proof.
  intros [] HO Hl Hw Hc.
  assert (∀ k, about k = Some i → k ∈ O' ↔ k ∈ O) as He by (intros; by eapply same_about_elem).
  split; try done.
  - by rewrite Hl, Hw, (HO (Ref i)), !HO.
  - by rewrite Hc.
  - setoid_rewrite He; [|done]. by rewrite Hl.
  - intros b Hb. apply He in Hb; [|done]. auto.
Qed.

(** A step that changes the session [sid] only. *)
Lemma inv_at s s' O O' sid x x' :
  Inv s O → pb_heap s !! sid = Some x → pb_heap s' = <[sid := x']> (pb_heap s) →
  (∀ i, i ≠ sid → same_about i O O') →
  (∀ i y, i ≠ sid → pb_heap s !! i = Some y → listed s' y i = listed s y i ∧
     count (waiting_for i) (pb_tasks s') = count (waiting_for i) (pb_tasks s) ∧
     count (closes i) (pb_tasks s') = count (closes i) (pb_tasks s)) →
  session_ok s' O' sid x' →
  (0 ≤ pb_slots s' ∧ pb_slots s' + Z.of_nat (mult Slot O') + Z.of_nat (Nat.b2n (in_use x')) =
     pb_slots s + Z.of_nat (mult Slot O) + Z.of_nat (Nat.b2n (in_use x))) →
  (∀ token i, pb_sessions s' !! token = Some i →
     pb_sessions s !! token = Some i ∧ (i = sid → se_cancelled x' = se_cancelled x ∧ se_token x' = se_token x) ∨
     i = sid ∧ se_token x' = token ∧ se_cancelled x' = false) →
  (∀ t k, pb_tasks s' !! t = Some k → tk_session k = sid ∨
     ∃ k0, pb_tasks s !! t = Some k0 ∧ tk_session k = tk_session k0) →
  (∀ t, mult (Runs t) O' = mult (Runs t) O) →
  (∀ t k, pb_tasks s !! t = Some k → tk_status k = Running →
     ∃ k', pb_tasks s' !! t = Some k' ∧ tk_status k' = Running) →
  (∀ e, Stopped e ∈ O' → pb_stopping s' = true ∧ (e = true → pb_sessions s' = ∅)) →
  Inv s' O'.
Proof.
  intros HI Hx Hheap Habout Hsame Hok Hslots Hlisted Htask Hruns Hrun Hstop.
  assert (sid < length (pb_heap s))%nat as Hlt by by eapply lookup_lt_Some.
  split; rewrite ?Hheap.
  - destruct (i_slots _ _ HI) as [_ Hs]. unfold live in *. rewrite Hheap.
    pose proof (count_insert in_use _ _ _ x' Hx). lia.
  - intros i y Hy. destruct (decide (i = sid)) as [->|Hne].
    + rewrite list_lookup_insert_eq in Hy by done. by simplify_eq.
    + rewrite list_lookup_insert_ne in Hy by done. destruct (Hsame i y Hne Hy) as (? & ? & ?).
      eapply session_ok_frame; [by eapply i_session|by apply Habout|done..].
  - intros i b Hi. assert (i ≠ sid) as Hne.
    { intros ->. by rewrite list_lookup_insert_eq in Hi. }
    rewrite list_lookup_insert_ne in Hi by done. destruct (i_dangling _ _ HI i b Hi) as (? & ?).
    split; by rewrite (same_about_elem i O O') by auto.
  - intros token i Hi. destruct (Hlisted token i Hi) as [[Hi0 Hsid]|(-> & ? & ?)].
    + destruct (i_listed _ _ HI _ _ Hi0) as (y & Hy & Ht & Hc). destruct (decide (i = sid)) as [->|Hne].
      * exists x'. rewrite list_lookup_insert_eq by done. simplify_eq. destruct (Hsid eq_refl). split_and!; congruence.
      * exists y. by rewrite list_lookup_insert_ne.
    + exists x'. by rewrite list_lookup_insert_eq.
  - intros t k Hk. rewrite length_insert. destruct (Htask t k Hk) as [->|(k0 & Hk0 & ->)]; [done|].
    by eapply i_task.
  - intros t Ht. rewrite mult_in, Hruns, <-mult_in in Ht. destruct (i_runs _ _ HI t Ht) as (k & Hk & ?). eauto.
  - intros t. rewrite Hruns. apply HI.
  - done.
Qed.

(** ** The changes *)

Ltac mults := rewrite ?mult_union, ?mult_one, ?multiplicity_empty in *; repeat case_decide; simplify_eq/=.
(** Tokens that are not about the other sessions. *)
Ltac foreign := intros ? ? [] ?; simplify_eq/=; mults; done.

Lemma on_session_at sid f s x :
  pb_heap s !! sid = Some x → on_session sid f s = set_heap (<[sid := f x]> (pb_heap s)) s.
Proof. intros Hx. unfold on_session. by rewrite (alter_insert _ _ _ x). Qed.

(** A change inside a session. *)
Definition inside (x x' : Session) : Prop :=
  se_refs x' = se_refs x ∧ se_token x' = se_token x ∧ se_cancelled x' = se_cancelled x ∧
  se_provider x' = se_provider x ∧ se_origins x `prefix_of` se_origins x'.
Lemma advances_inside s sid x x' :
  pb_heap s !! sid = Some x → inside x x' → advances s (set_heap (<[sid := x']> (pb_heap s)) s).
Proof.
  intros Hx (_ & Ht & Hc & Hp & Hpre). split; [|done|eauto]. intros i y Hy. cbn.
  destruct (decide (i = sid)) as [->|Hne].
  - simplify_eq. exists x'. rewrite list_lookup_insert_eq by by eapply lookup_lt_Some.
    split_and!; [done..|]. by rewrite Hc.
  - exists y. by rewrite list_lookup_insert_ne.
Qed.
Lemma inv_inside s O O' F sid x x' :
  Inv s (O ⊎ F) → pb_heap s !! sid = Some x → inside x x' →
  (origins_ok x → origins_ok x') →
  ((size (se_prepared x) ≤ 16)%nat → (size (se_prepared x') ≤ 16)%nat) →
  ((size (se_redirects x) ≤ 4)%nat → (size (se_redirects x') ≤ 4)%nat) →
  (∀ b, Own sid b ∈ O' ⊎ F → ∃ b', Own sid b' ∈ O ⊎ F ∧
    (se_refs x = 1%nat → (size (se_prepared x) ≤ Nat.b2n b' → size (se_prepared x') ≤ Nat.b2n b))%nat) →
  ((∃ b, Own sid b ∈ O ⊎ F) → ∃ b, Own sid b ∈ O' ⊎ F) →
  (∀ k, (∀ b, k ≠ Own sid b) → mult k O' = mult k O) →
  (mult (Own sid false) O' + mult (Own sid true) O' = mult (Own sid false) O + mult (Own sid true) O)%nat →
  Inv (set_heap (<[sid := x']> (pb_heap s)) s) (O' ⊎ F).
Proof.
  intros HI Hx (Hr & Ht & Hc & Hp & _) Ho Hpr Hre Hnew Hold Hmult Hsum.
  assert (∀ k, (∀ b, k ≠ Own sid b) → mult k (O' ⊎ F) = mult k (O ⊎ F)) as Hm.
  { intros k Hk. by rewrite !mult_union, Hmult. }
  assert (∀ k, (∀ b, k ≠ Own sid b) → k ∈ O' ⊎ F ↔ k ∈ O ⊎ F) as He.
  { intros k Hk. by rewrite !mult_in, Hm. }
  pose proof (i_session _ _ HI _ _ Hx) as [].
  eapply inv_at; try done.
  - intros i Hne k Ha. apply Hm. intros b ->. by injection Ha.
  - split; rewrite ?Hr, ?Hc, ?Ht; try done; unfold listed in *; rewrite ?Ht; cbn.
    + rewrite so_refs0, !mult_union, (Hmult (Ref sid)) by done. lia.
    + naive_solver.
    + intros b Hb. destruct (Hnew b Hb) as (b' & Hb' & Hsz). destruct (so_own0 _ Hb') as (? & ? & ?).
      split_and!; [done..|auto].
    + naive_solver.
  - cbn. rewrite Hm by done. unfold in_use. rewrite Hr. split; [apply HI|done].
  - cbn. intros token i Hi. left. split; [done|]. by intros ->.
  - cbn. eauto.
  - intros t. by apply Hm.
  - cbn. eauto.
  - cbn. intros e Hs. apply He in Hs; [|done]. by eapply i_stopped.
Qed.
(** ... that does not store a resource. *)
Lemma inv_change s O sid f :
  Inv s O → (∀ x, pb_heap s !! sid = Some x → inside x (f x) ∧
    (origins_ok x → origins_ok (f x)) ∧
    (size (se_prepared (f x)) ≤ size (se_prepared x))%nat ∧
    ((size (se_redirects x) ≤ 4)%nat → (size (se_redirects (f x)) ≤ 4)%nat)) →
  advances s (on_session sid f s) ∧ Inv (on_session sid f s) O.
Proof.
  intros HI Hf. destruct (pb_heap s !! sid) as [x|] eqn:Hx.
  - destruct (Hf x eq_refl) as (Hin & Ho & Hp & Hr). rewrite (on_session_at _ _ _ x) by done.
    split; [by eapply advances_inside|]. rewrite <-(no_tokens O) in HI |- *.
    eapply inv_inside; try done; [lia|].
    intros b Hb. exists b. split; [done|]. lia.
  - assert (on_session sid f s = s) as ->; [|done]. unfold on_session, set_heap.
    replace (alter f sid (pb_heap s)) with (pb_heap s); [by destruct s|].
    apply list_eq. intros i. destruct (decide (i = sid)) as [->|Hne].
    + by rewrite list_lookup_alter_eq, Hx.
    + by rewrite list_lookup_alter_ne.
Qed.

(** The session of a reference. *)
Lemma ref_session s O sid : Inv s O → Ref sid ∈ O → ∃ x, pb_heap s !! sid = Some x.
Proof.
  intros HI Hr. destruct (pb_heap s !! sid) as [x|] eqn:Hx; [eauto|].
  by destruct (i_dangling _ _ HI sid false Hx).
Qed.
Lemma ref_positive s O sid x :
  Inv s O → pb_heap s !! sid = Some x → Ref sid ∈ O → (0 < se_refs x)%nat.
Proof.
  intros HI Hx Hr. rewrite (so_refs _ _ _ _ (i_session _ _ HI _ _ Hx)). rewrite mult_in in Hr. lia.
Qed.

(** What is known of a session of which tokens are held. *)
Lemma in_union k O F : k ∈ O ⊎ F ↔ k ∈ O ∨ k ∈ F.
Proof. apply gmultiset_elem_of_disj_union. Qed.
Lemma in_one k k' : k ∈ ({[+ k' +]} : tokens) ↔ k = k'.
Proof. apply gmultiset_elem_of_singleton. Qed.
Lemma own_alone s F sid b :
  Inv s ({[+ Own sid b +]} ⊎ F) → Ref sid ∉ F ∧ (∀ b, Own sid b ∉ F) ∧
  ∃ x, pb_heap s !! sid = Some x ∧ se_refs x = 1%nat ∧ se_cancelled x = false ∧
    (size (se_prepared x) ≤ Nat.b2n b)%nat ∧ listed s x sid = false ∧
    count (waiting_for sid) (pb_tasks s) = 0%nat.
Proof.
  intros HI. assert (Own sid b ∈ {[+ Own sid b +]} ⊎ F) as Hin by (apply in_union; left; by apply in_one).
  destruct (pb_heap s !! sid) as [x|] eqn:Hx; [|by destruct (i_dangling _ _ HI sid b Hx)].
  destruct (i_session _ _ HI _ _ Hx) as []. destruct (so_own0 b Hin) as (Hr & Hc & Hsz).
  rewrite Hr in so_refs0.
  assert (mult (Ref sid) F = 0 ∧ mult (Own sid false) F = 0 ∧ mult (Own sid true) F = 0 ∧
    Nat.b2n (listed s x sid) = 0 ∧ count (waiting_for sid) (pb_tasks s) = 0)%nat as (? & ? & ? & Hl & ?)
    by (destruct b; mults; lia).
  split_and!.
  - rewrite mult_in. lia.
  - intros []; rewrite mult_in; lia.
  - exists x. split_and!; try done. by destruct (listed s x sid).
Qed.
Lemma ref_shared s F sid :
  Inv s ({[+ Ref sid +]} ⊎ F) → (∀ b, Own sid b ∉ F) ∧
  ∃ x, pb_heap s !! sid = Some x ∧ (0 < se_refs x)%nat.
Proof.
  intros HI. assert (Ref sid ∈ {[+ Ref sid +]} ⊎ F) as Hin by (apply in_union; left; by apply in_one).
  destruct (ref_session _ _ _ HI Hin) as [x Hx]. pose proof (ref_positive _ _ _ _ HI Hx Hin).
  split; [|eauto]. intros b Hb. destruct (i_session _ _ HI _ _ Hx) as [].
  destruct (so_own0 b) as (Hr & _); [by apply in_union; right|].
  rewrite Hr in so_refs0. rewrite mult_in in Hb. destruct b; mults; lia.
Qed.
Lemma listed_shared s F token sid :
  Inv s F → pb_sessions s !! token = Some sid → (∀ b, Own sid b ∉ F) ∧
  ∃ x, pb_heap s !! sid = Some x ∧ (0 < se_refs x)%nat ∧ se_token x = token ∧
    se_cancelled x = false ∧ listed s x sid = true.
Proof.
  intros HI Hl. destruct (i_listed _ _ HI _ _ Hl) as (x & Hx & Ht & Hc).
  destruct (i_session _ _ HI _ _ Hx) as [].
  assert (listed s x sid = true) as Hli by (apply bool_decide_eq_true; by rewrite Ht).
  rewrite Hli in so_refs0. cbn in so_refs0. split.
  - intros b Hb. destruct (so_own0 b Hb) as (Hr & _). rewrite mult_in in Hb. destruct b; lia.
  - exists x. split_and!; try done. lia.
Qed.

(** Only the number of references of [sid] changes, and the slots. *)
Lemma advances_refs s sid x n f :
  pb_heap s !! sid = Some x →
  advances s (set_slots n (set_heap (<[sid := with_refs f x]> (pb_heap s)) s)).
Proof.
  intros Hx. split; [|done|eauto]. intros i y Hy. cbn. destruct (decide (i = sid)) as [->|Hne].
  - simplify_eq. exists (with_refs f x). by rewrite list_lookup_insert_eq by by eapply lookup_lt_Some.
  - exists y. by rewrite list_lookup_insert_ne.
Qed.
Lemma set_slots_same s : set_slots (pb_slots s) s = s.
Proof. by destruct s. Qed.
Lemma inv_clone s F sid x :
  Inv s F → pb_heap s !! sid = Some x → (∀ b, Own sid b ∉ F) → (0 < se_refs x)%nat →
  advances s (clone_ref sid s) ∧ Inv (clone_ref sid s) ({[+ Ref sid +]} ⊎ F).
Proof.
  intros HI Hx Ho Hr. unfold clone_ref. rewrite (on_session_at _ _ _ x) by done.
  split. { rewrite <-(set_slots_same s) at 3. by apply advances_refs. }
  destruct (i_session _ _ HI _ _ Hx) as []. eapply inv_at; try done.
  - foreign.
  - split; try done; cbn.
    + rewrite so_refs0. change (listed _ _ sid) with (listed s x sid). mults; lia.
    + intros Hc. destruct (so_owned0 Hc) as [?|[[b Hb]|?]]; [by left|by destruct (Ho b)|lia].
    + intros b Hb. apply in_union in Hb as [Hb%in_one|Hb]; [done|by destruct (Ho b)].
  - destruct (i_slots _ _ HI) as [? _]. rewrite !in_use_pos by (cbn; lia). cbn. mults; lia.
  - cbn. intros token i Hi. left. by split.
  - cbn. eauto.
  - intros t. mults; done.
  - cbn. eauto.
  - cbn. intros e Ht. apply in_union in Ht as [Ht%in_one|Ht]; [done|by eapply i_stopped].
Qed.

(** The end of a reference: [s] after [drop_ref]. *)
Lemma drop_ref_eq sid s x :
  pb_heap s !! sid = Some x →
  drop_ref sid s = set_slots (pb_slots s + (if bool_decide (se_refs x = 1%nat) then 1 else 0))
    (set_heap (<[sid := with_refs pred x]> (pb_heap s)) s).
Proof.
  intros Hx. unfold drop_ref. rewrite Hx. case_bool_decide.
  - by rewrite (on_session_at _ _ _ x).
  - rewrite (on_session_at _ _ _ x) by done. by rewrite Z.add_0_r.
Qed.
Lemma drop_slots s O x n :
  Inv s O → (0 < se_refs x)%nat →
  0 ≤ pb_slots s + (if bool_decide (se_refs x = 1%nat) then 1 else 0) ∧
  pb_slots s + (if bool_decide (se_refs x = 1%nat) then 1 else 0) + Z.of_nat n +
    Z.of_nat (Nat.b2n (in_use (with_refs pred x))) = pb_slots s + Z.of_nat n + Z.of_nat (Nat.b2n (in_use x)).
Proof.
  intros HI Hr. destruct (i_slots _ _ HI) as [? _]. rewrite (in_use_pos x) by done.
  case_bool_decide as H1.
  - rewrite in_use_zero by (cbn; lia). cbn. lia.
  - rewrite in_use_pos by (cbn; lia). cbn. lia.
Qed.
Lemma inv_unref s F sid :
  Inv s ({[+ Ref sid +]} ⊎ F) → advances s (drop_ref sid s) ∧ Inv (drop_ref sid s) F.
Proof.
  intros HI. destruct (ref_shared _ _ _ HI) as (Ho & x & Hx & Hr).
  rewrite (drop_ref_eq _ _ x) by done. split; [by apply advances_refs|].
  destruct (i_session _ _ HI _ _ Hx) as []. eapply inv_at; try done.
  - foreign.
  - split; try done; cbn.
    + rewrite so_refs0. change (listed _ _ sid) with (listed s x sid). mults; lia.
    + intros Hc. destruct (so_owned0 Hc) as [?|[[b Hb]|?]]; [by left| |lia].
      apply in_union in Hb as [Hb%in_one|Hb]; [done|by destruct (Ho b)].
    + intros b Hb. by destruct (Ho b).
  - cbn. rewrite mult_union, mult_one. by apply (drop_slots s _ x (mult Slot F) HI).
  - cbn. intros token i Hi. left. by split.
  - cbn. eauto.
  - intros t. mults; done.
  - cbn. eauto.
  - cbn. intros e Ht. eapply i_stopped; [done|]. apply in_union. by right.
Qed.
(** A session that is given up before anyone knows it. *)
Lemma inv_abandon s F sid b :
  Inv s ({[+ Own sid b +]} ⊎ F) → advances s (drop_ref sid s) ∧ Inv (drop_ref sid s) F.
Proof.
  intros HI. destruct (own_alone _ _ _ _ HI) as (Hn & Ho & x & Hx & Hr & Hc & Hsz & Hl & Hw).
  rewrite (drop_ref_eq _ _ x) by done. split; [by apply advances_refs|].
  destruct (i_session _ _ HI _ _ Hx) as []. eapply inv_at; try done.
  - foreign.
  - split; try done; cbn.
    + rewrite Hr. change (listed _ _ sid) with (listed s x sid). rewrite Hl, Hw.
      rewrite mult_in in Hn. pose proof (Ho false) as H1. pose proof (Ho true) as H2.
      rewrite mult_in in H1, H2. cbn. lia.
    + intros _. right. right. by rewrite Hr.
    + intros b' Hb. by destruct (Ho b').
  - cbn. rewrite mult_union, mult_one. apply (drop_slots s _ x (mult Slot F) HI). lia.
  - cbn. intros token i Hi. left. by split.
  - cbn. eauto.
  - intros t. mults; done.
  - cbn. eauto.
  - cbn. intros e Ht. eapply i_stopped; [done|]. apply in_union. by right.
Qed.

(** ** Closing a session *)

Lemma others_wait sid i j st l :
  i ≠ sid →
  count (waiting_for i) (l ++ [mk_Task j sid st]) = count (waiting_for i) l ∧
  count (closes i) (l ++ [mk_Task j sid st]) = count (closes i) l.
Proof.
  intros Hne. rewrite !count_snoc. unfold waiting_for, closes. cbn.
  replace (sid =? i)%nat with false by (symmetry; apply Nat.eqb_neq; congruence).
  rewrite andb_false_r. destruct j; cbn; lia.
Qed.
Lemma runs_snoc s k' : ∀ t k, pb_tasks s !! t = Some k → tk_status k = Running →
  ∃ k1, (pb_tasks s ++ [k']) !! t = Some k1 ∧ tk_status k1 = Running.
Proof. intros t k Hk ?. exists k. by rewrite (lookup_app_l_Some _ _ _ _ Hk). Qed.
Lemma task_snoc s sid j t k :
  (pb_tasks s ++ [mk_Task j sid Waiting]) !! t = Some k →
  tk_session k = sid ∨ ∃ k0, pb_tasks s !! t = Some k0 ∧ tk_session k = tk_session k0.
Proof. intros [Hk|[_ Hk]]%lookup_app_Some; [eauto|]. apply list_lookup_singleton_Some in Hk as [_ <-]. by left. Qed.
(** A session that is given to the task that will close it. *)
Definition closed (sid : nat) (x : Session) (m : gmap string nat) (c : list (option Z * nat)) (s : State) : State :=
  spawn Closing sid (set_closing c (set_heap (<[sid := cancel x]> (pb_heap s)) (set_sessions m s))).
Lemma advances_closed s sid x m c :
  pb_heap s !! sid = Some x → m ⊆ pb_sessions s → advances s (closed sid x m c s).
Proof.
  intros Hx Hm. split.
  - intros i y Hy. cbn. destruct (decide (i = sid)) as [->|Hne].
    + simplify_eq. exists (cancel x). by rewrite list_lookup_insert_eq by by eapply lookup_lt_Some.
    + exists y. by rewrite list_lookup_insert_ne.
  - done.
  - intros t k Hk. exists k. cbn. by rewrite (lookup_app_l_Some _ _ _ _ Hk).
Qed.
Lemma inv_closed s O O' sid x m c :
  Inv s O → pb_heap s !! sid = Some x → se_cancelled x = false →
  (O' = O ∧ pb_sessions s !! se_token x = Some sid ∧ m = delete (se_token x) (pb_sessions s) ∨
   ∃ b, O = {[+ Own sid b +]} ⊎ O' ∧ m = pb_sessions s) →
  Inv (closed sid x m c s) O'.
Proof.
  intros HI Hx Hc Hcase. destruct (i_session _ _ HI _ _ Hx) as [].
  assert (∀ b, Own sid b ∉ O') as Hno.
  { destruct Hcase as [(-> & Hl & _)|(b & -> & _)].
    - by destruct (listed_shared _ _ _ _ HI Hl).
    - by destruct (own_alone _ _ _ _ HI) as (_ & ? & _). }
  assert (∀ k, (∀ b, k ≠ Own sid b) → mult k O' = mult k O) as HO.
  { intros k Hk. destruct Hcase as [[-> _]|(b & -> & _)]; [done|].
    rewrite mult_union, mult_one. case_decide as He; [by destruct (Hk b)|done]. }
  assert (∀ token i, m !! token = Some i → pb_sessions s !! token = Some i ∧ i ≠ sid) as Hm.
  { intros token i Hi. destruct Hcase as [(_ & Hl & ->)|(b & -> & ->)].
    - apply lookup_delete_Some in Hi as [Hne Hi]. split; [done|]. intros ->.
      destruct (i_listed _ _ HI _ _ Hi) as (y & Hy & Ht & _). congruence.
    - split; [done|]. intros ->. destruct (own_alone _ _ _ _ HI) as (_ & _ & y & Hy & _ & _ & _ & Hl & _).
      destruct (i_listed _ _ HI _ _ Hi) as (y' & Hy' & Ht & _). simplify_eq.
      unfold listed in Hl. by apply bool_decide_eq_false in Hl. }
  eapply inv_at; try done.
  - intros i Hne [] Ha; simplify_eq/=; apply HO; congruence.
  - cbn. intros i y Hne Hy. destruct (others_wait sid i Closing Waiting (pb_tasks s) Hne).
    split_and!; [|done..]. unfold listed. cbn. apply bool_decide_ext. split; [intros Hi; by destruct (Hm _ _ Hi)|].
    intros Hi. destruct Hcase as [(_ & Hl & ->)|(b & _ & ->)]; [|done].
    rewrite lookup_delete_ne; [done|]. intros Heq. rewrite Heq in Hl. congruence.
  - split; cbn; try done.
    + rewrite count_snoc. unfold waiting_for at 2. cbn. rewrite Nat.eqb_refl. cbn.
      assert (listed (closed sid x m c s) (cancel x) sid = false) as ->.
      { apply bool_decide_eq_false. cbn. intros Hi. by destruct (Hm _ _ Hi). }
      rewrite (HO (Ref sid)) by done. pose proof (Hno false) as H1. pose proof (Hno true) as H2.
      rewrite mult_in in H1, H2. cbn. destruct Hcase as [(-> & Hl & _)|(b & -> & _)].
      * assert (listed s x sid = true) as Hls by by apply bool_decide_eq_true. rewrite Hls in so_refs0. cbn in *. lia.
      * destruct (own_alone _ _ _ _ HI) as (Hnr & _ & y & Hy & Hr & _ & _ & _ & Hw). simplify_eq.
        rewrite mult_in in Hnr. rewrite Hr, Hw. mults; lia.
    + rewrite count_snoc, so_closes0, Hc. unfold closes. cbn. by rewrite Nat.eqb_refl.
    + intros b Hb. by destruct (Hno b).
  - cbn. rewrite (HO Slot) by done. change (in_use (cancel x)) with (in_use x). split; [apply HI|done].
  - cbn. intros token i Hi. left. destruct (Hm _ _ Hi). by split.
  - cbn. intros t k. apply task_snoc.
  - intros t. by apply HO.
  - cbn. apply runs_snoc.
  - cbn. intros e Ht. destruct (i_stopped _ _ HI e) as [? Hs].
    { rewrite mult_in in *. by rewrite <-(HO (Stopped e)). }
    split; [done|]. intros He. apply Hs in He as Hs'. apply map_eq. intros token. rewrite lookup_empty.
    destruct (m !! token) as [i|] eqn:Hi; [|done]. apply Hm in Hi as [Hi _]. by rewrite Hs', lookup_empty in Hi.
Qed.
(** [cancel] is always the first one: every session is given away once. *)
Lemma schedule_close_eq sid m s x :
  pb_heap s !! sid = Some x → se_cancelled x = false →
  ∃ c, schedule_close sid (set_sessions m s) = closed sid x m c s.
Proof.
  intros Hx Hc. unfold schedule_close. cbn. rewrite Hx, Hc. eexists.
  by rewrite (on_session_at _ _ _ x).
Qed.
Lemma inv_unlist s O token :
  Inv s O → advances s (remove_session token s) ∧ Inv (remove_session token s) O.
Proof.
  intros HI. unfold remove_session. destruct (pb_sessions s !! token) as [sid|] eqn:Hl; [|done].
  destruct (listed_shared _ _ _ _ HI Hl) as (Ho & x & Hx & Hr & Ht & Hc & _).
  destruct (schedule_close_eq sid (delete token (pb_sessions s)) s x Hx Hc) as [c ->].
  split; [by apply advances_closed, delete_subseteq|].
  eapply inv_closed; [done..|]. left. by subst.
Qed.
Lemma set_sessions_same s : set_sessions (pb_sessions s) s = s.
Proof. by destruct s. Qed.
Lemma inv_schedule s F sid b :
  Inv s ({[+ Own sid b +]} ⊎ F) → advances s (schedule_close sid s) ∧ Inv (schedule_close sid s) F.
Proof.
  intros HI. destruct (own_alone _ _ _ _ HI) as (_ & _ & x & Hx & _ & Hc & _).
  destruct (schedule_close_eq sid (pb_sessions s) s x Hx Hc) as [c Heq].
  rewrite set_sessions_same in Heq. rewrite Heq. split; [by apply advances_closed|].
  eapply inv_closed; [done..|]. right. by exists b.
Qed.
Lemma inv_remove_all s O tokens :
  Inv s O → advances s (remove_sessions tokens s) ∧ Inv (remove_sessions tokens s) O.
Proof.
  revert s. induction tokens as [|token tokens IH]; intros s HI; [done|]. cbn.
  destruct (inv_unlist s O token HI) as [HG HI']. destruct (IH _ HI'). split; [by etrans|done].
Qed.

(** ** Frames: slots, tasks, the world *)

Lemma inv_alike s s' O O' :
  Inv s O → pb_heap s' = pb_heap s → pb_sessions s' = pb_sessions s → pb_tasks s' = pb_tasks s →
  (pb_stopping s = true → pb_stopping s' = true) →
  (0 ≤ pb_slots s' ∧ pb_slots s' + Z.of_nat (mult Slot O') = pb_slots s + Z.of_nat (mult Slot O)) →
  (∀ k, k ≠ Slot → mult k O' = mult k O) →
  advances s s' ∧ Inv s' O'.
Proof.
  intros HI Hh Hm Ht Hst Hsl HO.
  assert (∀ k, k ≠ Slot → k ∈ O' ↔ k ∈ O) as He by (intros; by rewrite !mult_in, HO).
  split.
  - split; rewrite ?Hh, ?Hm, ?Ht; [intros; by eexists|split; auto|eauto].
  - destruct HI as []. split; rewrite ?Hh, ?Hm, ?Ht; try done.
    + unfold live in *. rewrite Hh. lia.
    + intros sid x Hx. assert (∀ y, listed s' y sid = listed s y sid) as Hli by (intros; unfold listed; by rewrite Hm).
      destruct (i_session0 sid x Hx). split; rewrite ?Hli, ?Ht, ?HO; try done.
      * setoid_rewrite He; done.
      * intros b. rewrite He; auto.
    + intros sid b. rewrite !He by done. auto.
    + intros t. rewrite He by done. auto.
    + intros t. by rewrite HO.
    + intros e. rewrite He by done. naive_solver.
Qed.
Lemma inv_take_slot s F :
  Inv s F → 0 < pb_slots s →
  advances s (set_slots (pb_slots s - 1) s) ∧ Inv (set_slots (pb_slots s - 1) s) ({[+ Slot +]} ⊎ F).
Proof.
  intros HI Hs. apply (inv_alike s _ F); try done.
  - cbn. mults; lia.
  - intros k Hk. mults; done.
Qed.
Lemma inv_release_slot s F :
  Inv s ({[+ Slot +]} ⊎ F) → advances s (release_slot s) ∧ Inv (release_slot s) F.
Proof.
  intros HI. apply (inv_alike s _ ({[+ Slot +]} ⊎ F)); try done.
  - cbn. destruct (i_slots _ _ HI). mults; lia.
  - intros k Hk. mults; done.
Qed.
Lemma inv_closing_list s O c : Inv s O → advances s (set_closing c s) ∧ Inv (set_closing c s) O.
Proof. intros HI. apply (inv_alike s _ O); try done. split; [apply HI|done]. Qed.
Lemma inv_halts s O : Inv s O → advances s (stop s) ∧ Inv (stop s) O.
Proof. intros HI. apply (inv_alike s _ O); try done. split; [apply HI|done]. Qed.
Lemma inv_env s s' O : env s s' → Inv s O → advances s s' ∧ Inv s' O.
Proof. intros [s0] HI. apply (inv_alike s0 _ O); try done. split; [apply HI|done]. Qed.
(** Once stopping, always stopping, and then an empty table stays empty. *)
Lemma inv_stopping s O O' :
  Inv s O → (∀ k, (∀ e, k ≠ Stopped e) → mult k O' = mult k O) →
  (∀ e, Stopped e ∈ O' → pb_stopping s = true ∧ (e = true → pb_sessions s = ∅)) → Inv s O'.
Proof.
  intros HI HO Hst.
  assert (∀ k, (∀ e, k ≠ Stopped e) → k ∈ O' ↔ k ∈ O) as Hin by (intros; by rewrite !mult_in, HO).
  destruct HI as []. split; try done.
  - by rewrite HO.
  - intros sid x Hx. destruct (i_session0 sid x Hx). split; rewrite ?HO; try done.
    + setoid_rewrite Hin; done.
    + intros b. rewrite Hin; auto.
  - intros sid b. rewrite !Hin by done. auto.
  - intros t. rewrite Hin by done. auto.
  - intros t. by rewrite HO.
Qed.

(** ** New sessions *)

Lemma own_false_dangling s F : Inv s F → ∀ b, Ref (length (pb_heap s)) ∉ F ∧ Own (length (pb_heap s)) b ∉ F.
Proof. intros HI b. by apply (i_dangling _ _ HI), lookup_ge_None_2. Qed.
Lemma no_tasks s O sid :
  Inv s O → (length (pb_heap s) ≤ sid)%nat →
  count (waiting_for sid) (pb_tasks s) = 0%nat ∧ count (closes sid) (pb_tasks s) = 0%nat.
Proof.
  intros HI Hs. split; apply count_zero; intros k Hk.
  all: apply list_elem_of_lookup in Hk as [t Ht]; pose proof (i_task _ _ HI _ _ Ht) as Hlt.
  - unfold waiting_for. replace (tk_session k =? sid)%nat with false by (symmetry; apply Nat.eqb_neq; lia).
    by rewrite andb_false_r.
  - unfold closes. destruct (tk_job k); [|done]. apply Nat.eqb_neq. lia.
Qed.
Lemma inv_created s F p epoch source :
  Inv s ({[+ Slot +]} ⊎ F) →
  let '(sid, s') := new_session p epoch source s in
  advances s s' ∧ Inv s' ({[+ Own sid false +]} ⊎ F).
Proof.
  intros HI. unfold new_session. set (sid := length (pb_heap s)).
  set (x := mk_Session _ _ _ _ _ _ _ _ _ _ : Session). destruct (no_tasks s _ sid HI) as [Hw Hc]; [done|].
  destruct (own_false_dangling _ _ HI false) as [Hr Hf]. destruct (own_false_dangling _ _ HI true) as [_ Ht].
  assert (∀ k, k ≠ Slot → k ≠ Own sid false →
    mult k ({[+ Own sid false +]} ⊎ F) = mult k ({[+ Slot +]} ⊎ F)) as HO by (intros; mults; done).
  assert (∀ k, k ≠ Slot → k ≠ Own sid false →
    k ∈ {[+ Own sid false +]} ⊎ F ↔ k ∈ {[+ Slot +]} ⊎ F) as Hin by (intros; by rewrite !mult_in, HO).
  assert (∀ y, listed s y sid = false) as Hl.
  { intros y. apply bool_decide_eq_false. intros Hs. destruct (i_listed _ _ HI _ _ Hs) as (z & Hz & _).
    apply lookup_lt_Some in Hz. lia. }
  rewrite mult_in in Hr, Hf, Ht. fold sid in Hr, Hf, Ht. split.
  { split; [|done|eauto]. intros i y Hy. exists y. cbn. by rewrite (lookup_app_l_Some _ _ _ _ Hy). }
  split; cbn.
  - destruct (i_slots _ _ HI). unfold live in *. cbn. rewrite count_snoc, in_use_pos by (unfold x; cbn; lia).
    change (Nat.b2n true) with 1%nat. mults; lia.
  - intros i y [Hy|[Hi Hy]]%lookup_app_Some.
    + assert (i < sid)%nat by by eapply lookup_lt_Some.
      eapply session_ok_frame; [by eapply i_session| |done..].
      intros k Ha. apply HO; destruct k; simplify_eq/=; first [congruence|intros [=]; lia].
    + assert (i = sid) as ->.
      { pose proof (lookup_lt_Some _ _ _ Hy). cbn in *. lia. }
      apply list_lookup_singleton_Some in Hy as [_ <-]. split; cbn; try done.
      * change (listed _ x sid) with (listed s x sid). rewrite Hl, Hw.
        change (se_refs x) with 1%nat. mults; lia.
      * intros _. right. left. exists false. apply in_union. left. by apply in_one.
      * intros b _. unfold x. cbn. rewrite map_size_empty. split_and!; (done || lia).
      * unfold x, origins_ok. cbn. rewrite !map_size_empty. split_and!; (lia || done || constructor).
  - intros i b Hi. apply lookup_ge_None in Hi. rewrite length_app in Hi. cbn in Hi.
    assert (∀ b', Own i b' ≠ Own sid false) by (intros b' [=]; lia).
    rewrite !Hin by (congruence || done). apply (i_dangling _ _ HI), lookup_ge_None_2. lia.
  - intros token i Hi. destruct (i_listed _ _ HI _ _ Hi) as (y & Hy & ? & ?). exists y.
    by rewrite (lookup_app_l_Some _ _ _ _ Hy).
  - intros t k Hk. rewrite length_app. pose proof (i_task _ _ HI _ _ Hk). lia.
  - intros t. rewrite Hin by done. apply (i_runs _ _ HI).
  - intros t. rewrite HO by done. apply HI.
  - intros e. rewrite Hin by done. apply (i_stopped _ _ HI).
Qed.
(** The session becomes known under its token. *)
Context `{!Inj (=) (=) fresh_token}.
Lemma inv_register s F sid b x :
  Inv s ({[+ Own sid b +]} ⊎ F) → pb_heap s !! sid = Some x → pb_stopping s = false →
  let s' := clone_ref sid (set_sessions (<[se_token x := sid]> (pb_sessions s)) s) in
  advances s s' ∧ Inv s' ({[+ Ref sid +]} ⊎ F).
Proof.
  intros HI Hx Hs. destruct (own_alone _ _ _ _ HI) as (Hnr & Hno & y & Hy & Hr & Hc & Hsz & Hl & Hw).
  simplify_eq. destruct (i_session _ _ HI _ _ Hx) as [].
  cbn zeta. unfold clone_ref. rewrite (on_session_at _ _ _ x) by done. split.
  { split; [|by cbn; rewrite Hs|eauto]. intros i z Hz. cbn. destruct (decide (i = sid)) as [->|Hne].
    - simplify_eq. exists (with_refs S x). by rewrite list_lookup_insert_eq by by eapply lookup_lt_Some.
    - exists z. by rewrite list_lookup_insert_ne. }
  eapply inv_at; try done.
  - intros i Hne [] Ha; simplify_eq/=; rewrite !mult_union, !mult_one; repeat case_decide; by simplify_eq.
  - cbn. intros i z Hne Hz. split; [|done]. unfold listed. cbn. apply bool_decide_ext.
    destruct (decide (se_token z = se_token x)) as [Heq|Ht]; [|by rewrite lookup_insert_ne].
    rewrite (so_token _ _ _ _ (i_session _ _ HI _ _ Hz)), so_token0 in Heq.
    by apply (inj fresh_token) in Heq.
  - split; try done; cbn.
    + assert (listed (set_heap (<[sid:=with_refs S x]> (pb_heap s))
        (set_sessions (<[se_token x:=sid]> (pb_sessions s)) s)) (with_refs S x) sid = true) as Hls.
      { apply bool_decide_eq_true. cbn. apply lookup_insert_eq. }
      rewrite Hls, Hw, Hr. pose proof (Hno false) as H1. pose proof (Hno true) as H2.
      rewrite mult_in in H1, H2, Hnr. clear so_refs0 so_owned0 so_own0. mults; lia.
    + intros _. left. apply bool_decide_eq_true. cbn. apply lookup_insert_eq.
    + intros b' [Hb%in_one|Hb]%in_union; [done|by destruct (Hno b')].
  - destruct (i_slots _ _ HI) as [? _]. rewrite !in_use_pos by (cbn; lia). cbn. clear so_own0. mults; lia.
  - cbn. intros token i [[<- <-]|[Hne Hi]]%lookup_insert_Some; [by right|].
    left. split; [done|]. by intros ->.
  - cbn. eauto.
  - intros t. mults; done.
  - cbn. eauto.
  - cbn. intros e [Ht%in_one|Ht]%in_union; [done|].
    destruct (i_stopped _ _ HI e) as [Hst _]; [apply in_union; by right|]. congruence.
Qed.

(** ** Tasks *)

Lemma inv_beat s F sid :
  Inv s ({[+ Ref sid +]} ⊎ F) → advances s (spawn Beat sid s) ∧ Inv (spawn Beat sid s) F.
Proof.
  intros HI. destruct (ref_shared _ _ _ HI) as (Ho & x & Hx & Hr). split.
  { split; [intros; by eexists|done|]. intros t k Hk. exists k. cbn. by rewrite (lookup_app_l_Some _ _ _ _ Hk). }
  destruct (i_session _ _ HI _ _ Hx) as []. eapply (inv_at s _ _ _ sid x x); try done.
  - cbn. by rewrite list_insert_id.
  - foreign.
  - cbn. intros i y Hne Hy. split; [done|]. by apply others_wait.
  - split; try done; cbn.
    + rewrite so_refs0, count_snoc. change (listed _ _ sid) with (listed s x sid).
      unfold waiting_for at 3. cbn. rewrite Nat.eqb_refl. clear so_owned0 so_own0. mults; cbn; lia.
    + rewrite count_snoc, so_closes0. cbn. lia.
    + intros Hc. destruct (so_owned0 Hc) as [?|[[b Hb]|?]]; [by left| |lia].
      apply in_union in Hb as [Hb%in_one|Hb]; [done|by destruct (Ho b)].
    + intros b Hb. by destruct (Ho b).
  - cbn. split; [apply HI|]. rewrite mult_union, mult_one. done.
  - cbn. intros token i Hi. left. by split.
  - cbn. intros t k. apply task_snoc.
  - intros t. mults; done.
  - cbn. apply runs_snoc.
  - cbn. intros e Ht. eapply i_stopped; [done|]. apply in_union. by right.
Qed.
(** The status of a task changes. *)
Lemma count_status (p : Task → bool) t st l k :
  l !! t = Some k →
  (count p (alter (set_status st) t l) + Nat.b2n (p k) = count p l + Nat.b2n (p (set_status st k)))%nat.
Proof. intros Hk. rewrite (alter_insert _ _ _ _ Hk). by apply count_insert. Qed.
Lemma closes_status sid t st l : count (closes sid) (alter (set_status st) t l) = count (closes sid) l.
Proof.
  destruct (l !! t) as [k|] eqn:Hk.
  - pose proof (count_status (closes sid) t st l k Hk). unfold closes in *. cbn in *. lia.
  - f_equal. apply list_eq. intros i. destruct (decide (i = t)) as [->|Hne].
    + by rewrite list_lookup_alter_eq, Hk.
    + by rewrite list_lookup_alter_ne.
Qed.
Lemma advances_status s t st l :
  (∀ k, pb_tasks s !! t = Some k → tk_status k = Ended → st = Ended) →
  l = alter (set_status st) t (pb_tasks s) → advances s (set_tasks l s).
Proof.
  intros Hst ->. split; [intros; by eexists|done|]. intros i k Hk. cbn. destruct (decide (i = t)) as [->|Hne].
  - exists (set_status st k). rewrite list_lookup_alter_eq, Hk. split_and!; try done. by apply Hst.
  - exists k. by rewrite list_lookup_alter_ne.
Qed.
(** A task that was waiting starts, and owns its reference. *)
Lemma inv_start s F t k :
  Inv s F → pb_tasks s !! t = Some k → tk_status k = Waiting →
  let s' := set_tasks (alter (set_status Running) t (pb_tasks s)) s in
  advances s s' ∧ Inv s' ({[+ Ref (tk_session k) +]} ⊎ ({[+ Runs t +]} ⊎ F)).
Proof.
  intros HI Hk Hw. cbn zeta. split; [eapply advances_status; [|done]; intros; by simplify_eq; congruence|].
  set (sid := tk_session k). destruct (lookup_lt_is_Some_2 (pb_heap s) sid) as [x Hx]; [by eapply i_task|].
  assert (Runs t ∉ F) as Hnr. { intros Hr. destruct (i_runs _ _ HI t Hr) as (k' & Hk' & ?). simplify_eq. congruence. }
  assert (∀ i, count (waiting_for i) (alter (set_status Running) t (pb_tasks s)) +
    (if decide (i = sid) then 1 else 0) = count (waiting_for i) (pb_tasks s))%nat as Hcount.
  { intros i. pose proof (count_status (waiting_for i) t Running _ _ Hk) as Hc.
    assert (waiting_for i k = (sid =? i)%nat) as E1 by (unfold waiting_for, is_waiting; by rewrite Hw).
    assert (waiting_for i (set_status Running k) = false) as E2 by done. rewrite E1, E2 in Hc.
    case_decide as Hi; [subst i; rewrite Nat.eqb_refl in Hc; cbn in Hc; lia|].
    replace (sid =? i)%nat with false in Hc by (symmetry; apply Nat.eqb_neq; congruence). cbn in Hc. lia. }
  destruct HI as []. split; cbn; try done.
  - unfold live in *. cbn. mults; lia.
  - intros i y Hy. pose proof (i_session0 i y Hy) as [Hre]. specialize (Hcount i).
    split; cbn; rewrite ?closes_status; try done.
    + rewrite Hre. change (listed (set_tasks _ s) y i) with (listed s y i). rewrite <-Hcount. mults; lia.
    + intros Hc. destruct (so_owned0 Hc) as [?|[[b Hb]|?]]; [by left| |by right; right].
      right. left. exists b. rewrite !in_union. by right; right.
    + intros b. rewrite !in_union, !in_one. intros [?|[?|?]]; [done..|auto].
  - intros i b Hi. rewrite !in_union, !in_one. destruct (i_dangling0 i b Hi). naive_solver.
  - intros t' k' Hk'. destruct (decide (t' = t)) as [->|Hne].
    + rewrite list_lookup_alter_eq, Hk in Hk'. simplify_eq/=. by eapply lookup_lt_Some.
    + rewrite list_lookup_alter_ne in Hk' by done. eauto.
  - intros t' Ht'. destruct (decide (t' = t)) as [->|Hne].
    + exists (set_status Running k). by rewrite list_lookup_alter_eq, Hk.
    + rewrite list_lookup_alter_ne by done. apply i_runs0. rewrite !in_union, !in_one in Ht'. naive_solver.
  - intros t'. specialize (i_alone0 t'). rewrite mult_in in Hnr. mults; lia.
  - intros e. rewrite !in_union, !in_one. naive_solver.
Qed.
Lemma inv_end s F t sid :
  Inv s ({[+ Ref sid +]} ⊎ ({[+ Runs t +]} ⊎ F)) → advances s (end_task t sid s) ∧ Inv (end_task t sid s) F.
Proof.
  intros HI. destruct (inv_unref _ _ _ HI) as [HG HI']. unfold end_task.
  set (s1 := drop_ref sid s) in *. assert (pb_tasks s = pb_tasks s1) as ->.
  { unfold s1, drop_ref. destruct (pb_heap s !! sid); [|done]. by case_bool_decide. }
  clearbody s1.
  destruct (i_runs _ _ HI' t) as (k & Hk & Hr); [apply in_union; left; by apply in_one|].
  split. { etrans; [done|]. eapply advances_status; [|done]. done. }
  assert (Runs t ∉ F) as Hnr. { pose proof (i_alone _ _ HI' t). rewrite mult_in. mults; lia. }
  assert (∀ i, count (waiting_for i) (alter (set_status Ended) t (pb_tasks s1)) =
    count (waiting_for i) (pb_tasks s1)) as Hcount.
  { intros i. pose proof (count_status (waiting_for i) t Ended _ _ Hk) as Hc.
    assert (waiting_for i k = false) as E1 by (unfold waiting_for, is_waiting; by rewrite Hr).
    assert (waiting_for i (set_status Ended k) = false) as E2 by done. rewrite E1, E2 in Hc. lia. }
  destruct HI' as []. split; cbn; try done.
  - unfold live in *. cbn. mults; lia.
  - intros i y Hy. pose proof (i_session0 i y Hy) as [Hre]. 
    split; cbn; rewrite ?closes_status; try done.
    + rewrite Hre, Hcount. change (listed (set_tasks _ s1) y i) with (listed s1 y i). mults; lia.
    + intros Hc. destruct (so_owned0 Hc) as [?|[[b Hb]|?]]; [by left| |by right; right].
      right. left. exists b. apply in_union in Hb as [Hb%in_one|]; done.
    + intros b Hb. apply so_own0. apply in_union. by right.
  - intros i b Hi. destruct (i_dangling0 i b Hi) as [H1 H2]. rewrite in_union in H1, H2. naive_solver.
  - intros t' k' Hk'. destruct (decide (t' = t)) as [->|Hne].
    + rewrite list_lookup_alter_eq, Hk in Hk'. simplify_eq/=. eauto.
    + rewrite list_lookup_alter_ne in Hk' by done. eauto.
  - intros t' Ht'. destruct (decide (t' = t)) as [->|Hne]; [done|].
    rewrite list_lookup_alter_ne by done. apply i_runs0. apply in_union. by right.
  - intros t'. specialize (i_alone0 t'). mults; lia.
  - intros e Ht. apply i_stopped0. apply in_union. by right.
Qed.
End invariant.
