(* ===== verification/PlaybackFacts.v ===== *)
(** * Playback sessions: properties

    Every thread of [Playback.v] is safe with the tokens of [Slots.v]; what follows for every
    state that can be reached, whatever the interleaving, the answers of the providers and the
    requests that are dropped. *)
From stdpp Require Import gmultiset.
From Stdlib Require Import SpecFloat.
From S2P Require Import Prelude Text Threads Resource Playback Slots.
From stdpp Require Import options.
#[local] Set Default Proof Using "Type*".

Open Scope string_scope.
Open Scope Z_scope.
Open Scope list_scope.

Section threads.
Context {U R : Type} `{!Urls U, !PlaybackLib R, !Inj (=) (=) fresh_token}.
Notation State := (State U R).
Notation Question := (Question U R).
Implicit Types (s : State) (O F o : tokens).

(** Nothing is assumed of the answers. *)
Definition anything (X : Type) (q : Question X) (x : X) : Prop := True.

(** ** Code without tokens of its own *)

Section quiet.
Context (h : tokens).
(** The invariant while [h] is held. *)
Definition Held s O : Prop := Inv s (h ⊎ O).
Notation safe := (safe Held advances anything).
Definition quiet {A} (c : Code State Question A) : Prop := safe c ∅ (λ _ o, o = ∅).

Lemma quiet_bind {A B} (c : Code State Question A) (f : A → Code State Question B) :
  quiet c → (∀ a, quiet (f a)) → quiet (code_bind c f).
Proof.
  intros Hc Hf. apply safe_bind. eapply safe_mono; [exact Hc|]. cbn. intros a o ->. apply Hf.
Qed.
Lemma quiet_then {A B} (c : Fallible State Question Error A) (f : A → Fallible State Question Error B) :
  quiet c → (∀ a, quiet (f a)) → quiet (c ≫= f).
Proof. intros Hc Hf. apply quiet_bind; [done|]. intros []; [apply Hf|done]. Qed.
Lemma quiet_releases : releases Held advances id ∅.
Proof. intros s F HI. rewrite no_tokens in HI. by split. Qed.
Lemma quiet_act {B} (m : State → option (B * State)) :
  (∀ s O b s', Held s O → m s = Some (b, s') → advances s s' ∧ Held s' O) → quiet (when m).
Proof.
  intros Hm. split; [apply quiet_releases|]. intros s F b s' HI He. rewrite no_tokens in HI.
  destruct (Hm _ _ _ _ HI He). split; [done|]. exists ∅. by rewrite no_tokens.
Qed.
Lemma quiet_atomically {B} (m : State → B * State) :
  (∀ s O, Held s O → advances s (m s).2 ∧ Held (m s).2 O) → quiet (atomically m).
Proof.
  intros Hm. apply quiet_act. intros s O b s' HI [= He]. specialize (Hm s O HI). by rewrite He in Hm.
Qed.
Lemma quiet_update (f : State → State) :
  (∀ s O, Held s O → advances s (f s) ∧ Held (f s) O) → quiet (update f).
Proof. intros Hf. by apply quiet_atomically. Qed.
Lemma quiet_observe {B} (f : State → B) : quiet (observe f).
Proof. apply quiet_atomically. by intros s O HI. Qed.
Lemma quiet_ask {X} (q : Question X) : quiet (ask q).
Proof. split; [apply quiet_releases|done]. Qed.
Lemma quiet_ret {A} (a : A) : quiet (Ret a).
Proof. done. Qed.
Lemma quiet_each {X} (f : X → Code State Question unit) l : (∀ x, quiet (f x)) → quiet (each_code f l).
Proof. intros Hf. induction l as [|x l IH]; [done|]. apply quiet_bind; [apply Hf|done]. Qed.

(** ** The parts of the program *)

Lemma quiet_look {A} sid (f : Session U R → A) : quiet (look sid f).
Proof. apply quiet_observe. Qed.
Lemma quiet_assure sid : quiet (assure_valid sid).
Proof. apply quiet_observe. Qed.
(** A change of a session that stores no resource. *)
Lemma held_change s O sid f :
  Held s O → (∀ x, pb_heap s !! sid = Some x → inside x (f x) ∧
    (origins_ok x → origins_ok (f x)) ∧
    (size (se_prepared (f x)) ≤ size (se_prepared x))%nat ∧
    ((size (se_redirects x) ≤ 4)%nat → (size (se_redirects (f x)) ≤ 4)%nat)) →
  advances s (on_session sid f s) ∧ Held (on_session sid f s) O.
Proof. apply inv_change. Qed.
Lemma delete_size {V} (k : string) (m : gmap string V) : (size (delete k m) ≤ size m)%nat.
Proof. apply map_subseteq_size, delete_subseteq. Qed.
Lemma insert_size {V} (k : string) (v : V) (m : gmap string V) : (size (<[k := v]> m) ≤ S (size m))%nat.
Proof. rewrite map_size_insert. destruct (m !! k); cbn; lia. Qed.
Lemma filter_size {V} (P : string * V → Prop) `{∀ x, Decision (P x)} (m : gmap string V) :
  (size (filter P m) ≤ size m)%nat.
Proof. apply map_subseteq_size, map_filter_subseteq. Qed.

Lemma quiet_prepare sid uri : quiet (prepare sid uri).
Proof.
  apply quiet_then; [apply quiet_assure|intros _]. apply quiet_then.
  { apply quiet_atomically. intros s O HI. destruct (pb_heap s !! sid) as [x|] eqn:Hx; [|done].
    apply held_change; [done|]. intros y Hy. simplify_eq. split_and!; try done. apply delete_size. }
  intros [r|]; [done|]. apply quiet_then; [apply quiet_look|]. intros p.
  apply quiet_then; [|done]. apply quiet_bind; [apply quiet_ask|done].
Qed.
Lemma quiet_route sid uri : quiet (route sid uri).
Proof.
  unfold route, require. destruct (routable uri) eqn:Hu; [|done]. change (ensure true NotFound) with (Ok (E := Error) tt).
  apply quiet_then; [done|intros _]. apply quiet_then; [|done]. apply quiet_atomically. intros s O HI.
  destruct (pb_heap s !! sid) as [x|] eqn:Hx; [|done]. destruct (position _ _); [done|].
  destruct (Z.leb_spec 8 (zlen (se_origins x))); [done|].
  apply held_change; [done|]. intros y Hy. simplify_eq. split_and!; try done.
  - split_and!; try done. by apply prefix_app_r.
  - intros [_ Hall]. split; cbn; [rewrite length_app; unfold zlen in *; cbn; lia|].
    apply Forall_app. by repeat constructor.
Qed.
Lemma quiet_try_close n p state : quiet (try_close n p state).
Proof. induction n as [|n IH]; [done|]. apply quiet_bind; [apply quiet_ask|]. by intros []. Qed.
Lemma quiet_cleanup sid : quiet (cleanup sid).
Proof.
  apply quiet_bind; [|intros _; apply quiet_bind; [|intros _; apply quiet_bind; [apply quiet_observe|]]].
  1, 2: apply quiet_update; intros s O HI; apply held_change; [done|]; intros x _; split_and!; try done;
    cbn; rewrite map_size_empty; lia.
  intros [x|]; [apply quiet_try_close|done].
Qed.
Lemma quiet_join t : quiet (join (U := U) (R := R) t).
Proof. apply quiet_act. intros s O b s' HI. case_match; [|done]. by intros [= <- <-]. Qed.
Lemma quiet_finish_closing p : quiet (finish_closing (U := U) (R := R) p).
Proof.
  apply quiet_bind; [|intros; by apply quiet_each, quiet_join]. apply quiet_atomically.
  intros s O HI. by apply inv_closing_list.
Qed.
Lemma quiet_body : quiet body_json.
Proof.
  apply quiet_then; [apply quiet_bind; [apply quiet_ask|done]|]. intros b. by case_bool_decide.
Qed.
Lemma quiet_keep_redirect sid key (r : R) : quiet (keep_redirect sid key r).
Proof.
  apply quiet_atomically. intros s O HI. destruct (pb_heap s !! sid) as [x|] eqn:Hx; [|done].
  cbn zeta. match goal with |- context [if 4 <=? ?n then _ else _] => destruct (Z.leb_spec 4 n) end; cbn.
  all: apply held_change; [done|]; intros y Hy; simplify_eq; split_and!; try done; intros Hr; cbn.
  - etrans; [apply filter_size|done].
  - etrans; [apply insert_size|]. lia.
Qed.
Lemma quiet_fetch sid (uri : U) p : quiet (fetch sid uri p).
Proof.
  apply quiet_then; [apply quiet_look|]. intros x. apply quiet_then; [done|]. intros scope.
  apply quiet_then; [done|]. intros id. case_bool_decide; [|apply quiet_ask].
  apply quiet_then; [apply quiet_ask|done].
Qed.
Lemma quiet_serve sid r token index : quiet (serve sid r token index).
Proof.
  apply quiet_then; [apply quiet_look|]. intros origins. apply quiet_then; [done|]. intros uri.
  apply quiet_then.
  { apply quiet_atomically. intros s O HI. destruct (pb_heap s !! sid) as [x|] eqn:Hx; [|done].
    apply held_change; [done|]. intros y Hy. simplify_eq. split_and!; try done.
    intros Hr. etrans; [apply delete_size|done]. }
  intros [r0|]; [done|]. apply quiet_then; [apply quiet_prepare|]. intros p.
  apply quiet_then; [apply quiet_fetch|]. intros f. apply quiet_then; [apply quiet_assure|intros _].
  destruct (_ && _); [|done]. apply quiet_then; [apply quiet_prepare|]. intros _.
  apply quiet_then; [apply quiet_route|]. intros route.
  apply quiet_then; [apply quiet_keep_redirect|done].
Qed.
End quiet.

(** ** Requests *)

Notation safe := (safe Inv advances anything).
Notation quiet0 := (quiet ∅).
Lemma held_nothing s O : Held ∅ s O ↔ Inv s O.
Proof. unfold Held. by rewrite no_tokens. Qed.
(** Quiet code of a thread that owns nothing. *)
Lemma safe_held_nothing {A} (c : Code State Question A) : ∀ o P,
  Threads.safe (Held ∅) advances anything c o P → safe c o P.
Proof.
  assert (∀ d o, releases (Held ∅) advances d o → releases Inv advances d o) as Hd.
  { intros d o Hd s F HI. apply held_nothing, Hd in HI as [HG HI]. split; [done|by apply held_nothing]. }
  induction c as [a|B d m k IH|X q d k IH]; cbn; intros o P Hc; [done|..].
  - destruct Hc as [Hr Hc]. split; [by apply Hd|]. intros s F b s' HI Hm.
    destruct (Hc s F b s') as (? & o' & HI' & Hs); [by apply held_nothing|done|].
    split; [done|]. exists o'. rewrite held_nothing in HI'. split; [done|by apply IH].
  - destruct Hc as [Hr Hc]. split; [by apply Hd|]. intros x Hx. by apply IH, Hc.
Qed.
Lemma safe_quiet {A} (c : Code State Question A) : quiet0 c → safe c ∅ (λ _ o, o = ∅).
Proof. apply safe_held_nothing. Qed.
Lemma safe_then {A B} (c : Fallible State Question Error A) (f : A → Fallible State Question Error B) o P :
  safe c o (λ r o, match r with Ok a => safe (f a) o P | Err e => P (Err e) o end) → safe (c ≫= f) o P.
Proof. intros Hc. apply safe_bind. eapply safe_mono; [exact Hc|]. by intros []. Qed.
Lemma safe_act {A B} d (m : State → option (B * State)) (k : B → Code State Question A) o P :
  releases Inv advances d o →
  (∀ s F b s', Inv s (o ⊎ F) → m s = Some (b, s') →
     advances s s' ∧ ∃ o', Inv s' (o' ⊎ F) ∧ safe (k b) o' P) →
  safe (Act d m k) o P.
Proof. by split. Qed.
Lemma releases_ref sid : releases (Inv (U := U) (R := R)) advances (drop_ref sid) {[+ Ref sid +]}.
Proof. intros s F. apply inv_unref. Qed.
Lemma releases_own sid b : releases (Inv (U := U) (R := R)) advances (drop_ref sid) {[+ Own sid b +]}.
Proof. intros s F. apply inv_abandon. Qed.
Lemma releases_slot : releases (Inv (U := U) (R := R)) advances release_slot {[+ Slot +]}.
Proof. intros s F. apply inv_release_slot. Qed.
Lemma safe_scoped {A} sid (c : Code State Question A) :
  quiet {[+ Ref sid +]} c → safe (scoped (drop_ref sid) c) {[+ Ref sid +]} (λ _ o, o = ∅).
Proof.
  intros Hc. apply safe_bind. eapply safe_mono.
  - rewrite <-(right_id_L ∅ (⊎) {[+ Ref sid +]}).
    apply (safe_holding _ _ _ _ _ _ ∅ (λ _ o, o = ∅)); [apply releases_ref|apply _|exact Hc].
  - intros a o (o' & -> & ->). rewrite (right_id_L ∅ (⊎)). apply safe_act; [apply releases_ref|].
    intros s F b s' HI [= <- <-]. destruct (inv_unref _ _ _ HI). split; [done|].
    exists ∅. by rewrite no_tokens.
Qed.

(** A resource is stored for whoever holds a reference. *)
Lemma quiet_resolve sid : quiet {[+ Ref sid +]} (resolve sid).
Proof.
  apply quiet_then; [apply quiet_body|]. intros params. apply quiet_then; [done|]. intros text.
  apply quiet_then; [done|]. intros uri. apply quiet_then; [apply quiet_prepare|]. intros p.
  apply quiet_then; [apply quiet_route|]. intros route. apply quiet_then; [|done].
  apply quiet_bind; [|done]. apply quiet_update. intros s O HI. unfold Held in *.
  destruct (ref_shared _ _ _ HI) as (Ho & x & Hx & _). rewrite (on_session_at _ _ _ x) by done.
  assert (∀ b, Own sid b ∉ {[+ Ref sid +]} ⊎ O) as Hno
    by (intros b [?%in_one|?]%in_union; [done|by destruct (Ho b)]).
  split; [by eapply advances_inside|]. eapply inv_inside; try done; cbn.
  - intros _. etrans; [apply insert_size|].
    destruct (Z.leb_spec 16 (Z.of_nat (size (se_prepared x)))); [rewrite map_size_empty|]; lia.
  - intros b Hb. by destruct (Hno b).
Qed.
Lemma quiet_in_session sid r token parts : quiet {[+ Ref sid +]} (in_session sid r token parts).
Proof.
  unfold in_session. destruct (_ && _); [done|]. destruct (_ && _); [apply quiet_resolve|].
  destruct (_ || _); [done|]. apply quiet_then; [done|]. intros index. apply quiet_serve.
Qed.
Lemma safe_get token :
  safe (get token) ∅ (λ r o, match r with Ok sid => o = {[+ Ref sid +]} | Err _ => o = ∅ end).
Proof.
  apply safe_then. apply safe_act.
  { intros s F HI. rewrite no_tokens in HI. by split. }
  intros s F r s' HI [= Heq]. rewrite no_tokens in HI.
  destruct (pb_sessions s !! token) as [sid|] eqn:Hl.
  2: { simplify_eq. split; [done|]. exists ∅. by rewrite no_tokens. }
  destruct (valid_at sid s).
  2: { simplify_eq. split; [done|]. exists ∅. by rewrite no_tokens. }
  simplify_eq. destruct (listed_shared _ _ _ _ HI Hl) as (Ho & x & Hx & Hr & _).
  destruct (inv_clone s F sid x HI Hx Ho Hr) as [HG HI']. split; [done|].
  exists {[+ Ref sid +]}. split; [done|]. apply safe_act; [apply releases_ref|].
  intros s1 F1 b s1' HI1 [= <- <-]. edestruct (inv_change s1 _ sid (touch (pb_now s1)) HI1) as [? ?].
  { intros y Hy. by split_and!. }
  split; [done|]. by exists {[+ Ref sid +]}.
Qed.

(** ** Opening *)

(** Code that changes no tokens, while a new session is held. *)
Lemma safe_new {A} sid b (c : Code State Question A) P :
  quiet {[+ Own sid b +]} c → (∀ a, P a {[+ Own sid b +]}) →
  safe (holding (drop_ref sid) c) {[+ Own sid b +]} P.
Proof.
  intros Hc HP. eapply safe_mono.
  - rewrite <-(right_id_L ∅ (⊎) {[+ Own sid b +]}).
    apply (safe_holding _ _ _ _ _ _ ∅ (λ _ o, o = ∅)); [apply releases_own|apply _|exact Hc].
  - intros a o (o' & -> & ->). by rewrite (right_id_L ∅ (⊎)).
Qed.
Definition registered (sid : nat) (r : result Error (Reply R)) (o : tokens) : Prop :=
  match r with Ok _ => o = {[+ Ref sid +]} | Err _ => ∃ b, o = {[+ Own sid b +]} end.
Lemma safe_register sid :
  safe (holding (drop_ref sid) (register sid)) {[+ Own sid false +]} (registered sid).
Proof.
  assert (∀ A b (c : Fallible State Question Error A) (f : A → Fallible State Question Error (Reply R)),
    quiet {[+ Own sid b +]} c →
    (∀ a, safe (holding (drop_ref sid) (f a)) {[+ Own sid b +]} (registered sid)) →
    safe (holding (drop_ref sid) (c ≫= f)) {[+ Own sid b +]} (registered sid)) as Hthen.
  { intros A b c f Hc Hf. apply safe_holding_bind, safe_new; [done|]. intros []; [apply Hf|by exists b]. }
  apply Hthen; [apply quiet_assure|intros _]. apply Hthen; [apply quiet_look|]. intros source.
  apply Hthen; [done|]. intros uri. apply Hthen; [apply quiet_prepare|]. intros p.
  apply Hthen; [apply quiet_route|]. intros route. apply safe_act; [apply releases_own|].
  intros s F b s' HI [= <- <-]. destruct (own_alone _ _ _ _ HI) as (Hnr & Ho & x & Hx & Hr & Hc & Hsz & _).
  rewrite (on_session_at _ _ _ x) by done. split; [by eapply advances_inside|].
  exists {[+ Own sid true +]}. split.
  { eapply inv_inside; try done; cbn.
    - intros _. etrans; [apply insert_size|]. cbn in Hsz. lia.
    - intros b [Hb%in_one|Hb]%in_union; [|by destruct (Ho b)]. simplify_eq. exists false.
      split; [apply in_union; left; by apply in_one|]. intros _ Hs. etrans; [apply insert_size|]. cbn in *. lia.
    - intros _. exists true. apply in_union. left. by apply in_one.
    - intros k Hk. rewrite !multiplicity_singleton_ne by done. done.
    - rewrite !multiplicity_singleton. by repeat case_decide; simplify_eq. }
  apply safe_act; [apply releases_own|]. clear s F x HI Hnr Ho Hx Hr Hc Hsz. intros s F b s' HI [= Heq].
  destruct (own_alone _ _ _ _ HI) as (_ & _ & x & Hx & _). rewrite Hx in Heq.
  destruct (pb_stopping s) eqn:Hs. { simplify_eq. split; [done|]. eexists. split; [done|]. by exists true. }
  destruct (MAX_SESSIONS <=? _). { simplify_eq. split; [done|]. eexists. split; [done|]. by exists true. }
  simplify_eq. destruct (inv_register _ _ _ _ _ HI Hx Hs). split; [done|]. by exists {[+ Ref sid +]}.
Qed.

Lemma safe_register_or_close sid :
  safe (register_or_close sid) {[+ Own sid false +]} (λ _ o, o = ∅).
Proof.
  apply safe_then. apply safe_bind. eapply safe_mono; [apply safe_register|].
  intros r o Hr. apply safe_act.
  { destruct r; cbn in Hr; [subst; apply releases_ref|destruct Hr as [b ->]; apply releases_own]. }
  intros s F u s' HI [= <- <-]. destruct r; cbn in Hr |- *.
  - subst. destruct (inv_unref _ _ _ HI). split; [done|]. exists ∅. by rewrite no_tokens.
  - destruct Hr as [b ->]. destruct (inv_schedule _ _ _ _ HI). split; [done|]. exists ∅. by rewrite no_tokens.
Qed.
Lemma safe_quiet_then {A B} (c : Fallible State Question Error A)
    (f : A → Fallible State Question Error B) P :
  quiet0 c → (∀ a, safe (f a) ∅ P) → (∀ e, P (Err e) ∅) → safe (c ≫= f) ∅ P.
Proof.
  intros Hc Hf HP. apply safe_then. eapply safe_mono; [by apply safe_quiet|].
  by intros [a|e] o ->.
Qed.
Lemma safe_open method id : safe (open method id) ∅ (λ _ o, o = ∅).
Proof.
  unfold open. apply safe_quiet_then; [done| |done]. intros _. apply safe_quiet_then; [done| |done]. intros n.
  apply safe_quiet_then; [apply quiet_body| |done]. intros params.
  apply safe_quiet_then; [done| |done]. intros rate.
  apply safe_quiet_then; [apply quiet_ask| |done]. intros row.
  apply safe_quiet_then; [done| |done]. intros item.
  apply safe_then. apply safe_act. { intros s F HI. rewrite no_tokens in HI. by split. }
  intros s F r s' HI [= Heq]. rewrite no_tokens in HI.
  destruct (pb_registry s !! item.2) as [p|].
  2: { simplify_eq. split; [done|]. exists ∅. by rewrite no_tokens. }
  destruct (_ || _) eqn:Hc.
  { simplify_eq. split; [done|]. exists ∅. by rewrite no_tokens. }
  simplify_eq. apply orb_false_iff in Hc as [_ Hc]. apply Z.leb_gt in Hc.
  destruct (inv_take_slot _ _ HI Hc). split; [done|]. exists {[+ Slot +]}. split; [done|].
  cbn. split; [apply releases_slot|]. intros opened _.
  assert (∀ (r : result Error (Reply R)), safe (Act release_slot (λ s, Some (tt, release_slot s)) (λ _, Ret r))
    {[+ Slot +]} (λ _ o, o = ∅)) as Hrel.
  { intros r. apply safe_act; [apply releases_slot|]. intros s1 F1 b s1' HI1 [= <- <-].
    destruct (inv_release_slot _ _ HI1). split; [done|]. exists ∅. by rewrite no_tokens. }
  destruct opened as [source|e]; [|apply Hrel]. destruct (pp_kind source); [apply Hrel|].
  apply safe_act; [apply releases_slot|]. intros s1 F1 sid s1' HI1 Heq. injection Heq as <- <-.
  pose proof (inv_created _ _ p (pb_epochs s p) source HI1) as Hnew. cbn in Hnew.
  destruct Hnew as [HG HI2]. split; [done|]. eexists. split; [exact HI2|].
  apply safe_register_or_close.
Qed.
Lemma safe_handle r : safe (handle r) ∅ (λ _ o, o = ∅).
Proof.
  unfold handle. destruct (song_source _); [apply safe_open|].
  apply safe_quiet_then; [done| |done]. intros token. destruct (_ && _).
  - apply safe_quiet, quiet_then; [|done]. apply quiet_bind; [|done]. apply quiet_update.
    intros s O HI. rewrite !held_nothing in *. by apply inv_unlist.
  - apply safe_then. eapply safe_mono; [apply safe_get|]. intros [sid|e] o Ho; [|done]. subst.
    apply safe_scoped, quiet_in_session.
Qed.

(** ** [collect], [invalidate], [shutdown] *)

Definition refs (l : list nat) : tokens := foldr (λ sid o, {[+ Ref sid +]} ⊎ o) ∅ l.
Lemma clone_all l : ∀ s O,
  Inv s O → (∀ sid, sid ∈ l → ∃ token, pb_sessions s !! token = Some sid) →
  advances s (foldr clone_ref s l) ∧ Inv (foldr clone_ref s l) (refs l ⊎ O) ∧
  pb_sessions (foldr clone_ref s l) = pb_sessions s.
Proof.
  induction l as [|sid l IH]; intros s O HI Hl.
  { change (refs []) with (∅ : tokens). by rewrite no_tokens. }
  cbn.
  destruct (IH s O HI) as (HG & HI' & Heq). { intros i Hi. apply Hl. by right. }
  destruct (Hl sid) as [token Ht]; [left|]. rewrite <-Heq in Ht.
  destruct (listed_shared _ _ _ _ HI' Ht) as (Ho & x & Hx & Hr & _).
  destruct (inv_clone _ _ sid x HI' Hx Ho Hr). split_and!; [by etrans| |done].
  by rewrite <-(assoc_L (⊎)).
Qed.
Lemma releases_refs l : releases (Inv (U := U) (R := R)) advances (drop_refs l) (refs l).
Proof.
  induction l as [|sid l IH]; intros s F HI; cbn in *; [by rewrite no_tokens in HI|].
  rewrite <-(assoc_L (⊎)), swap_tokens in HI. destruct (IH _ _ HI) as [HG HI'].
  destruct (inv_unref _ _ _ HI'). split; [by etrans|done].
Qed.
Section one.
Context (h : tokens).
Notation safe_h := (Threads.safe (Held h) advances anything).
Lemma held_ref s F sid : Held h s ({[+ Ref sid +]} ⊎ F) ↔ Inv s ({[+ Ref sid +]} ⊎ (h ⊎ F)).
Proof. unfold Held. by rewrite swap_tokens. Qed.
Lemma held_releases sid : releases (Held h) advances (drop_ref (U := U) (R := R) sid) {[+ Ref sid +]}.
Proof. intros s F HI. apply held_ref, inv_unref in HI as [? ?]. by split. Qed.
Lemma safe_collect_one sid : safe_h (collect_one sid) {[+ Ref sid +]} (λ _ o, o = ∅).
Proof.
  assert (∀ (P : option nat → tokens → Prop), P None ∅ →
    safe_h (_ ← Act (drop_ref sid) (λ s, Some (tt,
      drop_ref sid (match pb_heap s !! sid with
                    | Some x => remove_session (se_token x) s
                    | None => s end))) Ret ; mret None) {[+ Ref sid +]} P) as Hremove.
  { intros P HP. split; [apply held_releases|]. intros s F b s' HI [= <- <-].
    apply held_ref in HI. destruct (ref_shared _ _ _ HI) as (_ & x & Hx & _). rewrite Hx.
    destruct (inv_unlist _ _ (se_token x) HI) as [HG HI']. destruct (inv_unref _ _ _ HI').
    split; [by etrans|]. exists ∅. unfold Held. by rewrite no_tokens. }
  split; [apply held_releases|]. intros s F ok s' HI [= <- <-]. split; [done|]. exists {[+ Ref sid +]}.
  split; [done|]. cbn beta. destruct (valid_at sid s); [|by apply Hremove]. cbn [negb].
  split; [apply held_releases|]. clear s F HI. intros s F idle s' HI [= <- <-]. split; [done|].
  exists {[+ Ref sid +]}. split; [done|]. cbn beta. destruct (is_some_and _ _); [by apply Hremove|].
  split; [apply held_releases|]. clear s F HI. intros s F t s' HI [= <- <-].
  apply held_ref in HI. edestruct (inv_change s _ sid (λ x, with_redirects
    (filter (λ kr, pb_now s - kr.2.1 < REDIRECT_TTL) (se_redirects x)) x) HI) as [HG HI'].
  { intros x Hx. split_and!; try done. intros Hr. etrans; [apply filter_size|done]. }
  destruct (inv_beat _ _ _ HI'). split; [by etrans|]. exists ∅. unfold Held. by rewrite no_tokens.
Qed.
End one.
Lemma safe_collect_all l : safe (collect_all l) (refs l) (λ _ o, o = ∅).
Proof.
  induction l as [|sid l IH]; [done|]. cbn [collect_all refs foldr]. apply safe_bind.
  rewrite (comm_L (⊎)). eapply safe_mono.
  - apply (safe_holding _ _ _ _ _ _ _ (λ _ o, o = ∅)); [apply releases_refs|apply _|apply safe_collect_one].
  - intros beat o (o' & -> & ->). rewrite (right_id_L ∅ (⊎)). apply safe_bind.
    eapply safe_mono; [exact IH|]. by intros beats o ->.
Qed.
Lemma safe_collect : safe collect ∅ (λ _ o, o = ∅).
Proof.
  apply safe_act. { intros s F HI. rewrite no_tokens in HI. by split. }
  intros s F l s' HI Heq. injection Heq as <- <-. rewrite no_tokens in HI.
  destruct (clone_all (map_to_list (pb_sessions s)).*2 s F HI) as (HG & HI' & _).
  { intros sid Hi. apply list_elem_of_fmap in Hi as ([token i] & -> & Hi). exists token.
    by apply elem_of_map_to_list in Hi. }
  split; [done|]. eexists. split; [exact HI'|]. apply safe_bind.
  eapply safe_mono; [apply safe_collect_all|]. intros beats o ->.
  apply safe_quiet, quiet_each, quiet_join.
Qed.
Lemma quiet_invalidate p : quiet0 (invalidate p).
Proof.
  apply quiet_bind; [|intros _; apply quiet_finish_closing]. apply quiet_update.
  intros s O HI. rewrite !held_nothing in *. by apply inv_remove_all.
Qed.

(** Removing all sessions leaves none. *)
Lemma remove_sessions_subset tokens s O :
  Inv s O → pb_sessions (remove_sessions tokens s) ⊆ pb_sessions s ∧
  ∀ token, token ∈ tokens → pb_sessions (remove_sessions tokens s) !! token = None.
Proof.
  revert s. induction tokens as [|token tokens IH]; intros s HI.
  { split; [done|]. by intros token ?%not_elem_of_nil. }
  cbn. destruct (inv_unlist s O token HI) as [_ HI'].
  assert (pb_sessions (remove_session token s) = delete token (pb_sessions s)) as Hrem.
  { unfold remove_session. destruct (pb_sessions s !! token) as [sid|] eqn:Hl.
    - destruct (listed_shared _ _ _ _ HI Hl) as (_ & x & Hx & _ & _ & Hc & _).
      by destruct (schedule_close_eq sid (delete token (pb_sessions s)) s x Hx Hc) as [c ->].
    - by rewrite delete_id. }
  destruct (IH _ HI') as [Hsub Hall]. rewrite Hrem in Hsub. split.
  - etrans; [done|apply delete_subseteq].
  - intros t [->|Ht]%elem_of_cons; [|by apply Hall].
    destruct (_ !! token) eqn:Hx; [|done]. eapply lookup_weaken in Hx; [|done].
    by rewrite lookup_delete_eq in Hx.
Qed.
Lemma remove_all_empty s O :
  Inv s O → pb_sessions (remove_sessions (map_to_list (pb_sessions s)).*1 s) = ∅.
Proof.
  intros HI. destruct (remove_sessions_subset (map_to_list (pb_sessions s)).*1 s O HI) as [Hsub Hall].
  apply map_eq. intros token. rewrite lookup_empty. destruct (_ !! token) as [sid|] eqn:Hl; [|done].
  rewrite Hall in Hl; [done|]. eapply lookup_weaken in Hl; [|done].
  apply list_elem_of_fmap. exists (token, sid). split; [done|by apply elem_of_map_to_list].
Qed.

Lemma stopped_once s F e :
  Inv s ({[+ Stopped false +]} ⊎ F) → (e = true → pb_sessions s = ∅) → Inv s ({[+ Stopped e +]} ⊎ F).
Proof.
  intros HI He. apply (inv_stopping s _ _ HI).
  - intros k Hk. rewrite !multiplicity_disj_union, !multiplicity_singleton_ne; done.
  - intros e' Hs. rewrite in_union, in_one in Hs.
    destruct (i_stopped _ _ HI false) as [Hst _]; [rewrite in_union, in_one; by left|].
    split; [done|]. destruct Hs as [[= ->]|Hs]; [done|]. eapply i_stopped; [done|].
    rewrite in_union. by right.
Qed.
Lemma forget_stopped s F e : Inv s ({[+ Stopped e +]} ⊎ F) → Inv s F.
Proof.
  intros HI. apply (inv_stopping s _ _ HI).
  - intros k Hk. by rewrite multiplicity_disj_union, multiplicity_singleton_ne.
  - intros e' He'. eapply i_stopped; [done|]. rewrite in_union. by right.
Qed.
Lemma releases_stopped e : releases (Inv (U := U) (R := R)) advances id {[+ Stopped e +]}.
Proof. intros s F HI. split; [done|]. by eapply forget_stopped. Qed.
(** The shutdown ends with an empty table, and the knowledge that it stays so. *)
Lemma safe_shutdown : safe shutdown ∅ (λ _ o, o = {[+ Stopped true +]}).
Proof.
  apply safe_act. { intros s F HI. rewrite no_tokens in HI. by split. }
  intros s F b s' HI [= <- <-]. rewrite no_tokens in HI. destruct (inv_halts _ _ HI) as [HG HI'].
  split; [done|]. exists {[+ Stopped false +]}. split.
  { apply (inv_stopping _ _ _ HI').
    - intros k Hk. by rewrite multiplicity_disj_union, multiplicity_singleton_ne.
    - intros e [[= ->]%in_one|He]%in_union; [done|]. by eapply i_stopped. }
  clear s F HI HG HI'. apply safe_act; [apply releases_stopped|]. intros s F b s' HI [= <- <-].
  destruct (inv_remove_all _ _ (map_to_list (pb_sessions s)).*1 HI) as [HG HI']. split; [done|].
  exists {[+ Stopped true +]}. split.
  { apply stopped_once; [done|]. intros _. by eapply remove_all_empty. }
  rewrite <-(right_id_L ∅ (⊎) {[+ Stopped true +]}) at 1.
  eapply safe_mono; [apply safe_frame; [intros ??; apply forget_stopped|apply quiet_finish_closing]|].
  intros a o (o' & -> & ->). by rewrite (right_id_L ∅ (⊎)).
Qed.

(** ** Tasks *)

Definition task_tokens (t sid : nat) : tokens := {[+ Ref sid +]} ⊎ {[+ Runs t +]}.
Lemma releases_task t sid :
  releases (Inv (U := U) (R := R)) advances (end_task t sid) (task_tokens t sid).
Proof. intros s F HI. unfold task_tokens in HI. rewrite <-(assoc_L (⊎)) in HI. by apply inv_end. Qed.
Lemma safe_task t k : safe (task_code t k) (task_tokens t (tk_session k)) (λ _ o, o = ∅).
Proof.
  apply safe_bind. rewrite <-(right_id_L ∅ (⊎) (task_tokens t _)). eapply safe_mono.
  - apply (safe_holding _ _ _ _ _ _ ∅ (λ _ o, o = ∅)); [apply releases_task|apply _|].
    destruct (tk_job k); [apply quiet_cleanup|].
    apply quiet_bind; [apply quiet_observe|]. intros [x|]; [apply quiet_ask|done].
  - intros a o (o' & -> & ->). rewrite (right_id_L ∅ (⊎)). apply safe_act; [apply releases_task|].
    intros s F b s' HI [= <- <-]. destruct (releases_task _ _ _ _ HI). split; [done|].
    exists ∅. by rewrite no_tokens.
Qed.

(** ** The system *)

(** Only the shutdown keeps something. *)
Definition Post (r : Outcome R) (o : tokens) : Prop :=
  o = match r with ShutDown => {[+ Stopped true +]} | _ => ∅ end.
Notation thread_safe := (thread_safe Inv advances anything (λ _, Post)).
Lemma ending_safe (c : Code State Question unit) (r : Outcome R) o o' :
  safe c o (λ _ o, o = o') → Post r o' → safe (ending c r) o Post.
Proof. intros Hc HP. apply safe_bind. eapply safe_mono; [exact Hc|]. by intros a ? ->. Qed.
Lemma running_safe s (c : Code State Question (Outcome R)) w o :
  safe c o Post → thread_safe s (mk_Thread (Some c) w) o.
Proof. intros Hc. exists s. split; [done|by apply safe_is_safe_from]. Qed.
Lemma arrives_safe s th : arrives th → thread_safe s th ∅.
Proof.
  intros [r| |p|]; apply running_safe.
  - apply safe_bind. eapply safe_mono; [apply safe_handle|]. by intros a o ->.
  - eapply ending_safe; [apply safe_collect|done].
  - eapply ending_safe; [apply safe_quiet, quiet_invalidate|done].
  - eapply ending_safe; [apply safe_shutdown|done].
Qed.
Lemma spawned_safe s s' th O :
  start s = Some (s', th) → Inv s O → advances s s' ∧ ∃ o, Inv s' (o ⊎ O) ∧ thread_safe s' th o.
Proof.
  unfold start. intros ([t k] & Hk & [= <- <-])%bind_Some HI.
  apply list_find_Some in Hk as (Hk & Hw & _). cbn [fst snd] in *.
  destruct (inv_start s O t k HI Hk) as [HG HI'].
  { unfold is_waiting in Hw. by destruct (tk_status k). }
  split; [done|]. exists (task_tokens t (tk_session k)). split.
  { unfold task_tokens. by rewrite <-(assoc_L (⊎)). }
  apply running_safe. eapply ending_safe; [apply safe_task|done].
Qed.
#[export] Instance playback_system :
  System Inv advances anything (λ _, Post) arrives start env.
Proof.
  split.
  - apply arrives_safe.
  - apply spawned_safe.
  - apply inv_env.
  - apply _.
  - done.
Qed.
Lemma initial_tokens epochs registry now : Inv (U := U) (R := R) (initial epochs registry now) ∅.
Proof.
  split; try done.
  - by intros sid b _; split; apply gmultiset_not_elem_of_empty.
  - by intros t ?%gmultiset_not_elem_of_empty.
  - intros t. rewrite multiplicity_empty. lia.
  - by intros e ?%gmultiset_not_elem_of_empty.
Qed.
End threads.
