(* ===== verification/Streams.v ===== *)
(** * Playback sessions: what holds of every reachable state

    Bounds, the one closing of every session, the end of the service, and the routes that
    sessions hand out: from the invariant of [Slots.v] and the safety of all threads
    ([PlaybackFacts.v]). *)
From stdpp Require Import gmultiset.
From Stdlib Require Import SpecFloat.
From S2P Require Import Prelude Text Threads Resource Playback Slots PlaybackFacts.
From stdpp Require Import options.
#[local] Set Default Proof Using "Type*".

Open Scope string_scope.
Open Scope Z_scope.
Open Scope list_scope.

(** ** Positions with a property *)

Section positions.
Context {A : Type} (p : A → bool).
Definition positions (l : list A) : list nat :=
  filter (λ i, is_some_and (l !! i) p = true) (seq 0 (length l)).
Lemma length_positions l : length (positions l) = count p l.
Proof.
  unfold positions. fold (count (λ i, is_some_and (l !! i) p) (seq 0 (length l))).
  induction l as [|x l IH] using rev_ind; [done|].
  rewrite length_app, Nat.add_1_r, seq_S, !count_snoc, <-IH. cbn.
  rewrite list_lookup_middle by done. f_equal. apply count_ext.
  intros i Hi%elem_of_seq. by rewrite lookup_app_l by lia.
Qed.
Lemma elem_of_positions l i x : l !! i = Some x → p x = true → i ∈ positions l.
Proof.
  intros Hi Hp. apply list_elem_of_filter. rewrite Hi. split; [done|].
  apply elem_of_seq. apply lookup_lt_Some in Hi. lia.
Qed.
End positions.

Section reachable.
Context {U R : Type} `{!Urls U, !PlaybackLib R, !Inj (=) (=) fresh_token}.
Notation State := (State U R).
Implicit Types (s : State).
Notation World := (State * list (Thread State (Outcome R) (Question U R)))%type.
Implicit Types (w : World).
Notation step := (step (S := State) (A := Outcome R) anything arrives start env).
Notation reachable := (reachable (S := State) (A := Outcome R) anything arrives start env).

(** A state of the program: however it came about. *)
Definition state_of_program w : Prop :=
  ∃ epochs registry now, reachable (initial epochs registry now) w.
Lemma program_sound w :
  state_of_program w → sound (S := State) Inv advances anything (λ _, Post) w.
Proof.
  intros (epochs & registry & now & Hr).
  exact (system_sound _ _ _ _ _ _ _ _ w (initial_tokens epochs registry now) Hr).
Qed.
Lemma program_inv w : state_of_program w → ∃ O, Inv w.1 O.
Proof. intros (os & _ & HI)%program_sound. eauto. Qed.
Lemma program_more w w' : state_of_program w → rtc step w w' → state_of_program w'.
Proof. intros (e & r & n & Hr) Hs. exists e, r, n. by eapply reachable_more. Qed.
Lemma program_advances w w' : state_of_program w → rtc step w w' → advances w.1 w'.1.
Proof.
  intros Hw Hs.
  by destruct (steps_guarantee Inv advances anything (λ _, Post) arrives start env w w' (program_sound w Hw) Hs).
Qed.

(** ** Bounds *)

Lemma size_live s O : Inv s O → (size (pb_sessions s) ≤ live s)%nat.
Proof.
  intros HI. unfold live. rewrite <-length_positions.
  assert (size (pb_sessions s) = length (map_to_list (pb_sessions s)).*2) as ->
    by (rewrite length_fmap; symmetry; apply length_map_to_list).
  apply submseteq_length, NoDup_submseteq.
  - apply NoDup_fmap_2_strong; [|apply NoDup_map_to_list].
    intros [t1 i1] [t2 i2] H1%elem_of_map_to_list H2%elem_of_map_to_list Heq. cbn in *. subst.
    destruct (i_listed _ _ HI _ _ H1) as (x & Hx & <- & _).
    destruct (i_listed _ _ HI _ _ H2) as (y & Hy & <- & _). by simplify_eq.
  - intros i Hi. apply list_elem_of_fmap in Hi as ([token j] & -> & Hl%elem_of_map_to_list).
    destruct (listed_shared _ _ _ _ HI Hl) as (_ & x & Hx & Hr & _).
    by eapply elem_of_positions, in_use_pos.
Qed.

(** C20. Whatever requests arrive, are dropped or fail, and however they interleave: at most
    sixteen sessions are alive, in the table or not, and each keeps at most eight origins,
    sixteen prepared resources and four pending redirects. *)
Theorem sessions_are_bounded w :
  state_of_program w →
  (size (pb_sessions w.1) ≤ live w.1)%nat ∧ Z.of_nat (live w.1) ≤ MAX_SESSIONS - pb_slots w.1 ∧
  0 ≤ pb_slots w.1 ∧
  ∀ sid x, pb_heap w.1 !! sid = Some x →
    (length (se_origins x) ≤ 8)%nat ∧ (size (se_prepared x) ≤ 16)%nat ∧ (size (se_redirects x) ≤ 4)%nat.
Proof.
  intros (O & HI)%program_inv. split; [by eapply size_live|].
  destruct (i_slots _ _ HI). split_and!; [lia|done|]. intros sid x Hx.
  by destruct (so_bounds _ _ _ _ (i_session _ _ HI _ _ Hx)) as ([? _] & ? & ?).
Qed.

(** C19. A session is closed at most once: there is one closing task for every cancelled
    session and none for the others; a cancelled session is in the table no more, and its
    token never comes back; and a session that more than one holds is in the table, or closed. *)
Theorem playbacks_close_once w sid x :
  state_of_program w → pb_heap w.1 !! sid = Some x →
  count (closes sid) (pb_tasks w.1) = Nat.b2n (se_cancelled x) ∧
  ((1 < se_refs x)%nat → pb_sessions w.1 !! se_token x = Some sid ∨ se_cancelled x = true) ∧
  (se_cancelled x = true → ∀ w', rtc step w w' → pb_sessions w'.1 !! se_token x = None).
Proof.
  intros Hw Hx. destruct (program_inv w Hw) as (O & HI).
  pose proof (i_session _ _ HI _ _ Hx) as Hok. split_and!; [by eapply so_closes|..].
  - intros Hr. destruct (se_cancelled x) eqn:Hc; [by right|]. left.
    destruct (so_owned _ _ _ _ Hok Hc) as [Hl|[[b Hb]|?]]; [by apply bool_decide_eq_true in Hl| |lia].
    destruct (so_own _ _ _ _ Hok b Hb). lia.
  - intros Hc w' Hs. destruct (pb_sessions w'.1 !! se_token x) as [sid'|] eqn:Hl; [|done]. exfalso.
    destruct (ad_heap _ _ (program_advances w w' Hw Hs) _ _ Hx) as (x' & Hx' & Ht & _ & _ & Hc').
    destruct (program_inv w' (program_more _ _ Hw Hs)) as (O' & HI').
    destruct (i_listed _ _ HI' _ _ Hl) as (y & Hy & Hty & Hcy).
    rewrite <-Ht, (so_token _ _ _ _ (i_session _ _ HI' _ _ Hx')), (so_token _ _ _ _ (i_session _ _ HI' _ _ Hy)) in Hty.
    apply (inj fresh_token) in Hty. simplify_eq. rewrite Hc' in Hcy; done.
Qed.

(** C21. When the shutdown has returned no session is in the table, and none ever is again; and
    from then on every session has its one closing task, or has none and at most one holder, the
    request that was opening it. *)
Theorem shutdown_is_final w t d w' :
  state_of_program w → w.2 !! t = Some (mk_Thread (Some (Ret ShutDown)) d) → rtc step w w' →
  pb_stopping w'.1 = true ∧ pb_sessions w'.1 = ∅ ∧
  ∀ sid x, pb_heap w'.1 !! sid = Some x →
    if se_cancelled x then count (closes sid) (pb_tasks w'.1) = 1%nat
    else count (closes sid) (pb_tasks w'.1) = 0%nat ∧ (se_refs x ≤ 1)%nat.
Proof.
  intros Hw Ht Hs. pose proof (program_more _ _ Hw Hs) as Hw'.
  destruct (returned_tokens _ _ _ _ _ _ _ w' t ShutDown d (program_sound w' Hw')) as (o & F & HI & Ho).
  { by eapply returned_remains. }
  red in Ho. subst o. destruct (i_stopped _ _ HI true) as [? He].
  { apply in_union. left. by apply in_one. }
  specialize (He eq_refl). split_and!; [done..|]. intros sid x Hx.
  pose proof (i_session _ _ HI _ _ Hx) as Hok. pose proof (so_closes _ _ _ _ Hok) as Hc.
  destruct (se_cancelled x) eqn:Hcan; [done|]. split; [done|].
  destruct (so_owned _ _ _ _ Hok Hcan) as [Hl|[[b Hb]|?]]; [|by destruct (so_own _ _ _ _ Hok b Hb); lia|lia].
  apply bool_decide_eq_true in Hl. by rewrite He in Hl.
Qed.
End reachable.

(** ** Routes *)

(** A URL without credentials and fragment is its origin, its path and its query, and the
    setters change just those. *)
Class UrlLaws U `{!Urls U} : Prop := {
  same_origin_refl (u : U) : url_same_origin u u = true;
  url_ext (u v : U) : routable u = true → routable v = true → url_same_origin u v = true →
    url_path u = url_path v → url_query u = url_query v → u = v;
  routable_set_path p (u : U) : routable (url_set_path p u) = routable u;
  origin_set_path p (u v : U) : url_same_origin (url_set_path p u) v = url_same_origin u v;
  path_set_path (u v : U) : url_same_origin u v = true → url_path (url_set_path (url_path v) u) = url_path v;
  routable_set_query q (u : U) : routable (url_set_query q u) = routable u;
  origin_set_query q (u v : U) : url_same_origin (url_set_query q u) v = url_same_origin u v;
  path_set_query q (u : U) : url_path (url_set_query q u) = url_path u;
  query_set_query (u v : U) : url_same_origin u v = true → url_query (url_set_query (url_query v) u) = url_query v;
  path_absolute (u : U) : routable u = true → ∃ p, url_path u = "/" +:+ p;
}.
(** Names of sessions differ, and have no slash ([Uuid::simple]). *)
Definition plain_segment (t : string) : bool := string_all (λ c, negb (Ascii.eqb (chr 47) c)) t.
Class SessionNames R `{!PlaybackLib R} : Prop := {
  #[global] fresh_inj :: Inj (=) (=) fresh_token;
  fresh_plain n : plain_segment (fresh_token n) = true;
}.

(** The request for a route. *)
Definition routed {U} `{!Urls U} (method : Method) (token : string) (index : Z) (uri : U)
    (range : option string) : Request :=
  mk_Request method (route_prefix token index +:+ url_path uri) (url_query uri) range.

Section routes.
Context {U : Type} `{!Urls U, !UrlLaws U}.
Implicit Types (u uri : U).
Lemma same_url o uri :
  routable o = true → routable uri = true → url_same_origin o uri = true →
  url_set_query (url_query uri) (url_set_path (url_path uri) o) = uri.
Proof.
  intros Ho Hu Hs. apply url_ext.
  - by rewrite routable_set_query, routable_set_path.
  - done.
  - by rewrite origin_set_query, origin_set_path.
  - by rewrite path_set_query, path_set_path.
  - by rewrite query_set_query by (by rewrite origin_set_path).
Qed.
Lemma split_on_some p s : split_on p s ≠ [].
Proof. destruct s as [|c s]; [done|]. cbn. destruct (p c); [done|]. by destruct (split_on p s). Qed.
Lemma digit_not_sep c : is_digit c = true → Ascii.eqb (chr 47) c = false.
Proof. intros Hc. apply Ascii.eqb_neq. intros <-. by vm_compute in Hc. Qed.
Lemma routed_parts token i p :
  plain_segment token = true → 0 ≤ i →
  path_parts (route_prefix token i +:+ "/" +:+ p) =
    ["playback"; token; "r"; show_u64 i] ++ split_char (chr 47) p.
Proof.
  intros Ht Hi. unfold path_parts, route_prefix.
  transitivity (drop 1 ("" :: "playback" :: split_char (chr 47) (token +:+ String (chr 47) ("r" +:+ String (chr 47)
    (show_u64 i +:+ String (chr 47) p))))).
  { by rewrite !append_assoc. }
  cbn [drop]. unfold split_char. rewrite !split_on_app; [done|..]; try done.
  eapply string_all_impl; [|by apply show_u64_digits]. intros c Hc. by rewrite digit_not_sep.
Qed.
Lemma requested_routed method token i uri range (origins : list U) o :
  0 ≤ i → is_u64 i → origins !! Z.to_nat i = Some o → routable o = true → routable uri = true →
  url_same_origin o uri = true →
  requested_uri (routed method token i uri range) token (show_u64 i) origins = Ok uri.
Proof.
  intros Hi Hu64 Ho Hro Hru Hs. unfold requested_uri. rewrite parse_show_u64 by done. cbn.
  rewrite Ho. cbn. rewrite strip_prefix_app. cbn. by rewrite same_url.
Qed.
End routes.

Section serving.
Context {U R : Type} `{!Urls U, !UrlLaws U, !PlaybackLib R, !SessionNames R}.
Notation State := (State U R).
Implicit Types (s : State).
Notation World := (State * list (Thread State (Outcome R) (Question U R)))%type.
Implicit Types (w : World).
Notation step := (step (S := State) (A := Outcome R) anything arrives start env).
Context (oracle : ∀ X, Question U R X → X).

Lemma route_result s sid x uri text s1 :
  pb_heap s !! sid = Some x → run_code oracle 2 (route sid uri) s = (Ret (Ok text), s1) →
  routable uri = true ∧ ∃ x1 i o, pb_heap s1 !! sid = Some x1 ∧ se_token x1 = se_token x ∧
    se_origins x1 !! i = Some o ∧ url_same_origin o uri = true ∧
    text = route_prefix (se_token x) (Z.of_nat i) +:+ url_path uri +:+ query_suffix (url_query uri).
Proof.
  intros Hx. unfold route, require. destruct (routable uri) eqn:Hu; [|done]. cbn. rewrite Hx. intros Hr.
  split; [done|]. destruct (position _ _) as [i|] eqn:Hp.
  - simplify_eq/=. unfold position in Hp. apply fmap_Some in Hp as ([j o] & Hf & ->).
    apply list_find_Some in Hf as (Hj & Ho & _). eauto 10.
  - destruct (8 <=? zlen (se_origins x)); [done|]. simplify_eq/=.
    exists (with_origins (se_origins x ++ [uri]) x), (length (se_origins x)), uri. split_and!; try done.
    + rewrite (alter_insert _ _ _ x) by done. rewrite list_lookup_insert_eq by by eapply lookup_lt_Some.
      done.
    + by apply list_lookup_middle.
    + apply same_origin_refl.
Qed.

(** C22. The address that [route] hands out for a URL of the provider stands for that URL for
    as long as the program runs: a request for it names the session and the origin, and the
    URL that [serve] rebuilds from it is the one that was routed, whatever happened meanwhile. *)
Theorem routes_stay_valid w w1 w' sid x uri text :
  state_of_program w → pb_heap w.1 !! sid = Some x →
  run_code oracle 2 (route sid uri) w.1 = (Ret (Ok text), w1.1) →
  state_of_program w1 → rtc step w1 w' →
  ∃ x' i, pb_heap w'.1 !! sid = Some x' ∧ ∀ method range,
    let r := routed method (se_token x') i uri range in
    rq_uri r = text ∧
    take 4 (path_parts (rq_path r)) = ["playback"; se_token x'; "r"; show_u64 i] ∧
    5 ≤ zlen (path_parts (rq_path r)) ∧
    requested_uri r (se_token x') (show_u64 i) (se_origins x') = Ok uri.
Proof.
  intros Hw Hx Hrun H1 Hs. destruct (route_result _ _ _ _ _ _ Hx Hrun) as (Hu & x1 & i & o & Hx1 & Ht & Ho & Hso & ->).
  destruct (ad_heap _ _ (program_advances _ _ H1 Hs) _ _ Hx1) as (x' & Hx' & Ht' & _ & Hpre & _).
  destruct (program_inv _ (program_more _ _ H1 Hs)) as (O & HI).
  destruct (so_bounds _ _ _ _ (i_session _ _ HI _ _ Hx')) as ([Hlen Hall] & _).
  pose proof (prefix_lookup_Some _ _ _ _ Ho Hpre) as Ho'.
  pose proof (lookup_lt_Some _ _ _ Ho') as Hlt.
  exists x', (Z.of_nat i). split; [done|]. intros method range. cbn zeta.
  destruct (path_absolute uri Hu) as [p Hp].
  assert (path_parts (rq_path (routed method (se_token x') (Z.of_nat i) uri range)) =
    ["playback"; se_token x'; "r"; show_u64 (Z.of_nat i)] ++ split_char (chr 47) p) as Hparts.
  { cbn [rq_path routed]. rewrite Hp. apply routed_parts; [|lia].
    rewrite (so_token _ _ _ _ (i_session _ _ HI _ _ Hx')). apply fresh_plain. }
  rewrite Hparts. split_and!.
  - unfold rq_uri. cbn. rewrite append_assoc. by rewrite Ht', Ht.
  - done.
  - destruct (split_char (chr 47) p) eqn:Hsp; [by destruct (split_on_some (Ascii.eqb (chr 47)) p)|].
    unfold zlen. cbn. lia.
  - apply (requested_routed _ _ _ _ _ _ o); [lia|unfold is_u64, u64_max; lia|by rewrite Nat2Z.id| |done..].
    eapply Forall_lookup_1 in Hall; done.
Qed.
End serving.

(** ** An example *)

Module PlaybackExample.
Record Address := mk_Address { ad_host : string; ad_path : string; ad_query : option string }.
Definition strip_slash (p : string) : string := default p (strip_prefix "/" p).
#[export] Instance address_urls : Urls Address := {|
  url_parse s := (λ p, mk_Address "host" p None) <$> strip_prefix "http://host/" s;
  url_str u := "http://" +:+ ad_host u +:+ "/" +:+ ad_path u +:+ query_suffix (ad_query u);
  url_scheme u := "http";
  url_username u := "";
  url_password u := None;
  url_fragment u := None;
  url_path u := "/" +:+ ad_path u;
  url_query := ad_query;
  url_same_origin u v := str_eqb (ad_host u) (ad_host v);
  url_set_path p u := mk_Address (ad_host u) (strip_slash p) (ad_query u);
  url_set_query q u := mk_Address (ad_host u) (ad_path u) q;
  url_eqb u v := str_eqb (ad_host u) (ad_host v) && str_eqb (ad_path u) (ad_path v) &&
    bool_decide (ad_query u = ad_query v);
  url_query_pairs u := [];
  url_extend_pairs pairs u := u;
|}.
#[export] Instance address_laws : UrlLaws Address.
Proof.
  split; try done.
  - intros u. by apply str_eqb_eq.
  - intros [h p q] [h' p' q'] _ _ Hh [= Hp] Hq. apply str_eqb_eq in Hh. cbn in *.
    change (p = p') in Hp. by subst.
  - intros u _. by exists (ad_path u).
Qed.
Fixpoint name (n : nat) : string := match n with O => "s" | S n => "t" +:+ name n end.
#[export] Instance plain_lib : PlaybackLib string := {|
  provider_id p := Some p;
  fresh_token := name;
  show_header h := default "None" h;
  scope_json token representation epoch := Some (token +:+ representation);
  body_params bytes := Some (mk_Params None None);
  is_success r := true;
  without_body r := "";
|}.
#[export] Instance plain_names : SessionNames string.
Proof.
  split.
  - intros n. induction n as [|n IH]; intros [|m] Heq; try done.
    f_equal. apply IH. by injection Heq.
  - induction n as [|n IH]; [done|]. exact IH.
Qed.
(** A world with one song, whose provider 1 streams it. *)
Definition world (X : Type) (q : Question Address string X) : X :=
  match q with
  | ReadBody => Some []
  | FindSong id => Ok (Some ("song", 1))
  | OpenPlayback p r => Ok (mk_PreparedPlayback HlsVod "http://host/a.m3u8" "rep" "st" None)
  | PrepareResource p state uri => Ok (7, WholeObject)
  | KeepPlayback p state => tt
  | ClosePlayback p state => true
  | Fetch p scope r => Ok "media"
  | FetchObject p scope r => Ok ("media", mk_Address "host" "a.m3u8" None)
  end.
Definition empty : State Address string := initial (λ _, 0) {[1 := 1]} 0.
Notation Run := (State Address string *
  list (Thread (State Address string) (Outcome string) (Question Address string)))%type.
Notation step := (step (S := State Address string) (A := Outcome string) anything arrives start env).

(** Runs: a thread comes, a spawned task starts, a thread makes up to [n] steps. *)
Definition arriving (c : Code (State Address string) (Question Address string) (Outcome string))
    (d : bool) (w : Run) : Run := (w.1, w.2 ++ [mk_Thread (Some c) d]).
Definition starting (w : Run) : Run :=
  match start w.1 with Some (s, th) => (s, w.2 ++ [th]) | None => w end.
Definition running (t n : nat) (w : Run) : Run :=
  match w.2 !! t with
  | Some (mk_Thread (Some c) d) =>
      ((run_code world n c w.1).2, go t (Some (run_code world n c w.1).1) w.2)
  | _ => w
  end.
Definition dropping (t : nat) (w : Run) : Run :=
  match w.2 !! t with
  | Some (mk_Thread (Some c) true) =>
      match dropped c with Some d => (d w.1, go t None w.2) | None => w end
  | _ => w
  end.
Lemma empty_reached : state_of_program ((empty, []) : Run).
Proof. exists (λ _, 0), {[1 := 1]}, 0. apply First. Qed.
Lemma arriving_reached c d w :
  arrives (mk_Thread (Some c) d) → state_of_program w → state_of_program (arriving c d w).
Proof. intros Ha Hw. eapply program_more; [exact Hw|]. apply rtc_once. destruct w. by apply Arrives. Qed.
Lemma starting_reached w : state_of_program w → state_of_program (starting w).
Proof.
  intros Hw. unfold starting. destruct (start w.1) as [[s th]|] eqn:Hs; [|done].
  eapply program_more; [exact Hw|]. apply rtc_once. destruct w. by apply Starts.
Qed.
Lemma running_steps t n w : rtc step w (running t n w).
Proof.
  unfold running. destruct (w.2 !! t) as [[[c|] d]|] eqn:Ht; [|done..].
  destruct (run_code world n c w.1) as [c' s'] eqn:Hr. destruct w.
  by eapply (run_code_steps world anything arrives start env).
Qed.
Lemma running_reached t n w : state_of_program w → state_of_program (running t n w).
Proof. intros Hw. eapply program_more; [exact Hw|]. apply running_steps. Qed.
Lemma dropping_reached t w : state_of_program w → state_of_program (dropping t w).
Proof.
  intros Hw. unfold dropping. destruct (w.2 !! t) as [[[c|] []]|] eqn:Ht; [|done..].
  destruct (dropped c) as [d|] eqn:Hd; [|done].
  eapply program_more; [exact Hw|]. apply rtc_once. destruct w. by eapply Drops.
Qed.
Definition request (method : Method) (path : string)
    : Code (State Address string) (Question Address string) (Outcome string) :=
  o ← handle (mk_Request method path None None) ; mret (Replied o).
Lemma request_reached method path w :
  state_of_program w → state_of_program (arriving (request method path) true w).
Proof. apply arriving_reached. constructor. Qed.

(** A song is opened; the session is known; it is closed again. *)
Definition opening : Run := arriving (request Playback.Post "/playback/source/Song/5") true (empty, []).
Definition opened : Run := running 0 15 opening.
Definition closed_again : Run :=
  running 1 10 (arriving (request Playback.Post "/playback/s/close") true opened).
Definition shut : Run :=
  running 1 10 (running 2 10 (starting (running 1 10 (arriving (ending shutdown ShutDown) false opened)))).
Lemma opening_reached : state_of_program opening.
Proof. apply request_reached, empty_reached. Qed.
Lemma opened_reached : state_of_program opened.
Proof. apply running_reached, opening_reached. Qed.
Lemma closed_again_reached : state_of_program closed_again.
Proof. apply running_reached, request_reached, opened_reached. Qed.
Lemma shut_reached : state_of_program shut.
Proof.
  apply running_reached, running_reached, starting_reached, running_reached, arriving_reached; [constructor|].
  apply opened_reached.
Qed.

(** A request that is dropped while its session is prepared leaves the session of the provider
    open: the session is gone, and nothing will close it. *)
Lemma dropped_opening_leaks :
  ∃ w, state_of_program w ∧ pb_sessions w.1 = ∅ ∧ pb_tasks w.1 = [] ∧ pb_slots w.1 = 16 ∧
    w.2 !! 0%nat ≫= th_code = None ∧
    ∃ x, pb_heap w.1 !! 0%nat = Some x ∧ se_refs x = 0%nat ∧ se_cancelled x = false.
Proof.
  exists (dropping 0 (running 0 10 opening)).
  split; [apply dropping_reached, running_reached, opening_reached|].
  split_and!; [vm_compute; reflexivity..|]. eexists. split_and!; vm_compute; reflexivity.
Qed.

Lemma sessions_are_bounded_witness :
  live opened.1 = 1%nat ∧ size (pb_sessions opened.1) = 1%nat ∧
  (size (pb_sessions opened.1) ≤ live opened.1)%nat ∧ Z.of_nat (live opened.1) ≤ MAX_SESSIONS - pb_slots opened.1.
Proof.
  split; [vm_compute; reflexivity|]. split; [vm_compute; reflexivity|].
  split; apply (sessions_are_bounded opened opened_reached).
Defined.
Lemma playbacks_close_once_witness :
  ∃ x, pb_heap closed_again.1 !! 0%nat = Some x ∧ se_cancelled x = true ∧
    count (closes 0) (pb_tasks closed_again.1) = 1%nat.
Proof.
  eexists. split; [vm_compute; reflexivity|]. split; [reflexivity|].
  exact (proj1 (playbacks_close_once closed_again 0 _ closed_again_reached ltac:(vm_compute; reflexivity))).
Defined.
Lemma shutdown_is_final_witness :
  pb_slots shut.1 = 16 ∧ pb_stopping shut.1 = true ∧ pb_sessions shut.1 = ∅.
Proof.
  split; [vm_compute; reflexivity|].
  destruct (shutdown_is_final shut 1 false shut shut_reached ltac:(vm_compute; reflexivity) (rtc_refl _ _))
    as (Hs & Ht & _). split; [exact Hs|exact Ht].
Defined.
Lemma routes_stay_valid_witness :
  ∃ x' i, pb_heap (running 0 3 (running 0 12 opening)).1 !! 0%nat = Some x' ∧
    requested_uri (routed Get (se_token x') i (mk_Address "host" "a.m3u8" None) None) (se_token x')
      (show_u64 i) (se_origins x') = Ok (mk_Address "host" "a.m3u8" None).
Proof.
  assert (∃ x, pb_heap (running 0 11 opening).1 !! 0%nat = Some x) as [x Hx].
  { eexists. vm_compute. reflexivity. }
  destruct (routes_stay_valid world (running 0 11 opening) (running 0 12 opening)
    (running 0 3 (running 0 12 opening)) 0 x (mk_Address "host" "a.m3u8" None) "/playback/s/r/0/a.m3u8")
    as (x' & i & Hx' & Hr).
  - apply running_reached, opening_reached.
  - exact Hx.
  - vm_compute. reflexivity.
  - apply running_reached, opening_reached.
  - apply running_steps.
  - destruct (Hr Get None) as (_ & _ & _ & Hu). by exists x', i.
Defined.
End PlaybackExample.
