(* ===== verification/Delivery.v ===== *)
(** * Resource cache: requests, ranges and answers

    The functions of [resource_cache/service.rs] and [resource_cache/file_delivery.rs] that
    only compute: which headers go upstream, what a cached entry is called, the ranges of
    requests and of answers, the heads of responses, and who may be given local files. *)
From stdpp Require Import sorting.
From Stdlib Require Import Ascii.
From S2P Require Import Prelude Text Format HttpRange Policy Storage Materialize Resource.
From stdpp Require Import options.
#[local] Set Default Proof Using "Type*".

Open Scope Z_scope.
Open Scope list_scope.

(** [HeaderMap::extend], the bytes of a header, [serde_json] for the key of an entry, file URLs
    and the version of a UUID. *)
Class ServiceLib (H V : Type) := {
  hm_extend : H → H → H;
  hv_bytes : V → list Z;
  key_json : Z → string → string → list (string * string) → option (list Z);
  file_url : string → option string;
  parse_uuid : string → option Z;
}.


(** Of the world outside: an answer of a server. [up_length] is its content length, [up_body]
    the pieces of its body, and [up_failure] the error the body ends with, if it does.
    [up_full] and nothing else of it is not in the answer itself: the representation, whole,
    that the server took the answer from; no definition reads it. *)
Record Upstream (H U : Type) := mk_Upstream {
  up_status : Z; up_headers : H; up_length : option Z; up_url : U;
  up_body : list (list Z); up_failure : option string; up_full : list Z
}.
Arguments mk_Upstream {H U}. Arguments up_status {H U}. Arguments up_headers {H U}.
Arguments up_length {H U}. Arguments up_url {H U}. Arguments up_body {H U}.
Arguments up_failure {H U}. Arguments up_full {H U}.

Section delivery.
Context {H V U : Type} `{!HttpHeaders H V, !Urls U, !ServiceLib H V, D : Digest}.
Notation Upstream := (Upstream H U).
Notation PreparedResource := (PreparedResource H U).
Notation Metadata := Storage.Metadata.

(** ** Requests to the provider *)

Definition copy_header (client headers : H) (key : string) : H :=
  match get client key with Some v => hm_insert key v headers | None => headers end.
Definition request_headers (prepared client : H) : H :=
  remove_all cache_headers
    (fold_left (copy_header client)
       ["accept"; "accept-language"; "icy-metadata"; "cache-control"; "pragma"]%string prepared).
Definition downstream_request (base client : H) : H :=
  fold_left (copy_header client) cache_headers base.

(** ** Names of entries *)

(** [format!("{:?}", bytes)]. *)
Definition show_bytes (l : list Z) : string :=
  ("[" +:+ Text.join ", " (show_u64 <$> l) +:+ "]")%string.
Definition pair_le (a b : string * string) : Prop :=
  match String.compare a.1 b.1 with
  | Lt => True
  | Eq => String.leb a.2 b.2 = true
  | Gt => False
  end.
#[export] Instance pair_le_dec a b : Decision (pair_le a b).
Proof. unfold pair_le. destruct (String.compare a.1 b.1); apply _. Defined.
Definition varying (k : string) : bool :=
  existsb (str_eqb k)
    ["cache-control"; "pragma"; "range"; "if-range"; "if-none-match"; "if-modified-since"]%string.
Definition canonical_headers (headers : H) : list (string * string) :=
  merge_sort pair_le
    ((λ kv, (kv.1, show_bytes (hv_bytes kv.2))) <$> filter (λ kv, varying kv.1 = false) (hm_iter headers)).
Definition cache_key (provider : Z) (scope : string) (prepared : PreparedResource) (base : H)
    : result string string :=
  json ← ok_or (key_json provider scope (url_str (cache_url prepared (pr_url prepared)))
                  (canonical_headers base)) "json"%string ;
  identity json.
(** The URL an answer came from, as it is compared. *)
Definition target_of (prepared : PreparedResource) (url : U) : result string string :=
  identity (bytes_of (url_str (cache_url prepared url))).

(** ** Answers of the provider *)

Definition OK : Z := 200.
Definition PARTIAL_CONTENT : Z := 206.
Definition NOT_MODIFIED : Z := 304.
Definition RANGE_NOT_SATISFIABLE : Z := 416.
Definition GATEWAY_TIMEOUT : Z := 504.

(** The length of the representation, and the part of it that the answer has. *)
Definition response_geometry (r : Upstream) : result string (option (Z * (Z * Z))) :=
  if up_status r =? PARTIAL_CONTENT then
    cr ← ok_or (value (up_headers r) "content-range" ≫= parse_content_range) "invalid Content-Range"%string ;
    ensure ((cr_start cr <=? cr_end cr) && (cr_end cr <? cr_full cr)) "invalid response range"%string ;;
    ensure (is_none_or (up_length r) (λ n, n =? wadd (wsub (cr_end cr) (cr_start cr)) 1))
      "range length mismatch"%string ;;
    match up_length r with
    | None => mret None
    | Some _ => mret (Some (cr_full cr, (cr_start cr, wadd (cr_end cr) 1)))
    end
  else mret (option_map (λ n, (n, (0, n))) (up_length r)).

Definition metadata (generation : string) (prepared : PreparedResource) (provider kind : Z) (key : string)
    (length : Z) (r : Upstream) (policy : Policy) : result string Metadata :=
  geometry ← Geometry_new length ;
  target ← target_of prepared (up_url r) ;
  mret (mk_Metadata key provider kind generation geometry (saved (up_headers r)) policy target
          (up_status r =? PARTIAL_CONTENT) Blocks).

Definition ensure_validation (prepared : PreparedResource) (old : Metadata) (r : Upstream)
    : result string unit :=
  match value (up_headers r) "content-length" with
  | Some length => ensure (bool_decide (parse_u64 length = Some (g_length (m_geometry old))))
                     "304 representation length changed"%string
  | None => mret tt
  end ;;
  target ← target_of prepared (up_url r) ;
  ensure (str_eqb target (m_target old)) "validation target changed"%string ;;
  match value (up_headers r) "etag" with
  | Some etag => ensure (bool_decide (Policy.etag (m_policy old) = Some etag)) "304 validator changed"%string
  | None => mret tt
  end ;;
  match value (up_headers r) "last-modified" with
  | Some modified => ensure (bool_decide (Policy.modified (m_policy old) = Some modified))
                       "304 modification date changed"%string
  | None => mret tt
  end.

(** ** Ranges of requests *)

Definition range_requested (headers : H) (m : Metadata) : bool :=
  if is_some_and (value headers "if-range")
       (λ if_range, negb (bool_decide (range_value (m_policy m) = Some if_range))) then false
  else match value headers "range" ≫= strip_prefix "bytes=" with
       | None => false
       | Some text =>
         if bool_decide (1 < zlen (split_char (chr 44) text)) then false
         else match split_once (chr 45) text with
              | None => false
              | Some (start, stop) =>
                if is_empty start then bool_decide (is_Some (parse_u64 stop))
                else is_some_and (parse_u64 start) (λ start,
                       is_empty stop || is_some_and (parse_u64 stop) (λ stop, start <=? stop))
              end
       end.
(** [None] is a range that cannot be satisfied. *)
Definition client_range (headers : H) (m : Metadata) : option (Z * Z) :=
  let length := g_length (m_geometry m) in
  if negb (range_requested headers m) then Some (0, length)
  else
    let text := trim_start_matches "bytes=" (opt_default EmptyString (value headers "range")) in
    match split_once (chr 45) text with
    | None => Some (0, length)
    | Some (start, stop) =>
      if is_empty start then
        match parse_u64 stop with
        | None => Some (0, length)
        | Some suffix =>
          if (0 <? suffix) && (0 <? length) then Some (sat_sub length suffix, length) else None
        end
      else match parse_u64 start with
           | None => Some (0, length)
           | Some start =>
             match (if is_empty stop then Some length
                    else option_map (λ v, Z.min (sat_add v 1) length) (parse_u64 stop)) with
             | None => Some (0, length)
             | Some stop => if (start <? stop) && (start <? length) then Some (start, stop) else None
             end
           end
    end.

(** The first block that is asked of the provider for a song: a rough reading of the range. *)
Definition first_start (headers : H) : Z :=
  let start :=
    if contains_key headers "if-range" then 0
    else opt_default 0 (
      v ← value headers "range" ;
      v ← strip_prefix "bytes=" v ;
      s ← split_once (chr 45) v ;
      parse_u64 s.1) in
  start / MAX_BLOCK * MAX_BLOCK.
Definition FETCH_BYTES : Z := 4 * 1024 * 1024.
Definition OUTPUT_BYTES : Z := 64 * 1024.
Definition show_bytes_range (start stop : Z) : string :=
  ("bytes=" +:+ show_u64 start +:+ "-" +:+ show_u64 stop)%string.
Definition first_range (headers : H) : string :=
  let start := first_start headers in
  let length := if start =? 0 then FETCH_BYTES else MAX_BLOCK in
  show_bytes_range start (sat_add start (length - 1)).

(** ** Heads of responses *)

(** [value.parse().unwrap()] of texts the code prints itself. *)
Definition insert_text (key text : string) (h : H) : H :=
  match hv_from_str text with Some v => hm_insert key v h | None => h end.
Definition empty_head (status : Z) (headers : H) : Z * H :=
  (status, if status =? NOT_MODIFIED then headers else insert_text "content-length" "0" headers).
Definition unsatisfiable_head (m : Metadata) : Z * H :=
  empty_head RANGE_NOT_SATISFIABLE
    (insert_text "content-range" ("bytes */" +:+ show_u64 (g_length (m_geometry m)))%string
       (restore (m_headers m))).
Definition passed_head (r : Upstream) : Z * H := (up_status r, forwarded (up_headers r)).
Definition is_partial (headers : H) (m : Metadata) (range : Z * Z) : bool :=
  negb (range.1 =? 0) || negb (range.2 =? g_length (m_geometry m)) || range_requested headers m.
Definition range_text (range : Z * Z) (length : Z) : string :=
  show_content_range (mk_HttpContentRange range.1 (range.2 - 1) length).
(** The head of a streamed range; [now] is the clock, [ranges] whether ranges are offered. *)
Definition stream_head (request : H) (m : Metadata) (range : Z * Z) (ranges : bool) (now : Z) : Z * H :=
  let headers := restore (m_headers m) in
  let headers := insert_text "age" (show_u64 (Policy.age (m_policy m) now)) headers in
  let headers := insert_text "content-length" (show_u64 (range.2 - range.1)) headers in
  let headers := if ranges then insert_text "accept-ranges" "bytes" headers else headers in
  if is_partial request m range
  then (PARTIAL_CONTENT, insert_text "content-range" (range_text range (g_length (m_geometry m))) headers)
  else (OK, headers).
(** The head of an object, which is sent from memory. *)
Definition object_head (request : H) (m : Metadata) (range : Z * Z) (now : Z) : Z * H :=
  let headers := restore (m_headers m) in
  let headers := insert_text "content-length" (show_u64 (range.2 - range.1)) headers in
  let headers := insert_text "accept-ranges" "bytes" headers in
  let headers := insert_text "age" (show_u64 (Policy.age (m_policy m) now)) headers in
  if range_requested request m
  then (PARTIAL_CONTENT, insert_text "content-range" (range_text range (g_length (m_geometry m))) headers)
  else (OK, headers).

(** ** Local files *)

Definition leases_path : string := "/resource-file-leases/".
Definition file_head (f : LocalFile) : result string (Z * H) :=
  url ← ok_or (file_url (lf_path f)) "invalid local file URL"%string ;
  mret (302,
    insert_text "qcm-file-release" (leases_path +:+ lf_token f)
      (insert_text "qcm-file-renew" (leases_path +:+ lf_token f +:+ "/renew")
         (insert_text "qcm-file-generation" (lf_generation f)
            (insert_text "qcm-file-lease-seconds" (show_u64 (lf_lifetime f))
               (insert_text "qcm-file-lease" (lf_token f)
                  (insert_text "content-length" "0"
                     (insert_text "cache-control" "no-store" (insert_text "location" url hm_new)))))))).
(** What is kept of the key of the client that may have files. *)
Definition authorize_file_client (linux : bool) (key : string) : result string string :=
  ensure linux "local file delivery is not verified on this platform"%string ;;
  ensure ((slen key =? 32) && bool_decide (parse_uuid key = Some 4)) "invalid file client key"%string ;;
  identity (bytes_of key).
Definition authenticated_file_client (client : option string) (headers : H) : option string :=
  match hm_get_all headers "qcm-file-client" with
  | [v] =>
    if negb (zlen (hv_bytes v) =? 32) then None
    else
      hash ← ok (identity (hv_bytes v)) ;
      if bool_decide (client = Some hash) then Some hash else None
  | _ => None
  end.
Definition file_client_for (client : option string) (headers : H) : option string :=
  match hm_get_all headers "qextra-image-transport" with
  | [v] => if bool_decide (hv_bytes v = bytes_of "file-lease-v1")
           then authenticated_file_client client headers else None
  | _ => None
  end.
End delivery.
