(* ===== verification/DeliveryFacts.v ===== *)
(** * Resource cache: what ranges mean

    The range a request gets is the range it asks for, cut to the representation; and the
    head of the answer says which. *)
From Stdlib Require Import Ascii.
From S2P Require Import Prelude Text Format HttpRange Policy Storage Materialize Resource Delivery.
From stdpp Require Import options.
#[local] Set Default Proof Using "Type*".

Open Scope Z_scope.
Open Scope list_scope.

#[local] Arguments show_u64 : simpl never.
#[local] Arguments parse_u64 : simpl never.

(** ** Ranges, as RFC 9110 has them *)

Inductive ByteSpec := Between (first last : Z) | From (first : Z) | Suffix (n : Z).
Definition show_spec (r : ByteSpec) : string :=
  match r with
  | Between first last => ("bytes=" +:+ show_u64 first +:+ "-" +:+ show_u64 last)%string
  | From first => ("bytes=" +:+ show_u64 first +:+ "-")%string
  | Suffix n => ("bytes=-" +:+ show_u64 n)%string
  end.
Definition spec_ok (r : ByteSpec) : Prop :=
  match r with
  | Between first last => is_u64 first ∧ is_u64 last ∧ first ≤ last
  | From first => is_u64 first
  | Suffix n => is_u64 n
  end.
(** The positions of a representation of [length] bytes that a range selects. *)
Definition selected (r : ByteSpec) (length i : Z) : Prop :=
  0 ≤ i < length ∧
  match r with
  | Between first last => first ≤ i ≤ last
  | From first => first ≤ i
  | Suffix n => length - n ≤ i
  end.

Lemma digits_no (c : ascii) n :
  0 ≤ n → is_digit c = false → string_all (λ x, negb (Ascii.eqb c x)) (show_u64 n) = true.
Proof.
  intros Hn Hc. eapply string_all_impl; [|by apply show_u64_digits]. intros x Hx.
  apply negb_true_iff, Ascii.eqb_neq. intros ->. congruence.
Qed.
Lemma split_once_at c a b :
  string_all (λ x, negb (Ascii.eqb c x)) a = true → split_once c (a +:+ String c b)%string = Some (a, b).
Proof.
  induction a as [|x a IH]; intros Ha.
  { change (split_once c (String c b) = Some (EmptyString, b)). cbn [split_once]. by rewrite Ascii.eqb_refl. }
  cbn [string_all] in Ha. apply andb_true_iff in Ha as [Hx Ha]. apply negb_true_iff in Hx.
  change (String x a +:+ String c b)%string with (String x (a +:+ String c b)). cbn [split_once].
  rewrite Ascii.eqb_sym, Hx, IH by done. done.
Qed.
Lemma show_u64_nonempty n : is_empty (show_u64 n) = false.
Proof. unfold show_u64. destruct (show_fuel_nonempty 19 n EmptyString) as (c & s & ->). done. Qed.

Section ranges.
Context {H V : Type} `{!HttpHeaders H V}.
Implicit Types (headers : H) (m : Storage.Metadata).

(** The text behind "bytes=", and its two parts. *)
Definition spec_parts (r : ByteSpec) : string * string :=
  match r with
  | Between first last => (show_u64 first, show_u64 last)
  | From first => (show_u64 first, EmptyString)
  | Suffix n => (EmptyString, show_u64 n)
  end.
Definition spec_text (r : ByteSpec) : string := ((spec_parts r).1 +:+ String (chr 45) (spec_parts r).2)%string.
Lemma show_spec_text r : show_spec r = ("bytes=" +:+ spec_text r)%string.
Proof.
  destruct r; unfold spec_text, show_spec; cbn [spec_parts fst snd].
  all: reflexivity.
Qed.
Lemma spec_split r : spec_ok r → split_once (chr 45) (spec_text r) = Some (spec_parts r).
Proof.
  intros Hr. unfold spec_text. destruct r; cbn [spec_parts fst snd]; apply split_once_at; [..|done].
  all: apply digits_no; [|done]; cbn in Hr; unfold is_u64 in Hr; lia.
Qed.
Lemma spec_no_comma r : spec_ok r → split_char (chr 44) (spec_text r) = [spec_text r].
Proof.
  intros Hr. apply split_on_none. unfold spec_text. rewrite string_all_app. apply andb_true_iff.
  assert (∀ n, is_u64 n → string_all (λ x, negb (Ascii.eqb (chr 44) x)) (show_u64 n) = true) as Hd.
  { intros n Hn. apply digits_no; [unfold is_u64 in Hn; lia|done]. }
  destruct r; cbn [spec_parts fst snd]; cbn in Hr; (split; [|apply andb_true_iff; split; [done|]]);
    first [done|apply Hd; tauto].
Qed.
Lemma trim_once p r fuel :
  strip_prefix p r = None → trim_prefix_fuel (S fuel) p (p +:+ r)%string = r.
Proof. intros Hr. cbn. rewrite strip_prefix_app. destruct fuel as [|fuel]; [done|]. cbn. by rewrite Hr. Qed.
Lemma spec_trim r : spec_ok r → trim_start_matches "bytes=" (show_spec r) = spec_text r.
Proof.
  intros Hr. rewrite show_spec_text. unfold trim_start_matches.
  change (String.length ("bytes=" +:+ spec_text r)%string) with (S (5 + String.length (spec_text r))).
  apply trim_once. unfold spec_text.
  assert (∀ n b, 0 ≤ n → strip_prefix "bytes=" (show_u64 n +:+ b)%string = None) as Hd.
  { intros n b Hn. pose proof (show_u64_digits n Hn) as Hdig. pose proof (show_u64_nonempty n) as Hne.
    destruct (show_u64 n) as [|c s]; [done|]. cbn [string_all] in Hdig. apply andb_true_iff in Hdig as [Hc _].
    change (String c s +:+ b)%string with (String c (s +:+ b)). cbn [strip_prefix].
    rewrite (proj2 (Ascii.eqb_neq _ _)); [done|]. intros <-. by vm_compute in Hc. }
  destruct r; cbn [spec_parts fst snd]; [apply Hd|apply Hd|done]; cbn in Hr; unfold is_u64 in Hr; lia.
Qed.

Lemma requested_spec headers m r :
  spec_ok r → value headers "range" = Some (show_spec r) →
  (∀ v, value headers "if-range" = Some v → range_value (m_policy m) = Some v) →
  range_requested headers m = true.
Proof.
  intros Hr Hv Hif. unfold range_requested.
  assert (is_some_and (value headers "if-range")
    (λ if_range, negb (bool_decide (range_value (m_policy m) = Some if_range))) = false) as ->.
  { destruct (value headers "if-range") as [v|]; [|done]. cbn.
    rewrite bool_decide_true by (by apply Hif). done. }
  rewrite Hv. cbn [mbind option_bind]. rewrite show_spec_text, strip_prefix_app, spec_no_comma by done.
  cbn. rewrite bool_decide_false by (unfold zlen; cbn; lia). rewrite spec_split by done.
  destruct r as [first last|first|n]; cbn in Hr |- *; rewrite ?show_u64_nonempty, ?parse_show_u64 by tauto; cbn.
  - apply Z.leb_le. tauto.
  - done.
  - done.
Qed.

(** C12. A request for a byte range gets it: when the client's If-Range, if it has one, names the
    stored representation, [client_range] is the interval of exactly the positions that exist
    and that the range selects, and the range is refused (416) exactly when there are none. *)
Theorem client_range_is_selection headers m r :
  is_u64 (g_length (m_geometry m)) → spec_ok r → value headers "range" = Some (show_spec r) →
  (∀ v, value headers "if-range" = Some v → range_value (m_policy m) = Some v) →
  match client_range headers m with
  | Some (a, b) => a < b ∧ ∀ i, a ≤ i < b ↔ selected r (g_length (m_geometry m)) i
  | None => ∀ i, ¬ selected r (g_length (m_geometry m)) i
  end.
Proof.
  intros Hlen Hr Hv Hif. unfold client_range. rewrite (requested_spec headers m r) by done.
  cbn [negb]. rewrite Hv. cbn [opt_default]. rewrite spec_trim, spec_split by done.
  set (n := g_length (m_geometry m)) in *.
  destruct r as [first last|first|k]; cbn [spec_parts] in *; cbn in Hr;
    rewrite ?show_u64_nonempty; cbn [is_empty].
  - rewrite !parse_show_u64 by tauto. cbn [option_map].
    unfold is_u64 in *. unfold sat_add, selected. destruct (Z.ltb_spec first (Z.min (Z.min u64_max (last + 1)) n)),
      (Z.ltb_spec first n); cbn [andb]; try (split; [lia|intros i; lia]); intros i; lia.
  - rewrite parse_show_u64 by tauto. unfold is_u64 in *. unfold selected.
    destruct (Z.ltb_spec first n); cbn [andb]; [split; [lia|intros i; lia]|intros i; lia].
  - rewrite parse_show_u64 by tauto. unfold is_u64 in *. unfold selected, sat_sub.
    destruct (Z.ltb_spec 0 k), (Z.ltb_spec 0 n); cbn [andb]; try (split; [lia|intros i; lia]); intros i; lia.
Qed.

(** Whatever the request says, the range is within the representation. *)
Lemma client_range_bounds headers m a b :
  is_u64 (g_length (m_geometry m)) → client_range headers m = Some (a, b) →
  0 ≤ a ≤ b ∧ b ≤ g_length (m_geometry m) ∧
  (range_requested headers m = false → a = 0 ∧ b = g_length (m_geometry m)) ∧
  (range_requested headers m = true → a < b ∨ a = 0 ∧ b = g_length (m_geometry m)).
Proof.
  unfold client_range, is_u64. set (n := g_length (m_geometry m)). intros Hn.
  destruct (range_requested headers m); cbn [negb]; [|intros [= <- <-]; split_and!; (done || lia)].
  assert (∀ s k, parse_u64 s = Some k → 0 ≤ k) as Hp by (intros s k Hk%parse_u64_range; unfold is_u64 in Hk; lia).
  repeat case_match; intros Hr; simplify_eq; try (split_and!; (done || lia)).
  all: try (apply andb_true_iff in H2 as [?%Z.ltb_lt ?%Z.ltb_lt]).
  all: unfold sat_sub in *; repeat match goal with
    | Hx : parse_u64 _ = Some _ |- _ => apply Hp in Hx
    | Hx : (_ && _) = true |- _ => apply andb_true_iff in Hx as [?%Z.ltb_lt ?%Z.ltb_lt]
    | Hx : option_map _ ?o = Some _ |- _ => destruct o; simplify_eq/=
    end; split_and!; (done || lia).
Qed.

Lemma strip_prefix_inv p : ∀ s r, strip_prefix p s = Some r → s = (p +:+ r)%string.
Proof.
  induction p as [|c p IH]; intros s r Hs; [by injection Hs|]. destruct s as [|x s]; [done|]. cbn [strip_prefix] in Hs.
  destruct (Ascii.eqb_spec c x) as [->|]; [|done]. apply IH in Hs as ->. done.
Qed.
(** Two readings of "bytes=" agree where it matters. *)
Lemma requested_text headers m :
  range_requested headers m = true →
  ∃ v text start stop, value headers "range" = Some v ∧ trim_start_matches "bytes=" v = text ∧
    split_once (chr 45) text = Some (start, stop) ∧
    if is_empty start then is_Some (parse_u64 stop)
    else ∃ a, parse_u64 start = Some a ∧ (is_empty stop = true ∨ ∃ b, parse_u64 stop = Some b ∧ a ≤ b).
Proof.
  unfold range_requested. destruct (is_some_and _ _); [done|].
  destruct (value headers "range") as [v|]; [|done]. cbn [mbind option_bind].
  destruct (strip_prefix "bytes=" v) as [text|] eqn:Hs; [|done]. case_bool_decide; [done|].
  destruct (split_once (chr 45) text) as [[start stop]|] eqn:Hsp; [|done]. intros Hr.
  assert (if is_empty start then is_Some (parse_u64 stop)
    else ∃ a, parse_u64 start = Some a ∧ (is_empty stop = true ∨ ∃ b, parse_u64 stop = Some b ∧ a ≤ b)) as Hparts.
  { destruct (is_empty start); [by apply bool_decide_eq_true in Hr|].
    destruct (parse_u64 start) as [a|]; [|done]. cbn in Hr. exists a. split; [done|].
    apply orb_true_iff in Hr as [Hr|Hr]; [by left|right]. destruct (parse_u64 stop) as [b|]; [|done].
    exists b. split; [done|by apply Z.leb_le]. }
  exists v, text, start, stop. split_and!; [done| |done|done].
  apply strip_prefix_inv in Hs as ->. unfold trim_start_matches.
  change (String.length ("bytes=" +:+ text)%string) with (S (5 + String.length text)). apply trim_once.
  destruct (strip_prefix "bytes=" text) as [r|] eqn:Hp; [|done]. exfalso.
  apply strip_prefix_inv in Hp as ->. change ("bytes=" +:+ r)%string with (String "b" ("ytes=" +:+ r)%string) in Hsp.
  cbn [split_once] in Hsp. change (Ascii.eqb "b" (chr 45)) with false in Hsp. cbn iota in Hsp.
  destruct (split_once _ _) as [[start' stop']|]; [|done]. injection Hsp as <- <-. cbn [is_empty] in Hparts.
  by destruct Hparts as (a & Ha & _).
Qed.
Lemma requested_nonempty headers m a b :
  range_requested headers m = true → client_range headers m = Some (a, b) → a < b.
Proof.
  intros Hr. unfold client_range. rewrite Hr. cbn [negb].
  destruct (requested_text headers m Hr) as (v & text & start & stop & -> & Ht & Hsp & Hparts).
  cbn [opt_default]. rewrite Ht, Hsp. destruct (is_empty start).
  - destruct Hparts as [n ->]. destruct (0 <? n) eqn:H1, (0 <? g_length (m_geometry m)) eqn:H2; cbn [andb]; try done.
    intros [= <- <-]. unfold sat_sub. lia.
  - destruct Hparts as (n & -> & Hstop). destruct (is_empty stop).
    + case_match; [|done]. intros [= <- <-]. lia.
    + destruct Hstop as [|(k & -> & ?)]; [done|]. cbn [option_map]. case_match; [|done]. intros [= <- <-]. lia.
Qed.

(** ** Heads of responses *)

(** Printable text is a header value, and is read back. *)
Class TextHeaders : Prop :=
  text_header s : string_all visible s = true → ∃ v, hv_from_str s = Some v ∧ hv_to_str v = Some s.
Context `{!HttpHeadersLaws H V, !TextHeaders}.
Lemma insert_text_value key text h k :
  hn_from_bytes key = Some key → hn_from_bytes k = Some k → string_all visible text = true →
  value (insert_text key text h) k = if str_eqb k key then Some text else value h k.
Proof.
  intros Hkey Hk Ht. destruct (text_header text Ht) as (v & Hv & Hs). unfold insert_text. rewrite Hv.
  unfold value, get. rewrite get_all_insert by done. destruct (str_eqb k key); [|done]. cbn. done.
Qed.
Lemma digits_visible n : 0 ≤ n → string_all visible (show_u64 n) = true.
Proof.
  intros Hn. eapply string_all_impl; [|by apply show_u64_digits]. intros c Hc.
  unfold is_digit, visible in *. lia.
Qed.
Lemma range_text_visible range length :
  0 ≤ range.1 → 0 < range.2 → 0 ≤ length → string_all visible (range_text range length) = true.
Proof.
  intros Ha Hb Hl. unfold range_text, show_content_range. cbn [cr_start cr_end cr_full].
  rewrite !string_all_app, !digits_visible by lia. done.
Qed.

(** C13. The head of a streamed range says what follows: Content-Length is the number of bytes,
    Age the age of the entry; the status is 206 exactly when the body may be less than the
    representation or was asked for as a range, and then Content-Range, as a client parses it,
    names the bytes and the length of the whole. *)
Theorem head_says_range request m a b ranges now :
  is_u64 (g_length (m_geometry m)) → client_range request m = Some (a, b) → 0 ≤ Policy.age (m_policy m) now →
  let head := stream_head request m (a, b) ranges now in
  value head.2 "content-length" = Some (show_u64 (b - a)) ∧
  value head.2 "age" = Some (show_u64 (Policy.age (m_policy m) now)) ∧
  (head.1 = PARTIAL_CONTENT ∧ a < b ∧ (range_requested request m = true ∨ 0 < a ∨ b < g_length (m_geometry m)) ∧
     value head.2 "content-range" ≫= parse_content_range =
       Some (mk_HttpContentRange a (b - 1) (g_length (m_geometry m))) ∨
   head.1 = OK ∧ range_requested request m = false ∧ a = 0 ∧ b = g_length (m_geometry m)).
Proof.
  intros Hu Hr Hage head. destruct (client_range_bounds _ _ _ _ Hu Hr) as (Hab & Hb & Hwhole & _).
  assert (∀ k, plain_name k = true → hn_from_bytes k = Some k) as Hn by (intros k; apply hn_plain).
  set (length := g_length (m_geometry m)) in *. unfold is_u64 in Hu.
  assert (value (insert_text "content-length" (show_u64 (b - a))
    (insert_text "age" (show_u64 (Policy.age (m_policy m) now)) (restore (m_headers m)))) "content-length" =
    Some (show_u64 (b - a))) as Hlen.
  { rewrite insert_text_value by (by apply Hn || by apply digits_visible; lia). done. }
  assert (value (insert_text "content-length" (show_u64 (b - a))
    (insert_text "age" (show_u64 (Policy.age (m_policy m) now)) (restore (m_headers m)))) "age" =
    Some (show_u64 (Policy.age (m_policy m) now))) as Hagev.
  { rewrite !insert_text_value by (by apply Hn || by apply digits_visible; lia). done. }
  set (h := insert_text "content-length" _ _) in *.
  set (h' := if ranges then insert_text "accept-ranges" "bytes" h else h).
  assert (value h' "content-length" = Some (show_u64 (b - a)) ∧
    value h' "age" = Some (show_u64 (Policy.age (m_policy m) now))) as [Hlen' Hage'].
  { unfold h'. destruct ranges; [|done]. by rewrite !insert_text_value by (done || by apply Hn). }
  assert (head = if is_partial request m (a, b)
    then (PARTIAL_CONTENT, insert_text "content-range" (range_text (a, b) length) h') else (OK, h')) as -> by done.
  destruct (is_partial request m (a, b)) eqn:Hp; cbn [fst snd].
  - assert (a < b) as Hlt.
    { destruct (range_requested request m) eqn:Hrq; [by eapply requested_nonempty|].
      destruct (Hwhole eq_refl) as [-> ->]. unfold is_partial in Hp. rewrite Hrq in Hp. cbn [fst snd] in Hp.
      unfold length in Hp. rewrite !Z.eqb_refl in Hp. done. }
    assert (string_all visible (range_text (a, b) length) = true) by (apply range_text_visible; cbn; lia).
    rewrite !insert_text_value by (done || by apply Hn). split_and!; [exact Hlen'|exact Hage'|]. left.
    split_and!; [done|done| |].
    + unfold is_partial in Hp. cbn [fst snd] in Hp. fold length in Hp.
      apply orb_true_iff in Hp as [Hp|Hp]; [right|by left].
      apply orb_true_iff in Hp as [Hp|Hp]; apply negb_true_iff, Z.eqb_neq in Hp; lia.
    + cbn [str_eqb]. change (str_eqb "content-range" "content-range") with true. cbn [mbind option_bind].
      apply content_range_roundtrip. unfold wf_content_range, is_u64. cbn. lia.
  - split_and!; [exact Hlen'|exact Hage'|]. right. unfold is_partial in Hp. cbn [fst snd] in Hp. fold length in Hp.
    apply orb_false_iff in Hp as [Hp Hrq]. apply orb_false_iff in Hp as [H1 H2].
    apply negb_false_iff, Z.eqb_eq in H1. apply negb_false_iff, Z.eqb_eq in H2. done.
Qed.
End ranges.

(** ** An example *)

Module DeliveryExample.
Notation Map := (list (string * string)).
#[export] Instance plain_text : TextHeaders (H := Map) (V := string).
Proof. intros s Hs. exists s. split; [done|]. cbn. by rewrite Hs. Qed.
(** A version of ten bytes; ranges of it. *)
Definition ten : Storage.Metadata :=
  mk_Metadata "key" 1 1 "generation" (mk_Geometry 10 MIN_BLOCK) [] (mk_Policy 1000 0 60 false true None None None) "t" true Blocks.
Lemma client_range_is_selection_witness :
  client_range (H := Map) [("range", "bytes=7-99")]%string ten = Some (7, 10) ∧
  ∀ i, 7 ≤ i < 10 ↔ selected (Between 7 99) 10 i.
Proof.
  pose proof (client_range_is_selection (HttpHeaders0 := toy_headers) [("range", "bytes=7-99")]%string ten (Between 7 99)
    ltac:(cbn; unfold is_u64, u64_max; lia) ltac:(cbn; unfold is_u64, u64_max; lia) ltac:(vm_compute; reflexivity)
    ltac:(vm_compute; discriminate)) as Hr.
  assert (client_range (H := Map) [("range", "bytes=7-99")]%string ten = Some (7, 10)) as He by (vm_compute; reflexivity).
  rewrite He in Hr. split; [done|apply Hr].
Defined.
Lemma head_says_range_witness :
  let head := stream_head (H := Map) [("range", "bytes=7-99")]%string ten (7, 10) true 1010 in
  head.1 = 206 ∧ value head.2 "content-length" = Some "3"%string ∧
  value head.2 "content-range" ≫= parse_content_range = Some (mk_HttpContentRange 7 9 10).
Proof.
  destruct (head_says_range (HttpHeaders0 := toy_headers) [("range", "bytes=7-99")]%string ten 7 10 true 1010
    ltac:(cbn; unfold is_u64, u64_max; lia) ltac:(vm_compute; reflexivity) ltac:(vm_compute; discriminate))
    as (Hl & _ & [(Hs & _ & _ & Hr)|(Hs & _)]); [|by vm_compute in Hs].
  split; [exact Hs|]. split; [rewrite Hl; vm_compute; reflexivity|exact Hr].
Defined.
End DeliveryExample.
