(* ===== verification/Service.v ===== *)
(** * Resource cache: the service

    [resource_cache/service.rs], [resource_cache/object_service.rs] and the asynchronous parts
    of [resource_cache/file_delivery.rs], as code of [Threads.v]. Requests, the downloads they
    start and the streams that are sent to clients are threads; they share the table of
    downloads, the limits, and the storage.

    The storage is here what it promises to the service (the store itself is [Store.v]):
    versions that were created, with the answer each was created from, and blocks that were
    written and may be gone at any time. A question to the storage is answered first, then it
    takes effect; answers that are not possible there are never given. *)
From S2P Require Import Prelude Text Format HttpRange Policy Storage Packs Materialize Resource Delivery Threads.
From stdpp Require Import options.
#[local] Set Default Proof Using "Type*".

Open Scope Z_scope.
Open Scope list_scope.

Definition MAX_READERS : Z := 16.

Section service.
Context {H V U : Type} `{!HttpHeaders H V, !Urls U, !ServiceLib H V, D : Digest}.
(** Whether the store could be opened. *)
Context (persistent : bool).
Notation Upstream := (Upstream H U).
Notation PreparedResource := (PreparedResource H U).
Notation Metadata := Storage.Metadata.
Notation Version := Storage.Version.

(** ** Data *)

Record ResourceRequest := mk_ResourceRequest {
  rq_provider : Z; rq_kind : Z; rq_scope : string; rq_prepared : PreparedResource; rq_headers : H
}.
Inductive ProviderError := NotAuth | RequestError (again : bool) (message : string) | ProviderOther (message : string).
(** [DownloadFailure], and the other errors the code tells apart. [Panic] is none of them:
    it stands for a subtraction below zero or an index out of range. *)
Inductive Failure :=
| Changed
| UpstreamStatus (status : Z) (headers : H)
| PlainCorrupt
| Other (message : string)
| Panic.
(** The errors of the storage's [local_file]: a damaged file ([materialize::PlainCorrupt]), or any other. *)
Inductive FileError := FileCorrupt | FileOther (message : string).
Inductive Progress := Running | Complete | Failed (e : Failure).
Record Download := mk_Download {
  dl_version : Z; dl_provider : Z; dl_range : Z * Z; dl_cancel : bool;
  dl_blocks : gmap Z (list Z); dl_progress : Progress
}.
Record Reader := mk_Reader {
  rd_version : Version; rd_request : ResourceRequest; rd_base : H; rd_cursor : Z; rd_end : Z;
  rd_block : option (Z * list Z); rd_initial : option nat; rd_only_cached : bool;
  rd_window : Z; rd_sequential : Z
}.
Inductive Delivered :=
| Head (head : Z * H)
| Passed (r : Upstream)
| Streamed (head : Z * H) (reader : Reader)
| FromMemory (head : Z * H) (bytes : list Z) (range : Z * Z)
| PassedObject (r : Upstream) (prefix : list (list Z))
| File (f : LocalFile).

(** A spawned download. *)
Record Transfer := mk_Transfer {
  tr_download : nat; tr_version : Version; tr_request : ResourceRequest; tr_base : H;
  tr_range : Z * Z; tr_response : option Upstream; tr_started : bool
}.
(** The storage's version and the answer it was created from; a piece of it that was sent. *)
Record Info := mk_Info { vi_meta : Metadata; vi_origin : Upstream }.
Record Sent := mk_Sent { se_version : Z; se_offset : Z; se_data : list Z }.

Record State := mk_State {
  sv_stop : bool;
  sv_readers : Z; sv_buffers : Z; sv_requests : Z;
  sv_limits : gmap Z Z;
  sv_opens : gset string;
  sv_locked : bool;
  sv_heap : list Download;
  sv_table : gmap (Z * Z * Z) nat;
  sv_tasks : list Transfer;
  sv_versions : gmap Z Info;
  sv_stored : gmap (Z * Z) (list Z);
  sv_sent : list Sent
}.
Definition with_stop (b : bool) (s : State) : State :=
  mk_State b (sv_readers s) (sv_buffers s) (sv_requests s) (sv_limits s) (sv_opens s) (sv_locked s)
    (sv_heap s) (sv_table s) (sv_tasks s) (sv_versions s) (sv_stored s) (sv_sent s).
(** The permits of the three semaphores, and those of one resource. *)
Definition with_permits (r b q : Z) (l : gmap Z Z) (s : State) : State :=
  mk_State (sv_stop s) r b q l (sv_opens s) (sv_locked s)
    (sv_heap s) (sv_table s) (sv_tasks s) (sv_versions s) (sv_stored s) (sv_sent s).
Definition with_locks (o : gset string) (b : bool) (s : State) : State :=
  mk_State (sv_stop s) (sv_readers s) (sv_buffers s) (sv_requests s) (sv_limits s) o b
    (sv_heap s) (sv_table s) (sv_tasks s) (sv_versions s) (sv_stored s) (sv_sent s).
Definition with_downloads (h : list Download) (t : gmap (Z * Z * Z) nat) (s : State) : State :=
  mk_State (sv_stop s) (sv_readers s) (sv_buffers s) (sv_requests s) (sv_limits s) (sv_opens s)
    (sv_locked s) h t (sv_tasks s) (sv_versions s) (sv_stored s) (sv_sent s).
Definition with_tasks (l : list Transfer) (s : State) : State :=
  mk_State (sv_stop s) (sv_readers s) (sv_buffers s) (sv_requests s) (sv_limits s) (sv_opens s)
    (sv_locked s) (sv_heap s) (sv_table s) l (sv_versions s) (sv_stored s) (sv_sent s).
Definition with_storage (v : gmap Z Info) (b : gmap (Z * Z) (list Z)) (s : State) : State :=
  mk_State (sv_stop s) (sv_readers s) (sv_buffers s) (sv_requests s) (sv_limits s) (sv_opens s)
    (sv_locked s) (sv_heap s) (sv_table s) (sv_tasks s) v b (sv_sent s).
Definition with_sent (l : list Sent) (s : State) : State :=
  mk_State (sv_stop s) (sv_readers s) (sv_buffers s) (sv_requests s) (sv_limits s) (sv_opens s)
    (sv_locked s) (sv_heap s) (sv_table s) (sv_tasks s) (sv_versions s) (sv_stored s) l.

(** ** What is asked of the world *)

(** What a [select!] ends with: the awaited thing, or one of its other branches. *)
Inductive Arm := Arrives | TimesOut | Stops | Cancels | Invalidates.
Inductive Question : Type → Type :=
(** The prepared resource and its provider. *)
| Valid (p : PreparedResource) : Question bool
| Client (p : PreparedResource) : Question (result ProviderError unit)
| Send (p : PreparedResource) (headers : H) : Question (result ProviderError Upstream)
| Validate (p : PreparedResource) (r : Upstream) : Question (result ProviderError Upstream)
| Race : Question Arm
(** The storage. *)
| Lookup (key : string) : Question (result string (option Version))
| IsComplete (v : Version) : Question (result string bool)
| VersionValid (v : Version) : Question bool
| Update (v : Version) (m : Metadata) : Question (result string unit)
| Retire (v : Version) : Question (result string unit)
| Create (m : Metadata) : Question (result string (Z * nat))
| Window (v : Version) (start stop : Z) : Question (result string unit)
| Covered (v : Version) (range : Z * Z) : Question (result string bool)
| MissingRange (v : Version) (range : Z * Z) : Question (result string (Z * Z))
| LocalFileOf (v : Version) (client : string) : Question (result FileError (option LocalFile))
| Read (v : Version) (index : Z) : Question (result string bool)
| Write (v : Version) (blocks : list (Z * list Z)) : Question (nat * option string)
| FindObject (key : string) : Question (result string (option (ObjectMetadata * list Z)))
| UpdateObject (m : ObjectMetadata) : Question unit
| RemoveObject (key : string) : Question unit
| PutObject (m : ObjectMetadata) (bytes : list Z) : Question unit
| RenewFile (token client : string) : Question (result string bool)
| ReleaseFile (token client : string) : Question (result string unit)
| Invalidate (provider : Z) : Question (result string unit)
(** Clocks, names, wake-ups, what other tasks still hold, the client of a stream. *)
| Now : Question Z
| NewName : Question string
| Wakeups : Question nat
| Interruptions : Question (list bool)
| Alive (version : Z) : Question bool
| Pick (version : Z) : Question (option nat)
| ReadersGone (d : nat) : Question bool
| Slowest (d : nat) : Question (option Z)
| Taken (bytes : list Z) : Question unit.
Notation Code := (Code State Question).
Notation Fallible := (Fallible State Question Failure).

Definition call {X} (q : Question (result string X)) : Fallible X :=
  code_bind (ask q) (λ r, Ret (map_err Other r)).
Definition tell {X} (q : Question X) : Fallible X := calmly (ask q).
Definition text {X} (r : result string X) : Fallible X := try_ (map_err Other r).
(** Nothing more happens. *)
Definition forever {X} : Fallible X := when (λ _, None).

(** ** Limits and locks *)

Definition readers_by (n : Z) (s : State) : State :=
  with_permits (sv_readers s + n) (sv_buffers s) (sv_requests s) (sv_limits s) s.
Definition buffers_by (n : Z) (s : State) : State :=
  with_permits (sv_readers s) (sv_buffers s + n) (sv_requests s) (sv_limits s) s.
Definition requests_by (n : Z) (s : State) : State :=
  with_permits (sv_readers s) (sv_buffers s) (sv_requests s + n) (sv_limits s) s.
Definition limit_by (id n : Z) (s : State) : State :=
  with_permits (sv_readers s) (sv_buffers s) (sv_requests s)
    (<[id := opt_default 2 (sv_limits s !! id) + n]> (sv_limits s)) s.
(** [acquire_owned]: the semaphores are closed when the service stops. *)
Definition acquire (available : State → Z) (by_ : Z → State → State) : Fallible unit :=
  when (λ s, if sv_stop s then Some (Err (Other "semaphore closed"), s)
             else if 0 <? available s then Some (Ok tt, by_ (-1) s) else None).
Definition permitted {A} (available : State → Z) (by_ : Z → State → State) (c : Fallible A) : Fallible A :=
  acquire available by_ ;; scoped (by_ 1) c.
(** At most two downloads of a resource at a time. *)
Definition limited {A} (id : Z) (c : Fallible A) : Fallible A :=
  when (λ s, if 0 <? opt_default 2 (sv_limits s !! id) then Some (Ok tt, limit_by id (-1) s) else None) ;;
  scoped (limit_by id 1) c.
Definition unlock_key (key : string) (s : State) : State :=
  with_locks (sv_opens s ∖ {[key]}) (sv_locked s) s.
Definition with_key {A} (key : string) (c : Fallible A) : Fallible A :=
  when (λ s, if bool_decide (key ∈ sv_opens s) then None
             else Some (Ok tt, with_locks (sv_opens s ∪ {[key]}) (sv_locked s) s)) ;;
  scoped (unlock_key key) c.
Definition unlock_table (s : State) : State := with_locks (sv_opens s) false s.
Definition with_table {A} (c : Fallible A) : Fallible A :=
  when (λ s, if sv_locked s then None else Some (Ok tt, with_locks (sv_opens s) true s)) ;;
  scoped unlock_table c.
Definition assert_running : Fallible unit :=
  observe (λ s, ensure (negb (sv_stop s)) (Other "resource service stopped")).
Definition assert_valid (p : PreparedResource) : Fallible unit :=
  valid ← tell (Valid p) ; require valid (Other "provider invalidated").
(** [version.is_valid() && prepared.is_valid()]. *)
Definition assert_both_or (e : Failure) (v : Version) (p : PreparedResource) : Fallible unit :=
  valid ← tell (VersionValid v) ;
  require valid e ;;
  valid ← tell (Valid p) ;
  require valid e.
Definition assert_both (v : Version) (p : PreparedResource) : Fallible unit :=
  assert_both_or (Other "provider invalidated") v p.

(** ** Requests to the provider *)

Definition not_valid (p : PreparedResource) (r : result ProviderError Upstream)
    : Code (result ProviderError Upstream) :=
  valid ← ask (Valid p) ; mret (if (valid : bool) then r else Err NotAuth).
(** [PreparedResource::fetch]. *)
Definition prepared_fetch (p : PreparedResource) (headers : H) : Code (result ProviderError Upstream) :=
  valid ← ask (Valid p) ;
  if negb valid then mret (Err NotAuth) else
  client ← ask (Client p) ;
  match client with
  | Err e => mret (Err e)
  | Ok _ =>
      r ← ask (Send p (hm_extend (pr_headers p) headers)) ;
      match r with
      | Err e => mret (Err e)
      | Ok r =>
          valid ← ask (Valid p) ;
          if negb valid then mret (Err NotAuth) else
          r ← ask (Validate p r) ;
          match r with
          | Err e => mret (Err e)
          | Ok r => not_valid p (Ok r)
          end
      end
  end.
Definition unless_stopped {A} (c : Fallible A) : Fallible A :=
  r ← calmly c ;
  arm ← tell Race ;
  match arm with
  | Stops => throw (Other "resource service stopped")
  | _ => try_ r
  end.
Definition provider_failure (e : ProviderError) : Failure :=
  match e with
  | NotAuth => Other "not authenticated"
  | RequestError _ message | ProviderOther message => Other message
  end.
(** A failed connection is tried once more, after a pause. *)
Fixpoint attempts (n : nat) (p : PreparedResource) (headers : H) : Fallible Upstream :=
  r ← unless_stopped (calmly (prepared_fetch p headers)) ;
  match r, n with
  | Err (RequestError true _), Datatypes.S n => unless_stopped (mret tt) ;; attempts n p headers
  | Err e, _ => throw (provider_failure e)
  | Ok r, _ => mret r
  end.
Definition execute (p : PreparedResource) (headers : H) : Fallible Upstream := attempts 1 p headers.
Definition fetch (p : PreparedResource) (headers : H) : Fallible Upstream :=
  permitted sv_requests requests_by (execute p headers).

(** ** The storage *)

(** Nothing the storage says of a version is of one it does not have, or has under another key. *)
Definition lookup_version (key : string) : Fallible (option Version) :=
  v ← call (Lookup key) ;
  match v with
  | None => mret None
  | Some v =>
      when (λ s,
        info ← sv_versions s !! ver_id v ;
        if negb (str_eqb (m_key (vi_meta info)) key) then None else
        Some (Ok (Some (mk_Version (ver_id v) (vi_meta info) (ver_lease v))), s))
  end.
Definition laid_out (m : Metadata) : Metadata :=
  mk_Metadata (m_key m) (m_provider m) (m_kind m) (m_generation m) (m_geometry m) (m_headers m) (m_policy m)
    (m_target m) (m_ranges m) (Layout_for_resource (m_kind m) (g_length (m_geometry m))).
Definition create_version (m : Metadata) (r : Upstream) : Fallible (result string Version) :=
  let m := laid_out m in
  made ← tell (Create m) ;
  match made with
  | Err e => mret (Err e)
  | Ok (id, lease) =>
      when (λ s,
        match sv_versions s !! id with
        | Some _ => None
        | None => Some (Ok (Ok (mk_Version id m lease)),
                        with_storage (<[id := mk_Info m r]> (sv_versions s)) (sv_stored s) s)
        end)
  end.
Definition update_version (v : Version) (m : Metadata) : Fallible unit :=
  call (Update v m) ;;
  calmly (update (λ s, with_storage (alter (λ i, mk_Info m (vi_origin i)) (ver_id v) (sv_versions s)) (sv_stored s) s)).
Definition read_block (v : Version) (index : Z) : Fallible (option (list Z)) :=
  present ← call (Read v index) ;
  if (present : bool) then observe (λ s, Ok (sv_stored s !! (ver_id v, index))) else mret None.
(** What was written before an error stays. *)
Definition store_blocks (id : Z) (blocks : list (Z * list Z)) (m : gmap (Z * Z) (list Z)) : gmap (Z * Z) (list Z) :=
  fold_left (λ m b, <[(id, b.1) := b.2]> m) blocks m.
Definition write_blocks (v : Version) (blocks : list (Z * list Z)) : Fallible unit :=
  w ← tell (Write v blocks) ;
  let written := match w.2 with None => blocks | Some _ => take w.1 blocks end in
  calmly (update (λ s, with_storage (sv_versions s) (store_blocks (ver_id v) written (sv_stored s)) s)) ;;
  match w.2 with None => mret tt | Some e => throw (Other e) end.

(** ** Downloads *)

Definition download_key (v : Version) (range : Z * Z) : Z * Z * Z := (ver_id v, range.1, range.2).
Definition in_range (range : Z * Z) (x : Z) : bool := (range.1 <=? x) && (x <? range.2).
(** A download of the version in the table that has the position, if one is still held. *)
Definition serves (s : State) (v : Version) (position : Z) (d : nat) : bool :=
  existsb (λ kd : Z * Z * Z * nat, (kd.2 =? d)%nat) (map_to_list (sv_table s)) &&
  is_some_and (sv_heap s !! d) (λ dl, (dl_version dl =? ver_id v) && in_range (dl_range dl) position).
Definition find_download (v : Version) (position : Z) : Fallible (option nat) :=
  d ← tell (Pick (ver_id v)) ;
  match d with
  | None => mret None
  | Some d => when (λ s, if serves s v position d then Some (Ok (Some d), s) else None)
  end.
(** The range ends where another download begins. *)
Definition trim_end (v : Version) (range : Z * Z) : Fallible (Z * Z) :=
  d ← tell (Pick (ver_id v)) ;
  match d with
  | None => mret range
  | Some d =>
      observe (λ s, Ok
        match sv_heap s !! d with
        | Some dl =>
            let start := (dl_range dl).1 in
            if (dl_version dl =? ver_id v) && (range.1 <? start) && (start <? range.2)
            then (range.1, start) else range
        | None => range
        end)
  end.
Definition on_download (d : nat) (f : Download → Download) (s : State) : State :=
  with_downloads (alter f d (sv_heap s)) (sv_table s) s.
Definition with_progress (p : Progress) (x : Download) : Download :=
  mk_Download (dl_version x) (dl_provider x) (dl_range x) (dl_cancel x) (dl_blocks x) p.
Definition with_blocks (f : gmap Z (list Z) → gmap Z (list Z)) (x : Download) : Download :=
  mk_Download (dl_version x) (dl_provider x) (dl_range x) (dl_cancel x) (f (dl_blocks x)) (dl_progress x).
Definition cancel_download (x : Download) : Download :=
  mk_Download (dl_version x) (dl_provider x) (dl_range x) true (dl_blocks x)
    (Failed (Other "provider invalidated")).
Definition new_download (v : Version) (range : Z * Z) (s : State) : nat * State :=
  let d := length (sv_heap s) in
  (d, with_downloads
        (sv_heap s ++ [mk_Download (ver_id v) (m_provider (ver_meta v)) range false ∅ Running])
        (<[download_key v range := d]> (sv_table s)) s).
Definition resumable (v : Version) : bool :=
  m_ranges (ver_meta v) && bool_decide (is_Some (range_value (m_policy (ver_meta v)))).
Definition download (v : Version) (rq : ResourceRequest) (base : H) (range : Z * Z)
    (response : option Upstream) (position : Z) : Fallible nat :=
  made ← with_table (
    existing ← find_download v position ;
    match existing with
    | Some d => mret (inl d)
    | None =>
        range ← (if bool_decide (response = None) && resumable v
                 then r ← call (MissingRange v range) ; trim_end v r
                 else mret range) ;
        d ← calmly (atomically (new_download v range)) ;
        mret (inr (d, range))
    end) : Fallible (nat + nat * (Z * Z)) ;
  match made with
  | inl d => mret d
  | inr (d, range) =>
      atomically (λ s,
        if sv_stop s
        then (Err (Other "resource service stopped"),
              on_download d (with_progress (Failed (Other "resource service stopped"))) s)
        else (Ok tt, with_tasks (sv_tasks s ++ [mk_Transfer d v rq base range response false]) s)) ;;
      mret d
  end.

Definition progress_of (s : State) (d : nat) : option Progress := dl_progress <$> sv_heap s !! d.
Definition buffered_block (s : State) (d : nat) (index : Z) : option (list Z) :=
  x ← sv_heap s !! d ; dl_blocks x !! index.
(** One look at a download: its block, if it is there, and what is known of it otherwise. *)
Fixpoint wait_block (n : nat) (v : Version) (index : Z) (d : nat) : Fallible (list Z * option nat) :=
  assert_running ;;
  progress ← observe (λ s, Ok (progress_of s d)) : Fallible (option Progress) ;
  found ← observe (λ s, Ok (buffered_block s d index)) : Fallible (option (list Z)) ;
  match found with
  | Some bytes => mret (bytes, Some d)
  | None =>
      bytes ← read_block v index ;
      match bytes with
      | Some bytes => mret (bytes, Some d)
      | None =>
          match progress with
          | None => throw Panic
          | Some (Failed e) => throw e
          | Some Complete => throw (Other "download did not produce requested block")
          | Some Running =>
              match n with
              | O => forever
              | Datatypes.S n => unless_stopped (mret tt) ;; wait_block n v index d
              end
          end
      end
  end.
Definition block (v : Version) (rq : ResourceRequest) (base : H) (index : Z) (initial : option nat)
    (position window : Z) : Fallible (list Z * option nat) :=
  bytes ← read_block v index ;
  match bytes with
  | Some bytes => mret (bytes, initial)
  | None =>
      d ← match initial with
          | Some d => mret d
          | None =>
              if bool_decide (range_value (m_policy (ver_meta v)) = None)
              then call (Retire v) ;; throw Changed
              else
                let g := m_geometry (ver_meta v) in
                let start := index * g_block g in
                let range := if resumable v then (start, Z.min (start + window) (g_length g))
                             else (0, g_length g) in
                download v rq base range None position
          end ;
      n ← tell Wakeups ;
      wait_block n v index d
  end.

(** ** The transfer of a download *)

(** What the loop of [fetch_blocks] keeps. *)
Record Flow := mk_Flow {
  fl_buffered : list Z; fl_cursor : Z; fl_batch : list (Z * list Z); fl_bytes : Z;
  fl_persist : bool; fl_window : Z
}.
(** How a part of the loop ends: it goes on, the transfer is over, or it failed. *)
Inductive Course := Goes | Over | Fails (e : Failure).
Definition Flowing : Type := Code (Flow * Course).
Definition stops (t : Flow) (e : Failure) : Flowing := Ret (t, Fails e).
Definition flows (c : Flowing) (k : Flow → Flowing) : Flowing :=
  code_bind c (λ r, match r.2 with Goes => k r.1 | _ => Ret r end).
(** [?] in the loop. *)
Definition check {X} (t : Flow) (c : Fallible X) (k : X → Flowing) : Flowing :=
  code_bind c (λ r, match r with Ok x => k x | Err e => stops t e end).

Definition flush_batch (d : nat) (v : Version) (t : Flow) : Code Flow :=
  written ← write_blocks v (fl_batch t) : Code _ ;
  match written with
  | Err _ => mret (mk_Flow (fl_buffered t) (fl_cursor t) [] 0 false (fl_window t))
  | Ok _ =>
      _ ← update (on_download d (λ x, with_progress Running
            (with_blocks (λ m, foldr delete m (fl_batch t).*1) x))) ;
      mret (mk_Flow (fl_buffered t) (fl_cursor t) [] 0 true (fl_window t))
  end.
(** Blocks that nobody has yet read are kept in memory when they cannot be written, up to
    [FETCH_BYTES]: [false] when nobody reads any more. *)
Definition block_bytes (m : gmap Z (list Z)) : Z := map_fold (λ _ b n, zlen b + n) 0 m.
Definition still_wanted (v : Version) (slowest : Z) (m : gmap Z (list Z)) : gmap Z (list Z) :=
  filter (λ ib, slowest < (ib.1 + 1) * g_block (m_geometry (ver_meta v))) m.
Fixpoint make_room (n : nat) (d : nat) (v : Version) (size : Z) : Fallible bool :=
  slowest ← tell (Slowest d) ;
  match slowest with
  | None => mret false
  | Some slowest =>
      fits ← atomically (λ s,
        match sv_heap s !! d with
        | None => (Err Panic, s)
        | Some x =>
            let m := still_wanted v slowest (dl_blocks x) in
            (Ok (block_bytes m + size <=? FETCH_BYTES), on_download d (with_blocks (λ _, m)) s)
        end) : Fallible bool ;
      if (fits : bool) then mret true else
      match n with
      | O => forever
      | Datatypes.S n =>
          arm ← tell Race ;
          match arm with
          | Stops => throw (Other "resource service stopped")
          | Cancels => throw (Other "provider invalidated")
          | _ => make_room n d v size
          end
      end
  end.
(** The [while] loop over one chunk; every round takes a byte at least. *)
Fixpoint take_chunk (fuel : nat) (d : nat) (v : Version) (stop : Z) (t : Flow) (chunk : list Z) : Flowing :=
  match chunk, fuel with
  | [], _ => Ret (t, Goes)
  | _, O => stops t Panic
  | _, Datatypes.S fuel =>
      let g := m_geometry (ver_meta v) in
      let cursor := fl_cursor t in
      let window := if fl_window t <=? cursor then Z.min stop (cursor + FETCH_BYTES) else fl_window t in
      check t (if fl_window t <=? cursor then call (Window v cursor window) else mret tt) (λ _,
      let index := cursor / g_block g in
      check t (text (Geometry_range g index)) (λ range : Z * Z,
      if negb (cursor =? range.1) then stops t (Other "unaligned upstream range") else
      let expected := range.2 - range.1 in
      let n := Z.to_nat (Z.min (expected - zlen (fl_buffered t)) (zlen chunk)) in
      let buffered := fl_buffered t ++ take n chunk in
      let chunk := drop n chunk in
      if negb (zlen buffered =? expected)
      then take_chunk fuel d v stop
             (mk_Flow buffered cursor (fl_batch t) (fl_bytes t) (fl_persist t) window) chunk
      else
        check t (if fl_persist t then mret true
                 else n ← tell Wakeups ; make_room n d v expected) (λ room : bool,
        if negb room then Ret (t, Over) else
        _ ← update (on_download d (λ x, with_progress Running (with_blocks <[index := buffered]> x))) ;
        let persist := fl_persist t in
        let bytes := if persist then fl_bytes t + expected else fl_bytes t in
        let batch := if persist then fl_batch t ++ [(index, buffered)] else fl_batch t in
        let t := mk_Flow [] range.2 batch bytes persist window in
        t ← (if persist && ((1024 * 1024 <=? bytes) || (range.2 =? stop))
             then flush_batch d v t else mret t) ;
        take_chunk fuel d v stop t chunk)))
  end.
(** What is looked at before every chunk. *)
Definition look_around (d : nat) (v : Version) (p : PreparedResource) (t : Flow) : Flowing :=
  check t (assert_both v p) (λ _,
  check t (tell (ReadersGone d)) (λ gone : bool, Ret (t, if gone then Over else Goes))).
(** Wake-ups that bring no chunk: a reader has advanced, or the batch has waited long enough. *)
Fixpoint await_chunk (l : list bool) (d : nat) (v : Version) (p : PreparedResource) (t : Flow) : Flowing :=
  flows (look_around d v p t) (λ t,
  match l with
  | [] =>
      check t (tell Race) (λ arm,
      match arm with
      | Arrives => Ret (t, Goes)
      | TimesOut => stops t (Other "deadline has elapsed")
      | Stops => stops t (Other "resource service stopped")
      | Cancels => stops t (Other "provider invalidated")
      | Invalidates => stops t (Other "resource invalidated")
      end)
  | tick :: l =>
      t ← (if tick && negb (bool_decide (fl_batch t = [])) then flush_batch d v t else mret t) ;
      await_chunk l d v p t
  end).
Fixpoint transfer (chunks : list (list Z)) (failure : option string) (d : nat) (v : Version)
    (p : PreparedResource) (stop : Z) (t : Flow) : Flowing :=
  l ← ask Interruptions ;
  flows (await_chunk l d v p t) (λ t,
  match chunks with
  | [] =>
      match failure with
      | Some e => stops t (Other e)
      | None => if (fl_cursor t =? stop) && bool_decide (fl_buffered t = [])
                then Ret (t, Over) else stops t (Other "truncated resource body")
      end
  | chunk :: chunks =>
      if stop <? fl_cursor t + zlen (fl_buffered t) + zlen chunk
      then stops t (Other "resource body exceeds declared range")
      else flows (take_chunk (length chunk) d v stop t chunk) (transfer chunks failure d v p stop)
  end).

(** The answer that a resumed download may use. *)
Definition retire_and {A} (v : Version) (e : Failure) : Fallible A := call (Retire v) ;; throw e.
(** What makes an answer one for the download: its place, its length, its validator, its range. *)
Definition same_representation (v : Version) (p : PreparedResource) (range : Z * Z) (r : Upstream) : Fallible unit :=
  let m := ver_meta v in
  geometry ← text (response_geometry r) ;
  geometry ← text (ok_or geometry "resource length disappeared") ;
  target ← text (target_of p (up_url r)) ;
  (if negb (geometry.1 =? g_length (m_geometry m)) || negb (str_eqb target (m_target m))
   then retire_and v Changed else mret tt) ;;
  (if negb (is_none_or (value (up_headers r) "content-encoding") (eq_ignore_ascii_case "identity"))
   then retire_and v Changed else mret tt) ;;
  (if bool_decide (is_Some (range_value (m_policy m)))
   then if matches_range (m_policy m) (up_headers r) then mret tt else retire_and v Changed
   else require (up_status r =? OK) (Other "cannot combine unvalidated partial responses")) ;;
  if up_status r =? PARTIAL_CONTENT
  then require (bool_decide (geometry.2 = range)) (Other "upstream returned wrong range")
  else if bool_decide (range = geometry.2) then mret tt
  else require (bool_decide (is_Some (range_value (m_policy m))))
         (Other "cannot resume unvalidated representation") ;;
       retire_and v Changed.
Definition resume (v : Version) (p : PreparedResource) (headers : H) (range : Z * Z) : Fallible Upstream :=
  let m := ver_meta v in
  headers ← (if resumable v then
      r ← text (ok_or (hv_from_str (show_bytes_range range.1 (range.2 - 1))) "invalid header") ;
      i ← text (ok_or (range_value (m_policy m) ≫= hv_from_str) "invalid header") ;
      mret (hm_insert "if-range" i (hm_insert "range" r headers))
    else mret headers) ;
  answer ← calmly (execute p headers) ;
  arm ← tell Race ;
  (match arm with
   | Cancels => throw (Other "provider invalidated")
   | Stops => throw (Other "resource service stopped")
   | _ => mret tt
   end) ;;
  r ← try_ answer ;
  (if negb ((up_status r =? OK) || (up_status r =? PARTIAL_CONTENT))
   then calmly (call (Retire v)) ;; throw (UpstreamStatus (up_status r) (forwarded (up_headers r)))
   else mret tt) ;;
  same_representation v p range r ;;
  mret r.
Definition fetch_blocks (tr : Transfer) : Fallible unit :=
  let v := tr_version tr in
  let p := rq_prepared (tr_request tr) in
  limited (ver_id v) (permitted sv_buffers buffers_by (permitted sv_requests requests_by (
    observe (λ s, ensure (negb (is_some_and (sv_heap s !! tr_download tr) dl_cancel))
      (Other "provider invalidated")) ;;
    r ← match tr_response tr with
        | Some r => mret r
        | None => resume v p (tr_base tr) (tr_range tr)
        end ;
    sent ← tell Now ;
    received ← tell Now ;
    let cacheable := Policy.store (from_response (up_headers r) sent received) in
    (if cacheable then mret tt else call (Retire v)) ;;
    ended ← calmly (transfer (up_body r) (up_failure r) (tr_download tr) v p (tr_range tr).2
              (mk_Flow [] (tr_range tr).1 [] 0 cacheable (tr_range tr).1)) ;
    (if bool_decide (fl_batch ended.1 = []) then mret tt
     else calmly (flush_batch (tr_download tr) v ended.1) ;; mret tt) ;;
    match ended.2 with Fails e => throw e | _ => mret tt end))).
(** The spawned task: its end is the last progress of the download. *)
Definition transfer_task (tr : Transfer) : Code unit :=
  result ← fetch_blocks tr : Code (result Failure unit) ;
  _ ← update (on_download (tr_download tr) (with_progress
        (match result with Ok _ => Complete | Err e => Failed e end))) ;
  update (λ s, with_downloads (sv_heap s)
    (delete (download_key (tr_version tr) (tr_range tr)) (sv_table s)) s).

(** ** [respond] *)

Definition is_fresh (p : Policy) (headers : H) : Fallible bool :=
  now ← tell Now ; mret (fresh p headers now).
Definition fresh_version (rq : ResourceRequest) (cached : option Version) : Fallible bool :=
  match cached with
  | Some v => is_fresh (m_policy (ver_meta v)) (rq_headers rq)
  | None => mret false
  end.
(** The answer of the provider goes to the client as it is. *)
Definition pass (rq : ResourceRequest) (base : H) : Fallible Delivered :=
  r ← fetch (rq_prepared rq) (downstream_request base (rq_headers rq)) ; mret (Passed r).
(** A version that cannot be resumed is used when it is complete, or being downloaded. *)
Definition usable (rq : ResourceRequest) (cached : option Version) : Fallible (option Version) :=
  match cached with
  | None => mret None
  | Some old =>
      alive ← tell (Alive (ver_id old)) ;
      downloading ← observe (λ s, Ok ((alive : bool) &&
        existsb (λ kd : Z * Z * Z * nat, kd.1.1.1 =? ver_id old) (map_to_list (sv_table s)))) : Fallible bool ;
      if (negb downloading || contains_key (rq_headers rq) "range") &&
         (bool_decide (range_value (m_policy (ver_meta old)) = None) || negb (m_ranges (ver_meta old)))
      then complete ← call (IsComplete old) ; mret (if (complete : bool) then Some old else None)
      else mret (Some old)
  end.
(** What comes of asking the provider: an answer for the client, or a version to read, with the
    answer it was made from and the part of it that answer has. *)
Inductive Chosen := Done (d : Delivered) | Chosen_version (v : Version) (initial : option Upstream) (range : Z * Z).
(** A 304 answer. *)
Definition revalidated (rq : ResourceRequest) (base : H) (cached : option Version) (r : Upstream)
    (sent received : Z) : Fallible Chosen :=
  match cached with
  | None => throw (Other "unexpected upstream 304")
  | Some old =>
      let m := ver_meta old in
      text (ensure_validation (rq_prepared rq) m r) ;;
      now ← tell Now ;
      headers ← text (ok_or (merge_validation (m_headers m) (up_headers r) now) "invalid header") ;
      let p := from_response headers sent received in
      let p := mk_Policy (stored p) (initial_age p) (lifetime p) (no_cache p) (Policy.store p) (etag p)
                 (modified p) (range_validator (m_policy m)) in
      let m := mk_Metadata (m_key m) (m_provider m) (m_kind m) (m_generation m) (m_geometry m)
                 (saved headers) p (m_target m) (m_ranges m) (m_layout m) in
      if negb (Policy.store p)
      then call (Retire old) ;; d ← pass rq base ; mret (Done d)
      else update_version old m ;; mret (Chosen_version (mk_Version (ver_id old) m (ver_lease old)) None (0, 0))
  end.
(** An answer that is stored, if it can be. *)
Definition admitted (rq : ResourceRequest) (base : H) (key : string) (r : Upstream) (policy : Policy)
    : Fallible Chosen :=
  let p := rq_prepared rq in
  total ← text (response_geometry r) ;
  match total with
  | Some (length, range) =>
      if negb (Policy.store policy)
      then if up_status r =? PARTIAL_CONTENT then d ← pass rq base ; mret (Done d) else mret (Done (Passed r))
      else if (up_status r =? OK) && contains_key (rq_headers rq) "range" then mret (Done (Passed r))
      else
        generation ← tell NewName ;
        m ← text (metadata generation p (rq_provider rq) (rq_kind rq) key length r policy) ;
        made ← create_version m r ;
        match made with
        | Ok v => mret (Chosen_version v (Some r) range)
        | Err _ => d ← pass rq base ; mret (Done d)
        end
  | None =>
      if up_status r =? PARTIAL_CONTENT then d ← pass rq base ; mret (Done d) else mret (Done (Passed r))
  end.
Definition asked (rq : ResourceRequest) (base : H) (key : string) (cached : option Version) : Fallible Chosen :=
  let p := rq_prepared rq in
  let headers := match cached with
                 | Some old => hm_extend base (conditional (m_policy (ver_meta old)))
                 | None => base
                 end in
  let headers := if rq_kind rq =? 1 then insert_text "range" (first_range (rq_headers rq)) headers else headers in
  sent ← tell Now ;
  r ← fetch p headers ;
  received ← tell Now ;
  if up_status r =? NOT_MODIFIED then revalidated rq base cached r sent received
  else if negb ((up_status r =? OK) || (up_status r =? PARTIAL_CONTENT)) then mret (Done (Passed r))
  else
    let policy := from_response (up_headers r) sent received in
    if (up_status r =? PARTIAL_CONTENT) && bool_decide (range_value policy = None)
    then
      sent ← tell Now ;
      r ← fetch p (downstream_request base (rq_headers rq)) ;
      received ← tell Now ;
      if contains_key (rq_headers rq) "range" || negb (up_status r =? OK) then mret (Done (Passed r))
      else admitted rq base key r (from_response (up_headers r) sent received)
    else admitted rq base key r policy.
(** [local_file], and its errors: only a damaged file is one for the request. *)
Definition local_file (rq : ResourceRequest) (client : option string) (v : Version) : Fallible (option LocalFile) :=
  if negb ((rq_kind rq =? 0) && negb (contains_key (rq_headers rq) "range")) then mret None
  else match file_client_for client (rq_headers rq) with
       | None => mret None
       | Some client =>
           file ← tell (LocalFileOf v client) ;
           match file with
           | Ok (Some f) => assert_both v (rq_prepared rq) ;; mret (Some f)
           | Ok None => mret None
           | Err FileCorrupt => throw PlainCorrupt
           | Err (FileOther _) => mret None
           end
       end.
Definition first_download (rq : ResourceRequest) (base : H) (v : Version) (initial : option Upstream)
    (response_range : Z * Z) (start : Z) : Fallible (option nat) :=
  match initial with
  | Some r =>
      if in_range response_range start
      then d ← download v rq base response_range (Some r) start ; mret (Some d)
      else mret None
  | None => find_download v start
  end.
(** The version is read: the head, the first block, and the reader of the rest. *)
Definition open_reader (rq : ResourceRequest) (base : H) (v : Version) (initial : option Upstream)
    (response_range : Z * Z) (range : Z * Z) : Fallible Delivered :=
  let m := ver_meta v in
  let p := rq_prepared rq in
  call (Window v range.1 (Z.min range.2 (range.1 + FETCH_BYTES))) ;;
  let only := only_cached (rq_headers rq) in
  covered ← (if only then call (Covered v range) else mret true) ;
  if negb covered then mret (Head (empty_head GATEWAY_TIMEOUT hm_new)) else
  initial ← first_download rq base v initial response_range range.1 ;
  now ← tell Now ;
  ranges ← (if m_ranges m then mret true else call (IsComplete v)) ;
  let head := stream_head (rq_headers rq) m range ranges now in
  let window := if range.1 =? 0 then FETCH_BYTES else MAX_BLOCK in
  let index := range.1 / g_block (m_geometry m) in
  first ← (if (range.1 <? range.2) && negb only
           then r ← block v rq base index initial range.1 window ; mret (Some (index, r.1), r.2)
           else mret (None, initial)) ;
  assert_both v p ;;
  mret (Streamed head (mk_Reader v rq base range.1 range.2 first.1 first.2 only window 0)).
Definition respond_version (rq : ResourceRequest) (client : option string) (base : H) (v : Version)
    (initial : option Upstream) (response_range : Z * Z) : Fallible Delivered :=
  let m := ver_meta v in
  if not_modified (m_policy m) (rq_headers rq)
  then mret (Head (empty_head NOT_MODIFIED (restore (m_headers m))))
  else match client_range (rq_headers rq) m with
       | None => mret (Head (unsatisfiable_head m))
       | Some range =>
           file ← local_file rq client v ;
           match file with
           | Some f => mret (File f)
           | None => open_reader rq base v initial response_range range
           end
       end.
Definition respond_locked (rq : ResourceRequest) (client : option string) (base : H) (key : string)
    : Fallible Delivered :=
  let headers := rq_headers rq in
  let bypass := request_no_store headers in
  cached ← (if bypass then mret None else lookup_version key) ;
  cached ← usable rq cached ;
  fresh ← (if only_cached headers then fresh_version rq cached else mret false) ;
  if only_cached headers && negb fresh then mret (Head (empty_head GATEWAY_TIMEOUT hm_new))
  else if bypass || (contains_key headers "if-range" && bool_decide (cached = None)) then pass rq base
  else
    fresh ← fresh_version rq cached ;
    chosen ← match cached, fresh : bool with
             | Some old, true => mret (Chosen_version old None (0, 0))
             | _, _ => asked rq base key cached
             end ;
    match chosen with
    | Done d => mret d
    | Chosen_version v initial range => respond_version rq client base v initial range
    end.
Definition respond_body (rq : ResourceRequest) (client : option string) : Fallible Delivered :=
  let p := rq_prepared rq in
  assert_valid p ;;
  let base := request_headers (pr_headers p) (rq_headers rq) in
  if negb persistent then
    if only_cached (rq_headers rq) then mret (Head (empty_head GATEWAY_TIMEOUT hm_new)) else pass rq base
  else
    key ← text (cache_key (rq_provider rq) (rq_scope rq) p base) ;
    with_key key (respond_locked rq client base key).
(** The permit of a reader is kept by the body of an answer that is streamed. *)
Definition keeps_permit (r : result Failure Delivered) : bool :=
  match r with
  | Ok (Passed _ | Streamed _ _ | FromMemory _ _ _ | PassedObject _ _) => true
  | _ => false
  end.
Definition respond (rq : ResourceRequest) (client : option string) : Fallible Delivered :=
  assert_running ;;
  acquire sv_readers readers_by ;;
  r ← calmly (holding (readers_by 1) (respond_body rq client)) ;
  (if keeps_permit r then mret tt else calmly (update (readers_by 1))) ;;
  try_ r.

(** ** Bodies *)

(** The block at the cursor, in memory. *)
Definition at_block (rd : Reader) (index : Z) (bytes : list Z) (initial : option nat) (window sequential : Z) : Reader :=
  mk_Reader (rd_version rd) (rd_request rd) (rd_base rd) (rd_cursor rd) (rd_end rd) (Some (index, bytes))
    initial (rd_only_cached rd) window sequential.
Definition load_block (rd : Reader) (index : Z) : Fallible Reader :=
  let v := rd_version rd in
  let g := m_geometry (ver_meta v) in
  let start := index * g_block g in
  call (Window v start (Z.min (rd_end rd) (start + rd_window rd))) ;;
  let next := is_some_and (rd_block rd) (λ b, b.1 + 1 =? index) in
  let sequential := if next then rd_sequential rd + 1 else rd_sequential rd in
  let grows := next && (4 <=? sequential) in
  let window := if grows then Z.min (rd_window rd * 2) FETCH_BYTES else rd_window rd in
  let sequential := if grows then 0 else sequential in
  if rd_only_cached rd then
    bytes ← read_block v index ;
    bytes ← try_ (ok_or bytes (Other "cached block unavailable")) ;
    mret (at_block rd index bytes None window sequential)
  else
    r ← block v (rd_request rd) (rd_base rd) index (rd_initial rd) (rd_cursor rd) window ;
    mret (at_block rd index r.1 r.2 window sequential).
Definition send (v : Version) (offset : Z) (bytes : list Z) : Fallible unit :=
  tell (Taken bytes) ;;
  calmly (update (λ s, with_sent (sv_sent s ++ [mk_Sent (ver_id v) offset bytes]) s)).
Definition advance (rd : Reader) (n : Z) : Reader :=
  mk_Reader (rd_version rd) (rd_request rd) (rd_base rd) (rd_cursor rd + n) (rd_end rd) (rd_block rd)
    (rd_initial rd) (rd_only_cached rd) (rd_window rd) (rd_sequential rd).
Definition forget_download (d : option nat) (rd : Reader) : Reader :=
  mk_Reader (rd_version rd) (rd_request rd) (rd_base rd) (rd_cursor rd) (rd_end rd) (rd_block rd)
    d (rd_only_cached rd) (rd_window rd) (rd_sequential rd).
(** [try_unfold]: every round sends a frame of at least one byte, so that the bytes that are
    left are rounds enough; an empty frame, with which the code would never end, counts as a
    panic. The frames are returned. *)
Fixpoint stream (fuel : nat) (rd : Reader) : Fallible (list (list Z)) :=
  let v := rd_version rd in
  let g := m_geometry (ver_meta v) in
  observe (λ s, ensure (negb (sv_stop s)) (Other "resource reader closed")) ;;
  assert_both_or (Other "resource reader closed") v (rq_prepared (rd_request rd)) ;;
  if rd_cursor rd =? rd_end rd then mret [] else
  match fuel with
  | O => throw Panic
  | Datatypes.S fuel =>
      let index := rd_cursor rd / g_block g in
      has ← observe (λ s, Ok (match rd_initial rd with
              | Some d => is_some_and (sv_heap s !! d) (λ dl, in_range (dl_range dl) (rd_cursor rd))
              | None => false
              end)) : Fallible bool ;
      let rd := forget_download (if (has : bool) then rd_initial rd else None) rd in
      rd ← (if is_none_or (rd_block rd) (λ b, negb (b.1 =? index)) then load_block rd index else mret rd) ;
      match rd_block rd with
      | None => throw Panic
      | Some (_, bytes) =>
          let offset := rd_cursor rd mod g_block g in
          let length := Z.min (Z.min OUTPUT_BYTES (zlen bytes - offset)) (rd_end rd - rd_cursor rd) in
          match slice bytes offset (offset + length) with
          | None => throw Panic
          | Some frame =>
              if length <=? 0 then throw Panic else
              send v (rd_cursor rd) frame ;;
              rest ← stream fuel (advance rd length) ;
              mret (frame :: rest)
          end
      end
  end.
Definition stream_all (rd : Reader) : Fallible (list (list Z)) :=
  stream (Z.to_nat (rd_end rd - rd_cursor rd)) rd.
(** A body that goes through as it comes. *)
Fixpoint pass_frames (chunks : list (list Z)) (failure : option string) : Fallible (list (list Z)) :=
  match chunks with
  | [] => match failure with Some e => throw (Other e) | None => mret [] end
  | chunk :: chunks =>
      tell (Taken chunk) ;; rest ← pass_frames chunks failure ; mret (chunk :: rest)
  end.
(** [streaming_object]: what was read already, and the rest, while the resource is valid. *)
Fixpoint pass_object (p : PreparedResource) (chunks : list (list Z)) (failure : option string)
    : Fallible (list (list Z)) :=
  valid ← tell (Valid p) ;
  running ← observe (λ s, Ok (negb (sv_stop s))) : Fallible bool ;
  if negb (valid && running) then throw (Other "playback closed") else
  arm ← tell Race ;
  match arm with
  | Invalidates => throw (Other "playback closed")
  | Stops => throw (Other "resource service stopped")
  | _ =>
      match chunks with
      | [] => match failure with Some e => throw (Other e) | None => mret [] end
      | chunk :: chunks =>
          tell (Taken chunk) ;; rest ← pass_object p chunks failure ; mret (chunk :: rest)
      end
  end.
(** An object, sent from memory. *)
Fixpoint memory_frames (fuel : nat) (p : PreparedResource) (bytes : list Z) (range : Z * Z)
    : Fallible (list (list Z)) :=
  if range.1 =? range.2 then mret [] else
  match fuel with
  | O => throw Panic
  | Datatypes.S fuel =>
      valid ← tell (Valid p) ;
      if negb valid then throw (Other "playback invalidated") else
      let stop := Z.min range.2 (range.1 + OUTPUT_BYTES) in
      match slice bytes range.1 stop with
      | None => throw Panic
      | Some frame =>
          tell (Taken frame) ;;
          rest ← memory_frames fuel p bytes (stop, range.2) ;
          mret (frame :: rest)
      end
  end.
(** The body of an answer, to its end. *)
Definition body (rq : ResourceRequest) (d : Delivered) : Fallible (list (list Z)) :=
  match d with
  | Head _ | File _ => mret []
  | Passed r => pass_frames (up_body r) (up_failure r)
  | Streamed _ rd => stream_all rd
  | FromMemory _ bytes range =>
      memory_frames (Z.to_nat (range.2 - range.1)) (rq_prepared rq) bytes range
  | PassedObject r prefix => pass_object (rq_prepared rq) (prefix ++ up_body r) (up_failure r)
  end.

(** ** Objects *)

Notation Object := (ObjectMetadata * list Z)%type.
Definition object_with (policy : Policy) (headers : Headers) (o : Object) : Object :=
  let m := o.1 in
  (mk_ObjectMetadata (om_key m) (om_group m) (om_provider m) (om_length m) headers policy
     (om_target m) (om_effective_url m), o.2).
Inductive Fetched := Have (o : Object) | Through (d : Delivered) (url : U).
Definition unchanged (r : Upstream) (name : string) (expected : option string) : Fallible unit :=
  match value (up_headers r) name with
  | Some v => require (bool_decide (expected = Some v)) (Other "object validator changed")
  | None => mret tt
  end.
Definition object_revalidated (rq : ResourceRequest) (key : string) (cached : option Object) (r : Upstream)
    (sent : Z) : Fallible Fetched :=
  old ← try_ (ok_or cached (Other "unexpected object 304")) ;
  target ← text (target_of (rq_prepared rq) (up_url r)) ;
  require (str_eqb target (om_target old.1)) (Other "object validation target changed") ;;
  unchanged r "etag" (etag (om_policy old.1)) ;;
  unchanged r "last-modified" (modified (om_policy old.1)) ;;
  match value (up_headers r) "content-length" with
  | Some length => require (bool_decide (parse_u64 length = Some (om_length old.1)))
                     (Other "object validation length changed")
  | None => mret tt
  end ;;
  now ← tell Now ;
  merged ← text (ok_or (merge_validation (om_headers old.1) (up_headers r) now) "invalid header") ;
  now ← tell Now ;
  let o := object_with (from_response merged sent now) (saved merged) old in
  (if negb persistent then mret tt
   else if Policy.store (om_policy o.1) then tell (UpdateObject o.1) else tell (RemoveObject key)) ;;
  mret (Have o).
Definition rest_of (r : Upstream) (chunks : list (list Z)) : Upstream :=
  mk_Upstream (up_status r) (up_headers r) (up_length r) (up_url r) chunks (up_failure r) (up_full r).
(** An object that is too large goes through; a part of it is asked for again. *)
Definition too_large (rq : ResourceRequest) (base : H) (r : Upstream) (prefix : list (list Z)) (chunks : list (list Z))
    : Fallible Fetched :=
  if contains_key (rq_headers rq) "range"
  then again ← execute (rq_prepared rq) (downstream_request base (rq_headers rq)) ;
       mret (Through (PassedObject again []) (up_url again))
  else mret (Through (PassedObject (rest_of r chunks) prefix) (up_url r)).
Definition assert_playing (p : PreparedResource) : Fallible unit :=
  valid ← tell (Valid p) ;
  running ← observe (λ s, Ok (negb (sv_stop s))) : Fallible bool ;
  require (valid && running) (Other "playback resource invalidated").
(** The object is read to its end, or until it is too large. *)
Fixpoint read_object (chunks : list (list Z)) (rq : ResourceRequest) (base : H) (r : Upstream) (data : list Z)
    : Fallible (list Z + Fetched) :=
  arm ← tell Race ;
  match arm with
  | TimesOut => throw (Other "deadline has elapsed")
  | Invalidates => throw (Other "playback resource invalidated")
  | Stops => throw (Other "resource service stopped")
  | _ =>
      match chunks with
      | [] => match up_failure r with Some e => throw (Other e) | None => mret (inl data) end
      | chunk :: chunks =>
          assert_playing (rq_prepared rq) ;;
          if MAX_OBJECT <? zlen data + zlen chunk
          then f ← too_large rq base r [data; chunk] chunks ; mret (inr f)
          else read_object chunks rq base r (data ++ chunk)
      end
  end.
Definition store_object (rq : ResourceRequest) (key : string) (bypass : bool) (o : Object) : Fallible unit :=
  if negb persistent then mret tt
  else if negb bypass && Policy.store (om_policy o.1)
  then
    tell (PutObject o.1 o.2) ;;
    valid ← tell (Valid (rq_prepared rq)) ;
    if (valid : bool) then mret tt else tell (RemoveObject key)
  else tell (RemoveObject key).
Definition object_received (rq : ResourceRequest) (base : H) (key : string) (bypass : bool) (r : Upstream) (sent : Z)
    : Fallible Fetched :=
  let p := rq_prepared rq in
  now ← tell Now ;
  read ← read_object (up_body r) rq base r [] ;
  match read with
  | inr f => mret f
  | inl data =>
      require (is_none_or (up_length r) (λ n, n =? zlen data)) (Other "incomplete object response") ;;
      assert_playing p ;;
      group ← text (identity (bytes_of (rq_scope rq))) ;
      target ← text (target_of p (up_url r)) ;
      let m := mk_ObjectMetadata key group (rq_provider rq) (zlen data) (saved (up_headers r))
        (from_response (up_headers r) sent now) target (url_str (cache_url p (up_url r))) in
      store_object rq key bypass (m, data) ;;
      mret (Have (m, data))
  end.
Definition goes_through (f : result Failure Fetched) : bool :=
  match f with Ok (Through _ _) => true | _ => false end.
Definition object_asked (rq : ResourceRequest) (base : H) (key : string) (bypass : bool) (cached : option Object)
    : Fallible Fetched :=
  let p := rq_prepared rq in
  let headers := match cached with
                 | Some old => hm_extend base (conditional (om_policy old.1))
                 | None => base
                 end in
  sent ← tell Now ;
  acquire sv_requests requests_by ;;
  f ← calmly (holding (requests_by 1) (
    r ← execute p headers ;
    if up_status r =? NOT_MODIFIED then object_revalidated rq key cached r sent
    else if negb (up_status r =? OK) || is_some_and (up_length r) (λ n, MAX_OBJECT <? n)
    then
      r ← (if (up_status r =? OK) && contains_key (rq_headers rq) "range"
           then execute p (downstream_request base (rq_headers rq)) else mret r) ;
      mret (Through (PassedObject r []) (up_url r))
    else object_received rq base key bypass r sent)) ;
  (if goes_through f then mret tt else calmly (update (requests_by 1))) ;;
  try_ f.
(** What is sent of an object. *)
Definition object_answer (rq : ResourceRequest) (o : Object) : Fallible (Delivered * U) :=
  let m := o.1 in
  assert_valid (rq_prepared rq) ;;
  url ← text (ok_or (url_parse (om_effective_url m)) "invalid URL") ;
  if not_modified (om_policy m) (rq_headers rq)
  then mret (Head (empty_head NOT_MODIFIED (restore (om_headers m))), url)
  else
    generation ← tell NewName ;
    geometry ← text (Geometry_new (om_length m)) ;
    let m := mk_Metadata (om_key m) (rq_provider rq) (rq_kind rq) generation geometry (om_headers m)
      (om_policy m) (om_target m) true Blocks in
    match client_range (rq_headers rq) m with
    | None => mret (Head (unsatisfiable_head m), url)
    | Some range =>
        now ← tell Now ;
        mret (FromMemory (object_head (rq_headers rq) m range now) o.2 range, url)
    end.
Definition object_locked (rq : ResourceRequest) (base : H) (key : string) : Fallible (Delivered * U) :=
  let headers := rq_headers rq in
  let bypass := request_no_store headers in
  cached ← (if negb bypass && persistent
            then found ← tell (FindObject key) ; mret (match found with Ok o => o | Err _ => None end)
            else mret None) ;
  fresh ← match cached with
          | Some o => is_fresh (om_policy o.1) headers
          | None => mret false
          end ;
  if only_cached headers && negb fresh
  then mret (Head (empty_head GATEWAY_TIMEOUT hm_new), pr_url (rq_prepared rq))
  else
    f ← match cached, fresh : bool with
        | Some o, true => mret (Have o)
        | _, _ => object_asked rq base key bypass cached
        end ;
    match f with
    | Through d url => mret (d, url)
    | Have o => object_answer rq o
    end.
Definition keeps_object (r : result Failure (Delivered * U)) : bool :=
  match r with Ok ((FromMemory _ _ _ | PassedObject _ _), _) => true | _ => false end.
Definition respond_object (rq : ResourceRequest) : Fallible (Delivered * U) :=
  let p := rq_prepared rq in
  running ← observe (λ s, Ok (negb (sv_stop s))) : Fallible bool ;
  valid ← (if (running : bool) then tell (Valid p) else mret false) ;
  require valid (Other "playback resource unavailable") ;;
  acquire sv_readers readers_by ;;
  r ← calmly (holding (readers_by 1) (
    acquire sv_buffers buffers_by ;;
    r ← calmly (holding (buffers_by 1) (
      let base := request_headers (pr_headers p) (rq_headers rq) in
      key ← text (cache_key (rq_provider rq) (rq_scope rq) p base) ;
      with_key key (object_locked rq base key))) ;
    (if keeps_object r then mret tt else calmly (update (buffers_by 1))) ;;
    try_ r)) ;
  (if keeps_object r then mret tt else calmly (update (readers_by 1))) ;;
  try_ r.

(** ** [delivery] *)

Definition delivery (rq : ResourceRequest) (client : option string) : Fallible Delivered :=
  if negb (bool_decide (pr_mode (rq_prepared rq) = ByteRange))
  then r ← respond_object rq ; mret r.1
  else
    r ← calmly (respond rq client) ;
    r ← match r with
        | Err Changed | Err PlainCorrupt => calmly (respond rq client)
        | _ => mret r
        end ;
    match r with
    | Err (UpstreamStatus status headers) => mret (Head (empty_head status (hm_remove "content-encoding" headers)))
    | _ => try_ r
    end.
Definition object_response (rq : ResourceRequest) : Fallible (Delivered * U) := respond_object rq.
Definition forward (r : Upstream) : Fallible Delivered :=
  acquire sv_readers readers_by ;; mret (Passed r).

(** ** Leases of files, invalidation, shutdown *)

Inductive LeaseMethod := PostLease | DeleteLease | OtherLease.
(** The status, and whether the seconds of a lease are named. *)
Definition file_lease_response (client : option string) (method : LeaseMethod) (path : string) (headers : H)
    : Code (option (Z * bool)) :=
  match strip_prefix leases_path path with
  | None => mret None
  | Some rest =>
      match authenticated_file_client client headers with
      | None => mret (Some (403, false))
      | Some client =>
          let named := match split_once (chr 47) rest with
                       | Some (token, tail) => if str_eqb tail "renew" then Some (token, true) else None
                       | None => Some (rest, false)
                       end in
          match named with
          | None => mret (Some (404, false))
          | Some (token, renew) =>
              if negb (slen token =? 32) || bool_decide (parse_uuid token = None) then mret (Some (404, false))
              else if negb persistent then mret (Some (503, false))
              else match method, renew with
                   | PostLease, true =>
                       r ← ask (RenewFile token client) ;
                       mret (Some (match r with
                                   | Ok true => (204, true) | Ok false => (410, false) | Err _ => (503, false)
                                   end))
                   | DeleteLease, false =>
                       r ← ask (ReleaseFile token client) ;
                       mret (Some (match r with Ok _ => (204, false) | Err _ => (503, false) end))
                   | _, _ => mret (Some (405, false))
                   end
          end
      end
  end.
Definition of_provider (s : State) (provider : Z) (d : nat) : bool :=
  existsb (λ kd : Z * Z * Z * nat, (kd.2 =? d)%nat) (map_to_list (sv_table s)) &&
  is_some_and (sv_heap s !! d) (λ dl, dl_provider dl =? provider).
Definition invalidate (provider : Z) : Fallible unit :=
  if negb persistent then mret tt else
  calmly (update (λ s, foldr (λ d, on_download d cancel_download) s
    (filter (λ d, of_provider s provider d = true) (seq 0 (length (sv_heap s)))))) ;;
  call (Invalidate provider).
(** The tasks are waited for, or aborted: as threads they may be dropped. *)
Definition shutdown : Code unit := update (with_stop true).

(** ** The threads *)

Inductive Outcome :=
| Answered (rq : ResourceRequest) (d : Delivered) (frames : result Failure (list (list Z)))
| Refused (e : Failure)
| Leased (r : option (Z * bool))
| TaskDone.
(** What the body of an answer holds until its end. *)
Definition release_body (d : Delivered) (s : State) : State :=
  match d with
  | Head _ | File _ => s
  | Passed _ | Streamed _ _ => readers_by 1 s
  | FromMemory _ _ _ => buffers_by 1 (readers_by 1 s)
  | PassedObject _ _ => requests_by 1 (buffers_by 1 (readers_by 1 s))
  end.
Definition deliver (rq : ResourceRequest) (c : Fallible Delivered) : Code Outcome :=
  r ← c : Code (result Failure Delivered) ;
  match r with
  | Err e => mret (Refused e)
  | Ok d =>
      frames ← scoped (release_body d) (body rq d) : Code (result Failure (list (list Z))) ;
      mret (Answered rq d frames)
  end.
Definition serve (rq : ResourceRequest) (client : option string) : Code Outcome :=
  deliver rq (delivery rq client).
Definition started (tr : Transfer) : Transfer :=
  mk_Transfer (tr_download tr) (tr_version tr) (tr_request tr) (tr_base tr) (tr_range tr) (tr_response tr) true.
Definition start (s : State) : option (State * Thread State Outcome Question) :=
  it ← list_find (λ tr, tr_started tr = false) (sv_tasks s) ;
  Some (with_tasks (alter started it.1 (sv_tasks s)) s,
        mk_Thread (Some (_ ← transfer_task it.2 ; mret TaskDone)) true).
Inductive arrives : Thread State Outcome Question → Prop :=
| A_request rq client : arrives (mk_Thread (Some (serve rq client)) true)
| A_forward rq r : arrives (mk_Thread (Some (deliver rq (forward r))) true)
| A_lease client method path headers :
    arrives (mk_Thread (Some (r ← file_lease_response client method path headers ; mret (Leased r))) true)
| A_invalidate p : arrives (mk_Thread (Some (_ ← invalidate p : Code (result Failure unit) ; mret TaskDone)) true)
| A_shutdown : arrives (mk_Thread (Some (_ ← shutdown ; mret TaskDone)) false).
(** The storage forgets blocks: eviction, invalidation, damage that it finds. *)
Inductive env : State → State → Prop :=
| E_forget s m : m ⊆ sv_stored s → env s (with_storage (sv_versions s) m s).
Definition initial : State :=
  mk_State false MAX_READERS 8 4 ∅ ∅ false [] ∅ [] ∅ ∅ [].
End service.
