(* ===== verification/Content.v ===== *)
(** * Resource cache: whose bytes are sent

    An invariant of the service: every block that is stored, or kept by a download, is the
    block of the representation its version was created from. With it the code of [Service.v]
    is safe in the sense of [Threads.v]; nothing is owned, so there are no tokens. *)
From stdpp Require Import gmultiset.
From S2P Require Import Prelude Text Format HttpRange Policy Storage Materialize Resource Delivery DeliveryFacts.
From S2P Require Import Threads Service.
From stdpp Require Import options.
#[local] Set Default Proof Using "Type*".

Open Scope Z_scope.
Open Scope list_scope.

(** ** Code that keeps an invariant *)

Section fine.
Context {S : Type} {Q : Type → Type} {F : Type} (I : S → Prop) (G : relation S) `{!PreOrder G}
  (honest : ∀ X, Q X → X → Prop) (panic : F).
Notation Fallible := (Fallible S Q F).
Definition destroys (d : S → S) : Prop := ∀ s, I s → G s (d s) ∧ I (d s).
(** From states after [s0]: the results of [c] satisfy [P]. *)
Fixpoint goes {A} (c : Code S Q A) (s0 : S) (P : S → A → Prop) : Prop :=
  match c with
  | Ret a => P s0 a
  | Act d m k =>
      destroys d ∧ ∀ s b s', G s0 s → I s → m s = Some (b, s') → G s s' ∧ I s' ∧ goes (k b) s' P
  | Ask q d k => destroys d ∧ ∀ x, honest _ q x → goes (k x) s0 P
  end.
(** Errors may be any but [panic]. *)
Definition fine {A} (c : Fallible A) (s0 : S) (P : S → A → Prop) : Prop :=
  goes c s0 (λ s r, match r with Ok a => P s a | Err e => e ≠ panic end).

Definition plainly (s : S) (O : gmultiset unit) : Prop := I s.
Lemma goes_safe {A} (c : Code S Q A) : ∀ s0 P,
  goes c s0 P → safe_from plainly G honest c s0 ∅ (λ s a o, o = ∅ ∧ P s a).
Proof.
  assert (∀ d, destroys d → releases plainly G d (∅ : gmultiset unit)) as Hd by (intros d Hd s O; apply Hd).
  induction c as [a|B d m k IH|X q d k IH]; cbn; intros s0 P Hc; [done|..].
  - destruct Hc as [Hr Hc]. split; [by apply Hd|]. intros s O b s' HG HI Hm.
    destruct (Hc s b s' HG HI Hm) as (? & HI' & ?). split; [done|]. exists ∅. split; [exact HI'|auto].
  - destruct Hc as [Hr Hc]. split; [by apply Hd|]. auto.
Qed.
Lemma goes_mono {A} (c : Code S Q A) : ∀ s0 (P P' : S → A → Prop),
  goes c s0 P → (∀ s a, G s0 s → P s a → P' s a) → goes c s0 P'.
Proof.
  induction c as [a|B d m k IH|X q d k IH]; cbn; intros s0 P P' Hc HP; [by apply HP|..].
  - destruct Hc as [Hr Hc]. split; [done|]. intros s b s' HG HI Hm.
    destruct (Hc s b s' HG HI Hm) as (HG' & ? & ?). split_and!; [done..|]. eapply IH; [done|].
    intros s1 a H1. apply HP. by do 2 (etrans; [eassumption|]).
  - destruct Hc as [Hr Hc]. split; [done|]. eauto.
Qed.
Lemma goes_bind {A B} (c : Code S Q A) (f : A → Code S Q B) s0 (P : S → A → Prop) R :
  goes c s0 P → (∀ s a, G s0 s → P s a → goes (f a) s R) → goes (code_bind c f) s0 R.
Proof.
  revert s0. induction c as [a|B' d m k IH|X q d k IH]; cbn; intros s0 Hc Hf; [by apply Hf|..].
  - destruct Hc as [Hr Hc]. split; [done|]. intros s b s' HG HI Hm.
    destruct (Hc s b s' HG HI Hm) as (HG' & ? & ?). split_and!; [done..|]. apply IH; [done|].
    intros s1 a H1. apply Hf. by do 2 (etrans; [eassumption|]).
  - destruct Hc as [Hr Hc]. split; [done|]. eauto.
Qed.
Lemma goes_later {A} (c : Code S Q A) (P : S → A → Prop) :
  (∀ s s' a, G s s' → P s a → P s' a) → ∀ s0 s1, G s0 s1 → goes c s0 P → goes c s1 P.
Proof.
  intros HP. induction c as [a|B d m k IH|X q d k IH]; cbn; intros s0 s1 Hs Hc; [by eapply HP|..].
  - destruct Hc as [Hr Hc]. split; [done|]. intros s b s' HG HI Hm. eapply Hc; [by etrans|done..].
  - destruct Hc as [Hr Hc]. split; [done|]. eauto.
Qed.
Lemma goes_holding {A} (r : S → S) (c : Code S Q A) : ∀ s0 P,
  destroys r → goes c s0 P → goes (holding r c) s0 P.
Proof.
  intros s0 P Hr. assert (∀ d, destroys d → destroys (r ∘ d)) as Hd.
  { intros d Hd s HI. destruct (Hd s HI) as [? HI']. destruct (Hr _ HI'). split; [by etrans|done]. }
  revert s0. induction c as [a|B d m k IH|X q d k IH]; cbn; intros s0 Hc; [done|..].
  - destruct Hc as [Hdd Hc]. split; [by apply Hd|]. intros s b s' HG HI Hm.
    destruct (Hc s b s' HG HI Hm) as (? & ? & ?). auto.
  - destruct Hc as [Hdd Hc]. split; [by apply Hd|]. auto.
Qed.
Lemma destroys_id : destroys id.
Proof. by intros s HI. Qed.

Lemma fine_mono {A} (c : Fallible A) s0 (P P' : S → A → Prop) :
  fine c s0 P → (∀ s a, G s0 s → P s a → P' s a) → fine c s0 P'.
Proof. intros Hc HP. eapply goes_mono; [exact Hc|]. intros s [a|e] HG; [by apply HP|done]. Qed.
Lemma fine_then {A B} (c : Fallible A) (f : A → Fallible B) s0 (P : S → A → Prop) R :
  fine c s0 P → (∀ s a, G s0 s → P s a → fine (f a) s R) → fine (c ≫= f) s0 R.
Proof. intros Hc Hf. eapply goes_bind; [exact Hc|]. intros s [a|e] HG HP; [by apply Hf|done]. Qed.
Lemma fine_ret {A} (a : A) s0 (P : S → A → Prop) : P s0 a → fine (mret a) s0 P.
Proof using. done. Qed.
Lemma fine_throw {A} (e : F) s0 (P : S → A → Prop) : e ≠ panic → fine (throw e) s0 P.
Proof using. done. Qed.
Lemma fine_try {A} (r : result F A) s0 (P : S → A → Prop) :
  match r with Ok a => P s0 a | Err e => e ≠ panic end → fine (try_ r) s0 P.
Proof using. done. Qed.
Lemma fine_require (b : bool) e s0 (P : S → unit → Prop) :
  e ≠ panic → (b = true → P s0 tt) → fine (require b e) s0 P.
Proof using. intros He HP. unfold require, fine. cbn. destruct b; cbn; auto. Qed.
Lemma fine_calmly {A} (c : Code S Q A) s0 P : goes c s0 P → fine (calmly c) s0 P.
Proof. intros Hc. eapply goes_bind; [exact Hc|]. auto. Qed.
Lemma goes_ask {X} (q : Q X) s0 (P : S → X → Prop) : (∀ x, honest _ q x → P s0 x) → goes (ask q) s0 P.
Proof. split; [apply destroys_id|done]. Qed.
Lemma goes_when {B} (m : S → option (B * S)) s0 (P : S → B → Prop) :
  (∀ s b s', G s0 s → I s → m s = Some (b, s') → G s s' ∧ I s' ∧ P s' b) → goes (when m) s0 P.
Proof. split; [apply destroys_id|done]. Qed.
Lemma goes_atomically {B} (m : S → B * S) s0 (P : S → B → Prop) :
  (∀ s, G s0 s → I s → G s (m s).2 ∧ I (m s).2 ∧ P (m s).2 (m s).1) → goes (atomically m) s0 P.
Proof. intros Hm. apply goes_when. intros s b s' HG HI [= He]. specialize (Hm s HG HI). by rewrite He in Hm. Qed.
Lemma goes_update (f : S → S) s0 (P : S → unit → Prop) :
  (∀ s, G s0 s → I s → G s (f s) ∧ I (f s) ∧ P (f s) tt) → goes (update f) s0 P.
Proof. apply (goes_atomically (λ s, (tt, f s))). Qed.
Lemma goes_observe {B} (f : S → B) s0 (P : S → B → Prop) :
  (∀ s, G s0 s → I s → P s (f s)) → goes (observe f) s0 P.
Proof. intros Hf. apply (goes_atomically (λ s, (f s, s))). intros s HG HI. cbn. by split_and!; [| |apply Hf]. Qed.
Lemma goes_scoped {A} (r : S → S) (c : Code S Q A) s0 (P : S → A → Prop) :
  destroys r → (∀ s s' a, G s s' → P s a → P s' a) → goes c s0 P → goes (scoped r c) s0 P.
Proof.
  intros Hr HP Hc. eapply goes_bind; [apply goes_holding; [done|exact Hc]|].
  intros s a _ Ha. split; [done|]. intros s1 b s' HG HI [= <- <-]. destruct (Hr s1 HI) as [? ?].
  split_and!; [done..|]. eapply HP; [|exact Ha]. by etrans.
Qed.
End fine.

(** ** What the answers of a server are *)

(** The answers that the servers of the world ever give. *)
Class Servers (H U : Type) := served : Upstream H U → Prop.

Section content.
Context {H V U : Type} `{!HttpHeaders H V, !Urls U, !ServiceLib H V, D : Digest, !HttpHeadersLaws H V, W : !Servers H U}.
Notation Upstream := (Upstream H U).
Notation PreparedResource := (PreparedResource H U).
Notation Metadata := Storage.Metadata.
Notation Version := Storage.Version.
Notation State := (State (H := H) (U := U)).
Notation Question := (Question (H := H) (U := U)).
Notation Failure := (Failure (H := H)).
Notation Download := (Download (H := H)).
Implicit Types (s : State) (r : Upstream) (m : Metadata) (v : Version).

(** A server sends what it says: the bytes of the representation, from where the answer says it
    starts, perhaps not all of them. *)
Record genuine (r : Upstream) : Prop := {
  ge_served : served r;
  ge_length n : up_length r = Some n → is_u64 n;
  ge_body n a b : response_geometry r = Ok (Some (n, (a, b))) →
    zlen (up_full r) = n ∧
    take (Z.to_nat (b - a)) (concat (up_body r)) `prefix_of` drop (Z.to_nat a) (up_full r);
}.
(** An object is stored whole. *)
Definition whole_object (o : ObjectMetadata * list Z) : Prop := om_length o.1 = zlen o.2 ∧ is_u64 (om_length o.1).
Definition honest (X : Type) (q : Question X) : X → Prop :=
  match q in Service.Question X return X → Prop with
  | Send _ _ | Validate _ _ => λ a, ∀ r, a = Ok r → genuine r
  | FindObject _ => λ a, ∀ o, a = Ok (Some o) → whole_object o
  | _ => λ _, True
  end.
(** What a strong validator promises (RFC 9110, 8.8.1): two answers from the same place, of which
    the second matches the validator of the first, are of one representation. *)
Class OneRepresentation : Prop :=
  one_representation (p1 p2 : PreparedResource) r1 r2 t rv :
    genuine r1 → genuine r2 → target_of p1 (up_url r1) = Ok t → target_of p2 (up_url r2) = Ok t →
    response_validator (up_headers r1) = Some rv → RangeValidator_matches rv (up_headers r2) = true →
    zlen (up_full r1) = zlen (up_full r2) → up_full r1 = up_full r2.

(** ** The invariant *)

Definition weak (e : option string) : Prop := ∀ t, e = Some t → strong_etag t = false.
(** Metadata of a version that was created from [o]. *)
Record sound_meta (o : Upstream) (m : Metadata) : Prop := {
  sm_genuine : genuine o;
  sm_geometry : Geometry_new (zlen (up_full o)) = Ok (m_geometry m);
  sm_length : is_u64 (zlen (up_full o));
  sm_target : ∃ p : PreparedResource, target_of p (up_url o) = Ok (m_target m);
  sm_validator : range_validator (m_policy m) = response_validator (up_headers o);
  sm_etag : range_validator (m_policy m) = None → weak (etag (m_policy m));
  sm_header : range_validator (m_policy m) = None → weak (value (restore (H := H) (m_headers m)) "etag");
}.
Definition origin s (id : Z) (o : Upstream) : Prop := ∃ m, sv_versions s !! id = Some (mk_Info m o).
Definition known s v : Prop := ∃ o, origin s (ver_id v) o ∧ sound_meta o (ver_meta v).
(** The block of the representation. *)
Definition block_of (o : Upstream) (i : Z) (b : list Z) : Prop :=
  ∃ g, Geometry_new (zlen (up_full o)) = Ok g ∧
    slice (up_full o) (i * g_block g) (Z.min ((i + 1) * g_block g) (g_length g)) = Some b.
Definition good_block s (id i : Z) (b : list Z) : Prop := ∃ o, origin s id o ∧ block_of o i b.
Definition holds s v (d : nat) : Prop := ∃ x, sv_heap s !! d = Some x ∧ dl_version x = ver_id v.
(** What a download may use the answer for. *)
Definition good_response s v (range : Z * Z) (r : option Upstream) : Prop :=
  match r with
  | Some r => genuine r ∧ origin s (ver_id v) r ∧ ∃ n, response_geometry r = Ok (Some (n, range))
  | None => is_Some (range_value (m_policy (ver_meta v)))
  end.
Definition good_transfer s (tr : Transfer (H := H) (U := U)) : Prop :=
  known s (tr_version tr) ∧ holds s (tr_version tr) (tr_download tr) ∧
  good_response s (tr_version tr) (tr_range tr) (tr_response tr).
Definition good_piece s (e : Sent) : Prop :=
  ∃ o, origin s (se_version e) o ∧
    slice (up_full o) (se_offset e) (se_offset e + zlen (se_data e)) = Some (se_data e).
Record Inv s : Prop := {
  in_version id i : sv_versions s !! id = Some i → sound_meta (vi_origin i) (vi_meta i);
  in_stored id i b : sv_stored s !! (id, i) = Some b → good_block s id i b;
  in_buffered d x i b : sv_heap s !! d = Some x → dl_blocks x !! i = Some b → good_block s (dl_version x) i b;
  in_progress d x : sv_heap s !! d = Some x → dl_progress x ≠ Failed Panic;
  in_task tr : tr ∈ sv_tasks s → good_transfer s tr;
  in_sent e : e ∈ sv_sent s → good_piece s e;
}.
(** Versions keep their origins, downloads their versions. *)
Record grows s s' : Prop := {
  gr_origin id o : origin s id o → origin s' id o;
  gr_heap d x : sv_heap s !! d = Some x → ∃ x', sv_heap s' !! d = Some x' ∧ dl_version x' = dl_version x;
}.
#[export] Instance grows_preorder : PreOrder grows.
Proof.
  split; [intros s; split; eauto|]. intros s1 s2 s3 [O1 H1] [O2 H2]. split; [auto|].
  intros d x Hx. destruct (H1 _ _ Hx) as (y & Hy & ?). destruct (H2 _ _ Hy) as (z & Hz & ?).
  exists z. split; [done|congruence].
Qed.
Lemma known_later s s' v : grows s s' → known s v → known s' v.
Proof. intros HG (o & Ho & ?). exists o. split; [by eapply gr_origin|done]. Qed.
Lemma good_block_later s s' id i b : grows s s' → good_block s id i b → good_block s' id i b.
Proof. intros HG (o & Ho & ?). exists o. split; [by eapply gr_origin|done]. Qed.
Lemma holds_later s s' v d : grows s s' → holds s v d → holds s' v d.
Proof. intros HG (x & Hx & ?). destruct (gr_heap _ _ HG _ _ Hx) as (x' & ? & ?). exists x'. split; [done|congruence]. Qed.
Lemma good_response_later s s' v range (r : option Upstream) : grows s s' → good_response s v range r → good_response s' v range r.
Proof. intros HG. destruct r; cbn; [|done]. intros (? & ? & ?). split_and!; [done|by eapply gr_origin|done]. Qed.
Lemma good_transfer_later s s' tr : grows s s' → good_transfer s tr → good_transfer s' tr.
Proof.
  intros HG (? & ? & ?).
  split_and!; [by eapply known_later|by eapply holds_later|by eapply good_response_later].
Qed.
Lemma good_piece_later s s' e : grows s s' → good_piece s e → good_piece s' e.
Proof. intros HG (o & Ho & ?). exists o. split; [by eapply gr_origin|done]. Qed.
Lemma origin_unique s id o o' : origin s id o → origin s id o' → o = o'.
Proof. intros [m Hm] [m' Hm']. congruence. Qed.
Lemma known_origin s v o : known s v → origin s (ver_id v) o → sound_meta o (ver_meta v).
Proof. intros (o' & Ho' & ?) Ho. by rewrite (origin_unique _ _ _ _ Ho Ho'). Qed.

(** ** Changes of the state *)

Lemma inv_step s s' :
  Inv s → grows s s' →
  (∀ id i, sv_versions s' !! id = Some i → sv_versions s !! id = Some i ∨
     sound_meta (vi_origin i) (vi_meta i)) →
  (∀ id i b, sv_stored s' !! (id, i) = Some b → sv_stored s !! (id, i) = Some b ∨ good_block s' id i b) →
  (∀ d x, sv_heap s' !! d = Some x → sv_heap s !! d = Some x ∨
     (∀ i b, dl_blocks x !! i = Some b → good_block s' (dl_version x) i b) ∧ dl_progress x ≠ Failed Panic) →
  (∀ tr, tr ∈ sv_tasks s' → tr ∈ sv_tasks s ∨ good_transfer s' tr) →
  (∀ e, e ∈ sv_sent s' → e ∈ sv_sent s ∨ good_piece s' e) →
  Inv s'.
Proof.
  intros [] HG Hv Hst Hh Ht Hse. split.
  - intros id i Hi. destruct (Hv id i Hi); eauto.
  - intros id i b Hb. destruct (Hst id i b Hb); [|done]. eapply good_block_later; eauto.
  - intros d x i b Hx Hb. destruct (Hh d x Hx) as [|[? ?]]; [|eauto]. eapply good_block_later; eauto.
  - intros d x Hx. destruct (Hh d x Hx) as [|[? ?]]; eauto.
  - intros tr Htr. destruct (Ht tr Htr); [|done]. eapply good_transfer_later; eauto.
  - intros e He. destruct (Hse e He); [|done]. eapply good_piece_later; eauto.
Qed.
(** Locks, permits and the stop flag mean nothing. *)
Definition calm s s' : Prop :=
  sv_versions s' = sv_versions s ∧ sv_stored s' = sv_stored s ∧ sv_heap s' = sv_heap s ∧
  sv_tasks s' = sv_tasks s ∧ sv_sent s' = sv_sent s.
Lemma calm_grows s s' : calm s s' → grows s s'.
Proof.
  intros (Hv & _ & Hh & _). split.
  - intros id o [m Hm]. exists m. by rewrite Hv.
  - intros d x Hx. exists x. by rewrite Hh.
Qed.
Lemma calm_inv s s' : calm s s' → Inv s → grows s s' ∧ Inv s'.
Proof.
  intros Hc HI. pose proof (calm_grows _ _ Hc) as HG. split; [done|].
  destruct Hc as (Hv & Hst & Hh & Ht & Hse).
  eapply (inv_step s s' HI HG); rewrite ?Hv, ?Hst, ?Hh, ?Ht, ?Hse; auto.
Qed.
Lemma grows_heap s h t :
  (∀ d x, sv_heap s !! d = Some x → ∃ x', h !! d = Some x' ∧ dl_version x' = dl_version x) →
  grows s (with_downloads h t s).
Proof. intros Hh. split; [auto|done]. Qed.
Lemma alter_lookup {A} (f : A → A) i j (l : list A) x :
  alter f i l !! j = Some x → l !! j = Some x ∨ j = i ∧ ∃ y, l !! i = Some y ∧ x = f y.
Proof.
  destruct (decide (j = i)) as [->|Hne]; [|rewrite list_lookup_alter_ne by done; auto].
  rewrite list_lookup_alter_eq. intros (y & Hy & ->)%fmap_Some. eauto.
Qed.
(** A change of one download: its version stays. *)
Lemma inv_on_download s d f :
  Inv s → (∀ x, dl_version (f x) = dl_version x) →
  (∀ x, sv_heap s !! d = Some x → dl_progress x ≠ Failed Panic → dl_progress (f x) ≠ Failed Panic) →
  (∀ x i b, sv_heap s !! d = Some x → dl_blocks (f x) !! i = Some b →
     dl_blocks x !! i = Some b ∨ good_block s (dl_version x) i b) →
  grows s (on_download d f s) ∧ Inv (on_download d f s).
Proof.
  intros HI Hv Hp Hb. assert (grows s (on_download d f s)) as HG.
  { apply grows_heap. intros j x Hx. destruct (decide (j = d)) as [->|Hne].
    - exists (f x). by rewrite list_lookup_alter_eq, Hx, Hv.
    - exists x. by rewrite list_lookup_alter_ne. }
  split; [done|]. apply (inv_step s _ HI HG); cbn; auto.
  intros j x [Hx|(-> & y & Hy & ->)]%alter_lookup; [by left|]. right. split.
  - intros i b Hi. rewrite Hv. eapply good_block_later; [exact HG|].
    destruct (Hb y i b Hy Hi); [by eapply in_buffered|done].
  - apply Hp; [done|]. by eapply in_progress.
Qed.
Lemma inv_progress s d p :
  Inv s → p ≠ Failed Panic → grows s (on_download d (with_progress p) s) ∧ Inv (on_download d (with_progress p) s).
Proof. intros HI Hp. apply inv_on_download; auto. Qed.
Lemma store_blocks_lookup id blocks : ∀ k id' i b,
  store_blocks id blocks k !! (id', i) = Some b → k !! (id', i) = Some b ∨ id' = id ∧ (i, b) ∈ blocks.
Proof.
  unfold store_blocks. induction blocks as [|[j c] blocks IH]; intros k id' i b Hl; [by left|].
  apply IH in Hl as [Hl|[-> Hl]]; cbn [fst snd] in *.
  - apply lookup_insert_Some in Hl as [[[= <- <-] <-]|[_ Hl]]; [right; split; [done|left]|by left].
  - right. split; [done|by right].
Qed.
Lemma inv_store s id blocks :
  Inv s → Forall (λ ib, good_block s id ib.1 ib.2) blocks →
  let s' := with_storage (sv_versions s) (store_blocks id blocks (sv_stored s)) s in grows s s' ∧ Inv s'.
Proof.
  intros HI Hb s'. assert (grows s s') as HG by (split; eauto). split; [done|].
  apply (inv_step s s' HI HG); cbn; auto.
  intros id' i b [Hl|[-> Hl]]%store_blocks_lookup; [by left|right].
  rewrite Forall_forall in Hb. by apply Hb in Hl.
Qed.
Lemma origin_insert s id m o :
  (∀ o', origin s id o' → o' = o) → ∀ id' o', origin s id' o' →
  origin (with_storage (<[id := mk_Info m o]> (sv_versions s)) (sv_stored s) s) id' o'.
Proof.
  intros Hid id' o' [m' Hm']. unfold origin. cbn. destruct (decide (id' = id)) as [->|Hne].
  - exists m. rewrite lookup_insert_eq. rewrite (Hid o'); [done|by exists m'].
  - exists m'. by rewrite lookup_insert_ne.
Qed.
(** A version is created, or its metadata change. *)
Lemma inv_version s id m o :
  Inv s → sound_meta o m → (∀ o', origin s id o' → o' = o) →
  let s' := with_storage (<[id := mk_Info m o]> (sv_versions s)) (sv_stored s) s in
  grows s s' ∧ Inv s' ∧ origin s' id o.
Proof.
  intros HI Hm Hid s'. assert (grows s s') as HG by (split; [by apply origin_insert|eauto]).
  split; [done|]. split; [|exists m; by apply lookup_insert_eq].
  apply (inv_step s s' HI HG); cbn; auto.
  intros i' i [[<- <-]|[_ Hi]]%lookup_insert_Some; [by right|by left].
Qed.

(** ** Parts of the code *)

Notation goes := (goes Inv grows honest).
Notation fine := (fine Inv grows honest Panic).
Notation Code := (Threads.Code State Question).
Notation Fallible := (Threads.Fallible State Question Failure).
Definition stable {A} (P : State → A → Prop) : Prop := ∀ s s' a, grows s s' → P s a → P s' a.
Definition whatever {A} (s : State) (a : A) : Prop := True.
Lemma stable_pure {A} (P : A → Prop) : stable (λ _ a, P a).
Proof. by intros s s' a _. Qed.
Lemma stable_result {A} (P : State → A → Prop) :
  stable P → stable (λ s (r : result Failure A), match r with Ok a => P s a | Err e => e ≠ Panic end).
Proof. intros HP s s' [a|e] HG; [by apply HP|done]. Qed.

Lemma fine_tell {X} (q : Question X) s0 (P : State → X → Prop) :
  (∀ x, honest X q x → P s0 x) → fine (tell q) s0 P.
Proof. intros HP. apply fine_calmly; [apply _|]. by eapply goes_ask; [apply _|]. Qed.
Lemma fine_call {X} (q : Question (result string X)) s0 (P : State → X → Prop) :
  (∀ a, honest _ q (Ok a) → P s0 a) → fine (call q) s0 P.
Proof.
  intros HP. eapply goes_bind; [apply _|eapply (goes_ask _ _ _ _ _ (λ s a, s = s0 ∧ honest _ q a)); auto|].
  intros s [a|e] _ [-> Ha]; cbn; auto.
Qed.
Lemma fine_text {X} (r : result string X) s0 (P : State → X → Prop) :
  (∀ a, r = Ok a → P s0 a) → fine (text r) s0 P.
Proof. intros HP. apply fine_try. destruct r; cbn; auto. Qed.
Lemma fine_pure {A} (c : Fallible A) s0 : fine c s0 whatever → ∀ P : State → A → Prop,
  (∀ s a, grows s0 s → P s a) → fine c s0 P.
Proof. intros Hc P HP. eapply fine_mono; [apply _|exact Hc|]. auto. Qed.
Lemma calm_destroys d : (∀ s, calm s (d s)) → destroys Inv grows d.
Proof. intros Hd s HI. by apply calm_inv. Qed.
Lemma fine_acquire (available : State → Z) (by_ : Z → State → State) s0 :
  (∀ n s, calm s (by_ n s)) → fine (acquire available by_) s0 whatever.
Proof.
  intros Hb. eapply goes_when; [apply _|]. intros s b s' HG HI Hm.
  destruct (sv_stop s); [injection Hm as <- <-; done|]. destruct (0 <? available s); [|done].
  injection Hm as <- <-. destruct (calm_inv s (by_ (-1) s)); done.
Qed.
Lemma fine_guarded {A} (take : Fallible unit) (d : State → State) (c : Fallible A) s0 P :
  fine take s0 whatever → (∀ s, calm s (d s)) → stable P → (∀ s, grows s0 s → fine c s P) →
  fine (take ;; scoped d c) s0 P.
Proof.
  intros Ht Hd HP Hc. eapply fine_then; [apply _|exact Ht|]. intros s _ HG _.
  apply goes_scoped; [apply _|by apply calm_destroys|by apply stable_result|by apply Hc].
Qed.
Lemma fine_permitted {A} available by_ (c : Fallible A) s0 P :
  (∀ n s, calm s (by_ n s)) → stable P → (∀ s, grows s0 s → fine c s P) →
  fine (permitted available by_ c) s0 P.
Proof. intros Hb HP Hc. apply fine_guarded; auto. by apply fine_acquire. Qed.
Lemma calm_readers n s : calm s (readers_by n s).
Proof. done. Qed.
Lemma calm_buffers n s : calm s (buffers_by n s).
Proof. done. Qed.
Lemma calm_requests n s : calm s (requests_by n s).
Proof. done. Qed.
Lemma fine_lock {A} (m : State → option (result Failure unit * State)) (d : State → State) (c : Fallible A) s0 P :
  (∀ s b s', m s = Some (b, s') → calm s s' ∧ b ≠ Err Panic) → (∀ s, calm s (d s)) → stable P →
  (∀ s, grows s0 s → fine c s P) → fine (when m ;; scoped d c) s0 P.
Proof.
  intros Hm Hd HP Hc. apply fine_guarded; auto. eapply goes_when; [apply _|]. intros s b s' HG HI He.
  destruct (Hm s b s' He) as [Hcalm Hb]. destruct (calm_inv s s' Hcalm HI). split_and!; [done..|].
  destruct b as [|e]; [done|]. by intros ->.
Qed.
Lemma fine_limited {A} id (c : Fallible A) s0 P :
  stable P → (∀ s, grows s0 s → fine c s P) → fine (limited id c) s0 P.
Proof. intros HP Hc. apply fine_lock; [|done..]. intros s b s' Hm. case_match; by simplify_eq. Qed.
Lemma fine_with_key {A} key (c : Fallible A) s0 P :
  stable P → (∀ s, grows s0 s → fine c s P) → fine (with_key key c) s0 P.
Proof. intros HP Hc. apply fine_lock; [|done..]. intros s b s' Hm. case_bool_decide; by simplify_eq. Qed.
Lemma fine_with_table {A} (c : Fallible A) s0 P :
  stable P → (∀ s, grows s0 s → fine c s P) → fine (with_table c) s0 P.
Proof. intros HP Hc. apply fine_lock; [|done..]. intros s b s' Hm. case_match; by simplify_eq. Qed.
Lemma fine_assert_running s0 : fine assert_running s0 whatever.
Proof. apply goes_observe; [apply _|]. intros s _ _. by destruct (sv_stop s). Qed.
Lemma fine_assert_valid p s0 : fine (assert_valid p) s0 whatever.
Proof.
  eapply fine_then; [apply _|by apply (fine_tell _ _ whatever)|]. intros s b _ _.
  by apply fine_require.
Qed.
Lemma fine_assert_both_or e v p s0 : e ≠ Panic → fine (assert_both_or e v p) s0 whatever.
Proof.
  intros He. eapply fine_then; [apply _|by apply (fine_tell _ _ whatever)|]. intros s b _ _.
  eapply fine_then; [apply _|by apply fine_require with (P := whatever)|]. intros s' _ _ _.
  eapply fine_then; [apply _|by apply (fine_tell _ _ whatever)|]. intros s'' b' _ _. by apply fine_require.
Qed.
Lemma fine_assert_both v p s0 : fine (assert_both v p) s0 whatever.
Proof. by apply fine_assert_both_or. Qed.
Lemma goes_prepared_fetch p (headers : H) s0 :
  goes (prepared_fetch p headers) s0 (λ _ a, ∀ r, a = Ok r → genuine r).
Proof.
  assert (∀ X (q : Question X) B (k : X → Code B) s0 P,
    (∀ s x, honest _ q x → goes (k x) s P) → goes (x ← ask q ; k x) s0 P) as Hask.
  { intros X q B k s P Hk. split; [apply destroys_id; apply _|]. cbn. auto. }
  apply Hask. intros s1 valid _. destruct valid; [|by intros r]. cbn [negb].
  apply Hask. intros s2 client _. destruct client as [u|e]; [|by intros r].
  apply Hask. intros s3 a _. destruct a as [r|e]; [|by intros r'].
  apply Hask. intros s4 valid _. destruct valid; [|by intros r']. cbn [negb].
  apply Hask. intros s5 a Ha. destruct a as [r'|e]; [|by intros r''].
  apply Hask. intros s6 valid _. cbn. destruct valid; [|by intros r'']. intros r'' [= <-]. by apply Ha.
Qed.
Lemma fine_unless_stopped {A} (c : Fallible A) s0 P :
  stable P → fine c s0 P → fine (unless_stopped c) s0 P.
Proof.
  intros HP Hc. eapply goes_bind; [apply _|apply fine_calmly; [apply _|exact Hc]|].
  intros s [r|e] HG Hr; [|done]. cbn beta iota.
  eapply fine_then; [apply _|apply (fine_tell Race s (λ s' _, s' = s)); done|].
  intros s' arm _ ->. by destruct arm.
Qed.
Lemma fine_execute p (headers : H) s0 : fine (execute p headers) s0 (λ _, genuine).
Proof.
  unfold execute. generalize 1%nat as n. intros n. revert s0. induction n as [|n IH]; intros s0.
  all: cbn [attempts]; eapply fine_then; [apply _| |].
  1, 3: apply (fine_unless_stopped _ _ (λ _ a, ∀ r, a = Ok r → genuine r)); [apply stable_pure|];
    apply fine_calmly; [apply _|apply goes_prepared_fetch].
  all: cbn beta; intros s [r|[|[] m|m]] _ Hr; try by apply fine_throw.
  all: try by apply fine_ret, Hr.
  eapply fine_then; [apply _|apply (fine_unless_stopped _ _ whatever); [done|by apply fine_ret]|].
  intros s' _ _ _. apply IH.
Qed.
Lemma fine_fetch p (headers : H) s0 : fine (fetch p headers) s0 (λ _, genuine).
Proof.
  apply fine_permitted; [apply calm_requests|apply stable_pure|]. intros s _. apply fine_execute.
Qed.

(** ** The storage and the downloads *)

Definition held s v (d : option nat) : Prop := ∀ i, d = Some i → holds s v i.
Lemma held_later s s' v d : grows s s' → held s v d → held s' v d.
Proof. intros HG Hd i Hi. eapply holds_later; [exact HG|by apply Hd]. Qed.
Lemma stable_holds v : stable (λ s d, holds s v d).
Proof. intros s s' d HG. by apply holds_later. Qed.
Lemma fine_read_block v index s0 :
  fine (read_block v index) s0 (λ s b, ∀ bytes, b = Some bytes → good_block s (ver_id v) index bytes).
Proof.
  eapply fine_then; [apply _|by apply (fine_call _ _ whatever)|]. intros s present _ _.
  destruct present; [|by apply fine_ret]. eapply goes_observe; [apply _|].
  intros s' _ HI bytes Hb. by eapply in_stored.
Qed.
Lemma fine_write_blocks v blocks s0 :
  Forall (λ ib, good_block s0 (ver_id v) ib.1 ib.2) blocks → fine (write_blocks v blocks) s0 whatever.
Proof.
  intros Hb. eapply fine_then; [apply _|by apply (fine_tell _ _ whatever)|]. intros s w HG _. cbn zeta.
  eapply fine_then; [apply _|eapply fine_calmly with (P := whatever); [apply _|]|].
  - eapply goes_update; [apply _|]. intros s1 HG1 HI.
    assert (Forall (λ ib, good_block s1 (ver_id v) ib.1 ib.2) blocks) as Hb1.
    { eapply Forall_impl; [exact Hb|]. intros ib. apply good_block_later. by etrans. }
    destruct (inv_store s1 (ver_id v) (match w.2 with None => blocks | Some _ => take w.1 blocks end) HI); [|done].
    destruct w.2; [by apply Forall_take|done].
  - intros s1 _ _ _. destruct w.2; [by apply fine_throw|by apply fine_ret].
Qed.
Lemma fine_find_download v position s0 : fine (find_download v position) s0 (λ s d, held s v d).
Proof.
  eapply fine_then; [apply _|by apply (fine_tell _ _ whatever)|]. intros s d _ _.
  destruct d as [d|]; [|by apply fine_ret]. eapply goes_when; [apply _|]. intros s1 b s' HG HI Hm.
  destruct (serves s1 v position d) eqn:Hs; [|done]. injection Hm as <- <-. split_and!; [done..|].
  intros i [= <-]. unfold serves in Hs. apply andb_true_iff in Hs as [_ Hs].
  destruct (sv_heap s1 !! d) as [x|] eqn:Hx; [|done]. cbn in Hs. apply andb_true_iff in Hs as [Hs _].
  exists x. split; [done|]. by apply Z.eqb_eq.
Qed.
Lemma fine_trim_end v range s0 : fine (trim_end v range) s0 whatever.
Proof.
  eapply fine_then; [apply _|by apply (fine_tell _ _ whatever)|]. intros s d _ _.
  destruct d as [d|]; [|by apply fine_ret]. by eapply goes_observe; [apply _|].
Qed.
Lemma good_response_range s v range range' : good_response s v range None → good_response s v range' None.
Proof. done. Qed.
Lemma inv_new_download s v range :
  Inv s → let s' := (new_download v range s).2 in
  grows s s' ∧ Inv s' ∧ holds s' v (new_download v range s).1.
Proof.
  intros HI s'. assert (grows s s') as HG.
  { apply grows_heap. intros d x Hx. exists x. by rewrite (lookup_app_l_Some _ _ _ _ Hx). }
  split; [done|]. split.
  - apply (inv_step s s' HI HG); cbn; auto. intros d x [Hx|[_ Hx]]%lookup_app_Some; [by left|right].
    apply list_lookup_singleton_Some in Hx as [_ <-]. cbn. split; [|done]. intros i b Hb. by rewrite lookup_empty in Hb.
  - eexists. cbn. split; [by apply list_lookup_middle|done].
Qed.
Lemma fine_download v rq (base : H) range (response : option Upstream) position s0 :
  known s0 v → good_response s0 v range response →
  fine (download v rq base range response position) s0 (λ s d, holds s v d).
Proof.
  intros Hk Hr. eapply fine_then; [apply _|apply fine_with_table with (P := λ s a,
    match a with inl d => holds s v d | inr (d, range) => holds s v d ∧ good_response s v range response end)|].
  - intros s s' [d|[d range']] HG; [by apply holds_later|]. intros [? ?].
    split; [by eapply holds_later|by eapply good_response_later].
  - intros s HG. eapply fine_then; [apply _|apply fine_find_download|]. intros s1 [d|] HG1 Hd.
    { apply fine_ret. by apply Hd. }
    eapply fine_then with (P := λ s range, good_response s v range response); [apply _| |].
    { case_bool_decide as Hnone; cbn [andb]; [|by apply fine_ret; eapply good_response_later; [|exact Hr]; etrans].
      subst. destruct (resumable v); [|by apply fine_ret].
      eapply fine_then; [apply _|by apply (fine_call _ _ whatever)|]. intros s2 range' _ _.
      eapply fine_pure; [apply fine_trim_end|]. intros s3 a _. exact Hr. }
    intros s2 range' HG2 Hr'. eapply fine_then with (P := λ s d, holds s v d); [apply _| |].
    { eapply fine_calmly; [apply _|]. eapply goes_atomically; [apply _|]. intros s3 HG3 HI.
      by apply inv_new_download. }
    intros s3 d HG3 Hnew. apply fine_ret. split; [done|]. by eapply good_response_later.
  - intros s [d|[d range']] HG Hd; [by apply fine_ret|]. destruct Hd as [Hd Hr'].
    eapply fine_then with (P := λ s _, holds s v d); [apply _| |intros s1 _ _ ?; by apply fine_ret].
    eapply goes_atomically; [apply _|]. intros s1 HG1 HI.
    assert (holds s1 v d) as Hd1 by by eapply holds_later. destruct (sv_stop s1); cbn [fst snd].
    { destruct (inv_progress s1 d (Failed (Other "resource service stopped")) HI); done. }
    set (s2 := with_tasks _ s1). assert (grows s1 s2) as HG2 by (split; [auto|eauto]).
    split; [done|]. split; [|by eapply holds_later].
    apply (inv_step s1 s2 HI HG2); cbn; auto.
    intros tr [Htr| ->%list_elem_of_singleton]%elem_of_app; [by left|right]. eapply good_transfer_later; [exact HG2|].
    split_and!; cbn; [|done|]; [eapply known_later; [|exact Hk]; by etrans|].
    eapply good_response_later; [|exact Hr']. done.
Qed.
Lemma fine_wait_block n v index d : ∀ s0,
  holds s0 v d → fine (wait_block n v index d) s0 (λ s a, good_block s (ver_id v) index a.1 ∧ held s v a.2).
Proof.
  induction n as [|n IH]; intros s0 Hd; cbn [wait_block].
  all: eapply fine_then; [apply _|apply fine_assert_running|intros s1 _ HG1 _].
  all: eapply fine_then with (P := λ s a, ∃ p, a = Some p ∧ p ≠ Failed Panic); [apply _| |intros s2 ? HG2 (p & -> & Hp)].
  1, 3: eapply goes_observe; [apply _|]; intros s HG HI; destruct (holds_later s0 s v d) as (x & Hx & _);
    [by etrans|done|]; unfold progress_of; rewrite Hx; cbn; eexists; split; [done|by eapply in_progress].
  all: eapply fine_then with (P := λ s a, ∀ b, a = Some b → good_block s (ver_id v) index b);
    [apply _| |intros s3 found HG3 Hf].
  1, 3: eapply goes_observe; [apply _|]; intros s HG HI b Hb; unfold buffered_block in Hb;
    apply bind_Some in Hb as (x & Hx & Hb); destruct (holds_later s0 s v d) as (y & Hy & <-);
    [do 2 (etrans; [eassumption|]); by etrans|done|]; simplify_eq; by eapply in_buffered.
  all: assert (∀ s, grows s3 s → holds s v d) as Hd' by
    (intros s HG; eapply holds_later; [|exact Hd]; do 3 (etrans; [eassumption|]); done).
  all: destruct found as [b|]; [apply fine_ret; split; [by apply Hf|intros i [= <-]; by apply Hd']|].
  all: eapply fine_then; [apply _|apply fine_read_block|intros s4 bytes HG4 Hb].
  all: destruct bytes as [b|]; [apply fine_ret; split; [by apply Hb|intros i [= <-]; by apply Hd']|].
  all: destruct p as [| |e]; try (by apply fine_throw); try (apply fine_throw; congruence).
  - by eapply goes_when; [apply _|].
  - eapply fine_then; [apply _|apply (fine_unless_stopped _ _ whatever); [done|by apply fine_ret]|].
    intros s5 _ HG5 _. apply IH, Hd'. by etrans.
Qed.
Lemma fine_block v rq (base : H) index (initial : option nat) position window s0 :
  known s0 v → held s0 v initial →
  fine (block v rq base index initial position window) s0 (λ s a, good_block s (ver_id v) index a.1 ∧ held s v a.2).
Proof.
  intros Hk Hi. eapply fine_then; [apply _|apply fine_read_block|]. intros s1 bytes HG1 Hb.
  destruct bytes as [b|]; [apply fine_ret; split; [by apply Hb|by eapply held_later]|].
  eapply fine_then with (P := λ s d, holds s v d); [apply _| |].
  - destruct initial as [d|]; [apply fine_ret; eapply holds_later; [|by apply Hi]; done|].
    case_bool_decide as Hv.
    { eapply fine_then; [apply _|by apply (fine_call _ _ whatever)|]. intros s2 _ _ _. by apply fine_throw. }
    apply fine_download; [by eapply known_later|]. by apply not_eq_None_Some.
  - intros s2 d HG2 Hd. eapply fine_then; [apply _|by apply (fine_tell _ _ whatever)|]. intros s3 n HG3 _.
    apply fine_wait_block. by eapply holds_later.
Qed.

(** ** Transfers *)

(** Bytes of the representation, from a position on. *)
Definition bytes_at (full : list Z) (pos : Z) (l : list Z) : Prop := l `prefix_of` drop (Z.to_nat pos) full.
Lemma bytes_nil full pos : bytes_at full pos [].
Proof. apply prefix_nil. Qed.
Lemma bytes_app full pos l k :
  0 ≤ pos → bytes_at full pos l → bytes_at full (pos + zlen l) k → bytes_at full pos (l ++ k).
Proof.
  unfold bytes_at, zlen. intros Hp [x Hx] Hk. rewrite Z2Nat.inj_add, Nat2Z.id, <-drop_drop, Hx in Hk by lia.
  rewrite drop_app_length in Hk. destruct Hk as [y ->]. rewrite Hx. exists y. by rewrite <-(assoc_L (++)).
Qed.
Lemma bytes_drop full pos l n :
  0 ≤ pos → (n ≤ length l)%nat → bytes_at full pos l → bytes_at full (pos + Z.of_nat n) (drop n l).
Proof.
  unfold bytes_at. intros Hp Hn [x Hx]. rewrite Z2Nat.inj_add, Nat2Z.id, <-drop_drop, Hx by lia.
  rewrite drop_app_le by done. by eexists.
Qed.
Lemma bytes_prefix full pos l k : l `prefix_of` k → bytes_at full pos k → bytes_at full pos l.
Proof. unfold bytes_at. intros. by etrans. Qed.
Lemma bytes_take full pos l n : bytes_at full pos l → bytes_at full pos (take n l).
Proof. unfold bytes_at. intros Hl. etrans; [|exact Hl]. exists (drop n l). by rewrite take_drop. Qed.
Lemma bytes_slice full pos l :
  0 ≤ pos → bytes_at full pos l → l ≠ [] ∨ pos ≤ zlen full → slice full pos (pos + zlen l) = Some l.
Proof.
  intros Hp [x Hx] Hne. assert (Hl : length (drop (Z.to_nat pos) full) = (length l + length x)%nat)
    by by rewrite Hx, length_app.
  rewrite length_drop in Hl. unfold zlen in *. rewrite slice_is_Some.
  - rewrite Hx. f_equal. replace (Z.to_nat (pos + Z.of_nat (length l) - pos)) with (length l) by lia.
    by rewrite take_app_length.
  - lia.
  - destruct Hne as [Hne|]; [|unfold zlen; lia]. destruct l; [done|]. cbn in Hl |- *. unfold zlen. lia.
Qed.

Section flow.
Context (v : Version) (o : Upstream) (g : Geometry) (Hm : sound_meta o (ver_meta v)).
Context (Hg : m_geometry (ver_meta v) = g).
Notation full := (up_full o).
Lemma flow_geometry : wf_geometry g ∧ g_length g = zlen full.
Proof.
  destruct Hm as [_ Hnew Hlen]. rewrite Hg in Hnew. pose proof (geometry_new_spec (zlen full) Hlen) as Hs.
  rewrite Hnew in Hs. tauto.
Qed.
Record flow_ok (t : Flow) : Prop := {
  fo_cursor : 0 ≤ fl_cursor t;
  fo_bytes : bytes_at full (fl_cursor t) (fl_buffered t);
  fo_part : fl_buffered t ≠ [] → ∃ e, Geometry_range g (fl_cursor t / g_block g) = Ok (fl_cursor t, e) ∧
    zlen (fl_buffered t) < e - fl_cursor t;
}.
Definition reached (t : Flow) : Z := fl_cursor t + zlen (fl_buffered t).
Definition batch_ok s (t : Flow) : Prop := Forall (λ ib, good_block s (ver_id v) ib.1 ib.2) (fl_batch t).
Lemma batch_later s s' t : grows s s' → batch_ok s t → batch_ok s' t.
Proof. intros HG Hb. eapply Forall_impl; [exact Hb|]. intros ib. by apply good_block_later. Qed.
(** How a part of the loop may end. *)
Definition course (c : Code (Flow * Course (H := H))) s0 (P : State → Flow → Prop) : Prop :=
  goes c s0 (λ s a, batch_ok s a.1 ∧
    match a.2 with Goes => P s a.1 | Over => True | Fails e => e ≠ Panic end).
Lemma course_stops t e s0 P : e ≠ Panic → batch_ok s0 t → course (stops t e) s0 P.
Proof. done. Qed.
Lemma course_check {X} t (c : Fallible X) (k : X → Code (Flow * Course)) s0 R P :
  fine c s0 R → batch_ok s0 t → (∀ s x, grows s0 s → batch_ok s t → R s x → course (k x) s P) →
  course (check t c k) s0 P.
Proof.
  intros Hc Hb Hk. eapply goes_bind; [apply _|exact Hc|]. intros s [x|e] HG Hx.
  - apply Hk; [done|by eapply batch_later|done].
  - apply course_stops; [done|by eapply batch_later].
Qed.
Lemma course_flows c k s0 R P :
  course c s0 R → (∀ s t, grows s0 s → batch_ok s t → R s t → course (k t) s P) → course (flows c k) s0 P.
Proof.
  intros Hc Hk. eapply goes_bind; [apply _|exact Hc|]. intros s [t [| |e]] HG [Hb HR]; cbn in *; [by apply Hk|done..].
Qed.
Lemma course_code {X} (c : Code X) (k : X → Code (Flow * Course)) s0 R P :
  goes c s0 R → (∀ s x, grows s0 s → R s x → course (k x) s P) → course (x ← c ; k x) s0 P.
Proof. intros Hc Hk. eapply goes_bind; [apply _|exact Hc|exact Hk]. Qed.

Lemma goes_flush d t s0 :
  holds s0 v d → batch_ok s0 t →
  goes (flush_batch d v t) s0 (λ s t', fl_batch t' = [] ∧ fl_cursor t' = fl_cursor t ∧ fl_buffered t' = fl_buffered t).
Proof.
  intros Hd Hb. eapply goes_bind; [apply _|apply fine_write_blocks; exact Hb|]. intros s [u|e] HG _; [|done].
  eapply goes_bind; [apply _|apply (goes_update _ _ _ _ _ whatever)|by intros].
  intros s1 HG1 HI. match goal with |- grows _ (on_download _ ?f _) ∧ _ => destruct (inv_on_download s1 d f HI) end; try done.
  intros x i b Hx Hi. left. cbn in Hi. revert Hi.
  generalize (dl_blocks x) as k. induction ((fl_batch t).*1) as [|j l IH]; intros k Hi; [done|].
  cbn in Hi. apply lookup_delete_Some in Hi as [_ Hi]. by apply IH.
Qed.
Lemma fine_make_room n d size : ∀ s0, holds s0 v d → fine (make_room n d v size) s0 whatever.
Proof.
  induction n as [|n IH]; intros s0 Hd; cbn [make_room].
  all: eapply fine_then; [apply _|by apply (fine_tell _ _ whatever)|intros s1 slowest HG1 _].
  all: destruct slowest as [slowest|]; [|by apply fine_ret].
  all: eapply fine_then with (P := whatever); [apply _| |intros s2 fits HG2 _].
  1, 3: eapply goes_atomically; [apply _|]; intros s HG HI; destruct (holds_later s0 s v d) as (x & Hx & _);
    [by etrans|done|]; rewrite Hx; cbn [fst snd];
    match goal with |- grows _ (on_download _ ?f _) ∧ _ => destruct (inv_on_download s d f HI) end; try done;
    intros y i b Hy Hi; simplify_eq; left; cbn in Hi; unfold still_wanted in Hi;
    by apply map_lookup_filter_Some in Hi as [? _].
  all: destruct fits; [by apply fine_ret|].
  - by eapply goes_when; [apply _|].
  - eapply fine_then; [apply _|by apply (fine_tell _ _ whatever)|]. intros s3 arm HG3 _.
    assert (holds s3 v d) by (eapply holds_later; [|exact Hd]; do 2 (etrans; [eassumption|]); done).
    destruct arm; try (by apply fine_throw); by apply IH.
Qed.
Lemma block_complete index range b :
  0 ≤ index → Geometry_range g index = Ok range → bytes_at full range.1 b → zlen b = range.2 - range.1 →
  block_of o index b.
Proof.
  destruct flow_geometry as [Hwf Hlen]. intros Hi Hr Hb Hz. pose proof (Geometry_range_inv _ _ _ Hr) as Hlt.
  rewrite Geometry_range_eq in Hr by done. injection Hr as <-. cbn [fst snd] in *.
  pose proof (block_bounds g index Hwf ltac:(lia)) as (? & ? & _).
  exists g. split; [rewrite <-Hg; apply Hm|]. replace (Z.min _ _) with (index * g_block g + zlen b) by lia.
  apply bytes_slice; [done|done|]. right. lia.
Qed.

(** The bytes a round of the loop takes are in the right place. *)
Lemma take_part t chunk e :
  flow_ok t → bytes_at full (reached t) chunk → chunk ≠ [] → fl_cursor t < e →
  Geometry_range g (fl_cursor t / g_block g) = Ok (fl_cursor t, e) →
  let n := Z.to_nat (Z.min (e - fl_cursor t - zlen (fl_buffered t)) (zlen chunk)) in
  let b := fl_buffered t ++ take n chunk in
  (0 < n ≤ length chunk)%nat ∧ bytes_at full (fl_cursor t) b ∧ zlen b = zlen (fl_buffered t) + Z.of_nat n ∧
  zlen b ≤ e - fl_cursor t ∧ bytes_at full (fl_cursor t + zlen b) (drop n chunk).
Proof.
  intros [Hc Hb Hp] Hch Hne Hlt Hr. cbn zeta. unfold reached in Hch.
  assert (zlen (fl_buffered t) < e - fl_cursor t) as Hsz.
  { destruct (decide (fl_buffered t = [])) as [->|Hn]; [unfold zlen; cbn; lia|].
    destruct (Hp Hn) as (e' & He' & ?). congruence. }
  assert (0 < length chunk)%nat by (destruct chunk; [done|cbn; lia]).
  set (n := Z.to_nat _). assert (0 < n ≤ length chunk)%nat by (unfold n, zlen in *; lia).
  assert (zlen (fl_buffered t ++ take n chunk) = zlen (fl_buffered t) + Z.of_nat n) as Hz.
  { rewrite zlen_app. unfold zlen at 2. rewrite length_take. lia. }
  split; [done|]. split_and!; [|done|unfold n, zlen in *; lia|].
  - apply bytes_app; [done|done|by apply bytes_take].
  - rewrite Hz, Z.add_assoc. apply bytes_drop; [unfold zlen; lia|lia|done].
Qed.
Lemma flow_start cursor batch bytes persist window :
  0 ≤ cursor → flow_ok (mk_Flow [] cursor batch bytes persist window).
Proof. intros Hc. split; [done|apply bytes_nil|done]. Qed.
Lemma course_take d stop fuel : ∀ s0 t chunk,
  origin s0 (ver_id v) o → holds s0 v d → (length chunk ≤ fuel)%nat →
  flow_ok t → batch_ok s0 t → bytes_at full (reached t) chunk →
  course (take_chunk fuel d v stop t chunk) s0 (λ _ t', flow_ok t' ∧ reached t' = reached t + zlen chunk).
Proof.
  destruct flow_geometry as [Hwf Hlen].
  induction fuel as [|fuel IH]; intros s0 t chunk Ho Hd Hf Ht Hb Hch.
  all: destruct chunk as [|c chunk0]; [split; [done|]; split; [done|]; unfold zlen; cbn; lia|].
  { cbn in Hf. lia. }
  cbn [take_chunk]. set (chunk := c :: chunk0) in *. assert (chunk ≠ []) as Hne by done. clearbody chunk.
  rewrite Hg. cbv zeta. set (window := if fl_window t <=? fl_cursor t then Z.min _ _ else _).
  set (index := fl_cursor t / g_block g).
  eapply course_check with (R := whatever); [|done|].
  { destruct (_ <=? _); [by apply (fine_call _ _ whatever)|by apply fine_ret]. }
  intros s1 _ HG1 Hb1 _. eapply course_check; [apply (fine_text _ _ (λ _ range, Geometry_range g index = Ok range)); auto|done|].
  intros s2 [start e] HG2 Hb2 Hr. cbn [fst snd]. destruct (Z.eqb_spec (fl_cursor t) start) as [<-|_];
    [|by apply course_stops]. cbn [negb].
  assert (0 ≤ fl_cursor t) as Hc0 by apply Ht.
  assert (0 ≤ index) as Hi by (apply Z.div_pos; [done|pose proof (wf_geometry_bounds g Hwf); lia]).
  pose proof (Geometry_range_inv _ _ _ Hr) as Hlt.
  pose proof (block_bounds g index Hwf ltac:(lia)) as (_ & Hbb & _).
  pose proof Hr as Hr'. rewrite Geometry_range_eq in Hr' by done. injection Hr' as Hcur He.
  destruct (take_part t chunk e Ht Hch Hne ltac:(lia) Hr) as (Hn & Hbytes & Hz & Hle & Hrest).
  set (n := Z.to_nat _) in *. set (b := fl_buffered t ++ take n chunk) in *.
  assert (length (drop n chunk) ≤ fuel)%nat as Hfuel by (rewrite length_drop; lia).
  assert (zlen (drop n chunk) = zlen chunk - Z.of_nat n) as Hzd by (unfold zlen; rewrite length_drop; lia).
  assert (∀ s, grows s2 s → grows s0 s) as HG by (intros s ?; etrans; [exact HG1|]; by etrans).
  destruct (Z.eqb_spec (zlen b) (e - fl_cursor t)) as [Hfull|Hpart]; cbn [negb].
  - eapply course_check with (R := whatever); [|done|].
    { destruct (fl_persist t); [by apply fine_ret|].
      eapply fine_then; [apply _|by apply (fine_tell _ _ whatever)|]. intros s3 k HG3 _.
      apply fine_make_room. eapply holds_later; [by apply HG|done]. }
    intros s3 room HG3 Hb3 _. destruct room; [|by split]. cbn [negb].
    assert (block_of o index b) as Hblock by by eapply block_complete.
    assert (∀ s, grows s2 s → good_block s (ver_id v) index b) as Hgood.
    { intros s Hs. exists o. split; [|done]. by eapply gr_origin; [apply HG|]. }
    eapply course_code with (R := whatever).
    { eapply goes_update; [apply _|]. intros s HG4 HI.
      destruct (holds_later s0 s v d) as (x & Hx & Hv); [apply HG; by etrans|done|].
      match goal with |- grows _ (on_download _ ?f _) ∧ _ => destruct (inv_on_download s d f HI) end; try done.
      intros y i b' Hy Hi'. simplify_eq. cbn in Hi'.
      apply lookup_insert_Some in Hi' as [[<- <-]|[_ Hi']]; [right|by left]. rewrite Hv. apply Hgood. by etrans. }
    intros s4 _ HG4 _. set (bytes := if fl_persist t then _ else fl_bytes t).
    set (batch := if fl_persist t then _ else fl_batch t). set (t1 := mk_Flow [] e batch bytes (fl_persist t) window).
    assert (∀ s, grows s4 s → grows s2 s) as HG' by (intros s ?; etrans; [exact HG3|]; by etrans).
    assert (batch_ok s4 t1) as Hb4.
    { unfold batch_ok, t1, batch. cbn. assert (batch_ok s4 t) by (eapply batch_later; [|exact Hb3]; done).
      destruct (fl_persist t); [|done]. apply Forall_app. split; [done|]. repeat constructor. cbn. apply Hgood. by apply HG'. }
    eapply course_code with (R := λ s t', batch_ok s t' ∧ fl_cursor t' = e ∧ fl_buffered t' = []).
    { destruct (_ && _); [|done]. eapply goes_mono; [apply _|apply goes_flush; [|exact Hb4]|].
      - eapply holds_later; [by apply HG, HG'|done].
      - cbn. intros s t' _ (Hn' & Hc' & Hbuf'). split; [|done]. unfold batch_ok. rewrite Hn'. constructor. }
    intros s5 t' HG5 (Hb5 & Hc5 & Hbuf5).
    assert (flow_ok t') as Ht'.
    { split; [rewrite Hc5; lia|rewrite Hbuf5; apply bytes_nil|by rewrite Hbuf5]. }
    assert (reached t' = e) as Hreach by (unfold reached; rewrite Hc5, Hbuf5; unfold zlen; cbn; lia).
    eapply goes_mono; [apply _|apply (IH s5 t' (drop n chunk)); try done|].
    + eapply gr_origin; [|done]. by apply HG, HG'.
    + eapply holds_later; [by apply HG, HG'|done].
    + rewrite Hreach. by replace e with (fl_cursor t + zlen b) by lia.
    + intros s a _ [? Ha]. split; [done|]. destruct a as [t2 [| |?]]; cbn in *; try done.
      destruct Ha as [? ->]. split; [done|]. rewrite Hreach. unfold reached. lia.
  - set (t1 := mk_Flow b _ _ _ _ _).
    assert (flow_ok t1) as Ht1.
    { split; [apply Ht|done|]. intros _. exists e. split; [done|]. cbn. lia. }
    eapply goes_mono; [apply _|apply (IH s2 t1 (drop n chunk)); try done|].
    + eapply gr_origin; [|done]. by apply HG.
    + eapply holds_later; [by apply HG|done].
    + intros s a _ [? Ha]. split; [done|]. destruct a as [t2 [| |?]]; cbn in *; try done.
      destruct Ha as [? ->]. split; [done|]. unfold reached. cbn. lia.
Qed.
Lemma course_look d p t s0 : batch_ok s0 t → course (look_around d v p t) s0 (λ _ t', t' = t).
Proof.
  intros Hb. eapply course_check; [apply fine_assert_both|done|]. intros s1 _ _ Hb1 _.
  eapply course_check; [by apply (fine_tell _ _ whatever)|done|]. intros s2 gone _ Hb2 _. by destruct gone.
Qed.
Definition same_place (t t' : Flow) : Prop := fl_cursor t' = fl_cursor t ∧ fl_buffered t' = fl_buffered t.
Lemma course_await l d p : ∀ s0 t,
  holds s0 v d → batch_ok s0 t → course (await_chunk l d v p t) s0 (λ _, same_place t).
Proof.
  induction l as [|tick l IH]; intros s0 t Hd Hb; cbn [await_chunk].
  all: eapply course_flows; [by apply course_look|]; intros s1 ? HG1 Hb1 ->.
  - eapply course_check; [by apply (fine_tell _ _ whatever)|done|]. intros s2 arm _ Hb2 _. by destruct arm.
  - eapply course_code with (R := λ s t', batch_ok s t' ∧ same_place t t').
    { destruct (_ && _); [|done]. eapply goes_mono; [apply _|apply goes_flush; [by eapply holds_later|done]|].
      intros s t' _ (Hn & ? & ?). split; [unfold batch_ok; rewrite Hn; constructor|done]. }
    intros s2 t' HG2 (Hb2 & Hc & Hbuf).
    eapply goes_mono; [apply _|apply (IH s2 t'); [eapply holds_later; [|exact Hd]; by etrans|done]|].
    intros s a _ [? Ha]. split; [done|]. destruct a as [t2 [| |?]]; try done.
    destruct Ha as [Hc2 Hbuf2]. split; cbn in *; congruence.
Qed.
Lemma flow_same t t' : same_place t t' → flow_ok t → flow_ok t' ∧ reached t' = reached t.
Proof. unfold reached. intros [Hc Hb] []. rewrite Hb, Hc. split; [by split; rewrite ?Hc, ?Hb|done]. Qed.
Lemma course_transfer chunks failure d p stop : ∀ s0 t,
  origin s0 (ver_id v) o → holds s0 v d → flow_ok t → batch_ok s0 t →
  bytes_at full (reached t) (take (Z.to_nat (stop - reached t)) (concat chunks)) →
  course (transfer chunks failure d v p stop t) s0 whatever.
Proof.
  induction chunks as [|chunk chunks IH]; intros s0 t Ho Hd Ht Hb Hch; cbn [transfer].
  all: eapply course_code with (R := λ s _, s = s0); [by eapply goes_ask; [apply _|]|]; intros ? l _ ->.
  all: eapply course_flows; [by apply course_await|]; intros s1 t1 HG1 Hb1 Hs.
  all: destruct (flow_same t t1 Hs Ht) as [Ht1 Hr1].
  - destruct failure; [by apply course_stops|]. by destruct (_ && _).
  - destruct (Z.ltb_spec stop (fl_cursor t1 + zlen (fl_buffered t1) + zlen chunk)) as [|Hle]; [by apply course_stops|].
    fold (reached t1) in Hle. rewrite <-Hr1 in Hch. cbn [concat] in Hch. rewrite take_app_ge in Hch by (unfold zlen in Hle; lia).
    assert (bytes_at full (reached t1) chunk) as Hc1 by (eapply bytes_prefix; [|exact Hch]; by eexists).
    assert (origin s1 (ver_id v) o) by by eapply gr_origin. assert (holds s1 v d) by by eapply holds_later.
    eapply course_flows; [by apply course_take|].
    intros s2 t2 HG2 Hb2 [Ht2 Hr2]. apply IH; [by eapply gr_origin|by eapply holds_later|done..|].
    rewrite Hr2. apply bytes_drop with (n := length chunk) in Hch; [|unfold reached, zlen; destruct Ht1; lia|rewrite length_app; lia].
    rewrite drop_app_length in Hch. unfold zlen. eapply eq_ind; [exact Hch|]. do 2 f_equal. unfold zlen in Hle. lia.
Qed.
End flow.
(** ** A download, from the request to the provider to its last block *)

Lemma geometry_start (r : Upstream) n a b : response_geometry r = Ok (Some (n, (a, b))) → 0 ≤ a.
Proof.
  unfold response_geometry. destruct (up_status r =? PARTIAL_CONTENT).
  - destruct (value (up_headers r) "content-range" ≫= parse_content_range) as [cr|] eqn:Hcr; cbn; [|done].
    unfold ensure. repeat case_match; try done. intros [= <- <- <-]. apply bind_Some in Hcr as (t & _ & Hcr). unfold parse_content_range in Hcr.
    repeat case_match; simplify_eq. cbn.
    match goal with Hx : parse_u64 _ = Some ?x |- 0 ≤ ?x => apply parse_u64_range in Hx; unfold is_u64 in Hx; lia end.
  - destruct (up_length r); cbn; [|done]. by intros [= <- <- <-].
Qed.
(** The part of the representation that an answer says it is. *)
Definition part_of (full : list Z) (range : Z * Z) (r : Upstream) : Prop :=
  0 ≤ range.1 ∧ bytes_at full range.1 (take (Z.to_nat (range.2 - range.1)) (concat (up_body r))).
Lemma genuine_part r n range : genuine r → response_geometry r = Ok (Some (n, range)) → part_of (up_full r) range r.
Proof.
  intros Hr Hgeo. destruct range as [a b]. split; cbn; [by eapply geometry_start|]. by eapply ge_body.
Qed.
Lemma fine_retire_and {A} v e s0 (P : State → A → Prop) : e ≠ Panic → fine (retire_and v e) s0 P.
Proof.
  intros He. eapply fine_then; [apply _|by apply (fine_call _ _ whatever)|]. intros s _ _ _. by apply fine_throw.
Qed.
(** The answer to a resumed download is of the same representation. *)
Lemma fine_same `{!OneRepresentation} v p range o r s0 :
  genuine r → sound_meta o (ver_meta v) → is_Some (range_value (m_policy (ver_meta v))) →
  fine (same_representation v p range r) s0 (λ _ _, part_of (up_full o) range r).
Proof.
  intros Hr Hm Hsome. pose proof (sm_genuine _ _ Hm) as Hge.
  assert (∃ rv, response_validator (up_headers o) = Some rv ∧ range_validator (m_policy (ver_meta v)) = Some rv)
    as (rv & Hrv & Hpv).
  { destruct (range_validator (m_policy (ver_meta v))) as [rv|] eqn:Hpv.
    - exists rv. split; [by rewrite <-(sm_validator _ _ Hm)|done].
    - unfold range_value in Hsome. rewrite Hpv in Hsome. destruct Hsome as [t Ht].
      apply bind_Some in Ht as (e & He & Ht). by rewrite (sm_etag _ _ Hm Hpv e He) in Ht. }
  eapply fine_then; [apply _|apply (fine_text _ _ (λ _ x, response_geometry r = Ok x)); done|]. intros s5 geo _ Hgeo.
  eapply fine_then; [apply _|apply (fine_text _ _ (λ _ x, geo = Some x)); by destruct geo; intros ? [= ->]|]. intros s6 [n b] _ ->.
  eapply fine_then; [apply _|apply (fine_text _ _ (λ _ x, target_of p (up_url r) = Ok x)); done|]. intros s7 target _ Htarget.
  eapply fine_then with (P := λ _ _, n = g_length (m_geometry (ver_meta v)) ∧ target = m_target (ver_meta v)); [apply _| |].
  { cbn [fst]. destruct (Z.eqb_spec n (g_length (m_geometry (ver_meta v)))); [|by apply fine_retire_and].
    destruct (str_eqb target _) eqn:Ht; [|by apply fine_retire_and]. apply fine_ret. split; [done|by apply str_eqb_eq]. }
  intros s8 _ _ [Hn ->]. eapply fine_then with (P := whatever); [apply _| |].
  { destruct (negb _); [by apply fine_retire_and|by apply fine_ret]. }
  intros s9 _ _ _. rewrite (bool_decide_true (is_Some (range_value _)) Hsome).
  eapply fine_then with (P := λ _ _, RangeValidator_matches rv (up_headers r) = true); [apply _| |].
  { unfold matches_range. rewrite Hpv. destruct (RangeValidator_matches _ _); [by apply fine_ret|by apply fine_retire_and]. }
  intros s10 _ _ Hmatch. cbn [snd].
  assert (range = b → part_of (up_full o) range r) as Hpart.
  { intros ->. destruct (sm_target _ _ Hm) as [p' Hp'].
    assert (g_length (m_geometry (ver_meta v)) = zlen (up_full o)) as Hl.
    { by destruct (flow_geometry v o _ Hm eq_refl). }
    destruct b as [b1 b2]. destruct (ge_body _ Hr n b1 b2 Hgeo) as [Hz _].
    rewrite (one_representation p' p o r _ rv Hge Hr Hp' Htarget Hrv Hmatch); [by eapply genuine_part|congruence]. }
  destruct (up_status r =? PARTIAL_CONTENT).
  - apply fine_require; [done|]. intros Hd%bool_decide_eq_true. by apply Hpart.
  - case_bool_decide as Hd; [by apply fine_ret, Hpart|].
    eapply fine_then; [apply _|by apply fine_require with (P := whatever)|]. intros. by apply fine_retire_and.
Qed.
Lemma fine_resume `{!OneRepresentation} v p (headers : H) range o s0 :
  sound_meta o (ver_meta v) → is_Some (range_value (m_policy (ver_meta v))) →
  fine (resume v p headers range) s0 (λ _ r, part_of (up_full o) range r).
Proof.
  intros Hm Hsome. eapply fine_then with (P := whatever); [apply _| |].
  { destruct (resumable v); [|by apply fine_ret].
    eapply fine_then; [apply _|by apply (fine_text _ _ whatever)|]. intros s1 x _ _.
    eapply fine_then; [apply _|by apply (fine_text _ _ whatever)|]. intros s2 y _ _. by apply fine_ret. }
  intros s1 headers' _ _.
  eapply fine_then; [apply _|eapply fine_calmly; [apply _|apply fine_execute]|]. intros s2 answer _ Hans.
  eapply fine_then; [apply _|by apply (fine_tell _ _ whatever)|]. intros s3 arm _ _.
  eapply fine_then with (P := whatever); [apply _|by destruct arm; (apply fine_ret || apply fine_throw)|]. intros s4 _ _ _.
  eapply fine_then with (P := λ _, genuine); [apply _|by apply fine_try; destruct answer|]. intros s5 r _ Hr.
  eapply fine_then with (P := whatever); [apply _| |].
  { destruct (negb _); [|by apply fine_ret].
    eapply fine_then with (P := whatever); [apply _|eapply fine_calmly; [apply _|]|by intros; apply fine_throw].
    eapply goes_mono; [apply _|by apply (fine_call _ _ whatever)|done]. }
  intros s6 _ _ _. eapply fine_then; [apply _|by apply fine_same|]. intros s7 ? _ Hpart. by apply fine_ret.
Qed.
Lemma fine_fetch_blocks `{!OneRepresentation} tr s0 : good_transfer s0 tr → fine (fetch_blocks tr) s0 whatever.
Proof.
  intros ((o & Ho & Hm) & Hd & Hr). unfold fetch_blocks. cbv zeta. set (v := tr_version tr) in *.
  apply fine_limited; [done|]. intros s1 HG1. apply fine_permitted; [apply calm_buffers|done|]. intros s2 HG2.
  apply fine_permitted; [apply calm_requests|done|]. intros s3 HG3.
  eapply fine_then with (P := whatever); [apply _| |].
  { eapply goes_observe; [apply _|]. intros s _ _. unfold ensure. by destruct (negb _). }
  intros s4 _ HG4 _. eapply fine_then with (P := λ _ r, part_of (up_full o) (tr_range tr) r); [apply _| |].
  { destruct (tr_response tr) as [r|]; [|by apply fine_resume].
    destruct Hr as (Hr & Hor & n & Hgeo). rewrite (origin_unique _ _ _ _ Ho Hor). apply fine_ret. by eapply genuine_part. }
  intros s5 r HG5 [Hstart Hpart].
  eapply fine_then; [apply _|by apply (fine_tell _ _ whatever)|]. intros s6 sent HG6 _.
  eapply fine_then; [apply _|by apply (fine_tell _ _ whatever)|]. intros s7 received HG7 _.
  eapply fine_then with (P := whatever); [apply _| |].
  { destruct (Policy.store _); [by apply fine_ret|by apply (fine_call _ _ whatever)]. }
  intros s8 _ HG8 _. assert (grows s0 s8) as HG by (do 7 (etrans; [eassumption|]); done).
  eapply fine_then; [apply _|eapply fine_calmly; [apply _|]|].
  { eapply (course_transfer v o (m_geometry (ver_meta v)) Hm eq_refl); [by eapply gr_origin|by eapply holds_later|by apply (flow_start v o _ Hm eq_refl)|constructor|].
    unfold reached. cbn. by rewrite Z.add_0_r. }
  intros s9 ended HG9 [Hb Hend]. eapply fine_then with (P := whatever); [apply _| |].
  { case_bool_decide; [by apply fine_ret|]. eapply fine_then; [apply _|eapply fine_calmly; [apply _|]|by intros; apply fine_ret].
    eapply (goes_flush v o _ Hm eq_refl); [eapply holds_later; [|exact Hd]; by etrans|exact Hb]. }
  intros s10 _ _ _. destruct ended.2; [by apply fine_ret..|by apply fine_throw].
Qed.
Lemma goes_transfer_task `{!OneRepresentation} tr s0 : good_transfer s0 tr → goes (transfer_task tr) s0 whatever.
Proof.
  intros Htr. eapply goes_bind; [apply _|by apply fine_fetch_blocks|]. intros s1 result _ Hres.
  eapply goes_bind with (P := whatever); [apply _|eapply goes_update; [apply _|]|].
  - intros s _ HI. destruct (inv_progress s (tr_download tr) (match result with Ok _ => Complete | Err e => Failed e end) HI); [|done].
    destruct result; [done|]. congruence.
  - intros s2 _ _ _. eapply goes_update; [apply _|]. intros s _ HI. 
    match goal with |- grows _ ?s' ∧ _ => assert (grows s s') as HG by (apply grows_heap; eauto) end.
    split_and!; [done| |done]. by apply (inv_step s _ HI HG); cbn; auto.
Qed.
End content.
