(* ===== verification/Answers.v ===== *)
(** * Resource cache: what clients get

    The rest of the service is safe with the invariant of [Content.v]: what [respond] hands over
    is a reader of a known version, its body sends the range the head names, and no step ends
    in [Panic]. *)
From stdpp Require Import gmultiset.
From S2P Require Import Prelude Text Format HttpRange Policy Storage Packs Materialize Resource Delivery DeliveryFacts.
From S2P Require Import Threads Service Content.
From stdpp Require Import options.
#[local] Set Default Proof Using "Type*".

Open Scope Z_scope.
Open Scope list_scope.

(** ** Slices *)

Lemma slice_app {A} (l : list A) a b c x y :
  slice l a b = Some x → slice l b c = Some y → slice l a c = Some (x ++ y).
Proof.
  intros Hx Hy. pose proof (slice_Some _ _ _ _ Hx) as (? & ? & _). pose proof (slice_Some _ _ _ _ Hy) as (? & ? & _).
  rewrite slice_is_Some in Hx, Hy |- * by lia. injection Hx as <-. injection Hy as <-. f_equal.
  replace (Z.to_nat b) with (Z.to_nat a + Z.to_nat (b - a))%nat by lia.
  rewrite <-drop_drop, take_take_drop. f_equal. lia.
Qed.
Lemma slice_slice {A} (l : list A) a b i j x y :
  slice l a b = Some x → slice x i j = Some y → slice l (a + i) (a + j) = Some y.
Proof.
  intros Hx Hy. pose proof (slice_Some _ _ _ _ Hx) as (? & ? & Hz). pose proof (slice_Some _ _ _ _ Hy) as (? & ? & _).
  rewrite slice_is_Some in Hx, Hy |- * by lia. injection Hx as <-. injection Hy as <-. f_equal.
  replace (Z.to_nat (b - a)) with (Z.to_nat i + Z.to_nat (b - a - i))%nat by lia.
  rewrite <-take_drop_commute, take_take, drop_drop. f_equal; [|f_equal]; lia.
Qed.

Section metadata.
Context {H V U : Type} `{!HttpHeaders H V, !Urls U, !ServiceLib H V, D : Digest, !HttpHeadersLaws H V, W : !Servers H U}.
Notation Upstream := (Upstream H U).
Notation PreparedResource := (PreparedResource H U).
Implicit Types (r o : Upstream) (p : PreparedResource) (h : H).

(** ** The metadata of a version *)

Lemma printable h ds k w :
  hn_from_bytes k = Some k → response_store h ds = true → w ∈ hm_get_all h k → is_Some (hv_to_str w).
Proof.
  intros Hk Hs Hin. unfold response_store in Hs. repeat (apply andb_true_iff in Hs as [Hs _]).
  rewrite <-iter_values in Hin by done. apply list_elem_of_fmap in Hin as (kv & -> & Hin).
  apply list_elem_of_filter in Hin as [_ Hin].
  rewrite forallb_forall in Hs. apply list_elem_of_In, Hs in Hin. by apply bool_decide_eq_true in Hin.
Qed.
(** A header that is stored comes back, or is left out. *)
Lemma restored_value h ds k :
  hn_from_bytes k = Some k → response_store h ds = true →
  value (restore (saved h)) k = None ∨ value (restore (saved h)) k = value h k.
Proof.
  intros Hk Hs. unfold value, get. rewrite saved_restore by done. destruct (_ || _); [by left|right].
  destruct (hm_get_all h k) as [|w ws] eqn:Hw; [done|].
  destruct (printable h ds k w Hk Hs) as [t Ht]; [rewrite Hw; by left|].
  rewrite filter_cons, decide_True; [done|]. unfold textual. by rewrite bool_decide_true by (by rewrite Ht).
Qed.
Lemma weak_stored h ds :
  response_store h ds = true → weak (value h "etag") → weak (value (restore (saved h)) "etag").
Proof.
  intros Hs Hw. destruct (restored_value h ds "etag") as [->| ->]; [by apply hn_plain|done..].
Qed.
Lemma weak_unvalidated h : response_validator h = None → weak (value h "etag").
Proof. unfold response_validator. intros Hv t Ht. rewrite Ht in Hv. by destruct (strong_etag t). Qed.

(** A new version. *)
Lemma sound_created r n range generation p provider kind key sent received m :
  genuine r → response_geometry r = Ok (Some (n, range)) →
  Policy.store (from_response (up_headers r) sent received) = true →
  metadata generation p provider kind key n r (from_response (up_headers r) sent received) = Ok m →
  sound_meta r m.
Proof.
  intros Hr Hgeo Hst Hm. destruct range as [a b]. destruct (ge_body _ Hr n a b Hgeo) as [Hlen _].
  unfold metadata in Hm. destruct (Geometry_new n) as [g|] eqn:Hg; [|done].
  cbn [mbind result_bind] in Hm. destruct (target_of p (up_url r)) as [t|] eqn:Ht; [|done]. injection Hm as <-.
  split; cbn; try done.
  - by rewrite Hlen.
  - rewrite Hlen. unfold response_geometry in Hgeo. destruct (up_status r =? PARTIAL_CONTENT).
    + destruct (value (up_headers r) "content-range" ≫= parse_content_range) as [cr|] eqn:Hcr; cbn in Hgeo; [|done].
      unfold ensure in Hgeo. repeat case_match; try done. injection Hgeo as <- _ _.
      apply bind_Some in Hcr as (x & _ & Hcr). unfold parse_content_range in Hcr. repeat case_match; simplify_eq.
      cbn. by eapply parse_u64_range.
    + destruct (up_length r) eqn:Hl; [|done]. injection Hgeo as <- _ _. by eapply ge_length.
  - by exists p.
  - by apply weak_unvalidated.
  - intros Hv. eapply weak_stored; [exact Hst|by apply weak_unvalidated].
Qed.
Lemma metadata_key generation p provider kind key n r policy m :
  metadata generation p provider kind key n r policy = Ok m → m_key m = key.
Proof.
  unfold metadata. destruct (Geometry_new n); [|done]. cbn [mbind result_bind].
  destruct (target_of p (up_url r)); [|done]. by intros [= <-].
Qed.
(** A version that was found unchanged: its tag was weak before, or there is no telling, and is
    after. *)
Lemma weak_merged old new now h e :
  merge_validation old new now = Some h → weak (value (restore (H := H) old) "etag") →
  (∀ t, value new "etag" = Some t → e = Some t) → weak e → weak (value h "etag").
Proof.
  intros Hm Hold Hnew He. destruct (merge_validation_spec old new now "etag") as (h' & v & Hm' & _ & Hget); [by apply hn_plain|].
  rewrite Hm in Hm'. injection Hm' as <-. unfold value, get. rewrite Hget. cbn [str_eqb]. 
  destruct (existsb _ _); [|exact Hold]. intros t Ht. apply He. by apply Hnew.
Qed.
Lemma sound_revalidated o m r p now h sent received layout ranges kind :
  sound_meta o m → ensure_validation p m r = Ok tt → merge_validation (m_headers m) (up_headers r) now = Some h →
  let q := from_response h sent received in
  Policy.store q = true →
  sound_meta o (mk_Metadata (m_key m) (m_provider m) kind (m_generation m) (m_geometry m) (saved h)
    (mk_Policy (stored q) (initial_age q) (lifetime q) (no_cache q) (Policy.store q) (etag q) (modified q)
       (range_validator (m_policy m))) (m_target m) ranges layout).
Proof.
  intros Hm Hval Hmerge q Hst. destruct Hm as [Hge Hgeo Hlen Htg Hrv Het Hhd].
  assert (range_validator (m_policy m) = None → weak (value h "etag")) as Hw.
  { intros Hnone. eapply weak_merged; [exact Hmerge|by apply Hhd| |by apply Het].
    intros t Ht. unfold ensure_validation in Hval. rewrite Ht in Hval.
    destruct (match value (up_headers r) "content-length" with Some _ => _ | None => _ end); [|done].
    cbn [mbind result_bind] in Hval. destruct (target_of p (up_url r)); [|done]. cbn [mbind result_bind] in Hval.
    unfold ensure at 1 in Hval. destruct (str_eqb _ _); [|done]. cbn [mbind result_bind] in Hval.
    unfold ensure at 1 in Hval. by case_bool_decide. }
  split; cbn; try done. intros Hnone. eapply weak_stored; [exact Hst|by apply Hw].
Qed.
End metadata.

Section answers.
Context {H V U : Type} `{!HttpHeaders H V, !Urls U, !ServiceLib H V, D : Digest, !HttpHeadersLaws H V, W : !Servers H U}.
Context `{!OneRepresentation} (persistent : bool).
Notation Upstream := (Upstream H U).
Notation PreparedResource := (PreparedResource H U).
Notation Metadata := Storage.Metadata.
Notation Version := Storage.Version.
Notation State := (State (H := H) (U := U)).
Notation Question := (Question (H := H) (U := U)).
Notation Failure := (Failure (H := H)).
Notation ResourceRequest := (ResourceRequest (H := H) (U := U)).
Notation Delivered := (Delivered (H := H) (U := U)).
Notation Reader := (Reader (H := H) (U := U)).
Notation goes := (goes Inv grows honest).
Notation fine := (fine Inv grows honest Panic).
Notation Code := (Threads.Code State Question).
Notation Fallible := (Threads.Fallible State Question Failure).
Implicit Types (s : State) (r o : Upstream) (v : Version) (rq : ResourceRequest) (rd : Reader).

(** Steps that only ask. *)
Lemma fine_ask {X A} (q : Question X) (k : X → Fallible A) s0 P :
  (∀ x, honest X q x → fine (k x) s0 P) → fine (x ← tell q ; k x) s0 P.
Proof.
  intros Hk. eapply fine_then with (P := λ s x, s = s0 ∧ honest X q x); [apply _|by apply fine_tell|].
  intros s x _ [-> Hx]. by apply Hk.
Qed.
Lemma fine_called {X A} (q : Question (result string X)) (k : X → Fallible A) s0 P :
  (∀ x, honest _ q (Ok x) → fine (k x) s0 P) → fine (x ← call q ; k x) s0 P.
Proof.
  intros Hk. eapply fine_then with (P := λ s x, s = s0 ∧ honest _ q (Ok x)); [apply _|by apply fine_call|].
  intros s x _ [-> Hx]. by apply Hk.
Qed.
Lemma fine_read {X A} (r : result string X) (k : X → Fallible A) s0 P :
  (∀ x, r = Ok x → fine (k x) s0 P) → fine (x ← text r ; k x) s0 P.
Proof.
  intros Hk. eapply fine_then with (P := λ s x, s = s0 ∧ r = Ok x); [apply _|by apply fine_text|].
  intros s x _ [-> Hx]. by apply Hk.
Qed.
Lemma fine_just {A} (c : Fallible A) s0 (P : A → Prop) :
  fine c s0 (λ _, P) → ∀ B (k : A → Fallible B) R,
  (∀ s a, grows s0 s → P a → fine (k a) s R) → fine (c ≫= k) s0 R.
Proof. intros Hc B k R Hk. eapply fine_then; [apply _|exact Hc|exact Hk]. Qed.
Lemma fine_needed (b : bool) (e : Failure) {A} (k : unit → Fallible A) s0 P :
  e ≠ Panic → (b = true → fine (k tt) s0 P) → fine (require b e ≫= k) s0 P.
Proof.
  intros He Hk. unfold require, ensure. destruct b; [by apply Hk|]. apply (fine_throw _ _ _ _ e _ _ He).
Qed.

(** ** [respond] *)

Lemma fine_is_fresh p h s0 : fine (is_fresh p h) s0 whatever.
Proof. apply fine_ask. intros now _. by apply fine_ret. Qed.
Lemma fine_fresh_version rq cached s0 : fine (fresh_version rq cached) s0 whatever.
Proof. destruct cached; [apply fine_is_fresh|by apply fine_ret]. Qed.
Lemma fine_pass rq h s0 P : (∀ s r, P s (Passed r)) → fine (pass rq h) s0 P.
Proof.
  intros HP. eapply fine_then; [apply _|apply fine_fetch|]. intros s r _ _. by apply fine_ret.
Qed.
Definition knows key s (cached : option Version) : Prop :=
  ∀ v, cached = Some v → known s v ∧ m_key (ver_meta v) = key.
Lemma knows_later key s s' cached : grows s s' → knows key s cached → knows key s' cached.
Proof. intros HG Hc v Hv. destruct (Hc v Hv). split; [by eapply known_later|done]. Qed.
Lemma fine_lookup_version key s0 : fine (lookup_version key) s0 (knows key).
Proof.
  apply fine_called. intros [v|] _; [|by apply fine_ret; intros v ?].
  eapply goes_when; [apply _|]. intros s b s' HG HI Hm.
  apply bind_Some in Hm as (i & Hi & Hm). destruct (str_eqb _ key) eqn:Hkey; [|done]. injection Hm as <- <-.
  split_and!; [done..|]. intros w [= <-]. split; [|by apply str_eqb_eq]. exists (vi_origin i). cbn. split; [exists (vi_meta i); by destruct i|by eapply in_version].
Qed.
Lemma fine_usable rq key cached s0 : knows key s0 cached → fine (usable rq cached) s0 (knows key).
Proof.
  intros Hk. destruct cached as [v|]; [|by apply fine_ret; intros w ?].
  apply fine_ask. intros alive _. eapply fine_then with (P := whatever); [apply _| |].
  { by eapply goes_observe; [apply _|]. }
  intros s1 downloading HG1 _. eapply knows_later in Hk; [|exact HG1].
  destruct (_ && _); [|by apply fine_ret]. apply fine_called. intros [] _; [by apply fine_ret|].
  by apply fine_ret; intros w ?.
Qed.

(** What was chosen to read. *)
Definition first_part s v (initial : option Upstream) (range : Z * Z) : Prop :=
  ∀ r, initial = Some r → good_response s v range (Some r).
Definition chosen_ok key s (c : Chosen) : Prop :=
  match c with
  | Done d => match d with Head _ | Passed _ => True | _ => False end
  | Chosen_version v initial range => known s v ∧ m_key (ver_meta v) = key ∧ first_part s v initial range
  end.
Lemma alter_is_insert {A} (f : A → A) (k : Z) (m : gmap Z A) x :
  m !! k = Some x → alter f k m = <[k := f x]> m.
Proof.
  intros Hx. apply map_eq. intros j. destruct (decide (j = k)) as [->|Hne].
  - by rewrite lookup_alter_eq, lookup_insert_eq, Hx.
  - by rewrite lookup_alter_ne, lookup_insert_ne.
Qed.
Lemma fine_update_version v o m s0 :
  origin s0 (ver_id v) o → sound_meta o m → fine (update_version v m) s0 whatever.
Proof.
  intros Ho Hm. apply fine_called. intros _ _. eapply fine_calmly; [apply _|]. eapply goes_update; [apply _|].
  intros s HG HI. destruct (gr_origin _ _ HG _ _ Ho) as [m0 Hm0].
  rewrite (alter_is_insert _ _ _ _ Hm0). cbn [vi_origin].
  destruct (inv_version s (ver_id v) m o HI Hm) as (? & ? & _); [|done].
  intros o' Ho'. eapply origin_unique; [exact Ho'|by exists m0].
Qed.
Lemma fine_revalidated rq h key cached r sent received s0 :
  knows key s0 cached → fine (revalidated rq h cached r sent received) s0 (chosen_ok key).
Proof.
  intros Hk. destruct cached as [old|]; [|by apply fine_throw]. destruct (Hk old eq_refl) as ((o & Ho & Hm) & Hkey).
  apply fine_read. intros [] Hval. apply fine_ask. intros now _. apply fine_read. intros headers Hmerge.
  destruct (merge_validation _ _ _) as [headers'|] eqn:Hmg; [|done]. injection Hmerge as ->.
  cbv zeta. match goal with |- context [Policy.store ?q] => destruct (Policy.store q) eqn:Hst end; cbn [negb].
  - pose proof (sound_revalidated o _ r (rq_prepared rq) now headers sent received (m_layout (ver_meta old))
      (m_ranges (ver_meta old)) (m_kind (ver_meta old)) Hm Hval Hmg Hst) as Hm'.
    eapply fine_then; [apply _|by apply (fine_update_version old o)|]. intros s [] HG _. apply fine_ret.
    split_and!; [|done|by intros x ?]. exists o. split; [by eapply gr_origin|exact Hm'].
  - apply fine_called. intros _ _. eapply fine_then; [apply _|apply (fine_pass _ _ _ (λ s d, chosen_ok key s (Done d))); done|].
    intros s d _ Hd. by apply fine_ret.
Qed.
Lemma sound_laid_out r m : sound_meta r m → sound_meta r (laid_out m).
Proof. by intros []. Qed.
Lemma fine_create_version m r s0 :
  sound_meta r m → fine (create_version m r) s0 (λ s c, ∀ v, c = Ok v → ver_meta v = laid_out m ∧ origin s (ver_id v) r).
Proof.
  intros Hm%sound_laid_out. apply fine_ask. intros [[id lease]|e] _; [|by apply fine_ret].
  eapply goes_when; [apply _|]. intros s b s' HG HI Hs.
  destruct (sv_versions s !! id) eqn:Hid; [done|]. injection Hs as <- <-.
  destruct (inv_version s id (laid_out m) r HI Hm) as (? & ? & ?).
  { intros o' [m' Hm']. congruence. }
  split_and!; [done..|]. intros v [= <-]. done.
Qed.
Lemma fine_passed rq h key s0 : fine (d ← pass rq h ; mret (Done d)) s0 (chosen_ok key).
Proof.
  eapply fine_then; [apply _|apply (fine_pass _ _ _ (λ s d, chosen_ok key s (Done d))); done|].
  intros s d _ Hd. by apply fine_ret.
Qed.
Lemma fine_admitted rq h key r sent received s0 :
  genuine r → fine (admitted rq h key r (from_response (up_headers r) sent received)) s0 (chosen_ok key).
Proof.
  intros Hr. set (policy := from_response _ _ _). apply fine_read. intros [[n range]|] Hgeo.
  - destruct (Policy.store policy) eqn:Hst; cbn [negb].
    + destruct (_ && _); [by apply fine_ret|]. apply fine_ask. intros generation _. apply fine_read. intros m Hm.
      assert (sound_meta r m) as Hsound by by eapply sound_created.
      eapply fine_then; [apply _|by apply fine_create_version|]. intros s [v|e] HG Hv; [|apply fine_passed].
      destruct (Hv v eq_refl) as [Hmeta Ho]. apply fine_ret. split; [exists r; rewrite Hmeta; by split; [|apply sound_laid_out]|].
      split; [rewrite Hmeta; exact (metadata_key _ _ _ _ _ _ _ _ _ Hm)|].
      intros r' [= <-]. split_and!; [done..|]. by exists n.
    + destruct (_ =? _); [apply fine_passed|by apply fine_ret].
  - destruct (_ =? _); [apply fine_passed|by apply fine_ret].
Qed.
Lemma fine_asked rq h key cached s0 : knows key s0 cached → fine (asked rq h key cached) s0 (chosen_ok key).
Proof.
  intros Hk. apply fine_ask. intros sent _. eapply fine_then; [apply _|apply fine_fetch|]. intros s1 r HG1 Hr.
  apply fine_ask. intros received _.
  destruct (_ =? NOT_MODIFIED); [apply fine_revalidated; by eapply knows_later|].
  cbv zeta. destruct (negb _); [by apply fine_ret|]. destruct (_ && _); [|by apply fine_admitted].
  apply fine_ask. intros sent' _. eapply fine_then; [apply _|apply fine_fetch|]. intros s2 r' HG2 Hr'.
  apply fine_ask. intros received' _. destruct (_ || _); [by apply fine_ret|by apply fine_admitted].
Qed.

(** A reader that may be streamed, and the range it was made for. *)
Record good_reader s rd : Prop := {
  gr_known : known s (rd_version rd);
  gr_block i b : rd_block rd = Some (i, b) → good_block s (ver_id (rd_version rd)) i b;
  gr_held : held s (rd_version rd) (rd_initial rd);
}.
Definition key_of rq : result string string :=
  cache_key (rq_provider rq) (rq_scope rq) (rq_prepared rq)
    (request_headers (pr_headers (rq_prepared rq)) (rq_headers rq)).
Definition as_asked rq (head : Z * H) rd : Prop :=
  let m := ver_meta (rd_version rd) in
  let range := (rd_cursor rd, rd_end rd) in
  key_of rq = Ok (m_key m) ∧ client_range (rq_headers rq) m = Some range ∧
  ∃ ranges now, head = stream_head (rq_headers rq) m range ranges now.
Definition in_memory (bytes : list Z) (range : Z * Z) : Prop := 0 ≤ range.1 ≤ range.2 ∧ range.2 ≤ zlen bytes.
Definition good_answer rq s (d : Delivered) : Prop :=
  match d with
  | Streamed head rd => as_asked rq head rd ∧ good_reader s rd
  | FromMemory _ bytes range => in_memory bytes range
  | _ => True
  end.
Lemma stable_answer rq : stable (good_answer rq).
Proof.
  intros s s' [] HG; try done. cbn. intros [Has []]. split; [done|]. split.
  - by eapply known_later.
  - intros i b Hb. eapply good_block_later; eauto.
  - by eapply held_later.
Qed.
Lemma fine_local_file rq client v s0 : fine (local_file rq client v) s0 whatever.
Proof.
  unfold local_file. destruct (negb _); [by apply fine_ret|]. destruct (file_client_for _ _); [|by apply fine_ret].
  apply fine_ask. intros [[f|]|[]] Hf; try (by apply fine_ret); try (by apply fine_throw).
  eapply fine_then; [apply _|apply fine_assert_both|]. intros s1 _ _ _. by apply fine_ret.
Qed.
Lemma fine_first_download rq h v initial range start s0 :
  known s0 v → first_part s0 v initial range →
  fine (first_download rq h v initial range start) s0 (λ s d, held s v d).
Proof.
  intros Hk Hf. destruct initial as [r|]; [|apply fine_find_download].
  cbn [first_download]. destruct (in_range range start); [|by apply fine_ret; intros i ?].
  eapply fine_then; [apply _|apply fine_download; [done|by apply Hf]|].
  intros s d HG Hd. apply fine_ret. by intros i [= <-].
Qed.
Lemma fine_open_reader rq h v initial part range s0 :
  key_of rq = Ok (m_key (ver_meta v)) → known s0 v → first_part s0 v initial part → client_range (rq_headers rq) (ver_meta v) = Some range →
  fine (open_reader rq h v initial part range) s0 (good_answer rq).
Proof.
  intros Hkey Hk Hf Hrange. unfold open_reader. cbv zeta. apply fine_called. intros _ _.
  eapply fine_then with (P := whatever); [apply _| |].
  { destruct (only_cached _); [by apply (fine_call _ _ whatever)|by apply fine_ret]. }
  intros s1 covered HG1 _. destruct (negb covered); [by apply fine_ret|].
  assert (known s1 v) as Hk1 by by eapply known_later.
  assert (first_part s1 v initial part) as Hf1.
  { intros r Hr. eapply good_response_later; [exact HG1|by apply Hf]. }
  eapply fine_then; [apply _|by apply fine_first_download|]. intros s2 d HG2 Hd.
  apply fine_ask. intros now _. eapply fine_then with (P := whatever); [apply _| |].
  { destruct (m_ranges _); [by apply fine_ret|by apply (fine_call _ _ whatever)]. }
  intros s3 ranges HG3 _. assert (known s3 v) as Hk3 by (eapply known_later; [|exact Hk1]; by etrans).
  assert (held s3 v d) as Hd3 by by eapply held_later.
  eapply fine_then with (P := λ s a, (∀ i b, a.1 = Some (i, b) → good_block s (ver_id v) i b) ∧ held s v a.2); [apply _| |].
  { destruct (_ && _); [|by apply fine_ret].
    eapply fine_then; [apply _|by apply fine_block|]. intros s4 [b d'] HG4 [Hb Hd']. apply fine_ret. split; [|done].
    cbn. by intros i c [= <- <-]. }
  intros s4 [b d'] HG4 [Hb Hd']. eapply fine_then; [apply _|apply fine_assert_both|]. intros s5 _ HG5 _.
  apply fine_ret. destruct range as [a e]. split.
  - split_and!; [done..|]. by exists ranges, now.
  - split; cbn.
    + eapply known_later; [|exact Hk3]. by etrans.
    + intros i c Hc. eapply good_block_later; [exact HG5|by apply Hb].
    + by eapply held_later.
Qed.
Lemma fine_respond_version rq client h v initial part s0 :
  key_of rq = Ok (m_key (ver_meta v)) → known s0 v → first_part s0 v initial part →
  fine (respond_version rq client h v initial part) s0 (good_answer rq).
Proof.
  intros Hkey Hk Hf. unfold respond_version. destruct (not_modified _ _); [by apply fine_ret|].
  destruct (client_range _ _) as [range|] eqn:Hrange; [|by apply fine_ret].
  eapply fine_then; [apply _|apply fine_local_file|]. intros s1 [f|] HG1 _; [by apply fine_ret|].
  apply fine_open_reader; [done|by eapply known_later| |done].
  intros r Hr. eapply good_response_later; [exact HG1|by apply Hf].
Qed.
Lemma fine_respond_locked rq client h key s0 :
  key_of rq = Ok key → fine (respond_locked rq client h key) s0 (good_answer rq).
Proof.
  intros Hkey. unfold respond_locked. cbv zeta. eapply fine_then with (P := knows key); [apply _| |].
  { destruct (request_no_store _); [by apply fine_ret; intros v ?|apply fine_lookup_version]. }
  intros s1 cached HG1 Hc. eapply fine_then; [apply _|by apply fine_usable|]. clear Hc cached.
  intros s2 cached HG2 Hc. eapply fine_then with (P := whatever); [apply _| |].
  { destruct (only_cached _); [apply fine_fresh_version|by apply fine_ret]. }
  intros s3 fresh HG3 _. eapply knows_later in Hc; [|exact HG3].
  destruct (_ && _); [by apply fine_ret|]. destruct (_ || _); [by apply fine_pass|].
  eapply fine_then; [apply _|apply fine_fresh_version|]. intros s4 fresh' HG4 _.
  eapply knows_later in Hc; [|exact HG4].
  eapply fine_then with (P := chosen_ok key); [apply _| |].
  { destruct cached as [old|]; [|by apply fine_asked]. destruct fresh'; [|by apply fine_asked].
    apply fine_ret. destruct (Hc old eq_refl). split_and!; [done..|]. by intros r ?. }
  intros s5 [d|v initial range] HG5 Hch; [|destruct Hch as (? & Hvk & ?); apply fine_respond_version; [by rewrite Hvk|done..]].
  apply fine_ret. by destruct d.
Qed.
Lemma fine_respond_body rq client s0 : fine (respond_body persistent rq client) s0 (good_answer rq).
Proof.
  unfold respond_body. cbv zeta. eapply fine_then; [apply _|apply fine_assert_valid|]. intros s1 _ _ _.
  destruct (negb persistent).
  { destruct (only_cached _); [by apply fine_ret|by apply fine_pass]. }
  apply fine_read. intros key Hkey. apply fine_with_key; [apply stable_answer|]. intros s2 _. by apply fine_respond_locked.
Qed.
(** A guard that is kept, or dropped at the end. *)
Lemma fine_kept {A} (d : State → State) (keep : result Failure A → bool) (c : Fallible A) s0 P :
  (∀ s, calm s (d s)) → stable P → fine c s0 P →
  fine (r ← calmly (holding d c) ; (if keep r then mret tt else calmly (update d)) ;; try_ r) s0 P.
Proof.
  intros Hd HP Hc. eapply fine_then; [apply _|eapply fine_calmly; [apply _|eapply goes_holding;
    [apply _|by apply calm_destroys|exact Hc]]|].
  intros s1 r HG1 Hr. eapply fine_then with (P := λ s _, match r with Ok a => P s a | Err e => e ≠ Panic end); [apply _| |].
  - destruct (keep r); [by apply fine_ret|]. eapply fine_calmly; [apply _|]. eapply goes_update; [apply _|].
    intros s HG HI. destruct (calm_inv s (d s) (Hd s) HI) as [HG' HI']. split_and!; [done..|].
    destruct r; [|done]. eapply HP; [|exact Hr]. by etrans.
  - intros s2 _ _ Hr'. apply fine_try. by destruct r.
Qed.
Lemma fine_respond rq client s0 : fine (respond persistent rq client) s0 (good_answer rq).
Proof.
  unfold respond. eapply fine_then; [apply _|apply fine_assert_running|]. intros s1 _ _ _.
  eapply fine_then; [apply _|apply fine_acquire, calm_readers|]. intros s2 _ _ _.
  apply fine_kept; [apply calm_readers|apply stable_answer|apply fine_respond_body].
Qed.

(** ** Bodies *)

Definition same_place rd rd' : Prop :=
  rd_version rd' = rd_version rd ∧ rd_request rd' = rd_request rd ∧
  rd_cursor rd' = rd_cursor rd ∧ rd_end rd' = rd_end rd.
Lemma fine_load_block rd index s0 :
  known s0 (rd_version rd) → held s0 (rd_version rd) (rd_initial rd) →
  fine (load_block rd index) s0 (λ s rd', same_place rd rd' ∧ held s (rd_version rd) (rd_initial rd') ∧
    ∃ b, rd_block rd' = Some (index, b) ∧ good_block s (ver_id (rd_version rd)) index b).
Proof.
  intros Hk Hd. unfold load_block. cbv zeta. apply fine_called. intros _ _. destruct (rd_only_cached rd).
  - eapply fine_then; [apply _|apply fine_read_block|]. intros s1 b HG1 Hb.
    eapply fine_then with (P := λ s c, s = s1 ∧ b = Some c); [apply _|by apply fine_try; destruct b|].
    intros s2 c HG2 [-> ->]. apply fine_ret. split; [done|]. split; [by intros i ?|].
    exists c. split; [done|]. by apply Hb.
  - eapply fine_then; [apply _|by apply fine_block|]. intros s1 [b d] HG1 [Hb Hd']. apply fine_ret.
    split; [done|]. split; [done|]. by exists b.
Qed.
Lemma fine_send v o offset (bytes : list Z) s0 :
  origin s0 (ver_id v) o → slice (up_full o) offset (offset + zlen bytes) = Some bytes →
  fine (send v offset bytes) s0 whatever.
Proof.
  intros Ho Hb. apply fine_ask. intros _ _. eapply fine_calmly; [apply _|]. eapply goes_update; [apply _|].
  intros s HG HI. match goal with |- grows _ ?s' ∧ _ => assert (grows s s') as HG' by (split; [auto|eauto]) end.
  split; [done|]. split; [|done]. apply (inv_step s _ HI HG'); cbn; auto.
  intros e [He| ->%list_elem_of_singleton]%elem_of_app; [by left|right]. exists o. cbn. split; [|done].
  do 2 (eapply gr_origin; [eassumption|]). done.
Qed.
(** A reader in the middle of a representation. *)
Record reading o s rd : Prop := {
  re_origin : origin s (ver_id (rd_version rd)) o;
  re_meta : sound_meta o (ver_meta (rd_version rd));
  re_range : 0 ≤ rd_cursor rd ≤ rd_end rd ∧ rd_end rd ≤ zlen (up_full o);
  re_block i b : rd_block rd = Some (i, b) → block_of o i b;
  re_held : held s (rd_version rd) (rd_initial rd);
}.
Lemma good_block_of s id i b o : origin s id o → good_block s id i b → block_of o i b.
Proof. intros Ho (o' & Ho' & Hb). by rewrite (origin_unique _ _ _ _ Ho Ho'). Qed.
Lemma reading_later o s s' rd : grows s s' → reading o s rd → reading o s' rd.
Proof. intros HG []. split; [by eapply gr_origin|done..|by eapply held_later]. Qed.
Lemma fine_at_cursor o rd (has : bool) s0 :
  reading o s0 rd → rd_cursor rd < rd_end rd →
  let index := rd_cursor rd / g_block (m_geometry (ver_meta (rd_version rd))) in
  let rd' := forget_download (if has then rd_initial rd else None) rd in
  fine (if is_none_or (rd_block rd') (λ b, negb (b.1 =? index)) then load_block rd' index else mret rd') s0
    (λ s rd', same_place rd rd' ∧ reading o s rd' ∧ ∃ b, rd_block rd' = Some (index, b)).
Proof.
  intros Hre Hlt index rd'. assert (reading o s0 rd') as Hre'.
  { destruct Hre. split; try done. cbn. by destruct has. }
  destruct (is_none_or _ _) eqn:Hload.
  - eapply fine_mono; [apply _|apply fine_load_block|].
    + exists o. by destruct Hre'.
    + apply Hre'.
    + intros s rd2 HG (Hs & Hd & b & Hb & Hgood). split; [exact Hs|]. split; [|by exists b].
      destruct (reading_later o s0 s rd' HG Hre') as [Ho Hm Hr _ _]. destruct Hs as (Hv & _ & Hc & He).
      split; rewrite ?Hv, ?Hc, ?He; try done. intros i c Hi. rewrite Hb in Hi. injection Hi as <- <-.
      eapply good_block_of; [exact Ho|exact Hgood].
  - apply fine_ret. split; [done|]. split; [done|].
    destruct (rd_block rd') as [[i b]|]; [|done]. cbn in Hload. apply negb_false_iff, Z.eqb_eq in Hload as ->. by exists b.
Qed.
(** The frame at the cursor. *)
Lemma frame_at o rd s bytes :
  reading o s rd → rd_cursor rd < rd_end rd →
  let g := m_geometry (ver_meta (rd_version rd)) in
  let offset := rd_cursor rd mod g_block g in
  let length := Z.min (Z.min OUTPUT_BYTES (zlen bytes - offset)) (rd_end rd - rd_cursor rd) in
  rd_block rd = Some (rd_cursor rd / g_block g, bytes) →
  0 < length ≤ OUTPUT_BYTES ∧ ∃ frame, slice bytes offset (offset + length) = Some frame ∧ zlen frame = length ∧
    slice (up_full o) (rd_cursor rd) (rd_cursor rd + length) = Some frame.
Proof.
  intros [Ho Hm Hr Hb _] Hlt g offset length Hblock. destruct (flow_geometry _ o g Hm eq_refl) as [Hwf Hlen].
  destruct (Hb _ _ Hblock) as (g' & Hg' & Hs). rewrite (sm_geometry _ _ Hm) in Hg'. injection Hg' as <-. fold g in Hs.
  pose proof (wf_geometry_bounds g Hwf) as Hblk. pose proof (slice_Some _ _ _ _ Hs) as (_ & _ & Hz).
  pose proof (Z.div_mod (rd_cursor rd) (g_block g) ltac:(lia)) as Hdm.
  pose proof (Z.mod_pos_bound (rd_cursor rd) (g_block g) ltac:(lia)) as Hmod. fold offset in Hdm, Hmod.
  assert (0 < length ≤ OUTPUT_BYTES) as Hl by (unfold length, OUTPUT_BYTES; lia). split; [done|].
  assert (is_Some (slice bytes offset (offset + length))) as [frame Hframe].
  { rewrite slice_is_Some; [done|lia..]. }
  exists frame. split; [done|]. split; [apply slice_Some in Hframe; lia|].
  pose proof (slice_slice _ _ _ _ _ _ _ Hs Hframe) as Hf. 
  replace (rd_cursor rd) with (rd_cursor rd / g_block g * g_block g + offset) by lia.
  by rewrite <-Z.add_assoc.
Qed.
Lemma fine_stream o fuel : ∀ rd s0,
  reading o s0 rd → (Z.to_nat (rd_end rd - rd_cursor rd) ≤ fuel)%nat →
  fine (stream fuel rd) s0 (λ _ frames, slice (up_full o) (rd_cursor rd) (rd_end rd) = Some (concat frames) ∧
    Forall (λ f, 0 < zlen f ≤ OUTPUT_BYTES) frames).
Proof.
  induction fuel as [|fuel IH]; intros rd s0 Hre Hf; cbn [stream]; cbv zeta.
  all: eapply fine_then with (P := whatever); [apply _|eapply goes_observe; [apply _|]; intros s _ _; by destruct (sv_stop s)|].
  all: intros s1 _ HG1 _; eapply fine_then; [apply _|by apply fine_assert_both_or|]; intros s2 _ HG2 _.
  all: assert (reading o s2 rd) as Hre2 by (eapply reading_later; [|exact Hre]; by etrans).
  all: destruct (Z.eqb_spec (rd_cursor rd) (rd_end rd)) as [He|Hne].
  1, 3: apply fine_ret; split; [|constructor]; rewrite slice_is_Some; [by rewrite He, Z.sub_diag|..]; destruct Hre2; lia.
  { destruct Hre2. lia. }
  assert (rd_cursor rd < rd_end rd) as Hlt by (destruct Hre2; lia).
  eapply fine_then with (P := whatever); [apply _|by eapply goes_observe; [apply _|]|]. intros s3 has HG3 _.
  eapply fine_then; [apply _|apply (fine_at_cursor o rd has); [by eapply reading_later|done]|].
  intros s4 rd' HG4 ((Hv & Hrq & Hc & He) & Hre' & b & Hb).
  rewrite <-Hv, <-Hc in Hb. rewrite Hb. rewrite <-Hv, <-Hc, <-He in *.
  destruct (frame_at o rd' s4 b Hre' Hlt Hb) as (Hl & frame & Hframe & Hz & Hfull).
  rewrite Hframe. destruct (Z.leb_spec (Z.min (Z.min OUTPUT_BYTES (zlen b - rd_cursor rd' mod g_block (m_geometry (ver_meta (rd_version rd'))))) (rd_end rd' - rd_cursor rd')) 0); [lia|].
  set (length := Z.min _ _) in *.
  eapply fine_then; [apply _|apply (fine_send _ o); [apply Hre'|by rewrite Hz]|]. intros s5 _ HG5 _.
  eapply fine_then; [apply _|apply IH|].
  - destruct (reading_later o s4 s5 rd' HG5 Hre') as [Ho Hm Hr Hbl Hd]. split; cbn; try done. unfold length. lia.
  - cbn. lia.
  - intros s6 frames _ [Hfr Hall]. cbn [rd_cursor rd_end advance] in Hfr. apply fine_ret. split; [by eapply slice_app|].
    constructor; [lia|done].
Qed.
Lemma fine_pass_frames chunks failure s0 : fine (pass_frames chunks failure) s0 whatever.
Proof.
  revert s0. induction chunks as [|c chunks IH]; intros s0; cbn [pass_frames].
  - destruct failure; [by apply fine_throw|by apply fine_ret].
  - apply fine_ask. intros _ _. eapply fine_then; [apply _|apply IH|]. intros s frames _ _. by apply fine_ret.
Qed.
Lemma fine_pass_object p chunks failure s0 : fine (pass_object p chunks failure) s0 whatever.
Proof.
  revert s0. induction chunks as [|c chunks IH]; intros s0; cbn [pass_object].
  all: apply fine_ask; intros valid _; eapply fine_then with (P := whatever); [apply _|by eapply goes_observe; [apply _|]|].
  all: intros s1 running _ _; destruct (negb _); [by apply fine_throw|]; apply fine_ask; intros arm _.
  all: destruct arm; try (by apply fine_throw).
  1-3: destruct failure; [by apply fine_throw|by apply fine_ret].
  all: apply fine_ask; intros _ _; eapply fine_then; [apply _|apply IH|]; intros s frames _ _; by apply fine_ret.
Qed.
Lemma fine_memory_frames p bytes fuel : ∀ range s0,
  in_memory bytes range → (Z.to_nat (range.2 - range.1) ≤ fuel)%nat →
  fine (memory_frames fuel p bytes range) s0 (λ _ frames, slice bytes range.1 range.2 = Some (concat frames)).
Proof.
  induction fuel as [|fuel IH]; intros [a b] s0 [Hr Hl] Hf; cbn [memory_frames fst snd] in *.
  all: destruct (Z.eqb_spec a b) as [->|Hne]; [apply fine_ret; rewrite slice_is_Some by lia; by rewrite Z.sub_diag|].
  { lia. }
  apply fine_ask. intros valid _. destruct (negb valid); [by apply fine_throw|].
  cbv zeta. set (stop := Z.min b (a + OUTPUT_BYTES)). assert (a < stop ≤ b) by (unfold stop, OUTPUT_BYTES; lia).
  destruct (slice bytes a stop) as [frame|] eqn:Hframe; [|rewrite slice_is_Some in Hframe; (done || lia)].
  apply fine_ask. intros _ _. eapply fine_then; [apply _|apply IH; [split; cbn; lia|cbn; lia]|].
  intros s frames _ Hfr. apply fine_ret. by eapply slice_app.
Qed.
(** What the body of an answer is. *)
Definition body_of s (d : Delivered) (frames : list (list Z)) : Prop :=
  match d with
  | Streamed _ rd => ∃ o, origin s (ver_id (rd_version rd)) o ∧ g_length (m_geometry (ver_meta (rd_version rd))) = zlen (up_full o) ∧
      slice (up_full o) (rd_cursor rd) (rd_end rd) = Some (concat frames) ∧
      Forall (λ f, 0 < zlen f ≤ OUTPUT_BYTES) frames
  | FromMemory _ bytes range => slice bytes range.1 range.2 = Some (concat frames)
  | _ => True
  end.
Lemma stable_body d : stable (λ s frames, body_of s d frames).
Proof.
  intros s s' frames HG. destruct d; try done. cbn. intros (o & Ho & Hb). exists o. split; [by eapply gr_origin|done].
Qed.
Lemma reader_reads rq head s rd : as_asked rq head rd → good_reader s rd → ∃ o, reading o s rd.
Proof.
  intros (_ & Hrange & _) [(o & Ho & Hm) Hb Hh]. exists o.
  assert (g_length (m_geometry (ver_meta (rd_version rd))) = zlen (up_full o)) as Hlen.
  { by destruct (flow_geometry _ o _ Hm eq_refl). }
  pose proof (sm_length _ _ Hm) as Hu. rewrite <-Hlen in Hu.
  destruct (client_range_bounds _ _ _ _ Hu Hrange) as (? & ? & _).
  split; [done..|lia| |done]. intros i b Hi. eapply good_block_of; [exact Ho|by apply Hb].
Qed.
Lemma fine_body rq d s0 : good_answer rq s0 d → fine (body rq d) s0 (λ s frames, body_of s d frames).
Proof.
  intros Hd. destruct d as [head|r|head rd|head bytes range|r prefix|f]; cbn [body].
  - by apply fine_ret.
  - eapply fine_pure; [apply fine_pass_frames|done].
  - destruct Hd as [Has Hgood]. destruct (reader_reads _ _ _ _ Has Hgood) as [o Hre].
    eapply fine_mono; [apply _|by apply (fine_stream o)|]. intros s frames HG [Hfr Hall].
    exists o. split; [eapply gr_origin; [exact HG|apply Hre]|]. split; [|done].
    by destruct (flow_geometry _ o _ (re_meta _ _ _ Hre) eq_refl).
  - by apply fine_memory_frames.
  - eapply fine_pure; [apply fine_pass_object|done].
  - by apply fine_ret.
Qed.

(** ** Objects *)

Notation Fetched := (Fetched (H := H) (U := U)).
Definition fetched_ok (f : Fetched) : Prop :=
  match f with Have o => whole_object o | Through (PassedObject _ _) _ => True | Through _ _ => False end.
Definition whole_cached (cached : option (ObjectMetadata * list Z)) : Prop := from_option whole_object True cached.
Lemma fine_unchanged r name expected s0 : fine (unchanged r name expected) s0 whatever.
Proof. unfold unchanged. destruct (value _ _); [by apply fine_require|by apply fine_ret]. Qed.
Lemma fine_object_revalidated rq key cached r sent s0 :
  whole_cached cached →
  fine (object_revalidated persistent rq key cached r sent) s0 (λ _, fetched_ok).
Proof.
  intros Hc. eapply fine_then with (P := λ _ old, cached = Some old); [apply _|by apply fine_try; destruct cached|].
  intros s1 old _ Ho. apply fine_read. intros target _. apply fine_needed; [done|]. intros _.
  eapply fine_then; [apply _|apply fine_unchanged|]. intros s2 _ _ _.
  eapply fine_then; [apply _|apply fine_unchanged|]. intros s3 _ _ _.
  eapply fine_then with (P := whatever); [apply _| |].
  { destruct (value _ _); [by apply fine_require|by apply fine_ret]. }
  intros s4 _ _ _. apply fine_ask. intros now _. apply fine_read. intros merged _. apply fine_ask. intros now' _.
  cbv zeta. eapply fine_then with (P := whatever); [apply _| |].
  { destruct (negb persistent); [by apply fine_ret|]. destruct (Policy.store _); by apply (fine_tell _ _ whatever). }
  intros s5 _ _ _. apply fine_ret. by subst.
Qed.
Lemma fine_too_large rq h r prefix chunks s0 : fine (too_large rq h r prefix chunks) s0 (λ _, fetched_ok).
Proof.
  unfold too_large. destruct (contains_key _ _); [|by apply fine_ret].
  eapply fine_then; [apply _|apply fine_execute|]. intros s again _ _. by apply fine_ret.
Qed.
Lemma fine_assert_playing p s0 : fine (assert_playing p) s0 whatever.
Proof.
  apply fine_ask. intros valid _. eapply fine_then with (P := whatever); [apply _|by eapply goes_observe; [apply _|]|].
  intros s running _ _. by apply fine_require.
Qed.
Lemma fine_read_object chunks rq h r : ∀ data s0,
  zlen data ≤ MAX_OBJECT →
  fine (read_object chunks rq h r data) s0 (λ _ a, match a with inl d => zlen d ≤ MAX_OBJECT | inr f => fetched_ok f end).
Proof.
  induction chunks as [|c chunks IH]; intros data s0 Hl; cbn [read_object].
  all: apply fine_ask; intros arm _.
  - destruct arm; try (by apply fine_throw); (destruct (up_failure r); [by apply fine_throw|by apply fine_ret]).
  - assert (fine (assert_playing (rq_prepared rq) ;;
      (if MAX_OBJECT <? zlen data + zlen c
       then f ← too_large rq h r [data; c] chunks ; mret (inr f)
       else read_object chunks rq h r (data ++ c))) s0
      (λ _ a, match a with inl d => zlen d ≤ MAX_OBJECT | inr f => fetched_ok f end)) as Hc.
    { eapply fine_then; [apply _|apply fine_assert_playing|]. intros s1 _ _ _.
      destruct (Z.ltb_spec MAX_OBJECT (zlen data + zlen c)).
      - eapply fine_then; [apply _|apply fine_too_large|]. intros s2 f _ Hf. by apply fine_ret.
      - apply IH. by rewrite zlen_app. }
    destruct arm; try (by apply fine_throw); exact Hc.
Qed.
Lemma fine_store_object rq key bypass (o : ObjectMetadata * list Z) s0 : fine (store_object persistent rq key bypass o) s0 whatever.
Proof.
  unfold store_object. destruct (negb persistent); [by apply fine_ret|].
  destruct (_ && _); [|by apply (fine_tell _ _ whatever)].
  apply fine_ask. intros _ _. apply fine_ask. intros valid _.
  destruct valid; [by apply fine_ret|by apply (fine_tell _ _ whatever)].
Qed.
Lemma fine_object_received rq h key bypass r sent s0 :
  fine (object_received persistent rq h key bypass r sent) s0 (λ _, fetched_ok).
Proof.
  apply fine_ask. intros now _. eapply fine_then; [apply _|apply fine_read_object; by vm_compute|].
  intros s1 [data|f] _ Hd; [|by apply fine_ret]. apply fine_needed; [done|]. intros _.
  eapply fine_then; [apply _|apply fine_assert_playing|]. intros s2 _ _ _.
  apply fine_read. intros group _. apply fine_read. intros target _. cbv zeta.
  eapply fine_then; [apply _|apply fine_store_object|]. intros s3 _ _ _. apply fine_ret.
  split; [done|]. cbn. assert (MAX_OBJECT < u64_max) by (by vm_compute). unfold is_u64, zlen in *. lia.
Qed.
Lemma fine_object_asked rq h key bypass cached s0 :
  whole_cached cached →
  fine (object_asked persistent rq h key bypass cached) s0 (λ _, fetched_ok).
Proof.
  intros Hc. apply fine_ask. intros sent _. eapply fine_then; [apply _|apply fine_acquire, calm_requests|].
  intros s1 _ _ _. apply fine_kept; [apply calm_requests|apply stable_pure|].
  eapply fine_then; [apply _|apply fine_execute|]. intros s2 r _ Hr.
  destruct (_ =? NOT_MODIFIED); [by apply fine_object_revalidated|].
  destruct (_ || _); [|apply fine_object_received].
  eapply fine_then with (P := whatever); [apply _| |].
  { destruct (_ && _); [|by apply fine_ret]. eapply fine_pure; [eapply fine_mono; [apply _|apply fine_execute|done]|done]. }
  intros s3 r' _ _. by apply fine_ret.
Qed.
Lemma fine_object_answer rq (o : ObjectMetadata * list Z) s0 :
  whole_object o → fine (object_answer rq o) s0 (λ s a, good_answer rq s a.1).
Proof.
  intros [Hlen Hu]. unfold object_answer. cbv zeta.
  eapply fine_then; [apply _|apply fine_assert_valid|]. intros s1 _ _ _. apply fine_read. intros url _.
  destruct (not_modified _ _); [by apply fine_ret|]. apply fine_ask. intros generation _.
  apply fine_read. intros g Hg. pose proof (geometry_new_spec _ Hu) as Hs. rewrite Hg in Hs.
  match goal with |- context [client_range _ ?m] => destruct (client_range (rq_headers rq) m) as [[a b]|] eqn:Hr end;
    [|by apply fine_ret].
  apply client_range_bounds in Hr as (Hab & Hb & _); [|cbn; by rewrite (proj1 Hs)]. cbn in Hab, Hb.
  apply fine_ask. intros now _. apply fine_ret. cbn. split; cbn; lia.
Qed.
Lemma fine_object_locked rq h key s0 :
  fine (object_locked persistent rq h key) s0 (λ s a, good_answer rq s a.1).
Proof.
  unfold object_locked. cbv zeta.
  eapply fine_then with (P := λ _, whole_cached); [apply _| |].
  { destruct (_ && _); [|by apply fine_ret]. apply fine_ask. intros found Hf. apply fine_ret.
    destruct found as [[x|]|]; [by apply Hf|done..]. }
  intros s1 cached _ Hc. eapply fine_then with (P := whatever); [apply _| |].
  { destruct cached; [apply fine_is_fresh|by apply fine_ret]. }
  intros s2 fresh _ _. destruct (_ && _); [by apply fine_ret|].
  eapply fine_then with (P := λ _, fetched_ok); [apply _| |].
  { destruct cached as [o|]; [|by apply fine_object_asked]. destruct fresh; [|by apply fine_object_asked].
    by apply fine_ret. }
  intros s3 [o|d url] _ Hf; [by apply fine_object_answer|]. apply fine_ret. by destruct d.
Qed.
Lemma fine_respond_object rq s0 : fine (respond_object persistent rq) s0 (λ s a, good_answer rq s a.1).
Proof.
  assert (stable (λ s (a : Delivered * U), good_answer rq s a.1)) as Hst.
  { intros s s' a HG. by apply stable_answer. }
  unfold respond_object. cbv zeta. eapply fine_then with (P := whatever); [apply _|by eapply goes_observe; [apply _|]|].
  intros s1 running _ _. eapply fine_then with (P := whatever); [apply _| |].
  { destruct running; [by apply (fine_tell _ _ whatever)|by apply fine_ret]. }
  intros s2 valid _ _. apply fine_needed; [done|]. intros _.
  eapply fine_then; [apply _|apply fine_acquire, calm_readers|]. intros s3 _ _ _.
  apply fine_kept; [apply calm_readers|exact Hst|].
  eapply fine_then; [apply _|apply fine_acquire, calm_buffers|]. intros s4 _ _ _.
  apply fine_kept; [apply calm_buffers|exact Hst|].
  apply fine_read. intros key _. apply fine_with_key; [exact Hst|]. intros s5 _. apply fine_object_locked.
Qed.

(** ** Whole threads *)

Lemma fine_delivery rq client s0 : fine (delivery persistent rq client) s0 (good_answer rq).
Proof.
  unfold delivery. destruct (negb _).
  { eapply fine_then; [apply _|apply fine_respond_object|]. intros s r _ Hr. by apply fine_ret. }
  assert (∀ s, fine (calmly (respond persistent rq client) : Fallible _) s
    (λ s (r : result Failure Delivered), match r with Ok d => good_answer rq s d | Err e => e ≠ Panic end)) as Hr.
  { intros s. eapply fine_calmly; [apply _|]. apply fine_respond. }
  assert (stable (λ s (r : result Failure Delivered), match r with Ok d => good_answer rq s d | Err e => e ≠ Panic end)) as Hst.
  { apply stable_result, stable_answer. }
  eapply fine_then; [apply _|apply Hr|]. intros s1 r HG1 Hr1.
  eapply fine_then with (P := λ s (r : result Failure Delivered), match r with Ok d => good_answer rq s d | Err e => e ≠ Panic end);
    [apply _| |].
  { destruct r as [d|[]]; try (by apply fine_ret); apply Hr. }
  intros s2 r' HG2 Hr2. destruct r' as [d|[]]; try (by apply fine_try).
Qed.
(** How a thread may end. *)
Notation Outcome := (Outcome (H := H) (U := U)).
Definition outcome_ok s (a : Outcome) : Prop :=
  match a with
  | Answered rq d frames =>
      match d with Streamed head rd => as_asked rq head rd | _ => True end ∧
      match frames with Ok frames => body_of s d frames | Err e => e ≠ Panic end
  | Refused e => e ≠ Panic
  | _ => True
  end.
Lemma stable_outcome : stable outcome_ok.
Proof.
  intros s s' [rq d [frames|e]|e|l|] HG; try done. cbn. intros [? ?]. split; [done|]. by eapply stable_body.
Qed.
Lemma calm_release_body d s : calm s (release_body d s).
Proof. by destruct d. Qed.
Lemma goes_deliver rq (c : Fallible Delivered) s0 : fine c s0 (good_answer rq) → goes (deliver rq c) s0 outcome_ok.
Proof.
  intros Hc. eapply goes_bind; [apply _|exact Hc|]. intros s1 [d|e] HG1 Hd; [|done].
  eapply goes_bind; [apply _| |].
  - apply goes_scoped; [apply _|by (apply calm_destroys; apply calm_release_body)|apply stable_result, stable_body|].
    by apply fine_body.
  - intros s2 frames _ Hfr. split; [|exact Hfr]. destruct d; try done. apply Hd.
Qed.
Lemma goes_file_lease client method path h s0 : goes (file_lease_response persistent client method path h) s0 whatever.
Proof.
  assert (∀ X (q : Question X) (f : X → option (Z * bool)), goes (r ← ask q ; mret (f r)) s0 whatever) as Hask.
  { intros X q f. split; [apply destroys_id; apply _|]. done. }
  unfold file_lease_response. repeat (case_match; try done); apply Hask.
Qed.
Lemma inv_cancel l : ∀ s, Inv s →
  grows s (foldr (λ d, on_download d cancel_download) s l) ∧ Inv (foldr (λ d, on_download d cancel_download) s l).
Proof.
  induction l as [|d l IH]; intros s HI; [done|]. destruct (IH s HI) as [HG HI']. cbn [foldr].
  destruct (inv_on_download _ d cancel_download HI') as [HG' HI'']; try done; [by left|].
  split; [by etrans|done].
Qed.
Lemma goes_invalidate p s0 : fine (invalidate persistent p) s0 whatever.
Proof.
  unfold invalidate. destruct (negb persistent); [by apply fine_ret|].
  eapply fine_then with (P := whatever); [apply _| |].
  - eapply fine_calmly; [apply _|]. eapply goes_update; [apply _|]. intros s _ HI.
    destruct (inv_cancel (filter (λ d, of_provider s p d = true) (seq 0 (length (sv_heap s)))) s HI). done.
  - intros s _ _ _. by apply (fine_call _ _ whatever).
Qed.
Lemma goes_shutdown s0 : goes shutdown s0 whatever.
Proof. eapply goes_update; [apply _|]. intros s _ HI. by destruct (calm_inv s (with_stop true s)). Qed.

(** ** The system *)

Notation plainly := (plainly Inv).
Lemma service_arrives (th : Thread State Outcome Question) s :
  arrives persistent th → thread_safe plainly grows honest (λ s a _, outcome_ok s a) s th ∅.
Proof.
  assert (∀ c : Code Outcome, goes c s outcome_ok →
    ∃ s0, grows s0 s ∧ safe_from plainly grows honest c s0 (∅ : gmultiset unit) (λ s a _, outcome_ok s a)) as Hth.
  { intros c Hc. exists s. split; [done|]. eapply safe_from_mono; [by apply goes_safe; [apply _|]|]. by intros s' a o [_ ?]. }
  intros Ha. destruct Ha as [rq client|rq r|client method path h|p|]; apply Hth.
  - apply goes_deliver, fine_delivery.
  - apply goes_deliver. eapply fine_then; [apply _|apply fine_acquire, calm_readers|]. intros s1 _ _ _. by apply fine_ret.
  - eapply goes_bind; [apply _|apply goes_file_lease|]. by intros s' r _ _.
  - eapply goes_bind; [apply _|apply goes_invalidate|]. by intros s' r _ _.
  - eapply goes_bind; [apply _|apply goes_shutdown|]. by intros s' r _ _.
Qed.
Lemma service_inv_start s s' th :
  start s = Some (s', th) → Inv s →
  grows s s' ∧ Inv s' ∧ ∃ tr, good_transfer s' tr ∧ th = mk_Thread (Some (_ ← transfer_task tr ; mret TaskDone)) true.
Proof.
  unfold start. intros Hs HI. apply bind_Some in Hs as ([n tr] & Hn & [= <- <-]). cbn [fst snd].
  apply list_find_Some in Hn as (Hn & _ & _).
  match goal with |- grows s ?s' ∧ _ => assert (grows s s') as HG by (split; [auto|eauto]) end.
  split; [done|]. split.
  - apply (inv_step s _ HI HG); cbn; auto. intros tr' [m Hm]%list_elem_of_lookup.
    apply alter_lookup in Hm as [Hm|(-> & y & Hy & ->)].
    + left. by eapply list_elem_of_lookup_2.
    + right. eapply good_transfer_later; [exact HG|]. change (good_transfer s y).
      eapply in_task; [done|]. by eapply list_elem_of_lookup_2.
  - exists tr. split; [|done]. eapply good_transfer_later; [exact HG|]. eapply in_task; [done|]. by eapply list_elem_of_lookup_2.
Qed.
#[export] Instance service_system :
  System plainly grows honest (λ s a (_ : gmultiset unit), outcome_ok s a) (arrives persistent) start env.
Proof.
  split.
  - intros s th. apply service_arrives.
  - intros s s' th O Hs HI. destruct (service_inv_start s s' th Hs HI) as (HG & HI' & tr & Htr & ->). split; [done|].
    exists ∅. split; [exact HI'|]. exists s'. split; [done|].
    eapply safe_from_mono; [apply goes_safe; [apply _|]|by intros s1 a o [_ ?]].
    eapply goes_bind; [apply _|by apply goes_transfer_task|]. by intros s1 a _ _.
  - intros s s' O Henv HI. destruct Henv as [s m Hsub].
    match goal with |- grows s ?s' ∧ _ => assert (grows s s') as HG by (split; [auto|eauto]) end.
    split; [done|]. apply (inv_step s _ HI HG); cbn; auto. intros id i b Hb. left. by eapply lookup_weaken.
  - apply _.
  - intros s s' a o HG. by apply stable_outcome.
Qed.
Lemma service_initial_inv : plainly initial (∅ : gmultiset unit).
Proof.
  split; cbn.
  - intros id i Hi. by rewrite lookup_empty in Hi.
  - intros id i b Hb. by rewrite lookup_empty in Hb.
  - done.
  - done.
  - intros tr Htr. by apply not_elem_of_nil in Htr.
  - intros e He. by apply not_elem_of_nil in He.
Qed.
End answers.
