(* ===== verification/Quiet.v ===== *)
(** * Resource cache: requests that are answered from the cache

    A client may forbid that the provider is asked ([only-if-cached]). [quiet] says of code that
    it asks no provider and spawns no download, whatever the shared state is and the world
    answers, as long as the clock shows one time: the code reads it twice, and that the two
    readings differ is the one way to the provider (see [ticking]). *)
From S2P Require Import Prelude Text Format HttpRange Policy Storage Packs Materialize Resource Delivery.
From S2P Require Import Threads Service.
From stdpp Require Import options.
#[local] Set Default Proof Using "Type*".

Open Scope Z_scope.
Open Scope list_scope.

Section quiet.
Context {H V U : Type} `{!HttpHeaders H V, !Urls U, !ServiceLib H V, D : Digest}.
Context (persistent : bool) (time : Z).
Notation State := (State (H := H) (U := U)).
Notation Question := (Question (H := H) (U := U)).
Notation Failure := (Failure (H := H)).
Notation ResourceRequest := (ResourceRequest (H := H) (U := U)).
Notation Delivered := (Delivered (H := H) (U := U)).
Notation Reader := (Reader (H := H) (U := U)).
Notation Code := (Threads.Code State Question).
Notation Fallible := (Threads.Fallible State Question Failure).
Implicit Types (s : State) (rq : ResourceRequest) (rd : Reader).

(** ** Quiet code *)

Definition of_provider_only {X} (q : Question X) : bool :=
  match q with Client _ | Send _ _ | Validate _ _ => true | _ => false end.
(** The clock stands still; anything else may be answered. *)
Definition still {X} (q : Question X) : X → Prop :=
  match q in Service.Question X return X → Prop with Now => λ now, now = time | _ => λ _, True end.
Definition spawns_nothing (d : State → State) : Prop := ∀ s, sv_tasks (d s) = sv_tasks s.
Fixpoint quiet {A} (c : Code A) (P : A → Prop) : Prop :=
  match c with
  | Ret a => P a
  | Act d m k => spawns_nothing d ∧ ∀ s b s', m s = Some (b, s') → sv_tasks s' = sv_tasks s ∧ quiet (k b) P
  | Ask q d k => spawns_nothing d ∧ of_provider_only q = false ∧ ∀ x, still q x → quiet (k x) P
  end.
Definition calm_if {A} (P : A → Prop) (r : result Failure A) : Prop := match r with Ok a => P a | Err _ => True end.
Notation hushed c P := (quiet (c : Fallible _) (calm_if P)).
Definition any {A} (a : A) : Prop := True.

Lemma quiet_mono {A} (c : Code A) (P P' : A → Prop) : quiet c P → (∀ a, P a → P' a) → quiet c P'.
Proof.
  induction c as [a|B d m k IH|X q d k IH]; cbn; intros Hc HP; [by apply HP|..].
  - destruct Hc as [Hd Hc]. split; [done|]. intros s b s' Hm. destruct (Hc s b s' Hm). eauto.
  - destruct Hc as (Hd & Hq & Hc). eauto.
Qed.
Lemma unasked_bind {A B} (c : Code A) (f : A → Code B) P R :
  quiet c P → (∀ a, P a → quiet (f a) R) → quiet (code_bind c f) R.
Proof.
  induction c as [a|B' d m k IH|X q d k IH]; cbn; intros Hc Hf; [by apply Hf|..].
  - destruct Hc as [Hd Hc]. split; [done|]. intros s b s' Hm. destruct (Hc s b s' Hm). eauto.
  - destruct Hc as (Hd & Hq & Hc). eauto.
Qed.
Lemma unasked_then {A B} (c : Fallible A) (f : A → Fallible B) P R :
  hushed c P → (∀ a, P a → quiet (f a) (calm_if R)) → hushed (c ≫= f) R.
Proof. intros Hc Hf. eapply unasked_bind; [exact Hc|]. intros [a|e]; [apply Hf|done]. Qed.
Lemma quiet_holding {A} (r : State → State) (c : Code A) P : spawns_nothing r → quiet c P → quiet (holding r c) P.
Proof.
  intros Hr. assert (∀ d, spawns_nothing d → spawns_nothing (r ∘ d)) as Hd.
  { intros d Hd s. unfold compose. by rewrite Hr, Hd. }
  induction c as [a|B d m k IH|X q d k IH]; cbn; intros Hc; [done|..].
  - destruct Hc as [Hdd Hc]. split; [by apply Hd|]. intros s b s' Hm. destruct (Hc s b s' Hm). split; [done|by apply IH].
  - destruct Hc as (Hdd & Hq & Hc). split_and!; [by apply Hd|done|auto].
Qed.
Lemma quiet_scoped {A} (r : State → State) (c : Code A) P : spawns_nothing r → quiet c P → quiet (scoped r c) P.
Proof.
  intros Hr Hc. eapply unasked_bind; [by apply quiet_holding|]. intros a Ha. split; [done|].
  intros s b s' [= <- <-]. by rewrite Hr.
Qed.
Lemma quiet_calmly {A} (c : Code A) P : quiet c P → hushed (calmly c) P.
Proof. intros Hc. eapply unasked_bind; [exact Hc|]. done. Qed.
Lemma quiet_tell {X} (q : Question X) (P : X → Prop) : 
  of_provider_only q = false → (∀ x, still q x → P x) → hushed (tell q) P.
Proof. intros Hq HP. apply quiet_calmly. by split. Qed.
Lemma quiet_call {X} (q : Question (result string X)) : of_provider_only q = false → hushed (call q) any.
Proof. intros Hq. split; [done|]. split; [done|]. by intros [x|e] _. Qed.
Lemma quiet_text {X} (r : result string X) (P : X → Prop) : (∀ x, r = Ok x → P x) → hushed (text r) P.
Proof. intros HP. destruct r; cbn; auto. Qed.
Lemma quiet_when {A} (m : State → option (result Failure A * State)) P :
  (∀ s b s', m s = Some (b, s') → sv_tasks s' = sv_tasks s ∧ calm_if P b) → hushed (when m) P.
Proof. by split. Qed.
Lemma unasked_observe {A} (f : State → result Failure A) P : (∀ s, calm_if P (f s)) → hushed (observe f) P.
Proof. intros Hf. apply quiet_when. by intros s b s' [= <- <-]. Qed.
Lemma unasked_update (f : State → State) : spawns_nothing f → hushed (calmly (update f)) any.
Proof. intros Hf. apply quiet_calmly. split; [done|]. by intros s b s' [= <- <-]. Qed.
Lemma quiet_require (b : bool) (e : Failure) : hushed (require b e) any.
Proof. unfold require, ensure. by destruct b. Qed.
Lemma unasked_ret {A} (a : A) (P : A → Prop) : P a → hushed (mret a) P.
Proof. done. Qed.
Lemma quiet_acquire (available : State → Z) (by_ : Z → State → State) :
  (∀ n, spawns_nothing (by_ n)) → hushed (acquire available by_) any.
Proof. intros Hb. apply quiet_when. intros s b s' Hm. destruct (sv_stop s); [by simplify_eq|].
  destruct (0 <? available s); [|done]. simplify_eq. by split; [apply Hb|].
Qed.
Lemma quiet_kept {A} (d : State → State) (keep : result Failure A → bool) (c : Fallible A) P :
  spawns_nothing d → hushed c P →
  hushed (r ← calmly (holding d c) ; (if keep r then mret tt else calmly (update d)) ;; try_ r) P.
Proof.
  intros Hd Hc. eapply unasked_then; [eapply quiet_calmly, quiet_holding; [done|exact Hc]|]. intros r Hr.
  eapply unasked_then with (P := any); [destruct (keep r); [done|by apply unasked_update]|]. done.
Qed.
Lemma quiet_with_key {A} key (c : Fallible A) P : hushed c P → hushed (with_key key c) P.
Proof.
  intros Hc. eapply unasked_then with (P := any); [|intros _ _; by apply quiet_scoped].
  apply quiet_when. intros s b s' Hm. case_bool_decide; by simplify_eq.
Qed.
Lemma quiet_assert_valid p : hushed (assert_valid p) any.
Proof. eapply unasked_then; [by apply (quiet_tell _ any)|]. intros b _. apply quiet_require. Qed.
Lemma quiet_assert_both_or e v p : hushed (assert_both_or e v p) any.
Proof.
  eapply unasked_then; [by apply (quiet_tell _ any)|]. intros b _. eapply unasked_then; [apply quiet_require|]. intros _ _.
  eapply unasked_then; [by apply (quiet_tell _ any)|]. intros b' _. apply quiet_require.
Qed.
Lemma quiet_assert_both v p : hushed (assert_both v p) any.
Proof. apply quiet_assert_both_or. Qed.
Lemma quiet_read_block v index : hushed (read_block v index) any.
Proof.
  eapply unasked_then; [by apply quiet_call|]. intros [] _; [by apply unasked_observe|done].
Qed.

(** ** The parts of the service that such a request runs *)

Context (rq : ResourceRequest) (Honly : only_cached (rq_headers rq) = true).

(** What may be answered. *)
Definition from_cache (d : Delivered) : Prop :=
  match d with
  | Passed _ | PassedObject _ _ => False
  | Streamed _ rd => rd_only_cached rd = true
  | _ => True
  end.
Lemma quiet_is_fresh p h : hushed (is_fresh p h) (λ b, b = fresh p h time).
Proof. eapply unasked_then; [by apply (quiet_tell _ (λ now, now = time))|]. by intros now ->. Qed.
Lemma quiet_fresh_version cached :
  hushed (fresh_version rq cached)
    (λ b, b = is_some_and cached (λ v, fresh (m_policy (ver_meta v)) (rq_headers rq) time)).
Proof. destruct cached; [apply quiet_is_fresh|done]. Qed.
Lemma quiet_lookup_version key : hushed (lookup_version key) any.
Proof.
  eapply unasked_then; [by apply quiet_call|]. intros [v|] _; [|done]. apply quiet_when. intros s b s' Hm.
  apply bind_Some in Hm as (i & _ & Hm). by case_match; simplify_eq.
Qed.
Lemma quiet_usable cached : hushed (usable rq cached) any.
Proof.
  destruct cached as [v|]; [|done]. eapply unasked_then; [by apply (quiet_tell _ any)|]. intros alive _.
  eapply unasked_then with (P := any); [by apply unasked_observe|]. intros b _. destruct (_ && _); [|done].
  eapply unasked_then; [by apply quiet_call|]. by intros [] _.
Qed.
Lemma quiet_local_file client v : hushed (local_file rq client v) any.
Proof.
  unfold local_file. destruct (negb _); [done|]. destruct (file_client_for _ _); [|done].
  eapply unasked_then; [by apply (quiet_tell _ any)|]. intros [[f|]|[]] _; try done.
  eapply unasked_then; [apply quiet_assert_both|]. done.
Qed.
Lemma quiet_find_download v position : hushed (find_download v position) any.
Proof.
  eapply unasked_then; [by apply (quiet_tell _ any)|]. intros [d|] _; [|done].
  apply quiet_when. intros s b s' Hm. by case_match; simplify_eq.
Qed.
Lemma quiet_open_reader h v part range : hushed (open_reader rq h v None part range) from_cache.
Proof.
  unfold open_reader. cbv zeta. rewrite Honly. eapply unasked_then; [by apply quiet_call|]. intros _ _.
  eapply unasked_then; [by apply quiet_call|]. intros covered _. destruct (negb covered); [done|].
  eapply unasked_then; [apply quiet_find_download|]. intros initial _.
  eapply unasked_then; [by apply (quiet_tell _ any)|]. intros now _.
  eapply unasked_then with (P := any); [destruct (m_ranges _); [done|by apply quiet_call]|]. intros ranges _.
  rewrite andb_false_r. eapply unasked_then with (P := any); [done|]. intros first _.
  eapply unasked_then; [apply quiet_assert_both|]. done.
Qed.
Lemma quiet_respond_version client h v part : hushed (respond_version rq client h v None part) from_cache.
Proof.
  unfold respond_version. destruct (not_modified _ _); [done|]. destruct (client_range _ _) as [range|]; [|done].
  eapply unasked_then; [apply quiet_local_file|]. intros [f|] _; [done|]. apply quiet_open_reader.
Qed.
Lemma quiet_respond_locked client h key : hushed (respond_locked rq client h key) from_cache.
Proof.
  unfold respond_locked. cbv zeta. rewrite Honly. cbn [andb].
  eapply unasked_then with (P := λ c, request_no_store (rq_headers rq) = true → c = None); [by destruct (request_no_store _); [|eapply quiet_mono; [apply quiet_lookup_version|by intros []]]|].
  intros cached Hbypass.
  eapply unasked_then with (P := λ c, request_no_store (rq_headers rq) = true → c = None).
  { destruct cached as [v|]; [|done]. eapply quiet_mono; [apply quiet_usable|]. intros [c|] _; [|done]. cbn. by intros ?%Hbypass. }
  clear Hbypass cached. intros cached Hbypass.
  eapply unasked_then; [apply quiet_fresh_version|]. intros ? ->.
  destruct cached as [v|]; [|done]. cbn [is_some_and].
  destruct (fresh _ _ time) eqn:Hfresh; [|done]. cbn [negb].
  destruct (request_no_store _); [by discriminate Hbypass|].
  rewrite bool_decide_false, andb_false_r by done. cbn [orb].
  eapply unasked_then; [apply quiet_fresh_version|]. intros ? ->. cbn [is_some_and]. rewrite Hfresh.
  eapply unasked_then with (P := λ c, c = Chosen_version v None (0, 0)); [done|]. intros ? ->.
  apply quiet_respond_version.
Qed.
Lemma quiet_respond client : hushed (respond persistent rq client) from_cache.
Proof.
  eapply unasked_then with (P := any); [apply unasked_observe; by intros s; destruct (sv_stop s)|]. intros _ _.
  eapply unasked_then; [by apply quiet_acquire|]. intros _ _. apply quiet_kept; [done|].
  eapply unasked_then; [apply quiet_assert_valid|]. intros _ _. cbv zeta. rewrite Honly.
  destruct (negb persistent); [done|]. eapply unasked_then with (P := any); [by apply quiet_text|]. intros key _.
  apply quiet_with_key, quiet_respond_locked.
Qed.
Lemma quiet_load_block rd index :
  rd_only_cached rd = true → hushed (load_block rd index) (λ rd', rd_only_cached rd' = true).
Proof.
  intros Hrd. unfold load_block. cbv zeta. rewrite Hrd. eapply unasked_then; [by apply quiet_call|]. intros _ _.
  eapply unasked_then; [apply quiet_read_block|]. by intros [b|] _.
Qed.
Lemma quiet_send v offset (bytes : list Z) : hushed (send v offset bytes) any.
Proof. eapply unasked_then; [by apply (quiet_tell _ any)|]. intros _ _. by apply unasked_update. Qed.
Lemma quiet_stream fuel : ∀ rd, rd_only_cached rd = true → hushed (stream fuel rd) any.
Proof.
  induction fuel as [|fuel IH]; intros rd Hrd; cbn [stream]; cbv zeta.
  all: eapply unasked_then with (P := any); [apply unasked_observe; by intros s; destruct (sv_stop s)|]; intros _ _.
  all: eapply unasked_then; [apply quiet_assert_both_or|]; intros _ _; destruct (_ =? _); [done|].
  { done. }
  eapply unasked_then with (P := any); [by apply unasked_observe|]. intros has _.
  eapply unasked_then with (P := λ rd', rd_only_cached rd' = true); [destruct (is_none_or _ _); [by apply quiet_load_block|done]|].
  intros rd' Hrd'. destruct (rd_block rd') as [[i bytes]|]; [|done].
  destruct (slice _ _ _) as [frame|]; [|done]. destruct (_ <=? _); [done|].
  eapply unasked_then; [apply quiet_send|]. intros _ _. eapply unasked_then; [by apply IH|]. done.
Qed.
Lemma quiet_memory p (bytes : list Z) fuel : ∀ range, hushed (memory_frames fuel p bytes range) any.
Proof.
  induction fuel as [|fuel IH]; intros range; cbn [memory_frames]; (destruct (_ =? _); [done|]); [done|].
  eapply unasked_then; [by apply (quiet_tell _ any)|]. intros valid _. destruct (negb valid); [done|].
  cbv zeta. destruct (slice _ _ _); [|done]. eapply unasked_then; [by apply (quiet_tell _ any)|]. intros _ _.
  eapply unasked_then; [apply IH|]. done.
Qed.
Lemma unasked_body d : from_cache d → hushed (body rq d) any.
Proof. destruct d; intros Hd; try done; [by apply quiet_stream|apply quiet_memory]. Qed.

(** Objects. *)
Lemma quiet_object_answer (o : ObjectMetadata * list Z) : hushed (object_answer rq o) (λ a, from_cache a.1).
Proof.
  unfold object_answer. cbv zeta. eapply unasked_then; [apply quiet_assert_valid|]. intros _ _.
  eapply unasked_then with (P := any); [by apply quiet_text|]. intros url _. destruct (not_modified _ _); [done|].
  eapply unasked_then; [by apply (quiet_tell _ any)|]. intros generation _.
  eapply unasked_then with (P := any); [by apply quiet_text|]. intros g _.
  destruct (client_range _ _) as [range|]; [|done]. eapply unasked_then; [by apply (quiet_tell _ any)|]. done.
Qed.
Lemma quiet_object_locked h key : hushed (object_locked persistent rq h key) (λ a, from_cache a.1).
Proof.
  unfold object_locked. cbv zeta. rewrite Honly. cbn [andb]. eapply unasked_then with (P := any).
  { destruct (_ && _); [|done]. eapply unasked_then; [by apply (quiet_tell _ any)|]. done. }
  intros cached _. destruct cached as [o|]; [|done].
  eapply unasked_then; [apply quiet_is_fresh|]. intros ? ->. destruct (fresh _ _ time); [|done]. cbn [negb].
  eapply unasked_then with (P := λ f, f = Have o); [done|]. intros ? ->. apply quiet_object_answer.
Qed.
Lemma quiet_respond_object : hushed (respond_object persistent rq) (λ a, from_cache a.1).
Proof.
  eapply unasked_then with (P := any); [by apply unasked_observe|]. intros running _.
  eapply unasked_then with (P := any); [destruct running; [by apply (quiet_tell _ any)|done]|]. intros valid _.
  eapply unasked_then; [apply quiet_require|]. intros _ _.
  eapply unasked_then; [by apply quiet_acquire|]. intros _ _. apply quiet_kept; [done|].
  eapply unasked_then; [by apply quiet_acquire|]. intros _ _. apply quiet_kept; [done|].
  cbv zeta. eapply unasked_then with (P := any); [by apply quiet_text|]. intros key _.
  apply quiet_with_key, quiet_object_locked.
Qed.
Lemma quiet_delivery client : hushed (delivery persistent rq client) from_cache.
Proof.
  unfold delivery. destruct (negb _).
  { eapply unasked_then; [apply quiet_respond_object|]. done. }
  eapply unasked_then with (P := calm_if from_cache); [by apply quiet_calmly, quiet_respond|].
  intros r Hr. eapply unasked_then with (P := calm_if from_cache).
  { destruct r as [d|[]]; try done; by apply quiet_calmly, quiet_respond. }
  intros r' Hr'. by destruct r' as [d|[]].
Qed.
End quiet.
