(* ===== verification/Responses.v ===== *)
(** * Resource cache: what the service promises

    The theorems about the whole service, over every interleaving of requests, downloads,
    invalidations and the shutdown, and an example. *)
From stdpp Require Import gmultiset.
From S2P Require Import Prelude Text Format HttpRange Policy Storage Packs Materialize Resource Delivery DeliveryFacts.
From S2P Require Import Threads Service Content Answers Quiet.
From stdpp Require Import options.
#[local] Set Default Proof Using "Type*".

Open Scope Z_scope.
Open Scope list_scope.

Section promises.
Context {H V U : Type} `{!HttpHeaders H V, !Urls U, !ServiceLib H V, D : Digest, !HttpHeadersLaws H V, W : !Servers H U}.
Context `{!OneRepresentation}.
Notation State := (State (H := H) (U := U)).
Notation Question := (Question (H := H) (U := U)).
Notation Outcome := (Outcome (H := H) (U := U)).
Notation ResourceRequest := (ResourceRequest (H := H) (U := U)).
Notation Run := (State * list (Thread State Outcome Question))%type.
Implicit Types (w : Run) (rq : ResourceRequest).

(** What the service can have come to, and the threads that have returned. *)
Definition state_of_service (persistent : bool) w : Prop :=
  reachable (A := Outcome) honest (arrives persistent) start env initial w.
Definition returned w (a : Outcome) : Prop := ∃ t d, w.2 !! t = Some (mk_Thread (Some (Ret a)) d).

Lemma service_inv persistent w : state_of_service persistent w → Inv w.1.
Proof.
  intros Hw. by destruct (system_inv _ _ _ _ _ _ _ initial w service_initial_inv Hw) as [O HO].
Qed.
Lemma service_outcome persistent w a : state_of_service persistent w → returned w a → outcome_ok w.1 a.
Proof.
  intros Hw (t & d & Ht).
  by destruct (returned_tokens _ _ _ _ (arrives persistent) start env w t a d
    (system_sound _ _ _ _ (arrives persistent) start env initial w service_initial_inv Hw) Ht) as (o & F & _ & Ho).
Qed.

(** C3. Versions are never mixed: every block in the storage or in the memory of a download,
    and every piece that was sent to a client, has the bytes, at their place, of the one
    representation that its version was created from, however the downloads that fetched
    them were started, resumed after a break or raced with each other. *)
Theorem versions_are_never_mixed persistent w :
  state_of_service persistent w →
  (∀ id i b, sv_stored w.1 !! (id, i) = Some b → ∃ o, origin w.1 id o ∧ block_of o i b) ∧
  (∀ d x i b, sv_heap w.1 !! d = Some x → dl_blocks x !! i = Some b →
     ∃ o, origin w.1 (dl_version x) o ∧ block_of o i b) ∧
  (∀ e, e ∈ sv_sent w.1 → ∃ o, origin w.1 (se_version e) o ∧
     slice (up_full o) (se_offset e) (se_offset e + zlen (se_data e)) = Some (se_data e)).
Proof.
  intros HI%service_inv. split_and!.
  - intros id i b. by apply in_stored.
  - intros d x i b. by apply in_buffered.
  - intros e. by apply in_sent.
Qed.

(** C4. A streamed answer that ends without an error has sent exactly the range that the
    request selects of one representation, the one stored under the request's own key, in
    frames of at most 64 KiB none of which is empty; and the head that went before is the head
    of that range. *)
Theorem streams_are_ranges persistent w rq head rd frames :
  state_of_service persistent w → returned w (Answered rq (Streamed head rd) (Ok frames)) →
  let m := ver_meta (rd_version rd) in
  ∃ o a b ranges now,
    origin w.1 (ver_id (rd_version rd)) o ∧ key_of rq = Ok (m_key m) ∧
    g_length (m_geometry m) = zlen (up_full o) ∧ client_range (rq_headers rq) m = Some (a, b) ∧
    head = stream_head (rq_headers rq) m (a, b) ranges now ∧
    slice (up_full o) a b = Some (concat frames) ∧ Forall (λ f, 0 < zlen f ≤ OUTPUT_BYTES) frames.
Proof.
  intros Hw Hret m.
  destruct (service_outcome _ _ _ Hw Hret) as [(Hkey & Hr & ranges & now & ->) (o & Ho & Hl & Hs & Hf)].
  by exists o, (rd_cursor rd), (rd_end rd), ranges, now.
Qed.

End promises.

Section local.
Context {H V U : Type} `{!HttpHeaders H V, !Urls U, !ServiceLib H V, D : Digest}.

(** C11. A request with [only-if-cached] is answered from the cache or refused (504): while the
    clock shows one time, the code that serves it asks the provider nothing and starts no
    download, neither for the answer nor while its body is sent, and it never passes an answer
    of the provider on. *)
Theorem only_cached_stays_local (persistent : bool) (rq : ResourceRequest (H := H) (U := U)) client time :
  only_cached (rq_headers rq) = true →
  quiet time (serve persistent rq client)
    (λ out, match out with Answered _ d _ => from_cache d | _ => True end).
Proof.
  intros Honly. eapply unasked_bind; [by apply quiet_delivery|]. intros [d|e] Hd; [|done].
  eapply unasked_bind; [apply quiet_scoped; [by destruct d|by apply unasked_body]|]. by intros frames _.
Qed.
End local.

(** ** An example *)

Module ServiceExample.
#[export] Instance address_urls : Urls string := {|
  url_parse s := Some s; url_str u := u; url_scheme u := "http"; url_username u := ""; url_password u := None;
  url_fragment u := None; url_path u := u; url_query u := None; url_same_origin u v := true;
  url_set_path p u := p; url_set_query q u := u; url_eqb u v := str_eqb u v; url_query_pairs u := [];
  url_extend_pairs pairs u := u |}.
Notation Map := (list (string * string)).
#[export] Instance plain_lib : ServiceLib Map string := {|
  hm_extend h k := fold_left (λ h kv, hm_insert kv.1 kv.2 h) k h;
  hv_bytes := bytes_of;
  key_json p scope url headers := Some (bytes_of (scope +:+ url)%string);
  file_url p := Some p;
  parse_uuid s := None |}.
#[export] Instance plain_digest : Digest := λ l, Ok (take 32 (l ++ replicate 32 0)).


(** A world with one representation, at one place. *)
Definition full : list Z := [10; 11; 12; 13; 14; 15; 16; 17; 18; 19].
#[export] Instance one_server : Servers Map string := λ r, up_full r = full.
#[export] Instance one_representation_world : OneRepresentation (H := Map) (V := string) (U := string).
Proof. intros p1 p2 r1 r2 t rv H1 H2 _ _ _ _ _. by rewrite (ge_served _ H1), (ge_served _ H2). Qed.
Definition response : Upstream Map string :=
  mk_Upstream 206
    [("content-range", "bytes 0-9/10"); ("etag", String dquote ("v" +:+ String dquote EmptyString)); ("cache-control", "max-age=60")]%string
    (Some 10) "http://host/a" [[10; 11; 12]; [13; 14; 15; 16; 17; 18; 19]] None full.
Definition song : PreparedResource Map string := mk_PreparedResource ByteRange "http://host/a" [] [].
Definition requesting (h : Map) : ResourceRequest := mk_ResourceRequest 1 1 "scope" song h.
Notation State := (State (H := Map) (U := string)).
Notation Question := (Question (H := Map) (U := string)).
Notation Outcome := (Outcome (H := Map) (U := string)).
Notation Run := (State * list (Thread State Outcome Question))%type.
Definition world (now : Z) (found : option Version) (X : Type) (q : Question X) : X :=
  match q in Service.Question X return X with
  | Valid _ | VersionValid _ | Alive _ => true
  | Client _ => Ok tt
  | Send _ _ | Validate _ _ => Ok response
  | Race => Arrives
  | Lookup _ => Ok found
  | IsComplete _ | Covered _ _ => Ok true
  | Update _ _ | Retire _ | Window _ _ _ | ReleaseFile _ _ | Invalidate _ => Ok tt
  | Create _ => Ok (1, 0%nat)
  | MissingRange _ range => Ok range
  | LocalFileOf _ _ => Ok None
  | Read _ _ => Ok true
  | Write _ blocks => (length blocks, None)
  | FindObject _ => Ok None
  | UpdateObject _ | RemoveObject _ | PutObject _ _ | Taken _ => tt
  | RenewFile _ _ => Ok true
  | Now => now
  | NewName => "generation"%string
  | Wakeups => 5%nat
  | Interruptions => [true]
  | Pick _ => None
  | ReadersGone _ => false
  | Slowest _ => Some 0
  end.
Lemma response_genuine : genuine response.
Proof.
  split; [done|by intros n [= <-]|].
  intros n a b Hg. assert (response_geometry response = Ok (Some (10, (0, 10)))) as He by (vm_compute; reflexivity).
  rewrite He in Hg. injection Hg as <- <- <-. split; [done|]. by exists [].
Qed.
Lemma world_honest now found X (q : Question X) : honest X q (world now found X q).
Proof. destruct q; cbn; try done; by intros ? [= <-]; apply response_genuine. Qed.

(** Runs: a request comes, a spawned download starts, a thread makes up to [n] steps. *)
Definition arriving (rq : ResourceRequest) (w : Run) : Run :=
  (w.1, w.2 ++ [mk_Thread (Some (serve true rq None)) true]).
Definition starting (w : Run) : Run :=
  match start w.1 with Some (s, th) => (s, w.2 ++ [th]) | None => w end.
Definition running (now : Z) (found : option Version) (t n : nat) (w : Run) : Run :=
  match w.2 !! t with
  | Some (mk_Thread (Some c) d) =>
      ((run_code (world now found) n c w.1).2, go t (Some (run_code (world now found) n c w.1).1) w.2)
  | _ => w
  end.
Lemma arrival_reached rq w : state_of_service true w → state_of_service true (arriving rq w).
Proof. intros Hw. eapply Next; [exact Hw|]. destruct w. apply Threads.Arrives. constructor. Qed.
Lemma task_reached w : state_of_service true w → state_of_service true (starting w).
Proof.
  intros Hw. unfold starting. destruct (start w.1) as [[s th]|] eqn:Hs; [|done].
  eapply Next; [exact Hw|]. destruct w. by apply Starts.
Qed.
Lemma progress_reached now found t n w : state_of_service true w → state_of_service true (running now found t n w).
Proof.
  intros Hw. unfold running. destruct (w.2 !! t) as [[[c|] d]|] eqn:Ht; [|done..].
  destruct (run_code _ n c w.1) as [c' s'] eqn:Hr. destruct w as [s l].
  eapply reachable_more; [exact Hw|]. eapply (run_code_steps (world now found)); [|done|done].
  apply world_honest.
Qed.
Definition started_state : Run := (initial, []).

(** A part of the song is asked for; its download runs; the part is sent. *)
Definition asking : Map := [("range", "bytes=2-5")]%string.
Definition asked_for : Run := running 1000 None 0 30 (arriving (requesting asking) started_state).
Definition downloaded : Run := running 1000 None 1 50 (starting asked_for).
Definition delivered : Run := running 1000 None 0 20 downloaded.
Lemma delivered_reached : state_of_service true delivered.
Proof.
  apply progress_reached, progress_reached, task_reached, progress_reached, arrival_reached. apply First.
Qed.
Definition the_end (w : Run) (t : nat) : option Outcome :=
  match (w.2 !! t) ≫= th_code with Some (Ret a) => Some a | _ => None end.
Definition all_of (w : Run) (t : nat) : option (Z * string * list (list Z)) :=
  match the_end w t with
  | Some (Answered _ (Streamed head rd) (Ok frames)) => l ← value head.2 "content-range" ; Some (head.1, l, frames)
  | _ => None
  end.
Lemma the_end_returned w t a : the_end w t = Some a → returned w a.
Proof.
  unfold the_end, returned. intros Ht. destruct (w.2 !! t) as [[[c|] d]|] eqn:Hl; [|done..].
  cbn in Ht. destruct c; try done. injection Ht as ->. by exists t, d.
Qed.
Lemma all_of_end w t st l frames : all_of w t = Some (st, l, frames) →
  ∃ rq head rd, the_end w t = Some (Answered rq (Streamed head rd) (Ok frames)) ∧ head.1 = st.
Proof.
  unfold all_of. destruct (the_end w t) as [[rq [] [fr|]| | |]|]; try done. intros Hl.
  destruct (value _ _); [|done]. cbn in Hl. injection Hl as <- <- <-. by do 3 eexists.
Qed.
Lemma delivered_part : all_of delivered 0 = Some (206, "bytes 2-5/10"%string, [[12; 13; 14; 15]]).
Proof. vm_compute. reflexivity. Qed.

Lemma delivered_sent : sv_sent delivered.1 = [mk_Sent 1 2 [12; 13; 14; 15]].
Proof. vm_compute. reflexivity. Qed.

(** A second request that forbids to ask, a second before the entry expires; the clock ticks
    between its two readings: the code asks the provider. *)
Definition quietly : Map := [("cache-control", "only-if-cached"); ("range", "bytes=2-5")]%string.
Definition found : option Version := (λ i, mk_Version 1 (vi_meta i) 0) <$> sv_versions delivered.1 !! 1.
Definition asks_first (c : Threads.Code State Question Outcome) : bool :=
  match c with @Ask _ _ _ X q _ _ => of_provider_only q | _ => false end.
Definition asks_provider (w : Run) (t : nat) : bool :=
  match (w.2 !! t) ≫= th_code with Some c => asks_first c | None => false end.
Definition ticking : Run := running 1060 found 2 5 (running 1059 found 2 9 (arriving (requesting quietly) delivered)).
Lemma clock_ticks_between :
  state_of_service true ticking ∧ only_cached quietly = true ∧ asks_provider ticking 2 = true ∧
  all_of (running 1059 found 2 40 (arriving (requesting quietly) delivered)) 2 =
    Some (206, "bytes 2-5/10"%string, [[12; 13; 14; 15]]).
Proof.
  split; [apply progress_reached, progress_reached, arrival_reached, delivered_reached|].
  split_and!; vm_compute; reflexivity.
Qed.

Lemma versions_are_never_mixed_witness :
  ∃ o, origin delivered.1 1 o ∧ slice (up_full o) 2 (2 + 4) = Some [12; 13; 14; 15].
Proof.
  apply (proj2 (proj2 (versions_are_never_mixed true delivered delivered_reached)) (mk_Sent 1 2 [12; 13; 14; 15])).
  rewrite delivered_sent. by left.
Defined.
Lemma streams_are_ranges_witness :
  ∃ (o : Upstream Map string) a b, slice (up_full o) a b = Some [12; 13; 14; 15].
Proof.
  destruct (all_of_end _ _ _ _ _ delivered_part) as (rq & head & rd & Hend & _).
  destruct (streams_are_ranges true delivered rq head rd [[12; 13; 14; 15]] delivered_reached
    (the_end_returned _ _ _ Hend)) as (o & a & b & _ & _ & _ & _ & _ & _ & _ & Hs & _).
  exists o, a, b. exact Hs.
Defined.
Lemma only_cached_stays_local_witness :
  only_cached quietly = true ∧
  quiet 1059 (serve true (requesting quietly) None)
    (λ out, match out with Answered _ d _ => from_cache d | _ => True end).
Proof. split; [vm_compute; reflexivity|]. apply only_cached_stays_local. vm_compute. reflexivity. Defined.
End ServiceExample.
