(* ===== verification/Registry.v ===== *)
(** * The registry of providers

    The part of [core/src/global.rs] that knows which provider object answers for an id, and the
    stamps by which a login is told from the next one. *)
From S2P Require Import Prelude Text.
From stdpp Require Import gmap.
From stdpp Require Import options.
#[local] Set Default Proof Using "Type*".

Open Scope Z_scope.
Open Scope list_scope.

(** Provider objects are numbers; [rg_epochs] are their [lifecycle_epoch]s, 0 at first. *)
Record Registry := mk_Registry {
  rg_providers : gmap Z nat; rg_epochs : gmap nat Z; rg_stamps : gmap Z (Z * Z); rg_next : Z
}.
Definition epoch_of (g : Registry) (p : nat) : Z := opt_default 0 (rg_epochs g !! p).
(** [invalidate] of a provider, or the begin of a session: its epoch grows. The code's [AtomicU64]
    wraps after 2^64 of them, which the model leaves out. *)
Definition new_epoch (p : nat) (g : Registry) : Registry :=
  mk_Registry (rg_providers g) (<[p := epoch_of g p + 1]> (rg_epochs g)) (rg_stamps g) (rg_next g).
Definition with_stamps (m : gmap Z (Z * Z)) (next : Z) (g : Registry) : Registry :=
  mk_Registry (rg_providers g) (rg_epochs g) m next.
Definition with_providers (m : gmap Z nat) (g : Registry) : Registry :=
  mk_Registry m (rg_epochs g) (rg_stamps g) (rg_next g).

Definition provider (id : Z) (g : Registry) : option nat := rg_providers g !! id.
(** The provider and its stamp; [Err] is the panic when all stamps are used. *)
Definition provider_snapshot (id : Z) (g : Registry) : result string (option (nat * Z)) * Registry :=
  match rg_providers g !! id with
  | None => (Ok None, g)
  | Some p =>
      let epoch := epoch_of g p in
      match rg_stamps g !! id with
      | Some (known, stamp) =>
          if known =? epoch then (Ok (Some (p, stamp)), g)
          else match checked_add (rg_next g) 1 with
               | None => (Err "provider stamp exhausted"%string, g)
               | Some next => (Ok (Some (p, next)), with_stamps (<[id := (epoch, next)]> (rg_stamps g)) next g)
               end
      | None =>
          match checked_add (rg_next g) 1 with
          | None => (Err "provider stamp exhausted"%string, g)
          | Some next => (Ok (Some (p, next)), with_stamps (<[id := (epoch, next)]> (rg_stamps g)) next g)
          end
      end
  end.
Definition retired (p : option nat) (g : Registry) : Registry :=
  match p with Some p => new_epoch p g | None => g end.
Definition add_provider (id : Z) (p : nat) (g : Registry) : Registry :=
  retired (rg_providers g !! id)
    (with_providers (<[id := p]> (rg_providers g)) (with_stamps (delete id (rg_stamps g)) (rg_next g) g)).
Definition remove_provider (id : Z) (g : Registry) : Registry :=
  retired (rg_providers g !! id)
    (with_providers (delete id (rg_providers g)) (with_stamps (delete id (rg_stamps g)) (rg_next g) g)).
Definition no_providers : Registry := mk_Registry ∅ ∅ ∅ 0.

(** ** Histories *)

(** A snapshot that was taken: the id, the object, its epoch then, and the stamp. *)
Record Snapshot := mk_Snapshot { sn_id : Z; sn_provider : nat; sn_epoch : Z; sn_stamp : Z }.
Inductive history : Registry → list Snapshot → Prop :=
| H_start : history no_providers []
| H_snapshot g l id p stamp g' :
    history g l → provider_snapshot id g = (Ok (Some (p, stamp)), g') →
    history g' (l ++ [mk_Snapshot id p (epoch_of g p) stamp])
| H_none g l id r g' : history g l → provider_snapshot id g = (r, g') → (∀ x, r ≠ Ok (Some x)) → history g' l
| H_add g l id p : history g l → history (add_provider id p g) l
| H_remove g l id : history g l → history (remove_provider id g) l
| H_epoch g l p : history g l → history (new_epoch p g) l.

(** What anybody does to the registry. *)
Inductive registry_step : relation Registry :=
| R_snapshot g id r g' : provider_snapshot id g = (r, g') → registry_step g g'
| R_add g id p : registry_step g (add_provider id p g)
| R_remove g id : registry_step g (remove_provider id g)
| R_epoch g p : registry_step g (new_epoch p g).
Lemma history_steps g g' l : history g l → rtc registry_step g g' → ∃ l', history g' (l ++ l').
Proof.
  intros Hl Hs. revert l Hl. induction Hs as [g|g g1 g' Hs _ IH]; intros l Hl; [exists []; by rewrite app_nil_r|].
  destruct Hs as [g id [[[p n]|]|e] g1 Hs|g id p|g id|g p].
  - destruct (IH _ (H_snapshot _ _ _ _ _ _ Hl Hs)) as [l' Hl']. rewrite <-app_assoc in Hl'. eauto.
  - eapply IH, H_none; [done|done|]. by intros ?.
  - eapply IH, H_none; [done|done|]. by intros ?.
  - by apply IH, H_add.
  - by apply IH, H_remove.
  - by apply IH, H_epoch.
Qed.

Lemma snapshot_epochs id g r g' : provider_snapshot id g = (r, g') → rg_epochs g' = rg_epochs g.
Proof. unfold provider_snapshot. intros Hs. repeat case_match; by simplify_eq. Qed.
Lemma snapshot_provider id g p n g' :
  provider_snapshot id g = (Ok (Some (p, n)), g') → provider id g = Some p ∧ provider id g' = Some p.
Proof. unfold provider_snapshot, provider. intros Hs. repeat case_match; by simplify_eq. Qed.
Lemma new_epoch_grows p q g : epoch_of g q ≤ epoch_of (new_epoch p g) q.
Proof.
  unfold epoch_of, new_epoch. cbn. destruct (decide (p = q)) as [->|Hne].
  - rewrite lookup_insert_eq. cbn. unfold epoch_of. lia.
  - by rewrite lookup_insert_ne.
Qed.
(** Epochs grow. *)
Lemma epochs_grow g g' p : rtc registry_step g g' → epoch_of g p ≤ epoch_of g' p.
Proof.
  induction 1 as [g|g g1 g' Hs _ IH]; [done|]. etrans; [|exact IH].
  destruct Hs as [g id r g1 Hs|g id q|g id|g q].
  - unfold epoch_of. by rewrite (snapshot_epochs _ _ _ _ Hs).
  - unfold add_provider. destruct (rg_providers g !! id) as [o|]; [apply (new_epoch_grows o)|done].
  - unfold remove_provider. destruct (rg_providers g !! id) as [o|]; [apply (new_epoch_grows o)|done].
  - apply new_epoch_grows.
Qed.

(** What is known of the stamps: they were given out, to one id each, for the object that answers
    for it now; and everything that was given out agrees with what is stored. *)
Record ordered (g : Registry) (l : list Snapshot) : Prop := {
  or_stamps id e n : rg_stamps g !! id = Some (e, n) → 0 ≤ n ≤ rg_next g ∧ is_Some (rg_providers g !! id);
  or_unique id id' e e' n : rg_stamps g !! id = Some (e, n) → rg_stamps g !! id' = Some (e', n) → id = id';
  or_past x : x ∈ l → sn_stamp x ≤ rg_next g;
  or_now x id e : x ∈ l → rg_stamps g !! id = Some (e, sn_stamp x) →
    sn_id x = id ∧ rg_providers g !! id = Some (sn_provider x) ∧ sn_epoch x = e;
  or_agree x y : x ∈ l → y ∈ l → sn_stamp x = sn_stamp y →
    sn_id x = sn_id y ∧ sn_provider x = sn_provider y ∧ sn_epoch x = sn_epoch y;
}.
Lemma ordered_retired g l p : ordered g l → ordered (retired p g) l.
Proof. destruct p; [|done]. by intros []. Qed.
(** Without its stamp, an id may change hands. *)
Lemma ordered_change g l id m :
  ordered g l → (∀ i, i ≠ id → m !! i = rg_providers g !! i) →
  ordered (with_providers m (with_stamps (delete id (rg_stamps g)) (rg_next g) g)) l.
Proof.
  intros [Hs Hu Hp Hn Ha] Hm. split; cbn; try done.
  - intros i e n [Hne Hi]%lookup_delete_Some. rewrite Hm by done. eauto.
  - intros i i' e e' n [_ Hi]%lookup_delete_Some [_ Hi']%lookup_delete_Some. eauto.
  - intros x i e Hx [Hne Hi]%lookup_delete_Some. rewrite Hm by done. eauto.
Qed.
Lemma ordered_next g l id p e n :
  ordered g l → rg_providers g !! id = Some p → checked_add (rg_next g) 1 = Some n → 0 ≤ rg_next g →
  ordered (with_stamps (<[id := (e, n)]> (rg_stamps g)) n g) l ∧
  ordered (with_stamps (<[id := (e, n)]> (rg_stamps g)) n g) (l ++ [mk_Snapshot id p e n]).
Proof.
  intros [Hs Hu Hp Hn Ha] Hid Hadd H0. assert (n = rg_next g + 1) as ->.
  { unfold checked_add in Hadd. by case_match; simplify_eq. }
  set (n := rg_next g + 1) in *.
  assert (∀ x, x ∈ l → sn_stamp x ≠ n) as Hfresh by (intros x Hx%Hp; lia).
  assert (∀ i e', rg_stamps g !! i = Some (e', n) → False) as Hnew.
  { intros i e' Hi. destruct (Hs i e' n Hi). lia. }
  assert (ordered (with_stamps (<[id := (e, n)]> (rg_stamps g)) n g) l) as Ho.
  { split; cbn.
    - intros i e' k [[<- [= <- <-]]|[_ Hi]]%lookup_insert_Some; [split; [lia|done]|].
      destruct (Hs _ _ _ Hi). split; [lia|done].
    - intros i i' e1 e2 k Hi Hi'. apply lookup_insert_Some in Hi as [[<- [= <- <-]]|[_ Hi]];
        apply lookup_insert_Some in Hi' as [[<- Hk]|[_ Hi']]; [done|by exfalso; eapply Hnew| |by eapply Hu].
      simplify_eq. by exfalso; eapply Hnew.
    - intros x Hx%Hp. lia.
    - intros x i e' Hx [[<- [= <- Hk]]|[_ Hi]]%lookup_insert_Some; [by destruct (Hfresh x Hx)|eauto].
    - exact Ha. }
  split; [done|]. destruct Ho as [Hs' Hu' Hp' Hn' Ha']. split; try done.
  - intros x [Hx| ->%list_elem_of_singleton]%elem_of_app; [by apply Hp'|]. cbn. lia.
  - intros x i e' [Hx| ->%list_elem_of_singleton]%elem_of_app Hi; [by apply Hn'|]. cbn in *.
    apply lookup_insert_Some in Hi as [[<- [= <-]]|[_ Hi]]; [done|by exfalso; eapply Hnew].
  - intros x y [Hx| ->%list_elem_of_singleton]%elem_of_app [Hy| ->%list_elem_of_singleton]%elem_of_app Heq; cbn in *.
    + by apply Ha.
    + by destruct (Hfresh x Hx).
    + by destruct (Hfresh y Hy).
    + done.
Qed.
Lemma ordered_again g l id p e n :
  ordered g l → rg_providers g !! id = Some p → rg_stamps g !! id = Some (e, n) →
  ordered g (l ++ [mk_Snapshot id p e n]).
Proof.
  intros [Hs Hu Hp Hn Ha] Hid Hst. destruct (Hs _ _ _ Hst) as [? _]. split; try done.
  - intros x [Hx| ->%list_elem_of_singleton]%elem_of_app; [by apply Hp|]. cbn. lia.
  - intros x i e' [Hx| ->%list_elem_of_singleton]%elem_of_app Hi; [by apply Hn|]. cbn in *.
    assert (i = id) as -> by by eapply Hu. by simplify_eq.
  - intros x y [Hx| ->%list_elem_of_singleton]%elem_of_app [Hy| ->%list_elem_of_singleton]%elem_of_app Heq; cbn in *.
    + by apply Ha.
    + rewrite <-Heq in Hst. destruct (Hn x id e Hx Hst) as (? & ? & ?). by simplify_eq.
    + rewrite Heq in Hst. destruct (Hn y id e Hy Hst) as (? & ? & ?). by simplify_eq.
    + done.
Qed.
Lemma history_ordered g l : history g l → ordered g l ∧ 0 ≤ rg_next g.
Proof.
  induction 1 as [|g l id p stamp g' _ [Ho H0] Hs|g l id r g' _ [Ho H0] Hs Hr|g l id p _ [Ho H0]|g l id _ [Ho H0]|g l p _ [Ho H0]].
  - split; [|done]. split; cbn; try done; intros *; rewrite ?lookup_empty; try done; by intros ?%not_elem_of_nil.
  - unfold provider_snapshot in Hs. destruct (rg_providers g !! id) as [q|] eqn:Hid; [|done].
    assert (∀ n, checked_add (rg_next g) 1 = Some n → 0 ≤ n) as Hpos.
    { intros n Hn. unfold checked_add in Hn. case_match; simplify_eq. lia. }
    destruct (rg_stamps g !! id) as [[known n]|] eqn:Hst; [destruct (Z.eqb_spec known (epoch_of g q)) as [He|He]|].
    + simplify_eq. split; [|done]. eapply ordered_again; [done..|]. by rewrite Hst.
    + destruct (checked_add (rg_next g) 1) as [n'|] eqn:Hn; [|done]. simplify_eq.
      split; [by eapply ordered_next|by apply Hpos].
    + destruct (checked_add (rg_next g) 1) as [n'|] eqn:Hn; [|done]. simplify_eq.
      split; [by eapply ordered_next|by apply Hpos].
  - assert (g' = g) as ->; [|done]. unfold provider_snapshot in Hs.
    repeat case_match; simplify_eq; try done; by edestruct Hr.
  - split; [|unfold add_provider; by destruct (rg_providers g !! id)]. apply ordered_retired, ordered_change; [done|].
    intros i Hne. by rewrite lookup_insert_ne.
  - split; [|unfold remove_provider; by destruct (rg_providers g !! id)]. apply ordered_retired, ordered_change; [done|].
    intros i Hne. by rewrite lookup_delete_ne.
  - split; [by apply (ordered_retired g l (Some p))|done].
Qed.

(** A stamp that is seen again: nobody logged in anew meanwhile. *)
Lemma same_stamp g l id id' p p' n a b c :
  history g l → provider_snapshot id g = (Ok (Some (p, n)), a) → rtc registry_step a b →
  provider_snapshot id' b = (Ok (Some (p', n)), c) →
  id = id' ∧ p = p' ∧ epoch_of g p = epoch_of b p'.
Proof.
  intros Hl Ha Hab Hb. pose proof (H_snapshot _ _ _ _ _ _ Hl Ha) as Hla.
  destruct (history_steps _ _ _ Hla Hab) as [l' Hlb]. pose proof (H_snapshot _ _ _ _ _ _ Hlb Hb) as Hlc.
  destruct (history_ordered _ _ Hlc) as [Ho _].
  apply (or_agree _ _ Ho (mk_Snapshot id p (epoch_of g p) n) (mk_Snapshot id' p' (epoch_of b p') n)); [..|done].
  - rewrite !elem_of_app. do 2 left. right. by apply list_elem_of_singleton.
  - rewrite elem_of_app. right. by apply list_elem_of_singleton.
Qed.

(** C16. A stamp names one login: whenever two snapshots, at any two times, have the same stamp,
    they are of the same id, the same provider object and the same lifecycle epoch of it; and as
    long as the stamp is the current one, that object still answers for the id. *)
Theorem stamps_name_logins g l x y :
  history g l → x ∈ l → y ∈ l → sn_stamp x = sn_stamp y →
  sn_id x = sn_id y ∧ sn_provider x = sn_provider y ∧ sn_epoch x = sn_epoch y ∧
  ∀ e, rg_stamps g !! sn_id x = Some (e, sn_stamp x) → provider (sn_id x) g = Some (sn_provider x).
Proof.
  intros [Ho _]%history_ordered Hx Hy Heq. destruct (or_agree _ _ Ho x y Hx Hy Heq) as (? & ? & ?).
  split_and!; [done..|]. intros e He. by destruct (or_now _ _ Ho x _ _ Hx He) as (_ & ? & _).
Qed.

(** ** An example *)

Definition looking (id : Z) (w : Registry * list Snapshot) : Registry * list Snapshot :=
  match provider_snapshot id w.1 with
  | (Ok (Some (p, stamp)), g) => (g, w.2 ++ [mk_Snapshot id p (epoch_of w.1 p) stamp])
  | (_, g) => (g, w.2)
  end.
Lemma looking_happens id w : history w.1 w.2 → history (looking id w).1 (looking id w).2.
Proof.
  intros Hw. unfold looking. destruct (provider_snapshot id w.1) as [[[[p n]|]|e] g] eqn:Hs.
  - by eapply H_snapshot.
  - by eapply H_none.
  - by eapply H_none.
Qed.
Definition changing (f : Registry → Registry) (w : Registry * list Snapshot) : Registry * list Snapshot := (f w.1, w.2).
(** Provider 7 logs in twice, and is replaced. *)
Definition logins : Registry * list Snapshot :=
  looking 7 (changing (add_provider 7 2) (looking 7 (changing (new_epoch 1)
    (looking 7 (looking 7 (changing (add_provider 7 1) (no_providers, []))))))).
Lemma logins_happen : history logins.1 logins.2.
Proof.
  apply looking_happens, H_add, looking_happens, H_epoch, looking_happens, looking_happens, H_add, H_start.
Qed.
Lemma logins_seen : logins.2 =
  [mk_Snapshot 7 1 0 1; mk_Snapshot 7 1 0 1; mk_Snapshot 7 1 1 2; mk_Snapshot 7 2 0 3].
Proof. vm_compute. reflexivity. Qed.
Lemma stamps_name_logins_witness :
  provider 7 logins.1 = Some (sn_provider (mk_Snapshot 7 2 0 3)).
Proof.
  assert (mk_Snapshot 7 2 0 3 ∈ logins.2) as Hin by (rewrite logins_seen; do 3 right; by left).
  destruct (stamps_name_logins logins.1 logins.2 _ _ logins_happen Hin Hin eq_refl) as (_ & _ & _ & Hp).
  apply (Hp 0). vm_compute. reflexivity.
Defined.
