(* ===== verification/Comments.v ===== *)
(** * Comments on the items of providers

    [main/src/comments.rs] with the pages of [core/src/provider/comment.rs], the item behind an
    identifier ([main/src/provider_item.rs]) as it is resolved against the registry, the requests
    of [process_qcm.rs] that ask for comments, and the errors they answer with
    ([main/src/error.rs]). The functions are [Code] over the registry of [Registry.v]: every look
    at it is an action of its own, and the database and the provider are asked. *)
From S2P Require Import Prelude Text Tables Threads Registry.
From stdpp Require Import gmap.
From stdpp Require Import options.
#[local] Set Default Proof Using "Type*".

Open Scope Z_scope.
Open Scope list_scope.

(** ** Errors *)

(** Of a provider; the variant [Infallible] has no values. *)
Inductive ProviderError :=
| PInternal (message : string) | IO (message : string) | Serde (message : string)
| PParseSubtitle (message : string) | Lua (message : string) | External (message : string)
| WithContext (context : string) (err : ProviderError)
| PNotAuth | PAuthRequired (message : string) (jump_url : option string)
| UnknownBase | RequestFailed (message : string) | BadUuid (message : string)
| PNotFound | PNotImplemented | PDb (e : DbErr).
(** The variants of [ProcessError] these requests answer with. *)
Inductive ProcessError :=
| NotAuth | AuthRequired (message : string) (jump_url : option string)
| Internal (message : string) | InternalProvider (e : ProviderError)
| MissingFields (what : string) | DbError (e : DbErr)
| WrongId (id : string) | NoSuchProvider (id : string) | NoSuchMix (id : string)
| NoSuchItemType (kind : string) | ParseSubtitle (message : string) | NotFound | NotImplemented.

Fixpoint cause (e : ProviderError) : ProviderError :=
  match e with WithContext _ err => cause err | e => e end.
(** Without the lines for the log. *)
Definition from_provider_error (e : ProviderError) : ProcessError :=
  match cause e with
  | PNotFound => NotFound
  | PNotAuth => NotAuth
  | PAuthRequired message jump_url => AuthRequired message jump_url
  | PParseSubtitle message => ParseSubtitle message
  | _ => InternalProvider e
  end.
Definition error (e : ProviderError) : ProcessError :=
  match cause e with PNotImplemented => NotImplemented | _ => from_provider_error e end.

(** An early return, or a panic. *)
Inductive Stop := Fails (e : ProcessError) | Panics (message : string).

(** ** Pages of a provider *)

Inductive CommentOrder := Hot | Latest.
#[export] Instance CommentOrder_eq_dec : EqDecision CommentOrder.
Proof. solve_decision. Defined.
Record CommentTarget := mk_CommentTarget { ct_native_id : string; ct_item_type : ItemType.t }.
Record CommentPageRequest := mk_CommentPageRequest {
  pr_order : CommentOrder; pr_state : option string; pr_limit : Z
}.
Record CommentAuthor := mk_CommentAuthor {
  ca_id : string; ca_name : string; ca_avatar_url : option string
}.
Record CommentQuote := mk_CommentQuote {
  cq_id : string; cq_author : CommentAuthor; cq_content : string; cq_deleted : bool
}.
Inductive Comment := mk_Comment {
  co_id : string; co_author : CommentAuthor; co_content : string; co_time_ms : option Z;
  co_liked : option bool; co_like_count : option Z; co_reply_count : option Z;
  co_deleted : bool; co_quote : option CommentQuote; co_previews : list Comment
}.
Record CommentPage := mk_CommentPage {
  cp_comments : list Comment; cp_order : CommentOrder; cp_orders : list CommentOrder;
  cp_total : option Z; cp_has_more : bool; cp_next_state : option string;
  cp_can_reply : bool; cp_can_like : bool
}.
Record CommentLikeResult := mk_CommentLikeResult { lr_liked : bool; lr_like_count : option Z }.

(** What a page's validation reads of a [reqwest::Url]. *)
Record Url := mk_Url {
  url_scheme : string; url_host_str : option string; url_username : string; url_password : option string
}.

Section validation.
(** [reqwest::Url::parse]. *)
Context (url_parse : string → option Url).

Definition valid_author (value : CommentAuthor) : bool :=
  is_none_or (ca_avatar_url value) (λ url, is_some_and (url_parse url) (λ url,
    (str_eqb (url_scheme url) "http" || str_eqb (url_scheme url) "https") &&
    bool_decide (is_Some (url_host_str url)) &&
    is_empty (url_username url) && bool_decide (url_password url = None))).
Fixpoint valid_comment (depth : Z) (value : Comment) : bool :=
  negb (is_empty (co_id value)) && (slen (co_id value) <=? 256) && valid_author (co_author value) &&
  is_none_or (co_time_ms value) (λ time, 0 <=? time) &&
  is_none_or (co_quote value) (λ quote, valid_author (cq_author quote)) &&
  (zlen (co_previews value) <=? 3) &&
  (bool_decide (co_previews value = []) || (depth <? 1)) &&
  forallb (valid_comment (depth + 1)) (co_previews value).
Definition validate (page : CommentPage) (request : CommentPageRequest) : result ProviderError unit :=
  if (pr_limit request <? zlen (cp_comments page)) ||
     negb (bool_decide (cp_order page = pr_order request)) ||
     negb (bool_decide (cp_order page ∈ cp_orders page)) ||
     negb (Bool.eqb (cp_has_more page) (is_some_and (cp_next_state page) (λ value, negb (is_empty value)))) ||
     is_some_and (cp_next_state page) (λ value,
       (8192 <? slen value) || bool_decide (Some value = pr_state request)) ||
     (cp_has_more page && bool_decide (cp_comments page = [])) ||
     negb (forallb (valid_comment 0) (cp_comments page))
  then Err (PInternal "invalid comment page") else Ok tt.
End validation.

(** ** Messages *)

Record WireAuthor := mk_WireAuthor { wa_id : string; wa_name : string; wa_avatar_url : option string }.
Record WireQuote := mk_WireQuote {
  wq_id : string; wq_author : option WireAuthor; wq_content : string; wq_deleted : bool
}.
Inductive WireComment := mk_WireComment {
  wc_id : string; wc_author : option WireAuthor; wc_content : string; wc_time_ms : option Z;
  wc_liked : option bool; wc_like_count : option Z; wc_reply_count : option Z;
  wc_deleted : bool; wc_quote : option WireQuote; wc_previews : list WireComment
}.
Record WirePage := mk_WirePage {
  wp_comments : list WireComment; wp_order : Z; wp_orders : list Z; wp_total : option Z;
  wp_has_more : bool; wp_next_token : option string; wp_can_reply : bool; wp_can_like : bool
}.
Record CommentsResult := mk_CommentsResult {
  rs_supported : bool; rs_scope : string; rs_provider_id : option Z; rs_epoch : Z; rs_page : option WirePage
}.
Definition unsupported : CommentsResult := mk_CommentsResult false "" None 0 None.
Record GetCommentsReq := mk_GetCommentsReq {
  rq_id : Z; rq_item_type : Z; rq_order : Z; rq_token : option string; rq_limit : Z
}.
Record GetCommentRepliesReq := mk_GetCommentRepliesReq {
  rr_query : option GetCommentsReq; rr_parent_id : string; rr_scope : string
}.
Record SetCommentLikeReq := mk_SetCommentLikeReq {
  sl_id : Z; sl_item_type : Z; sl_comment_id : string; sl_value : bool; sl_scope : string
}.

Definition order (value : Z) : result Stop CommentOrder :=
  if value =? 0 then Ok Latest else if value =? 1 then Ok Hot
  else Err (Fails (MissingFields "comment order")).
Definition wire_order (value : CommentOrder) : Z := match value with Hot => 1 | Latest => 0 end.
Definition author (value : CommentAuthor) : WireAuthor :=
  mk_WireAuthor (ca_id value) (ca_name value) (ca_avatar_url value).
Definition wire_quote (value : CommentQuote) : WireQuote :=
  mk_WireQuote (cq_id value) (Some (author (cq_author value))) (cq_content value) (cq_deleted value).
Fixpoint comment (value : Comment) : WireComment :=
  mk_WireComment (co_id value) (Some (author (co_author value))) (co_content value) (co_time_ms value)
    (co_liked value) (co_like_count value) (co_reply_count value) (co_deleted value)
    (wire_quote <$> co_quote value) (map comment (co_previews value)).
Definition wire_page (page : CommentPage) (next_token : option string) : WirePage :=
  mk_WirePage (map comment (cp_comments page)) (wire_order (cp_order page))
    (map wire_order (cp_orders page)) (cp_total page) (cp_has_more page) next_token
    (cp_can_reply page) (cp_can_like page).

(** ** Scopes and tokens *)

Definition show_i64 (n : Z) : string := if n <? 0 then "-" +:+ show_u64 (- n) else show_u64 n.

(** An item and the provider that answers for it. *)
Record ProviderItem := mk_ProviderItem { pi_id : Z; pi_item : Item; pi_provider : nat }.
(** What a scope is the digest of. *)
Record Identity := mk_Identity {
  id_instance : string; id_epoch : Z; id_provider : Z; id_item : Z; id_native : string; id_type : Z
}.
#[export] Instance Identity_eq_dec : EqDecision Identity.
Proof. solve_decision. Defined.
Record Token := mk_Token {
  tk_scope : string; tk_id : Z; tk_kind : Z; tk_order : Z; tk_parent : option string;
  tk_limit : Z; tk_state : string
}.
(** [serde_json] of the two, the digest and the base 64 behind [qcm_core::crypto], and
    [INSTANCE], which is drawn when the program starts. *)
Class Codec := {
  instance : string;
  to_vec : Identity → result string (list Z);
  sha256 : list Z → result string (list Z);
  encode_block : list Z → string;
  to_string : Token → result string string;
  from_str : string → option Token;
}.

(** What is asked of the database and of a provider. *)
Inductive Question : Type → Type :=
| FindMix (id : Z) : Question (result DbErr (option Mix))
| FindItem (id : Z) : Question (result DbErr (option Item))
| Comments (p : nat) (target : CommentTarget) (request : CommentPageRequest)
    : Question (result ProviderError (option CommentPage))
| CommentReplies (p : nat) (target : CommentTarget) (parent : string) (request : CommentPageRequest)
    : Question (result ProviderError (option CommentPage))
| SetCommentLike (p : nat) (target : CommentTarget) (id : string) (value : bool)
    : Question (result ProviderError CommentLikeResult).

Section comments.
Context `{!Codec} (url_parse : string → option Url).
Implicit Types target : ProviderItem.
#[local] Notation CommentM := (Fallible Registry Question Stop).

Definition fails {A} (r : result ProcessError A) : CommentM A := try_ (map_err Fails r).
(** A question whose error is the answer, as [f] says it. *)
Definition asks {E A} (f : E → ProcessError) (q : Question (result E A)) : CommentM A :=
  r ← calmly (ask q) ; fails (map_err f r).

Definition resolve_provider_item (id kind : Z) : CommentM (option ProviderItem) :=
  require (0 <? id) (Fails (WrongId (show_i64 id))) ;;
  kind ← fails (ok_or (ItemType.try_from kind) (NoSuchItemType (show_i64 kind))) ;
  let kind := match kind with ItemType.AlbumArtist => ItemType.Artist | k => k end in
  remote ← match kind with
           | ItemType.Mix =>
               mix ← asks DbError (FindMix id) ;
               mix ← fails (ok_or mix (NoSuchMix (show_i64 id))) ;
               mret (mx_remote mix)
           | ItemType.Song | ItemType.Album | ItemType.Artist => mret (Some id)
           | _ => mret None
           end ;
  match remote with
  | None => mret None
  | Some remote =>
      item ← asks DbError (FindItem remote) ;
      item ← fails (ok_or item NotFound) ;
      require (bool_decide (i_type item = kind)) (Fails (WrongId (show_i64 id))) ;;
      p ← calmly (observe (provider (i_provider item))) ;
      p ← fails (ok_or p (NoSuchProvider (show_i64 (i_provider item)))) ;
      mret (Some (mk_ProviderItem remote item p))
  end.

Definition snapshot (id : Z) : CommentM (nat * Z) :=
  r ← calmly (atomically (provider_snapshot id)) ;
  r ← try_ (map_err Panics r) ;
  fails (ok_or r NotAuth).
Definition identity target (epoch : Z) : Identity :=
  mk_Identity instance epoch (i_provider (pi_item target)) (pi_id target)
    (i_native (pi_item target)) (ItemType.to_i32 (i_type (pi_item target))).
Definition digest_text (x : Identity) : result ProcessError string :=
  map_err Internal (bytes ← to_vec x ; digest ← sha256 bytes ; Ok (encode_block digest)).
Definition scope target : CommentM string :=
  '(current, epoch) ← snapshot (i_provider (pi_item target)) ;
  require (Nat.eqb current (pi_provider target)) (Fails NotAuth) ;;
  fails (digest_text (identity target epoch)).
Definition check_scope target (expected : string) : CommentM unit :=
  if is_empty expected then throw (Fails NotAuth)
  else now ← scope target ; require (str_eqb now expected) (Fails NotAuth).

(** The state a token carries, when it is one of this page. *)
Definition page_state (scope : string) (req : GetCommentsReq) (parent : option string)
    : result ProcessError (option string) :=
  match rq_token req with
  | None => Ok None
  | Some token =>
      ensure (slen token <=? 16384) (MissingFields "comment token") ;;
      token ← ok_or (from_str token) (MissingFields "comment token") ;
      ensure (str_eqb (tk_scope token) scope && (tk_id token =? rq_id req) &&
              (tk_kind token =? rq_item_type req) && (tk_order token =? rq_order req) &&
              bool_decide (tk_parent token = parent) && (tk_limit token =? rq_limit req))
        (MissingFields "expired or mismatched comment token") ;;
      Ok (Some (tk_state token))
  end.
Definition page_token (scope : string) (req : GetCommentsReq) (parent : option string)
    (state : string) : Token :=
  mk_Token scope (rq_id req) (rq_item_type req) (rq_order req) parent (rq_limit req) state.
Definition next_token (scope : string) (req : GetCommentsReq) (parent : option string)
    (page : CommentPage) : result ProcessError (option string) :=
  match cp_next_state page with
  | None => Ok None
  | Some state => map_err Internal (Some <$> to_string (page_token scope req parent state))
  end.
Definition target_of target : CommentTarget :=
  mk_CommentTarget (i_native (pi_item target)) (i_type (pi_item target)).
Definition page_question target (parent : option string) (request : CommentPageRequest)
    : Question (result ProviderError (option CommentPage)) :=
  match parent with
  | Some parent => CommentReplies (pi_provider target) (target_of target) parent request
  | None => Comments (pi_provider target) (target_of target) request
  end.

(** Once the provider has answered. *)
Definition answered target (scope : string) (req : GetCommentsReq) (parent : option string)
    (request : CommentPageRequest) (page : option CommentPage) : CommentM CommentsResult :=
  check_scope target scope ;;
  match page with
  | None => mret unsupported
  | Some page =>
      fails (map_err error (validate url_parse page request)) ;;
      token ← fails (next_token scope req parent page) ;
      '(_, epoch) ← snapshot (i_provider (pi_item target)) ;
      mret (mk_CommentsResult true scope (Some (i_provider (pi_item target))) epoch
        (Some (wire_page page token)))
  end.
Definition page_of target (order : CommentOrder) (req : GetCommentsReq)
    (parent expected : option string) : CommentM CommentsResult :=
  sc ← scope target ;
  match expected with Some expected => check_scope target expected | None => mret tt end ;;
  state ← fails (page_state sc req parent) ;
  let request := mk_CommentPageRequest order state (rq_limit req) in
  page ← asks error (page_question target parent request) ;
  answered target sc req parent request page.
Definition list_comments (req : GetCommentsReq) (parent expected : option string) : CommentM CommentsResult :=
  require ((1 <=? rq_limit req) && (rq_limit req <=? 50) &&
           negb (is_some_and parent (λ value, is_empty value || (256 <? slen value))))
    (Fails (MissingFields "comment page parameters")) ;;
  requested_order ← try_ (order (rq_order req)) ;
  target ← resolve_provider_item (rq_id req) (rq_item_type req) ;
  match target with
  | None => mret unsupported
  | Some target => page_of target requested_order req parent expected
  end.

Definition like_target target (req : SetCommentLikeReq) : CommentM CommentLikeResult :=
  check_scope target (sl_scope req) ;;
  result ← asks error (SetCommentLike (pi_provider target) (target_of target) (sl_comment_id req) (sl_value req)) ;
  check_scope target (sl_scope req) ;;
  require (Bool.eqb (lr_liked result) (sl_value req)) (Fails (Internal "unexpected comment reaction")) ;;
  mret (mk_CommentLikeResult (lr_liked result) (lr_like_count result)).
Definition like (req : SetCommentLikeReq) : CommentM CommentLikeResult :=
  require (negb (is_empty (sl_comment_id req) || (256 <? slen (sl_comment_id req))))
    (Fails (MissingFields "comment id")) ;;
  target ← resolve_provider_item (sl_id req) (sl_item_type req) ;
  target ← fails (ok_or target NotImplemented) ;
  like_target target req.

(** The arms of [process_request]. *)
Definition get_comments (req : GetCommentsReq) : CommentM CommentsResult := list_comments req None None.
Definition get_comment_replies (req : GetCommentRepliesReq) : CommentM CommentsResult :=
  query ← fails (ok_or (rr_query req) (MissingFields "query")) ;
  list_comments query (Some (rr_parent_id req)) (Some (rr_scope req)).
Definition set_comment_like (req : SetCommentLikeReq) : CommentM CommentLikeResult := like req.
End comments.
