(* ===== verification/CommentFacts.v ===== *)
(** * What comment pages promise

    A token continues the page it came with and nothing else, and what is answered was asked of
    the login that is still there when the answer is checked. Both are proved of every run of the
    code of [Comments.v], whatever happens to the registry between two looks at it. *)
From S2P Require Import Prelude Text Tables Threads Registry Comments.
From stdpp Require Import gmap.
From stdpp Require Import options.
From Stdlib Require Import Ascii.
#[local] Set Default Proof Using "Type*".

Open Scope Z_scope.
Open Scope list_scope.

(** ** Runs of one piece of code *)

Section runs.
Context {S : Type} {Q : Type → Type}.
(** What the others do to the state. *)
Context (env : relation S).

(** A question that was asked, in which state, and its answer. *)
Inductive Event : Type :=
| Asked {X : Type} (s : S) (q : Q X) (x : X).
Fixpoint runs {A} (c : Code S Q A) (s : S) (t : list Event) (a : A) (s' : S) : Prop :=
  match c with
  | Ret b => s' = s ∧ t = [] ∧ a = b
  | Act d m k => ∃ s1 b s2, rtc env s s1 ∧ m s1 = Some (b, s2) ∧ runs (k b) s2 t a s'
  | Ask q d k => ∃ s1 x t', rtc env s s1 ∧ t = Asked s1 q x :: t' ∧ runs (k x) s1 t' a s'
  end.
Lemma runs_bind {A B} (c : Code S Q A) (f : A → Code S Q B) : ∀ s t b s',
  runs (code_bind c f) s t b s' →
  ∃ a s1 t1 t2, runs c s t1 a s1 ∧ runs (f a) s1 t2 b s' ∧ t = t1 ++ t2.
Proof.
  induction c as [a|X d m k IH|X q d k IH]; cbn; intros s t b s' Hr.
  - by exists a, s, [], t.
  - destruct Hr as (s1 & x & s2 & Hs & Hm & (a & s3 & t1 & t2 & H1 & H2 & Ht)%IH). eauto 15.
  - destruct Hr as (s1 & x & t' & Hs & -> & (a & s3 & t1 & t2 & H1 & H2 & ->)%IH).
    exists a, s3, (Asked s1 q x :: t1), t2. eauto 10.
Qed.
(** With an early return. *)
Lemma runs_then {E A B} (c : Fallible S Q E A) (f : A → Fallible S Q E B) s t r s' :
  runs (c ≫= f) s t r s' →
  (∃ e, r = Err e ∧ runs c s t (Err e) s') ∨
  (∃ a s1 t1 t2, runs c s t1 (Ok a) s1 ∧ runs (f a) s1 t2 r s' ∧ t = t1 ++ t2).
Proof.
  intros ([a|e] & s1 & t1 & t2 & H1 & H2 & Ht)%runs_bind; [right; eauto 10|left].
  destruct H2 as (-> & -> & ->). rewrite app_nil_r in Ht. subst. eauto.
Qed.
Lemma runs_then_Ok {E A B} (c : Fallible S Q E A) (f : A → Fallible S Q E B) s t b s' :
  runs (c ≫= f) s t (Ok b) s' →
  ∃ a s1 t1 t2, runs c s t1 (Ok a) s1 ∧ runs (f a) s1 t2 (Ok b) s' ∧ t = t1 ++ t2.
Proof. by intros [(? & ? & _)|?]%runs_then. Qed.
(** Steps that do not look at the state. *)
Lemma runs_try {E A B} (r : result E A) (f : A → Fallible S Q E B) s t b s' :
  runs (try_ r ≫= f) s t (Ok b) s' ↔ ∃ a, r = Ok a ∧ runs (f a) s t (Ok b) s'.
Proof. destruct r as [a|e]; cbn; naive_solver. Qed.
Lemma runs_require {E B} (b : bool) (e : E) (c : Fallible S Q E B) s t x s' :
  runs (require b e ;; c) s t (Ok x) s' ↔ b = true ∧ runs c s t (Ok x) s'.
Proof. destruct b; cbn; naive_solver. Qed.
(** Every action of the code does only steps of [G]. *)
Fixpoint does (G : relation S) {A} (c : Code S Q A) : Prop :=
  match c with
  | Ret _ => True
  | Act _ m k => (∀ s b s', m s = Some (b, s') → rtc G s s') ∧ ∀ b, does G (k b)
  | Ask _ _ k => ∀ x, does G (k x)
  end.
Lemma does_bind (G : relation S) {A B} (c : Code S Q A) (f : A → Code S Q B) :
  does G c → (∀ a, does G (f a)) → does G (code_bind c f).
Proof using. induction c as [a|X d m k IH|X q d k IH]; cbn; naive_solver. Qed.
Lemma does_then (G : relation S) {E A B} (c : Fallible S Q E A) (f : A → Fallible S Q E B) :
  does G c → (∀ a, does G (f a)) → does G (c ≫= f).
Proof using. intros Hc Hf. apply does_bind; [done|]. intros [a|e]; [apply Hf|done]. Qed.
Lemma runs_steps {A} (c : Code S Q A) : ∀ s t a s',
  does env c → runs c s t a s' → rtc env s s'.
Proof.
  induction c as [b|X d m k IH|X q d k IH]; cbn; intros s t a s' Hk Hr.
  - by destruct Hr as (-> & _).
  - destruct Hr as (s1 & x & s2 & Hs & Hm & Hr), Hk as [Hm' Hk].
    etrans; [done|]. etrans; [by eapply Hm'|by eapply IH].
  - destruct Hr as (s1 & x & t' & Hs & _ & Hr). etrans; [done|by eapply IH].
Qed.
(** Every question of the code is one of [φ]. *)
Fixpoint poses (φ : ∀ X, Q X → Prop) {A} (c : Code S Q A) : Prop :=
  match c with
  | Ret _ => True
  | Act _ m k => ∀ b, poses φ (k b)
  | Ask q _ k => φ _ q ∧ ∀ x, poses φ (k x)
  end.
Lemma poses_bind φ {A B} (c : Code S Q A) (f : A → Code S Q B) :
  poses φ c → (∀ a, poses φ (f a)) → poses φ (code_bind c f).
Proof using. induction c as [a|X d m k IH|X q d k IH]; cbn; naive_solver. Qed.
Lemma poses_then φ {E A B} (c : Fallible S Q E A) (f : A → Fallible S Q E B) :
  poses φ c → (∀ a, poses φ (f a)) → poses φ (c ≫= f).
Proof using. intros Hc Hf. apply poses_bind; [done|]. intros [a|e]; [apply Hf|done]. Qed.
Lemma runs_poses φ {A} (c : Code S Q A) : ∀ s t a s',
  poses φ c → runs c s t a s' → Forall (λ e, match e with Asked _ q _ => φ _ q end) t.
Proof.
  induction c as [b|X d m k IH|X q d k IH]; cbn; intros s t a s' Hk Hr.
  - destruct Hr as (_ & -> & _). constructor.
  - destruct Hr as (s1 & x & s2 & _ & _ & Hr). by eapply IH.
  - destruct Hr as (s1 & x & t' & _ & -> & Hr), Hk as [Hq Hk]. constructor; [done|by eapply IH].
Qed.
End runs.
Arguments Event : clear implicits.

(** ** What the parts of a request do *)

(** The questions for a page, with the state they were asked in and the answer. *)
Definition PageAsked : Type := nat * CommentTarget * option string * CommentPageRequest.
Definition page_event (e : Event Registry Question)
    : option (Registry * PageAsked * result ProviderError (option CommentPage)) :=
  match e with
  | Asked s q x =>
      match q in Question X return X → option (Registry * PageAsked * result ProviderError (option CommentPage)) with
      | Comments p target request => λ x, Some (s, (p, target, None, request), x)
      | CommentReplies p target parent request => λ x, Some (s, (p, target, Some parent, request), x)
      | _ => λ _, None
      end x
  end.
Definition pages (t : list (Event Registry Question)) := omap page_event t.
Definition no_page X (q : Question X) : Prop :=
  match q with Comments _ _ _ | CommentReplies _ _ _ _ => False | _ => True end.
Lemma no_pages t : Forall (λ e, match e with Asked _ q _ => no_page _ q end) t → pages t = [].
Proof.
  induction 1 as [|[X s q x] t Hq _ IH]; [done|]. unfold pages in *. cbn. destruct q; cbn in *; done.
Qed.
Lemma pages_app t1 t2 : pages (t1 ++ t2) = pages t1 ++ pages t2.
Proof. apply omap_app. Qed.

#[local] Notation go := (runs registry_step).

Section facts.
Context `{!Codec} (url_parse : string → option Url).
Implicit Types target : ProviderItem.

(** Two things with one digest. *)
Definition collision : Prop :=
  ∃ x y sc, x ≠ y ∧ digest_text x = Ok sc ∧ digest_text y = Ok sc.

Lemma snapshot_runs id s t p n s' :
  go (snapshot id) s t (Ok (p, n)) s' →
  t = [] ∧ ∃ s1, rtc registry_step s s1 ∧ provider_snapshot id s1 = (Ok (Some (p, n)), s').
Proof.
  unfold snapshot. intros (r & s1 & t1 & t2 & H1 & H2 & ->)%runs_then_Ok. cbn in H1.
  destruct H1 as (s2 & b & s3 & Hs & Hm & -> & -> & [= ->]).
  apply runs_try in H2 as (o & Ho & H2). unfold fails, try_ in H2. cbn in H2.
  destruct H2 as (-> & -> & H2). split; [done|]. exists s2. split; [done|].
  destruct (provider_snapshot id s2) as [r g]. injection Hm as <- <-. cbn in Ho.
  destruct r as [o'|e]; [|done]. injection Ho as ->. destruct o as [[q k]|]; [|done]. by injection H2 as -> ->.
Qed.
(** The registry was looked at once, and had this target's provider. *)
Definition scoped_at target (sc : string) (n : Z) (s s' : Registry) : Prop :=
  provider_snapshot (i_provider (pi_item target)) s = (Ok (Some (pi_provider target, n)), s') ∧
  digest_text (identity target n) = Ok sc.
Lemma scope_runs target s t sc s' :
  go (scope target) s t (Ok sc) s' →
  t = [] ∧ ∃ n s1, rtc registry_step s s1 ∧ scoped_at target sc n s1 s'.
Proof.
  unfold scope. intros ([p n] & s1 & t1 & t2 & (-> & s2 & Hs & Hp)%snapshot_runs & H2 & ->)%runs_then_Ok.
  apply runs_require in H2 as [->%Nat.eqb_eq H2].
  destruct H2 as (-> & -> & H2). split; [done|]. exists n, s2. split_and!; [done..|].
  destruct (digest_text _) as [sc'|] eqn:Hd; [|done]. by injection H2 as ->.
Qed.
Lemma check_scope_runs target sc s t u s' :
  go (check_scope target sc) s t (Ok u) s' →
  t = [] ∧ ∃ n s1, rtc registry_step s s1 ∧ scoped_at target sc n s1 s'.
Proof.
  unfold check_scope. destruct (is_empty sc); [by intros (_ & _ & [=])|].
  intros (now & s1 & t1 & t2 & (-> & n & s2 & Hs & Hp)%scope_runs & H2 & ->)%runs_then_Ok.
  destruct (str_eqb now sc) eqn:Heq; [|by destruct H2 as (_ & _ & [=])].
  apply String.eqb_eq in Heq as ->. destruct H2 as (-> & -> & _). eauto.
Qed.

(** Everything a request does to the registry is a step of it. *)
Lemma does_snapshot id : does registry_step (snapshot id).
Proof.
  cbn. split; [|by intros [[[]|]|]]. intros s b s' Hs. eapply rtc_once, (R_snapshot _ id b). by injection Hs.
Qed.
Lemma does_require (b : bool) (e : Stop) : does registry_step (require (S:=Registry) (Q:=Question) b e).
Proof. done. Qed.
Lemma does_fails {A} (r : result ProcessError A) : does registry_step (fails r).
Proof. done. Qed.
Lemma does_scope target : does registry_step (scope target).
Proof. apply does_then; [apply does_snapshot|]. intros [p n]. by apply does_then. Qed.
Lemma does_check_scope target sc : does registry_step (check_scope target sc).
Proof. unfold check_scope. destruct (is_empty sc); [done|]. by apply does_then; [apply does_scope|]. Qed.

(** Seeing the scope again: the same login, at both times and between. *)
Lemma same_login target sc n m g l a b c d e :
  history g l → rtc registry_step g a → scoped_at target sc n a b → rtc registry_step b c →
  rtc registry_step c d → scoped_at target sc m d e →
  epoch_of c (pi_provider target) = epoch_of d (pi_provider target) ∧
  epoch_of a (pi_provider target) = epoch_of c (pi_provider target) ∨ collision.
Proof.
  intros Hl Hga [Ha Hx] Hbc Hcd [Hd Hy]. destruct (decide (n = m)) as [->|Hne].
  2: { right. exists (identity target n), (identity target m), sc. split; [by intros [= ]|done]. }
  left. destruct (history_steps _ _ _ Hl Hga) as [l' Hla].
  assert (rtc registry_step b d) as Hbd by by etrans.
  destruct (same_stamp _ _ _ _ _ _ _ _ _ _ Hla Ha Hbd Hd) as (_ & _ & He).
  assert (epoch_of b (pi_provider target) = epoch_of a (pi_provider target)) as Hb.
  { unfold epoch_of. by rewrite (snapshot_epochs _ _ _ _ Ha). }
  pose proof (epochs_grow _ _ (pi_provider target) Hbc). pose proof (epochs_grow _ _ (pi_provider target) Hcd). lia.
Qed.

(** ** Requests for pages *)

Lemma asks_runs {E A} (f : E → ProcessError) (q : Question (result E A)) s t r s' :
  go (asks f q) s t r s' →
  ∃ x, t = [Asked s' q x] ∧ rtc registry_step s s' ∧ r = map_err Fails (map_err f x).
Proof. cbn. intros (s1 & x & t' & Hs & -> & -> & -> & ->). eauto. Qed.
Lemma fails_runs {A B} (r : result ProcessError A) (f : A → Fallible Registry Question Stop B) s t x s' :
  go (fails r ≫= f) s t x s' →
  (t = [] ∧ ∃ e, r = Err e ∧ x = Err (Fails e)) ∨ ∃ a, r = Ok a ∧ go (f a) s t x s'.
Proof. destruct r as [a|e]; cbn; [by eauto|]. intros (_ & -> & ->). eauto. Qed.
Lemma require_runs {B} (b : bool) (e : Stop) (c : Fallible Registry Question Stop B) s t x s' :
  go (require b e ;; c) s t x s' → (t = [] ∧ x = Err e) ∨ b = true ∧ go c s t x s'.
Proof. destruct b; cbn; [by eauto|]. intros (_ & -> & ->). eauto. Qed.

Lemma poses_resolve (φ : ∀ X, Question X → Prop) id kind :
  (∀ id, φ _ (FindMix id)) → (∀ id, φ _ (FindItem id)) → poses φ (resolve_provider_item id kind).
Proof.
  intros Hmix Hitem. unfold resolve_provider_item. apply poses_then; [done|intros _]. apply poses_then; [done|intros k].
  assert (∀ E A (f : E → ProcessError) (q : Question (result E A)), φ _ q → poses φ (asks f q)) as Hq.
  { intros E A f q Hq. by split. }
  apply poses_then.
  - destruct k; try done. apply poses_then; [by apply Hq|intros m]. by apply poses_then.
  - intros [remote|]; [|done]. apply poses_then; [by apply Hq|intros item].
    repeat (apply poses_then; [done|intros ?]). done.
Qed.
Lemma poses_scope (φ : ∀ X, Question X → Prop) target : poses φ (scope target).
Proof. apply poses_then; [by intros [[[]|]|]|]. intros [p n]. by apply poses_then. Qed.
Lemma poses_check_scope (φ : ∀ X, Question X → Prop) target sc : poses φ (check_scope target sc).
Proof. unfold check_scope. destruct (is_empty sc); [done|]. by apply poses_then; [apply poses_scope|]. Qed.
Lemma does_asks {E A} (f : E → ProcessError) (q : Question (result E A)) : does registry_step (asks f q).
Proof. done. Qed.
Lemma does_resolve id kind : does registry_step (resolve_provider_item id kind).
Proof.
  unfold resolve_provider_item. apply does_then; [done|intros _]. apply does_then; [done|intros k].
  apply does_then.
  - destruct k; try done. apply does_then; [done|intros m]. by apply does_then.
  - intros [remote|]; [|done]. apply does_then; [done|intros item]. apply does_then; [done|intros it].
    apply does_then; [done|intros _]. apply does_then; [|intros p; by apply does_then].
    split; [|done]. by intros s b s' [= <- <-].
Qed.
Lemma does_answered target sc req parent request page :
  does registry_step (answered url_parse target sc req parent request page).
Proof.
  apply does_then; [apply does_check_scope|intros _]. destruct page as [page|]; [|done].
  apply does_then; [done|intros _]. apply does_then; [done|intros tok].
  apply does_then; [apply does_snapshot|]. by intros [].
Qed.

(** The page a request asks for: of whom, what is known of it, and in which states. *)
Record asks_page (req : GetCommentsReq) (parent : option string) (s : Registry) target
    (o : CommentOrder) (sc : string) (n : Z) (state : option string) (a b s1 : Registry) : Prop := {
  ap_limit : 1 ≤ rq_limit req ≤ 50;
  ap_order : Comments.order (rq_order req) = Ok o;
  ap_before : rtc registry_step s a;
  ap_scope : scoped_at target sc n a b;
  ap_state : page_state sc req parent = Ok state;
  ap_after : rtc registry_step b s1;
}.
Definition request_of (req : GetCommentsReq) (o : CommentOrder) (state : option string) : CommentPageRequest :=
  mk_CommentPageRequest o state (rq_limit req).
Definition page_asked target (parent : option string) (request : CommentPageRequest) : PageAsked :=
  (pi_provider target, target_of target, parent, request).
Lemma pages_cons target parent request s x t :
  pages (Asked s (page_question target parent request) x :: t) = (s, page_asked target parent request, x) :: pages t.
Proof. by destruct parent. Qed.

Lemma page_of_runs target o req parent expected s t r s' :
  go (page_of url_parse target o req parent expected) s t r s' →
  (pages t = [] ∧ ∃ e, r = Err e) ∨
  ∃ sc n state a b s1 answer t2, rtc registry_step s a ∧ scoped_at target sc n a b ∧
    page_state sc req parent = Ok state ∧ rtc registry_step b s1 ∧
    pages t = (s1, page_asked target parent (request_of req o state), answer) :: pages t2 ∧
    match answer with
    | Err _ => t2 = [] ∧ ∃ e, r = Err e
    | Ok page => go (answered url_parse target sc req parent (request_of req o state) page) s1 t2 r s'
    end.
Proof.
  unfold page_of. intros [(e & -> & H1)|(sc & b & t1 & t2 & H1 & H2 & ->)]%runs_then.
  { left. split; [|by eauto]. apply no_pages. eapply runs_poses; [apply poses_scope|exact H1]. }
  apply scope_runs in H1 as (-> & n & a & Ha & Hsc). cbn [app].
  apply runs_then in H2 as [(e & -> & H2)|([] & b' & t1 & t3 & H2 & H3 & ->)].
  { left. split; [|by eauto]. apply no_pages. eapply runs_poses; [|exact H2]. by destruct expected; [apply poses_check_scope|]. }
  assert (t1 = [] ∧ rtc registry_step b b') as [-> Hb].
  { split; [|eapply runs_steps; [|exact H2]; by destruct expected; [apply does_check_scope|]].
    destruct expected as [x|]; [by apply check_scope_runs in H2 as [-> _]|by destruct H2 as (_ & -> & _)]. }
  apply fails_runs in H3 as [(-> & e & _ & ->)|(state & Hst & H3)]; [left; eauto|].
  apply runs_then in H3 as [(e & -> & (x & -> & Hs1 & Hx)%asks_runs)|(page & s1 & t1 & t2 & (x & -> & Hs1 & Hx)%asks_runs & H4 & ->)].
  - right. destruct x as [x|x]; [done|]. exists sc, n, state, a, b, s', (Err x), []. split_and!; [done..|by etrans|by apply pages_cons|done|by eauto].
  - right. destruct x as [x|x]; [|done]. injection Hx as ->. exists sc, n, state, a, b, s1, (Ok x), t2. split_and!; [done..|by etrans|by apply pages_cons|done].
Qed.
(** What was answered with a page. *)
Lemma answered_runs target sc req parent request page s t r s' :
  go (answered url_parse target sc req parent request page) s t r s' →
  pages t = [] ∧ ∀ rsp, r = Ok rsp → rsp ≠ unsupported →
  ∃ p tok m c d, page = Some p ∧ validate url_parse p request = Ok tt ∧ next_token sc req parent p = Ok tok ∧
    rtc registry_step s c ∧ scoped_at target sc m c d ∧ rtc registry_step d s' ∧
    rs_page rsp = Some (wire_page p tok) ∧ rs_scope rsp = sc.
Proof.
  intros Hr. split.
  { apply no_pages. eapply runs_poses; [|exact Hr]. apply poses_then; [apply poses_check_scope|intros _].
    destruct page as [p|]; [|done]. apply poses_then; [done|intros _]. apply poses_then; [done|intros tok].
    apply poses_then; [by intros [[[]|]|]|]. by intros []. }
  intros rsp -> Hsup. apply runs_then_Ok in Hr as ([] & d & t1 & t2 & (-> & m & c & Hc & Hsc)%check_scope_runs & H2 & ->).
  destruct page as [p|]; [|by destruct H2 as (_ & _ & [= ->])].
  apply fails_runs in H2 as [(_ & e & _ & [=])|([] & Hv & H2)].
  apply fails_runs in H2 as [(_ & e & _ & [=])|(tok & Htok & H2)].
  apply runs_then_Ok in H2 as ([q k] & s1 & t1 & t3 & (-> & s2 & Hs2 & Hq)%snapshot_runs & (-> & _ & [= ->]) & ->).
  assert (rtc registry_step d s1) by (etrans; [exact Hs2|by eapply rtc_once, R_snapshot]).
  exists p, tok, m, c, d. split_and!; try done. by destruct (validate url_parse p request) as [[]|].
Qed.
Lemma list_runs req parent expected s t r s' :
  go (list_comments url_parse req parent expected) s t r s' →
  (pages t = [] ∧ ∀ rsp, r = Ok rsp → rsp = unsupported) ∨
  ∃ target o sc n state a b s1 answer t2,
    asks_page req parent s target o sc n state a b s1 ∧
    pages t = (s1, page_asked target parent (request_of req o state), answer) :: pages t2 ∧
    match answer with
    | Err _ => t2 = [] ∧ ∃ e, r = Err e
    | Ok page => go (answered url_parse target sc req parent (request_of req o state) page) s1 t2 r s'
    end.
Proof.
  unfold list_comments. intros [(-> & ->)|[Hlim H1]]%require_runs; [by left|].
  destruct (Comments.order (rq_order req)) as [o|e] eqn:Ho.
  2: { destruct H1 as (_ & -> & ->). by left. }
  apply (runs_then registry_step (resolve_provider_item (rq_id req) (rq_item_type req))) in H1
    as [(e & -> & H1)|(target & s0 & t1 & t2 & H1 & H2 & ->)].
  { left. split; [|done]. apply no_pages. eapply runs_poses; [by apply poses_resolve|exact H1]. }
  rewrite pages_app, (no_pages t1); [|by eapply runs_poses; [apply poses_resolve|exact H1]]. cbn [app].
  apply runs_steps in H1; [|apply does_resolve].
  destruct target as [target|]; [|destruct H2 as (_ & -> & ->); left; split; [done|by intros ? [= <-]]].
  apply page_of_runs in H2 as [(-> & e & ->)|(sc & n & state & a & b & s1 & answer & t3 & Ha & Hsc & Hst & Hs1 & Hp & Hans)]; [by left|].
  right. exists target, o, sc, n, state, a, b, s1, answer, t3. split_and!; [|done..].
  split; try done; [lia|by etrans].
Qed.

(** The same for likes. *)
Definition LikeAsked : Type := nat * CommentTarget * string * bool.
Definition like_event (e : Event Registry Question)
    : option (Registry * LikeAsked * result ProviderError CommentLikeResult) :=
  match e with
  | Asked s q x =>
      match q in Question X return X → option (Registry * LikeAsked * result ProviderError CommentLikeResult) with
      | SetCommentLike p target id value => λ x, Some (s, (p, target, id, value), x)
      | _ => λ _, None
      end x
  end.
Definition likes (t : list (Event Registry Question)) := omap like_event t.
Definition no_like X (q : Question X) : Prop := match q with SetCommentLike _ _ _ _ => False | _ => True end.
Lemma no_likes t : Forall (λ e, match e with Asked _ q _ => no_like _ q end) t → likes t = [].
Proof.
  induction 1 as [|[X s q x] t Hq _ IH]; [done|]. unfold likes in *. cbn. destruct q; cbn in *; done.
Qed.
Lemma like_runs req s t rsp s' :
  go (like req) s t (Ok rsp) s' →
  ∃ target n m a b s1 c, rtc registry_step s a ∧ scoped_at target (sl_scope req) n a b ∧
    rtc registry_step b s1 ∧
    likes t = [(s1, (pi_provider target, target_of target, sl_comment_id req, sl_value req), Ok rsp)] ∧
    rtc registry_step s1 c ∧ scoped_at target (sl_scope req) m c s' ∧ lr_liked rsp = sl_value req.
Proof.
  unfold like. intros [[_ [=]]|[_ H1]]%require_runs.
  apply (runs_then_Ok registry_step (resolve_provider_item (sl_id req) (sl_item_type req))) in H1
    as (target & s0 & t1 & t2 & H1 & H2 & ->).
  assert (likes t1 = []) as Ht1.
  { apply no_likes. eapply runs_poses; [by apply poses_resolve|exact H1]. }
  apply runs_steps in H1; [|apply does_resolve].
  apply fails_runs in H2 as [(_ & e & _ & [=])|(tg & _ & H2)].
  apply runs_then_Ok in H2 as ([] & b & t3 & t4 & (-> & n & a & Ha & Hsc)%check_scope_runs & H3 & ->).
  apply runs_then_Ok in H3 as (res & s1 & t5 & t6 & (x & -> & Hs1 & Hx)%asks_runs & H4 & ->).
  destruct x as [x|]; [|done]. injection Hx as ->.
  apply runs_then_Ok in H4 as ([] & d & t7 & t8 & (-> & m & c & Hc & Hsc')%check_scope_runs & H5 & ->).
  apply require_runs in H5 as [[_ [=]]|[Hv (-> & -> & [= ->])]].
  exists tg, n, m, a, b, s1, c. split_and!; [by etrans|done|done| |done|done|by apply eqb_prop].
  unfold likes in *. rewrite omap_app, Ht1. by destruct x.
Qed.

(** A page that validates. *)
Lemma page_validates page request u :
  validate url_parse page request = Ok u →
  zlen (cp_comments page) ≤ pr_limit request ∧ cp_order page = pr_order request ∧
  (∀ state, cp_next_state page = Some state → slen state ≤ 8192 ∧ pr_state request ≠ Some state) ∧
  (cp_has_more page = true → cp_comments page ≠ []) ∧
  forallb (valid_comment url_parse 0) (cp_comments page) = true.
Proof.
  unfold validate. case_match eqn:Hb; [done|]. intros _.
  repeat match goal with H : _ || _ = false |- _ => apply orb_false_iff in H as [? ?] end.
  repeat match goal with H : negb _ = false |- _ => apply negb_false_iff in H end.
  split_and!; [lia|by eapply bool_decide_eq_true_1| | |done].
  - intros state Hs. rewrite Hs in *. cbn in *.
    match goal with H : _ || _ = false |- _ => apply orb_false_iff in H as [? ?%bool_decide_eq_false_1] end.
    split; [lia|congruence].
  - intros Hm. rewrite Hm in *. cbn in *. by eapply bool_decide_eq_false_1.
Qed.
(** A comment's previews have no previews. *)
Lemma valid_comment_flat c : valid_comment url_parse 0 c = true → Forall (λ p, co_previews p = []) (co_previews c).
Proof.
  intros Hc. destruct c as [i au co ti li lc rc de qu ps]. cbn in Hc.
  repeat match goal with H : _ && _ = true |- _ => apply andb_true_iff in H as [? ?] end.
  match goal with H : forallb _ ps = true |- _ => rewrite forallb_forall in H; rename H into Hps end.
  apply Forall_forall. intros p Hp%list_elem_of_In%Hps. destruct p as [i' au' co' ti' li' lc' rc' de' qu' ps'].
  cbn in Hp. repeat match goal with H : _ && _ = true |- _ => apply andb_true_iff in H as [? ?] end.
  match goal with H : bool_decide (ps' = []) || _ = true |- _ =>
    apply orb_true_iff in H as [?%bool_decide_eq_true_1|?]; [done|lia] end.
Qed.

Lemma next_token_state sc req parent page tok :
  next_token sc req parent page = Ok (Some tok) →
  ∃ state, cp_next_state page = Some state ∧ to_string (page_token sc req parent state) = Ok tok.
Proof.
  unfold next_token. destruct (cp_next_state page) as [state|]; [|done].
  destruct (to_string _) as [text|] eqn:Ht; [|done]. intros [= <-]. eauto.
Qed.

End facts.

(** ** Tokens *)

(** [serde_json] reads what it wrote. *)
Class CodecLaws `{!Codec} : Prop := from_to t text : to_string t = Ok text → from_str text = Some t.

Section tokens.
Context `{!Codec, !CodecLaws}.
Implicit Types target : ProviderItem.

(** What a token is worth with any later request. *)
Lemma page_state_of_token sc req parent state tok sc' req' parent' :
  to_string (page_token sc req parent state) = Ok tok → rq_token req' = Some tok →
  page_state sc' req' parent' =
    if 16384 <? slen tok then Err (MissingFields "comment token")
    else if bool_decide (sc' = sc ∧ rq_id req' = rq_id req ∧ rq_item_type req' = rq_item_type req ∧
           rq_order req' = rq_order req ∧ parent' = parent ∧ rq_limit req' = rq_limit req)
    then Ok (Some state) else Err (MissingFields "expired or mismatched comment token").
Proof.
  intros Htok Hreq. unfold page_state. rewrite Hreq, (from_to _ _ Htok).
  destruct (Z.ltb_spec 16384 (slen tok)); [by replace (slen tok <=? 16384) with false by lia|].
  replace (slen tok <=? 16384) with true by lia.
  cbn [ensure mbind result_bind ok_or page_token tk_scope tk_id tk_kind tk_order tk_parent tk_limit tk_state].
  match goal with |- context [ensure ?b] => match goal with |- context [if ?c then _ else _] =>
    replace b with c; [by destruct c|] end end.
  apply eq_bool_prop_intro. unfold str_eqb.
  rewrite bool_decide_spec, !andb_True, !Is_true_true, !Z.eqb_eq, String.eqb_eq, bool_decide_eq_true. naive_solver.
Qed.

(** Two targets of one scope. *)
Lemma scoped_targets target target' sc n m g l a b c d :
  history g l → rtc registry_step g a → scoped_at target sc n a b →
  rtc registry_step b c → scoped_at target' sc m c d →
  (pi_provider target' = pi_provider target ∧ target_of target' = target_of target ∧
   epoch_of a (pi_provider target) = epoch_of c (pi_provider target')) ∨ collision.
Proof.
  intros Hl Hga [Ha Hx] Hbc [Hc Hy]. destruct (decide (n = m)) as [->|Hne].
  2: { right. exists (identity target n), (identity target' m), sc. split; [by intros [= ]|done]. }
  destruct (decide (identity target m = identity target' m)) as [Hid|Hne].
  2: { right. by exists (identity target m), (identity target' m), sc. }
  left. destruct (history_steps _ _ _ Hl Hga) as [l' Hla].
  destruct (same_stamp _ _ _ _ _ _ _ _ _ _ Hla Ha Hbc Hc) as (_ & -> & He).
  split_and!; [done| |done]. injection Hid as _ _ Hn Ht. unfold target_of. rewrite Hn. f_equal.
  destruct (i_type (pi_item target)), (i_type (pi_item target')); done.
Qed.
End tokens.

(** ** The properties *)

Section properties.
Context `{!Codec, !CodecLaws} (url_parse : string → option Url).

(** C14. A token continues the page it came with: when a page was answered with a token, the
    provider had been asked for it and had answered with a state, and any later request that
    gives the token back, whatever happened meanwhile, carries that state exactly when the token
    is not longer than 16384 bytes and the item, its kind, the order, the parent and the limit
    are those of the first request and the scope is the one the page was answered with;
    otherwise it is refused. A provider that is asked with it is the one that was asked before,
    about the same item and in the same login of it, unless two identities have one digest. *)
Theorem tokens_continue_pages req parent expected g l t rsp g' page tok :
  history g l →
  runs registry_step (list_comments url_parse req parent expected) g t (Ok rsp) g' →
  rs_page rsp = Some page → wp_next_token page = Some tok →
  ∃ g1 p target request answer state,
    pages t = [(g1, (p, target, parent, request), Ok (Some answer))] ∧ cp_next_state answer = Some state ∧
    ∀ req' parent', rq_token req' = Some tok →
      (∀ sc, page_state sc req' parent' =
         if 16384 <? slen tok then Err (MissingFields "comment token")
         else if bool_decide (sc = rs_scope rsp ∧ rq_id req' = rq_id req ∧ rq_item_type req' = rq_item_type req ∧
                rq_order req' = rq_order req ∧ parent' = parent ∧ rq_limit req' = rq_limit req)
         then Ok (Some state) else Err (MissingFields "expired or mismatched comment token")) ∧
      ∀ expected' g2 t' r g3, rtc registry_step g' g2 →
        runs registry_step (list_comments url_parse req' parent' expected') g2 t' r g3 →
        pages t' = [] ∨ ∃ g4 g5 p' target' answer',
          pages t' = [(g5, (p', target', parent, mk_CommentPageRequest (pr_order request) (Some state) (pr_limit request)), answer')] ∧
          (p' = p ∧ target' = target ∧ rtc registry_step g2 g4 ∧ rtc registry_step g4 g5 ∧
             epoch_of g4 p = epoch_of g1 p ∨ collision).
Proof.
  intros Hl Hr Hpage Htok.
  assert (rsp ≠ unsupported) as Hsup by (intros ->; done).
  apply list_runs in Hr as [[_ Hr]|(target & o & sc & n & state & a & b & s1 & answer & t2 & Ha & Hp & Hans)];
    [by destruct (Hsup (Hr _ eq_refl))|].
  destruct answer as [answer|err]; [|by destruct Hans as (_ & ? & ?)].
  apply answered_runs in Hans as [Ht2 Hans].
  destruct (Hans _ eq_refl Hsup) as (pg & tk & m & c & d & -> & _ & Hnext & Hc & [Hscd _] & Hg' & Hpg & <-).
  rewrite Hpage in Hpg. injection Hpg as ->. cbn in Htok. subst tk.
  destruct (next_token_state _ _ _ _ _ Hnext) as (st & Hst & Htext).
  rewrite Ht2 in Hp. exists s1, (pi_provider target), (target_of target), (request_of req o state), pg, st.
  split_and!; [done..|]. intros req' parent' Htk. split; [intros sc'; by apply page_state_of_token|].
  intros expected' g2 t' r g3 Hg2 Hr'.
  apply list_runs in Hr' as [[Hr' _]|(target' & o' & sc' & n' & state' & a' & b' & s1' & answer' & t2' & Ha' & Hp' & Hans')];
    [by left|right].
  destruct Ha as [_ Ho Hga Hsc _ Hbs], Ha' as [_ Ho' Hga' Hsc' Hst' Hbs'].
  pose proof Hsc as [Hsca _]. pose proof Hsc' as [Hsca' _].
  rewrite (page_state_of_token _ _ _ _ _ _ _ _ Htext Htk) in Hst'.
  destruct (16384 <? slen tok); [done|]. case_bool_decide as Hsame; [|done]. injection Hst' as <-.
  destruct Hsame as (-> & Hid & Hkind & Hord & -> & Hlim). rewrite Hord, Ho in Ho'. injection Ho' as <-.
  assert (pages t2' = []) as Hend.
  { destruct answer' as [x|x]; [by apply answered_runs in Hans' as [? _]|by destruct Hans' as [-> _]]. }
  rewrite Hend in Hp'.
  exists a', s1', (pi_provider target'), (target_of target'), answer'.
  split; [by rewrite Hp'; unfold page_asked, request_of; cbn; rewrite Hlim|].
  assert (rtc registry_step a s1) as Has by (etrans; [eapply rtc_once, R_snapshot, Hsca|done]).
  assert (rtc registry_step s1 a') as Hsa.
  { repeat (etrans; [eassumption|]). etrans; [eapply rtc_once, R_snapshot, Hscd|]. by repeat (etrans; [eassumption|]). }
  destruct (scoped_targets target target' (rs_scope rsp) n n' g l a b a' b') as [(-> & -> & He)|Hcol]; try done; [by etrans| |by right].
  left. split_and!; [done..| |].
  - etrans; [by eapply rtc_once, R_snapshot, Hsca'|done].
  - pose proof (epochs_grow _ _ (pi_provider target) Has). pose proof (epochs_grow _ _ (pi_provider target) Hsa). lia.
Qed.

(** C15. What is answered was asked of one login: for a page that is answered, the provider was
    asked once, and between the state it was asked in and a state after its answer no login of it
    has ended, unless two identities have one digest; then it was still the provider of the item.
    The page has at most as many comments as were asked for, at most 50, in the order that was
    asked for; previews are one level deep; a page that has more is not empty, and never
    continues with the token it was asked with. *)
Theorem pages_of_one_login req parent expected g l t rsp g' page :
  history g l →
  runs registry_step (list_comments url_parse req parent expected) g t (Ok rsp) g' →
  rs_page rsp = Some page →
  ∃ g1 g2 target request answer,
    pages t = [(g1, page_asked target parent request, Ok (Some answer))] ∧
    page = wire_page answer (wp_next_token page) ∧
    zlen (cp_comments answer) ≤ rq_limit req ≤ 50 ∧ Comments.order (rq_order req) = Ok (cp_order answer) ∧
    Forall (λ c, Forall (λ p, co_previews p = []) (co_previews c)) (cp_comments answer) ∧
    (cp_has_more answer = true → cp_comments answer ≠ []) ∧
    (is_Some (wp_next_token page) → wp_next_token page ≠ rq_token req) ∧
    rtc registry_step g g1 ∧ rtc registry_step g1 g2 ∧ rtc registry_step g2 g' ∧
    provider (i_provider (pi_item target)) g2 = Some (pi_provider target) ∧
    (epoch_of g1 (pi_provider target) = epoch_of g2 (pi_provider target) ∨ collision).
Proof.
  intros Hl Hr Hpage. assert (rsp ≠ unsupported) as Hsup by (intros ->; done).
  apply list_runs in Hr as [[_ Hr]|(target & o & sc & n & state & a & b & s1 & answer & t2 & Ha & Hp & Hans)];
    [by destruct (Hsup (Hr _ eq_refl))|].
  destruct answer as [answer|err]; [|by destruct Hans as (_ & ? & ?)].
  apply answered_runs in Hans as [Ht2 Hans]. rewrite Ht2 in Hp.
  destruct (Hans _ eq_refl Hsup) as (pg & tok & m & c & d & -> & Hv & Hnext & Hc & Hscd & Hg' & Hpg & <-).
  rewrite Hpage in Hpg. injection Hpg as ->.
  destruct Ha as [Hlim Ho Hga Hsca Hst Hbs], (page_validates _ _ _ _ Hv) as (Hlen & Hord & Hstate & Hmore & Hflat).
  assert (epoch_of s1 (pi_provider target) = epoch_of c (pi_provider target) ∨ collision) as Hlogin.
  { destruct (same_login target _ n m g l a b s1 c d Hl Hga Hsca Hbs Hc Hscd) as [[? _]|?]; [by left|by right]. }
  destruct Hsca as [Hsca _], Hscd as [Hscd _].
  exists s1, c, target, (request_of req o state), pg. split_and!; try done; try lia; try exact Hlen.
  - by rewrite Ho, Hord.
  - apply Forall_forall. intros x Hx. rewrite forallb_forall in Hflat. eapply valid_comment_flat, Hflat.
    by apply list_elem_of_In.
  - cbn. intros [tk ->] Htk. destruct (next_token_state _ _ _ _ _ Hnext) as (st & Hst' & Htext).
    rewrite (page_state_of_token _ _ _ _ _ _ _ _ Htext (eq_sym Htk)) in Hst.
    destruct (16384 <? slen tk); [done|]. case_bool_decide; [|done]. injection Hst as <-.
    by destruct (Hstate _ Hst') as [_ ?].
  - etrans; [exact Hga|]. etrans; [by eapply rtc_once, R_snapshot|done].
  - etrans; [by eapply rtc_once, R_snapshot|done].
  - by apply snapshot_provider in Hscd as [? _].
Qed.
End properties.

Section confirmed.
Context `{!Codec}.

(** A like that is confirmed took effect: the provider was asked once, for this comment of
    the item of the scope, answered with the reaction that was asked for, and no login of it has
    ended between the state it was asked in and the last one, unless two identities have one
    digest. *)
Theorem likes_of_one_login req g l t rsp g' :
  history g l → runs registry_step (like req) g t (Ok rsp) g' →
  lr_liked rsp = sl_value req ∧
  ∃ g1 target n,
    likes t = [(g1, (pi_provider target, target_of target, sl_comment_id req, sl_value req), Ok rsp)] ∧
    digest_text (identity target n) = Ok (sl_scope req) ∧
    rtc registry_step g g1 ∧ rtc registry_step g1 g' ∧
    (epoch_of g1 (pi_provider target) = epoch_of g' (pi_provider target) ∨ collision).
Proof.
  intros Hl (target & n & m & a & b & s1 & c & Ha & Hsc & Hb & Ht & Hc & Hsc' & Hv)%like_runs.
  split; [done|]. exists s1, target, n. split_and!; [done|by destruct Hsc| | |].
  - etrans; [exact Ha|]. etrans; [by eapply rtc_once, R_snapshot, Hsc|done].
  - etrans; [exact Hc|by eapply rtc_once, R_snapshot, Hsc'].
  - destruct (same_login target _ n m g l a b s1 c g' Hl Ha Hsc Hb Hc Hsc') as [[He _]|?]; [left|by right].
    rewrite He. unfold epoch_of. by rewrite (snapshot_epochs _ _ _ _ (proj1 Hsc')).
Qed.
End confirmed.

(** ** An example *)

Section example_runs.
Context {S A : Type} {Q : Type → Type} (env : relation S) (oracle : ∀ X, Q X → X).
(** A run of the code alone is a run. *)
Lemma run_code_runs n : ∀ (c : Code S Q A) s a s',
  run_code oracle n c s = (Ret a, s') → ∃ t, runs env c s t a s'.
Proof.
  induction n as [|n IH]; intros c s a s' Hr.
  - cbn in Hr. injection Hr as -> ->. by exists [].
  - destruct c as [b|X d m k|X q d k]; cbn in Hr.
    + injection Hr as -> ->. by exists [].
    + destruct (m s) as [[b s1]|] eqn:Hm; [|done]. destruct (IH _ _ _ _ Hr) as [t Ht].
      exists t. by exists s, b, s1.
    + destruct (IH _ _ _ _ Hr) as [t Ht]. exists (Asked s q (oracle X q) :: t). by exists s, (oracle X q), t.
Qed.
End example_runs.

Module CommentExample.
(** Tokens in binary. *)
Fixpoint show_bits (p : positive) : string :=
  match p with xH => "" | xO p => String "0"%char (show_bits p) | xI p => String "1"%char (show_bits p) end.
Fixpoint parse_bits (s : string) : positive :=
  match s with
  | EmptyString => xH
  | String c s => if Ascii.eqb c "0"%char then xO (parse_bits s) else xI (parse_bits s)
  end.
Lemma parse_show p : parse_bits (show_bits p) = p.
Proof. induction p as [p IH|p IH|]; cbn; by rewrite ?IH. Qed.
#[local] Instance Token_eq_dec : EqDecision Token.
Proof. solve_decision. Defined.
#[local] Instance Token_countable : Countable Token.
Proof.
  apply (inj_countable'
    (λ t, (tk_scope t, tk_id t, tk_kind t, tk_order t, tk_parent t, tk_limit t, tk_state t))
    (λ '(sc, i, k, o, p, l, st), mk_Token sc i k o p l st)).
  by intros [].
Defined.
#[local] Instance bits : Codec := {
  instance := "this process";
  to_vec x := Ok [id_epoch x; id_provider x; id_item x; id_type x];
  sha256 l := Ok l;
  encode_block l := Text.join "," (map show_u64 l);
  to_string t := Ok (show_bits (encode t));
  from_str s := decode (parse_bits s);
}.
#[local] Instance bits_laws : CodecLaws.
Proof. intros t text [= <-]. cbn. by rewrite parse_show, decode_encode. Qed.

(** Song 5 is one of provider 7's, which has two pages of comments. *)
Definition song : Item := mk_Item "native" (Some 1) 7 ItemType.Song 0 0 0.
Definition said (id : string) : Comment :=
  mk_Comment id (mk_CommentAuthor "a" "A" None) "text" (Some 1) None None None false None [].
Definition page_at (r : CommentPageRequest) : CommentPage :=
  match pr_state r with
  | None => mk_CommentPage [said "c1"] (pr_order r) [Hot; Latest] None true (Some "p2") false true
  | Some _ => mk_CommentPage [said "c2"] (pr_order r) [Hot; Latest] None false None false true
  end.
Definition oracle X (q : Question X) : X :=
  match q with
  | FindMix _ => Ok None
  | FindItem id => Ok (if id =? 5 then Some song else None)
  | Comments _ _ r | CommentReplies _ _ _ r => Ok (Some (page_at r))
  | SetCommentLike _ _ _ value => Ok (mk_CommentLikeResult value (Some 3))
  end.
Definition start : Registry := add_provider 7 1 no_providers.
Lemma started : history start [].
Proof. apply H_add, H_start. Qed.
Definition asking (token : option string) : GetCommentsReq := mk_GetCommentsReq 5 101 1 token 20.
Definition no_url (_ : string) : option Url := None.
Definition ran (req : GetCommentsReq) (s : Registry) : CommentsResult * Registry :=
  match run_code oracle 40 (list_comments no_url req None None) s with
  | (Ret (Ok r), s) => (r, s)
  | (_, s) => (unsupported, s)
  end.
Definition first : CommentsResult := (ran (asking None) start).1.
Definition token : option string := rs_page first ≫= wp_next_token.
Definition second : CommentsResult := (ran (asking token) (ran (asking None) start).2).1.
Example pages_follow :
  map wc_id (default [] (wp_comments <$> rs_page first)) = ["c1"%string] ∧
  map wc_id (default [] (wp_comments <$> rs_page second)) = ["c2"%string] ∧
  (rs_page second ≫= wp_next_token) = None.
Proof. vm_compute. done. Qed.
Lemma first_run : ∃ t, runs registry_step (list_comments no_url (asking None) None None) start t
  (Ok first) (ran (asking None) start).2.
Proof. eapply (run_code_runs _ oracle 40). vm_compute. reflexivity. Qed.

Lemma tokens_continue_pages_witness :
  ∃ state, page_state (rs_scope first) (asking token) None = Ok (Some state).
Proof.
  destruct first_run as [t Hrun].
  destruct (tokens_continue_pages no_url (asking None) None None start [] t first _
    (default (mk_WirePage [] 0 [] None false None false false) (rs_page first)) (default "" token) started Hrun)
    as (g1 & p & target & request & answer & state & _ & _ & Hall); [vm_compute; reflexivity..|].
  destruct (Hall (asking token) None) as [Hst _]; [vm_compute; reflexivity|].
  exists state. rewrite Hst.
  replace (16384 <? slen (default "" token)) with false by (vm_compute; reflexivity).
  by rewrite bool_decide_eq_true_2 by (split_and!; reflexivity).
Defined.
Lemma pages_of_one_login_witness :
  ∃ page, rs_page first = Some page ∧ wp_next_token page ≠ rq_token (asking None).
Proof.
  destruct first_run as [t Hrun].
  set (page := default (mk_WirePage [] 0 [] None false None false false) (rs_page first)).
  exists page. split; [vm_compute; reflexivity|].
  destruct (pages_of_one_login no_url (asking None) None None start [] t first _ page started Hrun)
    as (g1 & g2 & target & request & answer & H); [vm_compute; reflexivity|].
  destruct H as (_ & _ & _ & _ & _ & _ & Htok & _). apply Htok. vm_compute. eauto.
Defined.

Definition liking : SetCommentLikeReq := mk_SetCommentLikeReq 5 101 "c1" true (rs_scope first).
Lemma like_run : ∃ t g', runs registry_step (like liking) start t (Ok (mk_CommentLikeResult true (Some 3))) g'.
Proof.
  destruct (run_code_runs registry_step oracle 40 (like liking) start (Ok (mk_CommentLikeResult true (Some 3)))
    (run_code oracle 40 (like liking) start).2) as [t Ht]; [vm_compute; reflexivity|eauto].
Qed.
Lemma likes_of_one_login_witness : lr_liked (mk_CommentLikeResult true (Some 3)) = sl_value liking.
Proof.
  destruct like_run as (t & g' & Hrun).
  destruct (likes_of_one_login liking start [] t _ g' started Hrun) as [H _]. exact H.
Defined.
End CommentExample.
